(* ===== verification/_CoqProject ===== *)
-Q . S2P
Prelude.v
Json.v
Contracts.v
Kernel.v
KernelFacts.v
Journal.v
JournalFacts.v
Chain.v
Session.v
Snapshot.v
SnapshotFacts.v
Utf8.v
OwnerAuth.v
Ownership.v
OwnerFacts.v
ItemVerification.v
Replay.v
VerificationFacts.v
ItemFacts.v
HonestClient.v
CryptoBackend.v
EncounterWire.v
EncounterWireFacts.v
EncounterHttp.v
EncounterHttpFacts.v
EncounterRequestBounds.v
EncounterBundle.v
InventoryCheckpoint.v
InventoryRanges.v
Async.v
EncounterLedger.v
EncounterStore.v
ArchiveStore.v
ArchiveFacts.v
Generations.v
Inventory.v
EncounterAuthority.v
EncounterInvariant.v
AuthorityFacts.v
EncounterSafety.v
EncounterLiveness.v
ArchiveSafety.v
GenerationFacts.v
ServiceSafety.v
InventoryFacts.v
InventorySafety.v
InventoryPages.v
EncounterApi.v
Confinement.v
EncounterApiSafety.v
IndexedDb.v
PayloadQueue.v
PayloadQueueFacts.v
PayloadPool.v
PayloadPoolFacts.v
PayloadPoolSafety.v
PayloadPoolOpen.v
EncounterSessionStore.v
EncounterRecorder.v
EncounterSession.v
EncounterSessionSafety.v
EncounterLog.v
EncounterHttpClient.v
KeyLifecycle.v
KeyLifecycleFacts.v
KeyLedger.v
KeyLedgerFacts.v
KeyStores.v
KeyStoreFacts.v
KeySigner.v
KeySignerFacts.v
ObjectStore.v
PlayerLocal.v
PlayerStore.v
PlayerStoreFacts.v
PlayerStoreSteps.v
PlayerStoreSafety.v
