(* ===== verification/Prelude.v ===== *)
(** * Verification of the cf-game-audit reference game

    The program under verification is the TypeScript of
    [examples/cf-game-audit/game] and the parts of the examples it rests on: a
    deterministic game kernel, the audit journal a client keeps of its run, the
    authority that verifies checkpoints and items by replay, item ownership,
    the commit-reveal encounters of the authority, the lifecycle of the keys
    that verify its statements, and the store of evidence a player keeps.  All paths below are
    under [src/examples/cf-game-audit/game] unless they say otherwise.

    ** How the program works

    A client advances the kernel ([kernel.ts]) one tick per input.  Every tick
    is appended to a journal ([audit/journal.ts]); each thirty events are sealed
    into a checkpoint that commits to the events, the state and the previous
    checkpoint.  A run at a checkpoint boundary is persisted and restored
    ([audit/snapshot.ts]).  To have an item verified the client sends a
    checkpoint with its events; the authority replays them
    ([authority/item-verification.ts]), checks the owner's signature
    ([authority/owner-authentication.ts]) and issues a receipt, which creates
    the ownership head of the item; transfers move it
    ([authority/asset-ownership.ts]).

    In an encounter the authority ([encounter/authority.ts]) issues a ticket
    that commits to a secret seed; the owner commits to the hash of an input log
    before the release time; only then is the seed revealed, the log replayed
    and a receipt issued.  Rows live in a ledger ([encounter/ledger.ts]) that is
    shared by all requests; handlers are asynchronous and interleave at their
    awaits.  The texts that are hashed and signed are those of
    [encounter/wire.ts], [encounter/archive.ts] and [encounter/generation.ts];
    the backend is [examples/player-local-runtime/crypto-backend.ts].

    The rest of the encounter service shares one database with the ledger.
    Commands arrive as signed JSON ([encounter/http-wire.ts]).  An archive
    ([encounter/archive-store.ts]) takes replay evidence into custody under a
    byte budget, until the authority releases it.  A unit runs in generations
    ([encounter/generation-store.ts]): when everything in one is closed, one
    transaction seals it, moves its rows to the origins, retires its archive
    objects and moves the fence.  An owner gives up a terminated start in
    [encounter/recovery-store.ts].  Settled receipts of closed generations are
    indexed per owner under a signed head ([encounter/inventory-store.ts]); those
    without items are retired from it and deleted.  Requests enter through
    [cf-game-audit/src/encounter-api.ts], which authenticates them, admits starts
    and checks who owns a ticket; [encounter-evidence.ts] ties cases to tickets.

    The client keeps its logs in the browser: a queue of chunks in a database of
    its own ([cf-game-audit/web/src/audit/bounded-payload-queue.ts]) or many
    queues in one pool with a shared budget ([payload-pool.ts]), where a queue
    can reserve room before a game starts and nothing is deleted without a grant
    of the authority.  A page plays one encounter after the other
    ([encounter-session.ts]): it keeps its sessions and receipts in a bounded
    image that all pages of the device share ([encounter-session-store.ts]),
    records the log of an encounter in a queue of the pool and exchanges it with
    the authority ([encounter-recorder.ts]) over signed HTTP requests
    ([encounter-http.ts]).

    Statements are signed under keys that change.  A signer has a slot of keys,
    numbered versions with disjoint windows of validity, of which each can be
    revoked from a moment on; a statement names the version it is signed with and
    the time it was issued ([player-local-runtime/key-lifecycle.ts]).  Commands
    that name the revision they expect provision, rotate and revoke, and each is
    kept as an event beside the records ([key-lifecycle-ledger.ts]), in the SQL
    storage of a worker ([cf-game-audit/src/verification-key-lifecycle-store.ts])
    or in the browser ([web/src/audit/verification-key-lifecycle-indexeddb.ts]).
    A signer service ([cf-game-audit/src/verification-key-signer-worker.ts])
    holds one private key behind a bearer token, brings its slot in step with its
    configuration, and releases a signature only when it verifies.

    A player keeps evidence of its own ([player-local-runtime/contracts.ts] and
    [cf-game-audit/web/src/audit/player-local-indexeddb.ts]): a chain of sealed
    checkpoints above a retention anchor, the events and equivocations it has
    seen, an outbox of checkpoints to deliver with their acknowledgements, holds
    that forbid pruning, the cursors of an inbox of evidence, and the jobs that
    poll it.  Every write is one transaction that checks a write set against the
    revision it was computed from.

    ** The files

    - [Prelude]: strings, errors, 32-bit and safe-integer arithmetic, sorting,
      hexadecimal, the tactics and the lemmas shared by all files.
    - [Json]: the values that cross untrusted boundaries, [JSON.stringify] and
      [JSON.parse], and that printing is injective.  [Utf8]: [TextEncoder] and
      the fatal [TextDecoder], and their round trip.
    - [Contracts], [Kernel], [KernelFacts]: [contracts.ts], [content.ts],
      [kernel.ts] and what a run keeps true.
    - [Journal], [JournalFacts], [Chain], [Session]: [audit/journal.ts], its
      canonical encodings, the chain invariant, and the client as any
      interleaving of ticks, acknowledgements and verifications.
    - [Snapshot], [SnapshotFacts]: [audit/snapshot.ts].
    - [OwnerAuth], [Ownership], [OwnerFacts]: [authority/owner-authentication.ts]
      and [authority/asset-ownership.ts].
    - [ItemVerification], [Replay], [VerificationFacts], [ItemFacts],
      [HonestClient]: [authority/item-verification.ts].
    - [CryptoBackend]: [crypto-backend.ts] over a WebCrypto parameter.
    - [EncounterWire], [EncounterWireFacts]: [encounter/contracts.ts],
      [wire.ts], [validation.ts], [preview.ts] and the statements of
      [archive.ts] and [generation.ts].
    - [EncounterHttp], [EncounterHttpFacts], [EncounterRequestBounds]:
      [encounter/http-wire.ts], [recovery.ts] and the command checks of
      [inventory-checkpoint.ts].
    - [EncounterBundle]: the bundle codec and the
      verification of [archive.ts] and [generation.ts].
    - [InventoryCheckpoint], [InventoryRanges]: [inventory-checkpoint.ts] and
      [inventory-ranges.ts].
    - [Async]: asynchronous handlers as resumptions over a shared store, a
      rely-guarantee specification of them, framing, and the pool that runs
      many.
    - [EncounterLedger], [EncounterAuthority], [EncounterInvariant],
      [AuthorityFacts], [EncounterSafety], [EncounterLiveness]:
      [encounter/ledger.ts], [encounter/authority.ts] and
      [encounter/termination-policy.ts] with the policy functions of
      [src/x/game_audit/audit/encounter_termination.mbt].
    - [EncounterStore]: the whole database, transactions and
      roll-back, the authority as it sees the database.
    - [ArchiveStore], [ArchiveFacts], [ArchiveSafety]: [archive-store.ts].
    - [Generations], [GenerationFacts]: [generation-store.ts] and
      [recovery-store.ts] with the guards of [encounter_generation.mbt] and
      [encounter_recovery.mbt].
    - [ServiceSafety]: authority, archive and generations together.
    - [Inventory], [InventoryFacts], [InventorySafety], [InventoryPages]:
      [inventory-store.ts] with the guard of [encounter_empty_receipt.mbt].
    - [EncounterApi], [Confinement], [EncounterApiSafety]: [encounter-api.ts] and
      [encounter-evidence.ts].
    - [IndexedDb], [PayloadQueue], [PayloadQueueFacts]: the transactions of the
      browser's database, [payload-budget.ts] with the guards of
      [src/audit/payload_budget.mbt], [payload_scope_budget.mbt] and
      [payload_reservation.mbt], and [bounded-payload-queue.ts].
    - [PayloadPool], [PayloadPoolFacts], [PayloadPoolSafety],
      [PayloadPoolOpen]: [payload-pool.ts].
    - [KeyLifecycle], [KeyLifecycleFacts]: [key-lifecycle.ts], compiled
      histories and key-bound statements.  [KeyLedger], [KeyLedgerFacts]:
      [key-lifecycle-ledger.ts].  [KeyStores], [KeyStoreFacts]: the two stores
      of the ledger, behind the interface [LifecycleStore].  [KeySigner],
      [KeySignerFacts]: [verification-key-signer-worker.ts].
    - [ObjectStore]: object stores with structured keys and unique indexes.
      [PlayerLocal]: [player-local-runtime/contracts.ts].
      [PlayerStore], [PlayerStoreFacts], [PlayerStoreSteps],
      [PlayerStoreSafety]: [player-local-indexeddb.ts].
    - [EncounterSessionStore], [EncounterRecorder], [EncounterSession],
      [EncounterSessionSafety], [EncounterLog], [EncounterHttpClient]: [encounter-session-contracts.ts],
      [encounter-session-store.ts], [encounter-recorder.ts],
      [encounter-session.ts] and [encounter-http.ts] of the browser.

    A function of the source is a definition of the same name; an interface is
    a record, a tagged union an inductive type.  A function that can throw
    returns [throws]; a method that returns [{ ok: false, reason }] returns
    [result].  A value of type [unknown] is a [jsval].  Mutated state is passed
    explicitly; the ledger is a pair of tables in the store [World], which also
    holds what the host answers.

    ** What the theorems show

    - Kernel: a run keeps its state well formed and every number of its states
      and steps a safe integer; loot is, item by item, what the effects report,
      has one provenance and is verified once
      ([run_keeps_invariant], [run_numbers_safe], [loot_conserved],
      [loot_provenance], [applyItemVerification_marks_one],
      [verified_items_are_final], [advanceGame_total]).
    - Journal and session: encodings determine what they encode
      ([event_payload_roundtrip], [canonicalGameState_binds]); in every session
      the journal is a gap-free hash chain over the run, accepts every tick the
      kernel accepts, lists exactly the assets of the game and is acknowledged
      in order; the asynchronous operations agree with the synchronous ones.
    - Snapshots: they round trip, what is restored is consistent, and two
      restored runs with one last digest are the same run or a collision.
    - Authority: what it verifies is one run of the kernel
      ([verified_history_is_a_run]) and what an honest client seals is verified,
      epoch after epoch, whatever it has acknowledged or verified in between
      ([honest_checkpoint_verifies]); nothing submitted makes it throw; receipts
      are issued for earned loot only and are accepted by the client; both
      backends agree.
    - Ownership: texts are domain separated, signatures made verify, histories
      are linear, cannot be replayed and fork only with a collision.
    - Encounter wire: logs round trip, a committed root fixes the log, texts of
      different kinds never coincide.
    - Encounter authority: no interleaving breaks the ledger
      ([authority_interleavings_safe]); a settlement is the replay of the
      committed log with the committed seed; a start is spent once; a right to
      delete evidence is final; certificates pass the clients' verification;
      and an honest encounter settles.
    - Requests: accepted bodies have the types the code casts them to, the
      signed text determines the request, what a client signs arrives whatever
      the pieces ([accepted_requests_are_typed], [request_frame_binds],
      [signed_request_arrives], [bounded_reader_ignores_pieces]).
    - Archive: accounting is exact, evidence stays until the authority signs it
      off, and what is read back verifies ([archive_accounting_exact],
      [evidence_survives_until_release], [archived_evidence_verifies]).
    - Generations: closing one keeps all evidence that is not relinquished, the
      fences of ledger and archive move together and never back, and seals
      verify ([closing_keeps_evidence], [generations_advance_in_step],
      [rolled_seals_verify]).
    - The service: the invariants of authority, archive and generations hold
      together under every interleaving of their calls, and a generation closes
      at a moment at which nothing in it is open ([service_interleavings_safe]).
    - Inventory: the interval table refines a set of ordinals; the index is a
      partition counted by its signed head; heads verify; reading it page by
      page, while it does not change and its receipts are readable, ends,
      satisfies the client and misses nothing
      ([empty_ranges_refine_a_set], [inventory_index_partitions],
      [inventory_checkpoints_verify], [inventory_pages_terminate]).
      [admission_hides_compacted_receipts] is a state in which it cannot be read
      because a record has outgrown its bound.
    - The API: what is not authenticated at the reading of the clock it takes
      changes nothing, the request of an owner leaves the tickets, archives and
      inventories of others alone and changes nothing when it names one, an
      admission is made once and within the bound, and a case holds its ticket
      ([unauthorized_requests_change_nothing], [owner_requests_are_confined],
      [provisioning_admits_once], [admissions_stay_bounded],
      [bound_case_holds_its_ticket]).
    - Queue and pool: the stored queue refines a queue of consecutive chunks; the
      pool's counters are sums over its queues and fit in the budget, whatever
      the interleaving; a stored chunk stays until a genuine grant; reserved
      credit cannot be used up by other queues; and opening accepts exactly the
      databases with the invariant ([payload_queue_refines_queue],
      [stored_chunks_survive], [payload_pool_is_sound],
      [reserved_credit_is_honoured], [pool_opens_exactly_accounted],
      [queue_opens_exactly_queues]).
    - The client: however many pages share a session image and whatever the
      network answers, the image changes only by steps that keep its evidence,
      and a receipt once retained stays, or is covered by a signed checkpoint
      ([session_image_evolves], [retained_receipts_survive]); an encounter that
      was started can record its log ([started_encounter_can_record]); a call of
      the HTTP transport makes the service run exactly its command
      ([http_call_runs_its_command]).  [toy_session_settles] plays an encounter
      against the authority from start to cleanup.
    - Keys: compiling accepts exactly the histories of a declarative
      specification, and a statement that verifies is signed under the one key of
      the history it names, whose window holds its time ([compiled_history_exact],
      [verified_statement_names_its_key]); a command does not change what verifies
      of earlier statements ([mutations_keep_the_past]); both stores hold a sound
      ledger under any interleaving of commands ([lifecycle_interleavings_safe]);
      what the signer releases verifies ([released_statements_verify]).
      [accepted_commands_can_freeze_slot]: a command can be accepted after which
      its slot refuses every other.
    - Player-local store: under any interleaving of calls with NUL-free digests
      and any failing writes the image stays valid and opens, until the revision
      is no exact number any more ([player_store_stays_valid]); held and disputed
      evidence is kept ([held_evidence_survives]); a prune takes a settled prefix
      and nothing else ([pruning_takes_settled_prefix]); an attempt to poll is
      completed once ([attempt_completes_once]).  [nul_digest_locks_store]: with
      NUL characters in digests the store can be made to refuse its own image.

    ** Parameters and hypotheses

    Digest adapters, signers and signature verifiers are arguments; theorems
    that need more say so: that a digest is 64 hexadecimal digits, that a
    verifier accepts what a signer signs, that an asynchronous backend resolves
    to the synchronous result, that SHA-256 gives 32 bytes ([SubtleLaws]).
    Where the program relies on a hash being injective the conclusion has a
    collision of texts at hand as the alternative; only the inventory, whose
    compare-and-set of heads goes by their ids, assumes that ids of valid
    heads determine the revision ([CheckpointIds]).  [JsHost] is what the
    language leaves to its implementation: [localeCompare] and the reading of
    number tokens that are not safe decimal integers.  [SigningLaws] is
    Ed25519 as the signer relies on it: signatures have 64 bytes, and a private
    key with one accepted signature is the key of the public key.  [UrlParser] is
    the URL parser of the platform.  Each hypothesis has a
    witness that instantiates it with concrete functions.

    ** Bounds and fuel

    Recursion is structural, with two exceptions.  [parse_text] runs with the
    length of its input as fuel, and [Json] proves that printing and parsing
    round trip with it.  [issue] starts over when its insertion is refused; the
    number of rounds is an argument, the theorems hold for every number, and a
    refused insertion means that the start key or the drawn identifier is in the
    ledger already.  The retry loops of the authority have the eight rounds of
    the source.  A handler left alone always finishes, because what remains of
    it after a suspension is smaller ([finish]).

    ** Modelling choices

    Numbers of the program are integers; a number that is not is the value
    [JFloat], which every check of the source refuses.  An SQL table is the
    function of its rows that the statements compute; a statement is atomic, and
    the row stored as JSON is the row that was stringified.  A non-null assertion
    throws where the value is absent; the invariant shows it never is.  One
    suspension stands for any number of awaits in a row.  The verifiers of a key
    registry are a function of the key id, and the members of [Object.prototype]
    are not looked up in it; the length SQLite gives a text counts its code
    points up to the first NUL.

    ** Not modelled, and the plan

    [recovery-store.ts] and the retirement of empty receipts delete rows for
    good.  Both are modelled, but the theorems on interleavings of the authority
    are about the other calls: a deleted ticket id could be drawn again, which
    only the randomness of the identifiers excludes.  They also leave out the
    claims of evidence cases on tickets while generations are closed.

    The network of the client is any function, and what a transport answers has
    the type its interface declares; a recorder with a pool of its own, and
    [close] and [interrupt] of a controller in the middle of an operation, are
    left out.  Opening an IndexedDB database and upgrading its schema belong to
    the platform.  The rest of the worker in [cf-game-audit/src], the rendering
    and storage glue of [web], the runtime that drives the player-local store,
    its SQLite twin in the Node runtime and the MoonBit core are not modelled:
    they are input and output around the logic above, or have proofs of their
    own. *)
From stdpp Require Export base tactics list strings sorting gmap.
From Stdlib Require Export ZArith NArith Lia ZifyN ZifyNat Ascii.
Set Default Goal Selector "!".
Open Scope Z_scope.

(** ** Notations and tactics *)

Declare Scope js_scope.
Delimit Scope js_scope with js.
Open Scope js_scope.

(** A JavaScript string is its sequence of UTF-16 code units. *)
Abbreviation jsstr := (list N).

(** The code units of an ASCII literal. *)
Definition js (s : string) : jsstr :=
  N_of_ascii <$> String.list_ascii_of_string s.
Arguments js _%_string.

Create HintDb js_db.

(** Splits boolean conjunctions and disjunctions in the context. *)
Ltac bool_split :=
  repeat match goal with
  | H : (_ && _)%bool = true |- _ => apply andb_true_iff in H; destruct H
  | H : (_ || _)%bool = false |- _ => apply orb_false_iff in H; destruct H
  | H : negb _ = false |- _ => apply negb_false_iff in H
  | H : negb _ = true |- _ => apply negb_true_iff in H
  | H : bool_decide _ = true |- _ => apply bool_decide_eq_true in H
  | H : bool_decide _ = false |- _ => apply bool_decide_eq_false in H
  | H : Z.eqb _ _ = true |- _ => apply Z.eqb_eq in H
  | H : Z.eqb _ _ = false |- _ => apply Z.eqb_neq in H
  | H : Z.leb _ _ = true |- _ => apply Z.leb_le in H
  | H : Z.leb _ _ = false |- _ => apply Z.leb_gt in H
  | H : Z.ltb _ _ = true |- _ => apply Z.ltb_lt in H
  | H : Z.ltb _ _ = false |- _ => apply Z.ltb_ge in H
  | H : N.eqb _ _ = true |- _ => apply N.eqb_eq in H
  | H : N.eqb _ _ = false |- _ => apply N.eqb_neq in H
  | H : N.leb _ _ = true |- _ => apply N.leb_le in H
  | H : N.leb _ _ = false |- _ => apply N.leb_gt in H
  | H : N.ltb _ _ = true |- _ => apply N.ltb_lt in H
  | H : N.ltb _ _ = false |- _ => apply N.ltb_ge in H
  end.

(** ** Results *)

(** A tagged union [{ ok: true, .. } | { ok: false, reason }]. *)
Inductive result (A E : Type) : Type :=
| Ok (a : A)
| Err (e : E).
Arguments Ok {A E} _.
Arguments Err {A E} _.

Definition is_ok {A E} (r : result A E) : bool :=
  match r with Ok _ => true | Err _ => false end.

(** A computation that may throw: [inl message] is the [Error] thrown. *)
Abbreviation throws A := (sum jsstr A).

Definition throw_bind {A B} (m : throws A) (k : A -> throws B) : throws B :=
  match m with inl e => inl e | inr a => k a end.
Notation "'let!' x ':=' m 'in' k" := (throw_bind m (fun x => k))
  (at level 10, x pattern, m at level 200, k at level 200) : js_scope.

(** [throw_if c msg k]: [if (c) throw new Error(msg); k]. *)
Definition throw_if {A} (c : bool) (msg : jsstr) (k : throws A) : throws A :=
  if c then inl msg else k.

(** [guards H] splits the chain of early returns that a hypothesis of the
    shape [body = result] goes through, keeping one equation per test. *)
Ltac guard_step H :=
  match type of H with
  | (if ?b then _ else _) = _ =>
      let E := fresh "Hg" in destruct b eqn:E; try discriminate H
  | (match ?o with Some _ => _ | None => _ end) = _ =>
      let E := fresh "Ho" in destruct o eqn:E; try discriminate H
  | (match ?o with Ok _ => _ | Err _ => _ end) = _ =>
      let E := fresh "Hr" in destruct o eqn:E; try discriminate H
  | (match ?o with inl _ => _ | inr _ => _ end) = _ =>
      let E := fresh "Hs" in destruct o eqn:E; try discriminate H
  end.
Ltac guards H := repeat (guard_step H; cbv beta zeta in H).

(** ** Numbers *)

(** Number.MAX_SAFE_INTEGER. *)
Definition MAX_SAFE_INTEGER : Z := 2 ^ 53 - 1.

(** Number.isSafeInteger, on an integral number. *)
Definition isSafeInteger (z : Z) : bool :=
  (- MAX_SAFE_INTEGER <=? z) && (z <=? MAX_SAFE_INTEGER).

(** ToUint32 and ToInt32 of the language. *)
Definition to_uint32 (z : Z) : Z := z mod 2 ^ 32.
Definition to_int32 (z : Z) : Z :=
  let u := z mod 2 ^ 32 in if u <? 2 ^ 31 then u else u - 2 ^ 32.

(** [a ^ b], [a >>> n] and [Math.imul(a, b)]. *)
Definition js_xor (a b : Z) : Z := to_int32 (Z.lxor (to_int32 a) (to_int32 b)).
Definition js_shr (a n : Z) : Z := Z.shiftr (to_uint32 a) n.
Definition js_imul (a b : Z) : Z := to_int32 (a * b).

(** ** Digits *)

(** The code unit of a digit in base at most 16. *)
Definition digit_unit (d : N) : N := if (d <? 10)%N then (48 + d)%N else (87 + d)%N.

(** Most significant digit first; [fuel] bounds the number of digits. *)
Fixpoint digits_aux (b : N) (fuel : nat) (n : N) (acc : jsstr) : jsstr :=
  match fuel with
  | O => acc
  | S f =>
      let acc' := digit_unit (n mod b) :: acc in
      if (n / b =? 0)%N then acc' else digits_aux b f (n / b)%N acc'
  end.
Definition digits (b n : N) : jsstr := digits_aux b (S (N.to_nat (N.size n))) n [].

(** [String(z)] of an integral number and [z.toString(16)] of a natural one. *)
Definition num_to_string (z : Z) : jsstr :=
  if z <? 0 then 45%N :: digits 10 (Z.to_N (- z)) else digits 10 (Z.to_N z).
Definition hex_of (z : Z) : jsstr := digits 16 (Z.to_N z).
Definition pad_start (n : nat) (fill : N) (s : jsstr) : jsstr :=
  replicate (n - length s) fill ++ s.

(** ** Strings *)

(** Code-unit order, the order of [Array.prototype.sort] on strings. *)
Fixpoint str_leb (a b : jsstr) : bool :=
  match a, b with
  | [], _ => true
  | _ :: _, [] => false
  | x :: a', y :: b' =>
      if (x <? y)%N then true else if (y <? x)%N then false else str_leb a' b'
  end.

Definition str_eqb (a b : jsstr) : bool := bool_decide (a = b).

(** [s.length] as a number. *)
Definition slen (s : jsstr) : Z := Z.of_nat (length s).

Fixpoint join (sep : jsstr) (l : list jsstr) : jsstr :=
  match l with
  | [] => []
  | [s] => s
  | s :: l' => s ++ sep ++ join sep l'
  end.

Definition is_lower_hex (c : N) : bool :=
  ((48 <=? c) && (c <=? 57) || (97 <=? c) && (c <=? 102))%N.

(** [/^[0-9a-f]{n}$/.test(s)]. *)
Definition is_hex (n : nat) (s : jsstr) : bool :=
  (length s =? n)%nat && forallb is_lower_hex s.

(** ** Arrays *)

Section Sorting.
Context {A : Type} (le : A -> A -> bool).

Fixpoint sort_insert (x : A) (l : list A) : list A :=
  match l with
  | [] => [x]
  | y :: l' => if le x y then x :: y :: l' else y :: sort_insert x l'
  end.

(** The stable sort of [Array.prototype.sort]; [le x y] is
    [comparator(x, y) <= 0]. *)
Definition js_sort (l : list A) : list A := foldr sort_insert [] l.
End Sorting.

(** [array.sort()] on strings. *)
Definition sort_strings (l : list jsstr) : list jsstr := js_sort str_leb l.

(** [new Set(l).size !== l.length]. *)
Definition has_duplicates (l : list jsstr) : bool :=
  negb (size (list_to_set l : gset jsstr) =? length l)%nat.

(** [array.findIndex(p)], [None] for [-1]. *)
Fixpoint find_index {A} (p : A -> bool) (l : list A) : option nat :=
  match l with
  | [] => None
  | x :: l' => if p x then Some O else S <$> find_index p l'
  end.

(** ** Lemmas *)

(** *** 32-bit arithmetic *)

Lemma to_uint32_range z : 0 <= to_uint32 z < 2 ^ 32.
Proof. apply Z.mod_pos_bound. lia. Qed.

Lemma to_int32_range z : - 2 ^ 31 <= to_int32 z < 2 ^ 31.
Proof.
  unfold to_int32. pose proof (Z.mod_pos_bound z (2 ^ 32) ltac:(lia)).
  destruct (Z.ltb_spec (z mod 2 ^ 32) (2 ^ 31)); lia.
Qed.

Lemma to_uint32_small z : 0 <= z < 2 ^ 32 -> to_uint32 z = z.
Proof. intros. by apply Z.mod_small. Qed.

Lemma js_shr_range z n : 0 <= n -> 0 <= js_shr z n < 2 ^ 32.
Proof.
  intros Hn. unfold js_shr. pose proof (to_uint32_range z).
  rewrite Z.shiftr_div_pow2 by done.
  assert (0 < 2 ^ n) by (apply Z.pow_pos_nonneg; lia).
  split; [apply Z.div_pos; lia|].
  apply Z.le_lt_trans with (to_uint32 z); [|lia].
  apply Z.div_le_upper_bound; nia.
Qed.

Lemma isSafeInteger_spec z :
  isSafeInteger z = true <-> - MAX_SAFE_INTEGER <= z <= MAX_SAFE_INTEGER.
Proof. unfold isSafeInteger. rewrite andb_true_iff, !Z.leb_le. done. Qed.

(** *** Digits *)

(** The value of a digit in base ten, and of a run of them. *)
Definition digit_value (c : N) : N := (c - 48)%N.
Definition decimal_value (s : jsstr) : N :=
  fold_left (fun acc c => (acc * 10 + digit_value c)%N) s 0%N.
Definition is_decimal (c : N) : bool := ((48 <=? c) && (c <=? 57))%N.

Lemma fold_decimal_app s t a :
  fold_left (fun acc c => (acc * 10 + digit_value c)%N) (s ++ t) a =
  fold_left (fun acc c => (acc * 10 + digit_value c)%N) t
    (fold_left (fun acc c => (acc * 10 + digit_value c)%N) s a).
Proof. apply fold_left_app. Qed.

Lemma digits_aux_app b fuel n acc :
  digits_aux b fuel n acc = digits_aux b fuel n [] ++ acc.
Proof.
  revert n acc. induction fuel as [|f IH]; intros n acc; simpl; [done|].
  case_match; [done|]. rewrite IH, (IH _ [_]), <- app_assoc. done.
Qed.

Lemma div_size (n : N) : (n / 10 <> 0)%N -> (N.size (n / 10) < N.size n)%N.
Proof.
  intros Hn. assert (n <> 0)%N by (intros ->; by apply Hn).
  rewrite !N.size_log2 by done. apply (proj1 (N.succ_lt_mono _ _)).
  apply (proj1 (N.log2_lt_pow2 (n / 10) (N.log2 n) (proj1 (N.neq_0_lt_0 _) Hn))).
  pose proof (N.log2_spec n ltac:(lia)) as [_ H2].
  apply N.Div0.div_lt_upper_bound; rewrite N.pow_succ_r' in H2; lia.
Qed.

Lemma digits_aux_value fuel n :
  (N.size n < N.of_nat fuel)%N ->
  decimal_value (digits_aux 10 fuel n []) = n.
Proof.
  revert n. induction fuel as [|f IH]; intros n Hf; [lia|]. simpl.
  assert (Hd : digit_value (digit_unit (n mod 10)) = (n mod 10)%N).
  { pose proof (N.mod_lt n 10 ltac:(lia)). unfold digit_value, digit_unit.
    destruct (N.ltb_spec (n mod 10) 10); lia. }
  pose proof (N.div_mod n 10 ltac:(lia)) as Hdm.
  destruct (N.eqb_spec (n / 10) 0) as [E|E].
  - unfold decimal_value. simpl. rewrite Hd. lia.
  - rewrite digits_aux_app. unfold decimal_value in *.
    rewrite fold_decimal_app, IH by (pose proof (div_size n E); lia).
    simpl. rewrite Hd. lia.
Qed.

Lemma digits_value n : decimal_value (digits 10 n) = n.
Proof. apply digits_aux_value. lia. Qed.

Lemma digits_decimal n : Forall (fun c => is_decimal c = true) (digits 10 n).
Proof.
  unfold digits. generalize (S (N.to_nat (N.size n))) as fuel. intros fuel.
  assert (Hd : forall m, is_decimal (digit_unit (m mod 10)) = true).
  { intros m. pose proof (N.mod_lt m 10 ltac:(lia)). unfold is_decimal, digit_unit.
    destruct (N.ltb_spec (m mod 10) 10); [|lia].
    apply andb_true_iff. rewrite !N.leb_le. lia. }
  revert n. induction fuel as [|f IH]; intros n; simpl; [constructor|].
  case_match; [by repeat constructor|].
  rewrite digits_aux_app. apply Forall_app. split; [apply IH|by repeat constructor].
Qed.

Lemma digits_aux_head k m :
  (N.to_nat (N.size m) <= k)%nat -> exists c s,
  digits_aux 10 (S k) m [] = c :: s /\ (c = 48%N -> s = [] /\ m = 0%N).
Proof.
  revert m. induction k as [|k IH]; intros m Hk; simpl.
  - assert (m = 0%N) as -> by (destruct m; simpl in *; [done|]; destruct p; simpl in Hk; lia).
    exists 48%N, []. done.
  - destruct (N.eqb_spec (m / 10) 0) as [E|E].
    + exists (digit_unit (m mod 10)), []. split; [done|]. intros Hc. split; [done|].
      pose proof (N.div_mod m 10 ltac:(lia)). pose proof (N.mod_lt m 10 ltac:(lia)).
      unfold digit_unit in Hc. destruct (N.ltb_spec (m mod 10) 10); lia.
    + pose proof (div_size m E) as Hs.
      change (exists c s, digits_aux 10 (S k) (m / 10) [digit_unit (m mod 10)] = c :: s /\
        (c = 48%N -> s = [] /\ m = 0%N)).
      rewrite digits_aux_app. destruct (IH (m / 10)%N ltac:(lia)) as (c & s & -> & Hc).
      exists c, (s ++ [digit_unit (m mod 10)]). split; [done|].
      intros H. destruct (Hc H). done.
Qed.

(** A numeral has a leading zero only when it is [0]. *)
Lemma digits_head n : exists c s, digits 10 n = c :: s /\ (c = 48%N -> s = []).
Proof.
  destruct (digits_aux_head (N.to_nat (N.size n)) n ltac:(lia)) as (c & s & E & H).
  exists c, s. split; [done|]. intros Hc. by destruct (H Hc).
Qed.

Lemma digits_inj m n : digits 10 m = digits 10 n -> m = n.
Proof. intros H. rewrite <- (digits_value m), <- (digits_value n). by rewrite H. Qed.

(** Digits never contain the separator [:]. *)
Lemma digits_no_colon b n : (0 < b <= 16)%N -> 58%N ∉ digits b n.
Proof.
  intros Hb. unfold digits. generalize (S (N.to_nat (N.size n))) as fuel. intros fuel.
  assert (Hd : forall m, digit_unit (m mod b) <> 58%N).
  { intros m. pose proof (N.mod_lt m b ltac:(lia)). unfold digit_unit.
    destruct (N.ltb_spec (m mod b) 10); lia. }
  revert n. induction fuel as [|f IH]; intros n; simpl; [by apply not_elem_of_nil|].
  case_match.
  - apply not_elem_of_cons. split; [by apply not_eq_sym|apply not_elem_of_nil].
  - rewrite digits_aux_app. apply not_elem_of_app. split; [apply IH|].
    apply not_elem_of_cons. split; [by apply not_eq_sym|apply not_elem_of_nil].
Qed.

(** A string is split in one way at its last separator. *)
Lemma split_last_sep (c : N) (a b a' b' : jsstr) :
  c ∉ b -> c ∉ b' -> a ++ c :: b = a' ++ c :: b' -> a = a' /\ b = b'.
Proof.
  revert a'. induction a as [|x a IH]; intros [|x' a'] Hb Hb' E; cbn [app] in E.
  - by injection E as ->.
  - injection E as -> ->. destruct Hb. apply elem_of_app. right. by left.
  - injection E as -> <-. destruct Hb'. apply elem_of_app. right. by left.
  - injection E as -> E. destruct (IH a' Hb Hb' E) as [-> ->]. done.
Qed.

(** *** Order on strings *)

Lemma str_leb_total a b : str_leb a b = true \/ str_leb b a = true.
Proof.
  revert b. induction a as [|x a IH]; intros [|y b]; simpl; auto.
  destruct (N.ltb_spec x y), (N.ltb_spec y x); auto.
Qed.

Lemma str_leb_trans a b c : str_leb a b = true -> str_leb b c = true -> str_leb a c = true.
Proof.
  revert b c. induction a as [|x a IH]; intros [|y b] [|z c]; simpl; try done.
  destruct (N.ltb_spec x y), (N.ltb_spec y x), (N.ltb_spec y z), (N.ltb_spec z y),
    (N.ltb_spec x z), (N.ltb_spec z x); try done; try lia.
  apply IH.
Qed.

Lemma str_leb_antisymm a b : str_leb a b = true -> str_leb b a = true -> a = b.
Proof.
  revert b. induction a as [|x a IH]; intros [|y b]; simpl; try done.
  destruct (N.ltb_spec x y), (N.ltb_spec y x); try done; try lia.
  intros H1 H2. f_equal; [lia|auto].
Qed.

Lemma str_eqb_eq a b : str_eqb a b = true <-> a = b.
Proof. apply bool_decide_eq_true. Qed.

Lemma str_eqb_neq a b : str_eqb a b = false <-> a <> b.
Proof. apply bool_decide_eq_false. Qed.

Lemma str_eqb_refl a : str_eqb a a = true.
Proof. by apply str_eqb_eq. Qed.

Lemma is_hex_length n s : is_hex n s = true -> length s = n.
Proof. unfold is_hex. rewrite andb_true_iff, Nat.eqb_eq. by intros []. Qed.

(** *** Sorting *)

Section SortingFacts.
Context {A : Type} (le : A -> A -> bool).

Lemma sort_insert_perm x l : sort_insert le x l ≡ₚ x :: l.
Proof.
  induction l as [|y l IH]; simpl; [done|].
  case_match; [done|]. rewrite IH. apply Permutation_swap.
Qed.

Lemma js_sort_perm l : js_sort le l ≡ₚ l.
Proof.
  induction l as [|x l IH]; simpl; [done|]. rewrite sort_insert_perm. by constructor.
Qed.

Context (le_total : forall a b, le a b = true \/ le b a = true).
Context (le_trans : forall a b c, le a b = true -> le b c = true -> le a c = true).

Lemma sort_insert_sorted x l :
  StronglySorted (fun a b => le a b = true) l ->
  StronglySorted (fun a b => le a b = true) (sort_insert le x l).
Proof.
  induction 1 as [|y l Hl IH Hy]; simpl; [by repeat constructor|].
  case_match eqn:E.
  - constructor; [by constructor|]. constructor; [done|].
    eapply Forall_impl; [exact Hy|]. intros z Hz. by eapply le_trans.
  - constructor; [done|]. rewrite sort_insert_perm. constructor; [|done].
    by destruct (le_total x y) as [H|H]; [rewrite E in H|].
Qed.

Lemma js_sort_sorted l : StronglySorted (fun a b => le a b = true) (js_sort le l).
Proof.
  induction l as [|x l IH]; simpl; [constructor|]. by apply sort_insert_sorted.
Qed.

(** Sorting a sorted array changes nothing. *)
Lemma js_sort_id l : StronglySorted (fun a b => le a b = true) l -> js_sort le l = l.
Proof.
  induction 1 as [|x l Hl IH Hx]; simpl; [done|]. rewrite IH.
  destruct l as [|y l]; simpl; [done|]. apply Forall_inv in Hx. by rewrite Hx.
Qed.

Context (le_antisymm : forall a b, le a b = true -> le b a = true -> a = b).

Lemma js_sort_unique l1 l2 : l1 ≡ₚ l2 -> js_sort le l1 = js_sort le l2.
Proof.
  intros Hp.
  eapply (StronglySorted_unique_strong (fun a b => le a b = true));
    [|apply js_sort_sorted|apply js_sort_sorted|by rewrite !js_sort_perm].
  intros a b _ _. apply le_antisymm.
Qed.
End SortingFacts.

Lemma sort_strings_perm l : sort_strings l ≡ₚ l.
Proof. apply js_sort_perm. Qed.

Lemma sort_strings_sorted l :
  StronglySorted (fun a b => str_leb a b = true) (sort_strings l).
Proof. apply js_sort_sorted; [apply str_leb_total|apply str_leb_trans]. Qed.

Lemma sort_strings_idem l : sort_strings (sort_strings l) = sort_strings l.
Proof. apply js_sort_id, sort_strings_sorted. Qed.

Lemma sort_strings_unique l1 l2 : l1 ≡ₚ l2 -> sort_strings l1 = sort_strings l2.
Proof.
  apply js_sort_unique; [apply str_leb_total|apply str_leb_trans|apply str_leb_antisymm].
Qed.

(** *** Sets and lookups *)

Lemma size_list_to_set_le (l : list jsstr) :
  (size (list_to_set l : gset jsstr) <= length l)%nat.
Proof.
  induction l as [|x l IH]; cbn [list_to_set length]; [by vm_compute|].
  rewrite size_union_alt, size_singleton.
  enough (size ((list_to_set l : gset jsstr) ∖ {[x]}) <= size (list_to_set l : gset jsstr))%nat by lia.
  apply subseteq_size. set_solver.
Qed.

Lemma has_duplicates_false l : has_duplicates l = false <-> NoDup l.
Proof.
  unfold has_duplicates. rewrite negb_false_iff, Nat.eqb_eq. split.
  - induction l as [|x l IH]; intros H; [constructor|]. simpl in H.
    pose proof (size_list_to_set_le l) as Hl.
    destruct (decide (x ∈ l)) as [Hx|Hx].
    + assert (Hs : {[x]} ∪ (list_to_set l : gset jsstr) = list_to_set l) by set_solver.
      rewrite Hs in H. lia.
    + constructor; [done|]. apply IH.
      rewrite size_union, size_singleton in H by set_solver. lia.
  - intros H. by apply size_list_to_set.
Qed.

Lemma find_index_Some {A} (p : A -> bool) l i :
  find_index p l = Some i ->
  exists x, l !! i = Some x /\ p x = true /\
    forall j y, (j < i)%nat -> l !! j = Some y -> p y = false.
Proof.
  revert i. induction l as [|x l IH]; intros i; simpl; [done|].
  destruct (p x) eqn:E; intros H; simplify_eq.
  - exists x. split_and!; [done..|]. intros j y Hj. lia.
  - destruct (find_index p l) as [k|]; simplify_eq/=.
    destruct (IH k eq_refl) as (y & Hy & Hp & Hlt). exists y. split_and!; [done..|].
    intros [|j] z Hj Hz; simplify_eq/=; [done|]. eapply Hlt; [|done]. lia.
Qed.

Lemma find_index_None {A} (p : A -> bool) l :
  find_index p l = None <-> Forall (fun x => p x = false) l.
Proof.
  induction l as [|x l IH]; simpl; [done|]. rewrite Forall_cons.
  destruct (p x) eqn:E; [naive_solver|].
  destruct (find_index p l); naive_solver.
Qed.

(** *** Arrays with unique keys *)

Lemma key_inj {A} (key : A -> jsstr) (l : list A) x y :
  NoDup (map key l) -> x ∈ l -> y ∈ l -> key x = key y -> x = y.
Proof.
  induction l as [|z l IH]; simpl; intros Hnd Hx Hy E; [by apply elem_of_nil in Hx|].
  apply NoDup_cons in Hnd as [Hz Hnd].
  apply elem_of_cons in Hx as [->|Hx], Hy as [->|Hy]; [done| | |by apply IH].
  - destruct Hz. rewrite E. by apply list_elem_of_fmap_2.
  - destruct Hz. rewrite <- E. by apply list_elem_of_fmap_2.
Qed.

Lemma filter_other_perm {A} (key : A -> jsstr) (x : A) (l : list A) :
  NoDup (map key l) -> x ∈ l ->
  l ≡ₚ x :: List.filter (fun y => negb (str_eqb (key y) (key x))) l.
Proof.
  induction l as [|y l IH]; simpl; intros Hnd Hx; [by apply elem_of_nil in Hx|].
  apply NoDup_cons in Hnd as [Hy Hnd].
  destruct (str_eqb (key y) (key x)) eqn:E; simpl.
  - apply str_eqb_eq in E.
    assert (y = x) as ->.
    { apply elem_of_cons in Hx as [->|Hx]; [done|].
      destruct Hy. rewrite E. by apply list_elem_of_fmap_2. }
    f_equiv. symmetry. clear IH. induction l as [|z l IHl]; simpl; [done|].
    simpl in *. apply not_elem_of_cons in Hy as [Hz Hy]. apply NoDup_cons in Hnd as [_ Hnd].
    rewrite (proj2 (str_eqb_neq _ _)) by congruence. simpl. constructor. apply IHl; [done..|].
    by left.
  - apply elem_of_cons in Hx as [->|Hx]; [by rewrite str_eqb_refl in E|].
    rewrite (IH Hnd Hx) at 1. constructor.
Qed.

Lemma NoDup_map_transfer {A} (f k : A -> jsstr) (l : list A) :
  NoDup (map f l) -> (forall x y, x ∈ l -> y ∈ l -> k x = k y -> f x = f y) ->
  NoDup (map k l).
Proof.
  induction l as [|x l IH]; simpl; intros Hnd Hk; [constructor|].
  apply NoDup_cons in Hnd as [Hx Hnd]. apply NoDup_cons. split.
  - intros (y & Ey & Hy)%list_elem_of_In%in_map_iff. apply list_elem_of_In in Hy. destruct Hx.
    rewrite (Hk x y); [by apply list_elem_of_fmap_2|by left|by right|done].
  - apply IH; [done|]. intros y z Hy Hz. apply Hk; by right.
Qed.

(** Splitting an array by a test, then dropping what passed by its key. *)
Lemma filter_by_key_perm {A} (key : A -> jsstr) (p : A -> bool) (l : list A) :
  NoDup (map key l) ->
  l ≡ₚ List.filter p l ++
       List.filter (fun y => negb (bool_decide (key y ∈ map key (List.filter p l)))) l.
Proof.
  intros Hnd.
  assert (E : List.filter (fun y => negb (bool_decide (key y ∈ map key (List.filter p l)))) l
              = List.filter (fun y => negb (p y)) l).
  { apply filter_ext_in. intros y Hy. f_equal. apply eq_true_iff_eq.
    rewrite bool_decide_eq_true. split.
    - intros (z & Hk & Hz)%list_elem_of_In%in_map_iff.
      apply filter_In in Hz as [Hz Hp]. replace y with z; [done|].
      apply (key_inj key l); [done|by apply list_elem_of_In..|done].
    - intros Hp. apply list_elem_of_In, in_map, filter_In. done. }
  rewrite E. clear. induction l as [|y l IH]; simpl; [done|].
  destruct (p y); simpl; [by constructor|].
  rewrite <- Permutation_middle. by constructor.
Qed.

(** *** Hash collisions *)

(** Two different preimages of one hash, one from each list. *)
Definition hash_collision {A} (hash : A -> jsstr) (xs ys : list A) : Prop :=
  exists a b, a ∈ xs /\ b ∈ ys /\ a <> b /\ hash a = hash b.

Lemma eq_or_collide {A} `{EqDecision A} (hash : A -> jsstr) a b xs ys :
  hash a = hash b -> a ∈ xs -> b ∈ ys -> a = b \/ hash_collision hash xs ys.
Proof. intros. destruct (decide (a = b)); [by left|]. right. by exists a, b. Qed.

Lemma collision_weaken {A} (hash : A -> jsstr) xs ys xs' ys' :
  hash_collision hash xs ys -> xs ⊆ xs' -> ys ⊆ ys' -> hash_collision hash xs' ys'.
Proof. intros (a & b & ? & ? & ? & ?) Hx Hy. exists a, b. auto. Qed.

#[export] Hint Resolve to_uint32_range to_int32_range sort_strings_perm
  sort_strings_sorted : js_db.
