(* ===== verification/Json.v ===== *)
(** * JSON

    The values that cross the program's untrusted boundaries ([unknown] in
    the sources), [JSON.stringify] and [JSON.parse] as the language defines
    them, and the round trip that makes every canonical encoding of the
    program injective. *)
From S2P Require Import Prelude.
Set Default Goal Selector "!".

(** ** Values *)

(** A JavaScript data value.  [JNum] is an integral number, [JFloat] any other
    finite number, given by the text [JSON.stringify] prints for it; an object
    is its own properties in enumeration order. *)
Inductive jsval :=
| JUndef
| JNull
| JBool (b : bool)
| JNum (z : Z)
| JFloat (repr : jsstr)
| JStr (s : jsstr)
| JArr (l : list jsval)
| JObj (o : list (jsstr * jsval)).

Fixpoint assoc {A} (k : jsstr) (o : list (jsstr * A)) : option A :=
  match o with
  | [] => None
  | (k', v) :: o' => if str_eqb k k' then Some v else assoc k o'
  end.

(** [value[k]] for an own data property; reading a property of [null] or
    [undefined] throws, which is [None]. *)
Definition get_prop (v : jsval) (k : string) : option jsval :=
  match v with
  | JUndef | JNull => None
  | JObj o => Some (default JUndef (assoc (js k) o))
  | _ => Some JUndef
  end.

(** The property of a value already known to be a record. *)
Definition field (v : jsval) (k : string) : jsval := default JUndef (get_prop v k).

(** [typeof value === "object" && value !== null && !Array.isArray(value)]. *)
Definition is_record (v : jsval) : bool :=
  match v with JObj _ => true | _ => false end.
Definition is_array (v : jsval) : bool :=
  match v with JArr _ => true | _ => false end.
Definition as_string (v : jsval) : option jsstr :=
  match v with JStr s => Some s | _ => None end.
Definition as_array (v : jsval) : option (list jsval) :=
  match v with JArr l => Some l | _ => None end.
(** A number for which [Number.isSafeInteger] holds. *)
Definition as_safe_integer (v : jsval) : option Z :=
  match v with JNum z => if isSafeInteger z then Some z else None | _ => None end.
Definition is_num (z : Z) (v : jsval) : bool :=
  match v with JNum z' => z =? z' | _ => false end.

(** ** JSON.stringify *)

(** [\uXXXX] with lower-case digits. *)
Definition unicode_escape (c : N) : jsstr :=
  [92; 117; digit_unit (c / 4096 mod 16); digit_unit (c / 256 mod 16);
   digit_unit (c / 16 mod 16); digit_unit (c mod 16)]%N.

Definition is_high (c : N) : bool := ((55296 <=? c) && (c <=? 56319))%N.
Definition is_low (c : N) : bool := ((56320 <=? c) && (c <=? 57343))%N.

(** One code unit that is not half of a surrogate pair. *)
Definition quote_unit (c : N) : jsstr :=
  if (c =? 34)%N then [92; 34]%N
  else if (c =? 92)%N then [92; 92]%N
  else if (c =? 8)%N then [92; 98]%N
  else if (c =? 9)%N then [92; 116]%N
  else if (c =? 10)%N then [92; 110]%N
  else if (c =? 12)%N then [92; 102]%N
  else if (c =? 13)%N then [92; 114]%N
  else if (c <? 32)%N then unicode_escape c
  else if is_high c || is_low c then unicode_escape c
  else [c].

Fixpoint quote_body (s : jsstr) : jsstr :=
  match s with
  | [] => []
  | c :: r =>
      match r with
      | d :: r' =>
          if is_high c && is_low d then c :: d :: quote_body r'
          else quote_unit c ++ quote_body r
      | [] => quote_unit c
      end
  end.
Definition quote (s : jsstr) : jsstr := 34%N :: quote_body s ++ [34%N].

(** [JSON.stringify] of a value in an array; [undefined] prints as [null]
    there and is omitted from an object. *)
Fixpoint stringify (v : jsval) : jsstr :=
  match v with
  | JUndef | JNull => js "null"
  | JBool b => if b then js "true" else js "false"
  | JNum z => num_to_string z
  | JFloat r => r
  | JStr s => quote s
  | JArr l => js "[" ++ join (js ",") (map stringify l) ++ js "]"
  | JObj o =>
      js "{" ++ join (js ",")
        (flat_map (fun kv => match kv with
                   | (k, JUndef) => []
                   | (k, w) => [quote k ++ js ":" ++ stringify w]
                   end) o) ++ js "}"
  end.

(** ** JSON.parse *)

Definition is_space (c : N) : bool :=
  ((c =? 32) || (c =? 9) || (c =? 10) || (c =? 13))%N.
Fixpoint skip_space (s : jsstr) : jsstr :=
  match s with
  | c :: r => if is_space c then skip_space r else s
  | [] => []
  end.

Definition hex_value (c : N) : option N :=
  if is_decimal c then Some (c - 48)%N
  else if ((97 <=? c) && (c <=? 102))%N then Some (c - 87)%N
  else if ((65 <=? c) && (c <=? 70))%N then Some (c - 55)%N
  else None.
Definition hex4 (a b c d : N) : option N :=
  match hex_value a, hex_value b, hex_value c, hex_value d with
  | Some a, Some b, Some c, Some d => Some (a * 4096 + b * 256 + c * 16 + d)%N
  | _, _, _, _ => None
  end.
Definition simple_escape (e : N) : option N :=
  if (e =? 34)%N then Some 34%N
  else if (e =? 92)%N then Some 92%N
  else if (e =? 47)%N then Some 47%N
  else if (e =? 98)%N then Some 8%N
  else if (e =? 102)%N then Some 12%N
  else if (e =? 110)%N then Some 10%N
  else if (e =? 114)%N then Some 13%N
  else if (e =? 116)%N then Some 9%N
  else None.
Definition cons_fst {A B} (a : A) (o : option (list A * B)) : option (list A * B) :=
  match o with Some (l, b) => Some (a :: l, b) | None => None end.

(** The body of a string literal up to and including its closing quote. *)
Fixpoint unquote (s : jsstr) : option (jsstr * jsstr) :=
  match s with
  | [] => None
  | c :: r =>
      if (c =? 34)%N then Some ([], r)
      else if (c =? 92)%N then
        match r with
        | [] => None
        | e :: r1 =>
            if (e =? 117)%N then
              match r1 with
              | h1 :: h2 :: h3 :: h4 :: r2 =>
                  match hex4 h1 h2 h3 h4 with
                  | Some u => cons_fst u (unquote r2)
                  | None => None
                  end
              | _ => None
              end
            else
              match simple_escape e with
              | Some u => cons_fst u (unquote r1)
              | None => None
              end
        end
      else if (c <? 32)%N then None
      else cons_fst c (unquote r)
  end.

(** The characters a number token is made of. *)
Definition is_number_unit (c : N) : bool :=
  is_decimal c || ((c =? 45) || (c =? 43) || (c =? 46) || (c =? 101) || (c =? 69))%N.
Fixpoint take_number (s : jsstr) : jsstr * jsstr :=
  match s with
  | c :: r =>
      if is_number_unit c then let '(t, r') := take_number r in (c :: t, r') else ([], s)
  | [] => ([], [])
  end.

(** [int], [frac] and [exp] of the JSON grammar; each returns what is left. *)
Fixpoint take_decimal (s : jsstr) : jsstr * jsstr :=
  match s with
  | c :: r =>
      if is_decimal c then let '(t, r') := take_decimal r in (c :: t, r') else ([], s)
  | [] => ([], [])
  end.
Definition valid_int (t : jsstr) : bool :=
  match t with
  | [] => false
  | c :: r => forallb is_decimal t && (negb (c =? 48)%N || bool_decide (r = []))
  end.
Definition valid_exp (s : jsstr) : bool :=
  match s with
  | [] => true
  | e :: r =>
      ((e =? 101) || (e =? 69))%N &&
      let r := match r with
               | c :: r' => if ((c =? 45) || (c =? 43))%N then r' else r
               | [] => r
               end in
      negb (bool_decide (r = [])) && forallb is_decimal r
  end.
Definition valid_frac_exp (s : jsstr) : bool :=
  match s with
  | c :: r =>
      if (c =? 46)%N then
        let '(t, r') := take_decimal r in negb (bool_decide (t = [])) && valid_exp r'
      else valid_exp s
  | [] => true
  end.

(** The number a token denotes, [exact] giving the reading of integers. *)
Definition read_number (reader : bool -> Z -> jsstr -> jsval) (tok : jsstr) : option jsval :=
  let '(neg, body) := match tok with
                      | c :: r => if (c =? 45)%N then (true, r) else (false, tok)
                      | [] => (false, tok)
                      end in
  let '(ip, rest) := take_decimal body in
  if negb (valid_int ip) || negb (valid_frac_exp rest) then None
  else
    let z := (if neg then - Z.of_N (decimal_value ip) else Z.of_N (decimal_value ip)) in
    Some (reader (bool_decide (rest = [])) z tok).

(** An array-index property name: enumerated first, in ascending order. *)
Definition index_key (k : jsstr) : option N :=
  if valid_int k && (decimal_value k <? 4294967295)%N then Some (decimal_value k) else None.
Fixpoint insert_new (k : jsstr) (v : jsval) (o : list (jsstr * jsval)) : list (jsstr * jsval) :=
  match o with
  | [] => [(k, v)]
  | (k', v') :: o' =>
      match index_key k, index_key k' with
      | Some i, Some j => if (i <? j)%N then (k, v) :: o else (k', v') :: insert_new k v o'
      | Some _, None => (k, v) :: o
      | None, _ => (k', v') :: insert_new k v o'
      end
  end.
Fixpoint replace_key (k : jsstr) (v : jsval) (o : list (jsstr * jsval)) : list (jsstr * jsval) :=
  match o with
  | [] => []
  | (k', v') :: o' => if str_eqb k k' then (k, v) :: o' else (k', v') :: replace_key k v o'
  end.
Definition define_property (k : jsstr) (v : jsval) (o : list (jsstr * jsval)) :=
  match assoc k o with
  | Some _ => replace_key k v o
  | None => insert_new k v o
  end.

Definition starts_with (c : N) (s : jsstr) : option jsstr :=
  match s with
  | d :: r => if (c =? d)%N then Some r else None
  | [] => None
  end.
Fixpoint strip_prefix (p s : jsstr) : option jsstr :=
  match p, s with
  | [], _ => Some s
  | c :: p', d :: s' => if (c =? d)%N then strip_prefix p' s' else None
  | _ :: _, [] => None
  end.

Section Parser.
Variable reader : bool -> Z -> jsstr -> jsval.

(** Recursive descent; every call consumes a character, so the length of the
    text is enough fuel ([parse_text]). *)
Fixpoint parse_value (fuel : nat) (s : jsstr) : option (jsval * jsstr) :=
  match fuel with
  | O => None
  | S f =>
      match skip_space s with
      | [] => None
      | c :: r =>
          if (c =? 91)%N then
            match starts_with 93 (skip_space r) with
            | Some r' => Some (JArr [], r')
            | None =>
                match parse_elements f r with
                | Some (l, r') => Some (JArr l, r')
                | None => None
                end
            end
          else if (c =? 123)%N then
            match starts_with 125 (skip_space r) with
            | Some r' => Some (JObj [], r')
            | None =>
                match parse_members f r [] with
                | Some (o, r') => Some (JObj o, r')
                | None => None
                end
            end
          else if (c =? 34)%N then
            match unquote r with
            | Some (t, r') => Some (JStr t, r')
            | None => None
            end
          else if (c =? 110)%N then
            (r' ← strip_prefix (js "ull") r; Some (JNull, r'))
          else if (c =? 116)%N then
            (r' ← strip_prefix (js "rue") r; Some (JBool true, r'))
          else if (c =? 102)%N then
            (r' ← strip_prefix (js "alse") r; Some (JBool false, r'))
          else
            let '(tok, r') := take_number (c :: r) in
            (v ← read_number reader tok; Some (v, r'))
      end
  end
with parse_elements (fuel : nat) (s : jsstr) : option (list jsval * jsstr) :=
  match fuel with
  | O => None
  | S f =>
      match parse_value f s with
      | None => None
      | Some (v, r) =>
          match skip_space r with
          | [] => None
          | c :: r' =>
              if (c =? 93)%N then Some ([v], r')
              else if (c =? 44)%N then
                match parse_elements f r' with
                | Some (l, r'') => Some (v :: l, r'')
                | None => None
                end
              else None
          end
      end
  end
with parse_members (fuel : nat) (s : jsstr) (acc : list (jsstr * jsval))
    : option (list (jsstr * jsval) * jsstr) :=
  match fuel with
  | O => None
  | S f =>
      match starts_with 34 (skip_space s) with
      | None => None
      | Some r0 =>
          match unquote r0 with
          | None => None
          | Some (k, r1) =>
              match starts_with 58 (skip_space r1) with
              | None => None
              | Some r2 =>
                  match parse_value f r2 with
                  | None => None
                  | Some (v, r3) =>
                      match skip_space r3 with
                      | [] => None
                      | c :: r4 =>
                          if (c =? 125)%N then Some (define_property k v acc, r4)
                          else if (c =? 44)%N then parse_members f r4 (define_property k v acc)
                          else None
                      end
                  end
              end
          end
      end
  end.

Definition parse_text (s : jsstr) : option jsval :=
  match parse_value (S (length s)) s with
  | Some (v, r) => if bool_decide (skip_space r = []) then Some v else None
  | None => None
  end.
End Parser.

(** ** Host *)

(** What the program takes from its JavaScript host beside the language:
    the collation of [String.prototype.localeCompare], and the double that a
    JSON number token denotes when it is not a safe decimal integer. *)
Class JsHost := {
  localeCompare : jsstr -> jsstr -> Z;
  number_token : jsstr -> jsval;
}.

(** localeCompare is a consistent comparator: a total preorder. *)
Class JsHostLaws `(H : JsHost) := {
  locale_total : forall a b, localeCompare a b <= 0 \/ localeCompare b a <= 0;
  locale_trans : forall a b c,
    localeCompare a b <= 0 -> localeCompare b c <= 0 -> localeCompare a c <= 0;
}.

(** [JSON.parse]: a safe decimal integer is read exactly, any other token
    by the host; [None] is the [SyntaxError]. *)
Definition json_reader `{JsHost} (integral : bool) (z : Z) (tok : jsstr) : jsval :=
  if integral && isSafeInteger z then JNum z else number_token tok.
Definition json_parse `{JsHost} (s : jsstr) : option jsval := parse_text json_reader s.

(** ** Induction over values *)

Section JsvalInd.
Variable P : jsval -> Prop.
Hypothesis Pundef : P JUndef.
Hypothesis Pnull : P JNull.
Hypothesis Pbool : forall b, P (JBool b).
Hypothesis Pnum : forall z, P (JNum z).
Hypothesis Pfloat : forall r, P (JFloat r).
Hypothesis Pstr : forall s, P (JStr s).
Hypothesis Parr : forall l, Forall P l -> P (JArr l).
Hypothesis Pobj : forall o, Forall (fun kv => P (snd kv)) o -> P (JObj o).

Fixpoint jsval_ind' (v : jsval) : P v :=
  match v with
  | JUndef => Pundef
  | JNull => Pnull
  | JBool b => Pbool b
  | JNum z => Pnum z
  | JFloat r => Pfloat r
  | JStr s => Pstr s
  | JArr l =>
      Parr l ((fix go (l : list jsval) : Forall P l :=
        match l with
        | [] => List.Forall_nil _
        | w :: l' => @List.Forall_cons _ P w l' (jsval_ind' w) (go l')
        end) l)
  | JObj o =>
      Pobj o ((fix go (o : list (jsstr * jsval)) : Forall (fun kv => P (snd kv)) o :=
        match o with
        | [] => List.Forall_nil _
        | (k, w) :: o' => @List.Forall_cons _ (fun kv => P (snd kv)) (k, w) o' (jsval_ind' w) (go o')
        end) o)
  end.
End JsvalInd.

(** Distinct property names that are not array indices keep their order. *)
Definition keys_ok (keys : list jsstr) : bool :=
  negb (has_duplicates keys) && forallb (fun k => bool_decide (index_key k = None)) keys.

(** The values the canonical encodings are made of: nested arrays and objects
    of literals, strings and integral numbers that satisfy [ok]. *)
Fixpoint plain_with (ok : Z -> bool) (v : jsval) : bool :=
  match v with
  | JNull | JBool _ | JStr _ => true
  | JNum z => ok z
  | JArr l => forallb (plain_with ok) l
  | JObj o => keys_ok (map fst o) && forallb (fun kv => plain_with ok (snd kv)) o
  | JUndef | JFloat _ => false
  end.
Definition plain : jsval -> bool := plain_with (fun _ => true).
Definition safe_plain : jsval -> bool := plain_with isSafeInteger.

(** ** Strings round trip *)

Lemma hex_value_digit n : (n < 16)%N -> hex_value (digit_unit n) = Some n.
Proof.
  intros H. unfold hex_value, digit_unit, is_decimal.
  destruct (N.ltb_spec n 10).
  - replace ((48 <=? 48 + n) && (48 + n <=? 57))%N with true
      by (symmetry; rewrite andb_true_iff, !N.leb_le; lia).
    f_equal. lia.
  - replace ((48 <=? 87 + n) && (87 + n <=? 57))%N with false
      by (symmetry; rewrite andb_false_iff, !N.leb_gt; lia).
    replace ((97 <=? 87 + n) && (87 + n <=? 102))%N with true
      by (symmetry; rewrite andb_true_iff, !N.leb_le; lia).
    f_equal. lia.
Qed.

Lemma unquote_unicode c s :
  (c < 65536)%N -> unquote (unicode_escape c ++ s) = cons_fst c (unquote s).
Proof.
  intros Hc. unfold unicode_escape. simpl. unfold hex4.
  rewrite !hex_value_digit by (apply N.mod_lt; lia).
  f_equal.
  pose proof (N.div_mod c 16 ltac:(lia)).
  pose proof (N.div_mod (c / 16) 16 ltac:(lia)).
  pose proof (N.div_mod (c / 256) 16 ltac:(lia)).
  pose proof (N.div_mod (c / 4096) 16 ltac:(lia)).
  assert (c / 16 / 16 = c / 256)%N by (rewrite N.Div0.div_div; done).
  assert (c / 256 / 16 = c / 4096)%N by (rewrite N.Div0.div_div; done).
  assert (c / 4096 / 16 = 0)%N by (rewrite N.Div0.div_div; apply N.div_small; lia).
  lia.
Qed.

Lemma quote_unit_unquote c s :
  unquote (quote_unit c ++ s) = cons_fst c (unquote s).
Proof.
  unfold quote_unit.
  destruct (N.eqb_spec c 34) as [->|?]; [done|].
  destruct (N.eqb_spec c 92) as [->|?]; [done|].
  destruct (N.eqb_spec c 8) as [->|?]; [done|].
  destruct (N.eqb_spec c 9) as [->|?]; [done|].
  destruct (N.eqb_spec c 10) as [->|?]; [done|].
  destruct (N.eqb_spec c 12) as [->|?]; [done|].
  destruct (N.eqb_spec c 13) as [->|?]; [done|].
  destruct (N.ltb_spec c 32); [apply unquote_unicode; lia|].
  destruct (is_high c || is_low c) eqn:E.
  - apply unquote_unicode. unfold is_high, is_low in E.
    rewrite orb_true_iff, !andb_true_iff, !N.leb_le in E. lia.
  - simpl. rewrite (proj2 (N.eqb_neq c 34)), (proj2 (N.eqb_neq c 92)) by done.
    by rewrite (proj2 (N.ltb_ge c 32)).
Qed.

Lemma unquote_plain c s : (32 <= c)%N -> c <> 34%N -> c <> 92%N ->
  unquote (c :: s) = cons_fst c (unquote s).
Proof.
  intros. simpl. rewrite (proj2 (N.eqb_neq c 34)), (proj2 (N.eqb_neq c 92)) by done.
  by rewrite (proj2 (N.ltb_ge c 32)).
Qed.

Lemma quote_body_unquote s rest :
  unquote (quote_body s ++ 34%N :: rest) = Some (s, rest).
Proof.
  remember (length s) as n eqn:Hn. revert s Hn.
  induction (lt_wf n) as [n _ IH]. intros s ->.
  destruct s as [|c [|d s]]; simpl; [done| |].
  - by rewrite quote_unit_unquote.
  - destruct (is_high c && is_low d) eqn:E.
    + apply andb_true_iff in E as [Hh Hl]. unfold is_high, is_low in *.
      rewrite andb_true_iff, !N.leb_le in Hh, Hl.
      change ((c :: d :: quote_body s) ++ 34%N :: rest)
        with (c :: d :: (quote_body s ++ 34%N :: rest)).
      rewrite !unquote_plain by lia.
      rewrite (IH (length s)) by (simpl; lia). done.
    + rewrite <- app_assoc, quote_unit_unquote.
      change (match s with
              | [] => quote_unit d
              | d0 :: r' => if is_high d && is_low d0 then d :: d0 :: quote_body r'
                            else quote_unit d ++ quote_body s
              end) with (quote_body (d :: s)).
      rewrite (IH (length (d :: s))) by (simpl; lia). done.
Qed.

(** ** Numbers round trip *)

(** What follows a number token must not extend it. *)
Definition stops (rest : jsstr) : bool :=
  match rest with [] => true | c :: _ => negb (is_number_unit c) end.

Lemma is_decimal_number_unit c : is_decimal c = true -> is_number_unit c = true.
Proof. unfold is_number_unit. by intros ->. Qed.

Lemma take_number_app t rest :
  Forall (fun c => is_number_unit c = true) t -> stops rest = true ->
  take_number (t ++ rest) = (t, rest).
Proof.
  induction 1 as [|c t Hc Ht IH]; intros Hr; simpl.
  - destruct rest as [|c r]; [done|]. simpl in *. by rewrite (proj1 (negb_true_iff _) Hr).
  - by rewrite Hc, IH.
Qed.

Lemma take_decimal_all t :
  Forall (fun c => is_decimal c = true) t -> take_decimal t = (t, []).
Proof. induction 1 as [|c t Hc Ht IH]; simpl; [done|]. by rewrite Hc, IH. Qed.

Lemma valid_int_digits n : valid_int (digits 10 n) = true.
Proof.
  pose proof (digits_decimal n) as Hd. destruct (digits_head n) as (c & s & E & Hc).
  unfold valid_int. rewrite E in *. apply andb_true_iff. split.
  - apply forallb_forall. rewrite Forall_forall in Hd. intros x Hx.
    apply Hd, list_elem_of_In, Hx.
  - destruct (N.eqb_spec c 48); [|done]. simpl. by apply bool_decide_eq_true, Hc.
Qed.

Lemma num_to_string_units z :
  Forall (fun c => is_number_unit c = true) (num_to_string z).
Proof.
  assert (H : forall n, Forall (fun c => is_number_unit c = true) (digits 10 n)).
  { intros n. eapply Forall_impl; [apply digits_decimal|]. apply is_decimal_number_unit. }
  unfold num_to_string. case_match; [|apply H]. by constructor.
Qed.

Lemma read_num_to_string reader z :
  read_number reader (num_to_string z) = Some (reader true z (num_to_string z)).
Proof.
  unfold num_to_string, read_number. destruct (Z.ltb_spec z 0) as [Hz|Hz].
  - change (45 =? 45)%N with true. cbv match. rewrite take_decimal_all by apply digits_decimal.
    rewrite valid_int_digits. simpl. rewrite digits_value. repeat f_equal. lia.
  - destruct (digits_head (Z.to_N z)) as (c & s & E & _).
    assert (Hc : (c =? 45)%N = false).
    { pose proof (digits_decimal (Z.to_N z)) as Hd. rewrite E in Hd. apply Forall_inv in Hd.
      unfold is_decimal in Hd. rewrite andb_true_iff, !N.leb_le in Hd.
      apply N.eqb_neq. lia. }
    rewrite E at 1. rewrite Hc.
    rewrite take_decimal_all by apply digits_decimal.
    rewrite valid_int_digits. simpl. rewrite digits_value. repeat f_equal. lia.
Qed.

(** ** Values round trip *)

(** The first code unit of a printed value: never white space, and none of
    the closing brackets or separators. *)
Definition value_head (c : N) : bool :=
  negb (is_space c) && negb ((c =? 93) || (c =? 44) || (c =? 125))%N.

Lemma num_to_string_head z : exists c s, num_to_string z = c :: s /\
  (c = 45 \/ 48 <= c <= 57)%N.
Proof.
  unfold num_to_string. case_match; [by eauto 10|].
  destruct (digits_head (Z.to_N z)) as (c & s & E & _).
  pose proof (digits_decimal (Z.to_N z)) as Hd. rewrite E in *. apply Forall_inv in Hd.
  unfold is_decimal in Hd. rewrite andb_true_iff, !N.leb_le in Hd. eauto.
Qed.

Lemma stringify_head ok v : plain_with ok v = true ->
  exists c s, stringify v = c :: s /\ value_head c = true.
Proof.
  destruct v as [| |[]|z|r|s|l|o]; intros Hv; try discriminate Hv;
    try (eexists _, _; split; [reflexivity|done]).
  destruct (num_to_string_head z) as (c & s & E & Hc). exists c, s. split; [done|].
  unfold value_head, is_space. rewrite andb_true_iff, !negb_true_iff, !orb_false_iff, !N.eqb_neq.
  lia.
Qed.

Lemma skip_space_head c s : value_head c = true -> skip_space (c :: s) = c :: s.
Proof.
  unfold value_head. rewrite andb_true_iff, negb_true_iff. intros [H _]. simpl. by rewrite H.
Qed.

Lemma starts_with_head c s : value_head c = true -> starts_with 93 (c :: s) = None.
Proof.
  unfold value_head. rewrite andb_true_iff, !negb_true_iff, !orb_false_iff.
  intros [_ [[H _] _]]. unfold starts_with. by rewrite N.eqb_sym, H.
Qed.

Section RoundTrip.
Variable reader : bool -> Z -> jsstr -> jsval.
Variable ok : Z -> bool.
Hypothesis reader_ok : forall z, ok z = true -> reader true z (num_to_string z) = JNum z.

Definition parses (v : jsval) : Prop :=
  plain_with ok v = true -> forall fuel rest,
  (length (stringify v) <= fuel)%nat -> stops rest = true ->
  parse_value reader fuel (stringify v ++ rest) = Some (v, rest).

Lemma parses_elements v l :
  Forall parses (v :: l) -> forallb (plain_with ok) (v :: l) = true ->
  forall fuel rest, (length (join (js ",") (map stringify (v :: l))) < fuel)%nat ->
  parse_elements reader fuel (join (js ",") (map stringify (v :: l)) ++ 93%N :: rest)
    = Some (v :: l, rest).
Proof.
  revert v. induction l as [|w l IH]; intros v Hp Hok [|f] rest Hf; try lia.
  - apply Forall_inv in Hp. simpl in Hok. rewrite andb_true_r in Hok. simpl in *.
    by rewrite Hp by (done || lia).
  - apply Forall_cons in Hp as [Hv Hl]. simpl in Hok. apply andb_true_iff in Hok as [Hov Hol].
    cbn [map join] in *. fold (map stringify (w :: l)) in *.
    rewrite !length_app in Hf. simpl in Hf.
    cbn [parse_elements]. rewrite <- !app_assoc, Hv by (done || lia).
    simpl. fold (map stringify (w :: l)).
    change (stringify w :: map stringify l) with (map stringify (w :: l)).
    rewrite IH by (done || simpl; lia). done.
Qed.

(** Members of an object, in the order they are printed. *)
Definition member (kv : jsstr * jsval) : jsstr := quote (fst kv) ++ js ":" ++ stringify (snd kv).

Lemma stringify_members o :
  forallb (fun kv => plain_with ok (snd kv)) o = true ->
  flat_map (fun kv => match kv with
                      | (k, JUndef) => []
                      | (k, w) => [quote k ++ js ":" ++ stringify w]
                      end) o = map member o.
Proof.
  induction o as [|[k v] o IH]; [done|]. cbn [forallb snd]. rewrite andb_true_iff. intros [Hv Ho].
  cbn [flat_map map]. rewrite IH by done. by destruct v.
Qed.

Lemma define_new k v acc :
  k ∉ map fst acc -> index_key k = None -> define_property k v acc = acc ++ [(k, v)].
Proof.
  intros Hk Hi. unfold define_property.
  assert (assoc k acc = None) as ->.
  { induction acc as [|[k' v'] acc IH]; [done|]. cbn [assoc map] in *.
    apply not_elem_of_cons in Hk as [Hn Hk]. by rewrite (proj2 (str_eqb_neq k k') Hn), IH. }
  clear Hk. induction acc as [|[k' v'] acc IH]; [done|]. cbn [insert_new app]. rewrite Hi. by rewrite IH.
Qed.

Lemma member_head kv : exists u, member kv = 34%N :: u.
Proof. unfold member, quote. cbn [app]. eauto. Qed.

Lemma parses_members kv o acc :
  Forall (fun kv => parses (snd kv)) (kv :: o) ->
  forallb (fun kv => plain_with ok (snd kv)) (kv :: o) = true ->
  NoDup (map fst (acc ++ kv :: o)) -> Forall (fun kv => index_key (fst kv) = None) (kv :: o) ->
  forall fuel rest, (length (join (js ",") (map member (kv :: o))) < fuel)%nat ->
  parse_members reader fuel (join (js ",") (map member (kv :: o)) ++ 125%N :: rest) acc
    = Some (acc ++ kv :: o, rest).
Proof.
  revert kv acc. induction o as [|kw o IH]; intros [k v] acc Hp Hok Hd Hi [|f] rest Hf; try lia.
  all: apply Forall_cons in Hp as [Hv Hl]; cbn [forallb snd] in *;
    apply andb_true_iff in Hok as [Hov Hol]; apply Forall_cons in Hi as [Hk Hi]; cbn [fst] in Hk.
  all: assert (Hnew : define_property k v acc = acc ++ [(k, v)]) by
    (apply define_new; [|done]; rewrite map_app in Hd; apply NoDup_app in Hd as (_ & Hx & _);
     intros Hin; apply (Hx k Hin); by left).
  all: destruct (stringify_head ok v Hov) as (c & t & Eh & Hh).
  - cbn [map join member fst snd] in *. unfold member, quote in Hf |- *. cbn [fst snd] in *.
    rewrite !length_app in Hf. cbn [length app] in Hf. rewrite ?length_app in Hf. cbn [length] in Hf.
    cbn [app parse_members]. change (skip_space (34%N :: ?r)) with (34%N :: r).
    cbn [starts_with]. change (34 =? 34)%N with true. cbv beta iota.
    rewrite <- !app_assoc. cbn [app]. rewrite quote_body_unquote.
    change (skip_space (js ":" ++ ?r)) with (58%N :: r). cbn [starts_with].
    change (58 =? 58)%N with true. cbv beta iota. rewrite Hv by (done || lia).
    change (skip_space (125%N :: ?r)) with (125%N :: r). cbv beta iota.
    change (125 =? 125)%N with true. cbv beta iota. by rewrite Hnew.
  - cbn [map join] in *. fold (map member (kw :: o)) in *.
    change (member kw :: map member o) with (map member (kw :: o)) in *.
    unfold member at 1 in Hf. unfold member at 1. unfold quote in Hf |- *. cbn [fst snd] in *.
    rewrite !length_app in Hf. cbn [length app] in Hf. rewrite ?length_app in Hf. cbn [length] in Hf.
    cbn [app parse_members]. change (skip_space (34%N :: ?r)) with (34%N :: r).
    cbn [starts_with]. change (34 =? 34)%N with true. cbv beta iota.
    rewrite <- !app_assoc. cbn [app]. rewrite quote_body_unquote.
    change (skip_space (js ":" ++ ?r)) with (58%N :: r). cbn [starts_with].
    change (58 =? 58)%N with true. cbv beta iota. rewrite Hv by (done || lia).
    change (skip_space (js "," ++ ?r)) with (44%N :: r). cbv beta iota.
    change (44 =? 125)%N with false. change (44 =? 44)%N with true. cbv beta iota.
    rewrite Hnew, IH; [by rewrite <- app_assoc|done|done| |done|lia].
    by rewrite <- app_assoc.
Qed.

Lemma keys_ok_spec (o : list (jsstr * jsval)) :
  keys_ok (map fst o) = true ->
  NoDup (map fst o) /\ Forall (fun kv => index_key (fst kv) = None) o.
Proof.
  unfold keys_ok. rewrite andb_true_iff, negb_true_iff, has_duplicates_false, forallb_forall.
  intros [Hd Hk]. split; [done|]. apply Forall_forall. intros kv Hkv.
  apply (bool_decide_unpack _), Is_true_true, (Hk (fst kv)). by apply in_map, list_elem_of_In.
Qed.

Lemma parses_all v : parses v.
Proof.
  induction v as [| |b|z|r|s|l IH|o IH] using jsval_ind'; intros Hok fuel rest Hf Hr;
    try discriminate Hok;
    (destruct fuel as [|f];
      [destruct (stringify_head ok _ Hok) as (? & ? & E & _); rewrite E in Hf; simpl in Hf; lia|]).
  - done.
  - by destruct b.
  - simpl in Hok. destruct (num_to_string_head z) as (c & t & E & Hc).
    destruct (stringify_head ok (JNum z) Hok) as (c' & t' & E' & Hh). simpl in E'.
    rewrite E in E'. simplify_eq. simpl stringify. rewrite E. cbn [parse_value app].
    rewrite skip_space_head by done.
    rewrite !(proj2 (N.eqb_neq c' _)) by lia.
    change (c' :: t' ++ rest) with ((c' :: t') ++ rest).
    rewrite <- E, take_number_app by (done || apply num_to_string_units).
    rewrite read_num_to_string. simpl. by rewrite reader_ok.
  - simpl in *. rewrite <- app_assoc. simpl. by rewrite quote_body_unquote.
  - destruct l as [|v l]; [done|].
    pose proof Hok as Hok'. simpl in Hok'. apply andb_true_iff in Hok' as [Hv _].
    destruct (stringify_head ok v Hv) as (c & t & E & Hh).
    assert (Hj : exists u, join (js ",") (map stringify (v :: l)) = c :: u).
    { destruct l; simpl; rewrite E; simpl; eauto. }
    destruct Hj as [u Hj].
    assert (Hf' : (length (join (js ",") (map stringify (v :: l))) < f)%nat).
    { cbn [stringify js] in Hf. rewrite !length_app in Hf. simpl in Hf |- *. lia. }
    change (stringify (JArr (v :: l)))
      with (91%N :: join (js ",") (map stringify (v :: l)) ++ [93%N]).
    rewrite <- app_comm_cons, <- app_assoc. cbn [parse_value].
    change (skip_space (91%N :: ?r)) with (91%N :: r). cbv beta iota.
    change (91 =? 91)%N with true. cbv beta iota.
    pose proof (parses_elements v l IH Hok f rest Hf') as Hpe.
    rewrite Hj in Hpe |- *. cbn [app] in Hpe |- *.
    rewrite skip_space_head, starts_with_head, Hpe by done. done.
  - cbn [plain_with] in Hok. apply andb_true_iff in Hok as [[Hd Hi]%keys_ok_spec Hok].
    destruct o as [|kv o]; [done|].
    assert (E : stringify (JObj (kv :: o)) = 123%N :: join (js ",") (map member (kv :: o)) ++ [125%N]).
    { cbn [stringify]. by rewrite (stringify_members (kv :: o) Hok). }
    rewrite E in Hf |- *. cbn [length] in Hf. rewrite length_app in Hf. cbn [length] in Hf.
    pose proof (parses_members kv o [] IH Hok Hd Hi f rest ltac:(lia)) as Hpm.
    destruct (member_head kv) as [u Hu].
    assert (Hj : exists u', join (js ",") (map member (kv :: o)) = 34%N :: u').
    { destruct o; cbn [map join]; rewrite Hu; cbn [app]; eauto. }
    destruct Hj as [u' Hj].
    rewrite <- app_comm_cons, <- app_assoc. cbn [parse_value].
    change (skip_space (123%N :: ?r)) with (123%N :: r). cbv beta iota.
    change (123 =? 91)%N with false. change (123 =? 123)%N with true. cbv beta iota.
    rewrite Hj in Hpm |- *. cbn [app] in Hpm |- *.
    change (skip_space (34%N :: ?r)) with (34%N :: r). cbn [starts_with].
    change (125 =? 34)%N with false. cbv beta iota. rewrite Hpm. done.
Qed.

Lemma parse_text_stringify v : plain_with ok v = true ->
  parse_text reader (stringify v) = Some v.
Proof.
  intros Hv. unfold parse_text.
  pose proof (parses_all v Hv (S (length (stringify v))) [] ltac:(lia) eq_refl) as H.
  rewrite app_nil_r in H. by rewrite H.
Qed.
End RoundTrip.

(** [JSON.parse(JSON.stringify(v))] is [v] on plain values with safe numbers. *)
Lemma json_parse_stringify `{JsHost} v :
  safe_plain v = true -> json_parse (stringify v) = Some v.
Proof.
  apply parse_text_stringify. intros z Hz. unfold json_reader. by rewrite Hz.
Qed.

(** Plain values are determined by their text, whatever their numbers. *)
Lemma stringify_inj v w :
  plain v = true -> plain w = true -> stringify v = stringify w -> v = w.
Proof.
  intros Hv Hw E.
  pose proof (parse_text_stringify (fun _ z _ => JNum z) (fun _ => true) ltac:(done)) as P.
  pose proof (P v Hv) as Pv. pose proof (P w Hw) as Pw. rewrite E in Pv. congruence.
Qed.

Lemma safe_plain_plain v : safe_plain v = true -> plain v = true.
Proof.
  unfold safe_plain, plain.
  induction v as [| | | | | |l IH|o IH] using jsval_ind'; simpl; try done.
  - intros Hl. rewrite forallb_forall in *. intros x Hx.
    rewrite Forall_forall in IH. apply IH; [by apply list_elem_of_In|by apply Hl].
  - rewrite !andb_true_iff. intros [Hk Hl]. split; [done|]. rewrite forallb_forall in *. intros x Hx.
    rewrite Forall_forall in IH. apply IH; [by apply list_elem_of_In|by apply Hl].
Qed.

Lemma num_to_string_inj a b : num_to_string a = num_to_string b -> a = b.
Proof.
  intros E. pose proof (read_num_to_string (fun _ z _ => JNum z) a) as Ha.
  pose proof (read_num_to_string (fun _ z _ => JNum z) b) as Hb. rewrite E in Ha. congruence.
Qed.

(** ** A concrete host *)

(** Code-unit collation, and tokens that print as they are written. *)
Definition code_unit_compare (a b : jsstr) : Z :=
  if str_eqb a b then 0 else if str_leb a b then -1 else 1.
Definition code_unit_host : JsHost :=
  {| localeCompare := code_unit_compare; number_token := JFloat |}.

Lemma code_unit_compare_le a b : code_unit_compare a b <= 0 <-> str_leb a b = true.
Proof.
  unfold code_unit_compare. destruct (str_eqb a b) eqn:E.
  - apply str_eqb_eq in E as ->. split; [|lia]. intros _.
    by destruct (str_leb_total b b).
  - destruct (str_leb a b); split; (done || lia).
Qed.

#[export] Instance code_unit_host_laws : JsHostLaws code_unit_host.
Proof.
  split; intros; simpl in *; rewrite !code_unit_compare_le in *;
    [apply str_leb_total|by eapply str_leb_trans].
Qed.
