(* ===== verification/Contracts.v ===== *)
(** * Game contracts and content

    The data of [game/contracts.ts] and the rules of [game/content.ts]: one
    record per interface, one constructor per member of a tagged union.  All
    numbers of the game are integral and are kept as [Z]; [Kernel] shows that
    a run never leaves the safe-integer range. *)
From S2P Require Import Prelude.
Set Default Goal Selector "!".

(** An axis is a number; [isAxis] of the kernel tests membership in -1, 0, 1. *)
Record InputFrame := mkInputFrame {
  input_tick : Z;
  horizontal : Z;
  vertical : Z;
}.

Record PlayerState := mkPlayer {
  player_id : jsstr;
  player_x : Z;
  player_y : Z;
  player_hp : Z;
  player_maxHp : Z;
}.

Record EnemyState := mkEnemy {
  enemy_id : jsstr;
  enemy_x : Z;
  enemy_y : Z;
  enemy_hp : Z;
  enemy_maxHp : Z;
}.

Record TelegraphState := mkTelegraph {
  telegraph_id : jsstr;
  telegraph_x : Z;
  telegraph_y : Z;
  radius : Z;
  startTick : Z;
  resolveTick : Z;
  damage : Z;
}.

Inductive ItemRarity := common | magic | rare | legendary.

(** The six fields an authority receipt binds to an item: the [verified]
    member of [ItemAuditState], the [allowed] member of [ListingEligibility]. *)
Record VerifiedAudit := mkVerifiedAudit {
  va_authorityReceiptId : jsstr;
  va_ownerPublicKey : jsstr;
  va_ownerVersion : Z;
  va_ownerHeadId : jsstr;
  va_checkpointDigest : jsstr;
  va_inventoryEpoch : Z;
}.

Inductive ItemAuditState :=
| provisional
| verified (a : VerifiedAudit).

Record InventoryItem := mkItem {
  assetId : jsstr;
  ownerId : jsstr;
  itemType : jsstr;
  rarity : ItemRarity;
  power : Z;
  sourceEnemyId : jsstr;
  killTick : Z;
  dropIndex : Z;
  audit : ItemAuditState;
}.

Record GroundDrop := mkDrop {
  drop_id : jsstr;
  drop_x : Z;
  drop_y : Z;
  drop_item : InventoryItem;
}.

Record GameState := mkGame {
  seed : Z;
  tick : Z;
  player : PlayerState;
  enemies : list EnemyState;
  telegraphs : list TelegraphState;
  drops : list GroundDrop;
  inventory : list InventoryItem;
}.

Inductive TelegraphOutcome := hit | dodged.

Inductive StepEffect :=
| auto_attack (enemyId : jsstr) (dmg : Z) (at_tick : Z)
| enemy_killed (enemyId : jsstr) (at_tick : Z)
| item_dropped (drop : GroundDrop) (at_tick : Z)
| item_picked_up (asset : jsstr) (at_tick : Z)
| telegraph_resolved (telegraphId : jsstr) (outcome : TelegraphOutcome) (at_tick : Z).

Inductive AdvanceReason := tick_mismatch | invalid_axis.
Definition AdvanceGameResult := result (GameState * list StepEffect) AdvanceReason.

Record ItemVerificationReceipt := mkReceipt {
  r_authorityReceiptId : jsstr;
  r_assetId : jsstr;
  r_ownerId : jsstr;
  r_ownerPublicKey : jsstr;
  r_ownerVersion : Z;
  r_ownerHeadId : jsstr;
  r_checkpointDigest : jsstr;
  r_inventoryEpoch : Z;
}.

Inductive ApplyReason :=
| invalid_receipt | unknown_asset | owner_mismatch | verification_conflict.
Definition ApplyItemVerificationResult := result GameState ApplyReason.

(** [None] is [{ allowed: false, reason: "awaiting_checkpoint" }]. *)
Definition ListingEligibility := option VerifiedAudit.

(** ** Content *)

Record GameRules := mkRules {
  worldWidth : Z;
  worldHeight : Z;
  playerRadius : Z;
  enemyRadius : Z;
  pickupRadius : Z;
  axisMove : Z;
  diagonalMove : Z;
  enemyMove : Z;
  autoAttackInterval : Z;
  autoAttackRange : Z;
  autoAttackDamage : Z;
}.

Definition DEFAULT_GAME_RULES : GameRules := {|
  worldWidth := 1280;
  worldHeight := 720;
  playerRadius := 14;
  enemyRadius := 16;
  pickupRadius := 24;
  axisMove := 6;
  diagonalMove := 4;
  enemyMove := 2;
  autoAttackInterval := 15;
  autoAttackRange := 190;
  autoAttackDamage := 30;
|}.

Definition ITEM_TYPES : list jsstr :=
  [js "ember-blade"; js "storm-ring"; js "bone-charm"; js "void-boots"].

(** ** Decidable equality *)

#[export] Instance InputFrame_eq_dec : EqDecision InputFrame.
Proof. solve_decision. Defined.
#[export] Instance PlayerState_eq_dec : EqDecision PlayerState.
Proof. solve_decision. Defined.
#[export] Instance EnemyState_eq_dec : EqDecision EnemyState.
Proof. solve_decision. Defined.
#[export] Instance TelegraphState_eq_dec : EqDecision TelegraphState.
Proof. solve_decision. Defined.
#[export] Instance ItemRarity_eq_dec : EqDecision ItemRarity.
Proof. solve_decision. Defined.
#[export] Instance VerifiedAudit_eq_dec : EqDecision VerifiedAudit.
Proof. solve_decision. Defined.
#[export] Instance ItemAuditState_eq_dec : EqDecision ItemAuditState.
Proof. solve_decision. Defined.
#[export] Instance InventoryItem_eq_dec : EqDecision InventoryItem.
Proof. solve_decision. Defined.
#[export] Instance GroundDrop_eq_dec : EqDecision GroundDrop.
Proof. solve_decision. Defined.
#[export] Instance GameState_eq_dec : EqDecision GameState.
Proof. solve_decision. Defined.
