(* ===== verification/Kernel.v ===== *)
(** * Game kernel

    [game/kernel.ts]: the deterministic tick function that clients run and
    the authority replays, and the verification state of inventory items. *)
From S2P Require Import Prelude Json Contracts.
Set Default Goal Selector "!".

Record CreateGameInput := mkCreateGame {
  create_seed : Z;
  create_playerId : jsstr;
}.

(** ** Helpers *)

Definition clamp (value minimum maximum : Z) : Z :=
  Z.min maximum (Z.max minimum value).

Definition isAxis (value : Z) : bool :=
  (value =? -1) || (value =? 0) || (value =? 1).

Definition squaredDistance (lx ly rx ry : Z) : Z :=
  let dx := lx - rx in
  let dy := ly - ry in
  dx * dx + dy * dy.

Definition moveToward (e : EnemyState) (tx ty : Z) : EnemyState :=
  let dx := Z.sgn (tx - enemy_x e) in
  let dy := Z.sgn (ty - enemy_y e) in
  {| enemy_id := enemy_id e;
     enemy_x := enemy_x e + dx * enemyMove DEFAULT_GAME_RULES;
     enemy_y := enemy_y e + dy * enemyMove DEFAULT_GAME_RULES;
     enemy_hp := enemy_hp e;
     enemy_maxHp := enemy_maxHp e |}.

Definition mix32 (value : Z) : Z :=
  let mixed := js_shr value 0 in
  let mixed := js_xor mixed (js_shr mixed 16) in
  let mixed := js_imul mixed 0x7feb352d in
  let mixed := js_xor mixed (js_shr mixed 15) in
  let mixed := js_imul mixed 0x846ca68b in
  let mixed := js_xor mixed (js_shr mixed 16) in
  js_shr mixed 0.

Definition stringHash (value : jsstr) : Z :=
  js_shr (fold_left (fun hash c => js_imul (js_xor hash (Z.of_N c)) 0x01000193)
            value 0x811c9dc5) 0.

Definition rarityFor (roll : Z) : ItemRarity :=
  let bucket := roll mod 1000 in
  if bucket <? 20 then legendary
  else if bucket <? 140 then rare
  else if bucket <? 440 then magic
  else common.

Definition deriveDrop (seed : Z) (playerId : jsstr) (e : EnemyState)
    (killTick dropIndex : Z) : GroundDrop :=
  let roll := mix32 (js_xor (js_xor (js_xor seed (stringHash (enemy_id e)))
                       (js_imul killTick 0x9e3779b1)) dropIndex) in
  let rollHex := pad_start 8 48 (hex_of roll) in
  let asset := join (js ":")
    [js "loot-v1"; hex_of (js_shr seed 0); enemy_id e;
     num_to_string killTick; num_to_string dropIndex; rollHex] in
  let item :=
    {| assetId := asset;
       ownerId := playerId;
       itemType := default [] (ITEM_TYPES !! Z.to_nat (roll mod Z.of_nat (length ITEM_TYPES)));
       rarity := rarityFor roll;
       power := 1 + (js_shr roll 12) mod 100;
       sourceEnemyId := enemy_id e;
       killTick := killTick;
       dropIndex := dropIndex;
       audit := provisional |} in
  {| drop_id := js "drop:" ++ asset;
     drop_x := enemy_x e;
     drop_y := enemy_y e;
     drop_item := item |}.

(** ** Creation *)

Definition createInitialGame (input : CreateGameInput) : throws GameState :=
  throw_if (negb (isSafeInteger (create_seed input))) (js "game seed must be a safe integer") $
  throw_if (slen (create_playerId input) =? 0) (js "player id must not be empty") $
  let p := {| player_id := create_playerId input;
              player_x := 640; player_y := 360; player_hp := 3; player_maxHp := 3 |} in
  inr {| seed := js_shr (create_seed input) 0;
         tick := 0;
         player := p;
         enemies := [{| enemy_id := js "enemy-0"; enemy_x := 760; enemy_y := 360;
                        enemy_hp := 60; enemy_maxHp := 60 |}];
         telegraphs := [{| telegraph_id := js "telegraph-0";
                           telegraph_x := player_x p; telegraph_y := player_y p;
                           radius := 96; startTick := 0; resolveTick := 45; damage := 1 |}];
         drops := [];
         inventory := [] |}.

(** ** One tick *)

Definition movePlayer (state : GameState) (input : InputFrame) : PlayerState :=
  let diagonal := negb (horizontal input =? 0) && negb (vertical input =? 0) in
  let distance := if diagonal then diagonalMove DEFAULT_GAME_RULES
                  else axisMove DEFAULT_GAME_RULES in
  let p := player state in
  {| player_id := player_id p;
     player_x := clamp (player_x p + horizontal input * distance)
       (playerRadius DEFAULT_GAME_RULES)
       (worldWidth DEFAULT_GAME_RULES - playerRadius DEFAULT_GAME_RULES);
     player_y := clamp (player_y p + vertical input * distance)
       (playerRadius DEFAULT_GAME_RULES)
       (worldHeight DEFAULT_GAME_RULES - playerRadius DEFAULT_GAME_RULES);
     player_hp := player_hp p;
     player_maxHp := player_maxHp p |}.

Section Tick.
Context `{JsHost}.

(** The comparator of [attackNearest], as [compare(left, right) <= 0]. *)
Definition nearer (p : PlayerState) (left right : EnemyState) : bool :=
  let d := squaredDistance (enemy_x left) (enemy_y left) (player_x p) (player_y p)
         - squaredDistance (enemy_x right) (enemy_y right) (player_x p) (player_y p) in
  if d =? 0 then localeCompare (enemy_id left) (enemy_id right) <=? 0 else d <=? 0.

Definition in_attack_range (p : PlayerState) (e : EnemyState) : bool :=
  squaredDistance (enemy_x e) (enemy_y e) (player_x p) (player_y p)
    <=? autoAttackRange DEFAULT_GAME_RULES ^ 2.

Definition set_enemy_hp (e : EnemyState) (hp : Z) : EnemyState :=
  {| enemy_id := enemy_id e; enemy_x := enemy_x e; enemy_y := enemy_y e;
     enemy_hp := hp; enemy_maxHp := enemy_maxHp e |}.

Definition attackNearest (es : list EnemyState) (p : PlayerState) (tick seed : Z)
    : list EnemyState * list GroundDrop * list StepEffect :=
  if negb (Z.rem tick (autoAttackInterval DEFAULT_GAME_RULES) =? 0) then (es, [], [])
  else
    match js_sort (nearer p) (List.filter (in_attack_range p) es) with
    | [] => (es, [], [])
    | target :: _ =>
        let effects :=
          [auto_attack (enemy_id target) (autoAttackDamage DEFAULT_GAME_RULES) tick] in
        let damaged :=
          set_enemy_hp target (enemy_hp target - autoAttackDamage DEFAULT_GAME_RULES) in
        if 0 <? enemy_hp damaged then
          (map (fun e => if str_eqb (enemy_id e) (enemy_id target) then damaged else e) es,
           [], effects)
        else
          let drop := deriveDrop seed (player_id p) target tick 0 in
          (List.filter (fun e => negb (str_eqb (enemy_id e) (enemy_id target))) es,
           [drop],
           effects ++ [enemy_killed (enemy_id target) tick; item_dropped drop tick])
    end.

Definition set_player_hp (p : PlayerState) (hp : Z) : PlayerState :=
  {| player_id := player_id p; player_x := player_x p; player_y := player_y p;
     player_hp := hp; player_maxHp := player_maxHp p |}.

(** The loop over [state.telegraphs]: the player after it, the telegraphs that
    remain and the effects pushed. *)
Fixpoint resolveTelegraphs (ts : list TelegraphState) (p : PlayerState) (tick : Z)
    : PlayerState * list TelegraphState * list StepEffect :=
  match ts with
  | [] => (p, [], [])
  | t :: ts' =>
      if negb (resolveTick t =? tick) then
        let '(p', remaining, effects) := resolveTelegraphs ts' p tick in
        (p', t :: remaining, effects)
      else
        let is_hit :=
          squaredDistance (telegraph_x t) (telegraph_y t) (player_x p) (player_y p)
            <=? radius t ^ 2 in
        let p := if is_hit then set_player_hp p (Z.max 0 (player_hp p - damage t)) else p in
        let '(p', remaining, effects) := resolveTelegraphs ts' p tick in
        (p', remaining,
         telegraph_resolved (telegraph_id t) (if is_hit then hit else dodged) tick :: effects)
  end.

Definition in_pickup_range (p : PlayerState) (d : GroundDrop) : bool :=
  squaredDistance (drop_x d) (drop_y d) (player_x p) (player_y p)
    <=? pickupRadius DEFAULT_GAME_RULES ^ 2.

Definition advanceGame (state : GameState) (input : InputFrame) : AdvanceGameResult :=
  if negb (input_tick input =? tick state + 1) then Err tick_mismatch
  else if negb (isAxis (horizontal input)) || negb (isAxis (vertical input))
  then Err invalid_axis
  else
    let playerAfterMove := movePlayer state input in
    let enemiesAfterMove :=
      map (fun e => moveToward e (player_x playerAfterMove) (player_y playerAfterMove))
        (enemies state) in
    let '(enemiesAfterAttack, attackDrops, attackEffects) :=
      attackNearest enemiesAfterMove playerAfterMove (input_tick input) (seed state) in
    let '(p, remainingTelegraphs, telegraphEffects) :=
      resolveTelegraphs (telegraphs state) playerAfterMove (input_tick input) in
    let allDrops := drops state ++ attackDrops in
    let pickedUp := List.filter (in_pickup_range p) allDrops in
    let pickupEffects :=
      map (fun d => item_picked_up (assetId (drop_item d)) (input_tick input)) pickedUp in
    let pickedIds := map drop_id pickedUp in
    Ok ({| seed := seed state;
           tick := input_tick input;
           player := p;
           enemies := enemiesAfterAttack;
           telegraphs := remainingTelegraphs;
           drops := List.filter (fun d => negb (bool_decide (drop_id d ∈ pickedIds))) allDrops;
           inventory := inventory state ++ map drop_item pickedUp |},
        attackEffects ++ telegraphEffects ++ pickupEffects).

(** A sequence of ticks, refused at the first input that is. *)
Fixpoint runGame (state : GameState) (inputs : list InputFrame)
    : result (GameState * list (list StepEffect)) AdvanceReason :=
  match inputs with
  | [] => Ok (state, [])
  | i :: inputs' =>
      match advanceGame state i with
      | Err e => Err e
      | Ok (state', effects) =>
          match runGame state' inputs' with
          | Err e => Err e
          | Ok (state'', rest) => Ok (state'', effects :: rest)
          end
      end
  end.
End Tick.

(** ** Verification of items *)

Definition listingEligibility (item : InventoryItem) : ListingEligibility :=
  match audit item with
  | verified a => Some a
  | provisional => None
  end.

Definition validReceipt (r : ItemVerificationReceipt) : bool :=
  negb (slen (r_authorityReceiptId r) =? 0) &&
  negb (slen (r_assetId r) =? 0) &&
  negb (slen (r_ownerId r) =? 0) &&
  is_hex 64 (r_ownerPublicKey r) &&
  isSafeInteger (r_ownerVersion r) && (0 <=? r_ownerVersion r) &&
  is_hex 64 (r_ownerHeadId r) &&
  negb (slen (r_checkpointDigest r) =? 0) &&
  isSafeInteger (r_inventoryEpoch r) && (0 <=? r_inventoryEpoch r).

Definition receiptAudit (r : ItemVerificationReceipt) : VerifiedAudit :=
  {| va_authorityReceiptId := r_authorityReceiptId r;
     va_ownerPublicKey := r_ownerPublicKey r;
     va_ownerVersion := r_ownerVersion r;
     va_ownerHeadId := r_ownerHeadId r;
     va_checkpointDigest := r_checkpointDigest r;
     va_inventoryEpoch := r_inventoryEpoch r |}.

Definition set_audit (item : InventoryItem) (a : ItemAuditState) : InventoryItem :=
  {| assetId := assetId item; ownerId := ownerId item; itemType := itemType item;
     rarity := rarity item; power := power item; sourceEnemyId := sourceEnemyId item;
     killTick := killTick item; dropIndex := dropIndex item; audit := a |}.

Definition set_inventory (state : GameState) (inv : list InventoryItem) : GameState :=
  {| seed := seed state; tick := tick state; player := player state;
     enemies := enemies state; telegraphs := telegraphs state; drops := drops state;
     inventory := inv |}.

Definition applyItemVerification (state : GameState) (receipt : ItemVerificationReceipt)
    : ApplyItemVerificationResult :=
  if negb (validReceipt receipt) then Err invalid_receipt
  else
    match find_index (fun item => str_eqb (assetId item) (r_assetId receipt)) (inventory state) with
    | None => Err unknown_asset
    | Some index =>
        match inventory state !! index with
        | None => Err unknown_asset
        | Some item =>
            if negb (str_eqb (ownerId item) (r_ownerId receipt)) then Err owner_mismatch
            else
              match audit item with
              | verified a =>
                  if negb (bool_decide (a = receiptAudit receipt)) then Err verification_conflict
                  else Ok state
              | provisional =>
                  Ok (set_inventory state
                        (<[index := set_audit item (verified (receiptAudit receipt))]>
                           (inventory state)))
              end
        end
    end.
