(* ===== verification/KernelFacts.v ===== *)
(** * Facts about the game kernel

    The run invariant of [Kernel] (world bounds, hit points, provenance and
    uniqueness of loot), conservation of loot, and the verification of items. *)
From S2P Require Import Prelude Json Contracts Kernel.
Set Default Goal Selector "!".

(** ** Loot *)

(** Everything that has dropped and is not an enemy any more. *)
Definition loot (g : GameState) : list InventoryItem :=
  map drop_item (drops g) ++ inventory g.

(** The identities the run accounts for: the living and the looted. *)
Definition sources (g : GameState) : list jsstr :=
  map enemy_id (enemies g) ++ map sourceEnemyId (loot g).

Definition ghost_enemy (id : jsstr) : EnemyState := mkEnemy id 0 0 0 0.

(** The item that the kernel derives when the enemy [id] dies at [t]. *)
Definition derived_item (g : GameState) (id : jsstr) (t : Z) : InventoryItem :=
  drop_item (deriveDrop (seed g) (player_id (player g)) (ghost_enemy id) t 0).

Definition item_derived (g : GameState) (it : InventoryItem) : Prop :=
  set_audit it provisional = derived_item g (sourceEnemyId it) (killTick it) /\
  0 < killTick it <= tick g.

Lemma deriveDrop_item sd pid e t i :
  drop_item (deriveDrop sd pid e t i) =
  drop_item (deriveDrop sd pid (ghost_enemy (enemy_id e)) t i).
Proof. done. Qed.

Lemma deriveDrop_id sd pid e t i :
  drop_id (deriveDrop sd pid e t i) =
  js "drop:" ++ assetId (drop_item (deriveDrop sd pid e t i)).
Proof. done. Qed.

(** ** Invariant of a run *)

Definition enemy_ok (e : EnemyState) : Prop :=
  13 <= enemy_x e <= 1267 /\ 13 <= enemy_y e <= 707 /\ 0 < enemy_hp e <= enemy_maxHp e.

Definition player_ok (p : PlayerState) : Prop :=
  14 <= player_x p <= 1266 /\ 14 <= player_y p <= 706 /\
  0 <= player_hp p <= player_maxHp p /\ player_maxHp p <= MAX_SAFE_INTEGER.

Definition telegraph_ok (now : Z) (t : TelegraphState) : Prop :=
  now < resolveTick t /\ 0 <= radius t /\ 0 <= damage t.

Record game_inv (g : GameState) : Prop := {
  inv_seed : 0 <= seed g < 2 ^ 32;
  inv_tick : 0 <= tick g;
  inv_player : player_ok (player g);
  inv_enemies : Forall enemy_ok (enemies g);
  inv_telegraphs : Forall (telegraph_ok (tick g)) (telegraphs g);
  inv_drop_ids : Forall (fun d => drop_id d = js "drop:" ++ assetId (drop_item d)) (drops g);
  inv_loot : Forall (item_derived g) (loot g);
  inv_sources : NoDup (sources g);
}.

(** ** Arithmetic of the kernel *)

Lemma clamp_range v lo hi : lo <= hi -> lo <= clamp v lo hi <= hi.
Proof. unfold clamp. lia. Qed.

Lemma isAxis_spec v : isAxis v = true <-> v = -1 \/ v = 0 \/ v = 1.
Proof. unfold isAxis. rewrite !orb_true_iff, !Z.eqb_eq. tauto. Qed.

Lemma mix32_range v : 0 <= mix32 v < 2 ^ 32.
Proof. unfold mix32. cbv zeta. by apply js_shr_range. Qed.

Lemma squaredDistance_nonneg a b c d : 0 <= squaredDistance a b c d.
Proof. unfold squaredDistance. cbv zeta. pose proof (Z.square_nonneg (a - c)). pose proof (Z.square_nonneg (b - d)). lia. Qed.

Lemma movePlayer_ok g i : player_ok (player g) -> player_ok (movePlayer g i).
Proof.
  intros (Hx & Hy & Hh & Hm). unfold player_ok, movePlayer. simpl.
  split_and!; try (apply clamp_range; lia); lia.
Qed.

Lemma moveToward_ok e x y :
  14 <= x <= 1266 -> 14 <= y <= 706 -> enemy_ok e -> enemy_ok (moveToward e x y).
Proof.
  intros Hx Hy (Ex & Ey & Eh). unfold enemy_ok, moveToward. simpl.
  split_and!; try lia;
    (destruct (Z.sgn_spec (x - enemy_x e)) as [[? ->]|[[? ->]|[? ->]]];
     destruct (Z.sgn_spec (y - enemy_y e)) as [[? ->]|[[? ->]|[? ->]]]; lia).
Qed.


(** ** Asset ids *)

Lemma num_to_string_no_colon z : 58%N ∉ num_to_string z.
Proof.
  unfold num_to_string. case_match; [|by apply digits_no_colon].
  apply not_elem_of_cons. split; [done|by apply digits_no_colon].
Qed.

Lemma pad_hex_no_colon n z : 58%N ∉ pad_start n 48 (hex_of z).
Proof.
  unfold pad_start. apply not_elem_of_app. split; [|by apply digits_no_colon].
  intros [? _]%elem_of_replicate. done.
Qed.

Lemma derived_assetId_split sd pid id t : exists roll,
  assetId (drop_item (deriveDrop sd pid (ghost_enemy id) t 0)) =
  ((((js "loot-v1" ++ 58%N :: hex_of (js_shr sd 0)) ++ 58%N :: id) ++ 58%N :: num_to_string t)
     ++ 58%N :: num_to_string 0) ++ 58%N :: pad_start 8 48 (hex_of roll).
Proof.
  eexists. repeat (rewrite <- app_assoc; cbn [app]). reflexivity.
Qed.

(** In one run an asset id names the enemy and the tick it comes from. *)
Lemma derived_assetId_inj sd pid id1 id2 t1 t2 :
  assetId (drop_item (deriveDrop sd pid (ghost_enemy id1) t1 0)) =
  assetId (drop_item (deriveDrop sd pid (ghost_enemy id2) t2 0)) ->
  id1 = id2 /\ t1 = t2.
Proof.
  destruct (derived_assetId_split sd pid id1 t1) as [r1 ->].
  destruct (derived_assetId_split sd pid id2 t2) as [r2 ->]. intros E.
  apply split_last_sep in E as [E _]; [|apply pad_hex_no_colon..].
  apply split_last_sep in E as [E _]; [|apply num_to_string_no_colon..].
  apply split_last_sep in E as [E Et]; [|apply num_to_string_no_colon..].
  apply app_inv_head in E. apply num_to_string_inj in Et. by simplify_eq.
Qed.

(** ** The attack *)

Section Facts.
Context `{JsHost}.

Definition effect_tick_of (fx : StepEffect) : Z :=
  match fx with
  | auto_attack _ _ t | enemy_killed _ t | item_dropped _ t
  | item_picked_up _ t | telegraph_resolved _ _ t => t
  end.

(** The items that the effects of a tick put on the ground. *)
Definition dropped_items (fx : list StepEffect) : list InventoryItem :=
  omap (fun f => match f with item_dropped d _ => Some (drop_item d) | _ => None end) fx.

Lemma dropped_items_app fx1 fx2 :
  dropped_items (fx1 ++ fx2) = dropped_items fx1 ++ dropped_items fx2.
Proof. apply omap_app. Qed.

(** What an attack does: nothing, a wound or a kill that leaves its drop. *)
Inductive attacked (es : list EnemyState) (p : PlayerState) (t sd : Z) :
  list EnemyState -> list GroundDrop -> list StepEffect -> Prop :=
| attacked_none : attacked es p t sd es [] []
| attacked_wound target :
    target ∈ es -> 0 < enemy_hp target - 30 ->
    attacked es p t sd
      (map (fun e => if str_eqb (enemy_id e) (enemy_id target)
                     then set_enemy_hp target (enemy_hp target - 30) else e) es)
      [] [auto_attack (enemy_id target) 30 t]
| attacked_kill target :
    target ∈ es -> enemy_hp target <= 30 ->
    attacked es p t sd
      (List.filter (fun e => negb (str_eqb (enemy_id e) (enemy_id target))) es)
      [deriveDrop sd (player_id p) target t 0]
      [auto_attack (enemy_id target) 30 t; enemy_killed (enemy_id target) t;
       item_dropped (deriveDrop sd (player_id p) target t 0) t].

Lemma attackNearest_spec es p t sd es' ds fx :
  attackNearest es p t sd = (es', ds, fx) -> attacked es p t sd es' ds fx.
Proof.
  unfold attackNearest. case_match; [intros; simplify_eq; constructor|].
  destruct (js_sort (nearer p) (List.filter (in_attack_range p) es)) as [|target rest] eqn:Es;
    [intros; simplify_eq; constructor|].
  assert (Ht : target ∈ es).
  { assert (Hin : target ∈ js_sort (nearer p) (List.filter (in_attack_range p) es))
      by (rewrite Es; by left).
    rewrite js_sort_perm in Hin. apply list_elem_of_In, filter_In in Hin as [Hin _].
    by apply list_elem_of_In. }
  simpl. case_match eqn:Eh; bool_split; intros; simplify_eq;
    [by apply attacked_wound|apply attacked_kill; [done|lia]].
Qed.

Lemma wound_ids es target v :
  enemy_id v = enemy_id target ->
  map enemy_id (map (fun e => if str_eqb (enemy_id e) (enemy_id target) then v else e) es)
  = map enemy_id es.
Proof.
  intros Hv. rewrite map_map. apply map_ext. intros e.
  destruct (str_eqb _ _) eqn:E; [|done]. apply str_eqb_eq in E. congruence.
Qed.

Lemma attacked_enemies_ok es p t sd es' ds fx :
  attacked es p t sd es' ds fx -> Forall enemy_ok es -> Forall enemy_ok es'.
Proof.
  destruct 1 as [|target Ht Hh|target Ht Hh]; intros Hes; [done| |].
  - rewrite List.Forall_map. eapply Forall_impl; [exact Hes|]. intros e He. simpl.
    case_match; [|done]. rewrite Forall_forall in Hes.
    destruct (Hes _ Ht) as (? & ? & ?). unfold enemy_ok. simpl. lia.
  - rewrite Forall_forall in *. intros e He. apply Hes.
    apply list_elem_of_In in He. apply filter_In in He as [He _]. by apply list_elem_of_In.
Qed.

(** An attack moves an identity from the living to the looted. *)
Lemma attacked_sources es p t sd es' ds fx :
  attacked es p t sd es' ds fx -> NoDup (map enemy_id es) ->
  map enemy_id es' ++ map sourceEnemyId (map drop_item ds) ≡ₚ map enemy_id es.
Proof.
  destruct 1 as [|target Ht Hh|target Ht Hh]; intros Hnd; simpl.
  - by rewrite app_nil_r.
  - by rewrite app_nil_r, wound_ids.
  - etransitivity; [symmetry; apply Permutation_cons_append|].
    symmetry. apply (Permutation_map enemy_id (filter_other_perm enemy_id target es Hnd Ht)).
Qed.

Lemma attacked_effects es p t sd es' ds fx :
  attacked es p t sd es' ds fx -> Forall (fun f => effect_tick_of f = t) fx.
Proof. destruct 1; by repeat constructor. Qed.

Lemma attacked_dropped es p t sd es' ds fx :
  attacked es p t sd es' ds fx -> dropped_items fx = map drop_item ds.
Proof. by destruct 1. Qed.

Lemma attacked_drops es p t sd es' ds fx :
  attacked es p t sd es' ds fx ->
  Forall (fun d => exists e, e ∈ es /\ d = deriveDrop sd (player_id p) e t 0) ds.
Proof. destruct 1; repeat constructor. eauto. Qed.

(** ** Telegraphs *)

Lemma resolveTelegraphs_spec ts p t p' rem fx :
  resolveTelegraphs ts p t = (p', rem, fx) ->
  rem = List.filter (fun tg => negb (resolveTick tg =? t)) ts /\
  player_id p' = player_id p /\ player_x p' = player_x p /\ player_y p' = player_y p /\
  player_maxHp p' = player_maxHp p /\
  Forall (fun f => effect_tick_of f = t) fx /\
  length fx = length (List.filter (fun tg => resolveTick tg =? t) ts).
Proof.
  revert p p' rem fx. induction ts as [|tg ts IH]; intros p p' rem fx; simpl.
  - intros; simplify_eq. by repeat split.
  - destruct (resolveTick tg =? t) eqn:E; simpl.
    + destruct (resolveTelegraphs ts _ t) as [[p1 rem1] fx1] eqn:Er. intros; simplify_eq.
      apply IH in Er as (-> & Hi & Hx & Hy & Hm & Hf & Hl).
      repeat split; try by (rewrite ?Hi, ?Hx, ?Hy, ?Hm; case_match).
      * by constructor.
      * simpl. by f_equal.
    + destruct (resolveTelegraphs ts p t) as [[p1 rem1] fx1] eqn:Er. intros; simplify_eq.
      apply IH in Er as (-> & Hi & Hx & Hy & Hm & Hf & Hl). by repeat split.
Qed.

Lemma resolveTelegraphs_dropped ts p t p' rem fx :
  resolveTelegraphs ts p t = (p', rem, fx) -> dropped_items fx = [].
Proof.
  revert p p' rem fx. induction ts as [|tg ts IH]; intros p p' rem fx; simpl.
  - by intros; simplify_eq.
  - case_match; destruct (resolveTelegraphs ts _ t) as [[p1 rem1] fx1] eqn:Er;
      intros; simplify_eq; simpl; eapply IH; exact Er.
Qed.

Lemma pickups_dropped (ds : list GroundDrop) t :
  dropped_items (map (fun d => item_picked_up (assetId (drop_item d)) t) ds) = [].
Proof. induction ds as [|d ds IH]; [done|exact IH]. Qed.

Lemma resolveTelegraphs_hp ts p t p' rem fx :
  resolveTelegraphs ts p t = (p', rem, fx) ->
  Forall (fun tg => 0 <= damage tg) ts -> 0 <= player_hp p ->
  0 <= player_hp p' <= player_hp p.
Proof.
  revert p p' rem fx. induction ts as [|tg ts IH]; intros p p' rem fx; simpl.
  - intros; simplify_eq. lia.
  - intros E Hd Hp. apply Forall_cons in Hd as [Hd Hds].
    destruct (resolveTick tg =? t); simpl in E.
    + destruct (resolveTelegraphs ts _ t) as [[p1 rem1] fx1] eqn:Er. simplify_eq.
      apply IH in Er; [|done|by case_match; simpl; lia].
      revert Er. case_match; simpl; lia.
    + destruct (resolveTelegraphs ts p t) as [[p1 rem1] fx1] eqn:Er. simplify_eq. eauto.
Qed.
(** ** The tick *)

(** The pieces of a successful tick. *)
Lemma advanceGame_Ok g i g' fx :
  advanceGame g i = Ok (g', fx) ->
  input_tick i = tick g + 1 /\
  isAxis (horizontal i) = true /\ isAxis (vertical i) = true /\
  exists es ds afx p rem tfx,
    attacked (map (fun e => moveToward e (player_x (movePlayer g i)) (player_y (movePlayer g i)))
                (enemies g)) (movePlayer g i) (tick g + 1) (seed g) es ds afx /\
    resolveTelegraphs (telegraphs g) (movePlayer g i) (tick g + 1) = (p, rem, tfx) /\
    let picked := List.filter (in_pickup_range p) (drops g ++ ds) in
    g' = mkGame (seed g) (tick g + 1) p es rem
           (List.filter (fun d => negb (bool_decide (drop_id d ∈ map drop_id picked)))
              (drops g ++ ds))
           (inventory g ++ map drop_item picked) /\
    fx = afx ++ tfx ++ map (fun d => item_picked_up (assetId (drop_item d)) (tick g + 1)) picked.
Proof.
  unfold advanceGame. intros E. guards E. bool_split. rewrite Hg in *.
  destruct (attackNearest _ _ _ _) as [[es ds] afx] eqn:Ea.
  destruct (resolveTelegraphs _ _ _) as [[p rem] tfx] eqn:Et. simplify_eq.
  split_and!; [done..|]. exists es, ds, afx, p, rem, tfx.
  split_and!; [by apply attackNearest_spec|done..].
Qed.

Lemma moved_ids g x y :
  map enemy_id (map (fun e => moveToward e x y) (enemies g)) = map enemy_id (enemies g).
Proof. by rewrite map_map. Qed.

Lemma item_derived_later g g' it :
  seed g' = seed g -> player_id (player g') = player_id (player g) -> tick g <= tick g' ->
  item_derived g it -> item_derived g' it.
Proof.
  unfold item_derived, derived_item. intros -> -> Ht [-> Hk]. split; [done|lia].
Qed.

Lemma deriveDrop_derived g e t :
  0 < t <= tick g ->
  item_derived g (drop_item (deriveDrop (seed g) (player_id (player g)) e t 0)).
Proof. intros Ht. split; [reflexivity|exact Ht]. Qed.

(** Derived drops with distinct sources have distinct ids. *)
Lemma derived_drop_ids g (ds : list GroundDrop) :
  Forall (fun d => drop_id d = js "drop:" ++ assetId (drop_item d)) ds ->
  Forall (item_derived g) (map drop_item ds) ->
  NoDup (map sourceEnemyId (map drop_item ds)) -> NoDup (map drop_id ds).
Proof.
  intros Hid Hder Hnd. rewrite map_map in Hnd.
  eapply NoDup_map_transfer; [exact Hnd|]. intros d e Hd He E.
  rewrite Forall_forall in Hid. rewrite List.Forall_map in Hder. rewrite Forall_forall in Hder.
  rewrite !Hid in E by done. apply app_inv_head in E.
  destruct (Hder d Hd) as [Ed _], (Hder e He) as [Ee _].
  apply (derived_assetId_inj (seed g) (player_id (player g)) _ _
           (killTick (drop_item d)) (killTick (drop_item e))).
  unfold derived_item in *. rewrite <- Ed, <- Ee. done.
Qed.

Section Tick.
Context (g : GameState) (i : InputFrame) (g' : GameState) (fx : list StepEffect).
Context (Hinv : game_inv g) (Hadv : advanceGame g i = Ok (g', fx)).

Lemma tick_frame : seed g' = seed g /\ tick g' = tick g + 1 /\
  player_id (player g') = player_id (player g) /\
  player_maxHp (player g') = player_maxHp (player g).
Proof.
  apply advanceGame_Ok in Hadv as (_ & _ & _ & es & ds & afx & p & rem & tfx & _ & Ht & -> & _).
  apply resolveTelegraphs_spec in Ht as (_ & Hi & _ & _ & Hm & _). done.
Qed.

(** Drops on the ground after the attack, before anything is picked up. *)
Lemma tick_drops : exists es ds p,
  enemies g' = es /\ map drop_item ds = dropped_items fx /\
  let all := drops g ++ ds in
  let picked := List.filter (in_pickup_range p) all in
  drops g' = List.filter (fun d => negb (bool_decide (drop_id d ∈ map drop_id picked))) all /\
  inventory g' = inventory g ++ map drop_item picked /\
  map enemy_id es ++ map sourceEnemyId (map drop_item ds) ≡ₚ map enemy_id (enemies g) /\
  Forall (item_derived g') (map drop_item all) /\
  Forall (fun d => drop_id d = js "drop:" ++ assetId (drop_item d)) all /\
  NoDup (map drop_id all).
Proof.
  pose proof tick_frame as (Hs & Ht & Hi & _).
  apply advanceGame_Ok in Hadv as (_ & _ & _ & es & ds & afx & p & rem & tfx & Ha & Hr & Eg & Efx).
  assert (Hdr : map drop_item ds = dropped_items fx).
  { rewrite Efx, !dropped_items_app, (attacked_dropped _ _ _ _ _ _ _ Ha),
      (resolveTelegraphs_dropped _ _ _ _ _ _ Hr), pickups_dropped. by rewrite app_nil_r. }
  pose proof (attacked_sources _ _ _ _ _ _ _ Ha) as Hsrc. rewrite moved_ids in Hsrc.
  pose proof (inv_sources g Hinv) as Hnd. unfold sources in Hnd.
  apply NoDup_app in Hnd as (Hnd1 & Hdis & Hnd2). specialize (Hsrc Hnd1).
  assert (Hder : Forall (item_derived g') (map drop_item (drops g ++ ds))).
  { rewrite map_app. apply Forall_app. split.
    - pose proof (inv_loot g Hinv) as Hl. unfold loot in Hl. apply Forall_app in Hl as [Hl _].
      eapply Forall_impl; [exact Hl|]. intros it. apply item_derived_later; [done..|lia].
    - rewrite List.Forall_map. eapply Forall_impl; [exact (attacked_drops _ _ _ _ _ _ _ Ha)|].
      intros d (e & _ & ->).
      change (player_id (movePlayer g i)) with (player_id (player g)).
      rewrite <- Ht, <- Hs, <- Hi.
      apply deriveDrop_derived. pose proof (inv_tick g Hinv). lia. }
  assert (Hid : Forall (fun d => drop_id d = js "drop:" ++ assetId (drop_item d)) (drops g ++ ds)).
  { apply Forall_app. split; [apply (inv_drop_ids g Hinv)|].
    eapply Forall_impl; [exact (attacked_drops _ _ _ _ _ _ _ Ha)|]. intros d (e & _ & ->). reflexivity. }
  exists es, ds, p. cbv zeta.
  split_and!; [by rewrite Eg|exact Hdr|by rewrite Eg..|exact Hsrc|exact Hder|exact Hid|].
  - eapply derived_drop_ids; [exact Hid|exact Hder|].
    rewrite !map_app. apply NoDup_app. split_and!.
    + unfold loot in Hnd2. rewrite map_app in Hnd2. by apply NoDup_app in Hnd2 as [? _].
    + intros x Hx Hx'. apply (Hdis x).
      * rewrite <- Hsrc. apply elem_of_app. by right.
      * unfold loot. rewrite map_app. apply elem_of_app. by left.
    + rewrite <- Hsrc in Hnd1. by apply NoDup_app in Hnd1 as (_ & _ & ?).
Qed.

(** Picking up only moves items from the ground to the inventory. *)
Lemma tick_loot :
  loot g' ≡ₚ loot g ++ dropped_items fx /\
  map enemy_id (enemies g') ++ map sourceEnemyId (dropped_items fx)
    ≡ₚ map enemy_id (enemies g).
Proof.
  destruct tick_drops as (es & ds & p & He & <- & Hd & Hi & Hp & _ & _ & Hnd).
  rewrite He. split; [|done]. unfold loot. rewrite Hd, Hi.
  pose proof (filter_by_key_perm drop_id (in_pickup_range p) (drops g ++ ds) Hnd) as Hperm.
  rewrite (app_assoc (map drop_item _)), (Permutation_app_comm _ (map drop_item (List.filter _ _))).
  rewrite app_assoc, <- map_app, <- Hperm, map_app, <- !app_assoc.
  f_equiv. apply Permutation_app_comm.
Qed.

Lemma tick_sources : sources g' ≡ₚ sources g.
Proof.
  destruct tick_loot as (Hl & He). unfold sources.
  rewrite (Permutation_map sourceEnemyId Hl), <- He, map_app, <- app_assoc.
  f_equiv. apply Permutation_app_comm.
Qed.

Lemma tick_inv : game_inv g'.
Proof.
  pose proof tick_frame as (Hs & Ht & Hi & Hm).
  pose proof tick_sources as Hsrc. pose proof Hinv as [H1 H2 H3 H4 H5 H6 H7 H8].
  destruct tick_drops as (es & ds & p & He & _ & Hd & Hv & _ & Hder & Hid & Hnd).
  constructor; rewrite ?Hs, ?Ht; try lia.
  - pose proof (movePlayer_ok g i H3) as Hmp.
    apply advanceGame_Ok in Hadv as (_ & _ & _ & es' & ds' & afx & p' & rem & tfx & _ & Er & -> & _).
    pose proof (resolveTelegraphs_spec _ _ _ _ _ _ Er) as (_ & _ & Hx & Hy & Hmx & _).
    unfold player_ok in Hmp.
    assert (Hhp : 0 <= player_hp p' <= player_hp (movePlayer g i)).
    { eapply resolveTelegraphs_hp; [exact Er| |lia].
      eapply Forall_impl; [exact H5|]. by intros ? (? & ? & ?). }
    unfold player_ok in *. cbn [player]. rewrite Hx, Hy, Hmx. lia.
  - pose proof (movePlayer_ok g i H3) as (Hx & Hy & _).
    apply advanceGame_Ok in Hadv as (_ & _ & _ & es' & ds' & afx & p' & rem & tfx & Ha & _ & -> & _).
    simpl. eapply attacked_enemies_ok; [exact Ha|]. rewrite List.Forall_map.
    eapply Forall_impl; [exact H4|]. intros e. by apply moveToward_ok.
  - apply advanceGame_Ok in Hadv as (_ & _ & _ & es' & ds' & afx & p' & rem & tfx & _ & Er & -> & _).
    apply resolveTelegraphs_spec in Er as (-> & _). simpl.
    rewrite Forall_forall in *. intros tg Htg. apply list_elem_of_In, filter_In in Htg as [Htg Hne].
    apply list_elem_of_In, H5 in Htg as (? & ? & ?). bool_split. unfold telegraph_ok. lia.
  - rewrite Hd. rewrite Forall_forall in *. intros d Hd'.
    apply list_elem_of_In, filter_In in Hd' as [Hd' _]. by apply Hid, list_elem_of_In.
  - rewrite Forall_forall. intros it Hit. unfold loot in Hit. rewrite Hd, Hv in Hit.
    assert (Hsub : forall q d, d ∈ List.filter q (drops g ++ ds) -> item_derived g' (drop_item d)).
    { intros q d Hq. apply list_elem_of_In, filter_In in Hq as [Hq _].
      rewrite List.Forall_map in Hder. rewrite Forall_forall in Hder. by apply Hder, list_elem_of_In. }
    rewrite !elem_of_app in Hit. destruct Hit as [Hit|[Hit|Hit]].
    + apply list_elem_of_In, in_map_iff in Hit as (d & <- & Hin). by eapply Hsub, list_elem_of_In.
    + pose proof H7 as Hl0. unfold loot in Hl0. apply Forall_app in Hl0 as [_ Hl0].
      rewrite Forall_forall in Hl0. eapply item_derived_later; [done..| |by apply Hl0]. lia.
    + apply list_elem_of_In, in_map_iff in Hit as (d & <- & Hin). by eapply Hsub, list_elem_of_In.
  - by rewrite Hsrc.
Qed.

Lemma tick_effects : Forall (fun f => effect_tick_of f = tick g + 1) fx.
Proof.
  apply advanceGame_Ok in Hadv as (_ & _ & _ & es & ds & afx & p & rem & tfx & Ha & Er & _ & ->).
  apply resolveTelegraphs_spec in Er as (_ & _ & _ & _ & _ & Ht & _).
  rewrite !Forall_app. split_and!; [by eapply attacked_effects|done|].
  rewrite List.Forall_map. apply Forall_true. done.
Qed.
End Tick.

(** ** Runs *)

Lemma run_inv inputs g g' fxs :
  game_inv g -> runGame g inputs = Ok (g', fxs) ->
  game_inv g' /\ sources g' ≡ₚ sources g /\ seed g' = seed g /\
  player_id (player g') = player_id (player g) /\
  tick g' = tick g + Z.of_nat (length inputs) /\ length fxs = length inputs.
Proof.
  revert g fxs. induction inputs as [|i inputs IH]; intros g fxs Hg; simpl.
  - intros; simplify_eq. split_and!; [done..|lia|done].
  - destruct (advanceGame g i) as [[g1 fx]|] eqn:Ea; [|done].
    destruct (runGame g1 inputs) as [[g2 rest]|] eqn:Er; [|done]. intros; simplify_eq.
    pose proof (tick_inv g i g1 fx Hg Ea) as H1.
    pose proof (tick_frame g i g1 fx Ea) as (Hs & Ht & Hi & _).
    pose proof (tick_sources g i g1 fx Hg Ea) as Hsrc.
    destruct (IH g1 rest H1 Er) as (? & Hs' & ? & ? & ? & ?).
    split_and!; [done|by rewrite Hs'|congruence..|lia|simpl; lia].
Qed.

Lemma initial_game_inv ci g : createInitialGame ci = inr g -> game_inv g.
Proof.
  unfold createInitialGame, throw_if. intros E. guards E. injection E as <-.
  constructor; cbn [seed tick player enemies telegraphs drops inventory].
  - by apply js_shr_range.
  - lia.
  - unfold player_ok, MAX_SAFE_INTEGER. simpl. lia.
  - repeat constructor; simpl; lia.
  - repeat constructor; simpl; lia.
  - constructor.
  - constructor.
  - unfold sources. simpl. apply NoDup_singleton.
Qed.

Lemma initial_game_sources ci g :
  createInitialGame ci = inr g -> sources g = [js "enemy-0"] /\ tick g = 0 /\
  seed g = to_uint32 (create_seed ci) /\ player_id (player g) = create_playerId ci.
Proof.
  unfold createInitialGame, throw_if. intros E. guards E. injection E as <-.
  split_and!; reflexivity.
Qed.

(** Distinct sources give distinct asset ids. *)
Lemma inv_assetIds g : game_inv g -> NoDup (map assetId (loot g)).
Proof.
  intros Hg. pose proof (inv_sources g Hg) as Hnd. apply NoDup_app in Hnd as (_ & _ & Hnd).
  eapply NoDup_map_transfer; [exact Hnd|]. intros a b Ha Hb E.
  pose proof (inv_loot g Hg) as Hl. rewrite Forall_forall in Hl.
  destruct (Hl a Ha) as [Ea _], (Hl b Hb) as [Eb _].
  apply (derived_assetId_inj (seed g) (player_id (player g)) _ _ (killTick a) (killTick b)).
  unfold derived_item in *. by rewrite <- Ea, <- Eb.
Qed.

(** A run started by createInitialGame keeps the player inside the world
    with 0 <= hp <= maxHp, every living enemy inside it with positive hp,
    only telegraphs that are still to resolve, and the tick equal to the
    number of inputs advanced. *)
Theorem run_keeps_invariant ci g0 inputs g fxs :
  createInitialGame ci = inr g0 -> runGame g0 inputs = Ok (g, fxs) ->
  game_inv g /\ tick g = Z.of_nat (length inputs).
Proof.
  intros Hc Hr. destruct (initial_game_sources _ _ Hc) as (_ & Ht & _).
  destruct (run_inv _ _ _ _ (initial_game_inv _ _ Hc) Hr) as (? & _ & _ & _ & Ht' & _).
  split; [done|]. lia.
Qed.

(** The kills that effects report, and the assets picked up. *)
Definition kills (fx : list StepEffect) : list (jsstr * Z) :=
  omap (fun f => match f with enemy_killed id t => Some (id, t) | _ => None end) fx.
Definition picked_assets (fx : list StepEffect) : list jsstr :=
  omap (fun f => match f with item_picked_up a _ => Some a | _ => None end) fx.
Definition dropped_from (it : InventoryItem) : jsstr * Z := (sourceEnemyId it, killTick it).
(** The item a kill drops, in all its fields. *)
Definition exactly_derived (sd : Z) (pid : jsstr) (it : InventoryItem) : Prop :=
  it = drop_item (deriveDrop sd pid (ghost_enemy (sourceEnemyId it)) (killTick it) 0).

Lemma attacked_kills es p t sd es' ds fx : attacked es p t sd es' ds fx ->
  kills fx = map dropped_from (map drop_item ds) /\ picked_assets fx = [] /\
  Forall (exactly_derived sd (player_id p)) (map drop_item ds).
Proof. destruct 1; split_and!; try done; repeat constructor. Qed.
Lemma telegraph_kills ts p t p' rem fx : resolveTelegraphs ts p t = (p', rem, fx) -> kills fx = [] /\ picked_assets fx = [].
Proof.
  revert p p' rem fx. induction ts as [|tg ts IH]; intros p p' rem fx; simpl; [by intros; simplify_eq|].
  case_match; destruct (resolveTelegraphs ts _ t) as [[p1 rem1] fx1] eqn:Er; intros; simplify_eq; exact (IH _ _ _ _ Er).
Qed.
Lemma pickup_kills (ds : list GroundDrop) t :
  let fx := map (fun d => item_picked_up (assetId (drop_item d)) t) ds in
  kills fx = [] /\ picked_assets fx = map assetId (map drop_item ds).
Proof. cbv zeta. induction ds as [|d ds [IH1 IH2]]; [done|]. cbn in *. split; [done|by f_equal]. Qed.
Lemma tick_kills g i g' fx : advanceGame g i = Ok (g', fx) ->
  kills fx = map dropped_from (dropped_items fx) /\
  map assetId (inventory g') = map assetId (inventory g) ++ picked_assets fx /\
  Forall (exactly_derived (seed g) (player_id (player g))) (dropped_items fx).
Proof.
  intros (_ & _ & _ & es & ds & afx & p & rem & tfx & Ha & Hr & -> & ->)%advanceGame_Ok.
  destruct (attacked_kills _ _ _ _ _ _ _ Ha) as (K1 & P1 & D1). destruct (telegraph_kills _ _ _ _ _ _ Hr) as (K2 & P2).
  unfold kills, picked_assets in *. cbn [inventory]. rewrite !omap_app, K1, K2, P1, P2.
  destruct (pickup_kills (List.filter (in_pickup_range p) (drops g ++ ds)) (tick g + 1)) as (K3 & P3).
  unfold kills, picked_assets in K3, P3. rewrite K3, P3.
  rewrite !dropped_items_app, (attacked_dropped _ _ _ _ _ _ _ Ha), (resolveTelegraphs_dropped _ _ _ _ _ _ Hr), pickups_dropped.
  rewrite !app_nil_r. by rewrite map_app.
Qed.
Lemma run_reports inputs g g' fxs : game_inv g -> runGame g inputs = Ok (g', fxs) ->
  let fx := concat fxs in
  loot g' ≡ₚ loot g ++ dropped_items fx /\
  map assetId (inventory g') = map assetId (inventory g) ++ picked_assets fx /\
  kills fx = map dropped_from (dropped_items fx) /\
  map enemy_id (enemies g') ++ (kills fx).*1 ≡ₚ map enemy_id (enemies g) /\
  Forall (exactly_derived (seed g) (player_id (player g))) (dropped_items fx).
Proof.
  cbv zeta. revert g fxs. induction inputs as [|i inputs IH]; intros g fxs Hg; cbn [runGame].
  { intros E. injection E as <- <-. cbn. rewrite !app_nil_r. split_and!; (done || constructor). }
  destruct (advanceGame g i) as [[g1 fx]|] eqn:Ea; [|done].
  destruct (runGame g1 inputs) as [[g2 rest]|] eqn:Er; [|done]. intros E. injection E as <- <-.
  pose proof (tick_inv g i g1 fx Hg Ea) as H1. pose proof (tick_frame g i g1 fx Ea) as (Hs & _ & Hi & _).
  destruct (tick_loot g i g1 fx Hg Ea) as [Hl He]. destruct (tick_kills g i g1 fx Ea) as (Hk & Hp & Hd).
  destruct (IH g1 rest H1 Er) as (L & P & K & N & D). cbn [concat]. unfold kills, picked_assets in *.
  rewrite dropped_items_app, !omap_app. split_and!.
  - by rewrite L, Hl, app_assoc.
  - by rewrite P, Hp, app_assoc.
  - by rewrite Hk, K, map_app.
  - rewrite fmap_app, Hk. rewrite (Permutation_app_comm (fst <$> map dropped_from _)), app_assoc, N, <- He.
    f_equiv. change (fst <$> map dropped_from ?l) with (map fst (map dropped_from l)). by rewrite map_map.
  - apply Forall_app. split; [done|]. by rewrite Hs, Hi in D.
Qed.

(** C3: loot is conserved.  After any run the items on the ground and in the
    inventory are, in all their fields, exactly the items that the effects of the
    run report dropped, each once; the inventory is the items the effects report
    picked up, in order; and the drops are, in order, those of the enemies the
    effects report killed.  Every enemy of the initial game is alive or was killed
    once, every item is the one derived from the seed, the player, its enemy and
    the tick of the kill, and no two have the same asset id. *)
Theorem loot_conserved ci g0 inputs g fxs :
  createInitialGame ci = inr g0 -> runGame g0 inputs = Ok (g, fxs) ->
  loot g ≡ₚ dropped_items (concat fxs) /\
  map assetId (inventory g) = picked_assets (concat fxs) /\
  kills (concat fxs) = map (fun it => (sourceEnemyId it, killTick it)) (dropped_items (concat fxs)) /\
  map enemy_id (enemies g) ++ (kills (concat fxs)).*1 ≡ₚ [js "enemy-0"] /\
  Forall (fun it => it = drop_item (deriveDrop (to_uint32 (create_seed ci)) (create_playerId ci)
    (ghost_enemy (sourceEnemyId it)) (killTick it) 0)) (loot g) /\
  NoDup (map assetId (loot g)).
Proof.
  intros Hc Hr. pose proof (initial_game_inv _ _ Hc) as Hg. destruct (initial_game_sources _ _ Hc) as (_ & _ & Hs & Hp).
  destruct (run_reports _ _ _ _ Hg Hr) as (L & P & K & N & D). destruct (run_inv _ _ _ _ Hg Hr) as (Hg' & _).
  rewrite Hs, Hp in D.
  assert (H0 : loot g0 = [] /\ inventory g0 = [] /\ map enemy_id (enemies g0) = [js "enemy-0"]).
  { unfold createInitialGame, throw_if in Hc. guards Hc. by injection Hc as <-. }
  destruct H0 as (E1 & E2 & E3). rewrite E1 in L. rewrite E2 in P. rewrite E3 in N.
  split_and!; [done..| |by apply inv_assetIds]. by rewrite L.
Qed.

(** Every item of a run carries the id, owner, type, rarity and power that
    deriveDrop computes from the seed, the player, the enemy and the tick of
    the kill, with a kill tick in the past; asset ids are pairwise distinct. *)
Theorem loot_provenance ci g0 inputs g fxs :
  createInitialGame ci = inr g0 -> runGame g0 inputs = Ok (g, fxs) ->
  Forall (fun it =>
    set_audit it provisional =
      drop_item (deriveDrop (to_uint32 (create_seed ci)) (create_playerId ci)
                   (ghost_enemy (sourceEnemyId it)) (killTick it) 0) /\
    0 < killTick it <= Z.of_nat (length inputs)) (loot g) /\
  NoDup (map assetId (loot g)).
Proof.
  intros Hc Hr. destruct (initial_game_sources _ _ Hc) as (_ & Ht & Hs & Hp).
  destruct (run_inv _ _ _ _ (initial_game_inv _ _ Hc) Hr) as (Hg & _ & Hs' & Hp' & Ht' & _).
  split; [|by apply inv_assetIds].
  eapply Forall_impl; [exact (inv_loot g Hg)|]. intros it [E Hk].
  unfold derived_item in E. rewrite Hs', Hp', Hs, Hp in E. split; [done|lia].
Qed.

(** AdvanceGame refuses exactly a tick that is not the next one and then
    an input whose axes are not -1, 0 or 1, and otherwise always succeeds. *)
Theorem advanceGame_total g i :
  match advanceGame g i with
  | Err tick_mismatch => input_tick i <> tick g + 1
  | Err invalid_axis =>
      input_tick i = tick g + 1 /\
      ~ ((horizontal i = -1 \/ horizontal i = 0 \/ horizontal i = 1) /\
         (vertical i = -1 \/ vertical i = 0 \/ vertical i = 1))
  | Ok (g', _) =>
      input_tick i = tick g + 1 /\ tick g' = input_tick i /\
      (horizontal i = -1 \/ horizontal i = 0 \/ horizontal i = 1) /\
      (vertical i = -1 \/ vertical i = 0 \/ vertical i = 1)
  end.
Proof.
  destruct (advanceGame g i) as [[g' fx]|[]] eqn:E.
  - pose proof (advanceGame_Ok _ _ _ _ E) as (Ht & Hh & Hv & _).
    pose proof (tick_frame g i g' fx E) as (_ & Ht' & _).
    rewrite <- !isAxis_spec. split_and!; [done|lia|done..].
  - unfold advanceGame in E. destruct (input_tick i =? tick g + 1) eqn:Et; [|by bool_split].
    exfalso. revert E. simpl. repeat case_match; intros E; discriminate E.
  - unfold advanceGame in E. guards E; bool_split; split; try lia.
    + rewrite <- !isAxis_spec. intros [Hh Hv]. by rewrite Hh, Hv in Hg0.
    + exfalso. revert E. repeat case_match; intros E; discriminate E.
Qed.

(** ** Telegraphs against a direct specification *)

Definition telegraph_hits (p : PlayerState) (t : TelegraphState) : bool :=
  squaredDistance (telegraph_x t) (telegraph_y t) (player_x p) (player_y p) <=? radius t ^ 2.

(** The telegraph loop resolves exactly the telegraphs due at the tick, in
    order: the player loses the damage of those whose circle contains them
    (never below zero), the outcomes reported are hit or dodged accordingly,
    and every other telegraph is kept. *)
Lemma telegraphs_resolve_in_order ts p t :
  resolveTelegraphs ts p t =
  (let due := List.filter (fun tg => resolveTick tg =? t) ts in
   let hp := fold_left (fun hp tg => if telegraph_hits p tg then Z.max 0 (hp - damage tg) else hp)
               due (player_hp p) in
   (set_player_hp p hp,
    List.filter (fun tg => negb (resolveTick tg =? t)) ts,
    map (fun tg => telegraph_resolved (telegraph_id tg)
                     (if telegraph_hits p tg then hit else dodged) t) due)).
Proof.
  revert p. induction ts as [|tg ts IH]; intros p; cbn [resolveTelegraphs List.filter].
  - destruct p. reflexivity.
  - destruct (resolveTick tg =? t); cbn [negb]; [|by rewrite IH].
    rewrite IH. cbn [map fold_left]. fold (telegraph_hits p tg).
    by destruct (telegraph_hits p tg), p.
Qed.
End Facts.

(** ** Safe integers *)

Section Numbers.
Context `{JsHost}.

(** The numbers a state holds. *)
Definition item_numbers (it : InventoryItem) : list Z := [power it; killTick it; dropIndex it].
Definition enemy_numbers (e : EnemyState) : list Z := [enemy_x e; enemy_y e; enemy_hp e; enemy_maxHp e].
Definition telegraph_numbers (t : TelegraphState) : list Z :=
  [telegraph_x t; telegraph_y t; radius t; startTick t; resolveTick t; damage t].
Definition drop_numbers (d : GroundDrop) : list Z := [drop_x d; drop_y d].
Definition state_numbers (g : GameState) : list Z :=
  [seed g; tick g; player_x (player g); player_y (player g); player_hp (player g); player_maxHp (player g)] ++
  flat_map enemy_numbers (enemies g) ++ flat_map telegraph_numbers (telegraphs g) ++
  flat_map drop_numbers (drops g) ++ flat_map item_numbers (loot g).

(** What [squaredDistance] computes on the way. *)
Definition distance_numbers (lx ly rx ry : Z) : list Z :=
  let dx := lx - rx in let dy := ly - ry in [dx; dy; dx * dx; dy * dy; dx * dx + dy * dy].
(** What [deriveDrop] computes, its 32-bit operations aside, which wrap. *)
Definition roll_of (sd : Z) (id : jsstr) (t : Z) : Z :=
  mix32 (js_xor (js_xor (js_xor sd (stringHash id)) (js_imul t 0x9e3779b1)) 0).
Definition derive_numbers (sd : Z) (id : jsstr) (t : Z) : list Z :=
  let roll := roll_of sd id t in
  [stringHash id; js_imul t 0x9e3779b1; js_xor sd (stringHash id); roll; roll mod 1000; roll mod 4; js_shr roll 12;
   js_shr roll 12 mod 100; 1 + js_shr roll 12 mod 100; js_shr sd 0].
(** The hit points between the telegraphs of a tick, before and after [Math.max]. *)
Fixpoint hp_numbers (ts : list TelegraphState) (p : PlayerState) (t : Z) : list Z :=
  match ts with
  | [] => []
  | tg :: ts' =>
      if (resolveTick tg =? t) && telegraph_hits p tg then
        (player_hp p - damage tg) :: Z.max 0 (player_hp p - damage tg) ::
        hp_numbers ts' (set_player_hp p (Z.max 0 (player_hp p - damage tg))) t
      else hp_numbers ts' p t
  end.
(** The numbers that [advanceGame] computes on the way from [g], in its order. *)
Definition step_numbers (g : GameState) (i : InputFrame) : list Z :=
  let m := movePlayer g i in
  let moved := map (fun e => moveToward e (player_x m) (player_y m)) (enemies g) in
  let '(_, ds, _) := attackNearest moved m (input_tick i) (seed g) in
  let all := drops g ++ ds in
  let to_player x y := distance_numbers x y (player_x m) (player_y m) in
  let rules := DEFAULT_GAME_RULES in
  [tick g + 1; input_tick i] ++
  flat_map (fun distance =>
    [horizontal i * distance; player_x (player g) + horizontal i * distance;
     vertical i * distance; player_y (player g) + vertical i * distance]) [axisMove rules; diagonalMove rules] ++
  [worldWidth rules - playerRadius rules; worldHeight rules - playerRadius rules; player_x m; player_y m] ++
  flat_map (fun e =>
    [player_x m - enemy_x e; player_y m - enemy_y e; Z.sgn (player_x m - enemy_x e) * enemyMove rules;
     Z.sgn (player_y m - enemy_y e) * enemyMove rules]) (enemies g) ++
  [Z.rem (input_tick i) (autoAttackInterval rules); autoAttackRange rules ^ 2] ++
  flat_map (fun e => enemy_numbers e ++ to_player (enemy_x e) (enemy_y e) ++
    [enemy_hp e - autoAttackDamage rules] ++ derive_numbers (seed g) (enemy_id e) (input_tick i) ++
    map (fun r => squaredDistance (enemy_x e) (enemy_y e) (player_x m) (player_y m) -
                  squaredDistance (enemy_x r) (enemy_y r) (player_x m) (player_y m)) moved) moved ++
  flat_map (fun t => radius t ^ 2 :: to_player (telegraph_x t) (telegraph_y t)) (telegraphs g) ++
  hp_numbers (telegraphs g) m (input_tick i) ++
  [pickupRadius rules ^ 2] ++ flat_map (fun d => drop_numbers d ++ to_player (drop_x d) (drop_y d)) all.

(** The bounds that [game_inv] leaves open. *)
Record bounds_inv (g : GameState) : Prop := {
  bi_maxHp : player_maxHp (player g) = 3;
  bi_enemies : Forall (fun e => enemy_maxHp e = 60) (enemies g);
  bi_telegraphs : Forall (fun t => telegraph_x t = 640 /\ telegraph_y t = 360 /\ radius t = 96 /\ startTick t = 0 /\
    resolveTick t = 45 /\ damage t = 1) (telegraphs g);
  bi_drops : Forall (fun d => 13 <= drop_x d <= 1267 /\ 13 <= drop_y d <= 707) (drops g);
}.
Lemma attacked_bounds es p t sd es' ds fx : attacked es p t sd es' ds fx -> Forall enemy_ok es ->
  Forall (fun e => enemy_maxHp e = 60) es ->
  Forall (fun e => enemy_maxHp e = 60) es' /\ Forall (fun d => 13 <= drop_x d <= 1267 /\ 13 <= drop_y d <= 707) ds.
Proof.
  rewrite !Forall_forall. intros Ha Hok Hm. destruct Ha as [|target Ht Hh|target Ht Hh].
  - split; [done|]. by intros d ?%elem_of_nil.
  - split; [|by intros d ?%elem_of_nil]. intros e (x & <- & Hx%list_elem_of_In)%list_elem_of_In%in_map_iff.
    case_match; [by apply (Hm target)|by apply Hm].
  - split; [intros e [He _]%list_elem_of_In%filter_In; by apply Hm, list_elem_of_In|].
    intros d ->%list_elem_of_singleton. destruct (Hok target Ht) as (? & ? & _). done.
Qed.
Lemma tick_bounds g i g' fx : game_inv g -> bounds_inv g -> advanceGame g i = Ok (g', fx) -> bounds_inv g'.
Proof.
  intros Hg Hb Ha. pose proof (tick_frame g i g' fx Ha) as (_ & _ & _ & Hm). pose proof (movePlayer_ok g i (inv_player g Hg)) as (Hx & Hy & _).
  apply advanceGame_Ok in Ha as (_ & _ & _ & es & ds & afx & p & rem & tfx & Hat & Hr & -> & _).
  destruct Hb as [B1 B2 B3 B4]. apply attacked_bounds in Hat as [He Hd].
  - split; cbn [player enemies telegraphs drops]; [by rewrite <- B1|done| |].
    + apply resolveTelegraphs_spec in Hr as (-> & _). rewrite Forall_forall in *. intros t [Ht _]%list_elem_of_In%filter_In.
      by apply B3, list_elem_of_In.
    + rewrite Forall_forall in *. intros d [Hin _]%list_elem_of_In%filter_In. apply list_elem_of_In, elem_of_app in Hin as [Hin|Hin]; auto.
  - rewrite List.Forall_map. eapply Forall_impl; [exact (inv_enemies g Hg)|]. intros e. by apply moveToward_ok.
  - rewrite List.Forall_map. exact B2.
Qed.
Lemma run_bounds inputs g g' fxs : game_inv g -> bounds_inv g -> runGame g inputs = Ok (g', fxs) -> bounds_inv g'.
Proof.
  revert g fxs. induction inputs as [|i inputs IH]; intros g fxs Hg Hb; cbn [runGame]; [by intros; simplify_eq|].
  destruct (advanceGame g i) as [[g1 fx]|] eqn:Ea; [|done]. destruct (runGame g1 inputs) as [[g2 rest]|] eqn:Er; [|done].
  intros; simplify_eq. eapply (IH g1); [by eapply tick_inv|by eapply tick_bounds|exact Er].
Qed.
Lemma initial_bounds ci g : createInitialGame ci = inr g -> bounds_inv g.
Proof. unfold createInitialGame, throw_if. intros E. guards E. injection E as <-. split; by repeat constructor. Qed.

(** *** Small ranges *)

Definition below (n : Z) (z : Z) : Prop := - n <= z <= n.
Lemma below_safe n z : n <= MAX_SAFE_INTEGER -> below n z -> isSafeInteger z = true.
Proof. unfold below. rewrite isSafeInteger_spec. unfold MAX_SAFE_INTEGER. lia. Qed.
Lemma distance_below lx ly rx ry : 0 <= lx <= 1280 -> 0 <= ly <= 720 -> 0 <= rx <= 1280 -> 0 <= ry <= 720 ->
  Forall (below (2 ^ 32)) (distance_numbers lx ly rx ry).
Proof. intros. unfold distance_numbers, below. repeat constructor; nia. Qed.
Lemma xor_below a b : below (2 ^ 32) (js_xor a b).
Proof. unfold js_xor, below. pose proof (to_int32_range (Z.lxor (to_int32 a) (to_int32 b))). lia. Qed.
Lemma imul_below a b : below (2 ^ 32) (js_imul a b).
Proof. unfold js_imul, below. pose proof (to_int32_range (a * b)). lia. Qed.
Lemma shr_below a n : 0 <= n -> below (2 ^ 32) (js_shr a n).
Proof. intros Hn. unfold below. pose proof (js_shr_range a n Hn). lia. Qed.
Lemma mod_below a m : 0 < m <= 1000 -> below (2 ^ 32) (a mod m) /\ below (2 ^ 32) (1 + a mod m).
Proof. intros Hm. unfold below. pose proof (Z.mod_pos_bound a m). lia. Qed.
Lemma roll_below sd id t : below (2 ^ 32) (roll_of sd id t).
Proof. unfold roll_of, mix32. cbv zeta. by apply shr_below. Qed.
Lemma derive_below sd id t : Forall (below (2 ^ 32)) (derive_numbers sd id t).
Proof.
  unfold derive_numbers. pose proof (roll_below sd id t) as Hr. revert Hr. generalize (roll_of sd id t). intros roll Hr.
  apply Forall_cons; split; [by apply shr_below|]. apply Forall_cons; split; [apply imul_below|].
  apply Forall_cons; split; [apply xor_below|]. apply Forall_cons; split; [exact Hr|].
  apply Forall_cons; split; [by apply mod_below|]. apply Forall_cons; split; [by apply mod_below|].
  apply Forall_cons; split; [by apply shr_below|]. apply Forall_cons; split; [by apply mod_below|].
  apply Forall_cons; split; [by apply mod_below|]. apply Forall_cons; split; [by apply shr_below|apply Forall_nil_2].
Qed.
Lemma hp_below ts p t : 0 <= player_hp p <= 3 -> Forall (fun tg => damage tg = 1) ts -> Forall (below (2 ^ 32)) (hp_numbers ts p t).
Proof.
  revert p. induction ts as [|tg ts IH]; intros p Hp Hd; [constructor|]. apply Forall_cons in Hd as [Hd Hds]. cbn [hp_numbers].
  destruct (_ && _); [|by apply IH]. rewrite Hd. repeat apply Forall_cons_2; [unfold below; lia..|].
  apply IH; [cbn; lia|done].
Qed.
Lemma item_below g it : game_inv g -> item_derived g it -> tick g <= MAX_SAFE_INTEGER -> Forall (below MAX_SAFE_INTEGER) (item_numbers it).
Proof.
  intros Hg [E Hk] Ht. unfold item_numbers. change (power it) with (power (set_audit it provisional)).
  change (dropIndex it) with (dropIndex (set_audit it provisional)). rewrite E. cbn [derived_item deriveDrop drop_item power dropIndex].
  pose proof (Z.mod_pos_bound (js_shr (roll_of (seed g) (sourceEnemyId it) (killTick it)) 12) 100 ltac:(lia)) as Hm.
  unfold roll_of in Hm. repeat apply Forall_cons_2; try constructor; unfold below, MAX_SAFE_INTEGER in *; cbn in *; lia.
Qed.
Lemma state_below g : game_inv g -> bounds_inv g -> tick g <= MAX_SAFE_INTEGER -> Forall (below MAX_SAFE_INTEGER) (state_numbers g).
Proof.
  intros Hg [B1 B2 B3 B4] Ht. pose proof (inv_seed g Hg). pose proof (inv_tick g Hg). destruct (inv_player g Hg) as (Hx & Hy & Hh & _).
  rewrite B1 in Hh. unfold state_numbers. rewrite !Forall_app. split_and!.
  - repeat apply Forall_cons_2; try apply Forall_nil_2; unfold below, MAX_SAFE_INTEGER in *; lia.
  - apply Forall_flat_map, Forall_forall. intros e He. pose proof (inv_enemies g Hg) as Hok. rewrite Forall_forall in Hok, B2.
    destruct (Hok e He) as (? & ? & ?). specialize (B2 e He). unfold enemy_numbers.
    repeat apply Forall_cons_2; try apply Forall_nil_2; unfold below, MAX_SAFE_INTEGER; lia.
  - apply Forall_flat_map, Forall_forall. intros t Hin. rewrite Forall_forall in B3. destruct (B3 t Hin) as (? & ? & ? & ? & ? & ?).
    unfold telegraph_numbers. repeat apply Forall_cons_2; try apply Forall_nil_2; unfold below, MAX_SAFE_INTEGER; lia.
  - apply Forall_flat_map, Forall_forall. intros d Hd. rewrite Forall_forall in B4. destruct (B4 d Hd).
    unfold drop_numbers. repeat apply Forall_cons_2; try apply Forall_nil_2; unfold below, MAX_SAFE_INTEGER; lia.
  - apply Forall_flat_map, Forall_forall. intros it Hit. pose proof (inv_loot g Hg) as Hl. rewrite Forall_forall in Hl.
    by apply (item_below g); [|apply Hl|].
Qed.
Lemma below_wide l : Forall (below (2 ^ 32)) l -> Forall (below MAX_SAFE_INTEGER) l.
Proof. intros Hl. eapply Forall_impl; [exact Hl|]. intros z. unfold below, MAX_SAFE_INTEGER. lia. Qed.
Ltac small := repeat apply Forall_cons_2; try apply Forall_nil_2; unfold below; lia.
Lemma axis_below h x d : h = -1 \/ h = 0 \/ h = 1 -> 0 <= x <= 1280 -> 0 <= d <= 10 ->
  Forall (below (2 ^ 32)) [h * d; x + h * d].
Proof. intros. repeat apply Forall_cons_2; try apply Forall_nil_2; unfold below; nia. Qed.
Lemma toward_below x y x' y' : 0 <= x <= 1280 -> 0 <= y <= 1280 -> 0 <= x' <= 1280 -> 0 <= y' <= 1280 ->
  Forall (below (2 ^ 32)) [x - y; x' - y'; Z.sgn (x - y) * 2; Z.sgn (x' - y') * 2].
Proof. intros. pose proof (Z.sgn_spec (x - y)). pose proof (Z.sgn_spec (x' - y')). repeat apply Forall_cons_2; try apply Forall_nil_2; unfold below; lia. Qed.
Lemma compared_below x y x' y' rx ry : 0 <= x <= 1280 -> 0 <= y <= 720 -> 0 <= x' <= 1280 -> 0 <= y' <= 720 ->
  0 <= rx <= 1280 -> 0 <= ry <= 720 -> below (2 ^ 32) (squaredDistance x y rx ry - squaredDistance x' y' rx ry).
Proof. intros. unfold below, squaredDistance. cbv zeta. nia. Qed.
Lemma step_below g i g' fx : game_inv g -> bounds_inv g -> advanceGame g i = Ok (g', fx) -> tick g < MAX_SAFE_INTEGER ->
  Forall (below MAX_SAFE_INTEGER) (step_numbers g i).
Proof.
  intros Hg [B1 B2 B3 B4] Ha Ht. pose proof (inv_tick g Hg). destruct (inv_player g Hg) as (Hx & Hy & Hh & _). rewrite B1 in Hh.
  destruct (movePlayer_ok g i (inv_player g Hg)) as (Mx & My & Mh & _). change (player_maxHp (movePlayer g i)) with (player_maxHp (player g)) in Mh. rewrite B1 in Mh.
  apply advanceGame_Ok in Ha as (Hi & Hho & Hve & _). rewrite isAxis_spec in Hho, Hve. unfold step_numbers.
  set (m := movePlayer g i) in *. set (moved := map _ _). rewrite Hi.
  assert (Hmoved : Forall enemy_ok moved /\ Forall (fun e => enemy_maxHp e = 60) moved).
  { subst moved. rewrite !List.Forall_map. split; [|exact B2]. eapply Forall_impl; [exact (inv_enemies g Hg)|]. intros e. by apply moveToward_ok. }
  destruct Hmoved as [Hok Hmax]. destruct (attackNearest _ _ _ _) as [[es ds] afx] eqn:Ea. apply attackNearest_spec in Ea.
  destruct (attacked_bounds _ _ _ _ _ _ _ Ea Hok Hmax) as [_ Hds].
  assert (Hdist : forall x y, 0 <= x <= 1280 -> 0 <= y <= 720 -> Forall (below (2 ^ 32)) (distance_numbers x y (player_x m) (player_y m))).
  { intros x y ? ?. apply distance_below; lia. }
  rewrite Forall_app. split; [repeat apply Forall_cons_2; try apply Forall_nil_2; unfold below; lia|].
  apply below_wide. rewrite !Forall_app. cbn [DEFAULT_GAME_RULES axisMove diagonalMove worldWidth worldHeight playerRadius enemyMove
    autoAttackInterval autoAttackRange autoAttackDamage pickupRadius flat_map]. split_and!.
  - assert (Hax : forall d, 0 <= d <= 10 -> Forall (below (2 ^ 32)) [horizontal i * d; player_x (player g) + horizontal i * d;
      vertical i * d; player_y (player g) + vertical i * d]).
    { clear - Hho Hve Hx Hy. intros d Hd. apply (Forall_app_2 _ [_; _] [_; _]); apply axis_below; (done || lia). }
    apply (Forall_app_2 _ [_; _; _; _] [_; _; _; _]); apply Hax; lia.
  - clear - Mx My. clearbody m. small.
  - apply Forall_flat_map. eapply Forall_impl; [exact (inv_enemies g Hg)|]. intros e (? & ? & _).
    apply toward_below; lia.
  - pose proof (Z.rem_bound_pos (tick g + 1) 15 ltac:(lia) ltac:(lia)) as Hrem. revert Hrem. generalize (Z.rem (tick g + 1) 15). clear. intros r Hr. small.
  - apply Forall_flat_map, Forall_forall. intros e He. rewrite Forall_forall in Hok, Hmax. destruct (Hok e He) as (? & ? & ?). specialize (Hmax e He).
    rewrite !Forall_app. split_and!; [unfold enemy_numbers; small|apply Hdist; lia|small|apply derive_below|].
    apply Forall_forall. intros z (r & <- & Hr)%list_elem_of_In%in_map_iff. apply list_elem_of_In in Hr. destruct (Hok r Hr) as (? & ? & _).
    apply compared_below; lia.
  - apply Forall_flat_map. eapply Forall_impl; [exact B3|]. intros t (-> & -> & -> & _). apply Forall_cons. split; [unfold below; lia|apply Hdist; lia].
  - apply hp_below; [lia|]. eapply Forall_impl; [exact B3|]. tauto.
  - small.
  - apply Forall_flat_map, Forall_app_2.
    + eapply Forall_impl; [exact B4|]. intros d [? ?]. apply Forall_app. split; [unfold drop_numbers; small|apply Hdist; lia].
    + eapply Forall_impl; [exact Hds|]. intros d [? ?]. apply Forall_app. split; [unfold drop_numbers; small|apply Hdist; lia].
Qed.
End Numbers.

(** C36: in runs of fewer than 2^53 - 1 ticks every number is a safe integer: those
    the state holds before and after a tick (seed, tick, positions, hit points,
    telegraphs, drops, and the power, kill tick and index of items), and those the
    tick computes on the way (steps and clamped positions, the differences, squares
    and sums of every squared distance, the differences the sort compares, hit
    points after damage, and the operands of [deriveDrop]), so that the integers of
    the model and JavaScript's doubles agree. *)
Theorem run_numbers_safe `{JsHost} ci g0 inputs g fxs i g' fx :
  createInitialGame ci = inr g0 -> runGame g0 inputs = Ok (g, fxs) ->
  Z.of_nat (length inputs) < MAX_SAFE_INTEGER -> advanceGame g i = Ok (g', fx) ->
  Forall (fun z => isSafeInteger z = true) (state_numbers g ++ step_numbers g i ++ state_numbers g').
Proof.
  intros Hc Hr Hn Ha. destruct (initial_game_sources _ _ Hc) as (_ & Ht & _).
  pose proof (initial_game_inv _ _ Hc) as Hg0. destruct (run_inv _ _ _ _ Hg0 Hr) as (Hg & _ & _ & _ & Ht' & _).
  pose proof (run_bounds _ _ _ _ Hg0 (initial_bounds _ _ Hc) Hr) as Hb.
  pose proof (tick_inv g i g' fx Hg Ha) as Hg'. pose proof (tick_bounds g i g' fx Hg Hb Ha) as Hb'.
  pose proof (tick_frame g i g' fx Ha) as (_ & Htk & _).
  assert (Hall : Forall (below MAX_SAFE_INTEGER) (state_numbers g ++ step_numbers g i ++ state_numbers g')).
  { rewrite !Forall_app. split_and!; [apply state_below; [done|done|lia]|eapply step_below; [done|done|exact Ha|lia]|apply state_below; [done|done|lia]]. }
  eapply Forall_impl; [exact Hall|]. intros z. by apply below_safe.
Qed.

(** ** Verification of items *)

(** The single way an accepted receipt changes a game. *)
Lemma applyItemVerification_Ok g r g' :
  applyItemVerification g r = Ok g' ->
  validReceipt r = true /\
  exists idx it, inventory g !! idx = Some it /\ assetId it = r_assetId r /\
    ownerId it = r_ownerId r /\
    (forall j y, (j < idx)%nat -> inventory g !! j = Some y -> assetId y <> r_assetId r) /\
    (audit it = provisional \/ audit it = verified (receiptAudit r)) /\
    g' = set_inventory g (<[idx := set_audit it (verified (receiptAudit r))]> (inventory g)).
Proof.
  unfold applyItemVerification. intros E. guards E. bool_split. split; [done|].
  apply find_index_Some in Ho as (it & Hit & Hk & Hlt). rewrite Hit in Ho0. simplify_eq.
  apply str_eqb_eq in Hk. apply str_eqb_eq in Hg0.
  exists n, i. split_and!; try done.
  - intros j y Hj Hy. apply str_eqb_neq. by eapply Hlt.
  - destruct (audit i); [by left|]. guards E. bool_split. right. by f_equal.
  - destruct (audit i) as [|a] eqn:Ea; [by injection E as <-|]. guards E. bool_split.
    injection E as <-. rewrite list_insert_id; [by destruct g|].
    rewrite Hit. f_equal. destruct i. simpl in *. by subst.
Qed.

(** What verification does not touch. *)
Lemma applyItemVerification_frame g r g' :
  applyItemVerification g r = Ok g' ->
  seed g' = seed g /\ tick g' = tick g /\ player g' = player g /\ enemies g' = enemies g /\
  telegraphs g' = telegraphs g /\ drops g' = drops g /\
  map (fun it => set_audit it provisional) (inventory g')
    = map (fun it => set_audit it provisional) (inventory g).
Proof.
  intros (_ & idx & it & Hit & _ & _ & _ & _ & ->)%applyItemVerification_Ok.
  split_and!; try done. simpl.
  change (map ?f ?l) with (f <$> l). rewrite list_fmap_insert.
  apply list_insert_id. by rewrite list_lookup_fmap, Hit.
Qed.

Lemma map_unaudited {B} (f : InventoryItem -> B) (l l' : list InventoryItem) :
  (forall it, f (set_audit it provisional) = f it) ->
  map (fun it => set_audit it provisional) l = map (fun it => set_audit it provisional) l' ->
  map f l = map f l'.
Proof.
  intros Hf E. apply (f_equal (map f)) in E. rewrite !map_map in E.
  rewrite !(map_ext f (fun it => f (set_audit it provisional)) (fun it => eq_sym (Hf it))).
  exact E.
Qed.

Lemma applyItemVerification_inv g r g' :
  applyItemVerification g r = Ok g' -> game_inv g -> game_inv g'.
Proof.
  intros Ha Hg. pose proof (applyItemVerification_frame _ _ _ Ha) as (Hs & Ht & Hp & He & Htl & Hd & Hi).
  destruct Hg as [H1 H2 H3 H4 H5 H6 H7 H8].
  constructor; rewrite ?Hs, ?Ht, ?Hp, ?He, ?Htl, ?Hd; try done.
  - unfold loot in *. rewrite Hd. apply Forall_app in H7 as [H7 H7'].
    apply Forall_app. split.
    + eapply Forall_impl; [exact H7|]. intros it. apply item_derived_later; congruence || lia.
    + rewrite Forall_lookup in *. intros j it Hj.
      assert (E : map (fun it => set_audit it provisional) (inventory g') !! j
                  = Some (set_audit it provisional))
        by (change (map ?f ?l) with (f <$> l); by rewrite list_lookup_fmap, Hj).
      rewrite Hi in E. change (map ?f ?l) with (f <$> l) in E.
      rewrite list_lookup_fmap in E. destruct (inventory g !! j) as [it0|] eqn:E0; [|done].
      simpl in E. injection E as E1 E2 E3 E4 E5 E6 E7 E8.
      destruct (H7' j it0 E0) as [D1 D2]. unfold item_derived, derived_item in *.
      rewrite Hs, Hp, Ht. rewrite <- E6, <- E7. split; [|lia]. rewrite <- D1.
      clear D1. unfold set_audit. congruence.
  - unfold sources, loot. rewrite He, Hd, map_app.
    replace (map sourceEnemyId (inventory g')) with (map sourceEnemyId (inventory g)).
    + unfold sources, loot in H8. by rewrite map_app in H8.
    + symmetry. by apply map_unaudited.
Qed.

(** An accepted receipt marks exactly one item, the first with its asset
    id and owned by its owner, verified with the receipt's six fields, and
    changes nothing else; the item becomes listable with those fields, and
    applying the receipt again changes nothing. *)
Theorem applyItemVerification_marks_one g r g' :
  applyItemVerification g r = Ok g' ->
  (exists idx it, inventory g !! idx = Some it /\
     assetId it = r_assetId r /\ ownerId it = r_ownerId r /\
     g' = set_inventory g (<[idx := set_audit it (verified (receiptAudit r))]> (inventory g)) /\
     (inventory g' !! idx) ≫= listingEligibility = Some (receiptAudit r)) /\
  applyItemVerification g' r = Ok g'.
Proof.
  intros E. pose proof E as (Hv & idx & it & Hit & Ha & Ho & Hlt & Hau & ->)%applyItemVerification_Ok.
  assert (Hl : (idx < length (inventory g))%nat) by (by eapply lookup_lt_Some).
  assert (Hi' : <[idx:=set_audit it (verified (receiptAudit r))]> (inventory g) !! idx
    = Some (set_audit it (verified (receiptAudit r)))) by (by apply list_lookup_insert_eq).
  split; [exists idx, it; split_and!; try done; simpl; by rewrite Hi'|].
  unfold applyItemVerification. rewrite Hv. cbn [negb].
  set (inv' := <[idx:=_]> (inventory g)) in *.
  assert (Hf : find_index (fun item => str_eqb (assetId item) (r_assetId r)) inv' = Some idx).
  { destruct (find_index _ inv') as [k|] eqn:Ek.
    - apply find_index_Some in Ek as (y & Hy & Hp & Hmin). f_equal.
      destruct (Nat.lt_trichotomy k idx) as [Hk|[Hk|Hk]]; [|done|].
      + exfalso. unfold inv' in Hy. rewrite list_lookup_insert_ne in Hy by lia.
        apply (Hlt k y Hk Hy). by apply str_eqb_eq.
      + specialize (Hmin idx _ Hk Hi'). apply str_eqb_neq in Hmin. by destruct Hmin.
    - rewrite find_index_None, Forall_lookup in Ek. specialize (Ek idx _ Hi').
      apply str_eqb_neq in Ek. by destruct Ek. }
  cbn [inventory set_inventory]. rewrite Hf, Hi'. cbn [ownerId set_audit audit].
  rewrite (proj2 (str_eqb_eq _ _) Ho). cbn [negb].
  by rewrite bool_decide_eq_true_2.
Qed.

(** Verification is irrevocable: no accepted receipt changes an item that
    is already verified, whatever asset the receipt names. *)
Theorem verified_items_are_final g r g' j it a :
  applyItemVerification g r = Ok g' ->
  inventory g !! j = Some it -> audit it = verified a ->
  inventory g' !! j = Some it.
Proof.
  intros (Hv & idx & y & Hy & Ha & Ho & Hlt & Hau & ->)%applyItemVerification_Ok Hj Haud.
  simpl. destruct (decide (idx = j)) as [->|Hne].
  - rewrite Hj in Hy. simplify_eq. destruct Hau as [Hp|Hp]; [congruence|].
    rewrite list_lookup_insert_eq by (by eapply lookup_lt_Some).
    rewrite <- Hp. by destruct y.
  - by rewrite list_lookup_insert_ne.
Qed.

(** ** Witnesses *)

Definition demo_create : CreateGameInput := mkCreateGame 7 (js "player-1").
Definition demo_game : GameState :=
  match createInitialGame demo_create with
  | inr g => g
  | inl _ => mkGame 0 0 (mkPlayer [] 0 0 0 0) [] [] [] []
  end.
(** Thirty ticks towards the enemy, which is killed at the second attack. *)
Definition demo_inputs : list InputFrame :=
  map (fun t => mkInputFrame (Z.of_nat t) 1 0) (List.seq 1 30).

Lemma run_keeps_invariant_witness : exists g fxs,
  runGame (H := code_unit_host) demo_game demo_inputs = Ok (g, fxs) /\
  game_inv g /\ tick g = 30.
Proof.
  destruct (runGame (H := code_unit_host) demo_game demo_inputs) as [[g fxs]|e] eqn:E;
    [|vm_compute in E; discriminate E].
  exists g, fxs. split; [reflexivity|].
  apply (run_keeps_invariant (H := code_unit_host) demo_create demo_game demo_inputs g fxs);
    [reflexivity|exact E].
Defined.

Lemma loot_conserved_witness : exists g fxs,
  runGame (H := code_unit_host) demo_game demo_inputs = Ok (g, fxs) /\
  kills (concat fxs) = [(js "enemy-0", 30)] /\
  length (loot g) = 1%nat /\ loot g ≡ₚ dropped_items (concat fxs).
Proof.
  destruct (runGame (H := code_unit_host) demo_game demo_inputs) as [[g fxs]|e] eqn:E;
    [|vm_compute in E; discriminate E].
  exists g, fxs. split; [reflexivity|].
  destruct (loot_conserved (H := code_unit_host) demo_create demo_game demo_inputs g fxs) as (Hl & _);
    [reflexivity|exact E|].
  vm_compute in E. injection E as <- <-. split; [reflexivity|]. split; [reflexivity|exact Hl].
Defined.

Lemma loot_provenance_witness : exists g fxs,
  runGame (H := code_unit_host) demo_game demo_inputs = Ok (g, fxs) /\
  NoDup (map assetId (loot g)).
Proof.
  destruct (runGame (H := code_unit_host) demo_game demo_inputs) as [[g fxs]|e] eqn:E;
    [|vm_compute in E; discriminate E].
  exists g, fxs. split; [reflexivity|].
  apply (loot_provenance (H := code_unit_host) demo_create demo_game demo_inputs g fxs);
    [reflexivity|exact E].
Defined.


Lemma run_numbers_safe_witness : exists g fxs g' fx,
  runGame (H := code_unit_host) demo_game demo_inputs = Ok (g, fxs) /\
  advanceGame (H := code_unit_host) g (mkInputFrame 31 (-1) 1) = Ok (g', fx) /\
  length (step_numbers (H := code_unit_host) g (mkInputFrame 31 (-1) 1)) = 30%nat /\
  Forall (fun z => isSafeInteger z = true) (state_numbers g').
Proof.
  destruct (runGame (H := code_unit_host) demo_game demo_inputs) as [[g fxs]|e] eqn:E;
    [|vm_compute in E; discriminate E].
  destruct (advanceGame (H := code_unit_host) g (mkInputFrame 31 (-1) 1)) as [[g' fx]|e] eqn:Ea;
    [|vm_compute in E; injection E as <- <-; vm_compute in Ea; discriminate Ea].
  exists g, fxs, g', fx. split; [reflexivity|]. split; [exact Ea|].
  pose proof (run_numbers_safe (H := code_unit_host) demo_create demo_game demo_inputs g fxs (mkInputFrame 31 (-1) 1) g' fx
    eq_refl E ltac:(vm_compute; reflexivity) Ea) as Hs. rewrite !Forall_app in Hs.
  split; [|exact (proj2 (proj2 Hs))]. vm_compute in E. injection E as <- _. vm_compute. reflexivity.
Defined.

(** The item the demonstration run leaves on the ground, picked up. *)
Definition demo_item : InventoryItem := derived_item demo_game (js "enemy-0") 30.
Definition demo_looted : GameState := set_inventory demo_game [demo_item].
Definition hex_ones : jsstr := replicate 64 49%N.
Definition demo_receipt : ItemVerificationReceipt :=
  mkReceipt hex_ones (assetId demo_item) (js "player-1") hex_ones 0 hex_ones hex_ones 1.
Definition demo_verified : GameState :=
  set_inventory demo_game [set_audit demo_item (verified (receiptAudit demo_receipt))].

Lemma applyItemVerification_marks_one_witness :
  applyItemVerification demo_verified demo_receipt = Ok demo_verified.
Proof.
  apply (applyItemVerification_marks_one demo_looted demo_receipt demo_verified).
  vm_compute. reflexivity.
Defined.

Lemma verified_items_are_final_witness :
  inventory demo_verified !! 0%nat
  = Some (set_audit demo_item (verified (receiptAudit demo_receipt))).
Proof.
  apply (verified_items_are_final demo_verified demo_receipt demo_verified 0
           (set_audit demo_item (verified (receiptAudit demo_receipt)))
           (receiptAudit demo_receipt)); vm_compute; reflexivity.
Defined.
