(* ===== verification/Journal.v ===== *)
(** * Audit journal

    [game/audit/journal.ts]: the append-only journal a client keeps of its
    run.  Ticks are encoded canonically, grouped [cadenceTicks] at a time into
    micro checkpoints that commit to the events, the state and the previous
    checkpoint, and acknowledged in order.

    The digest backend is not part of the repository's TypeScript: it is the
    record [AuditDigestAdapter], an argument of every operation that hashes.
    An asynchronous adapter returns a promise, modelled as an option whose
    [None] is a rejection. *)
From S2P Require Import Prelude Json Contracts Kernel.
Set Default Goal Selector "!".

Record AuditDigestAdapter := mkDigest {
  hashString : jsstr -> jsstr;
  merkleRoot : list jsstr -> jsstr;
}.

Record AsyncAuditDigestAdapter := mkAsyncDigest {
  hashStringAsync : jsstr -> option jsstr;
  merkleRootAsync : list jsstr -> option jsstr;
}.

Record CreateGameAuditJournalInput := mkJournalInput {
  ji_seed : Z;
  ji_playerId : jsstr;
  ji_ownerPublicKey : jsstr;
  ji_cadenceTicks : Z;
}.

Record PendingAuditEvent := mkEvent {
  event_tick : Z;
  canonicalPayload : jsstr;
  event_createdAssetIds : list jsstr;
}.

Record GameMicroCheckpoint := mkCheckpoint {
  epoch : Z;
  firstTick : Z;
  lastTick : Z;
  eventCount : Z;
  eventRoot : jsstr;
  stateDigest : jsstr;
  previousCheckpoint : jsstr;
  checkpointDigest : jsstr;
  canonicalEnvelope : jsstr;
  createdAssetIds : list jsstr;
}.

Record RetainedAuditSegment := mkSegment {
  segment_epoch : Z;
  segment_checkpointDigest : jsstr;
  events : list PendingAuditEvent;
}.

Record GameAuditJournalState := mkJournal {
  journal_seed : Z;
  journal_playerId : jsstr;
  journal_ownerPublicKey : jsstr;
  cadenceTicks : Z;
  genesisDigest : jsstr;
  nextTick : Z;
  pending : list PendingAuditEvent;
  checkpoints : list GameMicroCheckpoint;
  retainedSegments : list RetainedAuditSegment;
  acknowledgedEpoch : Z;
  acknowledgedTick : Z;
}.

Record AuditTick := mkAuditTick {
  at_input : InputFrame;
  at_effects : list StepEffect;
  at_state : GameState;
}.

Inductive AppendReason :=
| append_tick_mismatch | append_state_mismatch | append_invalid_axis
| append_effect_tick_mismatch | append_duplicate_asset.
Definition AppendAuditTickResult :=
  result (GameAuditJournalState * option GameMicroCheckpoint) AppendReason.

Inductive AckReason := unknown_checkpoint | ack_gap.
Definition AcknowledgeAuditCheckpointResult := result GameAuditJournalState AckReason.

(** ** Canonical encodings *)

Definition rarity_string (r : ItemRarity) : jsstr :=
  match r with
  | common => js "common"
  | magic => js "magic"
  | rare => js "rare"
  | legendary => js "legendary"
  end.

Definition canonicalItem (item : InventoryItem) : jsval :=
  JArr [JStr (assetId item); JStr (ownerId item); JStr (itemType item);
        JStr (rarity_string (rarity item)); JNum (power item);
        JStr (sourceEnemyId item); JNum (killTick item); JNum (dropIndex item)].

Definition canonicalEffect (effect : StepEffect) : jsval :=
  match effect with
  | auto_attack enemyId dmg t =>
      JArr [JStr (js "auto_attack"); JNum t; JStr enemyId; JNum dmg]
  | enemy_killed enemyId t =>
      JArr [JStr (js "enemy_killed"); JNum t; JStr enemyId]
  | item_dropped drop t =>
      JArr [JStr (js "item_dropped"); JNum t; JStr (drop_id drop);
            JNum (drop_x drop); JNum (drop_y drop); canonicalItem (drop_item drop)]
  | item_picked_up asset t =>
      JArr [JStr (js "item_picked_up"); JNum t; JStr asset]
  | telegraph_resolved telegraphId outcome t =>
      JArr [JStr (js "telegraph_resolved"); JNum t; JStr telegraphId;
            JStr (match outcome with hit => js "hit" | dodged => js "dodged" end)]
  end.

Definition effectTick (effect : StepEffect) : Z :=
  match effect with
  | auto_attack _ _ t | enemy_killed _ t | item_dropped _ t
  | item_picked_up _ t | telegraph_resolved _ _ t => t
  end.

Section Canonical.
Context `{JsHost}.

(** A tuple with the string its sort key [String(tuple[0])] gives. *)
Definition sortTuples (l : list (jsstr * jsval)) : list jsval :=
  map snd (js_sort (fun left right => localeCompare (fst left) (fst right) <=? 0) l).

Definition enemyTuple (e : EnemyState) : jsstr * jsval :=
  (enemy_id e,
   JArr [JStr (enemy_id e); JNum (enemy_x e); JNum (enemy_y e);
         JNum (enemy_hp e); JNum (enemy_maxHp e)]).
Definition telegraphTuple (t : TelegraphState) : jsstr * jsval :=
  (telegraph_id t,
   JArr [JStr (telegraph_id t); JNum (telegraph_x t); JNum (telegraph_y t);
         JNum (radius t); JNum (startTick t); JNum (resolveTick t); JNum (damage t)]).
Definition dropTuple (d : GroundDrop) : jsstr * jsval :=
  (drop_id d,
   JArr [JStr (drop_id d); JNum (drop_x d); JNum (drop_y d); canonicalItem (drop_item d)]).
Definition itemTuple (i : InventoryItem) : jsstr * jsval := (assetId i, canonicalItem i).

Definition playerTuple (p : PlayerState) : jsval :=
  JArr [JStr (player_id p); JNum (player_x p); JNum (player_y p);
        JNum (player_hp p); JNum (player_maxHp p)].

Definition canonicalStateValue (state : GameState) : jsval :=
  JArr [JStr (js "audit-survivors-state-v1"); JNum (seed state); JNum (tick state);
        playerTuple (player state);
        JArr (sortTuples (map enemyTuple (enemies state)));
        JArr (sortTuples (map telegraphTuple (telegraphs state)));
        JArr (sortTuples (map dropTuple (drops state)));
        JArr (sortTuples (map itemTuple (inventory state)))].

Definition canonicalGameState (state : GameState) : jsstr :=
  stringify (canonicalStateValue state).

Definition canonicalAuditGenesis (seed : Z) (playerId ownerPublicKey : jsstr) : jsstr :=
  stringify (JArr [JStr (js "audit-survivors-genesis-v2"); JNum (js_shr seed 0);
                   JStr playerId; JStr ownerPublicKey]).

(** The fields picked from a checkpoint by its envelope. *)
Record EnvelopeFields := mkEnvelope {
  env_epoch : Z;
  env_firstTick : Z;
  env_lastTick : Z;
  env_eventCount : Z;
  env_eventRoot : jsstr;
  env_stateDigest : jsstr;
  env_previousCheckpoint : jsstr;
  env_createdAssetIds : list jsstr;
}.

Definition envelopeValue (c : EnvelopeFields) : jsval :=
  JArr [JStr (js "audit-survivors-micro-checkpoint-v1"); JNum (env_epoch c);
        JNum (env_firstTick c); JNum (env_lastTick c); JNum (env_eventCount c);
        JStr (env_eventRoot c); JStr (env_stateDigest c); JStr (env_previousCheckpoint c);
        JArr (map JStr (env_createdAssetIds c))].

Definition canonicalMicroCheckpointEnvelope (c : EnvelopeFields) : jsstr :=
  stringify (envelopeValue c).

(** [tick.effects.map(canonicalEffect).map(JSON.stringify).sort().map(JSON.parse)]. *)
Definition canonicalEffects (effects : list StepEffect) : list jsval :=
  map (fun text => default JUndef (json_parse text))
    (sort_strings (map (fun effect => stringify (canonicalEffect effect)) effects)).

Definition canonicalAuditEvent (input : InputFrame) (effects : list StepEffect) : jsstr :=
  stringify (JArr [JStr (js "audit-survivors-event-v1"); JNum (input_tick input);
                   JNum (horizontal input); JNum (vertical input);
                   JArr (canonicalEffects effects)]).

(** [isAxis] on an untrusted value. *)
Definition isAxisValue (v : jsval) : bool := is_num (-1) v || is_num 0 v || is_num 1 v.

Definition number_of (v : jsval) : Z := match v with JNum z => z | _ => 0 end.

(** [None] is [{ ok: false, reason: "invalid_event_encoding" }]. *)
Definition decodeCanonicalAuditEvent (payload : jsstr) : option InputFrame :=
  match json_parse payload with
  | Some (JArr [v0; v1; v2; v3; v4] as value) =>
      if negb (match v0 with JStr s => str_eqb s (js "audit-survivors-event-v1") | _ => false end) ||
         negb (bool_decide (is_Some (as_safe_integer v1))) ||
         negb (isAxisValue v2) || negb (isAxisValue v3) || negb (is_array v4) ||
         negb (str_eqb (stringify value) payload)
      then None
      else Some {| input_tick := number_of v1; horizontal := number_of v2;
                   vertical := number_of v3 |}
  | _ => None
  end.

(** ** Creation *)

Definition normalizeJournalInput (input : CreateGameAuditJournalInput)
    : throws CreateGameAuditJournalInput :=
  throw_if (negb (isSafeInteger (ji_seed input))) (js "audit seed must be a safe integer") $
  throw_if (slen (ji_playerId input) =? 0) (js "audit player id must not be empty") $
  throw_if (negb (is_hex 64 (ji_ownerPublicKey input)))
    (js "audit owner public key must be 32-byte lower hex") $
  throw_if (negb (isSafeInteger (ji_cadenceTicks input)) || (ji_cadenceTicks input <=? 0))
    (js "audit cadence must be a positive safe integer") $
  inr {| ji_seed := js_shr (ji_seed input) 0; ji_playerId := ji_playerId input;
         ji_ownerPublicKey := ji_ownerPublicKey input;
         ji_cadenceTicks := ji_cadenceTicks input |}.

Definition initialJournalState (input : CreateGameAuditJournalInput) (genesis : jsstr)
    : GameAuditJournalState :=
  {| journal_seed := ji_seed input;
     journal_playerId := ji_playerId input;
     journal_ownerPublicKey := ji_ownerPublicKey input;
     cadenceTicks := ji_cadenceTicks input;
     genesisDigest := genesis;
     nextTick := 1;
     pending := [];
     checkpoints := [];
     retainedSegments := [];
     acknowledgedEpoch := -1;
     acknowledgedTick := 0 |}.

Definition createGameAuditJournal (input : CreateGameAuditJournalInput)
    (digest : AuditDigestAdapter) : throws GameAuditJournalState :=
  let! normalized := normalizeJournalInput input in
  let genesis := hashString digest
    (canonicalAuditGenesis (ji_seed normalized) (ji_playerId normalized)
       (ji_ownerPublicKey normalized)) in
  inr (initialJournalState normalized genesis).

(** The rejection of the digest promise is a rejection of the result. *)
Definition createGameAuditJournalAsync (input : CreateGameAuditJournalInput)
    (digest : AsyncAuditDigestAdapter) : throws (option GameAuditJournalState) :=
  let! normalized := normalizeJournalInput input in
  inr (genesis ← hashStringAsync digest
         (canonicalAuditGenesis (ji_seed normalized) (ji_playerId normalized)
            (ji_ownerPublicKey normalized));
       Some (initialJournalState normalized genesis)).

(** ** Appending *)

Record PreparedAuditAppend := mkPrepared {
  baseState : GameAuditJournalState;
  prepared_pending : list PendingAuditEvent;
  checkpointAssets : option (list jsstr);
}.

(** The assets an [item_dropped] effect creates, in effect order. *)
Definition droppedAssets (effects : list StepEffect) : list jsstr :=
  omap (fun effect => match effect with
                      | item_dropped drop _ => Some (assetId (drop_item drop))
                      | _ => None
                      end) effects.

Definition set_pending (journal : GameAuditJournalState) (next : Z)
    (events : list PendingAuditEvent) : GameAuditJournalState :=
  {| journal_seed := journal_seed journal; journal_playerId := journal_playerId journal;
     journal_ownerPublicKey := journal_ownerPublicKey journal;
     cadenceTicks := cadenceTicks journal; genesisDigest := genesisDigest journal;
     nextTick := next; pending := events; checkpoints := checkpoints journal;
     retainedSegments := retainedSegments journal;
     acknowledgedEpoch := acknowledgedEpoch journal;
     acknowledgedTick := acknowledgedTick journal |}.

Definition prepareAuditAppend (journal : GameAuditJournalState) (tk : AuditTick)
    : result PreparedAuditAppend AppendReason :=
  let input := at_input tk in
  if negb (input_tick input =? nextTick journal) then Err append_tick_mismatch
  else if negb (isAxis (horizontal input)) || negb (isAxis (vertical input))
  then Err append_invalid_axis
  else if negb (tick (at_state tk) =? input_tick input) ||
          negb (seed (at_state tk) =? journal_seed journal) ||
          negb (str_eqb (player_id (player (at_state tk))) (journal_playerId journal))
  then Err append_state_mismatch
  else if existsb (fun effect => negb (effectTick effect =? input_tick input)) (at_effects tk)
  then Err append_effect_tick_mismatch
  else
    let createdAssetIds := sort_strings (droppedAssets (at_effects tk)) in
    if has_duplicates createdAssetIds then Err append_duplicate_asset
    else
      let pend := pending journal ++
        [{| event_tick := input_tick input;
            canonicalPayload := canonicalAuditEvent input (at_effects tk);
            event_createdAssetIds := createdAssetIds |}] in
      let base := set_pending journal (nextTick journal + 1) pend in
      if Z.of_nat (length pend) <? cadenceTicks journal
      then Ok {| baseState := base; prepared_pending := pend; checkpointAssets := None |}
      else
        let assets := sort_strings (flat_map event_createdAssetIds pend) in
        if has_duplicates assets then Err append_duplicate_asset
        else Ok {| baseState := base; prepared_pending := pend;
                   checkpointAssets := Some assets |}.

Definition checkpointEnvelopeFields (journal : GameAuditJournalState) (tk : AuditTick)
    (pend : list PendingAuditEvent) (assets : list jsstr) (eventRoot stateDigest : jsstr)
    : EnvelopeFields :=
  let ep := length (checkpoints journal) in
  {| env_epoch := Z.of_nat ep;
     env_firstTick := match pend with e :: _ => event_tick e | [] => 0 end;
     env_lastTick := input_tick (at_input tk);
     env_eventCount := Z.of_nat (length pend);
     env_eventRoot := eventRoot;
     env_stateDigest := stateDigest;
     env_previousCheckpoint :=
       match last (checkpoints journal) with
       | None => genesisDigest journal
       | Some c => checkpointDigest c
       end;
     env_createdAssetIds := assets |}.

Definition commitPreparedCheckpoint (journal : GameAuditJournalState)
    (base : GameAuditJournalState) (pend : list PendingAuditEvent)
    (fields : EnvelopeFields) (envelope digest : jsstr) : AppendAuditTickResult :=
  let checkpoint :=
    {| epoch := env_epoch fields; firstTick := env_firstTick fields;
       lastTick := env_lastTick fields; eventCount := env_eventCount fields;
       eventRoot := env_eventRoot fields; stateDigest := env_stateDigest fields;
       previousCheckpoint := env_previousCheckpoint fields;
       checkpointDigest := digest; canonicalEnvelope := envelope;
       createdAssetIds := env_createdAssetIds fields |} in
  Ok ({| journal_seed := journal_seed base; journal_playerId := journal_playerId base;
         journal_ownerPublicKey := journal_ownerPublicKey base;
         cadenceTicks := cadenceTicks base; genesisDigest := genesisDigest base;
         nextTick := nextTick base;
         pending := [];
         checkpoints := checkpoints journal ++ [checkpoint];
         retainedSegments := retainedSegments journal ++
           [{| segment_epoch := epoch checkpoint; segment_checkpointDigest := digest;
               events := pend |}];
         acknowledgedEpoch := acknowledgedEpoch base;
         acknowledgedTick := acknowledgedTick base |},
      Some checkpoint).

Definition appendAuditTick (journal : GameAuditJournalState) (tk : AuditTick)
    (digest : AuditDigestAdapter) : AppendAuditTickResult :=
  match prepareAuditAppend journal tk with
  | Err reason => Err reason
  | Ok prepared =>
      match checkpointAssets prepared with
      | None => Ok (baseState prepared, None)
      | Some assets =>
          let root := merkleRoot digest (map canonicalPayload (prepared_pending prepared)) in
          let sdigest := hashString digest (canonicalGameState (at_state tk)) in
          let fields := checkpointEnvelopeFields journal tk (prepared_pending prepared)
                          assets root sdigest in
          let envelope := canonicalMicroCheckpointEnvelope fields in
          commitPreparedCheckpoint journal (baseState prepared) (prepared_pending prepared)
            fields envelope (hashString digest envelope)
      end
  end.

Definition appendAuditTickAsync (journal : GameAuditJournalState) (tk : AuditTick)
    (digest : AsyncAuditDigestAdapter) : option AppendAuditTickResult :=
  match prepareAuditAppend journal tk with
  | Err reason => Some (Err reason)
  | Ok prepared =>
      match checkpointAssets prepared with
      | None => Some (Ok (baseState prepared, None))
      | Some assets =>
          root ← merkleRootAsync digest (map canonicalPayload (prepared_pending prepared));
          sdigest ← hashStringAsync digest (canonicalGameState (at_state tk));
          let fields := checkpointEnvelopeFields journal tk (prepared_pending prepared)
                          assets root sdigest in
          let envelope := canonicalMicroCheckpointEnvelope fields in
          edigest ← hashStringAsync digest envelope;
          Some (commitPreparedCheckpoint journal (baseState prepared)
                  (prepared_pending prepared) fields envelope edigest)
      end
  end.
End Canonical.

(** ** Acknowledging *)

Definition set_acknowledged (journal : GameAuditJournalState) (ep tk : Z)
    : GameAuditJournalState :=
  {| journal_seed := journal_seed journal; journal_playerId := journal_playerId journal;
     journal_ownerPublicKey := journal_ownerPublicKey journal;
     cadenceTicks := cadenceTicks journal; genesisDigest := genesisDigest journal;
     nextTick := nextTick journal; pending := pending journal;
     checkpoints := checkpoints journal; retainedSegments := retainedSegments journal;
     acknowledgedEpoch := ep; acknowledgedTick := tk |}.

Definition acknowledgeAuditCheckpoint (journal : GameAuditJournalState) (digest : jsstr)
    : AcknowledgeAuditCheckpointResult :=
  match find_index (fun c => str_eqb (checkpointDigest c) digest) (checkpoints journal) with
  | None => Err unknown_checkpoint
  | Some index =>
      let ep := Z.of_nat index in
      if ep <=? acknowledgedEpoch journal then Ok journal
      else if negb (ep =? acknowledgedEpoch journal + 1) then Err ack_gap
      else Ok (set_acknowledged journal ep
                 (from_option lastTick 0 (checkpoints journal !! index)))
  end.
