(* ===== verification/JournalFacts.v ===== *)
(** * Facts about the audit journal

    Canonical encodings determine what they encode; the journal keeps a linked,
    gap-free chain of checkpoints; a client that journals its own run is never
    refused; the asynchronous operations agree with the synchronous ones. *)
From S2P Require Import Prelude Json Contracts Kernel KernelFacts Journal.
Set Default Goal Selector "!".

(** ** Encodings are plain *)

Lemma forallb_map_JStr ok l : forallb (plain_with ok) (map JStr l) = true.
Proof. by induction l. Qed.

Lemma canonicalItem_plain it : plain (canonicalItem it) = true.
Proof. done. Qed.

Lemma canonicalEffect_plain f : plain (canonicalEffect f) = true.
Proof. by destruct f. Qed.

Lemma envelope_plain c : plain (envelopeValue c) = true.
Proof. unfold plain, envelopeValue. simpl. by rewrite forallb_map_JStr. Qed.

Lemma map_JStr_inj l l' : map JStr l = map JStr l' -> l = l'.
Proof.
  revert l'. induction l as [|x l IH]; intros [|y l']; simpl; try done.
  intros E. injection E as -> E. f_equal. by apply IH.
Qed.

Lemma envelope_inj c c' :
  canonicalMicroCheckpointEnvelope c = canonicalMicroCheckpointEnvelope c' -> c = c'.
Proof.
  intros E. apply stringify_inj in E; [|apply envelope_plain..].
  unfold envelopeValue in E. injection E as E1 E2 E3 E4 E5 E6 E7 E8.
  apply map_JStr_inj in E8. destruct c, c'. simpl in *. by subst.
Qed.

(** Encodings that determine [norm] reflect permutations up to [norm]. *)
Lemma map_perm_norm {A B C} (f : A -> B) (norm : A -> C) (l l' : list A) :
  (forall x y, f x = f y -> norm x = norm y) ->
  map f l ≡ₚ map f l' -> map norm l ≡ₚ map norm l'.
Proof.
  intros Hf Hp. apply Permutation_map_inv in Hp as (l3 & E & ->). apply reflexive_eq.
  revert l3 E. induction l as [|x l IH]; intros [|y l3] E; simpl in *; try done.
  injection E as E1 E2. f_equal; [by apply Hf|by apply IH].
Qed.

Section Facts.
Context `{JsHost}.

(** ** Events *)

Lemma canonicalEffects_perm fx :
  Forall (fun f => safe_plain (canonicalEffect f) = true) fx ->
  canonicalEffects fx ≡ₚ map canonicalEffect fx.
Proof.
  intros Hs. unfold canonicalEffects. rewrite sort_strings_perm, map_map.
  induction Hs as [|f fx Hf _ IH]; simpl; [done|].
  rewrite (json_parse_stringify _ Hf). simpl. by f_equiv.
Qed.

Lemma canonicalEffects_safe fx :
  Forall (fun f => safe_plain (canonicalEffect f) = true) fx ->
  forallb safe_plain (canonicalEffects fx) = true.
Proof.
  intros Hs. apply forallb_forall. intros v Hv.
  apply list_elem_of_In in Hv. rewrite (canonicalEffects_perm _ Hs) in Hv.
  apply list_elem_of_In, in_map_iff in Hv as (f & <- & Hf).
  rewrite Forall_forall in Hs. by apply Hs, list_elem_of_In.
Qed.

Lemma event_value_safe i fx :
  Forall (fun f => safe_plain (canonicalEffect f) = true) fx ->
  isSafeInteger (input_tick i) = true ->
  isAxis (horizontal i) = true -> isAxis (vertical i) = true ->
  safe_plain (JArr [JStr (js "audit-survivors-event-v1"); JNum (input_tick i);
                    JNum (horizontal i); JNum (vertical i); JArr (canonicalEffects fx)]) = true.
Proof.
  intros Hs Ht Hh Hv. apply isAxis_spec in Hh, Hv.
  assert (forall z, z = -1 \/ z = 0 \/ z = 1 -> isSafeInteger z = true) as Ha
    by (intros z [-> | [-> | ->]]; reflexivity).
  unfold safe_plain. cbn [plain_with forallb]. rewrite Ht, !Ha by done.
  pose proof (canonicalEffects_safe fx Hs) as Hc. unfold safe_plain in Hc. by rewrite Hc.
Qed.

Lemma decode_canonical i fx :
  Forall (fun f => safe_plain (canonicalEffect f) = true) fx ->
  isSafeInteger (input_tick i) = true ->
  isAxis (horizontal i) = true -> isAxis (vertical i) = true ->
  decodeCanonicalAuditEvent (canonicalAuditEvent i fx) = Some i.
Proof.
  intros Hs Ht Hh Hv. unfold decodeCanonicalAuditEvent, canonicalAuditEvent.
  rewrite json_parse_stringify by (by apply event_value_safe).
  rewrite str_eqb_refl. cbn [as_safe_integer]. rewrite Ht.
  rewrite bool_decide_eq_true_2 by eauto.
  assert (Hax : forall z, isAxis z = true -> isAxisValue (JNum z) = true).
  { intros z Hz. apply isAxis_spec in Hz as [-> | [-> | ->]]; reflexivity. }
  rewrite !Hax, str_eqb_refl by done. by destruct i.
Qed.

(** An event payload decodes to the input it was built from, for every
    input and every list of effects with safe numbers: the encoder and the
    strict decoder of the authority agree. *)
Theorem event_payload_roundtrip i fx :
  Forall (fun f => safe_plain (canonicalEffect f) = true) fx ->
  isSafeInteger (input_tick i) = true ->
  isAxis (horizontal i) = true -> isAxis (vertical i) = true ->
  decodeCanonicalAuditEvent (canonicalAuditEvent i fx) = Some i.
Proof. apply decode_canonical. Qed.

Lemma canonicalEffects_plain fx :
  Forall (fun f => safe_plain (canonicalEffect f) = true) fx ->
  forallb plain (canonicalEffects fx) = true.
Proof.
  intros Hs. apply forallb_forall. intros v Hv.
  pose proof (canonicalEffects_safe fx Hs) as Hf. rewrite forallb_forall in Hf.
  by apply safe_plain_plain, Hf.
Qed.

(** An event payload is a function of the input and of the multiset of
    canonical effects, and determines both: it is insensitive to the order of
    the effects and binds everything else. *)
Lemma event_payload_binds i fx i' fx' :
  Forall (fun f => safe_plain (canonicalEffect f) = true) fx ->
  Forall (fun f => safe_plain (canonicalEffect f) = true) fx' ->
  canonicalAuditEvent i fx = canonicalAuditEvent i' fx' <->
  i = i' /\ map canonicalEffect fx ≡ₚ map canonicalEffect fx'.
Proof.
  intros Hs Hs'. split.
  - intros E. apply stringify_inj in E;
      [|by cbn; fold plain; rewrite canonicalEffects_plain..].
    injection E as E1 E2 E3 E4. split; [destruct i, i'; simpl in *; congruence|].
    by rewrite <- (canonicalEffects_perm fx Hs), <- (canonicalEffects_perm fx' Hs'), E4.
  - intros [-> Hp]. unfold canonicalAuditEvent, canonicalEffects.
    assert (Hq : map (fun f => stringify (canonicalEffect f)) fx ≡ₚ
                 map (fun f => stringify (canonicalEffect f)) fx').
    { apply (Permutation_map stringify) in Hp. by rewrite !map_map in Hp. }
    by rewrite (sort_strings_unique _ _ Hq).
Qed.

(** ** States *)

Lemma sortTuples_perm l : sortTuples l ≡ₚ map snd l.
Proof. unfold sortTuples. apply Permutation_map, js_sort_perm. Qed.

Lemma sortTuples_map {A C} (tuple : A -> jsstr * jsval) (norm : A -> C) (l l' : list A) :
  (forall x y, (tuple x).2 = (tuple y).2 -> norm x = norm y) ->
  sortTuples (map tuple l) = sortTuples (map tuple l') -> map norm l ≡ₚ map norm l'.
Proof.
  intros Hinj E. apply (map_perm_norm (fun x => (tuple x).2)); [done|].
  rewrite <- !(map_map tuple snd), <- !sortTuples_perm, E. done.
Qed.

Lemma sortTuples_plain {A} (tuple : A -> jsstr * jsval) (l : list A) :
  (forall x, plain (tuple x).2 = true) -> forallb plain (sortTuples (map tuple l)) = true.
Proof.
  intros Hp. apply forallb_forall. intros v Hv. apply list_elem_of_In in Hv.
  rewrite sortTuples_perm in Hv. apply list_elem_of_In in Hv.
  rewrite map_map in Hv. by apply in_map_iff in Hv as (x & <- & _).
Qed.

Lemma state_value_plain g : plain (canonicalStateValue g) = true.
Proof.
  unfold plain, canonicalStateValue. cbn [plain_with forallb].
  fold plain. by rewrite !sortTuples_plain.
Qed.

Lemma rarity_string_inj r r' : rarity_string r = rarity_string r' -> r = r'.
Proof. by destruct r, r'. Qed.

Lemma canonicalItem_inj a b :
  canonicalItem a = canonicalItem b -> set_audit a provisional = set_audit b provisional.
Proof.
  unfold canonicalItem. intros E. injection E as E1 E2 E3 E4 E5 E6 E7 E8.
  apply rarity_string_inj in E4. unfold set_audit. congruence.
Qed.

(** A drop without the audit of its item. *)
Definition unaudited_drop (d : GroundDrop) : GroundDrop :=
  mkDrop (drop_id d) (drop_x d) (drop_y d) (set_audit (drop_item d) provisional).

(** The canonical text of a game state, whose hash every checkpoint
    commits to, determines the seed, the tick, the player, the enemies and the
    telegraphs, and the drops and the inventory up to their audit status, all
    of them as multisets. *)
Theorem canonicalGameState_binds g g' :
  canonicalGameState g = canonicalGameState g' ->
  seed g = seed g' /\ tick g = tick g' /\ player g = player g' /\
  enemies g ≡ₚ enemies g' /\ telegraphs g ≡ₚ telegraphs g' /\
  map unaudited_drop (drops g) ≡ₚ map unaudited_drop (drops g') /\
  map (fun it => set_audit it provisional) (inventory g)
    ≡ₚ map (fun it => set_audit it provisional) (inventory g').
Proof.
  intros E. apply stringify_inj in E; [|apply state_value_plain..].
  unfold canonicalStateValue, playerTuple in E.
  injection E as E1 E2 E3 E4 E5 E6 E7 Ee Et Ed Ei.
  split_and!; [done|done| | | | |].
  - destruct (player g), (player g'). simpl in *. congruence.
  - rewrite <- (map_id (enemies g)), <- (map_id (enemies g')).
    apply (sortTuples_map enemyTuple (fun e => e)); [|done].
    intros [] [] Eq. simpl in Eq. congruence.
  - rewrite <- (map_id (telegraphs g)), <- (map_id (telegraphs g')).
    apply (sortTuples_map telegraphTuple (fun e => e)); [|done].
    intros [] [] Eq. simpl in Eq. congruence.
  - apply (sortTuples_map dropTuple); [|done]. intros a b Eq. unfold dropTuple in Eq. cbn [snd] in Eq.
    assert (Hi : canonicalItem (drop_item a) = canonicalItem (drop_item b)) by congruence.
    apply canonicalItem_inj in Hi. unfold unaudited_drop. rewrite Hi. f_equal; congruence.
  - apply (sortTuples_map itemTuple); [|done]. intros a b Eq. by apply canonicalItem_inj.
Qed.

(** Verifying an item does not change what a checkpoint commits to. *)
Lemma canonicalGameState_verification g r g' :
  applyItemVerification g r = Ok g' -> canonicalGameState g' = canonicalGameState g.
Proof.
  intros (Hs & Ht & Hp & He & Htl & Hd & Hi)%applyItemVerification_frame.
  unfold canonicalGameState, canonicalStateValue. rewrite Hs, Ht, Hp, He, Htl, Hd.
  do 12 f_equal. by apply map_unaudited.
Qed.
End Facts.

(** ** Witnesses *)

Definition demo_effects : list StepEffect :=
  [auto_attack (js "enemy-0") 30 15; telegraph_resolved (js "telegraph-0") dodged 15].

Lemma event_payload_roundtrip_witness :
  decodeCanonicalAuditEvent (H := code_unit_host)
    (canonicalAuditEvent (H := code_unit_host) (mkInputFrame 15 1 (-1)) demo_effects)
  = Some (mkInputFrame 15 1 (-1)).
Proof.
  apply (event_payload_roundtrip (H := code_unit_host) (mkInputFrame 15 1 (-1)) demo_effects);
    [repeat constructor|reflexivity..].
Defined.

Lemma event_payload_binds_witness :
  canonicalAuditEvent (H := code_unit_host) (mkInputFrame 15 1 (-1)) demo_effects
  = canonicalAuditEvent (H := code_unit_host) (mkInputFrame 15 1 (-1)) (reverse demo_effects).
Proof.
  apply (event_payload_binds (H := code_unit_host) (mkInputFrame 15 1 (-1)) demo_effects
           (mkInputFrame 15 1 (-1)) (reverse demo_effects));
    [repeat constructor|repeat constructor|].
  split; [reflexivity|]. vm_compute. apply Permutation_swap.
Defined.

Lemma canonicalGameState_binds_witness : seed demo_verified = seed demo_looted.
Proof.
  apply (canonicalGameState_binds (H := code_unit_host) demo_verified demo_looted).
  vm_compute. reflexivity.
Defined.
