(* ===== verification/Chain.v ===== *)
(** * The checkpoint chain

    The invariant of a journal: its checkpoints form a gap-free chain of
    segments of [cadenceTicks] consecutive ticks, each committing to its events
    and to its predecessor; the pending events continue the last segment; the
    acknowledged prefix is a prefix of the chain. *)
From S2P Require Import Prelude Json Contracts Kernel KernelFacts Journal JournalFacts.
Set Default Goal Selector "!".

(** Events at the consecutive ticks [t], [t + 1], ... *)
Fixpoint ticks_from (t : Z) (evs : list PendingAuditEvent) : Prop :=
  match evs with
  | [] => True
  | e :: evs' => event_tick e = t /\ ticks_from (t + 1) evs'
  end.

Definition envelope_fields (c : GameMicroCheckpoint) : EnvelopeFields :=
  mkEnvelope (epoch c) (firstTick c) (lastTick c) (eventCount c) (eventRoot c)
    (stateDigest c) (previousCheckpoint c) (createdAssetIds c).

Section Chain.
Context (digest : AuditDigestAdapter) (cadence : Z).

(** Checkpoint [c] seals segment [s] as epoch [ep], from tick [t], after [prev]. *)
Record sealed (prev : jsstr) (t ep : Z) (c : GameMicroCheckpoint) (s : RetainedAuditSegment)
    : Prop := {
  sealed_epoch : epoch c = ep;
  sealed_segment_epoch : segment_epoch s = ep;
  sealed_segment_digest : segment_checkpointDigest s = checkpointDigest c;
  sealed_previous : previousCheckpoint c = prev;
  sealed_count : eventCount c = cadence;
  sealed_length : Z.of_nat (length (events s)) = cadence;
  sealed_first : firstTick c = t;
  sealed_last : lastTick c = t + cadence - 1;
  sealed_ticks : ticks_from t (events s);
  sealed_root : eventRoot c = merkleRoot digest (map canonicalPayload (events s));
  sealed_assets : createdAssetIds c = sort_strings (flat_map event_createdAssetIds (events s));
  sealed_nodup : NoDup (flat_map event_createdAssetIds (events s));
  sealed_envelope : canonicalEnvelope c = canonicalMicroCheckpointEnvelope (envelope_fields c);
  sealed_digest : checkpointDigest c = hashString digest (canonicalEnvelope c);
}.

Fixpoint chain_from (prev : jsstr) (t ep : Z) (cps : list GameMicroCheckpoint)
    (segs : list RetainedAuditSegment) : Prop :=
  match cps, segs with
  | [], [] => True
  | c :: cps', s :: segs' =>
      sealed prev t ep c s /\ chain_from (checkpointDigest c) (t + cadence) (ep + 1) cps' segs'
  | _, _ => False
  end.

Lemma ticks_from_app t evs evs' :
  ticks_from t (evs ++ evs') <-> ticks_from t evs /\ ticks_from (t + Z.of_nat (length evs)) evs'.
Proof.
  revert t. induction evs as [|e evs IH]; intros t; cbn [app length ticks_from].
  - replace (t + Z.of_nat 0) with t by lia. tauto.
  - rewrite IH. replace (t + 1 + Z.of_nat (length evs)) with (t + Z.of_nat (S (length evs))) by lia.
    tauto.
Qed.

(** The digest the next checkpoint has to name. *)
Definition chain_head (prev : jsstr) (cps : list GameMicroCheckpoint) : jsstr :=
  match last cps with Some c => checkpointDigest c | None => prev end.

Lemma chain_head_cons prev c cps : chain_head prev (c :: cps) = chain_head (checkpointDigest c) cps.
Proof. unfold chain_head. rewrite last_cons. by destruct (last cps). Qed.

Lemma chain_from_length prev t ep cps segs :
  chain_from prev t ep cps segs -> length cps = length segs.
Proof.
  revert prev t ep segs. induction cps as [|c cps IH]; intros prev t ep [|s segs]; simpl; try done.
  intros [_ Hc]. f_equal. by eapply IH.
Qed.

Lemma chain_from_snoc prev t ep cps segs c s :
  chain_from prev t ep cps segs ->
  sealed (chain_head prev cps) (t + cadence * Z.of_nat (length cps))
    (ep + Z.of_nat (length cps)) c s ->
  chain_from prev t ep (cps ++ [c]) (segs ++ [s]).
Proof.
  revert prev t ep segs. induction cps as [|c0 cps IH]; intros prev t ep [|s0 segs]; simpl; try done.
  - intros _ Hs. rewrite Z.mul_0_r, !Z.add_0_r in Hs. by split.
  - intros [Hs0 Hc] Hs. split; [done|]. apply IH; [done|]. rewrite chain_head_cons in Hs.
    replace (t + cadence + cadence * Z.of_nat (length cps))
      with (t + cadence * Z.of_nat (S (length cps))) by lia.
    by replace (ep + 1 + Z.of_nat (length cps)) with (ep + Z.of_nat (S (length cps))) by lia.
Qed.

(** Every checkpoint of a chain is sealed at the position it stands. *)
Lemma chain_from_lookup prev t ep cps segs k c :
  chain_from prev t ep cps segs -> cps !! k = Some c ->
  exists s prev', segs !! k = Some s /\
    sealed prev' (t + cadence * Z.of_nat k) (ep + Z.of_nat k) c s.
Proof.
  revert prev t ep segs k. induction cps as [|c0 cps IH]; intros prev t ep [|s0 segs] k; simpl;
    try done.
  intros [Hs Hc] Hk. destruct k as [|k]; simpl in Hk.
  - simplify_eq. exists s0, prev. split; [done|]. by rewrite Z.mul_0_r, !Z.add_0_r.
  - destruct (IH _ _ _ _ _ Hc Hk) as (s & p & Hl & Hse). exists s, p. split; [done|].
    replace (t + cadence * Z.of_nat (S k)) with (t + cadence + cadence * Z.of_nat k) by lia.
    by replace (ep + Z.of_nat (S k)) with (ep + 1 + Z.of_nat k) by lia.
Qed.
End Chain.

(** ** The journal *)

Definition all_events (j : GameAuditJournalState) : list PendingAuditEvent :=
  flat_map events (retainedSegments j) ++ pending j.

Record journal_inv (digest : AuditDigestAdapter) (j : GameAuditJournalState) : Prop := {
  ji_cadence : 0 < cadenceTicks j <= MAX_SAFE_INTEGER;
  ji_key : is_hex 64 (journal_ownerPublicKey j) = true;
  ji_seed_range : 0 <= journal_seed j < 2 ^ 32;
  ji_player : journal_playerId j <> [];
  ji_genesis : genesisDigest j = hashString digest
    (canonicalAuditGenesis (journal_seed j) (journal_playerId j) (journal_ownerPublicKey j));
  ji_chain : chain_from digest (cadenceTicks j) (genesisDigest j) 1 0
    (checkpoints j) (retainedSegments j);
  ji_pending : ticks_from (1 + cadenceTicks j * Z.of_nat (length (checkpoints j))) (pending j);
  ji_short : Z.of_nat (length (pending j)) < cadenceTicks j;
  ji_next : nextTick j =
    1 + cadenceTicks j * Z.of_nat (length (checkpoints j)) + Z.of_nat (length (pending j));
  ji_ack : -1 <= acknowledgedEpoch j < Z.of_nat (length (checkpoints j));
  ji_ackTick : acknowledgedTick j = cadenceTicks j * (acknowledgedEpoch j + 1);
}.

Lemma normalize_Ok input n :
  normalizeJournalInput input = inr n ->
  ji_seed n = js_shr (ji_seed input) 0 /\ ji_playerId n = ji_playerId input /\
  ji_ownerPublicKey n = ji_ownerPublicKey input /\ ji_cadenceTicks n = ji_cadenceTicks input /\
  ji_playerId input <> [] /\ is_hex 64 (ji_ownerPublicKey input) = true /\
  0 < ji_cadenceTicks input <= MAX_SAFE_INTEGER.
Proof.
  unfold normalizeJournalInput, throw_if. intros E. guards E. injection E as <-. bool_split.
  repeat match goal with H : isSafeInteger _ = true |- _ => apply isSafeInteger_spec in H end.
  split_and!; try done; try lia.
  intros Hn. rewrite Hn in *. done.
Qed.

Lemma create_journal_inv input digest j :
  createGameAuditJournal input digest = inr j ->
  journal_inv digest j /\ journal_seed j = js_shr (ji_seed input) 0 /\
  journal_playerId j = ji_playerId input /\ cadenceTicks j = ji_cadenceTicks input /\
  nextTick j = 1 /\ all_events j = [] /\ checkpoints j = [] /\ pending j = [] /\
  journal_ownerPublicKey j = ji_ownerPublicKey input.
Proof.
  unfold createGameAuditJournal. destruct (normalizeJournalInput input) as [|n] eqn:En; simpl; [done|].
  intros E. injection E as <-. apply normalize_Ok in En as (Hs & Hp & Hk & Hc & Hne & Hx & Hca).
  split_and!; try done; try (by simpl; congruence).
  constructor; simpl; try done; try lia; try congruence.
  all: rewrite ?Hs, ?Hp, ?Hk, ?Hc; try done; try lia.
  by apply js_shr_range.
Qed.

Section Append.
Context `{JsHost} (digest : AuditDigestAdapter).

(** The event a tick adds. *)
Definition new_event (tk : AuditTick) : PendingAuditEvent :=
  mkEvent (input_tick (at_input tk)) (canonicalAuditEvent (at_input tk) (at_effects tk))
    (sort_strings (droppedAssets (at_effects tk))).

Definition tick_accepted (j : GameAuditJournalState) (tk : AuditTick) : Prop :=
  input_tick (at_input tk) = nextTick j /\
  isAxis (horizontal (at_input tk)) = true /\ isAxis (vertical (at_input tk)) = true /\
  tick (at_state tk) = input_tick (at_input tk) /\ seed (at_state tk) = journal_seed j /\
  player_id (player (at_state tk)) = journal_playerId j /\
  Forall (fun f => effectTick f = input_tick (at_input tk)) (at_effects tk) /\
  NoDup (droppedAssets (at_effects tk)).

Lemma existsb_effect_tick fx t :
  existsb (fun f => negb (effectTick f =? t)) fx = false <-> Forall (fun f => effectTick f = t) fx.
Proof.
  induction fx as [|f fx IH]; simpl; [done|].
  rewrite orb_false_iff, negb_false_iff, Z.eqb_eq, IH, Forall_cons. done.
Qed.

(** What [prepareAuditAppend] computes when it accepts. *)
Lemma prepare_Ok j tk p :
  prepareAuditAppend j tk = Ok p ->
  tick_accepted j tk /\
  prepared_pending p = pending j ++ [new_event tk] /\
  baseState p = set_pending j (nextTick j + 1) (pending j ++ [new_event tk]) /\
  checkpointAssets p =
    (if Z.of_nat (S (length (pending j))) <? cadenceTicks j then None
     else Some (sort_strings (flat_map event_createdAssetIds (pending j ++ [new_event tk])))) /\
  (cadenceTicks j <= Z.of_nat (S (length (pending j))) ->
   NoDup (flat_map event_createdAssetIds (pending j ++ [new_event tk]))).
Proof.
  unfold prepareAuditAppend. intros E.
  replace (Z.of_nat (S (length (pending j)))) with (Z.of_nat (length (pending j ++ [new_event tk])))
    by (rewrite length_app; simpl; lia).
  unfold new_event. guards E; injection E as <-; bool_split.
  all: assert (Ha : tick_accepted j tk) by
    (split_and!; try done; try (by apply str_eqb_eq); try (by apply existsb_effect_tick);
     rewrite <- sort_strings_perm; by apply has_duplicates_false).
  all: cbn [prepared_pending baseState checkpointAssets]; split; [exact Ha|].
  all: split; [reflexivity|]; split; [reflexivity|].
  - split; [done|lia].
  - split; [done|]. intros _.
    rewrite <- sort_strings_perm. by apply has_duplicates_false.
Qed.

Lemma prepare_accepts j tk :
  tick_accepted j tk ->
  NoDup (flat_map event_createdAssetIds (pending j ++ [new_event tk])) ->
  exists p, prepareAuditAppend j tk = Ok p.
Proof.
  intros (Ht & Hh & Hv & Hst & Hsd & Hpl & Hfx & Hnd) Hall. unfold prepareAuditAppend.
  rewrite Ht, Z.eqb_refl. rewrite Hh, Hv. cbn [negb orb].
  rewrite Hst, Ht, Z.eqb_refl, Hsd, Z.eqb_refl, (proj2 (str_eqb_eq _ _) Hpl). cbn [negb orb].
  rewrite (proj2 (existsb_effect_tick _ _)) by (by rewrite <- Ht).
  rewrite (proj2 (has_duplicates_false _)) by (by rewrite sort_strings_perm).
  rewrite <- Ht. fold (new_event tk). case_match; [eauto|].
  rewrite (proj2 (has_duplicates_false _)) by (by rewrite sort_strings_perm). eauto.
Qed.

(** The two ways a tick is appended: kept pending, or sealing a checkpoint. *)
Lemma append_Ok j tk j' cp :
  appendAuditTick j tk digest = Ok (j', cp) ->
  tick_accepted j tk /\
  ((Z.of_nat (S (length (pending j))) < cadenceTicks j /\ cp = None /\
    j' = set_pending j (nextTick j + 1) (pending j ++ [new_event tk])) \/
   (cadenceTicks j <= Z.of_nat (S (length (pending j))) /\
    NoDup (flat_map event_createdAssetIds (pending j ++ [new_event tk])) /\
    exists c, cp = Some c /\
      c = (let pend := pending j ++ [new_event tk] in
           let fields := checkpointEnvelopeFields j tk pend
             (sort_strings (flat_map event_createdAssetIds pend))
             (merkleRoot digest (map canonicalPayload pend))
             (hashString digest (canonicalGameState (at_state tk))) in
           let envelope := canonicalMicroCheckpointEnvelope fields in
           mkCheckpoint (env_epoch fields) (env_firstTick fields) (env_lastTick fields)
             (env_eventCount fields) (env_eventRoot fields) (env_stateDigest fields)
             (env_previousCheckpoint fields) (hashString digest envelope) envelope
             (env_createdAssetIds fields)) /\
      j' = mkJournal (journal_seed j) (journal_playerId j) (journal_ownerPublicKey j)
             (cadenceTicks j) (genesisDigest j) (nextTick j + 1) []
             (checkpoints j ++ [c])
             (retainedSegments j ++
                [mkSegment (epoch c) (checkpointDigest c) (pending j ++ [new_event tk])])
             (acknowledgedEpoch j) (acknowledgedTick j))).
Proof.
  unfold appendAuditTick. destruct (prepareAuditAppend j tk) as [p|] eqn:Ep; [|done].
  apply prepare_Ok in Ep as (Ha & Hp & Hb & Hc & Hn). rewrite Hc, Hp, Hb.
  destruct (Z.ltb_spec (Z.of_nat (S (length (pending j)))) (cadenceTicks j)) as [Hl|Hl];
    intros E; (split; [exact Ha|]).
  - injection E as <- <-. left. done.
  - unfold commitPreparedCheckpoint in E. injection E as <- <-. right.
    split; [done|]. split; [by apply Hn|]. eexists. split_and!; reflexivity.
Qed.

Lemma flat_map_events_app segs s :
  flat_map events (segs ++ [s]) = flat_map events segs ++ events s.
Proof. rewrite flat_map_app. simpl. by rewrite app_nil_r. Qed.

(** A sealed checkpoint extends the chain. *)
Lemma append_seals j tk (Hj : journal_inv digest j) :
  cadenceTicks j <= Z.of_nat (S (length (pending j))) ->
  NoDup (flat_map event_createdAssetIds (pending j ++ [new_event tk])) ->
  input_tick (at_input tk) = nextTick j ->
  forall c, c = (let pend := pending j ++ [new_event tk] in
           let fields := checkpointEnvelopeFields j tk pend
             (sort_strings (flat_map event_createdAssetIds pend))
             (merkleRoot digest (map canonicalPayload pend))
             (hashString digest (canonicalGameState (at_state tk))) in
           let envelope := canonicalMicroCheckpointEnvelope fields in
           mkCheckpoint (env_epoch fields) (env_firstTick fields) (env_lastTick fields)
             (env_eventCount fields) (env_eventRoot fields) (env_stateDigest fields)
             (env_previousCheckpoint fields) (hashString digest envelope) envelope
             (env_createdAssetIds fields)) ->
  sealed digest (cadenceTicks j) (chain_head (genesisDigest j) (checkpoints j))
    (1 + cadenceTicks j * Z.of_nat (length (checkpoints j)))
    (0 + Z.of_nat (length (checkpoints j))) c
    (mkSegment (epoch c) (checkpointDigest c) (pending j ++ [new_event tk])).
Proof.
  intros Hl Hnd Ht c ->. cbv zeta.
  pose proof (ji_short _ _ Hj). pose proof (ji_next _ _ Hj). pose proof (ji_pending _ _ Hj) as Hp.
  assert (Hcount : Z.of_nat (length (pending j ++ [new_event tk])) = cadenceTicks j)
    by (rewrite length_app; simpl; lia).
  assert (Hticks : ticks_from (1 + cadenceTicks j * Z.of_nat (length (checkpoints j)))
                     (pending j ++ [new_event tk])).
  { apply ticks_from_app. split; [done|]. split; [|done]. cbn [event_tick new_event]. lia. }
  constructor; try reflexivity; try done; cbn [eventCount firstTick lastTick events
    checkpointEnvelopeFields env_eventCount env_firstTick env_lastTick].
  - pose proof (ji_cadence _ _ Hj).
    destruct (pending j ++ [new_event tk]) as [|e l]; [simpl in Hcount; lia|].
    by destruct Hticks as [-> _].
  - rewrite Ht. lia.
Qed.

Lemma append_inv j tk j' cp :
  journal_inv digest j -> appendAuditTick j tk digest = Ok (j', cp) ->
  journal_inv digest j' /\ nextTick j' = nextTick j + 1 /\
  all_events j' = all_events j ++ [new_event tk] /\
  journal_seed j' = journal_seed j /\ journal_playerId j' = journal_playerId j /\
  journal_ownerPublicKey j' = journal_ownerPublicKey j /\
  cadenceTicks j' = cadenceTicks j /\ acknowledgedEpoch j' = acknowledgedEpoch j /\
  prefix (checkpoints j) (checkpoints j').
Proof.
  intros Hj E. apply append_Ok in E as ((Ht & _) & [(Hl & -> & ->)|(Hl & Hnd & c & -> & Hc & ->)]).
  - destruct Hj. split_and!; try done; try (by simpl; unfold all_events; simpl; rewrite app_assoc).
    constructor; try done.
    + apply ticks_from_app. split; [done|]. split; [|done].
      cbn [event_tick new_event cadenceTicks checkpoints set_pending]. lia.
    + cbn [pending set_pending cadenceTicks]. rewrite length_app. simpl. lia.
    + cbn [pending set_pending cadenceTicks checkpoints nextTick]. rewrite length_app. simpl. lia.
  - pose proof (append_seals j tk Hj Hl Hnd Ht c Hc) as Hs. clear Hc. destruct Hj.
    split_and!; try done; [| |by eexists].
    + constructor; cbn [cadenceTicks journal_seed journal_playerId journal_ownerPublicKey
        genesisDigest checkpoints retainedSegments pending nextTick acknowledgedEpoch
        acknowledgedTick]; try done.
      * by apply chain_from_snoc.
      * simpl. lia.
      * rewrite length_app. simpl. lia.
      * rewrite length_app. simpl. lia.
    + unfold all_events. cbn [retainedSegments pending].
      rewrite flat_map_events_app, app_nil_r, <- app_assoc. done.
Qed.

(** ** Acknowledgement *)

Lemma ack_Ok j d j' :
  journal_inv digest j -> acknowledgeAuditCheckpoint j d = Ok j' ->
  j' = j \/
  exists c, checkpoints j !! Z.to_nat (acknowledgedEpoch j + 1) = Some c /\
    checkpointDigest c = d /\
    j' = set_acknowledged j (acknowledgedEpoch j + 1) (lastTick c) /\
    lastTick c = cadenceTicks j * (acknowledgedEpoch j + 2).
Proof.
  intros Hj. unfold acknowledgeAuditCheckpoint.
  destruct (find_index _ _) as [k|] eqn:Ek; [|done].
  apply find_index_Some in Ek as (c & Hc & Hd & _). apply str_eqb_eq in Hd.
  intros E. guards E; injection E as <-; bool_split; [by left|]. right. exists c.
  pose proof (ji_ack _ _ Hj).
  assert (Hk : Z.to_nat (acknowledgedEpoch j + 1) = k) by lia. rewrite Hk.
  destruct (chain_from_lookup _ _ _ _ _ _ _ _ _ (ji_chain _ _ Hj) Hc) as (s & prev & _ & Hs).
  apply sealed_last in Hs. split_and!; try done.
  - rewrite Hc. simpl. by rewrite Hg0.
  - nia.
Qed.

Lemma ack_inv j d j' :
  journal_inv digest j -> acknowledgeAuditCheckpoint j d = Ok j' -> journal_inv digest j'.
Proof.
  intros Hj E. destruct (ack_Ok _ _ _ Hj E) as [->|(c & Hc & _ & -> & Hl)]; [done|].
  apply lookup_lt_Some in Hc. destruct Hj. constructor; try done; simpl; lia.
Qed.
End Append.
