(* ===== verification/Session.v ===== *)
(** * A journaled session

    The client composes the kernel and the journal: each tick advances the
    game and appends the tick to the journal, acknowledgements and item
    verifications arrive in between.  A session is any interleaving of these
    steps from a fresh game and a fresh journal with the same seed and player. *)
From S2P Require Import Prelude Json Contracts Kernel KernelFacts Journal JournalFacts Chain.
Set Default Goal Selector "!".

Section Session.
Context `{JsHost} (digest : AuditDigestAdapter).

Inductive session : GameState -> GameAuditJournalState -> Prop :=
| session_start ci ji g j :
    createInitialGame ci = inr g -> createGameAuditJournal ji digest = inr j ->
    create_seed ci = ji_seed ji -> create_playerId ci = ji_playerId ji ->
    session g j
| session_tick g j i g' fx j' cp :
    session g j -> advanceGame g i = Ok (g', fx) ->
    appendAuditTick j (mkAuditTick i fx g') digest = Ok (j', cp) ->
    session g' j'
| session_ack g j d j' :
    session g j -> acknowledgeAuditCheckpoint j d = Ok j' -> session g j'
| session_verify g j r g' :
    session g j -> applyItemVerification g r = Ok g' -> session g' j.

Record session_inv (g : GameState) (j : GameAuditJournalState) : Prop := {
  si_game : game_inv g;
  si_journal : journal_inv digest j;
  si_seed : seed g = journal_seed j;
  si_player : player_id (player g) = journal_playerId j;
  si_tick : nextTick j = tick g + 1;
  si_assets : flat_map event_createdAssetIds (all_events j) ≡ₚ map assetId (loot g);
  si_state : pending j = [] -> forall c, last (checkpoints j) = Some c ->
    stateDigest c = hashString digest (canonicalGameState g);
}.

Lemma droppedAssets_items fx : droppedAssets fx = map assetId (dropped_items fx).
Proof.
  induction fx as [|f fx IH]; [done|]. unfold droppedAssets, dropped_items in *.
  destruct f; simpl; try exact IH. f_equal. exact IH.
Qed.

Lemma flat_map_new_event tk :
  flat_map event_createdAssetIds [new_event tk] ≡ₚ droppedAssets (at_effects tk).
Proof. simpl. rewrite app_nil_r. apply sort_strings_perm. Qed.

(** The assets journaled after a tick are those of the game after it. *)
Lemma tick_assets g j i g' fx :
  session_inv g j -> advanceGame g i = Ok (g', fx) ->
  flat_map event_createdAssetIds (all_events j ++ [new_event (mkAuditTick i fx g')])
    ≡ₚ map assetId (loot g').
Proof.
  intros Hs Ha. rewrite flat_map_app, flat_map_new_event. simpl.
  pose proof (tick_loot g i g' fx (si_game _ _ Hs) Ha) as [Hl _].
  rewrite (Permutation_map assetId Hl), map_app, (si_assets _ _ Hs), droppedAssets_items. done.
Qed.

(** A tick of the game is a tick the journal accepts. *)
Lemma tick_is_accepted g j i g' fx :
  session_inv g j -> advanceGame g i = Ok (g', fx) ->
  tick_accepted j (mkAuditTick i fx g') /\
  NoDup (flat_map event_createdAssetIds (pending j ++ [new_event (mkAuditTick i fx g')])).
Proof.
  intros Hs Ha. pose proof (advanceGame_Ok _ _ _ _ Ha) as (Ht & Hh & Hv & _).
  pose proof (tick_frame g i g' fx Ha) as (Hsd & Htk & Hpl & _).
  pose proof (tick_effects g i g' fx Ha) as Hfx.
  pose proof (tick_assets g j i g' fx Hs Ha) as Hass.
  pose proof (inv_assetIds g' (tick_inv g i g' fx (si_game _ _ Hs) Ha)) as Hnd.
  rewrite <- Hass in Hnd. unfold all_events in Hnd.
  rewrite <- app_assoc, flat_map_app in Hnd. apply NoDup_app in Hnd as (_ & _ & Hnd).
  split; [|done]. pose proof (si_tick _ _ Hs).
  split_and!; cbn [at_input at_effects at_state]; try done; try lia; try congruence.
  - by rewrite Hsd, (si_seed _ _ Hs).
  - by rewrite Hpl, (si_player _ _ Hs).
  - by rewrite Ht.
  - rewrite flat_map_app in Hnd. apply NoDup_app in Hnd as (_ & _ & Hnd).
    by rewrite flat_map_new_event in Hnd.
Qed.

Lemma session_tick_inv g j i g' fx j' cp :
  session_inv g j -> advanceGame g i = Ok (g', fx) ->
  appendAuditTick j (mkAuditTick i fx g') digest = Ok (j', cp) ->
  session_inv g' j'.
Proof.
  intros Hs Ha Hap. pose proof (tick_frame g i g' fx Ha) as (Hsd & Htk & Hpl & _).
  pose proof (append_inv digest _ _ _ _ (si_journal _ _ Hs) Hap)
    as (Hj' & Hn & Hev & Hjs & Hjp & _ & _ & _ & _).
  constructor.
  - exact (tick_inv g i g' fx (si_game _ _ Hs) Ha).
  - done.
  - by rewrite Hsd, Hjs, (si_seed _ _ Hs).
  - by rewrite Hpl, Hjp, (si_player _ _ Hs).
  - rewrite Hn, Htk, (si_tick _ _ Hs). done.
  - rewrite Hev. by eapply tick_assets.
  - apply append_Ok in Hap as (_ & [(_ & _ & ->)|(_ & _ & c & _ & Hc & ->)]).
    + cbn [pending set_pending]. intros E. by destruct (pending j).
    + intros _ c' Hl. cbn [checkpoints] in Hl. rewrite last_snoc in Hl.
      injection Hl as <-. rewrite Hc. reflexivity.
Qed.

Lemma session_verify_inv g j r g' :
  session_inv g j -> applyItemVerification g r = Ok g' -> session_inv g' j.
Proof.
  intros Hs Ha. pose proof (applyItemVerification_frame _ _ _ Ha) as (Hsd & Ht & Hp & _ & _ & Hd & Hi).
  destruct Hs. constructor; try done.
  - by eapply applyItemVerification_inv.
  - congruence.
  - congruence.
  - congruence.
  - rewrite si_assets0. unfold loot. rewrite Hd, !map_app.
    rewrite (map_unaudited assetId (inventory g) (inventory g')); done.
  - intros Hpe c Hc. by rewrite (canonicalGameState_verification _ _ _ Ha), (si_state0 Hpe c Hc).
Qed.

Lemma session_ack_inv g j d j' :
  session_inv g j -> acknowledgeAuditCheckpoint j d = Ok j' -> session_inv g j'.
Proof.
  intros Hs Ha. pose proof (ack_inv digest _ _ _ (si_journal _ _ Hs) Ha) as Hj.
  destruct (ack_Ok digest _ _ _ (si_journal _ _ Hs) Ha) as [->|(c & _ & _ & -> & _)]; [done|].
  by destruct Hs.
Qed.

Lemma session_invariant g j : session g j -> session_inv g j.
Proof.
  induction 1 as [ci ji g j Hc Hj Hsd Hpl|g j i g' fx j' cp _ IH Ha Hap|g j d j' _ IH Ha|
                  g j r g' _ IH Ha].
  - pose proof (initial_game_sources _ _ Hc) as (_ & Ht & Hs & Hp).
    apply create_journal_inv in Hj as (Hji & Hjs & Hjp & _ & Hn & Hev & Hcp & _).
    constructor; try done.
    + by eapply initial_game_inv.
    + rewrite Hs, Hjs, Hsd. unfold js_shr. by rewrite Z.shiftr_0_r.
    + by rewrite Hp, Hjp.
    + rewrite Hn, Ht. done.
    + rewrite Hev. unfold createInitialGame, throw_if in Hc. guards Hc. by injection Hc as <-.
    + intros _ c. by rewrite Hcp.
  - by eapply session_tick_inv.
  - by eapply session_ack_inv.
  - by eapply session_verify_inv.
Qed.

(** C9: in every session the journal is a linked, gap-free chain: epoch k
    covers ticks k*cadence+1 .. (k+1)*cadence, names the digest of epoch k-1
    (the genesis digest for 0), commits to the Merkle root of its retained
    events and to the sorted, duplicate-free assets they create, and its
    digest is the hash of its envelope; fewer than cadence ticks are pending
    and the next tick is the game's. *)
Theorem session_journal_is_a_chain g j :
  session g j ->
  chain_from digest (cadenceTicks j) (genesisDigest j) 1 0 (checkpoints j) (retainedSegments j) /\
  ticks_from (1 + cadenceTicks j * Z.of_nat (length (checkpoints j))) (pending j) /\
  Z.of_nat (length (pending j)) < cadenceTicks j /\
  nextTick j = tick g + 1 /\
  tick g = cadenceTicks j * Z.of_nat (length (checkpoints j)) + Z.of_nat (length (pending j)).
Proof.
  intros Hs%session_invariant. pose proof (si_tick _ _ Hs). destruct Hs as [_ [] _ _ _ _ _].
  split_and!; try done. lia.
Qed.

(** A client is never refused its own history: in every session, every
    input the kernel accepts is also accepted by the journal, and the
    checkpoint it may seal is the next epoch. *)
Theorem session_append_never_refused g j i g' fx :
  session g j -> advanceGame g i = Ok (g', fx) ->
  exists j' cp, appendAuditTick j (mkAuditTick i fx g') digest = Ok (j', cp) /\
    session g' j' /\
    match cp with
    | None => checkpoints j' = checkpoints j
    | Some c => checkpoints j' = checkpoints j ++ [c] /\
                epoch c = Z.of_nat (length (checkpoints j)) /\ pending j' = []
    end.
Proof.
  intros Hss Ha. pose proof (session_invariant _ _ Hss) as Hs.
  destruct (tick_is_accepted _ _ _ _ _ Hs Ha) as [Hacc Hnd].
  destruct (prepare_accepts _ _ Hacc Hnd) as [p Hp].
  assert (exists j' cp, appendAuditTick j (mkAuditTick i fx g') digest = Ok (j', cp))
    as (j' & cp & E).
  { unfold appendAuditTick. rewrite Hp. destruct (checkpointAssets p); eauto. }
  exists j', cp. split; [done|]. split; [by eapply session_tick|].
  apply append_Ok in E as (_ & [(_ & -> & ->)|(_ & _ & c & -> & -> & ->)]); [done|].
  split_and!; reflexivity.
Qed.

(** The assets a session has journaled are exactly the assets its game
    holds on the ground or in the inventory, each once, and right after a
    checkpoint the state it commits to is the state of the game. *)
Theorem session_assets_match_game g j :
  session g j ->
  flat_map event_createdAssetIds (all_events j) ≡ₚ map assetId (loot g) /\
  NoDup (flat_map event_createdAssetIds (all_events j)) /\
  (pending j = [] -> forall c, last (checkpoints j) = Some c ->
     stateDigest c = hashString digest (canonicalGameState g)).
Proof.
  intros Hs%session_invariant. split_and!; try apply Hs.
  rewrite (si_assets _ _ Hs). apply inv_assetIds, Hs.
Qed.

(** Checkpoints are acknowledged in order and never taken back: an
    accepted acknowledgement leaves the journal as it is, or moves the
    acknowledged prefix forward by exactly one epoch, to the last tick of the
    checkpoint that has the acknowledged digest. *)
Theorem acknowledgements_in_order g j d j' :
  session g j -> acknowledgeAuditCheckpoint j d = Ok j' ->
  session g j' /\
  (j' = j \/
   exists c, checkpoints j !! Z.to_nat (acknowledgedEpoch j + 1) = Some c /\
     checkpointDigest c = d /\ acknowledgedEpoch j' = acknowledgedEpoch j + 1 /\
     acknowledgedTick j' = lastTick c /\ checkpoints j' = checkpoints j).
Proof.
  intros Hs Ha. split; [by eapply session_ack|].
  pose proof (si_journal _ _ (session_invariant _ _ Hs)) as Hj.
  destruct (ack_Ok digest _ _ _ Hj Ha) as [->|(c & Hc & Hd & -> & _)]; [by left|].
  right. exists c. split_and!; done.
Qed.
End Session.

(** ** Asynchronous operations *)

(** An asynchronous adapter that resolves to the values of a synchronous one. *)
Definition resolves (async : AsyncAuditDigestAdapter) (sync : AuditDigestAdapter) : Prop :=
  (forall s, hashStringAsync async s = Some (hashString sync s)) /\
  (forall l, merkleRootAsync async l = Some (merkleRoot sync l)).

(** Over an asynchronous backend that resolves to the values of a
    synchronous one, creating a journal and appending to it give exactly the
    results of the synchronous operations. *)
Theorem async_journal_agrees `{JsHost} async sync ji j tk :
  resolves async sync ->
  createGameAuditJournalAsync ji async =
    match createGameAuditJournal ji sync with inl e => inl e | inr g => inr (Some g) end /\
  appendAuditTickAsync j tk async = Some (appendAuditTick j tk sync).
Proof.
  intros [Hh Hm]. split.
  - unfold createGameAuditJournalAsync, createGameAuditJournal.
    destruct (normalizeJournalInput ji); simpl; [done|]. by rewrite Hh.
  - unfold appendAuditTickAsync, appendAuditTick.
    destruct (prepareAuditAppend j tk) as [p|]; [|done].
    destruct (checkpointAssets p); [|done]. rewrite Hm. simpl. rewrite Hh. simpl.
    rewrite Hh. done.
Qed.

(** ** Witnesses *)

(** A toy digest: the FNV hash of the kernel as 64 hexadecimal digits. *)
Definition demo_hash (s : jsstr) : jsstr :=
  concat (replicate 8 (pad_start 8 48 (hex_of (stringHash s)))).
Definition demo_digest : AuditDigestAdapter :=
  mkDigest demo_hash (fun l => demo_hash (join (js ",") l)).
Definition demo_async_digest : AsyncAuditDigestAdapter :=
  mkAsyncDigest (fun s => Some (hashString demo_digest s))
    (fun l => Some (merkleRoot demo_digest l)).

Definition demo_journal_input : CreateGameAuditJournalInput :=
  mkJournalInput 7 (js "player-1") hex_ones 30.
Definition empty_journal : GameAuditJournalState := mkJournal 0 [] [] 1 [] 1 [] [] [] (-1) 0.
Definition demo_journal : GameAuditJournalState :=
  match createGameAuditJournal demo_journal_input demo_digest with
  | inr j => j
  | inl _ => empty_journal
  end.

(** Plays inputs and journals them. *)
Fixpoint play `{JsHost} (digest : AuditDigestAdapter) (g : GameState)
    (j : GameAuditJournalState) (inputs : list InputFrame)
    : option (GameState * GameAuditJournalState) :=
  match inputs with
  | [] => Some (g, j)
  | i :: inputs' =>
      match advanceGame g i with
      | Ok (g', fx) =>
          match appendAuditTick j (mkAuditTick i fx g') digest with
          | Ok (j', _) => play digest g' j' inputs'
          | Err _ => None
          end
      | Err _ => None
      end
  end.

Lemma play_session `{JsHost} digest g j inputs g' j' :
  session digest g j -> play digest g j inputs = Some (g', j') -> session digest g' j'.
Proof.
  revert g j. induction inputs as [|i inputs IH]; intros g j Hs; simpl; [by intros; simplify_eq|].
  destruct (advanceGame g i) as [[g1 fx]|] eqn:Ea; [|done].
  destruct (appendAuditTick j _ digest) as [[j1 cp]|] eqn:Ep; [|done].
  apply IH. by eapply session_tick.
Qed.

Lemma demo_session : session (H := code_unit_host) demo_digest demo_game demo_journal.
Proof.
  apply (session_start demo_digest demo_create demo_journal_input); reflexivity.
Qed.

(** The game and the journal after the thirty demonstration ticks. *)
Definition demo_played : GameState * GameAuditJournalState :=
  match play (H := code_unit_host) demo_digest demo_game demo_journal demo_inputs with
  | Some p => p
  | None => (demo_game, demo_journal)
  end.

Lemma demo_play_ok :
  play (H := code_unit_host) demo_digest demo_game demo_journal demo_inputs
  = Some (demo_played.1, demo_played.2).
Proof. vm_compute. reflexivity. Qed.

Lemma demo_played_session :
  session (H := code_unit_host) demo_digest demo_played.1 demo_played.2.
Proof. eapply play_session; [apply demo_session|apply demo_play_ok]. Qed.

Lemma session_journal_is_a_chain_witness :
  length (checkpoints demo_played.2) = 1%nat /\
  tick demo_played.1 = cadenceTicks demo_played.2 * 1 + 0.
Proof.
  split; [vm_compute; reflexivity|].
  apply (session_journal_is_a_chain (H := code_unit_host) demo_digest _ _ demo_played_session).
Defined.

Lemma session_append_never_refused_witness : exists g' fx j' cp,
  advanceGame (H := code_unit_host) demo_played.1 (mkInputFrame 31 0 1) = Ok (g', fx) /\
  appendAuditTick (H := code_unit_host) demo_played.2
    (mkAuditTick (mkInputFrame 31 0 1) fx g') demo_digest = Ok (j', cp).
Proof.
  destruct (advanceGame (H := code_unit_host) demo_played.1 (mkInputFrame 31 0 1))
    as [[g' fx]|e] eqn:E; [|vm_compute in E; discriminate E].
  destruct (session_append_never_refused (H := code_unit_host) demo_digest _ _ _ _ _
              demo_played_session E) as (j' & cp & Ha & _).
  exists g', fx, j', cp. split; [reflexivity|exact Ha].
Defined.

Lemma session_assets_match_game_witness :
  flat_map event_createdAssetIds (all_events demo_played.2) ≡ₚ map assetId (loot demo_played.1) /\
  length (loot demo_played.1) = 1%nat.
Proof.
  split; [|vm_compute; reflexivity].
  apply (session_assets_match_game (H := code_unit_host) demo_digest _ _ demo_played_session).
Defined.

Definition demo_checkpoint_digest : jsstr :=
  match checkpoints demo_played.2 with c :: _ => checkpointDigest c | [] => [] end.

Lemma acknowledgements_in_order_witness : exists j',
  acknowledgeAuditCheckpoint demo_played.2 demo_checkpoint_digest = Ok j' /\
  acknowledgedEpoch j' = 0 /\ session (H := code_unit_host) demo_digest demo_played.1 j'.
Proof.
  destruct (acknowledgeAuditCheckpoint demo_played.2 demo_checkpoint_digest)
    as [j'|e] eqn:E; [|vm_compute in E; discriminate E].
  exists j'. split; [reflexivity|]. split; [vm_compute in E; injection E as <-; reflexivity|].
  apply (acknowledgements_in_order (H := code_unit_host) demo_digest _ _ _ _
           demo_played_session E).
Defined.

Lemma async_journal_agrees_witness :
  appendAuditTickAsync (H := code_unit_host) demo_journal
    (mkAuditTick (mkInputFrame 1 0 0) [] demo_game) demo_async_digest
  = Some (appendAuditTick (H := code_unit_host) demo_journal
            (mkAuditTick (mkInputFrame 1 0 0) [] demo_game) demo_digest).
Proof.
  apply (async_journal_agrees (H := code_unit_host) demo_async_digest demo_digest
           demo_journal_input demo_journal (mkAuditTick (mkInputFrame 1 0 0) [] demo_game)).
  split; reflexivity.
Defined.
