(* ===== verification/Snapshot.v ===== *)
(** * Run snapshots

    [game/audit/snapshot.ts]: a sealed run is captured without hashing and
    restored by validating the whole persisted chain.  The persisted value is
    untrusted, so restoring works on [jsval]; the shape tests are those of the
    source, and everything they do not test stays raw. *)
From S2P Require Import Prelude Json Contracts Kernel Journal.
Set Default Goal Selector "!".

Record RunSnapshot := mkSnapshot {
  savedAtMs : Z;
  snapshot_game : GameState;
  snapshot_audit : GameAuditJournalState;
}.

Inductive RestoreReason :=
| invalid_snapshot | journal_game_mismatch | event_root_mismatch
| checkpoint_chain_mismatch | state_digest_mismatch.

(** The persisted value that was accepted. *)
Definition RestoreRunSnapshotResult := result jsval RestoreReason.

(** ** Shapes *)

Definition isInteger (v : jsval) : bool := bool_decide (is_Some (as_safe_integer v)).
Definition isString (v : jsval) : bool := match v with JStr _ => true | _ => false end.
Definition isStringArray (v : jsval) : bool :=
  match v with JArr l => forallb isString l | _ => false end.
Definition string_of (v : jsval) : jsstr := match v with JStr s => s | _ => [] end.
Definition elements_of (v : jsval) : list jsval := match v with JArr l => l | _ => [] end.

Definition hasBasicGameShape (v : jsval) : bool :=
  let p := field v "player" in
  is_record v && is_record p &&
  isInteger (field v "seed") && isInteger (field v "tick") &&
  isString (field p "id") && isInteger (field p "x") && isInteger (field p "y") &&
  isInteger (field p "hp") && isInteger (field p "maxHp") &&
  is_array (field v "enemies") && is_array (field v "telegraphs") &&
  is_array (field v "drops") && is_array (field v "inventory").

Definition hasBasicAuditShape (v : jsval) : bool :=
  is_record v &&
  is_num 1 (field v "version") && isInteger (field v "seed") &&
  isString (field v "playerId") &&
  isString (field v "ownerPublicKey") && is_hex 64 (string_of (field v "ownerPublicKey")) &&
  isInteger (field v "cadenceTicks") && (0 <? number_of (field v "cadenceTicks")) &&
  isString (field v "genesisDigest") && isInteger (field v "nextTick") &&
  is_array (field v "pending") && is_array (field v "checkpoints") &&
  is_array (field v "retainedSegments") &&
  isInteger (field v "acknowledgedEpoch") && isInteger (field v "acknowledgedTick").

Definition hasCheckpointShape (v : jsval) : bool :=
  is_record v &&
  is_num 1 (field v "version") && isInteger (field v "epoch") &&
  isInteger (field v "firstTick") && isInteger (field v "lastTick") &&
  isInteger (field v "eventCount") && isString (field v "eventRoot") &&
  isString (field v "stateDigest") && isString (field v "previousCheckpoint") &&
  isString (field v "checkpointDigest") && isString (field v "canonicalEnvelope") &&
  isStringArray (field v "createdAssetIds").

Definition hasEventShape (v : jsval) : bool :=
  is_record v && isInteger (field v "tick") && isString (field v "canonicalPayload") &&
  isStringArray (field v "createdAssetIds").

Definition hasSegmentShape (v : jsval) : bool :=
  is_record v && isInteger (field v "epoch") && isString (field v "checkpointDigest") &&
  is_array (field v "events") && forallb hasEventShape (elements_of (field v "events")).

(** ** Reading checked values *)

Definition read_event (v : jsval) : PendingAuditEvent :=
  mkEvent (number_of (field v "tick")) (string_of (field v "canonicalPayload"))
    (map string_of (elements_of (field v "createdAssetIds"))).
Definition read_segment (v : jsval) : RetainedAuditSegment :=
  mkSegment (number_of (field v "epoch")) (string_of (field v "checkpointDigest"))
    (map read_event (elements_of (field v "events"))).
Definition read_checkpoint (v : jsval) : GameMicroCheckpoint :=
  mkCheckpoint (number_of (field v "epoch")) (number_of (field v "firstTick"))
    (number_of (field v "lastTick")) (number_of (field v "eventCount"))
    (string_of (field v "eventRoot")) (string_of (field v "stateDigest"))
    (string_of (field v "previousCheckpoint")) (string_of (field v "checkpointDigest"))
    (string_of (field v "canonicalEnvelope"))
    (map string_of (elements_of (field v "createdAssetIds"))).

Section Restore.
Context `{JsHost}.

(** ** [canonicalGameState] on an unchecked value *)

(** [String(v)]; [None] when the conversion throws. *)
Fixpoint js_to_string (v : jsval) : option jsstr :=
  match v with
  | JUndef => Some (js "undefined")
  | JNull => Some (js "null")
  | JBool b => Some (if b then js "true" else js "false")
  | JNum z => Some (num_to_string z)
  | JFloat r => Some r
  | JStr s => Some s
  | JArr l =>
      (fix go (l : list jsval) (acc : list jsstr) : option jsstr :=
         match l with
         | [] => Some (join (js ",") (rev acc))
         | w :: l' =>
             match (match w with JUndef | JNull => Some [] | _ => js_to_string w end) with
             | Some s => go l' (s :: acc)
             | None => None
             end
         end) l []
  | JObj o =>
      match assoc (js "toString") o with
      | Some _ => None
      | None => Some (js "[object Object]")
      end
  end.

(** [value.k] on any value: throws on [null] and [undefined]. *)
Definition tuple_of (keys : list string) (v : jsval) : option (list jsval) :=
  mapM (get_prop v) keys.

Definition rawItem (v : jsval) : option (list jsval) :=
  tuple_of ["assetId"; "ownerId"; "itemType"; "rarity"; "power"; "sourceEnemyId";
            "killTick"; "dropIndex"]%string v.

Definition rawEnemy (v : jsval) : option (list jsval) :=
  tuple_of ["id"; "x"; "y"; "hp"; "maxHp"]%string v.
Definition rawTelegraph (v : jsval) : option (list jsval) :=
  tuple_of ["id"; "x"; "y"; "radius"; "startTick"; "resolveTick"; "damage"]%string v.
Definition rawDrop (v : jsval) : option (list jsval) :=
  head3 ← tuple_of ["id"; "x"; "y"]%string v;
  item ← get_prop v "item";
  tuple ← rawItem item;
  Some (head3 ++ [JArr tuple]).

(** The comparator runs, and may throw, only when there are two tuples. *)
Definition sortRaw (tuples : list (list jsval)) : option (list jsval) :=
  if (length tuples <=? 1)%nat then Some (map JArr tuples)
  else
    keyed ← mapM (fun t => s ← js_to_string (default JUndef (head t)); Some (s, JArr t)) tuples;
    Some (sortTuples keyed).

Definition rawArray (tuple : jsval -> option (list jsval)) (v : jsval) : option jsval :=
  tuples ← mapM tuple (elements_of v);
  sorted ← sortRaw tuples;
  Some (JArr sorted).

Definition canonicalGameStateRaw (v : jsval) : option jsstr :=
  es ← rawArray rawEnemy (field v "enemies");
  ts ← rawArray rawTelegraph (field v "telegraphs");
  ds ← rawArray rawDrop (field v "drops");
  inv ← rawArray rawItem (field v "inventory");
  p ← tuple_of ["id"; "x"; "y"; "hp"; "maxHp"]%string (field v "player");
  Some (stringify (JArr [JStr (js "audit-survivors-state-v1"); field v "seed";
                         field v "tick"; JArr p; es; ts; ds; inv])).

(** ** Restoring *)

Definition checkpointEnvelope (c : GameMicroCheckpoint) : EnvelopeFields :=
  mkEnvelope (epoch c) (firstTick c) (lastTick c) (eventCount c) (eventRoot c)
    (stateDigest c) (previousCheckpoint c) (createdAssetIds c).

(** [for (const event of segment.events)]: the tick expected after it. *)
Fixpoint checkEventTicks (evs : list PendingAuditEvent) (expectedTick : Z) : option Z :=
  match evs with
  | [] => Some expectedTick
  | e :: evs' =>
      if negb (event_tick e =? expectedTick) then None
      else checkEventTicks evs' (expectedTick + 1)
  end.

(** The first test of the loop body, on the raw checkpoint and segment. *)
Definition linkRefused (cadence : Z) (rawC rawS : jsval) (ep expectedTick : Z)
    (previous : jsstr) : bool :=
  let c := read_checkpoint rawC in
  let s := read_segment rawS in
  negb (hasCheckpointShape rawC) || negb (hasSegmentShape rawS) ||
  negb (epoch c =? ep) || negb (segment_epoch s =? ep) ||
  negb (str_eqb (segment_checkpointDigest s) (checkpointDigest c)) ||
  negb (str_eqb (previousCheckpoint c) previous) ||
  negb (eventCount c =? cadence) ||
  negb (Z.of_nat (length (events s)) =? eventCount c) ||
  negb (firstTick c =? expectedTick) ||
  negb (lastTick c =? expectedTick + eventCount c - 1).

Definition assetsRefused (c : GameMicroCheckpoint) (s : RetainedAuditSegment) : bool :=
  let created := sort_strings (flat_map event_createdAssetIds (events s)) in
  has_duplicates created ||
  negb (str_eqb (stringify (JArr (map JStr created)))
          (stringify (JArr (map JStr (createdAssetIds c))))).

(** The loop over the epochs; the tick expected after the last segment. *)
Fixpoint checkChain (digest : AuditDigestAdapter) (cadence : Z) (cps segs : list jsval)
    (ep expectedTick : Z) (previous : jsstr) : result Z RestoreReason :=
  match cps, segs with
  | rawC :: cps', rawS :: segs' =>
      let c := read_checkpoint rawC in
      let s := read_segment rawS in
      if linkRefused cadence rawC rawS ep expectedTick previous then Err checkpoint_chain_mismatch
      else
        match checkEventTicks (events s) expectedTick with
        | None => Err checkpoint_chain_mismatch
        | Some expectedTick' =>
            let root := merkleRoot digest (map canonicalPayload (events s)) in
            if negb (str_eqb root (eventRoot c)) then Err event_root_mismatch
            else if assetsRefused c s then Err checkpoint_chain_mismatch
            else
              let envelope := canonicalMicroCheckpointEnvelope (checkpointEnvelope c) in
              if negb (str_eqb envelope (canonicalEnvelope c)) ||
                 negb (str_eqb (hashString digest envelope) (checkpointDigest c))
              then Err checkpoint_chain_mismatch
              else checkChain digest cadence cps' segs' (ep + 1) expectedTick'
                     (checkpointDigest c)
        end
  | _, _ => Ok expectedTick
  end.

Definition snapshotShapeRefused (value : jsval) : bool :=
  negb (is_record value) || negb (is_num 1 (field value "version")) ||
  negb (isInteger (field value "savedAtMs")) ||
  (number_of (field value "savedAtMs") <? 0) ||
  negb (hasBasicGameShape (field value "game")) ||
  negb (hasBasicAuditShape (field value "audit")).

(** The journal belongs to the game and nothing is pending. *)
Definition journalGameRefused (game audit : jsval) : bool :=
  negb (number_of (field audit "seed") =? number_of (field game "seed")) ||
  negb (str_eqb (string_of (field audit "playerId"))
          (string_of (field (field game "player") "id"))) ||
  negb (number_of (field audit "nextTick") =? number_of (field game "tick") + 1) ||
  negb (length (elements_of (field audit "pending")) =? 0)%nat.

Definition genesisText (audit : jsval) : jsstr :=
  canonicalAuditGenesis (number_of (field audit "seed")) (string_of (field audit "playerId"))
    (string_of (field audit "ownerPublicKey")).

Definition chainShapeRefused (audit : jsval) (genesis : jsstr) : bool :=
  let cps := elements_of (field audit "checkpoints") in
  let segs := elements_of (field audit "retainedSegments") in
  negb (str_eqb (string_of (field audit "genesisDigest")) genesis) ||
  (length cps =? 0)%nat || negb (length cps =? length segs)%nat.

Definition ackRefused (audit : jsval) : bool :=
  let cps := elements_of (field audit "checkpoints") in
  let ackEpoch := number_of (field audit "acknowledgedEpoch") in
  let ackTick := number_of (field audit "acknowledgedTick") in
  (ackEpoch <? -1) || (Z.of_nat (length cps) <=? ackEpoch) ||
  negb (ackTick =? (if ackEpoch <? 0 then 0
                    else from_option (fun c => lastTick (read_checkpoint c)) 0
                           (cps !! Z.to_nat ackEpoch))).

Definition restoreRunSnapshot (value : jsval) (digest : AuditDigestAdapter)
    : RestoreRunSnapshotResult :=
  if snapshotShapeRefused value then Err invalid_snapshot
  else
    let game := field value "game" in
    let audit := field value "audit" in
    if journalGameRefused game audit then Err journal_game_mismatch
    else if chainShapeRefused audit (hashString digest (genesisText audit))
    then Err checkpoint_chain_mismatch
    else
      let cps := elements_of (field audit "checkpoints") in
      let segs := elements_of (field audit "retainedSegments") in
      match checkChain digest (number_of (field audit "cadenceTicks")) cps segs 0 1
              (string_of (field audit "genesisDigest")) with
      | Err reason => Err reason
      | Ok expectedTick =>
          let latest := read_checkpoint (default JUndef (last cps)) in
          let tk := number_of (field game "tick") in
          if negb (lastTick latest =? tk) || negb (expectedTick =? tk + 1)
          then Err journal_game_mismatch
          else
            match canonicalGameStateRaw game with
            | None => Err invalid_snapshot
            | Some text =>
                if negb (str_eqb (hashString digest text) (stateDigest latest))
                then Err state_digest_mismatch
                else if ackRefused audit then Err checkpoint_chain_mismatch
                else Ok value
            end
      end.

(** ** The asynchronous variant *)

Fixpoint checkChainAsync (digest : AsyncAuditDigestAdapter) (cadence : Z)
    (cps segs : list jsval) (ep expectedTick : Z) (previous : jsstr)
    : option (result Z RestoreReason) :=
  match cps, segs with
  | rawC :: cps', rawS :: segs' =>
      let c := read_checkpoint rawC in
      let s := read_segment rawS in
      if linkRefused cadence rawC rawS ep expectedTick previous
      then Some (Err checkpoint_chain_mismatch)
      else
        match checkEventTicks (events s) expectedTick with
        | None => Some (Err checkpoint_chain_mismatch)
        | Some expectedTick' =>
            root ← merkleRootAsync digest (map canonicalPayload (events s));
            if negb (str_eqb root (eventRoot c)) then Some (Err event_root_mismatch)
            else if assetsRefused c s then Some (Err checkpoint_chain_mismatch)
            else
              let envelope := canonicalMicroCheckpointEnvelope (checkpointEnvelope c) in
              if negb (str_eqb envelope (canonicalEnvelope c))
              then Some (Err checkpoint_chain_mismatch)
              else
                edigest ← hashStringAsync digest envelope;
                if negb (str_eqb edigest (checkpointDigest c))
                then Some (Err checkpoint_chain_mismatch)
                else checkChainAsync digest cadence cps' segs' (ep + 1) expectedTick'
                       (checkpointDigest c)
        end
  | _, _ => Some (Ok expectedTick)
  end.

(** [None] is the rejection of the returned promise; the last digest is
    computed inside [try], so its rejection is [invalid_snapshot]. *)
Definition restoreRunSnapshotAsync (value : jsval) (digest : AsyncAuditDigestAdapter)
    : option RestoreRunSnapshotResult :=
  if snapshotShapeRefused value then Some (Err invalid_snapshot)
  else
    let game := field value "game" in
    let audit := field value "audit" in
    if journalGameRefused game audit then Some (Err journal_game_mismatch)
    else
      genesis ← hashStringAsync digest (genesisText audit);
      if chainShapeRefused audit genesis then Some (Err checkpoint_chain_mismatch)
      else
        let cps := elements_of (field audit "checkpoints") in
        let segs := elements_of (field audit "retainedSegments") in
        checked ← checkChainAsync digest (number_of (field audit "cadenceTicks")) cps segs 0 1
                    (string_of (field audit "genesisDigest"));
        match checked with
        | Err reason => Some (Err reason)
        | Ok expectedTick =>
            let latest := read_checkpoint (default JUndef (last cps)) in
            let tk := number_of (field game "tick") in
            if negb (lastTick latest =? tk) || negb (expectedTick =? tk + 1)
            then Some (Err journal_game_mismatch)
            else
              match (text ← canonicalGameStateRaw game; hashStringAsync digest text) with
              | None => Some (Err invalid_snapshot)
              | Some sdigest =>
                  if negb (str_eqb sdigest (stateDigest latest))
                  then Some (Err state_digest_mismatch)
                  else if ackRefused audit then Some (Err checkpoint_chain_mismatch)
                  else Some (Ok value)
              end
        end.

(** ** Persisting typed values *)

Definition obj (fields : list (string * jsval)) : jsval :=
  JObj (map (fun kv => (js kv.1, kv.2)) fields).

Definition auditFields (a : ItemAuditState) : jsval :=
  match a with
  | provisional => obj [("status", JStr (js "provisional"))]
  | verified v =>
      obj [("status", JStr (js "verified"));
           ("authorityReceiptId", JStr (va_authorityReceiptId v));
           ("ownerPublicKey", JStr (va_ownerPublicKey v));
           ("ownerVersion", JNum (va_ownerVersion v));
           ("ownerHeadId", JStr (va_ownerHeadId v));
           ("checkpointDigest", JStr (va_checkpointDigest v));
           ("inventoryEpoch", JNum (va_inventoryEpoch v))]
  end.
Definition item_value (i : InventoryItem) : jsval :=
  obj [("assetId", JStr (assetId i)); ("ownerId", JStr (ownerId i));
       ("itemType", JStr (itemType i)); ("rarity", JStr (rarity_string (rarity i)));
       ("power", JNum (power i)); ("sourceEnemyId", JStr (sourceEnemyId i));
       ("killTick", JNum (killTick i)); ("dropIndex", JNum (dropIndex i));
       ("audit", auditFields (audit i))].
Definition enemy_value (e : EnemyState) : jsval :=
  obj [("id", JStr (enemy_id e)); ("x", JNum (enemy_x e)); ("y", JNum (enemy_y e));
       ("hp", JNum (enemy_hp e)); ("maxHp", JNum (enemy_maxHp e))].
Definition telegraph_value (t : TelegraphState) : jsval :=
  obj [("id", JStr (telegraph_id t)); ("x", JNum (telegraph_x t)); ("y", JNum (telegraph_y t));
       ("radius", JNum (radius t)); ("startTick", JNum (startTick t));
       ("resolveTick", JNum (resolveTick t)); ("damage", JNum (damage t))].
Definition drop_value (d : GroundDrop) : jsval :=
  obj [("id", JStr (drop_id d)); ("x", JNum (drop_x d)); ("y", JNum (drop_y d));
       ("item", item_value (drop_item d))].
Definition player_value (p : PlayerState) : jsval :=
  obj [("id", JStr (player_id p)); ("x", JNum (player_x p)); ("y", JNum (player_y p));
       ("hp", JNum (player_hp p)); ("maxHp", JNum (player_maxHp p))].
Definition game_value (g : GameState) : jsval :=
  obj [("seed", JNum (seed g)); ("tick", JNum (tick g)); ("player", player_value (player g));
       ("enemies", JArr (map enemy_value (enemies g)));
       ("telegraphs", JArr (map telegraph_value (telegraphs g)));
       ("drops", JArr (map drop_value (drops g)));
       ("inventory", JArr (map item_value (inventory g)))].
Definition event_value (e : PendingAuditEvent) : jsval :=
  obj [("tick", JNum (event_tick e)); ("canonicalPayload", JStr (canonicalPayload e));
       ("createdAssetIds", JArr (map JStr (event_createdAssetIds e)))].
Definition segment_value (s : RetainedAuditSegment) : jsval :=
  obj [("epoch", JNum (segment_epoch s));
       ("checkpointDigest", JStr (segment_checkpointDigest s));
       ("events", JArr (map event_value (events s)))].
Definition checkpoint_value (c : GameMicroCheckpoint) : jsval :=
  obj [("version", JNum 1); ("epoch", JNum (epoch c)); ("firstTick", JNum (firstTick c));
       ("lastTick", JNum (lastTick c)); ("eventCount", JNum (eventCount c));
       ("eventRoot", JStr (eventRoot c)); ("stateDigest", JStr (stateDigest c));
       ("previousCheckpoint", JStr (previousCheckpoint c));
       ("createdAssetIds", JArr (map JStr (createdAssetIds c)));
       ("checkpointDigest", JStr (checkpointDigest c));
       ("canonicalEnvelope", JStr (canonicalEnvelope c))].
Definition journal_value (j : GameAuditJournalState) : jsval :=
  obj [("version", JNum 1); ("seed", JNum (journal_seed j));
       ("playerId", JStr (journal_playerId j));
       ("ownerPublicKey", JStr (journal_ownerPublicKey j));
       ("cadenceTicks", JNum (cadenceTicks j)); ("genesisDigest", JStr (genesisDigest j));
       ("nextTick", JNum (nextTick j)); ("pending", JArr (map event_value (pending j)));
       ("checkpoints", JArr (map checkpoint_value (checkpoints j)));
       ("retainedSegments", JArr (map segment_value (retainedSegments j)));
       ("acknowledgedEpoch", JNum (acknowledgedEpoch j));
       ("acknowledgedTick", JNum (acknowledgedTick j))].
Definition snapshot_value (s : RunSnapshot) : jsval :=
  obj [("version", JNum 1); ("savedAtMs", JNum (savedAtMs s));
       ("game", game_value (snapshot_game s)); ("audit", journal_value (snapshot_audit s))].

(** ** Capturing *)

Definition captureRunSnapshot (game : GameState) (audit : GameAuditJournalState) (ms : Z)
    : throws RunSnapshot :=
  throw_if (negb (isSafeInteger ms) || (ms <? 0) || negb (length (pending audit) =? 0)%nat ||
            (length (checkpoints audit) =? 0)%nat ||
            negb (match last (checkpoints audit) with
                  | Some c => lastTick c =? tick game
                  | None => false
                  end))
    (js "snapshot requires a sealed checkpoint boundary") $
  inr {| savedAtMs := ms; snapshot_game := game; snapshot_audit := audit |}.

Definition restore_reason (r : RestoreReason) : jsstr :=
  match r with
  | invalid_snapshot => js "invalid_snapshot"
  | journal_game_mismatch => js "journal_game_mismatch"
  | event_root_mismatch => js "event_root_mismatch"
  | checkpoint_chain_mismatch => js "checkpoint_chain_mismatch"
  | state_digest_mismatch => js "state_digest_mismatch"
  end.

Definition createRunSnapshot (game : GameState) (audit : GameAuditJournalState) (ms : Z)
    (digest : AuditDigestAdapter) : throws RunSnapshot :=
  let! snapshot := captureRunSnapshot game audit ms in
  match restoreRunSnapshot (snapshot_value snapshot) digest with
  | Err reason => inl (js "snapshot contract refused: " ++ restore_reason reason)
  | Ok _ => inr snapshot
  end.

Definition createRunSnapshotAsync (game : GameState) (audit : GameAuditJournalState) (ms : Z)
    (digest : AsyncAuditDigestAdapter) : throws (option RunSnapshot) :=
  let! snapshot := captureRunSnapshot game audit ms in
  match restoreRunSnapshotAsync (snapshot_value snapshot) digest with
  | None => inr None
  | Some (Err reason) => inl (js "snapshot contract refused: " ++ restore_reason reason)
  | Some (Ok _) => inr (Some snapshot)
  end.
End Restore.
