(* ===== verification/SnapshotFacts.v ===== *)
(** * Facts about run snapshots

    A snapshot captured from a session is restored; what is restored is a
    well-formed chain over the state it commits to; chains with the same last
    digest are equal unless the digest collides. *)
From S2P Require Import Prelude Json Contracts Kernel KernelFacts Journal JournalFacts Chain.
From S2P Require Import Session Snapshot.
Set Default Goal Selector "!".

(** ** Reading back what was written *)

Lemma elements_strings l : map string_of (map JStr l) = l.
Proof. rewrite map_map. apply map_id. Qed.

Lemma read_event_value e : read_event (event_value e) = e.
Proof.
  destruct e as [t p a]. unfold read_event. f_equal. exact (elements_strings a).
Qed.

Lemma read_segment_value s : read_segment (segment_value s) = s.
Proof.
  destruct s as [e d evs]. unfold read_segment. f_equal.
  change (map read_event (map event_value evs) = evs).
  rewrite map_map, (map_ext _ (fun e => e)); [apply map_id|apply read_event_value].
Qed.

Lemma read_checkpoint_value c : read_checkpoint (checkpoint_value c) = c.
Proof.
  destruct c. unfold read_checkpoint. f_equal. apply elements_strings.
Qed.

Lemma forallb_isString l : forallb isString (map JStr l) = true.
Proof. by induction l. Qed.

Lemma isInteger_num z : isInteger (JNum z) = isSafeInteger z.
Proof.
  unfold isInteger, as_safe_integer. destruct (isSafeInteger z); [|done].
  by apply bool_decide_eq_true_2.
Qed.

(** A non-negative number below a safe bound is a safe integer. *)
Lemma safe_below z b : 0 <= z <= b -> b <= MAX_SAFE_INTEGER -> isSafeInteger z = true.
Proof. intros. apply isSafeInteger_spec. lia. Qed.

Lemma event_shape e : isSafeInteger (event_tick e) = true -> hasEventShape (event_value e) = true.
Proof.
  intros Ht. unfold hasEventShape.
  change (true && isInteger (JNum (event_tick e)) && true &&
          forallb isString (map JStr (event_createdAssetIds e)) = true).
  by rewrite isInteger_num, Ht, forallb_isString.
Qed.

Lemma segment_shape s :
  isSafeInteger (segment_epoch s) = true ->
  Forall (fun e => isSafeInteger (event_tick e) = true) (events s) ->
  hasSegmentShape (segment_value s) = true.
Proof.
  intros He Hev. unfold hasSegmentShape.
  change (true && isInteger (JNum (segment_epoch s)) && true && true &&
          forallb hasEventShape (map event_value (events s)) = true).
  rewrite isInteger_num, He. cbn [andb].
  induction Hev as [|e l Hte _ IH]; simpl; [done|]. by rewrite event_shape, IH.
Qed.

Lemma checkpoint_shape c :
  isSafeInteger (epoch c) = true -> isSafeInteger (firstTick c) = true ->
  isSafeInteger (lastTick c) = true -> isSafeInteger (eventCount c) = true ->
  hasCheckpointShape (checkpoint_value c) = true.
Proof.
  intros H1 H2 H3 H4. unfold hasCheckpointShape.
  change (true && true && isInteger (JNum (epoch c)) && isInteger (JNum (firstTick c)) &&
          isInteger (JNum (lastTick c)) && isInteger (JNum (eventCount c)) &&
          true && true && true && true && true &&
          forallb isString (map JStr (createdAssetIds c)) = true).
  by rewrite !isInteger_num, H1, H2, H3, H4, forallb_isString.
Qed.

(** ** The raw canonical text of a typed state *)

Section Raw.
Context `{JsHost}.

Lemma mapM_total {A B C} (f : B -> option C) (k : A -> B) (h : A -> C) (l : list A) :
  (forall x, f (k x) = Some (h x)) -> mapM f (map k l) = Some (map h l).
Proof.
  intros Hf. induction l as [|x l IH]; simpl; [done|].
  rewrite Hf. simpl. by rewrite IH.
Qed.

Lemma sortTuples_short l : (length l <= 1)%nat -> sortTuples l = map snd l.
Proof. destruct l as [|x [|y l]]; simpl; [done..|lia]. Qed.

Lemma rawArray_total {A} (raw : jsval -> option (list jsval)) (value : A -> jsval)
    (key : A -> jsstr) (tuple : A -> list jsval) (l : list A) :
  (forall x, raw (value x) = Some (JStr (key x) :: tuple x)) ->
  rawArray raw (JArr (map value l)) =
  Some (JArr (sortTuples (map (fun x => (key x, JArr (JStr (key x) :: tuple x))) l))).
Proof.
  intros Hr. unfold rawArray. cbn [elements_of].
  rewrite (mapM_total raw value (fun x => JStr (key x) :: tuple x)) by done. simpl.
  unfold sortRaw. rewrite length_map. destruct (Nat.leb_spec (length l) 1) as [Hl|Hl]; simpl.
  - rewrite sortTuples_short by (by rewrite length_map). by rewrite !map_map.
  - rewrite (mapM_total _ _ (fun x => (key x, JArr (JStr (key x) :: tuple x)))); done.
Qed.

Lemma canonicalGameStateRaw_value g :
  canonicalGameStateRaw (game_value g) = Some (canonicalGameState g).
Proof.
  unfold canonicalGameStateRaw.
  change (field (game_value g) "enemies") with (JArr (map enemy_value (enemies g))).
  change (field (game_value g) "telegraphs") with (JArr (map telegraph_value (telegraphs g))).
  change (field (game_value g) "drops") with (JArr (map drop_value (drops g))).
  change (field (game_value g) "inventory") with (JArr (map item_value (inventory g))).
  change (field (game_value g) "player") with (player_value (player g)).
  rewrite (rawArray_total rawEnemy enemy_value enemy_id
    (fun e => [JNum (enemy_x e); JNum (enemy_y e); JNum (enemy_hp e); JNum (enemy_maxHp e)]))
    by reflexivity.
  rewrite (rawArray_total rawTelegraph telegraph_value telegraph_id
    (fun t => [JNum (telegraph_x t); JNum (telegraph_y t); JNum (radius t); JNum (startTick t);
               JNum (resolveTick t); JNum (damage t)])) by reflexivity.
  rewrite (rawArray_total rawDrop drop_value drop_id
    (fun d => [JNum (drop_x d); JNum (drop_y d); canonicalItem (drop_item d)])) by reflexivity.
  rewrite (rawArray_total rawItem item_value assetId
    (fun it => [JStr (ownerId it); JStr (itemType it); JStr (rarity_string (rarity it));
                JNum (power it); JStr (sourceEnemyId it); JNum (killTick it);
                JNum (dropIndex it)])) by reflexivity.
  reflexivity.
Qed.

(** ** The chain check *)

Lemma checkEventTicks_spec evs t t' :
  checkEventTicks evs t = Some t' <-> ticks_from t evs /\ t' = t + Z.of_nat (length evs).
Proof.
  revert t. induction evs as [|e evs IH]; intros t; cbn [checkEventTicks ticks_from length].
  - replace (t + Z.of_nat 0) with t by lia. naive_solver.
  - destruct (Z.eqb_spec (event_tick e) t) as [E|E]; cbn [negb]; [|naive_solver].
    rewrite IH. replace (t + 1 + Z.of_nat (length evs)) with (t + Z.of_nat (S (length evs))) by lia.
    tauto.
Qed.

Lemma stringify_strings_inj l l' :
  stringify (JArr (map JStr l)) = stringify (JArr (map JStr l')) -> l = l'.
Proof.
  intros E. apply stringify_inj in E; [|unfold plain; simpl; apply forallb_map_JStr..].
  injection E as E. by apply map_JStr_inj.
Qed.

Lemma assetsRefused_spec c s :
  assetsRefused c s = false <->
  NoDup (flat_map event_createdAssetIds (events s)) /\
  createdAssetIds c = sort_strings (flat_map event_createdAssetIds (events s)).
Proof.
  unfold assetsRefused. rewrite orb_false_iff, has_duplicates_false, negb_false_iff, str_eqb_eq.
  set (ids := flat_map event_createdAssetIds (events s)).
  assert (Hn : NoDup (sort_strings ids) <-> NoDup ids) by (by rewrite sort_strings_perm).
  rewrite Hn. split.
  - intros [? E]. split; [done|]. symmetry. by apply stringify_strings_inj.
  - intros [? ->]. done.
Qed.

Context (digest : AuditDigestAdapter).

(** One epoch of the loop accepts exactly what [sealed] describes. *)
Lemma epoch_check cadence rawC rawS ep t prev :
  linkRefused cadence rawC rawS ep t prev = false ->
  forall t', checkEventTicks (events (read_segment rawS)) t = Some t' ->
  str_eqb (merkleRoot digest (map canonicalPayload (events (read_segment rawS))))
    (eventRoot (read_checkpoint rawC)) = true ->
  assetsRefused (read_checkpoint rawC) (read_segment rawS) = false ->
  str_eqb (canonicalMicroCheckpointEnvelope (checkpointEnvelope (read_checkpoint rawC)))
    (canonicalEnvelope (read_checkpoint rawC)) = true ->
  str_eqb (hashString digest
             (canonicalMicroCheckpointEnvelope (checkpointEnvelope (read_checkpoint rawC))))
    (checkpointDigest (read_checkpoint rawC)) = true ->
  sealed digest cadence prev t ep (read_checkpoint rawC) (read_segment rawS) /\ t' = t + cadence.
Proof.
  unfold linkRefused. intros Hl t' Ht Hr Ha He Hd.
  repeat (apply orb_false_iff in Hl; destruct Hl as [Hl ?]). bool_split.
  repeat match goal with E : str_eqb _ _ = true |- _ => apply str_eqb_eq in E end.
  apply checkEventTicks_spec in Ht as [Ht ->]. apply assetsRefused_spec in Ha as [Hn Ha].
  split; [|lia]. constructor; try congruence; try done.
Qed.

Lemma checkChain_sound cadence cps segs ep t prev t' :
  length cps = length segs ->
  checkChain digest cadence cps segs ep t prev = Ok t' ->
  chain_from digest cadence prev t ep (map read_checkpoint cps) (map read_segment segs) /\
  t' = t + cadence * Z.of_nat (length cps).
Proof.
  revert segs ep t prev. induction cps as [|rawC cps IH]; intros [|rawS segs] ep t prev Hl;
    try discriminate Hl; cbn [checkChain map chain_from length].
  - intros E. injection E as <-. split; [done|lia].
  - destruct (linkRefused cadence rawC rawS ep t prev) eqn:E1; [done|].
    destruct (checkEventTicks _ t) as [t1|] eqn:E2; [|done].
    apply (f_equal Nat.pred) in Hl.
    destruct (str_eqb (merkleRoot _ _) _) eqn:E3; [|done]. cbn [negb].
    destruct (assetsRefused _ _) eqn:E4; [done|].
    destruct (str_eqb _ (canonicalEnvelope _)) eqn:E5; [|done].
    destruct (str_eqb _ (checkpointDigest _)) eqn:E6; [|done]. cbn [negb orb].
    intros E. destruct (epoch_check _ _ _ _ _ _ E1 t1 E2 E3 E4 E5 E6) as [Hs ->].
    destruct (IH _ _ _ _ Hl E) as [Hc ->]. split; [by split|]. lia.
Qed.

Lemma ticks_safe t evs :
  ticks_from t evs -> 0 <= t -> t + Z.of_nat (length evs) - 1 <= MAX_SAFE_INTEGER ->
  Forall (fun e => isSafeInteger (event_tick e) = true) evs.
Proof.
  revert t. induction evs as [|e l IH]; intros t Ht H0 Hb; [done|].
  destruct Ht as [E Ht]. cbn [length] in Hb. constructor.
  - rewrite E. eapply safe_below; [|exact Hb]. lia.
  - eapply IH; [exact Ht|lia|lia].
Qed.

Lemma sealed_accepts cadence prev t ep c s :
  sealed digest cadence prev t ep c s -> 0 < cadence -> 0 <= ep < t ->
  t + cadence - 1 <= MAX_SAFE_INTEGER ->
  linkRefused cadence (checkpoint_value c) (segment_value s) ep t prev = false /\
  checkEventTicks (events s) t = Some (t + cadence).
Proof.
  intros [] Hc He Ht. split.
  - unfold linkRefused. rewrite read_checkpoint_value, read_segment_value.
    rewrite checkpoint_shape; [|by (eapply safe_below; [|exact Ht]; lia)..].
    rewrite segment_shape; [|by (eapply safe_below; [|exact Ht]; lia)|].
    + repeat (apply orb_false_iff; split); apply negb_false_iff; try done;
        try (by apply Z.eqb_eq; lia); by apply str_eqb_eq.
    + eapply ticks_safe; [eassumption|lia|lia].
  - apply checkEventTicks_spec. split; [done|lia].
Qed.

Lemma checkChain_complete cadence cps segs ep t prev :
  chain_from digest cadence prev t ep cps segs -> 0 < cadence -> 0 <= ep < t ->
  t + cadence * Z.of_nat (length cps) - 1 <= MAX_SAFE_INTEGER ->
  checkChain digest cadence (map checkpoint_value cps) (map segment_value segs) ep t prev
  = Ok (t + cadence * Z.of_nat (length cps)).
Proof.
  revert segs ep t prev. induction cps as [|c cps IH]; intros [|s segs] ep t prev Hch Hc He Hb;
    try done; cbn [map checkChain length].
  - f_equal. lia.
  - destruct Hch as [Hs Hch]. cbn [length] in Hb.
    destruct (sealed_accepts _ _ _ _ _ _ Hs Hc He ltac:(nia)) as [Hl Ht].
    rewrite Hl, read_checkpoint_value, read_segment_value, Ht.
    rewrite <- (sealed_root _ _ _ _ _ _ _ Hs), str_eqb_refl. cbn [negb].
    rewrite (proj2 (assetsRefused_spec c s)) by (split; apply Hs).
    change (checkpointEnvelope c) with (envelope_fields c).
    rewrite <- (sealed_envelope _ _ _ _ _ _ _ Hs), str_eqb_refl.
    rewrite <- (sealed_digest _ _ _ _ _ _ _ Hs), str_eqb_refl. cbn [negb orb].
    rewrite IH; [f_equal; lia|done|done|lia|lia].
Qed.
End Raw.

(** ** A captured session is restored *)

Section Capture.
Context `{JsHost} (digest : AuditDigestAdapter).
Context (g : GameState) (j : GameAuditJournalState) (ms : Z).
Context (Hs : session_inv digest g j) (Hp : pending j = []) (Hc : checkpoints j <> []).
Context (Ht : tick g < MAX_SAFE_INTEGER) (Hms : 0 <= ms <= MAX_SAFE_INTEGER).
Let v : jsval := snapshot_value (mkSnapshot ms g j).

Lemma captured_tick :
  tick g = cadenceTicks j * Z.of_nat (length (checkpoints j)) /\
  (0 < length (checkpoints j))%nat.
Proof using Hs Hp Hc.
  pose proof (si_tick _ _ _ Hs). pose proof (ji_next _ _ (si_journal _ _ _ Hs)) as Hn.
  rewrite Hp in Hn. cbn [length] in Hn. split; [lia|]. destruct (checkpoints j); [done|]. simpl. lia.
Qed.

Lemma captured_game_shape : hasBasicGameShape (game_value g) = true.
Proof using Hs Ht.
  pose proof (si_game _ _ _ Hs) as Hg. destruct (inv_player g Hg) as (? & ? & ? & ?).
  pose proof (inv_seed g Hg). pose proof (inv_tick g Hg).
  unfold hasBasicGameShape. cbv zeta.
  change (true && true && isInteger (JNum (seed g)) && isInteger (JNum (tick g)) && true &&
    isInteger (JNum (player_x (player g))) && isInteger (JNum (player_y (player g))) &&
    isInteger (JNum (player_hp (player g))) && isInteger (JNum (player_maxHp (player g))) &&
    true && true && true && true = true).
  rewrite !isInteger_num, !andb_true_iff, !isSafeInteger_spec. unfold MAX_SAFE_INTEGER in *.
  split_and!; try done; lia.
Qed.

Lemma captured_audit_shape : hasBasicAuditShape (journal_value j) = true.
Proof using Hs Hp Hc Ht.
  pose proof (si_journal _ _ _ Hs) as Hj. destruct captured_tick as [E Hl].
  pose proof (ji_seed_range _ _ Hj). pose proof (ji_ack _ _ Hj). pose proof (ji_cadence _ _ Hj).
  pose proof (ji_ackTick _ _ Hj) as Ha. pose proof (si_tick _ _ _ Hs).
  unfold hasBasicAuditShape.
  change (true && true && isInteger (JNum (journal_seed j)) && true &&
    true && is_hex 64 (journal_ownerPublicKey j) && isInteger (JNum (cadenceTicks j)) &&
    (0 <? cadenceTicks j) && true && isInteger (JNum (nextTick j)) && true && true && true &&
    isInteger (JNum (acknowledgedEpoch j)) && isInteger (JNum (acknowledgedTick j)) = true).
  rewrite !isInteger_num, !andb_true_iff, !isSafeInteger_spec, Z.ltb_lt.
  rewrite (ji_key _ _ Hj), Ha. unfold MAX_SAFE_INTEGER in *. split_and!; try done; nia.
Qed.

Lemma captured_shape : snapshotShapeRefused v = false.
Proof using Hs Hp Hc Ht Hms.
  unfold snapshotShapeRefused.
  change (negb true || negb true || negb (isInteger (JNum ms)) || (ms <? 0) ||
    negb (hasBasicGameShape (game_value g)) || negb (hasBasicAuditShape (journal_value j)) = false).
  rewrite isInteger_num, captured_game_shape, captured_audit_shape.
  rewrite (safe_below ms MAX_SAFE_INTEGER) by lia. destruct (Z.ltb_spec ms 0); [lia|done].
Qed.

Lemma captured_journal : journalGameRefused (game_value g) (journal_value j) = false.
Proof using Hs Hp.
  unfold journalGameRefused.
  change (negb (journal_seed j =? seed g) ||
    negb (str_eqb (journal_playerId j) (player_id (player g))) ||
    negb (nextTick j =? tick g + 1) ||
    negb (length (map event_value (pending j)) =? 0)%nat = false).
  rewrite Hp, <- (si_seed _ _ _ Hs), Z.eqb_refl, <- (si_player _ _ _ Hs), str_eqb_refl.
  by rewrite (si_tick _ _ _ Hs), Z.eqb_refl.
Qed.

Lemma captured_chain_shape :
  chainShapeRefused (journal_value j) (hashString digest (genesisText (journal_value j))) = false.
Proof using Hs Hc.
  pose proof (si_journal _ _ _ Hs) as Hj. unfold chainShapeRefused.
  change (negb (str_eqb (genesisDigest j) (hashString digest (canonicalAuditGenesis
      (journal_seed j) (journal_playerId j) (journal_ownerPublicKey j)))) ||
    (length (map checkpoint_value (checkpoints j)) =? 0)%nat ||
    negb (length (map checkpoint_value (checkpoints j)) =?
          length (map segment_value (retainedSegments j)))%nat = false).
  rewrite <- (ji_genesis _ _ Hj), str_eqb_refl, !length_map.
  rewrite (chain_from_length _ _ _ _ _ _ _ (ji_chain _ _ Hj)), Nat.eqb_refl.
  rewrite <- (chain_from_length _ _ _ _ _ _ _ (ji_chain _ _ Hj)). by destruct (checkpoints j).
Qed.

Lemma captured_ack : ackRefused (journal_value j) = false.
Proof using Hs.
  pose proof (si_journal _ _ _ Hs) as Hj. pose proof (ji_ack _ _ Hj) as Ha.
  pose proof (ji_ackTick _ _ Hj) as Hat. unfold ackRefused. cbv zeta.
  change (elements_of (field (journal_value j) "checkpoints"))
    with (map checkpoint_value (checkpoints j)).
  change (number_of (field (journal_value j) "acknowledgedEpoch")) with (acknowledgedEpoch j).
  change (number_of (field (journal_value j) "acknowledgedTick")) with (acknowledgedTick j).
  rewrite length_map. destruct (Z.ltb_spec (acknowledgedEpoch j) (-1)); [lia|].
  destruct (Z.leb_spec (Z.of_nat (length (checkpoints j))) (acknowledgedEpoch j)); [lia|].
  cbn [orb]. rewrite negb_false_iff, Z.eqb_eq.
  destruct (Z.ltb_spec (acknowledgedEpoch j) 0); [rewrite Hat; replace (acknowledgedEpoch j) with (-1) by lia; lia|].
  destruct (lookup_lt_is_Some_2 (checkpoints j) (Z.to_nat (acknowledgedEpoch j)) ltac:(lia))
    as [c Hl].
  change (map checkpoint_value) with (fmap (M := list) checkpoint_value).
  rewrite list_lookup_fmap, Hl. cbn [fmap option_fmap option_map from_option].
  rewrite read_checkpoint_value.
  destruct (chain_from_lookup _ _ _ _ _ _ _ _ _ (ji_chain _ _ Hj) Hl) as (s & p & _ & Hse).
  rewrite (sealed_last _ _ _ _ _ _ _ Hse), Hat, Z2Nat.id by lia. lia.
Qed.

Lemma captured_last : exists c, last (checkpoints j) = Some c /\ lastTick c = tick g.
Proof using Hs Hp Hc.
  destruct captured_tick as [E Hl]. pose proof (si_journal _ _ _ Hs) as Hj.
  destruct (last (checkpoints j)) as [c|] eqn:El; [|by apply last_None in El].
  exists c. split; [done|]. rewrite last_lookup in El.
  destruct (chain_from_lookup _ _ _ _ _ _ _ _ _ (ji_chain _ _ Hj) El) as (s & p & _ & Hse).
  rewrite (sealed_last _ _ _ _ _ _ _ Hse), E.
  replace (Z.of_nat (length (checkpoints j)))
    with (Z.of_nat (pred (length (checkpoints j))) + 1) by lia. lia.
Qed.

Lemma captured_restores : restoreRunSnapshot v digest = Ok v.
Proof using Hs Hp Hc Ht Hms.
  pose proof (si_journal _ _ _ Hs) as Hj. destruct captured_tick as [E Hl].
  destruct captured_last as (c & El & Hlt). pose proof (ji_cadence _ _ Hj).
  unfold restoreRunSnapshot. rewrite captured_shape.
  change (field v "game") with (game_value g). change (field v "audit") with (journal_value j).
  cbv zeta. rewrite captured_journal, captured_chain_shape.
  change (number_of (field (journal_value j) "cadenceTicks")) with (cadenceTicks j).
  change (elements_of (field (journal_value j) "checkpoints"))
    with (map checkpoint_value (checkpoints j)).
  change (elements_of (field (journal_value j) "retainedSegments"))
    with (map segment_value (retainedSegments j)).
  change (string_of (field (journal_value j) "genesisDigest")) with (genesisDigest j).
  change (number_of (field (game_value g) "tick")) with (tick g).
  rewrite (checkChain_complete _ _ _ _ _ _ _ (ji_chain _ _ Hj)) by lia.
  change (map checkpoint_value) with (fmap (M := list) checkpoint_value).
  rewrite fmap_last, El.
  change (default JUndef (checkpoint_value <$> Some c)) with (checkpoint_value c).
  rewrite read_checkpoint_value, Hlt, Z.eqb_refl, <- E.
  replace (1 + tick g =? tick g + 1) with true by (symmetry; apply Z.eqb_eq; lia).
  cbn [negb orb]. rewrite canonicalGameStateRaw_value, (si_state _ _ _ Hs Hp c El), str_eqb_refl.
  cbn [negb]. by rewrite captured_ack.
Qed.

Lemma captured_creates : createRunSnapshot g j ms digest = inr (mkSnapshot ms g j).
Proof using Hs Hp Hc Ht Hms.
  destruct captured_last as (c & El & Hlt). destruct captured_tick as [_ Hl].
  unfold createRunSnapshot, captureRunSnapshot, throw_if.
  rewrite (safe_below ms MAX_SAFE_INTEGER) by lia. destruct (Z.ltb_spec ms 0); [lia|].
  rewrite Hp, El, Hlt, Z.eqb_refl. destruct (Nat.eqb_spec (length (checkpoints j)) 0); [lia|].
  cbn [negb orb length Nat.eqb throw_bind]. fold v. by rewrite captured_restores.
Qed.
End Capture.

(** A run can always be resumed from a checkpoint boundary: in every
    session with nothing pending and at least one checkpoint, the snapshot is
    created, and restoring the persisted value accepts it unchanged. *)
Theorem snapshot_roundtrip `{JsHost} digest g j ms :
  session digest g j -> pending j = [] -> checkpoints j <> [] ->
  tick g < MAX_SAFE_INTEGER -> 0 <= ms <= MAX_SAFE_INTEGER ->
  exists s, createRunSnapshot g j ms digest = inr s /\
    snapshot_game s = g /\ snapshot_audit s = j /\
    restoreRunSnapshot (snapshot_value s) digest = Ok (snapshot_value s).
Proof.
  intros Hs%session_invariant Hp Hc Ht Hms. exists (mkSnapshot ms g j).
  split_and!; [by apply captured_creates|done|done|by apply captured_restores].
Qed.

(** ** What restoring guarantees *)

(** The checkpoints and the segments a persisted value holds, as they are read. *)
Definition read_checkpoints (v : jsval) : list GameMicroCheckpoint :=
  map read_checkpoint (elements_of (field (field v "audit") "checkpoints")).
Definition read_segments (v : jsval) : list RetainedAuditSegment :=
  map read_segment (elements_of (field (field v "audit") "retainedSegments")).
Definition read_genesis (v : jsval) : jsstr :=
  string_of (field (field v "audit") "genesisDigest").
Definition read_tick (v : jsval) : Z := number_of (field (field v "game") "tick").
Definition read_cadence (v : jsval) : Z := number_of (field (field v "audit") "cadenceTicks").

Section Sound.
Context `{JsHost} (digest : AuditDigestAdapter).

(** A persisted value whose chain commits to its game. *)
Record committed (v : jsval) (c : GameMicroCheckpoint) (text : jsstr) : Prop := {
  committed_chain : chain_from digest (read_cadence v) (read_genesis v) 1 0
    (read_checkpoints v) (read_segments v);
  committed_genesis : read_genesis v = hashString digest (genesisText (field v "audit"));
  committed_last : last (read_checkpoints v) = Some c;
  committed_tick : lastTick c = read_tick v;
  committed_text : canonicalGameStateRaw (field v "game") = Some text;
  committed_state : stateDigest c = hashString digest text;
}.

Lemma last_read_checkpoint v :
  (length (elements_of (field (field v "audit") "checkpoints")) =? 0)%nat = false ->
  last (read_checkpoints v) =
    Some (read_checkpoint (default JUndef (last (elements_of (field (field v "audit") "checkpoints"))))).
Proof.
  intros Hn. unfold read_checkpoints.
  change (map read_checkpoint) with (fmap (M := list) read_checkpoint). rewrite fmap_last.
  destruct (last _) eqn:E; [done|]. apply last_None in E. by rewrite E in Hn.
Qed.

Lemma restore_committed v v' :
  restoreRunSnapshot v digest = Ok v' ->
  v' = v /\ journalGameRefused (field v "game") (field v "audit") = false /\
  ackRefused (field v "audit") = false /\ exists c text, committed v c text.
Proof.
  unfold restoreRunSnapshot. intros E. guards E. injection E as <-.
  unfold chainShapeRefused in Hg1. cbv zeta in Hg1.
  apply orb_false_iff in Hg1 as [Hg1 Hlen]. apply orb_false_iff in Hg1 as [Hgen Hne].
  bool_split. apply Nat.eqb_eq in Hlen. apply str_eqb_eq in Hgen, Hg3.
  apply checkChain_sound in Hr as [Hch _]; [|done].
  split_and!; [done..|]. eexists _, _. constructor; try done. by apply last_read_checkpoint.
Qed.
End Sound.

(** A persisted value that is restored is returned as it is and is
    internally consistent: its checkpoints and segments form the gap-free
    chain of the journal from its own genesis, the last checkpoint is at the
    game's tick and commits to the canonical text of the game it carries, and
    seed, player and next tick of the journal are the game's. *)
Theorem restore_sound `{JsHost} digest v v' :
  restoreRunSnapshot v digest = Ok v' ->
  v' = v /\
  number_of (field (field v "audit") "seed") = number_of (field (field v "game") "seed") /\
  string_of (field (field v "audit") "playerId")
    = string_of (field (field (field v "game") "player") "id") /\
  number_of (field (field v "audit") "nextTick") = read_tick v + 1 /\
  exists c text, committed digest v c text.
Proof.
  intros E. apply restore_committed in E as (-> & Hj & _ & Hc).
  unfold journalGameRefused in Hj. bool_split.
  split_and!; [done|done|by apply str_eqb_eq|done|done].
Qed.

(** ** Tamper evidence *)

Section Tamper.
Context `{JsHost} (digest : AuditDigestAdapter).

(** A collision of the hash or of the Merkle root between given texts and leaves. *)
Definition collision_between (texts texts' : list jsstr) (leaves leaves' : list (list jsstr))
    : Prop :=
  hash_collision (hashString digest) texts texts' \/
  hash_collision (merkleRoot digest) leaves leaves'.

Definition segment_leaves (s : RetainedAuditSegment) : list jsstr :=
  map canonicalPayload (events s).

Lemma hash_eq_or_collide a b texts texts' leaves leaves' :
  hashString digest a = hashString digest b -> a ∈ texts -> b ∈ texts' ->
  a = b \/ collision_between texts texts' leaves leaves'.
Proof.
  intros E Ha Hb. destruct (eq_or_collide _ _ _ _ _ E Ha Hb); [by left|]. by right; left.
Qed.

Lemma leaves_eq_or_collide l m texts texts' leaves leaves' :
  merkleRoot digest l = merkleRoot digest m -> l ∈ leaves -> m ∈ leaves' ->
  l = m \/ collision_between texts texts' leaves leaves'.
Proof.
  intros E Ha Hb. destruct (eq_or_collide _ _ _ _ _ E Ha Hb); [by left|]. by right; right.
Qed.

(** Sealed checkpoints with the same digest are equal and seal the same events. *)
Lemma sealed_binds cad cad' prev prev' t t' ep ep' c c' s s' texts texts' leaves leaves' :
  sealed digest cad prev t ep c s -> sealed digest cad' prev' t' ep' c' s' ->
  checkpointDigest c = checkpointDigest c' ->
  canonicalEnvelope c ∈ texts -> canonicalEnvelope c' ∈ texts' ->
  segment_leaves s ∈ leaves -> segment_leaves s' ∈ leaves' ->
  (c = c' /\ segment_leaves s = segment_leaves s' /\ prev = prev' /\ ep = ep' /\ cad = cad') \/
  collision_between texts texts' leaves leaves'.
Proof.
  intros Hs Hs' E Ht Ht' Hl Hl'.
  pose proof (sealed_digest _ _ _ _ _ _ _ Hs) as Ed.
  pose proof (sealed_digest _ _ _ _ _ _ _ Hs') as Ed'.
  destruct (hash_eq_or_collide (canonicalEnvelope c) (canonicalEnvelope c')
              texts texts' leaves leaves' ltac:(congruence) Ht Ht') as [Ee|]; [|by right].
  pose proof Ee as Ef.
  rewrite (sealed_envelope _ _ _ _ _ _ _ Hs), (sealed_envelope _ _ _ _ _ _ _ Hs') in Ef.
  apply envelope_inj in Ef. assert (c = c') as <-.
  { destruct c, c'. unfold envelope_fields in Ef. simpl in *. congruence. }
  destruct (leaves_eq_or_collide (segment_leaves s) (segment_leaves s')
              texts texts' leaves leaves') as [El|]; [|done|done| |by right].
  - unfold segment_leaves.
    rewrite <- (sealed_root _ _ _ _ _ _ _ Hs). apply (sealed_root _ _ _ _ _ _ _ Hs').
  - left. destruct Hs, Hs'. split_and!; congruence.
Qed.

Definition chain_texts (cps : list GameMicroCheckpoint) : list jsstr := map canonicalEnvelope cps.
Definition chain_leaves (segs : list RetainedAuditSegment) : list (list jsstr) :=
  map segment_leaves segs.

Lemma chain_snoc_inv cad prev t ep cps segs c :
  chain_from digest cad prev t ep (cps ++ [c]) segs ->
  exists segs' s, segs = segs' ++ [s] /\ chain_from digest cad prev t ep cps segs' /\
    sealed digest cad (chain_head prev cps) (t + cad * Z.of_nat (length cps))
      (ep + Z.of_nat (length cps)) c s.
Proof.
  revert prev t ep segs. induction cps as [|c0 cps IH]; intros prev t ep [|s0 segs]; simpl; try done.
  - destruct segs; [|by intros []]. intros [Hs _]. exists [], s0.
    rewrite Z.mul_0_r, !Z.add_0_r. by split_and!.
  - intros [Hs0 Hc]. destruct (IH _ _ _ _ Hc) as (segs' & s & -> & Hc' & Hs).
    exists (s0 :: segs'), s. split_and!; [done|done|done|].
    rewrite chain_head_cons.
    replace (t + cad * Z.of_nat (S (length cps))) with (t + cad + cad * Z.of_nat (length cps)) by lia.
    by replace (ep + Z.of_nat (S (length cps))) with (ep + 1 + Z.of_nat (length cps)) by lia.
Qed.

Lemma chains_bind cad cad' prev prev' cps cps' segs segs' texts texts' leaves leaves' :
  chain_from digest cad prev 1 0 cps segs -> chain_from digest cad' prev' 1 0 cps' segs' ->
  cps <> [] -> cps' <> [] -> chain_head prev cps = chain_head prev' cps' ->
  chain_texts cps ⊆ texts -> chain_texts cps' ⊆ texts' ->
  chain_leaves segs ⊆ leaves -> chain_leaves segs' ⊆ leaves' ->
  (cps = cps' /\ chain_leaves segs = chain_leaves segs' /\ prev = prev' /\ cad = cad') \/
  collision_between texts texts' leaves leaves'.
Proof.
  revert cps' segs segs'. induction cps as [|c l IH] using rev_ind; [done|].
  intros cps' segs segs' Hch Hch' _ Hne' E Ht Ht' Hl Hl'.
  destruct (exists_last Hne') as (l' & c' & ->). clear Hne'.
  apply chain_snoc_inv in Hch as (g1 & s & -> & Hch & Hs).
  apply chain_snoc_inv in Hch' as (g1' & s' & -> & Hch' & Hs').
  unfold chain_head in E. rewrite !last_snoc in E.
  unfold chain_texts, chain_leaves in *. rewrite map_app in Ht, Ht', Hl, Hl'. simpl in *.
  assert (Hsub : forall (A : Type) (x : A) (a b : list A), a ++ [x] ⊆ b -> a ⊆ b /\ x ∈ b) by set_solver.
  apply Hsub in Ht as [Ht Hc], Ht' as [Ht' Hc'], Hl as [Hl Hg], Hl' as [Hl' Hg'].
  destruct (sealed_binds _ _ _ _ _ _ _ _ _ _ _ _ texts texts' leaves leaves' Hs Hs' E Hc Hc' Hg Hg')
    as [(-> & Es & Eh & Elen & Ecad)|]; [|by right].
  rewrite !map_app. simpl. rewrite Es.
  destruct l as [|c0 l0], l' as [|c0' l0']; try (simpl in Elen; lia).
  - destruct g1, g1'; try done. by left.
  - destruct (IH (c0' :: l0') g1 g1') as [(-> & -> & -> & ->)|]; try done; [by left|by right].
Qed.

(** Everything that is hashed when a persisted value is restored. *)
Definition hashed_texts (v : jsval) : list jsstr :=
  genesisText (field v "audit") :: option_list (canonicalGameStateRaw (field v "game")) ++
  chain_texts (read_checkpoints v).
Definition hashed_leaves (v : jsval) : list (list jsstr) := chain_leaves (read_segments v).

Lemma hashed_chain v : chain_texts (read_checkpoints v) ⊆ hashed_texts v.
Proof. intros x Hx. right. apply elem_of_app. by right. Qed.

Lemma committed_bind v v' c c' text text' :
  committed digest v c text -> committed digest v' c' text' ->
  checkpointDigest c = checkpointDigest c' ->
  (read_checkpoints v = read_checkpoints v' /\
   chain_leaves (read_segments v) = chain_leaves (read_segments v') /\
   genesisText (field v "audit") = genesisText (field v' "audit") /\ text = text') \/
  collision_between (hashed_texts v) (hashed_texts v') (hashed_leaves v) (hashed_leaves v').
Proof.
  intros [Hch Hge Hla Hti Hte Hst] [Hch' Hge' Hla' Hti' Hte' Hst'] E.
  destruct (chains_bind _ _ _ _ _ _ _ _ (hashed_texts v) (hashed_texts v')
              (hashed_leaves v) (hashed_leaves v') Hch Hch') as [(Ec & El & Eg & _)|];
    try done; try (by right); try apply hashed_chain.
  - intros Hn. by rewrite Hn in Hla.
  - intros Hn. by rewrite Hn in Hla'.
  - unfold chain_head. by rewrite Hla, Hla'.
  - rewrite <- Ec, Hla in Hla'. injection Hla' as <-.
    destruct (hash_eq_or_collide text text' (hashed_texts v) (hashed_texts v')
                (hashed_leaves v) (hashed_leaves v')) as [->|]; [congruence| | | |by right].
    1-2: unfold hashed_texts; rewrite ?Hte, ?Hte'; right; left.
    destruct (hash_eq_or_collide (genesisText (field v "audit")) (genesisText (field v' "audit"))
                (hashed_texts v) (hashed_texts v') (hashed_leaves v) (hashed_leaves v'))
      as [->|]; [congruence| | | |by right].
    1-2: left.
    by left.
Qed.
End Tamper.

(** C10: the last checkpoint digest pins the whole run.  Two persisted values
    that restore and end in the same digest have the same checkpoints, the same
    event payloads in every segment, the same genesis text (seed, player and
    owner key) and the same canonical game state, unless the two values
    themselves contain two different texts with the same hash or two different
    leaf lists with the same Merkle root. *)
Theorem snapshots_tamper_evident `{JsHost} digest v v' c c' :
  restoreRunSnapshot v digest = Ok v -> restoreRunSnapshot v' digest = Ok v' ->
  last (read_checkpoints v) = Some c -> last (read_checkpoints v') = Some c' ->
  checkpointDigest c = checkpointDigest c' ->
  (read_checkpoints v = read_checkpoints v' /\
   chain_leaves (read_segments v) = chain_leaves (read_segments v') /\
   genesisText (field v "audit") = genesisText (field v' "audit") /\
   canonicalGameStateRaw (field v "game") = canonicalGameStateRaw (field v' "game")) \/
  collision_between digest (hashed_texts v) (hashed_texts v') (hashed_leaves v) (hashed_leaves v').
Proof.
  intros Hr Hr' Hc Hc' E.
  apply restore_committed in Hr as (_ & _ & _ & d & text & Hv).
  apply restore_committed in Hr' as (_ & _ & _ & d' & text' & Hv').
  rewrite (committed_last _ _ _ _ Hv) in Hc. rewrite (committed_last _ _ _ _ Hv') in Hc'.
  injection Hc as ->. injection Hc' as ->.
  destruct (committed_bind digest _ _ _ _ _ _ Hv Hv' E) as [(? & ? & ? & ->)|]; [left|by right].
  by rewrite (committed_text _ _ _ _ Hv), (committed_text _ _ _ _ Hv').
Qed.

(** ** Asynchronous restoring *)

Lemma checkChainAsync_agrees `{JsHost} async sync cad cps segs ep t prev :
  resolves async sync ->
  checkChainAsync async cad cps segs ep t prev = Some (checkChain sync cad cps segs ep t prev).
Proof.
  intros [Hh Hm]. revert segs ep t prev. induction cps as [|rawC cps IH];
    intros [|rawS segs] ep t prev; cbn [checkChainAsync checkChain]; try done.
  cbv zeta. destruct (linkRefused _ _ _ _ _ _); [done|].
  destruct (checkEventTicks _ _); [|done]. rewrite Hm. cbn [mbind option_bind].
  destruct (negb _); [done|]. destruct (assetsRefused _ _); [done|].
  destruct (negb (str_eqb _ (canonicalEnvelope _))); [done|]. rewrite Hh.
  cbn [mbind option_bind orb]. destruct (negb _); [done|]. apply IH.
Qed.

(** Over an asynchronous backend that resolves to the values of a
    synchronous one, restoring and creating snapshots give exactly the results
    of the synchronous operations, on every persisted value. *)
Theorem async_snapshot_agrees `{JsHost} async sync v g j ms :
  resolves async sync ->
  restoreRunSnapshotAsync v async = Some (restoreRunSnapshot v sync) /\
  createRunSnapshotAsync g j ms async =
    match createRunSnapshot g j ms sync with inl e => inl e | inr s => inr (Some s) end.
Proof.
  intros Hr.
  assert (Hrestore : forall w, restoreRunSnapshotAsync w async = Some (restoreRunSnapshot w sync)).
  { intros w. unfold restoreRunSnapshotAsync, restoreRunSnapshot. pose proof Hr as [Hh _].
    destruct (snapshotShapeRefused w); [done|]. cbv zeta.
    destruct (journalGameRefused _ _); [done|]. rewrite Hh. cbn [mbind option_bind].
    destruct (chainShapeRefused _ _); [done|].
    rewrite (checkChainAsync_agrees _ sync) by done. cbn [mbind option_bind].
    destruct (checkChain _ _ _ _ _ _ _); [|done]. destruct (_ || _); [done|].
    destruct (canonicalGameStateRaw _); cbn [mbind option_bind]; [|done]. rewrite Hh.
    destruct (negb _); [done|]. by destruct (ackRefused _). }
  split; [apply Hrestore|]. unfold createRunSnapshotAsync, createRunSnapshot.
  destruct (captureRunSnapshot g j ms); cbn [throw_bind]; [done|]. rewrite Hrestore.
  by destruct (restoreRunSnapshot _ _).
Qed.

(** ** Witnesses *)

Lemma snapshot_roundtrip_witness : exists s,
  createRunSnapshot (H := code_unit_host) demo_played.1 demo_played.2 1000 demo_digest = inr s /\
  restoreRunSnapshot (H := code_unit_host) (snapshot_value s) demo_digest
  = Ok (snapshot_value s).
Proof.
  destruct (snapshot_roundtrip (H := code_unit_host) demo_digest demo_played.1 demo_played.2 1000
              demo_played_session) as (s & Hc & _ & _ & Hr).
  - vm_compute. reflexivity.
  - vm_compute. discriminate.
  - vm_compute. reflexivity.
  - vm_compute. split; discriminate.
  - exists s. split; assumption.
Defined.

(** The persisted demonstration run. *)
Definition demo_snapshot : jsval :=
  snapshot_value (mkSnapshot 1000 demo_played.1 demo_played.2).

Lemma demo_snapshot_restores :
  restoreRunSnapshot (H := code_unit_host) demo_snapshot demo_digest = Ok demo_snapshot.
Proof. vm_compute. reflexivity. Qed.

Lemma restore_sound_witness : exists c text,
  committed (H := code_unit_host) demo_digest demo_snapshot c text /\ read_tick demo_snapshot = 30.
Proof.
  destruct (restore_sound (H := code_unit_host) demo_digest demo_snapshot demo_snapshot
              demo_snapshot_restores) as (_ & _ & _ & _ & c & text & Hc).
  exists c, text. split; [exact Hc|]. vm_compute. reflexivity.
Defined.

(** The same run persisted a second later. *)
Definition demo_later : jsval :=
  snapshot_value (mkSnapshot 2000 demo_played.1 demo_played.2).
Definition demo_last : GameMicroCheckpoint :=
  default (mkCheckpoint 0 0 0 0 [] [] [] [] [] []) (last (read_checkpoints demo_snapshot)).

Lemma snapshots_tamper_evident_witness :
  read_checkpoints demo_snapshot = read_checkpoints demo_later \/
  collision_between demo_digest (hashed_texts (H := code_unit_host) demo_snapshot)
    (hashed_texts (H := code_unit_host) demo_later)
    (hashed_leaves demo_snapshot) (hashed_leaves demo_later).
Proof.
  destruct (snapshots_tamper_evident (H := code_unit_host) demo_digest demo_snapshot demo_later
              demo_last demo_last demo_snapshot_restores) as [(E & _)|E].
  - vm_compute. reflexivity.
  - vm_compute. reflexivity.
  - vm_compute. reflexivity.
  - reflexivity.
  - left. exact E.
  - right. exact E.
Defined.

Lemma async_snapshot_agrees_witness :
  restoreRunSnapshotAsync (H := code_unit_host) demo_snapshot demo_async_digest
  = Some (Ok demo_snapshot).
Proof.
  rewrite <- demo_snapshot_restores.
  apply (async_snapshot_agrees (H := code_unit_host) demo_async_digest demo_digest demo_snapshot
           demo_game demo_journal 0).
  split; reflexivity.
Defined.
