(* ===== verification/Utf8.v ===== *)
(** * UTF-8

    [TextEncoder] and the fatal [TextDecoder] of the platform, as the encoding
    standard defines them: code units to scalar values, scalar values to bytes
    and back, and the round trip on the texts [JSON.stringify] produces. *)
From S2P Require Import Prelude Json.
Set Default Goal Selector "!".
Local Open Scope N_scope.

(** ** Code units and scalar values *)

(** A lone surrogate is read as U+FFFD. *)
Fixpoint scalar_values (s : jsstr) : list N :=
  match s with
  | [] => []
  | c :: r =>
      if is_high c then
        match r with
        | d :: r' =>
            if is_low d then (65536 + (c - 55296) * 1024 + (d - 56320)) :: scalar_values r'
            else 65533 :: scalar_values r
        | [] => [65533]
        end
      else if is_low c then 65533 :: scalar_values r
      else c :: scalar_values r
  end.

Definition utf16_units (p : N) : jsstr :=
  if p <? 65536 then [p] else [55296 + (p - 65536) / 1024; 56320 + (p - 65536) mod 1024].

(** ** Encoding *)

Definition utf8_bytes (p : N) : list N :=
  if p <? 128 then [p]
  else if p <? 2048 then [192 + p / 64; 128 + p mod 64]
  else if p <? 65536 then [224 + p / 4096; 128 + p / 64 mod 64; 128 + p mod 64]
  else [240 + p / 262144; 128 + p / 4096 mod 64; 128 + p / 64 mod 64; 128 + p mod 64].

(** [encoder.encode(s)]. *)
Definition utf8_encode (s : jsstr) : list N := flat_map utf8_bytes (scalar_values s).

(** ** Decoding *)

Definition continuation (b : N) : bool := (128 <=? b) && (b <=? 191).
Definition surrogate (p : N) : bool := (55296 <=? p) && (p <=? 57343).

(** The scalar values of a byte sequence; [None] where the decoder throws. *)
Fixpoint utf8_scalars (bytes : list N) : option (list N) :=
  match bytes with
  | [] => Some []
  | b :: r =>
      if b <? 128 then cons b <$> utf8_scalars r
      else if (194 <=? b) && (b <=? 223) then
        match r with
        | c1 :: r1 =>
            if continuation c1
            then cons ((b - 192) * 64 + (c1 - 128)) <$> utf8_scalars r1 else None
        | _ => None
        end
      else if (224 <=? b) && (b <=? 239) then
        match r with
        | c1 :: c2 :: r2 =>
            let p := (b - 224) * 4096 + (c1 - 128) * 64 + (c2 - 128) in
            if continuation c1 && continuation c2 && (2048 <=? p) && negb (surrogate p)
            then cons p <$> utf8_scalars r2 else None
        | _ => None
        end
      else if (240 <=? b) && (b <=? 244) then
        match r with
        | c1 :: c2 :: c3 :: r3 =>
            let p := (b - 240) * 262144 + (c1 - 128) * 4096 + (c2 - 128) * 64 + (c3 - 128) in
            if continuation c1 && continuation c2 && continuation c3 && (65536 <=? p) &&
               (p <=? 1114111)
            then cons p <$> utf8_scalars r3 else None
        | _ => None
        end
      else None
  end.

(** A leading byte order mark is dropped. *)
Definition strip_bom (bytes : list N) : list N :=
  match bytes with
  | b1 :: b2 :: b3 :: r =>
      if (b1 =? 239) && (b2 =? 187) && (b3 =? 191) then r else bytes
  | _ => bytes
  end.

(** [new TextDecoder("utf-8", { fatal: true }).decode(bytes)]. *)
Definition utf8_decode (bytes : list N) : option jsstr :=
  flat_map utf16_units <$> utf8_scalars (strip_bom bytes).

(** ** Round trip *)

(** No lone surrogate. *)
Fixpoint well_formed (s : jsstr) : bool :=
  match s with
  | [] => true
  | c :: r =>
      if is_high c then match r with d :: r' => is_low d && well_formed r' | [] => false end
      else negb (is_low c) && well_formed r
  end.

Definition unit_range (s : jsstr) : Prop := Forall (fun c => c < 65536) s.
Definition scalar (p : N) : Prop := p <= 1114111 /\ surrogate p = false.

Lemma surrogate_split c : surrogate c = is_high c || is_low c.
Proof.
  unfold surrogate, is_high, is_low.
  destruct (N.leb_spec 55296 c), (N.leb_spec c 57343), (N.leb_spec c 56319), (N.leb_spec 56320 c);
    simpl; try reflexivity; lia.
Qed.

(** Induction over the characters of a string. *)
Lemma units_ind (P : jsstr -> Prop) :
  P [] -> (forall c r, is_high c = false -> P r -> P (c :: r)) ->
  (forall c, is_high c = true -> P [c]) ->
  (forall c d r, is_high c = true -> P r -> P (d :: r) -> P (c :: d :: r)) ->
  forall s, P s.
Proof.
  intros H0 H1 H2 H3 s. enough (P s /\ forall c, P (c :: s)) by tauto.
  induction s as [|d r [IH IHc]].
  - split; [done|]. intros c. destruct (is_high c) eqn:E; [by apply H2|by apply H1].
  - split; [apply IHc|]. intros c. destruct (is_high c) eqn:E; [by apply H3|by apply H1].
Qed.

Lemma scalar_values_units s :
  well_formed s = true -> unit_range s -> flat_map utf16_units (scalar_values s) = s.
Proof.
  induction s as [|c r Hc IH|c Hc|c d r Hc IH _] using units_ind; intros Hw Hr; [done| |simpl in Hw..].
  - simpl in *. rewrite Hc in *. apply andb_true_iff in Hw as [Hl Hw]. apply negb_true_iff in Hl.
    rewrite Hl. apply Forall_cons in Hr as [Hcr Hr]. cbn [flat_map].
    rewrite IH by done. unfold utf16_units. destruct (N.ltb_spec c 65536); [done|lia].
  - by rewrite Hc in Hw.
  - rewrite Hc in Hw. apply andb_true_iff in Hw as [Hl Hw].
    apply Forall_cons in Hr as [_ Hr]. apply Forall_cons in Hr as [_ Hr].
    cbn [scalar_values]. rewrite Hc, Hl. cbn [flat_map]. rewrite IH by done.
    unfold is_high, is_low in *. apply andb_true_iff in Hc as [H1 H2], Hl as [H3 H4].
    apply N.leb_le in H1, H2, H3, H4. unfold utf16_units.
    destruct (N.ltb_spec (65536 + (c - 55296) * 1024 + (d - 56320)) 65536); [lia|].
    replace (65536 + (c - 55296) * 1024 + (d - 56320) - 65536) with ((d - 56320) + (c - 55296) * 1024)
      by lia.
    rewrite N.div_add, N.Div0.mod_add, N.div_small, N.mod_small by lia. cbn [app]. f_equal; [lia|].
    f_equal. lia.
Qed.

Lemma scalar_values_scalar s : unit_range s -> Forall scalar (scalar_values s).
Proof.
  assert (Hr : scalar 65533) by (split; [lia|reflexivity]).
  induction s as [|c r Hc IH|c Hc|c d r Hc IH IHd] using units_ind; intros Hu; [constructor| | |].
  - apply Forall_cons in Hu as [Hcu Hu]. cbn [scalar_values]. rewrite Hc.
    destruct (is_low c) eqn:El; constructor; auto.
    split; [lia|]. by rewrite surrogate_split, Hc, El.
  - cbn [scalar_values]. rewrite Hc. by repeat constructor.
  - apply Forall_cons in Hu as [_ Hu].
    change (Forall scalar (if is_high c then
      if is_low d then (65536 + (c - 55296) * 1024 + (d - 56320)) :: scalar_values r
      else 65533 :: scalar_values (d :: r)
      else if is_low c then 65533 :: scalar_values (d :: r) else c :: scalar_values (d :: r))).
    rewrite Hc. destruct (is_low d) eqn:El; [|constructor; auto].
    apply Forall_cons in Hu as [_ Hu]. constructor; [|auto]. unfold is_high, is_low in *.
    apply andb_true_iff in Hc as [H1 H2], El as [H3 H4]. apply N.leb_le in H1, H2, H3, H4.
    split; [lia|]. unfold surrogate. apply andb_false_iff. right. apply N.leb_gt. lia.
Qed.

(** The four lengths of an encoded scalar value. *)
Lemma utf8_bytes_decode p rest :
  scalar p -> utf8_scalars (utf8_bytes p ++ rest) = cons p <$> utf8_scalars rest.
Proof.
  intros [Hp Hs]. unfold utf8_bytes.
  destruct (N.ltb_spec p 128) as [L1|L1].
  { cbn [app utf8_scalars]. by rewrite (proj2 (N.ltb_lt _ _) L1). }
  pose proof (N.mod_lt p 64 ltac:(lia)). pose proof (N.div_mod p 64 ltac:(lia)).
  assert (Hcont : forall x, x < 64 -> continuation (128 + x) = true).
  { intros x Hx. unfold continuation. apply andb_true_iff. rewrite !N.leb_le. lia. }
  destruct (N.ltb_spec p 2048) as [L2|L2].
  { cbn [app utf8_scalars].
    rewrite (proj2 (N.ltb_ge _ _)), (proj2 (N.leb_le 194 _)), (proj2 (N.leb_le _ 223)), Hcont by lia.
    cbn [andb]. do 2 f_equal. lia. }
  pose proof (N.mod_lt (p / 64) 64 ltac:(lia)). pose proof (N.div_mod (p / 64) 64 ltac:(lia)) as Hd2.
  rewrite N.Div0.div_div in Hd2. change (64 * 64) with 4096 in Hd2.
  destruct (N.ltb_spec p 65536) as [L3|L3].
  { cbn [app utf8_scalars].
    rewrite (proj2 (N.ltb_ge _ _)), (proj2 (N.leb_gt _ 223)), andb_false_r, (proj2 (N.leb_le 224 _)),
      (proj2 (N.leb_le _ 239)), !Hcont by lia.
    cbn [andb]. cbv zeta.
    replace ((224 + p / 4096 - 224) * 4096 + (128 + p / 64 mod 64 - 128) * 64 + (128 + p mod 64 - 128))
      with p by lia.
    rewrite (proj2 (N.leb_le 2048 p)), Hs by lia. done. }
  pose proof (N.mod_lt (p / 4096) 64 ltac:(lia)).
  pose proof (N.div_mod (p / 4096) 64 ltac:(lia)) as Hd3.
  rewrite N.Div0.div_div in Hd3. change (4096 * 64) with 262144 in Hd3.
  cbn [app utf8_scalars].
  rewrite (proj2 (N.ltb_ge (240 + p / 262144) 128)) by lia.
  rewrite (proj2 (N.leb_gt (240 + p / 262144) 223)), (proj2 (N.leb_gt (240 + p / 262144) 239)) by lia.
  rewrite !andb_false_r, (proj2 (N.leb_le 240 (240 + p / 262144))) by lia.
  rewrite (proj2 (N.leb_le (240 + p / 262144) 244)) by lia. rewrite !Hcont by lia.
  cbn [andb]. cbv zeta.
  replace ((240 + p / 262144 - 240) * 262144 + (128 + p / 4096 mod 64 - 128) * 4096 +
           (128 + p / 64 mod 64 - 128) * 64 + (128 + p mod 64 - 128)) with p by lia.
  by rewrite (proj2 (N.leb_le 65536 p)), (proj2 (N.leb_le p 1114111)) by lia.
Qed.

Lemma utf8_scalars_encode l : Forall scalar l -> utf8_scalars (flat_map utf8_bytes l) = Some l.
Proof.
  induction 1 as [|p l Hp _ IH]; [done|]. cbn [flat_map]. by rewrite utf8_bytes_decode, IH.
Qed.

(** A text that starts with an ASCII character has no byte order mark. *)
Lemma strip_bom_ascii c r : c < 128 -> strip_bom (utf8_encode (c :: r)) = utf8_encode (c :: r).
Proof.
  intros Hc. unfold utf8_encode. cbn [scalar_values].
  assert (Hh : is_high c = false).
  { unfold is_high. apply andb_false_iff. left. apply N.leb_gt. lia. }
  assert (Hl : is_low c = false).
  { unfold is_low. apply andb_false_iff. left. apply N.leb_gt. lia. }
  rewrite Hh, Hl. cbn [flat_map].
  replace (utf8_bytes c) with [c] by (unfold utf8_bytes; by rewrite (proj2 (N.ltb_lt _ _) Hc)).
  cbn [app]. unfold strip_bom.
  destruct (flat_map utf8_bytes (scalar_values r)) as [|b2 [|b3 l]]; [reflexivity..|].
  rewrite (proj2 (N.eqb_neq c 239)) by lia. reflexivity.
Qed.

(** Decoding what was encoded, for a well-formed text that starts with an
    ASCII character. *)
Lemma utf8_roundtrip c r :
  c < 128 -> well_formed (c :: r) = true -> unit_range (c :: r) ->
  utf8_decode (utf8_encode (c :: r)) = Some (c :: r).
Proof.
  intros Hc Hw Hu. unfold utf8_decode. rewrite strip_bom_ascii by done. unfold utf8_encode.
  rewrite utf8_scalars_encode by (by apply scalar_values_scalar). cbn [fmap option_fmap option_map].
  f_equal. by apply scalar_values_units.
Qed.

(** ** Texts of [JSON.stringify] *)

Lemma well_formed_app a b :
  well_formed a = true -> well_formed b = true -> well_formed (a ++ b) = true.
Proof.
  induction a as [|c r Hc IH|c Hc|c d r Hc IH _] using units_ind; intros Ha Hb; [done| | |].
  - simpl in *. rewrite Hc in *. apply andb_true_iff in Ha as [-> Ha]. by rewrite IH.
  - simpl in Ha. by rewrite Hc in Ha.
  - simpl in *. rewrite Hc in *. apply andb_true_iff in Ha as [-> Ha]. by rewrite IH.
Qed.

Definition ascii_text (s : jsstr) : bool := forallb (fun c => c <? 128) s.

Lemma ascii_plain c : c < 128 -> is_high c = false /\ is_low c = false.
Proof.
  intros Hc. unfold is_high, is_low. split; apply andb_false_iff; left; apply N.leb_gt; lia.
Qed.

Lemma ascii_well_formed s : ascii_text s = true -> well_formed s = true /\ unit_range s.
Proof.
  induction s as [|c s IH]; intros Ha; [by split; [|constructor]|]. simpl in *.
  apply andb_true_iff in Ha as [Hc Ha]. apply N.ltb_lt in Hc.
  destruct (IH Ha) as [Hw Hu], (ascii_plain c Hc) as [-> ->]. split; [done|].
  constructor; [lia|done].
Qed.

(** A text that survives the byte encoding. *)
Definition encodable (s : jsstr) : Prop := well_formed s = true /\ unit_range s.

Lemma encodable_app a b : encodable a -> encodable b -> encodable (a ++ b).
Proof.
  intros [??] [??]. split; [by apply well_formed_app|]. by apply Forall_app.
Qed.

Lemma encodable_ascii s : ascii_text s = true -> encodable s.
Proof. apply ascii_well_formed. Qed.

Lemma encodable_join sep l : encodable sep -> Forall encodable l -> encodable (join sep l).
Proof.
  intros Hs Hl. induction Hl as [|x l Hx Hl IH]; [by split; [|constructor]|].
  destruct l as [|y l]; [done|]. cbn [join]. apply encodable_app; [done|].
  by apply encodable_app.
Qed.

Lemma digit_unit_ascii d : d < 16 -> digit_unit d <? 128 = true.
Proof. intros Hd. unfold digit_unit. apply N.ltb_lt. destruct (N.ltb_spec d 10); lia. Qed.

Lemma quote_unit_encodable c : c < 65536 -> encodable (quote_unit c).
Proof.
  intros Hc. unfold quote_unit. repeat (case_match; [by apply encodable_ascii|]).
  assert (Hesc : encodable (unicode_escape c)).
  { apply encodable_ascii. unfold ascii_text, unicode_escape. cbn [forallb].
    by rewrite !digit_unit_ascii by (apply N.mod_lt; lia). }
  case_match; [done|]. case_match eqn:Es; [done|]. apply orb_false_iff in Es as [Eh El].
  split; [|by repeat constructor]. cbn [well_formed]. by rewrite Eh, El.
Qed.

Lemma quote_body_encodable s : unit_range s -> encodable (quote_body s).
Proof.
  induction s as [|c r Hc IH|c Hc|c d r Hc IH IHd] using units_ind; intros Hu.
  - split; [done|constructor].
  - apply Forall_cons in Hu as [Hcu Hu].
    replace (quote_body (c :: r)) with (quote_unit c ++ quote_body r).
    + apply encodable_app; [by apply quote_unit_encodable|by apply IH].
    + destruct r as [|d r]; cbn [quote_body]; [by rewrite app_nil_r|]. by rewrite Hc.
  - apply Forall_cons in Hu as [Hcu Hu]. by apply quote_unit_encodable.
  - apply Forall_cons in Hu as [Hcu Hu].
    change (encodable (if is_high c && is_low d then c :: d :: quote_body r
                       else quote_unit c ++ quote_body (d :: r))).
    rewrite Hc. cbn [andb]. destruct (is_low d) eqn:El.
    + apply Forall_cons in Hu as [Hdu Hu]. destruct (IH Hu) as [Hw Hr].
      split; [|by repeat constructor]. cbn [well_formed]. by rewrite Hc, El.
    + apply encodable_app; [by apply quote_unit_encodable|by apply IHd].
Qed.

(** Values whose text survives the byte encoding; non-integral numbers, which
    the texts of the program do not use, are left out. *)
Fixpoint text_ok (v : jsval) : bool :=
  match v with
  | JUndef | JNull | JBool _ | JNum _ => true
  | JStr s => forallb (fun c => c <? 65536) s
  | JArr l => forallb text_ok l
  | JObj o => forallb (fun kv => forallb (fun c => c <? 65536) (fst kv) && text_ok (snd kv)) o
  | JFloat _ => false
  end.

Lemma digits_ascii n : ascii_text (digits 10 n) = true.
Proof.
  apply forallb_forall. intros c Hc. pose proof (digits_decimal n) as Hd.
  rewrite Forall_forall in Hd. apply list_elem_of_In, Hd in Hc. unfold is_decimal in Hc.
  apply andb_true_iff in Hc as [_ Hc]. apply N.leb_le in Hc. apply N.ltb_lt. lia.
Qed.

Lemma num_to_string_ascii z : ascii_text (num_to_string z) = true.
Proof. unfold num_to_string. case_match; [|apply digits_ascii]. simpl. apply digits_ascii. Qed.

Lemma quote_encodable s : forallb (fun c => c <? 65536) s = true -> encodable (quote s).
Proof.
  intros Ht. unfold quote. change (34 :: quote_body s ++ [34]) with ([34] ++ quote_body s ++ [34]).
  apply encodable_app; [by apply encodable_ascii|].
  apply encodable_app; [|by apply encodable_ascii]. apply quote_body_encodable.
  rewrite forallb_forall in Ht. apply Forall_forall. intros c Hc.
  apply list_elem_of_In, Ht, N.ltb_lt in Hc. done.
Qed.

Lemma stringify_encodable v : text_ok v = true -> encodable (stringify v).
Proof.
  induction v as [| |b|z|r|s|l IH|o IH] using jsval_ind'; intros Ht; try done.
  1-2: by apply encodable_ascii.
  - destruct b; by apply encodable_ascii.
  - apply encodable_ascii, num_to_string_ascii.
  - by apply quote_encodable.
  - cbn [stringify]. apply encodable_app; [by apply encodable_ascii|].
    apply encodable_app; [|by apply encodable_ascii].
    apply encodable_join; [by apply encodable_ascii|]. rewrite List.Forall_map.
    cbn [text_ok] in Ht. rewrite forallb_forall in Ht. rewrite Forall_forall in *.
    intros v Hv. apply IH; [done|]. by apply Ht, list_elem_of_In.
  - cbn [stringify]. apply encodable_app; [by apply encodable_ascii|].
    apply encodable_app; [|by apply encodable_ascii].
    apply encodable_join; [by apply encodable_ascii|].
    cbn [text_ok] in Ht. rewrite forallb_forall in Ht. rewrite Forall_forall in IH.
    apply Forall_forall. intros t Ht'. apply list_elem_of_In, in_flat_map in Ht' as ([k v] & Hkv & Hin).
    apply Ht in Hkv as Hk. apply andb_true_iff in Hk as [Hk Hv]. cbn [fst snd] in *.
    apply list_elem_of_In, IH in Hkv; [|done].
    assert (Ht' : t = quote k ++ js ":" ++ stringify v) by (destruct v; cbn in Hin; naive_solver).
    rewrite Ht'. apply encodable_app; [by apply quote_encodable|].
    apply encodable_app; [by apply encodable_ascii|done].
Qed.
