(* ===== verification/OwnerAuth.v ===== *)
(** * Owner authentication

    [game/authority/owner-authentication.ts]: the texts an owner signs to
    settle an item, list it, cancel a listing or transfer it, and their
    signing and verification.  The digest backend, the signer and the
    signature verifier are not part of the repository's TypeScript: they are
    arguments.  A promise is an option whose [None] is a rejection by the
    backend; an [Error] thrown by an asynchronous function is [Some (inl _)]. *)
From S2P Require Import Prelude Json.
Set Default Goal Selector "!".

(** [hashString]. *)
Definition GameOwnerDigestAdapter := jsstr -> jsstr.
Definition AsyncGameOwnerDigestAdapter := jsstr -> option jsstr.

(** [verify(publicKey, digest, signature)]. *)
Definition GameOwnerSignatureVerifier := jsstr -> jsstr -> jsstr -> bool.
Definition AsyncGameOwnerSignatureVerifier := jsstr -> jsstr -> jsstr -> option bool.

Record GameOwnerSigner := mkSigner {
  signer_publicKey : jsstr;
  signDigest : jsstr -> jsstr;
}.
Record AsyncGameOwnerSigner := mkAsyncSigner {
  async_signer_publicKey : jsstr;
  signDigestAsync : jsstr -> option jsstr;
}.

Record GameItemOwnerProofBoundary := mkOwnerBoundary {
  ob_playerId : jsstr;
  ob_seed : Z;
  ob_checkpointDigest : jsstr;
  ob_assetId : jsstr;
  ob_ownerPublicKey : jsstr;
}.

Record GameMarketListingProofBoundary := mkListingBoundary {
  lb_assetId : jsstr;
  lb_sellerId : jsstr;
  lb_authorityReceiptId : jsstr;
  lb_ownerPublicKey : jsstr;
  lb_ownerVersion : Z;
  lb_ownerHeadId : jsstr;
  lb_listingNonce : jsstr;
}.

Record GameMarketListingCancelProofBoundary := mkCancelBoundary {
  cb_listing : GameMarketListingProofBoundary;
  cb_listingId : jsstr;
}.

Record GameItemTransferProofBoundary := mkTransferBoundary {
  tb_assetId : jsstr;
  tb_authorityReceiptId : jsstr;
  tb_previousHeadId : jsstr;
  tb_fromOwnerId : jsstr;
  tb_fromOwnerPublicKey : jsstr;
  tb_toOwnerId : jsstr;
  tb_toOwnerPublicKey : jsstr;
  tb_previousVersion : Z;
  tb_nextVersion : Z;
}.


(** ** Item settlement *)

Definition canonicalGameItemOwnerProof (unit : jsstr) (boundary : GameItemOwnerProofBoundary) : jsstr :=
  stringify (JArr [JStr (js "audit-survivors-item-owner-proof-v1"); JStr unit;
    JStr (ob_playerId boundary); JNum (js_shr (ob_seed boundary) 0);
    JStr (ob_checkpointDigest boundary); JStr (ob_assetId boundary);
    JStr (ob_ownerPublicKey boundary)]).

Definition gameItemOwnerProofDigest (unit : jsstr) (boundary : GameItemOwnerProofBoundary)
    (digest : GameOwnerDigestAdapter) : jsstr :=
  digest (canonicalGameItemOwnerProof unit boundary).
Definition gameItemOwnerProofDigestAsync (unit : jsstr) (boundary : GameItemOwnerProofBoundary)
    (digest : AsyncGameOwnerDigestAdapter) : option jsstr :=
  digest (canonicalGameItemOwnerProof unit boundary).

Definition signGameItemOwnerProof (unit : jsstr) (boundary : GameItemOwnerProofBoundary)
    (digest : GameOwnerDigestAdapter) (signer : GameOwnerSigner) : throws jsstr :=
  throw_if (negb (str_eqb (ob_ownerPublicKey boundary) (signer_publicKey signer)))
    (js "item owner proof key does not match signer") $
  inr (signDigest signer (gameItemOwnerProofDigest unit boundary digest)).
Definition signGameItemOwnerProofAsync (unit : jsstr) (boundary : GameItemOwnerProofBoundary)
    (digest : AsyncGameOwnerDigestAdapter) (signer : AsyncGameOwnerSigner)
    : option (throws jsstr) :=
  if negb (str_eqb (ob_ownerPublicKey boundary) (async_signer_publicKey signer))
  then Some (inl (js "item owner proof key does not match signer"))
  else
    proofDigest ← gameItemOwnerProofDigestAsync unit boundary digest;
    signature ← signDigestAsync signer proofDigest;
    Some (inr signature).

Definition verifyGameItemOwnerProof (unit : jsstr) (boundary : GameItemOwnerProofBoundary)
    (signature : jsstr) (digest : GameOwnerDigestAdapter)
    (verifier : GameOwnerSignatureVerifier) : bool :=
  verifier (ob_ownerPublicKey boundary) (gameItemOwnerProofDigest unit boundary digest) signature.
Definition verifyGameItemOwnerProofAsync (unit : jsstr) (boundary : GameItemOwnerProofBoundary)
    (signature : jsstr) (digest : AsyncGameOwnerDigestAdapter)
    (verifier : AsyncGameOwnerSignatureVerifier) : option bool :=
  proofDigest ← gameItemOwnerProofDigestAsync unit boundary digest;
  verifier (ob_ownerPublicKey boundary) proofDigest signature.

(** ** Market listings *)

Definition canonicalGameMarketListingProof (unit : jsstr) (boundary : GameMarketListingProofBoundary) : jsstr :=
  stringify (JArr [JStr (js "audit-survivors-market-listing-owner-proof-v2"); JStr unit;
    JStr (lb_assetId boundary); JStr (lb_sellerId boundary);
    JStr (lb_authorityReceiptId boundary); JStr (lb_ownerPublicKey boundary);
    JNum (lb_ownerVersion boundary); JStr (lb_ownerHeadId boundary);
    JStr (lb_listingNonce boundary)]).

Definition gameMarketListingProofDigest (unit : jsstr) (boundary : GameMarketListingProofBoundary)
    (digest : GameOwnerDigestAdapter) : jsstr :=
  digest (canonicalGameMarketListingProof unit boundary).
Definition gameMarketListingProofDigestAsync (unit : jsstr) (boundary : GameMarketListingProofBoundary)
    (digest : AsyncGameOwnerDigestAdapter) : option jsstr :=
  digest (canonicalGameMarketListingProof unit boundary).

Definition canonicalGameMarketListing (unit : jsstr) (boundary : GameMarketListingProofBoundary) : jsstr :=
  stringify (JArr [JStr (js "audit-survivors-market-listing-v3"); JStr unit;
    JStr (lb_assetId boundary); JStr (lb_sellerId boundary);
    JStr (lb_authorityReceiptId boundary); JStr (lb_ownerPublicKey boundary);
    JNum (lb_ownerVersion boundary); JStr (lb_ownerHeadId boundary);
    JStr (lb_listingNonce boundary)]).

Definition gameMarketListingId (unit : jsstr) (boundary : GameMarketListingProofBoundary)
    (digest : GameOwnerDigestAdapter) : jsstr :=
  digest (canonicalGameMarketListing unit boundary).
Definition gameMarketListingIdAsync (unit : jsstr) (boundary : GameMarketListingProofBoundary)
    (digest : AsyncGameOwnerDigestAdapter) : option jsstr :=
  digest (canonicalGameMarketListing unit boundary).

Definition signGameMarketListingProof (unit : jsstr) (boundary : GameMarketListingProofBoundary)
    (digest : GameOwnerDigestAdapter) (signer : GameOwnerSigner) : throws jsstr :=
  throw_if (negb (str_eqb (lb_ownerPublicKey boundary) (signer_publicKey signer)))
    (js "market listing proof key does not match signer") $
  inr (signDigest signer (gameMarketListingProofDigest unit boundary digest)).
Definition signGameMarketListingProofAsync (unit : jsstr) (boundary : GameMarketListingProofBoundary)
    (digest : AsyncGameOwnerDigestAdapter) (signer : AsyncGameOwnerSigner)
    : option (throws jsstr) :=
  if negb (str_eqb (lb_ownerPublicKey boundary) (async_signer_publicKey signer))
  then Some (inl (js "market listing proof key does not match signer"))
  else
    proofDigest ← gameMarketListingProofDigestAsync unit boundary digest;
    signature ← signDigestAsync signer proofDigest;
    Some (inr signature).

Definition verifyGameMarketListingProof (unit : jsstr) (boundary : GameMarketListingProofBoundary)
    (signature : jsstr) (digest : GameOwnerDigestAdapter)
    (verifier : GameOwnerSignatureVerifier) : bool :=
  verifier (lb_ownerPublicKey boundary) (gameMarketListingProofDigest unit boundary digest) signature.
Definition verifyGameMarketListingProofAsync (unit : jsstr) (boundary : GameMarketListingProofBoundary)
    (signature : jsstr) (digest : AsyncGameOwnerDigestAdapter)
    (verifier : AsyncGameOwnerSignatureVerifier) : option bool :=
  proofDigest ← gameMarketListingProofDigestAsync unit boundary digest;
  verifier (lb_ownerPublicKey boundary) proofDigest signature.

(** ** Cancelling a listing *)

Definition canonicalGameMarketListingCancelProof (unit : jsstr) (boundary : GameMarketListingCancelProofBoundary) : jsstr :=
  stringify (JArr (
    let listing := cb_listing boundary in
    [JStr (js "audit-survivors-market-listing-cancel-proof-v2"); JStr unit;
     JStr (cb_listingId boundary); JStr (lb_assetId listing); JStr (lb_sellerId listing);
     JStr (lb_authorityReceiptId listing); JStr (lb_ownerPublicKey listing);
     JNum (lb_ownerVersion listing); JStr (lb_ownerHeadId listing);
     JStr (lb_listingNonce listing)])).

Definition gameMarketListingCancelProofDigest (unit : jsstr) (boundary : GameMarketListingCancelProofBoundary)
    (digest : GameOwnerDigestAdapter) : jsstr :=
  digest (canonicalGameMarketListingCancelProof unit boundary).
Definition gameMarketListingCancelProofDigestAsync (unit : jsstr) (boundary : GameMarketListingCancelProofBoundary)
    (digest : AsyncGameOwnerDigestAdapter) : option jsstr :=
  digest (canonicalGameMarketListingCancelProof unit boundary).

Definition signGameMarketListingCancelProof (unit : jsstr) (boundary : GameMarketListingCancelProofBoundary)
    (digest : GameOwnerDigestAdapter) (signer : GameOwnerSigner) : throws jsstr :=
  throw_if (negb (str_eqb (lb_ownerPublicKey (cb_listing boundary)) (signer_publicKey signer)))
    (js "market listing cancellation key does not match signer") $
  inr (signDigest signer (gameMarketListingCancelProofDigest unit boundary digest)).
Definition signGameMarketListingCancelProofAsync (unit : jsstr) (boundary : GameMarketListingCancelProofBoundary)
    (digest : AsyncGameOwnerDigestAdapter) (signer : AsyncGameOwnerSigner)
    : option (throws jsstr) :=
  if negb (str_eqb (lb_ownerPublicKey (cb_listing boundary)) (async_signer_publicKey signer))
  then Some (inl (js "market listing cancellation key does not match signer"))
  else
    proofDigest ← gameMarketListingCancelProofDigestAsync unit boundary digest;
    signature ← signDigestAsync signer proofDigest;
    Some (inr signature).

Definition verifyGameMarketListingCancelProof (unit : jsstr) (boundary : GameMarketListingCancelProofBoundary)
    (signature : jsstr) (digest : GameOwnerDigestAdapter)
    (verifier : GameOwnerSignatureVerifier) : bool :=
  verifier (lb_ownerPublicKey (cb_listing boundary)) (gameMarketListingCancelProofDigest unit boundary digest) signature.
Definition verifyGameMarketListingCancelProofAsync (unit : jsstr) (boundary : GameMarketListingCancelProofBoundary)
    (signature : jsstr) (digest : AsyncGameOwnerDigestAdapter)
    (verifier : AsyncGameOwnerSignatureVerifier) : option bool :=
  proofDigest ← gameMarketListingCancelProofDigestAsync unit boundary digest;
  verifier (lb_ownerPublicKey (cb_listing boundary)) proofDigest signature.

(** ** Transfers *)

Definition canonicalGameItemTransferProof (unit : jsstr) (boundary : GameItemTransferProofBoundary) : jsstr :=
  stringify (JArr [JStr (js "audit-survivors-item-transfer-proof-v1"); JStr unit;
    JStr (tb_assetId boundary); JStr (tb_authorityReceiptId boundary);
    JStr (tb_previousHeadId boundary); JStr (tb_fromOwnerId boundary);
    JStr (tb_fromOwnerPublicKey boundary); JStr (tb_toOwnerId boundary);
    JStr (tb_toOwnerPublicKey boundary); JNum (tb_previousVersion boundary);
    JNum (tb_nextVersion boundary)]).

Definition gameItemTransferProofDigest (unit : jsstr) (boundary : GameItemTransferProofBoundary)
    (digest : GameOwnerDigestAdapter) : jsstr :=
  digest (canonicalGameItemTransferProof unit boundary).
Definition gameItemTransferProofDigestAsync (unit : jsstr) (boundary : GameItemTransferProofBoundary)
    (digest : AsyncGameOwnerDigestAdapter) : option jsstr :=
  digest (canonicalGameItemTransferProof unit boundary).

Definition signGameItemTransferProof (unit : jsstr) (boundary : GameItemTransferProofBoundary)
    (digest : GameOwnerDigestAdapter) (signer : GameOwnerSigner) : throws jsstr :=
  throw_if (negb (str_eqb (signer_publicKey signer) (tb_fromOwnerPublicKey boundary)) &&
            negb (str_eqb (signer_publicKey signer) (tb_toOwnerPublicKey boundary)))
    (js "item transfer signer is not a transfer participant") $
  inr (signDigest signer (gameItemTransferProofDigest unit boundary digest)).
Definition signGameItemTransferProofAsync (unit : jsstr) (boundary : GameItemTransferProofBoundary)
    (digest : AsyncGameOwnerDigestAdapter) (signer : AsyncGameOwnerSigner)
    : option (throws jsstr) :=
  if negb (str_eqb (async_signer_publicKey signer) (tb_fromOwnerPublicKey boundary)) &&
     negb (str_eqb (async_signer_publicKey signer) (tb_toOwnerPublicKey boundary))
  then Some (inl (js "item transfer signer is not a transfer participant"))
  else
    proofDigest ← gameItemTransferProofDigestAsync unit boundary digest;
    signature ← signDigestAsync signer proofDigest;
    Some (inr signature).

Inductive TransferProofReason :=
| sender_authentication_refused | recipient_authentication_refused.
Definition VerifyGameItemTransferProofResult := result () TransferProofReason.

Definition verifyGameItemTransferProof (unit : jsstr) (boundary : GameItemTransferProofBoundary)
    (senderSignature recipientSignature : jsstr) (digest : GameOwnerDigestAdapter)
    (verifier : GameOwnerSignatureVerifier) : VerifyGameItemTransferProofResult :=
  let proofDigest := gameItemTransferProofDigest unit boundary digest in
  if negb (verifier (tb_fromOwnerPublicKey boundary) proofDigest senderSignature)
  then Err sender_authentication_refused
  else if negb (verifier (tb_toOwnerPublicKey boundary) proofDigest recipientSignature)
  then Err recipient_authentication_refused
  else Ok ().
Definition verifyGameItemTransferProofAsync (unit : jsstr) (boundary : GameItemTransferProofBoundary)
    (senderSignature recipientSignature : jsstr) (digest : AsyncGameOwnerDigestAdapter)
    (verifier : AsyncGameOwnerSignatureVerifier) : option VerifyGameItemTransferProofResult :=
  proofDigest ← gameItemTransferProofDigestAsync unit boundary digest;
  sender ← verifier (tb_fromOwnerPublicKey boundary) proofDigest senderSignature;
  if negb sender then Some (Err sender_authentication_refused)
  else
    recipient ← verifier (tb_toOwnerPublicKey boundary) proofDigest recipientSignature;
    if negb recipient then Some (Err recipient_authentication_refused)
    else Some (Ok ()).
