(* ===== verification/Ownership.v ===== *)
(** * Asset ownership

    [game/authority/asset-ownership.ts]: the versioned ownership head of an
    asset, created by an authority receipt and moved by transfers that both
    participants sign. *)
From S2P Require Import Prelude Json OwnerAuth.
Set Default Goal Selector "!".

Record GameAssetOrigin := mkOrigin {
  origin_assetId : jsstr;
  origin_authorityReceiptId : jsstr;
  origin_ownerId : jsstr;
  origin_ownerPublicKey : jsstr;
}.

(** [Omit<GameAssetOwnershipHead, "headId">]. *)
Record HeadFields := mkHeadFields {
  head_origin : GameAssetOrigin;
  head_version : Z;
  lastTransferId : jsstr;
}.
Record GameAssetOwnershipHead := mkHead {
  head_fields : HeadFields;
  headId : jsstr;
}.

Definition head_assetId (h : GameAssetOwnershipHead) : jsstr :=
  origin_assetId (head_origin (head_fields h)).
Definition head_authorityReceiptId (h : GameAssetOwnershipHead) : jsstr :=
  origin_authorityReceiptId (head_origin (head_fields h)).
Definition head_ownerId (h : GameAssetOwnershipHead) : jsstr :=
  origin_ownerId (head_origin (head_fields h)).
Definition head_ownerPublicKey (h : GameAssetOwnershipHead) : jsstr :=
  origin_ownerPublicKey (head_origin (head_fields h)).
Definition version (h : GameAssetOwnershipHead) : Z := head_version (head_fields h).

Record GameItemTransferRequest := mkTransferRequest {
  transfer : GameItemTransferProofBoundary;
  senderSignature : jsstr;
  recipientSignature : jsstr;
}.

Inductive TransferReason :=
| invalid_transfer | authority_receipt_mismatch | stale_owner_head | invalid_owner_version
| unchanged_owner | transfer_proof_refused (reason : TransferProofReason).

(** The transfer id and the new head. *)
Definition VerifyAndApplyGameItemTransferResult :=
  result (jsstr * GameAssetOwnershipHead) TransferReason.

Definition isBounded (value : jsstr) (maximum : Z) : bool :=
  (0 <? slen value) && (slen value <=? maximum).
Definition isDigest (value : jsstr) : bool := is_hex 64 value.
Definition isPublicKey (value : jsstr) : bool := is_hex 64 value.
Definition isSignature (value : jsstr) : bool := is_hex 128 value.
Definition isSafeVersion (value : Z) : bool := isSafeInteger value && (0 <=? value).


Definition canonicalGameAssetOwnershipHead (unit : jsstr) (head : HeadFields) : jsstr :=
  stringify (JArr [JStr (js "audit-survivors-asset-owner-head-v1"); JStr unit;
    JStr (origin_assetId (head_origin head)); JStr (origin_authorityReceiptId (head_origin head));
    JStr (origin_ownerId (head_origin head)); JStr (origin_ownerPublicKey (head_origin head));
    JNum (head_version head); JStr (lastTransferId head)]).

Definition gameAssetOwnershipHeadId (unit : jsstr) (head : HeadFields)
    (digest : GameOwnerDigestAdapter) : jsstr :=
  digest (canonicalGameAssetOwnershipHead unit head).
Definition gameAssetOwnershipHeadIdAsync (unit : jsstr) (head : HeadFields)
    (digest : AsyncGameOwnerDigestAdapter) : option jsstr :=
  digest (canonicalGameAssetOwnershipHead unit head).

Definition ownershipHeadWithId (unit : jsstr) (head : HeadFields)
    (digest : GameOwnerDigestAdapter) : GameAssetOwnershipHead :=
  mkHead head (gameAssetOwnershipHeadId unit head digest).

Definition originRefused (unit : jsstr) (origin : GameAssetOrigin) : bool :=
  negb (isBounded unit 128) || negb (isBounded (origin_assetId origin) 1024) ||
  negb (isDigest (origin_authorityReceiptId origin)) ||
  negb (isBounded (origin_ownerId origin) 256) ||
  negb (isPublicKey (origin_ownerPublicKey origin)).

Definition createInitialGameAssetOwnershipHead (unit : jsstr) (origin : GameAssetOrigin)
    (digest : GameOwnerDigestAdapter) : throws GameAssetOwnershipHead :=
  throw_if (originRefused unit origin) (js "invalid game asset origin") $
  inr (ownershipHeadWithId unit (mkHeadFields origin 0 (origin_authorityReceiptId origin)) digest).

Definition transferShapeRefused (unit : jsstr) (request : GameItemTransferRequest) : bool :=
  let t := transfer request in
  negb (isBounded unit 128) || negb (isBounded (tb_assetId t) 1024) ||
  negb (isDigest (tb_authorityReceiptId t)) || negb (isDigest (tb_previousHeadId t)) ||
  negb (isBounded (tb_fromOwnerId t) 256) || negb (isPublicKey (tb_fromOwnerPublicKey t)) ||
  negb (isBounded (tb_toOwnerId t) 256) || negb (isPublicKey (tb_toOwnerPublicKey t)) ||
  negb (isSafeVersion (tb_previousVersion t)) || negb (isSafeVersion (tb_nextVersion t)) ||
  negb (isSignature (senderSignature request)) || negb (isSignature (recipientSignature request)).

Definition verifyAndApplyGameItemTransfer (unit : jsstr) (current : GameAssetOwnershipHead)
    (request : GameItemTransferRequest) (digest : GameOwnerDigestAdapter)
    (verifier : GameOwnerSignatureVerifier) : VerifyAndApplyGameItemTransferResult :=
  let t := transfer request in
  if transferShapeRefused unit request then Err invalid_transfer
  else if negb (str_eqb (head_authorityReceiptId current) (tb_authorityReceiptId t)) ||
          negb (str_eqb (head_assetId current) (tb_assetId t))
  then Err authority_receipt_mismatch
  else if negb (str_eqb (headId current) (tb_previousHeadId t)) ||
          negb (str_eqb (head_ownerId current) (tb_fromOwnerId t)) ||
          negb (str_eqb (head_ownerPublicKey current) (tb_fromOwnerPublicKey t)) ||
          negb (version current =? tb_previousVersion t)
  then Err stale_owner_head
  else if (tb_previousVersion t =? MAX_SAFE_INTEGER) ||
          negb (tb_nextVersion t =? tb_previousVersion t + 1)
  then Err invalid_owner_version
  else if str_eqb (tb_fromOwnerId t) (tb_toOwnerId t) &&
          str_eqb (tb_fromOwnerPublicKey t) (tb_toOwnerPublicKey t)
  then Err unchanged_owner
  else
    match verifyGameItemTransferProof unit t (senderSignature request)
            (recipientSignature request) digest verifier with
    | Err reason => Err (transfer_proof_refused reason)
    | Ok _ =>
        let transferId := gameItemTransferProofDigest unit t digest in
        Ok (transferId,
            ownershipHeadWithId unit
              (mkHeadFields
                 (mkOrigin (tb_assetId t) (tb_authorityReceiptId t) (tb_toOwnerId t)
                    (tb_toOwnerPublicKey t))
                 (tb_nextVersion t) transferId) digest)
    end.
