(* ===== verification/OwnerFacts.v ===== *)
(** * Facts about owner authentication and ownership

    The texts an owner signs determine what is signed; signatures that a
    participant makes verify; the history of an asset is a linear chain of
    transfers in which nothing can be replayed or forked. *)
From S2P Require Import Prelude Json Contracts Kernel OwnerAuth Ownership.
Set Default Goal Selector "!".

(** ** What is signed or hashed *)

(** Every kind of statement about an asset that is hashed. *)
Inductive statement :=
| item_statement (unit : jsstr) (b : GameItemOwnerProofBoundary)
| listing_statement (unit : jsstr) (b : GameMarketListingProofBoundary)
| listing_id_statement (unit : jsstr) (b : GameMarketListingProofBoundary)
| cancel_statement (unit : jsstr) (b : GameMarketListingCancelProofBoundary)
| transfer_statement (unit : jsstr) (b : GameItemTransferProofBoundary)
| head_statement (unit : jsstr) (h : HeadFields).

Definition statement_text (s : statement) : jsstr :=
  match s with
  | item_statement unit b => canonicalGameItemOwnerProof unit b
  | listing_statement unit b => canonicalGameMarketListingProof unit b
  | listing_id_statement unit b => canonicalGameMarketListing unit b
  | cancel_statement unit b => canonicalGameMarketListingCancelProof unit b
  | transfer_statement unit b => canonicalGameItemTransferProof unit b
  | head_statement unit h => canonicalGameAssetOwnershipHead unit h
  end.

(** An item proof carries the seed as an unsigned 32-bit number. *)
Definition normal_statement (s : statement) : statement :=
  match s with
  | item_statement unit b =>
      item_statement unit (mkOwnerBoundary (ob_playerId b) (js_shr (ob_seed b) 0)
        (ob_checkpointDigest b) (ob_assetId b) (ob_ownerPublicKey b))
  | _ => s
  end.

Lemma statement_text_inj s s' :
  statement_text s = statement_text s' -> normal_statement s = normal_statement s'.
Proof.
  intros E. destruct s, s'; apply stringify_inj in E; try reflexivity; try discriminate E;
    cbn [normal_statement].
  - injection E as E1 E2 E3 E4 E5 E6. by destruct b, b0; simpl in *; subst; rewrite E3.
  - injection E as E1 E2 E3 E4 E5 E6 E7 E8. by destruct b, b0; simpl in *; subst.
  - injection E as E1 E2 E3 E4 E5 E6 E7 E8. by destruct b, b0; simpl in *; subst.
  - injection E as E1 E2 E3 E4 E5 E6 E7 E8 E9. by destruct b as [[]], b0 as [[]]; simpl in *; subst.
  - injection E as E1 E2 E3 E4 E5 E6 E7 E8 E9 E10. by destruct b, b0; simpl in *; subst.
  - injection E as E1 E2 E3 E4 E5 E6 E7. by destruct h as [[]], h0 as [[]]; simpl in *; subst.
Qed.

Lemma transfer_text_inj u u' b b' :
  canonicalGameItemTransferProof u b = canonicalGameItemTransferProof u' b' -> u = u' /\ b = b'.
Proof.
  intros E. assert (Hs := statement_text_inj (transfer_statement u b) (transfer_statement u' b') E).
  by injection Hs.
Qed.

Lemma head_text_inj u u' h h' :
  canonicalGameAssetOwnershipHead u h = canonicalGameAssetOwnershipHead u' h' -> u = u' /\ h = h'.
Proof.
  intros E. assert (Hs := statement_text_inj (head_statement u h) (head_statement u' h') E).
  by injection Hs.
Qed.

(** What is signed is unambiguous and domain separated: two statements
    with the same text are of the same kind (settling an item, listing it, the
    identity of a listing, cancelling it, transferring it, an ownership head),
    for the same unit, with the same fields, the seed of an item proof being
    taken modulo 2^32. *)
Theorem statements_domain_separated s s' :
  statement_text s = statement_text s' -> normal_statement s = normal_statement s'.
Proof. apply statement_text_inj. Qed.

(** ** Signing and verifying *)

(** The law of a signature scheme: the verifier accepts what the signer signs. *)
Definition accepts_signer (verifier : GameOwnerSignatureVerifier) (signer : GameOwnerSigner) : Prop :=
  forall d, verifier (signer_publicKey signer) d (signDigest signer d) = true.

Section SignVerify.
Context (digest : GameOwnerDigestAdapter) (verifier : GameOwnerSignatureVerifier).

Lemma signed_guard signer key msg d :
  accepts_signer verifier signer ->
  match throw_if (negb (str_eqb key (signer_publicKey signer))) msg (inr (signDigest signer d)) with
  | inr sig => key = signer_publicKey signer /\ verifier key d sig = true
  | inl _ => key <> signer_publicKey signer
  end.
Proof.
  intros Hv. unfold throw_if. destruct (str_eqb key (signer_publicKey signer)) eqn:E; simpl.
  - apply str_eqb_eq in E. split; [done|]. rewrite E. apply Hv.
  - by apply str_eqb_neq.
Qed.

Lemma transfer_sign_Ok unit b signer sig :
  signGameItemTransferProof unit b digest signer = inr sig ->
  (signer_publicKey signer = tb_fromOwnerPublicKey b \/
   signer_publicKey signer = tb_toOwnerPublicKey b) /\
  sig = signDigest signer (gameItemTransferProofDigest unit b digest).
Proof.
  unfold signGameItemTransferProof, throw_if. intros E. guards E. injection E as <-.
  split; [|done]. apply andb_false_iff in Hg as [Hg|Hg]; bool_split;
    apply str_eqb_eq in Hg; auto.
Qed.
End SignVerify.

(** A signature made for a statement verifies for it, and a signer signs
    only for the key that the statement names: for settling an item, for
    listing it and for cancelling the listing, signing succeeds exactly when
    the signer holds the named key, and then verification accepts. *)
Theorem signed_statements_verify digest verifier signer unit bi bl bc :
  accepts_signer verifier signer ->
  (match signGameItemOwnerProof unit bi digest signer with
   | inr sig => ob_ownerPublicKey bi = signer_publicKey signer /\
                verifyGameItemOwnerProof unit bi sig digest verifier = true
   | inl _ => ob_ownerPublicKey bi <> signer_publicKey signer
   end) /\
  (match signGameMarketListingProof unit bl digest signer with
   | inr sig => lb_ownerPublicKey bl = signer_publicKey signer /\
                verifyGameMarketListingProof unit bl sig digest verifier = true
   | inl _ => lb_ownerPublicKey bl <> signer_publicKey signer
   end) /\
  (match signGameMarketListingCancelProof unit bc digest signer with
   | inr sig => lb_ownerPublicKey (cb_listing bc) = signer_publicKey signer /\
                verifyGameMarketListingCancelProof unit bc sig digest verifier = true
   | inl _ => lb_ownerPublicKey (cb_listing bc) <> signer_publicKey signer
   end).
Proof.
  intros Hv. split_and!; by apply signed_guard.
Qed.

(** ** The history of an asset *)

Section History.
Context (unit : jsstr) (digest : GameOwnerDigestAdapter) (verifier : GameOwnerSignatureVerifier).

(** [history o ts h]: from origin [o], the accepted transfers [ts] (latest
    first) lead to head [h]. *)
Inductive history (o : GameAssetOrigin)
    : list GameItemTransferRequest -> GameAssetOwnershipHead -> Prop :=
| history_origin h :
    createInitialGameAssetOwnershipHead unit o digest = inr h -> history o [] h
| history_transfer ts h r id h' :
    history o ts h -> verifyAndApplyGameItemTransfer unit h r digest verifier = Ok (id, h') ->
    history o (r :: ts) h'.

(** What an accepted transfer has checked, and the head it produces. *)
Record transfer_accepted (h : GameAssetOwnershipHead) (r : GameItemTransferRequest) : Prop := {
  ta_shape : transferShapeRefused unit r = false;
  ta_receipt : head_authorityReceiptId h = tb_authorityReceiptId (transfer r);
  ta_asset : head_assetId h = tb_assetId (transfer r);
  ta_head : headId h = tb_previousHeadId (transfer r);
  ta_owner : head_ownerId h = tb_fromOwnerId (transfer r);
  ta_key : head_ownerPublicKey h = tb_fromOwnerPublicKey (transfer r);
  ta_version : version h = tb_previousVersion (transfer r);
  ta_bound : tb_previousVersion (transfer r) <> MAX_SAFE_INTEGER;
  ta_next : tb_nextVersion (transfer r) = tb_previousVersion (transfer r) + 1;
  ta_changes : tb_fromOwnerId (transfer r) <> tb_toOwnerId (transfer r) \/
               tb_fromOwnerPublicKey (transfer r) <> tb_toOwnerPublicKey (transfer r);
  ta_sender : verifier (tb_fromOwnerPublicKey (transfer r))
    (gameItemTransferProofDigest unit (transfer r) digest) (senderSignature r) = true;
  ta_recipient : verifier (tb_toOwnerPublicKey (transfer r))
    (gameItemTransferProofDigest unit (transfer r) digest) (recipientSignature r) = true;
}.

Definition transferred (r : GameItemTransferRequest) : GameAssetOwnershipHead :=
  ownershipHeadWithId unit
    (mkHeadFields
       (mkOrigin (tb_assetId (transfer r)) (tb_authorityReceiptId (transfer r))
          (tb_toOwnerId (transfer r)) (tb_toOwnerPublicKey (transfer r)))
       (tb_nextVersion (transfer r)) (gameItemTransferProofDigest unit (transfer r) digest))
    digest.

Lemma transfer_Ok h r id h' :
  verifyAndApplyGameItemTransfer unit h r digest verifier = Ok (id, h') <->
  transfer_accepted h r /\ id = gameItemTransferProofDigest unit (transfer r) digest /\
  h' = transferred r.
Proof.
  unfold verifyAndApplyGameItemTransfer, verifyGameItemTransferProof. split.
  - intros E. guards E. injection E as <- <-. guards Hr. bool_split.
    repeat match goal with K : str_eqb _ _ = true |- _ => apply str_eqb_eq in K end.
    split; [|done]. constructor; try done.
    apply andb_false_iff in Hg3. rewrite !str_eqb_neq in Hg3. done.
  - intros ([] & -> & ->). cbv zeta.
    rewrite ta_shape0, ta_receipt0, ta_asset0, ta_head0, ta_owner0, ta_key0, ta_version0.
    rewrite !str_eqb_refl, !Z.eqb_refl, (proj2 (Z.eqb_neq _ _) ta_bound0),
      (proj2 (Z.eqb_eq _ _) ta_next0). cbn [negb orb].
    rewrite ta_sender0, ta_recipient0. cbn [negb].
    replace (str_eqb _ _ && str_eqb _ _) with false; [done|].
    symmetry. apply andb_false_iff. by rewrite !str_eqb_neq.
Qed.

Definition asset_of (o : GameAssetOrigin) (h : GameAssetOwnershipHead) : Prop :=
  head_assetId h = origin_assetId o /\ head_authorityReceiptId h = origin_authorityReceiptId o.

Lemma history_head o ts h :
  history o ts h ->
  asset_of o h /\ version h = Z.of_nat (length ts) /\ version h <= MAX_SAFE_INTEGER /\
  headId h = gameAssetOwnershipHeadId unit (head_fields h) digest /\
  isBounded unit 128 = true.
Proof.
  induction 1 as [h E|ts h r id h' Hh IH E].
  - unfold createInitialGameAssetOwnershipHead, throw_if, originRefused in E. guards E.
    injection E as <-. bool_split. split_and!; try done.
  - apply transfer_Ok in E as (Ha & _ & ->). destruct IH as ((Hx & Hy) & Hv & Hm & _ & Hu).
    destruct Ha. unfold asset_of, version, head_assetId, head_authorityReceiptId in *.
    cbn [transferred ownershipHeadWithId head_fields head_origin head_version
         origin_assetId origin_authorityReceiptId length] in *.
    split_and!; try done; try congruence; try lia.
Qed.

(** The holder of the asset after the transfers [ts], latest first. *)
Definition holder (o : GameAssetOrigin) (ts : list GameItemTransferRequest) : jsstr * jsstr :=
  match ts with
  | [] => (origin_ownerId o, origin_ownerPublicKey o)
  | r :: _ => (tb_toOwnerId (transfer r), tb_toOwnerPublicKey (transfer r))
  end.

Lemma history_holder o ts h :
  history o ts h -> holder o ts = (head_ownerId h, head_ownerPublicKey h).
Proof.
  destruct 1 as [h E|ts h r id h' Hh E].
  - unfold createInitialGameAssetOwnershipHead, throw_if in E. guards E. by injection E as <-.
  - by apply transfer_Ok in E as (_ & _ & ->).
Qed.

(** Each transfer of a history was accepted at the head before it. *)
Lemma history_lookup o ts h i r :
  history o ts h -> ts !! i = Some r ->
  exists h0, history o (drop (S i) ts) h0 /\ transfer_accepted h0 r.
Proof.
  intros Hh. revert i. induction Hh as [h E|ts h r' id h' Hh IH E]; intros i Hi; [done|].
  destruct i as [|i]; simpl in *; [|by apply IH].
  injection Hi as <-. apply transfer_Ok in E as (Ha & _ & _). by exists h.
Qed.

Definition head_shape (h : GameAssetOwnershipHead) : Prop :=
  isBounded (head_assetId h) 1024 = true /\ isDigest (head_authorityReceiptId h) = true /\
  isBounded (head_ownerId h) 256 = true /\ isPublicKey (head_ownerPublicKey h) = true.

Lemma history_shape o ts h : history o ts h -> head_shape h.
Proof.
  destruct 1 as [h E|ts h r id h' Hh E].
  - unfold createInitialGameAssetOwnershipHead, throw_if, originRefused in E. guards E.
    injection E as <-. bool_split. by split_and!.
  - apply transfer_Ok in E as (Ha & _ & ->). pose proof (ta_shape _ _ Ha) as Hs.
    unfold transferShapeRefused in Hs. cbv zeta in Hs. bool_split. by split_and!.
Qed.
End History.

(** C12: an asset has one linear history.  After n accepted transfers the head
    names the asset and the receipt of the origin, has version n, an id that is
    the hash of its own fields, and the recipient of the last transfer as its
    owner; transfer i was made by the holder the earlier ones leave, at version
    i, changed the owner, and carries valid signatures of sender and recipient
    over a text that names the head it replaces. *)
Theorem ownership_history_linear unit digest verifier o ts h :
  history unit digest verifier o ts h ->
  asset_of o h /\ version h = Z.of_nat (length ts) /\
  headId h = gameAssetOwnershipHeadId unit (head_fields h) digest /\
  (head_ownerId h, head_ownerPublicKey h) = holder o ts /\
  forall i r, ts !! i = Some r ->
    let t := transfer r in
    (tb_fromOwnerId t, tb_fromOwnerPublicKey t) = holder o (drop (S i) ts) /\
    (tb_fromOwnerId t, tb_fromOwnerPublicKey t) <> (tb_toOwnerId t, tb_toOwnerPublicKey t) /\
    tb_previousVersion t = Z.of_nat (length ts - S i) /\
    tb_assetId t = origin_assetId o /\
    verifier (tb_fromOwnerPublicKey t) (gameItemTransferProofDigest unit t digest)
      (senderSignature r) = true /\
    verifier (tb_toOwnerPublicKey t) (gameItemTransferProofDigest unit t digest)
      (recipientSignature r) = true /\
    exists h0, history unit digest verifier o (drop (S i) ts) h0 /\ tb_previousHeadId t = headId h0.
Proof.
  intros Hh. destruct (history_head _ _ _ _ _ _ Hh) as (Ha & Hv & _ & Hid & _).
  split_and!; try done; [by rewrite (history_holder _ _ _ _ _ _ Hh)|].
  intros i r Hi t. destruct (history_lookup _ _ _ _ _ _ _ _ Hh Hi) as (h0 & Hh0 & Hacc).
  destruct (history_head _ _ _ _ _ _ Hh0) as ((Ha0 & _) & Hv0 & _).
  rewrite (history_holder _ _ _ _ _ _ Hh0). destruct Hacc. subst t.
  rewrite length_drop in Hv0. split_and!; try done; try congruence.
  - naive_solver congruence.
  - exists h0. by split.
Qed.

(** C4: no transfer can be replayed: any request that has already moved an
    asset is refused at every later head of its history as stale. *)
Theorem transfer_replay_refused unit digest verifier o ts h r :
  history unit digest verifier o ts h -> r ∈ ts ->
  verifyAndApplyGameItemTransfer unit h r digest verifier = Err stale_owner_head.
Proof.
  intros Hh (i & Hi)%list_elem_of_lookup.
  destruct (history_head _ _ _ _ _ _ Hh) as ((Hx & Hy) & Hv & _).
  destruct (history_lookup _ _ _ _ _ _ _ _ Hh Hi) as (h0 & Hh0 & []).
  destruct (history_head _ _ _ _ _ _ Hh0) as ((Hx0 & Hy0) & Hv0 & _).
  rewrite length_drop in Hv0. apply lookup_lt_Some in Hi.
  unfold verifyAndApplyGameItemTransfer. cbv zeta. rewrite ta_shape0.
  rewrite <- ta_receipt0, <- ta_asset0, Hx, Hy, Hx0, Hy0, !str_eqb_refl. cbn [negb orb].
  rewrite (proj2 (Z.eqb_neq (version h) _)) by lia. cbn [negb]. by rewrite orb_true_r.
Qed.

(** ** An honest transfer *)

(** The transfer a client proposes for head [h]. *)
Definition propose (h : GameAssetOwnershipHead) (toId toKey : jsstr) : GameItemTransferProofBoundary :=
  mkTransferBoundary (head_assetId h) (head_authorityReceiptId h) (headId h) (head_ownerId h)
    (head_ownerPublicKey h) toId toKey (version h) (version h + 1).

(** The holder of an asset can always hand it on: below the version
    bound, a proposal that both parties sign with [signGameItemTransferProof]
    is accepted, and the recipient owns the asset at the next version. *)
Theorem honest_transfer_succeeds unit digest verifier o ts h sender recipient toId :
  history unit digest verifier o ts h -> version h < MAX_SAFE_INTEGER ->
  (forall s, isDigest (digest s) = true) ->
  accepts_signer verifier sender -> accepts_signer verifier recipient ->
  (forall d, isSignature (signDigest sender d) = true) ->
  (forall d, isSignature (signDigest recipient d) = true) ->
  signer_publicKey sender = head_ownerPublicKey h ->
  isPublicKey (signer_publicKey recipient) = true -> isBounded toId 256 = true ->
  (toId, signer_publicKey recipient) <> holder o ts ->
  let t := propose h toId (signer_publicKey recipient) in
  exists sig sig' id h',
    signGameItemTransferProof unit t digest sender = inr sig /\
    signGameItemTransferProof unit t digest recipient = inr sig' /\
    verifyAndApplyGameItemTransfer unit h (mkTransferRequest t sig sig') digest verifier
      = Ok (id, h') /\
    version h' = version h + 1 /\ asset_of o h' /\
    holder o (mkTransferRequest t sig sig' :: ts) = (toId, signer_publicKey recipient).
Proof.
  intros Hh Hb Hd Hs Hr Hss Hsr Hk Hkr Hid Hne t.
  destruct (history_head _ _ _ _ _ _ Hh) as (Ha & Hv & _ & Hhid & Hu).
  pose proof (history_shape _ _ _ _ _ _ Hh) as (S1 & S2 & S3 & S4).
  rewrite (history_holder _ _ _ _ _ _ Hh) in Hne.
  set (d := gameItemTransferProofDigest unit t digest).
  assert (E1 : signGameItemTransferProof unit t digest sender = inr (signDigest sender d)).
  { unfold signGameItemTransferProof, throw_if.
    by rewrite (proj2 (str_eqb_eq _ (tb_fromOwnerPublicKey t)) Hk). }
  assert (E2 : signGameItemTransferProof unit t digest recipient = inr (signDigest recipient d)).
  { unfold signGameItemTransferProof, throw_if.
    change (tb_toOwnerPublicKey t) with (signer_publicKey recipient).
    by rewrite str_eqb_refl, andb_false_r. }
  set (r := mkTransferRequest t (signDigest sender d) (signDigest recipient d)).
  exists (signDigest sender d), (signDigest recipient d), d, (transferred unit digest r).
  split_and!; try done; [|apply Ha..].
  apply transfer_Ok. split; [|done]. constructor; try done.
  - unfold transferShapeRefused, isSafeVersion. subst r t.
    cbn [transfer senderSignature recipientSignature propose tb_assetId tb_authorityReceiptId
      tb_previousHeadId tb_fromOwnerId tb_fromOwnerPublicKey tb_toOwnerId tb_toOwnerPublicKey
      tb_previousVersion tb_nextVersion].
    rewrite Hu, S1, S2, S3, S4, Hkr, Hid, Hss, Hsr, Hhid.
    unfold gameAssetOwnershipHeadId. rewrite Hd.
    rewrite !(proj2 (isSafeInteger_spec _)) by (unfold MAX_SAFE_INTEGER in *; lia).
    rewrite !(proj2 (Z.leb_le 0 _)) by lia. done.
  - subst r t. simpl. lia.
  - subst r t. simpl.
    destruct (decide (head_ownerId h = toId)) as [<-|]; [right|by left]. congruence.
  - subst r t. cbn [transfer senderSignature propose tb_fromOwnerPublicKey]. rewrite <- Hk. apply Hs.
Qed.

(** ** No forks *)

Section Fork.
Context (digest : GameOwnerDigestAdapter) (verifier : GameOwnerSignatureVerifier).

(** The texts hashed along a history: each transfer and the head it produces. *)
Fixpoint history_texts (unit : jsstr) (o : GameAssetOrigin) (ts : list GameItemTransferRequest)
    : list jsstr :=
  match ts with
  | [] => [canonicalGameAssetOwnershipHead unit
             (mkHeadFields o 0 (origin_authorityReceiptId o))]
  | r :: ts' =>
      canonicalGameAssetOwnershipHead unit (head_fields (transferred unit digest r)) ::
      canonicalGameItemTransferProof unit (transfer r) :: history_texts unit o ts'
  end.

Lemma initial_origin unit o h :
  createInitialGameAssetOwnershipHead unit o digest = inr h -> head_origin (head_fields h) = o.
Proof.
  unfold createInitialGameAssetOwnershipHead, throw_if. intros E. guards E. by injection E as <-.
Qed.

Lemma history_text_in unit o ts h :
  history unit digest verifier o ts h ->
  canonicalGameAssetOwnershipHead unit (head_fields h) ∈ history_texts unit o ts.
Proof.
  destruct 1 as [h E|ts h r id h' Hh E].
  - unfold createInitialGameAssetOwnershipHead, throw_if in E. guards E. injection E as <-. left.
  - apply transfer_Ok in E as (_ & _ & ->). left.
Qed.

Lemma history_binds unit unit' o o' ts ts' h h' :
  history unit digest verifier o ts h -> history unit' digest verifier o' ts' h' ->
  headId h = headId h' ->
  (unit = unit' /\ o = o' /\ map transfer ts = map transfer ts' /\ h = h') \/
  hash_collision digest (history_texts unit o ts) (history_texts unit' o' ts').
Proof.
  intros Hh. revert ts' h'. induction Hh as [h E|ts h r id h1 Hh IH E]; intros ts' h' Hh' Eid.
  all: pose proof (history_text_in _ _ _ _ Hh') as Hin'.
  all: destruct (history_head _ _ _ _ _ _ Hh') as (_ & Hv' & _ & Hid' & _).
  - assert (H0 : history unit digest verifier o [] h) by (by constructor).
    destruct (history_head _ _ _ _ _ _ H0) as (_ & Hv & _ & Hid & _).
    pose proof (history_text_in _ _ _ _ H0) as Hin.
    destruct (eq_or_collide digest _ _ _ _ (eq_trans (eq_sym Hid) (eq_trans Eid Hid')) Hin Hin')
      as [Et|]; [|by right]. left.
    apply head_text_inj in Et as [<- Ef].
    assert (h = h') as <- by (destruct h, h'; simpl in *; congruence).
    destruct ts'; [|simpl in *; lia]. inversion Hh' as [h1 E'|]; subst.
    apply initial_origin in E, E'. split_and!; try done. congruence.
  - assert (H1 : history unit digest verifier o (r :: ts) h1) by (by econstructor).
    destruct (history_head _ _ _ _ _ _ H1) as (_ & Hv & _ & Hid & _).
    pose proof (history_text_in _ _ _ _ H1) as Hin.
    destruct (eq_or_collide digest _ _ _ _ (eq_trans (eq_sym Hid) (eq_trans Eid Hid')) Hin Hin')
      as [Et|]; [|by right].
    apply head_text_inj in Et as [<- Ef].
    assert (h1 = h') as <- by (destruct h1, h'; simpl in *; congruence).
    destruct Hh' as [h' E'|ts' h' r' id' h2 Hh' E']; [simpl in *; lia|].
    apply transfer_Ok in E as (Ha & _ & ->), E' as (Ha' & _ & E').
    destruct (eq_or_collide digest (canonicalGameItemTransferProof unit (transfer r))
                (canonicalGameItemTransferProof unit (transfer r'))
                (history_texts unit o (r :: ts)) (history_texts unit o' (r' :: ts')))
      as [Et|]; [|by right; left|by right; left| |by right].
    + by injection E' as _ _ _ _ _ E' _.
    + apply transfer_text_inj in Et as [_ Et].
      destruct (IH ts' h' Hh') as [(_ & -> & Em & ->)|Hc].
      * rewrite (ta_head _ _ _ _ _ Ha), (ta_head _ _ _ _ _ Ha'). by rewrite Et.
      * left. split_and!; try done. simpl. by rewrite Et, Em.
      * right. eapply collision_weaken; [exact Hc|by intros x Hx; right; right..].
Qed.
End Fork.

(** An ownership head id pins the whole history of the asset: two
    histories, of whatever origin and unit, that reach heads with the same id
    have the same unit, origin, transfers and head, unless two different texts
    hashed along them have the same hash. *)
Theorem ownership_cannot_fork digest verifier unit unit' o o' ts ts' h h' :
  history unit digest verifier o ts h -> history unit' digest verifier o' ts' h' ->
  headId h = headId h' ->
  (unit = unit' /\ o = o' /\ map transfer ts = map transfer ts' /\ h = h') \/
  hash_collision digest (history_texts digest unit o ts) (history_texts digest unit' o' ts').
Proof. apply history_binds. Qed.

(** ** Asynchronous backends *)

Section Async.
Context (adigest : AsyncGameOwnerDigestAdapter) (digest : GameOwnerDigestAdapter).
Context (averifier : AsyncGameOwnerSignatureVerifier) (verifier : GameOwnerSignatureVerifier).
Context (asigner : AsyncGameOwnerSigner) (signer : GameOwnerSigner).

(** Asynchronous backends that resolve to the values of synchronous ones. *)
Record backends_resolve : Prop := {
  br_digest : forall s, adigest s = Some (digest s);
  br_verifier : forall k d s, averifier k d s = Some (verifier k d s);
  br_key : async_signer_publicKey asigner = signer_publicKey signer;
  br_sign : forall d, signDigestAsync asigner d = Some (signDigest signer d);
}.
End Async.

(** Over asynchronous backends that resolve to the values of synchronous
    ones, signing and verifying every kind of statement give exactly the
    results of the synchronous operations, thrown errors included. *)
Lemma async_authentication_agrees adigest digest averifier verifier asigner signer unit
    bi bl bc bt sig sig' :
  backends_resolve adigest digest averifier verifier asigner signer ->
  signGameItemOwnerProofAsync unit bi adigest asigner
    = Some (signGameItemOwnerProof unit bi digest signer) /\
  verifyGameItemOwnerProofAsync unit bi sig adigest averifier
    = Some (verifyGameItemOwnerProof unit bi sig digest verifier) /\
  signGameMarketListingProofAsync unit bl adigest asigner
    = Some (signGameMarketListingProof unit bl digest signer) /\
  verifyGameMarketListingProofAsync unit bl sig adigest averifier
    = Some (verifyGameMarketListingProof unit bl sig digest verifier) /\
  signGameMarketListingCancelProofAsync unit bc adigest asigner
    = Some (signGameMarketListingCancelProof unit bc digest signer) /\
  verifyGameMarketListingCancelProofAsync unit bc sig adigest averifier
    = Some (verifyGameMarketListingCancelProof unit bc sig digest verifier) /\
  signGameItemTransferProofAsync unit bt adigest asigner
    = Some (signGameItemTransferProof unit bt digest signer) /\
  verifyGameItemTransferProofAsync unit bt sig sig' adigest averifier
    = Some (verifyGameItemTransferProof unit bt sig sig' digest verifier).
Proof.
  intros [Hd Hv Hk Hs].
  assert (Hsign : forall (c : bool) (msg text : jsstr),
    (if c then Some (inl msg)
     else d ← adigest text; s ← signDigestAsync asigner d; Some (inr s))
    = Some (throw_if c msg (inr (signDigest signer (digest text))))).
  { intros [] msg text; [done|]. rewrite Hd. cbn [mbind option_bind]. by rewrite Hs. }
  assert (Hver : forall k text s,
    (d ← adigest text; averifier k d s) = Some (verifier k (digest text) s)).
  { intros k text s. rewrite Hd. cbn [mbind option_bind]. apply Hv. }
  unfold signGameItemOwnerProofAsync, signGameMarketListingProofAsync,
    signGameMarketListingCancelProofAsync, signGameItemTransferProofAsync. rewrite !Hk.
  split_and!; try apply Hsign; try apply Hver.
  unfold verifyGameItemTransferProofAsync, verifyGameItemTransferProof.
  unfold gameItemTransferProofDigestAsync. rewrite Hd. cbn [mbind option_bind].
  rewrite !Hv. cbn [mbind option_bind]. unfold gameItemTransferProofDigest. cbv zeta.
  destruct (verifier _ _ sig); cbn [negb]; [|done]. rewrite ?Hv. cbn [mbind option_bind].
  by destruct (verifier _ _ sig').
Qed.

(** ** Witnesses *)

(** A toy digest of 64 hexadecimal digits and a toy signature scheme. *)
Definition toy_digest : GameOwnerDigestAdapter := fun s =>
  let h := stringHash s in
  map (fun i => digit_unit (Z.to_N (Z.shiftr h (Z.of_nat i)) mod 16)) (seq 0 64).
Definition toy_signer (key : jsstr) : GameOwnerSigner :=
  mkSigner key (fun d => toy_digest (key ++ d) ++ toy_digest (d ++ key)).
Definition toy_verifier : GameOwnerSignatureVerifier := fun key d s =>
  str_eqb s (signDigest (toy_signer key) d).

Lemma toy_hex s : forallb is_lower_hex (toy_digest s) = true.
Proof.
  apply forallb_forall. intros c (i & <- & _)%in_map_iff.
  generalize (Z.to_N (Z.shiftr (stringHash s) (Z.of_nat i))) as n. intros n.
  pose proof (N.mod_lt n 16 ltac:(lia)). unfold is_lower_hex, digit_unit.
  apply orb_true_iff. rewrite !andb_true_iff, !N.leb_le.
  destruct (N.ltb_spec (n mod 16) 10); lia.
Qed.

Lemma toy_length s : length (toy_digest s) = 64%nat.
Proof. unfold toy_digest. by rewrite length_map, length_seq. Qed.

Lemma toy_isDigest s : isDigest (toy_digest s) = true.
Proof. unfold isDigest, is_hex. by rewrite toy_hex, toy_length. Qed.

Lemma toy_isSignature key d : isSignature (signDigest (toy_signer key) d) = true.
Proof.
  unfold isSignature, is_hex, toy_signer. cbn [signDigest].
  by rewrite forallb_app, !toy_hex, length_app, !toy_length.
Qed.

Lemma toy_accepts key : accepts_signer toy_verifier (toy_signer key).
Proof. intros d. apply str_eqb_refl. Qed.

Definition toy_key (s : string) : jsstr := toy_digest (js s).
Definition toy_origin : GameAssetOrigin :=
  mkOrigin (js "asset-1") (toy_key "receipt") (js "alice") (toy_key "alice").
Definition toy_head : GameAssetOwnershipHead :=
  ownershipHeadWithId (js "unit") (mkHeadFields toy_origin 0 (toy_key "receipt")) toy_digest.
Definition toy_transfer : GameItemTransferRequest :=
  let t := propose toy_head (js "bob") (toy_key "bob") in
  let d := gameItemTransferProofDigest (js "unit") t toy_digest in
  mkTransferRequest t (signDigest (toy_signer (toy_key "alice")) d)
    (signDigest (toy_signer (toy_key "bob")) d).

Lemma toy_history0 : history (js "unit") toy_digest toy_verifier toy_origin [] toy_head.
Proof. constructor. vm_compute. reflexivity. Qed.

Lemma toy_history1 :
  history (js "unit") toy_digest toy_verifier toy_origin [toy_transfer]
    (transferred (js "unit") toy_digest toy_transfer).
Proof.
  eapply history_transfer; [apply toy_history0|]. vm_compute. reflexivity.
Qed.

Definition toy_boundary (sd : Z) : GameItemOwnerProofBoundary :=
  mkOwnerBoundary (js "alice") sd (js "cp") (js "asset-1") (toy_key "alice").

Lemma statements_domain_separated_witness :
  normal_statement (item_statement (js "unit") (toy_boundary 7))
  = normal_statement (item_statement (js "unit") (toy_boundary (7 + 2 ^ 32))).
Proof. apply statements_domain_separated. vm_compute. reflexivity. Defined.

Lemma signed_statements_verify_witness : exists sig,
  signGameItemOwnerProof (js "unit") (toy_boundary 7) toy_digest (toy_signer (toy_key "alice"))
    = inr sig /\
  verifyGameItemOwnerProof (js "unit") (toy_boundary 7) sig toy_digest toy_verifier = true.
Proof.
  pose proof (signed_statements_verify toy_digest toy_verifier (toy_signer (toy_key "alice"))
    (js "unit") (toy_boundary 7)
    (mkListingBoundary (js "asset-1") (js "alice") (toy_key "receipt") (toy_key "alice") 0
       (headId toy_head) (js "nonce"))
    (mkCancelBoundary (mkListingBoundary (js "asset-1") (js "alice") (toy_key "receipt")
       (toy_key "alice") 0 (headId toy_head) (js "nonce")) (js "listing"))
    (toy_accepts (toy_key "alice"))) as [Hi _].
  destruct (signGameItemOwnerProof (js "unit") (toy_boundary 7) toy_digest
              (toy_signer (toy_key "alice"))) as [e|sig].
  - exfalso. apply Hi. reflexivity.
  - exists sig. split; [reflexivity|]. apply Hi.
Defined.

Lemma ownership_history_linear_witness :
  version (transferred (js "unit") toy_digest toy_transfer) = 1 /\
  holder toy_origin [toy_transfer] = (js "bob", toy_key "bob").
Proof.
  split; [|reflexivity].
  apply (ownership_history_linear (js "unit") toy_digest toy_verifier toy_origin [toy_transfer] _
           toy_history1).
Defined.

Lemma transfer_replay_refused_witness :
  verifyAndApplyGameItemTransfer (js "unit") (transferred (js "unit") toy_digest toy_transfer)
    toy_transfer toy_digest toy_verifier = Err stale_owner_head.
Proof.
  apply (transfer_replay_refused (js "unit") toy_digest toy_verifier toy_origin [toy_transfer] _ _
           toy_history1).
  left.
Defined.

Lemma honest_transfer_succeeds_witness : exists r id h',
  verifyAndApplyGameItemTransfer (js "unit") toy_head r toy_digest toy_verifier = Ok (id, h') /\
  version h' = 1.
Proof.
  destruct (honest_transfer_succeeds (js "unit") toy_digest toy_verifier toy_origin [] toy_head
              (toy_signer (toy_key "alice")) (toy_signer (toy_key "bob")) (js "bob")
              toy_history0) as (sig & sig' & id & h' & _ & _ & E & Hv & _).
  - vm_compute. reflexivity.
  - apply toy_isDigest.
  - apply toy_accepts.
  - apply toy_accepts.
  - apply toy_isSignature.
  - apply toy_isSignature.
  - reflexivity.
  - apply toy_isDigest.
  - vm_compute. reflexivity.
  - vm_compute. discriminate.
  - eexists _, id, h'. split; [exact E|exact Hv].
Defined.

Lemma ownership_cannot_fork_witness :
  map transfer [toy_transfer] = map transfer [toy_transfer] \/
  hash_collision toy_digest (history_texts toy_digest (js "unit") toy_origin [toy_transfer])
    (history_texts toy_digest (js "unit") toy_origin [toy_transfer]).
Proof.
  destruct (ownership_cannot_fork toy_digest toy_verifier (js "unit") (js "unit") toy_origin
              toy_origin [toy_transfer] [toy_transfer] _ _ toy_history1 toy_history1 eq_refl)
    as [(_ & _ & E & _)|E].
  - left. exact E.
  - right. exact E.
Defined.

Lemma async_authentication_agrees_witness :
  verifyGameItemOwnerProofAsync (js "unit") (toy_boundary 7) (js "bad")
    (fun s => Some (toy_digest s)) (fun k d s => Some (toy_verifier k d s)) = Some false.
Proof.
  destruct (async_authentication_agrees (fun s => Some (toy_digest s)) toy_digest
    (fun k d s => Some (toy_verifier k d s)) toy_verifier
    (mkAsyncSigner (toy_key "alice") (fun d => Some (signDigest (toy_signer (toy_key "alice")) d)))
    (toy_signer (toy_key "alice")) (js "unit") (toy_boundary 7)
    (mkListingBoundary [] [] [] [] 0 [] [])
    (mkCancelBoundary (mkListingBoundary [] [] [] [] 0 [] []) [])
    (transfer toy_transfer) (js "bad") []) as (_ & E & _).
  - constructor; reflexivity.
  - rewrite E. vm_compute. reflexivity.
Defined.
