(* ===== verification/ItemVerification.v ===== *)
(** * Item verification

    [game/authority/item-verification.ts]: the requests a client builds from
    its journal, and the authority's verification of a checkpoint by replay and
    of the creation of an item.  The input of a verification is untrusted, so
    it is a [jsval]; once decoded it is read into the wire records below. *)
From S2P Require Import Prelude Json Contracts Kernel Journal Snapshot OwnerAuth Ownership.
Set Default Goal Selector "!".

Definition CHECKPOINT_EVENT_COUNT : Z := 30.
Definition MAX_EVENT_PAYLOAD_LENGTH : Z := 32768.

Record GameItemVerificationWireCheckpoint := mkWireCheckpoint {
  wc_epoch : Z;
  wc_first_tick : Z;
  wc_last_tick : Z;
  wc_event_count : Z;
  wc_event_root : jsstr;
  wc_state_digest : jsstr;
  wc_previous_checkpoint : jsstr;
  wc_checkpoint_digest : jsstr;
  wc_canonical_envelope : jsstr;
  wc_created_asset_ids : list jsstr;
}.

Record GameItemVerificationWireEvent := mkWireEvent {
  we_tick : Z;
  we_canonical_payload : jsstr;
  we_created_asset_ids : list jsstr;
}.

Record GameCheckpointVerificationRequest := mkCheckpointRequest {
  cr_seed : Z;
  cr_player_id : jsstr;
  cr_owner_public_key : jsstr;
  cr_checkpoint : GameItemVerificationWireCheckpoint;
  cr_events : list GameItemVerificationWireEvent;
}.

Record UnsignedGameItemVerificationRequest := mkUnsignedRequest {
  ur_request : GameCheckpointVerificationRequest;
  ur_asset_id : jsstr;
}.
Record GameItemVerificationRequest := mkItemRequest {
  ir_unsigned : UnsignedGameItemVerificationRequest;
  ir_owner_signature : jsstr;
}.

Record GameCheckpointVerificationParent := mkParent {
  parent_checkpointDigest : jsstr;
  parent_stateDigest : jsstr;
  parent_ownerPublicKey : jsstr;
  parent_state : GameState;
}.

Record GameItemAuthorityReceipt := mkAuthorityReceipt {
  ar_authorityReceiptId : jsstr;
  ar_assetId : jsstr;
  ar_ownerId : jsstr;
  ar_ownerPublicKey : jsstr;
  ar_ownerVersion : Z;
  ar_ownerHeadId : jsstr;
  ar_checkpointDigest : jsstr;
  ar_inventoryEpoch : Z;
}.

Record GameCheckpointAuthorityReceiptIdentity := mkCheckpointIdentity {
  ci_playerId : jsstr;
  ci_seed : Z;
  ci_epoch : Z;
  ci_checkpointDigest : jsstr;
}.

(** [Pick<GameItemAuthorityReceipt, ...>]. *)
Record GameItemAuthorityReceiptIdentity := mkItemIdentity {
  ii_checkpointDigest : jsstr;
  ii_assetId : jsstr;
  ii_ownerId : jsstr;
  ii_ownerPublicKey : jsstr;
  ii_inventoryEpoch : Z;
}.

Inductive CheckpointReason :=
| invalid_request | unsupported_checkpoint | unverified_parent | invalid_parent_state
| invalid_event | event_replay_mismatch | checkpoint_mismatch.

Record VerifiedCheckpoint := mkVerified {
  vc_state : GameState;
  vc_checkpoint : GameItemVerificationWireCheckpoint;
  vc_createdItems : list InventoryItem;
}.
Definition VerifyGameCheckpointResult := result VerifiedCheckpoint CheckpointReason.

Inductive ItemReason :=
| checkpoint_refused (reason : CheckpointReason) | asset_not_created
| owner_authentication_refused.

Record VerifiedItem := mkVerifiedItem {
  vi_receipt : GameItemAuthorityReceipt;
  vi_item : InventoryItem;
  vi_state : GameState;
  vi_checkpoint : GameItemVerificationWireCheckpoint;
}.
Definition VerifyGameItemCreationResult := result VerifiedItem ItemReason.

(** ** Receipt identities *)

Definition canonicalGameCheckpointAuthorityReceipt (unit : jsstr)
    (receipt : GameCheckpointAuthorityReceiptIdentity) : jsstr :=
  stringify (JArr [JStr (js "audit-survivors-authority-checkpoint-receipt-v1"); JStr unit;
    JStr (ci_playerId receipt); JNum (ci_seed receipt); JNum (ci_epoch receipt);
    JStr (ci_checkpointDigest receipt)]).
Definition gameCheckpointAuthorityReceiptId (unit : jsstr)
    (receipt : GameCheckpointAuthorityReceiptIdentity) (digest : GameOwnerDigestAdapter) : jsstr :=
  digest (canonicalGameCheckpointAuthorityReceipt unit receipt).
Definition gameCheckpointAuthorityReceiptIdAsync (unit : jsstr)
    (receipt : GameCheckpointAuthorityReceiptIdentity) (digest : AsyncGameOwnerDigestAdapter)
    : option jsstr :=
  digest (canonicalGameCheckpointAuthorityReceipt unit receipt).

Definition canonicalGameItemAuthorityReceipt (unit : jsstr)
    (receipt : GameItemAuthorityReceiptIdentity) : jsstr :=
  stringify (JArr [JStr (js "audit-survivors-authority-item-receipt-v1"); JStr unit;
    JStr (ii_checkpointDigest receipt); JStr (ii_assetId receipt); JStr (ii_ownerId receipt);
    JStr (ii_ownerPublicKey receipt); JNum (ii_inventoryEpoch receipt)]).
Definition gameItemAuthorityReceiptId (unit : jsstr)
    (receipt : GameItemAuthorityReceiptIdentity) (digest : GameOwnerDigestAdapter) : jsstr :=
  digest (canonicalGameItemAuthorityReceipt unit receipt).
Definition gameItemAuthorityReceiptIdAsync (unit : jsstr)
    (receipt : GameItemAuthorityReceiptIdentity) (digest : AsyncGameOwnerDigestAdapter)
    : option jsstr :=
  digest (canonicalGameItemAuthorityReceipt unit receipt).

(** ** Decoding requests *)

Definition isSafeNonNegativeInteger (v : jsval) : bool :=
  match v with JNum z => isSafeInteger z && (0 <=? z) | _ => false end.
Definition isBoundedString (v : jsval) (maximum : Z) : bool :=
  match v with JStr s => (0 <? slen s) && (slen s <=? maximum) | _ => false end.
Definition isBoundedStringArray (v : jsval) (maximumItems : Z) : bool :=
  match v with
  | JArr l => (Z.of_nat (length l) <=? maximumItems) && forallb (fun i => isBoundedString i 1024) l
  | _ => false
  end.

Definition isWireCheckpoint (v : jsval) : bool :=
  is_record v &&
  is_num 1 (field v "version") && isSafeNonNegativeInteger (field v "epoch") &&
  isSafeNonNegativeInteger (field v "first_tick") &&
  isSafeNonNegativeInteger (field v "last_tick") &&
  isSafeNonNegativeInteger (field v "event_count") &&
  isBoundedString (field v "event_root") 128 && isBoundedString (field v "state_digest") 128 &&
  isBoundedString (field v "previous_checkpoint") 128 &&
  isBoundedString (field v "checkpoint_digest") 128 &&
  isBoundedString (field v "canonical_envelope") 8192 &&
  isBoundedStringArray (field v "created_asset_ids") 64.

Definition isWireEvent (v : jsval) : bool :=
  is_record v && isSafeNonNegativeInteger (field v "tick") &&
  isBoundedString (field v "canonical_payload") MAX_EVENT_PAYLOAD_LENGTH &&
  isBoundedStringArray (field v "created_asset_ids") 64.

Definition read_wire_checkpoint (v : jsval) : GameItemVerificationWireCheckpoint :=
  mkWireCheckpoint (number_of (field v "epoch")) (number_of (field v "first_tick"))
    (number_of (field v "last_tick")) (number_of (field v "event_count"))
    (string_of (field v "event_root")) (string_of (field v "state_digest"))
    (string_of (field v "previous_checkpoint")) (string_of (field v "checkpoint_digest"))
    (string_of (field v "canonical_envelope"))
    (map string_of (elements_of (field v "created_asset_ids"))).
Definition read_wire_event (v : jsval) : GameItemVerificationWireEvent :=
  mkWireEvent (number_of (field v "tick")) (string_of (field v "canonical_payload"))
    (map string_of (elements_of (field v "created_asset_ids"))).

(** [undefined], or the request the value is cast to. *)
Definition decodeGameCheckpointVerificationRequest (v : jsval)
    : option GameCheckpointVerificationRequest :=
  if negb (is_record v) || negb (is_array (field v "events")) then None
  else if negb (is_num 1 (field v "version")) ||
          negb (isSafeNonNegativeInteger (field v "seed")) ||
          negb (isBoundedString (field v "player_id") 256) ||
          negb (isBoundedString (field v "owner_public_key") 64) ||
          negb (is_hex 64 (string_of (field v "owner_public_key"))) ||
          negb (isWireCheckpoint (field v "checkpoint")) ||
          negb (Z.of_nat (length (elements_of (field v "events"))) =? CHECKPOINT_EVENT_COUNT) ||
          negb (forallb isWireEvent (elements_of (field v "events")))
  then None
  else Some (mkCheckpointRequest (number_of (field v "seed")) (string_of (field v "player_id"))
               (string_of (field v "owner_public_key"))
               (read_wire_checkpoint (field v "checkpoint"))
               (map read_wire_event (elements_of (field v "events")))).

Definition decodeItemRequest (v : jsval) : option GameItemVerificationRequest :=
  match decodeGameCheckpointVerificationRequest v with
  | None => None
  | Some checkpointRequest =>
      if negb (is_record v) || negb (isBoundedString (field v "asset_id") 1024) ||
         negb (isBoundedString (field v "owner_signature") 128) ||
         negb (is_hex 128 (string_of (field v "owner_signature")))
      then None
      else Some (mkItemRequest (mkUnsignedRequest checkpointRequest (string_of (field v "asset_id")))
                   (string_of (field v "owner_signature")))
  end.

(** ** Building requests *)

Definition wire_checkpoint (c : GameMicroCheckpoint) : GameItemVerificationWireCheckpoint :=
  mkWireCheckpoint (epoch c) (firstTick c) (lastTick c) (eventCount c) (eventRoot c)
    (stateDigest c) (previousCheckpoint c) (checkpointDigest c) (canonicalEnvelope c)
    (createdAssetIds c).
Definition wire_event (e : PendingAuditEvent) : GameItemVerificationWireEvent :=
  mkWireEvent (event_tick e) (canonicalPayload e) (event_createdAssetIds e).

Definition checkpointRequestAt (journal : GameAuditJournalState) (ep : Z)
    : throws GameCheckpointVerificationRequest :=
  throw_if (negb (isSafeInteger ep) || (ep <? 0))
    (js "checkpoint epoch must be a non-negative safe integer") $
  match checkpoints journal !! Z.to_nat ep with
  | None => inl (js "checkpoint is unavailable")
  | Some checkpoint =>
      match List.find (fun s => str_eqb (segment_checkpointDigest s) (checkpointDigest checkpoint))
              (retainedSegments journal) with
      | None => inl (js "checkpoint transcript is unavailable")
      | Some segment =>
          inr (mkCheckpointRequest (journal_seed journal) (journal_playerId journal)
                 (journal_ownerPublicKey journal) (wire_checkpoint checkpoint)
                 (map wire_event (events segment)))
      end
  end.

Definition buildGameCheckpointVerificationRequest (journal : GameAuditJournalState) (ep : Z)
    : throws GameCheckpointVerificationRequest :=
  checkpointRequestAt journal ep.

Definition buildGameItemVerificationRequest (journal : GameAuditJournalState) (asset : jsstr)
    : throws UnsignedGameItemVerificationRequest :=
  match List.find (fun c => bool_decide (asset ∈ createdAssetIds c)) (checkpoints journal) with
  | None => inl (js "asset is not bound to a sealed checkpoint")
  | Some checkpoint =>
      let! request := checkpointRequestAt journal (epoch checkpoint) in
      inr (mkUnsignedRequest request asset)
  end.

Definition ownerBoundary (request : UnsignedGameItemVerificationRequest)
    : GameItemOwnerProofBoundary :=
  mkOwnerBoundary (cr_player_id (ur_request request)) (cr_seed (ur_request request))
    (wc_checkpoint_digest (cr_checkpoint (ur_request request))) (ur_asset_id request)
    (cr_owner_public_key (ur_request request)).

Definition authenticateGameItemVerificationRequest (unit : jsstr)
    (request : UnsignedGameItemVerificationRequest) (digest : AuditDigestAdapter)
    (signer : GameOwnerSigner) : throws GameItemVerificationRequest :=
  let! owner_signature :=
    signGameItemOwnerProof unit (ownerBoundary request) (hashString digest) signer in
  inr (mkItemRequest request owner_signature).

Definition authenticateGameItemVerificationRequestAsync (unit : jsstr)
    (request : UnsignedGameItemVerificationRequest) (digest : AsyncGameOwnerDigestAdapter)
    (signer : AsyncGameOwnerSigner) : option (throws GameItemVerificationRequest) :=
  signed ← signGameItemOwnerProofAsync unit (ownerBoundary request) digest signer;
  Some (let! owner_signature := signed in inr (mkItemRequest request owner_signature)).

Inductive OwnerProofReason := proof_invalid_request | proof_authentication_refused.

Definition verifyGameItemCreationOwnerProofAsync (unit : jsstr) (input : jsval)
    (digest : AsyncGameOwnerDigestAdapter) (verifier : AsyncGameOwnerSignatureVerifier)
    : option (result () OwnerProofReason) :=
  match decodeItemRequest input with
  | None => Some (Err proof_invalid_request)
  | Some request =>
      if negb (isBounded unit 128) then Some (Err proof_invalid_request)
      else
        ok ← verifyGameItemOwnerProofAsync unit (ownerBoundary (ir_unsigned request))
               (ir_owner_signature request) digest verifier;
        if negb ok then Some (Err proof_authentication_refused) else Some (Ok ())
  end.

Section Verify.
Context `{JsHost}.

(** ** Verification by replay *)

Definition checkpointFirstTick (c : GameItemVerificationWireCheckpoint) : Z :=
  wc_epoch c * CHECKPOINT_EVENT_COUNT + 1.

Definition ticksRefused (c : GameItemVerificationWireCheckpoint) : bool :=
  let firstTick := checkpointFirstTick c in
  let lastTick := firstTick + CHECKPOINT_EVENT_COUNT - 1 in
  negb (isSafeInteger firstTick) || negb (wc_first_tick c =? firstTick) ||
  negb (wc_last_tick c =? lastTick) || negb (wc_event_count c =? CHECKPOINT_EVENT_COUNT).

Definition parentBindingRefused (request : GameCheckpointVerificationRequest)
    (parent : GameCheckpointVerificationParent) : bool :=
  (slen (parent_checkpointDigest parent) =? 0) || (slen (parent_stateDigest parent) =? 0) ||
  negb (str_eqb (parent_ownerPublicKey parent) (cr_owner_public_key request)) ||
  negb (seed (parent_state parent) =? cr_seed request) ||
  negb (str_eqb (player_id (player (parent_state parent))) (cr_player_id request)) ||
  negb (tick (parent_state parent) =? checkpointFirstTick (cr_checkpoint request) - 1).

(** The state the replay starts from and the checkpoint it continues. *)
Definition replayStart (request : GameCheckpointVerificationRequest) (digest : AuditDigestAdapter)
    (parent : option GameCheckpointVerificationParent)
    : throws (result (GameState * jsstr) CheckpointReason) :=
  if wc_epoch (cr_checkpoint request) =? 0 then
    let! state := createInitialGame (mkCreateGame (cr_seed request) (cr_player_id request)) in
    inr (Ok (state, hashString digest
      (canonicalAuditGenesis (cr_seed request) (cr_player_id request)
         (cr_owner_public_key request))))
  else
    match parent with
    | None => inr (Err unverified_parent)
    | Some parent =>
        if parentBindingRefused request parent ||
           negb (str_eqb (hashString digest (canonicalGameState (parent_state parent)))
                   (parent_stateDigest parent))
        then inr (Err invalid_parent_state)
        else inr (Ok (parent_state parent, parent_checkpointDigest parent))
    end.

(** The items of the [item_dropped] effects, in effect order. *)
Definition eventItems (effects : list StepEffect) : list InventoryItem :=
  omap (fun effect => match effect with
                      | item_dropped drop _ => Some (drop_item drop)
                      | _ => None
                      end) effects.

(** The loop over the events, from [expectedTick]: the state reached, the
    items and the asset ids created. *)
Fixpoint replayEvents (state : GameState) (evs : list GameItemVerificationWireEvent)
    (expectedTick : Z)
    : result (GameState * list InventoryItem * list jsstr) CheckpointReason :=
  match evs with
  | [] => Ok (state, [], [])
  | event :: evs' =>
      match decodeCanonicalAuditEvent (we_canonical_payload event) with
      | None => Err invalid_event
      | Some input =>
          if negb (we_tick event =? expectedTick) || negb (input_tick input =? we_tick event)
          then Err invalid_event
          else
            match advanceGame state input with
            | Err _ => Err invalid_event
            | Ok (state', effects) =>
                if negb (str_eqb (canonicalAuditEvent input effects) (we_canonical_payload event))
                then Err event_replay_mismatch
                else
                  let items := eventItems effects in
                  let eventAssetIds := sort_strings (map assetId items) in
                  if negb (str_eqb (stringify (JArr (map JStr eventAssetIds)))
                             (stringify (JArr (map JStr (we_created_asset_ids event)))))
                  then Err event_replay_mismatch
                  else
                    match replayEvents state' evs' (expectedTick + 1) with
                    | Err reason => Err reason
                    | Ok (state'', items', ids') =>
                        Ok (state'', items ++ items', eventAssetIds ++ ids')
                    end
            end
      end
  end.

Definition recomputedEnvelope (c : GameItemVerificationWireCheckpoint)
    (eventRoot stateDigest previous : jsstr) (assetIds : list jsstr) : jsstr :=
  canonicalMicroCheckpointEnvelope
    (mkEnvelope (wc_epoch c) (wc_first_tick c) (wc_last_tick c) (wc_event_count c)
       eventRoot stateDigest previous assetIds).

Definition verifyGameCheckpoint (input : jsval) (digest : AuditDigestAdapter)
    (parent : option GameCheckpointVerificationParent) : throws VerifyGameCheckpointResult :=
  match decodeGameCheckpointVerificationRequest input with
  | None => inr (Err invalid_request)
  | Some request =>
      let c := cr_checkpoint request in
      if ticksRefused c then inr (Err unsupported_checkpoint)
      else
        let! start := replayStart request digest parent in
        match start with
        | Err reason => inr (Err reason)
        | Ok (state, previous) =>
            match replayEvents state (cr_events request) (checkpointFirstTick c) with
            | Err reason => inr (Err reason)
            | Ok (state', createdItems, ids) =>
                let assetIds := sort_strings ids in
                let root := merkleRoot digest (map we_canonical_payload (cr_events request)) in
                let sdigest := hashString digest (canonicalGameState state') in
                let envelope := recomputedEnvelope c root sdigest previous assetIds in
                if negb (str_eqb root (wc_event_root c)) ||
                   negb (str_eqb sdigest (wc_state_digest c)) ||
                   negb (str_eqb previous (wc_previous_checkpoint c)) ||
                   negb (str_eqb (stringify (JArr (map JStr assetIds)))
                           (stringify (JArr (map JStr (wc_created_asset_ids c))))) ||
                   negb (str_eqb envelope (wc_canonical_envelope c)) ||
                   negb (str_eqb (hashString digest envelope) (wc_checkpoint_digest c))
                then inr (Err checkpoint_mismatch)
                else inr (Ok (mkVerified state' c createdItems))
            end
        end
  end.

(** ** Commitments with an asynchronous backend *)

Definition verifyGameCheckpointCommitmentsAsync (input : jsval) (state : GameState)
    (digest : AsyncAuditDigestAdapter) (parentCheckpointDigest : option jsstr)
    : option (result () CheckpointReason) :=
  match decodeGameCheckpointVerificationRequest input with
  | None => Some (Err invalid_request)
  | Some request =>
      let c := cr_checkpoint request in
      if ticksRefused c then Some (Err unsupported_checkpoint)
      else if negb (seed state =? cr_seed request) ||
              negb (str_eqb (player_id (player state)) (cr_player_id request)) ||
              negb (tick state =? wc_last_tick c)
      then Some (Err checkpoint_mismatch)
      else
        previous ←
          (if wc_epoch c =? 0 then
             Ok <$> hashStringAsync digest
               (canonicalAuditGenesis (cr_seed request) (cr_player_id request)
                  (cr_owner_public_key request))
           else
             match parentCheckpointDigest with
             | None | Some [] => Some (Err unverified_parent)
             | Some parent => Some (Ok parent)
             end : option (result jsstr CheckpointReason));
        match previous with
        | Err reason => Some (Err reason)
        | Ok previous =>
            root ← merkleRootAsync digest (map we_canonical_payload (cr_events request));
            sdigest ← hashStringAsync digest (canonicalGameState state);
            let envelope := recomputedEnvelope c root sdigest previous (wc_created_asset_ids c) in
            edigest ← hashStringAsync digest envelope;
            if negb (str_eqb root (wc_event_root c)) ||
               negb (str_eqb sdigest (wc_state_digest c)) ||
               negb (str_eqb previous (wc_previous_checkpoint c)) ||
               negb (str_eqb envelope (wc_canonical_envelope c)) ||
               negb (str_eqb edigest (wc_checkpoint_digest c))
            then Some (Err checkpoint_mismatch)
            else Some (Ok ())
        end
  end.

Definition verifyReplayedGameCheckpointCommitmentsAsync (input : jsval) (state : GameState)
    (digest : AsyncAuditDigestAdapter) (parent : option GameCheckpointVerificationParent)
    : option (result () CheckpointReason) :=
  match decodeGameCheckpointVerificationRequest input with
  | None => Some (Err invalid_request)
  | Some request =>
      let commitments :=
        verifyGameCheckpointCommitmentsAsync input state digest
          (parent_checkpointDigest <$> parent) in
      if 0 <? wc_epoch (cr_checkpoint request) then
        match parent with
        | None => Some (Err unverified_parent)
        | Some p =>
            if parentBindingRefused request p then Some (Err invalid_parent_state)
            else
              sdigest ← hashStringAsync digest (canonicalGameState (parent_state p));
              if negb (str_eqb sdigest (parent_stateDigest p))
              then Some (Err invalid_parent_state)
              else commitments
        end
      else commitments
  end.

(** [inl] and [None] are rejections: a thrown error, or the backend's. *)
Definition verifyGameCheckpointDual (input : jsval) (moonBitDigest : AuditDigestAdapter)
    (standardDigest : AsyncAuditDigestAdapter) (parent : option GameCheckpointVerificationParent)
    : throws (option VerifyGameCheckpointResult) :=
  let! moonBit := verifyGameCheckpoint input moonBitDigest parent in
  match moonBit with
  | Err reason => inr (Some (Err reason))
  | Ok checked =>
      inr (standard ← verifyReplayedGameCheckpointCommitmentsAsync input (vc_state checked)
                        standardDigest parent;
           match standard with
           | Err reason => Some (Err reason)
           | Ok _ => Some (Ok checked)
           end)
  end.

(** ** Creation of an item *)

Definition verifyGameItemCreation (unit : jsstr) (input : jsval) (digest : AuditDigestAdapter)
    (signatureVerifier : GameOwnerSignatureVerifier)
    (parent : option GameCheckpointVerificationParent) : throws VerifyGameItemCreationResult :=
  match decodeItemRequest input with
  | None => inr (Err (checkpoint_refused invalid_request))
  | Some request =>
      if negb (isBounded unit 128) then inr (Err (checkpoint_refused invalid_request))
      else
        let unsigned := ir_unsigned request in
        let ownerKey := cr_owner_public_key (ur_request unsigned) in
        if negb (verifyGameItemOwnerProof unit (ownerBoundary unsigned)
                   (ir_owner_signature request) (hashString digest) signatureVerifier)
        then inr (Err owner_authentication_refused)
        else
          let! checked := verifyGameCheckpoint input digest parent in
          match checked with
          | Err reason => inr (Err (checkpoint_refused reason))
          | Ok v =>
              let c := vc_checkpoint v in
              match List.find (fun i => str_eqb (assetId i) (ur_asset_id unsigned))
                      (vc_createdItems v) with
              | None => inr (Err asset_not_created)
              | Some item =>
                  let receiptId := gameItemAuthorityReceiptId unit
                    (mkItemIdentity (wc_checkpoint_digest c) (assetId item) (ownerId item)
                       ownerKey (wc_epoch c)) (hashString digest) in
                  let! ownerHead := createInitialGameAssetOwnershipHead unit
                    (mkOrigin (assetId item) receiptId (ownerId item) ownerKey)
                    (hashString digest) in
                  inr (Ok (mkVerifiedItem
                    (mkAuthorityReceipt receiptId (assetId item) (ownerId item) ownerKey
                       (version ownerHead) (headId ownerHead) (wc_checkpoint_digest c)
                       (wc_epoch c))
                    item (vc_state v) c))
              end
          end
  end.
End Verify.
