(* ===== verification/Replay.v ===== *)
(** * Facts about replay

    The authority's replay loop accepts exactly the canonical events of a run
    of the kernel. *)
From S2P Require Import Prelude Json Contracts Kernel KernelFacts Journal JournalFacts Chain.
From S2P Require Import Session Snapshot SnapshotFacts OwnerAuth Ownership ItemVerification.
Set Default Goal Selector "!".

Section Replay.
Context `{JsHost}.

(** ** Numbers of the effects *)

Definition effect_safe (f : StepEffect) : Prop := safe_plain (canonicalEffect f) = true.

Lemma deriveDrop_power sd pid e t :
  1 <= power (drop_item (deriveDrop sd pid e t 0)) <= 100.
Proof.
  unfold deriveDrop. cbn [drop_item power].
  match goal with |- _ <= 1 + ?a mod 100 <= _ => pose proof (Z.mod_pos_bound a 100 ltac:(lia)) end.
  lia.
Qed.

Lemma attacked_safe es p t sd es' ds fx :
  attacked es p t sd es' ds fx -> Forall enemy_ok es -> isSafeInteger t = true ->
  Forall effect_safe fx.
Proof.
  intros Ha Hes Ht.
  assert (Hk : forall z, 0 <= z <= 2000 -> isSafeInteger z = true)
    by (intros; apply isSafeInteger_spec; unfold MAX_SAFE_INTEGER; lia).
  assert (Hn : forall id z, isSafeInteger z = true -> effect_safe (auto_attack id z t)).
  { intros id z Hz. unfold effect_safe, safe_plain. cbn [canonicalEffect plain_with forallb].
    by rewrite Ht, Hz. }
  assert (Hd : forall id, effect_safe (enemy_killed id t)).
  { intros id. unfold effect_safe, safe_plain. cbn [canonicalEffect plain_with forallb].
    by rewrite Ht. }
  destruct Ha as [|target Hin Hh|target Hin Hh]; repeat constructor; auto.
  rewrite Forall_forall in Hes. destruct (Hes _ Hin) as (Hx & Hy & _).
  pose proof (deriveDrop_power sd (player_id p) target t).
  unfold effect_safe, safe_plain. cbn [canonicalEffect plain_with forallb canonicalItem].
  change (drop_x (deriveDrop sd (player_id p) target t 0)) with (enemy_x target).
  change (drop_y (deriveDrop sd (player_id p) target t 0)) with (enemy_y target).
  change (killTick (drop_item (deriveDrop sd (player_id p) target t 0))) with t.
  change (dropIndex (drop_item (deriveDrop sd (player_id p) target t 0))) with 0.
  rewrite Ht, !Hk by lia. done.
Qed.

Lemma resolveTelegraphs_safe ts p t p' rem fx :
  resolveTelegraphs ts p t = (p', rem, fx) -> isSafeInteger t = true -> Forall effect_safe fx.
Proof.
  revert p p' rem fx. induction ts as [|tg ts IH]; intros p p' rem fx; simpl.
  - by intros; simplify_eq.
  - intros E Ht. revert E.
    case_match; destruct (resolveTelegraphs ts _ t) as [[p1 rem1] fx1] eqn:Er; intros;
      simplify_eq; [eapply IH; [exact Er|exact Ht]|].
    constructor; [|eapply IH; [exact Er|exact Ht]].
    unfold effect_safe, safe_plain. cbn [canonicalEffect plain_with forallb]. by rewrite Ht.
Qed.

(** The effects of a tick have safe numbers only. *)
Lemma tick_effects_safe g i g' fx :
  game_inv g -> advanceGame g i = Ok (g', fx) -> tick g < MAX_SAFE_INTEGER ->
  Forall effect_safe fx.
Proof.
  intros Hg Ha Hb. pose proof (inv_tick g Hg).
  assert (Ht : isSafeInteger (tick g + 1) = true) by (apply isSafeInteger_spec; lia).
  apply advanceGame_Ok in Ha as (_ & Hh & Hv & es & ds & afx & p & rem & tfx & Hatt & Htel & _ & ->).
  rewrite !Forall_app. split_and!.
  - eapply attacked_safe; [exact Hatt| |exact Ht].
    rewrite List.Forall_map. eapply Forall_impl; [exact (inv_enemies g Hg)|].
    intros e He. apply moveToward_ok; [..|done]; apply (movePlayer_ok g i (inv_player g Hg)).
  - by eapply resolveTelegraphs_safe.
  - rewrite List.Forall_map. apply Forall_true. intros d.
    unfold effect_safe, safe_plain. cbn [canonicalEffect plain_with forallb]. by rewrite Ht.
Qed.

(** ** The loop *)

(** The wire events of a run from tick [t]. *)
Fixpoint run_events (inputs : list InputFrame) (fxs : list (list StepEffect))
    : list GameItemVerificationWireEvent :=
  match inputs, fxs with
  | i :: inputs', fx :: fxs' =>
      mkWireEvent (input_tick i) (canonicalAuditEvent i fx)
        (sort_strings (map assetId (eventItems fx))) :: run_events inputs' fxs'
  | _, _ => []
  end.

Definition run_assets (fxs : list (list StepEffect)) : list jsstr :=
  flat_map (fun fx => sort_strings (map assetId (eventItems fx))) fxs.

Lemma replay_sound evs s t s' items ids :
  replayEvents s evs t = Ok (s', items, ids) ->
  exists inputs fxs, runGame s inputs = Ok (s', fxs) /\ evs = run_events inputs fxs /\
    length inputs = length evs /\ items = flat_map eventItems fxs /\ ids = run_assets fxs.
Proof.
  revert s t items ids. induction evs as [|e evs IH]; intros s t items ids; cbn [replayEvents].
  - intros E. injection E as <- <- <-. by exists [], [].
  - destruct (decodeCanonicalAuditEvent _) as [i|] eqn:Ed; [|done]. intros E. guard_step E.
    destruct (advanceGame s i) as [[s1 fx]|] eqn:Ea; [|done]. cbv zeta in E.
    guard_step E. guard_step E.
    destruct (replayEvents s1 evs (t + 1)) as [[[s2 items2] ids2]|] eqn:Er; [|done].
    injection E as <- <- <-. bool_split. apply str_eqb_eq in Hg0, Hg1.
    apply stringify_strings_inj in Hg1.
    destruct (IH _ _ _ _ Er) as (inputs & fxs & Hrun & -> & Hl & -> & ->).
    exists (i :: inputs), (fx :: fxs). simpl. rewrite Ea, Hrun. split_and!; try done.
    + destruct e; simpl in *. by subst.
    + simpl. by f_equal.
Qed.

Lemma replay_complete inputs s s' fxs :
  game_inv s -> runGame s inputs = Ok (s', fxs) -> tick s' <= MAX_SAFE_INTEGER ->
  replayEvents s (run_events inputs fxs) (tick s + 1)
  = Ok (s', flat_map eventItems fxs, run_assets fxs).
Proof.
  revert s fxs. induction inputs as [|i inputs IH]; intros s fxs Hs Hrun Hb.
  - injection Hrun as <- <-. done.
  - destruct (run_inv _ _ _ _ Hs Hrun) as (_ & _ & _ & _ & Ht & _). cbn [length] in Ht.
    simpl in Hrun. destruct (advanceGame s i) as [[s1 fx]|] eqn:Ea; [|done].
    destruct (runGame s1 inputs) as [[s2 rest]|] eqn:Er; [|done]. injection Hrun as -> <-.
    pose proof (advanceGame_Ok _ _ _ _ Ea) as (Hti & Hh & Hv & _).
    pose proof (tick_frame _ _ _ _ Ea) as (_ & Ht1 & _).
    pose proof (inv_tick s Hs).
    cbn [run_events replayEvents we_canonical_payload we_tick we_created_asset_ids].
    rewrite decode_canonical; [|apply (tick_effects_safe s i s1 fx Hs Ea); lia| |done|done].
    + rewrite Hti, !Z.eqb_refl, Ea, !str_eqb_refl. cbn [negb orb]. cbv zeta.
      rewrite <- Ht1, (IH s1 rest (tick_inv _ _ _ _ Hs Ea) Er Hb). done.
    + apply isSafeInteger_spec. lia.
Qed.

(** What verification reads from a run of the kernel, and the loop's order. *)
Lemma eventItems_dropped fx : eventItems fx = dropped_items fx.
Proof. done. Qed.

Lemma run_assets_perm fxs : run_assets fxs ≡ₚ map assetId (flat_map eventItems fxs).
Proof.
  induction fxs as [|fx fxs IH]; simpl; [done|].
  rewrite map_app. by rewrite sort_strings_perm, IH.
Qed.
End Replay.
