(* ===== verification/VerificationFacts.v ===== *)
(** * Facts about item verification

    What the authority accepts is a run of the kernel: soundness of a verified
    history, completeness for an honest client, agreement of the two crypto
    backends, and the receipt of a created item. *)
From S2P Require Import Prelude Json Contracts Kernel KernelFacts Journal JournalFacts Chain.
From S2P Require Import Session Snapshot SnapshotFacts OwnerAuth Ownership OwnerFacts.
From S2P Require Import ItemVerification Replay.
Set Default Goal Selector "!".

(** ** Wire values as journal values *)

Definition unwire_checkpoint (c : GameItemVerificationWireCheckpoint) : GameMicroCheckpoint :=
  mkCheckpoint (wc_epoch c) (wc_first_tick c) (wc_last_tick c) (wc_event_count c)
    (wc_event_root c) (wc_state_digest c) (wc_previous_checkpoint c) (wc_checkpoint_digest c)
    (wc_canonical_envelope c) (wc_created_asset_ids c).
Definition unwire_event (e : GameItemVerificationWireEvent) : PendingAuditEvent :=
  mkEvent (we_tick e) (we_canonical_payload e) (we_created_asset_ids e).
Definition unwire_segment (r : GameCheckpointVerificationRequest) : RetainedAuditSegment :=
  mkSegment (wc_epoch (cr_checkpoint r)) (wc_checkpoint_digest (cr_checkpoint r))
    (map unwire_event (cr_events r)).

Section Runs.
Context `{JsHost}.

Lemma run_app inputs inputs' g g1 g2 fxs fxs' :
  runGame g inputs = Ok (g1, fxs) -> runGame g1 inputs' = Ok (g2, fxs') ->
  runGame g (inputs ++ inputs') = Ok (g2, fxs ++ fxs').
Proof.
  revert g fxs. induction inputs as [|i inputs IH]; intros g fxs Hr Hr'; simpl in *.
  - by injection Hr as -> <-.
  - destruct (advanceGame g i) as [[g' fx]|]; [|done].
    destruct (runGame g' inputs) as [[g3 rest]|] eqn:Er; [|done]. injection Hr as -> <-.
    by rewrite (IH _ _ Er Hr').
Qed.

Lemma run_events_app inputs inputs' fxs fxs' :
  length inputs = length fxs ->
  run_events (inputs ++ inputs') (fxs ++ fxs') = run_events inputs fxs ++ run_events inputs' fxs'.
Proof.
  revert fxs. induction inputs as [|i inputs IH]; intros [|fx fxs] Hl; simpl in *; try done.
  f_equal. apply IH. lia.
Qed.

Lemma run_ticks inputs g g' fxs :
  runGame g inputs = Ok (g', fxs) ->
  ticks_from (tick g + 1) (map unwire_event (run_events inputs fxs)) /\
  length (run_events inputs fxs) = length inputs.
Proof.
  revert g fxs. induction inputs as [|i inputs IH]; intros g fxs Hr; simpl in *.
  - injection Hr as -> <-. done.
  - destruct (advanceGame g i) as [[g1 fx]|] eqn:Ea; [|done].
    destruct (runGame g1 inputs) as [[g2 rest]|] eqn:Er; [|done]. injection Hr as -> <-.
    destruct (IH _ _ Er) as [Ht Hl].
    pose proof (advanceGame_Ok _ _ _ _ Ea) as (Hti & _).
    pose proof (tick_frame _ _ _ _ Ea) as (_ & Ht1 & _).
    cbn [run_events map ticks_from length]. rewrite <- Ht1. split_and!; try done; [|by f_equal].
    cbn [unwire_event event_tick we_tick]. lia.
Qed.

Lemma run_loot inputs g g' fxs :
  game_inv g -> runGame g inputs = Ok (g', fxs) ->
  loot g' ≡ₚ loot g ++ flat_map eventItems fxs.
Proof.
  revert g fxs. induction inputs as [|i inputs IH]; intros g fxs Hg Hr; simpl in *.
  - injection Hr as -> <-. by rewrite app_nil_r.
  - destruct (advanceGame g i) as [[g1 fx]|] eqn:Ea; [|done].
    destruct (runGame g1 inputs) as [[g2 rest]|] eqn:Er; [|done]. injection Hr as -> <-.
    rewrite (IH g1 rest (tick_inv _ _ _ _ Hg Ea) Er).
    destruct (tick_loot g i g1 fx Hg Ea) as [Hl _]. simpl.
    by rewrite Hl, app_assoc.
Qed.

(** The assets a run creates are pairwise distinct. *)
Lemma run_assets_NoDup inputs g g' fxs :
  game_inv g -> runGame g inputs = Ok (g', fxs) -> NoDup (run_assets fxs).
Proof.
  intros Hg Hr. rewrite run_assets_perm.
  pose proof (inv_assetIds g' (proj1 (run_inv _ _ _ _ Hg Hr))) as Hn.
  rewrite (Permutation_map assetId (run_loot _ _ _ _ Hg Hr)), map_app in Hn.
  by apply NoDup_app in Hn as (_ & _ & Hn).
Qed.

Lemma run_events_assets inputs fxs :
  length inputs = length fxs ->
  flat_map event_createdAssetIds (map unwire_event (run_events inputs fxs)) = run_assets fxs.
Proof.
  revert fxs. induction inputs as [|i inputs IH]; intros [|fx fxs] Hl; simpl in *; try done.
  f_equal. apply IH. lia.
Qed.

Lemma unwire_payloads evs :
  map canonicalPayload (map unwire_event evs) = map we_canonical_payload evs.
Proof. rewrite map_map. by apply map_ext. Qed.

Context (digest : AuditDigestAdapter).

(** ** Soundness of one verification *)

(** Everything an accepted verification has checked. *)
Record verified_run (r : GameCheckpointVerificationRequest) (start : GameState) (prev : jsstr)
    (v : VerifiedCheckpoint) (inputs : list InputFrame) (fxs : list (list StepEffect)) : Prop := {
  vr_ticks : ticksRefused (cr_checkpoint r) = false;
  vr_run : runGame start inputs = Ok (vc_state v, fxs);
  vr_events : cr_events r = run_events inputs fxs;
  vr_length : length inputs = 30%nat;
  vr_checkpoint : vc_checkpoint v = cr_checkpoint r;
  vr_items : vc_createdItems v = flat_map eventItems fxs;
  vr_root : wc_event_root (cr_checkpoint r) =
    merkleRoot digest (map we_canonical_payload (cr_events r));
  vr_state : wc_state_digest (cr_checkpoint r) = hashString digest (canonicalGameState (vc_state v));
  vr_previous : wc_previous_checkpoint (cr_checkpoint r) = prev;
  vr_assets : wc_created_asset_ids (cr_checkpoint r) = sort_strings (run_assets fxs);
  vr_envelope : wc_canonical_envelope (cr_checkpoint r) =
    canonicalMicroCheckpointEnvelope (envelope_fields (unwire_checkpoint (cr_checkpoint r)));
  vr_digest : wc_checkpoint_digest (cr_checkpoint r) =
    hashString digest (wc_canonical_envelope (cr_checkpoint r));
}.

Lemma decode_events input r :
  decodeGameCheckpointVerificationRequest input = Some r -> length (cr_events r) = 30%nat.
Proof.
  unfold decodeGameCheckpointVerificationRequest. intros E. guards E. injection E as <-.
  bool_split. cbn [cr_events]. rewrite length_map.
  match goal with K : _ = CHECKPOINT_EVENT_COUNT |- _ => unfold CHECKPOINT_EVENT_COUNT in K; lia end.
Qed.

(** The commitments of a wire checkpoint, recomputed. *)
Definition commitments_match (r : GameCheckpointVerificationRequest) (prev : jsstr)
    (state : GameState) (ids : list jsstr) : Prop :=
  let c := cr_checkpoint r in
  merkleRoot digest (map we_canonical_payload (cr_events r)) = wc_event_root c /\
  hashString digest (canonicalGameState state) = wc_state_digest c /\
  prev = wc_previous_checkpoint c /\
  sort_strings ids = wc_created_asset_ids c /\
  canonicalMicroCheckpointEnvelope (envelope_fields (unwire_checkpoint c))
    = wc_canonical_envelope c /\
  hashString digest (wc_canonical_envelope c) = wc_checkpoint_digest c.

Lemma verify_iff input parent v :
  verifyGameCheckpoint input digest parent = inr (Ok v) <->
  exists r start prev ids,
    decodeGameCheckpointVerificationRequest input = Some r /\
    ticksRefused (cr_checkpoint r) = false /\
    replayStart r digest parent = inr (Ok (start, prev)) /\
    replayEvents start (cr_events r) (checkpointFirstTick (cr_checkpoint r))
      = Ok (vc_state v, vc_createdItems v, ids) /\
    vc_checkpoint v = cr_checkpoint r /\ commitments_match r prev (vc_state v) ids.
Proof.
  unfold verifyGameCheckpoint, commitments_match, recomputedEnvelope. cbv zeta. split.
  - destruct (decodeGameCheckpointVerificationRequest input) as [r|] eqn:Ed; [|done].
    destruct (ticksRefused (cr_checkpoint r)) eqn:Et; [done|].
    destruct (replayStart r digest parent) as [|[[start prev]|]] eqn:Es; cbn [throw_bind];
      [done| |done].
    destruct (replayEvents start _ _) as [[[s' items] ids]|] eqn:Er; [|done].
    intros E. guard_step E. injection E as <-. bool_split.
    repeat match goal with K : str_eqb _ _ = true |- _ => apply str_eqb_eq in K end.
    match goal with K : stringify _ = _ |- _ => apply stringify_strings_inj in K end.
    exists r, start, prev, ids. cbn [vc_state vc_checkpoint vc_createdItems].
    unfold envelope_fields, unwire_checkpoint.
    cbn [epoch firstTick lastTick eventCount eventRoot stateDigest previousCheckpoint
         createdAssetIds]. split_and!; congruence.
  - intros (r & start & prev & ids & -> & -> & -> & Hr & Hc & Hroot & Hst & Hprev & Hids & Henv & Hd).
    cbn [throw_bind]. rewrite Hr.
    unfold envelope_fields, unwire_checkpoint in Henv.
    cbn [epoch firstTick lastTick eventCount eventRoot stateDigest previousCheckpoint
         createdAssetIds] in Henv.
    rewrite Hroot, Hst, Hprev, Hids, Henv, Hd, !str_eqb_refl. cbn [negb orb].
    destruct v. simpl in *. by rewrite Hc.
Qed.

Lemma verify_Ok input parent v :
  verifyGameCheckpoint input digest parent = inr (Ok v) ->
  exists r start prev inputs fxs,
    decodeGameCheckpointVerificationRequest input = Some r /\
    replayStart r digest parent = inr (Ok (start, prev)) /\
    verified_run r start prev v inputs fxs.
Proof.
  intros (r & start & prev & ids & Hd & Ht & Hs & Hr & Hc & Hroot & Hst & Hprev & Hids & Henv & Hdi)
    %verify_iff.
  apply replay_sound in Hr as (inputs & fxs & Hrun & Hev & Hl & Hit & ->).
  exists r, start, prev, inputs, fxs. split_and!; [done..|]. constructor; try congruence.
  rewrite Hl. by eapply decode_events.
Qed.

Lemma replayStart_Ok r parent start prev :
  replayStart r digest parent = inr (Ok (start, prev)) ->
  (wc_epoch (cr_checkpoint r) = 0 /\
   createInitialGame (mkCreateGame (cr_seed r) (cr_player_id r)) = inr start /\
   prev = hashString digest
     (canonicalAuditGenesis (cr_seed r) (cr_player_id r) (cr_owner_public_key r))) \/
  (wc_epoch (cr_checkpoint r) <> 0 /\ exists p, parent = Some p /\
   parentBindingRefused r p = false /\ start = parent_state p /\
   prev = parent_checkpointDigest p /\
   hashString digest (canonicalGameState start) = parent_stateDigest p).
Proof.
  unfold replayStart. destruct (Z.eqb_spec (wc_epoch (cr_checkpoint r)) 0) as [E0|E0].
  - destruct (createInitialGame _) as [|g]; simpl; [done|]. intros E. injection E as <- <-. by left.
  - destruct parent as [p|]; [|done]. intros E. guard_step E. injection E as <- <-.
    apply orb_false_iff in Hg as [Hg Hh]. bool_split. apply str_eqb_eq in Hh.
    right. split; [done|]. exists p. by split_and!.
Qed.

Lemma ticks_of r : ticksRefused (cr_checkpoint r) = false ->
  wc_first_tick (cr_checkpoint r) = wc_epoch (cr_checkpoint r) * 30 + 1 /\
  wc_last_tick (cr_checkpoint r) = wc_epoch (cr_checkpoint r) * 30 + 30 /\
  wc_event_count (cr_checkpoint r) = 30.
Proof.
  unfold ticksRefused, checkpointFirstTick, CHECKPOINT_EVENT_COUNT. cbv zeta. intros E.
  bool_split. lia.
Qed.

(** An accepted checkpoint is a sealed epoch of a chain over its events. *)
Lemma verified_sealed r start prev v inputs fxs :
  verified_run r start prev v inputs fxs -> game_inv start ->
  tick start = wc_epoch (cr_checkpoint r) * 30 ->
  sealed digest 30 prev (1 + 30 * wc_epoch (cr_checkpoint r)) (wc_epoch (cr_checkpoint r))
    (unwire_checkpoint (cr_checkpoint r)) (unwire_segment r).
Proof.
  intros Hv Hg Ht. pose proof (vr_run _ _ _ _ _ _ Hv) as Hr.
  destruct (ticks_of r (vr_ticks _ _ _ _ _ _ Hv)) as (Hf & Hl & Hc).
  destruct (run_inv _ _ _ _ Hg Hr) as (_ & _ & _ & _ & _ & Hlen).
  destruct (run_ticks _ _ _ _ Hr) as [Htk Hle]. pose proof (vr_length _ _ _ _ _ _ Hv).
  pose proof (vr_events _ _ _ _ _ _ Hv) as Hev.
  assert (Has : flat_map event_createdAssetIds (map unwire_event (cr_events r)) = run_assets fxs)
    by (rewrite Hev; apply run_events_assets; lia).
  constructor; cbn [unwire_checkpoint unwire_segment epoch segment_epoch segment_checkpointDigest
    checkpointDigest previousCheckpoint eventCount events firstTick lastTick eventRoot
    createdAssetIds canonicalEnvelope]; try done; try apply Hv; try lia.
  - rewrite length_map, Hev. lia.
  - rewrite Hev. replace (1 + 30 * wc_epoch (cr_checkpoint r)) with (tick start + 1) by lia. done.
  - rewrite unwire_payloads. apply Hv.
  - rewrite Has. apply Hv.
  - rewrite Has. by eapply run_assets_NoDup.
Qed.
End Runs.

(** ** A verified history *)

Section History.
Context `{JsHost} (digest : AuditDigestAdapter).

(** The parent record that a verified checkpoint leaves for its successor. *)
Definition parent_of (r : GameCheckpointVerificationRequest) (v : VerifiedCheckpoint)
    : GameCheckpointVerificationParent :=
  mkParent (wc_checkpoint_digest (vc_checkpoint v)) (wc_state_digest (vc_checkpoint v))
    (cr_owner_public_key r) (vc_state v).

(** Checkpoints verified one after the other, each against the record of the
    previous one; only epoch zero is verified without. *)
Inductive authority_verified
    : list GameCheckpointVerificationRequest -> GameCheckpointVerificationParent -> Prop :=
| authority_first input r v :
    decodeGameCheckpointVerificationRequest input = Some r ->
    wc_epoch (cr_checkpoint r) = 0 ->
    verifyGameCheckpoint input digest None = inr (Ok v) ->
    authority_verified [r] (parent_of r v)
| authority_next rs p input r v :
    authority_verified rs p ->
    decodeGameCheckpointVerificationRequest input = Some r ->
    wc_epoch (cr_checkpoint r) <> 0 ->
    verifyGameCheckpoint input digest (Some p) = inr (Ok v) ->
    authority_verified (rs ++ [r]) (parent_of r v).

Definition chain_of (rs : list GameCheckpointVerificationRequest) : list GameMicroCheckpoint :=
  map (fun r => unwire_checkpoint (cr_checkpoint r)) rs.

(** The history is one run of the kernel from the game of its first request. *)
Record honest_history (rs : list GameCheckpointVerificationRequest)
    (p : GameCheckpointVerificationParent) (r0 : GameCheckpointVerificationRequest)
    (inputs : list InputFrame) (fxs : list (list StepEffect)) : Prop := {
  hh_first : head rs = Some r0;
  hh_run : exists g0,
    createInitialGame (mkCreateGame (cr_seed r0) (cr_player_id r0)) = inr g0 /\
    runGame g0 inputs = Ok (parent_state p, fxs);
  hh_length : length inputs = (30 * length rs)%nat;
  hh_events : flat_map cr_events rs = run_events inputs fxs;
  hh_chain : chain_from digest 30
    (hashString digest
       (canonicalAuditGenesis (cr_seed r0) (cr_player_id r0) (cr_owner_public_key r0)))
    1 0 (chain_of rs) (map unwire_segment rs);
  hh_head : forall g, chain_head g (chain_of rs) = parent_checkpointDigest p;
  hh_state : parent_stateDigest p = hashString digest (canonicalGameState (parent_state p));
  hh_key : parent_ownerPublicKey p = cr_owner_public_key r0;
}.

Lemma verify_request input r parent v :
  decodeGameCheckpointVerificationRequest input = Some r ->
  verifyGameCheckpoint input digest parent = inr (Ok v) ->
  exists start prev inputs fxs, replayStart r digest parent = inr (Ok (start, prev)) /\
    verified_run digest r start prev v inputs fxs.
Proof.
  intros Hd Hv. apply verify_Ok in Hv as (r' & start & prev & inputs & fxs & Hd' & Hs & Hr).
  assert (r' = r) as -> by congruence. eauto 6.
Qed.

Lemma honest_first input r v :
  decodeGameCheckpointVerificationRequest input = Some r ->
  wc_epoch (cr_checkpoint r) = 0 ->
  verifyGameCheckpoint input digest None = inr (Ok v) ->
  exists inputs fxs, honest_history [r] (parent_of r v) r inputs fxs.
Proof.
  intros Hd He Hv. destruct (verify_request _ _ _ _ Hd Hv) as (start & prev & inputs & fxs & Hs & Hr).
  apply replayStart_Ok in Hs as [(_ & Hc & ->)|(Hn & _)]; [|done].
  pose proof (initial_game_inv _ _ Hc) as Hg.
  destruct (initial_game_sources _ _ Hc) as (_ & Ht & _).
  pose proof (verified_sealed digest _ _ _ _ _ _ Hr Hg ltac:(lia)) as Hse.
  rewrite He in Hse. exists inputs, fxs. constructor.
  - done.
  - exists start. split; [done|]. apply Hr.
  - rewrite (vr_length _ _ _ _ _ _ _ Hr). done.
  - simpl. rewrite app_nil_r. apply Hr.
  - simpl. split; [|done]. exact Hse.
  - intros g. simpl. by rewrite (vr_checkpoint _ _ _ _ _ _ _ Hr).
  - cbn [parent_of parent_stateDigest parent_state]. rewrite (vr_checkpoint _ _ _ _ _ _ _ Hr).
    apply Hr.
  - done.
Qed.

Lemma honest_next rs p r0 inputs0 fxs0 input r v :
  honest_history rs p r0 inputs0 fxs0 ->
  decodeGameCheckpointVerificationRequest input = Some r ->
  wc_epoch (cr_checkpoint r) <> 0 ->
  verifyGameCheckpoint input digest (Some p) = inr (Ok v) ->
  exists inputs fxs, honest_history (rs ++ [r]) (parent_of r v) r0 inputs fxs.
Proof.
  intros Hh Hd He Hv. destruct (verify_request _ _ _ _ Hd Hv) as (start & prev & inputs & fxs & Hs & Hr).
  apply replayStart_Ok in Hs as [(Hn & _)|(_ & p' & Hp & Hb & -> & -> & Hst)]; [done|].
  injection Hp as <-. destruct Hh as [Hfi (g0 & Hc & Hrun) Hlen Hev Hch Hhead Hstate Hkey].
  unfold parentBindingRefused, checkpointFirstTick, CHECKPOINT_EVENT_COUNT in Hb. bool_split.
  repeat match goal with K : str_eqb _ _ = true |- _ => apply str_eqb_eq in K end.
  destruct (run_inv _ _ _ _ (initial_game_inv _ _ Hc) Hrun) as (Hg & _ & _ & _ & Ht & Hfx).
  destruct (initial_game_sources _ _ Hc) as (_ & Ht0 & _).
  assert (Hep : wc_epoch (cr_checkpoint r) = Z.of_nat (length rs)) by lia.
  pose proof (verified_sealed digest _ _ _ _ _ _ Hr Hg ltac:(lia)) as Hse.
  rewrite Hep in Hse. exists (inputs0 ++ inputs), (fxs0 ++ fxs). constructor.
  - by destruct rs.
  - exists g0. split; [done|]. eapply run_app; [exact Hrun|apply Hr].
  - rewrite !length_app, Hlen, (vr_length _ _ _ _ _ _ _ Hr). simpl. lia.
  - rewrite flat_map_app, Hev. simpl. rewrite app_nil_r, (vr_events _ _ _ _ _ _ _ Hr).
    by rewrite run_events_app.
  - unfold chain_of. rewrite !map_app. apply chain_from_snoc; [done|].
    rewrite length_map. fold (chain_of rs). rewrite Hhead. exact Hse.
  - intros g. unfold chain_of. rewrite map_app. unfold chain_head. simpl. rewrite last_snoc.
    by rewrite (vr_checkpoint _ _ _ _ _ _ _ Hr).
  - cbn [parent_of parent_stateDigest parent_state]. rewrite (vr_checkpoint _ _ _ _ _ _ _ Hr).
    apply Hr.
  - cbn [parent_of parent_ownerPublicKey]. congruence.
Qed.
End History.

(** C1: the authority's history is the history of an honest game.  Whatever
    bytes were submitted, once k checkpoints have been verified one after the
    other, there are 30k inputs such that running the kernel from the game the
    first request names gives exactly the stored state; the submitted events
    are the canonical events of that run, the submitted checkpoints form the
    gap-free chain of a journal over them, rooted in the genesis digest of that
    seed, player and owner key, and the stored digests are its head. *)
Theorem verified_history_is_a_run `{JsHost} digest rs p :
  authority_verified digest rs p ->
  exists r0 inputs fxs, honest_history digest rs p r0 inputs fxs.
Proof.
  induction 1 as [input r v Hd He Hv|rs p input r v _ (r0 & inputs & fxs & Hh) Hd He Hv].
  - exists r. by eapply honest_first.
  - exists r0. by eapply honest_next.
Qed.

(** ** Items of a run *)

Section Items.
Context `{JsHost}.

Lemma run_frame inputs g g' fxs :
  runGame g inputs = Ok (g', fxs) ->
  seed g' = seed g /\ player_id (player g') = player_id (player g) /\
  tick g' = tick g + Z.of_nat (length inputs).
Proof.
  revert g fxs. induction inputs as [|i inputs IH]; intros g fxs Hr; simpl in *.
  - injection Hr as -> <-. split_and!; [done..|lia].
  - destruct (advanceGame g i) as [[g1 fx]|] eqn:Ea; [|done].
    destruct (runGame g1 inputs) as [[g2 rest]|] eqn:Er; [|done]. injection Hr as -> <-.
    destruct (IH _ _ Er) as (Hs & Hp & Ht).
    pose proof (tick_frame _ _ _ _ Ea) as (Hs1 & Ht1 & Hp1 & _). split_and!; [congruence..|lia].
Qed.

(** An item that the kernel derives for a kill between two ticks. *)
Definition created_between (sd : Z) (pid : jsstr) (t t' : Z) (it : InventoryItem) : Prop :=
  exists e k, t < k <= t' /\ it = drop_item (deriveDrop sd pid e k 0).

Lemma tick_items g i g' fx :
  advanceGame g i = Ok (g', fx) ->
  Forall (created_between (seed g) (player_id (player g)) (tick g) (tick g')) (eventItems fx).
Proof.
  intros Ha. pose proof (tick_frame _ _ _ _ Ha) as (_ & Ht & _).
  apply advanceGame_Ok in Ha as (_ & _ & _ & es & ds & afx & p & rem & tfx & Hatt & Hr & _ & ->).
  rewrite eventItems_dropped, !dropped_items_app, (attacked_dropped _ _ _ _ _ _ _ Hatt),
    (resolveTelegraphs_dropped _ _ _ _ _ _ Hr), pickups_dropped, !app_nil_r.
  rewrite List.Forall_map. eapply Forall_impl; [exact (attacked_drops _ _ _ _ _ _ _ Hatt)|].
  intros d (e & _ & ->). exists e, (tick g + 1). split; [lia|reflexivity].
Qed.

Lemma run_items inputs g g' fxs :
  runGame g inputs = Ok (g', fxs) ->
  Forall (created_between (seed g) (player_id (player g)) (tick g) (tick g'))
    (flat_map eventItems fxs).
Proof.
  revert g fxs. induction inputs as [|i inputs IH]; intros g fxs Hr; simpl in Hr.
  - injection Hr as -> <-. constructor.
  - destruct (advanceGame g i) as [[g1 fx]|] eqn:Ea; [|done].
    destruct (runGame g1 inputs) as [[g2 rest]|] eqn:Er; [|done]. injection Hr as -> <-.
    pose proof (tick_frame _ _ _ _ Ea) as (Hs1 & Ht1 & Hp1 & _).
    destruct (run_frame _ _ _ _ Er) as (_ & _ & Ht). cbn [flat_map]. apply Forall_app. split.
    + eapply Forall_impl; [exact (tick_items _ _ _ _ Ea)|].
      intros it (e & k & Hk & ->). exists e, k. split; [lia|done].
    + eapply Forall_impl; [exact (IH _ _ Er)|].
      intros it (e & k & Hk & ->). exists e, k. rewrite Hs1, Hp1. split; [lia|done].
Qed.
End Items.
