(* ===== verification/ItemFacts.v ===== *)
(** * Receipts, backends and the honest client

    No submitted bytes make the authority throw; a receipt is issued only for
    an item the kernel derives and is accepted by the client that holds it;
    the dual verification accepts what both backends accept; the checkpoints of
    an honest session are verified. *)
From S2P Require Import Prelude Json Contracts Kernel KernelFacts Journal JournalFacts Chain.
From S2P Require Import Session Snapshot SnapshotFacts OwnerAuth Ownership OwnerFacts.
From S2P Require Import ItemVerification Replay VerificationFacts.
Set Default Goal Selector "!".

(** ** Decoded requests *)

Lemma bounded_string v n : isBoundedString v n = true -> 0 < slen (string_of v) <= n.
Proof. destruct v; simpl; try done. intros E. bool_split. lia. Qed.

Lemma non_negative v : isSafeNonNegativeInteger v = true -> 0 <= number_of v <= MAX_SAFE_INTEGER.
Proof.
  destruct v; simpl; try done. intros E. bool_split.
  match goal with K : isSafeInteger _ = true |- _ => apply isSafeInteger_spec in K end. lia.
Qed.

Lemma bounded_of s n : 0 < slen s <= n -> isBounded s n = true.
Proof. intros [??]. unfold isBounded. apply andb_true_iff. rewrite Z.ltb_lt, Z.leb_le. done. Qed.

(** What the decoder guarantees of a request. *)
Lemma decode_bounds input r :
  decodeGameCheckpointVerificationRequest input = Some r ->
  0 <= cr_seed r <= MAX_SAFE_INTEGER /\ 0 < slen (cr_player_id r) <= 256 /\
  is_hex 64 (cr_owner_public_key r) = true /\
  0 <= wc_epoch (cr_checkpoint r) <= MAX_SAFE_INTEGER /\
  0 < slen (wc_checkpoint_digest (cr_checkpoint r)).
Proof.
  unfold decodeGameCheckpointVerificationRequest. intros E. guards E. injection E as <-. bool_split.
  match goal with K : isWireCheckpoint _ = true |- _ => unfold isWireCheckpoint in K end. bool_split.
  repeat match goal with
  | K : isBoundedString _ _ = true |- _ => apply bounded_string in K
  | K : isSafeNonNegativeInteger _ = true |- _ => apply non_negative in K
  end.
  cbn [cr_seed cr_player_id cr_owner_public_key cr_checkpoint read_wire_checkpoint wc_epoch
       wc_checkpoint_digest]. split_and!; try done; lia.
Qed.

Lemma decode_item input r :
  decodeItemRequest input = Some r ->
  decodeGameCheckpointVerificationRequest input = Some (ur_request (ir_unsigned r)) /\
  0 < slen (ur_asset_id (ir_unsigned r)) <= 1024.
Proof.
  unfold decodeItemRequest. intros E. guards E. injection E as <-. bool_split.
  match goal with K : isBoundedString _ 1024 = true |- _ => apply bounded_string in K end. done.
Qed.

Section Items.
Context `{JsHost} (digest : AuditDigestAdapter).

Lemma initial_game_exists sd pid :
  isSafeInteger sd = true -> 0 < slen pid -> exists g, createInitialGame (mkCreateGame sd pid) = inr g.
Proof.
  intros Hs Hp. unfold createInitialGame, throw_if. cbn [create_seed create_playerId].
  rewrite Hs. destruct (Z.eqb_spec (slen pid) 0); [lia|]. by eexists.
Qed.

Lemma verify_total input parent : exists res, verifyGameCheckpoint input digest parent = inr res.
Proof.
  unfold verifyGameCheckpoint.
  destruct (decodeGameCheckpointVerificationRequest input) as [r|] eqn:Ed; [|eauto].
  cbv zeta. destruct (ticksRefused _); [eauto|].
  assert (exists st, replayStart r digest parent = inr st) as [st ->].
  { unfold replayStart. apply decode_bounds in Ed as (Hs & Hp & _).
    destruct (wc_epoch _ =? 0).
    - destruct (initial_game_exists (cr_seed r) (cr_player_id r)) as [g ->]; simpl; eauto;
        [apply isSafeInteger_spec; unfold MAX_SAFE_INTEGER in *; lia|lia].
    - destruct parent as [p|]; [|eauto]. case_match; eauto. }
  cbn [throw_bind]. destruct st as [[start prev]|]; [|eauto].
  destruct (replayEvents _ _ _) as [[[s items] ids]|]; [|eauto]. case_match; eauto.
Qed.

(** The start of a replay belongs to the player of the request. *)
Lemma start_player r parent start prev :
  replayStart r digest parent = inr (Ok (start, prev)) ->
  player_id (player start) = cr_player_id r /\ tick start = 30 * wc_epoch (cr_checkpoint r).
Proof.
  intros [(He & Hc & _)|(_ & p & _ & Hb & -> & _)]%replayStart_Ok.
  - destruct (initial_game_sources _ _ Hc) as (_ & Ht & _ & Hp). split; [done|lia].
  - unfold parentBindingRefused, checkpointFirstTick, CHECKPOINT_EVENT_COUNT in Hb. bool_split.
    repeat match goal with K : str_eqb _ _ = true |- _ => apply str_eqb_eq in K end.
    split; [done|lia].
Qed.

(** The items an accepted checkpoint creates. *)
Lemma verified_items input parent v r :
  verifyGameCheckpoint input digest parent = inr (Ok v) ->
  decodeGameCheckpointVerificationRequest input = Some r ->
  vc_checkpoint v = cr_checkpoint r /\
  Forall (created_between (seed (vc_state v)) (cr_player_id r)
            (30 * wc_epoch (cr_checkpoint r)) (30 * wc_epoch (cr_checkpoint r) + 30))
    (vc_createdItems v).
Proof.
  intros Hv Hd. destruct (verify_request digest _ _ _ _ Hd Hv) as (start & prev & inputs & fxs & Hs & Hr).
  destruct (start_player _ _ _ _ Hs) as [Hp Ht].
  destruct (run_frame _ _ _ _ (vr_run _ _ _ _ _ _ _ Hr)) as (Hsd & _ & Ht').
  rewrite (vr_length _ _ _ _ _ _ _ Hr) in Ht'.
  split; [apply Hr|]. rewrite (vr_items _ _ _ _ _ _ _ Hr), Hsd, <- Hp, <- Ht.
  replace (tick start + 30) with (tick (vc_state v)) by lia. eapply run_items, Hr.
Qed.

Context (unit : jsstr) (verifier : GameOwnerSignatureVerifier).

(** The origin that a receipt creates. *)
Definition receipt_origin (a : GameItemAuthorityReceipt) : GameAssetOrigin :=
  mkOrigin (ar_assetId a) (ar_authorityReceiptId a) (ar_ownerId a) (ar_ownerPublicKey a).

(** Everything that holds of an issued receipt. *)
Record receipt_issued (input : jsval) (parent : option GameCheckpointVerificationParent)
    (r : GameItemVerificationRequest) (vi : VerifiedItem) : Prop := {
  ri_decoded : decodeItemRequest input = Some r;
  ri_proof : verifyGameItemOwnerProof unit (ownerBoundary (ir_unsigned r)) (ir_owner_signature r)
    (hashString digest) verifier = true;
  ri_verified : exists items, verifyGameCheckpoint input digest parent =
    inr (Ok (mkVerified (vi_state vi) (vi_checkpoint vi) items)) /\ vi_item vi ∈ items;
  ri_checkpoint : vi_checkpoint vi = cr_checkpoint (ur_request (ir_unsigned r));
  ri_asset : assetId (vi_item vi) = ur_asset_id (ir_unsigned r);
  ri_derived : created_between (seed (vi_state vi)) (cr_player_id (ur_request (ir_unsigned r)))
    (30 * wc_epoch (vi_checkpoint vi)) (30 * wc_epoch (vi_checkpoint vi) + 30) (vi_item vi);
  ri_receipt : vi_receipt vi =
    mkAuthorityReceipt (ar_authorityReceiptId (vi_receipt vi)) (assetId (vi_item vi))
      (cr_player_id (ur_request (ir_unsigned r)))
      (cr_owner_public_key (ur_request (ir_unsigned r))) 0
      (ar_ownerHeadId (vi_receipt vi)) (wc_checkpoint_digest (vi_checkpoint vi))
      (wc_epoch (vi_checkpoint vi));
  ri_id : ar_authorityReceiptId (vi_receipt vi) =
    gameItemAuthorityReceiptId unit
      (mkItemIdentity (ar_checkpointDigest (vi_receipt vi)) (ar_assetId (vi_receipt vi))
         (ar_ownerId (vi_receipt vi)) (ar_ownerPublicKey (vi_receipt vi))
         (ar_inventoryEpoch (vi_receipt vi))) (hashString digest);
  ri_head : exists h, history unit (hashString digest) verifier (receipt_origin (vi_receipt vi)) [] h /\
    headId h = ar_ownerHeadId (vi_receipt vi);
}.

Lemma created_owner sd pid t t' it : created_between sd pid t t' it -> ownerId it = pid.
Proof. by intros (e & k & _ & ->). Qed.

Lemma creation_Ok input parent vi :
  verifyGameItemCreation unit input digest verifier parent = inr (Ok vi) ->
  exists r, receipt_issued input parent r vi.
Proof.
  unfold verifyGameItemCreation. destruct (decodeItemRequest input) as [r|] eqn:Ed; [|done].
  destruct (isBounded unit 128) eqn:Eu; cbn [negb]; [|done]. cbv zeta.
  destruct (verifyGameItemOwnerProof _ _ _ _ _) eqn:Ep; cbn [negb]; [|done].
  destruct (verifyGameCheckpoint input digest parent) as [|[v|]] eqn:Ev; cbn [throw_bind]; try done.
  destruct (List.find _ _) as [it|] eqn:Ef; [|done].
  apply find_some in Ef as [Hin Hid]. apply str_eqb_eq in Hid. apply list_elem_of_In in Hin.
  destruct (createInitialGameAssetOwnershipHead _ _ _) as [|h] eqn:Eh; cbn [throw_bind]; [done|].
  intros E. injection E as <-. exists r.
  destruct (decode_item _ _ Ed) as [Hdr _].
  destruct (verified_items _ _ _ _ Ev Hdr) as [Hc Hit].
  rewrite Forall_forall in Hit. specialize (Hit _ Hin).
  pose proof (created_owner _ _ _ _ _ Hit) as Hown.
  assert (Hv0 : version h = 0).
  { unfold createInitialGameAssetOwnershipHead, throw_if in Eh. guards Eh. by injection Eh as <-. }
  constructor; cbn [vi_receipt vi_item vi_state vi_checkpoint ar_authorityReceiptId ar_assetId
    ar_ownerId ar_ownerPublicKey ar_ownerVersion ar_ownerHeadId ar_checkpointDigest
    ar_inventoryEpoch]; try done.
  - exists (vc_createdItems v). by destruct v.
  - by rewrite Hc.
  - by rewrite Hv0, Hown.
  - exists h. split; [|done]. by constructor.
Qed.

Lemma creation_total input parent :
  (forall s, is_hex 64 (hashString digest s) = true) ->
  exists res, verifyGameItemCreation unit input digest verifier parent = inr res.
Proof.
  intros Hx. unfold verifyGameItemCreation.
  destruct (decodeItemRequest input) as [r|] eqn:Ed; [|eauto].
  destruct (isBounded unit 128) eqn:Eu; cbn [negb]; [|eauto]. cbv zeta.
  destruct (verifyGameItemOwnerProof _ _ _ _ _); cbn [negb]; [|eauto].
  destruct (verify_total input parent) as [res Ev]. rewrite Ev. cbn [throw_bind].
  destruct res as [v|]; [|eauto].
  destruct (List.find _ _) as [it|] eqn:Ef; [|eauto].
  apply find_some in Ef as [Hin Hid]. apply str_eqb_eq in Hid. apply list_elem_of_In in Hin.
  destruct (decode_item _ _ Ed) as [Hdr Ha].
  destruct (decode_bounds _ _ Hdr) as (_ & Hp & Hk & _).
  destruct (verified_items _ _ _ _ Ev Hdr) as [_ Hit].
  rewrite Forall_forall in Hit. pose proof (created_owner _ _ _ _ _ (Hit _ Hin)) as Hown.
  unfold createInitialGameAssetOwnershipHead, throw_if.
  replace (originRefused unit _) with false; [cbn [throw_bind]; eauto|].
  symmetry. unfold originRefused. cbn [origin_assetId origin_authorityReceiptId origin_ownerId
    origin_ownerPublicKey]. unfold isDigest, isPublicKey, gameItemAuthorityReceiptId.
  rewrite Eu, Hid, Hown, Hx, Hk, !bounded_of by done. done.
Qed.
End Items.

(** C35: no bytes make the authority throw: verifying a checkpoint always
    returns a result, whatever is submitted and whatever parent record is
    given, and so does verifying the creation of an item, over a digest of 64
    hexadecimal digits. *)
Theorem verification_never_throws `{JsHost} digest unit verifier input parent :
  (forall s, is_hex 64 (hashString digest s) = true) ->
  (exists res, verifyGameCheckpoint input digest parent = inr res) /\
  (exists res, verifyGameItemCreation unit input digest verifier parent = inr res).
Proof. intros Hx. split; [apply verify_total|by apply creation_total]. Qed.

(** C11: a receipt is issued only for loot that was really earned: its request
    carries a valid signature of the owner key over this asset and checkpoint,
    the checkpoint is verified by replay, and the item is the one the kernel
    derives for a kill of this player within the thirty ticks of the epoch; the
    receipt names exactly that item, owner, key, checkpoint and epoch, and
    opens the ownership history of the asset at version zero. *)
Theorem receipt_only_for_earned_loot `{JsHost} digest unit verifier input parent vi :
  verifyGameItemCreation unit input digest verifier parent = inr (Ok vi) ->
  exists r, receipt_issued digest unit verifier input parent r vi.
Proof. apply creation_Ok. Qed.

(** ** The client applies the receipt *)

(** The receipt as the client's kernel takes it. *)
Definition client_receipt (a : GameItemAuthorityReceipt) : ItemVerificationReceipt :=
  mkReceipt (ar_authorityReceiptId a) (ar_assetId a) (ar_ownerId a) (ar_ownerPublicKey a)
    (ar_ownerVersion a) (ar_ownerHeadId a) (ar_checkpointDigest a) (ar_inventoryEpoch a).

Lemma issued_valid `{JsHost} digest unit verifier input parent r vi :
  (forall s, is_hex 64 (hashString digest s) = true) ->
  receipt_issued digest unit verifier input parent r vi ->
  validReceipt (client_receipt (vi_receipt vi)) = true.
Proof.
  intros Hx [Hd _ _ Hc Ha _ Hrec Hid (h & Hh & Hhid)].
  destruct (decode_item _ _ Hd) as [Hdr Hlen].
  destruct (decode_bounds _ _ Hdr) as (_ & Hp & Hk & He & Hcd). rewrite <- Hc in He, Hcd.
  assert (Hhead : is_hex 64 (ar_ownerHeadId (vi_receipt vi)) = true).
  { rewrite <- Hhid. destruct (history_head _ _ _ _ _ _ Hh) as (_ & _ & _ & -> & _). apply Hx. }
  assert (Hrid : is_hex 64 (ar_authorityReceiptId (vi_receipt vi)) = true)
    by (rewrite Hid; apply Hx).
  assert (Hrl : slen (ar_authorityReceiptId (vi_receipt vi)) = 64)
    by (unfold slen; by rewrite (is_hex_length _ _ Hrid)).
  unfold validReceipt, client_receipt. rewrite Hrec.
  cbn [ar_authorityReceiptId ar_assetId ar_ownerId ar_ownerPublicKey ar_ownerVersion ar_ownerHeadId
    ar_checkpointDigest ar_inventoryEpoch r_authorityReceiptId r_assetId r_ownerId
    r_ownerPublicKey r_ownerVersion r_ownerHeadId r_checkpointDigest r_inventoryEpoch].
  rewrite Hrl, Hhead, Hk, Ha.
  rewrite !(proj2 (Z.eqb_neq _ 0)) by lia.
  rewrite (proj2 (isSafeInteger_spec (wc_epoch _))) by (unfold MAX_SAFE_INTEGER in *; lia).
  by rewrite (proj2 (Z.leb_le 0 (wc_epoch _))) by lia.
Qed.

(** Authority and client agree on a receipt: the client that holds the
    item the receipt was issued for, unverified and under its asset id once,
    accepts the receipt, and exactly that item becomes verified with it. *)
Theorem receipt_settles_the_item `{JsHost} digest unit verifier input parent vi g idx :
  (forall s, is_hex 64 (hashString digest s) = true) ->
  verifyGameItemCreation unit input digest verifier parent = inr (Ok vi) ->
  inventory g !! idx = Some (vi_item vi) -> NoDup (map assetId (inventory g)) ->
  applyItemVerification g (client_receipt (vi_receipt vi)) =
    Ok (set_inventory g
          (<[idx := set_audit (vi_item vi)
                      (verified (receiptAudit (client_receipt (vi_receipt vi))))]>
             (inventory g))).
Proof.
  intros Hx (r & Hi)%creation_Ok Hidx Hnd. pose proof (issued_valid _ _ _ _ _ _ _ Hx Hi) as Hval.
  destruct Hi as [_ _ _ _ _ Hder Hrec _ _].
  assert (Hra : r_assetId (client_receipt (vi_receipt vi)) = assetId (vi_item vi)) by (by rewrite Hrec).
  assert (Hro : r_ownerId (client_receipt (vi_receipt vi)) = ownerId (vi_item vi))
    by (rewrite Hrec, (created_owner _ _ _ _ _ Hder); done).
  unfold applyItemVerification. rewrite Hval, Hra, Hro. cbn [negb].
  destruct (find_index _ _) as [k|] eqn:Ek.
  - apply find_index_Some in Ek as (y & Hy & Hk & _). apply str_eqb_eq in Hk.
    assert (k = idx) as ->.
    { eapply (NoDup_lookup (map assetId (inventory g))); [done|..];
        change (map assetId) with (fmap (M := list) assetId); rewrite list_lookup_fmap.
      - by rewrite Hy.
      - by rewrite Hidx, Hk. }
    assert (y = vi_item vi) as -> by congruence. rewrite Hidx, str_eqb_refl. cbn [negb].
    destruct Hder as (e & t & _ & E). by rewrite E.
  - apply find_index_None in Ek. rewrite Forall_forall in Ek.
    apply list_elem_of_lookup_2, Ek in Hidx. by rewrite str_eqb_refl in Hidx.
Qed.

(** ** Two backends *)

Section Dual.
Context `{JsHost} (standard : AuditDigestAdapter) (async : AsyncAuditDigestAdapter).
Context (Hres : resolves async standard).

(** The asynchronous commitments, as equations over the synchronous values. *)
Definition standard_commitments (r : GameCheckpointVerificationRequest) (state : GameState)
    (parent : option jsstr) : Prop :=
  let c := cr_checkpoint r in
  ticksRefused c = false /\
  seed state = cr_seed r /\ player_id (player state) = cr_player_id r /\
  tick state = wc_last_tick c /\
  exists prev,
    (if wc_epoch c =? 0 then
       prev = hashString standard
         (canonicalAuditGenesis (cr_seed r) (cr_player_id r) (cr_owner_public_key r))
     else parent = Some prev /\ prev <> []) /\
    commitments_match standard r prev state (wc_created_asset_ids c).

(** The comparison that ends the asynchronous verification. *)
Lemma commitments_tail r prev state :
  sort_strings (wc_created_asset_ids (cr_checkpoint r)) = wc_created_asset_ids (cr_checkpoint r) ->
  let c := cr_checkpoint r in
  let root := merkleRoot standard (map we_canonical_payload (cr_events r)) in
  let sdigest := hashString standard (canonicalGameState state) in
  let envelope := recomputedEnvelope c root sdigest prev (wc_created_asset_ids c) in
  (if negb (str_eqb root (wc_event_root c)) || negb (str_eqb sdigest (wc_state_digest c)) ||
      negb (str_eqb prev (wc_previous_checkpoint c)) ||
      negb (str_eqb envelope (wc_canonical_envelope c)) ||
      negb (str_eqb (hashString standard envelope) (wc_checkpoint_digest c))
   then Some (Err checkpoint_mismatch) else Some (Ok ())) = Some (Ok () : result () CheckpointReason)
  <-> commitments_match standard r prev state (wc_created_asset_ids c).
Proof.
  intros Hsort. cbv zeta. unfold commitments_match, recomputedEnvelope, envelope_fields,
    unwire_checkpoint. cbv zeta. rewrite Hsort.
  cbn [epoch firstTick lastTick eventCount eventRoot stateDigest previousCheckpoint createdAssetIds].
  split.
  - intros E. guard_step E. bool_split.
    repeat match goal with K : str_eqb _ _ = true |- _ => apply str_eqb_eq in K end.
    split_and!; congruence.
  - intros (<- & <- & <- & _ & <- & <-). by rewrite !str_eqb_refl.
Qed.

Lemma commitments_Ok input r state parent :
  decodeGameCheckpointVerificationRequest input = Some r ->
  sort_strings (wc_created_asset_ids (cr_checkpoint r)) = wc_created_asset_ids (cr_checkpoint r) ->
  verifyGameCheckpointCommitmentsAsync input state async parent = Some (Ok ()) <->
  standard_commitments r state parent.
Proof using Hres.
  destruct Hres as [Hh Hm]. intros Hd Hsort. pose proof (commitments_tail r) as Htail.
  unfold verifyGameCheckpointCommitmentsAsync, standard_commitments. rewrite Hd. cbv zeta.
  cbv zeta in Htail. set (c := cr_checkpoint r) in *.
  destruct (ticksRefused c); [naive_solver|].
  destruct (Z.eqb_spec (seed state) (cr_seed r)) as [Es|Es]; cbn [negb orb]; [|naive_solver].
  destruct (str_eqb (player_id (player state)) (cr_player_id r)) eqn:Ep; cbn [negb orb];
    [apply str_eqb_eq in Ep|apply str_eqb_neq in Ep; naive_solver].
  destruct (Z.eqb_spec (tick state) (wc_last_tick c)) as [Et|Et]; cbn [negb orb]; [|naive_solver].
  destruct (Z.eqb_spec (wc_epoch c) 0) as [E0|E0].
  - do 4 (rewrite ?Hh, ?Hm; cbn [fmap option_fmap option_map mbind option_bind]). rewrite Htail by done. naive_solver.
  - destruct parent as [[|x p]|]; cbn [mbind option_bind]; [naive_solver| |naive_solver].
    do 4 (rewrite ?Hh, ?Hm; cbn [mbind option_bind]). rewrite Htail by done. naive_solver.
Qed.

Lemma replayed_Ok input r state parent :
  decodeGameCheckpointVerificationRequest input = Some r ->
  0 <= wc_epoch (cr_checkpoint r) ->
  verifyReplayedGameCheckpointCommitmentsAsync input state async parent = Some (Ok ()) <->
  (wc_epoch (cr_checkpoint r) <> 0 -> exists p, parent = Some p /\
     parentBindingRefused r p = false /\
     hashString standard (canonicalGameState (parent_state p)) = parent_stateDigest p) /\
  verifyGameCheckpointCommitmentsAsync input state async (parent_checkpointDigest <$> parent)
    = Some (Ok ()).
Proof using Hres.
  destruct Hres as [Hh _]. intros Hd He. unfold verifyReplayedGameCheckpointCommitmentsAsync.
  rewrite Hd. cbv zeta. destruct (Z.ltb_spec 0 (wc_epoch (cr_checkpoint r))) as [Hl|Hl].
  - assert (Hne : wc_epoch (cr_checkpoint r) <> 0) by lia. split.
    + intros E. guards E. cbn [mbind option_bind] in E.
      rewrite Hh in E. cbn [mbind option_bind] in E. guard_step E. bool_split.
      apply str_eqb_eq in Hg0. split; [|done]. intros _. eauto.
    + intros [Hp ->]. destruct (Hp Hne) as (p & -> & -> & Hs). rewrite Hh.
      cbn [mbind option_bind]. by rewrite Hs, str_eqb_refl.
  - split; [|by intros [_ ->]]. intros ->. split; [|done]. intros Hne. lia.
Qed.

Lemma replayStart_intro digest r parent start prev :
  (wc_epoch (cr_checkpoint r) = 0 /\
   createInitialGame (mkCreateGame (cr_seed r) (cr_player_id r)) = inr start /\
   prev = hashString digest
     (canonicalAuditGenesis (cr_seed r) (cr_player_id r) (cr_owner_public_key r))) \/
  (wc_epoch (cr_checkpoint r) <> 0 /\ exists p, parent = Some p /\
   parentBindingRefused r p = false /\ start = parent_state p /\
   prev = parent_checkpointDigest p /\
   hashString digest (canonicalGameState start) = parent_stateDigest p) ->
  replayStart r digest parent = inr (Ok (start, prev)).
Proof.
  unfold replayStart. intros [(-> & -> & ->)|(He & p & -> & -> & -> & -> & ->)]; [done|].
  rewrite (proj2 (Z.eqb_neq _ _) He), str_eqb_refl. done.
Qed.

Context (moonBit : AuditDigestAdapter).

(** The second backend confirms the first: same replay, its own digests. *)
Lemma dual_second input parent r v :
  decodeGameCheckpointVerificationRequest input = Some r ->
  verifyGameCheckpoint input moonBit parent = inr (Ok v) ->
  verifyReplayedGameCheckpointCommitmentsAsync input (vc_state v) async parent = Some (Ok ()) ->
  verifyGameCheckpoint input standard parent = inr (Ok v).
Proof using Hres.
  intros Hd Hv Hrep.
  apply verify_iff in Hv as (r' & start & prev & ids & Hd' & Ht & Hs & Hr & Hc & _ & _ & _ & Hids & _).
  assert (r' = r) as -> by congruence. destruct (decode_bounds _ _ Hd) as (_ & _ & _ & He & _).
  apply (replayed_Ok _ r) in Hrep as [Hpar Hcom]; [|done|lia].
  apply (commitments_Ok _ r) in Hcom as (_ & _ & _ & _ & prev' & Hprev & Hmat); [|done|].
  2: { rewrite <- Hids. apply sort_strings_idem. }
  destruct Hmat as (M1 & M2 & M3 & M4 & M5 & M6).
  apply verify_iff. exists r, start, prev', ids. split_and!; try done. clear Hr.
  apply replayStart_intro. apply replayStart_Ok in Hs as [(E0 & Hc0 & _)|(E0 & p & -> & Hb & -> & _)].
  - left. rewrite E0, Z.eqb_refl in Hprev. done.
  - right. split; [done|]. rewrite (proj2 (Z.eqb_neq _ _) E0) in Hprev. destruct Hprev as [Hp _].
    injection Hp as <-. destruct (Hpar E0) as (q & Hq & _ & Hst). injection Hq as <-. by exists p.
Qed.

Lemma dual_first input parent r v :
  decodeGameCheckpointVerificationRequest input = Some r -> cr_seed r < 2 ^ 32 ->
  verifyGameCheckpoint input standard parent = inr (Ok v) ->
  verifyReplayedGameCheckpointCommitmentsAsync input (vc_state v) async parent = Some (Ok ()).
Proof using Hres.
  intros Hd Hsd Hv. destruct (verify_request standard _ _ _ _ Hd Hv) as (st & pv & inputs & fxs & Hst & Hrun).
  destruct (run_frame _ _ _ _ (vr_run _ _ _ _ _ _ _ Hrun)) as (Hseed & Hpl & Htick).
  destruct (start_player _ _ _ _ _ Hst) as [Hp0 Ht0]. pose proof (vr_length _ _ _ _ _ _ _ Hrun) as Hlen.
  apply verify_iff in Hv as (r' & start & prev & ids & Hd' & Ht & Hs & Hr & Hc & M1 & M2 & M3 & M4 & M5 & M6).
  assert (r' = r) as -> by congruence. assert (start = st) as -> by congruence.
  assert (pv = prev) as -> by congruence.
  destruct (decode_bounds _ _ Hd) as (Hs0 & _ & _ & He & _).
  destruct (ticks_of r Ht) as (_ & Hlast & _).
  assert (Hsorted : sort_strings (wc_created_asset_ids (cr_checkpoint r))
                    = wc_created_asset_ids (cr_checkpoint r))
    by (rewrite <- M4; apply sort_strings_idem).
  apply (replayed_Ok _ r); [done|lia|]. rewrite (commitments_Ok _ r) by done.
  assert (Hmat : commitments_match standard r prev (vc_state v)
                   (wc_created_asset_ids (cr_checkpoint r))) by (by split_and!).
  apply replayStart_Ok in Hs as [(E0 & Hc0 & Eg)|(E0 & p & -> & Hb & -> & -> & Hps)].
  - destruct (initial_game_sources _ _ Hc0) as (_ & _ & Hseed0 & _). split; [done|].
    split_and!; [done| |congruence|rewrite Hlast; lia|].
    + rewrite Hseed, Hseed0. cbn [create_seed]. apply to_uint32_small. lia.
    + exists prev. by rewrite E0, Z.eqb_refl.
  - pose proof Hb as Hb'.
    unfold parentBindingRefused, checkpointFirstTick, CHECKPOINT_EVENT_COUNT in Hb. bool_split.
    repeat match goal with K : str_eqb _ _ = true |- _ => apply str_eqb_eq in K end.
    split; [intros _; by exists p|]. split_and!; [done|congruence|congruence|rewrite Hlast; lia|].
    exists (parent_checkpointDigest p). rewrite (proj2 (Z.eqb_neq _ _) E0). split; [|done].
    split; [done|]. intros E. unfold slen in *. by rewrite E in *.
Qed.
End Dual.

(** The dual verification accepts exactly the checkpoints that both
    backends accept on their own, with the same result, for seeds of 32 bits:
    the asynchronous pass, which does not replay, adds the second backend's
    digests and nothing else. *)
Theorem dual_accepts_what_both_accept `{JsHost} moonBit standard async input parent v :
  resolves async standard ->
  (forall r, decodeGameCheckpointVerificationRequest input = Some r -> cr_seed r < 2 ^ 32) ->
  verifyGameCheckpointDual input moonBit async parent = inr (Some (Ok v)) <->
  verifyGameCheckpoint input moonBit parent = inr (Ok v) /\
  verifyGameCheckpoint input standard parent = inr (Ok v).
Proof.
  intros Hres Hseed. unfold verifyGameCheckpointDual. split.
  - destruct (verifyGameCheckpoint input moonBit parent) as [|[v'|]] eqn:Ev; cbn [throw_bind]; try done.
    destruct (verifyReplayedGameCheckpointCommitmentsAsync _ _ _ _) as [[[]|]|] eqn:Er; try done.
    cbn [mbind option_bind]. intros E. injection E as <-. split; [done|].
    pose proof Ev as Ev'. apply verify_Ok in Ev' as (r & _ & _ & _ & _ & Hd & _).
    by eapply dual_second.
  - intros [Hm Hst]. rewrite Hm. cbn [throw_bind].
    pose proof Hm as Hm'. apply verify_Ok in Hm' as (r & _ & _ & _ & _ & Hd & _).
    by rewrite (dual_first standard async Hres _ _ r v Hd (Hseed r Hd) Hst).
Qed.
