(* ===== verification/HonestClient.v ===== *)
(** * The honest client

    The checkpoints that a session seals are accepted by the authority one after
    the other: the requests built from the journal decode, replay from the state
    the authority keeps, and match. *)
From S2P Require Import Prelude Json Contracts Kernel KernelFacts Journal JournalFacts Chain.
From S2P Require Import Session Snapshot SnapshotFacts OwnerAuth Ownership OwnerFacts.
From S2P Require Import ItemVerification Replay VerificationFacts ItemFacts.
Set Default Goal Selector "!".

(** ** Requests on the wire *)

(** The object literals the requests are sent as. *)
Definition wire_checkpoint_value (c : GameItemVerificationWireCheckpoint) : jsval :=
  obj [("version", JNum 1); ("epoch", JNum (wc_epoch c)); ("first_tick", JNum (wc_first_tick c));
       ("last_tick", JNum (wc_last_tick c)); ("event_count", JNum (wc_event_count c));
       ("event_root", JStr (wc_event_root c)); ("state_digest", JStr (wc_state_digest c));
       ("previous_checkpoint", JStr (wc_previous_checkpoint c));
       ("checkpoint_digest", JStr (wc_checkpoint_digest c));
       ("canonical_envelope", JStr (wc_canonical_envelope c));
       ("created_asset_ids", JArr (map JStr (wc_created_asset_ids c)))].
Definition wire_event_value (e : GameItemVerificationWireEvent) : jsval :=
  obj [("tick", JNum (we_tick e)); ("canonical_payload", JStr (we_canonical_payload e));
       ("created_asset_ids", JArr (map JStr (we_created_asset_ids e)))].
Definition request_value (r : GameCheckpointVerificationRequest) : jsval :=
  obj [("version", JNum 1); ("seed", JNum (cr_seed r)); ("player_id", JStr (cr_player_id r));
       ("owner_public_key", JStr (cr_owner_public_key r));
       ("checkpoint", wire_checkpoint_value (cr_checkpoint r));
       ("events", JArr (map wire_event_value (cr_events r)))].

(** The length limits of the decoder. *)
Definition fits_assets (l : list jsstr) : bool :=
  (Z.of_nat (length l) <=? 64) && forallb (fun s => isBounded s 1024) l.
Definition fits_wire (r : GameCheckpointVerificationRequest) : bool :=
  let c := cr_checkpoint r in
  isBounded (cr_player_id r) 256 && isBounded (wc_event_root c) 128 &&
  isBounded (wc_state_digest c) 128 && isBounded (wc_previous_checkpoint c) 128 &&
  isBounded (wc_checkpoint_digest c) 128 && isBounded (wc_canonical_envelope c) 8192 &&
  fits_assets (wc_created_asset_ids c) &&
  forallb (fun e => isBounded (we_canonical_payload e) MAX_EVENT_PAYLOAD_LENGTH &&
                    fits_assets (we_created_asset_ids e)) (cr_events r).

(** The numbers of a request are what the decoder expects. *)
Definition numbers_ok (r : GameCheckpointVerificationRequest) : Prop :=
  let c := cr_checkpoint r in
  let ok z := isSafeInteger z = true /\ 0 <= z in
  ok (cr_seed r) /\ ok (wc_epoch c) /\ ok (wc_first_tick c) /\ ok (wc_last_tick c) /\
  ok (wc_event_count c) /\ Forall (fun e => ok (we_tick e)) (cr_events r) /\
  length (cr_events r) = 30%nat /\ is_hex 64 (cr_owner_public_key r) = true.

Lemma fits_assets_array l : fits_assets l = true -> isBoundedStringArray (JArr (map JStr l)) 64 = true.
Proof.
  unfold fits_assets, isBoundedStringArray. rewrite length_map. intros E. bool_split.
  apply andb_true_iff. split; [by apply Z.leb_le|].
  rewrite forallb_forall in *. intros v (s & <- & Hs)%in_map_iff.
  match goal with K : forall x, _ -> isBounded x _ = true |- _ => exact (K s Hs) end.
Qed.

Lemma non_negative_num z : isSafeInteger z = true /\ 0 <= z -> isSafeNonNegativeInteger (JNum z) = true.
Proof. intros [Hs Hz]. simpl. rewrite Hs. by apply Z.leb_le. Qed.

Lemma wire_event_ok e :
  isSafeInteger (we_tick e) = true /\ 0 <= we_tick e ->
  isBounded (we_canonical_payload e) MAX_EVENT_PAYLOAD_LENGTH = true ->
  fits_assets (we_created_asset_ids e) = true -> isWireEvent (wire_event_value e) = true.
Proof.
  intros Ht Hp Ha. unfold isWireEvent.
  change (true && isSafeNonNegativeInteger (JNum (we_tick e)) &&
    isBounded (we_canonical_payload e) MAX_EVENT_PAYLOAD_LENGTH &&
    isBoundedStringArray (JArr (map JStr (we_created_asset_ids e))) 64 = true).
  by rewrite (non_negative_num _ Ht), Hp, (fits_assets_array _ Ha).
Qed.

Lemma read_wire_event_value e : read_wire_event (wire_event_value e) = e.
Proof. destruct e. unfold read_wire_event. f_equal. apply elements_strings. Qed.

Lemma read_wire_checkpoint_value c : read_wire_checkpoint (wire_checkpoint_value c) = c.
Proof. destruct c. unfold read_wire_checkpoint. f_equal. apply elements_strings. Qed.

Lemma wire_checkpoint_ok r :
  numbers_ok r -> fits_wire r = true ->
  isWireCheckpoint (wire_checkpoint_value (cr_checkpoint r)) = true.
Proof.
  intros Hn Hw. unfold numbers_ok in Hn. cbv beta zeta in Hn.
  destruct Hn as (_ & He & Hf & Hl & Hc & _). unfold fits_wire in Hw. cbv zeta in Hw. bool_split.
  set (c := cr_checkpoint r) in *. unfold isWireCheckpoint.
  change (true && true && isSafeNonNegativeInteger (JNum (wc_epoch c)) &&
    isSafeNonNegativeInteger (JNum (wc_first_tick c)) &&
    isSafeNonNegativeInteger (JNum (wc_last_tick c)) &&
    isSafeNonNegativeInteger (JNum (wc_event_count c)) &&
    isBounded (wc_event_root c) 128 && isBounded (wc_state_digest c) 128 &&
    isBounded (wc_previous_checkpoint c) 128 && isBounded (wc_checkpoint_digest c) 128 &&
    isBounded (wc_canonical_envelope c) 8192 &&
    isBoundedStringArray (JArr (map JStr (wc_created_asset_ids c))) 64 = true).
  rewrite (non_negative_num _ He), (non_negative_num _ Hf), (non_negative_num _ Hl),
    (non_negative_num _ Hc). rewrite fits_assets_array by done.
  repeat match goal with K : isBounded _ _ = true |- _ => rewrite K; clear K end. done.
Qed.

(** A request that respects the limits decodes to itself. *)
Lemma request_roundtrip r :
  numbers_ok r -> fits_wire r = true ->
  decodeGameCheckpointVerificationRequest (request_value r) = Some r.
Proof.
  intros Hn Hw. pose proof (wire_checkpoint_ok r Hn Hw) as Hck.
  unfold numbers_ok in Hn. cbv beta zeta in Hn.
  destruct Hn as (Hs & _ & _ & _ & _ & Ht & Hlen & Hk).
  unfold fits_wire in Hw. cbv zeta in Hw. bool_split.
  unfold decodeGameCheckpointVerificationRequest.
  change (field (request_value r) "events") with (JArr (map wire_event_value (cr_events r))).
  change (field (request_value r) "version") with (JNum 1).
  change (field (request_value r) "seed") with (JNum (cr_seed r)).
  change (field (request_value r) "player_id") with (JStr (cr_player_id r)).
  change (field (request_value r) "owner_public_key") with (JStr (cr_owner_public_key r)).
  change (field (request_value r) "checkpoint") with (wire_checkpoint_value (cr_checkpoint r)).
  cbn [is_record is_array request_value obj negb orb elements_of string_of number_of is_num].
  rewrite (non_negative_num _ Hs), Hck, Hk, length_map, Hlen.
  change (isBoundedString (JStr (cr_player_id r)) 256) with (isBounded (cr_player_id r) 256).
  change (isBoundedString (JStr (cr_owner_public_key r)) 64)
    with (isBounded (cr_owner_public_key r) 64).
  match goal with K : isBounded (cr_player_id r) 256 = true |- _ => rewrite K end.
  rewrite bounded_of by (unfold slen; rewrite (is_hex_length _ _ Hk); lia).
  replace (forallb isWireEvent (map wire_event_value (cr_events r))) with true.
  - cbn. f_equal. destruct r as [sd pl key c evs].
    cbn [cr_seed cr_player_id cr_owner_public_key cr_checkpoint cr_events].
    rewrite read_wire_checkpoint_value. f_equal.
    rewrite map_map, (map_ext _ (fun e => e)); [apply map_id|apply read_wire_event_value].
  - symmetry. apply forallb_forall. intros v (e & <- & He)%in_map_iff.
    match goal with K : forallb _ (cr_events r) = true |- _ =>
      rewrite forallb_forall in K; specialize (K e He) end.
    rewrite Forall_forall in Ht. apply list_elem_of_In, Ht in He. bool_split.
    by apply wire_event_ok.
Qed.

(** ** The run behind a session *)

(** A game without the audit states that receipts have settled: what the
    authority replays. *)
Definition unaudited (g : GameState) : GameState :=
  set_inventory g (map (fun it => set_audit it provisional) (inventory g)).
Definition drops_provisional (g : GameState) : Prop := Forall (fun d => audit (drop_item d) = provisional) (drops g).

Section Runs.
Context `{JsHost} (digest : AuditDigestAdapter).

Lemma unaudited_items (ds : list GroundDrop) : Forall (fun d => audit (drop_item d) = provisional) ds ->
  map (fun it => set_audit it provisional) (map drop_item ds) = map drop_item ds.
Proof. induction 1 as [|d ds E _ IH]; [done|]. cbn. rewrite IH. f_equal. destruct (drop_item d). cbn in *. by rewrite E. Qed.
(** A tick does not look at audit states. *)
Lemma advance_unaudited g i g' fx : drops_provisional g -> advanceGame g i = Ok (g', fx) ->
  advanceGame (unaudited g) i = Ok (unaudited g', fx) /\ drops_provisional g'.
Proof.
  unfold drops_provisional. intros Hd E.
  pose proof E as (_ & _ & _ & es & ds & afx & p & rem & tfx & Ha & _ & Eg & _)%advanceGame_Ok.
  assert (Hall : Forall (fun d => audit (drop_item d) = provisional) (drops g ++ ds)).
  { apply Forall_app. split; [done|]. eapply Forall_impl; [exact (attacked_drops _ _ _ _ _ _ _ Ha)|]. by intros d (e & _ & ->). }
  assert (Hsub : forall q, Forall (fun d => audit (drop_item d) = provisional) (List.filter q (drops g ++ ds))).
  { intros q. rewrite Forall_forall in *. intros d [Hin _]%list_elem_of_In%filter_In. by apply Hall, list_elem_of_In. }
  split; [|rewrite Eg; apply Hsub].
  assert (Hu : unaudited g' = set_inventory g' (map (fun it => set_audit it provisional) (inventory g) ++
    map drop_item (List.filter (in_pickup_range p) (drops g ++ ds)))).
  { unfold unaudited. f_equal. rewrite Eg. cbn [inventory]. by rewrite map_app, unaudited_items by apply Hsub. }
  rewrite Hu. clear Hu Hall Hsub Ha Hd. revert E Eg. unfold advanceGame. cbn [unaudited set_inventory seed tick player enemies telegraphs drops inventory].
  change (movePlayer (unaudited g) i) with (movePlayer g i).
  change (movePlayer (set_inventory g _) i) with (movePlayer g i).
  destruct (negb _); [done|]. destruct (_ || _); [done|].
  destruct (attackNearest _ _ _ _) as [[es1 ds1] afx1]. destruct (resolveTelegraphs _ _ _) as [[p1 rem1] tfx1].
  intros E. injection E as <- <-. intros Eg. injection Eg as _ _ _ _ Hdr Hinv. do 2 f_equal. unfold set_inventory. cbn [seed tick player enemies telegraphs drops].
  f_equal. by apply app_inv_head in Hinv as ->.
Qed.
Lemma verification_unaudited g r g' : applyItemVerification g r = Ok g' -> unaudited g' = unaudited g /\ drops g' = drops g.
Proof.
  intros (E1 & E2 & E3 & E4 & E5 & E6 & E7)%applyItemVerification_frame. split; [|done].
  unfold unaudited, set_inventory. by rewrite E1, E2, E3, E4, E5, E6, E7.
Qed.
Lemma canonical_unaudited g : canonicalGameState (unaudited g) = canonicalGameState g.
Proof.
  unfold canonicalGameState, canonicalStateValue. cbn [unaudited set_inventory seed tick player enemies telegraphs drops inventory].
  do 12 f_equal. by rewrite map_map.
Qed.
Lemma run_split inputs g g' fxs k : runGame g inputs = Ok (g', fxs) ->
  exists gk, runGame g (take k inputs) = Ok (gk, take k fxs) /\ runGame gk (drop k inputs) = Ok (g', drop k fxs).
Proof.
  revert g fxs k. induction inputs as [|i inputs IH]; intros g fxs k.
  - cbn. intros E. injection E as <- <-. exists g. by rewrite take_nil, drop_nil, take_nil, drop_nil.
  - cbn [runGame]. destruct (advanceGame g i) as [[g1 fx]|] eqn:Ea; [|done].
    destruct (runGame g1 inputs) as [[g2 rest]|] eqn:Er; [|done]. intros E. injection E as <- <-.
    destruct k as [|k]; [exists g; cbn [take drop runGame]; by rewrite Ea, Er|].
    destruct (IH g1 rest k Er) as (gk & H1 & H2). exists gk. cbn [take drop runGame]. by rewrite Ea, H1.
Qed.
Lemma run_events_take inputs fxs k : run_events (take k inputs) (take k fxs) = take k (run_events inputs fxs).
Proof.
  revert fxs k. induction inputs as [|i inputs IH]; intros [|fx fxs] [|k]; try reflexivity. cbn [take run_events]. f_equal. apply IH.
Qed.
Lemma run_events_drop inputs fxs k : run_events (drop k inputs) (drop k fxs) = drop k (run_events inputs fxs).
Proof.
  revert fxs k. induction inputs as [|i inputs IH]; intros [|fx fxs] [|k]; try reflexivity; cbn [drop run_events]; [by destruct (drop k inputs)|apply IH].
Qed.

Lemma new_event_unwire i fx g' :
  new_event (mkAuditTick i fx g') =
  unwire_event (mkWireEvent (input_tick i) (canonicalAuditEvent i fx)
    (sort_strings (map assetId (eventItems fx)))).
Proof. unfold new_event. cbn [at_effects at_input]. by rewrite droppedAssets_items. Qed.
Lemma run_events_snoc inputs fxs i fx g' : length inputs = length fxs ->
  map unwire_event (run_events (inputs ++ [i]) (fxs ++ [fx])) =
  map unwire_event (run_events inputs fxs) ++ [new_event (mkAuditTick i fx g')].
Proof.
  rewrite new_event_unwire. revert fxs. induction inputs as [|x inputs IH]; intros [|y fxs] Hl; try discriminate Hl; [reflexivity|].
  injection Hl as Hl. cbn [app run_events map]. f_equal. by apply IH.
Qed.

(** A session is a run of the kernel, whatever is acknowledged or verified in
    between: its events are those of the run, and its checkpoints commit to the
    states of the run at the ends of the epochs. *)
Record client_run (j : GameAuditJournalState) (g g0 : GameState) (inputs : list InputFrame) (fxs : list (list StepEffect)) : Prop := {
  client_created : createInitialGame (mkCreateGame (journal_seed j) (journal_playerId j)) = inr g0;
  client_runs : runGame g0 inputs = Ok (unaudited g, fxs);
  client_journaled : all_events j = map unwire_event (run_events inputs fxs);
  client_states : forall n c gn fn, checkpoints j !! n = Some c ->
    runGame g0 (take (Z.to_nat (cadenceTicks j) * S n) inputs) = Ok (gn, fn) -> stateDigest c = hashString digest (canonicalGameState gn);
}.
Lemma initial_create ci g : createInitialGame ci = inr g -> createInitialGame (mkCreateGame (to_uint32 (create_seed ci)) (create_playerId ci)) = inr g.
Proof.
  unfold createInitialGame, throw_if. intros E. guards E. injection E as <-. cbn [create_seed create_playerId].
  rewrite (proj2 (isSafeInteger_spec _)); [|pose proof (to_uint32_range (create_seed ci)); unfold MAX_SAFE_INTEGER; lia].
  rewrite Hg0. cbn [negb]. unfold js_shr. rewrite !Z.shiftr_0_r. by rewrite (to_uint32_small (to_uint32 _)) by apply to_uint32_range.
Qed.
Lemma run_length g inputs g' fxs : runGame g inputs = Ok (g', fxs) -> length inputs = length fxs.
Proof.
  revert g fxs. induction inputs as [|i inputs IH]; intros g fxs; cbn; [by intros; simplify_eq|].
  destruct (advanceGame g i) as [[g1 fx]|]; [|done]. destruct (runGame g1 inputs) as [[g2 rest]|] eqn:E; [|done].
  intros; simplify_eq. cbn. f_equal. by eapply IH.
Qed.
Lemma client_tick j g g0 inputs fxs i g' fx j' cp : session digest g j -> drops_provisional g -> client_run j g g0 inputs fxs ->
  advanceGame g i = Ok (g', fx) -> appendAuditTick j (mkAuditTick i fx g') digest = Ok (j', cp) ->
  client_run j' g' g0 (inputs ++ [i]) (fxs ++ [fx]).
Proof.
  intros Hs Hd [C1 C2 C3 C4] Ha Hp. pose proof (si_journal _ _ _ (session_invariant _ _ _ Hs)) as Hj.
  destruct (append_inv digest _ _ _ _ Hj Hp) as (Hj' & _ & Hev & Hsd & Hpl & _ & Hcad & _).
  destruct (advance_unaudited _ _ _ _ Hd Ha) as [Hu _].
  assert (Hr : runGame g0 (inputs ++ [i]) = Ok (unaudited g', fxs ++ [fx])).
  { eapply run_app; [exact C2|]. cbn. by rewrite Hu. }
  split; [by rewrite Hsd, Hpl|done| |].
  - rewrite Hev, C3. symmetry. by apply run_events_snoc, (run_length _ _ _ _ C2).
  - pose proof (session_invariant _ _ _ (session_tick _ _ _ _ _ _ _ _ Hs Ha Hp)) as Hi'.
    destruct (run_frame _ _ _ _ Hr) as (_ & _ & Ht). destruct (initial_game_sources _ _ C1) as (_ & Ht0 & _).
    pose proof (si_tick _ _ _ Hi') as Hn. pose proof (ji_next _ _ Hj') as Hn'. pose proof (ji_cadence _ _ Hj') as Hc.
    change (tick (unaudited g')) with (tick g') in Ht.
    assert (Hold : forall n, (n < length (checkpoints j))%nat ->
      take (Z.to_nat (cadenceTicks j) * S n) (inputs ++ [i]) = take (Z.to_nat (cadenceTicks j) * S n) inputs).
    { intros n Hn0. apply take_app_le. pose proof (session_invariant _ _ _ Hs) as Hi. pose proof (si_tick _ _ _ Hi). pose proof (ji_next _ _ Hj).
      destruct (run_frame _ _ _ _ C2) as (_ & _ & Ht1). change (tick (unaudited g)) with (tick g) in Ht1. rewrite Hcad in Hc. nia. }
    intros n c gn fn Hlk. rewrite Hcad. apply append_Ok in Hp as (_ & [(_ & _ & ->)|(_ & _ & c' & _ & Hc' & ->)]); cbn [checkpoints set_pending] in *.
    + rewrite Hold by (by eapply lookup_lt_Some). by apply C4.
    + apply lookup_app_Some in Hlk as [Hlk|[Hge Hlk]].
      * rewrite Hold by (by eapply lookup_lt_Some). by apply C4.
      * apply list_lookup_singleton_Some in Hlk as [Hz <-]. rewrite take_ge.
        -- rewrite Hr. intros E. injection E as <- _. rewrite Hc'. cbn [stateDigest]. by rewrite canonical_unaudited.
        -- cbn [pending cadenceTicks] in *. rewrite length_app in *. cbn [length] in *. nia.
Qed.
Lemma session_run g j : session digest g j -> exists g0 inputs fxs, client_run j g g0 inputs fxs /\ drops_provisional g.
Proof.
  induction 1 as [ci ji g j Hc Hj Hsd Hpl|g j i g' fx j' cp Hs (g0 & inputs & fxs & Hr & Hd) Ha Hap|
    g j d j' Hs (g0 & inputs & fxs & [C1 C2 C3 C4] & Hd) Ha|g j r g' _ (g0 & inputs & fxs & [C1 C2 C3 C4] & Hd) Ha].
  - exists g, [], []. pose proof (create_journal_inv _ _ _ Hj) as (_ & Hjs & Hjp & _ & _ & Hev & Hcp & _).
    apply initial_create in Hc as Hc'.
    split; [split|].
    + rewrite Hjs, Hjp, <- Hsd, <- Hpl. unfold js_shr. by rewrite Z.shiftr_0_r.
    + cbn. do 2 f_equal. unfold createInitialGame, throw_if in Hc. guards Hc. by injection Hc as <-.
    + done.
    + by rewrite Hcp.
    + unfold createInitialGame, throw_if in Hc. guards Hc. injection Hc as <-. constructor.
  - exists g0, (inputs ++ [i]), (fxs ++ [fx]). split; [by eapply client_tick|]. by eapply advance_unaudited.
  - exists g0, inputs, fxs. split; [|done]. pose proof (si_journal _ _ _ (session_invariant _ _ _ Hs)) as Hj.
    destruct (ack_Ok digest _ _ _ Hj Ha) as [->|(c & _ & _ & -> & _)]; by split.
  - exists g0, inputs, fxs. destruct (verification_unaudited _ _ _ Ha) as [Hu Hdr]. split; [|unfold drops_provisional; by rewrite Hdr].
    split; [done|by rewrite Hu|done..].
Qed.
End Runs.

(** ** Completeness *)

Section Slices.
Context `{JsHost} (digest : AuditDigestAdapter).

(** The part of a run that epoch [n] covers. *)
Definition epoch_slice {A} (n : nat) (l : list A) : list A := take 30 (drop (30 * n) l).
Lemma epoch_slice_take {A} n (l : list A) : take (30 * S n) l = take (30 * n) l ++ epoch_slice n l.
Proof. unfold epoch_slice. replace (30 * S n)%nat with (30 * n + 30)%nat by lia. by rewrite <- take_take_drop. Qed.

Lemma chain_from_lookup_head prev t ep cps segs k c :
  chain_from digest 30 prev t ep cps segs -> cps !! k = Some c ->
  exists s, segs !! k = Some s /\
    sealed digest 30 (chain_head prev (take k cps)) (t + 30 * Z.of_nat k) (ep + Z.of_nat k) c s.
Proof.
  revert prev t ep segs k. induction cps as [|c0 cps IH]; intros prev t ep [|s0 segs] k; simpl; try done.
  intros [Hs Hc] Hk. destruct k as [|k]; simpl in Hk.
  - simplify_eq. exists s0. split; [done|]. by rewrite Z.mul_0_r, !Z.add_0_r.
  - destruct (IH _ _ _ _ _ Hc Hk) as (s & Hl & Hse). exists s. split; [done|].
    cbn [take]. rewrite chain_head_cons.
    replace (t + 30 * Z.of_nat (S k)) with (t + 30 + 30 * Z.of_nat k) by lia.
    by replace (ep + Z.of_nat (S k)) with (ep + 1 + Z.of_nat k) by lia.
Qed.

Lemma chain_events_slice prev t ep cps segs k s rest :
  chain_from digest 30 prev t ep cps segs -> segs !! k = Some s ->
  events s = epoch_slice k (flat_map events segs ++ rest).
Proof.
  unfold epoch_slice. revert prev t ep segs k. induction cps as [|c0 cps IH]; intros prev t ep [|s0 segs] k; try done.
  intros [Hs Hc] Hk. cbn [flat_map]. pose proof (sealed_length _ _ _ _ _ _ _ Hs) as Hl. rewrite <- app_assoc.
  destruct k as [|k]; cbn in Hk.
  - injection Hk as <-. rewrite Nat.mul_0_r, drop_0, take_app_length' by lia. done.
  - rewrite (drop_app_ge (events s0)) by lia. rewrite (IH _ _ _ _ _ Hc Hk). do 2 f_equal. lia.
Qed.

Lemma chain_digests cad prev t ep cps segs :
  chain_from digest cad prev t ep cps segs ->
  map segment_checkpointDigest segs = map checkpointDigest cps.
Proof.
  revert prev t ep segs. induction cps as [|c cps IH]; intros prev t ep [|s segs]; simpl; try done.
  intros [Hs Hc]. by rewrite (sealed_segment_digest _ _ _ _ _ _ _ Hs), (IH _ _ _ _ Hc).
Qed.

(** Looking a segment up by a digest finds the one at its position when the
    digests are distinct. *)
Lemma find_segment segs k s :
  NoDup (map segment_checkpointDigest segs) -> segs !! k = Some s ->
  List.find (fun s0 => str_eqb (segment_checkpointDigest s0) (segment_checkpointDigest s)) segs = Some s.
Proof.
  revert k. induction segs as [|s0 segs IH]; intros k; [done|]. cbn [map List.find]. rewrite NoDup_cons.
  intros [Hnot Hnd] Hk. destruct k as [|k]; cbn in Hk.
  - injection Hk as ->. by rewrite str_eqb_refl.
  - rewrite (proj2 (str_eqb_neq _ _)); [by eapply IH|]. intros E. apply Hnot. rewrite E.
    apply (list_elem_of_fmap_2 segment_checkpointDigest). by eapply list_elem_of_lookup_2.
Qed.
End Slices.

Section Complete.
Context `{JsHost} (digest : AuditDigestAdapter).
Context (g g0 : GameState) (j : GameAuditJournalState).
Context (inputs : list InputFrame) (fxs : list (list StepEffect)).
Context (Hs : session digest g j) (Hrun : client_run digest j g g0 inputs fxs).
Context (Hcad : cadenceTicks j = 30) (Hbound : tick g <= MAX_SAFE_INTEGER).
Context (Hdistinct : NoDup (map checkpointDigest (checkpoints j))).
Context (Hne : forall s, hashString digest s <> []).

(** The request for the checkpoint of epoch [n]. *)
Definition epoch_request (n : nat) (c : GameMicroCheckpoint) : GameCheckpointVerificationRequest :=
  mkCheckpointRequest (journal_seed j) (journal_playerId j) (journal_ownerPublicKey j)
    (wire_checkpoint c) (run_events (epoch_slice n inputs) (epoch_slice n fxs)).

(** The games of the run at the ends of epoch [n]. *)
Definition epoch_games (n : nat) (gn gn' : GameState) : Prop :=
  runGame g0 (take (30 * n) inputs) = Ok (gn, take (30 * n) fxs) /\
  runGame gn (epoch_slice n inputs) = Ok (gn', epoch_slice n fxs) /\
  runGame g0 (take (30 * S n) inputs) = Ok (gn', take (30 * S n) fxs).

Lemma client_lengths : length inputs = (30 * length (checkpoints j) + length (pending j))%nat /\
  tick g = Z.of_nat (length inputs) /\ game_inv g0 /\ tick g0 = 0.
Proof using Hs Hrun Hcad.
  destruct Hrun as [Hc Hr _ _]. pose proof (session_invariant _ _ _ Hs) as Hi.
  pose proof (ji_next _ _ (si_journal _ _ _ Hi)) as Hn. pose proof (si_tick _ _ _ Hi) as Ht.
  destruct (run_frame _ _ _ _ Hr) as (_ & _ & Ht1). change (tick (unaudited g)) with (tick g) in Ht1.
  destruct (initial_game_sources _ _ Hc) as (_ & Ht0 & _). rewrite Hcad in Hn.
  split_and!; [lia|lia| |done]. exact (initial_game_inv _ _ Hc).
Qed.

Lemma epoch_bound n c : checkpoints j !! n = Some c -> (30 * S n <= length inputs)%nat.
Proof using Hs Hrun Hcad. intros Hn%lookup_lt_Some. destruct client_lengths as [E _]. lia. Qed.

Lemma epoch_games_exist n : exists gn gn', epoch_games n gn gn'.
Proof using Hrun.
  destruct Hrun as [_ Hr _ _]. destruct (run_split _ _ _ _ (30 * n) Hr) as (gn & H1 & H2).
  destruct (run_split _ _ _ _ 30 H2) as (gn' & H3 & _). exists gn, gn'. split; [done|]. split; [exact H3|].
  rewrite !epoch_slice_take. by eapply run_app.
Qed.

Lemma epoch_ticks n c gn gn' : checkpoints j !! n = Some c -> epoch_games n gn gn' ->
  game_inv gn /\ tick gn = 30 * Z.of_nat n /\ tick gn' = 30 * Z.of_nat n + 30 /\
  tick gn' <= tick g /\ length (epoch_slice n inputs) = 30%nat.
Proof using Hs Hrun Hcad.
  intros Hn%epoch_bound (H1 & _ & H3). destruct client_lengths as (_ & Ht & Hg & Ht0).
  destruct (run_frame _ _ _ _ H1) as (_ & _ & E1). destruct (run_frame _ _ _ _ H3) as (_ & _ & E3).
  rewrite length_take in E1, E3. destruct (run_inv _ _ _ _ Hg H1) as (Hi & _).
  unfold epoch_slice. rewrite length_take, length_drop. split_and!; [done|lia..].
Qed.

(** The sealed segment of epoch [n] holds the events of its slice of the run. *)
Lemma epoch_sealed n c : checkpoints j !! n = Some c -> exists s,
  retainedSegments j !! n = Some s /\
  sealed digest 30 (chain_head (genesisDigest j) (take n (checkpoints j)))
    (1 + 30 * Z.of_nat n) (Z.of_nat n) c s /\
  events s = map unwire_event (run_events (epoch_slice n inputs) (epoch_slice n fxs)).
Proof using Hs Hrun Hcad.
  intros Hn. pose proof (ji_chain _ _ (si_journal _ _ _ (session_invariant _ _ _ Hs))) as Hch. rewrite Hcad in Hch.
  destruct (chain_from_lookup_head _ _ _ _ _ _ _ _ Hch Hn) as (s & Hseg & Hse). exists s. split_and!; [done|done|].
  rewrite (chain_events_slice _ _ _ _ _ _ _ _ (pending j) Hch Hseg).
  fold (all_events j). rewrite (client_journaled _ _ _ _ _ _ Hrun). unfold epoch_slice.
  rewrite <- fmap_drop, <- fmap_take. by rewrite run_events_take, run_events_drop.
Qed.

Lemma epoch_build n c : checkpoints j !! n = Some c ->
  buildGameCheckpointVerificationRequest j (Z.of_nat n) = inr (epoch_request n c).
Proof using Hs Hrun Hcad Hbound Hdistinct.
  intros Hn. destruct (epoch_sealed n c Hn) as (s & Hseg & Hse & Hev). pose proof (epoch_bound n c Hn) as Hb.
  destruct client_lengths as (_ & Ht & _).
  pose proof (ji_chain _ _ (si_journal _ _ _ (session_invariant _ _ _ Hs))) as Hch.
  unfold buildGameCheckpointVerificationRequest, checkpointRequestAt, throw_if.
  rewrite (proj2 (isSafeInteger_spec _)) by (unfold MAX_SAFE_INTEGER in *; lia).
  rewrite (proj2 (Z.ltb_ge _ _)) by lia. cbn [negb orb]. rewrite Nat2Z.id, Hn.
  rewrite <- (sealed_segment_digest _ _ _ _ _ _ _ Hse).
  rewrite (find_segment _ n s) by (try done; by rewrite (chain_digests _ _ _ _ _ _ _ Hch)).
  unfold epoch_request. rewrite Hev, map_map. do 2 f_equal.
  rewrite (map_ext _ (fun e => e)); [apply map_id|]. by intros [].
Qed.

Lemma ticks_from_safe t evs : ticks_from t (map unwire_event evs) -> 0 <= t ->
  t + Z.of_nat (length evs) <= MAX_SAFE_INTEGER + 1 ->
  Forall (fun e => isSafeInteger (we_tick e) = true /\ 0 <= we_tick e) evs.
Proof using.
  revert t. induction evs as [|e evs IH]; intros t Htk Hnn Hb; [constructor|].
  destruct Htk as [E Ht]. cbn [length] in Hb. constructor; [|by apply (IH (t + 1)); [done|lia|lia]].
  cbn [unwire_event event_tick] in E. rewrite isSafeInteger_spec. unfold MAX_SAFE_INTEGER in *. lia.
Qed.

Lemma epoch_numbers n c : checkpoints j !! n = Some c -> numbers_ok (epoch_request n c).
Proof using Hs Hrun Hcad Hbound.
  intros Hn. destruct (epoch_sealed n c Hn) as (s & _ & Hse & Hev). pose proof (epoch_bound n c Hn) as Hb.
  destruct client_lengths as (_ & Ht & _).
  pose proof (si_journal _ _ _ (session_invariant _ _ _ Hs)) as Hj. pose proof (ji_seed_range _ _ Hj).
  pose proof (sealed_length _ _ _ _ _ _ _ Hse) as Hl. pose proof (sealed_ticks _ _ _ _ _ _ _ Hse) as Htk.
  rewrite Hev in Hl, Htk. rewrite length_map in Hl.
  unfold numbers_ok. cbn [epoch_request cr_seed cr_checkpoint wire_checkpoint wc_epoch wc_first_tick wc_last_tick
    wc_event_count cr_events cr_owner_public_key].
  rewrite (sealed_epoch _ _ _ _ _ _ _ Hse), (sealed_first _ _ _ _ _ _ _ Hse),
    (sealed_last _ _ _ _ _ _ _ Hse), (sealed_count _ _ _ _ _ _ _ Hse).
  rewrite !isSafeInteger_spec. unfold MAX_SAFE_INTEGER in *.
  split_and!; try lia; [|apply (ji_key _ _ Hj)].
  apply (ticks_from_safe (1 + 30 * Z.of_nat n)); [done|lia|unfold MAX_SAFE_INTEGER; lia].
Qed.

(** The record the authority keeps of epoch [n]. *)
Definition epoch_parent (c : GameMicroCheckpoint) (gn' : GameState) : GameCheckpointVerificationParent :=
  mkParent (checkpointDigest c) (stateDigest c) (journal_ownerPublicKey j) gn'.

Lemma digest_nonempty x : slen (hashString digest x) =? 0 = false.
Proof using Hne.
  apply Z.eqb_neq. unfold slen. pose proof (Hne x). destruct (hashString digest x); [done|]. simpl. lia.
Qed.

Lemma epoch_state n c gn gn' : checkpoints j !! n = Some c -> epoch_games n gn gn' ->
  stateDigest c = hashString digest (canonicalGameState gn').
Proof using Hrun Hcad.
  intros Hn (_ & _ & H3). apply (client_states _ _ _ _ _ _ Hrun n c gn' (take (30 * S n) fxs) Hn). rewrite Hcad. exact H3.
Qed.

Lemma epoch_zero_starts c gn gn' : checkpoints j !! 0%nat = Some c -> epoch_games 0 gn gn' ->
  replayStart (epoch_request 0 c) digest None = inr (Ok (gn, genesisDigest j)).
Proof using Hs Hrun Hcad.
  intros Hn (H1 & _). destruct (epoch_sealed _ _ Hn) as (s & _ & Hse & _). apply replayStart_intro. left.
  cbn [epoch_request cr_checkpoint cr_seed cr_player_id cr_owner_public_key wire_checkpoint wc_epoch].
  rewrite (sealed_epoch _ _ _ _ _ _ _ Hse). rewrite Nat.mul_0_r in H1. cbn in H1. injection H1 as <-.
  split_and!; [done|exact (client_created _ _ _ _ _ _ Hrun)|].
  apply (ji_genesis _ _ (si_journal _ _ _ (session_invariant _ _ _ Hs))).
Qed.

Lemma epoch_next_starts n c0 c gn gn' : checkpoints j !! n = Some c0 -> checkpoints j !! S n = Some c ->
  epoch_games (S n) gn gn' ->
  replayStart (epoch_request (S n) c) digest (Some (epoch_parent c0 gn)) = inr (Ok (gn, checkpointDigest c0)).
Proof using Hs Hrun Hcad Hne.
  intros Hn0 Hn Hg. destruct (epoch_sealed _ _ Hn) as (s & _ & Hse & _). destruct (epoch_sealed _ _ Hn0) as (s0 & _ & Hse0 & _).
  destruct (epoch_ticks _ _ _ _ Hn Hg) as (_ & Ht & _). destruct Hg as (H1 & _).
  assert (Hst : stateDigest c0 = hashString digest (canonicalGameState gn)).
  { apply (client_states _ _ _ _ _ _ Hrun n c0 gn (take (30 * S n) fxs) Hn0). by rewrite Hcad. }
  destruct (initial_game_sources _ _ (client_created _ _ _ _ _ _ Hrun)) as (Hpl & _).
  destruct (run_frame _ _ _ _ H1) as (Hsd & Hp & _).
  pose proof (session_invariant _ _ _ Hs) as Hi. pose proof (run_frame _ _ _ _ (client_runs _ _ _ _ _ _ Hrun)) as (Hsd' & Hp' & _).
  change (seed (unaudited g)) with (seed g) in Hsd'. change (player (unaudited g)) with (player g) in Hp'.
  apply replayStart_intro. right.
  cbn [epoch_request cr_checkpoint cr_seed cr_player_id cr_owner_public_key wire_checkpoint wc_epoch].
  rewrite (sealed_epoch _ _ _ _ _ _ _ Hse). split; [lia|]. eexists. split; [reflexivity|].
  split_and!; [|done|done|by symmetry].
  unfold parentBindingRefused, checkpointFirstTick, CHECKPOINT_EVENT_COUNT.
  cbn [epoch_parent parent_state parent_checkpointDigest parent_stateDigest parent_ownerPublicKey epoch_request
    cr_checkpoint cr_seed cr_player_id cr_owner_public_key wire_checkpoint wc_epoch].
  rewrite (sealed_digest _ _ _ _ _ _ _ Hse0), Hst, !digest_nonempty, (sealed_epoch _ _ _ _ _ _ _ Hse), str_eqb_refl.
  replace (seed gn) with (journal_seed j) by (rewrite <- (si_seed _ _ _ Hi); congruence).
  replace (player_id (player gn)) with (journal_playerId j) by (rewrite <- (si_player _ _ _ Hi); congruence).
  rewrite Z.eqb_refl, str_eqb_refl. cbn [negb orb]. apply negb_false_iff, Z.eqb_eq. lia.
Qed.

Lemma chain_head_at prev n c0 : checkpoints j !! n = Some c0 ->
  chain_head prev (take (S n) (checkpoints j)) = checkpointDigest c0.
Proof using. intros Hn. unfold chain_head. by rewrite (take_S_r _ _ _ Hn), last_snoc. Qed.

(** Checking epoch [n] against a parent that lets its replay start there. *)
Lemma epoch_verifies n c gn gn' parent : checkpoints j !! n = Some c -> epoch_games n gn gn' ->
  fits_wire (epoch_request n c) = true ->
  replayStart (epoch_request n c) digest parent = inr (Ok (gn, chain_head (genesisDigest j) (take n (checkpoints j)))) ->
  exists v, verifyGameCheckpoint (request_value (epoch_request n c)) digest parent = inr (Ok v) /\
    parent_of (epoch_request n c) v = epoch_parent c gn'.
Proof using Hs Hrun Hcad Hbound.
  intros Hn Hg Hfit Hstart. destruct (epoch_ticks _ _ _ _ Hn Hg) as (Hgi & Ht & Ht' & Hle & Hlen).
  destruct (epoch_sealed _ _ Hn) as (s & _ & Hse & Hev). pose proof (epoch_state _ _ _ _ Hn Hg) as Hst.
  destruct Hg as (_ & Hr & _).
  exists (mkVerified gn' (wire_checkpoint c) (flat_map eventItems (epoch_slice n fxs))). split; [|done].
  apply verify_iff. eexists _, gn, _, (run_assets (epoch_slice n fxs)).
  assert (Hwc : unwire_checkpoint (wire_checkpoint c) = c) by (by destruct c).
  split_and!; [by apply request_roundtrip; [by apply epoch_numbers|]| |exact Hstart| |done|].
  - unfold ticksRefused, checkpointFirstTick, CHECKPOINT_EVENT_COUNT.
    cbn [cr_checkpoint epoch_request wire_checkpoint wc_epoch wc_first_tick wc_last_tick wc_event_count].
    rewrite (sealed_epoch _ _ _ _ _ _ _ Hse), (sealed_first _ _ _ _ _ _ _ Hse),
      (sealed_last _ _ _ _ _ _ _ Hse), (sealed_count _ _ _ _ _ _ _ Hse). cbv zeta.
    rewrite (proj2 (isSafeInteger_spec _)) by (unfold MAX_SAFE_INTEGER in *; lia).
    rewrite !(proj2 (Z.eqb_eq _ _)) by lia. done.
  - cbn [vc_state vc_createdItems epoch_request cr_checkpoint cr_events].
    replace (checkpointFirstTick (wire_checkpoint c)) with (tick gn + 1); [apply replay_complete; [done|done|lia]|].
    unfold checkpointFirstTick, CHECKPOINT_EVENT_COUNT. cbn [wire_checkpoint wc_epoch].
    rewrite (sealed_epoch _ _ _ _ _ _ _ Hse). lia.
  - unfold commitments_match. cbn [cr_checkpoint cr_events epoch_request vc_state]. cbv zeta. rewrite Hwc.
    cbn [wire_checkpoint wc_event_root wc_state_digest wc_previous_checkpoint wc_created_asset_ids
         wc_canonical_envelope wc_checkpoint_digest].
    destruct (run_inv _ _ _ _ Hgi Hr) as (_ & _ & _ & _ & _ & Hfx).
    rewrite (sealed_root _ _ _ _ _ _ _ Hse), (sealed_previous _ _ _ _ _ _ _ Hse),
      (sealed_assets _ _ _ _ _ _ _ Hse), <- (sealed_envelope _ _ _ _ _ _ _ Hse),
      (sealed_digest _ _ _ _ _ _ _ Hse), Hev, unwire_payloads, run_events_assets by done.
    by split_and!.
Qed.

(** The requests for the first epochs are accepted one after the other, each
    against the record the authority made of the one before. *)
Lemma epochs_verify n c : checkpoints j !! n = Some c ->
  let rs := imap epoch_request (take (S n) (checkpoints j)) in
  forallb fits_wire rs = true ->
  exists gn gn', epoch_games n gn gn' /\ authority_verified digest rs (epoch_parent c gn').
Proof using Hs Hrun Hcad Hbound Hne.
  cbv zeta. revert c. induction n as [|n IH]; intros c Hn.
  - rewrite (take_S_r _ _ _ Hn), take_0. cbn [app imap forallb]. rewrite andb_true_r. intros Hfit.
    destruct (epoch_games_exist 0) as (gn & gn' & Hg). exists gn, gn'. split; [done|].
    destruct (epoch_verifies 0 c gn gn' None Hn Hg Hfit) as (v & Hv & <-); [by apply (epoch_zero_starts c gn gn')|].
    destruct (epoch_sealed _ _ Hn) as (s & _ & Hse & _).
    apply (authority_first _ (request_value (epoch_request 0 c))); [apply request_roundtrip; [by apply epoch_numbers|done]| |done].
    apply (sealed_epoch _ _ _ _ _ _ _ Hse).
  - destruct (lookup_lt_is_Some_2 (checkpoints j) n) as [c0 Hn0]; [apply lookup_lt_Some in Hn; lia|].
    assert (Hl : length (take (S n) (checkpoints j)) = S n) by (apply length_take_le; apply lookup_lt_Some in Hn; lia).
    rewrite (take_S_r _ _ _ Hn), imap_app, forallb_app, Hl. cbn [imap forallb]. rewrite andb_true_r, Nat.add_0_r.
    intros [Hfits Hfit]%andb_true_iff. destruct (IH c0 Hn0 Hfits) as (g1 & gn & Hg1 & Ha).
    destruct (epoch_games_exist (S n)) as (gm & gn' & Hg). exists gm, gn'. split; [done|].
    assert (gm = gn) as -> by (destruct Hg1 as (_ & _ & E1), Hg as (E2 & _); congruence).
    destruct (epoch_verifies (S n) c gn gn' (Some (epoch_parent c0 gn)) Hn Hg Hfit) as (v & Hv & <-).
    { rewrite (chain_head_at _ _ _ Hn0). by eapply epoch_next_starts. }
    destruct (epoch_sealed _ _ Hn) as (s & _ & Hse & _).
    eapply authority_next; [exact Ha|apply request_roundtrip; [by apply epoch_numbers|done]| |exact Hv].
    cbn [epoch_request cr_checkpoint wire_checkpoint wc_epoch]. rewrite (sealed_epoch _ _ _ _ _ _ _ Hse). lia.
Qed.
End Complete.


(** ** Witnesses *)

Definition toy_audit : AuditDigestAdapter :=
  mkDigest toy_digest (fun l => toy_digest (join (js ",") l)).
Definition toy_async : AsyncAuditDigestAdapter :=
  mkAsyncDigest (fun s => Some (toy_digest s)) (fun l => Some (toy_digest (join (js ",") l))).
Definition toy_journal_input : CreateGameAuditJournalInput :=
  mkJournalInput 7 (js "player-1") (toy_key "alice") 30.
Definition toy_journal : GameAuditJournalState :=
  match createGameAuditJournal toy_journal_input toy_audit with
  | inr j => j
  | inl _ => empty_journal
  end.

Lemma toy_session : session (H := code_unit_host) toy_audit demo_game toy_journal.
Proof. apply (session_start toy_audit demo_create toy_journal_input); vm_compute; reflexivity. Qed.

Definition toy_played : GameState * GameAuditJournalState :=
  Eval vm_compute in
  match play (H := code_unit_host) toy_audit demo_game toy_journal demo_inputs with
  | Some p => p
  | None => (demo_game, toy_journal)
  end.

Lemma toy_play_ok :
  play (H := code_unit_host) toy_audit demo_game toy_journal demo_inputs
  = Some (toy_played.1, toy_played.2).
Proof. vm_compute. reflexivity. Qed.

Lemma toy_not_empty s : toy_digest s <> [].
Proof. intros E. pose proof (toy_length s) as Hl. by rewrite E in Hl. Qed.

Lemma toy_played_session : session (H := code_unit_host) toy_audit toy_played.1 toy_played.2.
Proof. exact (play_session toy_audit _ _ _ _ _ toy_session toy_play_ok). Qed.


(** The request for the demonstration checkpoint, and for the item it creates. *)
Definition empty_request : GameCheckpointVerificationRequest :=
  mkCheckpointRequest 0 [] [] (mkWireCheckpoint 0 0 0 0 [] [] [] [] [] []) [].
Definition toy_request : GameCheckpointVerificationRequest :=
  match buildGameCheckpointVerificationRequest toy_played.2 0 with
  | inr r => r
  | inl _ => empty_request
  end.
Definition accepted {A E} (d : A) (r : throws (result A E)) : A :=
  match r with inr (Ok a) => a | _ => d end.
Definition toy_verified : VerifiedCheckpoint :=
  accepted (mkVerified demo_game (cr_checkpoint empty_request) [])
    (verifyGameCheckpoint (H := code_unit_host) (request_value toy_request) toy_audit None).

Lemma toy_verifies :
  verifyGameCheckpoint (H := code_unit_host) (request_value toy_request) toy_audit None
  = inr (Ok toy_verified).
Proof. vm_compute. reflexivity. Qed.

Lemma verified_history_is_a_run_witness : exists p r0 inputs fxs,
  honest_history (H := code_unit_host) toy_audit [toy_request] p r0 inputs fxs.
Proof.
  destruct (verified_history_is_a_run (H := code_unit_host) toy_audit [toy_request]
              (parent_of toy_request toy_verified)) as (r0 & inputs & fxs & Hh).
  - apply (authority_first toy_audit (request_value toy_request)).
    + vm_compute. reflexivity.
    + vm_compute. reflexivity.
    + exact toy_verifies.
  - exists (parent_of toy_request toy_verified), r0, inputs, fxs. exact Hh.
Defined.

(** The signed item request. *)
Definition toy_item_asset : jsstr :=
  from_option assetId [] (head (vc_createdItems toy_verified)).
Definition toy_item_input : jsval :=
  match authenticateGameItemVerificationRequest (js "unit")
          (mkUnsignedRequest toy_request toy_item_asset) toy_audit
          (toy_signer (toy_key "alice")) with
  | inr r =>
      match request_value toy_request with
      | JObj o => JObj (o ++ [(js "asset_id", JStr (ur_asset_id (ir_unsigned r)));
                              (js "owner_signature", JStr (ir_owner_signature r))])
      | v => v
      end
  | inl _ => JUndef
  end.
Definition toy_verified_item : VerifiedItem :=
  accepted (mkVerifiedItem (mkAuthorityReceipt [] [] [] [] 0 [] [] 0) demo_item demo_game
              (cr_checkpoint empty_request))
    (verifyGameItemCreation (H := code_unit_host) (js "unit") toy_item_input toy_audit
       toy_verifier None).

Lemma toy_creates :
  verifyGameItemCreation (H := code_unit_host) (js "unit") toy_item_input toy_audit toy_verifier None
  = inr (Ok toy_verified_item).
Proof. vm_compute. reflexivity. Qed.

Lemma verification_never_throws_witness : exists res,
  verifyGameItemCreation (H := code_unit_host) (js "unit") JNull toy_audit toy_verifier None = inr res.
Proof.
  apply (verification_never_throws (H := code_unit_host) toy_audit (js "unit") toy_verifier JNull None).
  apply toy_isDigest.
Defined.

Lemma receipt_only_for_earned_loot_witness : exists r,
  receipt_issued (H := code_unit_host) toy_audit (js "unit") toy_verifier toy_item_input None r
    toy_verified_item.
Proof.
  apply (receipt_only_for_earned_loot (H := code_unit_host) toy_audit (js "unit") toy_verifier
           toy_item_input None toy_verified_item).
  exact toy_creates.
Defined.

Lemma receipt_settles_the_item_witness : exists g',
  applyItemVerification (set_inventory demo_game [vi_item toy_verified_item])
    (client_receipt (vi_receipt toy_verified_item)) = Ok g' /\
  length (inventory g') = 1%nat.
Proof.
  eexists. split.
  - apply (receipt_settles_the_item (H := code_unit_host) toy_audit (js "unit") toy_verifier
             toy_item_input None toy_verified_item
             (set_inventory demo_game [vi_item toy_verified_item]) 0).
    + apply toy_isDigest.
    + exact toy_creates.
    + reflexivity.
    + apply NoDup_singleton.
  - reflexivity.
Defined.

Lemma dual_accepts_what_both_accept_witness :
  verifyGameCheckpointDual (H := code_unit_host) (request_value toy_request) toy_audit toy_async None
  = inr (Some (Ok toy_verified)).
Proof.
  apply (dual_accepts_what_both_accept (H := code_unit_host) toy_audit toy_audit toy_async).
  - split; reflexivity.
  - intros r E. vm_compute in E. injection E as <-. reflexivity.
  - split; exact toy_verifies.
Defined.
