(* ===== verification/CryptoBackend.v ===== *)
(** * The asynchronous crypto backend

    [player-local-runtime/crypto-backend.ts]: the SHA-256/Ed25519 backend and
    its signers over WebCrypto.  The WebCrypto object is not part of the
    repository and is an argument, [SubtleCrypto]; a rejected promise is [inl].
    Proved here: the hexadecimal codec is exact, digests and signatures have
    their fixed shape, and a restored signer is accepted by [verify]. *)
From S2P Require Import Prelude Json Utf8.
Set Default Goal Selector "!".

(** ** Contracts *)

Inductive AuditCryptoAssurance := experimental | standard_webcrypto.
Record AuditCryptoBackendDescriptor := mkDescriptor {
  descriptor_id : jsstr;
  assurance : AuditCryptoAssurance;
}.
Record AuditCryptoBackend := mkBackend {
  descriptor : AuditCryptoBackendDescriptor;
  cb_hashString : jsstr -> throws jsstr;
  cb_verify : jsstr -> jsstr -> jsstr -> throws bool;
}.
Record AsyncAuditSigner := mkAuditSigner {
  as_publicKey : jsstr;
  as_signDigest : jsstr -> throws jsstr;
}.

Definition STANDARD_WEBCRYPTO_BACKEND_ID : jsstr := js "standard-webcrypto-sha256-ed25519-v1".
Definition EXPERIMENTAL_MOONBIT_BACKEND_ID : jsstr := js "experimental-moonbit-sha256-ed25519-v1".

Inductive CryptoRuntimeProfile := development | test | production.
Inductive CryptoRefusal := production_backend_required | backend_not_allowlisted.
Definition is_production (p : CryptoRuntimeProfile) : bool :=
  match p with production => true | _ => false end.
Definition is_standard (a : AuditCryptoAssurance) : bool :=
  match a with standard_webcrypto => true | _ => false end.

Definition cryptoRuntimeAdmission (profile : CryptoRuntimeProfile)
    (d : AuditCryptoBackendDescriptor) : result True CryptoRefusal :=
  if is_production profile && negb (is_standard (assurance d)) then Err production_backend_required
  else if negb (str_eqb (descriptor_id d) STANDARD_WEBCRYPTO_BACKEND_ID) &&
          negb (str_eqb (descriptor_id d) EXPERIMENTAL_MOONBIT_BACKEND_ID)
  then Err backend_not_allowlisted
  else Ok I.

(** ** Hexadecimal and base64 *)

Definition byte_hex (b : N) : jsstr := pad_start 2 48%N (digits 16 b).
Definition bytesToLowerHex (bytes : list N) : jsstr := concat (map byte_hex bytes).

(** [Number.parseInt(s, 16)] on a text with no sign, blank or [0x] prefix: its
    longest hexadecimal prefix, [None] for [NaN]. *)
Fixpoint hex_prefix (s : jsstr) (acc : option N) : option N :=
  match s with
  | [] => acc
  | c :: s' =>
      match hex_value c with
      | Some d => hex_prefix s' (Some (default 0 acc * 16 + d))%N
      | None => acc
      end
  end.
Definition parseInt16 (s : jsstr) : option N := hex_prefix s None.

(** [value.slice(index * 2, index * 2 + 2)] of every index; a typed array
    stores a number modulo 256, and [NaN] as 0. *)
Definition lowerHexToBytes (value : jsstr) (expectedBytes : nat) : option (list N) :=
  if negb (is_hex (expectedBytes * 2) value) then None
  else Some (map (fun index => (default 0 (parseInt16 (take 2 (drop (index * 2) value))) mod 256)%N)
               (seq 0 expectedBytes)).

(** [btoa] with the URL alphabet and without padding. *)
Definition base64_digit (n : N) : N :=
  (if n <? 26 then 65 + n else if n <? 52 then 71 + n else if n <? 62 then n - 4
   else if n =? 62 then 45 else 95)%N.
Fixpoint bytesToBase64Url (bytes : list N) : jsstr :=
  match bytes with
  | [] => []
  | [a] => [base64_digit (a / 4); base64_digit (a mod 4 * 16)]%N
  | [a; b] => [base64_digit (a / 4); base64_digit (a mod 4 * 16 + b / 16);
               base64_digit (b mod 16 * 4)]%N
  | a :: b :: c :: r =>
      [base64_digit (a / 4); base64_digit (a mod 4 * 16 + b / 16);
       base64_digit (b mod 16 * 4 + c / 64); base64_digit (c mod 64)]%N ++ bytesToBase64Url r
  end.

(** ** WebCrypto *)

Record SubtleCrypto := mkSubtle {
  CryptoKey : Type;
  key_type : CryptoKey -> jsstr;
  extractable : CryptoKey -> bool;
  key_algorithm : CryptoKey -> jsstr;
  usages : CryptoKey -> list jsstr;
  sc_digest : list N -> throws (list N);
  sc_importRaw : list N -> throws CryptoKey;
  sc_importJwk : jsstr -> jsstr -> throws CryptoKey;
  sc_verify : CryptoKey -> list N -> list N -> throws bool;
  sc_sign : CryptoKey -> list N -> throws (list N);
  sc_generateKey : throws (CryptoKey * CryptoKey);
  sc_exportRaw : CryptoKey -> throws (list N);
}.

Section Standard.
Context (subtle : SubtleCrypto).

Record WebCryptoSigningKeyMaterial := mkMaterial {
  m_version : Z;
  m_backendId : jsstr;
  m_scheme : jsstr;
  m_publicKey : jsstr;
  m_privateKey : CryptoKey subtle;
}.

Definition isPrivateEd25519SigningKey (key : CryptoKey subtle) : bool :=
  str_eqb (key_type subtle key) (js "private") && negb (extractable subtle key) &&
  str_eqb (key_algorithm subtle key) (js "Ed25519") &&
  (length (usages subtle key) =? 1)%nat &&
  bool_decide (usages subtle key !! 0%nat = Some (js "sign")).

Definition signingMaterial (publicKey : jsstr) (privateKey : CryptoKey subtle)
    : WebCryptoSigningKeyMaterial :=
  mkMaterial 1 STANDARD_WEBCRYPTO_BACKEND_ID (js "ed25519-v1") publicKey privateKey.

Definition hashString (value : jsstr) : throws jsstr :=
  let! bytes := sc_digest subtle (utf8_encode value) in inr (bytesToLowerHex bytes).

Definition verify (publicKey message signature : jsstr) : throws bool :=
  match lowerHexToBytes publicKey 32, lowerHexToBytes signature 64 with
  | Some publicBytes, Some signatureBytes =>
      match (let! key := sc_importRaw subtle publicBytes in
             sc_verify subtle key signatureBytes (utf8_encode message)) with
      | inr b => inr b
      | inl _ => inr false
      end
  | _, _ => inr false
  end.

Definition signerFor (publicKey : jsstr) (privateKey : CryptoKey subtle) : AsyncAuditSigner :=
  mkAuditSigner publicKey (fun digest =>
    let! bytes := sc_sign subtle privateKey (utf8_encode digest) in inr (bytesToLowerHex bytes)).

Definition challenge : jsstr := js "converge-audit-webcrypto-key-match-v1".

Definition restoreSigningKey (material : WebCryptoSigningKeyMaterial) : throws AsyncAuditSigner :=
  throw_if (negb (m_version material =? 1) ||
            negb (str_eqb (m_backendId material) STANDARD_WEBCRYPTO_BACKEND_ID) ||
            negb (str_eqb (m_scheme material) (js "ed25519-v1")) ||
            negb (bool_decide (is_Some (lowerHexToBytes (m_publicKey material) 32))) ||
            negb (isPrivateEd25519SigningKey (m_privateKey material)))
    (js "invalid WebCrypto signing-key material") $
  let signer := signerFor (m_publicKey material) (m_privateKey material) in
  let! signature := as_signDigest signer challenge in
  let! matches := verify (as_publicKey signer) challenge signature in
  throw_if (negb matches) (js "WebCrypto private/public key mismatch") $
  inr signer.

Definition generateSigningKey : throws (WebCryptoSigningKeyMaterial * AsyncAuditSigner) :=
  let! keys := sc_generateKey subtle in
  let! publicBytes := sc_exportRaw subtle (fst keys) in
  let material := signingMaterial (bytesToLowerHex publicBytes) (snd keys) in
  let! signer := restoreSigningKey material in
  inr (material, signer).

Definition importLegacySeed (seedHex publicKey : jsstr)
    : throws (WebCryptoSigningKeyMaterial * AsyncAuditSigner) :=
  match lowerHexToBytes seedHex 32, lowerHexToBytes publicKey 32 with
  | Some seed, Some publicBytes =>
      let! privateKey :=
        sc_importJwk subtle (bytesToBase64Url publicBytes) (bytesToBase64Url seed) in
      let material := signingMaterial publicKey privateKey in
      let! signer := restoreSigningKey material in
      inr (material, signer)
  | _, _ => inl (js "invalid legacy Ed25519 key")
  end.

Definition createStandardWebCryptoBackend : AuditCryptoBackend :=
  mkBackend (mkDescriptor STANDARD_WEBCRYPTO_BACKEND_ID standard_webcrypto) hashString verify.
End Standard.

(** ** The hexadecimal codec *)

Lemma byte_hex_nibbles b : (b < 256)%N ->
  byte_hex b = [digit_unit (b / 16); digit_unit (b mod 16)].
Proof.
  intros Hb.
  assert (forall n : nat, (n < 256)%nat ->
            byte_hex (N.of_nat n) = [digit_unit (N.of_nat n / 16); digit_unit (N.of_nat n mod 16)]) as A.
  { intros n Hn.
    assert (forallb (fun n => bool_decide (byte_hex (N.of_nat n) =
              [digit_unit (N.of_nat n / 16); digit_unit (N.of_nat n mod 16)])) (seq 0 256) = true)
      as All by (vm_compute; reflexivity).
    rewrite forallb_forall in All. specialize (All n).
    apply bool_decide_eq_true in All; [done|]. apply in_seq. lia. }
  specialize (A (N.to_nat b)). rewrite N2Nat.id in A. apply A. lia.
Qed.

Lemma digit_lower_hex d : (d < 16)%N -> is_lower_hex (digit_unit d) = true.
Proof.
  intros Hd. unfold is_lower_hex, digit_unit.
  destruct (N.ltb_spec d 10); apply orb_true_iff; [left|right]; apply andb_true_iff; split;
    apply N.leb_le; lia.
Qed.

Lemma bytesToLowerHex_shape bytes : Forall (fun b => b < 256)%N bytes ->
  is_hex (length bytes * 2) (bytesToLowerHex bytes) = true.
Proof.
  unfold is_hex, bytesToLowerHex. induction 1 as [|b bytes Hb _ IH]; [done|].
  cbn [map concat length]. rewrite byte_hex_nibbles by done.
  apply andb_true_iff in IH as [IL IH]. apply Nat.eqb_eq in IL.
  cbn [forallb length app].
  rewrite IL, IH, !digit_lower_hex by (try apply N.mod_lt; try apply N.Div0.div_lt_upper_bound; lia).
  cbn [andb]. by rewrite Nat.eqb_refl.
Qed.

Lemma parseInt16_nibbles h d : (h < 16)%N -> (d < 16)%N ->
  parseInt16 [digit_unit h; digit_unit d] = Some (h * 16 + d)%N.
Proof.
  intros. unfold parseInt16. cbn [hex_prefix]. by rewrite !hex_value_digit.
Qed.

(** Reading the hexadecimal text of some bytes gives the bytes back. *)
Lemma hex_codec_exact bytes : Forall (fun b => b < 256)%N bytes ->
  lowerHexToBytes (bytesToLowerHex bytes) (length bytes) = Some bytes.
Proof.
  intros Hb. unfold lowerHexToBytes. rewrite bytesToLowerHex_shape by done. cbn [negb]. f_equal.
  enough (A : forall pre, length pre = (length pre / 2 * 2)%nat ->
    map (fun index => (default 0 (parseInt16 (take 2 (drop (index * 2)
           (pre ++ bytesToLowerHex bytes)))) mod 256)%N)
      (seq (length pre / 2) (length bytes)) = bytes) by (by apply (A [])).
  induction Hb as [|b bytes Hb _ IH]; intros pre Hpre; [done|].
  cbn [length seq map]. unfold bytesToLowerHex in *. cbn [map concat].
  rewrite byte_hex_nibbles by done. f_equal.
  - rewrite <- Hpre, drop_app_length. cbn [app take].
    rewrite parseInt16_nibbles by (try apply N.mod_lt; try apply N.Div0.div_lt_upper_bound; lia).
    cbn [default from_option id]. rewrite (N.mul_comm (b / 16)), <- N.div_mod' by lia.
    by apply N.mod_small.
  - specialize (IH (pre ++ [digit_unit (b / 16); digit_unit (b mod 16)])).
    rewrite length_app in IH. cbn [length] in IH.
    replace ((length pre + 2) / 2)%nat with (S (length pre / 2)) in IH
      by (rewrite Hpre, Nat.div_mul by lia; replace (length pre / 2 * 2 + 2)%nat
            with ((S (length pre / 2)) * 2)%nat by lia; by rewrite Nat.div_mul by lia).
    rewrite <- app_assoc in IH. apply IH. lia.
Qed.

(** ** Digests and signatures *)

Definition bytes_of (n : nat) (bytes : list N) : Prop :=
  length bytes = n /\ Forall (fun b => b < 256)%N bytes.

(** What WebCrypto promises: SHA-256 gives 32 bytes. *)
Class SubtleLaws (subtle : SubtleCrypto) := {
  digest_bytes : forall text d, sc_digest subtle text = inr d -> bytes_of 32 d;
}.

Lemma hashString_digest `{SubtleLaws subtle} text d :
  hashString subtle text = inr d -> is_hex 64 d = true.
Proof.
  unfold hashString. destruct (sc_digest subtle _) as [|bytes] eqn:E; cbn [throw_bind]; [done|].
  intros [= <-]. apply digest_bytes in E as [L B].
  pose proof (bytesToLowerHex_shape bytes B) as S. by rewrite L in S.
Qed.

Lemma lower_hex_value c : is_lower_hex c = true -> exists d, hex_value c = Some d /\ (d < 16)%N.
Proof.
  intros Hc. unfold is_lower_hex in Hc. unfold hex_value, is_decimal.
  apply orb_true_iff in Hc as [[A B]%andb_true_iff|[A B]%andb_true_iff]; apply N.leb_le in A, B.
  - rewrite (proj2 (N.leb_le _ _) A), (proj2 (N.leb_le _ _) B). cbn. eexists. split; [done|lia].
  - rewrite (proj2 (N.leb_gt c 57)) by lia. rewrite andb_false_r.
    rewrite (proj2 (N.leb_le _ _) A), (proj2 (N.leb_le _ _) B). cbn. eexists. split; [done|lia].
Qed.

(** The first eight digits of a digest are a number below [2^32]. *)
Lemma hex_prefix_bound s acc :
  forallb is_lower_hex s = true ->
  exists n, hex_prefix s (Some acc) = Some n /\ (n < (acc + 1) * 16 ^ N.of_nat (length s))%N.
Proof.
  revert acc. induction s as [|c s IH]; intros acc Hs.
  - exists acc. cbn. split; [done|lia].
  - cbn [forallb] in Hs. apply andb_true_iff in Hs as [Hc Hs]. cbn [hex_prefix].
    destruct (lower_hex_value c Hc) as (d & Hd & Lt).
    rewrite Hd. destruct (IH (acc * 16 + d)%N Hs) as (n & En & Ln). exists n. split; [done|].
    cbn [length]. rewrite Nat2N.inj_succ, N.pow_succ_r'. nia.
Qed.

Lemma digest_seed d : is_hex 64 d = true -> exists n, parseInt16 (take 8 d) = Some n /\ (n < 2 ^ 32)%N.
Proof.
  unfold is_hex. intros [L Hd]%andb_true_iff. apply Nat.eqb_eq in L.
  assert (L8 : length (take 8 d) = 8%nat) by (rewrite length_take; lia).
  assert (H8 : forallb is_lower_hex (take 8 d) = true).
  { rewrite <- (take_drop 8 d), forallb_app in Hd. by apply andb_true_iff in Hd as [? _]. }
  destruct (take 8 d) as [|c s] eqn:E; [done|]. clear E.
  assert (hex_prefix (c :: s) None = hex_prefix (c :: s) (Some 0%N)) as E0.
  { cbn [forallb] in H8. apply andb_true_iff in H8 as [Hc _]. cbn [hex_prefix default from_option].
    destruct (lower_hex_value c Hc) as (v & -> & _). done. }
  unfold parseInt16. rewrite E0. destruct (hex_prefix_bound (c :: s) 0 H8) as (n & En & Ln).
  exists n. split; [done|]. rewrite L8 in Ln. change (16 ^ N.of_nat 8)%N with (2 ^ 32)%N in Ln. lia.
Qed.

(** A private key whose signatures the public key accepts. *)
Definition key_pair (subtle : SubtleCrypto) (pub : list N) (priv : CryptoKey subtle) : Prop :=
  bytes_of 32 pub /\ exists key, sc_importRaw subtle pub = inr key /\
  forall m s, sc_sign subtle priv m = inr s -> bytes_of 64 s /\ sc_verify subtle key s m = inr true.

Lemma standard_signature_verifies subtle pub priv d s :
  key_pair subtle pub priv ->
  as_signDigest (signerFor subtle (bytesToLowerHex pub) priv) d = inr s ->
  verify subtle (bytesToLowerHex pub) d s = inr true.
Proof.
  intros ((Lp & Bp) & key & Ek & Hk) Hs. cbn [as_signDigest signerFor] in Hs.
  destruct (sc_sign subtle priv (utf8_encode d)) as [|sb] eqn:E; cbn [throw_bind] in Hs; [done|].
  injection Hs as <-. apply Hk in E as [[Ls Bs] Ev]. unfold verify.
  pose proof (hex_codec_exact pub Bp) as Xp. rewrite Lp in Xp.
  pose proof (hex_codec_exact sb Bs) as Xs. rewrite Ls in Xs.
  by rewrite Xp, Xs, Ek; cbn [throw_bind]; rewrite Ev.
Qed.

(** An accepted signature is 64 bytes in hexadecimal. *)
Lemma verified_signature_shape subtle key d s : verify subtle key d s = inr true -> is_hex 128 s = true.
Proof.
  unfold verify, lowerHexToBytes. destruct (is_hex (32 * 2) key); cbn [negb throw_bind]; [|done].
  change (64 * 2)%nat with 128%nat. by destruct (is_hex 128 s).
Qed.
