(* ===== verification/EncounterWire.v ===== *)
(** * Encounter wire format

    [game/encounter/contracts.ts], [validation.ts], [wire.ts], [preview.ts] and
    the statements of [archive.ts] and [generation.ts]: the records of a
    commit-reveal encounter, the framed texts that are hashed and signed, the
    input log and the verification of every certificate.

    The crypto backend is an argument.  An asynchronous function returns
    [throws]: a rejected promise and a thrown error are the same outcome. *)
From S2P Require Import Prelude Json Contracts Kernel Journal Utf8 CryptoBackend.
Set Default Goal Selector "!".

(** ** Contracts *)

Definition ENCOUNTER_RULES : jsstr := js "reference-game-encounter-v1".
Definition ENCOUNTER_TICKS : Z := 60.
Definition CHUNK_TICKS : Z := 30.
Definition MAX_CHUNK_BYTES : Z := 4096.

Record EncounterAuthorization := mkAuthorization {
  generation : option Z;
  unit : jsstr;
  startHead : jsstr;
  ea_playerId : jsstr;
  ea_ownerPublicKey : jsstr;
}.

Record EncounterTicket := mkTicket {
  t_authorization : EncounterAuthorization;
  t_version : Z;
  ticketId : jsstr;
  authorityKey : jsstr;
  rulesId : jsstr;
  queueId : jsstr;
  seedCommitment : jsstr;
  issuedAt : Z;
  commitNotBefore : Z;
  releaseAt : Z;
  ticketSignature : jsstr;
}.

Record EncounterCommit := mkCommit {
  c_ticketId : jsstr;
  c_root : jsstr;
  chunkDigests : list jsstr;
  c_ownerSignature : jsstr;
}.

Record EncounterReveal := mkReveal {
  rv_ticketId : jsstr;
  rv_root : jsstr;
  rv_seed : jsstr;
  rv_committedAt : Z;
  releasedAt : Z;
  rv_signature : jsstr;
}.

(** [Omit<InventoryItem, "audit">]. *)
Record EncounterItem := mkEncounterItem {
  ei_assetId : jsstr;
  ei_ownerId : jsstr;
  ei_itemType : jsstr;
  ei_rarity : ItemRarity;
  ei_power : Z;
  ei_sourceEnemyId : jsstr;
  ei_killTick : Z;
  ei_dropIndex : Z;
}.

Record EncounterReceiptStatement := mkReceiptStatement {
  rs_version : Z;
  rs_authorityKey : jsstr;
  rs_ticketId : jsstr;
  rs_unit : jsstr;
  rs_rulesId : jsstr;
  rs_playerId : jsstr;
  rs_ownerPublicKey : jsstr;
  rs_root : jsstr;
  finalStateDigest : jsstr;
  items : list EncounterItem;
  settledAt : Z;
  rs_retentionUntil : Z;
}.
Record EncounterReceipt := mkEncounterReceipt {
  receipt_statement : EncounterReceiptStatement;
  receiptId : jsstr;
  receipt_signature : jsstr;
}.

Record EncounterListing := mkListing {
  el_ticketId : jsstr;
  el_receiptId : jsstr;
  el_assetId : jsstr;
  el_ownerSignature : jsstr;
}.

Inductive EncounterTerminationReason := abandoned | expired.
Record EncounterTerminationStatement := mkTerminationStatement {
  ts_authorization : EncounterAuthorization;
  ts_version : Z;
  ts_authorityKey : jsstr;
  ts_ticketId : jsstr;
  ts_queueId : jsstr;
  ts_rulesId : jsstr;
  ts_root : option jsstr;
  ts_reason : EncounterTerminationReason;
  terminatedAt : Z;
  ts_retentionUntil : Z;
}.
Record EncounterTermination := mkTermination {
  termination_statement : EncounterTerminationStatement;
  terminationId : jsstr;
  termination_signature : jsstr;
}.

(** The grants of the client's payload queue. *)
Record AuditPayloadChunk := mkChunk {
  ch_sequence : Z;
  ch_checkpointDigest : jsstr;
  payload : list N;
}.
Record PayloadPruneGrant := mkPruneGrant {
  pg_queueId : jsstr;
  pg_expectedRevision : Z;
  throughSequence : Z;
  throughCheckpointDigest : jsstr;
  deliveryAcknowledged : bool;
  gameplayFinalized : bool;
  retentionClosed : bool;
  unresolvedReference : bool;
  pg_authorization : jsstr;
}.
Record PayloadScopeClosureGrant := mkClosureGrant {
  cg_queueId : jsstr;
  cg_expectedRevision : Z;
  cg_nextSequence : Z;
  closureId : jsstr;
  cg_authorization : jsstr;
}.

(** ** Shape checks *)

Definition identifier (value : jsstr) : bool := (0 <? slen value) && (slen value <=? 128).
Definition isDigestText (value : jsstr) : bool := is_hex 64 value.
Definition isTime (value : Z) : bool := isSafeInteger value && (0 <=? value).

Definition isObject (value : jsval) : bool := is_record value.
Definition exactKeys (value : jsval) (keys : list string) : bool :=
  match value with
  | JObj o => (length o =? length keys)%nat &&
              forallb (fun k => bool_decide (is_Some (assoc (js k) o))) keys
  | _ => false
  end.

(** [try { return await m } catch { return false }]. *)
Definition or_false (m : throws bool) : bool := match m with inr b => b | inl _ => false end.

(** ** Frames *)

Definition frame (domain : string) (values : list jsval) : jsstr :=
  stringify (JArr (JStr (js domain) :: values)).

Definition default_generation (g : option Z) : Z := default 0 g.

Definition startFrame (unit startHead : jsstr) (generation : Z) : jsstr :=
  if generation =? 0 then frame "encounter-start-v1" [JStr unit; JStr startHead]
  else frame "encounter-start-generation-v1" [JStr unit; JNum generation; JStr startHead].

Definition ticketFrame (t : EncounterTicket) : jsstr :=
  let a := t_authorization t in
  let legacy := frame "encounter-ticket-v1"
    [JNum (t_version t); JStr (ticketId t); JStr (unit a); JStr (startHead a);
     JStr (ea_playerId a); JStr (ea_ownerPublicKey a); JStr (authorityKey t); JStr (rulesId t);
     JStr (queueId t); JStr (seedCommitment t); JNum (issuedAt t); JNum (commitNotBefore t);
     JNum (releaseAt t)] in
  match generation a with
  | None => legacy
  | Some g => frame "encounter-ticket-generation-v1" [JNum g; JStr legacy]
  end.

Definition seedFrame (id secret : jsstr) : jsstr :=
  frame "encounter-seed-commitment-v1" [JStr id; JStr secret].

Definition logRootFrame (t : EncounterTicket) (digests : list jsstr) : jsstr :=
  let a := t_authorization t in
  frame "encounter-log-v1"
    [JStr (ticketId t); JStr (unit a); JStr (startHead a); JStr (ea_playerId a);
     JStr (ea_ownerPublicKey a); JStr (rulesId t); JStr (queueId t); JNum ENCOUNTER_TICKS;
     JArr (map JStr digests)].

Definition commitFrame (c : EncounterCommit) : jsstr :=
  frame "encounter-commit-v1" [JStr (c_ticketId c); JStr (c_root c); JArr (map JStr (chunkDigests c))].

Definition revealFrame (r : EncounterReveal) : jsstr :=
  frame "encounter-reveal-v1" [JStr (rv_ticketId r); JStr (rv_root r); JStr (rv_seed r);
    JNum (rv_committedAt r); JNum (releasedAt r)].

Definition itemTupleOf (i : EncounterItem) : jsval :=
  JArr [JStr (ei_assetId i); JStr (ei_ownerId i); JStr (ei_itemType i);
        JStr (rarity_string (ei_rarity i)); JNum (ei_power i); JStr (ei_sourceEnemyId i);
        JNum (ei_killTick i); JNum (ei_dropIndex i)].
Definition receiptFrame (s : EncounterReceiptStatement) : jsstr :=
  frame "encounter-receipt-v1"
    [JNum (rs_version s); JStr (rs_authorityKey s); JStr (rs_ticketId s); JStr (rs_unit s);
     JStr (rs_rulesId s); JStr (rs_playerId s); JStr (rs_ownerPublicKey s); JStr (rs_root s);
     JStr (finalStateDigest s); JArr (map itemTupleOf (items s)); JNum (settledAt s);
     JNum (rs_retentionUntil s)].

Definition listingFrame (l : EncounterListing) : jsstr :=
  frame "encounter-market-admission-v1"
    [JStr (el_ticketId l); JStr (el_receiptId l); JStr (el_assetId l)].

Definition pruneFrame (g : PayloadPruneGrant) : jsstr :=
  frame "encounter-prune-v1"
    [JStr (pg_queueId g); JNum (pg_expectedRevision g); JNum (throughSequence g);
     JStr (throughCheckpointDigest g); JBool (deliveryAcknowledged g);
     JBool (gameplayFinalized g); JBool (retentionClosed g); JBool (unresolvedReference g)].

Definition termination_reason (r : EncounterTerminationReason) : jsstr :=
  match r with abandoned => js "abandoned" | expired => js "expired" end.
Definition optional_string (s : option jsstr) : jsval :=
  match s with Some s => JStr s | None => JNull end.
Definition terminationFrame (s : EncounterTerminationStatement) : jsstr :=
  let a := ts_authorization s in
  frame "encounter-termination-v1"
    [JNum (ts_version s); JStr (ts_authorityKey s); JStr (ts_ticketId s); JStr (unit a);
     JStr (startHead a); JStr (ea_playerId a); JStr (ea_ownerPublicKey a); JStr (ts_queueId s);
     JStr (ts_rulesId s); optional_string (ts_root s); JStr (termination_reason (ts_reason s));
     JNum (terminatedAt s); JNum (ts_retentionUntil s)].

Definition scopeClosureFrame (g : PayloadScopeClosureGrant) : jsstr :=
  frame "encounter-terminal-closure-v1"
    [JStr (cg_queueId g); JNum (cg_expectedRevision g); JNum (cg_nextSequence g);
     JStr (closureId g)].

(** ** Archive and generation statements *)

Definition MAX_ARCHIVE_BUNDLE_BYTES : Z := 11000.

Record ArchiveCustodyStatement := mkCustodyStatement {
  cs_version : Z;
  archiveKey : jsstr;
  cs_authorityKey : jsstr;
  cs_ticketId : jsstr;
  cs_unit : jsstr;
  cs_queueId : jsstr;
  cs_root : jsstr;
  cs_receiptId : jsstr;
  cs_chunkDigests : list jsstr;
  bundleDigest : jsstr;
  storedBytes : Z;
  storedAt : Z;
  minRetainUntil : Z;
  policy : jsstr;
}.
Record ArchiveCustody := mkCustody {
  custody_statement : ArchiveCustodyStatement;
  custodyId : jsstr;
  custody_signature : jsstr;
}.
Record ArchiveReleaseStatement := mkReleaseStatement {
  ars_version : Z;
  ars_authorityKey : jsstr;
  ars_ticketId : jsstr;
  ars_queueId : jsstr;
  ars_root : jsstr;
  ars_custodyId : jsstr;
  closedAt : Z;
}.
Record ArchiveRelease := mkRelease {
  release_statement : ArchiveReleaseStatement;
  releaseId : jsstr;
  release_signature : jsstr;
}.

Definition archiveCustodyFrame (s : ArchiveCustodyStatement) : jsstr :=
  frame "encounter-archive-custody-v1"
    [JNum (cs_version s); JStr (archiveKey s); JStr (cs_authorityKey s); JStr (cs_ticketId s);
     JStr (cs_unit s); JStr (cs_queueId s); JStr (cs_root s); JStr (cs_receiptId s);
     JArr (map JStr (cs_chunkDigests s)); JStr (bundleDigest s); JNum (storedBytes s);
     JNum (storedAt s); JNum (minRetainUntil s); JStr (policy s)].
Definition archiveReleaseFrame (s : ArchiveReleaseStatement) : jsstr :=
  frame "encounter-archive-release-v1"
    [JNum (ars_version s); JStr (ars_authorityKey s); JStr (ars_ticketId s); JStr (ars_queueId s);
     JStr (ars_root s); JStr (ars_custodyId s); JNum (closedAt s)].
Definition archiveHandoffFrame (g : PayloadScopeClosureGrant) : jsstr :=
  frame "encounter-archive-handoff-v1"
    [JStr (cg_queueId g); JNum (cg_expectedRevision g); JNum (cg_nextSequence g);
     JStr (closureId g)].

Record GenerationSealStatement := mkSealStatement {
  gs_version : Z;
  gs_authorityKey : jsstr;
  gs_unit : jsstr;
  gs_generation : Z;
  nextGeneration : Z;
  previousSealId : option jsstr;
  originsDigest : jsstr;
  ticketCount : Z;
  receiptCount : Z;
  gs_closedAt : Z;
}.
Definition generationSealFrame (s : GenerationSealStatement) : jsstr :=
  frame "encounter-generation-seal-v1"
    [JNum (gs_version s); JStr (gs_authorityKey s); JStr (gs_unit s); JNum (gs_generation s);
     JNum (nextGeneration s); optional_string (previousSealId s); JStr (originsDigest s);
     JNum (ticketCount s); JNum (receiptCount s); JNum (gs_closedAt s)].

(** ** Tickets *)

Section Wire.
Context `{JsHost} (cryptoBackend : AuditCryptoBackend).

(** [await hashString(text)] and [await verify(key, await hashString(text), signature)]. *)
Definition hash (text : jsstr) : throws jsstr := cb_hashString cryptoBackend text.
Definition verify_text (key text signature : jsstr) : throws bool :=
  let! digest := hash text in cb_verify cryptoBackend key digest signature.

Definition encounterStartKey (unit startHead : jsstr) (generation : Z) : throws jsstr :=
  throw_if (negb (isTime generation)) (js "invalid encounter generation") $
  hash (startFrame unit startHead generation).

Definition encounterQueueId (unit startHead : jsstr) (generation : Z) : throws jsstr :=
  let! key := encounterStartKey unit startHead generation in
  inr (js "encounter-start:" ++ key).

Definition ticketShapeRefused (ticket : EncounterTicket) (trustedKey : jsstr) : bool :=
  let a := t_authorization ticket in
  negb (t_version ticket =? 1) || negb (str_eqb (rulesId ticket) ENCOUNTER_RULES) ||
  negb (str_eqb (authorityKey ticket) trustedKey) || negb (isDigestText trustedKey) ||
  negb (isDigestText (ea_ownerPublicKey a)) || negb (isDigestText (seedCommitment ticket)) ||
  negb (isTime (default_generation (generation a))) ||
  negb (forallb identifier [ticketId ticket; unit a; startHead a; ea_playerId a; queueId ticket]) ||
  negb (forallb isTime [issuedAt ticket; commitNotBefore ticket; releaseAt ticket]) ||
  negb (commitNotBefore ticket =? issuedAt ticket + ENCOUNTER_TICKS * 50) ||
  negb (releaseAt ticket =? commitNotBefore ticket + 1000).

Definition verifyEncounterTicket (ticket : EncounterTicket) (trustedKey : jsstr) : bool :=
  let a := t_authorization ticket in
  or_false (
    if ticketShapeRefused ticket trustedKey then inr false
    else
      let! queue := encounterQueueId (unit a) (startHead a) (default_generation (generation a)) in
      if negb (str_eqb (queueId ticket) queue) then inr false
      else verify_text trustedKey (ticketFrame ticket) (ticketSignature ticket)).

(** ** The input log *)

Definition is_axis_value (z : Z) : bool := (z =? -1) || (z =? 0) || (z =? 1).

Definition inputTuple (input : InputFrame) (tick : Z) : throws jsval :=
  throw_if (negb (input_tick input =? tick) || negb (is_axis_value (horizontal input)) ||
            negb (is_axis_value (vertical input))) (js "invalid input log") $
  inr (JArr [JNum (input_tick input); JNum (horizontal input); JNum (vertical input)]).

(** [inputs.map((input, index) => inputTuple(input, first + index))]. *)
Fixpoint inputTuples (inputs : list InputFrame) (first : Z) : throws (list jsval) :=
  match inputs with
  | [] => inr []
  | input :: inputs' =>
      let! tuple := inputTuple input first in
      let! tuples := inputTuples inputs' (first + 1) in
      inr (tuple :: tuples)
  end.

Definition chunkText (ticket : EncounterTicket) (sequence : Z) (tuples : list jsval) : jsstr :=
  frame "encounter-input-v1" [JStr (ticketId ticket); JNum sequence; JArr tuples].

Definition encodeEncounterChunk (ticket : EncounterTicket) (sequence : Z)
    (inputs : list InputFrame) : throws AuditPayloadChunk :=
  throw_if ((sequence <? 0) || (ENCOUNTER_TICKS / CHUNK_TICKS <=? sequence) ||
            negb (Z.of_nat (length inputs) =? CHUNK_TICKS)) (js "invalid input log length") $
  let! tuples := inputTuples inputs (sequence * CHUNK_TICKS + 1) in
  let text := chunkText ticket sequence tuples in
  let bytes := utf8_encode text in
  throw_if (MAX_CHUNK_BYTES <? Z.of_nat (length bytes)) (js "input log exceeds bound") $
  let! digest := hash text in
  inr (mkChunk sequence digest bytes).

(** Both chunks are started together; the first to reject wins. *)
Definition createEncounterChunks (ticket : EncounterTicket) (inputs : list InputFrame)
    : throws (list AuditPayloadChunk) :=
  throw_if (negb (Z.of_nat (length inputs) =? ENCOUNTER_TICKS)) (js "invalid input log length") $
  let! first := encodeEncounterChunk ticket 0 (take (Z.to_nat CHUNK_TICKS) inputs) in
  let! second := encodeEncounterChunk ticket 1 (drop (Z.to_nat CHUNK_TICKS) inputs) in
  inr [first; second].

Definition signEncounterCommit (ticket : EncounterTicket) (chunks : list AuditPayloadChunk)
    (signer : AsyncAuditSigner) : throws EncounterCommit :=
  let digests := map ch_checkpointDigest chunks in
  let! root := hash (logRootFrame ticket digests) in
  let unsigned := mkCommit (ticketId ticket) root digests [] in
  let! digest := hash (commitFrame unsigned) in
  let! signature := as_signDigest signer digest in
  inr (mkCommit (ticketId ticket) root digests signature).

(** The tuples of a parsed frame, each checked by [inputTuple]. *)
Fixpoint readTuples (tuples : list jsval) (first : Z) : option (list InputFrame) :=
  match tuples with
  | [] => Some []
  | JArr [JNum t; JNum h; JNum v] :: tuples' =>
      let input := mkInputFrame t h v in
      match inputTuple input first with
      | inl _ => None
      | inr _ => cons input <$> readTuples tuples' (first + 1)
      end
  | _ :: _ => None
  end.

(** The body of [try] for one chunk; [None] where it throws. *)
Definition decodeChunk (ticket : EncounterTicket) (sequence : Z) (chunk : AuditPayloadChunk)
    : option (list InputFrame) :=
  text ← utf8_decode (payload chunk);
  match json_parse text with
  | Some (JArr [domain; id; seq; JArr tuples]) =>
      if negb (match domain with JStr s => str_eqb s (js "encounter-input-v1") | _ => false end) ||
         negb (match id with JStr s => str_eqb s (ticketId ticket) | _ => false end) ||
         negb (is_num sequence seq) || negb (Z.of_nat (length tuples) =? CHUNK_TICKS)
      then None
      else
        inputs ← readTuples tuples (sequence * CHUNK_TICKS + 1);
        match encodeEncounterChunk ticket sequence inputs with
        | inl _ => None
        | inr canonical =>
            canonicalText ← utf8_decode (payload canonical);
            if negb (str_eqb canonicalText text) ||
               negb (str_eqb (ch_checkpointDigest canonical) (ch_checkpointDigest chunk))
            then None else Some inputs
        end
  | _ => None
  end.

Definition chunkRefused (commitment : EncounterCommit) (sequence : Z) (chunk : AuditPayloadChunk)
    : bool :=
  negb (ch_sequence chunk =? sequence) || (length (payload chunk) =? 0)%nat ||
  (MAX_CHUNK_BYTES <? Z.of_nat (length (payload chunk))) ||
  negb (bool_decide (chunkDigests commitment !! Z.to_nat sequence
                     = Some (ch_checkpointDigest chunk))).

Fixpoint decodeChunks (ticket : EncounterTicket) (commitment : EncounterCommit)
    (chunks : list AuditPayloadChunk) (sequence : Z) : throws (list InputFrame) :=
  match chunks with
  | [] => inr []
  | chunk :: chunks' =>
      throw_if (chunkRefused commitment sequence chunk) (js "invalid input log chunk") $
      match decodeChunk ticket sequence chunk with
      | None => inl (js "invalid input log")
      | Some inputs =>
          let! rest := decodeChunks ticket commitment chunks' (sequence + 1) in
          inr (inputs ++ rest)
      end
  end.

Definition decodeEncounterLog (ticket : EncounterTicket) (commitment : EncounterCommit)
    (chunks : list AuditPayloadChunk) : throws (list InputFrame) :=
  throw_if (negb (Z.of_nat (length chunks) =? ENCOUNTER_TICKS / CHUNK_TICKS))
    (js "incomplete input log") $
  decodeChunks ticket commitment chunks 0.

(** ** Certificates *)

Definition revealRefused (ticket : EncounterTicket) (commitment : EncounterCommit)
    (reveal : EncounterReveal) : bool :=
  negb (str_eqb (rv_ticketId reveal) (ticketId ticket)) ||
  negb (str_eqb (c_ticketId commitment) (ticketId ticket)) ||
  negb (str_eqb (rv_root reveal) (c_root commitment)) || negb (isDigestText (rv_seed reveal)) ||
  negb (isTime (rv_committedAt reveal)) || negb (isTime (releasedAt reveal)) ||
  (rv_committedAt reveal <? commitNotBefore ticket) ||
  (releaseAt ticket <=? rv_committedAt reveal) || (releasedAt reveal <? releaseAt ticket).

Definition verifyEncounterReveal (ticket : EncounterTicket) (commitment : EncounterCommit)
    (reveal : EncounterReveal) : throws bool :=
  if revealRefused ticket commitment reveal then inr false
  else
    let! commitmentDigest := hash (seedFrame (ticketId ticket) (rv_seed reveal)) in
    if negb (str_eqb commitmentDigest (seedCommitment ticket)) then inr false
    else verify_text (authorityKey ticket) (revealFrame reveal) (rv_signature reveal).

Definition verifyEncounterReceipt (receipt : EncounterReceipt) (trustedKey : jsstr) : bool :=
  let s := receipt_statement receipt in
  or_false (
    if negb (rs_version s =? 1) || negb (str_eqb (rs_authorityKey s) trustedKey) ||
       negb (isDigestText trustedKey) || negb (str_eqb (rs_rulesId s) ENCOUNTER_RULES) ||
       negb (isDigestText (rs_root s)) || negb (isDigestText (finalStateDigest s)) ||
       negb (isDigestText (rs_ownerPublicKey s)) || negb (isTime (settledAt s)) ||
       negb (isTime (rs_retentionUntil s)) || (rs_retentionUntil s <? settledAt s) ||
       (1 <? length (items s))%nat
    then inr false
    else
      let! id := hash (receiptFrame s) in
      if negb (str_eqb (receiptId receipt) id) then inr false
      else cb_verify cryptoBackend trustedKey id (receipt_signature receipt)).

Definition signEncounterListing (receipt : EncounterReceipt) (assetId : jsstr)
    (owner : AsyncAuditSigner) : throws EncounterListing :=
  let unsigned := mkListing (rs_ticketId (receipt_statement receipt)) (receiptId receipt) assetId [] in
  let! digest := hash (listingFrame unsigned) in
  let! signature := as_signDigest owner digest in
  inr (mkListing (el_ticketId unsigned) (el_receiptId unsigned) assetId signature).

Definition verifyEncounterPruneGrant (grant : PayloadPruneGrant) (trustedKey : jsstr)
    : throws bool :=
  if negb (isDigestText trustedKey) || negb (deliveryAcknowledged grant) ||
     negb (gameplayFinalized grant) || negb (retentionClosed grant) || unresolvedReference grant
  then inr false
  else verify_text trustedKey (pruneFrame grant) (pg_authorization grant).

Definition terminationRefused (ticket : EncounterTicket) (s : EncounterTerminationStatement)
    (trustedKey : jsstr) : bool :=
  let a := t_authorization ticket in
  let b := ts_authorization s in
  negb (ts_version s =? 1) || negb (str_eqb (ts_authorityKey s) trustedKey) ||
  negb (isTime (terminatedAt s)) || negb (isTime (ts_retentionUntil s)) ||
  (terminatedAt s <? issuedAt ticket) || (ts_retentionUntil s <? terminatedAt s) ||
  (match ts_root s with Some root => negb (isDigestText root) | None => false end) ||
  (match ts_reason s with
   | expired => bool_decide (is_Some (ts_root s)) || (terminatedAt s <? releaseAt ticket)
   | abandoned => false
   end) ||
  negb (str_eqb (ts_ticketId s) (ticketId ticket)) || negb (str_eqb (unit b) (unit a)) ||
  negb (str_eqb (startHead b) (startHead a)) || negb (str_eqb (ea_playerId b) (ea_playerId a)) ||
  negb (str_eqb (ea_ownerPublicKey b) (ea_ownerPublicKey a)) ||
  negb (str_eqb (ts_queueId s) (queueId ticket)) || negb (str_eqb (ts_rulesId s) (rulesId ticket)).

Definition verifyEncounterTermination (ticket : EncounterTicket)
    (termination : EncounterTermination) (trustedKey : jsstr) : bool :=
  let s := termination_statement termination in
  or_false (
    if negb (verifyEncounterTicket ticket trustedKey) || terminationRefused ticket s trustedKey
    then inr false
    else
      let! id := hash (terminationFrame s) in
      if negb (str_eqb (terminationId termination) id) then inr false
      else cb_verify cryptoBackend trustedKey id (termination_signature termination)).

Definition verifyEncounterClosureGrant (grant : PayloadScopeClosureGrant) (trustedKey : jsstr)
    : throws bool :=
  if negb (isDigestText trustedKey) || negb (isDigestText (closureId grant)) ||
     negb (isTime (cg_expectedRevision grant)) || negb (isTime (cg_nextSequence grant))
  then inr false
  else verify_text trustedKey (scopeClosureFrame grant) (cg_authorization grant).

Definition verifyArchiveHandoff (grant : PayloadScopeClosureGrant) (authorityKey : jsstr)
    : throws bool :=
  if isDigestText (closureId grant) && isTime (cg_expectedRevision grant) &&
     (cg_nextSequence grant =? 2)
  then verify_text authorityKey (archiveHandoffFrame grant) (cg_authorization grant)
  else inr false.

(** The object [JSON.stringify] prints for a custody certificate. *)
Definition custody_value (c : ArchiveCustody) : jsval :=
  let s := custody_statement c in
  JObj [(js "statement",
         JObj [(js "version", JNum (cs_version s)); (js "archiveKey", JStr (archiveKey s));
               (js "authorityKey", JStr (cs_authorityKey s)); (js "ticketId", JStr (cs_ticketId s));
               (js "unit", JStr (cs_unit s)); (js "queueId", JStr (cs_queueId s));
               (js "root", JStr (cs_root s)); (js "receiptId", JStr (cs_receiptId s));
               (js "chunkDigests", JArr (map JStr (cs_chunkDigests s)));
               (js "bundleDigest", JStr (bundleDigest s)); (js "storedBytes", JNum (storedBytes s));
               (js "storedAt", JNum (storedAt s)); (js "minRetainUntil", JNum (minRetainUntil s));
               (js "policy", JStr (policy s))]);
        (js "custodyId", JStr (custodyId c)); (js "signature", JStr (custody_signature c))].
Definition byteLength (text : jsstr) : Z := Z.of_nat (length (utf8_encode text)).

Definition verifyArchiveCustody (c : ArchiveCustody) (trustedKey : jsstr) : bool :=
  let s := custody_statement c in
  or_false (
    if negb (cs_version s =? 1) || negb (str_eqb (archiveKey s) trustedKey) ||
       negb (forallb isDigestText
               [trustedKey; cs_authorityKey s; cs_root s; cs_receiptId s; bundleDigest s]) ||
       negb (forallb identifier [cs_ticketId s; cs_unit s; cs_queueId s]) ||
       negb (str_eqb (policy s) (js "authority-release-v1")) ||
       negb (forallb isTime [storedBytes s; storedAt s; minRetainUntil s]) ||
       (storedBytes s <? 1) || (MAX_ARCHIVE_BUNDLE_BYTES <? storedBytes s) ||
       negb (length (cs_chunkDigests s) =? 2)%nat ||
       negb (forallb isDigestText (cs_chunkDigests s)) ||
       (3000 <? byteLength (stringify (custody_value c)))
    then inr false
    else
      let! id := hash (archiveCustodyFrame s) in
      if negb (str_eqb (custodyId c) id) then inr false
      else cb_verify cryptoBackend trustedKey id (custody_signature c)).
End Wire.

(** ** Preview *)

Record EncounterPreview := mkPreview {
  preview_tick : Z;
  preview_player : PlayerState;
  preview_enemies : list EnemyState;
  preview_telegraphs : list TelegraphState;
  preview_drops : list (Z * Z);
}.
Definition publicEncounterPreview (game : GameState) : EncounterPreview :=
  mkPreview (tick game) (player game) (enemies game) (telegraphs game)
    (map (fun d => (drop_x d, drop_y d)) (drops game)).
