(* ===== verification/EncounterWireFacts.v ===== *)
(** * Facts about the encounter wire format

    The input log round trips and is fixed by the committed root; the texts of
    different kinds of statement never coincide. *)
From S2P Require Import Prelude Json Contracts Kernel KernelFacts Journal JournalFacts Utf8.
From S2P Require Import OwnerAuth OwnerFacts CryptoBackend EncounterWire.
Set Default Goal Selector "!".

(** ** Inputs of a log *)

(** Frames at consecutive ticks with valid axes. *)
Fixpoint log_from (t : Z) (inputs : list InputFrame) : Prop :=
  match inputs with
  | [] => True
  | i :: inputs' =>
      input_tick i = t /\ is_axis_value (horizontal i) = true /\
      is_axis_value (vertical i) = true /\ log_from (t + 1) inputs'
  end.

Definition tuple_of_input (i : InputFrame) : jsval :=
  JArr [JNum (input_tick i); JNum (horizontal i); JNum (vertical i)].

Lemma inputTuple_Ok i t v :
  inputTuple i t = inr v <->
  input_tick i = t /\ is_axis_value (horizontal i) = true /\ is_axis_value (vertical i) = true /\
  v = tuple_of_input i.
Proof.
  unfold inputTuple, throw_if. split.
  - intros E. guards E. injection E as <-. bool_split. done.
  - intros (Ht & Hh & Hv & ->). by rewrite (proj2 (Z.eqb_eq _ _) Ht), Hh, Hv.
Qed.

Lemma inputTuples_Ok inputs t vs :
  inputTuples inputs t = inr vs <-> log_from t inputs /\ vs = map tuple_of_input inputs.
Proof.
  revert t vs. induction inputs as [|i inputs IH]; intros t vs; cbn [inputTuples log_from map].
  - naive_solver.
  - destruct (inputTuple i t) as [e|v] eqn:E; cbn [throw_bind].
    + split; [done|]. intros [(Ht & Hh & Hv & _) _].
      by rewrite (proj2 (inputTuple_Ok i t (tuple_of_input i))) in E.
    + apply inputTuple_Ok in E as (Ht & Hh & Hv & ->).
      destruct (inputTuples inputs (t + 1)) as [e|vs'] eqn:E'; cbn [throw_bind].
      * split; [done|]. intros [(_ & _ & _ & Hl) _].
        by rewrite (proj2 (IH (t + 1) _) (conj Hl eq_refl)) in E'.
      * apply IH in E' as [Hl ->]. naive_solver.
Qed.

Lemma readTuples_map inputs t :
  log_from t inputs -> readTuples (map tuple_of_input inputs) t = Some inputs.
Proof.
  revert t. induction inputs as [|i inputs IH]; intros t Hl; [done|].
  destruct Hl as (Ht & Hh & Hv & Hl). destruct i as [it h v].
  cbn [map readTuples tuple_of_input input_tick horizontal vertical] in *.
  rewrite (proj2 (inputTuple_Ok (mkInputFrame it h v) t (tuple_of_input (mkInputFrame it h v)))) by done.
  by rewrite IH.
Qed.

Lemma tuple_of_input_inj i i' : tuple_of_input i = tuple_of_input i' -> i = i'.
Proof. destruct i, i'. unfold tuple_of_input. simpl. by intros [= -> -> ->]. Qed.

Lemma readTuples_Ok vs t inputs :
  readTuples vs t = Some inputs -> log_from t inputs /\ vs = map tuple_of_input inputs.
Proof.
  revert t inputs. induction vs as [|v vs IH]; intros t inputs; cbn [readTuples].
  - intros [= <-]. done.
  - destruct v as [| | | | | |l|]; try done.
    destruct l as [|[] l]; try done. destruct l as [|[] l]; try done.
    destruct l as [|[] l]; try done. destruct l; try done.
    destruct (inputTuple _ t) as [e|w] eqn:E; [done|].
    destruct (readTuples vs (t + 1)) as [rest|] eqn:Er; [|done]. intros [= <-].
    apply inputTuple_Ok in E as (Ht & Hh & Hv & _). apply IH in Er as [Hl ->]. done.
Qed.

Lemma log_from_app t a b :
  log_from t (a ++ b) <-> log_from t a /\ log_from (t + Z.of_nat (length a)) b.
Proof.
  revert t. induction a as [|i a IH]; intros t; cbn [app log_from length].
  - replace (t + Z.of_nat 0) with t by lia. tauto.
  - rewrite IH. replace (t + 1 + Z.of_nat (length a)) with (t + Z.of_nat (S (length a))) by lia.
    tauto.
Qed.

(** ** Encoding one chunk *)

Section Log.
Context `{JsHost} (backend : AuditCryptoBackend).

Definition input_text (ticket : EncounterTicket) (sequence : Z) (inputs : list InputFrame) : jsstr :=
  chunkText ticket sequence (map tuple_of_input inputs).

Lemma encode_Ok ticket sequence inputs chunk :
  encodeEncounterChunk backend ticket sequence inputs = inr chunk <->
  0 <= sequence < 2 /\ length inputs = 30%nat /\ log_from (sequence * 30 + 1) inputs /\
  Z.of_nat (length (utf8_encode (input_text ticket sequence inputs))) <= MAX_CHUNK_BYTES /\
  ch_sequence chunk = sequence /\ payload chunk = utf8_encode (input_text ticket sequence inputs) /\
  hash backend (input_text ticket sequence inputs) = inr (ch_checkpointDigest chunk).
Proof.
  unfold encodeEncounterChunk, throw_if, CHUNK_TICKS, ENCOUNTER_TICKS. change (60 / 30) with 2. split.
  - intros E. guard_step E. bool_split.
    destruct (inputTuples _ _) as [|vs] eqn:Et; cbn [throw_bind] in E; [done|].
    apply inputTuples_Ok in Et as [Hl ->]. guard_step E. bool_split.
    destruct (hash backend _) as [|d] eqn:Eh; cbn [throw_bind] in E; [done|].
    injection E as <-. cbn [ch_sequence payload ch_checkpointDigest].
    split_and!; try done; try lia.
  - intros ([H1 H2] & Hlen & Hl & Hb & Hs & Hp & Hh).
    rewrite (proj2 (Z.ltb_ge _ _)), (proj2 (Z.leb_gt _ _)), Hlen by lia. cbn [orb negb Z.eqb Z.of_nat].
    rewrite (proj2 (inputTuples_Ok _ _ _) (conj Hl eq_refl)). cbn [throw_bind].
    fold (input_text ticket sequence inputs).
    rewrite (proj2 (Z.ltb_ge _ _)) by lia. rewrite Hh. cbn [throw_bind]. destruct chunk.
    simpl in *. by subst.
Qed.

(** Every number of a log is safe, so its frame parses back. *)
Lemma log_numbers t inputs :
  log_from t inputs -> 0 <= t -> t + Z.of_nat (length inputs) <= 1000 ->
  forallb safe_plain (map tuple_of_input inputs) = true.
Proof.
  assert (Hsafe : forall z, -1 <= z <= 1000 -> isSafeInteger z = true)
    by (intros; apply isSafeInteger_spec; unfold MAX_SAFE_INTEGER; lia).
  assert (Hax : forall z, is_axis_value z = true -> -1 <= z <= 1).
  { intros z Hz. unfold is_axis_value in Hz. rewrite !orb_true_iff, !Z.eqb_eq in Hz. lia. }
  revert t. induction inputs as [|i inputs IH]; intros t Hl H0 Hb; [done|].
  destruct Hl as (Ht & Hh & Hv & Hl). cbn [map forallb length] in *.
  apply Hax in Hh, Hv. rewrite (IH (t + 1)) by (done || lia). rewrite andb_true_r.
  unfold safe_plain, tuple_of_input. cbn [plain_with forallb]. rewrite !Hsafe by lia. done.
Qed.

Lemma forallb_text_ok inputs : forallb text_ok (map tuple_of_input inputs) = true.
Proof. by induction inputs. Qed.

Lemma input_text_parses ticket sequence inputs :
  0 <= sequence < 2 -> length inputs = 30%nat -> log_from (sequence * 30 + 1) inputs ->
  json_parse (input_text ticket sequence inputs)
  = Some (JArr [JStr (js "encounter-input-v1"); JStr (ticketId ticket); JNum sequence;
                JArr (map tuple_of_input inputs)]).
Proof.
  intros Hs Hlen Hl. apply json_parse_stringify.
  pose proof (log_numbers _ _ Hl ltac:(lia) ltac:(rewrite Hlen; lia)) as Hn.
  unfold safe_plain in *. cbn [plain_with forallb]. rewrite Hn.
  rewrite (proj2 (isSafeInteger_spec sequence)) by (unfold MAX_SAFE_INTEGER; lia). done.
Qed.

Lemma input_text_decodes ticket sequence inputs :
  unit_range (ticketId ticket) ->
  utf8_decode (utf8_encode (input_text ticket sequence inputs))
  = Some (input_text ticket sequence inputs).
Proof.
  intros Hu. assert (He : encodable (input_text ticket sequence inputs)).
  { apply stringify_encodable. cbn [text_ok forallb]. rewrite forallb_text_ok.
    replace (forallb (fun c => (c <? 65536)%N) (ticketId ticket)) with true; [done|].
    symmetry. apply forallb_forall. intros c Hc. unfold unit_range in Hu.
    rewrite Forall_forall in Hu. apply N.ltb_lt. by apply Hu, list_elem_of_In. }
  destruct He as [Hw Hr]. unfold input_text, chunkText, frame in *.
  remember (stringify _) as text eqn:E in *. cbn [stringify app] in E.
  change (js "[") with [91%N] in E. cbn [app] in E. subst text. by apply utf8_roundtrip.
Qed.

(** ** Decoding *)

Lemma decodeChunk_Ok ticket sequence chunk inputs :
  decodeChunk backend ticket sequence chunk = Some inputs ->
  log_from (sequence * 30 + 1) inputs /\ length inputs = 30%nat /\
  hash backend (input_text ticket sequence inputs) = inr (ch_checkpointDigest chunk).
Proof.
  unfold decodeChunk. destruct (utf8_decode (payload chunk)) as [text|]; cbn [mbind option_bind]; [|done].
  destruct (json_parse text) as [v|]; [|done].
  destruct v as [| | | | | |l|]; try done. destruct l as [|domain l]; try done.
  destruct l as [|id l]; try done. destruct l as [|seq l]; try done.
  destruct l as [|ts l]; try done. destruct ts as [| | | | | |tuples|]; try done.
  destruct l; [|done]. intros E. guard_step E.
  destruct (readTuples _ _) as [inputs'|]; cbn [mbind option_bind] in E; [|done].
  destruct (encodeEncounterChunk backend ticket sequence inputs') as [|canonical] eqn:Ee; [done|].
  destruct (utf8_decode (payload canonical)); cbn [mbind option_bind] in E; [|done].
  guard_step E. injection E as <-. bool_split.
  repeat match goal with K : str_eqb _ _ = true |- _ => apply str_eqb_eq in K end.
  apply encode_Ok in Ee as (_ & Hlen & Hl & _ & _ & _ & Hh). split_and!; try done. congruence.
Qed.

Lemma decodeChunk_encoded ticket sequence inputs chunk :
  unit_range (ticketId ticket) -> encodeEncounterChunk backend ticket sequence inputs = inr chunk ->
  decodeChunk backend ticket sequence chunk = Some inputs.
Proof.
  intros Hu E. pose proof E as E'. apply encode_Ok in E' as (Hs & Hlen & Hl & _ & _ & Hp & _).
  unfold decodeChunk. rewrite Hp, input_text_decodes by done. cbn [mbind option_bind].
  rewrite input_text_parses by done. unfold is_num, CHUNK_TICKS.
  rewrite !str_eqb_refl, Z.eqb_refl, length_map, Hlen. cbn [negb orb Z.eqb Z.of_nat].
  rewrite readTuples_map by done. cbn [mbind option_bind]. rewrite E, Hp, input_text_decodes by done.
  cbn [mbind option_bind]. by rewrite !str_eqb_refl.
Qed.

Lemma decodeLog_Ok ticket commitment chunks inputs :
  decodeEncounterLog backend ticket commitment chunks = inr inputs ->
  exists first second d0 d1, inputs = first ++ second /\
    log_from 1 first /\ length first = 30%nat /\ log_from 31 second /\ length second = 30%nat /\
    chunkDigests commitment !! 0%nat = Some d0 /\ chunkDigests commitment !! 1%nat = Some d1 /\
    hash backend (input_text ticket 0 first) = inr d0 /\
    hash backend (input_text ticket 1 second) = inr d1.
Proof.
  unfold decodeEncounterLog, throw_if. change (ENCOUNTER_TICKS / CHUNK_TICKS) with 2.
  intros E. guard_step E. bool_split. destruct chunks as [|c0 [|c1 [|]]]; simpl in Hg; try lia.
  cbn [decodeChunks throw_if] in E. unfold throw_if in E. guard_step E.
  destruct (decodeChunk backend ticket 0 c0) as [first|] eqn:E0; [|done].
  change (0 + 1) with 1 in E.
  destruct (chunkRefused commitment 1 c1) eqn:Hg1; [done|].
  destruct (decodeChunk backend ticket 1 c1) as [second|] eqn:E1; [|done].
  cbn [throw_bind] in E. injection E as <-. rewrite app_nil_r.
  unfold chunkRefused in *. bool_split.
  apply decodeChunk_Ok in E0 as (L0 & N0 & D0), E1 as (L1 & N1 & D1).
  exists first, second, (ch_checkpointDigest c0), (ch_checkpointDigest c1). by split_and!.
Qed.
End Log.

Lemma log_survives `{JsHost} backend ticket inputs chunks signer commitment :
  unit_range (ticketId ticket) ->
  createEncounterChunks backend ticket inputs = inr chunks ->
  signEncounterCommit backend ticket chunks signer = inr commitment ->
  decodeEncounterLog backend ticket commitment chunks = inr inputs.
Proof.
  intros Hu Hc Hs. unfold createEncounterChunks, throw_if in Hc. guard_step Hc. bool_split.
  destruct (encodeEncounterChunk backend ticket 0 _) as [|c0] eqn:E0; cbn [throw_bind] in Hc; [done|].
  destruct (encodeEncounterChunk backend ticket 1 _) as [|c1] eqn:E1; cbn [throw_bind] in Hc; [done|].
  injection Hc as <-. unfold signEncounterCommit in Hs.
  destruct (hash backend (logRootFrame _ _)); cbn [throw_bind] in Hs; [done|].
  destruct (hash backend (commitFrame _)); cbn [throw_bind] in Hs; [done|].
  destruct (as_signDigest _ _); cbn [throw_bind] in Hs; [done|]. injection Hs as <-.
  assert (Href : forall seq c ins, encodeEncounterChunk backend ticket seq ins = inr c ->
    [ch_checkpointDigest c0; ch_checkpointDigest c1] !! Z.to_nat seq = Some (ch_checkpointDigest c) ->
    forall root sig, chunkRefused (mkCommit (ticketId ticket) root
      [ch_checkpointDigest c0; ch_checkpointDigest c1] sig) seq c = false).
  { intros seq c ins E Hd root sig. apply encode_Ok in E as (Hseq & _ & _ & Hb & Hcs & Hp & _).
    unfold chunkRefused. cbn [chunkDigests]. rewrite Hcs, Z.eqb_refl, Hd, Hp.
    rewrite (proj2 (Z.ltb_ge _ _)) by lia. rewrite bool_decide_eq_true_2 by done.
    pose proof (input_text_decodes ticket seq ins Hu) as Hdec.
    destruct (utf8_encode (input_text ticket seq ins)) as [|b bs]; [|done].
    change (Some [] = Some (input_text ticket seq ins)) in Hdec. discriminate Hdec. }
  unfold decodeEncounterLog, throw_if. cbn [map]. change (ENCOUNTER_TICKS / CHUNK_TICKS) with 2.
  cbn [length Z.of_nat Z.eqb negb]. cbn [decodeChunks]. unfold throw_if.
  rewrite (Href 0 c0 _ E0 eq_refl), (decodeChunk_encoded backend _ _ _ _ Hu E0).
  change (0 + 1) with 1. rewrite (Href 1 c1 _ E1 eq_refl), (decodeChunk_encoded backend _ _ _ _ Hu E1).
  cbn [throw_bind]. rewrite app_nil_r, take_drop. done.
Qed.

(** C33: a recorded log survives the trip: the chunks a client creates and
    commits to decode, at the authority, to exactly the inputs recorded. *)
Theorem encounter_log_roundtrip `{JsHost} backend ticket inputs chunks signer commitment :
  unit_range (ticketId ticket) ->
  createEncounterChunks backend ticket inputs = inr chunks ->
  signEncounterCommit backend ticket chunks signer = inr commitment ->
  decodeEncounterLog backend ticket commitment chunks = inr inputs.
Proof. exact (log_survives backend ticket inputs chunks signer commitment). Qed.

(** ** The committed root fixes the log *)

(** Two different texts, one from each list, with the same hash. *)
Definition backend_collision (backend : AuditCryptoBackend) (xs ys : list jsstr) : Prop :=
  exists a b d, a ∈ xs /\ b ∈ ys /\ a <> b /\ hash backend a = inr d /\ hash backend b = inr d.

Lemma same_or_collide backend a b d xs ys :
  hash backend a = inr d -> hash backend b = inr d -> a ∈ xs -> b ∈ ys ->
  a = b \/ backend_collision backend xs ys.
Proof. intros. destruct (decide (a = b)); [by left|]. right. by exists a, b, d. Qed.

Lemma map_plain l : forallb plain (map JStr l) = true.
Proof. by induction l. Qed.

Lemma logRootFrame_inj t t' ds ds' :
  logRootFrame t ds = logRootFrame t' ds' ->
  ticketId t = ticketId t' /\ unit (t_authorization t) = unit (t_authorization t') /\
  startHead (t_authorization t) = startHead (t_authorization t') /\
  ea_playerId (t_authorization t) = ea_playerId (t_authorization t') /\
  ea_ownerPublicKey (t_authorization t) = ea_ownerPublicKey (t_authorization t') /\
  queueId t = queueId t' /\ ds = ds'.
Proof.
  intros E. apply stringify_inj in E.
  - injection E as E1 E2 E3 E4 E5 E6 E7 E8. apply map_JStr_inj in E8. done.
  - unfold plain. cbn [plain_with forallb]. by rewrite map_plain.
  - unfold plain. cbn [plain_with forallb]. by rewrite map_plain.
Qed.

Lemma input_text_inj t t' s s' ins ins' :
  input_text t s ins = input_text t' s' ins' -> ticketId t = ticketId t' /\ ins = ins'.
Proof.
  assert (Hp : forall l, forallb plain (map tuple_of_input l) = true) by (intros l; by induction l).
  intros E. apply stringify_inj in E.
  - injection E as E1 E2 E3. split; [done|]. revert ins' E3.
    induction ins as [|i ins IH]; intros [|i' ins'] E3; try done.
    injection E3 as E4 E5 E6 E7. f_equal; [by destruct i, i'; simpl in *; subst|by apply IH].
  - unfold plain in *. cbn [plain_with forallb]. by rewrite Hp.
  - unfold plain in *. cbn [plain_with forallb]. by rewrite Hp.
Qed.

(** The texts hashed to check a log. *)
Definition log_texts (t : EncounterTicket) (c : EncounterCommit) (inputs : list InputFrame)
    : list jsstr :=
  [logRootFrame t (chunkDigests c); input_text t 0 (take 30 inputs);
   input_text t 1 (drop 30 inputs)].

(** A committed root fixes the whole log before the seed is revealed: two
    logs that are accepted against commitments with the same root are for the
    same ticket and are the same sixty inputs, unless two different texts that
    were hashed have the same hash. *)
Theorem committed_root_fixes_the_log `{JsHost} backend t t' c c' chunks chunks' inputs inputs' root :
  decodeEncounterLog backend t c chunks = inr inputs ->
  decodeEncounterLog backend t' c' chunks' = inr inputs' ->
  hash backend (logRootFrame t (chunkDigests c)) = inr root ->
  hash backend (logRootFrame t' (chunkDigests c')) = inr root ->
  (ticketId t = ticketId t' /\ inputs = inputs') \/
  backend_collision backend (log_texts t c inputs) (log_texts t' c' inputs').
Proof.
  intros Hd Hd' Hr Hr'.
  apply decodeLog_Ok in Hd as (a0 & a1 & d0 & d1 & -> & _ & N0 & _ & N1 & K0 & K1 & T0 & T1).
  apply decodeLog_Ok in Hd' as (b0 & b1 & e0 & e1 & -> & _ & M0 & _ & M1 & J0 & J1 & S0 & S1).
  unfold log_texts. rewrite <- N0 at 1 2. rewrite <- M0 at 1 2.
  rewrite !take_app_length, !drop_app_length.
  set (xs := [logRootFrame t (chunkDigests c); input_text t 0 a0; input_text t 1 a1]).
  set (ys := [logRootFrame t' (chunkDigests c'); input_text t' 0 b0; input_text t' 1 b1]).
  destruct (same_or_collide backend _ _ _ xs ys Hr Hr') as [E|]; [by left|by left| |by right].
  apply logRootFrame_inj in E as (Eid & _ & _ & _ & _ & _ & Ed). rewrite <- Ed in J0, J1.
  assert (d0 = e0) as <- by congruence. assert (d1 = e1) as <- by congruence.
  destruct (same_or_collide backend _ _ _ xs ys T0 S0) as [E0|];
    [by right; left|by right; left| |by right].
  destruct (same_or_collide backend _ _ _ xs ys T1 S1) as [E1|];
    [by right; right; left|by right; right; left| |by right].
  apply input_text_inj in E0 as [_ ->], E1 as [_ ->]. by left.
Qed.

(** ** Domain separation *)

Inductive framed :=
| f_start (u h : jsstr) (g : Z) | f_ticket (t : EncounterTicket) | f_seed (id secret : jsstr)
| f_input (t : EncounterTicket) (s : Z) (ins : list InputFrame)
| f_root (t : EncounterTicket) (ds : list jsstr) | f_commit (c : EncounterCommit)
| f_reveal (r : EncounterReveal) | f_receipt (s : EncounterReceiptStatement)
| f_listing (l : EncounterListing) | f_prune (g : PayloadPruneGrant)
| f_termination (s : EncounterTerminationStatement) | f_closure (g : PayloadScopeClosureGrant)
| f_custody (s : ArchiveCustodyStatement) | f_release (s : ArchiveReleaseStatement)
| f_handoff (g : PayloadScopeClosureGrant) | f_seal (s : GenerationSealStatement).

Definition framed_text (x : framed) : jsstr :=
  match x with
  | f_start u h g => startFrame u h g
  | f_ticket t => ticketFrame t
  | f_seed id s => seedFrame id s
  | f_input t s ins => input_text t s ins
  | f_root t ds => logRootFrame t ds
  | f_commit c => commitFrame c
  | f_reveal r => revealFrame r
  | f_receipt s => receiptFrame s
  | f_listing l => listingFrame l
  | f_prune g => pruneFrame g
  | f_termination s => terminationFrame s
  | f_closure g => scopeClosureFrame g
  | f_custody s => archiveCustodyFrame s
  | f_release s => archiveReleaseFrame s
  | f_handoff g => archiveHandoffFrame g
  | f_seal s => generationSealFrame s
  end.

Definition framed_kind (x : framed) : nat :=
  match x with
  | f_start _ _ _ => 0 | f_ticket _ => 1 | f_seed _ _ => 2 | f_input _ _ _ => 3 | f_root _ _ => 4
  | f_commit _ => 5 | f_reveal _ => 6 | f_receipt _ => 7 | f_listing _ => 8 | f_prune _ => 9
  | f_termination _ => 10 | f_closure _ => 11 | f_custody _ => 12 | f_release _ => 13
  | f_handoff _ => 14 | f_seal _ => 15
  end.

(** The domain string that opens the text. *)
Definition framed_domain (x : framed) : jsstr :=
  match x with
  | f_start _ _ g => if g =? 0 then js "encounter-start-v1" else js "encounter-start-generation-v1"
  | f_ticket t =>
      match generation (t_authorization t) with
      | None => js "encounter-ticket-v1"
      | Some _ => js "encounter-ticket-generation-v1"
      end
  | f_seed _ _ => js "encounter-seed-commitment-v1"
  | f_input _ _ _ => js "encounter-input-v1"
  | f_root _ _ => js "encounter-log-v1"
  | f_commit _ => js "encounter-commit-v1"
  | f_reveal _ => js "encounter-reveal-v1"
  | f_receipt _ => js "encounter-receipt-v1"
  | f_listing _ => js "encounter-market-admission-v1"
  | f_prune _ => js "encounter-prune-v1"
  | f_termination _ => js "encounter-termination-v1"
  | f_closure _ => js "encounter-terminal-closure-v1"
  | f_custody _ => js "encounter-archive-custody-v1"
  | f_release _ => js "encounter-archive-release-v1"
  | f_handoff _ => js "encounter-archive-handoff-v1"
  | f_seal _ => js "encounter-generation-seal-v1"
  end.

Definition kind_domains : list (jsstr * nat) :=
  [(js "encounter-start-v1", 0); (js "encounter-start-generation-v1", 0);
   (js "encounter-ticket-v1", 1); (js "encounter-ticket-generation-v1", 1);
   (js "encounter-seed-commitment-v1", 2); (js "encounter-input-v1", 3);
   (js "encounter-log-v1", 4); (js "encounter-commit-v1", 5); (js "encounter-reveal-v1", 6);
   (js "encounter-receipt-v1", 7); (js "encounter-market-admission-v1", 8);
   (js "encounter-prune-v1", 9); (js "encounter-termination-v1", 10);
   (js "encounter-terminal-closure-v1", 11); (js "encounter-archive-custody-v1", 12);
   (js "encounter-archive-release-v1", 13); (js "encounter-archive-handoff-v1", 14);
   (js "encounter-generation-seal-v1", 15)]%nat.

(** The domain strings are pairwise different, so each tells its kind. *)
Lemma domain_tells_kind x : assoc (framed_domain x) kind_domains = Some (framed_kind x).
Proof.
  destruct x; cbn [framed_domain framed_kind]; repeat case_match; vm_compute; reflexivity.
Qed.

Lemma map_tuple_plain ins : forallb plain (map tuple_of_input ins) = true.
Proof. by induction ins. Qed.
Lemma map_item_plain l : forallb plain (map itemTupleOf l) = true.
Proof. by induction l. Qed.

Lemma framed_opens x : exists rest,
  framed_text x = stringify (JArr (JStr (framed_domain x) :: rest)) /\ forallb plain rest = true.
Proof.
  pose proof map_plain as Hm. pose proof map_tuple_plain as Ht. pose proof map_item_plain as Hi.
  destruct x; cbn [framed_text framed_domain];
    unfold startFrame, ticketFrame, terminationFrame, generationSealFrame; repeat case_match;
    (eexists; split; [reflexivity|]);
    cbn [forallb]; unfold plain, optional_string in *; repeat case_match;
    cbn [plain_with forallb andb]; rewrite ?Hm, ?Ht, ?Hi; reflexivity.
Qed.

(** The texts that are hashed and signed in an encounter never mean two
    things: the text of one kind of statement (ticket, seed commitment, input
    chunk, log root, commit, reveal, receipt, listing, prune grant,
    termination, closure, custody, release, handoff, seal, start key) is never
    the text of another kind. *)
Theorem encounter_frames_separated x y : framed_text x = framed_text y -> framed_kind x = framed_kind y.
Proof.
  intros E. destruct (framed_opens x) as (r & Ex & Px), (framed_opens y) as (r' & Ey & Py).
  rewrite Ex, Ey in E. apply stringify_inj in E; [|exact Px|exact Py].
  assert (framed_domain x = framed_domain y) as Ed by congruence.
  pose proof (domain_tells_kind x) as Kx. pose proof (domain_tells_kind y) as Ky. congruence.
Qed.
Lemma encounter_frames_separated_witness :
  framed_kind (f_seed (js "t") (js "s")) = framed_kind (f_seed (js "t") (js "s")).
Proof. apply encounter_frames_separated. reflexivity. Defined.

(** ** Concrete instances *)

Definition toy_backend : AuditCryptoBackend :=
  mkBackend (mkDescriptor EXPERIMENTAL_MOONBIT_BACKEND_ID experimental) (fun s => inr (toy_digest s)) (fun key d s => inr (toy_verifier key d s)).
Definition toy_audit_signer (key : jsstr) : AsyncAuditSigner :=
  mkAuditSigner key (fun d => inr (signDigest (toy_signer key) d)).
Definition toy_run : list InputFrame :=
  map (fun i => mkInputFrame (Z.of_nat i + 1) (Z.of_nat (i mod 3) - 1) 0) (seq 0 60).
Definition toy_ticket : EncounterTicket :=
  let a := mkAuthorization None (js "unit") (js "head") (js "alice") (toy_key "alice") in
  mkTicket a 1 (js "ticket-1") (toy_key "authority") ENCOUNTER_RULES (js "queue")
    (toy_digest (seedFrame (js "ticket-1") (toy_key "seed"))) 0 3000 4000 [].

Definition or_nil {A} (m : throws (list A)) : list A := match m with inr l => l | inl _ => [] end.
Definition or_commit (m : throws EncounterCommit) : EncounterCommit :=
  match m with inr c => c | inl _ => mkCommit [] [] [] [] end.
Definition toy_chunks := or_nil (createEncounterChunks toy_backend toy_ticket toy_run).
Definition toy_commit :=
  or_commit (signEncounterCommit toy_backend toy_ticket toy_chunks
               (toy_audit_signer (toy_key "alice"))).

Lemma encounter_log_roundtrip_witness :
  decodeEncounterLog (H := code_unit_host) toy_backend toy_ticket toy_commit toy_chunks
  = inr toy_run.
Proof.
  apply (encounter_log_roundtrip (H := code_unit_host) toy_backend toy_ticket toy_run toy_chunks
           (toy_audit_signer (toy_key "alice"))).
  - repeat constructor.
  - vm_compute. reflexivity.
  - vm_compute. reflexivity.
Defined.

Lemma committed_root_fixes_the_log_witness :
  decodeEncounterLog (H := code_unit_host) toy_backend toy_ticket toy_commit toy_chunks
    = inr toy_run /\
  ((ticketId toy_ticket = ticketId toy_ticket /\ toy_run = toy_run) \/
   backend_collision toy_backend (log_texts toy_ticket toy_commit toy_run)
     (log_texts toy_ticket toy_commit toy_run)).
Proof.
  assert (Hd : decodeEncounterLog (H := code_unit_host) toy_backend toy_ticket toy_commit toy_chunks
               = inr toy_run) by (vm_compute; reflexivity).
  split; [exact Hd|].
  exact (committed_root_fixes_the_log (H := code_unit_host) toy_backend _ _ _ _ _ _ _ _ _
           Hd Hd eq_refl eq_refl).
Defined.

(** The framing that [decodeEncounterLog] checks is that of the decoded text:
    a payload that starts with a byte order mark, which no client encodes,
    decodes to the same text and is accepted. *)
Definition with_bom (c : AuditPayloadChunk) : AuditPayloadChunk :=
  mkChunk (ch_sequence c) (ch_checkpointDigest c) ([239; 187; 191]%N ++ payload c).
Example bom_prefixed_log_accepted :
  decodeEncounterLog (H := code_unit_host) toy_backend toy_ticket toy_commit (map with_bom toy_chunks)
    = inr toy_run /\
  map with_bom toy_chunks <> toy_chunks.
Proof. split; [vm_compute; reflexivity|]. vm_compute. discriminate. Qed.
