(* ===== verification/EncounterHttp.v ===== *)
(** * Encounter requests over HTTP

    [game/encounter/http-wire.ts], [recovery.ts] and [validInventoryCompaction]
    of [inventory-checkpoint.ts]: the binary payload encoding, the shape checks
    of a request body, the signed positional frame of a command and the bounded
    body reader.

    A body is a value of unknown shape ([jsval]).  After the shape checks the
    code casts it to its type; [read_*] are those casts, and
    [EncounterHttpFacts] shows that they succeed on what the checks accept. *)
From S2P Require Import Prelude Json Contracts Kernel Journal Utf8 CryptoBackend EncounterWire.
Set Default Goal Selector "!".

Definition MAX_ENCOUNTER_HTTP_BYTES : Z := 16384.
Definition MAX_RECOVERY_PROOF_BYTES : Z := 4096.
Definition MAX_INVENTORY_BATCH : nat := 16.

(** ** Shape checks on unknown values *)

Definition on_string (p : jsstr -> bool) (v : jsval) : bool :=
  match v with JStr s => p s | _ => false end.
Definition signature (s : jsstr) : bool := is_hex 128 s.
Definition val_time (v : jsval) : bool :=
  match v with JNum z => isTime z | _ => false end.
Definition is_text (text : string) (v : jsval) : bool := on_string (str_eqb (js text)) v.
Definition is_null (v : jsval) : bool := match v with JNull => true | _ => false end.
Definition every_field (v : jsval) (p : jsval -> bool) (keys : list string) : bool :=
  forallb (fun k => p (field v k)) keys.

(** ** Payload encoding *)

(** [btoa] of the bytes with the URL alphabet and the padding removed. *)
Definition encodePayload (bytes : list N) : jsstr := bytesToBase64Url bytes.

Definition base64_value (c : N) : option N :=
  (if (65 <=? c) && (c <=? 90) then Some (c - 65)
   else if (97 <=? c) && (c <=? 122) then Some (c - 71)
   else if (48 <=? c) && (c <=? 57) then Some (c + 4)
   else if c =? 45 then Some 62 else if c =? 95 then Some 63 else None)%N.
(** [atob] of text without padding: the bits that do not fill a byte are
    dropped, and a single leftover digit is an error. *)
Fixpoint atob (text : jsstr) : option (list N) :=
  match text with
  | [] => Some []
  | [_] => None
  | [a; b] =>
      match base64_value a, base64_value b with
      | Some a, Some b => Some [(a * 4 + b / 16)%N]
      | _, _ => None
      end
  | [a; b; c] =>
      match base64_value a, base64_value b, base64_value c with
      | Some a, Some b, Some c => Some [(a * 4 + b / 16)%N; (b mod 16 * 16 + c / 4)%N]
      | _, _, _ => None
      end
  | a :: b :: c :: d :: r =>
      match base64_value a, base64_value b, base64_value c, base64_value d, atob r with
      | Some a, Some b, Some c, Some d, Some bytes =>
          Some ([a * 4 + b / 16; b mod 16 * 16 + c / 4; c mod 4 * 64 + d] ++ bytes)%N
      | _, _, _, _, _ => None
      end
  end.

(** [Math.ceil(MAX_CHUNK_BYTES * 4 / 3)]. *)
Definition MAX_PAYLOAD_TEXT : Z := (MAX_CHUNK_BYTES * 4 + 2) / 3.
Definition is_payload_text (text : jsstr) : bool :=
  negb (slen text =? 0) && forallb (fun c => bool_decide (is_Some (base64_value c))) text.
Definition decodePayload (text : jsstr) : throws (list N) :=
  throw_if (negb (is_payload_text text) || (MAX_PAYLOAD_TEXT <? slen text))
    (js "invalid payload encoding") $
  match atob text with
  | None => inl (js "InvalidCharacterError")
  | Some result =>
      throw_if ((Z.of_nat (length result) =? 0) || (MAX_CHUNK_BYTES <? Z.of_nat (length result)) ||
                negb (str_eqb (encodePayload result) text)) (js "noncanonical payload encoding") $
      inr result
  end.

Record WireChunk := mkWireChunk {
  wc_sequence : Z;
  wc_checkpointDigest : jsstr;
  wc_payload : jsstr;
}.
Definition payloadRefused (c : AuditPayloadChunk) : bool :=
  (Z.of_nat (length (payload c)) <? 1) || (MAX_CHUNK_BYTES <? Z.of_nat (length (payload c))).
Definition wireChunks (chunks : list AuditPayloadChunk) : throws (list WireChunk) :=
  throw_if (negb (length chunks =? 2)%nat || existsb payloadRefused chunks)
    (js "invalid chunk bounds") $
  inr (map (fun c => mkWireChunk (ch_sequence c) (ch_checkpointDigest c) (encodePayload (payload c)))
         chunks).
(** [{ ...x, payload: decodePayload(x.payload) }]. *)
Definition unwireChunk (x : WireChunk) : throws AuditPayloadChunk :=
  let! bytes := decodePayload (wc_payload x) in
  inr (mkChunk (wc_sequence x) (wc_checkpointDigest x) bytes).
Fixpoint unwireChunks (xs : list WireChunk) : throws (list AuditPayloadChunk) :=
  match xs with
  | [] => inr []
  | x :: xs' =>
      let! c := unwireChunk x in
      let! cs := unwireChunks xs' in
      inr (c :: cs)
  end.

(** ** Objects *)

(** The object [JSON.stringify] prints for a record, and the cast back. *)
Definition obj (fields : list (string * jsval)) : jsval :=
  JObj (map (fun kv => (js (fst kv), snd kv)) fields).
Definition strings_value (l : list jsstr) : jsval := JArr (map JStr l).
Definition get_str (v : jsval) (k : string) : option jsstr := as_string (field v k).
Definition get_num (v : jsval) (k : string) : option Z :=
  match field v k with JNum z => Some z | _ => None end.
Definition get_strs (v : jsval) (k : string) : option (list jsstr) :=
  l ← as_array (field v k); mapM as_string l.

Definition generation_fields (g : option Z) : list (string * jsval) :=
  match g with Some g => [("generation"%string, JNum g)] | None => [] end.
Definition authorization_fields (a : EncounterAuthorization) : list (string * jsval) :=
  [("unit"%string, JStr (unit a)); ("startHead"%string, JStr (startHead a));
   ("playerId"%string, JStr (ea_playerId a)); ("ownerPublicKey"%string, JStr (ea_ownerPublicKey a))] ++
  generation_fields (generation a).
Definition read_authorization (v : jsval) : option EncounterAuthorization :=
  u ← get_str v "unit"; h ← get_str v "startHead";
  p ← get_str v "playerId"; o ← get_str v "ownerPublicKey";
  Some (mkAuthorization (get_num v "generation") u h p o).

Definition ticket_value (t : EncounterTicket) : jsval :=
  obj (authorization_fields (t_authorization t) ++
    [("version", JNum (t_version t)); ("ticketId", JStr (ticketId t));
     ("authorityKey", JStr (authorityKey t)); ("rulesId", JStr (rulesId t));
     ("queueId", JStr (queueId t)); ("seedCommitment", JStr (seedCommitment t));
     ("issuedAt", JNum (issuedAt t)); ("commitNotBefore", JNum (commitNotBefore t));
     ("releaseAt", JNum (releaseAt t)); ("ticketSignature", JStr (ticketSignature t))]%string).
Definition read_ticket (v : jsval) : option EncounterTicket :=
  a ← read_authorization v; n ← get_num v "version"; id ← get_str v "ticketId";
  k ← get_str v "authorityKey"; r ← get_str v "rulesId"; q ← get_str v "queueId";
  c ← get_str v "seedCommitment"; i ← get_num v "issuedAt"; b ← get_num v "commitNotBefore";
  e ← get_num v "releaseAt"; s ← get_str v "ticketSignature";
  Some (mkTicket a n id k r q c i b e s).

Definition read_reason (v : jsval) : option EncounterTerminationReason :=
  if is_text "abandoned" v then Some abandoned
  else if is_text "expired" v then Some expired else None.
Definition termination_value (t : EncounterTermination) : jsval :=
  let s := termination_statement t in
  let a := ts_authorization s in
  obj [("statement",
        obj ([("version", JNum (ts_version s)); ("authorityKey", JStr (ts_authorityKey s));
             ("ticketId", JStr (ts_ticketId s)); ("unit", JStr (unit a));
             ("startHead", JStr (startHead a)); ("playerId", JStr (ea_playerId a));
             ("ownerPublicKey", JStr (ea_ownerPublicKey a)); ("queueId", JStr (ts_queueId s));
             ("rulesId", JStr (ts_rulesId s)); ("root", optional_string (ts_root s));
             ("reason", JStr (termination_reason (ts_reason s)));
             ("terminatedAt", JNum (terminatedAt s));
             ("retentionUntil", JNum (ts_retentionUntil s))] ++ generation_fields (generation a))%list);
       ("terminationId", JStr (terminationId t)); ("signature", JStr (termination_signature t))]%string.
Definition read_termination (v : jsval) : option EncounterTermination :=
  let w := field v "statement" in
  a ← read_authorization w; n ← get_num w "version"; k ← get_str w "authorityKey";
  id ← get_str w "ticketId"; q ← get_str w "queueId"; r ← get_str w "rulesId";
  reason ← read_reason (field w "reason");
  at_ ← get_num w "terminatedAt"; till ← get_num w "retentionUntil";
  tid ← get_str v "terminationId"; s ← get_str v "signature";
  Some (mkTermination (mkTerminationStatement a n k id q r (as_string (field w "root")) reason at_ till)
          tid s).

(** ** Recovery proofs *)

Record EncounterRecoveryProof := mkRecoveryProof {
  proof_ticket : EncounterTicket;
  proof_termination : EncounterTermination;
}.
Definition recovery_value (ticket termination : jsval) : jsval :=
  obj [("ticket", ticket); ("termination", termination)]%string.

Definition TICKET_KEYS : list string :=
  ["version"; "unit"; "startHead"; "playerId"; "ownerPublicKey"; "ticketId"; "authorityKey";
   "rulesId"; "queueId"; "seedCommitment"; "issuedAt"; "commitNotBefore"; "releaseAt";
   "ticketSignature"]%string.
Definition TERMINATION_KEYS : list string :=
  ["version"; "authorityKey"; "ticketId"; "unit"; "startHead"; "playerId"; "ownerPublicKey";
   "queueId"; "rulesId"; "root"; "reason"; "terminatedAt"; "retentionUntil"]%string.

Definition validProofTicket (t : jsval) : bool :=
  (exactKeys t TICKET_KEYS ||
   exactKeys t (TICKET_KEYS ++ ["generation"%string]) && val_time (field t "generation")) &&
  every_field t (on_string identifier)
    ["unit"; "startHead"; "playerId"; "ticketId"; "rulesId"; "queueId"]%string &&
  every_field t (on_string isDigestText) ["authorityKey"; "ownerPublicKey"; "seedCommitment"]%string &&
  is_num 1 (field t "version") &&
  every_field t val_time ["issuedAt"; "commitNotBefore"; "releaseAt"]%string &&
  on_string signature (field t "ticketSignature").
Definition validProofTermination (e : jsval) : bool :=
  exactKeys e ["statement"; "terminationId"; "signature"]%string &&
  on_string isDigestText (field e "terminationId") && on_string signature (field e "signature") &&
  let s := field e "statement" in
  exactKeys s TERMINATION_KEYS && is_num 1 (field s "version") &&
  every_field s (on_string identifier)
    ["unit"; "startHead"; "playerId"; "ticketId"; "rulesId"; "queueId"]%string &&
  every_field s (on_string isDigestText) ["authorityKey"; "ownerPublicKey"]%string &&
  (is_null (field s "root") || on_string isDigestText (field s "root")) &&
  (is_text "abandoned" (field s "reason") || is_text "expired" (field s "reason")) &&
  every_field s val_time ["terminatedAt"; "retentionUntil"]%string.
Definition validRecoveryProof (p : jsval) : bool :=
  exactKeys p ["ticket"; "termination"]%string &&
  validProofTicket (field p "ticket") && validProofTermination (field p "termination") &&
  (byteLength (stringify p) <=? MAX_RECOVERY_PROOF_BYTES).

(** ** Inventory batches *)

Record InventoryCompaction := mkCompaction {
  expectedCheckpointId : option jsstr;
  ticketIds : list jsstr;
}.
Definition compaction_value (expected ids : jsval) : jsval :=
  obj [("expectedCheckpointId", expected); ("ticketIds", ids)]%string.
(** [new Set(values).size] of strings. *)
Definition all_distinct (values : list jsval) : bool :=
  match mapM as_string values with Some l => negb (has_duplicates l) | None => false end.
Definition validInventoryCompaction (value : jsval) : bool :=
  exactKeys value ["expectedCheckpointId"; "ticketIds"]%string &&
  (is_null (field value "expectedCheckpointId") ||
   on_string isDigestText (field value "expectedCheckpointId")) &&
  match field value "ticketIds" with
  | JArr ids => (0 <? length ids)%nat && (length ids <=? MAX_INVENTORY_BATCH)%nat &&
                forallb (on_string identifier) ids && all_distinct ids
  | _ => false
  end.

(** ** Commands *)

Inductive EncounterCommand :=
| op_admissions
| op_release_recovery (ticket : EncounterTicket) (termination : EncounterTermination)
| op_inventory_compact (expectedCheckpointId : option jsstr) (ticketIds : list jsstr)
| op_inventory_retire_empty (expectedCheckpointId : jsstr) (ticketIds : list jsstr)
| op_inventory_page (checkpointId : jsstr) (after : Z)
| op_start (startHead : jsstr) (generation : option Z)
| op_commit (commitment : EncounterCommit)
| op_reveal (ticketId : jsstr)
| op_receipt (ticketId : jsstr)
| op_status (ticketId : jsstr)
| op_settle (ticketId : jsstr) (chunks : list WireChunk)
| op_archive_upload (ticketId : jsstr) (chunks : list WireChunk)
| op_archive_read (ticketId : jsstr)
| op_archive_release (ticketId : jsstr)
| op_archive_handoff (ticketId : jsstr) (expectedRevision nextSequence : Z)
| op_market (listing : EncounterListing)
| op_terminate (ticketId : jsstr) (reason : EncounterTerminationReason)
| op_closure (ticketId : jsstr) (expectedRevision nextSequence : Z)
| op_prune (ticketId : jsstr) (expectedRevision : Z).

Definition validTicketCommand (c : jsval) : bool :=
  exactKeys c ["op"; "ticketId"]%string && on_string identifier (field c "ticketId").
Definition validStart (c : jsval) : bool :=
  (exactKeys c ["op"; "startHead"]%string ||
   exactKeys c ["op"; "startHead"; "generation"]%string && val_time (field c "generation")) &&
  on_string identifier (field c "startHead").
Definition validCommit (c : jsval) : bool :=
  let x := field c "commitment" in
  exactKeys c ["op"; "commitment"]%string &&
  exactKeys x ["ticketId"; "root"; "chunkDigests"; "ownerSignature"]%string &&
  on_string identifier (field x "ticketId") && on_string isDigestText (field x "root") &&
  match field x "chunkDigests" with
  | JArr l => (length l =? 2)%nat && forallb (on_string isDigestText) l
  | _ => false
  end && on_string signature (field x "ownerSignature").
Definition validMarket (c : jsval) : bool :=
  let x := field c "listing" in
  exactKeys c ["op"; "listing"]%string &&
  exactKeys x ["ticketId"; "receiptId"; "assetId"; "ownerSignature"]%string &&
  on_string identifier (field x "ticketId") && on_string isDigestText (field x "receiptId") &&
  on_string identifier (field x "assetId") && on_string signature (field x "ownerSignature").
Definition validQueueSnapshot (c : jsval) : bool :=
  exactKeys c ["op"; "ticketId"; "expectedRevision"; "nextSequence"]%string &&
  on_string identifier (field c "ticketId") && val_time (field c "expectedRevision") &&
  match field c "nextSequence" with JNum n => isTime n && (n <=? 2) | _ => false end.
Definition validWireChunk (i : Z) (x : jsval) : bool :=
  exactKeys x ["sequence"; "checkpointDigest"; "payload"]%string && is_num i (field x "sequence") &&
  on_string isDigestText (field x "checkpointDigest") &&
  on_string (fun s => match decodePayload s with inr _ => true | inl _ => false end)
    (field x "payload").
Fixpoint validWireChunks (i : Z) (xs : list jsval) : bool :=
  match xs with
  | [] => true
  | x :: xs' => validWireChunk i x && validWireChunks (i + 1) xs'
  end.
Definition validChunkUpload (c : jsval) : bool :=
  exactKeys c ["op"; "ticketId"; "chunks"]%string && on_string identifier (field c "ticketId") &&
  match field c "chunks" with
  | JArr l => (length l =? 2)%nat && validWireChunks 0 l
  | _ => false
  end.
Definition validInventoryBatch (c : jsval) : bool :=
  exactKeys c ["op"; "expectedCheckpointId"; "ticketIds"]%string &&
  validInventoryCompaction (compaction_value (field c "expectedCheckpointId") (field c "ticketIds")).

(** The [switch] on [c.op]. *)
Definition op_is (c : jsval) (name : string) : bool := is_text name (field c "op").
Definition validCommand (c : jsval) : bool :=
  isObject c &&
  if op_is c "admissions" then exactKeys c ["op"%string]
  else if op_is c "release-recovery" then
    exactKeys c ["op"; "ticket"; "termination"]%string &&
    validRecoveryProof (recovery_value (field c "ticket") (field c "termination"))
  else if op_is c "inventory-compact" then validInventoryBatch c
  else if op_is c "inventory-retire-empty" then
    validInventoryBatch c && on_string isDigestText (field c "expectedCheckpointId")
  else if op_is c "inventory-page" then
    exactKeys c ["op"; "checkpointId"; "after"]%string &&
    on_string isDigestText (field c "checkpointId") && val_time (field c "after")
  else if op_is c "start" then validStart c
  else if op_is c "reveal" || op_is c "receipt" || op_is c "status" || op_is c "archive-read" ||
          op_is c "archive-release" then validTicketCommand c
  else if op_is c "commit" then validCommit c
  else if op_is c "market" then validMarket c
  else if op_is c "prune" then
    exactKeys c ["op"; "ticketId"; "expectedRevision"]%string &&
    on_string identifier (field c "ticketId") && val_time (field c "expectedRevision")
  else if op_is c "terminate" then
    exactKeys c ["op"; "ticketId"; "reason"]%string && on_string identifier (field c "ticketId") &&
    (is_text "abandoned" (field c "reason") || is_text "expired" (field c "reason"))
  else if op_is c "closure" || op_is c "archive-handoff" then validQueueSnapshot c
  else if op_is c "settle" || op_is c "archive-upload" then validChunkUpload c
  else false.

(** The cast [c as EncounterCommand]. *)
Definition read_wire_chunk (x : jsval) : option WireChunk :=
  n ← get_num x "sequence"; d ← get_str x "checkpointDigest"; p ← get_str x "payload";
  Some (mkWireChunk n d p).
Definition read_chunks (c : jsval) : option (list WireChunk) :=
  l ← as_array (field c "chunks"); mapM read_wire_chunk l.
Definition read_commit (x : jsval) : option EncounterCommit :=
  id ← get_str x "ticketId"; r ← get_str x "root"; l ← get_strs x "chunkDigests";
  s ← get_str x "ownerSignature"; Some (mkCommit id r l s).
Definition read_listing (x : jsval) : option EncounterListing :=
  id ← get_str x "ticketId"; r ← get_str x "receiptId"; a ← get_str x "assetId";
  s ← get_str x "ownerSignature"; Some (mkListing id r a s).
Definition read_op (c : jsval) (op : jsstr) : option EncounterCommand :=
  let named name := str_eqb (js name) op in
  if named "admissions"%string then Some op_admissions
  else if named "release-recovery"%string then
    t ← read_ticket (field c "ticket"); e ← read_termination (field c "termination");
    Some (op_release_recovery t e)
  else if named "inventory-compact"%string then
    l ← get_strs c "ticketIds";
    Some (op_inventory_compact (as_string (field c "expectedCheckpointId")) l)
  else if named "inventory-retire-empty"%string then
    e ← get_str c "expectedCheckpointId"; l ← get_strs c "ticketIds";
    Some (op_inventory_retire_empty e l)
  else if named "inventory-page"%string then
    id ← get_str c "checkpointId"; n ← get_num c "after"; Some (op_inventory_page id n)
  else if named "start"%string then
    h ← get_str c "startHead"; Some (op_start h (get_num c "generation"))
  else if named "commit"%string then op_commit <$> read_commit (field c "commitment")
  else if named "reveal"%string then op_reveal <$> get_str c "ticketId"
  else if named "receipt"%string then op_receipt <$> get_str c "ticketId"
  else if named "status"%string then op_status <$> get_str c "ticketId"
  else if named "settle"%string then
    id ← get_str c "ticketId"; l ← read_chunks c; Some (op_settle id l)
  else if named "archive-upload"%string then
    id ← get_str c "ticketId"; l ← read_chunks c; Some (op_archive_upload id l)
  else if named "archive-read"%string then op_archive_read <$> get_str c "ticketId"
  else if named "archive-release"%string then op_archive_release <$> get_str c "ticketId"
  else if named "archive-handoff"%string then
    id ← get_str c "ticketId"; e ← get_num c "expectedRevision"; n ← get_num c "nextSequence";
    Some (op_archive_handoff id e n)
  else if named "market"%string then op_market <$> read_listing (field c "listing")
  else if named "terminate"%string then
    id ← get_str c "ticketId"; r ← read_reason (field c "reason"); Some (op_terminate id r)
  else if named "closure"%string then
    id ← get_str c "ticketId"; e ← get_num c "expectedRevision"; n ← get_num c "nextSequence";
    Some (op_closure id e n)
  else if named "prune"%string then
    id ← get_str c "ticketId"; e ← get_num c "expectedRevision"; Some (op_prune id e)
  else None.
Definition read_command (c : jsval) : option EncounterCommand :=
  op ← get_str c "op"; read_op c op.

(** The object of a command, as the client builds it. *)
Definition wire_chunk_value (x : WireChunk) : jsval :=
  obj [("sequence", JNum (wc_sequence x)); ("checkpointDigest", JStr (wc_checkpointDigest x));
       ("payload", JStr (wc_payload x))]%string.
Definition commit_value (c : EncounterCommit) : jsval :=
  obj [("ticketId", JStr (c_ticketId c)); ("root", JStr (c_root c));
       ("chunkDigests", strings_value (chunkDigests c));
       ("ownerSignature", JStr (c_ownerSignature c))]%string.
Definition listing_value (l : EncounterListing) : jsval :=
  obj [("ticketId", JStr (el_ticketId l)); ("receiptId", JStr (el_receiptId l));
       ("assetId", JStr (el_assetId l)); ("ownerSignature", JStr (el_ownerSignature l))]%string.
Definition op_name (c : EncounterCommand) : string :=
  match c with
  | op_admissions => "admissions" | op_release_recovery _ _ => "release-recovery"
  | op_inventory_compact _ _ => "inventory-compact"
  | op_inventory_retire_empty _ _ => "inventory-retire-empty"
  | op_inventory_page _ _ => "inventory-page" | op_start _ _ => "start" | op_commit _ => "commit"
  | op_reveal _ => "reveal" | op_receipt _ => "receipt" | op_status _ => "status"
  | op_settle _ _ => "settle" | op_archive_upload _ _ => "archive-upload"
  | op_archive_read _ => "archive-read" | op_archive_release _ => "archive-release"
  | op_archive_handoff _ _ _ => "archive-handoff" | op_market _ => "market"
  | op_terminate _ _ => "terminate" | op_closure _ _ _ => "closure" | op_prune _ _ => "prune"
  end%string.
Definition command_fields (c : EncounterCommand) : list (string * jsval) :=
  match c with
  | op_admissions => []
  | op_release_recovery t e => [("ticket", ticket_value t); ("termination", termination_value e)]
  | op_inventory_compact e l =>
      [("expectedCheckpointId", optional_string e); ("ticketIds", strings_value l)]
  | op_inventory_retire_empty e l =>
      [("expectedCheckpointId", JStr e); ("ticketIds", strings_value l)]
  | op_inventory_page id n => [("checkpointId", JStr id); ("after", JNum n)]
  | op_start h g => ("startHead", JStr h) :: generation_fields g
  | op_commit x => [("commitment", commit_value x)]
  | op_reveal id | op_receipt id | op_status id | op_archive_read id | op_archive_release id =>
      [("ticketId", JStr id)]
  | op_settle id l | op_archive_upload id l =>
      [("ticketId", JStr id); ("chunks", JArr (map wire_chunk_value l))]
  | op_archive_handoff id e n | op_closure id e n =>
      [("ticketId", JStr id); ("expectedRevision", JNum e); ("nextSequence", JNum n)]
  | op_market l => [("listing", listing_value l)]
  | op_terminate id r => [("ticketId", JStr id); ("reason", JStr (termination_reason r))]
  | op_prune id e => [("ticketId", JStr id); ("expectedRevision", JNum e)]
  end%string.
Definition command_value (c : EncounterCommand) : jsval :=
  obj (("op"%string, JStr (js (op_name c))) :: command_fields c).

Definition wireChunkTuple (x : WireChunk) : jsval :=
  JArr [JNum (wc_sequence x); JStr (wc_checkpointDigest x); JStr (wc_payload x)].
Definition commandTuple (c : EncounterCommand) : list jsval :=
  JStr (js (op_name c)) ::
  match c with
  | op_admissions => []
  | op_release_recovery t e =>
      [JStr (ticketFrame t); JStr (ticketSignature t);
       JStr (terminationFrame (termination_statement e)); JStr (terminationId e);
       JStr (termination_signature e)]
  | op_inventory_compact e l => [optional_string e; strings_value l]
  | op_inventory_retire_empty e l => [JStr e; strings_value l]
  | op_inventory_page id n => [JStr id; JNum n]
  | op_start h None => [JStr h]
  | op_start h (Some g) => [JStr h; JNum g]
  | op_commit x =>
      [JStr (c_ticketId x); JStr (c_root x); strings_value (chunkDigests x);
       JStr (c_ownerSignature x)]
  | op_reveal id | op_receipt id | op_status id | op_archive_read id | op_archive_release id =>
      [JStr id]
  | op_settle id l | op_archive_upload id l => [JStr id; JArr (map wireChunkTuple l)]
  | op_market l =>
      [JStr (el_ticketId l); JStr (el_receiptId l); JStr (el_assetId l); JStr (el_ownerSignature l)]
  | op_prune id e => [JStr id; JNum e]
  | op_terminate id r => [JStr id; JStr (termination_reason r)]
  | op_closure id e n | op_archive_handoff id e n => [JStr id; JNum e; JNum n]
  end.

(** ** Requests *)

Record EncounterHttpRequest := mkHttpRequest {
  hr_version : Z;
  hr_unit : jsstr;
  hr_ownerPublicKey : jsstr;
  hr_issuedAt : Z;
  hr_expiresAt : Z;
  command : EncounterCommand;
  hr_signature : jsstr;
}.

Definition encounterRequestFrame (r : EncounterHttpRequest) : jsstr :=
  frame "encounter-http-v1"
    [JNum (hr_version r); JStr (hr_unit r); JStr (hr_ownerPublicKey r); JNum (hr_issuedAt r);
     JNum (hr_expiresAt r); JArr (commandTuple (command r))].

Definition request_value (r : EncounterHttpRequest) : jsval :=
  obj [("version", JNum (hr_version r)); ("unit", JStr (hr_unit r));
       ("ownerPublicKey", JStr (hr_ownerPublicKey r)); ("issuedAt", JNum (hr_issuedAt r));
       ("expiresAt", JNum (hr_expiresAt r)); ("command", command_value (command r));
       ("signature", JStr (hr_signature r))]%string.
Definition read_request (v : jsval) : option EncounterHttpRequest :=
  n ← get_num v "version"; u ← get_str v "unit"; o ← get_str v "ownerPublicKey";
  i ← get_num v "issuedAt"; e ← get_num v "expiresAt"; c ← read_command (field v "command");
  s ← get_str v "signature";
  Some (mkHttpRequest n u o i e c s).

Definition validTimes (i e : jsval) : bool :=
  match i, e with
  | JNum i, JNum e => isTime i && isTime e && (i <? e) && (e - i <=? 60000)
  | _, _ => false
  end.
Definition validRequest (v : jsval) : bool :=
  exactKeys v ["version"; "unit"; "ownerPublicKey"; "issuedAt"; "expiresAt"; "command";
               "signature"]%string &&
  is_num 1 (field v "version") && on_string identifier (field v "unit") &&
  on_string isDigestText (field v "ownerPublicKey") &&
  validTimes (field v "issuedAt") (field v "expiresAt") &&
  on_string signature (field v "signature") && validCommand (field v "command").
Definition decodeEncounterRequest (value : jsval) : option EncounterHttpRequest :=
  if validRequest value then read_request value else None.

Definition no_signature : jsstr := repeat 48%N 128.
Definition signEncounterRequest (cryptoBackend : AuditCryptoBackend) (unit : jsstr)
    (command : EncounterCommand) (owner : AsyncAuditSigner) (now : Z)
    : throws EncounterHttpRequest :=
  let unsigned s := mkHttpRequest 1 unit (as_publicKey owner) now (now + 60000) command s in
  throw_if (negb (validRequest (request_value (unsigned no_signature))))
    (js "invalid encounter request") $
  let! digest := hash cryptoBackend (encounterRequestFrame (unsigned no_signature)) in
  let! s := as_signDigest owner digest in
  inr (unsigned s).

(** ** The bounded body reader *)

(** The [for] loop over [reader.read()]; the rest of the stream is cancelled
    as soon as the bound is passed. *)
Fixpoint readParts (parts : list (list N)) (size : Z) : throws (list (list N)) :=
  match parts with
  | [] => inr []
  | part :: parts' =>
      let size := size + Z.of_nat (length part) in
      throw_if (MAX_ENCOUNTER_HTTP_BYTES <? size) (js "body_too_large") $
      let! rest := readParts parts' size in
      inr (part :: rest)
  end.
Definition readBoundedEncounterJson `{JsHost} (body : option (list (list N))) : throws jsval :=
  match body with
  | None => inl (js "invalid_json")
  | Some stream =>
      let! parts := readParts stream 0 in
      match utf8_decode (concat parts) with
      | None => inl (js "TypeError")
      | Some text =>
          match json_parse text with
          | None => inl (js "SyntaxError")
          | Some value => inr value
          end
      end
  end.
