(* ===== verification/EncounterHttpFacts.v ===== *)
(** * Facts about encounter requests

    The payload encoding is exact, the shape checks make the casts safe, a
    signed request reaches the server unchanged however its body is cut into
    pieces, and the signed frame determines the request. *)
From Stdlib Require Import String.
From S2P Require Import Prelude Json Contracts Kernel Journal Utf8 CryptoBackend EncounterWire.
From S2P Require Import OwnerAuth OwnerFacts EncounterWireFacts EncounterHttp.
Set Default Goal Selector "!".

(** ** Payloads *)

Definition bytes_ok (bytes : list N) : Prop := Forall (fun b => b < 256)%N bytes.

Lemma base64_value_digit n : (n < 64)%N -> base64_value (base64_digit n) = Some n.
Proof.
  intros Hn. unfold base64_digit, base64_value.
  repeat case_match; bool_split; try (f_equal; lia); repeat match goal with
  | H : (_ && _)%bool = false |- _ => apply andb_false_iff in H as [H|H]
  end; bool_split; lia.
Qed.
Lemma base64_value_range c n : base64_value c = Some n -> (n < 64)%N.
Proof. unfold base64_value. repeat case_match; intros [= <-]; bool_split; lia. Qed.

(** Four digits at a time, three bytes at a time. *)
Lemma triples_ind (P : list N -> Prop) :
  P [] -> (forall a, P [a]) -> (forall a b, P [a; b]) ->
  (forall a b c r, P r -> P (a :: b :: c :: r)) -> forall l, P l.
Proof.
  intros H0 H1 H2 H3. fix IH 1. intros [|a [|b [|c r]]]; [done|done|done|apply H3, IH].
Qed.
Lemma quads_ind (P : list N -> Prop) :
  P [] -> (forall a, P [a]) -> (forall a b, P [a; b]) -> (forall a b c, P [a; b; c]) ->
  (forall a b c d r, P r -> P (a :: b :: c :: d :: r)) -> forall l, P l.
Proof.
  intros H0 H1 H2 H3 H4. fix IH 1. intros [|a [|b [|c [|d r]]]]; [done|done|done|done|apply H4, IH].
Qed.

Ltac digits64 := rewrite ?base64_value_digit by
  (first [lia | apply N.Div0.div_lt_upper_bound; lia
         | match goal with |- (?x mod ?m * ?k + ?y / ?n < 64)%N =>
             pose proof (N.mod_lt x m); pose proof (N.Div0.div_lt_upper_bound y n (64 / k)); lia end]).

Lemma atob_btoa bytes : bytes_ok bytes -> atob (bytesToBase64Url bytes) = Some bytes.
Proof.
  induction bytes as [|a|a b|a b c r IH] using triples_ind; intros Hb; [done|..].
  all: unfold bytes_ok in *; rewrite ?Forall_cons in Hb; destruct_and?.
  - cbn [bytesToBase64Url atob].
    pose proof (N.div_mod' a 4). pose proof (N.mod_lt a 4).
    rewrite !base64_value_digit by lia. f_equal. f_equal. 
    rewrite N.div_mul by lia. lia.
  - cbn [bytesToBase64Url atob].
    pose proof (N.div_mod' a 4). pose proof (N.mod_lt a 4).
    pose proof (N.div_mod' b 16). pose proof (N.mod_lt b 16).
    rewrite !base64_value_digit by lia. f_equal.
    replace ((a mod 4 * 16 + b / 16) / 16)%N with (a mod 4)%N
      by (rewrite N.div_add_l, (N.div_small (b / 16)) by lia; lia).
    replace ((a mod 4 * 16 + b / 16) mod 16)%N with (b / 16)%N
      by (rewrite N.add_comm, N.Div0.mod_add, N.mod_small by lia; done).
    rewrite N.div_mul by lia. f_equal; [lia|f_equal; lia].
  - cbn [bytesToBase64Url app atob].
    pose proof (N.div_mod' a 4). pose proof (N.mod_lt a 4).
    pose proof (N.div_mod' b 16). pose proof (N.mod_lt b 16).
    pose proof (N.div_mod' c 64). pose proof (N.mod_lt c 64).
    rewrite !base64_value_digit by lia. rewrite IH by done. cbn [app]. f_equal.
    replace ((a mod 4 * 16 + b / 16) / 16)%N with (a mod 4)%N
      by (rewrite N.div_add_l, (N.div_small (b / 16)) by lia; lia).
    replace ((a mod 4 * 16 + b / 16) mod 16)%N with (b / 16)%N
      by (rewrite N.add_comm, N.Div0.mod_add, N.mod_small by lia; done).
    replace ((b mod 16 * 4 + c / 64) / 4)%N with (b mod 16)%N
      by (rewrite N.div_add_l, (N.div_small (c / 64)) by lia; lia).
    replace ((b mod 16 * 4 + c / 64) mod 4)%N with (c / 64)%N
      by (rewrite N.add_comm, N.Div0.mod_add, N.mod_small by lia; done).
    f_equal; [lia|f_equal; [lia|f_equal; lia]].
Qed.

Lemma atob_bytes text bytes : atob text = Some bytes -> bytes_ok bytes.
Proof.
  revert bytes. induction text as [|a|a b|a b c|a b c d r IH] using quads_ind; intros bytes E;
    cbn [atob] in E; unfold bytes_ok.
  - by injection E as <-.
  - done.
  - destruct (base64_value a) as [x|] eqn:Ea, (base64_value b) as [y|] eqn:Eb; try done.
    apply base64_value_range in Ea, Eb. injection E as <-.
    pose proof (N.div_mod' y 16). repeat constructor. lia.
  - destruct (base64_value a) as [x|] eqn:Ea, (base64_value b) as [y|] eqn:Eb,
      (base64_value c) as [z|] eqn:Ec; try done.
    apply base64_value_range in Ea, Eb, Ec. injection E as <-.
    pose proof (N.div_mod' y 16). pose proof (N.mod_lt y 16). pose proof (N.div_mod' z 4).
    repeat constructor; lia.
  - destruct (base64_value a) as [x|] eqn:Ea, (base64_value b) as [y|] eqn:Eb,
      (base64_value c) as [z|] eqn:Ec, (base64_value d) as [v|] eqn:Ed; try done.
    destruct (atob r) as [bs|] eqn:Er; [|done].
    apply base64_value_range in Ea, Eb, Ec, Ed. injection E as <-.
    pose proof (N.div_mod' y 16). pose proof (N.mod_lt y 16). pose proof (N.div_mod' z 4).
    pose proof (N.mod_lt z 4). repeat (constructor; [lia|]). by apply IH.
Qed.

Lemma base64_text bytes : bytes_ok bytes ->
  forallb (fun c => bool_decide (is_Some (base64_value c))) (bytesToBase64Url bytes) = true.
Proof.
  assert (Hd : forall n, (n < 64)%N -> bool_decide (is_Some (base64_value (base64_digit n))) = true)
    by (intros n Hn; apply bool_decide_eq_true; rewrite base64_value_digit by done; eauto).
  induction bytes as [|a|a b|a b c r IH] using triples_ind; intros Hb; [done|..].
  all: unfold bytes_ok in *; rewrite ?Forall_cons in Hb; destruct_and?.
  all: cbn [bytesToBase64Url app forallb].
  all: pose proof (N.div_mod' a 4); pose proof (N.mod_lt a 4).
  - by rewrite !Hd by lia.
  - pose proof (N.div_mod' b 16). pose proof (N.mod_lt b 16). by rewrite !Hd by lia.
  - pose proof (N.div_mod' b 16). pose proof (N.mod_lt b 16).
    pose proof (N.div_mod' c 64). pose proof (N.mod_lt c 64). rewrite !Hd by lia. by apply IH.
Qed.

(** [ceil(4 n / 3)] digits for [n] bytes. *)
Lemma base64_length bytes :
  3 * slen (bytesToBase64Url bytes) <= 4 * Z.of_nat (List.length bytes) + 2 /\
  (bytes <> [] -> 0 < slen (bytesToBase64Url bytes)).
Proof.
  unfold slen. induction bytes as [|a|a b|a b c r [IH _]] using triples_ind; cbn [bytesToBase64Url app List.length];
    (split; [lia|]); try done; lia.
Qed.

Lemma payload_codec text bytes :
  decodePayload text = inr bytes <->
  encodePayload bytes = text /\ bytes_ok bytes /\ 1 <= Z.of_nat (List.length bytes) <= MAX_CHUNK_BYTES.
Proof.
  unfold decodePayload, throw_if, encodePayload. split.
  - intros E. guard_step E. bool_split. destruct (atob text) as [bs|] eqn:Ea; [|done].
    guard_step E. bool_split. injection E as <-. apply atob_bytes in Ea.
    split; [by apply str_eqb_eq|]. split; [done|]. lia.
  - intros (<- & Hb & Hlen). pose proof (base64_length bytes) as [Hl Hp].
    unfold is_payload_text, MAX_PAYLOAD_TEXT, MAX_CHUNK_BYTES in *.
    rewrite base64_text by done. change ((4096 * 4 + 2) / 3) with 5462.
    assert (bytes <> []) as Hn by (intros ->; cbn in Hlen; lia). specialize (Hp Hn).
    rewrite (proj2 (Z.eqb_neq _ 0)), (proj2 (Z.ltb_ge _ _)) by lia. cbn [negb andb orb].
    rewrite atob_btoa by done. rewrite str_eqb_refl.
    rewrite (proj2 (Z.eqb_neq _ 0)), (proj2 (Z.ltb_ge _ _)) by lia. done.
Qed.

(** The payload encoding is exact: a text decodes to bytes exactly when it
    is the encoding of those bytes and there are between 1 and 4096 of them, so
    every chunk has one wire form, and every wire form that is accepted is that
    of one chunk. *)
Theorem payload_codec_exact text bytes :
  decodePayload text = inr bytes <->
  encodePayload bytes = text /\ bytes_ok bytes /\ 1 <= Z.of_nat (List.length bytes) <= MAX_CHUNK_BYTES.
Proof. apply payload_codec. Qed.

(** ** Objects *)

Lemma js_inj a b : js a = js b -> a = b.
Proof.
  unfold js. intros E.
  assert (list_ascii_of_string a = list_ascii_of_string b) as Ea.
  { revert E. generalize (list_ascii_of_string a) (list_ascii_of_string b). clear a b.
    induction l as [|c l IH]; intros [|d l']; try done. cbn [map]. intros [= Hc Hl].
    apply (f_equal Ascii.ascii_of_N) in Hc. rewrite !Ascii.ascii_N_embedding in Hc. by rewrite Hc, (IH l'). }
  by rewrite <- (string_of_list_ascii_of_string a), Ea, string_of_list_ascii_of_string.
Qed.

#[export] Instance js_injective : Inj (=) (=) js := js_inj.

Fixpoint sfind (k : string) (fields : list (string * jsval)) : option jsval :=
  match fields with
  | [] => None
  | (k', v) :: fields' => if String.eqb k k' then Some v else sfind k fields'
  end.
Lemma field_obj fields k : field (obj fields) k = default JUndef (sfind k fields).
Proof.
  unfold field, get_prop, obj. cbn [default]. f_equal.
  induction fields as [|[k' v] fields IH]; [done|]. cbn [map assoc sfind fst snd].
  destruct (String.eqb_spec k k') as [->|Hn]; [by rewrite str_eqb_refl|].
  rewrite (proj2 (str_eqb_neq (js k) (js k'))); [done|]. by intros E%js_inj.
Qed.
Ltac fields := rewrite ?field_obj; cbn [sfind generation_fields app String.eqb Ascii.eqb Bool.eqb default from_option id fst snd].

Lemma mapM_step {A B} (f : A -> option B) x l :
  mapM f (x :: l) = (y ← f x; k ← mapM f l; Some (y :: k)).
Proof. done. Qed.

Lemma read_strings l : mapM as_string (map JStr l) = Some l.
Proof. induction l as [|s l IH]; [done|]. simpl. by rewrite IH. Qed.

Lemma read_authorization_value a rest :
  (generation a = None -> sfind "generation" rest = None) ->
  read_authorization (obj (authorization_fields a ++ rest)) = Some a.
Proof.
  intros Hg. destruct a as [[g|] u h p o]; unfold read_authorization, get_str, get_num, authorization_fields;
    fields; cbn [mbind option_bind as_string generation unit startHead ea_playerId ea_ownerPublicKey] in *; [done|].
  change (generation_fields None ++ rest) with rest. by rewrite Hg.
Qed.
Lemma read_ticket_value t : read_ticket (ticket_value t) = Some t.
Proof.
  unfold read_ticket, ticket_value. rewrite read_authorization_value by done.
  destruct t as [[[g|] u h p o] n id k r q c i b e s]; unfold get_str, get_num, authorization_fields;
    fields; done.
Qed.
Lemma read_reason_value r : read_reason (JStr (termination_reason r)) = Some r.
Proof. by destruct r. Qed.

Lemma read_termination_value t : read_termination (termination_value t) = Some t.
Proof.
  unfold read_termination, termination_value, read_authorization, get_str, get_num. fields.
  destruct t as [[[g u h p o] n k id q r root reason at_ till] tid sg].
  destruct g as [g|], root as [root|], reason; done.
Qed.

Lemma read_chunks_value l : mapM read_wire_chunk (map wire_chunk_value l) = Some l.
Proof.
  induction l as [|[n d p] l IH]; [done|]. cbn [map].
  rewrite mapM_step, IH. unfold read_wire_chunk, wire_chunk_value, get_num, get_str. fields. done.
Qed.

Lemma read_op_name v c :
  field v "op" = JStr (js (op_name c)) -> read_command v = read_op v (js (op_name c)).
Proof. intros E. unfold read_command, get_str. by rewrite E. Qed.

Lemma str_eqb_js a b : str_eqb (js a) (js b) = String.eqb a b.
Proof.
  destruct (String.eqb_spec a b) as [->|Hn]; [apply str_eqb_refl|]. apply str_eqb_neq. by intros E%js_inj.
Qed.
Ltac the_op := unfold read_op; rewrite !str_eqb_js; cbn [op_name String.eqb Ascii.eqb Bool.eqb].

Lemma read_commit_value x : read_commit (commit_value x) = Some x.
Proof.
  destruct x. unfold read_commit, commit_value, get_str, get_strs. fields.
  cbn [mbind option_bind as_string as_array strings_value id]. by rewrite read_strings.
Qed.

Lemma read_command_value c : read_command (command_value c) = Some c.
Proof.
  rewrite (read_op_name _ c) by (unfold command_value; fields; done).
  destruct c; the_op; unfold command_value, get_str, get_num, get_strs, read_chunks; cbn [command_fields];
    fields; cbn [mbind option_bind as_string as_array strings_value];
    rewrite ?read_strings, ?read_chunks_value, ?read_reason_value; try done.
  - by rewrite read_ticket_value, read_termination_value.
  - match goal with |- context [optional_string ?e] => by destruct e end.
  - match goal with |- context [generation_fields ?g] => by destruct g end.
  - by rewrite read_commit_value.
  - match goal with x : EncounterListing |- _ => destruct x end. unfold read_listing, listing_value, get_str. fields. done.
Qed.

Lemma read_request_value r : read_request (request_value r) = Some r.
Proof.
  unfold read_request, request_value, get_str, get_num. fields.
  cbn [mbind option_bind as_string id]. rewrite read_command_value. by destruct r.
Qed.

(** ** What the shape checks establish *)

Lemma assoc_key {A} k (o : list (jsstr * A)) v : assoc k o = Some v -> In k (map fst o).
Proof.
  induction o as [|[k' v'] o IH]; [done|]. cbn [assoc map fst]. destruct (str_eqb k k') eqn:E.
  - apply str_eqb_eq in E as ->. by left.
  - right. by apply IH.
Qed.

(** An object with exactly these keys has no other. *)
Lemma exactKeys_only v keys k :
  exactKeys v keys = true -> NoDup (k :: keys) -> field v k = JUndef.
Proof.
  destruct v as [| | | | | | |o]; try done. unfold exactKeys.
  intros [Hlen%Nat.eqb_eq Hall]%andb_true_iff Hd. unfold field, get_prop. cbn [default].
  destruct (assoc (js k) o) as [w|] eqn:E; [|done]. exfalso.
  assert (Hincl : incl (map js (k :: keys)) (map fst o)).
  { intros x Hx. apply in_map_iff in Hx as (k' & <- & [<-|Hk]); [by eapply assoc_key|].
    rewrite forallb_forall in Hall. apply Hall, bool_decide_eq_true in Hk as [w' Hw].
    by eapply assoc_key. }
  assert (Hd' : List.NoDup (map js (k :: keys))).
  { apply NoDup_ListNoDup. by apply (NoDup_fmap_2 js). }
  pose proof (NoDup_incl_length Hd' Hincl) as Hle. rewrite !List.length_map in Hle. cbn in Hle. lia.
Qed.
Ltac nodup_keys := apply (bool_decide_unpack _); vm_compute; reflexivity.

Lemma on_string_inv p v : on_string p v = true -> exists s, v = JStr s /\ p s = true.
Proof. destruct v; try done. cbn. eauto. Qed.
Lemma val_time_inv v : val_time v = true -> exists z, v = JNum z /\ isTime z = true.
Proof. destruct v; try done. cbn. eauto. Qed.
Lemma is_num_inv n v : is_num n v = true -> v = JNum n.
Proof. destruct v; try done. cbn. intros E%Z.eqb_eq. by subst. Qed.
Lemma is_text_inv t v : is_text t v = true -> v = JStr (js t).
Proof. intros (s & -> & E%str_eqb_eq)%on_string_inv. by subst. Qed.

(** Turns every check of a property into what the property is. *)
Ltac shapes :=
  unfold every_field in *; cbn [forallb] in *; bool_split;
  repeat match goal with
  | H : on_string _ ?v = true |- _ => apply on_string_inv in H as (? & ? & ?)
  | H : val_time ?v = true |- _ => apply val_time_inv in H as (? & ? & ?)
  | H : is_num _ ?v = true |- _ => apply is_num_inv in H
  | H : is_text _ ?v = true |- _ => apply is_text_inv in H
  end.
Ltac reads := unfold get_str, get_num, get_strs;
  repeat match goal with H : field ?v ?k = _ |- context [field ?v ?k] => rewrite H end;
  cbn [mbind option_bind as_string as_array].

(** *** Well-formed requests *)

Definition authorization_wf (a : EncounterAuthorization) : bool :=
  forallb identifier [unit a; startHead a; ea_playerId a] && isDigestText (ea_ownerPublicKey a) &&
  match generation a with Some g => isTime g | None => true end.
Definition ticket_wf (t : EncounterTicket) : bool :=
  authorization_wf (t_authorization t) && (t_version t =? 1) &&
  forallb identifier [ticketId t; rulesId t; queueId t] &&
  forallb isDigestText [authorityKey t; seedCommitment t] &&
  forallb isTime [issuedAt t; commitNotBefore t; releaseAt t] && signature (ticketSignature t).
Definition termination_wf (e : EncounterTermination) : bool :=
  let s := termination_statement e in
  authorization_wf (ts_authorization s) && (ts_version s =? 1) &&
  bool_decide (generation (ts_authorization s) = None) &&
  forallb identifier [ts_ticketId s; ts_rulesId s; ts_queueId s] &&
  forallb isDigestText [ts_authorityKey s; terminationId e] &&
  match ts_root s with Some root => isDigestText root | None => true end &&
  forallb isTime [terminatedAt s; ts_retentionUntil s] && signature (termination_signature e).
Fixpoint chunks_wf (i : Z) (l : list WireChunk) : bool :=
  match l with
  | [] => true
  | x :: l' =>
      (wc_sequence x =? i) && isDigestText (wc_checkpointDigest x) &&
      match decodePayload (wc_payload x) with inr _ => true | inl _ => false end &&
      chunks_wf (i + 1) l'
  end.
Definition batch_wf (l : list jsstr) : bool :=
  (0 <? List.length l)%nat && (List.length l <=? MAX_INVENTORY_BATCH)%nat && forallb identifier l &&
  negb (has_duplicates l).
Definition command_wf (c : EncounterCommand) : bool :=
  match c with
  | op_admissions => true
  | op_release_recovery t e => ticket_wf t && termination_wf e
  | op_inventory_compact e l =>
      match e with Some d => isDigestText d | None => true end && batch_wf l
  | op_inventory_retire_empty e l => isDigestText e && batch_wf l
  | op_inventory_page id n => isDigestText id && isTime n
  | op_start h g => identifier h && match g with Some g => isTime g | None => true end
  | op_commit x =>
      identifier (c_ticketId x) && isDigestText (c_root x) && (List.length (chunkDigests x) =? 2)%nat &&
      forallb isDigestText (chunkDigests x) && signature (c_ownerSignature x)
  | op_reveal id | op_receipt id | op_status id | op_archive_read id | op_archive_release id =>
      identifier id
  | op_settle id l | op_archive_upload id l =>
      identifier id && (List.length l =? 2)%nat && chunks_wf 0 l
  | op_archive_handoff id e n | op_closure id e n =>
      identifier id && isTime e && isTime n && (n <=? 2)
  | op_market l =>
      identifier (el_ticketId l) && isDigestText (el_receiptId l) && identifier (el_assetId l) &&
      signature (el_ownerSignature l)
  | op_terminate id _ => identifier id
  | op_prune id e => identifier id && isTime e
  end.
Definition request_wf (r : EncounterHttpRequest) : bool :=
  (hr_version r =? 1) && identifier (hr_unit r) && isDigestText (hr_ownerPublicKey r) &&
  isTime (hr_issuedAt r) && isTime (hr_expiresAt r) && (hr_issuedAt r <? hr_expiresAt r) &&
  (hr_expiresAt r - hr_issuedAt r <=? 60000) && signature (hr_signature r) && command_wf (command r).

Lemma valid_ticket_reads t :
  validProofTicket t = true -> exists r, read_ticket t = Some r /\ ticket_wf r = true.
Proof.
  unfold validProofTicket. intros Hv. shapes.
  assert (Hg : exists g, get_num t "generation" = g /\
                 match g with Some g => isTime g = true | None => True end).
  { match goal with H : _ || _ = true |- _ => rename H into Hk end.
    apply orb_true_iff in Hk as [Hk|[Hk Ht]%andb_true_iff].
    - exists None. unfold get_num. rewrite (exactKeys_only t TICKET_KEYS) by (done || nodup_keys). done.
    - apply val_time_inv in Ht as (z & E & Ht). exists (Some z). unfold get_num. by rewrite E. }
  destruct Hg as (g & Eg & Hg). unfold read_ticket, read_authorization. rewrite Eg. reads.
  eexists. split; [reflexivity|]. unfold ticket_wf, authorization_wf.
  cbn [t_authorization unit startHead ea_playerId ea_ownerPublicKey generation t_version ticketId rulesId
       queueId authorityKey seedCommitment issuedAt commitNotBefore releaseAt ticketSignature forallb].
  rewrite ?andb_true_iff. destruct g; split_and!; done.
Qed.

Lemma valid_termination_reads e :
  validProofTermination e = true -> exists r, read_termination e = Some r /\ termination_wf r = true.
Proof.
  unfold validProofTermination. cbv zeta. intros Hv. shapes.
  set (s := field e "statement") in *.
  assert (Hg : field s "generation" = JUndef) by (apply (exactKeys_only s TERMINATION_KEYS); [done|nodup_keys]).
  assert (Hr : exists root, as_string (field s "root") = root /\
                 match root with Some r => isDigestText r = true | None => True end).
  { match goal with H : is_null _ || _ = true |- _ => rename H into Hn end.
    apply orb_true_iff in Hn as [Hn|Hn].
    - exists None. by destruct (field s "root").
    - apply on_string_inv in Hn as (d & -> & Hd). by exists (Some d). }
  assert (Hq : exists reason, read_reason (field s "reason") = Some reason).
  { match goal with H : is_text _ _ || _ = true |- _ => rename H into Hn end.
    apply orb_true_iff in Hn as [Hn|Hn]; apply is_text_inv in Hn as ->; eauto. }
  destruct Hr as (root & Er & Hr), Hq as (reason & Eq).
  unfold read_termination, read_authorization. fold s. rewrite Er, Eq. reads.
  eexists. split; [reflexivity|]. unfold termination_wf, authorization_wf.
  cbn [termination_statement ts_authorization unit startHead ea_playerId ea_ownerPublicKey generation ts_version
       ts_ticketId ts_rulesId ts_queueId ts_authorityKey ts_root terminatedAt ts_retentionUntil terminationId
       termination_signature forallb].
  rewrite ?andb_true_iff. destruct root; split_and!; done.
Qed.

Lemma valid_strings p l : forallb (on_string p) l = true ->
  exists r, mapM as_string l = Some r /\ l = map JStr r /\ forallb p r = true.
Proof.
  induction l as [|v l IH]; intros Hl; [by exists []|]. cbn [forallb] in Hl.
  apply andb_true_iff in Hl as [(s & -> & Hs)%on_string_inv (r & E & -> & Hr)%IH].
  exists (s :: r). simpl. by rewrite E, Hs.
Qed.

Lemma valid_batch_reads c :
  validInventoryBatch c = true ->
  (is_null (field c "expectedCheckpointId") || on_string isDigestText (field c "expectedCheckpointId") = true) /\
  exists l, get_strs c "ticketIds" = Some l /\ batch_wf l = true.
Proof.
  unfold validInventoryBatch, validInventoryCompaction, compaction_value. fields. intros Hv. bool_split.
  split; [done|]. destruct (field c "ticketIds") as [| | | | | |ids|] eqn:E; try done. bool_split.
  match goal with H : forallb _ ids = true |- _ => apply valid_strings in H as (l & El & -> & Hl) end.
  exists l. unfold get_strs. rewrite E. cbn [as_array mbind option_bind]. split; [done|].
  unfold all_distinct in *. rewrite El in *. rewrite List.length_map in *. unfold batch_wf.
  rewrite ?andb_true_iff. done.
Qed.

Lemma valid_chunks_read i l : validWireChunks i l = true ->
  exists r, mapM read_wire_chunk l = Some r /\ chunks_wf i r = true /\ List.length r = List.length l.
Proof.
  revert i. induction l as [|v l IH]; intros i Hl; [by exists []|]. cbn [validWireChunks] in Hl.
  apply andb_true_iff in Hl as [Hv (r & E & Hr & Hn)%IH]. unfold validWireChunk in Hv. shapes.
  eexists. split; [rewrite mapM_step, E; unfold read_wire_chunk; reads; reflexivity|].
  split; [|cbn [List.length]; lia]. cbn [chunks_wf wc_sequence wc_checkpointDigest wc_payload].
  rewrite ?andb_true_iff. split_and!; try done. by apply Z.eqb_refl.
Qed.

Lemma valid_upload_reads c : validChunkUpload c = true ->
  exists id l, get_str c "ticketId" = Some id /\ identifier id = true /\
    read_chunks c = Some l /\ (List.length l =? 2)%nat && chunks_wf 0 l = true.
Proof.
  unfold validChunkUpload. intros Hv. bool_split. destruct (field c "chunks") as [| | | | | |xs|] eqn:E; try done.
  shapes. match goal with H : validWireChunks 0 xs = true |- _ => apply valid_chunks_read in H as (l & El & Hl & Hn) end.
  eexists _, l. unfold read_chunks. reads. split_and!; try done. rewrite Hn. by rewrite andb_true_iff.
Qed.

Lemma read_op_is v name : op_is v name = true -> read_command v = read_op v (js name).
Proof. intros E%is_text_inv. unfold read_command, get_str. by rewrite E. Qed.

Ltac op_read H := rewrite (read_op_is _ _ H); the_op.
Ltac done_wf := cbn [command_wf]; rewrite ?andb_true_iff; split_and?; done.

Lemma valid_ticket_command_reads c (k : jsstr -> EncounterCommand) :
  (forall id, command_wf (k id) = identifier id) -> validTicketCommand c = true ->
  exists r, (k <$> get_str c "ticketId") = Some r /\ command_wf r = true.
Proof.
  intros Hk Hv. unfold validTicketCommand in Hv. shapes. reads. eexists. split; [reflexivity|]. by rewrite Hk.
Qed.

Lemma valid_snapshot_reads c : validQueueSnapshot c = true ->
  exists id e n, get_str c "ticketId" = Some id /\ get_num c "expectedRevision" = Some e /\
    get_num c "nextSequence" = Some n /\ identifier id && isTime e && isTime n && (n <=? 2) = true.
Proof.
  unfold validQueueSnapshot. intros Hv. bool_split.
  destruct (field c "nextSequence") eqn:E; try done. shapes. eexists _, _, _. reads.
  rewrite ?andb_true_iff. split_and!; try done. by apply Z.leb_le.
Qed.

Lemma valid_start_reads c : validStart c = true ->
  exists h g, get_str c "startHead" = Some h /\ get_num c "generation" = g /\
    identifier h && match g with Some g => isTime g | None => true end = true.
Proof.
  unfold validStart. intros Hv. bool_split.
  match goal with H : _ || _ = true |- _ => rename H into Hk end.
  apply orb_true_iff in Hk as [Hk|[Hk Ht]%andb_true_iff]; shapes.
  - eexists _, None. reads. rewrite (exactKeys_only c ["op"; "startHead"]%string) by (done || nodup_keys).
    rewrite andb_true_r. done.
  - eexists _, _. reads. rewrite ?andb_true_iff. done.
Qed.

Lemma valid_commit_reads c : validCommit c = true ->
  exists x, read_commit (field c "commitment") = Some x /\ command_wf (op_commit x) = true.
Proof.
  unfold validCommit. cbv zeta. intros Hv. bool_split. set (x := field c "commitment") in *.
  destruct (field x "chunkDigests") as [| | | | | |l|] eqn:E; try done. shapes.
  match goal with H : forallb _ l = true |- _ => apply valid_strings in H as (ds & Ed & -> & Hds) end.
  unfold read_commit. reads. rewrite Ed. cbn [mbind option_bind]. eexists. split; [reflexivity|].
  rewrite List.length_map in *. cbn [command_wf c_ticketId c_root chunkDigests c_ownerSignature].
  rewrite ?andb_true_iff. done.
Qed.

Lemma valid_market_reads c : validMarket c = true ->
  exists x, read_listing (field c "listing") = Some x /\ command_wf (op_market x) = true.
Proof.
  unfold validMarket. cbv zeta. intros Hv. set (x := field c "listing") in *. shapes.
  unfold read_listing. reads. eexists. split; [reflexivity|].
  cbn [command_wf el_ticketId el_receiptId el_assetId el_ownerSignature]. rewrite ?andb_true_iff. done.
Qed.

(** Whatever passes [validCommand] is a command. *)
Lemma valid_command_reads c :
  validCommand c = true -> exists r, read_command c = Some r /\ command_wf r = true.
Proof.
  unfold validCommand. intros [_ Hv]%andb_true_iff.
  destruct (op_is c "admissions") eqn:O; [op_read O; by exists op_admissions|]. clear O.
  destruct (op_is c "release-recovery") eqn:O.
  { op_read O. apply andb_true_iff in Hv as [_ Hv]. unfold validRecoveryProof, recovery_value in Hv.
    revert Hv. fields. intros Hv. bool_split.
    match goal with H : validProofTicket _ = true |- _ => apply valid_ticket_reads in H as (t & -> & Ht) end.
    match goal with H : validProofTermination _ = true |- _ => apply valid_termination_reads in H as (e & -> & He) end.
    eexists. split; [reflexivity|]. done_wf. }
  clear O. destruct (op_is c "inventory-compact") eqn:O.
  { op_read O. apply valid_batch_reads in Hv as [Hn (l & -> & Hl)]. eexists. split; [reflexivity|].
    cbn [command_wf]. rewrite Hl, andb_true_r. apply orb_true_iff in Hn as [Hn|(d & -> & Hd)%on_string_inv]; [|done].
    by destruct (field c "expectedCheckpointId"). }
  clear O. destruct (op_is c "inventory-retire-empty") eqn:O.
  { op_read O. apply andb_true_iff in Hv as [[_ (l & -> & Hl)]%valid_batch_reads Hd]. shapes. reads.
    eexists. split; [reflexivity|]. done_wf. }
  clear O. destruct (op_is c "inventory-page") eqn:O.
  { op_read O. shapes. reads. eexists. split; [reflexivity|]. done_wf. }
  clear O. destruct (op_is c "start") eqn:O.
  { op_read O. apply valid_start_reads in Hv as (h & g & -> & -> & Hw). eexists. split; [reflexivity|]. done. }
  clear O. destruct (op_is c "reveal") eqn:O; [op_read O; by apply valid_ticket_command_reads|]. clear O.
  destruct (op_is c "receipt") eqn:O; [op_read O; by apply valid_ticket_command_reads|]. clear O.
  destruct (op_is c "status") eqn:O; [op_read O; by apply valid_ticket_command_reads|]. clear O.
  destruct (op_is c "archive-read") eqn:O; [op_read O; by apply valid_ticket_command_reads|]. clear O.
  destruct (op_is c "archive-release") eqn:O; [op_read O; by apply valid_ticket_command_reads|]. clear O.
  cbn [orb] in Hv. destruct (op_is c "commit") eqn:O.
  { op_read O. apply valid_commit_reads in Hv as (x & -> & Hx). by exists (op_commit x). }
  clear O. destruct (op_is c "market") eqn:O.
  { op_read O. apply valid_market_reads in Hv as (x & -> & Hx). by exists (op_market x). }
  clear O. destruct (op_is c "prune") eqn:O.
  { op_read O. shapes. reads. eexists. split; [reflexivity|]. done_wf. }
  clear O. destruct (op_is c "terminate") eqn:O.
  { op_read O. bool_split. match goal with H : is_text _ _ || _ = true |- _ => rename H into Hn end. shapes.
    apply orb_true_iff in Hn as [Hn|Hn]; apply is_text_inv in Hn; reads; eexists; (split; [reflexivity|done]). }
  clear O. destruct (op_is c "closure") eqn:O.
  { op_read O. apply valid_snapshot_reads in Hv as (id & e & n & -> & -> & -> & Hw).
    eexists. split; [reflexivity|]. done. }
  clear O. destruct (op_is c "archive-handoff") eqn:O.
  { op_read O. apply valid_snapshot_reads in Hv as (id & e & n & -> & -> & -> & Hw).
    eexists. split; [reflexivity|]. done. }
  clear O. cbn [orb] in Hv. destruct (op_is c "settle") eqn:O.
  { op_read O. apply valid_upload_reads in Hv as (id & l & -> & Hid & -> & Hl).
    eexists. split; [reflexivity|]. cbn [command_wf]. by rewrite Hid. }
  clear O. destruct (op_is c "archive-upload") eqn:O; [|done].
  op_read O. apply valid_upload_reads in Hv as (id & l & -> & Hid & -> & Hl).
  eexists. split; [reflexivity|]. cbn [command_wf]. by rewrite Hid.
Qed.

Lemma valid_request_reads v :
  validRequest v = true -> exists r, read_request v = Some r /\ request_wf r = true.
Proof.
  unfold validRequest. intros Hv. bool_split.
  match goal with H : validCommand _ = true |- _ => apply valid_command_reads in H as (c & Ec & Hc) end.
  unfold validTimes in *. destruct (field v "issuedAt") eqn:Ei; try done.
  destruct (field v "expiresAt") eqn:Ee; try done. shapes.
  unfold read_request. rewrite Ec. reads. eexists. split; [reflexivity|]. unfold request_wf.
  cbn [hr_version hr_unit hr_ownerPublicKey hr_issuedAt hr_expiresAt hr_signature command].
  rewrite ?andb_true_iff. split_and!; try done; [by apply Z.ltb_lt|by apply Z.leb_le].
Qed.

Lemma decoded_wf v r : decodeEncounterRequest v = Some r -> request_wf r = true.
Proof.
  unfold decodeEncounterRequest. destruct (validRequest v) eqn:E; [|done].
  apply valid_request_reads in E as (r' & -> & Hr). by intros [= <-].
Qed.
(** The frame of a termination has no place for a generation; the shape checks
    refuse one. *)
Definition framed_whole (c : EncounterCommand) : Prop :=
  match c with
  | op_release_recovery _ e => generation (ts_authorization (termination_statement e)) = None
  | _ => True
  end.
Lemma wf_framed r : request_wf r = true -> framed_whole (command r).
Proof.
  unfold request_wf. intros Hr. bool_split. destruct (command r); try done.
  cbn [command_wf framed_whole] in *. unfold termination_wf in *. bool_split. done.
Qed.

(** C31: the shape checks make the cast safe: whatever value a body parses to,
    [decodeEncounterRequest] either refuses it or returns a request of the
    declared type, with version 1, identifiers, digests, signatures and times of
    the declared form, a validity of at most a minute, and the command's own
    bounds: one to sixteen distinct tickets in a batch, two chunks in order
    with canonical payloads, at most two payload sequences. *)
Theorem accepted_requests_are_typed v :
  (validRequest v = false /\ decodeEncounterRequest v = None) \/
  exists r, decodeEncounterRequest v = Some r /\ request_wf r = true.
Proof.
  unfold decodeEncounterRequest. destruct (validRequest v) eqn:E; [|by left].
  right. by apply valid_request_reads.
Qed.

(** ** The signed frame determines the request *)

Lemma strings_plain l : plain (strings_value l) = true.
Proof. unfold strings_value. cbn. apply map_plain. Qed.
Lemma wire_tuples_plain l : forallb plain (map wireChunkTuple l) = true.
Proof. induction l as [|x l IH]; [done|]. cbn [map forallb]. by rewrite IH. Qed.
Lemma tuple_plain c : forallb plain (commandTuple c) = true.
Proof.
  destruct c; cbn [commandTuple forallb plain plain_with];
    repeat match goal with |- context [match ?x with Some _ => _ | None => _ end] => destruct x end;
    cbn [forallb plain plain_with optional_string];
    rewrite ?strings_plain; try done.
  all: change (plain_with (fun _ => true)) with plain; rewrite ?wire_tuples_plain; try done.
  destruct expectedCheckpointId; [done|]. done.
Qed.

Lemma frame_inj d vs vs' :
  forallb plain vs = true -> forallb plain vs' = true -> frame d vs = frame d vs' -> vs = vs'.
Proof.
  intros Hv Hv' E. unfold frame in E. apply stringify_inj in E; [by injection E|cbn; exact Hv|cbn; exact Hv'].
Qed.

(** Equations between tuples of opaque texts. *)
Lemma num_text_inj n n' s s' : [JNum n; JStr s] = [JNum n'; JStr s'] -> n = n' /\ s = s'.
Proof. by intros [= -> ->]. Qed.
Lemma five_texts_inj a b c d e a' b' c' d' e' :
  [JStr a; JStr b; JStr c; JStr d; JStr e] = [JStr a'; JStr b'; JStr c'; JStr d'; JStr e'] ->
  a = a' /\ b = b' /\ c = c' /\ d = d' /\ e = e'.
Proof. by intros [= -> -> -> -> ->]. Qed.

Lemma ticketFrame_inj t t' :
  ticketFrame t = ticketFrame t' -> ticketSignature t = ticketSignature t' -> t = t'.
Proof.
  destruct t as [[g u h p o] n id k r q c i b e s], t' as [[g' u' h' p' o'] n' id' k' r' q' c' i' b' e' s'].
  unfold ticketFrame. cbn [t_authorization generation unit startHead ea_playerId ea_ownerPublicKey t_version
    ticketId authorityKey rulesId queueId seedCommitment issuedAt commitNotBefore releaseAt ticketSignature].
  intros E <-. destruct g as [g|], g' as [g'|].
  - apply frame_inj in E; [|done|done]. apply num_text_inj in E as [-> E]. apply frame_inj in E; [|done|done]. by injection E as -> -> -> -> -> -> -> -> -> -> -> -> ->.
  - unfold frame in E. apply stringify_inj in E; [|done|done]. discriminate E.
  - unfold frame in E. apply stringify_inj in E; [|done|done]. discriminate E.
  - apply frame_inj in E; [|done|done]. by injection E as -> -> -> -> -> -> -> -> -> -> -> -> ->.
Qed.

Lemma termination_reason_inj a b : termination_reason a = termination_reason b -> a = b.
Proof. by destruct a, b. Qed.
Lemma optional_string_inj a b : optional_string a = optional_string b -> a = b.
Proof. destruct a, b; try done. by intros [= ->]. Qed.

Lemma terminationFrame_inj s s' :
  terminationFrame s = terminationFrame s' ->
  generation (ts_authorization s) = generation (ts_authorization s') -> s = s'.
Proof.
  destruct s as [[g u h p o] n k id q r root reason a t], s' as [[g' u' h' p' o'] n' k' id' q' r' root' reason' a' t'].
  unfold terminationFrame. cbn [ts_authorization generation unit startHead ea_playerId ea_ownerPublicKey ts_version
    ts_authorityKey ts_ticketId ts_queueId ts_rulesId ts_root ts_reason terminatedAt ts_retentionUntil].
  intros E <-. apply frame_inj in E; [|by destruct root|by destruct root'].
  injection E as -> -> -> -> -> -> -> -> -> Hr Hq -> ->.
  apply optional_string_inj in Hr as ->. by apply termination_reason_inj in Hq as ->.
Qed.

Lemma wireChunkTuples_inj l l' : map wireChunkTuple l = map wireChunkTuple l' -> l = l'.
Proof.
  revert l'. induction l as [|[n d p] l IH]; intros [|[n' d' p'] l']; try done. cbn [map].
  intros [= -> -> -> E]. by rewrite (IH l').
Qed.
Lemma strings_inj l l' : map JStr l = map JStr l' -> l = l'.
Proof.
  revert l'. induction l as [|s l IH]; intros [|s' l']; try done. cbn [map]. intros [= -> E]. by rewrite (IH l').
Qed.

Lemma commandTuple_inj c c' : framed_whole c -> framed_whole c' -> commandTuple c = commandTuple c' -> c = c'.
Proof.
  intros Hc Hc' E. unfold commandTuple in E. injection E as En Et. apply js_inj in En.
  destruct c, c'; try discriminate En; clear En.
  - done.
  - apply five_texts_inj in Et as (E1 & E2 & E3 & E4 & E5). apply ticketFrame_inj in E1 as ->; [|done].
    match goal with e : EncounterTermination, e' : EncounterTermination |- _ =>
      destruct e as [s1 i1 g1], e' as [s2 i2 g2] end.
    cbn [termination_statement terminationId termination_signature framed_whole] in *. subst.
    apply terminationFrame_inj in E3; [by subst|congruence].
  - injection Et as E1 E2. apply optional_string_inj in E1 as ->. by apply strings_inj in E2 as ->.
  - injection Et as -> E2. by apply strings_inj in E2 as ->.
  - by injection Et as -> ->.
  - repeat match goal with g : option Z |- _ => destruct g end; by simplify_eq.
  - match goal with x : EncounterCommit, y : EncounterCommit |- _ =>
      destruct x as [i1 r1 l1 s1], y as [i2 r2 l2 s2] end.
    cbn [c_ticketId c_root chunkDigests c_ownerSignature] in Et. injection Et as -> -> E3 ->.
    by apply strings_inj in E3 as ->.
  - by injection Et as ->.
  - by injection Et as ->.
  - by injection Et as ->.
  - injection Et as -> E2. by apply wireChunkTuples_inj in E2 as ->.
  - injection Et as -> E2. by apply wireChunkTuples_inj in E2 as ->.
  - by injection Et as ->.
  - by injection Et as ->.
  - by injection Et as -> -> ->.
  - match goal with x : EncounterListing, y : EncounterListing |- _ =>
      destruct x as [i1 r1 l1 s1], y as [i2 r2 l2 s2] end.
    cbn [el_ticketId el_receiptId el_assetId el_ownerSignature] in Et. by injection Et as -> -> -> ->.
  - injection Et as -> E2. by apply termination_reason_inj in E2 as ->.
  - by injection Et as -> -> ->.
  - by injection Et as -> ->.
Qed.

(** Everything of a request but its signature. *)
Definition unsigned_part (r : EncounterHttpRequest) :=
  (hr_version r, hr_unit r, hr_ownerPublicKey r, hr_issuedAt r, hr_expiresAt r, command r).

(** A signature authorizes one request: two accepted requests with the same
    signed frame agree in the unit, the owner, the validity and the whole
    command, so no part of a command (an operation name, a chunk, the proof of
    a recovery release) can be changed under the signature. *)
Theorem request_frame_binds v v' r r' :
  decodeEncounterRequest v = Some r -> decodeEncounterRequest v' = Some r' ->
  encounterRequestFrame r = encounterRequestFrame r' -> unsigned_part r = unsigned_part r'.
Proof.
  intros Hv Hv' E.
  apply decoded_wf, wf_framed in Hv, Hv'. unfold encounterRequestFrame in E. apply frame_inj in E; cbn [forallb plain plain_with andb];
    try (change (plain_with (fun _ => true)) with plain; by rewrite tuple_plain).
  injection E as E1 E2 E3 E4 E5 E6 E7. unfold unsigned_part. rewrite E1, E2, E3, E4, E5.
  rewrite (commandTuple_inj _ _ Hv Hv'); [done|]. unfold commandTuple. by rewrite E6, E7.
Qed.
