(* ===== verification/EncounterRequestBounds.v ===== *)
(** * A request fits the body limit and survives the transport

    An upper bound on the bytes of a printed value, the size of every
    well-formed request, and the round trip from the client's signature to the
    server's decoder. *)
From Stdlib Require Import String.
From S2P Require Import Prelude Json Contracts Kernel Journal Utf8 CryptoBackend EncounterWire.
From S2P Require Import OwnerAuth OwnerFacts EncounterWireFacts EncounterHttp EncounterHttpFacts.
Set Default Goal Selector "!".

(** ** Bytes of a printed value *)

(** An upper bound on the bytes of each code unit. *)
Definition unit_bytes (c : N) : Z := if (c <? 128)%N then 1 else 4.
Fixpoint text_bytes (s : jsstr) : Z :=
  match s with [] => 0 | c :: r => unit_bytes c + text_bytes r end.
Definition value_bytes (v : jsval) : Z := text_bytes (stringify v).

Lemma unit_bytes_range c : 1 <= unit_bytes c <= 4.
Proof. unfold unit_bytes. case_match; lia. Qed.
Lemma text_bytes_app a b : text_bytes (a ++ b) = text_bytes a + text_bytes b.
Proof. induction a as [|c a IH]; [done|]. cbn [app text_bytes]. lia. Qed.
Lemma text_bytes_nonneg s : 0 <= text_bytes s.
Proof. induction s as [|c s IH]; [done|]. cbn [text_bytes]. pose proof (unit_bytes_range c). lia. Qed.
Lemma text_bytes_ascii s : ascii_text s = true -> text_bytes s = slen s.
Proof.
  unfold ascii_text, slen. induction s as [|c s IH]; [done|]. cbn [forallb text_bytes List.length].
  rewrite andb_true_iff. intros [Hc Hs]. unfold unit_bytes. rewrite Hc, IH by done. lia.
Qed.

Lemma utf8_bytes_size p : Z.of_nat (List.length (utf8_bytes p)) <= unit_bytes p.
Proof. unfold utf8_bytes, unit_bytes. repeat case_match; cbn; lia. Qed.

Lemma high_bytes c : is_high c = true -> unit_bytes c = 4.
Proof. unfold is_high, unit_bytes. intros H. bool_split. case_match; [bool_split; lia|done]. Qed.
Lemma low_bytes c : is_low c = true -> unit_bytes c = 4.
Proof. unfold is_low, unit_bytes. intros H. bool_split. case_match; [bool_split; lia|done]. Qed.

Lemma byteLength_bound s : byteLength s <= text_bytes s.
Proof.
  unfold byteLength, utf8_encode.
  induction s as [|c r Hc IH|c Hc|c d r Hc IHr IHd] using units_ind; [done|..];
    cbn [scalar_values text_bytes]; rewrite ?Hc.
  - destruct (is_low c) eqn:Hl; cbn [flat_map]; rewrite List.length_app, Nat2Z.inj_add.
    + rewrite (low_bytes c) by done. cbn. lia.
    + pose proof (utf8_bytes_size c). lia.
  - rewrite high_bytes by done. cbn. lia.
  - pose proof (unit_bytes_range d). rewrite (high_bytes c) by done. destruct (is_low d) eqn:Hl.
    + cbn [flat_map]. rewrite List.length_app, Nat2Z.inj_add.
      match goal with |- Z.of_nat (List.length (utf8_bytes ?p)) + _ <= _ =>
        pose proof (utf8_bytes_size p); pose proof (unit_bytes_range p) end. lia.
    + cbn [flat_map]. rewrite List.length_app, Nat2Z.inj_add.
      change (Z.of_nat (List.length (utf8_bytes 65533))) with 3.
      cbn [text_bytes scalar_values] in IHd. rewrite Hl in IHd. lia.
Qed.

(** At most six bytes for each code unit of a quoted string, and one where
    nothing is escaped. *)
Lemma quote_unit_bytes c : text_bytes (quote_unit c) <= 6.
Proof.
  assert (He : text_bytes (unicode_escape c) <= 6).
  { rewrite text_bytes_ascii; [done|]. unfold unicode_escape, ascii_text. cbn [forallb].
    by rewrite !digit_unit_ascii by (apply N.mod_lt; lia). }
  pose proof (unit_bytes_range c). unfold quote_unit.
  repeat match goal with |- context [if ?b then _ else _] => destruct b end; try done; cbn [text_bytes]; lia.
Qed.
Lemma quote_body_bytes s : text_bytes (quote_body s) <= 6 * slen s.
Proof.
  unfold slen. enough (text_bytes (quote_body s) <= 6 * Z.of_nat (List.length s) /\
    forall c, text_bytes (quote_body (c :: s)) <= 6 * Z.of_nat (List.length (c :: s))) by tauto.
  induction s as [|d r [IH IHc]].
  - split; [done|]. intros c. cbn [quote_body List.length]. pose proof (quote_unit_bytes c). lia.
  - split; [apply IHc|]. intros c. specialize (IHc d). cbn [quote_body].
    fold (quote_body (d :: r)). destruct (is_high c && is_low d).
    + cbn [text_bytes List.length]. pose proof (unit_bytes_range c). pose proof (unit_bytes_range d). lia.
    + rewrite text_bytes_app. change (match r with [] => _ | _ => _ end) with (quote_body (d :: r)).
      cbn [List.length] in *. pose proof (quote_unit_bytes c). lia.
Qed.
Lemma string_bytes s : value_bytes (JStr s) <= 6 * slen s + 2.
Proof.
  unfold value_bytes. cbn [stringify]. unfold quote. cbn [text_bytes]. rewrite text_bytes_app.
  pose proof (quote_body_bytes s). cbn. lia.
Qed.

(** Printable ASCII without quotes and backslashes. *)
Definition simple_unit (c : N) : bool := ((32 <=? c) && (c <? 128) && negb (c =? 34) && negb (c =? 92))%N.
Lemma quote_body_simple s : forallb simple_unit s = true -> quote_body s = s.
Proof.
  assert (Hu : forall c, simple_unit c = true -> quote_unit c = [c] /\ is_high c = false).
  { intros c Hc. unfold simple_unit in Hc. bool_split. unfold quote_unit, is_high, is_low.
    rewrite (proj2 (N.eqb_neq c 34)), (proj2 (N.eqb_neq c 92)), (proj2 (N.eqb_neq c 8)), (proj2 (N.eqb_neq c 9)),
      (proj2 (N.eqb_neq c 10)), (proj2 (N.eqb_neq c 12)), (proj2 (N.eqb_neq c 13)), (proj2 (N.ltb_ge c 32)),
      (proj2 (N.leb_gt 55296 c)), (proj2 (N.leb_gt 56320 c)) by lia. done. }
  induction s as [|c s IH]; [done|]. cbn [forallb]. intros [Hc Hs]%andb_true_iff.
  destruct (Hu c Hc) as [Eq Eh]. destruct s as [|d s]; cbn [quote_body]; [done|].
  rewrite Eh. cbn [andb]. rewrite Eq. change (match s with [] => _ | _ => _ end) with (quote_body (d :: s)).
  by rewrite IH.
Qed.
Lemma simple_ascii s : forallb simple_unit s = true -> ascii_text s = true.
Proof.
  unfold ascii_text. rewrite !forallb_forall. intros Hs c Hc. apply Hs in Hc. unfold simple_unit in Hc.
  bool_split. by apply N.ltb_lt.
Qed.
Lemma quote_simple_bytes s : forallb simple_unit s = true -> text_bytes (quote s) = slen s + 2.
Proof.
  intros Hs. unfold quote. rewrite quote_body_simple by done. cbn [text_bytes]. rewrite text_bytes_app.
  rewrite text_bytes_ascii by (by apply simple_ascii). cbn. lia.
Qed.

Lemma digits_aux_length fuel n acc (k : nat) :
  (n < 10 ^ N.of_nat k)%N -> (0 < k)%nat ->
  (List.length (digits_aux 10 fuel n acc) <= k + List.length acc)%nat.
Proof.
  revert n acc k. induction fuel as [|fuel IH]; intros n acc k Hn Hk; cbn [digits_aux]; [lia|].
  destruct (N.eqb_spec (n / 10) 0) as [E|E]; [cbn [List.length]; lia|].
  destruct k as [|[|k]]; [lia| |].
  - exfalso. apply E. apply N.div_small. exact Hn.
  - etrans; [apply (IH _ _ (S k)); [|lia]|cbn [List.length]; lia].
    apply N.Div0.div_lt_upper_bound. rewrite Nat2N.inj_succ, N.pow_succ_r in Hn by lia. done.
Qed.
Lemma number_bytes z : isTime z = true -> value_bytes (JNum z) <= 16.
Proof.
  intros [Hs Hz]%andb_true_iff. apply isSafeInteger_spec in Hs. apply Z.leb_le in Hz.
  unfold MAX_SAFE_INTEGER in Hs. unfold value_bytes. cbn [stringify].
  rewrite text_bytes_ascii by apply num_to_string_ascii. unfold num_to_string, slen.
  rewrite (proj2 (Z.ltb_ge _ _)) by lia. unfold digits.
  pose proof (digits_aux_length (S (N.to_nat (N.size (Z.to_N z)))) (Z.to_N z) [] 16) as Hd.
  change (10 ^ N.of_nat 16)%N with 10000000000000000%N in Hd. cbn [List.length] in Hd. lia.
Qed.

(** The fields of an object with simple keys. *)
Definition fields_bytes (fields : list (string * jsval)) : Z :=
  foldr (fun kv n => Z.of_nat (String.length (fst kv)) + 4 + value_bytes (snd kv) + n) 0 fields.
Definition simple_keys (fields : list (string * jsval)) : bool :=
  forallb (fun kv => forallb simple_unit (js (fst kv))) fields.

Lemma join_bytes l :
  text_bytes (join (js ",") l) <= foldr (fun s n => text_bytes s + 1 + n) 0 l.
Proof.
  induction l as [|s [|s' l] IH]; cbn [join foldr]; [done|lia|].
  rewrite !text_bytes_app. cbn [foldr] in IH. change (text_bytes (js ",")) with 1.
  change (match l with [] => _ | _ => _ end) with (join (js ",") (s' :: l)). lia.
Qed.
Lemma slen_js k : slen (js k) = Z.of_nat (String.length k).
Proof. unfold slen, js. rewrite length_fmap. f_equal. induction k as [|c k IH]; [done|]. cbn. by rewrite IH. Qed.

Lemma object_bytes fields : simple_keys fields = true -> value_bytes (obj fields) <= 2 + fields_bytes fields.
Proof.
  intros Hk. unfold value_bytes, obj. cbn [stringify]. rewrite !text_bytes_app.
  change (text_bytes (js "{")) with 1. change (text_bytes (js "}")) with 1.
  match goal with |- context [join _ ?l] => pose proof (join_bytes l) as Hj; set (ms := l) in * end.
  enough (foldr (fun s n => text_bytes s + 1 + n) 0 ms <= fields_bytes fields) by lia. subst ms. clear Hj.
  induction fields as [|[k v] fields IH]; [done|]. unfold simple_keys in *. cbn [forallb fst] in Hk.
  apply andb_true_iff in Hk as [Hk Hks]. specialize (IH Hks). unfold fields_bytes in *.
  cbn [map flat_map foldr fst snd]. pose proof (text_bytes_nonneg (stringify v)) as Hn.
  pose proof (quote_simple_bytes (js k) Hk) as Hq. rewrite slen_js in Hq. unfold value_bytes in *.
  destruct v; cbn [app foldr]; rewrite ?text_bytes_app, ?Hq; change (text_bytes (js ":")) with 1; lia.
Qed.
Lemma array_bytes l : value_bytes (JArr l) <= 2 + foldr (fun v n => value_bytes v + 1 + n) 0 l.
Proof.
  unfold value_bytes. cbn [stringify]. rewrite !text_bytes_app.
  change (text_bytes (js "[")) with 1. change (text_bytes (js "]")) with 1.
  pose proof (join_bytes (map stringify l)) as Hj.
  enough (foldr (fun s n => text_bytes s + 1 + n) 0 (map stringify l)
          = foldr (fun v n => text_bytes (stringify v) + 1 + n) 0 l) by lia.
  clear. induction l as [|v l IH]; [done|]. cbn [map foldr]. by rewrite IH.
Qed.

(** ** Well-formed fields *)

Lemma hex_simple n s : is_hex n s = true -> forallb simple_unit s = true /\ slen s = Z.of_nat n.
Proof.
  intros Hs. split; [|unfold slen; f_equal; by apply is_hex_length].
  unfold is_hex in Hs. bool_split. match goal with H : forallb _ s = true |- _ => revert H end.
  rewrite !forallb_forall. intros Hs c Hc. apply Hs in Hc. unfold is_lower_hex in Hc. unfold simple_unit.
  apply orb_true_iff in Hc as [Hc|Hc]; bool_split; rewrite !andb_true_iff, !negb_true_iff, !N.eqb_neq, N.leb_le, N.ltb_lt; lia.
Qed.
Lemma digest_bytes s : isDigestText s = true -> value_bytes (JStr s) <= 66.
Proof. intros [Hs Hn]%hex_simple. unfold value_bytes. cbn [stringify]. rewrite quote_simple_bytes by done. lia. Qed.
Lemma signature_bytes s : signature s = true -> value_bytes (JStr s) <= 130.
Proof. intros [Hs Hn]%hex_simple. unfold value_bytes. cbn [stringify]. rewrite quote_simple_bytes by done. lia. Qed.
Lemma identifier_bytes s : identifier s = true -> value_bytes (JStr s) <= 770.
Proof.
  unfold identifier. intros [_ Hs]%andb_true_iff. apply Z.leb_le in Hs. pose proof (string_bytes s). lia.
Qed.
Lemma payload_bytes s : (match decodePayload s with inr _ => true | inl _ => false end) = true ->
  value_bytes (JStr s) <= 5464.
Proof.
  destruct (decodePayload s) as [|bytes] eqn:G; [done|]. intros _. unfold decodePayload, throw_if in G.
  guard_step G. bool_split. unfold is_payload_text in *. bool_split. unfold value_bytes. cbn [stringify].
  rewrite quote_simple_bytes.
  - change MAX_PAYLOAD_TEXT with 5462 in *. lia.
  - match goal with H : forallb _ s = true |- _ => revert H end. rewrite !forallb_forall.
    intros Hs c Hc. apply Hs, bool_decide_eq_true in Hc as [n Hc]. unfold base64_value in Hc. unfold simple_unit.
    rewrite !andb_true_iff, !negb_true_iff, !N.eqb_neq, N.leb_le, N.ltb_lt.
    repeat case_match; bool_split; try done; lia.
Qed.

(** ** Every well-formed request fits *)

(** The bytes of a field, from the check it has passed. *)
Ltac sizes :=
  repeat match goal with
  | H : isDigestText ?s = true |- _ => apply digest_bytes in H
  | H : signature ?s = true |- _ => apply signature_bytes in H
  | H : identifier ?s = true |- _ => apply identifier_bytes in H
  | H : isTime ?z = true |- _ => apply number_bytes in H
  end.
Ltac fits :=
  etrans; [apply object_bytes; reflexivity|];
  cbn [fields_bytes foldr String.length fst snd app generation_fields].

Lemma optional_bytes s : (match s with Some d => isDigestText d | None => true end) = true ->
  value_bytes (optional_string s) <= 66.
Proof. destruct s as [d|]; intros Hd; [by apply digest_bytes|done]. Qed.

Ltac fits_more := cbn [fields_bytes foldr String.length fst snd app generation_fields].

Lemma ticket_bytes t : ticket_wf t = true -> value_bytes (ticket_value t) <= 5400.
Proof.
  destruct t as [[g u h p o] n id k r q c i b e s]. unfold ticket_wf, authorization_wf.
  cbn [t_authorization unit startHead ea_playerId ea_ownerPublicKey generation t_version ticketId rulesId
       queueId authorityKey seedCommitment issuedAt commitNotBefore releaseAt ticketSignature forallb].
  intros Hw. bool_split. subst n. unfold ticket_value, authorization_fields.
  assert (value_bytes (JNum 1) = 1) by done.
  destruct g as [g|]; sizes; fits; cbn [t_authorization unit startHead ea_playerId ea_ownerPublicKey generation t_version
    ticketId rulesId queueId authorityKey seedCommitment issuedAt commitNotBefore releaseAt ticketSignature];
    fits_more; lia.
Qed.

Lemma termination_bytes e : termination_wf e = true -> value_bytes (termination_value e) <= 5400.
Proof.
  destruct e as [[[g u h p o] n k id q r root reason a t] tid s]. unfold termination_wf, authorization_wf, termination_value.
  cbn [termination_statement ts_authorization unit startHead ea_playerId ea_ownerPublicKey generation ts_version
       ts_ticketId ts_rulesId ts_queueId ts_authorityKey ts_root ts_reason terminatedAt ts_retentionUntil terminationId
       termination_signature forallb].
  intros Hw. bool_split. subst n.
  match goal with H : match root with Some _ => _ | None => _ end = true |- _ => apply optional_bytes in H end.
  sizes. assert (value_bytes (JNum 1) = 1) by done.
  assert (value_bytes (JStr (termination_reason reason)) <= 20) by (by destruct reason).
  subst g. fits. match goal with |- context [value_bytes (obj ?fs)] =>
    pose proof (object_bytes fs eq_refl) as Hs end.
  cbn [fields_bytes foldr String.length fst snd app generation_fields] in Hs. lia.
Qed.

Lemma texts_bytes n l (p : jsstr -> bool) : 0 <= n ->
  (forall s, p s = true -> value_bytes (JStr s) <= n) -> forallb p l = true ->
  value_bytes (strings_value l) <= 2 + (n + 1) * Z.of_nat (List.length l).
Proof.
  intros Hn Hp Hl. etrans; [apply array_bytes|].
  enough (foldr (fun v k => value_bytes v + 1 + k) 0 (map JStr l) <= (n + 1) * Z.of_nat (List.length l)) by lia.
  induction l as [|s l IH]; [cbn; lia|]. cbn [forallb] in Hl. apply andb_true_iff in Hl as [Hs Hl].
  cbn [map foldr List.length]. apply Hp in Hs. specialize (IH Hl). lia.
Qed.
Lemma batch_bytes l : batch_wf l = true -> value_bytes (strings_value l) <= 12338.
Proof.
  unfold batch_wf. intros Hl. bool_split.
  match goal with H : forallb identifier l = true |- _ =>
    pose proof (texts_bytes 770 l identifier ltac:(lia) identifier_bytes H) end.
  match goal with H : (List.length l <=? MAX_INVENTORY_BATCH)%nat = true |- _ => apply Nat.leb_le in H end.
  unfold MAX_INVENTORY_BATCH in *. lia.
Qed.
Lemma chunks_bytes i l : 0 <= i -> i + Z.of_nat (List.length l) <= 2 -> chunks_wf i l = true ->
  value_bytes (JArr (map wire_chunk_value l)) <= 2 + 5700 * Z.of_nat (List.length l).
Proof.
  intros Hi Hn Hl. etrans; [apply array_bytes|].
  enough (foldr (fun v k => value_bytes v + 1 + k) 0 (map wire_chunk_value l) <= 5700 * Z.of_nat (List.length l)) by lia.
  revert i Hi Hn Hl. induction l as [|x l IH]; intros i Hi Hn Hl; [done|]. cbn [chunks_wf] in Hl. bool_split.
  cbn [map foldr List.length] in *.
  match goal with H : chunks_wf _ _ = true |- _ => apply IH in H; [|lia|lia] end.
  match goal with H : match decodePayload _ with inl _ => _ | inr _ => _ end = true |- _ => apply payload_bytes in H end.
  sizes. assert (value_bytes (JNum (wc_sequence x)) <= 16) by
    (apply number_bytes; unfold isTime; rewrite (proj2 (isSafeInteger_spec _)) by (unfold MAX_SAFE_INTEGER; lia);
     cbn [andb]; apply Z.leb_le; lia).
  assert (value_bytes (wire_chunk_value x) <= 5650) by (unfold wire_chunk_value; fits; lia). lia.
Qed.

Lemma commit_bytes x : command_wf (op_commit x) = true -> value_bytes (commit_value x) <= 1300.
Proof.
  cbn [command_wf]. intros Hw. bool_split.
  match goal with H : forallb isDigestText _ = true |- _ =>
    pose proof (texts_bytes 66 _ isDigestText ltac:(lia) digest_bytes H) end.
  match goal with H : (List.length _ =? 2)%nat = true |- _ => apply Nat.eqb_eq in H; rewrite H in * end.
  sizes. unfold commit_value. fits. lia.
Qed.
Lemma listing_bytes x : command_wf (op_market x) = true -> value_bytes (listing_value x) <= 2000.
Proof. cbn [command_wf]. intros Hw. bool_split. sizes. unfold listing_value. fits. lia. Qed.

Lemma command_bytes c : command_wf c = true -> value_bytes (command_value c) <= 13000.
Proof.
  intros Hw. unfold command_value.
  assert (value_bytes (JStr (js (op_name c))) <= 30) by (by destruct c).
  etrans; [apply object_bytes; destruct c; first [reflexivity |
    match goal with g : option Z |- _ => destruct g; reflexivity end]|].
  enough (fields_bytes (command_fields c) <= 12900) by
    (unfold fields_bytes in *; cbn [foldr String.length fst snd]; lia).
  destruct c; cbn [command_fields]; fits_more.
  - done.
  - cbn [command_wf] in Hw. apply andb_true_iff in Hw as [Ht%ticket_bytes He%termination_bytes]. lia.
  - cbn [command_wf] in Hw. apply andb_true_iff in Hw as [He%optional_bytes Hl%batch_bytes]. lia.
  - cbn [command_wf] in Hw. apply andb_true_iff in Hw as [He Hl%batch_bytes]. sizes. lia.
  - cbn [command_wf] in Hw. bool_split. sizes. lia.
  - cbn [command_wf] in Hw. bool_split.
    match goal with |- context [generation_fields ?g] => destruct g end; fits_more; sizes; lia.
  - apply commit_bytes in Hw. lia.
  - cbn [command_wf] in Hw. sizes. lia.
  - cbn [command_wf] in Hw. sizes. lia.
  - cbn [command_wf] in Hw. sizes. lia.
  - cbn [command_wf] in Hw. bool_split.
    match goal with H : (List.length _ =? 2)%nat = true |- _ => apply Nat.eqb_eq in H; rename H into Hn end.
    match goal with H : chunks_wf 0 _ = true |- _ => apply chunks_bytes in H; [|lia|lia] end. sizes. lia.
  - cbn [command_wf] in Hw. bool_split.
    match goal with H : (List.length _ =? 2)%nat = true |- _ => apply Nat.eqb_eq in H; rename H into Hn end.
    match goal with H : chunks_wf 0 _ = true |- _ => apply chunks_bytes in H; [|lia|lia] end. sizes. lia.
  - cbn [command_wf] in Hw. sizes. lia.
  - cbn [command_wf] in Hw. sizes. lia.
  - cbn [command_wf] in Hw. bool_split. sizes. lia.
  - apply listing_bytes in Hw. lia.
  - cbn [command_wf] in Hw. sizes.
    match goal with |- context [termination_reason ?r] =>
      assert (value_bytes (JStr (termination_reason r)) <= 20) by (by destruct r) end. lia.
  - cbn [command_wf] in Hw. bool_split. sizes. lia.
  - cbn [command_wf] in Hw. bool_split. sizes. lia.
Qed.

Lemma request_bytes r : request_wf r = true ->
  byteLength (stringify (request_value r)) <= MAX_ENCOUNTER_HTTP_BYTES.
Proof.
  intros Hw. etrans; [apply byteLength_bound|]. fold (value_bytes (request_value r)).
  unfold request_wf in Hw. bool_split.
  match goal with H : command_wf _ = true |- _ => apply command_bytes in H end.
  assert (value_bytes (JNum (hr_version r)) = 1) by (by rewrite H). sizes. unfold request_value. fits.
  unfold MAX_ENCOUNTER_HTTP_BYTES. lia.
Qed.

(** ** From the client's signature to the server's decoder *)

Lemma object_plain fields :
  keys_ok (map (fun kv => js (fst kv)) fields) = true ->
  forallb (fun kv => safe_plain (snd kv)) fields = true -> safe_plain (obj fields) = true.
Proof.
  intros Hk Hf. unfold safe_plain, obj in *. cbn [plain_with]. rewrite map_map. cbn [fst]. rewrite Hk. cbn [andb].
  clear Hk. induction fields as [|[k v] fields IH]; [done|]. cbn [map forallb fst snd] in *.
  apply andb_true_iff in Hf as [-> Hf]. by apply IH.
Qed.
Ltac plain_object := apply object_plain; [vm_compute; reflexivity|cbn [forallb snd app generation_fields]].

Lemma time_plain z : isTime z = true -> safe_plain (JNum z) = true.
Proof. by intros [? _]%andb_true_iff. Qed.
Ltac times := repeat match goal with
  | H : isTime ?z = true |- _ => apply time_plain in H
  | H : safe_plain ?v = true |- context [safe_plain ?v] => rewrite H
  end; change (safe_plain (JNum 1)) with true; change (forall s, safe_plain (JStr s) = true) with True.

Lemma string_plain s : safe_plain (JStr s) = true.
Proof. done. Qed.
Lemma texts_plain l : safe_plain (strings_value l) = true.
Proof. unfold strings_value, safe_plain. cbn. induction l as [|s l IH]; [done|]. cbn. exact IH. Qed.
Lemma optional_plain s : safe_plain (optional_string s) = true.
Proof. by destruct s. Qed.

Lemma ticket_plain t : ticket_wf t = true -> safe_plain (ticket_value t) = true.
Proof.
  destruct t as [[g u h p o] n id k r q c i b e s]. unfold ticket_wf, authorization_wf, ticket_value, authorization_fields.
  cbn [t_authorization unit startHead ea_playerId ea_ownerPublicKey generation t_version ticketId rulesId
       queueId authorityKey seedCommitment issuedAt commitNotBefore releaseAt ticketSignature forallb].
  intros Hw. bool_split. subst n. destruct g as [g|]; plain_object; rewrite ?string_plain; times; done.
Qed.
Lemma termination_plain e : termination_wf e = true -> safe_plain (termination_value e) = true.
Proof.
  destruct e as [[[g u h p o] n k id q r root reason a t] tid s]. unfold termination_wf, authorization_wf, termination_value.
  cbn [termination_statement ts_authorization unit startHead ea_playerId ea_ownerPublicKey generation ts_version
       ts_ticketId ts_rulesId ts_queueId ts_authorityKey ts_root ts_reason terminatedAt ts_retentionUntil terminationId
       termination_signature forallb].
  intros Hw. bool_split. subst n g. plain_object. rewrite ?string_plain, ?andb_true_r.
  plain_object. rewrite ?string_plain, ?optional_plain; times; done.
Qed.
Lemma chunks_plain i l : 0 <= i -> i + Z.of_nat (List.length l) <= 2 -> chunks_wf i l = true ->
  safe_plain (JArr (map wire_chunk_value l)) = true.
Proof.
  revert i. induction l as [|x l IH]; intros i Hi Hn Hl; [done|]. cbn [chunks_wf List.length] in *. bool_split.
  match goal with H : chunks_wf _ _ = true |- _ => apply IH in H; [|lia|lia]; rename H into Hr end.
  unfold safe_plain in *. cbn [map plain_with forallb] in *. rewrite Hr, andb_true_r.
  change (safe_plain (wire_chunk_value x) = true). unfold wire_chunk_value. plain_object. rewrite ?string_plain.
  rewrite time_plain; [done|]. unfold isTime. rewrite (proj2 (isSafeInteger_spec _)) by (unfold MAX_SAFE_INTEGER; lia).
  cbn [andb]. apply Z.leb_le. lia.
Qed.

Ltac plain_fields := bool_split; plain_object; rewrite ?string_plain, ?texts_plain, ?optional_plain; times; reflexivity.
Ltac plain_chunks :=
  bool_split; match goal with H : (List.length _ =? 2)%nat = true |- _ => apply Nat.eqb_eq in H end;
  match goal with H : chunks_wf 0 _ = true |- _ => apply chunks_plain in H; [|lia|lia] end;
  plain_object; rewrite ?string_plain;
  match goal with H : safe_plain (JArr _) = true |- _ => rewrite H end; reflexivity.

Lemma command_plain c : command_wf c = true -> safe_plain (command_value c) = true.
Proof.
  intros Hw. unfold command_value. destruct c; cbn [op_name command_fields]; cbn [command_wf] in Hw.
  - plain_fields.
  - apply andb_true_iff in Hw as [Ht%ticket_plain He%termination_plain].
    plain_object. rewrite string_plain, Ht, He. reflexivity.
  - plain_fields.
  - plain_fields.
  - plain_fields.
  - bool_split. match goal with |- context [generation_fields ?g] => destruct g end; plain_fields.
  - plain_object. rewrite string_plain. cbn [andb]. rewrite andb_true_r. unfold commit_value. plain_fields.
  - plain_fields.
  - plain_fields.
  - plain_fields.
  - plain_chunks.
  - plain_chunks.
  - plain_fields.
  - plain_fields.
  - plain_fields.
  - plain_object. rewrite string_plain. cbn [andb]. rewrite andb_true_r. unfold listing_value. plain_fields.
  - plain_fields.
  - plain_fields.
  - plain_fields.
Qed.
Lemma request_plain r : request_wf r = true -> safe_plain (request_value r) = true.
Proof.
  unfold request_wf. intros Hw. bool_split.
  match goal with H : command_wf _ = true |- _ => apply command_plain in H; rename H into Hc end.
  unfold request_value. plain_object. rewrite ?string_plain, Hc.
  match goal with H : hr_version r = 1 |- _ => rewrite H end. times. done.
Qed.

(** The whole body at once. *)
Definition readWholeJson `{JsHost} (bytes : list N) : throws jsval :=
  throw_if (MAX_ENCOUNTER_HTTP_BYTES <? Z.of_nat (List.length bytes)) (js "body_too_large") $
  match utf8_decode bytes with
  | None => inl (js "TypeError")
  | Some text => match json_parse text with None => inl (js "SyntaxError") | Some value => inr value end
  end.

Lemma readParts_spec parts size : 0 <= size ->
  readParts parts size =
  (if MAX_ENCOUNTER_HTTP_BYTES <? size + Z.of_nat (List.length (concat parts))
   then match parts with [] => inr [] | _ => inl (js "body_too_large") end else inr parts).
Proof.
  revert size. induction parts as [|part parts IH]; intros size Hs; cbn [readParts concat].
  - by case_match.
  - rewrite List.length_app, Nat2Z.inj_add, IH, Z.add_assoc by lia. unfold throw_if.
    destruct (MAX_ENCOUNTER_HTTP_BYTES <? size + Z.of_nat (List.length part)) eqn:E.
    + apply Z.ltb_lt in E. by rewrite (proj2 (Z.ltb_lt _ _)) by lia.
    + destruct parts as [|p ps]; cbn [concat List.length].
      * rewrite Z.add_0_r, E. done.
      * by case_match.
Qed.

Lemma whole_body `{JsHost} parts : readBoundedEncounterJson (Some parts) = readWholeJson (concat parts).
Proof.
  unfold readBoundedEncounterJson, readWholeJson, throw_if. rewrite readParts_spec by done.
  rewrite Z.add_0_l. case_match eqn:E; [|done]. destruct parts; [|done].
  cbn in E. done.
Qed.

(** Reading a body piece by piece is reading it whole: for every way to cut
    the bytes into pieces, the reader returns what parsing the joined bytes
    gives, and refuses a body exactly when it is longer than 16384 bytes. *)
Theorem bounded_reader_ignores_pieces `{JsHost} parts :
  readBoundedEncounterJson (Some parts) = readWholeJson (concat parts).
Proof. apply whole_body. Qed.

Lemma request_text_survives `{JsHost} v :
  safe_plain v = true -> text_ok v = true ->
  byteLength (stringify v) <= MAX_ENCOUNTER_HTTP_BYTES ->
  readWholeJson (utf8_encode (stringify v)) = inr v.
Proof.
  intros Hp Ht Hb. unfold readWholeJson, throw_if, byteLength in *.
  rewrite (proj2 (Z.ltb_ge _ _)) by done.
  assert (utf8_decode (utf8_encode (stringify v)) = Some (stringify v)) as ->.
  { pose proof (stringify_encodable v Ht) as [Hw Hu].
    destruct (stringify_head isSafeInteger v Hp) as (c & t & E & _).
    assert (c < 128)%N as Hc.
    { clear Hw Hu. destruct v; try done; cbn [stringify] in E.
      - by injection E as <-.
      - destruct b; by injection E as <-.
      - pose proof (num_to_string_ascii z) as Ha. rewrite E in Ha. unfold ascii_text in Ha. cbn [forallb] in Ha.
        by apply andb_true_iff in Ha as [Ha%N.ltb_lt _].
      - by injection E as <-.
      - by injection E as <-.
      - by injection E as <-. }
    rewrite E in *. by apply utf8_roundtrip. }
  by rewrite json_parse_stringify.
Qed.

Lemma validRequest_signature r s s' : signature s = true -> signature s' = true ->
  let with_s s := mkHttpRequest (hr_version r) (hr_unit r) (hr_ownerPublicKey r) (hr_issuedAt r) (hr_expiresAt r)
                    (command r) s in
  validRequest (request_value (with_s s)) = validRequest (request_value (with_s s')).
Proof.
  intros Hs Hs'. cbv zeta. unfold validRequest, request_value. fields.
  cbn [on_string hr_signature hr_version hr_unit hr_ownerPublicKey hr_issuedAt hr_expiresAt command].
  rewrite Hs, Hs'. reflexivity.
Qed.

(** A signed request arrives: whatever command [signEncounterRequest] accepts
    to sign, for an owner whose signer returns signatures, the printed request
    is at most 16384 bytes, and the server reads it back from any pieces of its
    bytes as the request that was signed, with the signature of the frame the
    server verifies. *)
Theorem signed_request_arrives `{JsHost} backend unit c owner now r parts :
  signEncounterRequest backend unit c owner now = inr r ->
  (forall d s, as_signDigest owner d = inr s -> signature s = true) ->
  text_ok (request_value r) = true ->
  concat parts = utf8_encode (stringify (request_value r)) ->
  Z.of_nat (List.length (concat parts)) <= MAX_ENCOUNTER_HTTP_BYTES /\
  exists v digest, readBoundedEncounterJson (Some parts) = inr v /\ decodeEncounterRequest v = Some r /\
    command r = c /\ hash backend (encounterRequestFrame r) = inr digest /\
    as_signDigest owner digest = inr (hr_signature r).
Proof.
  intros E Hsig Ht Hp. unfold signEncounterRequest, throw_if in E. cbv zeta in E.
  guard_step E. apply negb_false_iff in Hg.
  set (blank := mkHttpRequest 1 unit (as_publicKey owner) now (now + 60000) c no_signature) in *.
  destruct (hash backend (encounterRequestFrame blank)) as [|digest] eqn:Eh; cbn [throw_bind] in E; [done|].
  destruct (as_signDigest owner digest) as [|s] eqn:Es; cbn [throw_bind] in E; [done|].
  apply (inj inr) in E as <-. apply Hsig in Es as Hs.
  set (r := mkHttpRequest 1 unit (as_publicKey owner) now (now + 60000) c s) in *.
  assert (Hv : validRequest (request_value r) = true)
    by (etrans; [exact (validRequest_signature blank s no_signature Hs eq_refl)|exact Hg]).
  assert (Hd : decodeEncounterRequest (request_value r) = Some r)
    by (unfold decodeEncounterRequest; rewrite Hv; apply read_request_value).
  apply decoded_wf in Hd as Hw. pose proof (request_bytes r Hw) as Hb. rewrite Hp. split; [exact Hb|].
  exists (request_value r), digest. rewrite whole_body, Hp.
  split; [by apply request_text_survives; [apply request_plain|..]|].
  split; [exact Hd|]. split; [reflexivity|]. split; [exact Eh|exact Es].
Qed.

(** ** A concrete request *)

Definition or_request (m : throws EncounterHttpRequest) : EncounterHttpRequest :=
  match m with inr r => r | inl _ => mkHttpRequest 0 [] [] 0 0 op_admissions [] end.
Definition toy_upload : EncounterCommand :=
  op_settle (js "ticket-1")
    [mkWireChunk 0 (toy_key "chunk-0") (encodePayload [1; 2; 255]%N);
     mkWireChunk 1 (toy_key "chunk-1") (encodePayload [0]%N)].
Definition toy_request : EncounterHttpRequest :=
  or_request (signEncounterRequest toy_backend (js "unit") toy_upload (toy_audit_signer (toy_key "alice")) 1000).

Lemma request_frame_binds_witness :
  decodeEncounterRequest (request_value toy_request) = Some toy_request /\
  unsigned_part toy_request = unsigned_part toy_request.
Proof.
  assert (Hd : decodeEncounterRequest (request_value toy_request) = Some toy_request)
    by (vm_compute; reflexivity).
  split; [exact Hd|]. exact (request_frame_binds _ _ _ _ Hd Hd eq_refl).
Defined.

Lemma signed_request_arrives_witness :
  let body := utf8_encode (stringify (request_value toy_request)) in
  exists v digest,
    readBoundedEncounterJson (H := code_unit_host) (Some [take 10 body; []; drop 10 body]) = inr v /\
    decodeEncounterRequest v = Some toy_request /\ command toy_request = toy_upload /\
    hash toy_backend (encounterRequestFrame toy_request) = inr digest /\
    as_signDigest (toy_audit_signer (toy_key "alice")) digest = inr (hr_signature toy_request).
Proof.
  refine (proj2 (signed_request_arrives (H := code_unit_host) toy_backend (js "unit") toy_upload
    (toy_audit_signer (toy_key "alice")) 1000 toy_request _ _ _ _ _)).
  - vm_compute. reflexivity.
  - intros d s E. apply (inj inr) in E as <-. cbn [signDigest toy_signer]. unfold signature, is_hex.
    rewrite List.length_app, !toy_length, forallb_app, !toy_hex. reflexivity.
  - vm_compute. reflexivity.
  - cbn [concat]. rewrite app_nil_r. apply take_drop.
Defined.
