(* ===== verification/EncounterBundle.v ===== *)
(** * Archive bundles and generation seals

    The rest of [game/encounter/archive.ts] and [generation.ts]: the text an
    archive stores for a settled encounter, its restoration and verification,
    and the verification of the seal that closes a generation.

    [JSON.parse] gives a value of unknown shape that the code casts to a bundle;
    [read_bundle] is that cast, and a text that no [encodeArchiveBundle] printed
    fails it with a [TypeError]. *)
From S2P Require Import Prelude Json Contracts Kernel Journal Utf8 CryptoBackend EncounterWire.
From S2P Require Import EncounterHttp OwnerAuth OwnerFacts EncounterWireFacts EncounterHttpFacts.
Set Default Goal Selector "!".

Record EncounterArchiveBundle := mkBundle {
  b_ticket : EncounterTicket;
  b_commitment : EncounterCommit;
  b_reveal : EncounterReveal;
  b_receipt : EncounterReceipt;
  b_chunks : list AuditPayloadChunk;
}.

(** ** Objects *)

Definition reveal_value (r : EncounterReveal) : jsval :=
  obj [("ticketId", JStr (rv_ticketId r)); ("root", JStr (rv_root r)); ("seed", JStr (rv_seed r));
       ("committedAt", JNum (rv_committedAt r)); ("releasedAt", JNum (releasedAt r));
       ("signature", JStr (rv_signature r))]%string.
Definition read_reveal (v : jsval) : option EncounterReveal :=
  id ← get_str v "ticketId"; r ← get_str v "root"; s ← get_str v "seed";
  c ← get_num v "committedAt"; a ← get_num v "releasedAt"; g ← get_str v "signature";
  Some (mkReveal id r s c a g).

Definition encounter_item_value (i : EncounterItem) : jsval :=
  obj [("assetId", JStr (ei_assetId i)); ("ownerId", JStr (ei_ownerId i));
       ("itemType", JStr (ei_itemType i)); ("rarity", JStr (rarity_string (ei_rarity i)));
       ("power", JNum (ei_power i)); ("sourceEnemyId", JStr (ei_sourceEnemyId i));
       ("killTick", JNum (ei_killTick i)); ("dropIndex", JNum (ei_dropIndex i))]%string.
Definition read_rarity (s : jsstr) : option ItemRarity :=
  List.find (fun r => str_eqb (rarity_string r) s) [common; magic; rare; legendary].
Definition read_item (v : jsval) : option EncounterItem :=
  a ← get_str v "assetId"; o ← get_str v "ownerId"; t ← get_str v "itemType";
  r ← get_str v "rarity"; r ← read_rarity r; p ← get_num v "power"; e ← get_str v "sourceEnemyId";
  k ← get_num v "killTick"; d ← get_num v "dropIndex";
  Some (mkEncounterItem a o t r p e k d).

Definition receipt_value (r : EncounterReceipt) : jsval :=
  let s := receipt_statement r in
  obj [("statement",
        obj [("version", JNum (rs_version s)); ("authorityKey", JStr (rs_authorityKey s));
             ("ticketId", JStr (rs_ticketId s)); ("unit", JStr (rs_unit s));
             ("rulesId", JStr (rs_rulesId s)); ("playerId", JStr (rs_playerId s));
             ("ownerPublicKey", JStr (rs_ownerPublicKey s)); ("root", JStr (rs_root s));
             ("finalStateDigest", JStr (finalStateDigest s));
             ("items", JArr (map encounter_item_value (items s)));
             ("settledAt", JNum (settledAt s)); ("retentionUntil", JNum (rs_retentionUntil s))]);
       ("receiptId", JStr (receiptId r)); ("signature", JStr (receipt_signature r))]%string.
Definition read_receipt_statement (w : jsval) : option EncounterReceiptStatement :=
  n ← get_num w "version"; k ← get_str w "authorityKey"; id ← get_str w "ticketId";
  u ← get_str w "unit"; r ← get_str w "rulesId"; p ← get_str w "playerId";
  o ← get_str w "ownerPublicKey"; root ← get_str w "root"; d ← get_str w "finalStateDigest";
  l ← as_array (field w "items"); l ← mapM read_item l; a ← get_num w "settledAt";
  t ← get_num w "retentionUntil";
  Some (mkReceiptStatement n k id u r p o root d l a t).
Definition read_receipt (v : jsval) : option EncounterReceipt :=
  s ← read_receipt_statement (field v "statement");
  id ← get_str v "receiptId"; g ← get_str v "signature";
  Some (mkEncounterReceipt s id g).

(** ** The stored text *)

Definition bundle_value (b : EncounterArchiveBundle) (chunks : list WireChunk) : jsval :=
  obj [("ticket", ticket_value (b_ticket b)); ("commitment", commit_value (b_commitment b));
       ("reveal", reveal_value (b_reveal b)); ("receipt", receipt_value (b_receipt b));
       ("chunks", JArr (map wire_chunk_value chunks))]%string.
Definition encodeArchiveBundle (b : EncounterArchiveBundle) : throws jsstr :=
  let! chunks := wireChunks (b_chunks b) in
  let text := stringify (bundle_value b chunks) in
  throw_if (MAX_ARCHIVE_BUNDLE_BYTES <? byteLength text) (js "archive bundle capacity exhausted") $
  inr text.

Section Bundle.
Context `{JsHost}.

Definition read_bundle (v : jsval) : throws EncounterArchiveBundle :=
  match read_chunks v with
  | None => inl (js "TypeError")
  | Some xs =>
      let! chunks := unwireChunks xs in
      match read_ticket (field v "ticket"), read_commit (field v "commitment"),
            read_reveal (field v "reveal"), read_receipt (field v "receipt") with
      | Some t, Some c, Some r, Some rc => inr (mkBundle t c r rc chunks)
      | _, _, _, _ => inl (js "TypeError")
      end
  end.
Definition decodeArchiveBundle (text : jsstr) : throws EncounterArchiveBundle :=
  throw_if (MAX_ARCHIVE_BUNDLE_BYTES <? byteLength text) (js "archive bundle capacity exhausted") $
  match json_parse text with
  | None => inl (js "SyntaxError")
  | Some v => read_bundle v
  end.

(** ** Verification *)

Context (cryptoBackend : AuditCryptoBackend).

(** The evidence of a bundle: its certificates belong together. *)
Definition evidence_binds (b : EncounterArchiveBundle) : bool :=
  let ticket := b_ticket b in
  let a := t_authorization ticket in
  let s := receipt_statement (b_receipt b) in
  str_eqb (c_ticketId (b_commitment b)) (ticketId ticket) && str_eqb (rs_unit s) (unit a) &&
  str_eqb (rs_ownerPublicKey s) (ea_ownerPublicKey a) && str_eqb (rs_playerId s) (ea_playerId a).
(** [!a || !b || ... || !e] where each conjunct may be a promise. *)
Definition evidence_verifies (b : EncounterArchiveBundle) (authorityKey : jsstr) : throws bool :=
  if negb (verifyEncounterTicket cryptoBackend (b_ticket b) authorityKey) ||
     negb (verifyEncounterReceipt cryptoBackend (b_receipt b) authorityKey)
  then inr false
  else
    let! revealed := verifyEncounterReveal cryptoBackend (b_ticket b) (b_commitment b) (b_reveal b) in
    if negb revealed then inr false
    else verify_text cryptoBackend (ea_ownerPublicKey (t_authorization (b_ticket b)))
           (commitFrame (b_commitment b)) (c_ownerSignature (b_commitment b)).

Definition custody_binds (c : ArchiveCustodyStatement) (b : EncounterArchiveBundle) (text : jsstr)
    : bool :=
  let ticket := b_ticket b in
  let s := receipt_statement (b_receipt b) in
  str_eqb (cs_ticketId c) (ticketId ticket) && str_eqb (cs_unit c) (unit (t_authorization ticket)) &&
  str_eqb (cs_queueId c) (queueId ticket) && str_eqb (cs_receiptId c) (receiptId (b_receipt b)) &&
  str_eqb (cs_root c) (c_root (b_commitment b)) && str_eqb (rs_root s) (cs_root c) &&
  str_eqb (rs_ticketId s) (ticketId ticket) && (rs_retentionUntil s <=? minRetainUntil c) &&
  (storedBytes c =? byteLength text).

Definition verifyArchivedBundle (custody : ArchiveCustody) (b : EncounterArchiveBundle)
    (authorityKey archiveKey : jsstr) : bool :=
  let c := custody_statement custody in
  or_false (
    let! text := encodeArchiveBundle b in
    if negb (verifyArchiveCustody cryptoBackend custody archiveKey) ||
       negb (str_eqb (cs_authorityKey c) authorityKey) then inr false
    else
      let! valid := evidence_verifies b authorityKey in
      if negb valid || negb (evidence_binds b) || negb (custody_binds c b text) then inr false
      else
        let! digest := hash cryptoBackend text in
        if negb (str_eqb (bundleDigest c) digest) ||
           negb (str_eqb (stringify (strings_value (cs_chunkDigests c)))
                   (stringify (strings_value (chunkDigests (b_commitment b))))) then inr false
        else
          let! _ := decodeEncounterLog cryptoBackend (b_ticket b) (b_commitment b) (b_chunks b) in
          inr true).

(** ** Generation seals *)

Record EncounterGenerationSeal := mkSeal {
  seal_statement : GenerationSealStatement;
  sealId : jsstr;
  seal_signature : jsstr;
}.
Definition seal_value (s : EncounterGenerationSeal) : jsval :=
  let w := seal_statement s in
  obj [("statement",
        obj [("version", JNum (gs_version w)); ("authorityKey", JStr (gs_authorityKey w));
             ("unit", JStr (gs_unit w)); ("generation", JNum (gs_generation w));
             ("nextGeneration", JNum (nextGeneration w));
             ("previousSealId", optional_string (previousSealId w));
             ("originsDigest", JStr (originsDigest w)); ("ticketCount", JNum (ticketCount w));
             ("receiptCount", JNum (receiptCount w)); ("closedAt", JNum (gs_closedAt w))]);
       ("sealId", JStr (sealId s)); ("signature", JStr (seal_signature s))]%string.
Definition read_seal (v : jsval) : option EncounterGenerationSeal :=
  let w := field v "statement" in
  n ← get_num w "version"; k ← get_str w "authorityKey"; u ← get_str w "unit";
  g ← get_num w "generation"; m ← get_num w "nextGeneration"; d ← get_str w "originsDigest";
  t ← get_num w "ticketCount"; r ← get_num w "receiptCount"; c ← get_num w "closedAt";
  id ← get_str v "sealId"; s ← get_str v "signature";
  Some (mkSeal (mkSealStatement n k u g m (as_string (field w "previousSealId")) d t r c) id s).

Definition SEAL_KEYS : list string :=
  ["version"; "authorityKey"; "unit"; "generation"; "nextGeneration"; "previousSealId";
   "originsDigest"; "ticketCount"; "receiptCount"; "closedAt"]%string.
Definition seal_numbers_ok (s : jsval) : bool :=
  match field s "generation", field s "nextGeneration", field s "ticketCount", field s "receiptCount" with
  | JNum g, JNum n, JNum t, JNum r =>
      isTime g && isTime n && (n =? g + 1) && Bool.eqb (g =? 0) (is_null (field s "previousSealId")) &&
      isTime t && (t <=? 1024) && isTime r && (r <=? t)
  | _, _, _, _ => false
  end.
Definition validGenerationSeal (value : jsval) (trustedKey : jsstr) : bool :=
  exactKeys value ["statement"; "sealId"; "signature"]%string &&
  on_string isDigestText (field value "sealId") && on_string signature (field value "signature") &&
  (byteLength (stringify value) <=? 2048) &&
  let s := field value "statement" in
  exactKeys s SEAL_KEYS && is_num 1 (field s "version") &&
  on_string (str_eqb trustedKey) (field s "authorityKey") && isDigestText trustedKey &&
  on_string identifier (field s "unit") &&
  (is_null (field s "previousSealId") || on_string isDigestText (field s "previousSealId")) &&
  on_string isDigestText (field s "originsDigest") && seal_numbers_ok s && val_time (field s "closedAt").
Definition verifyGenerationSeal (value : jsval) (trustedKey : jsstr) : bool :=
  or_false (
    if negb (validGenerationSeal value trustedKey) then inr false
    else
      match read_seal value with
      | None => inl (js "TypeError")
      | Some seal =>
          let! id := hash cryptoBackend (generationSealFrame (seal_statement seal)) in
          if negb (str_eqb (sealId seal) id) then inr false
          else cb_verify cryptoBackend trustedKey (sealId seal) (seal_signature seal)
      end).
End Bundle.

(** * Facts about archive bundles and generation seals

    A bundle is restored from its text exactly, a verified bundle is the one its
    custody certificate was signed for, and a verified seal has the numbers its
    chain needs. *)

(** ** The cast of what was printed *)

Lemma read_reveal_value r : read_reveal (reveal_value r) = Some r.
Proof. destruct r. unfold read_reveal, reveal_value, get_str, get_num. fields. done. Qed.
Lemma read_rarity_string r : read_rarity (rarity_string r) = Some r.
Proof. by destruct r. Qed.
Lemma read_item_value i : read_item (encounter_item_value i) = Some i.
Proof.
  destruct i. unfold read_item, encounter_item_value, get_str, get_num. fields.
  cbn [mbind option_bind as_string]. rewrite read_rarity_string. done.
Qed.
Lemma read_items_value l : mapM read_item (map encounter_item_value l) = Some l.
Proof.
  induction l as [|i l IH]; [done|]. cbn [map]. by rewrite mapM_step, read_item_value, IH.
Qed.
Lemma read_receipt_value r : read_receipt (receipt_value r) = Some r.
Proof.
  destruct r as [s id g]. unfold read_receipt, receipt_value, get_str. fields.
  destruct s as [n k i u r p o root d l a t]. unfold read_receipt_statement, get_str, get_num. fields.
  cbn [mbind option_bind as_string as_array receipt_statement items]. rewrite read_items_value. done.
Qed.

Lemma unwire_wire chunks xs :
  wireChunks chunks = inr xs -> Forall (fun c => bytes_ok (payload c)) chunks -> unwireChunks xs = inr chunks.
Proof.
  unfold wireChunks, throw_if. intros E Hb. guard_step E. apply (inj inr) in E as <-.
  apply orb_false_iff in Hg as [_ Hg].
  induction chunks as [|[n d p] chunks IH]; [done|]. cbn [existsb] in Hg.
  apply orb_false_iff in Hg as [Hc Hg]. apply Forall_cons in Hb as [Hp Hb].
  cbn [map unwireChunks]. unfold unwireChunk. cbn [wc_payload wc_sequence wc_checkpointDigest payload] in *.
  unfold payloadRefused in Hc. cbn [payload] in Hc. bool_split.
  rewrite (proj2 (payload_codec (encodePayload p) p)) by (split; [done|]; split; [done|lia]).
  cbn [throw_bind]. by rewrite IH.
Qed.

(** Bundles of numbers that print exactly and of bytes: all that the ledger and
    a client can hold. *)
Definition archivable (b : EncounterArchiveBundle) : Prop :=
  Forall (fun c => bytes_ok (payload c)) (b_chunks b) /\
  forall xs, wireChunks (b_chunks b) = inr xs -> safe_plain (bundle_value b xs) = true.

Lemma bundle_restored `{JsHost} b text :
  archivable b -> encodeArchiveBundle b = inr text ->
  decodeArchiveBundle text = inr b /\ byteLength text <= MAX_ARCHIVE_BUNDLE_BYTES.
Proof.
  intros [Hb Hp] E. unfold encodeArchiveBundle, throw_if in E.
  destruct (wireChunks (b_chunks b)) as [|xs] eqn:Ex; cbn [throw_bind] in E; [done|].
  guard_step E. apply (inj inr) in E as <-. unfold decodeArchiveBundle, throw_if. rewrite Hg.
  apply Z.ltb_ge in Hg. split; [|done].
  rewrite json_parse_stringify by (by apply Hp). unfold read_bundle, bundle_value, read_chunks. fields.
  cbn [as_array mbind option_bind]. rewrite read_chunks_value, (unwire_wire _ _ Ex Hb). cbn [throw_bind].
  rewrite read_ticket_value, read_commit_value, read_reveal_value, read_receipt_value. by destruct b.
Qed.

(** C32: an archived bundle is restored exactly: decoding the text that was
    stored gives back the ticket, the commitment, the reveal, the receipt with
    its items and the payload bytes, within the limit of 11000 bytes. *)
Theorem archive_bundle_roundtrip `{JsHost} b text :
  archivable b -> encodeArchiveBundle b = inr text ->
  decodeArchiveBundle text = inr b /\ byteLength text <= MAX_ARCHIVE_BUNDLE_BYTES.
Proof. apply bundle_restored. Qed.

(** ** Verified seals *)

(** A verified generation seal is well formed: it was signed by the trusted
    key over its own statement, it closes exactly one generation of a named
    unit, is chained to a previous seal exactly when that is not the first, and
    counts at most 1024 tickets and no more receipts than tickets. *)
Theorem verified_seal_is_chained `{JsHost} backend value trustedKey :
  verifyGenerationSeal backend value trustedKey = true ->
  exists seal, read_seal value = Some seal /\
    let s := seal_statement seal in
    gs_version s = 1 /\ gs_authorityKey s = trustedKey /\ identifier (gs_unit s) = true /\
    nextGeneration s = gs_generation s + 1 /\ isTime (nextGeneration s) = true /\
    (gs_generation s = 0 <-> previousSealId s = None) /\
    0 <= receiptCount s <= ticketCount s /\ ticketCount s <= 1024 /\
    hash backend (generationSealFrame s) = inr (sealId seal) /\
    cb_verify backend trustedKey (sealId seal) (seal_signature seal) = inr true.
Proof.
  unfold verifyGenerationSeal, or_false. destruct (validGenerationSeal value trustedKey) eqn:Hv; [|done].
  cbn [negb]. destruct (read_seal value) as [seal|] eqn:Er; [|done]. intros Hok. exists seal. split; [done|].
  destruct (hash backend _) as [|id] eqn:Eh; cbn [throw_bind] in Hok; [done|].
  destruct (str_eqb (sealId seal) id) eqn:Ei; cbn [negb] in Hok; [|done]. apply str_eqb_eq in Ei as <-.
  destruct (cb_verify backend trustedKey (sealId seal) (seal_signature seal)) as [|[|]] eqn:Es; try done.
  clear Hok. unfold validGenerationSeal in Hv. cbv zeta in Hv. unfold seal_numbers_ok in Hv.
  set (w := field value "statement") in *. bool_split.
  destruct (field w "generation") eqn:Eg; try done. destruct (field w "nextGeneration") eqn:En; try done.
  destruct (field w "ticketCount") eqn:Et; try done. destruct (field w "receiptCount") eqn:Erc; try done.
  shapes. unfold read_seal in Er. fold w in Er.
  assert (Hp : exists p, as_string (field w "previousSealId") = p /\
            (is_null (field w "previousSealId") = true <-> p = None)).
  { match goal with H : is_null _ || _ = true |- _ => rename H into Hn end.
    apply orb_true_iff in Hn as [Hn|(d & -> & _)%on_string_inv]; [|by exists (Some d)].
    exists None. by destruct (field w "previousSealId"). }
  destruct Hp as (p & Ep & Hp). rewrite Ep in Er. revert Er. reads. intros [= <-].
  cbn [seal_statement gs_version gs_authorityKey gs_unit gs_generation nextGeneration previousSealId ticketCount
       receiptCount sealId seal_signature] in *.
  repeat match goal with H : isTime ?z = true |- _ =>
    assert (0 <= z) by (unfold isTime in H; bool_split; lia); revert H end. intros.
  match goal with H : Bool.eqb _ _ = true |- _ => apply Bool.eqb_prop in H; rename H into Hz end.
  match goal with H : str_eqb trustedKey _ = true |- _ => apply str_eqb_eq in H end.
  split_and!; try done; try lia.
  - rewrite <- Hp, <- Hz, Z.eqb_eq. done.
Qed.
