(* ===== verification/InventoryCheckpoint.v ===== *)
(** * Inventory checkpoints

    [game/encounter/inventory-checkpoint.ts]: the signed head of an owner's
    receipt index, the digests that chain it, the pages of the index and their
    verification by the client. *)
From S2P Require Import Prelude Json Contracts Kernel Journal Utf8 CryptoBackend EncounterWire.
From S2P Require Import EncounterHttp EncounterBundle.
Set Default Goal Selector "!".

Definition INVENTORY_PAGE_SIZE : Z := 3.
Definition MAX_INVENTORY_RECEIPTS : Z := MAX_SAFE_INTEGER.

Record InventoryReceiptRecord := mkRecord {
  ir_ticket : EncounterTicket;
  ir_receipt : EncounterReceipt;
  ir_admittedAssets : list jsstr;
}.

Inductive InventoryOperation := append | retire_empty.
#[export] Instance InventoryOperation_eq_dec : EqDecision InventoryOperation.
Proof. solve_decision. Defined.
(** [{ version: 1 } | { version: 2; operation; retiredEmptyCount }]. *)
Inductive InventoryVersion :=
| version_1
| version_2 (operation : InventoryOperation) (retiredEmptyCount : Z).

Record InventoryCheckpointStatement := mkInventoryStatement {
  is_version : InventoryVersion;
  is_authorityKey : jsstr;
  is_unit : jsstr;
  is_ownerPublicKey : jsstr;
  is_rulesId : jsstr;
  is_revision : Z;
  is_previousId : option jsstr;
  batchDigest : jsstr;
  is_root : jsstr;
  is_receiptCount : Z;
  itemCount : Z;
  createdAt : Z;
}.
Record InventoryCheckpoint := mkInventoryCheckpoint {
  cp_statement : InventoryCheckpointStatement;
  checkpointId : jsstr;
  cp_signature : jsstr;
}.

(** The server's records are [InventoryReceiptRecord]s; the client's are of
    unknown shape until they are verified one by one. *)
Record InventoryPage (R : Type) := mkPage {
  page_checkpointId : jsstr;
  page_after : Z;
  page_next : option Z;
  page_records : list R;
  page_positions : option (list Z);
  page_emptyRanges : option (list (Z * Z));
}.
Arguments mkPage {R}.
Arguments page_checkpointId {R}.
Arguments page_after {R}.
Arguments page_next {R}.
Arguments page_records {R}.
Arguments page_positions {R}.
Arguments page_emptyRanges {R}.

Definition statementRetired (s : InventoryCheckpointStatement) : Z :=
  match is_version s with version_2 _ n => n | version_1 => 0 end.
Definition inventoryRetiredCount (cp : option InventoryCheckpoint) : Z :=
  match cp with Some c => statementRetired (cp_statement c) | None => 0 end.
Definition is_version_2 (cp : option InventoryCheckpoint) : bool :=
  match cp with
  | Some c => match is_version (cp_statement c) with version_2 _ _ => true | version_1 => false end
  | None => false
  end.

(** ** Objects *)

Definition operation_name (op : InventoryOperation) : string :=
  match op with append => "append" | retire_empty => "retire-empty" end.
Definition version_number (v : InventoryVersion) : Z :=
  match v with version_1 => 1 | version_2 _ _ => 2 end.
Definition version_fields (v : InventoryVersion) : list (string * jsval) :=
  match v with
  | version_1 => []
  | version_2 op n => [("operation", JStr (js (operation_name op))); ("retiredEmptyCount", JNum n)]
  end%string.
Definition inventory_statement_value (s : InventoryCheckpointStatement) : jsval :=
  obj ([("version", JNum (version_number (is_version s)))]%string ++ version_fields (is_version s) ++
    [("authorityKey", JStr (is_authorityKey s)); ("unit", JStr (is_unit s));
     ("ownerPublicKey", JStr (is_ownerPublicKey s)); ("rulesId", JStr (is_rulesId s));
     ("revision", JNum (is_revision s)); ("previousId", optional_string (is_previousId s));
     ("batchDigest", JStr (batchDigest s)); ("root", JStr (is_root s));
     ("receiptCount", JNum (is_receiptCount s)); ("itemCount", JNum (itemCount s));
     ("createdAt", JNum (createdAt s))]%string).
Definition checkpoint_object (cp : InventoryCheckpoint) : jsval :=
  obj [("statement", inventory_statement_value (cp_statement cp));
       ("checkpointId", JStr (checkpointId cp)); ("signature", JStr (cp_signature cp))]%string.

(** The casts; a field of another type fails them. *)
Definition read_optional (v : jsval) : option (option jsstr) :=
  match v with JNull => Some None | JStr s => Some (Some s) | _ => None end.
Definition read_operation (v : jsval) : option InventoryOperation :=
  if is_text "append" v then Some append
  else if is_text "retire-empty" v then Some retire_empty else None.
Definition read_version (s : jsval) : option InventoryVersion :=
  match field s "version" with
  | JNum 1 => Some version_1
  | JNum 2 => op ← read_operation (field s "operation"); n ← get_num s "retiredEmptyCount";
              Some (version_2 op n)
  | _ => None
  end.
Definition read_inventory_statement (s : jsval) : option InventoryCheckpointStatement :=
  v ← read_version s; k ← get_str s "authorityKey"; u ← get_str s "unit";
  o ← get_str s "ownerPublicKey"; r ← get_str s "rulesId"; n ← get_num s "revision";
  p ← read_optional (field s "previousId"); b ← get_str s "batchDigest"; root ← get_str s "root";
  c ← get_num s "receiptCount"; i ← get_num s "itemCount"; t ← get_num s "createdAt";
  Some (mkInventoryStatement v k u o r n p b root c i t).
Definition read_checkpoint (v : jsval) : option InventoryCheckpoint :=
  s ← read_inventory_statement (field v "statement"); id ← get_str v "checkpointId";
  g ← get_str v "signature";
  Some (mkInventoryCheckpoint s id g).

(** ** Validity *)

Definition CHECKPOINT_KEYS : list string :=
  ["version"; "authorityKey"; "unit"; "ownerPublicKey"; "rulesId"; "revision"; "previousId";
   "batchDigest"; "root"; "receiptCount"; "itemCount"; "createdAt"]%string.
Definition validCheckpointFields (cp : InventoryCheckpoint) : bool :=
  let s := cp_statement cp in
  let retired := statementRetired s in
  isDigestText (checkpointId cp) && signature (cp_signature cp) &&
  match is_version s with version_1 => true | version_2 _ n => isTime n && (0 <? n) end &&
  str_eqb (is_rulesId s) ENCOUNTER_RULES && identifier (is_unit s) &&
  isDigestText (is_authorityKey s) && isDigestText (is_ownerPublicKey s) &&
  isTime (is_revision s) && (0 <? is_revision s) &&
  match is_previousId s with Some p => isDigestText p | None => true end &&
  Bool.eqb (is_revision s =? 1) (match is_previousId s with None => true | Some _ => false end) &&
  isDigestText (batchDigest s) && isDigestText (is_root s) &&
  isTime (is_receiptCount s) && (0 <? is_receiptCount s) &&
  (is_receiptCount s <=? MAX_INVENTORY_RECEIPTS) &&
  isTime (itemCount s) && (itemCount s <=? is_receiptCount s) && isTime retired &&
  (retired <=? is_receiptCount s - itemCount s) &&
  (Z.max 0 (is_revision s - is_receiptCount s) <=? retired) && isTime (createdAt s).
Definition validInventoryCheckpoint (value : jsval) : bool :=
  let s := field value "statement" in
  exactKeys value ["statement"; "checkpointId"; "signature"]%string &&
  (exactKeys s CHECKPOINT_KEYS && is_num 1 (field s "version") ||
   exactKeys s (CHECKPOINT_KEYS ++ ["operation"; "retiredEmptyCount"]%string) &&
   is_num 2 (field s "version")) &&
  match read_checkpoint value with
  | Some cp => validCheckpointFields cp
  | None => false
  end && (byteLength (stringify value) <=? 2048).

Definition inventoryCheckpointFrame (s : InventoryCheckpointStatement) : jsstr :=
  let legacy := frame "encounter-inventory-checkpoint-v1"
    [JNum 1; JStr (is_authorityKey s); JStr (is_unit s); JStr (is_ownerPublicKey s);
     JStr (is_rulesId s); JNum (is_revision s); optional_string (is_previousId s);
     JStr (batchDigest s); JStr (is_root s); JNum (is_receiptCount s); JNum (itemCount s);
     JNum (createdAt s)] in
  match is_version s with
  | version_1 => legacy
  | version_2 op n =>
      frame "encounter-inventory-checkpoint-v2" [JStr (js (operation_name op)); JNum n; JStr legacy]
  end.

(** The client's check of the records and ranges of a page: the ordinals they
    cover are consecutive from [after], and the page is full unless it is the
    last. *)
Definition range_order (a b : Z * Z) : bool := fst a <=? fst b.
Fixpoint covers (cursor : Z) (ranges : list (Z * Z)) : option Z :=
  match ranges with
  | [] => Some cursor
  | (first, last) :: ranges' => if first =? cursor + 1 then covers last ranges' else None
  end.
Fixpoint rangesRefused (ranges : list (Z * Z)) (receiptCount limit retired : Z) : bool :=
  match ranges with
  | [] => false
  | (first, last) :: ranges' =>
      let retired := retired + (last - first + 1) in
      negb (isTime first) || negb (isTime last) || (last <? first) || (receiptCount <? last) ||
      negb (isTime retired) || (limit <? retired) || rangesRefused ranges' receiptCount limit retired
  end.
Definition next_ok (next : option Z) (cursor receiptCount : Z) : bool :=
  bool_decide (next = if cursor <? receiptCount then Some cursor else None).

Definition validSparsePage {R} (p : InventoryPage R) (cp : InventoryCheckpoint) (after : Z) : bool :=
  let count := is_receiptCount (cp_statement cp) in
  match page_positions p, page_emptyRanges p with
  | Some positions, Some empty =>
      (length positions =? length (page_records p))%nat && forallb isTime positions &&
      (Z.of_nat (length empty) <=? INVENTORY_PAGE_SIZE) &&
      negb (rangesRefused empty count (statementRetired (cp_statement cp)) 0) &&
      let ranges := empty ++ map (fun n => (n, n)) positions in
      negb (length ranges =? 0)%nat && (Z.of_nat (length ranges) <=? INVENTORY_PAGE_SIZE) &&
      match covers after (js_sort range_order ranges) with
      | None => false
      | Some cursor =>
          (cursor <=? count) && next_ok (page_next p) cursor count &&
          ((cursor =? count) || (Z.of_nat (length ranges) =? INVENTORY_PAGE_SIZE))
      end
  | _, _ => false
  end.
Definition validPageFields {R} (p : InventoryPage R) (cp : InventoryCheckpoint) (after : Z) : bool :=
  let count := is_receiptCount (cp_statement cp) in
  isTime after && (after <? count) && str_eqb (page_checkpointId p) (checkpointId cp) &&
  (page_after p =? after) && (Z.of_nat (length (page_records p)) <=? INVENTORY_PAGE_SIZE) &&
  if is_version_2 (Some cp) then validSparsePage p cp after
  else
    let n := Z.of_nat (length (page_records p)) in
    (n =? Z.min INVENTORY_PAGE_SIZE (count - after)) && next_ok (page_next p) (after + n) count.

(** The cast of a page: a position that is not a number or a range that is not
    [{ first, last }] fails it. *)
Definition read_range (v : jsval) : option (Z * Z) :=
  if exactKeys v ["first"; "last"]%string
  then a ← get_num v "first"; b ← get_num v "last"; Some (a, b) else None.
Definition read_numbers (v : jsval) : option (list Z) :=
  l ← as_array v; mapM (fun x => match x with JNum z => Some z | _ => None end) l.
Definition read_ranges (v : jsval) : option (list (Z * Z)) :=
  l ← as_array v; mapM read_range l.
Definition read_next (v : jsval) : option (option Z) :=
  match v with JNull => Some None | JNum z => Some (Some z) | _ => None end.
Definition read_page (v : jsval) (sparse : bool) : option (InventoryPage jsval) :=
  id ← get_str v "checkpointId"; after ← get_num v "after"; next ← read_next (field v "next");
  records ← as_array (field v "records");
  if sparse
  then ps ← read_numbers (field v "positions"); rs ← read_ranges (field v "emptyRanges");
       Some (mkPage id after next records (Some ps) (Some rs))
  else Some (mkPage id after next records None None).
Definition validInventoryPage (value : jsval) (cp : InventoryCheckpoint) (after : Z) : bool :=
  let sparse := is_version_2 (Some cp) in
  exactKeys value (["checkpointId"; "after"; "next"; "records"]%string ++
                   (if sparse then ["positions"; "emptyRanges"]%string else [])) &&
  match read_page value sparse with
  | Some p => validPageFields p cp after
  | None => false
  end.

(** ** Digests *)

Section Digests.
Context (cryptoBackend : AuditCryptoBackend).

Definition inventoryBatchDigest (records : list InventoryReceiptRecord) : throws jsstr :=
  hash cryptoBackend (frame "encounter-inventory-batch-v1"
    [JArr (map (fun r => JArr [JStr (ticketId (ir_ticket r)); JStr (receiptId (ir_receipt r))]) records)]).
Definition inventoryRetirementDigest (ticketIds : list jsstr) : throws jsstr :=
  hash cryptoBackend (frame "encounter-inventory-retire-empty-v1" [strings_value ticketIds]).
Definition previous_root (previous : option InventoryCheckpoint) : jsval :=
  optional_string ((fun cp => is_root (cp_statement cp)) <$> previous).
Definition inventoryNextRoot (previous : option InventoryCheckpoint) (batchDigest : jsstr)
    (operation : InventoryOperation) : throws jsstr :=
  hash cryptoBackend (
    if is_version_2 previous || bool_decide (operation = retire_empty)
    then frame "encounter-inventory-root-v2"
           [previous_root previous; JStr (js (operation_name operation)); JStr batchDigest]
    else frame "encounter-inventory-root-v1" [previous_root previous; JStr batchDigest]).

Definition verifyInventoryCheckpoint (value : jsval) (trustedKey : jsstr) : bool :=
  or_false (
    match read_checkpoint value with
    | None => inr false
    | Some cp =>
        if negb (validInventoryCheckpoint value) ||
           negb (str_eqb (is_authorityKey (cp_statement cp)) trustedKey) || negb (isDigestText trustedKey)
        then inr false
        else
          let! id := hash cryptoBackend (inventoryCheckpointFrame (cp_statement cp)) in
          if negb (str_eqb (checkpointId cp) id) then inr false
          else cb_verify cryptoBackend trustedKey (checkpointId cp) (cp_signature cp)
    end).
End Digests.
