(* ===== verification/InventoryRanges.v ===== *)
(** * Retired ordinals as maximal ranges

    [game/encounter/inventory-ranges.ts]: the table of the ordinals an owner's
    inventory has retired without an item, kept as maximal disjoint runs.  The
    table is the list of its rows; the SQL statements are functions on it.  A
    call that throws leaves the table as it was, because it runs inside the
    caller's transaction. *)
From S2P Require Import Prelude Json Contracts Kernel Utf8 CryptoBackend EncounterWire.
Set Default Goal Selector "!".

Record RangeRow := mkRange {
  range_unit : jsstr;
  range_owner : jsstr;
  first : Z;
  last : Z;
}.
#[export] Instance RangeRow_eq_dec : EqDecision RangeRow.
Proof. solve_decision. Defined.
Abbreviation RangeTable := (list RangeRow).

(** ** Statements *)

Definition in_scope (unit owner : jsstr) (r : RangeRow) : bool :=
  str_eqb (range_unit r) unit && str_eqb (range_owner r) owner.
Definition select (unit owner : jsstr) (p : Z -> bool) (t : RangeTable) : RangeTable :=
  List.filter (fun r => in_scope unit owner r && p (first r)) t.

(** [ORDER BY first DESC LIMIT 1]. *)
Fixpoint highest (rows : RangeTable) : option RangeRow :=
  match rows with
  | [] => None
  | r :: rows' =>
      match highest rows' with
      | Some s => Some (if first r <? first s then s else r)
      | None => Some r
      end
  end.

Definition delete_first (unit owner : jsstr) (at_first : Z) (t : RangeTable) : RangeTable :=
  List.filter (fun r => negb (in_scope unit owner r && (first r =? at_first))) t.

(** [INSERT], refused by [PRIMARY KEY(unit, owner, first)] and by
    [UNIQUE(unit, owner, last)]. *)
Definition insert_range (row : RangeRow) (t : RangeTable) : throws RangeTable :=
  throw_if (existsb (fun r => in_scope (range_unit row) (range_owner row) r &&
                              ((first r =? first row) || (last r =? last row))) t)
    (js "UNIQUE constraint failed") $
  inr (row :: t).

(** ** The class *)

Definition parse (row : option RangeRow) : throws (option RangeRow) :=
  match row with
  | None => inr None
  | Some r =>
      throw_if (negb (isTime (first r)) || (first r <? 1) || negb (isTime (last r)) ||
                (last r <? first r)) (js "invalid inventory empty range") $
      inr (Some r)
  end.

Definition predecessor (unit owner : jsstr) (ordinal : Z) (t : RangeTable)
    : throws (option RangeRow) :=
  parse (highest (select unit owner (fun f => f <=? ordinal) t)).

Definition delete_range (unit owner : jsstr) (range : option RangeRow) (t : RangeTable)
    : RangeTable :=
  match range with
  | Some r => delete_first unit owner (first r) t
  | None => t
  end.

Definition ends_before (ordinal : Z) (before : option RangeRow) : option RangeRow :=
  match before with
  | Some r => if last r =? ordinal - 1 then Some r else None
  | None => None
  end.
Definition reaches (ordinal : Z) (before : option RangeRow) : bool :=
  match before with Some r => ordinal <=? last r | None => false end.

Definition add (unit owner : jsstr) (ordinal : Z) (t : RangeTable) : throws RangeTable :=
  throw_if (negb (isTime ordinal) || (ordinal <? 1)) (js "invalid inventory ordinal") $
  let! before := predecessor unit owner ordinal t in
  throw_if (reaches ordinal before) (js "inventory ordinal already retired") $
  let ending := ends_before ordinal before in
  let! starting :=
    if ordinal <? MAX_SAFE_INTEGER
    then parse (head (select unit owner (fun f => f =? ordinal + 1) t))
    else inr None in
  let t := delete_range unit owner starting (delete_range unit owner ending t) in
  insert_range (mkRange unit owner
                  (match ending with Some r => first r | None => ordinal end)
                  (match starting with Some r => last r | None => ordinal end)) t.

(** ** Specification: a set of ordinals *)

Definition holds (t : RangeTable) (unit owner : jsstr) (n : Z) : Prop :=
  exists r, r ∈ t /\ range_unit r = unit /\ range_owner r = owner /\ first r <= n <= last r.

Definition same_scope (r s : RangeRow) : Prop :=
  range_unit r = range_unit s /\ range_owner r = range_owner s.
(** A gap of at least one ordinal between the two. *)
Definition apart (r s : RangeRow) : Prop := last r + 1 < first s \/ last s + 1 < first r.
Definition valid_range (r : RangeRow) : Prop := 1 <= first r <= last r /\ last r <= MAX_SAFE_INTEGER.

Record ranges_ok (t : RangeTable) : Prop := {
  ranges_valid : forall r, r ∈ t -> valid_range r;
  ranges_apart : forall r s, r ∈ t -> s ∈ t -> same_scope r s -> r <> s -> apart r s;
}.

(** ** Facts about the statements *)

Lemma in_scope_spec unit owner r :
  in_scope unit owner r = true <-> range_unit r = unit /\ range_owner r = owner.
Proof. unfold in_scope. by rewrite andb_true_iff, !str_eqb_eq. Qed.

Lemma elem_of_filter_List {A} (f : A -> bool) l x : x ∈ List.filter f l <-> x ∈ l /\ f x = true.
Proof. rewrite !list_elem_of_In. apply filter_In. Qed.

Lemma elem_of_select unit owner p t r :
  r ∈ select unit owner p t <-> r ∈ t /\ range_unit r = unit /\ range_owner r = owner /\ p (first r) = true.
Proof.
  unfold select. rewrite elem_of_filter_List, andb_true_iff, in_scope_spec. naive_solver.
Qed.

Lemma highest_spec rows :
  match highest rows with
  | Some r => r ∈ rows /\ forall s, s ∈ rows -> first s <= first r
  | None => rows = []
  end.
Proof.
  induction rows as [|r rows IH]; [done|]. cbn [highest].
  destruct (highest rows) as [s|].
  - destruct IH as [Hs Hmax]. destruct (Z.ltb_spec (first r) (first s)).
    + split; [by right|]. intros u [->|Hu]%elem_of_cons; [lia|auto].
    + split; [by left|]. intros u [->|Hu]%elem_of_cons; [lia|]. specialize (Hmax u Hu). lia.
  - subst rows. split; [by left|]. by intros u [->|Hu%elem_of_nil]%elem_of_cons.
Qed.

Lemma valid_times r : valid_range r -> isTime (first r) = true /\ isTime (last r) = true.
Proof.
  unfold valid_range, isTime, isSafeInteger. intros. rewrite !andb_true_iff, !Z.leb_le. lia.
Qed.
Lemma parse_valid r : valid_range r -> parse (Some r) = inr (Some r).
Proof.
  intros Hv. unfold parse, throw_if. destruct (valid_times r Hv) as [-> ->]. unfold valid_range in Hv.
  by rewrite (proj2 (Z.ltb_ge (first r) 1)), (proj2 (Z.ltb_ge (last r) (first r))) by lia.
Qed.

Lemma elem_of_delete unit owner n t r :
  r ∈ delete_first unit owner n t <->
  r ∈ t /\ ~ (range_unit r = unit /\ range_owner r = owner /\ first r = n).
Proof.
  unfold delete_first. rewrite elem_of_filter_List, negb_true_iff.
  rewrite <- not_true_iff_false, andb_true_iff, in_scope_spec, Z.eqb_eq. naive_solver.
Qed.

(** ** The neighbours of a new ordinal *)

Section Neighbours.
Context (t : RangeTable) (unit owner : jsstr) (n : Z).
Hypothesis Hok : ranges_ok t.

Definition scoped (r : RangeRow) : Prop := r ∈ t /\ range_unit r = unit /\ range_owner r = owner.

Lemma scoped_apart r s : scoped r -> scoped s -> r <> s -> apart r s.
Proof.
  intros (Hr & Ur & Or) (Hs & Us & Os) Hne.
  apply (ranges_apart t Hok); [done|done|unfold same_scope; by subst|done].
Qed.
Lemma scoped_valid r : scoped r -> valid_range r.
Proof. intros (Hr & _). by apply (ranges_valid t Hok). Qed.
Lemma scoped_first r s : scoped r -> scoped s -> first r = first s -> r = s.
Proof.
  intros Hr Hs E. destruct (decide (r = s)); [done|].
  pose proof (scoped_apart r s Hr Hs n0). pose proof (scoped_valid r Hr).
  pose proof (scoped_valid s Hs). unfold apart, valid_range in *. lia.
Qed.

(** The last range that starts at or before [n]. *)
Definition is_predecessor (before : option RangeRow) : Prop :=
  match before with
  | Some r => scoped r /\ first r <= n /\ forall s, scoped s -> first s <= n -> first s <= first r
  | None => forall s, scoped s -> n < first s
  end.

Lemma predecessor_spec : exists before,
  predecessor unit owner n t = inr before /\ is_predecessor before.
Proof.
  unfold predecessor. pose proof (highest_spec (select unit owner (fun f => f <=? n) t)) as Hh.
  destruct (highest _) as [r|].
  - destruct Hh as [Hr Hmax]. apply elem_of_select in Hr as (Hr & Ur & Or & Lr%Z.leb_le).
    exists (Some r). rewrite parse_valid by (by apply (ranges_valid t Hok)). split; [done|].
    split; [done|split; [done|]]. intros s (Hs & Us & Os) Ls.
    apply Hmax. apply elem_of_select. by rewrite Z.leb_le.
  - exists None. split; [done|]. intros s (Hs & Us & Os).
    apply Z.lt_nge. intros Ls. apply (not_elem_of_nil s). rewrite <- Hh.
    apply elem_of_select. by rewrite Z.leb_le.
Qed.

Lemma reaches_spec before : is_predecessor before ->
  reaches n before = true <-> holds t unit owner n.
Proof.
  intros Hp. split.
  - destruct before as [r|]; [|done]. intros L%Z.leb_le. destruct Hp as ((Hr & Ur & Or) & Fr & _).
    by exists r.
  - intros (s & Hs & Us & Os & Fs & Ls). assert (Ss : scoped s) by done.
    destruct before as [r|]; [|specialize (Hp s Ss); lia]. destruct Hp as (Sr & Fr & Hmax).
    specialize (Hmax s Ss Fs). cbn [reaches]. apply Z.leb_le.
    destruct (decide (s = r)) as [->|Hne]; [done|].
    pose proof (scoped_apart s r Ss Sr Hne). pose proof (scoped_valid r Sr).
    unfold apart, valid_range in *. lia.
Qed.

(** The range that ends just before [n]. *)
Lemma ending_spec before : is_predecessor before -> ~ holds t unit owner n ->
  match ends_before n before with
  | Some r => scoped r /\ last r = n - 1
  | None => forall s, scoped s -> first s <= n -> last s + 1 < n
  end.
Proof.
  intros Hp Hn. pose proof (reaches_spec before Hp) as Hreach.
  destruct before as [r|]; cbn [ends_before reaches] in *; [|by intros s Ss Ls; specialize (Hp s Ss); lia].
  destruct Hp as (Sr & Fr & Hmax). destruct (Z.eqb_spec (last r) (n - 1)); [done|].
  intros s Ss Fs. specialize (Hmax s Ss Fs).
  destruct (Z.leb_spec n (last r)); [by destruct Hn; apply Hreach|].
  destruct (decide (s = r)) as [->|Hne]; [lia|].
  pose proof (scoped_apart s r Ss Sr Hne). pose proof (scoped_valid r Sr).
  unfold apart, valid_range in *. lia.
Qed.

(** The range that starts just after [n]. *)
Lemma starting_spec : n <= MAX_SAFE_INTEGER -> exists after,
  (if n <? MAX_SAFE_INTEGER
   then parse (head (select unit owner (fun f => f =? n + 1) t)) else inr None) = inr after /\
  match after with
  | Some r => scoped r /\ first r = n + 1
  | None => forall s, scoped s -> first s <> n + 1
  end.
Proof.
  intros Hn. destruct (Z.ltb_spec n MAX_SAFE_INTEGER).
  - destruct (select unit owner _ t) as [|r rest] eqn:E.
    + exists None. split; [done|]. intros s (Hs & Us & Os) Fs. apply (not_elem_of_nil s).
      rewrite <- E. apply elem_of_select. by rewrite Z.eqb_eq.
    + assert (r ∈ select unit owner (fun f => f =? n + 1) t) as Hr by (rewrite E; by left).
      apply elem_of_select in Hr as (Hr & Ur & Or & Fr%Z.eqb_eq).
      exists (Some r). cbn [head]. by rewrite parse_valid by (by apply (ranges_valid t Hok)).
  - exists None. split; [done|]. intros s Ss. pose proof (scoped_valid s Ss).
    unfold valid_range in *. lia.
Qed.
End Neighbours.

(** ** Adding an ordinal *)

Lemma elem_of_delete_range t unit owner range r :
  ranges_ok t -> (forall s, range = Some s -> scoped t unit owner s) ->
  r ∈ delete_range unit owner range t <-> r ∈ t /\ range <> Some r.
Proof.
  intros Hok Hs. destruct range as [s|]; cbn [delete_range]; [|naive_solver].
  specialize (Hs s eq_refl). rewrite elem_of_delete. split.
  - intros [Hr Hne]. split; [done|]. intros [= ->]. apply Hne.
    by destruct Hs as (_ & Us & Os).
  - intros [Hr Hne]. split; [done|]. intros (Ur & Or & Fr). apply Hne. f_equal.
    symmetry. by apply (scoped_first t unit owner Hok).
Qed.

Lemma delete_range_ok t unit owner range : ranges_ok t -> ranges_ok (delete_range unit owner range t).
Proof.
  intros [Hv Ha]. destruct range as [s|]; cbn [delete_range]; [|done].
  split; intros *; rewrite ?elem_of_delete; naive_solver.
Qed.

(** The merged row, when the neighbours are what [ending_spec] and
    [starting_spec] say. *)
Definition merged (unit owner : jsstr) (n : Z) (ending starting : option RangeRow) : RangeRow :=
  mkRange unit owner (match ending with Some r => first r | None => n end)
    (match starting with Some r => last r | None => n end).

Section Merge.
Context (t : RangeTable) (unit owner : jsstr) (n : Z) (ending starting : option RangeRow).
Hypothesis Hok : ranges_ok t.
Hypothesis Hn : 1 <= n <= MAX_SAFE_INTEGER.
Hypothesis Hout : ~ holds t unit owner n.
Hypothesis Hend : match ending with
  | Some r => scoped t unit owner r /\ last r = n - 1
  | None => forall s, scoped t unit owner s -> first s <= n -> last s + 1 < n
  end.
Hypothesis Hstart : match starting with
  | Some r => scoped t unit owner r /\ first r = n + 1
  | None => forall s, scoped t unit owner s -> first s <> n + 1
  end.

Let rest := delete_range unit owner starting (delete_range unit owner ending t).

Lemma elem_of_rest r : r ∈ rest <-> r ∈ t /\ ending <> Some r /\ starting <> Some r.
Proof.
  assert (forall s, ending = Some s -> scoped t unit owner s) as He by (destruct ending; naive_solver).
  assert (forall s, starting = Some s -> scoped t unit owner s) as Hs
    by (destruct starting; naive_solver).
  unfold rest. rewrite elem_of_delete_range.
  - rewrite (elem_of_delete_range t) by done. naive_solver.
  - by apply delete_range_ok.
  - intros s Es. destruct (Hs s Es) as (Ts & Us & Os). split; [|done].
    apply (elem_of_delete_range t); [done|done|]. split; [done|]. intros ->.
    subst starting. destruct Hend as [He1 He2], Hstart as [Hs1 Hs2].
    pose proof (scoped_valid t unit owner Hok s He1). unfold valid_range in *. lia.
Qed.

Lemma merged_valid : valid_range (merged unit owner n ending starting).
Proof.
  unfold merged, valid_range. cbn [first last].
  destruct ending as [e|], starting as [s|];
    try pose proof (scoped_valid t unit owner Hok e (proj1 Hend));
    try pose proof (scoped_valid t unit owner Hok s (proj1 Hstart)); unfold valid_range in *; lia.
Qed.

Lemma merged_apart s : scoped t unit owner s -> s ∈ rest -> apart s (merged unit owner n ending starting).
Proof.
  intros Ss (_ & Ne & Ns)%elem_of_rest. unfold apart, merged. cbn [first last].
  pose proof (scoped_valid t unit owner Hok s Ss) as Vs. unfold valid_range in Vs.
  destruct (Z.le_gt_cases (first s) n) as [Le|Gt].
  - left. destruct ending as [e|]; [|by apply Hend]. destruct Hend as [Se Le'].
    assert (s <> e) as Hne by congruence.
    pose proof (scoped_apart t unit owner Hok s e Ss Se Hne) as A.
    pose proof (scoped_valid t unit owner Hok e Se). unfold apart, valid_range in *.
    destruct A as [A|A]; [done|]. destruct Hout. exists s. destruct Ss as (? & ? & ?).
    split_and!; first [done|lia].
  - right. destruct starting as [u|].
    + destruct Hstart as [Su Fu]. assert (s <> u) as Hne by congruence.
      pose proof (scoped_apart t unit owner Hok s u Ss Su Hne). unfold apart in *. lia.
    + specialize (Hstart s Ss). lia.
Qed.

Lemma merge_inserts : insert_range (merged unit owner n ending starting) rest
                      = inr (merged unit owner n ending starting :: rest).
Proof.
  unfold insert_range, throw_if. destruct (existsb _ rest) eqn:E; [exfalso|done]. revert E.
  intros (s & Hs & [Hsc Hfl]%andb_true_iff)%existsb_exists. apply list_elem_of_In in Hs.
  apply in_scope_spec in Hsc as [Us Os]. cbn [range_unit range_owner merged] in Us, Os.
  assert (Ss : scoped t unit owner s) by (split_and!; [by apply elem_of_rest|done..]).
  pose proof (merged_apart s Ss Hs) as A. pose proof merged_valid as V.
  pose proof (scoped_valid t unit owner Hok s Ss). unfold apart, valid_range in *.
  apply orb_true_iff in Hfl as [E%Z.eqb_eq|E%Z.eqb_eq]; lia.
Qed.

Lemma merge_ok : ranges_ok (merged unit owner n ending starting :: rest).
Proof.
  assert (Hsc : forall s, s ∈ rest -> same_scope s (merged unit owner n ending starting) ->
            apart s (merged unit owner n ending starting)).
  { intros s Hs [Us Os]. apply merged_apart; [|done]. split_and!; [by apply elem_of_rest|done..]. }
  split.
  - intros r [->|Hr]%elem_of_cons; [apply merged_valid|].
    apply (ranges_valid t Hok). by apply elem_of_rest.
  - intros r s [->|Hr]%elem_of_cons [->|Hs]%elem_of_cons Hrs Hne; [done| | |].
    + destruct Hrs as [U O]. destruct (Hsc s Hs (conj (eq_sym U) (eq_sym O))); [by right|by left].
    + by apply Hsc.
    + apply elem_of_rest in Hr as (Hr & _), Hs as (Hs & _). by apply (ranges_apart t Hok).
Qed.

Lemma merge_holds unit' owner' m :
  holds (merged unit owner n ending starting :: rest) unit' owner' m <->
  holds t unit' owner' m \/ (unit' = unit /\ owner' = owner /\ m = n).
Proof.
  split.
  - intros (r & [->|Hr]%elem_of_cons & Ur & Or & F & L).
    + cbn [merged range_unit range_owner first last] in *. subst unit' owner'.
      destruct (Z.lt_trichotomy m n) as [Lt|[->|Gt]]; [|by right|].
      * left. destruct ending as [e|]; [|lia]. destruct Hend as [(Te & Ue & Oe) Le].
        exists e. split_and!; first [done|lia].
      * left. destruct starting as [s|]; [|lia]. destruct Hstart as [(Ts & Us & Os) Fs].
        exists s. split_and!; first [done|lia].
    + left. exists r. split_and!; [by apply elem_of_rest|done..].
  - assert (Hm : forall m, first (merged unit owner n ending starting) <= m <=
              last (merged unit owner n ending starting) ->
              holds (merged unit owner n ending starting :: rest) unit owner m).
    { intros k Hk. eexists. split; [by left|]. by cbn. }
    pose proof merged_valid as Vm. cbn [merged first last] in *.
    intros [(r & Hr & Ur & Or & F & L)|(-> & -> & ->)].
    + destruct (decide (ending = Some r)) as [->|Ne].
      { destruct Hend as [(_ & Ue & Oe) Le]. subst unit' owner'. rewrite Ue, Oe. apply Hm.
        destruct starting as [s|]; [|lia]. pose proof (scoped_valid _ _ _ Hok s (proj1 Hstart)).
        destruct Hstart. unfold valid_range in *. lia. }
      destruct (decide (starting = Some r)) as [->|Ns].
      { destruct Hstart as [(_ & Us & Os) Fs]. subst unit' owner'. rewrite Us, Os. apply Hm.
        destruct ending as [e|]; [|lia]. pose proof (scoped_valid _ _ _ Hok e (proj1 Hend)).
        destruct Hend. unfold valid_range in *. lia. }
      exists r. split; [|done]. right. by apply elem_of_rest.
    + apply Hm. destruct ending as [e|], starting as [s|];
        try pose proof (scoped_valid _ _ _ Hok e (proj1 Hend));
        try pose proof (scoped_valid _ _ _ Hok s (proj1 Hstart));
        try destruct Hend; try destruct Hstart; unfold valid_range in *; lia.
Qed.
End Merge.

Lemma add_spec t unit owner n :
  ranges_ok t ->
  if bool_decide (1 <= n <= MAX_SAFE_INTEGER) then
    (holds t unit owner n /\ add unit owner n t = inl (js "inventory ordinal already retired")) \/
    (~ holds t unit owner n /\ exists t', add unit owner n t = inr t' /\ ranges_ok t' /\
       forall unit' owner' m, holds t' unit' owner' m <->
         holds t unit' owner' m \/ (unit' = unit /\ owner' = owner /\ m = n))
  else add unit owner n t = inl (js "invalid inventory ordinal").
Proof.
  intros Hok. unfold add, throw_if.
  assert (Hguard : negb (isTime n) || (n <? 1) = negb (bool_decide (1 <= n <= MAX_SAFE_INTEGER))).
  { apply eq_true_iff_eq. rewrite orb_true_iff, !negb_true_iff, bool_decide_eq_false, Z.ltb_lt.
    unfold isTime, isSafeInteger. rewrite <- !not_true_iff_false, !andb_true_iff, !Z.leb_le. lia. }
  rewrite Hguard. case_bool_decide as Hn; cbn [negb]; [|done].
  destruct (predecessor_spec t unit owner n Hok) as (before & -> & Hp). cbn [throw_bind].
  pose proof (reaches_spec t unit owner n Hok before Hp) as Hr.
  destruct (reaches n before); [left; by split; [apply Hr|]|right].
  assert (Hout : ~ holds t unit owner n) by (intros Hh; by apply Hr in Hh).
  split; [done|]. pose proof (ending_spec t unit owner n Hok before Hp Hout) as Hend.
  destruct (starting_spec t unit owner n Hok) as (after & -> & Hstart); [lia|]. cbn [throw_bind].
  pose proof (merge_inserts t unit owner n _ _ Hok Hn Hout Hend Hstart) as Hi.
  unfold merged in Hi at 1. rewrite Hi. eexists. split; [reflexivity|].
  split; [by apply merge_ok|]. intros. by apply merge_holds.
Qed.

(** C34: the retired-ordinal table refines a set of ordinals: adding an ordinal
    from 1 to the largest safe integer that is not in the set always succeeds
    and adds exactly that ordinal, in that unit and for that owner; adding one
    that is in it, or one out of range, is refused; and the rows stay maximal
    disjoint runs (never overlapping, never adjacent). *)
Theorem empty_ranges_refine_a_set t unit owner n :
  ranges_ok t ->
  if bool_decide (1 <= n <= MAX_SAFE_INTEGER) then
    (holds t unit owner n /\ add unit owner n t = inl (js "inventory ordinal already retired")) \/
    (~ holds t unit owner n /\ exists t', add unit owner n t = inr t' /\ ranges_ok t' /\
       forall unit' owner' m, holds t' unit' owner' m <->
         holds t unit' owner' m \/ (unit' = unit /\ owner' = owner /\ m = n))
  else add unit owner n t = inl (js "invalid inventory ordinal").
Proof. apply add_spec. Qed.
Definition toy_ranges : RangeTable := [mkRange (js "u") (js "o") 3 4; mkRange (js "u") (js "o") 6 9].
Lemma empty_ranges_refine_a_set_witness :
  exists t', add (js "u") (js "o") 5 toy_ranges = inr t' /\ t' = [mkRange (js "u") (js "o") 3 9] /\
             ranges_ok t'.
Proof.
  pose proof (empty_ranges_refine_a_set toy_ranges (js "u") (js "o") 5) as T.
  rewrite bool_decide_eq_true_2 in T by (vm_compute; split; discriminate).
  destruct T as [[_ E]|(_ & t' & E & Hok & _)].
  - split.
    + intros r [->|[->|[]%elem_of_nil]%elem_of_cons]%elem_of_cons; vm_compute;
        (split; [split|]); discriminate.
    + intros r s Hr Hs _ Hne.
      apply elem_of_cons in Hr as [->|[->|[]%elem_of_nil]%elem_of_cons];
        apply elem_of_cons in Hs as [->|[->|[]%elem_of_nil]%elem_of_cons]; try done;
        vm_compute; by (left + right).
  - vm_compute in E. discriminate E.
  - exists t'. split; [done|]. split; [|done]. vm_compute in E. injection E as <-. reflexivity.
Defined.
