(* ===== verification/Async.v ===== *)
(** * Asynchronous handlers over a shared store

    An [async] function runs synchronously up to its next [await]; between an
    [await] and the code after it, any other request and the host may change
    the store.  [async A] is that: a function of the store that either finishes
    or suspends with the rest of its code.  One suspension stands for any
    number of consecutive awaits that do not touch the store.

    [spec m w Q]: started in [w], every piece of [m] keeps the invariant and
    the transition relation [R], whatever the others do within them in
    between, and [m] ends with [Q].  [pool] runs any number of requests, in any
    order, with any interleaving; [pool_sound] lifts the specifications to
    it. *)
From S2P Require Import Prelude.
Set Default Goal Selector "!".

Section Async.
Context {W : Type}.

Inductive step (A : Type) :=
| Finished (r : throws A)
| Suspended (k : W -> W * step A).
#[global] Arguments Finished {A} r.
#[global] Arguments Suspended {A} k.
Definition async (A : Type) := W -> W * step A.

Definition aret {A} (a : A) : async A := fun w => (w, Finished (inr a)).
Definition athrow {A} (e : jsstr) : async A := fun w => (w, Finished (inl e)).
Definition of_throws {A} (r : throws A) : async A := fun w => (w, Finished r).
Definition read_store {A} (f : W -> A) : async A := fun w => (w, Finished (inr (f w))).

Fixpoint step_bind {A B} (s : step A) (f : A -> async B) : async B :=
  match s with
  | Finished (inl e) => athrow e
  | Finished (inr a) => f a
  | Suspended k => fun w =>
      (w, Suspended (fun w' => let '(w2, s2) := k w' in step_bind s2 f w2))
  end.
Definition abind {A B} (m : async A) (f : A -> async B) : async B :=
  fun w => let '(w', s) := m w in step_bind s f w'.

(** [await] of a promise that settles with [r]. *)
Definition await {A} (r : throws A) : async A :=
  fun w => (w, Suspended (fun w' => (w', Finished r))).
Definition refuse_if {A} (c : bool) (e : jsstr) (k : async A) : async A :=
  if c then athrow e else k.
(** [x!] where the code relies on [x] being there. *)
Definition asserted {A} (x : option A) : async A :=
  match x with Some a => aret a | None => athrow (js "TypeError") end.

(** [for (let retry = 0; retry < n; retry++) body], where [None] goes round
    again. *)
Fixpoint retrying {A} (n : nat) (body : async (option A)) (exhausted : jsstr) : async A :=
  match n with
  | 0%nat => athrow exhausted
  | S n' => abind body (fun r => match r with
                                 | Some a => aret a
                                 | None => retrying n' body exhausted
                                 end)
  end.

Lemma step_ind' {A} (P : step A -> Prop) :
  (forall r, P (Finished r)) -> (forall k, (forall w, P (snd (k w))) -> P (Suspended k)) ->
  forall s, P s.
Proof.
  intros HF HS. fix IH 1. intros [r|k]; [apply HF|]. apply HS. intros w.
  destruct (k w) as [w2 s2]. apply IH.
Qed.

(** Without interference: every handler finishes, since what is left of it is
    smaller at each suspension. *)
Fixpoint finish {A} (s : step A) (w : W) : W * throws A :=
  match s with
  | Finished r => (w, r)
  | Suspended k => finish (snd (k w)) (fst (k w))
  end.
Definition run_alone {A} (m : async A) (w : W) : W * throws A := finish (snd (m w)) (fst (m w)).

Lemma finish_bind {A B} (s : step A) (f : A -> async B) w :
  run_alone (step_bind s f) w =
  match finish s w with (w', inr a) => run_alone (f a) w' | (w', inl e) => (w', inl e) end.
Proof.
  revert w. induction s as [[e|a]|k IH] using step_ind'; intros w; [done|done|].
  cbn [finish]. rewrite <- IH. unfold run_alone at 1. cbn [step_bind fst snd finish].
  destruct (k w) as [w2 s2]. done.
Qed.
Lemma run_bind {A B} (m : async A) (f : A -> async B) w :
  run_alone (abind m f) w =
  match run_alone m w with (w', inr a) => run_alone (f a) w' | (w', inl e) => (w', inl e) end.
Proof.
  unfold run_alone at 2. rewrite <- finish_bind. unfold run_alone, abind.
  by destruct (m w).
Qed.
Lemma run_await {A} (r : throws A) w : run_alone (await r) w = (w, r).
Proof. done. Qed.
Lemma run_await_bind {A B} (r : throws A) (f : A -> async B) w a :
  r = inr a -> run_alone (abind (await r) f) w = run_alone (f a) w.
Proof. intros ->. by rewrite run_bind, run_await. Qed.
Lemma run_refuse {A} c e (k : async A) w : c = false -> run_alone (refuse_if c e k) w = run_alone k w.
Proof. by intros ->. Qed.
Lemma run_asserted {A B} (x : option A) (f : A -> async B) w a :
  x = Some a -> run_alone (abind (asserted x) f) w = run_alone (f a) w.
Proof. intros ->. by rewrite run_bind. Qed.
Lemma run_throws {A B} (r : throws A) (f : A -> async B) w a :
  r = inr a -> run_alone (abind (of_throws r) f) w = run_alone (f a) w.
Proof. intros ->. by rewrite run_bind. Qed.
(** A loop that succeeds in its first round. *)
Lemma run_retrying {A} n (body : async (option A)) e w w' a :
  run_alone body w = (w', inr (Some a)) -> run_alone (retrying (S n) body e) w = (w', inr a).
Proof. intros Hb. cbn [retrying]. by rewrite run_bind, Hb. Qed.

(** ** Specifications *)

Section Spec.
Context (Inv : W -> Prop) (R : W -> W -> Prop).

Fixpoint settles {A} (s : step A) (w : W) (Q : throws A -> W -> Prop) : Prop :=
  match s with
  | Finished r => Q r w
  | Suspended k => forall w', Inv w' -> R w w' ->
      Inv (fst (k w')) /\ R w' (fst (k w')) /\ settles (snd (k w')) (fst (k w')) Q
  end.
Definition spec {A} (m : async A) (w : W) (Q : throws A -> W -> Prop) : Prop :=
  Inv (fst (m w)) /\ R w (fst (m w)) /\ settles (snd (m w)) (fst (m w)) Q.

Context {R_preorder : PreOrder R}.

(** A later store may stand for the one the code was suspended in. *)
Lemma settles_later {A} (s : step A) w w' (P Q : throws A -> W -> Prop) :
  settles s w P -> Inv w' -> R w w' ->
  (forall r w'', Inv w'' -> R w' w'' -> P r w'' -> Q r w'') ->
  (forall r, P r w -> P r w') -> settles s w' Q.
Proof.
  destruct s as [r|k]; cbn [settles].
  - intros Hp Hi Hr HPQ Hst. apply HPQ; [done|done|auto].
  - intros Hs Hi Hr HPQ _ w2 Hi2 Hr2.
    destruct (Hs w2 Hi2 ltac:(by etrans)) as (Hi3 & Hr3 & Hs3). split_and!; [done..|].
    assert (HPQ' : forall r w'', Inv w'' -> R (fst (k w2)) w'' -> P r w'' -> Q r w'')
      by (intros; apply HPQ; [done| |done]; by do 2 (etrans; [done|])).
    clear Hs Hr2 Hr Hi HPQ. generalize dependent (fst (k w2)). generalize (snd (k w2)).
    intros s. induction s as [r|k' IH] using step_ind'; intros w4 Hi4 Hr4 Hs4 HPQ; cbn [settles] in *.
    + by apply HPQ.
    + intros w5 Hi5 Hr5. destruct (Hs4 w5 Hi5 Hr5) as (Hi6 & Hr6 & Hs6). split_and!; [done..|].
      apply IH; [done|by do 2 (etrans; [done|])|done|].
      intros. apply HPQ; [done| |done]. by do 2 (etrans; [done|]).
Qed.

Lemma settles_weaken {A} (s : step A) w (P Q : throws A -> W -> Prop) :
  settles s w P -> Inv w -> (forall r w', Inv w' -> R w w' -> P r w' -> Q r w') -> settles s w Q.
Proof. intros. by apply (settles_later s w w P Q). Qed.

Lemma spec_weaken {A} (m : async A) w (P Q : throws A -> W -> Prop) :
  spec m w P -> (forall r w', Inv w' -> R w w' -> P r w' -> Q r w') -> spec m w Q.
Proof.
  intros (Hi & Hr & Hs) HPQ. split_and!; [done..|]. apply (settles_weaken _ _ P); [done..|].
  intros. apply HPQ; [done|by etrans|done].
Qed.

Lemma spec_ret {A} (a : A) w (Q : throws A -> W -> Prop) : Inv w -> Q (inr a) w -> spec (aret a) w Q.
Proof. intros. split; [done|]. split; [cbn; reflexivity|done]. Qed.
Lemma spec_throw {A} e w (Q : throws A -> W -> Prop) : Inv w -> Q (inl e) w -> spec (athrow e) w Q.
Proof. intros. split; [done|]. split; [cbn; reflexivity|done]. Qed.
Lemma spec_of_throws {A} (r : throws A) w (Q : throws A -> W -> Prop) :
  Inv w -> Q r w -> spec (of_throws r) w Q.
Proof. intros. split; [done|]. split; [cbn; reflexivity|done]. Qed.
Lemma spec_read {A} (f : W -> A) w (Q : throws A -> W -> Prop) :
  Inv w -> Q (inr (f w)) w -> spec (read_store f) w Q.
Proof. intros. split; [done|]. split; [cbn; reflexivity|done]. Qed.
Lemma spec_await {A} (r : throws A) w (Q : throws A -> W -> Prop) :
  Inv w -> (forall w', Inv w' -> R w w' -> Q r w') -> spec (await r) w Q.
Proof.
  intros Hi Hq. split; [done|]. split; [cbn; reflexivity|]. cbn. intros w' Hi' Hr'.
  split; [done|]. split; [reflexivity|auto].
Qed.

Lemma settles_bind {A B} (s : step A) (f : A -> async B) w (P : throws A -> W -> Prop)
    (Q : throws B -> W -> Prop) :
  settles s w P -> Inv w ->
  (forall a w', Inv w' -> R w w' -> P (inr a) w' -> spec (f a) w' Q) ->
  (forall e w', Inv w' -> R w w' -> P (inl e) w' -> Q (inl e) w') ->
  spec (step_bind s f) w Q.
Proof.
  revert w. induction s as [[e|a]|k IH] using step_ind'; intros w Hs Hi Hf He;
    cbn [settles step_bind] in *.
  - apply spec_throw; [done|]. apply He; [done|reflexivity|done].
  - apply Hf; [done|reflexivity|done].
  - split; [done|]. split; [cbn; reflexivity|]. cbn. intros w' Hi' Hr'. destruct (Hs w' Hi' Hr') as (Hi2 & Hr2 & Hs2).
    specialize (IH w'). destruct (k w') as [w2 s2]. cbn [fst snd] in *.
    destruct (IH w2) as (Hi3 & Hr3 & Hs3); [done|done| | |].
    + intros a w3 Hi3 Hr3. apply Hf; [done|]. by do 2 (etrans; [done|]).
    + intros e w3 Hi3 Hr3. apply He; [done|]. by do 2 (etrans; [done|]).
    + split_and!; [done|by etrans|done].
Qed.

Lemma spec_bind {A B} (m : async A) (f : A -> async B) w (P : throws A -> W -> Prop)
    (Q : throws B -> W -> Prop) :
  spec m w P ->
  (forall a w', Inv w' -> R w w' -> P (inr a) w' -> spec (f a) w' Q) ->
  (forall e w', Inv w' -> R w w' -> P (inl e) w' -> Q (inl e) w') ->
  spec (abind m f) w Q.
Proof.
  intros (Hi & Hr & Hs) Hf He. unfold abind. destruct (m w) as [w1 s1] eqn:E. cbn [fst snd] in *.
  destruct (settles_bind s1 f w1 P Q) as (Hi2 & Hr2 & Hs2); [done|done| | |].
  - intros. apply Hf; [done|by etrans|done].
  - intros. apply He; [done|by etrans|done].
  - unfold spec. rewrite E. split_and!; [done|by etrans|done].
Qed.

(** A step that neither suspends nor throws. *)
Lemma spec_read_bind {A B} (g : W -> A) (f : A -> async B) w (Q : throws B -> W -> Prop) :
  spec (f (g w)) w Q -> spec (abind (read_store g) f) w Q.
Proof. done. Qed.

Lemma spec_await_bind {A B} (r : throws A) (f : A -> async B) w (Q : throws B -> W -> Prop) :
  Inv w ->
  (forall w', Inv w' -> R w w' ->
     match r with inr a => spec (f a) w' Q | inl e => Q (inl e) w' end) ->
  spec (abind (await r) f) w Q.
Proof.
  intros Hi Hf. apply (spec_bind _ _ _ (fun r' w' => r' = r)); [by apply spec_await| |].
  - intros a w' Hi' Hr' <-. by apply (Hf w').
  - intros e w' Hi' Hr' <-. by apply (Hf w').
Qed.

(** A loop: every round either ends with [Q] or changes nothing the next
    round needs. *)
Lemma spec_retrying {A} n (body : async (option A)) e w (Q : throws A -> W -> Prop) :
  Inv w ->
  (forall w', Inv w' -> R w w' -> Q (inl e) w') ->
  (forall w', Inv w' -> R w w' -> spec body w' (fun r w'' =>
     match r with inl e' => Q (inl e') w'' | inr (Some a) => Q (inr a) w'' | inr None => True end)) ->
  spec (retrying n body e) w Q.
Proof.
  revert w. induction n as [|n IH]; intros w Hi Hex Hbody; cbn [retrying].
  - apply spec_throw; [done|]. apply Hex; [done|reflexivity].
  - eapply spec_bind; [apply Hbody; [done|reflexivity]| |].
    + intros [a|] w' Hi' Hr' Hq; [by apply spec_ret|]. apply IH; [done| |].
      * intros. apply Hex; [done|by etrans].
      * intros. apply Hbody; [done|by etrans].
    + intros e' w' _ _ Hq. exact Hq.
Qed.
End Spec.

(** ** Specifications of what is returned *)

Section Yields.
Context (Inv : W -> Prop) (R : W -> W -> Prop) {R_preorder : PreOrder R}.

(** [m] keeps the invariant and, if it returns, returns a value with [Q]. *)
Definition on_return {A} (Q : A -> W -> Prop) (r : throws A) (w : W) : Prop :=
  match r with inr a => Q a w | inl _ => True end.
Definition yields {A} (m : async A) (w : W) (Q : A -> W -> Prop) : Prop := spec Inv R m w (on_return Q).

Context {A B : Type} (w : W) (Q : B -> W -> Prop).
Hypothesis Hw : Inv w.

Lemma yields_bind (m : async A) (f : A -> async B) (P : A -> W -> Prop) :
  yields m w P -> (forall a w', Inv w' -> R w w' -> P a w' -> yields (f a) w' Q) ->
  yields (abind m f) w Q.
Proof.
  intros Hm Hf. eapply spec_bind; [exact _|exact Hm| |done]. intros a w' Hi Hr Hp. by apply Hf.
Qed.
Lemma yields_ret (b : B) : Q b w -> yields (aret b) w Q.
Proof. intros. by apply spec_ret. Qed.
Lemma yields_throw e : yields (athrow e) w Q.
Proof. by apply spec_throw. Qed.
Lemma yields_of_throws (r : throws B) : (forall b, r = inr b -> Q b w) -> yields (of_throws r) w Q.
Proof. intros Hq. apply spec_of_throws; [exact _|done|]. destruct r; [done|by apply Hq]. Qed.
Lemma yields_refuse c e (k : async B) : (c = false -> yields k w Q) -> yields (refuse_if c e k) w Q.
Proof. intros Hk. destruct c; [apply yields_throw|by apply Hk]. Qed.
Lemma yields_await (r : throws A) (f : A -> async B) :
  (forall a w', Inv w' -> R w w' -> r = inr a -> yields (f a) w' Q) ->
  yields (abind (await r) f) w Q.
Proof.
  intros Hf. apply spec_await_bind; [exact _|done|]. intros w' Hi Hr.
  destruct r as [e|a]; [done|by apply Hf].
Qed.
Lemma yields_throws (r : throws A) (f : A -> async B) :
  (forall a, r = inr a -> yields (f a) w Q) -> yields (abind (of_throws r) f) w Q.
Proof. intros Hf. destruct r as [e|a]; [exact (yields_throw e)|by apply Hf]. Qed.
End Yields.

(** ** Framing *)

(** Every piece of the code, whatever store it is started in, changes the store
    within [G]. *)
Section Within.
Context (G : W -> W -> Prop).

Fixpoint step_within {A} (s : step A) : Prop :=
  match s with
  | Finished _ => True
  | Suspended k => forall w, G w (fst (k w)) /\ step_within (snd (k w))
  end.
Definition within {A} (m : async A) : Prop := forall w, G w (fst (m w)) /\ step_within (snd (m w)).

Context {G_preorder : PreOrder G}.

Lemma within_step_bind {A B} (s : step A) (f : A -> async B) :
  step_within s -> (forall a, within (f a)) -> within (step_bind s f).
Proof.
  intros Hs Hf. induction s as [[e|a]|k IH] using step_ind'; cbn [step_bind step_within] in *.
  - intros w. split; [reflexivity|done].
  - apply Hf.
  - intros w. split; [reflexivity|]. cbn [snd step_within]. intros w'. specialize (IH w').
    destruct (Hs w') as [Hg Hk]. destruct (k w') as [w2 s2]. cbn [fst snd] in *.
    destruct (IH Hk w2) as [Hg2 Hs2]. split; [by etrans|done].
Qed.
Lemma within_bind {A B} (m : async A) (f : A -> async B) :
  within m -> (forall a, within (f a)) -> within (abind m f).
Proof.
  intros Hm Hf w. destruct (Hm w) as [Hg Hs]. unfold abind. destruct (m w) as [w1 s1]. cbn [fst snd] in *.
  destruct (within_step_bind s1 f Hs Hf w1) as [Hg2 Hs2]. split; [by etrans|done].
Qed.
Lemma within_ret {A} (a : A) : within (aret a).
Proof. intros w. split; [reflexivity|done]. Qed.
Lemma within_throw {A} e : within (@athrow A e).
Proof. intros w. split; [reflexivity|done]. Qed.
Lemma within_throws {A} (r : throws A) : within (of_throws r).
Proof. intros w. split; [reflexivity|done]. Qed.
Lemma within_read {A} (f : W -> A) : within (read_store f).
Proof. intros w. split; [reflexivity|done]. Qed.
Lemma within_await {A} (r : throws A) : within (await r).
Proof. intros w. split; [reflexivity|]. cbn. intros w'. split; [reflexivity|done]. Qed.
Lemma within_refuse {A} c e (k : async A) : within k -> within (refuse_if c e k).
Proof. intros Hk. destruct c; [apply within_throw|done]. Qed.
Lemma within_asserted {A} (x : option A) : within (asserted x).
Proof. destruct x; [apply within_ret|apply within_throw]. Qed.
Lemma within_retrying {A} n (body : async (option A)) e : within body -> within (retrying n body e).
Proof.
  intros Hb. induction n as [|n IH]; cbn [retrying]; [apply within_throw|].
  apply within_bind; [done|]. intros [a|]; [apply within_ret|done].
Qed.
End Within.

(** What a component guarantees about its own tables, and what its code leaves
    alone, together: the invariant and the relation of another component. *)
Lemma spec_frame {A} (I1 I2 : W -> Prop) (R1 R2 G : W -> W -> Prop) (m : async A) w
    (Q : throws A -> W -> Prop) :
  (forall w w', I2 w -> G w w' -> I2 w' /\ R2 w w') -> within G m ->
  I2 w -> spec I1 R1 m w Q ->
  spec (fun w => I1 w /\ I2 w) (fun w w' => R1 w w' /\ R2 w w') m w Q.
Proof.
  intros HG Hm H2 (Hi & Hr & Hs). destruct (Hm w) as [Hg Hw]. destruct (HG _ _ H2 Hg) as [H2' Hr2].
  split; [done|]. split; [done|]. clear Hi Hr Hm Hg Hr2 H2.
  generalize dependent (fst (m w)). generalize dependent (snd (m w)). intros s.
  induction s as [r|k IH] using step_ind'; intros Hw w1 Hs H2; cbn [settles step_within] in *; [done|].
  intros w' [Hi1 Hi2] [Hr1 _]. destruct (Hs w' Hi1 Hr1) as (Hi & Hr & Hs').
  destruct (Hw w') as [Hg Hk]. destruct (HG _ _ Hi2 Hg) as [Hi2' Hr2']. split_and!; [done..|].
  by apply IH.
Qed.

(** Invariants and relations may be restated. *)
Lemma spec_iff {A} (I1 I2 : W -> Prop) (R1 R2 : W -> W -> Prop) (m : async A) w (Q : throws A -> W -> Prop) :
  (forall w, I1 w <-> I2 w) -> (forall w w', R1 w w' <-> R2 w w') -> spec I1 R1 m w Q -> spec I2 R2 m w Q.
Proof.
  intros HI HR (Hi & Hr & Hs). split; [by apply HI|]. split; [by apply HR|]. clear Hi Hr.
  generalize dependent (fst (m w)). generalize (snd (m w)). intros s.
  induction s as [r|k IH] using step_ind'; intros w1 Hs; cbn [settles] in *; [done|].
  intros w' Hi Hr. destruct (Hs w') as (Hi' & Hr' & Hs'); [by apply HI|by apply HR|].
  split; [by apply HI|]. split; [by apply HR|]. by apply IH.
Qed.

(** ** Many requests *)

Section Pool.
Context {Req Resp : Type} (serve : Req -> async Resp) (host : W -> W -> Prop).

(** The store and the requests that have arrived, each with what is left of
    its handler. *)
Record pool := mkPool { store : W; threads : list (Req * step Resp) }.

Inductive pool_step : pool -> pool -> Prop :=
| arrives w ts req :
    pool_step (mkPool w ts) (mkPool (fst (serve req w)) (ts ++ [(req, snd (serve req w))]))
| resumes w ts i req k :
    ts !! i = Some (req, Suspended k) ->
    pool_step (mkPool w ts) (mkPool (fst (k w)) (<[i := (req, snd (k w))]> ts))
| outside w ts w' :
    host w w' -> pool_step (mkPool w ts) (mkPool w' ts).
Abbreviation pool_steps := (rtc pool_step).

(** One request after the other. *)
Fixpoint serve_all (reqs : list Req) (p : pool) : pool :=
  match reqs with
  | [] => p
  | req :: reqs' =>
      let '(w, r) := run_alone (serve req) (store p) in
      serve_all reqs' (mkPool w (threads p ++ [(req, Finished r)]))
  end.

Lemma finish_runs s w ts req :
  pool_steps (mkPool w (ts ++ [(req, s)]))
    (mkPool (fst (finish s w)) (ts ++ [(req, Finished (snd (finish s w)))])).
Proof.
  revert w. induction s as [r|k IH] using step_ind'; intros w; cbn [finish]; [reflexivity|].
  eapply rtc_l; [|apply IH].
  pose proof (resumes w (ts ++ [(req, Suspended k)]) (length ts) req k) as Hs.
  rewrite insert_app_r_alt, Nat.sub_diag in Hs by lia. apply Hs.
  rewrite lookup_app_r, Nat.sub_diag by lia. done.
Qed.

Lemma serve_all_runs reqs p : pool_steps p (serve_all reqs p).
Proof.
  revert p. induction reqs as [|req reqs IH]; intros [w ts]; cbn [serve_all store threads]; [reflexivity|].
  destruct (run_alone (serve req) w) as [w' r] eqn:E. eapply rtc_l; [apply (arrives w ts req)|].
  etrans; [apply finish_runs|]. unfold run_alone in E. rewrite E. cbn [fst snd]. apply IH.
Qed.

Context (Inv : W -> Prop) (R : W -> W -> Prop) {R_preorder : PreOrder R}.
Context (Q : Req -> throws Resp -> W -> Prop).
Hypothesis host_ok : forall w w', Inv w -> host w w' -> Inv w' /\ R w w'.
Hypothesis serve_ok : forall req w, Inv w -> spec Inv R (serve req) w (Q req).
Hypothesis Q_stable : forall req r w w', Inv w' -> R w w' -> Q req r w -> Q req r w'.

Definition pool_ok (p : pool) : Prop :=
  Inv (store p) /\
  Forall (fun t => settles Inv R (snd t) (store p) (Q (fst t))) (threads p).

Lemma threads_later ts w w' :
  Inv w' -> R w w' -> Forall (fun t => settles Inv R (snd t) w (Q (fst t))) ts ->
  Forall (fun t => settles Inv R (snd t) w' (Q (fst t))) ts.
Proof.
  intros Hi Hr Ht. eapply Forall_impl; [exact Ht|]. intros [req s] Hs. cbn [fst snd] in *.
  eapply settles_later; [done|exact Hs|done|done|done|]. intros r. by apply Q_stable.
Qed.

Lemma pool_step_ok p p' : pool_ok p -> pool_step p p' -> pool_ok p' /\ R (store p) (store p').
Proof.
  intros [Hi Ht] Hstep. destruct Hstep as [w ts req|w ts i req k Hk|w ts w' Hh]; cbn [store threads] in *.
  - destruct (serve_ok req w Hi) as (Hi' & Hr & Hs). split; [|done]. split; [done|].
    apply Forall_app. split; [by apply (threads_later ts w)|]. by constructor.
  - pose proof (Forall_lookup_1 _ _ _ _ Ht Hk) as Hs. cbn [fst snd settles] in Hs.
    destruct (Hs w Hi) as (Hi' & Hr & Hs'); [done|]. split; [|done]. split; [done|].
    apply Forall_insert; [by apply (threads_later ts w)|done].
  - destruct (host_ok w w' Hi Hh) as [Hi' Hr]. split; [|done]. split; [done|].
    by apply (threads_later ts w).
Qed.

Lemma pool_sound p p' : pool_ok p -> pool_steps p p' -> pool_ok p' /\ R (store p) (store p').
Proof.
  intros Hp Hs. induction Hs as [|p1 p2 p3 H12 H23 IH]; [done|].
  destruct (pool_step_ok p1 p2 Hp H12) as [Hp2 Hr]. destruct (IH Hp2) as [Hp3 Hr3].
  split; [done|by etrans].
Qed.

(** The answer of a request that has finished. *)
Lemma pool_answer p req r : pool_ok p -> (req, Finished r) ∈ threads p -> Q req r (store p).
Proof. intros [_ Ht] Hin. by apply (proj1 (Forall_forall _ _) Ht) in Hin. Qed.
End Pool.
End Async.
Arguments step W A : clear implicits.
Arguments async W A : clear implicits.
Arguments pool W Req Resp : clear implicits.
Notation "'let*' x ':=' m 'in' k" := (abind m (fun x => k))
  (at level 200, x pattern, m at level 100, k at level 200, right associativity).

(** ** Parts of a store *)

(** Code that sees a part [V] of the store [W]. *)
Section Lens.
Context {W V : Type} (get : W -> V) (set : V -> W -> W).
Fixpoint zoom_step {A} (s : step V A) : step W A :=
  match s with
  | Finished r => Finished r
  | Suspended k => Suspended (fun w => let '(v, s') := k (get w) in (set v w, zoom_step s'))
  end.
Definition zoom {A} (m : async V A) : async W A :=
  fun w => let '(v, s) := m (get w) in (set v w, zoom_step s).

(** A specification over the part holds over the whole, if the whole allows
    what the part allows. *)
Context (IV : V -> Prop) (RV : V -> V -> Prop) (IW : W -> Prop) (RW : W -> W -> Prop).
Hypothesis get_set : forall v w, get (set v w) = v.
Hypothesis part_inv : forall w, IW w -> IV (get w).
Hypothesis part_rely : forall w w', IW w -> RW w w' -> RV (get w) (get w').
Hypothesis whole : forall v w, IW w -> IV v -> RV (get w) v -> IW (set v w) /\ RW w (set v w).

Lemma zoom_settles {A} (s : step V A) w (Q : throws A -> V -> Prop) :
  IW w -> settles IV RV s (get w) Q -> settles IW RW (zoom_step s) w (fun r w' => Q r (get w')).
Proof.
  revert w. induction s as [r|k IH] using step_ind'; intros w Hw Hs; cbn [zoom_step settles] in *; [done|].
  intros w' Hw' Hr. destruct (Hs (get w') (part_inv w' Hw') (part_rely w w' Hw Hr)) as (Hi & Hr' & Hs').
  pose proof (IH (get w')) as IHs. destruct (k (get w')) as [v s']. cbn [fst snd] in *.
  destruct (whole v w' Hw' Hi Hr') as [Hiw Hrw]. split_and!; [done..|]. apply IHs; [done|]. by rewrite get_set.
Qed.
Lemma zoom_spec {A} (m : async V A) w (Q : throws A -> V -> Prop) :
  IW w -> spec IV RV m (get w) Q -> spec IW RW (zoom m) w (fun r w' => Q r (get w')).
Proof.
  intros Hw (Hi & Hr & Hs). unfold spec, zoom. destruct (m (get w)) as [v s]. cbn [fst snd] in *.
  destruct (whole v w Hw Hi Hr) as [Hiw Hrw]. split_and!; [done..|]. apply zoom_settles; [done|]. by rewrite get_set.
Qed.
End Lens.
