(* ===== verification/EncounterLedger.v ===== *)
(** * The encounter ledger

    [game/encounter/ledger.ts] and the ledger row of [contracts.ts]: two SQL
    tables, the hot tickets and the origins of retired generations, with their
    uniqueness constraints and the compare-and-set on the revision.

    A table maps its primary key to the other columns; [JSON.parse] of a
    stored [data] column gives back the row that was stringified into it.  The
    store also holds what the host answers when the code calls it: the clock,
    the random source, the evidence cases and the current generation. *)
From stdpp Require Import gmap.
From S2P Require Import Prelude Json Contracts Kernel Utf8 CryptoBackend EncounterWire Async.
Set Default Goal Selector "!".

(** ** Rows *)

Inductive EncounterPhase := issued | committed | revealed | settled | forfeited.
#[export] Instance EncounterPhase_eq_dec : EqDecision EncounterPhase.
Proof. solve_decision. Defined.
Definition phase_eqb (a b : EncounterPhase) : bool := bool_decide (a = b).

Record EncounterLedgerRow := mkRow {
  revision : Z;
  startKey : jsstr;
  ticket : EncounterTicket;
  secret : jsstr;
  phase : EncounterPhase;
  commitment : option EncounterCommit;
  committedAt : option Z;
  reveal : option EncounterReveal;
  receipt : option EncounterReceipt;
  termination : option EncounterTermination;
  evidenceHold : bool;
  retentionReleased : bool;
  admittedAssets : list jsstr;
  archiveCustody : option ArchiveCustody;
  recoveryReleased : bool;
}.
Definition row_id (r : EncounterLedgerRow) : jsstr := ticketId (ticket r).
Definition row_unit (r : EncounterLedgerRow) : jsstr := unit (t_authorization (ticket r)).
(** What is left of a row when its generation is closed
    ([{ ...row, secret: '', reveal: undefined, archiveCustody: undefined }]). *)
Definition origin_of (r : EncounterLedgerRow) : EncounterLedgerRow :=
  mkRow (revision r) (startKey r) (ticket r) [] (phase r) (commitment r) (committedAt r) None
    (receipt r) (termination r) (evidenceHold r) (retentionReleased r) (admittedAssets r) None
    (recoveryReleased r).

(** ** Tables *)

Record LedgerEntry := mkEntry {
  start_key : jsstr;
  entry_revision : Z;
  data : EncounterLedgerRow;
}.
Abbreviation LedgerTable := (gmap jsstr LedgerEntry).

Record World := mkWorld {
  encounter_tickets : LedgerTable;
  encounter_origins : LedgerTable;
  calls : nat;
  clock_at : nat -> Z;
  uuid_at : nat -> jsstr;
  random_at : nat -> nat -> N;
  evidenceCases : option (jsstr -> bool);
  currentGeneration : option (jsstr -> throws Z);
}.

Definition with_tickets (t : LedgerTable) (w : World) : World :=
  mkWorld t (encounter_origins w) (calls w) (clock_at w) (uuid_at w) (random_at w)
    (evidenceCases w) (currentGeneration w).
Definition with_origins (t : LedgerTable) (w : World) : World :=
  mkWorld (encounter_tickets w) t (calls w) (clock_at w) (uuid_at w) (random_at w)
    (evidenceCases w) (currentGeneration w).
Definition called (w : World) : World :=
  mkWorld (encounter_tickets w) (encounter_origins w) (S (calls w)) (clock_at w) (uuid_at w)
    (random_at w) (evidenceCases w) (currentGeneration w).

Definition has_start (key : jsstr) (e : jsstr * LedgerEntry) : bool :=
  str_eqb (start_key (snd e)) key.
Definition find_start (key : jsstr) (t : LedgerTable) : option EncounterLedgerRow :=
  (fun e => data (snd e)) <$> head (List.filter (has_start key) (map_to_list t)).
(** [WHERE id = ? OR start_key = ?], also the two uniqueness constraints. *)
Definition taken (id key : jsstr) (t : LedgerTable) : bool :=
  bool_decide (is_Some (t !! id)) || existsb (has_start key) (map_to_list t).

(** [UPDATE ... SET revision, data WHERE id AND start_key AND revision]:
    [None] when no row matches. *)
Definition update (expectedRevision : Z) (row : EncounterLedgerRow) (t : LedgerTable)
    : option LedgerTable :=
  match t !! row_id row with
  | Some e =>
      if str_eqb (start_key e) (startKey row) && (entry_revision e =? expectedRevision)
      then Some (<[row_id row := mkEntry (start_key e) (revision row) row]> t)
      else None
  | None => None
  end.

(** ** Operations *)

Definition lookup_id (id : jsstr) (w : World) : option EncounterLedgerRow :=
  match encounter_tickets w !! id with
  | Some e => Some (data e)
  | None => data <$> encounter_origins w !! id
  end.
Definition lookup_start (key : jsstr) (w : World) : option EncounterLedgerRow :=
  match find_start key (encounter_tickets w) with
  | Some r => Some r
  | None => find_start key (encounter_origins w)
  end.

Definition byId (id : jsstr) : async World (option EncounterLedgerRow) :=
  read_store (lookup_id id).
Definition byStart (key : jsstr) : async World (option EncounterLedgerRow) :=
  read_store (lookup_start key).

Definition insert_row (row : EncounterLedgerRow) (w : World) : World * bool :=
  if taken (row_id row) (startKey row) (encounter_origins w) ||
     taken (row_id row) (startKey row) (encounter_tickets w)
  then (w, false)
  else (with_tickets (<[row_id row := mkEntry (startKey row) (revision row) row]>
                        (encounter_tickets w)) w, true).
Definition insert (row : EncounterLedgerRow) : async World bool :=
  fun w => let '(w', b) := insert_row row w in (w', Finished (inr b)).

Definition replace_row (expectedRevision : Z) (row : EncounterLedgerRow) (w : World)
    : World * bool :=
  match update expectedRevision row (encounter_tickets w) with
  | Some t => (with_tickets t w, true)
  | None =>
      match update expectedRevision row (encounter_origins w) with
      | Some t => (with_origins t w, true)
      | None => (w, false)
      end
  end.
Definition replace (expectedRevision : Z) (row : EncounterLedgerRow) : async World bool :=
  refuse_if (negb (revision row =? expectedRevision + 1) || negb (isSafeInteger (revision row)))
    (js "invalid ledger revision") $
  fun w => let '(w', b) := replace_row expectedRevision row w in (w', Finished (inr b)).

(** ** Well-formed tables *)

Record table_ok (t : LedgerTable) : Prop := {
  columns_agree : forall id e, t !! id = Some e ->
    row_id (data e) = id /\ startKey (data e) = start_key e /\ revision (data e) = entry_revision e;
  starts_unique : forall id id' e e', t !! id = Some e -> t !! id' = Some e' ->
    start_key e = start_key e' -> id = id';
}.

(** Both tables are well formed and no id or start key is in both. *)
Record ledger_ok (w : World) : Prop := {
  tickets_ok : table_ok (encounter_tickets w);
  origins_ok : table_ok (encounter_origins w);
  ids_apart : forall id e e', encounter_tickets w !! id = Some e ->
    encounter_origins w !! id = Some e' -> False;
  starts_apart : forall id id' e e', encounter_tickets w !! id = Some e ->
    encounter_origins w !! id' = Some e' -> start_key e = start_key e' -> False;
}.

Lemma elem_of_starts (key : jsstr) (t : LedgerTable) (id : jsstr) (e : LedgerEntry) :
  (id, e) ∈ List.filter (has_start key) (map_to_list t) <-> t !! id = Some e /\ start_key e = key.
Proof.
  rewrite list_elem_of_In, filter_In, <- list_elem_of_In, elem_of_map_to_list.
  unfold has_start. cbn [snd]. by rewrite str_eqb_eq.
Qed.

Lemma taken_false (id key : jsstr) (t : LedgerTable) :
  taken id key t = false <->
  t !! id = None /\ forall id' e, t !! id' = Some e -> start_key e <> key.
Proof.
  unfold taken. rewrite orb_false_iff, bool_decide_eq_false, eq_None_not_Some. f_equiv.
  rewrite <- not_true_iff_false, existsb_exists. split.
  - intros Hn id' e He Hk. apply Hn. exists (id', e).
    by rewrite <- list_elem_of_In, elem_of_map_to_list, <- (str_eqb_eq _ key) in *.
  - intros Hn ([id' e] & Hin & Hk). apply list_elem_of_In, elem_of_map_to_list in Hin.
    apply (Hn id' e Hin). by apply str_eqb_eq in Hk.
Qed.

Lemma find_start_Some (key : jsstr) (t : LedgerTable) r :
  find_start key t = Some r -> exists id e, t !! id = Some e /\ start_key e = key /\ data e = r.
Proof.
  unfold find_start. destruct (List.filter _ _) as [|[id e] l] eqn:E; [done|].
  intros [= <-]. exists id, e.
  assert ((id, e) ∈ List.filter (has_start key) (map_to_list t)) as Hin by (rewrite E; by left).
  apply elem_of_starts in Hin as [? ?]. done.
Qed.

Lemma find_start_complete (key : jsstr) (t : LedgerTable) (id : jsstr) (e : LedgerEntry) :
  table_ok t -> t !! id = Some e -> start_key e = key -> find_start key t = Some (data e).
Proof.
  intros Ht He Hk.
  assert ((id, e) ∈ List.filter (has_start key) (map_to_list t)) as Hin by (by apply elem_of_starts).
  unfold find_start. destruct (List.filter _ _) as [|[id' e'] l] eqn:E; [by apply not_elem_of_nil in Hin|].
  assert ((id', e') ∈ List.filter (has_start key) (map_to_list t)) as Hin' by (rewrite E; by left).
  apply elem_of_starts in Hin' as [He' Hk']. cbn.
  assert (id' = id) as -> by (eapply (starts_unique t Ht); [done|done|congruence]). congruence.
Qed.

(** ** The two tables as one ledger *)

(** Each row is found at its own id and at its own start key, and only there. *)
Lemma lookup_id_row w id r : ledger_ok w -> lookup_id id w = Some r -> row_id r = id.
Proof.
  intros Hw. unfold lookup_id. destruct (encounter_tickets w !! id) as [e|] eqn:E.
  - intros [= <-]. by apply (columns_agree _ (tickets_ok w Hw)) in E as [? _].
  - destruct (encounter_origins w !! id) as [e|] eqn:E'; [|done]. intros [= <-].
    by apply (columns_agree _ (origins_ok w Hw)) in E' as [? _].
Qed.

Lemma lookup_start_spec w key r : ledger_ok w ->
  lookup_start key w = Some r <-> exists id, lookup_id id w = Some r /\ startKey r = key.
Proof.
  intros Hw. pose proof (columns_agree _ (tickets_ok w Hw)) as Ct.
  pose proof (columns_agree _ (origins_ok w Hw)) as Co. unfold lookup_start, lookup_id. split.
  - destruct (find_start key (encounter_tickets w)) as [r'|] eqn:E.
    + intros [= <-]. apply find_start_Some in E as (id & e & He & Hk & Hd). exists id. rewrite He.
      destruct (Ct id e He) as (_ & Hs & _). subst. by rewrite Hs.
    + intros (id & e & He & Hk & Hd)%find_start_Some. exists id.
      destruct (encounter_tickets w !! id) eqn:E'; [by destruct (ids_apart w Hw id _ _ E' He)|].
      rewrite He. destruct (Co id e He) as (_ & Hs & _). subst. by rewrite Hs.
  - intros (id & Hl & Hk). destruct (encounter_tickets w !! id) as [e|] eqn:E.
    + injection Hl as <-. destruct (Ct id e E) as (_ & Hs & _).
      by rewrite (find_start_complete key _ id e (tickets_ok w Hw) E) by congruence.
    + destruct (encounter_origins w !! id) as [e|] eqn:E'; [|done]. injection Hl as <-.
      destruct (Co id e E') as (_ & Hs & _).
      destruct (find_start key (encounter_tickets w)) as [r'|] eqn:F.
      { apply find_start_Some in F as (id' & e' & He' & Hk' & _).
        destruct (starts_apart w Hw id' id e' e He' E'); congruence. }
      by rewrite (find_start_complete key _ id e (origins_ok w Hw) E') by congruence.
Qed.

Lemma lookup_start_unique w id id' r r' : ledger_ok w ->
  lookup_id id w = Some r -> lookup_id id' w = Some r' -> startKey r = startKey r' -> r = r'.
Proof.
  intros Hw Hr Hr' Hk.
  assert (lookup_start (startKey r) w = Some r) as E1 by (apply lookup_start_spec; eauto).
  assert (lookup_start (startKey r) w = Some r') as E2 by (apply lookup_start_spec; eauto).
  congruence.
Qed.

Lemma taken_lookup w id key : ledger_ok w ->
  taken id key (encounter_origins w) || taken id key (encounter_tickets w) = false <->
  lookup_id id w = None /\ lookup_start key w = None.
Proof.
  intros Hw. rewrite orb_false_iff, !taken_false. unfold lookup_id. split.
  - intros [[Ho So] [Ht St]]. rewrite Ht, Ho. split; [done|].
    destruct (lookup_start key w) as [r|] eqn:E; [|done].
    unfold lookup_start in E. destruct (find_start key (encounter_tickets w)) eqn:F.
    + apply find_start_Some in F as (id' & e1 & He & Hk & _). by destruct (St id' e1).
    + apply find_start_Some in E as (id' & e1 & He & Hk & _). by destruct (So id' e1).
  - intros [Hl Hs]. destruct (encounter_tickets w !! id) eqn:E; [done|].
    destruct (encounter_origins w !! id) eqn:E'; [done|]. unfold lookup_start in Hs.
    destruct (find_start key (encounter_tickets w)) eqn:F; [done|].
    split; (split; [done|]); intros id' e He Hk.
    + by rewrite (find_start_complete key _ id' e (origins_ok w Hw) He Hk) in Hs.
    + by rewrite (find_start_complete key _ id' e (tickets_ok w Hw) He Hk) in F.
Qed.

(** ** Insertion *)

Lemma insert_row_spec w row : ledger_ok w ->
  let '(w', ok) := insert_row row w in
  if ok then
    lookup_id (row_id row) w = None /\ lookup_start (startKey row) w = None /\ ledger_ok w' /\
    forall id, lookup_id id w' = if decide (id = row_id row) then Some row else lookup_id id w
  else w' = w /\ (is_Some (lookup_id (row_id row) w) \/ is_Some (lookup_start (startKey row) w)).
Proof.
  intros Hw. unfold insert_row.
  destruct (taken (row_id row) (startKey row) (encounter_origins w) ||
            taken (row_id row) (startKey row) (encounter_tickets w)) eqn:T.
  { split; [done|]. destruct (lookup_id (row_id row) w) eqn:E; [left; eauto|right].
    destruct (lookup_start (startKey row) w) eqn:E'; [eauto|].
    by rewrite (proj2 (taken_lookup w (row_id row) (startKey row) Hw)) in T. }
  apply (taken_lookup w _ _ Hw) in T as Hl. destruct Hl as [Hid Hst].
  apply orb_false_iff in T as [[Ho So]%taken_false [Ht St]%taken_false].
  split; [done|split; [done|]]. split.
  - destruct (tickets_ok w Hw) as [C U]. split; cbn [with_tickets encounter_tickets encounter_origins].
    + split.
      * intros id e. rewrite lookup_insert_Some. intros [[<- <-]|[_ He]]; [done|by apply C].
      * intros id id' e e'. rewrite !lookup_insert_Some.
        intros [[<- <-]|[Hn He]] [[<- <-]|[Hn' He']] Hk; cbn [start_key] in *; [done| | |].
        -- by destruct (St id' e').
        -- by destruct (St id e).
        -- by apply (U id id' e e').
    + apply (origins_ok w Hw).
    + intros id e e'. rewrite lookup_insert_Some. intros [[<- <-]|[_ He]] He'; [congruence|].
      by apply (ids_apart w Hw id e e').
    + intros id id' e e'. rewrite lookup_insert_Some. intros [[<- <-]|[_ He]] He' Hk.
      * by apply (So id' e').
      * by apply (starts_apart w Hw id id' e e').
  - intros id. unfold lookup_id. cbn [with_tickets encounter_tickets encounter_origins].
    rewrite lookup_insert. by repeat case_decide.
Qed.

(** ** Compare and set *)

Lemma update_spec expected row t t' : table_ok t -> update expected row t = Some t' ->
  exists e, t !! row_id row = Some e /\ startKey (data e) = startKey row /\
    revision (data e) = expected /\
    t' = <[row_id row := mkEntry (startKey row) (revision row) row]> t /\ table_ok t'.
Proof.
  intros [C U] Hu. unfold update in Hu. destruct (t !! row_id row) as [e|] eqn:E; [|done].
  destruct (str_eqb (start_key e) (startKey row)) eqn:K; [|done].
  destruct (Z.eqb_spec (entry_revision e) expected) as [<-|]; [|done]. injection Hu as <-.
  apply str_eqb_eq in K. destruct (C _ _ E) as (Ci & Cs & Cr). exists e. rewrite K.
  split_and!; [done|congruence|done|done|]. split.
  - intros id e'. rewrite lookup_insert_Some. intros [[<- <-]|[_ He]]; [done|by apply C].
  - intros id id' e1 e2. rewrite !lookup_insert_Some.
    intros [[<- <-]|[Hn He]] [[<- <-]|[Hn' He']] Hk; cbn [start_key] in *; [done| | |].
    + apply (U _ _ e e2); [done|done|congruence].
    + apply (U _ _ e1 e); [done|done|congruence].
    + by apply (U id id' e1 e2).
Qed.

Lemma replace_row_spec w expected row : ledger_ok w ->
  let '(w', ok) := replace_row expected row w in
  if ok then
    ledger_ok w' /\
    (exists old, lookup_id (row_id row) w = Some old /\ startKey old = startKey row /\
       revision old = expected) /\
    forall id, lookup_id id w' = if decide (id = row_id row) then Some row else lookup_id id w
  else w' = w.
Proof.
  intros Hw. unfold replace_row.
  destruct (update expected row (encounter_tickets w)) as [t|] eqn:U.
  - apply update_spec in U as (e & He & Hs & Hr & -> & Ht); [|apply (tickets_ok w Hw)].
    destruct (columns_agree _ (tickets_ok w Hw) _ _ He) as (_ & Hk & _). split_and!.
    + split; cbn [with_tickets encounter_tickets encounter_origins];
        [done|apply (origins_ok w Hw)| |].
      * intros id e1 e2. rewrite lookup_insert_Some. intros [[<- <-]|[_ He1]] He2.
        -- by apply (ids_apart w Hw _ _ _ He He2).
        -- by apply (ids_apart w Hw _ _ _ He1 He2).
      * intros id id' e1 e2. rewrite lookup_insert_Some. intros [[<- <-]|[_ He1]] He2 Hk2.
        -- apply (starts_apart w Hw _ _ _ _ He He2). cbn in Hk2. congruence.
        -- by apply (starts_apart w Hw _ _ _ _ He1 He2).
    + exists (data e). unfold lookup_id. by rewrite He.
    + intros id. unfold lookup_id. cbn [with_tickets encounter_tickets encounter_origins].
      rewrite lookup_insert. by repeat case_decide.
  - destruct (update expected row (encounter_origins w)) as [t|] eqn:U'; [|done].
    apply update_spec in U' as (e & He & Hs & Hr & -> & Ht); [|apply (origins_ok w Hw)].
    destruct (columns_agree _ (origins_ok w Hw) _ _ He) as (_ & Hk & _).
    assert (encounter_tickets w !! row_id row = None) as Hn.
    { destruct (encounter_tickets w !! row_id row) eqn:E; [|done].
      by destruct (ids_apart w Hw _ _ _ E He). }
    split_and!.
    + split; cbn [with_origins encounter_tickets encounter_origins];
        [apply (tickets_ok w Hw)|done| |].
      * intros id e1 e2 He1. rewrite lookup_insert_Some. intros [[<- <-]|[_ He2]]; [congruence|].
        by apply (ids_apart w Hw _ _ _ He1 He2).
      * intros id id' e1 e2 He1. rewrite lookup_insert_Some. intros [[<- <-]|[_ He2]] Hk2.
        -- apply (starts_apart w Hw _ _ _ _ He1 He). cbn in Hk2. congruence.
        -- by apply (starts_apart w Hw _ _ _ _ He1 He2).
    + exists (data e). unfold lookup_id. by rewrite Hn, He.
    + intros id. unfold lookup_id. cbn [with_origins encounter_tickets encounter_origins].
      rewrite lookup_insert. repeat case_decide; subst; try done. by rewrite Hn.
Qed.

(** Neither operation touches the host. *)
Lemma replace_row_host w expected row :
  let w' := fst (replace_row expected row w) in
  calls w' = calls w /\ clock_at w' = clock_at w /\ uuid_at w' = uuid_at w /\
  random_at w' = random_at w.
Proof. unfold replace_row. by repeat case_match. Qed.
Lemma insert_row_host w row :
  let w' := fst (insert_row row w) in
  calls w' = calls w /\ clock_at w' = clock_at w /\ uuid_at w' = uuid_at w /\
  random_at w' = random_at w.
Proof. unfold insert_row. by case_match. Qed.
