(* ===== verification/EncounterStore.v ===== *)
(** * The shared SQL store of the encounter service

    [src/encounter-api.ts] gives one database to the ledger, the generations,
    the recovery releases, the archive, the inventory index and the evidence
    cases ([src/encounter-evidence.ts]).  [Store] is that database with the
    host; each component's file models its class over it.

    [tx] is synchronous code over the store.  [transaction] runs it and rolls
    its writes back if it throws; the host is not part of the rollback.
    [on_ledger] runs a handler of the authority, which sees the ledger, the
    open evidence cases and the current generation of the same store. *)
From stdpp Require Import gmap.
From S2P Require Import Prelude Json Contracts Kernel Utf8 CryptoBackend EncounterWire EncounterHttp.
From S2P Require Import EncounterBundle InventoryCheckpoint InventoryRanges Async EncounterLedger.
Set Default Goal Selector "!".

(** [encounter_archive_objects_v1]. *)
Record ArchiveObject := mkArchiveObject {
  ao_custody : ArchiveCustody;
  ao_bundle : option jsstr;
  ao_storedBytes : Z;
  ao_release : option ArchiveRelease;
  ao_generation : Z;
}.
(** [encounter_archive_budget_v1]. *)
Record ArchiveBudget := mkBudget { usedBytes : Z; totalObjects : Z }.
(** [encounter_generations_v1]. *)
Record GenerationRow := mkGenerationRow {
  gr_generation : Z;
  gr_seal : option EncounterGenerationSeal;
}.
(** [encounter_inventory_members_v1], without its key. *)
Record MemberRow := mkMember { m_ticketId : jsstr; m_receiptId : jsstr }.
(** [encounter_evidence_case_bindings], without its key. *)
Record CaseBinding := mkBinding { cb_ticketId : jsstr; cb_assetId : jsstr }.

Record Store := mkStore {
  ledger : World;
  encounter_generations : gmap jsstr GenerationRow;
  generation_floors : gmap jsstr Z;
  admissions : gmap (jsstr * Z * jsstr) EncounterAuthorization;
  legacy_admissions : gmap jsstr EncounterAuthorization;
  archive_objects : gmap jsstr ArchiveObject;
  archive_budget : option ArchiveBudget;
  archive_generations : gmap jsstr Z;
  inventory_heads : gmap (jsstr * jsstr) InventoryCheckpoint;
  inventory_members : gmap (jsstr * jsstr * Z) MemberRow;
  empty_ranges : RangeTable;
  case_bindings : gmap jsstr CaseBinding;
  (** A case of the case service is decided and its resolution delivered. *)
  case_resolved : jsstr -> bool;
}.

(** ** Updates *)

Definition set_ledger (w : World) (st : Store) : Store :=
  mkStore w (encounter_generations st) (generation_floors st) (admissions st) (legacy_admissions st)
    (archive_objects st) (archive_budget st) (archive_generations st) (inventory_heads st)
    (inventory_members st) (empty_ranges st) (case_bindings st) (case_resolved st).
Definition set_generation (unit : jsstr) (row : GenerationRow) (floor : Z) (st : Store) : Store :=
  mkStore (ledger st) (<[unit := row]> (encounter_generations st))
    (<[unit := floor]> (generation_floors st)) (admissions st) (legacy_admissions st)
    (archive_objects st) (archive_budget st) (archive_generations st) (inventory_heads st)
    (inventory_members st) (empty_ranges st) (case_bindings st) (case_resolved st).
Definition set_admissions (a : gmap (jsstr * Z * jsstr) EncounterAuthorization)
    (b : gmap jsstr EncounterAuthorization) (st : Store) : Store :=
  mkStore (ledger st) (encounter_generations st) (generation_floors st) a b
    (archive_objects st) (archive_budget st) (archive_generations st) (inventory_heads st)
    (inventory_members st) (empty_ranges st) (case_bindings st) (case_resolved st).
Definition set_archive (objects : gmap jsstr ArchiveObject) (budget : option ArchiveBudget)
    (floors : gmap jsstr Z) (st : Store) : Store :=
  mkStore (ledger st) (encounter_generations st) (generation_floors st) (admissions st)
    (legacy_admissions st) objects budget floors (inventory_heads st)
    (inventory_members st) (empty_ranges st) (case_bindings st) (case_resolved st).
Definition set_inventory (heads : gmap (jsstr * jsstr) InventoryCheckpoint)
    (members : gmap (jsstr * jsstr * Z) MemberRow) (ranges : RangeTable) (st : Store) : Store :=
  mkStore (ledger st) (encounter_generations st) (generation_floors st) (admissions st)
    (legacy_admissions st) (archive_objects st) (archive_budget st) (archive_generations st)
    heads members ranges (case_bindings st) (case_resolved st).
Definition set_cases (bindings : gmap jsstr CaseBinding) (st : Store) : Store :=
  mkStore (ledger st) (encounter_generations st) (generation_floors st) (admissions st)
    (legacy_admissions st) (archive_objects st) (archive_budget st) (archive_generations st)
    (inventory_heads st) (inventory_members st) (empty_ranges st) bindings (case_resolved st).

(** ** Synchronous code *)

Definition tx (A : Type) := Store -> Store * throws A.
Definition tret {A} (a : A) : tx A := fun st => (st, inr a).
Definition tthrow {A} (e : jsstr) : tx A := fun st => (st, inl e).
Definition tbind {A B} (m : tx A) (f : A -> tx B) : tx B :=
  fun st => match m st with (st', inr a) => f a st' | (st', inl e) => (st', inl e) end.
Definition tread {A} (f : Store -> throws A) : tx A := fun st => (st, f st).
Definition twrite (f : Store -> Store) : tx True := fun st => (f st, inr I).
Definition tguard {A} (c : bool) (e : jsstr) (k : tx A) : tx A := if c then tthrow e else k.
Fixpoint titer {A} (f : A -> tx True) (l : list A) : tx True :=
  match l with [] => tret I | a :: l' => tbind (f a) (fun _ => titer f l') end.
Fixpoint tmap {A B} (f : A -> tx B) (l : list A) : tx (list B) :=
  match l with
  | [] => tret []
  | a :: l' => tbind (f a) (fun b => tbind (tmap f l') (fun bs => tret (b :: bs)))
  end.

Definition tnow : tx Z :=
  fun st => (set_ledger (called (ledger st)) st, inr (clock_at (ledger st) (calls (ledger st)))).
(** [row.ledger.replace] inside a transaction. *)
Definition treplace (expectedRevision : Z) (row : EncounterLedgerRow) : tx bool :=
  tguard (negb (revision row =? expectedRevision + 1) || negb (isSafeInteger (revision row)))
    (js "invalid ledger revision") $
  fun st => let '(w, b) := replace_row expectedRevision row (ledger st) in (set_ledger w st, inr b).

Definition with_calls (n : nat) (w : World) : World :=
  mkWorld (encounter_tickets w) (encounter_origins w) n (clock_at w) (uuid_at w) (random_at w)
    (evidenceCases w) (currentGeneration w).
Definition rolled_back (before after : Store) : Store :=
  set_ledger (with_calls (calls (ledger after)) (ledger before)) before.
Definition transaction {A} (body : tx A) : async Store A :=
  fun st => match body st with
            | (st', inr a) => (st', Finished (inr a))
            | (st', inl e) => (rolled_back st st', Finished (inl e))
            end.
(** Synchronous code outside a transaction that writes nothing but calls the
    host. *)
Definition sync {A} (body : tx A) : async Store A :=
  fun st => let '(st', r) := body st in (st', Finished r).

(** ** Evidence cases *)

Definition has_ticket (id : jsstr) (b : jsstr * CaseBinding) : bool := str_eqb (cb_ticketId (snd b)) id.
Definition bound_cases (id : jsstr) (st : Store) : list (jsstr * CaseBinding) :=
  List.filter (has_ticket id) (map_to_list (case_bindings st)).
(** A bound case keeps its ticket held until the case is decided and its exact
    resolution is delivered. *)
Definition hasHold (st : Store) (ticketId : jsstr) : bool :=
  existsb (fun b => negb (case_resolved st (fst b))) (bound_cases ticketId st).

(** ** The authority on the store *)

Section OnLedger.
Context (current : jsstr -> Store -> throws Z).

(** What the authority sees of the store. *)
Definition view (st : Store) : World :=
  let w := ledger st in
  mkWorld (encounter_tickets w) (encounter_origins w) (calls w) (clock_at w) (uuid_at w)
    (random_at w) (Some (hasHold st)) (Some (fun unit => current unit st)).

Fixpoint lift_step {A} (s : step World A) : step Store A :=
  match s with
  | Finished r => Finished r
  | Suspended k => Suspended (fun st =>
      let '(w, s') := k (view st) in (set_ledger w st, lift_step s'))
  end.
Definition on_ledger {A} (m : async World A) : async Store A :=
  fun st => let '(w, s) := m (view st) in (set_ledger w st, lift_step s).
End OnLedger.

Notation "'let^' x ':=' m 'in' k" := (tbind m (fun x => k))
  (at level 200, x pattern, m at level 100, k at level 200, right associativity).

(** * Facts about code over the database

    Inverting and framing synchronous code, and the specification of reads,
    calls of the clock and transactions inside the handlers. *)

(** ** Synchronous code *)

Lemma tbind_inv {A B} (m : tx A) (f : A -> tx B) st st' r :
  tbind m f st = (st', r) ->
  (exists st1 a, m st = (st1, inr a) /\ f a st1 = (st', r)) \/
  (exists e, m st = (st', inl e) /\ r = inl e).
Proof.
  unfold tbind. destruct (m st) as [st1 [e|a]]; [|eauto]. intros [= <- <-]. eauto.
Qed.
Lemma tbind_ok {A B} (m : tx A) (f : A -> tx B) st st' b :
  tbind m f st = (st', inr b) -> exists st1 a, m st = (st1, inr a) /\ f a st1 = (st', inr b).
Proof. intros [?|(e & _ & [=])]%tbind_inv. done. Qed.
Lemma tguard_ok {A} c e (k : tx A) st st' a :
  tguard c e k st = (st', inr a) -> c = false /\ k st = (st', inr a).
Proof. unfold tguard. destruct c; [done|]. done. Qed.
Lemma tread_ok {A} (f : Store -> throws A) st st' a :
  tread f st = (st', inr a) -> st' = st /\ f st = inr a.
Proof. unfold tread. by intros [= <- ->]. Qed.

(** Inverts a successful run of synchronous code, statement by statement. *)
Ltac tx_step H :=
  match type of H with
  | tbind _ _ _ = (_, inr _) =>
      let st := fresh "st" in let a := fresh "a" in let E := fresh "E" in
      apply tbind_ok in H as (st & a & E & H); tx_step E
  | tguard _ _ _ _ = (_, inr _) => let G := fresh "G" in apply tguard_ok in H as [G H]
  | tread _ _ = (_, inr _) => apply tread_ok in H as [-> H]
  | tret _ _ = (_, inr _) => apply pair_equal_spec in H as [<- H]; apply (inj inr) in H
  | twrite _ _ = (_, inr _) => apply pair_equal_spec in H as [<- _]
  | _ => idtac
  end.
Ltac tx_run H := repeat (tx_step H; cbv beta in H).

Section Transaction.
Context (Inv : Store -> Prop) (R : Store -> Store -> Prop).

Lemma spec_transaction {A} (body : tx A) st (Q : throws A -> Store -> Prop) :
  (forall st' a, body st = (st', inr a) -> Inv st' /\ R st st' /\ Q (inr a) st') ->
  (forall st' e, body st = (st', inl e) ->
     Inv (rolled_back st st') /\ R st (rolled_back st st') /\ Q (inl e) (rolled_back st st')) ->
  spec Inv R (transaction body) st Q.
Proof.
  intros Hok Her. unfold spec, transaction. destruct (body st) as [st' [e|a]]; cbn [fst snd settles].
  - by apply Her.
  - by apply Hok.
Qed.
Lemma spec_sync_read {A B} (f : Store -> throws A) (k : A -> async Store B) st Q :
  Inv st -> Reflexive R ->
  (forall a, f st = inr a -> spec Inv R (k a) st Q) ->
  (forall e, f st = inl e -> Q (inl e) st) ->
  spec Inv R (abind (sync (tread f)) k) st Q.
Proof.
  intros Hi Hr Hk He. unfold spec, abind, sync, tread. destruct (f st) as [e|a]; cbn [step_bind fst snd].
  - split; [done|]. split; [reflexivity|]. by apply He.
  - by apply (Hk a).
Qed.
End Transaction.

(** ** Framing synchronous code *)

Section TxWithin.
Context (G : Store -> Store -> Prop) {G_preorder : PreOrder G}.

(** Run anywhere, [m] changes the store within [G], also when it throws. *)
Definition tx_within {A} (m : tx A) : Prop := forall st, G st (fst (m st)).
Lemma tx_within_bind {A B} (m : tx A) (f : A -> tx B) :
  tx_within m -> (forall a, tx_within (f a)) -> tx_within (tbind m f).
Proof.
  intros Hm Hf st. unfold tbind. specialize (Hm st). destruct (m st) as [st1 [e|a]]; [done|].
  etrans; [exact Hm|apply Hf].
Qed.
Lemma tx_within_read {A} (f : Store -> throws A) : tx_within (tread f).
Proof. intros st. cbn. reflexivity. Qed.
Lemma tx_within_ret {A} (a : A) : tx_within (tret a).
Proof. intros st. cbn. reflexivity. Qed.
Lemma tx_within_throw {A} e : tx_within (@tthrow A e).
Proof. intros st. cbn. reflexivity. Qed.
Lemma tx_within_guard {A} c e (k : tx A) : tx_within k -> tx_within (tguard c e k).
Proof. intros Hk. unfold tguard. destruct c; [apply tx_within_throw|done]. Qed.
Lemma tx_within_iter {A} (f : A -> tx True) l : (forall a, tx_within (f a)) -> tx_within (titer f l).
Proof. intros Hf. induction l as [|a l IH]; [apply tx_within_ret|]. by apply tx_within_bind. Qed.
Lemma tx_within_map {A B} (f : A -> tx B) l : (forall a, tx_within (f a)) -> tx_within (tmap f l).
Proof.
  intros Hf. induction l as [|a l IH]; cbn [tmap]; [apply tx_within_ret|].
  apply tx_within_bind; [done|]. intros b. apply tx_within_bind; [done|]. intros bs. apply tx_within_ret.
Qed.
Lemma tx_within_sync {A} (body : tx A) : tx_within body -> within G (sync body).
Proof. intros Hb st. specialize (Hb st). unfold sync. by destruct (body st) as [st' r]. Qed.
End TxWithin.
Ltac tx_step_within :=
  match goal with
  | |- tx_within _ (tbind _ _) => apply tx_within_bind; [exact _| |intros ?]
  | |- tx_within _ (tread _) => apply tx_within_read; exact _
  | |- tx_within _ (tret _) => apply tx_within_ret; exact _
  | |- tx_within _ (tthrow _) => apply tx_within_throw; exact _
  | |- tx_within _ (tguard _ _ _) => apply tx_within_guard; [exact _|]
  | |- tx_within _ (titer _ _) => apply tx_within_iter; [exact _|intros ?]
  | |- tx_within _ (tmap _ _) => apply tx_within_map; [exact _|intros ?]
  | |- tx_within _ (match ?x with _ => _ end) => destruct x
  end.

(** ** Handlers of a component that leaves the ledger alone *)

Section Handlers.
Context (Inv : Store -> Prop) (R : Store -> Store -> Prop) {R_preorder : PreOrder R}.
Hypothesis ledger_free : forall st w, Inv st -> Inv (set_ledger w st) /\ R st (set_ledger w st).

(** Nothing is written but the ledger's count of host calls. *)
Definition ledger_only (st st' : Store) : Prop := exists w, st' = set_ledger w st.
#[export] Instance ledger_only_preorder : PreOrder ledger_only.
Proof.
  split; [intros st; exists (ledger st); by destruct st|]. intros st1 st2 st3 [w ->] [w' ->]. by exists w'.
Qed.
Lemma ledger_only_now : tx_within ledger_only tnow.
Proof. intros st. by eexists. Qed.

Lemma yields_read {A B} (f : Store -> throws A) (k : A -> async Store B) st Q :
  Inv st -> (forall a, f st = inr a -> yields Inv R (k a) st Q) -> yields Inv R (abind (sync (tread f)) k) st Q.
Proof. intros Hok Hk. by apply spec_sync_read; [done|intros ?; reflexivity|..]. Qed.
Lemma yields_sync {A B} (m : tx A) (k : A -> async Store B) st Q :
  tx_within ledger_only m -> Inv st ->
  (forall a st', m st = (st', inr a) -> Inv st' -> R st st' -> yields Inv R (k a) st' Q) ->
  yields Inv R (abind (sync m) k) st Q.
Proof.
  intros Hm Hok Hk. specialize (Hm st). unfold yields, spec, abind, sync. destruct (m st) as [st' r] eqn:E.
  destruct Hm as [w Hw]. cbn [fst] in Hw. destruct (ledger_free st w Hok) as [Hok' Hr]. rewrite <- Hw in Hok', Hr.
  destruct r as [e|a]; cbn [step_bind athrow fst snd settles]; [by split_and!|].
  destruct (Hk a st' eq_refl Hok' Hr) as (Hi & Hr2 & Hs). split_and!; [done|by etrans|done].
Qed.
Lemma yields_now {B} (k : Z -> async Store B) st Q :
  Inv st -> (forall now st', Inv st' -> R st st' -> yields Inv R (k now) st' Q) ->
  yields Inv R (abind (sync tnow) k) st Q.
Proof. intros Hok Hk. apply yields_sync; [apply ledger_only_now|done|]. intros a st' _. apply Hk. Qed.
Lemma yields_transaction {A} (body : tx A) st (Q : A -> Store -> Prop) :
  Inv st -> (forall st' a, body st = (st', inr a) -> Inv st' /\ R st st' /\ Q a st') ->
  yields Inv R (transaction body) st Q.
Proof.
  intros Hok Hb. apply spec_transaction; [done|]. intros st' e _.
  destruct (ledger_free st (with_calls (calls (ledger st')) (ledger st)) Hok). done.
Qed.
End Handlers.
