(* ===== verification/ArchiveStore.v ===== *)
(** * The archive of settled encounters

    [game/encounter/archive-store.ts]: [SqliteEncounterArchive], which stores
    the replay evidence of a settled encounter before it promises custody, and
    deletes it only for a release signed by the authority.  The accounting table
    bounds its bytes and objects; the table of minimum generations replaces the
    tombstones of a retired generation. *)
From stdpp Require Import gmap.
From S2P Require Import Prelude Json Contracts Kernel Utf8 CryptoBackend EncounterWire EncounterHttp.
From S2P Require Import EncounterBundle InventoryCheckpoint InventoryRanges Async EncounterLedger EncounterStore.
Set Default Goal Selector "!".

Record EncounterArchiveOptions := mkArchiveOptions {
  ar_signer : AsyncAuditSigner;
  trustedAuthorityKey : jsstr;
  ar_crypto : SubtleCrypto;
  maxBytes : Z;
  maxObjects : Z;
  (** The error the test hook [injectWriteFault] throws, if it throws. *)
  injectWriteFault : option jsstr;
}.
(** What [read] returns for a stored object. *)
Record ArchiveRead := mkArchiveRead {
  rd_custody : ArchiveCustody;
  rd_bundle : option EncounterArchiveBundle;
  rd_release : option ArchiveRelease;
}.

Section Archive.
Context `{JsHost} (options : EncounterArchiveOptions).
Definition archivePublicKey : jsstr := as_publicKey (ar_signer options).
Definition archiveBackend : AuditCryptoBackend := createStandardWebCryptoBackend (ar_crypto options).

(** The constructor refuses other options. *)
Definition archiveConfigured : bool :=
  isDigestText archivePublicKey && isDigestText (trustedAuthorityKey options) &&
  isTime (maxBytes options) && (1 <=? maxBytes options) && (maxBytes options <=? 1048576) &&
  isTime (maxObjects options) && (1 <=? maxObjects options) && (maxObjects options <=? 1024).

(** ** Reading *)

Definition total_bytes (objects : gmap jsstr ArchiveObject) : Z :=
  map_fold (fun _ x n => ao_storedBytes x + n) 0 objects.

Definition snapshot (st : Store) : throws ArchiveBudget :=
  match archive_budget st with
  | Some b =>
      throw_if (negb (isTime (usedBytes b)) || negb (isTime (totalObjects b)))
        (js "invalid archive accounting") $ inr b
  | None => inl (js "invalid archive accounting")
  end.

Definition minimumGeneration (unit : jsstr) (st : Store) : throws Z :=
  match archive_generations st !! unit with
  | Some g => throw_if (negb (isTime g)) (js "invalid archive generation") $ inr g
  | None => inr 0
  end.

(** [WHERE json_extract(custody, '$.statement.unit') = ? AND generation <= ?]. *)
Definition retires (unit : jsstr) (generation : Z) (x : ArchiveObject) : bool :=
  str_eqb (cs_unit (custody_statement (ao_custody x))) unit && (ao_generation x <=? generation).
Definition retired_objects (unit : jsstr) (generation : Z) (st : Store) : gmap jsstr ArchiveObject :=
  filter (fun kx => Is_true (retires unit generation (snd kx))) (archive_objects st).

Definition canRetireGeneration (unit : jsstr) (generation : Z) (st : Store) : throws bool :=
  if isTime generation && (generation <? MAX_SAFE_INTEGER) then
    let! minimum := minimumGeneration unit st in
    inr ((minimum =? generation) &&
         bool_decide (map_Forall (fun _ x => ao_bundle x = None) (retired_objects unit generation st)))
  else inr false.

Definition read (ticketId : jsstr) (st : Store) : throws (option ArchiveRead) :=
  match archive_objects st !! ticketId with
  | None => inr None
  | Some x =>
      let s := custody_statement (ao_custody x) in
      throw_if (negb (str_eqb (archiveKey s) archivePublicKey) ||
                negb (str_eqb (cs_authorityKey s) (trustedAuthorityKey options)))
        (js "archive key changed") $
      let! bundle := match ao_bundle x with
                     | None => inr None
                     | Some text => let! b := decodeArchiveBundle text in inr (Some b)
                     end in
      inr (Some (mkArchiveRead (ao_custody x) bundle (ao_release x)))
  end.

Definition retry (old : ArchiveRead) (digest : jsstr) : throws ArchiveCustody :=
  match rd_bundle old with
  | None => inl (js "archive already released")
  | Some _ =>
      throw_if (negb (str_eqb (bundleDigest (custody_statement (rd_custody old))) digest))
        (js "archive evidence cannot change") $
      inr (rd_custody old)
  end.

(** ** The constructor's audit of the accounting *)

Definition openArchive : tx True :=
  let^ _ := (fun st =>
    let n := Z.of_nat (size (archive_objects st)) in
    let used := total_bytes (archive_objects st) in
    match archive_budget st with
    | None =>
        if negb (n =? 0) || negb (used =? 0)
        then (st, inl (js "missing archive accounting for retained evidence"))
        else (set_archive (archive_objects st) (Some (mkBudget 0 0)) (archive_generations st) st, inr I)
    | Some b =>
        if negb (usedBytes b =? used) || negb (totalObjects b =? n)
        then (st, inl (js "inconsistent archive accounting")) else (st, inr I)
    end) in
  let^ budget := tread snapshot in
  tguard ((maxBytes options <? usedBytes budget) || (maxObjects options <? totalObjects budget))
    (js "archive accounting exceeds configured capacity") $
  tret I.

(** ** Retiring a generation *)

Definition retireGenerationInTransaction (unit : jsstr) (generation : Z) : tx True :=
  let^ allowed := tread (canRetireGeneration unit generation) in
  tguard (negb allowed) (js "archive generation still retained") $
  let^ count := tread (fun st => inr (Z.of_nat (size (retired_objects unit generation st)))) in
  let^ budget := tread snapshot in
  tguard (totalObjects budget <? count) (js "invalid archive accounting") $
  twrite (fun st => set_archive
    (filter (fun kx => ~ Is_true (retires unit generation (snd kx))) (archive_objects st))
    (Some (mkBudget (usedBytes budget) (totalObjects budget - count)))
    (<[unit := generation + 1]> (archive_generations st)) st).

(** ** Storing *)

Definition write_fault : tx True :=
  match injectWriteFault options with Some e => tthrow e | None => tret I end.

Definition custodyStatement (b : EncounterArchiveBundle) (text digest : jsstr) (storedAt : Z)
    : ArchiveCustodyStatement :=
  let t := b_ticket b in
  mkCustodyStatement 1 archivePublicKey (authorityKey t) (ticketId t) (unit (t_authorization t))
    (queueId t) (c_root (b_commitment b)) (receiptId (b_receipt b)) (chunkDigests (b_commitment b))
    digest (byteLength text) storedAt (rs_retentionUntil (receipt_statement (b_receipt b)))
    (js "authority-release-v1").

Definition insertObject (id : jsstr) (generation : Z) (unit digest text : jsstr) (custody : ArchiveCustody)
    : tx ArchiveCustody :=
  let^ minimum := tread (minimumGeneration unit) in
  tguard (generation <? minimum) (js "archive generation retired") $
  let^ old := tread (read id) in
  match old with
  | Some old => tread (fun _ => retry old digest)
  | None =>
      let bytes := storedBytes (custody_statement custody) in
      let^ budget := tread snapshot in
      tguard ((maxBytes options <? usedBytes budget + bytes) || (maxObjects options <=? totalObjects budget))
        (js "archive capacity exhausted") $
      let^ _ := twrite (fun st => set_archive
        (<[id := mkArchiveObject custody (Some text) bytes None generation]> (archive_objects st))
        (Some (mkBudget (usedBytes budget + bytes) (totalObjects budget + 1)))
        (archive_generations st) st) in
      let^ _ := write_fault in
      tret custody
  end.

(** The receipt, the reveal, the commitment and the ticket belong together. *)
Definition archiveEvidenceBinds (b : EncounterArchiveBundle) : bool :=
  let s := receipt_statement (b_receipt b) in
  evidence_binds b && str_eqb (rs_ticketId s) (ticketId (b_ticket b)) &&
  str_eqb (rs_root s) (c_root (b_commitment b)).

Definition store (input : EncounterArchiveBundle) : async Store ArchiveCustody :=
  let* text := of_throws (encodeArchiveBundle input) in
  let* bundle := of_throws (decodeArchiveBundle text) in
  let ticket := b_ticket bundle in
  let a := t_authorization ticket in
  let generation := default 0 (generation a) in
  refuse_if (negb (isTime generation)) (js "archive generation retired") $
  let* minimum := sync (tread (minimumGeneration (unit a))) in
  refuse_if (generation <? minimum) (js "archive generation retired") $
  let* digest := await (hash archiveBackend text) in
  let* existing := sync (tread (read (ticketId ticket))) in
  match existing with
  | Some old => of_throws (retry old digest)
  | None =>
      let* valid := await (evidence_verifies archiveBackend bundle (trustedAuthorityKey options)) in
      refuse_if (negb valid || negb (archiveEvidenceBinds bundle)) (js "invalid archive evidence") $
      let* _ := await (decodeEncounterLog archiveBackend ticket (b_commitment bundle) (b_chunks bundle)) in
      let* storedAt := sync tnow in
      refuse_if (negb (isTime storedAt) || (storedAt <? settledAt (receipt_statement (b_receipt bundle))))
        (js "invalid archive clock") $
      let statement := custodyStatement bundle text digest storedAt in
      let* custodyId := await (hash archiveBackend (archiveCustodyFrame statement)) in
      let* signature := await (as_signDigest (ar_signer options) custodyId) in
      let custody := mkCustody statement custodyId signature in
      transaction (insertObject (ticketId ticket) generation (unit a) digest text custody)
  end.

(** ** Releasing *)

Definition releaseMismatch (s : ArchiveReleaseStatement) (c : ArchiveCustody) : bool :=
  negb (str_eqb (custodyId c) (ars_custodyId s)) ||
  negb (str_eqb (cs_queueId (custody_statement c)) (ars_queueId s)) ||
  negb (str_eqb (cs_root (custody_statement c)) (ars_root s)) ||
  (closedAt s <? minRetainUntil (custody_statement c)).
Definition releaseObject (certificate : ArchiveRelease) : tx ArchiveRelease :=
  let s := release_statement certificate in
  let^ old := tread (read (ars_ticketId s)) in
  match old with
  | None => tthrow (js "archive release binding or deadline mismatch")
  | Some old =>
      let c := rd_custody old in
      tguard (releaseMismatch s c) (js "archive release binding or deadline mismatch") $
      match rd_release old with
      | Some r => tret r
      | None =>
          let bytes := storedBytes (custody_statement c) in
          let^ budget := tread snapshot in
          tguard (negb (bool_decide (is_Some (rd_bundle old))) || (usedBytes budget <? bytes))
            (js "invalid archive accounting") $
          let^ _ := twrite (fun st => set_archive
            (alter (fun x => mkArchiveObject (ao_custody x) None 0 (Some certificate) (ao_generation x))
               (ars_ticketId s) (archive_objects st))
            (Some (mkBudget (usedBytes budget - bytes) (totalObjects budget)))
            (archive_generations st) st) in
          let^ _ := write_fault in
          tret certificate
      end
  end.
Definition release (certificate : ArchiveRelease) : async Store ArchiveRelease :=
  let s := release_statement certificate in
  refuse_if (negb (ars_version s =? 1) || negb (str_eqb (ars_authorityKey s) (trustedAuthorityKey options)) ||
             negb (isTime (closedAt s))) (js "invalid archive release") $
  let* id := await (hash archiveBackend (archiveReleaseFrame s)) in
  refuse_if (negb (str_eqb (releaseId certificate) id)) (js "invalid archive release") $
  let* valid := await (cb_verify archiveBackend (trustedAuthorityKey options) (releaseId certificate)
                         (release_signature certificate)) in
  refuse_if (negb valid) (js "invalid archive release") $
  transaction (releaseObject certificate).
End Archive.
