(* ===== verification/ArchiveFacts.v ===== *)
(** * Facts about the archive

    The accounting is exact and within its bounds, evidence is deleted only for
    a certificate the authority signed, and what the archive returns verifies.
    All of it under any interleaving of the archive's calls with each other and
    with the rest of the service. *)
From stdpp Require Import gmap.
From S2P Require Import Prelude Json Contracts Kernel Utf8 CryptoBackend EncounterWire EncounterHttp.
From S2P Require Import EncounterBundle InventoryCheckpoint InventoryRanges Async EncounterLedger EncounterStore ArchiveStore.
From S2P Require Import OwnerAuth OwnerFacts EncounterWireFacts EncounterHttpFacts.
Set Default Goal Selector "!".

(** ** Sums over the objects *)

Lemma total_bytes_insert (id : jsstr) (x : ArchiveObject) (m : gmap jsstr ArchiveObject) :
  m !! id = None -> total_bytes (<[id := x]> m) = ao_storedBytes x + total_bytes m.
Proof. intros Hn. unfold total_bytes. rewrite map_fold_insert_L; [done| |done]. intros. lia. Qed.
Lemma total_bytes_delete (id : jsstr) (x : ArchiveObject) (m : gmap jsstr ArchiveObject) :
  m !! id = Some x -> total_bytes m = ao_storedBytes x + total_bytes (delete id m).
Proof. intros Hx. unfold total_bytes. rewrite (map_fold_delete_L _ _ id x); [done| |done]. intros. lia. Qed.
Lemma total_bytes_alter (f : ArchiveObject -> ArchiveObject) (id : jsstr) (x : ArchiveObject) (m : gmap jsstr ArchiveObject) :
  m !! id = Some x ->
  total_bytes (alter f id m) = total_bytes m - ao_storedBytes x + ao_storedBytes (f x).
Proof.
  intros Hx. rewrite (alter_alt_Some f m id x Hx), <- insert_delete_eq.
  rewrite total_bytes_insert by apply lookup_delete_eq. rewrite (total_bytes_delete id x m Hx). lia.
Qed.
Lemma total_bytes_filter (P : jsstr * ArchiveObject -> Prop) `{forall kx, Decision (P kx)}
    (m : gmap jsstr ArchiveObject) :
  (forall id x, m !! id = Some x -> ~ P (id, x) -> ao_storedBytes x = 0) ->
  total_bytes (filter P m) = total_bytes m.
Proof.
  induction m as [|id x m Hn IH] using map_ind; intros Hz; [by rewrite map_filter_empty|].
  rewrite (total_bytes_insert id x m Hn).
  assert (Hm : forall id' x', m !! id' = Some x' -> ~ P (id', x') -> ao_storedBytes x' = 0).
  { intros id' x' Hx'. apply Hz. apply lookup_insert_Some. right. split; [|done]. intros ->. congruence. }
  specialize (IH Hm). destruct (decide (P (id, x))) as [HP|HP].
  - rewrite map_filter_insert_True by done. rewrite total_bytes_insert; [lia|].
    apply map_lookup_filter_None. by left.
  - rewrite map_filter_insert_False by done. rewrite (delete_id m) by done.
    rewrite (Hz id x) by (done || apply lookup_insert_eq). lia.
Qed.

Lemma size_filter_split (P : jsstr * ArchiveObject -> Prop) `{forall kx, Decision (P kx)}
    (m : gmap jsstr ArchiveObject) :
  size m = (size (filter P m) + size (filter (fun kx => ~ P kx) m))%nat.
Proof.
  induction m as [|id x m Hn IH] using map_ind; [by rewrite !map_filter_empty|].
  assert (Hf : forall Q : jsstr * ArchiveObject -> Prop, forall D : (forall kx, Decision (Q kx)),
            filter Q m !! id = None) by (intros; apply map_lookup_filter_None; by left).
  rewrite map_size_insert_None by done. destruct (decide (P (id, x))) as [HP|HP].
  - rewrite map_filter_insert_True by done. rewrite (map_filter_insert_False (fun kx => ~ P kx)) by (by intros ?).
    rewrite (delete_id m) by done. rewrite map_size_insert_None by apply Hf. lia.
  - rewrite map_filter_insert_False by done. rewrite (map_filter_insert_True (fun kx => ~ P kx)) by done.
    rewrite (delete_id m) by done. rewrite (map_size_insert_None id x (filter (fun kx => ~ P kx) m)) by apply Hf. lia.
Qed.

(** ** The invariant *)

Section Invariant.
Context `{JsHost} (options : EncounterArchiveOptions).
Let backend := archiveBackend options.
Let authority := trustedAuthorityKey options.

(** A certificate with which the authority has given up an object. *)
Definition valid_release (c : ArchiveCustody) (r : ArchiveRelease) : Prop :=
  let s := release_statement r in
  releaseMismatch s c = false /\ ars_version s = 1 /\ ars_authorityKey s = authority /\
  hash backend (archiveReleaseFrame s) = inr (releaseId r) /\
  cb_verify backend authority (releaseId r) (release_signature r) = inr true.

(** The text is a bundle whose certificates verify and belong together, and the
    custody certificate was signed for it. *)
Definition evidence_ok (c : ArchiveCustody) (text : jsstr) : Prop :=
  exists b digest at_ inputs,
    decodeArchiveBundle text = inr b /\ encodeArchiveBundle b = inr text /\
    evidence_verifies backend b authority = inr true /\ archiveEvidenceBinds b = true /\
    decodeEncounterLog backend (b_ticket b) (b_commitment b) (b_chunks b) = inr inputs /\
    length (chunkDigests (b_commitment b)) = 2%nat /\
    hash backend text = inr digest /\ isTime at_ = true /\
    custody_statement c = custodyStatement options b text digest at_ /\
    hash backend (archiveCustodyFrame (custody_statement c)) = inr (custodyId c) /\
    as_signDigest (ar_signer options) (custodyId c) = inr (custody_signature c).

Record object_ok (id : jsstr) (x : ArchiveObject) : Prop := {
  oo_id : cs_ticketId (custody_statement (ao_custody x)) = id;
  oo_bytes : 0 <= ao_storedBytes x;
  oo_evidence : match ao_bundle x with
    | Some text => ao_release x = None /\
        ao_storedBytes x = storedBytes (custody_statement (ao_custody x)) /\ evidence_ok (ao_custody x) text
    | None => ao_storedBytes x = 0 /\ exists r, ao_release x = Some r /\ valid_release (ao_custody x) r
    end;
}.

Definition object_unit (x : ArchiveObject) : jsstr := cs_unit (custody_statement (ao_custody x)).
Definition floor (unit : jsstr) (st : Store) : Z := default 0 (archive_generations st !! unit).

Record archive_ok (st : Store) : Prop := {
  ar_budget : exists b, archive_budget st = Some b /\
    usedBytes b = total_bytes (archive_objects st) /\
    totalObjects b = Z.of_nat (size (archive_objects st)) /\
    usedBytes b <= maxBytes options /\ totalObjects b <= maxObjects options;
  ar_objects : forall id x, archive_objects st !! id = Some x ->
    object_ok id x /\ floor (object_unit x) st <= ao_generation x;
}.

(** Objects stay, or lose their evidence to a valid release; a released object
    goes when its generation is retired; retired generations stay retired. *)
Record archive_evolves (st st' : Store) : Prop := {
  av_floor : forall unit, floor unit st <= floor unit st';
  av_objects : forall id x, archive_objects st !! id = Some x ->
    archive_objects st' !! id = Some x \/
    ((exists r, valid_release (ao_custody x) r) /\
     ((exists x', archive_objects st' !! id = Some x' /\ ao_custody x' = ao_custody x /\
         ao_generation x' = ao_generation x /\ ao_bundle x' = None) \/
      ao_generation x < floor (object_unit x) st'));
}.
#[export] Instance archive_evolves_preorder : PreOrder archive_evolves.
Proof.
  split.
  - intros st. split; [done|]. intros id x Hx. by left.
  - intros st1 st2 st3 [F1 O1] [F2 O2]. split; [intros unit; etrans; [apply F1|apply F2]|].
    intros id x Hx. destruct (O1 id x Hx) as [Hx2|[Hr [(x2 & Hx2 & Ec & Eg & Eb)|Hg]]].
    + by apply O2.
    + right. split; [done|].
      destruct (O2 id x2 Hx2) as [Hx3|[_ [(x3 & Hx3 & Ec' & Eg' & Eb')|Hg]]].
      * left. by exists x2.
      * left. exists x3. split_and!; [done|congruence..|done].
      * right. unfold object_unit in *. rewrite <- Ec, <- Eg. done.
    + right. split; [done|]. right. pose proof (F2 (object_unit x)). lia.
Qed.

Lemma floor_set u unit (g : Z) objects budget st :
  floor u (set_archive objects budget (<[unit := g]> (archive_generations st)) st) =
  if decide (u = unit) then g else floor u st.
Proof.
  unfold floor. cbn [set_archive archive_generations]. case_decide; subst.
  - by rewrite lookup_insert_eq.
  - by rewrite lookup_insert_ne.
Qed.

(** The archive's tables are all that matters. *)
Definition same_archive (st st' : Store) : Prop :=
  archive_objects st' = archive_objects st /\ archive_budget st' = archive_budget st /\
  archive_generations st' = archive_generations st.
Lemma same_archive_ok st st' : same_archive st st' -> archive_ok st -> archive_ok st' /\ archive_evolves st st'.
Proof.
  intros (Eo & Eb & Eg) [Hb Ho]. split.
  - split; rewrite ?Eo, ?Eb; [done|]. intros id x Hx. unfold floor. rewrite Eg. by apply Ho.
  - split; [intros unit; unfold floor; by rewrite Eg|]. intros id x Hx. left. by rewrite Eo.
Qed.

Lemma snapshot_ok st b : archive_ok st -> snapshot st = inr b ->
  archive_budget st = Some b /\ usedBytes b = total_bytes (archive_objects st) /\
  totalObjects b = Z.of_nat (size (archive_objects st)) /\
  usedBytes b <= maxBytes options /\ totalObjects b <= maxObjects options.
Proof.
  intros Hok. unfold snapshot. destruct (ar_budget st Hok) as (b' & -> & Hb). unfold throw_if.
  case_match; [done|]. intros [= <-]. done.
Qed.
Lemma minimum_floor unit st g : minimumGeneration unit st = inr g -> g = floor unit st.
Proof.
  unfold minimumGeneration, floor, throw_if. destruct (archive_generations st !! unit); cbn [default].
  - case_match; [done|]. by intros [= <-].
  - by intros [= <-].
Qed.

(** ** The operations *)

(** The archive holds the evidence a custody certificate promises. *)
Definition holds_evidence (c : ArchiveCustody) (st : Store) : Prop :=
  exists x, archive_objects st !! cs_ticketId (custody_statement c) = Some x /\ ao_custody x = c /\
    is_Some (ao_bundle x).

Lemma read_found id st rd : read options id st = inr (Some rd) ->
  exists x, archive_objects st !! id = Some x /\ rd_custody rd = ao_custody x /\
    rd_release rd = ao_release x /\
    match ao_bundle x, rd_bundle rd with
    | Some text, Some b => decodeArchiveBundle text = inr b
    | None, None => True
    | _, _ => False
    end.
Proof.
  unfold read. destruct (archive_objects st !! id) as [x|]; [|done]. unfold throw_if. intros E. guard_step E.
  exists x. split; [done|]. destruct (ao_bundle x) as [text|]; cbn [throw_bind] in E.
  - destruct (decodeArchiveBundle text) as [|b]; cbn [throw_bind] in E; [done|].
    apply (inj inr), (inj Some) in E as <-. done.
  - apply (inj inr), (inj Some) in E as <-. done.
Qed.

Lemma retry_ok st id rd digest c : archive_ok st -> read options id st = inr (Some rd) ->
  retry rd digest = inr c -> holds_evidence c st.
Proof.
  intros Hok (x & Hx & Ec & _ & Eb)%read_found Er. unfold retry, throw_if in Er.
  destruct (rd_bundle rd) as [b|]; [|done]. case_match; [done|]. apply (inj inr) in Er as <-.
  rewrite Ec. exists x. destruct (ar_objects st Hok id x Hx) as [Ho _]. rewrite (oo_id _ _ Ho).
  split; [done|]. split; [done|]. destruct (ao_bundle x); [eauto|done].
Qed.

Lemma write_fault_ok st st' a : write_fault options st = (st', inr a) -> st' = st.
Proof. unfold write_fault. destruct (injectWriteFault options); [done|]. by intros [= <-]. Qed.

Lemma insertObject_ok st st' id generation unit digest text custody c :
  archive_ok st -> evidence_ok custody text ->
  cs_ticketId (custody_statement custody) = id -> cs_unit (custody_statement custody) = unit ->
  insertObject options id generation unit digest text custody st = (st', inr c) ->
  archive_ok st' /\ archive_evolves st st' /\ holds_evidence c st'.
Proof.
  intros Hok Hev Eid Eu E. unfold insertObject in E. tx_run E. apply minimum_floor in E0. subst a.
  apply Z.ltb_ge in G. rename E into E'. destruct a0 as [old|].
  - tx_run E'. split; [done|]. split; [reflexivity|]. by apply (retry_ok st id old digest).
  - assert (Hn : archive_objects st !! id = None).
    { revert E1. unfold read. destruct (archive_objects st !! id) as [x|]; [|done]. unfold throw_if.
      case_match; [done|]. destruct (match ao_bundle x with Some _ => _ | None => _ end); [done|]. done. }
    tx_run E'. apply orb_false_iff in G0 as [Gb%Z.ltb_ge Go%Z.leb_gt].
    apply (snapshot_ok st _ Hok) in E as (_ & Hub & Hto & _).
    apply write_fault_ok in E0. subst st0 c.
    set (x := mkArchiveObject custody (Some text) (storedBytes (custody_statement custody)) None generation).
    assert (Hbytes : 0 <= storedBytes (custody_statement custody)).
    { destruct Hev as (b & d & at_ & ins & _ & _ & _ & _ & _ & _ & _ & _ & -> & _). unfold custodyStatement, byteLength.
      cbn [storedBytes]. lia. }
    split; [|split].
    + split; unfold floor; cbn [set_archive archive_budget archive_objects archive_generations].
      * eexists. split; [done|]. cbn [usedBytes totalObjects].
        rewrite total_bytes_insert, map_size_insert_None by done. cbn [ao_storedBytes x]. lia.
      * intros id' x'. rewrite lookup_insert_Some. intros [[<- <-]|[_ Hx']]; [|by apply (ar_objects st Hok)].
        split; [|unfold object_unit; cbn [x ao_custody ao_generation]; rewrite Eu; exact G].
        split; cbn [x ao_custody ao_storedBytes ao_bundle ao_release]; done.
    + split; [done|]. intros id' x' Hx'. left. cbn [set_archive archive_objects].
      rewrite lookup_insert_ne; [done|]. intros ->. congruence.
    + exists x. cbn [set_archive archive_objects]. rewrite Eid, lookup_insert_eq. eauto.
Qed.

Lemma release_ok st st' certificate r :
  archive_ok st ->
  ars_version (release_statement certificate) = 1 ->
  ars_authorityKey (release_statement certificate) = authority ->
  hash backend (archiveReleaseFrame (release_statement certificate)) = inr (releaseId certificate) ->
  cb_verify backend authority (releaseId certificate) (release_signature certificate) = inr true ->
  releaseObject options certificate st = (st', inr r) ->
  archive_ok st' /\ archive_evolves st st'.
Proof.
  intros Hok Hv Hk Hh Hs E. unfold releaseObject in E. tx_run E. destruct a as [old|]; [|done].
  tx_run E. apply read_found in E0 as (x & Hx & Ec & Er & Eb).
  destruct (ar_objects st Hok _ x Hx) as [Ho Hfl].
  assert (Hval : valid_release (ao_custody x) certificate) by (rewrite Ec in G; by split_and!).
  destruct (rd_release old) as [r'|]; [by tx_run E; subst; split|].
  tx_run E. apply orb_false_iff in G0 as [Gb Gu%Z.ltb_ge].
  apply write_fault_ok in E1. subst st0. apply (snapshot_ok st _ Hok) in E0 as (_ & Hub & Hto & Hmb & Hmo).
  assert (Hst : ao_storedBytes x = storedBytes (custody_statement (ao_custody x))).
  { pose proof (oo_evidence _ _ Ho) as He. destruct (ao_bundle x); [by destruct He as (_ & ? & _)|].
    destruct He as (_ & r' & Hr' & _). congruence. }
  set (f := fun x => mkArchiveObject (ao_custody x) None 0 (Some certificate) (ao_generation x)).
  pose proof (oo_bytes _ _ Ho) as Hnn.
  split.
  - split; unfold floor; cbn [set_archive archive_budget archive_objects archive_generations].
    + eexists. split; [done|]. cbn [usedBytes totalObjects].
      rewrite (total_bytes_alter f _ x) by done. rewrite (alter_alt_Some f _ _ x Hx), map_size_insert_Some by eauto. cbn [ao_storedBytes f]. rewrite Ec. lia.
    + intros id' x'. destruct (decide (id' = ars_ticketId (release_statement certificate))) as [->|Hne].
      * rewrite lookup_alter_eq, Hx. cbn [fmap option_fmap option_map]. intros [= <-].
        split; [|exact Hfl]. split; cbn [f ao_custody ao_storedBytes ao_bundle ao_release]; [apply Ho|done|].
        split; [done|]. by exists certificate.
      * rewrite lookup_alter_ne by done. apply (ar_objects st Hok).
  - split; [done|]. intros id' x' Hx'. cbn [set_archive archive_objects].
    destruct (decide (id' = ars_ticketId (release_statement certificate))) as [->|Hne].
    + right. assert (x' = x) as -> by congruence. split; [by exists certificate|]. left. exists (f x).
      rewrite lookup_alter_eq, Hx. done.
    + left. by rewrite lookup_alter_ne.
Qed.

Lemma retire_ok st st' unit generation :
  archive_ok st -> retireGenerationInTransaction unit generation st = (st', inr I) ->
  archive_ok st' /\ archive_evolves st st' /\ floor unit st = generation /\ floor unit st' = generation + 1 /\
  (forall u, u <> unit -> floor u st' = floor u st).
Proof.
  intros Hok E. unfold retireGenerationInTransaction in E. tx_run E.
  apply negb_false_iff in G. subst a. apply (snapshot_ok st _ Hok) in E2 as (_ & Hub & Hto & Hmb & Hmo).
  injection E1 as <-. apply Z.ltb_ge in G0.
  unfold canRetireGeneration in E0. destruct (isTime generation && (generation <? MAX_SAFE_INTEGER)); [|done].
  destruct (minimumGeneration unit st) as [|m] eqn:Em; cbn [throw_bind] in E0; [done|].
  apply minimum_floor in Em as ->. injection E0 as E0. apply andb_true_iff in E0 as [Ef%Z.eqb_eq Hall].
  apply bool_decide_eq_true in Hall.
  set (P := fun kx : jsstr * ArchiveObject => Is_true (retires unit generation (snd kx))).
  assert (Hgone : forall id x, archive_objects st !! id = Some x -> P (id, x) ->
            ao_bundle x = None /\ object_unit x = unit /\ ao_generation x = generation).
  { intros id x Hx HP. split_and!.
    - apply (Hall id x). by apply map_lookup_filter_Some.
    - unfold P in HP. cbn [snd] in HP. unfold retires in HP. apply Is_true_true in HP. bool_split.
      by apply str_eqb_eq.
    - unfold P in HP. cbn [snd] in HP. unfold retires in HP. apply Is_true_true in HP. bool_split.
      destruct (ar_objects st Hok id x Hx) as [_ Hfl].
      assert (object_unit x = unit) as Eu by (by apply str_eqb_eq). rewrite Eu in Hfl. lia. }
  assert (Hzero : total_bytes (filter (fun kx => ~ P kx) (archive_objects st)) = total_bytes (archive_objects st)).
  { apply total_bytes_filter. intros id x Hx HP. apply dec_stable in HP.
    destruct (Hgone id x Hx HP) as [Hb _]. destruct (ar_objects st Hok id x Hx) as [Ho _].
    pose proof (oo_evidence _ _ Ho) as He. rewrite Hb in He. apply He. }
  pose proof (size_filter_split P (archive_objects st)) as Hsize.
  split; [|split; [|split; [done|split]]].
  - split.
    + cbn [set_archive archive_budget archive_objects]. eexists. split; [done|]. cbn [usedBytes totalObjects].
      change (size (retired_objects unit generation st)) with (size (filter P (archive_objects st))) in *.
      split; [etrans; [exact Hub|symmetry; exact Hzero]|].
      match goal with |- _ = Z.of_nat ?n /\ _ =>
        change n with (size (filter (fun kx => ~ P kx) (archive_objects st))) end. lia.
    + intros id x Hx. cbn [set_archive archive_objects] in Hx. apply map_lookup_filter_Some in Hx as [Hx HP].
      destruct (ar_objects st Hok id x Hx) as [Ho Hfl].
      split; [done|]. rewrite floor_set. case_decide as Eu; [|done].
      destruct (Z.le_gt_cases (ao_generation x) generation); [|lia].
      exfalso. apply HP. apply Is_true_true. unfold retires. rewrite (proj2 (Z.leb_le _ _)) by done.
      rewrite andb_true_r. by apply str_eqb_eq.
  - split.
    + intros u. rewrite floor_set. case_decide; subst; lia.
    + intros id x Hx. cbn [set_archive archive_objects]. destruct (decide (P (id, x))) as [HP|HP].
      * right. destruct (Hgone id x Hx HP) as (Hb & Eu & Eg). destruct (ar_objects st Hok id x Hx) as [Ho _].
        pose proof (oo_evidence _ _ Ho) as He. rewrite Hb in He. destruct He as (_ & r & _ & Hr).
        split; [by exists r|]. right. rewrite floor_set, Eu, decide_True by done. lia.
      * left. by apply map_lookup_filter_Some.
  - rewrite floor_set. by rewrite decide_True.
  - intros u Hu. rewrite floor_set. by rewrite decide_False.
Qed.

(** ** Under interleaving *)

Abbreviation yields := (yields archive_ok archive_evolves).
Lemma archive_ledger st w : archive_ok st -> archive_ok (set_ledger w st) /\ archive_evolves st (set_ledger w st).
Proof. intros. by apply same_archive_ok. Qed.

(** What the archive may be given: bundles as the ledger holds them. *)
Definition admissible (b : EncounterArchiveBundle) : Prop :=
  archivable b /\ length (chunkDigests (b_commitment b)) = 2%nat.

Lemma store_spec b st : archive_ok st -> admissible b ->
  yields (store options b) st holds_evidence.
Proof.
  intros Hok [Hab Hlen]. unfold store.
  apply yields_throws; [exact _|done|]. intros text Et.
  apply yields_throws; [exact _|done|]. intros bundle Eb.
  destruct (bundle_restored b text Hab Et) as [Eb' _]. assert (bundle = b) as -> by congruence. clear Eb.
  apply yields_refuse; [exact _|done|]. intros Hg. apply yields_read; [exact _|done|]. intros m _.
  apply yields_refuse; [exact _|done|]. intros _.
  apply yields_await; [exact _|done|]. intros digest st1 Hok1 R1 Hd.
  apply yields_read; [exact _|done|]. intros [old|] Er.
  { apply yields_of_throws; [exact _|done|]. intros c Hc. by apply (retry_ok st1 (ticketId (b_ticket b)) old digest). }
  apply yields_await; [exact _|done|]. intros valid st2 Hok2 R2 Hv.
  apply yields_refuse; [exact _|done|]. intros [Hval%negb_false_iff Hbind%negb_false_iff]%orb_false_iff. subst valid.
  apply yields_await; [exact _|done|]. intros inputs st3 Hok3 R3 Hlog.
  apply yields_now; [exact _|exact archive_ledger|done|]. intros at_ st4 Hok4 R4.
  apply yields_refuse; [exact _|done|]. intros [Hat%negb_false_iff _]%orb_false_iff.
  apply yields_await; [exact _|done|]. intros cid st5 Hok5 R5 Hcid.
  apply yields_await; [exact _|done|]. intros signature st6 Hok6 R6 Hsig.
  apply yields_transaction; [exact archive_ledger|done|]. intros st' c Hins.
  assert (Hev : evidence_ok (mkCustody (custodyStatement options b text digest at_) cid signature) text)
    by (exists b, digest, at_, inputs; split_and!; done).
  exact (insertObject_ok st6 st' _ _ _ _ _ _ c Hok6 Hev eq_refl eq_refl Hins).
Qed.

Lemma release_spec r st : archive_ok st -> yields (release options r) st (fun _ _ => True).
Proof.
  intros Hok. unfold release. apply yields_refuse; [exact _|done|].
  intros [[Hv%negb_false_iff Hk%negb_false_iff]%orb_false_iff _]%orb_false_iff.
  apply Z.eqb_eq in Hv. apply str_eqb_eq in Hk.
  apply yields_await; [exact _|done|]. intros rid st1 Hok1 R1 Hid.
  apply yields_refuse; [exact _|done|]. intros Ei. apply negb_false_iff, str_eqb_eq in Ei. subst rid.
  apply yields_await; [exact _|done|]. intros valid st2 Hok2 R2 Hs.
  apply yields_refuse; [exact _|done|]. intros Hval. apply negb_false_iff in Hval. subst valid.
  apply yields_transaction; [exact archive_ledger|done|]. intros st' c Hr.
  destruct (release_ok st2 st' r c) as [? ?]; done.
Qed.
End Invariant.
