(* ===== verification/Generations.v ===== *)
(** * Generations and recovery

    [game/encounter/generation-store.ts]: [SqliteEncounterGenerations], which
    closes a unit's generation once all of its tickets are terminal, released
    and unheld, turns their rows into origins and advances the fence in one
    transaction.  [game/encounter/recovery-store.ts]: [SqliteEncounterRecovery],
    with which an owner gives up a forfeited ticket that holds no asset.

    The archive, where there is one, is the archive of the same database.  The
    guards are those of [encounter_generation.mbt] and [encounter_recovery.mbt],
    which the code imports. *)
From stdpp Require Import gmap sorting.
From S2P Require Import Prelude Json Contracts Kernel Utf8 CryptoBackend EncounterWire EncounterHttp.
From S2P Require Import EncounterBundle InventoryCheckpoint InventoryRanges Async EncounterLedger EncounterStore ArchiveStore.
Set Default Goal Selector "!".

(** ** Guards *)

Definition encounter_generation_roll_allowed
    (expected_matches can_advance all_terminal_retired all_archive_released : bool) : bool :=
  expected_matches && can_advance && all_terminal_retired && all_archive_released.
Definition encounter_recovery_release_allowed
    (is_forfeited retention_released hold_clear without_assets : bool) : bool :=
  is_forfeited && retention_released && hold_clear && without_assets.
Definition encounter_recovery_forget_allowed
    (is_forfeited retention_released hold_clear without_assets owner_released old_generation : bool) : bool :=
  encounter_recovery_release_allowed is_forfeited retention_released hold_clear without_assets &&
  owner_released && old_generation.

(** ** Order of texts *)

(** [ORDER BY id]: the order of the UTF-8 bytes. *)
Fixpoint bytes_leb (a b : list N) : bool :=
  match a, b with
  | [], _ => true
  | _ :: _, [] => false
  | x :: a', y :: b' => (x <? y)%N || ((x =? y)%N && bytes_leb a' b')
  end.
Definition text_le (a b : jsstr) : Prop := bytes_leb (utf8_encode a) (utf8_encode b) = true.
#[export] Instance text_le_dec : RelDecision text_le.
Proof. intros a b. unfold text_le. apply _. Defined.
Definition id_le {A} (a b : jsstr * A) : Prop := text_le (fst a) (fst b).
#[export] Instance id_le_dec {A} : RelDecision (@id_le A).
Proof. intros a b. unfold id_le. apply _. Defined.

Definition row_generation (r : EncounterLedgerRow) : Z := default 0 (generation (t_authorization (ticket r))).
Definition is_member (id : jsstr) (st : Store) : bool :=
  existsb (fun km => str_eqb (m_ticketId (snd km)) id) (map_to_list (inventory_members st)).

Section Generations.
Context `{JsHost} (signer : AsyncAuditSigner) (backend : AuditCryptoBackend) (archived : bool).

(** ** The fence *)

Definition archive_minimum (unit : jsstr) (st : Store) : throws Z :=
  if archived then minimumGeneration unit st else inr 0.
Definition has_origin (unit : jsstr) (st : Store) : bool :=
  existsb (fun ke => str_eqb (row_unit (data (snd ke))) unit) (map_to_list (encounter_origins (ledger st))).

Definition current (unit : jsstr) (st : Store) : throws Z :=
  let floor := default 0 (generation_floors st !! unit) in
  throw_if (negb (isTime floor)) (js "invalid generation fence") $
  match encounter_generations st !! unit with
  | None =>
      throw_if (0 <? floor) (js "missing generation fence for retained origins") $
      let! minimum := archive_minimum unit st in
      throw_if ((0 <? minimum) || has_origin unit st)
        (js "missing generation fence for retained origins") $
      inr 0
  | Some row =>
      let generation := gr_generation row in
      throw_if (negb (isTime generation)) (js "invalid generation fence") $
      throw_if (negb (generation =? floor)) (js "generation fence changed") $
      let! _ := (if archived then
                   let! minimum := minimumGeneration unit st in
                   throw_if (negb (minimum =? generation)) (js "archive generation fence changed") $ inr I
                 else inr I) in
      match gr_seal row with
      | Some seal =>
          let s := seal_statement seal in
          throw_if (negb (nextGeneration s =? generation) || negb (str_eqb (gs_unit s) unit) ||
                    negb (str_eqb (gs_authorityKey s) (as_publicKey signer)))
            (js "generation seal scope changed") $ inr generation
      | None => throw_if (negb (generation =? 0)) (js "missing generation seal") $ inr generation
      end
  end.

Definition seal (unit : jsstr) (st : Store) : option EncounterGenerationSeal :=
  row ← encounter_generations st !! unit; gr_seal row.

(** ** The rows of the open generation *)

Definition unit_entries (unit : jsstr) (t : LedgerTable) : list (jsstr * LedgerEntry) :=
  merge_sort id_le (List.filter (fun ke => str_eqb (row_unit (data (snd ke))) unit) (map_to_list t)).
Definition rows (unit : jsstr) (st : Store) : throws (list EncounterLedgerRow) :=
  let found := take 1025 (unit_entries unit (encounter_tickets (ledger st))) in
  throw_if (1024 <? length found)%nat (js "generation hot ledger exceeds bound") $
  throw_if (existsb (fun ke => negb (revision (data (snd ke)) =? entry_revision (snd ke))) found)
    (js "ledger revision changed") $
  inr (map (fun ke => data (snd ke)) found).

Definition terminal (r : EncounterLedgerRow) : bool :=
  (phase_eqb (phase r) settled && bool_decide (is_Some (receipt r))) ||
  (phase_eqb (phase r) forfeited && bool_decide (is_Some (termination r))).
Definition admitted_count (unit : jsstr) (generation : Z) (st : Store) : nat :=
  length (List.filter (fun ka => str_eqb (fst (fst (fst ka))) unit && (snd (fst (fst ka)) =? generation))
            (map_to_list (admissions st))).
Definition closed (unit : jsstr) (generation : Z) (rows : list EncounterLedgerRow) (st : Store) : bool :=
  (admitted_count unit generation st =? length rows)%nat &&
  forallb (fun r => str_eqb (row_unit r) unit && (row_generation r =? generation) &&
    str_eqb (authorityKey (ticket r)) (as_publicKey signer) && retentionReleased r && negb (evidenceHold r) &&
    negb (hasHold st (row_id r)) && terminal r) rows.
Definition archivesClosed (unit : jsstr) (generation : Z) (rows : list EncounterLedgerRow) (st : Store)
    : throws bool :=
  if archived then canRetireGeneration unit generation st
  else inr (forallb (fun r => negb (bool_decide (is_Some (archiveCustody r)))) rows).
Definition rollAllowed (unit : jsstr) (expected active : Z) (rows : list EncounterLedgerRow) (st : Store)
    : throws bool :=
  let! released := archivesClosed unit expected rows st in
  inr (encounter_generation_roll_allowed (active =? expected) (active <? MAX_SAFE_INTEGER)
         (closed unit expected rows st) released).

(** ** Closing a generation *)

Definition origin_tuple (r : EncounterLedgerRow) : jsval :=
  JArr [JStr (row_id r); JStr (startKey r); JStr (ticketSignature (ticket r));
        optional_string (receiptId <$> receipt r); optional_string (terminationId <$> termination r)].
Definition originsFrame (rows : list EncounterLedgerRow) : jsstr :=
  frame "encounter-generation-origins-v1" [JArr (map origin_tuple rows)].
Definition sealStatement (unit : jsstr) (expected : Z) (previous : option EncounterGenerationSeal)
    (digest : jsstr) (rows : list EncounterLedgerRow) (closedAt : Z) : GenerationSealStatement :=
  mkSealStatement 1 (as_publicKey signer) unit expected (expected + 1) (sealId <$> previous) digest
    (Z.of_nat (length rows))
    (Z.of_nat (length (List.filter (fun r => bool_decide (is_Some (receipt r))) rows))) closedAt.

Definition revisions_text (rows : list EncounterLedgerRow) : jsstr :=
  stringify (JArr (map (fun r => JArr [JStr (row_id r); JNum (revision r)]) rows)).

(** The row holds no asset; a row whose recovery was given up is also looked up
    in the inventory. *)
Definition noAssets (r : EncounterLedgerRow) (st : Store) : bool :=
  negb (bool_decide (is_Some (receipt r))) && negb (bool_decide (is_Some (archiveCustody r))) &&
  bool_decide (admittedAssets r = []) && (negb (recoveryReleased r) || negb (is_member (row_id r) st)).
Definition forgets (r : EncounterLedgerRow) (st : Store) : bool :=
  encounter_recovery_forget_allowed (phase_eqb (phase r) forfeited) (retentionReleased r)
    (negb (evidenceHold r) && negb (hasHold st (row_id r))) (noAssets r st) (recoveryReleased r) true.

(** [INSERT INTO encounter_origins_v1], which throws if the id or the start key
    is there. *)
Definition insert_origin (r : EncounterLedgerRow) : tx True :=
  fun st =>
    let w := ledger st in
    if taken (row_id r) (startKey r) (encounter_origins w)
    then (st, inl (js "UNIQUE constraint failed"))
    else (set_ledger (with_origins (<[row_id r := mkEntry (startKey r) (revision r) r]> (encounter_origins w)) w) st,
          inr I).
(** [DELETE ... WHERE id = ? AND revision = ?]. *)
Definition delete_at (id : jsstr) (rev : Z) (t : LedgerTable) : LedgerTable :=
  match t !! id with
  | Some e => if entry_revision e =? rev then delete id t else t
  | None => t
  end.
Definition delete_ticket (id : jsstr) (rev : Z) : tx True :=
  twrite (fun st => set_ledger (with_tickets (delete_at id rev (encounter_tickets (ledger st))) (ledger st)) st).

Definition retire_row (r : EncounterLedgerRow) : tx True :=
  let^ forget := tread (fun st => inr (forgets r st)) in
  let^ _ := (if forget then tret I else insert_origin (origin_of r)) in
  delete_ticket (row_id r) (revision r).

Definition delete_admissions (unit : jsstr) (generation : Z) (st : Store) : Store :=
  set_admissions
    (filter (fun ka => ~ (fst (fst (fst ka)) = unit /\ snd (fst (fst ka)) = generation)) (admissions st))
    (filter (fun ka => (EncounterWire.unit (snd ka)) <> unit) (legacy_admissions st)) st.

(** The body of the transaction once it is not a retry. *)
Definition close_generation (unit : jsstr) (expected : Z) (seen : list EncounterLedgerRow)
    (value : EncounterGenerationSeal) (active : Z) : tx EncounterGenerationSeal :=
  let^ fresh := tread (rows unit) in
  let^ allowed := tread (rollAllowed unit expected active fresh) in
  tguard (negb allowed || negb (str_eqb (revisions_text fresh) (revisions_text seen)))
    (js "generation changed during seal") $
  let^ _ := (if archived then retireGenerationInTransaction unit expected else tret I) in
  let^ _ := titer retire_row fresh in
  let^ _ := twrite (delete_admissions unit expected) in
  let^ _ := twrite (set_generation unit (mkGenerationRow (expected + 1) (Some value)) (expected + 1)) in
  tret value.

(** The last seal, if it is the one a retry asks for. *)
Definition sealed_before (active expected : Z) (last : option EncounterGenerationSeal)
    : option EncounterGenerationSeal :=
  match last with
  | Some s => if (active =? expected + 1) && (gs_generation (seal_statement s) =? expected) then Some s else None
  | None => None
  end.
Definition roll_transaction (unit : jsstr) (expected : Z) (seen : list EncounterLedgerRow)
    (value : EncounterGenerationSeal) : tx EncounterGenerationSeal :=
  let^ active := tread (current unit) in
  let^ last := tread (fun st => inr (seal unit st)) in
  match sealed_before active expected last with
  | Some s => tret s
  | None => close_generation unit expected seen value active
  end.

Definition roll (unit : jsstr) (expected : Z) : async Store EncounterGenerationSeal :=
  refuse_if (negb (isTime expected) || (expected =? MAX_SAFE_INTEGER)) (js "invalid expected generation") $
  let* _ := await (inr I) in
  let* active := sync (tread (current unit)) in
  let* previous := read_store (seal unit) in
  match sealed_before active expected previous with
  | Some s => aret s
  | None =>
      let* seen := sync (tread (rows unit)) in
      let* allowed := sync (tread (rollAllowed unit expected active seen)) in
      refuse_if (negb allowed) (js "generation still retained") $
      let* digest := await (hash backend (originsFrame seen)) in
      let* closedAt := sync tnow in
      refuse_if (negb (isTime closedAt)) (js "generation clock unavailable") $
      let statement := sealStatement unit expected previous digest seen closedAt in
      let* id := await (hash backend (generationSealFrame statement)) in
      let* signature := await (as_signDigest signer id) in
      transaction (roll_transaction unit expected seen (mkSeal statement id signature))
  end.

(** ** Recovery *)

Record EncounterRecoveryRelease := mkRecoveryRelease {
  rr_ticketId : jsstr;
  rr_terminationId : jsstr;
}.

Definition set_recoveryReleased (r : EncounterLedgerRow) : EncounterLedgerRow :=
  mkRow (revision r + 1) (startKey r) (ticket r) (secret r) (phase r) (commitment r) (committedAt r)
    (reveal r) (receipt r) (termination r) (evidenceHold r) (retentionReleased r) (admittedAssets r)
    (archiveCustody r) true.
Definition originChanged (r : EncounterLedgerRow) (t : EncounterTicket) (e : EncounterTermination) : bool :=
  negb (str_eqb (ticketFrame (ticket r)) (ticketFrame t)) ||
  negb (str_eqb (ticketSignature (ticket r)) (ticketSignature t)) ||
  match termination r with
  | Some e' => negb (str_eqb (terminationId e') (terminationId e)) ||
               negb (str_eqb (termination_signature e') (termination_signature e))
  | None => true
  end.
(** [DELETE FROM encounter_origins_v1 WHERE id = ? AND revision = ? RETURNING id]. *)
Definition forget_origin (id : jsstr) (rev : Z) (message : jsstr) : tx True :=
  fun st =>
    let w := ledger st in
    match encounter_origins w !! id with
    | Some e =>
        if entry_revision e =? rev
        then (set_ledger (with_origins (delete id (encounter_origins w)) w) st, inr I)
        else (st, inl message)
    | None => (st, inl message)
    end.

Definition release_recovery (unit : jsstr) (t : EncounterTicket) (e : EncounterTermination)
    : tx EncounterRecoveryRelease :=
  let^ active := tread (current unit) in
  let generation := default 0 (generation (t_authorization t)) in
  let^ now := tnow in
  tguard (negb (isTime now) || (now <? ts_retentionUntil (termination_statement e)) || (active <? generation))
    (js "recovery retention still open") $
  let ack := mkRecoveryRelease (ticketId t) (terminationId e) in
  let old := generation <? active in
  let^ found := tread (fun st => inr (lookup_id (ticketId t) (ledger st))) in
  match found with
  | None => if old then tret ack else tthrow (js "recovery ticket unavailable")
  | Some r =>
      tguard (originChanged r t e) (js "recovery origin changed") $
      let^ member := tread (fun st => inr (is_member (ticketId t) st)) in
      let without := negb (bool_decide (is_Some (receipt r))) && negb (bool_decide (is_Some (archiveCustody r))) &&
                     bool_decide (admittedAssets r = []) && negb member in
      let^ hold := tread (fun st => inr (hasHold st (ticketId t))) in
      let clear := negb (evidenceHold r) && negb hold in
      tguard (negb (encounter_recovery_release_allowed (phase_eqb (phase r) forfeited) (retentionReleased r) clear without))
        (js "recovery release refused") $
      if encounter_recovery_forget_allowed true (retentionReleased r) clear without true old then
        let^ _ := forget_origin (ticketId t) (revision r) (js "recovery origin changed") in
        tret ack
      else if recoveryReleased r then tret ack
      else
        let^ stored := treplace (revision r) (set_recoveryReleased r) in
        tguard (negb stored) (js "recovery revision changed") $
        tret ack
  end.

Definition recover (unit owner : jsstr) (t : EncounterTicket) (e : EncounterTermination)
    : async Store EncounterRecoveryRelease :=
  refuse_if (negb (validRecoveryProof (recovery_value (ticket_value t) (termination_value e))))
    (js "invalid recovery proof") $
  refuse_if (negb (str_eqb (EncounterWire.unit (t_authorization t)) unit) ||
             negb (str_eqb (ea_ownerPublicKey (t_authorization t)) owner))
    (js "invalid recovery authority or owner") $
  let* valid := await (inr (verifyEncounterTermination backend t e (as_publicKey signer))) in
  refuse_if (negb valid) (js "invalid recovery authority or owner") $
  let* _ := await (inr I) in
  transaction (release_recovery unit t e).
End Generations.
