(* ===== verification/Inventory.v ===== *)
(** * The inventory index

    [game/encounter/inventory-store.ts]: [SqliteEncounterInventory], an index of
    the settled receipts of an owner in a unit.  [compact] appends a batch of
    receipts, [retireEmpty] deletes receipts without items for good and keeps
    their ordinals as ranges ([InventoryRanges]), [page] reads the index.  Each
    change signs a new head ([InventoryCheckpoint]). *)
From stdpp Require Import gmap sorting.
From S2P Require Import Prelude Json Contracts Kernel Utf8 CryptoBackend EncounterWire EncounterHttp.
From S2P Require Import EncounterBundle InventoryCheckpoint InventoryRanges Async EncounterLedger EncounterStore Generations.
Set Default Goal Selector "!".

(** [encounter_empty_receipt.mbt]. *)
Definition encounter_empty_receipt_retire_allowed
    (is_settled assetless_receipt retention_released hold_clear old_generation index_matches : bool) : bool :=
  is_settled && assetless_receipt && retention_released && hold_clear && old_generation && index_matches.

Definition record_value (r : InventoryReceiptRecord) : jsval :=
  obj [("ticket", ticket_value (ir_ticket r)); ("receipt", receipt_value (ir_receipt r));
       ("admittedAssets", strings_value (ir_admittedAssets r))]%string.

(** [WHERE unit = ? AND owner = ?], with the ordinals. *)
Definition scope_members (unit owner : jsstr) (st : Store) : list (Z * MemberRow) :=
  omap (fun km => if str_eqb (fst (fst (fst km))) unit && str_eqb (snd (fst (fst km))) owner
                  then Some (snd (fst km), snd km) else None)
    (map_to_list (inventory_members st)).
Definition ordinal_le (a b : Z * MemberRow) : Prop := fst a <= fst b.
#[export] Instance ordinal_le_dec : RelDecision ordinal_le.
Proof. intros a b. unfold ordinal_le. apply _. Defined.

Section Inventory.
Context (signer : AsyncAuditSigner) (backend : AuditCryptoBackend).
Context (current : jsstr -> Store -> throws Z) (injectWriteFault : option jsstr).

(** ** Reading *)

Definition head (unit owner : jsstr) (st : Store) : throws (option InventoryCheckpoint) :=
  match inventory_heads st !! (unit, owner) with
  | None => inr None
  | Some cp =>
      throw_if (negb (validInventoryCheckpoint (checkpoint_object cp)) ||
                negb (str_eqb (is_authorityKey (cp_statement cp)) (as_publicKey signer)) ||
                negb (str_eqb (is_unit (cp_statement cp)) unit) ||
                negb (str_eqb (is_ownerPublicKey (cp_statement cp)) owner))
        (js "inventory head scope changed") $
      inr (Some cp)
  end.

Definition recordRefused (unit owner id : jsstr) (r : EncounterLedgerRow) (rc : EncounterReceipt) : bool :=
  let a := t_authorization (ticket r) in
  let s := receipt_statement rc in
  negb (phase_eqb (phase r) settled) || negb (str_eqb (EncounterWire.unit a) unit) ||
  negb (str_eqb (ea_ownerPublicKey a) owner) || negb (str_eqb (authorityKey (ticket r)) (as_publicKey signer)) ||
  negb (str_eqb (rs_authorityKey s) (as_publicKey signer)) || negb (str_eqb (rulesId (ticket r)) ENCOUNTER_RULES) ||
  negb (str_eqb (rs_rulesId s) ENCOUNTER_RULES) || negb (str_eqb (rs_unit s) unit) ||
  negb (str_eqb (rs_ownerPublicKey s) owner) || negb (str_eqb (rs_ticketId s) id) || (1 <? length (items s))%nat.
Definition record (unit owner id : jsstr) (st : Store) : throws InventoryReceiptRecord :=
  match lookup_id id (ledger st) with
  | None => inl (js "inventory receipt unavailable")
  | Some r =>
      match receipt r with
      | None => inl (js "inventory receipt unavailable")
      | Some rc =>
          throw_if (recordRefused unit owner id r rc) (js "inventory receipt unavailable") $
          let value := mkRecord (ticket r) rc (admittedAssets r) in
          throw_if (4096 <? byteLength (stringify (record_value value))) (js "inventory record exceeds bound") $
          inr value
      end
  end.
Fixpoint records (unit owner : jsstr) (ids : list jsstr) (st : Store) : throws (list InventoryReceiptRecord) :=
  match ids with
  | [] => inr []
  | id :: ids' => let! r := record unit owner id st in let! rs := records unit owner ids' st in inr (r :: rs)
  end.

Definition has_member (id : jsstr) (st : Store) : bool := is_member id st.

(** ** Appending *)

Definition is_append (cp : InventoryCheckpoint) : bool :=
  match is_version (cp_statement cp) with version_2 retire_empty _ => false | _ => true end.
Definition chain_step (cp : InventoryCheckpoint) (expected : option jsstr) (digest : jsstr) : bool :=
  bool_decide (is_previousId (cp_statement cp) = expected) && str_eqb (batchDigest (cp_statement cp)) digest.
Definition appended_before (cp : option InventoryCheckpoint) (expected : option jsstr) (digest : jsstr)
    : option InventoryCheckpoint :=
  match cp with
  | Some c => if is_append c && chain_step c expected digest then Some c else None
  | None => None
  end.
Definition head_id (cp : option InventoryCheckpoint) : option jsstr := checkpointId <$> cp.
Definition receipts_of (cp : option InventoryCheckpoint) : Z :=
  match cp with Some c => is_receiptCount (cp_statement c) | None => 0 end.
Definition items_of (cp : option InventoryCheckpoint) : Z :=
  match cp with Some c => itemCount (cp_statement c) | None => 0 end.
Definition revision_of (cp : option InventoryCheckpoint) : Z :=
  match cp with Some c => is_revision (cp_statement c) | None => 0 end.

Definition item_total (rs : list InventoryReceiptRecord) : Z :=
  foldr (fun r n => Z.of_nat (length (items (receipt_statement (ir_receipt r)))) + n) 0 rs.
Definition append_statement (unit owner : jsstr) (old : option InventoryCheckpoint) (expected : option jsstr)
    (digest root : jsstr) (rs : list InventoryReceiptRecord) (createdAt : Z) : InventoryCheckpointStatement :=
  mkInventoryStatement
    (match old with
     | Some c => match is_version (cp_statement c) with
                 | version_2 _ n => version_2 append n
                 | version_1 => version_1
                 end
     | None => version_1
     end)
    (as_publicKey signer) unit owner ENCOUNTER_RULES (revision_of old + 1) expected digest root
    (receipts_of old + Z.of_nat (length rs)) (items_of old + item_total rs) createdAt.

(** [INSERT INTO encounter_inventory_members_v1], which throws if the ordinal or
    the ticket is there. *)
Definition insert_member (unit owner : jsstr) (ordinal : Z) (r : InventoryReceiptRecord) : tx True :=
  fun st =>
    let id := ticketId (ir_ticket r) in
    if bool_decide (is_Some (inventory_members st !! (unit, owner, ordinal))) || is_member id st
    then (st, inl (js "UNIQUE constraint failed"))
    else (set_inventory (inventory_heads st)
            (<[(unit, owner, ordinal) := mkMember id (receiptId (ir_receipt r))]> (inventory_members st))
            (empty_ranges st) st, inr I).
Fixpoint insert_members (unit owner : jsstr) (ordinal : Z) (rs : list InventoryReceiptRecord) : tx True :=
  match rs with
  | [] => tret I
  | r :: rs' => let^ _ := insert_member unit owner ordinal r in insert_members unit owner (ordinal + 1) rs'
  end.
Definition set_head (unit owner : jsstr) (cp : InventoryCheckpoint) (st : Store) : Store :=
  set_inventory (<[(unit, owner) := cp]> (inventory_heads st)) (inventory_members st) (empty_ranges st) st.
Definition write_fault : tx True :=
  match injectWriteFault with Some e => tthrow e | None => tret I end.

Definition append_transaction (unit owner : jsstr) (expected : option jsstr) (digest : jsstr)
    (old : option InventoryCheckpoint) (rs : list InventoryReceiptRecord) (cp : InventoryCheckpoint)
    : tx InventoryCheckpoint :=
  let^ now := tread (head unit owner) in
  match appended_before now expected digest with
  | Some c => tret c
  | None =>
      tguard (negb (bool_decide (head_id now = expected))) (js "inventory head changed") $
      let^ _ := insert_members unit owner (receipts_of old + 1) rs in
      let^ _ := twrite (set_head unit owner cp) in
      let^ _ := write_fault in
      tret cp
  end.

Definition compaction_ok (c : InventoryCompaction) : bool :=
  validInventoryCompaction (compaction_value (optional_string (expectedCheckpointId c)) (strings_value (ticketIds c))).

Definition compact (unit owner : jsstr) (command : InventoryCompaction) : async Store InventoryCheckpoint :=
  let expected := expectedCheckpointId command in
  refuse_if (negb (compaction_ok command)) (js "invalid inventory batch") $
  let* rs := sync (tread (records unit owner (ticketIds command))) in
  let* digest := await (inventoryBatchDigest backend rs) in
  let* old := sync (tread (head unit owner)) in
  match appended_before old expected digest with
  | Some c => aret c
  | None =>
      refuse_if (negb (bool_decide (head_id old = expected))) (js "inventory head changed") $
      let* taken := read_store (fun st => existsb (fun id => has_member id st) (ticketIds command)) in
      refuse_if taken (js "receipt already compacted") $
      let* root := await (inventoryNextRoot backend old digest append) in
      let* createdAt := sync tnow in
      let s := append_statement unit owner old expected digest root rs createdAt in
      refuse_if (negb (isTime createdAt) || negb (isTime (is_revision s)) ||
                 (MAX_INVENTORY_RECEIPTS <? is_receiptCount s)) (js "inventory capacity exhausted") $
      let* id := await (hash backend (inventoryCheckpointFrame s)) in
      let* signature := await (as_signDigest signer id) in
      transaction (append_transaction unit owner expected digest old rs (mkInventoryCheckpoint s id signature))
  end.

(** ** Pages *)

Definition page_rows (unit owner : jsstr) (after count : Z) (st : Store) : list (Z * MemberRow) :=
  take (Z.to_nat INVENTORY_PAGE_SIZE) (merge_sort ordinal_le
    (List.filter (fun om => (after <? fst om) && (fst om <=? count)) (scope_members unit owner st))).
Definition member_record (unit owner : jsstr) (m : MemberRow) (st : Store) : throws InventoryReceiptRecord :=
  let! r := record unit owner (m_ticketId m) st in
  throw_if (negb (str_eqb (receiptId (ir_receipt r)) (m_receiptId m))) (js "inventory receipt changed") $ inr r.
Fixpoint page_records_at (unit owner : jsstr) (ordinal : Z) (found : list (Z * MemberRow)) (st : Store)
    : throws (list InventoryReceiptRecord) :=
  match found with
  | [] => inr []
  | (n, m) :: found' =>
      throw_if (negb (n =? ordinal)) (js "inventory index gap") $
      let! r := member_record unit owner m st in
      let! rs := page_records_at unit owner (ordinal + 1) found' st in
      inr (r :: rs)
  end.
Definition next_after (cursor count : Z) : option Z := if cursor <? count then Some cursor else None.

(** What the loop of [sparsePage] collects; it is prepended on the way back. *)
Record SparseSpan := mkSpan {
  span_records : list InventoryReceiptRecord;
  span_positions : list Z;
  span_empty : list (Z * Z);
  span_cursor : Z;
}.
Definition with_record (r : InventoryReceiptRecord) (n : Z) (s : SparseSpan) : SparseSpan :=
  mkSpan (r :: span_records s) (n :: span_positions s) (span_empty s) (span_cursor s).
Definition with_empty (a b : Z) (s : SparseSpan) : SparseSpan :=
  mkSpan (span_records s) (span_positions s) ((a, b) :: span_empty s) (span_cursor s).
Fixpoint sparse_steps (steps : nat) (unit owner : jsstr) (count cursor : Z) (st : Store) : throws SparseSpan :=
  match steps with
  | 0%nat => inr (mkSpan [] [] [] cursor)
  | S steps' =>
      if negb (cursor <? count) then inr (mkSpan [] [] [] cursor)
      else
        let ordinal := cursor + 1 in
        match inventory_members st !! (unit, owner, ordinal) with
        | Some m =>
            let! r := member_record unit owner m st in
            let! rest := sparse_steps steps' unit owner count ordinal st in
            inr (with_record r ordinal rest)
        | None =>
            let! range := predecessor unit owner ordinal (empty_ranges st) in
            match range with
            | None => inl (js "inventory index gap")
            | Some g =>
                throw_if ((last g <? ordinal) || (count <? last g)) (js "inventory index gap") $
                let! rest := sparse_steps steps' unit owner count (last g) st in
                inr (with_empty ordinal (last g) rest)
            end
        end
  end.
Definition sparsePage (unit owner : jsstr) (h : InventoryCheckpoint) (after : Z) (st : Store)
    : throws (InventoryPage InventoryReceiptRecord) :=
  let count := is_receiptCount (cp_statement h) in
  let! span := sparse_steps (Z.to_nat INVENTORY_PAGE_SIZE) unit owner count after st in
  inr (mkPage (checkpointId h) after (next_after (span_cursor span) count) (span_records span)
         (Some (span_positions span)) (Some (span_empty span))).

Definition page (unit owner checkpoint : jsstr) (after : Z) (st : Store)
    : throws (InventoryPage InventoryReceiptRecord) :=
  let! found := head unit owner st in
  match found with
  | None => inl (js "inventory snapshot unavailable")
  | Some h =>
      let count := is_receiptCount (cp_statement h) in
      throw_if (negb (str_eqb (checkpointId h) checkpoint) || negb (isTime after) || (count <=? after))
        (js "inventory snapshot unavailable") $
      if is_version_2 (Some h) then sparsePage unit owner h after st
      else
        let! rs := page_records_at unit owner (after + 1) (page_rows unit owner after count st) st in
        throw_if (negb (Z.of_nat (length rs) =? Z.min INVENTORY_PAGE_SIZE (count - after))) (js "inventory index gap") $
        inr (mkPage checkpoint after (next_after (after + Z.of_nat (length rs)) count) rs None None)
  end.

(** ** Retiring empty receipts *)

Definition find_member (unit owner id : jsstr) (st : Store) : option (Z * MemberRow) :=
  List.find (fun om => str_eqb (m_ticketId (snd om)) id) (scope_members unit owner st).
Definition retired_before (cp : option InventoryCheckpoint) (expected : option jsstr) (digest : jsstr)
    : option InventoryCheckpoint :=
  match cp with
  | Some c => if negb (is_append c) && chain_step c expected digest then Some c else None
  | None => None
  end.

(** One element of [sources()]. *)
Definition retire_source (unit owner : jsstr) (old : InventoryCheckpoint) (id : jsstr)
    : tx (EncounterLedgerRow * Z) :=
  let^ value := tread (record unit owner id) in
  let^ found := tread (fun st => inr (lookup_id id (ledger st))) in
  match found with
  | None => tthrow (js "TypeError")
  | Some r =>
      let^ member := tread (fun st => inr (find_member unit owner id st)) in
      let^ now := tnow in
      let^ hold := tread (fun st => inr (hasHold st id)) in
      let^ active := tread (current unit) in
      let s := receipt_statement (ir_receipt value) in
      tguard (negb (encounter_empty_receipt_retire_allowed (phase_eqb (phase r) settled)
                      ((length (items s) =? 0)%nat && bool_decide (admittedAssets r = []) &&
                       negb (bool_decide (is_Some (archiveCustody r))))
                      (retentionReleased r && isTime now && (rs_retentionUntil s <=? now))
                      (negb (evidenceHold r) && negb hold)
                      (row_generation r <? active)
                      (match member with
                       | Some (n, m) => str_eqb (m_receiptId m) (receiptId (ir_receipt value)) && isTime n && (0 <? n) &&
                                        (n <=? is_receiptCount (cp_statement old))
                       | None => false
                       end))) (js "empty retirement refused") $
      match member with
      | Some (n, _) => tret (r, n)
      | None => tthrow (js "TypeError")
      end
  end.
Definition sources (unit owner : jsstr) (old : InventoryCheckpoint) (ids : list jsstr)
    : tx (list (EncounterLedgerRow * Z)) := tmap (retire_source unit owner old) ids.
Definition source_receipt (r : EncounterLedgerRow) : jsval := optional_string (receiptId <$> receipt r).
Definition sources_text (l : list (EncounterLedgerRow * Z)) : jsstr :=
  stringify (JArr (map (fun rn => JArr [JStr (row_id (fst rn)); source_receipt (fst rn);
                                        JNum (revision (fst rn)); JNum (snd rn)]) l)).

Definition retire_statement (old : InventoryCheckpoint) (n : Z) (digest root : jsstr) (createdAt : Z)
    : InventoryCheckpointStatement :=
  let s := cp_statement old in
  mkInventoryStatement (version_2 retire_empty (statementRetired s + n)) (is_authorityKey s) (is_unit s)
    (is_ownerPublicKey s) (is_rulesId s) (is_revision s + 1) (Some (checkpointId old)) digest root
    (is_receiptCount s) (itemCount s) createdAt.

Definition add_range (unit owner : jsstr) (ordinal : Z) : tx True :=
  fun st => match add unit owner ordinal (empty_ranges st) with
            | inl e => (st, inl e)
            | inr t => (set_inventory (inventory_heads st) (inventory_members st) t st, inr I)
            end.
Definition delete_member (unit owner : jsstr) (ordinal : Z) : tx True :=
  twrite (fun st => set_inventory (inventory_heads st) (delete (unit, owner, ordinal) (inventory_members st))
                      (empty_ranges st) st).
Definition retire_member (unit owner : jsstr) (source : EncounterLedgerRow * Z) : tx True :=
  let^ _ := add_range unit owner (snd source) in
  let^ _ := forget_origin (row_id (fst source)) (revision (fst source)) (js "empty retirement origin changed") in
  delete_member unit owner (snd source).

(** [UPDATE ... SET checkpoint = ? WHERE unit = ? AND owner = ?]. *)
Definition update_head (unit owner : jsstr) (cp : InventoryCheckpoint) (st : Store) : Store :=
  set_inventory (alter (fun _ => cp) (unit, owner) (inventory_heads st)) (inventory_members st) (empty_ranges st) st.

Definition retire_transaction (unit owner : jsstr) (command : InventoryCompaction) (digest : jsstr)
    (old : InventoryCheckpoint) (initial : list (EncounterLedgerRow * Z)) (cp : InventoryCheckpoint)
    : tx InventoryCheckpoint :=
  let expected := expectedCheckpointId command in
  let^ now := tread (head unit owner) in
  match retired_before now expected digest with
  | Some c => tret c
  | None =>
      tguard (negb (bool_decide (head_id now = expected))) (js "inventory head changed") $
      let^ fresh := sources unit owner old (ticketIds command) in
      tguard (negb (str_eqb (sources_text fresh) (sources_text initial))) (js "empty retirement source changed") $
      let^ _ := titer (retire_member unit owner) fresh in
      let^ _ := twrite (update_head unit owner cp) in
      let^ _ := write_fault in
      tret cp
  end.

Definition zeros (n : nat) : jsstr := repeat 48%N n.
Definition retireEmpty (unit owner : jsstr) (command : InventoryCompaction) : async Store InventoryCheckpoint :=
  let expected := expectedCheckpointId command in
  refuse_if (negb (compaction_ok command) || negb (bool_decide (is_Some expected))) (js "invalid empty retirement") $
  let* digest := await (inventoryRetirementDigest backend (ticketIds command)) in
  let* found := sync (tread (head unit owner)) in
  match retired_before found expected digest with
  | Some c => aret c
  | None =>
      match found with
      | None => athrow (js "inventory head changed")
      | Some old =>
          refuse_if (negb (bool_decide (Some (checkpointId old) = expected))) (js "inventory head changed") $
          let* _ := await (inr I) in
          let* initial := sync (sources unit owner old (ticketIds command)) in
          let* root := await (inventoryNextRoot backend (Some old) digest retire_empty) in
          let* createdAt := sync tnow in
          let s := retire_statement old (Z.of_nat (length (ticketIds command))) digest root createdAt in
          refuse_if (negb (validInventoryCheckpoint (checkpoint_object (mkInventoryCheckpoint s (zeros 64) (zeros 128)))))
            (js "invalid retirement checkpoint") $
          let* id := await (hash backend (inventoryCheckpointFrame s)) in
          let* signature := await (as_signDigest signer id) in
          transaction (retire_transaction unit owner command digest old initial (mkInventoryCheckpoint s id signature))
      end
  end.
End Inventory.
