(* ===== verification/EncounterAuthority.v ===== *)
(** * The encounter authority

    [game/encounter/authority.ts] and [termination-policy.ts]: every handler of
    [EncounterAuthority], as an asynchronous function over the ledger and the
    host.  Awaiting a hash, a signature or the policy module gives the other
    requests a turn; reading and replacing a row does not.

    The policy module is compiled from
    [src/x/game_audit/audit/encounter_termination.mbt], whose two functions are
    modelled here.  [issue] starts over when its insertion is refused; it is
    modelled with a bound on the rounds. *)
From S2P Require Import Prelude Json Contracts Kernel Snapshot Utf8 CryptoBackend EncounterWire.
From S2P Require Import Async EncounterLedger.
Set Default Goal Selector "!".

(** ** Termination policy *)

Definition encounter_termination_allowed (is_settled already_terminated expire_requested
    has_commitment : bool) (now commit_deadline : Z) : bool :=
  (0 <=? now) && (0 <=? commit_deadline) && negb is_settled &&
  (already_terminated || negb expire_requested ||
   (negb has_commitment && (commit_deadline <=? now))).
Definition encounter_terminal_cleanup_allowed (terminated : bool) (now retention_until : Z)
    (unresolved_reference : bool) : bool :=
  (0 <=? now) && (0 <=? retention_until) && terminated && (retention_until <=? now) &&
  negb unresolved_reference.

Definition flag (b : bool) : Z := if b then 1 else 0.
Definition terminationAllowed (is_settled alreadyTerminated expiry hasCommitment : bool)
    (now deadline : Z) : bool :=
  if negb (isTime now) || negb (isTime deadline) then false
  else encounter_termination_allowed is_settled alreadyTerminated expiry hasCommitment
         (flag (deadline <=? now)) 1.
Definition terminalCleanupAllowed (terminated : bool) (now retentionUntil : Z) (held : bool)
    : bool :=
  if negb (isTime now) || negb (isTime retentionUntil) then false
  else encounter_terminal_cleanup_allowed terminated (flag (retentionUntil <=? now)) 1 held.

(** ** Row updates: [{ ...row, field: value }] *)

Definition set_revision (n : Z) (r : EncounterLedgerRow) : EncounterLedgerRow :=
  mkRow n (startKey r) (ticket r) (secret r) (phase r) (commitment r) (committedAt r) (reveal r)
    (receipt r) (termination r) (evidenceHold r) (retentionReleased r) (admittedAssets r)
    (archiveCustody r) (recoveryReleased r).
Definition set_committed (c : EncounterCommit) (now : Z) (r : EncounterLedgerRow) : EncounterLedgerRow :=
  mkRow (revision r) (startKey r) (ticket r) (secret r) committed (Some c) (Some now) (reveal r)
    (receipt r) (termination r) (evidenceHold r) (retentionReleased r) (admittedAssets r)
    (archiveCustody r) (recoveryReleased r).
Definition set_revealed (v : EncounterReveal) (r : EncounterLedgerRow) : EncounterLedgerRow :=
  mkRow (revision r) (startKey r) (ticket r) (secret r) revealed (commitment r) (committedAt r)
    (Some v) (receipt r) (termination r) (evidenceHold r) (retentionReleased r) (admittedAssets r)
    (archiveCustody r) (recoveryReleased r).
Definition set_settled (v : EncounterReceipt) (r : EncounterLedgerRow) : EncounterLedgerRow :=
  mkRow (revision r) (startKey r) (ticket r) (secret r) settled (commitment r) (committedAt r)
    (reveal r) (Some v) (termination r) (evidenceHold r) (retentionReleased r) (admittedAssets r)
    (archiveCustody r) (recoveryReleased r).
Definition set_admitted (assets : list jsstr) (r : EncounterLedgerRow) : EncounterLedgerRow :=
  mkRow (revision r) (startKey r) (ticket r) (secret r) (phase r) (commitment r) (committedAt r)
    (reveal r) (receipt r) (termination r) (evidenceHold r) (retentionReleased r) assets
    (archiveCustody r) (recoveryReleased r).
Definition set_hold (hold : bool) (r : EncounterLedgerRow) : EncounterLedgerRow :=
  mkRow (revision r) (startKey r) (ticket r) (secret r) (phase r) (commitment r) (committedAt r)
    (reveal r) (receipt r) (termination r) hold (retentionReleased r) (admittedAssets r)
    (archiveCustody r) (recoveryReleased r).
Definition set_forfeited (r : EncounterLedgerRow) : EncounterLedgerRow :=
  mkRow (revision r) (startKey r) (ticket r) (secret r) forfeited (commitment r) (committedAt r)
    (reveal r) (receipt r) (termination r) (evidenceHold r) (retentionReleased r)
    (admittedAssets r) (archiveCustody r) (recoveryReleased r).
Definition set_terminated (t : EncounterTermination) (r : EncounterLedgerRow) : EncounterLedgerRow :=
  mkRow (revision r) (startKey r) (ticket r) (secret r) forfeited (commitment r) (committedAt r)
    (reveal r) (receipt r) (Some t) (evidenceHold r) (retentionReleased r)
    (admittedAssets r) (archiveCustody r) (recoveryReleased r).
Definition set_released (r : EncounterLedgerRow) : EncounterLedgerRow :=
  mkRow (revision r) (startKey r) (ticket r) (secret r) (phase r) (commitment r) (committedAt r)
    (reveal r) (receipt r) (termination r) (evidenceHold r) true (admittedAssets r)
    (archiveCustody r) (recoveryReleased r).
Definition set_custody (c : ArchiveCustody) (r : EncounterLedgerRow) : EncounterLedgerRow :=
  mkRow (revision r) (startKey r) (ticket r) (secret r) (phase r) (commitment r) (committedAt r)
    (reveal r) (receipt r) (termination r) (evidenceHold r) (retentionReleased r)
    (admittedAssets r) (Some c) (recoveryReleased r).

(** [EncounterStatus], the public projection of a row. *)
Record EncounterStatus := mkStatus {
  status_ticket : EncounterTicket;
  status_phase : EncounterPhase;
  status_commitment : option EncounterCommit;
  status_committedAt : option Z;
  status_receipt : option EncounterReceipt;
  status_termination : option EncounterTermination;
  status_retentionReleased : bool;
  status_admittedAssets : list jsstr;
}.

Record EncounterAuthorityOptions := mkOptions {
  signer : AsyncAuditSigner;
  crypto : SubtleCrypto;
  retentionMs : Z;
  trustedArchiveKey : option jsstr;
}.

Section Authority.
Context `{JsHost} (options : EncounterAuthorityOptions).

(** The constructor refuses other options. *)
Definition configured : bool :=
  isTime (retentionMs options) && isDigestText (as_publicKey (signer options)).

Definition cryptoBackend : AuditCryptoBackend := createStandardWebCryptoBackend (crypto options).
Definition hashed (text : jsstr) : async World jsstr := await (hash cryptoBackend text).
Definition signed (digest : jsstr) : async World jsstr := await (as_signDigest (signer options) digest).

(** ** The host *)

Definition host_now : async World Z := fun w => (called w, Finished (inr (clock_at w (calls w)))).
Definition randomUUID : async World jsstr :=
  fun w => (called w, Finished (inr (uuid_at w (calls w)))).
Definition random_bytes (f : nat -> N) : list N := map (fun i => (f i mod 256)%N) (seq 0 32).
Definition getRandomValues : async World (list N) :=
  fun w => (called w, Finished (inr (random_bytes (random_at w (calls w))))).
Definition hasEvidenceCases (id : jsstr) (w : World) : bool :=
  match evidenceCases w with Some f => f id | None => false end.
Definition generationOf (unit : jsstr) : async World Z :=
  fun w => (w, Finished (match currentGeneration w with Some f => f unit | None => inr 0 end)).

Definition time : async World Z :=
  let* now := host_now in
  refuse_if (negb (isTime now)) (js "invalid authority clock") $ aret now.
Definition row (id : jsstr) : async World EncounterLedgerRow :=
  let* found := byId id in
  match found with
  | Some r =>
      refuse_if (negb (str_eqb (authorityKey (ticket r)) (as_publicKey (signer options))))
        (js "unknown ticket or authority key changed") $ aret r
  | None => athrow (js "unknown ticket or authority key changed")
  end.
Definition replace_next (r : EncounterLedgerRow) : async World bool :=
  replace (revision r) (set_revision (revision r + 1) r).
Definition held (r : EncounterLedgerRow) : async World bool :=
  read_store (fun w => evidenceHold r || hasEvidenceCases (ticketId (ticket r)) w).

Definition fenceEvidenceCase (id : jsstr) : async World True :=
  let* r := row id in
  refuse_if (retentionReleased r) (js "retention already closed") $
  let* done := replace_next r in
  refuse_if (negb done) (js "concurrent evidence case; retry") $ aret I.

Definition status (id : jsstr) : async World EncounterStatus :=
  let* r := row id in
  aret (mkStatus (ticket r) (phase r) (commitment r) (committedAt r) (receipt r) (termination r)
          (retentionReleased r) (admittedAssets r)).

(** ** Issuing *)

Definition unsigned_ticket (authorization : EncounterAuthorization) (id queue commitment : jsstr)
    (issuedAt : Z) : EncounterTicket :=
  mkTicket authorization 1 id (as_publicKey (signer options)) ENCOUNTER_RULES queue commitment
    issuedAt (issuedAt + ENCOUNTER_TICKS * 50) (issuedAt + ENCOUNTER_TICKS * 50 + 1000) [].
Definition sign_ticket (t : EncounterTicket) (signature : jsstr) : EncounterTicket :=
  mkTicket (t_authorization t) (t_version t) (ticketId t) (authorityKey t) (rulesId t) (queueId t)
    (seedCommitment t) (issuedAt t) (commitNotBefore t) (releaseAt t) signature.
Definition issued_row (key secret : jsstr) (t : EncounterTicket) : EncounterLedgerRow :=
  mkRow 0 key t secret issued None None None None None false false [] None false.

Definition OUT_OF_ROUNDS : jsstr := js "issue did not settle".
Fixpoint issue (rounds : nat) (authorization : EncounterAuthorization) : async World EncounterTicket :=
  match rounds with
  | 0%nat => athrow OUT_OF_ROUNDS
  | S rounds' =>
      let generation := default 0 (generation authorization) in
      let unit := unit authorization in
      refuse_if (negb (isTime generation)) (js "start generation retired or unavailable") $
      let* current := generationOf unit in
      refuse_if (negb (generation =? current)) (js "start generation retired or unavailable") $
      refuse_if (negb (forallb identifier [unit; startHead authorization; ea_playerId authorization]) ||
                 negb (isDigestText (ea_ownerPublicKey authorization)))
        (js "invalid start authorization") $
      let* key := await (encounterStartKey cryptoBackend unit (startHead authorization) generation) in
      let* current := generationOf unit in
      refuse_if (negb (generation =? current)) (js "start generation changed") $
      let* existing := byStart key in
      match existing with
      | Some e =>
          refuse_if (negb (str_eqb (authorityKey (ticket e)) (as_publicKey (signer options))) ||
                     negb (str_eqb (ea_playerId (t_authorization (ticket e))) (ea_playerId authorization)) ||
                     negb (str_eqb (ea_ownerPublicKey (t_authorization (ticket e)))
                             (ea_ownerPublicKey authorization)))
            (js "start already consumed by a different owner or authority") $
          aret (ticket e)
      | None =>
          let* id := randomUUID in
          let* bytes := getRandomValues in
          let secret := bytesToLowerHex bytes in
          let* commitment := hashed (seedFrame id secret) in
          let* issuedAt := time in
          refuse_if (negb (isTime (issuedAt + ENCOUNTER_TICKS * 50 + 1000)))
            (js "authority clock overflow") $
          let* queue :=
            await (encounterQueueId cryptoBackend unit (startHead authorization) generation) in
          let unsigned := unsigned_ticket authorization id queue commitment issuedAt in
          let* digest := hashed (ticketFrame unsigned) in
          let* signature := signed digest in
          let t := sign_ticket unsigned signature in
          let* current := generationOf unit in
          refuse_if (negb (generation =? current)) (js "start generation changed") $
          let* inserted := insert (issued_row key secret t) in
          if inserted then aret t else issue rounds' authorization
      end
  end.

(** ** Commit and reveal *)

Definition RETRIES : nat := 8.

Definition commit (c : EncounterCommit) : async World (jsstr * Z) :=
  let* initial := row (c_ticketId c) in
  refuse_if (negb (isDigestText (c_root c)) ||
             negb (Z.of_nat (length (chunkDigests c)) =? ENCOUNTER_TICKS / CHUNK_TICKS) ||
             negb (forallb isDigestText (chunkDigests c))) (js "invalid committed root") $
  let* root := hashed (logRootFrame (ticket initial) (chunkDigests c)) in
  refuse_if (negb (str_eqb root (c_root c))) (js "invalid committed root") $
  let* digest := hashed (commitFrame c) in
  let* valid := await (cb_verify cryptoBackend (ea_ownerPublicKey (t_authorization (ticket initial)))
                         digest (c_ownerSignature c)) in
  refuse_if (negb valid) (js "invalid owner signature") $
  retrying RETRIES (
    let* r := row (c_ticketId c) in
    refuse_if (phase_eqb (phase r) forfeited) (js "commit forfeited") $
    match commitment r with
    | Some c' =>
        refuse_if (negb (str_eqb (commitFrame c') (commitFrame c)))
          (js "committed root cannot change") $
        let* at_ := asserted (committedAt r) in
        aret (Some (c_root c, at_))
    | None =>
        let* now := time in
        refuse_if ((now <? commitNotBefore (ticket r)) || (releaseAt (ticket r) <=? now))
          (js "outside commit window") $
        let* stored := replace_next (set_committed c now r) in
        aret (if stored then Some (c_root c, now) else None)
    end) (js "concurrent commit; retry same request").

Definition revealTicket (id : jsstr) : async World EncounterReveal :=
  retrying RETRIES (
    let* r := row id in
    match commitment r with
    | None => athrow (js "commit required before reveal")
    | Some c =>
        refuse_if (phase_eqb (phase r) forfeited) (js "commit required before reveal") $
        match reveal r with
        | Some v => aret (Some v)
        | None =>
            refuse_if (negb (isDigestText (secret r))) (js "replay evidence retired") $
            let* now := time in
            let* at_ := asserted (committedAt r) in
            refuse_if ((releaseAt (ticket r) <=? at_) || (now <? releaseAt (ticket r)))
              (js "before release time") $
            let unsigned := mkReveal id (c_root c) (secret r) at_ now [] in
            let* digest := hashed (revealFrame unsigned) in
            let* signature := signed digest in
            let v := mkReveal id (c_root c) (secret r) at_ now signature in
            let* stored := replace_next (set_revealed v r) in
            aret (if stored then Some v else None)
        end
    end) (js "concurrent reveal; retry same request").

(** ** Settlement *)

(** The seed the kernel runs with; [NaN] is refused like any other number that
    is not a safe integer. *)
Definition encounterGame (seedDigest playerId : jsstr) : throws GameState :=
  match parseInt16 (take 8 seedDigest) with
  | Some n => createInitialGame {| create_seed := Z.of_N n; create_playerId := playerId |}
  | None => inl (js "game seed must be a safe integer")
  end.
Fixpoint replayInputs (state : GameState) (inputs : list InputFrame) : throws GameState :=
  match inputs with
  | [] => inr state
  | input :: inputs' =>
      match advanceGame state input with
      | Err _ => inl (js "invalid game replay")
      | Ok (state', _) => replayInputs state' inputs'
      end
  end.
Definition encounterItem (id : jsstr) (i : InventoryItem) : EncounterItem :=
  mkEncounterItem (js "encounter:" ++ id ++ js ":" ++ assetId i) (ownerId i) (itemType i) (rarity i)
    (power i) (sourceEnemyId i) (killTick i) (dropIndex i).
Definition gameSeedFrame (id secret : jsstr) : jsstr :=
  frame "encounter-game-seed-v1" [JStr id; JStr secret].
Definition finalStateFrame (id : jsstr) (state : GameState) : jsstr :=
  frame "encounter-final-state-v1" [JStr id; game_value state].

Definition receiptStatement (id : jsstr) (t : EncounterTicket) (c : EncounterCommit)
    (state : GameState) (stateDigest : jsstr) (settledAt : Z) : EncounterReceiptStatement :=
  mkReceiptStatement 1 (as_publicKey (signer options)) id (unit (t_authorization t)) ENCOUNTER_RULES
    (ea_playerId (t_authorization t)) (ea_ownerPublicKey (t_authorization t)) (c_root c) stateDigest
    (map (encounterItem id) (inventory state)) settledAt (settledAt + retentionMs options).

Definition settle (id : jsstr) (chunks : list AuditPayloadChunk) : async World EncounterReceipt :=
  let* initial := row id in
  match receipt initial with
  | Some r => aret r
  | None =>
      match reveal initial with
      | None => athrow (js "reveal required before settlement")
      | Some v =>
          refuse_if (negb (phase_eqb (phase initial) revealed))
            (js "reveal required before settlement") $
          refuse_if (negb (length chunks =? 2)%nat ||
                     existsb (fun c => 4096 <? Z.of_nat (length (payload c))) chunks)
            (js "invalid input log bounds") $
          let* c := asserted (commitment initial) in
          let* inputs := await (decodeEncounterLog cryptoBackend (ticket initial) c chunks) in
          let* seedDigest := hashed (gameSeedFrame id (secret initial)) in
          let* game := of_throws (encounterGame seedDigest
                                    (ea_playerId (t_authorization (ticket initial)))) in
          let* state := of_throws (replayInputs game inputs) in
          let* settledAt := time in
          refuse_if (negb (isTime (settledAt + retentionMs options)) || (settledAt <? releasedAt v))
            (js "invalid settlement clock") $
          let* stateDigest := hashed (finalStateFrame id state) in
          let statement := receiptStatement id (ticket initial) c state stateDigest settledAt in
          let* receiptId := hashed (receiptFrame statement) in
          let* signature := signed receiptId in
          let value := mkEncounterReceipt statement receiptId signature in
          retrying RETRIES (
            let* r := row id in
            match receipt r with
            | Some stored => aret (Some stored)
            | None =>
                refuse_if (negb (phase_eqb (phase r) revealed)) (js "settlement root changed") $
                let* c' := asserted (commitment r) in
                refuse_if (negb (str_eqb (c_root c') (rs_root statement)))
                  (js "settlement root changed") $
                let* stored := replace_next (set_settled value r) in
                aret (if stored then Some value else None)
            end) (js "concurrent settlement; retry same request")
      end
  end.

Definition lists_asset (asset : jsstr) (r : EncounterReceipt) : bool :=
  existsb (fun i => str_eqb (ei_assetId i) asset) (items (receipt_statement r)).

Definition admitToMarket (listing : EncounterListing) : async World jsstr :=
  let* r := row (el_ticketId listing) in
  let* hold := held r in
  refuse_if hold (js "item evidence hold still open") $
  match receipt r with
  | None => athrow (js "unverified item")
  | Some rc =>
      refuse_if (negb (str_eqb (receiptId rc) (el_receiptId listing)) ||
                 negb (lists_asset (el_assetId listing) rc)) (js "unverified item") $
      let* digest := hashed (listingFrame listing) in
      let* valid := await (cb_verify cryptoBackend (ea_ownerPublicKey (t_authorization (ticket r)))
                             digest (el_ownerSignature listing)) in
      refuse_if (negb valid) (js "invalid listing signature") $
      retrying RETRIES (
        let* current := row (el_ticketId listing) in
        let* hold := held current in
        refuse_if hold (js "item evidence hold still open") $
        if bool_decide (el_assetId listing ∈ admittedAssets current)
        then aret (Some (el_assetId listing))
        else
          let* stored :=
            replace_next (set_admitted (admittedAssets current ++ [el_assetId listing]) current) in
          aret (if stored then Some (el_assetId listing) else None))
        (js "concurrent market admission; retry same request")
  end.

Definition setEvidenceHold (id : jsstr) (hold : bool) : async World True :=
  let* r := row id in
  refuse_if (retentionReleased r) (js "retention already closed") $
  let* stored := replace_next (set_hold hold r) in
  refuse_if (negb stored) (js "concurrent hold; retry") $ aret I.

(** ** Termination *)

Definition forfeit (id : jsstr) : async World True :=
  let* r := row id in
  refuse_if (phase_eqb (phase r) settled || phase_eqb (phase r) forfeited)
    (js "ticket already terminal") $
  let* stored := replace_next (set_forfeited r) in
  refuse_if (negb stored) (js "concurrent forfeit; retry") $ aret I.

Definition is_expired (reason : EncounterTerminationReason) : bool :=
  match reason with expired => true | abandoned => false end.
Definition latestEvent (r : EncounterLedgerRow) : Z :=
  Z.max (issuedAt (ticket r)) (Z.max (default 0 (committedAt r))
    (match reveal r with Some v => releasedAt v | None => 0 end)).
Definition terminationStatement (id : jsstr) (r : EncounterLedgerRow)
    (reason : EncounterTerminationReason) (now : Z) : EncounterTerminationStatement :=
  let t := ticket r in
  let a := t_authorization t in
  mkTerminationStatement
    (mkAuthorization None (unit a) (startHead a) (ea_playerId a) (ea_ownerPublicKey a))
    1 (as_publicKey (signer options)) id (queueId t) (rulesId t) (c_root <$> commitment r)
    (if phase_eqb (phase r) forfeited then abandoned else reason) now (now + retentionMs options).

Definition terminate (id : jsstr) (reason : EncounterTerminationReason)
    : async World EncounterTermination :=
  retrying RETRIES (
    let* r := row id in
    refuse_if (bool_decide (is_Some (receipt r)) || phase_eqb (phase r) settled)
      (js "settled ticket cannot terminate") $
    match termination r with
    | Some t => aret (Some t)
    | None =>
        let* now := time in
        refuse_if (now <? latestEvent r) (js "invalid termination clock") $
        let* allowed := await (inr (terminationAllowed false (phase_eqb (phase r) forfeited)
          (is_expired reason)
          (negb (phase_eqb (phase r) issued) || bool_decide (is_Some (commitment r)))
          now (releaseAt (ticket r)))) in
        refuse_if (negb allowed) (js "expiry requires an uncommitted missed start") $
        refuse_if (negb (isTime (now + retentionMs options))) (js "termination clock overflow") $
        let statement := terminationStatement id r reason now in
        let* terminationId := hashed (terminationFrame statement) in
        let* signature := signed terminationId in
        let value := mkTermination statement terminationId signature in
        let* stored := replace_next (set_terminated value r) in
        aret (if stored then Some value else None)
    end) (js "concurrent termination; retry same request").

(** ** Retention *)

Definition closureGrant (id : jsstr) (expectedRevision nextSequence : Z)
    : async World PayloadScopeClosureGrant :=
  refuse_if (negb (isTime expectedRevision) || negb (isTime nextSequence) ||
             (ENCOUNTER_TICKS / CHUNK_TICKS <? nextSequence)) (js "invalid terminal queue snapshot") $
  retrying RETRIES (
    let* r := row id in
    match termination r with
    | None => athrow (js "termination certificate required")
    | Some t =>
        refuse_if (negb (phase_eqb (phase r) forfeited) || bool_decide (is_Some (receipt r)))
          (js "termination certificate required") $
        let* hold := held r in
        let* now := time in
        let* allowed := await (inr (terminalCleanupAllowed true now
                                      (ts_retentionUntil (termination_statement t)) hold)) in
        refuse_if (negb allowed)
          (if hold then js "evidence hold still open" else js "termination retention still open") $
        let* closed := (if retentionReleased r then aret true
                        else replace_next (set_released r)) in
        if negb closed then aret None
        else
          let unsigned :=
            mkClosureGrant (queueId (ticket r)) expectedRevision nextSequence (terminationId t) [] in
          let* digest := hashed (scopeClosureFrame unsigned) in
          let* signature := signed digest in
          aret (Some (mkClosureGrant (queueId (ticket r)) expectedRevision nextSequence
                        (terminationId t) signature))
    end) (js "concurrent terminal retention closure; retry").

Definition retireSettled (id : jsstr) : async World EncounterLedgerRow :=
  retrying RETRIES (
    let* r := row id in
    match receipt r with
    | None => athrow (js "retention still open")
    | Some rc =>
        let* now := time in
        refuse_if (now <? rs_retentionUntil (receipt_statement rc)) (js "retention still open") $
        let* hold := held r in
        refuse_if hold (js "evidence hold still open") $
        let* closed := (if retentionReleased r then aret true
                        else replace_next (set_released r)) in
        aret (if closed then Some (set_released r) else None)
    end) (js "concurrent retention closure; retry").

(** A committed row has two digests, so [at(-1)] is there. *)
Definition pruneGrant (id : jsstr) (expectedRevision : Z) : async World PayloadPruneGrant :=
  refuse_if (negb (isTime expectedRevision)) (js "invalid queue revision") $
  let* r := retireSettled id in
  let* c := asserted (commitment r) in
  let* tip := asserted (List.last (map Some (chunkDigests c)) None) in
  let through := Z.of_nat (length (chunkDigests c)) - 1 in
  let grant := mkPruneGrant (queueId (ticket r)) expectedRevision through tip true true true false in
  let* digest := hashed (pruneFrame (grant [])) in
  let* signature := signed digest in
  aret (grant signature).

(** ** Archive *)

Definition same_custody_key (key : option jsstr) (c : ArchiveCustody) : bool :=
  bool_decide (Some (archiveKey (custody_statement c)) = key).

Definition custodyMismatch (id : jsstr) (s : ArchiveCustodyStatement) (r : EncounterLedgerRow)
    (rc : EncounterReceipt) (c : EncounterCommit) : bool :=
  let t := ticket r in
  negb (isDigestText (secret r)) || negb (str_eqb (cs_authorityKey s) (authorityKey t)) ||
  negb (str_eqb (cs_ticketId s) id) || negb (str_eqb (cs_unit s) (unit (t_authorization t))) ||
  negb (str_eqb (cs_queueId s) (queueId t)) || negb (str_eqb (cs_root s) (c_root c)) ||
  negb (str_eqb (cs_receiptId s) (receiptId rc)) ||
  negb (str_eqb (stringify (JArr (map JStr (cs_chunkDigests s))))
          (stringify (JArr (map JStr (chunkDigests c))))) ||
  (minRetainUntil s <? rs_retentionUntil (receipt_statement rc)).

(** The certificate is stringified and parsed back before it is used. *)
Definition acceptArchive (id : jsstr) (custody : ArchiveCustody) : async World True :=
  let text := stringify (custody_value custody) in
  match trustedArchiveKey options with
  | None => athrow (js "invalid archive custody configuration")
  | Some key =>
      refuse_if ((3000 <? byteLength text) || (slen key =? 0))
        (js "invalid archive custody configuration") $
      let* first := row id in
      let known := match archiveCustody first with
                   | Some c => same_custody_key (Some key) c &&
                               str_eqb (stringify (custody_value c)) text
                   | None => false
                   end in
      if known then aret I
      else
        let* valid := await (inr (verifyArchiveCustody cryptoBackend custody key)) in
        refuse_if (negb valid) (js "invalid archive custody") $
        retrying RETRIES (
          let* r := row id in
          match receipt r with
          | None => athrow (js "archive custody binding mismatch")
          | Some rc =>
              let* c := asserted (commitment r) in
              refuse_if (custodyMismatch id (custody_statement custody) r rc c)
                (js "archive custody binding mismatch") $
              match archiveCustody r with
              | Some stored =>
                  refuse_if (negb (str_eqb (custodyId stored) (custodyId custody)))
                    (js "archive custody cannot change") $ aret (Some I)
              | None =>
                  let* stored := replace_next (set_custody custody r) in
                  aret (if stored then Some I else None)
              end
          end) (js "concurrent archive custody; retry")
  end.

Definition archiveHandoff (id : jsstr) (expectedRevision nextSequence : Z)
    : async World PayloadScopeClosureGrant :=
  refuse_if (negb (isTime expectedRevision) || negb (nextSequence =? 2))
    (js "invalid archive handoff snapshot") $
  let* r := row id in
  match archiveCustody r with
  | None => athrow (js "archive custody required")
  | Some c =>
      refuse_if (negb (bool_decide (is_Some (receipt r))) ||
                 negb (same_custody_key (trustedArchiveKey options) c))
        (js "archive custody required") $
      let unsigned :=
        mkClosureGrant (queueId (ticket r)) expectedRevision nextSequence (custodyId c) [] in
      let* digest := hashed (archiveHandoffFrame unsigned) in
      let* signature := signed digest in
      aret (mkClosureGrant (queueId (ticket r)) expectedRevision nextSequence (custodyId c) signature)
  end.

Definition archiveRelease (id : jsstr) : async World ArchiveRelease :=
  let* before := row id in
  match archiveCustody before with
  | None => athrow (js "archive custody required")
  | Some c =>
      refuse_if (negb (same_custody_key (trustedArchiveKey options) c))
        (js "archive custody required") $
      let* now := time in
      refuse_if (now <? minRetainUntil (custody_statement c)) (js "archive retention still open") $
      let* r := retireSettled id in
      let* commitment := asserted (commitment r) in
      let* closedAt := time in
      let statement := mkReleaseStatement 1 (authorityKey (ticket r)) id (queueId (ticket r))
                         (c_root commitment) (custodyId c) closedAt in
      let* releaseId := hashed (archiveReleaseFrame statement) in
      let* signature := signed releaseId in
      aret (mkRelease statement releaseId signature)
  end.

(** ** Requests *)

Inductive request :=
| r_issue (rounds : nat) (a : EncounterAuthorization)
| r_commit (c : EncounterCommit)
| r_reveal (id : jsstr)
| r_settle (id : jsstr) (chunks : list AuditPayloadChunk)
| r_admit (l : EncounterListing)
| r_hold (id : jsstr) (hold : bool)
| r_fence (id : jsstr)
| r_status (id : jsstr)
| r_forfeit (id : jsstr)
| r_terminate (id : jsstr) (reason : EncounterTerminationReason)
| r_closure (id : jsstr) (expectedRevision nextSequence : Z)
| r_prune (id : jsstr) (expectedRevision : Z)
| r_accept_archive (id : jsstr) (c : ArchiveCustody)
| r_handoff (id : jsstr) (expectedRevision nextSequence : Z)
| r_archive_release (id : jsstr).
Inductive response :=
| a_ticket (t : EncounterTicket)
| a_committed (root : jsstr) (at_ : Z)
| a_reveal (v : EncounterReveal)
| a_receipt (r : EncounterReceipt)
| a_admitted (asset : jsstr)
| a_status (s : EncounterStatus)
| a_termination (t : EncounterTermination)
| a_closure (g : PayloadScopeClosureGrant)
| a_prune (g : PayloadPruneGrant)
| a_release (r : ArchiveRelease)
| a_done.

Definition answer {A} (m : async World A) (f : A -> response) : async World response :=
  let* a := m in aret (f a).
Definition serve (r : request) : async World response :=
  match r with
  | r_issue n a => answer (issue n a) a_ticket
  | r_commit c => answer (commit c) (fun p => a_committed (fst p) (snd p))
  | r_reveal id => answer (revealTicket id) a_reveal
  | r_settle id chunks => answer (settle id chunks) a_receipt
  | r_admit l => answer (admitToMarket l) a_admitted
  | r_hold id h => answer (setEvidenceHold id h) (fun _ => a_done)
  | r_fence id => answer (fenceEvidenceCase id) (fun _ => a_done)
  | r_status id => answer (status id) a_status
  | r_forfeit id => answer (forfeit id) (fun _ => a_done)
  | r_terminate id reason => answer (terminate id reason) a_termination
  | r_closure id e n => answer (closureGrant id e n) a_closure
  | r_prune id e => answer (pruneGrant id e) a_prune
  | r_accept_archive id c => answer (acceptArchive id c) (fun _ => a_done)
  | r_handoff id e n => answer (archiveHandoff id e n) a_closure
  | r_archive_release id => answer (archiveRelease id) a_release
  end.
End Authority.
