(* ===== verification/EncounterInvariant.v ===== *)
(** * The invariant of the encounter ledger

    What every row of the authority's ledger satisfies, how a row may change,
    and the specifications of the primitives the handlers are made of: reading
    a row, the clock, and the compare-and-set that replaces a row.  A row read
    before an [await] may be stale; a compare-and-set that succeeds proves that
    it was not. *)
From stdpp Require Import gmap.
From S2P Require Import Prelude Json Contracts Kernel Snapshot Utf8 CryptoBackend EncounterWire.
From S2P Require Import Async EncounterLedger EncounterAuthority.
Set Default Goal Selector "!".

(** ** How a row may change *)

(** Once set, kept. *)
Definition kept {A} (a b : option A) : Prop := forall x, a = Some x -> b = Some x.

(** The phase graph: issued, committed, revealed and settled in this order,
    forfeited from any phase but the last two. *)
Definition phase_reaches (a b : EncounterPhase) : bool :=
  match a, b with
  | issued, _ => true
  | committed, issued => false
  | committed, _ => true
  | revealed, (revealed | settled | forfeited) => true
  | settled, settled => true
  | forfeited, forfeited => true
  | _, _ => false
  end.

(** A row of a closed generation: its secret is erased, and with it the reveal
    and the custody certificate. *)
Definition retired (r : EncounterLedgerRow) : Prop := retentionReleased r = true /\ secret r = [].

Record row_evolves (r r' : EncounterLedgerRow) : Prop := {
  ev_ticket : ticket r' = ticket r;
  ev_start : startKey r' = startKey r;
  ev_secret : secret r' = secret r \/ retired r';
  ev_revision : r' = r \/ revision r < revision r' \/
    (revision r <= revision r' /\ retentionReleased r = true /\ retired r');
  ev_phase : phase_reaches (phase r) (phase r') = true;
  ev_commitment : kept (commitment r) (commitment r');
  ev_committedAt : kept (committedAt r) (committedAt r');
  ev_reveal : kept (reveal r) (reveal r') \/ retired r';
  ev_receipt : kept (receipt r) (receipt r');
  ev_termination : kept (termination r) (termination r');
  ev_custody : kept (archiveCustody r) (archiveCustody r') \/ retired r';
  ev_released : retentionReleased r = true ->
    retentionReleased r' = true /\ evidenceHold r' = evidenceHold r;
  ev_admitted : admittedAssets r `prefix_of` admittedAssets r';
  ev_recovery : recoveryReleased r' = recoveryReleased r;
}.

#[export] Instance kept_preorder {A} : PreOrder (@kept A).
Proof. split; [by intros a x|]. intros a b c Hab Hbc x Hx. by apply Hbc, Hab. Qed.
Lemma kept_None {A} (b : option A) : kept None b.
Proof. by intros x. Qed.

Lemma phase_reaches_trans a b c :
  phase_reaches a b = true -> phase_reaches b c = true -> phase_reaches a c = true.
Proof. by destruct a, b, c. Qed.

Lemma retired_later r r' : row_evolves r r' -> retired r -> retired r'.
Proof.
  intros E [Hr Hs]. destruct (ev_secret _ _ E) as [Es|]; [|done]. destruct (ev_released _ _ E Hr) as [? _].
  split; [done|congruence].
Qed.
Lemma kept_later {A} (f : EncounterLedgerRow -> option A) r1 r2 r3 :
  row_evolves r2 r3 -> kept (f r1) (f r2) \/ retired r2 -> kept (f r2) (f r3) \/ retired r3 ->
  kept (f r1) (f r3) \/ retired r3.
Proof.
  intros E [K12|R2]; [|intros _; right; by apply (retired_later r2)].
  intros [K23|R3]; [left; by etrans|by right].
Qed.

#[export] Instance row_evolves_preorder : PreOrder row_evolves.
Proof.
  split.
  - intros r. split; try done; [by left|by left|by destruct (phase r)|by left|by left].
  - intros r1 r2 r3 E12 E23. pose proof (retired_later _ _ E23) as Hret.
    pose proof (kept_later reveal _ _ _ E23 (ev_reveal _ _ E12) (ev_reveal _ _ E23)) as Krev.
    pose proof (kept_later archiveCustody _ _ _ E23 (ev_custody _ _ E12) (ev_custody _ _ E23)) as Kcus.
    destruct E12, E23. split; try congruence; try done; try (by etrans).
    + destruct ev_secret0, ev_secret1; [left; congruence|by right|right; by apply Hret|by right].
    + destruct ev_revision0 as [->|[|(? & ? & ?)]], ev_revision1 as [->|[|(? & ? & ?)]];
        [by left|by right; left|by right; right|by right; left|right; left; lia|right; left; lia
        |by right; right|right; left; lia|right; right; split_and!; [lia|done|done]].
    + by eapply phase_reaches_trans.
    + intros Hr. destruct (ev_released0 Hr) as [H2 E2], (ev_released1 H2) as [H3 E3].
      split; [done|congruence].
Qed.

(** A row read earlier with the same revision, before its retention was closed,
    is the same row. *)
Lemma same_revision r r' :
  row_evolves r r' -> revision r' = revision r -> retentionReleased r = false -> r' = r.
Proof. intros E Hr Hn. destruct (ev_revision r r' E) as [|[|(_ & ? & _)]]; [done|lia|congruence]. Qed.

(** ** How the store may change *)

(** No owner has given up the recovery of a ticket. *)
Definition unclaimed (w : World) : Prop := forall id r, lookup_id id w = Some r -> recoveryReleased r = false.

Record evolves (w w' : World) : Prop := {
  rows_evolve : forall id r, lookup_id id w = Some r ->
    exists r', lookup_id id w' = Some r' /\ row_evolves r r';
  unclaimed_kept : unclaimed w -> unclaimed w';
  calls_grow : (calls w <= calls w')%nat;
  clock_kept : clock_at w' = clock_at w;
  uuid_kept : uuid_at w' = uuid_at w;
  random_kept : random_at w' = random_at w;
}.
#[export] Instance evolves_preorder : PreOrder evolves.
Proof.
  split.
  - intros w. split; try done. intros id r Hr. by exists r.
  - intros w1 w2 w3 [A1 U1 B1 C1 D1 E1] [A2 U2 B2 C2 D2 E2]. split; try congruence; [|auto|lia].
    intros id r Hr. destruct (A1 id r Hr) as (r2 & Hr2 & Ev2).
    destruct (A2 id r2 Hr2) as (r3 & Hr3 & Ev3). exists r3. split; [done|by etrans].
Qed.

(** ** What a row satisfies *)

Section Invariant.
Context `{JsHost} (options : EncounterAuthorityOptions).
Let backend := cryptoBackend options.
Let authority := as_publicKey (signer options).

Definition owned (r : EncounterLedgerRow) : Prop := authorityKey (ticket r) = authority.

(** A text the authority has signed. *)
Definition signed_text (text signature : jsstr) : Prop :=
  exists digest, hash backend text = inr digest /\ as_signDigest (signer options) digest = inr signature.

(** [sec] opens the seed commitment of the ticket; a retired row has lost it. *)
Definition seed_of (r : EncounterLedgerRow) (sec : jsstr) : Prop :=
  hash backend (seedFrame (row_id r) sec) = inr (seedCommitment (ticket r)) /\
  (secret r = sec \/ secret r = []).

Definition commit_ok (t : EncounterTicket) (c : EncounterCommit) : Prop :=
  c_ticketId c = ticketId t /\ length (chunkDigests c) = 2%nat /\
  hash backend (logRootFrame t (chunkDigests c)) = inr (c_root c) /\
  exists digest, hash backend (commitFrame c) = inr digest /\
    cb_verify backend (ea_ownerPublicKey (t_authorization t)) digest (c_ownerSignature c) = inr true.

(** The receipt of a settlement: the committed log, replayed from the seed
    that was committed to in the ticket. *)
Definition settlement_ok (r : EncounterLedgerRow) (c : EncounterCommit) (rc : EncounterReceipt)
    : Prop :=
  exists sec chunks inputs seedDigest game state stateDigest settledAt,
    seed_of r sec /\ decodeEncounterLog backend (ticket r) c chunks = inr inputs /\
    hash backend (gameSeedFrame (row_id r) sec) = inr seedDigest /\
    encounterGame seedDigest (ea_playerId (t_authorization (ticket r))) = inr game /\
    replayInputs game inputs = inr state /\
    hash backend (finalStateFrame (row_id r) state) = inr stateDigest /\
    receipt_statement rc =
      receiptStatement options (row_id r) (ticket r) c state stateDigest settledAt /\
    releaseAt (ticket r) <= settledAt /\ isTime settledAt = true /\
    isTime (settledAt + retentionMs options) = true /\
    hash backend (receiptFrame (receipt_statement rc)) = inr (receiptId rc) /\
    as_signDigest (signer options) (receiptId rc) = inr (receipt_signature rc).

Definition reveal_ok (r : EncounterLedgerRow) (v : EncounterReveal) : Prop :=
  exists c at_, commitment r = Some c /\ committedAt r = Some at_ /\
    rv_ticketId v = row_id r /\ rv_root v = c_root c /\ rv_seed v = secret r /\
    isDigestText (secret r) = true /\ rv_committedAt v = at_ /\
    releaseAt (ticket r) <= releasedAt v /\ isTime (releasedAt v) = true /\
    signed_text (revealFrame v) (rv_signature v).

Definition termination_ok (r : EncounterLedgerRow) (t : EncounterTermination) : Prop :=
  let s := termination_statement t in
  ts_ticketId s = row_id r /\ ts_root s = (c_root <$> commitment r) /\
  (ts_reason s = expired -> commitment r = None /\ releaseAt (ticket r) <= terminatedAt s) /\
  hash backend (terminationFrame s) = inr (terminationId t) /\
  as_signDigest (signer options) (terminationId t) = inr (termination_signature t).

Definition phase_ok (r : EncounterLedgerRow) : Prop :=
  match phase r with
  | issued => commitment r = None /\ reveal r = None /\ receipt r = None /\ termination r = None
  | committed => is_Some (commitment r) /\ reveal r = None /\ receipt r = None /\ termination r = None
  | revealed => is_Some (commitment r) /\ is_Some (reveal r) /\ receipt r = None /\
                termination r = None
  | settled => is_Some (commitment r) /\ is_Some (receipt r) /\ termination r = None /\
               (is_Some (reveal r) \/ secret r = [])
  | forfeited => receipt r = None
  end.

Record row_ok (r : EncounterLedgerRow) : Prop := {
  ok_start : encounterStartKey backend (unit (t_authorization (ticket r)))
      (startHead (t_authorization (ticket r)))
      (default 0 (generation (t_authorization (ticket r)))) = inr (startKey r);
  ok_names : forallb identifier [unit (t_authorization (ticket r));
      startHead (t_authorization (ticket r)); ea_playerId (t_authorization (ticket r))] = true /\
    isDigestText (ea_ownerPublicKey (t_authorization (ticket r))) = true;
  ok_release : releaseAt (ticket r) = commitNotBefore (ticket r) + 1000;
  ok_ticket : signed_text (ticketFrame (ticket r)) (ticketSignature (ticket r));
  ok_seed : exists sec, seed_of r sec /\ isDigestText sec = true;
  ok_phase : phase_ok r;
  ok_commitment : forall c, commitment r = Some c -> commit_ok (ticket r) c;
  ok_window : match commitment r with
    | Some _ => exists at_, committedAt r = Some at_ /\ isTime at_ = true /\
                  commitNotBefore (ticket r) <= at_ < releaseAt (ticket r)
    | None => committedAt r = None
    end;
  ok_reveal : forall v, reveal r = Some v -> reveal_ok r v;
  ok_receipt : forall rc, receipt r = Some rc ->
    exists c, commitment r = Some c /\ settlement_ok r c rc;
  ok_termination : forall t, termination r = Some t -> termination_ok r t;
  ok_released : retentionReleased r = true -> is_Some (receipt r) \/ is_Some (termination r);
  ok_admitted : forall a, a ∈ admittedAssets r ->
    exists rc, receipt r = Some rc /\ lists_asset a rc = true;
  ok_custody : forall c, archiveCustody r = Some c -> is_Some (receipt r);
}.

Definition authority_ok (w : World) : Prop :=
  ledger_ok w /\ forall id r, lookup_id id w = Some r -> owned r -> row_ok r.

(** ** What happens between two pieces of code *)

(** Evidence cases and the current generation change, and the clock and the
    random source advance. *)
Definition quiet_turn (w w' : World) : Prop :=
  encounter_tickets w' = encounter_tickets w /\ encounter_origins w' = encounter_origins w /\
  (calls w <= calls w')%nat /\ clock_at w' = clock_at w /\ uuid_at w' = uuid_at w /\
  random_at w' = random_at w.

(** A row whose generation may be closed. *)
Definition closes (r : EncounterLedgerRow) : Prop :=
  retentionReleased r = true /\
  ((phase r = settled /\ is_Some (receipt r)) \/ (phase r = forfeited /\ is_Some (termination r))).
Definition in_unit (u : jsstr) (ke : jsstr * LedgerEntry) : Prop := row_unit (data (snd ke)) = u.
#[export] Instance in_unit_dec u ke : Decision (in_unit u ke).
Proof. unfold in_unit. apply _. Defined.
Definition origin_entry (e : LedgerEntry) : LedgerEntry :=
  mkEntry (start_key e) (entry_revision e) (origin_of (data e)).

(** The generation of a unit is closed: its rows become origins. *)
Record rolls (u : jsstr) (w w' : World) : Prop := {
  ro_closes : forall id e, encounter_tickets w !! id = Some e -> in_unit u (id, e) -> closes (data e);
  ro_tickets : encounter_tickets w' = filter (fun ke => ~ in_unit u ke) (encounter_tickets w);
  ro_origins : encounter_origins w' =
    (origin_entry <$> filter (in_unit u) (encounter_tickets w)) ∪ encounter_origins w;
  ro_calls : (calls w <= calls w')%nat;
  ro_clock : clock_at w' = clock_at w;
  ro_uuid : uuid_at w' = uuid_at w;
  ro_random : random_at w' = random_at w;
}.
Definition host_turn (w w' : World) : Prop := quiet_turn w w' \/ exists u, rolls u w w'.

Lemma quiet_turn_ok w w' : authority_ok w -> quiet_turn w w' -> authority_ok w' /\ evolves w w'.
Proof.
  intros [[Ht Ho Hi Hs] Hrows] (Et & Eo & Hc & Hk & Hu & Hr).
  assert (El : forall id, lookup_id id w' = lookup_id id w)
    by (intros id; unfold lookup_id; by rewrite Et, Eo).
  split.
  - split; [by split; rewrite ?Et, ?Eo|]. intros id r. rewrite El. apply Hrows.
  - split; try done.
    + intros id r Hl. exists r. by rewrite El.
    + intros Hun id r. rewrite El. apply Hun.
Qed.

Lemma origin_row_ok r : closes r -> row_ok r -> row_ok (origin_of r).
Proof.
  intros [Hrl Hterm] [Ka Kn Kb Kc Kd Ke Kf Kg Kh Ki Kj Kk Kl Km]. split; try done.
  - destruct Kd as (sec & [Hs _] & Hd). exists sec. split; [|done]. split; [done|by right].
  - unfold phase_ok in *. cbn. destruct Hterm as [[Hp Hr]|[Hp Hr]]; rewrite Hp in *.
    + destruct Ke as (Hc & Hrc & Ht & _). split_and!; try done. by right.
    + done.
  - intros rc Hrc. destruct (Ki rc Hrc) as (c & Hc & Hs). exists c. split; [done|].
    destruct Hs as (sec & chunks & inputs & sd & game & state & d & t & [Hh _] & Hs).
    exists sec, chunks, inputs, sd, game, state, d, t. split; [|exact Hs]. split; [done|by right].
Qed.
Lemma origin_row_evolves r : closes r -> row_evolves r (origin_of r).
Proof.
  intros [Hrl _]. assert (Hret : retired (origin_of r)) by done.
  split; cbn; try done; try (by right); try (by destruct (phase r)).
  right. right. split; [lia|done].
Qed.

(** Where the rows are after a roll. *)
Lemma rolled_origin u w w' id e' : ledger_ok w -> rolls u w w' -> encounter_origins w' !! id = Some e' <->
  (exists e, encounter_tickets w !! id = Some e /\ in_unit u (id, e) /\ e' = origin_entry e) \/
  encounter_origins w !! id = Some e'.
Proof.
  intros Hw Hro. rewrite (ro_origins _ _ _ Hro), lookup_union_Some.
  - rewrite lookup_fmap, fmap_Some. setoid_rewrite map_lookup_filter_Some. naive_solver.
  - apply map_disjoint_spec. intros i x y. rewrite lookup_fmap, fmap_Some.
    intros (e & [He _]%map_lookup_filter_Some & _) Hy. by apply (ids_apart w Hw i e y).
Qed.
Lemma rolled_lookup u w w' id : ledger_ok w -> rolls u w w' ->
  lookup_id id w' = match encounter_tickets w !! id with
                    | Some e => Some (if decide (in_unit u (id, e)) then origin_of (data e) else data e)
                    | None => lookup_id id w
                    end.
Proof.
  intros Hw Hro. unfold lookup_id. rewrite (ro_tickets _ _ _ Hro).
  pose proof (fun e' => rolled_origin u w w' id e' Hw Hro) as Ho.
  destruct (encounter_tickets w !! id) as [e|] eqn:E; [case_decide as Hu|].
  - rewrite (proj2 (map_lookup_filter_None _ _ _)) by (right; intros e1 He1; naive_solver congruence).
    rewrite (proj2 (Ho (origin_entry e))); [done|]. left. by exists e.
  - rewrite (proj2 (map_lookup_filter_Some _ _ _ e)) by done. done.
  - rewrite (proj2 (map_lookup_filter_None _ _ _)) by (by left). f_equal. apply option_eq. intros e'.
    rewrite (Ho e'). naive_solver congruence.
Qed.
Lemma rolled_ledger u w w' : ledger_ok w -> rolls u w w' -> ledger_ok w'.
Proof.
  intros Hw Hro. pose proof Hw as [Ht Ho Hi Hs].
  assert (Ht' : forall id e, encounter_tickets w' !! id = Some e <->
            encounter_tickets w !! id = Some e /\ ~ in_unit u (id, e))
    by (intros; rewrite (ro_tickets _ _ _ Hro); apply map_lookup_filter_Some).
  pose proof (fun id e' => rolled_origin u w w' id e' Hw Hro) as Ho'.
  split.
  - split; [intros id e [He _]%Ht'; by apply Ht|].
    intros id id' e e' [He _]%Ht' [He' _]%Ht'. by apply (starts_unique _ Ht).
  - split.
    + intros id e' [(e & He & _ & ->)|He]%Ho'; [|by apply Ho]. by apply (columns_agree _ Ht) in He.
    + intros id id' e1 e2 [(e & He & _ & ->)|He]%Ho' [(e' & He' & _ & ->)|He']%Ho' Hk; cbn [origin_entry start_key] in Hk.
      * by apply (starts_unique _ Ht id id' e e').
      * by destruct (Hs id id' e e2).
      * by destruct (Hs id' id e' e1).
      * by apply (starts_unique _ Ho id id' e1 e2).
  - intros id e e' [He Hn]%Ht' [(e1 & He1 & Hu & _)|He1]%Ho'; [congruence|]. by apply (Hi id e e').
  - intros id id' e e' [He Hn]%Ht' [(e1 & He1 & Hu & ->)|He1]%Ho' Hk; cbn [origin_entry start_key] in Hk.
    + assert (id = id') as <- by (by apply (starts_unique _ Ht id id' e e1)). congruence.
    + by apply (Hs id id' e e').
Qed.
Lemma rolls_ok u w w' : authority_ok w -> rolls u w w' -> authority_ok w' /\ evolves w w'.
Proof.
  intros [Hw Hrows] Hro. pose proof (fun id => rolled_lookup u w w' id Hw Hro) as Hl. split.
  - split; [by apply (rolled_ledger u w)|]. intros id r. rewrite Hl.
    destruct (encounter_tickets w !! id) as [e|] eqn:E; [|apply Hrows]. intros [= <-].
    assert (Hd : lookup_id id w = Some (data e)) by (unfold lookup_id; by rewrite E).
    case_decide as Hu; [|by apply (Hrows id)]. intros Ho. apply origin_row_ok; [by apply (ro_closes _ _ _ Hro id)|].
    by apply (Hrows id).
  - destruct Hro as [Hcl _ _ Hc Hk Hu Hr]. split; [| |done|done|done|done].
    2:{ intros Hun id r. rewrite Hl. destruct (encounter_tickets w !! id) as [e|] eqn:E; [|apply Hun].
        intros [= <-]. assert (Hd : lookup_id id w = Some (data e)) by (unfold lookup_id; by rewrite E).
        case_decide; exact (Hun id _ Hd). }
    intros id r. rewrite Hl. unfold lookup_id at 1.
    destruct (encounter_tickets w !! id) as [e|] eqn:E;
      [|intros Hr'; exists r; split; [by unfold lookup_id; rewrite E|reflexivity]].
    intros [= <-]. eexists. split; [reflexivity|]. case_decide as Hin; [|reflexivity].
    apply origin_row_evolves. by apply (Hcl id).
Qed.
Lemma host_turn_ok w w' : authority_ok w -> host_turn w w' -> authority_ok w' /\ evolves w w'.
Proof. intros Hw [Hq|[u Hr]]; [by apply quiet_turn_ok|by apply (rolls_ok u)]. Qed.

(** ** Specifications of the primitives *)

Abbreviation OK := (authority_ok).

(** [m], started in [w], keeps the invariant and, if it returns, returns a
    value with [Q]. *)
Definition returns {A} (Q : A -> World -> Prop) (r : throws A) (w : World) : Prop :=
  match r with inr a => Q a w | inl _ => True end.
Definition ensures {A} (m : async World A) (w : World) (Q : A -> World -> Prop) : Prop :=
  spec OK evolves m w (returns Q).

Section Rules.
Context {A B : Type} (w : World) (Q : B -> World -> Prop).
Hypothesis Hw : OK w.

Lemma ensures_bind (m : async World A) (f : A -> async World B) (P : A -> World -> Prop) :
  ensures m w P -> (forall a w', OK w' -> evolves w w' -> P a w' -> ensures (f a) w' Q) ->
  ensures (abind m f) w Q.
Proof.
  intros Hm Hf. eapply spec_bind; [exact _|exact Hm| |done]. intros a w' Hi Hr Hp. by apply Hf.
Qed.
Lemma ensures_ret (b : B) : Q b w -> ensures (aret b) w Q.
Proof. intros. apply spec_ret; [exact _|done|done]. Qed.
Lemma ensures_throw e : ensures (athrow e) w Q.
Proof. intros. apply spec_throw; [exact _|done|done]. Qed.
Lemma ensures_refuse c e (k : async World B) :
  (c = false -> ensures k w Q) -> ensures (refuse_if c e k) w Q.
Proof. intros Hk. destruct c; [apply ensures_throw|by apply Hk]. Qed.
Lemma ensures_await (r : throws A) (f : A -> async World B) :
  (forall a w', OK w' -> evolves w w' -> r = inr a -> ensures (f a) w' Q) ->
  ensures (abind (await r) f) w Q.
Proof.
  intros Hf. apply spec_await_bind; [exact _|done|]. intros w' Hi Hr.
  destruct r as [e|a]; [done|by apply Hf].
Qed.
Lemma ensures_throws (r : throws A) (f : A -> async World B) :
  (forall a, r = inr a -> ensures (f a) w Q) -> ensures (abind (of_throws r) f) w Q.
Proof. intros Hf. destruct r as [e|a]; [exact (ensures_throw e)|by apply Hf]. Qed.
Lemma ensures_asserted (x : option A) (f : A -> async World B) :
  (forall a, x = Some a -> ensures (f a) w Q) -> ensures (abind (asserted x) f) w Q.
Proof. intros Hf. destruct x as [a|]; [by apply (Hf a)|exact (ensures_throw _)]. Qed.
Lemma ensures_read (g : World -> A) (f : A -> async World B) :
  ensures (f (g w)) w Q -> ensures (abind (read_store g) f) w Q.
Proof. done. Qed.
Lemma ensures_retrying n (body : async World (option B)) e :
  (forall w', OK w' -> evolves w w' ->
     ensures body w' (fun o w'' => match o with Some b => Q b w'' | None => True end)) ->
  ensures (retrying n body e) w Q.
Proof.
  intros Hb. apply spec_retrying; [exact _|done|done|]. intros w' Hi Hr.
  eapply spec_weaken; [exact _|by apply Hb|]. by intros [e'|[b|]] w'' _ _ Hq.
Qed.

(** Only the behaviour in the current store matters. *)
Lemma ensures_ext (m m' : async World B) : ensures m' w Q -> m w = m' w -> ensures m w Q.
Proof. unfold ensures, spec. by intros Hm ->. Qed.

Lemma ensures_row id (f : EncounterLedgerRow -> async World B) :
  (forall r, lookup_id id w = Some r -> owned r -> row_ok r -> ensures (f r) w Q) ->
  ensures (abind (row options id) f) w Q.
Proof.
  intros Hf. destruct (lookup_id id w) as [r|] eqn:E;
    [destruct (str_eqb (authorityKey (ticket r)) (as_publicKey (signer options))) eqn:K|].
  - apply str_eqb_eq in K as Ho. apply (ensures_ext _ (f r)).
    + apply Hf; [done|done|]. by apply (proj2 Hw id).
    + unfold row, byId, abind, read_store, refuse_if. cbn. by rewrite E; cbn; rewrite K.
  - apply (ensures_ext _ (athrow (js "unknown ticket or authority key changed"))); [apply ensures_throw|].
    unfold row, byId, abind, read_store, refuse_if. cbn. by rewrite E; cbn; rewrite K.
  - apply (ensures_ext _ (athrow (js "unknown ticket or authority key changed"))); [apply ensures_throw|].
    unfold row, byId, abind, read_store, refuse_if. cbn. by rewrite E.
Qed.
End Rules.

Lemma called_ok w : OK w -> OK (called w) /\ evolves w (called w).
Proof. intros Hw. apply quiet_turn_ok; [done|]. unfold quiet_turn. split_and!; try done. cbn. lia. Qed.

Lemma ensures_host {A B} (g : World -> A) (f : A -> async World B) w (Q : B -> World -> Prop) :
  OK w -> ensures (f (g w)) (called w) Q ->
  ensures (abind (fun w => (called w, Finished (inr (g w)))) f) w Q.
Proof.
  intros Hw (Hi & Hr & Hs). destruct (called_ok w Hw) as [_ Hc].
  split; [exact Hi|]. split; [|exact Hs]. by etrans.
Qed.

Lemma ensures_time {B} (f : Z -> async World B) w (Q : B -> World -> Prop) :
  OK w ->
  (forall now w', OK w' -> evolves w w' -> isTime now = true -> ensures (f now) w' Q) ->
  ensures (abind time f) w Q.
Proof.
  intros Hw Hf. destruct (called_ok w Hw) as [Hc Hr].
  eapply (ensures_bind _ _ time f (fun now _ => isTime now = true)); [|exact Hf].
  apply ensures_host; [done|].
  unfold refuse_if. destruct (isTime (clock_at w (calls w))) eqn:E; cbn [negb].
  - by apply ensures_ret.
  - by apply ensures_throw.
Qed.

(** ** Replacing a row *)

Lemma row_ok_revision n r : row_ok r -> row_ok (set_revision n r).
Proof. intros [Ka Kn Kb Kc Kd Ke Kf Kg Kh Ki Kj Kk Kl Km]. by split. Qed.

(** The row was read at [w0], possibly before other requests ran. *)
Lemma ensures_replace w0 w id r r1 :
  OK w -> evolves w0 w -> lookup_id id w0 = Some r -> owned r ->
  revision r1 = revision r -> row_id r1 = row_id r -> startKey r1 = startKey r ->
  (row_ok r -> row_ok r1) ->
  row_evolves r (set_revision (revision r + 1) r1) ->
  lookup_id id w = Some r \/ retentionReleased r = false ->
  ensures (replace_next r1) w (fun stored w' =>
    if stored : bool then lookup_id id w' = Some (set_revision (revision r + 1) r1) else True).
Proof.
  intros Hw Hev Hr Ho Ev Ei Es Hok Hrow Hfresh. unfold replace_next, replace. rewrite Ev.
  apply ensures_refuse; [done|]. intros _.
  destruct (rows_evolve _ _ Hev id r Hr) as (now & Hnow & Hrn).
  pose proof (replace_row_spec w (revision r) (set_revision (revision r + 1) r1) (proj1 Hw)) as Hs.
  unfold ensures, spec. destruct (replace_row _ _ w) as [w' [|]] eqn:Ew; cbn [fst snd settles returns];
    [|subst w'; split; [done|]; split; [reflexivity|done]].
  destruct Hs as (Hl & (old & Hold & _ & Hrev) & Hlook).
  change (row_id (set_revision (revision r + 1) r1)) with (row_id r1) in *.
  assert (row_id r1 = id) as Eid.
  { rewrite Ei. unfold row_id. rewrite <- (ev_ticket _ _ Hrn). exact (lookup_id_row w id now (proj1 Hw) Hnow). }
  rewrite Eid in Hold, Hlook. assert (old = now) as -> by congruence.
  assert (now = r) as -> by (destruct Hfresh; [congruence|by apply (same_revision r now)]).
  assert (lookup_id id w' = Some (set_revision (revision r + 1) r1)) as Hid
    by (rewrite Hlook; by rewrite decide_True).
  split; [|split; [|done]].
  - split; [done|]. intros id' r' Hr' Ho'. rewrite Hlook in Hr'.
    destruct (decide (id' = id)) as [->|]; [|by apply (proj2 Hw id')]. injection Hr' as <-.
    apply row_ok_revision, Hok. by apply (proj2 Hw id).
  - pose proof (replace_row_host w (revision r) (set_revision (revision r + 1) r1)) as (Hc & Hk & Hu & Hn).
    rewrite Ew in Hc, Hk, Hu, Hn. cbn [fst] in *. split; [| |lia|done|done|done].
    2:{ intros Hun id' r' Hr'. rewrite Hlook in Hr'. destruct (decide (id' = id)) as [->|]; [|by apply (Hun id')].
        injection Hr' as <-. rewrite (ev_recovery _ _ Hrow). by apply (Hun id). }
    intros id' r' Hr'. rewrite Hlook. destruct (decide (id' = id)) as [->|]; [|by exists r'].
    exists (set_revision (revision r + 1) r1). split; [done|]. by simplify_eq.
Qed.

(** ** Each update keeps the row well formed *)

Section Updates.
Context (r : EncounterLedgerRow).
Hypothesis Hok : row_ok r.

Abbreviation next r' := (set_revision (revision r + 1) r').

Ltac row_fields :=
  destruct Hok as [Kstart Knames Krel Ktick Kseed Kphase Kcom Kwin Krev Krec Kterm Krls Kadm Kcus];
  unfold phase_ok in Kphase.
Ltac evolving :=
  split; cbn;
  match goal with
  | |- _ `prefix_of` _ => first [reflexivity | apply prefix_app_r; reflexivity]
  | |- _ \/ _ < _ \/ _ => right; left; lia
  | |- _ \/ retired _ => left
  | _ => idtac
  end;
  match goal with
  | E : ?x = None |- kept ?x _ => rewrite E; apply kept_None
  | |- kept ?x ?x => reflexivity
  | |- phase_reaches (phase r) _ = true => destruct (phase r) eqn:?; cbn; first [reflexivity | congruence]
  | |- _ = true -> _ => intros ?; first [congruence | done]
  | _ => try done
  end.

Lemma commit_row c now :
  phase r <> forfeited -> commitment r = None -> commit_ok (ticket r) c -> isTime now = true ->
  commitNotBefore (ticket r) <= now < releaseAt (ticket r) ->
  row_ok (set_committed c now r) /\ row_evolves r (next (set_committed c now r)).
Proof.
  intros Hp Hn Hc Ht Hnow. row_fields.
  assert (phase r = issued) as Hi.
  { destruct (phase r); try done; destruct Kphase as [[? ?] _]; congruence. }
  rewrite Hi in Kphase. destruct Kphase as (_ & Hv & Hr & Hte). rewrite Hn in Kwin.
  split.
  - split; cbn; try done.
    + by intros c' [= <-].
    + eauto.
    + intros v. by rewrite Hv.
    + intros rc. by rewrite Hr.
    + intros t. by rewrite Hte.
  - evolving.
Qed.

Lemma reveal_row v c at_ now :
  phase r <> forfeited -> commitment r = Some c -> reveal r = None ->
  isDigestText (secret r) = true -> committedAt r = Some at_ -> releaseAt (ticket r) <= now ->
  isTime now = true ->
  rv_ticketId v = row_id r -> rv_root v = c_root c -> rv_seed v = secret r ->
  rv_committedAt v = at_ -> releasedAt v = now -> signed_text (revealFrame v) (rv_signature v) ->
  row_ok (set_revealed v r) /\ row_evolves r (next (set_revealed v r)).
Proof.
  intros Hp Hc Hn Hd Ha Hnow Ht E1 E2 E3 E4 E5 Hs. row_fields.
  assert (phase r = committed) as Hi.
  { destruct (phase r); try done.
    - destruct Kphase; congruence.
    - destruct Kphase as (_ & [? ?] & _). congruence.
    - destruct Kphase as (_ & _ & _ & [[? ?]|E]); [congruence|]. rewrite E in Hd. discriminate. }
  rewrite Hi in Kphase. destruct Kphase as (Hcs & _ & Hr & Hte). split.
  - split; cbn; try done.
    + intros v' [= <-]. exists c, at_.
      split_and!; [exact Hc|exact Ha|exact E1|exact E2|exact E3|exact Hd|exact E4|by rewrite E5|
                   by rewrite E5|exact Hs].
  - evolving.
Qed.

Lemma settle_row rc c :
  phase r = revealed -> commitment r = Some c -> settlement_ok r c rc ->
  row_ok (set_settled rc r) /\ row_evolves r (next (set_settled rc r)).
Proof.
  intros Hp Hc Hs. row_fields. rewrite Hp in Kphase. destruct Kphase as (Hcs & Hv & Hr & Hte).
  split.
  - split; cbn; try done.
    + unfold phase_ok. cbn. rewrite Hte. eauto 10.
    + intros rc' [= <-]. by exists c.
    + intros Hrl. left. eauto.
    + intros a Ha. destruct (Kadm a Ha) as (rc' & E & _). congruence.
  - evolving.
Qed.

Lemma admit_row a rc :
  receipt r = Some rc -> lists_asset a rc = true ->
  row_ok (set_admitted (admittedAssets r ++ [a]) r) /\
  row_evolves r (next (set_admitted (admittedAssets r ++ [a]) r)).
Proof.
  intros Hr Hl. row_fields. split.
  - split; cbn; try done. intros b [Hb|Hb]%elem_of_app; [by apply Kadm|].
    apply list_elem_of_singleton in Hb as ->. eauto.
  - evolving.
Qed.

Lemma hold_row h :
  retentionReleased r = false ->
  row_ok (set_hold h r) /\ row_evolves r (next (set_hold h r)).
Proof. intros Hr. row_fields. split; [by split|]. evolving. Qed.

Lemma forfeit_row :
  phase r <> settled -> phase r <> forfeited ->
  row_ok (set_forfeited r) /\ row_evolves r (next (set_forfeited r)).
Proof.
  intros Hs Hf. row_fields.
  assert (receipt r = None) as Hr by (destruct (phase r); naive_solver).
  split; [split; cbn; try done|evolving].
Qed.

Lemma terminate_row t :
  receipt r = None -> phase r <> settled -> termination r = None -> termination_ok r t ->
  row_ok (set_terminated t r) /\ row_evolves r (next (set_terminated t r)).
Proof.
  intros Hr Hs Hn Ht. row_fields. split; [split; cbn; try done|evolving].
  - by intros t' [= <-].
  - intros _. right. eauto.
Qed.

Lemma release_row :
  is_Some (receipt r) \/ is_Some (termination r) ->
  row_ok (set_released r) /\ row_evolves r (next (set_released r)).
Proof. intros Hr. row_fields. split; [by split|evolving]. Qed.

Lemma custody_row c :
  archiveCustody r = None -> is_Some (receipt r) ->
  row_ok (set_custody c r) /\ row_evolves r (next (set_custody c r)).
Proof.
  intros Hn Hr. row_fields. split; [by split|evolving].
Qed.

Lemma touch_row : row_ok r /\ row_evolves r (next r).
Proof. split; [done|]. row_fields. evolving. Qed.
End Updates.
End Invariant.
