(* ===== verification/AuthorityFacts.v ===== *)
(** * Facts about the encounter authority

    Every handler keeps the ledger's invariant and lets rows change only the
    way [row_evolves] says, under any interleaving with the other requests and
    with the host, and what a handler answers stays true ever after. *)
From S2P Require Import Prelude Json Contracts Kernel Snapshot Utf8 CryptoBackend EncounterWire.
From S2P Require Import Async EncounterLedger EncounterAuthority EncounterInvariant.
Set Default Goal Selector "!".

Section Facts.
Context `{JsHost} (options : EncounterAuthorityOptions).
Abbreviation OK := (authority_ok options).
Abbreviation ensures := (ensures options).
Let backend := cryptoBackend options.

(** ** What the answers promise *)

(** The authority's row of a ticket satisfies [P]. *)
Definition has_row (id : jsstr) (P : EncounterLedgerRow -> Prop) (w : World) : Prop :=
  exists r, lookup_id id w = Some r /\ owned options r /\ P r.

Lemma row_later w w' id r r' :
  evolves w w' -> lookup_id id w = Some r -> lookup_id id w' = Some r' -> row_evolves r r'.
Proof. intros Hev Hr Hr'. destruct (rows_evolve _ _ Hev id r Hr) as (r2 & E & ?). congruence. Qed.

Lemma has_row_stable id (P : EncounterLedgerRow -> Prop) w w' :
  (forall r r', row_evolves r r' -> P r -> P r') -> evolves w w' -> has_row id P w -> has_row id P w'.
Proof.
  intros HP Hev (r & Hr & Ho & Hp). destruct (rows_evolve _ _ Hev id r Hr) as (r' & Hr' & Hev').
  exists r'. split; [done|]. split; [|by apply (HP r r')].
  unfold owned in *. by rewrite (ev_ticket _ _ Hev').
Qed.

Definition promise (req : request) (answer : response) (w : World) : Prop :=
  match req, answer with
  | r_issue _ a, a_ticket t =>
      exists key, encounterStartKey backend (unit a) (startHead a) (default 0 (generation a)) = inr key /\
      ea_playerId (t_authorization t) = ea_playerId a /\
      ea_ownerPublicKey (t_authorization t) = ea_ownerPublicKey a /\
      has_row (ticketId t) (fun r => ticket r = t /\ startKey r = key) w
  | r_commit c, a_committed root at_ =>
      root = c_root c /\ has_row (c_ticketId c) (fun r => committedAt r = Some at_ /\
        exists c', commitment r = Some c' /\ commitFrame c' = commitFrame c) w
  | r_reveal id, a_reveal v => has_row id (fun r => reveal r = Some v \/ retired r) w
  | r_settle id _, a_receipt rc => has_row id (fun r => receipt r = Some rc) w
  | r_admit l, a_admitted a =>
      a = el_assetId l /\ has_row (el_ticketId l) (fun r => a ∈ admittedAssets r) w
  | r_terminate id _, a_termination t => has_row id (fun r => termination r = Some t) w
  | (r_closure id _ _ | r_prune id _ | r_archive_release id), _ =>
      has_row id (fun r => retentionReleased r = true /\ evidenceHold r = false) w
  | _, _ => True
  end.

Lemma promise_stable req a w w' : evolves w w' -> promise req a w -> promise req a w'.
Proof.
  intros Hev. destruct req, a; cbn [promise]; try done;
    try (apply has_row_stable; [intros r1 r2 E|done];
         first [apply (ev_receipt _ _ E) | apply (ev_termination _ _ E)]);
    try (apply has_row_stable; [intros r1 r2 E [Hrl Hh]|done];
         destruct (ev_released _ _ E Hrl) as [? ->]; done).
  - intros (key & Hk & Hp & Ho & Hr). exists key. split_and!; [done..|].
    revert Hr. apply has_row_stable; [|done]. intros r r' E [<- <-].
    by rewrite (ev_ticket _ _ E), (ev_start _ _ E).
  - intros [-> Hr]. split; [done|]. revert Hr. apply has_row_stable; [|done].
    intros r r' E (Ha & c' & Hc & Hf). split; [by apply (ev_committedAt _ _ E)|].
    exists c'. split; [by apply (ev_commitment _ _ E)|done].
  - apply has_row_stable; [|done]. intros r r' E [Hv|Hret]; [|right; by apply (retired_later r)].
    destruct (ev_reveal _ _ E) as [K|]; [left; by apply K|by right].
  - intros [-> Hr]. split; [done|]. revert Hr. apply has_row_stable; [|done].
    intros r r' E Ha. destruct (ev_admitted _ _ E) as [k ->]. apply elem_of_app. by left.
Qed.

(** ** Storing a row *)

(** [this.replace(r1)], where [r1] was made from the row [r] read at [w0]. *)
Lemma ensures_store {B} w0 w id r r1 (f : bool -> async World B) (Q : B -> World -> Prop) :
  OK w -> evolves w0 w -> lookup_id id w0 = Some r -> owned options r ->
  revision r1 = revision r -> row_id r1 = row_id r -> startKey r1 = startKey r ->
  lookup_id id w = Some r \/ retentionReleased r = false ->
  row_ok options r1 /\ row_evolves r (set_revision (revision r + 1) r1) ->
  (forall w', OK w' -> evolves w w' ->
     lookup_id id w' = Some (set_revision (revision r + 1) r1) -> ensures (f true) w' Q) ->
  (forall w', OK w' -> evolves w w' -> ensures (f false) w' Q) ->
  ensures (abind (replace_next r1) f) w Q.
Proof.
  intros Hw Hev Hr Ho E1 E2 E3 Hfresh [Hok Hrow] Ht Hf. eapply ensures_bind.
  - by apply (ensures_replace options w0 w id r r1).
  - intros [|] w' Hw' R Hst; [by apply Ht|by apply Hf].
Qed.

(** Retention is closed only after settlement or termination. *)
Lemma open_row r : row_ok options r -> receipt r = None -> termination r = None -> retentionReleased r = false.
Proof.
  intros Hok Hr Ht. apply not_true_is_false. intros Hrl.
  destruct (ok_released _ _ Hok Hrl) as [[rc E]|[t E]]; congruence.
Qed.
(** A row in a phase before both is open. *)
Ltac open_phase :=
  right; apply open_row; [done|..];
  match goal with Hk : row_ok _ ?r |- _ =>
    pose proof (ok_phase _ _ Hk) as Hp; unfold phase_ok in Hp;
    destruct (phase r); unfold is_Some in Hp; naive_solver congruence
  end.

Ltac stored :=
  match goal with
  | Hr : lookup_id ?id ?w0 = Some ?r |- EncounterInvariant.ensures _ (abind (replace_next ?r1) _) ?w _ =>
      eapply (ensures_store w0 w id r r1);
      [done|first [done|reflexivity|by etrans|by do 2 (etrans; [done|])|by do 3 (etrans; [done|])]
      |exact Hr|done|reflexivity|reflexivity|reflexivity
      |first [by left|by right|right; by apply open_row|open_phase]| | |]
  end.

(** ** Commit *)

Lemma commit_spec c w : OK w -> ensures (commit options c) w (fun p w' =>
  promise (r_commit c) (a_committed (fst p) (snd p)) w').
Proof.
  intros Hw. unfold commit. apply ensures_row; [done|]. intros r0 Hr0 Ho0 Hok0.
  apply ensures_refuse; [done|]. intros [[_ G2]%orb_false_iff _]%orb_false_iff.
  apply negb_false_iff, Z.eqb_eq in G2. change (ENCOUNTER_TICKS / CHUNK_TICKS) with 2 in G2.
  apply ensures_await; [done|]. intros root w1 Hw1 R1 Hroot.
  apply ensures_refuse; [done|]. intros G1. apply negb_false_iff, str_eqb_eq in G1. subst root.
  apply ensures_await; [done|]. intros digest w2 Hw2 R2 Hdigest.
  apply ensures_await; [done|]. intros [|] w3 Hw3 R3 Hsig; [|by apply ensures_throw].
  apply ensures_refuse; [done|]. intros _.
  apply ensures_retrying; [done|]. intros w4 Hw4 R4.
  apply ensures_row; [done|]. intros r Hr Ho Hok.
  assert (E : row_evolves r0 r) by (apply (row_later w w4 (c_ticketId c)); [by do 3 (etrans; [done|])|done..]).
  apply ensures_refuse; [done|]. intros Hph. apply bool_decide_eq_false in Hph.
  destruct (commitment r) as [c'|] eqn:Hc.
  - apply ensures_refuse; [done|]. intros Hf. apply negb_false_iff, str_eqb_eq in Hf.
    apply ensures_asserted; [done|]. intros at_ Hat. apply ensures_ret; [done|].
    split; [reflexivity|]. exists r. split; [exact Hr|]. split; [exact Ho|]. split; [exact Hat|].
    exists c'. split; [exact Hc|exact Hf].
  - apply ensures_time; [done|]. intros now w5 Hw5 R5 Ht.
    apply ensures_refuse; [done|]. intros Hwin. bool_split.
    stored.
    + apply commit_row; [done|done|done| |done|lia]. rewrite (ev_ticket _ _ E).
      split_and!; [symmetry; exact (lookup_id_row w _ r0 (proj1 Hw) Hr0)|lia|done|eauto].
    + intros w6 Hw6 R6 Hst. apply ensures_ret; [done|]. split; [reflexivity|].
      eexists. split; [exact Hst|]. split; [exact Ho|]. split; [reflexivity|].
      exists c. split; reflexivity.
    + intros w6 Hw6 R6. by apply ensures_ret.
Qed.

(** ** Reveal *)

Lemma reveal_spec id w : OK w -> ensures (revealTicket options id) w (fun v w' =>
  promise (r_reveal id) (a_reveal v) w').
Proof.
  intros Hw. unfold revealTicket. apply ensures_retrying; [done|]. intros w1 Hw1 R1.
  apply ensures_row; [done|]. intros r Hr Ho Hok.
  destruct (commitment r) as [c|] eqn:Hc; [|by apply ensures_throw].
  apply ensures_refuse; [done|]. intros Hph. apply bool_decide_eq_false in Hph.
  destruct (reveal r) as [v|] eqn:Hv.
  { apply ensures_ret; [done|]. exists r. split; [done|]. split; [done|by left]. }
  apply ensures_refuse; [done|]. intros Hs. apply negb_false_iff in Hs.
  apply ensures_time; [done|]. intros now w2 Hw2 R2 Ht.
  apply ensures_asserted; [done|]. intros at_ Hat.
  apply ensures_refuse; [done|]. intros [_ Hrel]%orb_false_iff. apply Z.ltb_ge in Hrel.
  apply ensures_await; [done|]. intros digest w3 Hw3 R3 Hd.
  apply ensures_await; [done|]. intros signature w4 Hw4 R4 Hsig.
  assert (Hns : phase r <> settled).
  { intros Hp. pose proof (ok_phase _ _ Hok) as Hq. unfold phase_ok in Hq. rewrite Hp, Hv in Hq.
    destruct Hq as (_ & _ & _ & [[? ?]|E]); [done|]. rewrite E in Hs. discriminate Hs. }
  stored.
  - eapply reveal_row; [done|done|exact Hc|done|done|exact Hat|exact Hrel|exact Ht| |reflexivity..|].
    + symmetry. exact (lookup_id_row w1 id r (proj1 Hw1) Hr).
    + by exists digest.
  - intros w5 Hw5 R5 Hst. apply ensures_ret; [done|].
    eexists. split; [exact Hst|]. split; [exact Ho|left; reflexivity].
  - intros w5 Hw5 R5. by apply ensures_ret.
Qed.

(** ** Settlement *)

(** The secret of a revealed row opens the ticket's seed commitment. *)
Lemma revealed_seed r v : row_ok options r -> reveal r = Some v -> seed_of options r (secret r).
Proof.
  intros Hok Hv. destruct (ok_reveal _ _ Hok v Hv) as (c & at_ & _ & _ & _ & _ & _ & Hd & _).
  destruct (ok_seed _ _ Hok) as (sec & [Hh [Hs|Hs]] & _).
  - split; [by rewrite Hs|by left].
  - rewrite Hs in Hd. discriminate Hd.
Qed.

Lemma settlement_later r r' c rc :
  row_evolves r r' -> settlement_ok options r c rc -> settlement_ok options r' c rc.
Proof.
  intros E. unfold settlement_ok, seed_of, row_id.
  rewrite (ev_ticket _ _ E). intros (sec & chunks & inputs & sd & game & state & d & t & [Hh Hs] & Hrest).
  exists sec, chunks, inputs, sd, game, state, d, t. split; [|exact Hrest]. split; [exact Hh|].
  destruct (ev_secret _ _ E) as [->|[_ ?]]; [done|by right].
Qed.

Lemma settle_spec id chunks w : OK w -> ensures (settle options id chunks) w (fun rc w' =>
  promise (r_settle id chunks) (a_receipt rc) w').
Proof.
  intros Hw. unfold settle. apply ensures_row; [done|]. intros r0 Hr0 Ho0 Hok0.
  destruct (receipt r0) as [rc|] eqn:Hrc.
  { apply ensures_ret; [done|]. by exists r0. }
  destruct (reveal r0) as [v|] eqn:Hv; [|by apply ensures_throw].
  apply ensures_refuse; [done|]. intros _. apply ensures_refuse; [done|]. intros _.
  apply ensures_asserted; [done|]. intros c Hc.
  apply ensures_await; [done|]. intros inputs w1 Hw1 R1 Hin.
  apply ensures_await; [done|]. intros seedDigest w2 Hw2 R2 Hseed.
  apply ensures_throws; [done|]. intros game Hgame.
  apply ensures_throws; [done|]. intros state Hstate.
  apply ensures_time; [done|]. intros settledAt w3 Hw3 R3 Ht.
  apply ensures_refuse; [done|]. intros [Hret%negb_false_iff Hclock]%orb_false_iff.
  apply Z.ltb_ge in Hclock.
  apply ensures_await; [done|]. intros stateDigest w4 Hw4 R4 Hsd.
  apply ensures_await; [done|]. intros rid w5 Hw5 R5 Hrid.
  apply ensures_await; [done|]. intros signature w6 Hw6 R6 Hsig.
  assert (Hid : id = row_id r0) by (symmetry; exact (lookup_id_row w id r0 (proj1 Hw) Hr0)).
  set (value := mkEncounterReceipt _ rid signature).
  assert (Hset : settlement_ok options r0 c value).
  { destruct (ok_reveal _ _ Hok0 v Hv) as (? & ? & _ & _ & _ & _ & _ & _ & _ & Hrel & _ & _).
    exists (secret r0), chunks, inputs, seedDigest, game, state, stateDigest, settledAt.
    rewrite <- Hid. split_and!; try done; [by apply (revealed_seed r0 v)|lia]. }
  apply ensures_retrying; [done|]. intros w7 Hw7 R7.
  apply ensures_row; [done|]. intros r Hr Ho Hok.
  assert (E : row_evolves r0 r) by (apply (row_later w w7 id); [by do 6 (etrans; [done|])|done..]).
  destruct (receipt r) as [rc|] eqn:Hrc'.
  { apply ensures_ret; [done|]. by exists r. }
  apply ensures_refuse; [done|]. intros Hph. apply negb_false_iff, bool_decide_eq_true in Hph.
  apply ensures_asserted; [done|]. intros c' Hc'. apply ensures_refuse; [done|]. intros _.
  assert (c' = c) as -> by (pose proof (ev_commitment _ _ E c Hc); congruence).
  stored.
  - apply (settle_row options r Hok value c); [done|done|by apply (settlement_later r0)].
  - intros w8 Hw8 R8 Hst. apply ensures_ret; [done|].
    eexists. split; [exact Hst|]. split; [exact Ho|reflexivity].
  - intros w8 Hw8 R8. by apply ensures_ret.
Qed.

(** ** Market admission and evidence holds *)

Lemma admit_spec l w : OK w -> ensures (admitToMarket options l) w (fun a w' =>
  promise (r_admit l) (a_admitted a) w').
Proof.
  intros Hw. unfold admitToMarket. apply ensures_row; [done|]. intros r0 Hr0 Ho0 Hok0.
  apply ensures_read. apply ensures_refuse; [done|]. intros _.
  destruct (receipt r0) as [rc|] eqn:Hrc; [|by apply ensures_throw].
  apply ensures_refuse; [done|]. intros [_ Hl]%orb_false_iff. apply negb_false_iff in Hl.
  apply ensures_await; [done|]. intros digest w1 Hw1 R1 _.
  apply ensures_await; [done|]. intros valid w2 Hw2 R2 _.
  apply ensures_refuse; [done|]. intros _.
  apply ensures_retrying; [done|]. intros w3 Hw3 R3.
  apply ensures_row; [done|]. intros r Hr Ho Hok.
  assert (E : row_evolves r0 r)
    by (apply (row_later w w3 (el_ticketId l)); [by do 2 (etrans; [done|])|done..]).
  apply ensures_read. apply ensures_refuse; [done|]. intros _.
  case_bool_decide as Hin.
  { apply ensures_ret; [done|]. split; [done|]. by exists r. }
  stored.
  - apply (admit_row options r Hok _ rc); [by apply (ev_receipt _ _ E)|done].
  - intros w4 Hw4 R4 Hst. apply ensures_ret; [done|]. split; [done|].
    eexists. split; [exact Hst|]. split; [exact Ho|]. apply elem_of_app. right. by left.
  - intros w4 Hw4 R4. by apply ensures_ret.
Qed.

Lemma hold_spec id hold w : OK w -> ensures (setEvidenceHold options id hold) w (fun _ _ => True).
Proof.
  intros Hw. unfold setEvidenceHold. apply ensures_row; [done|]. intros r Hr Ho Hok.
  apply ensures_refuse; [done|]. intros Hrl. stored.
  - by apply hold_row.
  - intros. by apply ensures_ret.
  - intros. by apply ensures_throw.
Qed.

Lemma fence_spec id w : OK w -> ensures (fenceEvidenceCase options id) w (fun _ _ => True).
Proof.
  intros Hw. unfold fenceEvidenceCase. apply ensures_row; [done|]. intros r Hr Ho Hok.
  apply ensures_refuse; [done|]. intros Hrl. stored.
  - by apply touch_row.
  - intros. by apply ensures_ret.
  - intros. by apply ensures_throw.
Qed.

Lemma forfeit_spec id w : OK w -> ensures (forfeit options id) w (fun _ _ => True).
Proof.
  intros Hw. unfold forfeit. apply ensures_row; [done|]. intros r Hr Ho Hok.
  apply ensures_refuse; [done|].
  intros [Hs%bool_decide_eq_false Hf%bool_decide_eq_false]%orb_false_iff. stored.
  - by apply forfeit_row.
  - intros. by apply ensures_ret.
  - intros. by apply ensures_throw.
Qed.

(** ** Termination *)

Lemma expiry_allowed has_commitment now deadline :
  terminationAllowed false false true has_commitment now deadline = true ->
  has_commitment = false /\ deadline <= now.
Proof.
  unfold terminationAllowed, encounter_termination_allowed, flag. case_match; [done|].
  by destruct has_commitment, (Z.leb_spec deadline now).
Qed.

Lemma terminate_spec id reason w : OK w -> ensures (terminate options id reason) w (fun t w' =>
  promise (r_terminate id reason) (a_termination t) w').
Proof.
  intros Hw. unfold terminate. apply ensures_retrying; [done|]. intros w1 Hw1 R1.
  apply ensures_row; [done|]. intros r Hr Ho Hok.
  apply ensures_refuse; [done|].
  intros [Hrc%bool_decide_eq_false Hset%bool_decide_eq_false]%orb_false_iff.
  rewrite <- eq_None_not_Some in Hrc.
  destruct (termination r) as [t|] eqn:Hte.
  { apply ensures_ret; [done|]. by exists r. }
  apply ensures_time; [done|]. intros now w2 Hw2 R2 Ht.
  apply ensures_refuse; [done|]. intros _.
  apply ensures_await; [done|]. intros allowed w3 Hw3 R3 [= Hal].
  apply ensures_refuse; [done|]. intros Ha. apply negb_false_iff in Ha. subst allowed.
  apply ensures_refuse; [done|]. intros _.
  apply ensures_await; [done|]. intros tid w4 Hw4 R4 Htid.
  apply ensures_await; [done|]. intros signature w5 Hw5 R5 Hsig.
  stored.
  - apply terminate_row; [done|done|done|done|]. split_and!; [|done| |done|done].
    + symmetry. exact (lookup_id_row w1 id r (proj1 Hw1) Hr).
    + cbn [termination_statement terminationStatement ts_reason terminatedAt].
      unfold phase_eqb in *. case_bool_decide as Hf; [done|]. intros ->. cbn [is_expired] in Ha.
      apply expiry_allowed in Ha as [Hnc Hd]. apply orb_false_iff in Hnc as [_ Hnc].
      apply bool_decide_eq_false in Hnc. split; [by apply eq_None_not_Some|done].
  - intros w6 Hw6 R6 Hst. apply ensures_ret; [done|].
    eexists. split; [exact Hst|]. split; [exact Ho|reflexivity].
  - intros w6 Hw6 R6. by apply ensures_ret.
Qed.

(** ** Retention *)

Definition closed_row (r : EncounterLedgerRow) : Prop :=
  retentionReleased r = true /\ evidenceHold r = false.

Lemma closed_later id w w' : evolves w w' -> has_row id closed_row w -> has_row id closed_row w'.
Proof.
  apply has_row_stable. intros r r' E [Hrl Hh]. unfold closed_row.
  destruct (ev_released _ _ E Hrl) as [? ->]. done.
Qed.

(** Closing retention of a row that is not held. *)
Lemma ensures_closing {B} w0 w id r (f : bool -> async World B) (Q : B -> World -> Prop) :
  OK w -> evolves w0 w -> lookup_id id w0 = Some r -> owned options r -> row_ok options r ->
  is_Some (receipt r) \/ is_Some (termination r) -> evidenceHold r = false ->
  (forall w', OK w' -> has_row id closed_row w' -> ensures (f true) w' Q) ->
  (forall w', OK w' -> evolves w w' -> ensures (f false) w' Q) ->
  ensures (abind (if retentionReleased r then aret true else replace_next (set_released r)) f) w Q.
Proof.
  intros Hw Hev Hr Ho Hok Hterm Hh Ht Hf. destruct (retentionReleased r) eqn:Hrl.
  - apply (Ht w); [done|]. apply (closed_later id w0); [done|]. by exists r.
  - stored.
    + by apply release_row.
    + intros w' Hw' R Hst. apply Ht; [done|]. eexists. split; [exact Hst|]. by split.
    + done.
Qed.

Lemma closure_spec id e n w : OK w -> ensures (closureGrant options id e n) w (fun g w' =>
  promise (r_closure id e n) (a_closure g) w').
Proof.
  intros Hw. unfold closureGrant. apply ensures_refuse; [done|]. intros _.
  apply ensures_retrying; [done|]. intros w1 Hw1 R1.
  apply ensures_row; [done|]. intros r Hr Ho Hok.
  destruct (termination r) as [t|] eqn:Hte; [|by apply ensures_throw].
  apply ensures_refuse; [done|]. intros _. apply ensures_read.
  apply ensures_time; [done|]. intros now w2 Hw2 R2 _.
  apply ensures_await; [done|]. intros allowed w3 Hw3 R3 [= Hal].
  apply ensures_refuse; [done|]. intros Ha. apply negb_false_iff in Ha. subst allowed.
  assert (evidenceHold r = false) as Hh.
  { revert Ha. unfold terminalCleanupAllowed, encounter_terminal_cleanup_allowed.
    case_match; [done|]. intros Hc. bool_split. done. }
  apply (ensures_closing w1 w3 id r); [done|by etrans|done|done|done|right; eauto|done| |].
  - intros w4 Hw4 Hcl. cbn [negb]. apply ensures_await; [done|]. intros digest w5 Hw5 R5 _.
    apply ensures_await; [done|]. intros signature w6 Hw6 R6 _. apply ensures_ret; [done|].
    apply (closed_later id w4); [by etrans|done].
  - intros w4 Hw4 R4. by apply ensures_ret.
Qed.

Lemma retire_spec id w : OK w -> ensures (retireSettled options id) w (fun _ w' =>
  has_row id closed_row w').
Proof.
  intros Hw. unfold retireSettled. apply ensures_retrying; [done|]. intros w1 Hw1 R1.
  apply ensures_row; [done|]. intros r Hr Ho Hok.
  destruct (receipt r) as [rc|] eqn:Hrc; [|by apply ensures_throw].
  apply ensures_time; [done|]. intros now w2 Hw2 R2 _.
  apply ensures_refuse; [done|]. intros _. apply ensures_read.
  apply ensures_refuse; [done|]. intros [Hh _]%orb_false_iff.
  apply (ensures_closing w1 w2 id r); [done|done|done|done|done|left; eauto|done| |].
  - intros w3 Hw3 Hcl. by apply ensures_ret.
  - intros w3 Hw3 R3. by apply ensures_ret.
Qed.

Lemma prune_spec id e w : OK w -> ensures (pruneGrant options id e) w (fun g w' =>
  promise (r_prune id e) (a_prune g) w').
Proof.
  intros Hw. unfold pruneGrant. apply ensures_refuse; [done|]. intros _.
  eapply ensures_bind; [by apply retire_spec|]. intros r w1 Hw1 R1 Hcl.
  apply ensures_asserted; [done|]. intros c _. apply ensures_asserted; [done|]. intros tip _.
  apply ensures_await; [done|]. intros digest w2 Hw2 R2 _.
  apply ensures_await; [done|]. intros signature w3 Hw3 R3 _. apply ensures_ret; [done|].
  apply (closed_later id w1); [by etrans|done].
Qed.

(** ** Archive *)

Lemma accept_spec id custody w : OK w -> ensures (acceptArchive options id custody) w (fun _ _ => True).
Proof.
  intros Hw. unfold acceptArchive.
  destruct (trustedArchiveKey options) as [key|]; [|by apply ensures_throw].
  apply ensures_refuse; [done|]. intros _. apply ensures_row; [done|]. intros r0 Hr0 Ho0 Hok0.
  cbv beta zeta. match goal with |- EncounterInvariant.ensures _ (if ?k then _ else _) _ _ =>
    destruct k; [by apply ensures_ret|] end.
  apply ensures_await; [done|]. intros valid w1 Hw1 R1 _.
  apply ensures_refuse; [done|]. intros _.
  apply ensures_retrying; [done|]. intros w2 Hw2 R2.
  apply ensures_row; [done|]. intros r Hr Ho Hok.
  destruct (receipt r) as [rc|] eqn:Hrc; [|by apply ensures_throw].
  apply ensures_asserted; [done|]. intros c _. apply ensures_refuse; [done|]. intros _.
  destruct (archiveCustody r) as [stored|] eqn:Hcu.
  { apply ensures_refuse; [done|]. intros _. by apply ensures_ret. }
  stored.
  - apply custody_row; [done|done|eauto].
  - intros. by apply ensures_ret.
  - intros. by apply ensures_ret.
Qed.

Lemma handoff_spec id e n w : OK w -> ensures (archiveHandoff options id e n) w (fun _ _ => True).
Proof.
  intros Hw. unfold archiveHandoff. apply ensures_refuse; [done|]. intros _.
  apply ensures_row; [done|]. intros r Hr Ho Hok.
  destruct (archiveCustody r) as [c|]; [|by apply ensures_throw].
  apply ensures_refuse; [done|]. intros _.
  apply ensures_await; [done|]. intros digest w1 Hw1 R1 _.
  apply ensures_await; [done|]. intros signature w2 Hw2 R2 _. by apply ensures_ret.
Qed.

Lemma archive_release_spec id w : OK w -> ensures (archiveRelease options id) w (fun v w' =>
  promise (r_archive_release id) (a_release v) w').
Proof.
  intros Hw. unfold archiveRelease. apply ensures_row; [done|]. intros r0 Hr0 Ho0 Hok0.
  destruct (archiveCustody r0) as [c|]; [|by apply ensures_throw].
  apply ensures_refuse; [done|]. intros _.
  apply ensures_time; [done|]. intros now w1 Hw1 R1 _. apply ensures_refuse; [done|]. intros _.
  eapply ensures_bind; [by apply retire_spec|]. intros r w2 Hw2 R2 Hcl.
  apply ensures_asserted; [done|]. intros cm _.
  apply ensures_time; [done|]. intros closedAt w3 Hw3 R3 _.
  apply ensures_await; [done|]. intros rid w4 Hw4 R4 _.
  apply ensures_await; [done|]. intros signature w5 Hw5 R5 _. apply ensures_ret; [done|].
  apply (closed_later id w2); [by do 2 (etrans; [done|])|done].
Qed.

(** ** Issuing *)

Lemma random_secret f : isDigestText (bytesToLowerHex (random_bytes f)) = true.
Proof.
  assert (length (random_bytes f) = 32%nat) as L by (unfold random_bytes; by rewrite length_map, length_seq).
  change (is_hex (32 * 2) (bytesToLowerHex (random_bytes f)) = true). rewrite <- L.
  apply bytesToLowerHex_shape. unfold random_bytes. apply Forall_forall.
  intros b (i & -> & _)%list_elem_of_fmap. apply N.mod_lt. lia.
Qed.

Lemma ensures_insert r w : OK w -> row_ok options r -> recoveryReleased r = false ->
  ensures (insert r) w (fun ok w' => if ok : bool then lookup_id (row_id r) w' = Some r else True).
Proof.
  intros Hw Hok Hrec. pose proof (insert_row_spec w r (proj1 Hw)) as Hs.
  pose proof (insert_row_host w r) as Hh. unfold insert, ensures, spec.
  destruct (insert_row r w) as [w' [|]]; cbn [fst snd settles returns] in *;
    [|destruct Hs as [-> _]; split; [done|]; split; [reflexivity|done]].
  destruct Hs as (Hid & _ & Hl & Hlook). destruct Hh as (Hc & Hk & Hu & Hn).
  split; [|split].
  - split; [done|]. intros id r' Hr' Ho'. rewrite Hlook in Hr'.
    destruct (decide (id = row_id r)); [by simplify_eq|by apply (proj2 Hw id)].
  - split; [| |lia|done|done|done].
    + intros id r' Hr'. rewrite Hlook. exists r'. destruct (decide (id = row_id r)); [congruence|done].
    + intros Hun id r'. rewrite Hlook. case_decide; [by intros [= <-]|apply Hun].
  - rewrite Hlook. by rewrite decide_True.
Qed.

Lemma issue_spec n a w : OK w -> ensures (issue options n a) w (fun t w' =>
  promise (r_issue n a) (a_ticket t) w').
Proof.
  cbn [promise]. revert w. induction n as [|n IH]; intros w Hw; cbn [issue]; [by apply ensures_throw|].
  apply ensures_refuse; [done|]. intros _.
  apply (ensures_throws options w); [done|]. intros g1 _. apply ensures_refuse; [done|]. intros _.
  apply ensures_refuse; [done|]. intros [Hnames%negb_false_iff Howner%negb_false_iff]%orb_false_iff.
  apply ensures_await; [done|]. intros key w1 Hw1 R1 Hkey.
  apply (ensures_throws options w1); [done|]. intros g2 _. apply ensures_refuse; [done|]. intros _.
  apply ensures_read. destruct (lookup_start key w1) as [e|] eqn:Hst.
  { apply ensures_refuse; [done|]. intros [[Ho Hp]%orb_false_iff Hk]%orb_false_iff.
    apply negb_false_iff, str_eqb_eq in Ho, Hp, Hk. apply ensures_ret; [done|].
    apply (lookup_start_spec w1 key e (proj1 Hw1)) in Hst as (id & Hid & Hs).
    exists key. split; [done|]. split; [done|]. split; [done|]. exists e.
    rewrite <- (lookup_id_row w1 id e (proj1 Hw1) Hid) in Hid. done. }
  apply ensures_host; [done|]. destruct (called_ok options w1 Hw1) as [Hw2 R2].
  apply ensures_host; [done|]. destruct (called_ok options _ Hw2) as [Hw3 R3].
  apply ensures_await; [done|]. intros seed w4 Hw4 R4 Hseed.
  apply ensures_time; [done|]. intros issuedAt w5 Hw5 R5 Ht. apply ensures_refuse; [done|]. intros _.
  apply ensures_await; [done|]. intros queue w6 Hw6 R6 _.
  apply ensures_await; [done|]. intros digest w7 Hw7 R7 Hd.
  apply ensures_await; [done|]. intros signature w8 Hw8 R8 Hsig.
  apply (ensures_throws options w8); [done|]. intros g3 _. apply ensures_refuse; [done|]. intros _.
  eapply ensures_bind; [apply ensures_insert; [done| |reflexivity]|].
  - split; try done.
    + by exists digest.
    + eexists. split; [split; [exact Hseed|by left]|apply random_secret].
    + intros x Hx. by apply elem_of_nil in Hx.
  - intros [|] w9 Hw9 R9 Hins; [|by apply IH]. apply ensures_ret; [done|].
    exists key. split; [done|]. split; [done|]. split; [done|]. eexists. split; [exact Hins|]. done.
Qed.

(** ** Every request *)

Lemma answer_spec {A} (m : async World A) (f : A -> response) w (Q : response -> World -> Prop) :
  OK w -> ensures m w (fun a w' => Q (f a) w') -> ensures (answer m f) w Q.
Proof.
  intros Hw Hm. eapply ensures_bind; [exact Hm|]. intros a w' Hw' R Hq. by apply ensures_ret.
Qed.

Lemma serve_spec req w : OK w -> ensures (serve options req) w (promise req).
Proof.
  intros Hw. destruct req; (apply answer_spec; [done|]).
  - by apply issue_spec.
  - by apply commit_spec.
  - by apply reveal_spec.
  - by apply settle_spec.
  - by apply admit_spec.
  - by apply hold_spec.
  - by apply fence_spec.
  - apply ensures_row; [done|]. intros. by apply ensures_ret.
  - by apply forfeit_spec.
  - by apply terminate_spec.
  - by apply closure_spec.
  - by apply prune_spec.
  - by apply accept_spec.
  - by apply handoff_spec.
  - by apply archive_release_spec.
Qed.

(** ** Interleavings *)

Abbreviation runs := (rtc (pool_step (serve options) host_turn)).
Definition answered (req : request) (a : response) (p : pool World request response) : Prop :=
  (req, Finished (inr a)) ∈ threads p.
Definition pool_good : pool World request response -> Prop :=
  pool_ok OK evolves (fun req => returns (promise req)).

Lemma pool_good_empty w : OK w -> pool_good (mkPool w []).
Proof. by split. Qed.
Lemma pool_good_runs p p' : pool_good p -> runs p p' -> pool_good p' /\ evolves (store p) (store p').
Proof.
  apply pool_sound; [exact _|exact (host_turn_ok options)|exact serve_spec|].
  intros req [e|a] w w' _ Hev; [done|]. by apply promise_stable.
Qed.
Lemma pool_good_answer p req a : pool_good p -> answered req a p -> promise req a (store p).
Proof. apply (pool_answer OK evolves (fun req => returns (promise req)) p req (inr a)). Qed.
End Facts.
