(* ===== verification/EncounterSafety.v ===== *)
(** * What the encounter authority guarantees

    The theorems about [EncounterAuthority] as a whole: any number of requests,
    in any order and with any interleaving at their awaits, with generations
    closed in between, started on a ledger that satisfies the invariant. *)
From S2P Require Import Prelude Json Contracts Kernel KernelFacts Snapshot Utf8 CryptoBackend.
From S2P Require Import EncounterWire EncounterWireFacts Async EncounterLedger EncounterAuthority.
From S2P Require Import EncounterInvariant AuthorityFacts OwnerAuth OwnerFacts.
Set Default Goal Selector "!".

(** ** Replay *)

Lemma replay_runs `{JsHost} g inputs g' :
  replayInputs g inputs = inr g' -> exists fxs, runGame g inputs = Ok (g', fxs).
Proof.
  revert g. induction inputs as [|i inputs IH]; intros g; cbn [replayInputs runGame].
  - intros [= <-]. by exists [].
  - destruct (advanceGame g i) as [[g1 fx]|]; [|done]. intros E. destruct (IH g1 E) as [fxs ->]. eauto.
Qed.

Lemma replay_one_item `{JsHost} seedDigest player game inputs state :
  encounterGame seedDigest player = inr game -> replayInputs game inputs = inr state ->
  (length (inventory state) <= 1)%nat.
Proof.
  unfold encounterGame. destruct (parseInt16 _); [|done]. intros Hg [fxs Hr]%replay_runs.
  destruct (initial_game_sources _ _ Hg) as (Hs & _).
  destruct (run_inv _ _ _ _ (initial_game_inv _ _ Hg) Hr) as (_ & Hp & _).
  rewrite Hs in Hp. apply Permutation_length in Hp. unfold sources, loot in Hp.
  rewrite !length_app, !length_map, length_app, length_map in Hp. simpl in Hp. lia.
Qed.

(** ** Reachable states *)

(** The authority's state after any interleaving of any requests, from a store
    that satisfies the invariant. *)
Definition reached `{JsHost} (options : EncounterAuthorityOptions) (w0 : World)
    (p : pool World request response) : Prop :=
  authority_ok options w0 /\ rtc (pool_step (serve options) host_turn) (mkPool w0 []) p.

Lemma reached_good `{JsHost} options w0 p :
  reached options w0 p -> pool_good options p /\ evolves w0 (store p).
Proof.
  intros [Hw Hr]. destruct (pool_good_runs options _ _ (pool_good_empty options w0 Hw) Hr). done.
Qed.

(** C5: no interleaving of requests breaks the ledger: after any number of
    calls of the handlers, suspended and resumed at their awaits in any order,
    with evidence cases changing and generations being closed in between, every
    row of the authority is well formed (its phase agrees with its
    certificates, its commitment is signed by the owner and was stored inside
    the commit window, its reveal and receipt match it), rows only move
    forward (tickets, commitments, receipts and terminations are never changed
    once set, nor are secrets, reveals and custody until the row's generation
    is closed, which erases them for good: no stale write brings them back;
    phases follow the graph, closed retention stays closed, admitted assets are
    only added), and what each finished request has answered still holds. *)
Theorem authority_interleavings_safe `{JsHost} options w0 p :
  reached options w0 p ->
  authority_ok options (store p) /\ evolves w0 (store p) /\
  forall req a, answered req a p -> promise options req a (store p).
Proof.
  intros Hr. destruct (reached_good options w0 p Hr) as [Hg Hev]. split; [apply Hg|].
  split; [done|]. intros req a. by apply pool_good_answer.
Qed.

(** C7: a settlement is the replay of the committed inputs with the committed
    seed: for every receipt in the ledger there are a log that the root the
    owner signed commits to, and a secret that the ticket's seed commitment
    was computed from, such that the final state, and the items in it, are
    those the game kernel reaches with them; and the commitment was stored
    before the release time, from which on alone the seed is revealed and the
    receipt issued. *)
Theorem settlement_replays_the_commitment `{JsHost} options w0 p id r rc :
  reached options w0 p -> lookup_id id (store p) = Some r -> owned options r ->
  receipt r = Some rc ->
  exists c at_ sec chunks inputs seedDigest game state,
    commitment r = Some c /\ commit_ok options (ticket r) c /\
    committedAt r = Some at_ /\ commitNotBefore (ticket r) <= at_ < releaseAt (ticket r) /\
    releaseAt (ticket r) <= settledAt (receipt_statement rc) /\
    hash (cryptoBackend options) (seedFrame id sec) = inr (seedCommitment (ticket r)) /\
    decodeEncounterLog (cryptoBackend options) (ticket r) c chunks = inr inputs /\
    hash (cryptoBackend options) (gameSeedFrame id sec) = inr seedDigest /\
    encounterGame seedDigest (ea_playerId (t_authorization (ticket r))) = inr game /\
    replayInputs game inputs = inr state /\
    hash (cryptoBackend options) (finalStateFrame id state)
      = inr (finalStateDigest (receipt_statement rc)) /\
    items (receipt_statement rc) = map (encounterItem id) (inventory state) /\
    rs_root (receipt_statement rc) = c_root c.
Proof.
  intros Hr Hl Ho Hrc. destruct (reached_good options w0 p Hr) as [[[Hled Hrows] _] _].
  pose proof (Hrows id r Hl Ho) as Hok. pose proof (lookup_id_row _ id r Hled Hl) as Hid.
  destruct (ok_receipt _ _ Hok rc Hrc) as (c & Hc & Hs).
  destruct Hs as (sec & chunks & inputs & sd & game & state & d & t & [Hseed _] & Hd & Hh & Hg & Hrp &
                  Hf & Est & Hrel & _).
  pose proof (ok_window _ _ Hok) as Hwin. rewrite Hc in Hwin. destruct Hwin as (at_ & Hat & _ & Hw).
  rewrite Hid in *. exists c, at_, sec, chunks, inputs, sd, game, state. rewrite Est.
  split_and!; try done; [by apply (ok_commitment _ _ Hok)|apply Hw..].
Qed.

(** C8: a start is spent once: two requests to issue a ticket for the same
    unit, start head and generation, whoever sends them and however they are
    interleaved with each other and with other requests, are answered with the
    same ticket or refused. *)
Theorem one_ticket_per_start `{JsHost} options w0 p n n' a a' t t' :
  reached options w0 p ->
  answered (r_issue n a) (a_ticket t) p -> answered (r_issue n' a') (a_ticket t') p ->
  unit a = unit a' -> startHead a = startHead a' ->
  default 0 (generation a) = default 0 (generation a') ->
  t = t' /\ ea_playerId a = ea_playerId a' /\ ea_ownerPublicKey a = ea_ownerPublicKey a'.
Proof.
  intros Hr Ha Ha' Eu Eh Eg. destruct (reached_good options w0 p Hr) as [Hg _].
  apply (pool_good_answer options p) in Ha as (key & Hk & Hp & Ho & r & Hl & _ & Ht & Hs); [|done].
  apply (pool_good_answer options p) in Ha' as (key' & Hk' & Hp' & Ho' & r' & Hl' & _ & Ht' & Hs'); [|done].
  rewrite Eu, Eh, Eg, Hk' in Hk. injection Hk as ->.
  assert (r = r') as <- by (apply (lookup_start_unique (store p) _ _ r r' (proj1 (proj1 Hg)) Hl Hl'); congruence).
  assert (t = t') as <- by congruence. split; [done|]. split; congruence.
Qed.

(** The requests whose answer is a right to delete evidence. *)
Definition deletes (id : jsstr) (req : request) : Prop :=
  match req with
  | r_closure i _ _ | r_prune i _ | r_archive_release i => i = id
  | _ => False
  end.

(** A right to delete evidence is final: once a prune grant, a closure
    grant or an archive release has been answered for a ticket, its retention
    is closed with no evidence hold on it, and in every later state a request
    to open or close a hold, or to fence a new case, is refused and changes
    nothing. *)
Theorem deletion_rights_are_final `{JsHost} options w0 p p' id req a hold :
  reached options w0 p -> deletes id req -> answered req a p ->
  rtc (pool_step (serve options) host_turn) p p' ->
  has_row options id closed_row (store p') /\
  setEvidenceHold options id hold (store p')
    = (store p', Finished (inl (js "retention already closed"))) /\
  fenceEvidenceCase options id (store p')
    = (store p', Finished (inl (js "retention already closed"))).
Proof.
  intros Hr Hd Ha Hs. destruct (reached_good options w0 p Hr) as [Hg _].
  apply (pool_good_answer options p) in Ha; [|done].
  assert (Hcl : has_row options id closed_row (store p)) by (destruct req; cbn in Hd; try done; by subst).
  destruct (pool_good_runs options p p' Hg Hs) as [_ Hev].
  apply (closed_later options id _ _ Hev) in Hcl. split; [done|].
  destruct Hcl as (r & Hl & Ho & Hrl & _). unfold setEvidenceHold, fenceEvidenceCase, row, byId.
  unfold abind, read_store, refuse_if. cbn [step_bind]. rewrite Hl. unfold owned in Ho. rewrite Ho, str_eqb_refl.
  cbn [negb step_bind aret]. by rewrite Hrl.
Qed.

(** ** Certificates *)

(** The backend accepts what the authority's signer signs. *)
Definition signer_accepted (options : EncounterAuthorityOptions) : Prop :=
  forall digest signature, as_signDigest (signer options) digest = inr signature ->
    cb_verify (cryptoBackend options) (as_publicKey (signer options)) digest signature = inr true.

Section Certificates.
Context `{JsHost} (options : EncounterAuthorityOptions) `{SubtleLaws (crypto options)}.
Hypothesis Hcfg : configured options = true.
Hypothesis Hsig : signer_accepted options.

Lemma hash_shape text d : hash (cryptoBackend options) text = inr d -> isDigestText d = true.
Proof. apply hashString_digest. Qed.

Lemma reveal_verifies r c v :
  row_ok options r -> owned options r -> commitment r = Some c -> reveal r = Some v ->
  verifyEncounterReveal (cryptoBackend options) (ticket r) c v = inr true.
Proof.
  intros Hok Ho Hc Hv. pose proof (revealed_seed options r v Hok Hv) as [Hseed _].
  destruct (ok_reveal _ _ Hok v Hv) as (c' & at_ & Hc' & Hat & Ei & Er & Es & Hd & Ea & Hrel & Ht & Hsg).
  assert (c' = c) as -> by congruence.
  pose proof (ok_window _ _ Hok) as Hwin. rewrite Hc in Hwin.
  destruct Hwin as (at' & Hat' & Hta & Hw). assert (at' = at_) as -> by congruence.
  destruct (ok_commitment _ _ Hok c Hc) as (Eid & _).
  destruct Hsg as (digest & Hdg & Hs). unfold verifyEncounterReveal, revealRefused.
  rewrite Ei, Eid, Er, Es, Ea, Hd, Hta, Ht. unfold row_id. rewrite !str_eqb_refl.
  rewrite (proj2 (Z.ltb_ge _ _)), (proj2 (Z.leb_gt _ _)), (proj2 (Z.ltb_ge _ _)) by lia.
  cbn [negb orb]. unfold row_id in Hseed. rewrite Hseed. cbn [throw_bind].
  rewrite str_eqb_refl. cbn [negb]. unfold verify_text. rewrite Hdg. cbn [throw_bind].
  unfold owned in Ho. rewrite Ho. by apply Hsig.
Qed.

Lemma receipt_verifies r rc :
  row_ok options r -> owned options r -> receipt r = Some rc ->
  verifyEncounterReceipt (cryptoBackend options) rc (as_publicKey (signer options)) = true.
Proof.
  intros Hok Ho Hrc. destruct (ok_receipt _ _ Hok rc Hrc) as (c & Hc & Hs).
  destruct Hs as (sec & chunks & inputs & sd & game & state & d & t & _ & _ & _ & Hg & Hrp &
                  Hf & Est & _ & Ht & Hret & Hid & Hsg).
  destruct (ok_commitment _ _ Hok c Hc) as (_ & _ & Hroot & _).
  destruct (ok_names _ _ Hok) as [_ Howner].
  unfold configured in Hcfg. apply andb_true_iff in Hcfg as [Hms Hkey].
  pose proof (replay_one_item sd _ game inputs state Hg Hrp) as Hone.
  unfold verifyEncounterReceipt. rewrite Est.
  cbn [receiptStatement rs_version rs_authorityKey rs_rulesId rs_root finalStateDigest
       rs_ownerPublicKey settledAt rs_retentionUntil items].
  rewrite !str_eqb_refl, Hkey, (hash_shape _ _ Hroot), (hash_shape _ _ Hf), Howner, Ht, Hret.
  rewrite length_map. unfold isTime in Hms. apply andb_true_iff in Hms as [_ Hms]. apply Z.leb_le in Hms.
  rewrite (proj2 (Z.ltb_ge _ _)) by lia. rewrite (proj2 (Nat.ltb_ge _ _)) by lia.
  cbn [negb orb Z.eqb Pos.eqb]. rewrite <- Est, Hid. cbn [throw_bind]. rewrite str_eqb_refl. cbn [negb].
  by rewrite (Hsig _ _ Hsg).
Qed.
End Certificates.

(** What the authority hands out, clients and archives accept: in every
    reachable state, the reveal of a committed ticket passes
    [verifyEncounterReveal] and every receipt passes [verifyEncounterReceipt]
    (also its limit of one item, because a run has one enemy to loot). *)
Theorem certificates_verify `{JsHost} options `{SubtleLaws (crypto options)} w0 p id r :
  configured options = true -> signer_accepted options ->
  reached options w0 p -> lookup_id id (store p) = Some r -> owned options r ->
  (forall c v, commitment r = Some c -> reveal r = Some v ->
     verifyEncounterReveal (cryptoBackend options) (ticket r) c v = inr true) /\
  (forall rc, receipt r = Some rc ->
     verifyEncounterReceipt (cryptoBackend options) rc (as_publicKey (signer options)) = true).
Proof.
  intros Hcfg Hsig Hr Hl Ho. destruct (reached_good options w0 p Hr) as [[[_ Hrows] _] _].
  pose proof (Hrows id r Hl Ho) as Hok. split.
  - intros c v. by apply reveal_verifies.
  - intros rc. by apply receipt_verifies.
Qed.

(** ** A concrete authority *)

Definition toy_bytes (m : list N) : list N :=
  let h := Z.to_N (stringHash m mod 2 ^ 32) in map (fun i => (h * N.of_nat (i + 1) + h / 251) mod 256)%N (seq 0 32).
Definition toy_subtle : SubtleCrypto :=
  mkSubtle (list N) (fun _ => js "private") (fun _ => false) (fun _ => js "Ed25519")
    (fun _ => [js "sign"]) (fun m => inr (toy_bytes m)) (fun b => inr b)
    (fun x d => inr x) (fun key s m => inr (bool_decide (s = toy_bytes (key ++ m) ++ toy_bytes m)))
    (fun key m => inr (toy_bytes (key ++ m) ++ toy_bytes m)) (inr ([], [])) (fun key => inr key).

Lemma toy_bytes_of m : bytes_of 32 (toy_bytes m).
Proof.
  split; [unfold toy_bytes; by rewrite length_map, length_seq|].
  apply Forall_forall. intros b (i & -> & _)%list_elem_of_fmap. apply N.mod_lt. lia.
Qed.
#[export] Instance toy_subtle_laws : SubtleLaws toy_subtle.
Proof. split. intros text d E. apply (inj inr) in E as <-. apply toy_bytes_of. Qed.

Definition toy_public (name : string) : list N := toy_bytes (js name).
Definition toy_signs (name : string) : AsyncAuditSigner :=
  signerFor toy_subtle (bytesToLowerHex (toy_public name)) (toy_public name).
Lemma toy_key_pair name : key_pair toy_subtle (toy_public name) (toy_public name).
Proof.
  split; [apply toy_bytes_of|]. exists (toy_public name). split; [done|]. intros m s E.
  apply (inj inr) in E as <-. cbn [sc_verify toy_subtle]. rewrite bool_decide_eq_true_2 by done. split; [|done].
  destruct (toy_bytes_of (toy_public name ++ m)) as [L1 B1], (toy_bytes_of m) as [L2 B2].
  split; [rewrite length_app; lia|by apply Forall_app].
Qed.

Definition toy_options : EncounterAuthorityOptions :=
  mkOptions (toy_signs "authority") toy_subtle 1000 None.
Lemma toy_signer_accepted : signer_accepted toy_options.
Proof.
  intros d s Hs. apply (standard_signature_verifies toy_subtle (toy_public "authority")
                          (toy_public "authority") d s (toy_key_pair "authority") Hs).
Qed.

Definition toy_clock (n : nat) : Z :=
  default 9000 ([0; 0; 0; 3500; 4000; 4100] !! n).
Definition toy_world : World :=
  mkWorld ∅ ∅ 0 toy_clock (fun n => js "ticket-1") (fun n i => N.of_nat i) None None.
Lemma toy_world_ok `{JsHost} : authority_ok toy_options toy_world.
Proof. split; [split; [by split|by split|done|done]|]. intros id r Hl. discriminate Hl. Qed.

Definition toy_start : EncounterAuthorization :=
  mkAuthorization None (js "unit") (js "head") (js "alice") (bytesToLowerHex (toy_public "alice")).
Definition toy_moves : list InputFrame :=
  map (fun i => mkInputFrame (Z.of_nat i + 1) (if (i <? 17)%nat then 1 else 0) 0) (seq 0 60).

Section ToyRun.
Context `{JsHost}.
Abbreviation toy_crypto := (cryptoBackend toy_options).
Definition ticket_of (r : throws EncounterTicket) : EncounterTicket :=
  match r with inr t => t | inl _ => toy_ticket end.
Definition issued_ticket : EncounterTicket :=
  ticket_of (snd (run_alone (issue toy_options 1 toy_start) toy_world)).
Definition played_chunks : list AuditPayloadChunk :=
  or_nil (createEncounterChunks toy_crypto issued_ticket toy_moves).
Definition owner_commit : EncounterCommit :=
  or_commit (signEncounterCommit toy_crypto issued_ticket played_chunks (toy_signs "alice")).
Definition toy_requests : list request :=
  let id := js "ticket-1" in
  [r_issue 1 toy_start; r_commit owner_commit; r_reveal id; r_settle id played_chunks;
   r_issue 1 toy_start; r_prune id 0; r_status id].
Definition toy_pool : pool World request response :=
  serve_all (serve toy_options) toy_requests (mkPool toy_world []).
Lemma toy_reached : reached toy_options toy_world toy_pool.
Proof. split; [apply toy_world_ok|apply serve_all_runs]. Qed.
End ToyRun.

(** The honest run, one request after the other: the ticket is issued,
    committed, revealed and settled with the item the player picked up; the
    start is not spent twice; after retention the payload may be pruned. *)
Abbreviation host := (code_unit_host).
Definition outcome (t : request * step World response) : option response :=
  match snd t with Finished (inr a) => Some a | _ => None end.
Definition settled_items (a : option response) : nat :=
  match a with Some (a_receipt rc) => length (items (receipt_statement rc)) | _ => 0 end.
Example toy_outcomes :
  let outcomes := map outcome (threads (toy_pool (H := host))) in
  forallb (fun o => bool_decide (is_Some (A := response) o)) outcomes = true /\
  map settled_items outcomes = [0; 0; 0; 1; 0; 0; 0]%nat.
Proof. vm_compute. split; reflexivity. Qed.

Definition row_or (d : EncounterLedgerRow) (o : option EncounterLedgerRow) : EncounterLedgerRow :=
  match o with Some r => r | None => d end.
Definition receipt_or (o : option EncounterReceipt) : EncounterReceipt :=
  match o with
  | Some rc => rc
  | None => mkEncounterReceipt (mkReceiptStatement 0 [] [] [] [] [] [] [] [] [] 0 0) [] []
  end.
Definition toy_row : EncounterLedgerRow :=
  row_or (issued_row [] [] toy_ticket) (lookup_id (js "ticket-1") (store (toy_pool (H := host)))).
Lemma toy_row_found : lookup_id (js "ticket-1") (store (toy_pool (H := host))) = Some toy_row.
Proof. vm_compute. reflexivity. Qed.
Lemma toy_row_owned : owned toy_options toy_row.
Proof. vm_compute. reflexivity. Qed.
Lemma toy_row_receipt : receipt toy_row = Some (receipt_or (receipt toy_row)).
Proof. vm_compute. reflexivity. Qed.

Definition prune_or (o : option response) : PayloadPruneGrant :=
  match o with Some (a_prune g) => g | _ => mkPruneGrant [] 0 0 [] false false false false [] end.
Definition toy_grant : PayloadPruneGrant :=
  prune_or (outcome (default (r_status [], Finished (inl [])) (threads (toy_pool (H := host)) !! 5%nat))).

Lemma toy_issued :
  answered (r_issue 1 toy_start) (a_ticket (issued_ticket)) (toy_pool (H := host)).
Proof. apply (list_elem_of_lookup_2 _ 0%nat). vm_compute. reflexivity. Qed.
Lemma toy_pruned : answered (r_prune (js "ticket-1") 0) (a_prune toy_grant) (toy_pool (H := host)).
Proof. apply (list_elem_of_lookup_2 _ 5%nat). vm_compute. reflexivity. Qed.

Lemma authority_interleavings_safe_witness :
  authority_ok (H := host) toy_options (store (toy_pool (H := host))) /\
  evolves toy_world (store (toy_pool (H := host))) /\
  forall req a, answered req a (toy_pool (H := host)) ->
    promise toy_options req a (store (toy_pool (H := host))).
Proof. exact (authority_interleavings_safe toy_options toy_world _ (toy_reached (H := host))). Defined.

Lemma settlement_replays_the_commitment_witness :
  exists state : GameState,
    items (receipt_statement (receipt_or (receipt toy_row)))
    = map (encounterItem (js "ticket-1")) (inventory state).
Proof.
  destruct (settlement_replays_the_commitment toy_options toy_world _ _ _ _
              (toy_reached (H := host)) toy_row_found toy_row_owned toy_row_receipt)
    as (c & at_ & sec & chunks & inputs & sd & game & state & T).
  exists state. apply T.
Defined.

Lemma one_ticket_per_start_witness :
  issued_ticket = issued_ticket /\
  ea_playerId toy_start = ea_playerId toy_start /\
  ea_ownerPublicKey toy_start = ea_ownerPublicKey toy_start.
Proof.
  exact (one_ticket_per_start toy_options toy_world _ 1 1 toy_start toy_start _ _
           (toy_reached (H := host)) toy_issued toy_issued eq_refl eq_refl eq_refl).
Defined.

Lemma deletion_rights_are_final_witness :
  has_row toy_options (js "ticket-1") closed_row (store (toy_pool (H := host))) /\
  setEvidenceHold toy_options (js "ticket-1") true (store (toy_pool (H := host)))
    = (store (toy_pool (H := host)), Finished (inl (js "retention already closed"))) /\
  fenceEvidenceCase toy_options (js "ticket-1") (store (toy_pool (H := host)))
    = (store (toy_pool (H := host)), Finished (inl (js "retention already closed"))).
Proof.
  exact (deletion_rights_are_final toy_options toy_world _ _ (js "ticket-1") (r_prune (js "ticket-1") 0) _ true
           (toy_reached (H := host)) eq_refl toy_pruned (rtc_refl _ _)).
Defined.

Lemma certificates_verify_witness :
  verifyEncounterReceipt (cryptoBackend toy_options) (receipt_or (receipt toy_row))
    (as_publicKey (signer toy_options)) = true.
Proof.
  assert (Hcfg : configured toy_options = true) by (vm_compute; reflexivity).
  exact (proj2 (certificates_verify (H := host) toy_options (H0 := toy_subtle_laws) toy_world _ _ _
           Hcfg toy_signer_accepted (toy_reached (H := host)) toy_row_found toy_row_owned)
           _ toy_row_receipt).
Defined.
