(* ===== verification/EncounterLiveness.v ===== *)
(** * An honest encounter settles

    Left alone, over a backend that does not reject, the authority settles a
    revealed encounter with the log its owner committed to. *)
From S2P Require Import Prelude Json Contracts Kernel KernelFacts Snapshot Utf8 CryptoBackend.
From S2P Require Import EncounterWire EncounterWireFacts Async EncounterLedger EncounterAuthority.
From S2P Require Import EncounterInvariant AuthorityFacts EncounterSafety OwnerAuth OwnerFacts.
Set Default Goal Selector "!".

(** ** A committed log always replays *)

Lemma advance_log `{JsHost} g i :
  input_tick i = tick g + 1 -> is_axis_value (horizontal i) = true ->
  is_axis_value (vertical i) = true -> exists g' fx, advanceGame g i = Ok (g', fx) /\ tick g' = tick g + 1.
Proof.
  intros Ht Hh Hv. unfold advanceGame. rewrite (proj2 (Z.eqb_eq _ _) Ht). cbn [negb].
  change (isAxis (horizontal i)) with (is_axis_value (horizontal i)).
  change (isAxis (vertical i)) with (is_axis_value (vertical i)). rewrite Hh, Hv. cbn [negb orb].
  destruct (attackNearest _ _ _ _) as [[es ds] fx]. destruct (resolveTelegraphs _ _ _) as [[p' rem] tfx].
  eexists _, _. split; [reflexivity|]. exact Ht.
Qed.

Lemma log_replays `{JsHost} inputs g :
  log_from (tick g + 1) inputs -> exists g', replayInputs g inputs = inr g'.
Proof.
  revert g. induction inputs as [|i inputs IH]; intros g; cbn [log_from replayInputs]; [eauto|].
  intros (Ht & Hh & Hv & Hl). destruct (advance_log g i Ht Hh Hv) as (g1 & fx & -> & Et).
  apply IH. by rewrite Et.
Qed.

Lemma decoded_log_replays `{JsHost} backend t c chunks inputs ci g :
  decodeEncounterLog backend t c chunks = inr inputs -> createInitialGame ci = inr g ->
  exists g', replayInputs g inputs = inr g'.
Proof.
  intros (a & b & d0 & d1 & -> & La & Na & Lb & _)%decodeLog_Ok Hg.
  destruct (initial_game_sources _ _ Hg) as (_ & Ht & _). apply log_replays. rewrite Ht.
  apply log_from_app. rewrite Na. done.
Qed.

(** ** Running alone *)

Section Alone.
Context `{JsHost} (options : EncounterAuthorityOptions).

Lemma run_row {B} id r (f : EncounterLedgerRow -> async World B) w :
  lookup_id id w = Some r -> owned options r ->
  run_alone (abind (row options id) f) w = run_alone (f r) w.
Proof.
  intros Hl Ho. rewrite run_bind. unfold row, byId, abind, read_store, run_alone. cbn. rewrite Hl.
  unfold refuse_if. unfold owned in Ho. rewrite Ho, str_eqb_refl. done.
Qed.

Lemma run_time {B} (f : Z -> async World B) w :
  isTime (clock_at w (calls w)) = true ->
  run_alone (abind time f) w = run_alone (f (clock_at w (calls w))) (called w).
Proof.
  intros Ht. rewrite run_bind. unfold time, host_now, abind, run_alone. cbn. unfold refuse_if. by rewrite Ht.
Qed.

Lemma run_replace id r r1 w :
  ledger_ok w -> lookup_id id w = Some r -> isSafeInteger (revision r + 1) = true ->
  revision r1 = revision r -> row_id r1 = row_id r -> startKey r1 = startKey r ->
  exists w', run_alone (replace_next r1) w = (w', inr true).
Proof.
  intros Hw Hl Hs Er Ei Ek. unfold replace_next, replace, refuse_if.
  cbn [set_revision revision]. rewrite Er, Z.eqb_refl, Hs. cbn [negb orb]. unfold run_alone.
  assert (exists w', replace_row (revision r) (set_revision (revision r + 1) r1) w = (w', true)) as [w' E].
  { pose proof (lookup_id_row w id r Hw Hl) as Hid.
    unfold replace_row, update. change (row_id (set_revision (revision r + 1) r1)) with (row_id r1).
    change (startKey (set_revision (revision r + 1) r1)) with (startKey r1).
    rewrite Ei, Hid, Ek. unfold lookup_id in Hl.
    destruct (encounter_tickets w !! id) as [e|] eqn:Et.
    - injection Hl as <-. destruct (columns_agree _ (tickets_ok w Hw) id e Et) as (_ & -> & ->).
      rewrite str_eqb_refl, Z.eqb_refl. cbn [andb]. eauto.
    - destruct (encounter_origins w !! id) as [e|] eqn:Eo; [|done]. injection Hl as <-.
      destruct (columns_agree _ (origins_ok w Hw) id e Eo) as (_ & -> & ->).
      rewrite str_eqb_refl, Z.eqb_refl. cbn [andb]. eauto. }
  exists w'. cbn [fst snd finish]. by rewrite E.
Qed.
End Alone.

(** ** Settlement *)

(** The backend and the signer answer every call. *)
Definition responsive (options : EncounterAuthorityOptions) : Prop :=
  (forall text, exists d, hash (cryptoBackend options) text = inr d) /\
  (forall d, exists s, as_signDigest (signer options) d = inr s).

Lemma decoded_bounds `{JsHost} backend t c chunks inputs :
  decodeEncounterLog backend t c chunks = inr inputs ->
  negb (length chunks =? 2)%nat || existsb (fun c => 4096 <? Z.of_nat (length (payload c))) chunks = false.
Proof.
  unfold decodeEncounterLog, throw_if. change (ENCOUNTER_TICKS / CHUNK_TICKS) with 2.
  intros E. guard_step E. bool_split. destruct chunks as [|c0 [|c1 [|]]]; simpl in Hg; try lia.
  cbn [decodeChunks] in E. unfold throw_if in E.
  destruct (chunkRefused c 0 c0) eqn:E0; [done|]. destruct (decodeChunk backend t 0 c0); [|done].
  destruct (chunkRefused c (0 + 1) c1) eqn:E1; [done|]. unfold chunkRefused in E0, E1.
  cbn [length Nat.eqb negb orb existsb]. rewrite orb_false_r.
  apply orb_false_iff in E0 as [[_ E0]%orb_false_iff _], E1 as [[_ E1]%orb_false_iff _].
  change MAX_CHUNK_BYTES with 4096 in E0, E1. by rewrite E0, E1.
Qed.

Lemma encounterGame_starts d player :
  isDigestText d = true -> identifier player = true ->
  exists n g, parseInt16 (take 8 d) = Some n /\
    createInitialGame {| create_seed := Z.of_N n; create_playerId := player |} = inr g /\
    encounterGame d player = inr g.
Proof.
  intros Hd Hp. destruct (digest_seed d Hd) as (n & Hn & Lt). unfold encounterGame. rewrite Hn.
  unfold identifier in Hp. apply andb_true_iff in Hp as [Hp _]. apply Z.ltb_lt in Hp.
  exists n. unfold createInitialGame, throw_if. cbn [create_seed create_playerId].
  rewrite (proj2 (isSafeInteger_spec (Z.of_N n))) by (unfold MAX_SAFE_INTEGER; lia). cbn [negb].
  rewrite (proj2 (Z.eqb_neq _ _)) by lia. eexists. split; [done|]. split; reflexivity.
Qed.

(** C26: an honest encounter settles: the authority, over a backend that
    answers, settles a revealed ticket with the chunks of the log its owner
    recorded and committed to, and the items of the receipt are those of the
    replay of exactly the recorded inputs with the ticket's secret. *)
Theorem revealed_encounter_settles `{JsHost} options `{SubtleLaws (crypto options)}
    w id r v c inputs chunks owner :
  responsive options -> authority_ok options w ->
  lookup_id id w = Some r -> owned options r -> phase r = revealed -> reveal r = Some v ->
  commitment r = Some c -> unit_range (ticketId (ticket r)) ->
  createEncounterChunks (cryptoBackend options) (ticket r) inputs = inr chunks ->
  signEncounterCommit (cryptoBackend options) (ticket r) chunks owner = inr c ->
  isTime (clock_at w (calls w)) = true -> releasedAt v <= clock_at w (calls w) ->
  isTime (clock_at w (calls w) + retentionMs options) = true ->
  isSafeInteger (revision r + 1) = true ->
  exists rc seedDigest game state,
    snd (run_alone (settle options id chunks) w) = inr rc /\
    hash (cryptoBackend options) (gameSeedFrame id (secret r)) = inr seedDigest /\
    encounterGame seedDigest (ea_playerId (t_authorization (ticket r))) = inr game /\
    replayInputs game inputs = inr state /\
    items (receipt_statement rc) = map (encounterItem id) (inventory state).
Proof.
  intros [Hhash Hsign] Hw Hl Ho Hp Hv Hc Hu Hch Hcm Ht Hrel Hret Hrev.
  pose proof (proj2 Hw id r Hl Ho) as Hok.
  assert (Hrc : receipt r = None).
  { pose proof (ok_phase _ _ Hok) as Hph. unfold phase_ok in Hph. rewrite Hp in Hph. apply Hph. }
  pose proof (log_survives _ _ _ _ _ _ Hu Hch Hcm) as Hdec.
  destruct (Hhash (gameSeedFrame id (secret r))) as [sd Hsd].
  destruct (ok_names _ _ Hok) as [Hnames _]. cbn [forallb] in Hnames. bool_split.
  destruct (encounterGame_starts sd (ea_playerId (t_authorization (ticket r))))
    as (n & game & _ & Hinit & Hgame); [exact (hash_shape options _ _ Hsd)|done|].
  destruct (decoded_log_replays _ _ _ _ _ _ _ Hdec Hinit) as [state Hstate].
  set (now := clock_at w (calls w)) in *.
  destruct (Hhash (finalStateFrame id state)) as [fd Hfd].
  set (statement := receiptStatement options id (ticket r) c state fd now).
  destruct (Hhash (receiptFrame statement)) as [rid Hrid]. destruct (Hsign rid) as [sg Hsg].
  exists (mkEncounterReceipt statement rid sg), sd, game, state. split; [|done].
  unfold settle, hashed, signed. rewrite (run_row options id r) by done. rewrite Hrc, Hv.
  rewrite run_refuse by (unfold phase_eqb; by rewrite Hp).
  rewrite run_refuse by (exact (decoded_bounds _ _ _ _ _ Hdec)).
  rewrite (run_asserted _ _ _ c Hc), (run_await_bind _ _ _ _ Hdec), (run_await_bind _ _ _ _ Hsd).
  rewrite (run_throws _ _ _ _ Hgame), (run_throws _ _ _ _ Hstate), run_time by done. fold now.
  rewrite run_refuse by (rewrite Hret; cbn [negb orb]; by apply Z.ltb_ge).
  rewrite (run_await_bind _ _ _ _ Hfd), (run_await_bind _ _ _ _ Hrid), (run_await_bind _ _ _ _ Hsg).
  change RETRIES with (S 7).
  destruct (run_replace id r (set_settled (mkEncounterReceipt statement rid sg) r) (called w))
    as [w' Hw'];
    [exact (proj1 (proj1 (called_ok options w Hw)))|exact Hl|exact Hrev|reflexivity..|].
  rewrite (run_retrying 7 _ _ (called w) w' (mkEncounterReceipt statement rid sg)); [done|].
  rewrite (run_row options id r) by done. rewrite Hrc.
  rewrite run_refuse by (unfold phase_eqb; by rewrite Hp).
  rewrite (run_asserted _ _ _ c Hc), run_refuse by (apply negb_false_iff, str_eqb_refl).
  rewrite run_bind. fold now statement. rewrite Hw'. reflexivity.
Qed.

(** ** A concrete run *)

Definition toy_revealed : pool World request response :=
  serve_all (serve (H := code_unit_host) toy_options)
    [r_issue 1 toy_start; r_commit owner_commit; r_reveal (js "ticket-1")] (mkPool toy_world []).
Definition reveal_or (o : option EncounterReveal) : EncounterReveal :=
  match o with Some v => v | None => mkReveal [] [] [] 0 0 [] end.
Definition toy_revealed_row : EncounterLedgerRow :=
  row_or (issued_row [] [] toy_ticket) (lookup_id (js "ticket-1") (store toy_revealed)).
Lemma toy_revealed_ok : authority_ok (H := code_unit_host) toy_options (store toy_revealed).
Proof.
  assert (reached (H := code_unit_host) toy_options toy_world toy_revealed) as Hr
    by (split; [apply toy_world_ok|apply serve_all_runs]).
  exact (proj1 (proj1 (reached_good (H := code_unit_host) toy_options toy_world toy_revealed Hr))).
Qed.
Lemma toy_responsive : responsive toy_options.
Proof.
  split.
  - intros text. eexists. reflexivity.
  - intros d. eexists. reflexivity.
Qed.

Lemma revealed_encounter_settles_witness : exists rc,
  snd (run_alone (settle (H := code_unit_host) toy_options (js "ticket-1") played_chunks) (store toy_revealed))
    = inr rc.
Proof.
  destruct (revealed_encounter_settles (H := code_unit_host) toy_options (H0 := toy_subtle_laws)
              (store toy_revealed) (js "ticket-1") toy_revealed_row
              (reveal_or (reveal toy_revealed_row)) owner_commit toy_moves played_chunks
              (toy_signs "alice")) as (rc & _ & _ & _ & E & _).
  - exact toy_responsive.
  - exact toy_revealed_ok.
  - vm_compute. reflexivity.
  - vm_compute. reflexivity.
  - vm_compute. reflexivity.
  - vm_compute. reflexivity.
  - vm_compute. reflexivity.
  - vm_compute. repeat constructor.
  - vm_compute. reflexivity.
  - vm_compute. reflexivity.
  - vm_compute. reflexivity.
  - vm_compute. discriminate.
  - vm_compute. reflexivity.
  - vm_compute. reflexivity.
  - exists rc. exact E.
Defined.
