(* ===== verification/ArchiveSafety.v ===== *)
(** * What the archive guarantees

    Any number of calls that store and release evidence, in any order and with
    any interleaving at their awaits, while the rest of the service changes its
    own tables and closes generations in between. *)
From stdpp Require Import gmap.
From S2P Require Import Prelude Json Contracts Kernel Journal Utf8 CryptoBackend EncounterWire EncounterHttp.
From S2P Require Import EncounterBundle InventoryCheckpoint InventoryRanges Async EncounterLedger EncounterStore ArchiveStore.
From S2P Require Import OwnerAuth OwnerFacts EncounterWireFacts EncounterHttpFacts EncounterRequestBounds.
From S2P Require Import ArchiveFacts.
From S2P Require Import EncounterAuthority EncounterInvariant AuthorityFacts EncounterSafety.
Set Default Goal Selector "!".

(** ** Requests *)

Section Pool.
Context `{JsHost} (options : EncounterArchiveOptions).

Inductive archive_request :=
| q_store (b : EncounterArchiveBundle) (Hb : admissible b)
| q_release (r : ArchiveRelease).
Inductive archive_answer := a_custody (c : ArchiveCustody) | a_released (r : ArchiveRelease).

Definition archive_serve (req : archive_request) : async Store archive_answer :=
  match req with
  | q_store b _ => let* c := store options b in aret (a_custody c)
  | q_release r => let* r' := release options r in aret (a_released r')
  end.

(** What the rest of the service does to the archive: nothing, or it retires a
    generation inside a transaction of its own. *)
Definition archive_turn (st st' : Store) : Prop :=
  exists st1, same_archive st1 st' /\
    (st1 = st \/ exists unit generation,
       retireGenerationInTransaction unit generation st = (st1, inr I)).

Abbreviation archive_pool := (pool Store archive_request archive_answer).
(** From a database whose accounting the constructor has checked. *)
Definition archive_reached (st0 : Store) (p : archive_pool) : Prop :=
  archive_ok options st0 /\ rtc (pool_step archive_serve archive_turn) (mkPool st0 []) p.

Definition in_custody (c : ArchiveCustody) (st : Store) : Prop :=
  holds_evidence c st \/ exists r, valid_release options c r.
Definition archive_promise (req : archive_request) (a : archive_answer) (st : Store) : Prop :=
  match a with a_custody c => in_custody c st | a_released _ => True end.

Lemma in_custody_later c st st' :
  archive_ok options st' -> archive_evolves options st st' -> in_custody c st -> in_custody c st'.
Proof.
  intros Hok [_ Ho] [(x & Hx & Ec & Hb)|Hr]; [|by right].
  destruct (Ho _ x Hx) as [Hx'|[[r Hr] _]]; [left; by exists x|right; exists r; by rewrite <- Ec].
Qed.

Lemma archive_host_ok st st' : archive_ok options st -> archive_turn st st' ->
  archive_ok options st' /\ archive_evolves options st st'.
Proof.
  intros Hok (st1 & Hs & [->|(u & g & Hr)]); [by apply same_archive_ok|].
  destruct (retire_ok options st st1 u g Hok Hr) as (Hok1 & Hev & _).
  destruct (same_archive_ok options st1 st' Hs Hok1) as [? ?]. split; [done|by etrans].
Qed.
Lemma archive_serve_ok req st : archive_ok options st ->
  spec (archive_ok options) (archive_evolves options) (archive_serve req) st (on_return (archive_promise req)).
Proof.
  intros Hok. destruct req as [b Hb|r].
  - eapply yields_bind; [exact _|by apply store_spec|].
    intros c st' Hok' _ Hc. apply yields_ret; [exact _|done|]. by left.
  - eapply yields_bind; [exact _|by apply release_spec|].
    intros r' st' Hok' _ _. by apply yields_ret; [exact _|..].
Qed.
Lemma archive_promise_later req r st st' :
  archive_ok options st' -> archive_evolves options st st' ->
  on_return (archive_promise req) r st -> on_return (archive_promise req) r st'.
Proof. destruct r as [|[c|]]; [done| |done]. by apply in_custody_later. Qed.

Lemma archive_reached_ok st0 p : archive_reached st0 p ->
  pool_ok (archive_ok options) (archive_evolves options) (fun req => on_return (archive_promise req)) p /\
  archive_evolves options st0 (Async.store p).
Proof.
  intros [Hok Hr]. apply (pool_sound archive_serve archive_turn _ _ _ archive_host_ok archive_serve_ok
    archive_promise_later (mkPool st0 []) p); [|exact Hr]. by split.
Qed.
End Pool.

(** C28: the archive's accounting is exact under every interleaving: the bytes
    and objects it has charged are those of the objects it holds, they never
    exceed the configured capacity, and the two writes of an operation are
    never seen apart. *)
Theorem archive_accounting_exact `{JsHost} options st0 p :
  archive_reached options st0 p ->
  exists b, archive_budget (Async.store p) = Some b /\
    usedBytes b = total_bytes (archive_objects (Async.store p)) /\
    totalObjects b = Z.of_nat (size (archive_objects (Async.store p))) /\
    usedBytes b <= maxBytes options /\ totalObjects b <= maxObjects options.
Proof. intros Hr. destruct (archive_reached_ok options st0 p Hr) as [[Hok _] _]. apply Hok. Qed.

(** C27: evidence the archive has promised to keep is there until the authority
    gives it up: once a call to store a bundle has returned a custody
    certificate, then in every later state the archive holds the text of a
    bundle under that certificate, or there is a release of exactly that
    custody, queue and root, signed by the authority for a time not before the
    promised retention. *)
Theorem evidence_survives_until_release `{JsHost} options st0 p p' b Hb c :
  archive_reached options st0 p -> (q_store b Hb, Finished (inr (a_custody c))) ∈ threads p ->
  rtc (pool_step (archive_serve options) archive_turn) p p' ->
  (exists x text, archive_objects (Async.store p') !! cs_ticketId (custody_statement c) = Some x /\
     ao_custody x = c /\ ao_bundle x = Some text /\ ao_release x = None) \/
  (exists r, let s := release_statement r in
     ars_custodyId s = custodyId c /\ ars_queueId s = cs_queueId (custody_statement c) /\
     ars_root s = cs_root (custody_statement c) /\ minRetainUntil (custody_statement c) <= closedAt s /\
     hash (archiveBackend options) (archiveReleaseFrame s) = inr (releaseId r) /\
     cb_verify (archiveBackend options) (trustedAuthorityKey options) (releaseId r) (release_signature r)
       = inr true).
Proof.
  intros [Hok Hr] Hin Hs.
  assert (Hr' : archive_reached options st0 p') by (split; [done|by etrans]).
  destruct (archive_reached_ok options st0 p' Hr') as [[Hok' _] _].
  destruct (archive_reached_ok options st0 p (conj Hok Hr)) as [Hp _].
  pose proof (pool_answer _ _ _ _ _ _ Hp Hin) as Hc. cbn [on_return archive_promise] in Hc.
  destruct (pool_sound (archive_serve options) archive_turn _ _ _ (archive_host_ok options)
    (archive_serve_ok options) (archive_promise_later options) p p' Hp Hs) as [_ Hev].
  apply (in_custody_later options c _ _ Hok' Hev) in Hc as [(x & Hx & Ec & text & Et)|(r & Hm & _ & _ & Hh & Hv)].
  - left. exists x, text. split_and!; [done..|].
    destruct (ar_objects _ _ Hok' _ _ Hx) as [Ho _]. pose proof (oo_evidence _ _ _ Ho) as He.
    rewrite Et in He. apply He.
  - right. exists r. unfold releaseMismatch in Hm. bool_split. cbv zeta.
    by split_and!; try (symmetry; apply str_eqb_eq).
Qed.

(** ** Restored evidence verifies *)

Section Verified.
Context `{JsHost} (subtle : SubtleCrypto) `{SubtleLaws subtle}.
Let backend := createStandardWebCryptoBackend subtle.

Lemma verified_ticket_fields t key : verifyEncounterTicket backend t key = true ->
  authorityKey t = key /\ identifier (ticketId t) = true /\ identifier (unit (t_authorization t)) = true /\
  identifier (queueId t) = true /\ value_bytes (JStr (queueId t)) <= 82.
Proof.
  unfold verifyEncounterTicket, or_false, ticketShapeRefused. intros Hv. destruct (_ || _) eqn:Hs in Hv; [done|].
  cbn [forallb] in Hs. bool_split. split_and!; [by apply str_eqb_eq|done..|].
  unfold encounterQueueId, encounterStartKey, throw_if in Hv.
  match goal with E : isTime (default_generation _) = true |- _ => rewrite E in Hv end. cbn [negb] in Hv.
  destruct (hash backend _) as [|d] eqn:Ed in Hv; cbn [throw_bind] in Hv; [done|].
  destruct (str_eqb (queueId t) _) eqn:Eq; [|done]. apply str_eqb_eq in Eq. rewrite Eq.
  apply hashString_digest, hex_simple in Ed as [Hd Hl]. unfold value_bytes. cbn [stringify].
  rewrite quote_simple_bytes.
  - unfold slen in *. rewrite length_app. change (length (js "encounter-start:")) with 16%nat. lia.
  - rewrite forallb_app, Hd. done.
Qed.
Lemma verified_receipt_fields r key : verifyEncounterReceipt backend r key = true ->
  isDigestText (rs_root (receipt_statement r)) = true /\ isDigestText (receiptId r) = true /\
  isTime (rs_retentionUntil (receipt_statement r)) = true.
Proof.
  unfold verifyEncounterReceipt, or_false. intros Hv. destruct (_ || _) eqn:Hs in Hv; [done|]. bool_split.
  split_and!; [done| |done]. destruct (hash backend _) as [|d] eqn:Ed in Hv; cbn [throw_bind] in Hv; [done|].
  destruct (str_eqb (receiptId r) d) eqn:Eq; [|done]. apply str_eqb_eq in Eq as ->.
  exact (hashString_digest _ _ Ed).
Qed.
Lemma logged_digests t c chunks inputs : decodeEncounterLog backend t c chunks = inr inputs ->
  length (chunkDigests c) = 2%nat ->
  exists d0 d1, chunkDigests c = [d0; d1] /\ isDigestText d0 = true /\ isDigestText d1 = true.
Proof.
  intros (f & s & d0 & d1 & _ & _ & _ & _ & _ & L0 & L1 & E0 & E1)%decodeLog_Ok Hl.
  destruct (chunkDigests c) as [|x [|y [|]]]; try done. injection L0 as ->. injection L1 as ->.
  exists d0, d1. split_and!; [done|exact (hashString_digest _ _ E0)|exact (hashString_digest _ _ E1)].
Qed.
End Verified.

Definition archive_signer_accepted (options : EncounterArchiveOptions) : Prop :=
  forall d s, as_signDigest (ar_signer options) d = inr s ->
    cb_verify (archiveBackend options) (archivePublicKey options) d s = inr true.

Section Restored.
Context `{JsHost} (options : EncounterArchiveOptions) `{SubtleLaws (ar_crypto options)}.
Hypothesis Hcfg : archiveConfigured options = true.
Hypothesis Hsig : archive_signer_accepted options.
Abbreviation backend := (archiveBackend options).

Lemma evidence_parts b key : evidence_verifies backend b key = inr true ->
  verifyEncounterTicket backend (b_ticket b) key = true /\
  verifyEncounterReceipt backend (b_receipt b) key = true.
Proof.
  unfold evidence_verifies. destruct (verifyEncounterTicket backend (b_ticket b) key); [|done].
  by destruct (verifyEncounterReceipt backend (b_receipt b) key).
Qed.

(** The certificate fits the limit the verifier puts on its size. *)
Lemma custody_fits c d0 d1 :
  let s := custody_statement c in
  cs_version s = 1 -> cs_chunkDigests s = [d0; d1] -> policy s = js "authority-release-v1" ->
  Forall (fun d => isDigestText d = true)
    [archiveKey s; cs_authorityKey s; cs_root s; cs_receiptId s; d0; d1; bundleDigest s; custodyId c] ->
  identifier (cs_ticketId s) = true -> identifier (cs_unit s) = true ->
  value_bytes (JStr (cs_queueId s)) <= 82 ->
  isTime (storedBytes s) = true -> isTime (storedAt s) = true -> isTime (minRetainUntil s) = true ->
  signature (custody_signature c) = true ->
  byteLength (stringify (custody_value c)) <= 3000.
Proof.
  destruct c as [[n ak k id u q root rid ds bd sb sa mr pol] cid sg].
  cbn [custody_statement cs_version cs_chunkDigests policy archiveKey cs_authorityKey cs_root cs_receiptId bundleDigest
       custodyId cs_ticketId cs_unit cs_queueId storedBytes storedAt minRetainUntil custody_signature].
  intros -> -> -> Hd Hi Hu Hq Hb Ha Hr Hs. rewrite !Forall_cons in Hd.
  destruct Hd as (D1 & D2 & D3 & D4 & D5 & D6 & D7 & D8 & _).
  etrans; [apply byteLength_bound|]. fold (value_bytes (custody_value (mkCustody (mkCustodyStatement 1 ak k id u q root rid
    [d0; d1] bd sb sa mr (js "authority-release-v1")) cid sg))). sizes.
  assert (value_bytes (JNum 1) = 1) by done.
  assert (value_bytes (JStr (js "authority-release-v1")) = 22) by done.
  assert (value_bytes (JArr (map JStr [d0; d1])) <= 136).
  { etrans; [apply array_bytes|]. cbn [map foldr]. lia. }
  set (statement := [("version", JNum 1); ("archiveKey", JStr ak); ("authorityKey", JStr k); ("ticketId", JStr id);
    ("unit", JStr u); ("queueId", JStr q); ("root", JStr root); ("receiptId", JStr rid);
    ("chunkDigests", JArr (map JStr [d0; d1])); ("bundleDigest", JStr bd); ("storedBytes", JNum sb);
    ("storedAt", JNum sa); ("minRetainUntil", JNum mr); ("policy", JStr (js "authority-release-v1"))]%string).
  assert (value_bytes (obj statement) <= 2600).
  { fits. unfold statement. fits_more. lia. }
  change (custody_value _) with (obj [("statement", obj statement); ("custodyId", JStr cid); ("signature", JStr sg)]%string).
  fits. fits_more. lia.
Qed.

Lemma encoded_bytes b text : encodeArchiveBundle b = inr text -> 1 <= byteLength text <= MAX_ARCHIVE_BUNDLE_BYTES.
Proof.
  unfold encodeArchiveBundle, throw_if. destruct (wireChunks _); cbn [throw_bind]; [done|]. intros E. guard_step E.
  apply Z.ltb_ge in Hg. apply (inj inr) in E as <-. split; [|exact Hg]. clear Hg. unfold bundle_value, obj.
  cbn [stringify]. generalize (join (js ",")). intros f.
  match goal with |- context [f ?x] => generalize (f x ++ js "}") end. intros rest.
  unfold byteLength, utf8_encode. change (js "{" ++ rest) with (123%N :: rest). cbn. lia.
Qed.

Lemma evidence_restores c text :
  evidence_ok options c text -> exists b, decodeArchiveBundle text = inr b /\
    verifyArchivedBundle backend c b (trustedAuthorityKey options) (archivePublicKey options) = true.
Proof.
  intros (b & digest & at_ & inputs & Hd & He & Hv & Hb & Hlog & Hlen & Hh & Hat & Hst & Hid & Hsg).
  exists b. split; [done|].
  destruct (evidence_parts b _ Hv) as [Hvt Hvr].
  destruct (verified_ticket_fields _ _ _ Hvt) as (Ek & Hi & Hu & Hqi & Hq).
  destruct (verified_receipt_fields _ _ _ Hvr) as (Hroot & Hrid & Hret).
  destruct (logged_digests _ _ _ _ _ Hlog Hlen) as (d0 & d1 & Eds & Hd0 & Hd1).
  unfold archiveEvidenceBinds in Hb. apply andb_true_iff in Hb as [[Hb Hbt]%andb_true_iff Hbr].
  apply str_eqb_eq in Hbr. rewrite Hbr in Hroot.
  unfold archiveConfigured in Hcfg. apply andb_true_iff in Hcfg as [Hc _].
  do 5 apply andb_true_iff in Hc as [Hc _]. apply andb_true_iff in Hc as [Hak Htk].
  pose proof (hashString_digest _ _ Hh : isDigestText digest = true) as Hdig.
  pose proof (hashString_digest _ _ Hid : isDigestText (custodyId c) = true) as Hcid.
  pose proof (Hsig _ _ Hsg) as Hver. pose proof (verified_signature_shape _ _ _ _ Hver) as Hshape.
  assert (Hlim : 1 <= byteLength text <= MAX_ARCHIVE_BUNDLE_BYTES).
  { by apply (encoded_bytes b). }
  assert (Htime : isTime (byteLength text) = true).
  { unfold isTime, isSafeInteger. change MAX_ARCHIVE_BUNDLE_BYTES with 11000 in Hlim.
    unfold MAX_SAFE_INTEGER. lia. }
  assert (Hsize : byteLength (stringify (custody_value c)) <= 3000).
  { apply (custody_fits c d0 d1); rewrite ?Hst; cbn [custodyStatement cs_version cs_chunkDigests policy archiveKey
      cs_authorityKey cs_root cs_receiptId bundleDigest cs_ticketId cs_unit cs_queueId storedBytes storedAt minRetainUntil];
      try done.
    rewrite Ek. by repeat constructor. }
  assert (Hcust : verifyArchiveCustody backend c (archivePublicKey options) = true).
  { unfold verifyArchiveCustody. rewrite (proj2 (Z.ltb_ge _ _) Hsize), Hid. rewrite Hst.
    cbn [custodyStatement cs_version cs_chunkDigests policy archiveKey
      cs_authorityKey cs_root cs_receiptId bundleDigest cs_ticketId cs_unit cs_queueId storedBytes storedAt minRetainUntil forallb].
    rewrite Ek, Eds. cbn [forallb]. rewrite !str_eqb_refl, Hak, Htk, Hroot, Hrid, Hdig, Hi, Hu, Hqi, Htime, Hat, Hret, Hd0, Hd1.
    rewrite (proj2 (Z.ltb_ge _ _)), (proj2 (Z.ltb_ge _ _)) by lia. cbn [negb orb andb forallb length Nat.eqb Z.eqb Pos.eqb throw_bind].
    rewrite str_eqb_refl. cbn [negb]. by rewrite Hver. }
  unfold verifyArchivedBundle. rewrite He. cbn [throw_bind]. rewrite Hcust, Hst.
  unfold custody_binds. cbn [custodyStatement cs_version cs_chunkDigests policy archiveKey
      cs_authorityKey cs_root cs_receiptId bundleDigest cs_ticketId cs_unit cs_queueId storedBytes storedAt minRetainUntil].
  rewrite Ek, str_eqb_refl. cbn [negb orb]. rewrite Hv. cbn [throw_bind]. rewrite Hb, Hbt, Hbr, !str_eqb_refl, Z.leb_refl, Z.eqb_refl.
  cbn [negb orb andb]. rewrite Hh. cbn [throw_bind]. rewrite !str_eqb_refl. cbn [negb orb]. by rewrite Hlog.
Qed.
End Restored.

(** What the archive returns verifies: in every reachable state, the bundle
    that [read] decodes for a ticket passes [verifyArchivedBundle] with the
    custody certificate stored beside it: the certificate's fields, its size,
    digest and signature, the ticket, commitment, reveal and receipt, the bytes
    of the bundle, and the input log. *)
Theorem archived_evidence_verifies `{JsHost} options `{SubtleLaws (ar_crypto options)} st0 p id rd b :
  archiveConfigured options = true -> archive_signer_accepted options ->
  archive_reached options st0 p ->
  read options id (Async.store p) = inr (Some rd) -> rd_bundle rd = Some b ->
  verifyArchivedBundle (archiveBackend options) (rd_custody rd) b (trustedAuthorityKey options)
    (archivePublicKey options) = true.
Proof.
  intros Hcfg Hsig Hr Hrd Hb. destruct (archive_reached_ok options st0 p Hr) as [[Hok _] _].
  apply read_found in Hrd as (x & Hx & Ec & _ & Hdec). rewrite Hb in Hdec.
  destruct (ar_objects _ _ Hok _ _ Hx) as [Ho _]. pose proof (oo_evidence _ _ _ Ho) as He.
  destruct (ao_bundle x) as [text|]; [|done]. destruct He as (_ & _ & He).
  destruct (evidence_restores options Hcfg Hsig _ _ He) as (b' & Hd & Hv).
  rewrite Ec. assert (b' = b) as -> by congruence. done.
Qed.

(** ** A concrete archive *)

Definition toy_archive : EncounterArchiveOptions :=
  mkArchiveOptions (toy_signs "archive") (as_publicKey (signer toy_options)) toy_subtle 1048576 1024 None.
Definition store_of (w : World) : Store :=
  mkStore w ∅ ∅ ∅ ∅ ∅ (Some (mkBudget 0 0)) ∅ ∅ ∅ [] ∅ (fun _ => false).
Definition toy_settled : Store := store_of (Async.store (toy_pool (H := host))).
Definition commit_or (o : option EncounterCommit) : EncounterCommit := or_commit (from_option inr (inl []) o).
Definition reveal_or (o : option EncounterReveal) : EncounterReveal :=
  match o with Some r => r | None => mkReveal [] [] [] 0 0 [] end.
Definition toy_bundle : EncounterArchiveBundle :=
  mkBundle (ticket toy_row) (commit_or (commitment toy_row)) (reveal_or (reveal toy_row))
    (receipt_or (receipt toy_row)) played_chunks.
Definition or_text (r : throws jsstr) : jsstr := match r with inr t => t | inl _ => [] end.

Lemma toy_admissible : admissible toy_bundle.
Proof.
  assert (Hb : forallb (fun c => forallb (fun b => b <? 256)%N (payload c)) (b_chunks toy_bundle) = true)
    by (vm_compute; reflexivity).
  assert (Hp : match wireChunks (b_chunks toy_bundle) with
               | inr xs => safe_plain (bundle_value toy_bundle xs) | inl _ => false end = true)
    by (vm_compute; reflexivity).
  split; [|vm_compute; reflexivity]. split.
  - apply Forall_forall. intros c Hc. apply list_elem_of_In in Hc.

    apply Forall_forall. intros x Hx. apply N.ltb_lt.
    apply (proj1 (forallb_forall _ _) (proj1 (forallb_forall _ _) Hb c Hc)). by apply list_elem_of_In.
  - intros xs E. rewrite E in Hp. exact Hp.
Qed.
Lemma toy_settled_ok : archive_ok (H := host) toy_archive toy_settled.
Proof. split; [by exists (mkBudget 0 0)|]. intros id x Hx. discriminate Hx. Qed.
Definition toy_archive_pool : pool Store archive_request archive_answer :=
  serve_all (archive_serve (H := host) toy_archive) [q_store toy_bundle toy_admissible] (mkPool toy_settled []).
Lemma toy_archive_reached : archive_reached (H := host) toy_archive toy_settled toy_archive_pool.
Proof. split; [apply toy_settled_ok|apply serve_all_runs]. Qed.
Definition custody_or (ts : list (archive_request * step Store archive_answer)) : ArchiveCustody :=
  match ts with
  | [(_, Finished (inr (a_custody c)))] => c
  | _ => mkCustody (mkCustodyStatement 0 [] [] [] [] [] [] [] [] [] 0 0 0 []) [] []
  end.
Definition toy_custody : ArchiveCustody := custody_or (threads toy_archive_pool).
Definition has_custody (ts : list (archive_request * step Store archive_answer)) : bool :=
  match ts with [(_, Finished (inr (a_custody _)))] => true | _ => false end.
Lemma served_alone (req : archive_request) (st : Store) (serve : archive_request -> async Store archive_answer) :
  has_custody (threads (serve_all serve [req] (mkPool st []))) = true ->
  (req, Finished (inr (a_custody (custody_or (threads (serve_all serve [req] (mkPool st []))))))) ∈
    threads (serve_all serve [req] (mkPool st [])).
Proof.
  cbn [serve_all Async.store threads]. destruct (run_alone (serve req) st) as [st' [e|[c|r]]]; cbn; [done|left|done].
Qed.
Lemma toy_archived :
  (q_store toy_bundle toy_admissible, Finished (inr (a_custody toy_custody))) ∈ threads toy_archive_pool.
Proof. apply served_alone. vm_compute. reflexivity. Qed.

Lemma archive_accounting_exact_witness :
  exists b, archive_budget (Async.store toy_archive_pool) = Some b /\
    usedBytes b = total_bytes (archive_objects (Async.store toy_archive_pool)) /\ totalObjects b <= 1024.
Proof.
  destruct (archive_accounting_exact (H := host) toy_archive toy_settled _ toy_archive_reached)
    as (b & Hb & Hu & _ & _ & Ht). exact (ex_intro _ b (conj Hb (conj Hu Ht))).
Defined.

Lemma evidence_survives_until_release_witness :
  (exists x text, archive_objects (Async.store toy_archive_pool) !! cs_ticketId (custody_statement toy_custody) = Some x /\
     ao_custody x = toy_custody /\ ao_bundle x = Some text) \/
  (exists r, ars_custodyId (release_statement r) = custodyId toy_custody).
Proof.
  destruct (evidence_survives_until_release (H := host) toy_archive toy_settled _ _ _ _ _ toy_archive_reached toy_archived
              (rtc_refl _ _)) as [(x & text & Hx & Hc & Hb & _)|(r & Hr & _)]; [left|right].
  - exact (ex_intro _ x (ex_intro _ text (conj Hx (conj Hc Hb)))).
  - exact (ex_intro _ r Hr).
Defined.

Definition read_or (r : throws (option ArchiveRead)) : ArchiveRead :=
  match r with inr (Some rd) => rd | _ => mkArchiveRead (custody_or []) None None end.
Definition toy_read : ArchiveRead := read_or (read (H := host) toy_archive (js "ticket-1") (Async.store toy_archive_pool)).
Lemma archived_evidence_verifies_witness :
  verifyArchivedBundle (H := host) (archiveBackend toy_archive) (rd_custody toy_read) toy_bundle
    (trustedAuthorityKey toy_archive) (archivePublicKey toy_archive) = true.
Proof.
  assert (Hcfg : archiveConfigured toy_archive = true) by (vm_compute; reflexivity).
  assert (Hsig : archive_signer_accepted toy_archive).
  { intros d s Hs. exact (standard_signature_verifies toy_subtle (toy_public "archive") (toy_public "archive") d s
                            (toy_key_pair "archive") Hs). }
  assert (Hread : read (H := host) toy_archive (js "ticket-1") (Async.store toy_archive_pool) = inr (Some toy_read) /\
                  rd_bundle toy_read = Some toy_bundle) by (vm_compute; split; reflexivity).
  exact (archived_evidence_verifies (H := host) toy_archive (H0 := toy_subtle_laws) toy_settled _ _ _ _ Hcfg Hsig
           toy_archive_reached (proj1 Hread) (proj2 Hread)).
Defined.

Lemma archive_bundle_roundtrip_witness :
  decodeArchiveBundle (H := host) (or_text (encodeArchiveBundle toy_bundle)) = inr toy_bundle.
Proof.
  assert (E : encodeArchiveBundle toy_bundle = inr (or_text (encodeArchiveBundle toy_bundle)))
    by (vm_compute; reflexivity).
  exact (proj1 (archive_bundle_roundtrip (H := host) _ _ (proj1 toy_admissible) E)).
Defined.
