(* ===== verification/GenerationFacts.v ===== *)
(** * Facts about generations

    Closing a generation moves every row of the unit to the origins, advances
    the three fences together and signs a seal that verifiers accept. *)
From stdpp Require Import gmap sorting.
From S2P Require Import Prelude Json Contracts Kernel Journal Utf8 CryptoBackend EncounterWire EncounterHttp.
From S2P Require Import EncounterBundle InventoryCheckpoint InventoryRanges Async EncounterLedger EncounterStore ArchiveStore.
From S2P Require Import OwnerAuth OwnerFacts EncounterWireFacts EncounterHttpFacts EncounterRequestBounds.
From S2P Require Import ArchiveFacts Generations EncounterAuthority EncounterInvariant AuthorityFacts.
Set Default Goal Selector "!".

(** ** The rows of the transaction *)

Lemma elem_of_unit_entries unit t id e :
  (id, e) ∈ unit_entries unit t <-> t !! id = Some e /\ row_unit (data e) = unit.
Proof.
  unfold unit_entries. rewrite merge_sort_Permutation, list_elem_of_In, filter_In, <- list_elem_of_In,
    elem_of_map_to_list. cbn [snd]. by rewrite str_eqb_eq.
Qed.
Lemma unit_entries_keys unit t : NoDup (unit_entries unit t).*1.
Proof.
  unfold unit_entries. rewrite merge_sort_Permutation.
  assert (Hn : NoDup (map_to_list t).*1) by apply NoDup_fst_map_to_list.
  revert Hn. generalize (map_to_list t). intros l. induction l as [|x l IH]; [done|].
  rewrite fmap_cons, NoDup_cons. intros [Hx Hl]. cbn [List.filter]. case_match; [|by apply IH].
  rewrite fmap_cons. apply NoDup_cons. split; [|by apply IH].
  intros (y & Ey & Hy)%list_elem_of_fmap. apply Hx, list_elem_of_fmap. exists y. split; [done|].
  apply list_elem_of_In in Hy. apply filter_In in Hy as [Hy _]. by apply list_elem_of_In.
Qed.

Lemma rows_all unit st l : rows unit st = inr l ->
  l = map (fun ke => data (snd ke)) (unit_entries unit (encounter_tickets (ledger st))) /\ (length l <= 1024)%nat.
Proof.
  unfold rows, throw_if. intros E. guard_step E. guard_step E. apply (inj inr) in E as <-.
  apply Nat.ltb_ge in Hg. rewrite length_map. rewrite length_take in Hg.
  rewrite take_ge by lia. split; [done|lia].
Qed.

(** ** Moving the rows *)

Lemma retire_row_ok e id st st' :
  row_id (data e) = id -> startKey (data e) = start_key e -> revision (data e) = entry_revision e ->
  encounter_tickets (ledger st) !! id = Some e ->
  retire_row (data e) st = (st', inr I) ->
  exists o, st' = set_ledger (with_tickets (delete id (encounter_tickets (ledger st))) (with_origins o (ledger st))) st /\
    forall id' e', o !! id' = Some e' <->
      (id' = id /\ forgets (data e) st = false /\ e' = origin_entry e) \/ encounter_origins (ledger st) !! id' = Some e'.
Proof.
  intros Ei Es Er He E. unfold retire_row, delete_ticket in E. tx_run E.
  apply (inj inr) in E0 as <-. rename E1 into Ekeep.
  assert (Hdel : forall t, t !! id = Some e -> delete_at id (revision (data e)) t = delete id t).
  { intros t Ht. unfold delete_at. by rewrite Ht, Er, Z.eqb_refl. }
  destruct (forgets (data e) st) eqn:Hf.
  - tx_run Ekeep. exists (encounter_origins (ledger st)). rewrite Ei, Hdel by done. split.
    + by destruct st as [[]].
    + intros id' e'. split; [by right|]. by intros [(_ & ? & _)|].
  - unfold insert_origin in Ekeep.
    match type of Ekeep with context [taken ?a ?b ?c] => destruct (taken a b c) eqn:Ht; [done|] end.
    apply pair_equal_spec in Ekeep as [<- _].
    apply taken_false in Ht as [Hn _]. change (row_id (origin_of (data e))) with (row_id (data e)) in *.
    rewrite Ei in *. exists (<[id := origin_entry e]> (encounter_origins (ledger st))). split.
    + cbn [ledger set_ledger with_origins encounter_tickets]. rewrite Hdel by done. unfold origin_entry.
      rewrite <- Es, <- Er. by destruct st as [[]].
    + intros id' e'. rewrite lookup_insert_Some. split.
      * intros [[<- <-]|[Hne Ho]]; [by left|by right].
      * intros [(-> & _ & ->)|Ho]; [by left|]. right. split; [|done]. intros ->. congruence.
Qed.

Lemma retire_rows_ok (l : list (jsstr * LedgerEntry)) st st' :
  (forall id e, (id, e) ∈ l -> row_id (data e) = id /\ startKey (data e) = start_key e /\
     revision (data e) = entry_revision e /\ encounter_tickets (ledger st) !! id = Some e) ->
  NoDup l.*1 ->
  titer retire_row (map (fun ke => data (snd ke)) l) st = (st', inr I) ->
  exists t o, st' = set_ledger (with_tickets t (with_origins o (ledger st))) st /\
    (forall id, t !! id = if decide (id ∈ l.*1) then None else encounter_tickets (ledger st) !! id) /\
    (forall id e', o !! id = Some e' <->
       (exists e, (id, e) ∈ l /\ forgets (data e) st = false /\ e' = origin_entry e) \/
       encounter_origins (ledger st) !! id = Some e').
Proof.
  revert st. induction l as [|[id e] l IH]; intros st Hl Hn E; cbn [map titer snd] in E.
  - tx_run E. exists (encounter_tickets (ledger st)), (encounter_origins (ledger st)). split_and!.
    + by destruct st as [[]].
    + intros id. cbn. by rewrite decide_False by apply not_elem_of_nil.
    + intros id e'. split; [by right|]. intros [(e & He & _)|]; [by apply not_elem_of_nil in He|done].
  - tx_run E. destruct a. destruct (Hl id e) as (Ei & Es & Er & He); [by left|].
    destruct (retire_row_ok e id st st0 Ei Es Er He E0) as (o1 & -> & Ho1).
    rewrite fmap_cons in Hn. apply NoDup_cons in Hn as [Hid Hn]. cbn [fst] in Hid.
    apply IH in E as (t & o & -> & Ht & Ho); [|clear IH|done].
    2:{ intros id' e' Hin. destruct (Hl id' e') as (Ei' & Es' & Er' & He'); [by right|].
        split_and!; [done..|]. cbn. rewrite lookup_delete_ne; [done|]. intros ->. apply Hid.
        apply list_elem_of_fmap. by exists (id', e'). }
    exists t, o. split_and!; [by destruct st as [[]]| |].
    + intros id'. rewrite Ht. cbn [ledger set_ledger with_tickets with_origins encounter_tickets].
      rewrite fmap_cons. cbn [fst]. destruct (decide (id' ∈ l.*1)) as [Hin|Hin].
      * by rewrite decide_True by (by right).
      * destruct (decide (id' = id)) as [->|Hne]; [rewrite lookup_delete_eq, decide_True by (by left); done|].
        rewrite lookup_delete_ne by done. rewrite decide_False; [done|]. rewrite elem_of_cons. tauto.
    + intros id' e'. rewrite Ho. cbn [ledger set_ledger with_tickets with_origins encounter_origins]. rewrite Ho1.
      setoid_rewrite elem_of_cons. split.
      * intros [(e1 & Hin & Hf & ->)|[(-> & Hf & ->)|]]; [left; exists e1; eauto|left; exists e; eauto|by right].
      * intros [(e1 & [[= -> ->]|Hin] & Hf & ->)|]; [right; left; eauto|left; exists e1; eauto|by right; right].
Qed.

(** ** The transaction *)

Lemma retire_frame unit generation st st' a : retireGenerationInTransaction unit generation st = (st', inr a) ->
  exists o b f, st' = set_archive o b f st.
Proof. unfold retireGenerationInTransaction. intros E. tx_run E. eauto. Qed.

(** The rows of [unit] after its generation is closed: all of them, except
    those whose owner has given up their recovery, are origins. *)
Record closed_ledger (unit : jsstr) (st : Store) (w : World) : Prop := {
  cl_tickets : forall id, encounter_tickets w !! id =
    match encounter_tickets (ledger st) !! id with
    | Some e => if decide (row_unit (data e) = unit) then None else Some e
    | None => None
    end;
  cl_origins : forall id e', encounter_origins w !! id = Some e' <->
    (exists e, encounter_tickets (ledger st) !! id = Some e /\ row_unit (data e) = unit /\
       forgets (data e) st = false /\ e' = origin_entry e) \/
    encounter_origins (ledger st) !! id = Some e';
  cl_calls : calls w = calls (ledger st);
  cl_clock : clock_at w = clock_at (ledger st);
  cl_uuid : uuid_at w = uuid_at (ledger st);
  cl_random : random_at w = random_at (ledger st);
}.

Lemma retired_ledger unit st st1 st' l :
  ledger_ok (ledger st) -> rows unit st = inr l ->
  (exists o b f, st1 = set_archive o b f st) ->
  titer retire_row l st1 = (st', inr I) ->
  exists w, st' = set_ledger w st1 /\ closed_ledger unit st w.
Proof.
  intros Hw [-> _]%rows_all (o & b & f & ->) E.
  pose proof (fun id e => elem_of_unit_entries unit (encounter_tickets (ledger st)) id e) as Hin.
  apply retire_rows_ok in E as (t & o' & -> & Ht & Ho).
  - eexists. split; [reflexivity|]. split; try done.
    + intros id. change (encounter_tickets (with_tickets t (with_origins o' _)) !! id) with (t !! id). rewrite Ht.
      cbn [ledger set_archive]. destruct (encounter_tickets (ledger st) !! id) as [e|] eqn:Ee.
      * destruct (decide (row_unit (data e) = unit)) as [Eu|Eu].
        -- rewrite decide_True; [done|]. apply list_elem_of_fmap. exists (id, e). split; [done|]. by apply Hin.
        -- rewrite decide_False; [done|]. intros ([id' e'] & Ei & [He' Hu]%Hin)%list_elem_of_fmap. cbn in Ei. subst id'.
           congruence.
      * by destruct (decide _).
    + intros id e'. change (encounter_origins (with_tickets t (with_origins o' _)) !! id) with (o' !! id). rewrite Ho.
      change (ledger (set_archive o b f st)) with (ledger st). setoid_rewrite Hin.
      assert (Hf : forall x, forgets x (set_archive o b f st) = forgets x st) by done. setoid_rewrite Hf. naive_solver.
  - intros id e [He Hu]%Hin. destruct (columns_agree _ (tickets_ok _ Hw) id e He) as (? & ? & ?). by split_and!.
  - apply unit_entries_keys.
Qed.

Section Transaction.
Context (signer : AsyncAuditSigner) (archived : bool).

(** What closing a generation does, when it succeeds. *)
Record generation_closed (unit : jsstr) (expected : Z) (seen : list EncounterLedgerRow)
    (value : EncounterGenerationSeal) (st st' : Store) : Prop := {
  gc_rows : exists fresh, rows unit st = inr fresh /\ closed signer unit expected fresh st = true /\
    revisions_text fresh = revisions_text seen;
  gc_advances : expected < MAX_SAFE_INTEGER;
  gc_store : exists st1 w, (if archived then retireGenerationInTransaction unit expected st = (st1, inr I) else st1 = st) /\
    closed_ledger unit st w /\
    st' = set_generation unit (mkGenerationRow (expected + 1) (Some value)) (expected + 1)
            (delete_admissions unit expected (set_ledger w st1));
}.

Lemma close_generation_ok unit expected seen value active st st' v :
  ledger_ok (ledger st) -> close_generation signer archived unit expected seen value active st = (st', inr v) ->
  v = value /\ active = expected /\ generation_closed unit expected seen value st st'.
Proof.
  intros Hw E. unfold close_generation in E. tx_run E. subst v.
  apply orb_false_iff in G as [Gal Gtx]. apply negb_false_iff in Gal, Gtx. apply str_eqb_eq in Gtx. subst a0.
  destruct a1, a2. unfold rollAllowed in E1.
  destruct (archivesClosed archived unit expected a st) as [|released]; cbn [throw_bind] in E1; [done|].
  injection E1 as Hal. unfold encounter_generation_roll_allowed in Hal. bool_split.
  assert (Hst1 : (if archived then retireGenerationInTransaction unit expected st = (st0, inr I) else st0 = st) /\
            exists o b f, st0 = set_archive o b f st).
  { destruct archived.
    - split; [done|]. by apply (retire_frame unit expected st st0 I).
    - tx_run E2. split; [done|]. exists (archive_objects st), (archive_budget st), (archive_generations st). by destruct st. }
  destruct Hst1 as [Hst1 Hfr]. apply (retired_ledger unit st st0 st1 a Hw E0 Hfr) in E3 as (w & -> & Hcl).
  split; [done|]. split; [lia|]. split; [by exists a|lia|]. by exists st0, w.
Qed.
End Transaction.

Lemma roll_transaction_ok signer archived unit expected seen value st st' v :
  ledger_ok (ledger st) -> roll_transaction signer archived unit expected seen value st = (st', inr v) ->
  exists active, current signer archived unit st = inr active /\
    ((st' = st /\ seal unit st = Some v /\ active = expected + 1) \/
     (v = value /\ active = expected /\ generation_closed signer archived unit expected seen value st st')).
Proof.
  intros Hw E. unfold roll_transaction in E. tx_run E. apply (inj inr) in E1 as <-.
  exists a. split; [done|]. destruct (sealed_before a expected (seal unit st)) as [s|] eqn:Es.
  - tx_run E. left. unfold sealed_before in Es. destruct (seal unit st) as [s'|]; [|done].
    destruct ((a =? expected + 1) && _) eqn:Hb; [|done]. apply (inj Some) in Es as ->. subst v. bool_split. done.
  - right. by apply close_generation_ok.
Qed.

(** ** Nothing is lost *)

(** The owner has given up a forfeited ticket that holds no asset. *)
Record relinquished (r : EncounterLedgerRow) (st : Store) : Prop := {
  rl_phase : phase r = forfeited;
  rl_retention : retentionReleased r = true /\ evidenceHold r = false /\ hasHold st (row_id r) = false;
  rl_assets : receipt r = None /\ archiveCustody r = None /\ admittedAssets r = [] /\ is_member (row_id r) st = false;
  rl_owner : recoveryReleased r = true;
}.
Lemma forgets_relinquished r st : forgets r st = true -> relinquished r st.
Proof.
  unfold forgets, encounter_recovery_forget_allowed, encounter_recovery_release_allowed, noAssets. intros Hf.
  destruct (recoveryReleased r) eqn:Hr; [|by rewrite andb_false_r in Hf]. cbn [negb orb] in Hf. bool_split.
  unfold phase_eqb in *.
  repeat match goal with
  | X : bool_decide _ = true |- _ => apply bool_decide_eq_true in X
  | X : bool_decide _ = false |- _ => apply bool_decide_eq_false in X
  | X : ~ is_Some _ |- _ => rewrite <- eq_None_not_Some in X
  end.
  by split.
Qed.

Lemma closed_lookup unit st w id : ledger_ok (ledger st) -> closed_ledger unit st w ->
  lookup_id id w = match encounter_tickets (ledger st) !! id with
                   | Some e => if decide (row_unit (data e) = unit)
                               then if forgets (data e) st then None else Some (origin_of (data e))
                               else Some (data e)
                   | None => lookup_id id (ledger st)
                   end.
Proof.
  intros Hw Hcl. unfold lookup_id. rewrite (cl_tickets _ _ _ Hcl).
  pose proof (cl_origins _ _ _ Hcl id) as Ho.
  destruct (encounter_tickets (ledger st) !! id) as [e|] eqn:E; [case_decide as Hu; [|done]|].
  - destruct (forgets (data e) st) eqn:Hf.
    + destruct (encounter_origins w !! id) as [e'|] eqn:Eo; [|done]. exfalso.
      destruct (proj1 (Ho e') eq_refl) as [(e1 & He1 & _ & Hf1 & _)|Ho1]; [congruence|].
      by apply (ids_apart _ Hw id e e').
    + rewrite (proj2 (Ho (origin_entry e))); [done|]. left. by exists e.
  - f_equal. apply option_eq. intros e'. rewrite Ho. naive_solver congruence.
Qed.
Lemma closed_ledger_ok unit st w : ledger_ok (ledger st) -> closed_ledger unit st w -> ledger_ok w.
Proof.
  intros Hw Hcl. pose proof Hw as [Ht Ho Hi Hs]. pose proof (cl_origins _ _ _ Hcl) as Ho'.
  assert (Ht' : forall id e, encounter_tickets w !! id = Some e ->
            encounter_tickets (ledger st) !! id = Some e /\ row_unit (data e) <> unit).
  { intros id e. rewrite (cl_tickets _ _ _ Hcl). destruct (encounter_tickets (ledger st) !! id); [|done].
    case_decide; [done|]. by intros [= <-]. }
  split.
  - split; [intros id e [He _]%Ht'; by apply Ht|].
    intros id id' e e' [He _]%Ht' [He' _]%Ht'. by apply (starts_unique _ Ht).
  - split.
    + intros id e' [(e & He & _ & _ & ->)|He]%Ho'; [|by apply Ho]. by apply (columns_agree _ Ht) in He.
    + intros id id' e1 e2 [(e & He & _ & _ & ->)|He]%Ho' [(e' & He' & _ & _ & ->)|He']%Ho' Hk;
        cbn [origin_entry start_key] in Hk.
      * by apply (starts_unique _ Ht id id' e e').
      * by destruct (Hs id id' e e2).
      * by destruct (Hs id' id e' e1).
      * by apply (starts_unique _ Ho id id' e1 e2).
  - intros id e e' [He Hn]%Ht' [(e1 & He1 & Hu & _)|He1]%Ho'; [congruence|]. by apply (Hi id e e').
  - intros id id' e e' [He Hn]%Ht' [(e1 & He1 & Hu & _ & ->)|He1]%Ho' Hk; cbn [origin_entry start_key] in Hk.
    + assert (id = id') as <- by (by apply (starts_unique _ Ht id id' e e1)). congruence.
    + by apply (Hs id id' e e').
Qed.

(** The rows of the transaction are closed. *)
Lemma closed_rows signer unit expected fresh st id e :
  rows unit st = inr fresh -> closed signer unit expected fresh st = true ->
  encounter_tickets (ledger st) !! id = Some e -> row_unit (data e) = unit ->
  closes (data e) /\ evidenceHold (data e) = false /\ hasHold st (row_id (data e)) = false /\
  row_generation (data e) = expected /\ authorityKey (ticket (data e)) = as_publicKey signer.
Proof.
  intros [-> _]%rows_all Hc He Hu. unfold closed in Hc. apply andb_true_iff in Hc as [_ Hc].
  rewrite forallb_forall in Hc. specialize (Hc (data e)).
  assert (Hin : In (data e) (map (fun ke => data (snd ke)) (unit_entries unit (encounter_tickets (ledger st))))).
  { apply in_map_iff. exists (id, e). split; [done|]. apply list_elem_of_In. by apply elem_of_unit_entries. }
  apply Hc in Hin. unfold terminal, phase_eqb in Hin. bool_split.
  match goal with X : _ || _ = true |- _ => rename X into Hterm end.
  match goal with X : str_eqb (authorityKey _) _ = true |- _ => apply str_eqb_eq in X end.
  split_and!; try done. split; [done|].
  apply orb_true_iff in Hterm as [[Hp%bool_decide_eq_true Hr%bool_decide_eq_true]%andb_true_iff|
    [Hp%bool_decide_eq_true Hr%bool_decide_eq_true]%andb_true_iff]; [left|right]; done.
Qed.

(** Closing a generation loses no evidence: in the ledger after the
    transaction, a row of another unit and an origin of an earlier generation is
    unchanged; a row of the closed generation is an origin with the same ticket,
    commitment, receipt, termination and admitted assets, and was terminal,
    released and unheld; the only rows that are gone are forfeited tickets
    without receipt, custody, assets or inventory entry that their owner has
    given up; and no row appears. *)
Theorem closing_keeps_evidence signer archived unit expected seen value st st' s :
  ledger_ok (ledger st) ->
  roll_transaction signer archived unit expected seen value st = (st', inr s) ->
  ledger_ok (ledger st') /\
  (forall id r, lookup_id id (ledger st) = Some r ->
     lookup_id id (ledger st') = Some r \/
     (row_unit r = unit /\ closes r /\ evidenceHold r = false /\ hasHold st (row_id r) = false /\
      (lookup_id id (ledger st') = Some (origin_of r) \/
       (lookup_id id (ledger st') = None /\ relinquished r st)))) /\
  (forall id r', lookup_id id (ledger st') = Some r' ->
     exists r, lookup_id id (ledger st) = Some r /\ (r' = r \/ r' = origin_of r)).
Proof.
  intros Hw E. destruct (roll_transaction_ok _ _ _ _ _ _ _ _ _ Hw E) as (active & _ & [(-> & _ & _)|(_ & _ & Hgc)]).
  - split; [done|]. split; [eauto|]. intros id r'. eauto.
  - destruct Hgc as [(fresh & Hrows & Hclosed & _) _ (st1 & w & _ & Hcl & ->)].
    cbn [set_generation delete_admissions set_admissions set_ledger ledger].
    pose proof (fun id => closed_lookup unit st w id Hw Hcl) as Hl.
    split; [by apply (closed_ledger_ok unit st)|]. split.
    + intros id r Hr. rewrite Hl. unfold lookup_id in Hr. destruct (encounter_tickets (ledger st) !! id) as [e|] eqn:He.
      * injection Hr as <-. case_decide as Hu; [|by left]. right.
        destruct (closed_rows signer unit expected fresh st id e Hrows Hclosed He Hu) as (Hc & Hh & Hn & _).
        split_and!; [done..|]. destruct (forgets (data e) st) eqn:Hf; [right|by left].
        split; [done|by apply forgets_relinquished].
      * left. unfold lookup_id. by rewrite He.
    + intros id r'. rewrite Hl. unfold lookup_id. destruct (encounter_tickets (ledger st) !! id) as [e|] eqn:He; [|eauto].
      case_decide; [case_match; [done|]|]; intros [= <-]; exists (data e); eauto.
Qed.

(** ** The fences *)

Section Fences.
Context `{JsHost} (signer : AsyncAuditSigner) (backend : AuditCryptoBackend) (archived : bool).

Definition gen (unit : jsstr) (st : Store) : Z :=
  match encounter_generations st !! unit with Some row => gr_generation row | None => 0 end.

Definition hashed_text (digest : jsstr) : Prop := exists text, hash backend text = inr digest.
(** The seal of the generation before [g]. *)
Record seal_ok (unit : jsstr) (g : Z) (s : EncounterGenerationSeal) : Prop := {
  so_version : gs_version (seal_statement s) = 1;
  so_key : gs_authorityKey (seal_statement s) = as_publicKey signer;
  so_unit : gs_unit (seal_statement s) = unit;
  so_next : nextGeneration (seal_statement s) = g;
  so_generation : gs_generation (seal_statement s) + 1 = g;
  so_time : isTime (gs_generation (seal_statement s)) = true;
  so_next_time : isTime g = true;
  so_first : gs_generation (seal_statement s) = 0 <-> previousSealId (seal_statement s) = None;
  so_previous : forall d, previousSealId (seal_statement s) = Some d -> hashed_text d;
  so_origins : hashed_text (originsDigest (seal_statement s));
  so_counts : 0 <= receiptCount (seal_statement s) <= ticketCount (seal_statement s) /\
    ticketCount (seal_statement s) <= 1024;
  so_closed : isTime (gs_closedAt (seal_statement s)) = true;
  so_id : hash backend (generationSealFrame (seal_statement s)) = inr (sealId s);
  so_signed : as_signDigest signer (sealId s) = inr (seal_signature s);
}.

(** The generation, its floor and the archive's floor agree, and the last seal
    is there; a unit that was never closed has no origins. *)
Definition fence (unit : jsstr) (st : Store) : Prop :=
  match encounter_generations st !! unit with
  | Some row =>
      generation_floors st !! unit = Some (gr_generation row) /\ isTime (gr_generation row) = true /\
      (archived = true -> floor unit st = gr_generation row) /\
      match gr_seal row with
      | Some s => seal_ok unit (gr_generation row) s
      | None => gr_generation row = 0
      end
  | None =>
      default 0 (generation_floors st !! unit) = 0 /\ (archived = true -> floor unit st = 0) /\
      has_origin unit st = false
  end.
Definition gens_ok (st : Store) : Prop := forall unit, fence unit st.

(** Generations only advance, and each seal names the one before it. *)
Record gens_grow (st st' : Store) : Prop := {
  gg_monotone : forall unit, gen unit st <= gen unit st';
  gg_same : forall unit, gen unit st' = gen unit st ->
    seal unit st' = seal unit st;
  gg_chain : forall unit, gen unit st' = gen unit st + 1 ->
    exists s, seal unit st' = Some s /\ gs_generation (seal_statement s) = gen unit st /\
      previousSealId (seal_statement s) = (sealId <$> seal unit st);
}.
#[export] Instance gens_grow_preorder : PreOrder gens_grow.
Proof.
  split.
  - intros st. split; [done|done|]. intros unit E. lia.
  - intros st1 st2 st3 [M12 S12 C12] [M23 S23 C23]. split.
    + intros unit. etrans; [apply M12|apply M23].
    + intros unit E. pose proof (M12 unit). pose proof (M23 unit). rewrite S23 by lia. apply S12. lia.
    + intros unit E. pose proof (M12 unit) as H1. pose proof (M23 unit) as H2.
      destruct (Z.eq_dec (gen unit st2) (gen unit st1)) as [E1|E1].
      * rewrite <- (S12 unit E1), <- E1. apply C23. lia.
      * destruct (C12 unit) as (s & Hs & Hg & Hp); [lia|]. exists s. split; [|done].
        rewrite S23; [done|lia].
Qed.

Lemma fence_current unit st : fence unit st -> current signer archived unit st = inr (gen unit st).
Proof.
  unfold fence, current, gen, throw_if. destruct (encounter_generations st !! unit) as [row|].
  - intros (Hf & Ht & Ha & Hs). rewrite Hf. cbn [default from_option id]. rewrite Ht, Z.eqb_refl. cbn [negb].
    assert (Hmin : (if archived then let! m := minimumGeneration unit st in
        if negb (m =? gr_generation row) then inl (js "archive generation fence changed") else inr I else inr I)
        = inr I :> throws True).
    { destruct archived; [|done]. specialize (Ha eq_refl). unfold minimumGeneration, floor, throw_if in *.
      destruct (archive_generations st !! unit) as [m|]; cbn [default from_option id] in Ha.
      - rewrite Ha, Ht. cbn [negb throw_bind]. by rewrite Z.eqb_refl.
      - cbn [throw_bind]. by rewrite <- Ha. }
    rewrite Hmin. cbn [throw_bind]. destruct (gr_seal row) as [s|].
    + by rewrite (so_next _ _ _ Hs), (so_unit _ _ _ Hs), (so_key _ _ _ Hs), Z.eqb_refl, !str_eqb_refl.
    + by rewrite Hs.
  - intros (Hf & Ha & Ho). rewrite Hf. cbn [negb Z.ltb Z.compare]. change (isTime 0) with true. cbn [negb].
    assert (Hmin : archive_minimum archived unit st = inr 0).
    { unfold archive_minimum. destruct archived; [|done]. specialize (Ha eq_refl).
      unfold minimumGeneration, floor, throw_if in *.
      destruct (archive_generations st !! unit) as [m|]; cbn [default from_option id] in Ha; [by subst|done]. }
    rewrite Hmin, Ho. done.
Qed.
End Fences.

(** ** Seals verify *)

Lemma read_seal_value s : read_seal (seal_value s) = Some s.
Proof.
  destruct s as [[v k u g n p o t r c] id sg]. unfold read_seal, seal_value. fields.
  unfold get_str, get_num. fields. cbn [mbind option_bind as_string]. by destruct p.
Qed.

Lemma seal_fits s :
  let w := seal_statement s in
  gs_version w = 1 -> Forall (fun d => isDigestText d = true) [gs_authorityKey w; originsDigest w; sealId s] ->
  identifier (gs_unit w) = true ->
  (match previousSealId w with Some d => isDigestText d | None => true end) = true ->
  Forall (fun z => isTime z = true) [gs_generation w; nextGeneration w; ticketCount w; receiptCount w; gs_closedAt w] ->
  signature (seal_signature s) = true -> byteLength (stringify (seal_value s)) <= 2048.
Proof.
  destruct s as [[v k u g n p o t r c] id sg].
  cbn [seal_statement gs_version gs_authorityKey gs_unit gs_generation nextGeneration previousSealId originsDigest
       ticketCount receiptCount gs_closedAt sealId seal_signature].
  intros -> Hd Hu Hp Ht Hs. rewrite !Forall_cons in Hd. rewrite !Forall_cons in Ht. destruct Hd as (D1 & D2 & D3 & _).
  destruct Ht as (T1 & T2 & T3 & T4 & T5 & _). apply optional_bytes in Hp.
  etrans; [apply byteLength_bound|].
  fold (value_bytes (seal_value (mkSeal (mkSealStatement 1 k u g n p o t r c) id sg))). sizes.
  assert (value_bytes (JNum 1) = 1) by done.
  set (statement := [("version", JNum 1); ("authorityKey", JStr k); ("unit", JStr u); ("generation", JNum g);
    ("nextGeneration", JNum n); ("previousSealId", optional_string p); ("originsDigest", JStr o); ("ticketCount", JNum t);
    ("receiptCount", JNum r); ("closedAt", JNum c)]%string).
  assert (value_bytes (obj statement) <= 1500) by (fits; unfold statement; fits_more; lia).
  change (seal_value _) with (obj [("statement", obj statement); ("sealId", JStr id); ("signature", JStr sg)]%string).
  fits. fits_more. lia.
Qed.

Lemma seal_verifies `{JsHost} subtle `{SubtleLaws subtle} signer unit g s :
  let backend := createStandardWebCryptoBackend subtle in
  isDigestText (as_publicKey signer) = true -> identifier unit = true ->
  cb_verify backend (as_publicKey signer) (sealId s) (seal_signature s) = inr true ->
  seal_ok signer backend unit g s ->
  verifyGenerationSeal backend (seal_value s) (as_publicKey signer) = true.
Proof.
  intros backend Hk Hu Hv Hok. unfold verifyGenerationSeal. rewrite read_seal_value.
  assert (Hd : forall d, hashed_text backend d -> isDigestText d = true) by (intros d [t Ht]; exact (hashString_digest _ _ Ht)).
  pose proof (Hd _ (so_origins _ _ _ _ _ Hok)) as Ho.
  assert (Hid : isDigestText (sealId s) = true) by (apply Hd; eexists; apply Hok).
  pose proof (verified_signature_shape _ _ _ _ Hv : signature (seal_signature s) = true) as Hsg.
  assert (Hprev : (match previousSealId (seal_statement s) with Some d => isDigestText d | None => true end) = true).
  { destruct (previousSealId (seal_statement s)) as [d|] eqn:E; [|done]. by apply Hd, (so_previous _ _ _ _ _ Hok). }
  pose proof (so_counts _ _ _ _ _ Hok) as [Hc1 Hc2].
  assert (Htc : isTime (ticketCount (seal_statement s)) = true /\ isTime (receiptCount (seal_statement s)) = true)
    by (unfold isTime, isSafeInteger, MAX_SAFE_INTEGER; lia).
  destruct Htc as [Htc Hrc].
  pose proof (so_next_time _ _ _ _ _ Hok) as Hnt. rewrite <- (so_next _ _ _ _ _ Hok) in Hnt.
  assert (Hfit : byteLength (stringify (seal_value s)) <= 2048).
  { apply seal_fits; [apply Hok| |by rewrite (so_unit _ _ _ _ _ Hok)|done| |done].
    - rewrite (so_key _ _ _ _ _ Hok). by repeat constructor.
    - repeat constructor; try done; [apply (so_time _ _ _ _ _ Hok)|apply (so_closed _ _ _ _ _ Hok)]. }
  assert (Hvalid : validGenerationSeal (seal_value s) (as_publicKey signer) = true).
  { unfold validGenerationSeal. rewrite (proj2 (Z.leb_le _ _) Hfit). clear Hfit. pose proof (so_first _ _ _ _ _ Hok) as Hf.
    pose proof (so_time _ _ _ _ _ Hok) as Ht. pose proof (so_closed _ _ _ _ _ Hok) as Hct.
    pose proof (so_version _ _ _ _ _ Hok) as Ev. pose proof (so_key _ _ _ _ _ Hok) as Ek. pose proof (so_unit _ _ _ _ _ Hok) as Eu.
    pose proof (so_next _ _ _ _ _ Hok) as En. pose proof (so_generation _ _ _ _ _ Hok) as Eg. clear Hok Hd Hv.
    destruct s as [[v k u gg n p o t r c] id sg].
    cbn [seal_statement gs_version gs_authorityKey gs_unit gs_generation nextGeneration previousSealId originsDigest
       ticketCount receiptCount gs_closedAt sealId seal_signature] in *. subst v k u n.
    unfold seal_value, seal_numbers_ok.
    cbn [seal_statement gs_version gs_authorityKey gs_unit gs_generation nextGeneration previousSealId originsDigest
       ticketCount receiptCount gs_closedAt sealId seal_signature].
    fields. fields. cbn [on_string is_num val_time is_null].
    rewrite Hid, Hsg, Hk, Hu, Ho, Hct, Ht, Hnt, Htc, Hrc, str_eqb_refl.
    rewrite (proj2 (Z.eqb_eq g (gg + 1))), (proj2 (Z.leb_le t 1024)), (proj2 (Z.leb_le r t)) by lia.
    assert (Hn : (is_null (optional_string p) || on_string isDigestText (optional_string p)) = true) by (by destruct p).
    assert (Hz : (gg =? 0) = is_null (optional_string p)).
    { destruct p as [d|]; cbn [optional_string is_null]; [|by apply Z.eqb_eq, Hf].
      apply Z.eqb_neq. intros Hg. by apply Hf in Hg. }
    rewrite Hn, Hz, Bool.eqb_reflx. generalize (optional_string p). intros q. reflexivity. }
  rewrite Hvalid, (so_id _ _ _ _ _ Hok). cbn [negb throw_bind]. rewrite str_eqb_refl. cbn [negb]. by rewrite Hv.
Qed.
