(* ===== verification/ServiceSafety.v ===== *)
(** * The encounter service as a whole

    The authority, the archive and the generations over one database: any
    number of their calls, in any order and with any interleaving at their
    awaits, keep the invariants of all three. *)
From stdpp Require Import gmap.
From S2P Require Import Prelude Json Contracts Kernel Journal Snapshot Utf8 CryptoBackend EncounterWire EncounterHttp.
From S2P Require Import EncounterBundle InventoryCheckpoint InventoryRanges Async EncounterLedger EncounterStore ArchiveStore.
From S2P Require Import OwnerAuth OwnerFacts EncounterWireFacts EncounterHttpFacts EncounterRequestBounds.
From S2P Require Import ArchiveFacts Generations EncounterAuthority EncounterInvariant AuthorityFacts EncounterSafety.
From S2P Require Import ArchiveSafety GenerationFacts.
Set Default Goal Selector "!".

(** ** The authority adds no origin *)

Definition same_origins (w w' : World) : Prop :=
  forall id, is_Some (encounter_origins w' !! id) -> is_Some (encounter_origins w !! id).
#[export] Instance same_origins_preorder : PreOrder same_origins.
Proof. split; [by intros w id|]. intros w1 w2 w3 H12 H23 id Hid. by apply H12, H23. Qed.

Abbreviation frames := (within same_origins).

Lemma frames_replace r : frames (replace_next r).
Proof.
  unfold replace_next, replace. apply within_refuse; [exact _|]. intros w.
  destruct (replace_row _ _ w) as [w' b] eqn:E. split; [|done]. cbn [fst].
  unfold replace_row in E. destruct (update _ _ (encounter_tickets w)); [injection E as <- _; by intros id|].
  unfold update in E. destruct (encounter_origins w !! _) as [e|] eqn:Eo; [|injection E as <- _; by intros id].
  destruct (str_eqb _ _ && _); injection E as <- _; intros id; [|done].
  cbn [with_origins encounter_origins]. rewrite lookup_insert_is_Some. intros [<-|[_ ?]]; [eauto|done].
Qed.
Lemma frames_insert r : frames (insert r).
Proof.
  intros w. unfold insert. destruct (insert_row r w) as [w' b] eqn:E. split; [|done]. cbn [fst].
  unfold insert_row in E. destruct (_ || _); injection E as <- _; by intros id.
Qed.
Lemma frames_host {A} (f : World -> throws A) (g : World -> World) :
  (forall w, encounter_origins (g w) = encounter_origins w) -> frames (fun w => (g w, Finished (f w))).
Proof. intros Hg w. split; [|done]. intros id. cbn. by rewrite Hg. Qed.

Create HintDb frames.
#[export] Hint Resolve frames_replace frames_insert : frames.
Ltac frames_step :=
  match goal with
  | |- within _ (abind _ _) => apply within_bind; [exact _| |intros ?]
  | |- within _ (refuse_if _ _ _) => apply within_refuse; [exact _|]
  | |- within _ (retrying _ _ _) => apply within_retrying; [exact _|]
  | |- within _ (aret _) => apply within_ret; exact _
  | |- within _ (athrow _) => apply within_throw; exact _
  | |- within _ (of_throws _) => apply within_throws; exact _
  | |- within _ (await _) => apply within_await; exact _
  | |- within _ (read_store _) => apply within_read; exact _
  | |- within _ (asserted _) => apply within_asserted; exact _
  | |- within _ (match ?x with _ => _ end) => destruct x
  | |- within _ (fun w => (_, Finished _)) => apply frames_host; done
  | |- _ => solve [auto with frames]
  end.
Ltac frames := repeat (frames_step; cbv zeta beta).

Section Frames.
Context `{JsHost} (options : EncounterAuthorityOptions).

Lemma frames_row id : frames (row options id).
Proof. unfold row, byId. frames. Qed.
Lemma frames_time : frames time.
Proof. unfold time, host_now. frames. Qed.
Hint Resolve frames_row frames_time : frames.
Lemma frames_retire id : frames (retireSettled options id).
Proof. unfold retireSettled, held. frames. Qed.
Hint Resolve frames_retire : frames.
Lemma frames_issue n a : frames (issue options n a).
Proof.
  induction n as [|n IH]; cbn [issue]; frames; unfold generationOf, byStart, randomUUID, getRandomValues, hashed, signed; frames.
Qed.
Lemma frames_serve req : frames (serve options req).
Proof.
  destruct req; unfold serve, answer; (apply within_bind; [exact _| |intros ?; apply within_ret; exact _]);
    [apply frames_issue|unfold commit|unfold revealTicket|unfold settle|unfold admitToMarket|unfold setEvidenceHold
    |unfold fenceEvidenceCase|unfold status|unfold forfeit|unfold terminate|unfold closureGrant|unfold pruneGrant
    |unfold acceptArchive|unfold archiveHandoff|unfold archiveRelease];
    unfold hashed, signed, held; frames.
Qed.
End Frames.

(** ** Calls of the host *)

(** The host is only ever called again. *)
Definition later_calls (st st' : Store) : Prop := (calls (ledger st) <= calls (ledger st'))%nat.
#[export] Instance later_calls_preorder : PreOrder later_calls.
Proof. split; [intros st; unfold later_calls; lia|]. intros st1 st2 st3. unfold later_calls. lia. Qed.
Lemma write_later (f : Store -> Store) :
  (forall st, calls (ledger (f st)) = calls (ledger st)) -> tx_within later_calls (twrite f).
Proof. intros Hf st. unfold later_calls. cbn. by rewrite Hf. Qed.
Ltac later := repeat first [tx_step_within | apply write_later; done].
Lemma roll_later signer archived unit expected seen value :
  tx_within later_calls (roll_transaction signer archived unit expected seen value).
Proof.
  unfold roll_transaction, close_generation, retireGenerationInTransaction, retire_row, delete_ticket. later.
  intros st. unfold insert_origin, later_calls. case_match; cbn; lia.
Qed.

(** ** The archive's code changes the archive *)

Section ArchiveFrame.
Definition archive_only (st st' : Store) : Prop :=
  exists o b n, (calls (ledger st) <= n)%nat /\
    st' = set_archive o b (archive_generations st) (set_ledger (with_calls n (ledger st)) st).
#[export] Instance archive_only_preorder : PreOrder archive_only.
Proof.
  split.
  - intros st. exists (archive_objects st), (archive_budget st), (calls (ledger st)). split; [done|]. by destruct st as [[]].
  - intros st1 st2 st3 (o & b & n & Hn & ->) (o' & b' & n' & Hn' & ->). exists o', b', n'. cbn in Hn'. split; [lia|done].
Qed.

Abbreviation tx_archive := (tx_within archive_only).
Lemma tx_within_write o b :
  tx_archive (twrite (fun st => set_archive (o st) (b st) (archive_generations st) st)).
Proof.
  intros st. exists (o st), (b st), (calls (ledger st)). split; [done|]. cbn. by destruct st as [[]].
Qed.
Lemma tx_within_transaction {A} (body : tx A) : tx_archive body -> within archive_only (transaction body).
Proof.
  intros Hb st. specialize (Hb st). unfold transaction. destruct (body st) as [st' [e|a]]; cbn [fst snd] in *; [|done].
  destruct Hb as (o & b & n & Hn & ->). split; [|done].
  exists (archive_objects st), (archive_budget st), n. split; [done|]. by destruct st as [[]].
Qed.
Lemma tx_within_now : tx_archive tnow.
Proof.
  intros st. exists (archive_objects st), (archive_budget st), (S (calls (ledger st))). split; [lia|]. by destruct st as [[]].
Qed.

Ltac archive_step :=
  match goal with
  | |- tx_within _ tnow => apply tx_within_now
  | |- tx_within _ (twrite _) => apply (tx_within_write (fun st => _) (fun st => _))
  | |- tx_within _ _ => tx_step_within
  | |- within _ (transaction _) => apply tx_within_transaction
  | |- within _ (sync _) => apply tx_within_sync
  | |- within _ _ => frames_step
  end.

Context `{JsHost} (options : EncounterArchiveOptions).
Lemma archive_serve_within req : within archive_only (archive_serve options req).
Proof.
  destruct req as [b Hb|r]; unfold archive_serve, store, release, insertObject, releaseObject, write_fault;
    repeat (archive_step; cbv zeta beta).
Qed.
End ArchiveFrame.

(** ** The service *)

Section Service.
Context `{JsHost} (options : EncounterAuthorityOptions) (archive : EncounterArchiveOptions).
Abbreviation backend := (cryptoBackend options).
Abbreviation now_current := (current (signer options) true).

Record service_ok (st : Store) : Prop := {
  sv_authority : authority_ok options (ledger st);
  sv_unclaimed : unclaimed (ledger st);
  sv_archive : archive_ok archive st;
  sv_generations : gens_ok (signer options) backend true st;
}.
Record service_grows (st st' : Store) : Prop := {
  se_ledger : evolves (ledger st) (ledger st');
  se_archive : archive_evolves archive st st';
  se_generations : gens_grow st st';
}.
#[export] Instance service_grows_preorder : PreOrder service_grows.
Proof.
  split; [intros st; split; reflexivity|]. intros st1 st2 st3 [] []. by split; etrans.
Qed.

(** Nothing of the current generation of [unit] is open: every ticket of the
    unit is of that generation, is settled with its receipt or forfeited with
    its termination, is released from retention and is not held as evidence,
    and no archive object of the unit up to that generation has a bundle left. *)
Record nothing_open (unit : jsstr) (st : Store) : Prop := {
  no_ticket_open : forall id e, encounter_tickets (ledger st) !! id = Some e -> row_unit (data e) = unit ->
    row_generation (data e) = gen unit st /\ retentionReleased (data e) = true /\
    ((phase (data e) = settled /\ is_Some (receipt (data e))) \/
     (phase (data e) = forfeited /\ is_Some (termination (data e)))) /\
    evidenceHold (data e) = false /\ hasHold st (row_id (data e)) = false;
  no_bundle_kept : forall id x, archive_objects st !! id = Some x ->
    cs_unit (custody_statement (ao_custody x)) = unit -> ao_generation x <= gen unit st -> ao_bundle x = None;
}.
(** Each generation that is closed between two states was closed at a moment in
    between at which nothing in it was open. *)
Definition closings (st st' : Store) : Prop :=
  forall unit n, gen unit st <= n < gen unit st' ->
    exists sm, service_ok sm /\ gen unit sm = n /\ nothing_open unit sm /\
      service_grows st sm /\ service_grows sm st'.
Record service_evolves (st st' : Store) : Prop := {
  se_grows : service_grows st st';
  se_closings : closings st st';
}.
#[export] Instance service_evolves_preorder : PreOrder service_evolves.
Proof.
  split; [intros st; split; [done|intros unit n Hn; lia]|]. intros st1 st2 st3 [G12 C12] [G23 C23]. split; [by etrans|].
  intros unit n Hn. destruct (decide (n < gen unit st2)).
  - destruct (C12 unit n) as (sm & ? & ? & ? & ? & ?); [lia|]. exists sm. split_and!; [done..|by etrans].
  - destruct (C23 unit n) as (sm & ? & ? & ? & ? & ?); [lia|]. exists sm. split_and!; [done..|by etrans|done].
Qed.
(** A step that closes nothing. *)
Lemma quiet_closings st st' : encounter_generations st' = encounter_generations st -> closings st st'.
Proof. intros E unit n Hn. unfold gen in Hn. rewrite E in Hn. lia. Qed.
Lemma quiet_evolves st st' : service_grows st st' -> encounter_generations st' = encounter_generations st ->
  service_evolves st st'.
Proof. intros Hg E. split; [done|]. by apply quiet_closings. Qed.

(** Only the ledger changes, and no origin is added. *)
Lemma ledger_step st w :
  service_ok st -> authority_ok options w -> evolves (ledger st) w -> same_origins (ledger st) w ->
  service_ok (set_ledger w st) /\ service_evolves st (set_ledger w st).
Proof.
  intros [Ha Hu Hr Hg] Hw Hev Hso.
  destruct (same_archive_ok archive st (set_ledger w st) ltac:(done) Hr) as [Hr' Hre].
  split; [split; [done|by apply (unclaimed_kept _ _ Hev)|done|]|].
  - intros unit. specialize (Hg unit). unfold fence in *. cbn [set_ledger encounter_generations].
    destruct (encounter_generations st !! unit); [exact Hg|]. destruct Hg as (Hf & Hfl & Ho). split_and!; [done..|].
    apply not_true_is_false. intros Ht. apply not_true_iff_false in Ho. apply Ho. clear Ho.
    unfold has_origin in *. apply existsb_exists in Ht as ([id e'] & Hin & Eu).
    apply list_elem_of_In, elem_of_map_to_list in Hin. cbn [set_ledger ledger snd] in *.
    destruct (Hso id) as [e He]; [eauto|]. apply existsb_exists. exists (id, e). split.
    + by apply list_elem_of_In, elem_of_map_to_list.
    + apply str_eqb_eq in Eu. apply str_eqb_eq. rewrite <- Eu.
      assert (Hl : lookup_id id (ledger st) = Some (data e)).
      { unfold lookup_id. destruct (encounter_tickets (ledger st) !! id) eqn:Et; [|by rewrite He].
        by destruct (ids_apart _ (proj1 Ha) id _ _ Et He). }
      assert (Hl' : lookup_id id w = Some (data e')).
      { unfold lookup_id. destruct (encounter_tickets w !! id) eqn:Et; [|by rewrite Hin].
        by destruct (ids_apart _ (proj1 Hw) id _ _ Et Hin). }
      pose proof (row_later _ _ _ _ _ Hev Hl Hl') as E. unfold row_unit. by rewrite (ev_ticket _ _ E).
  - apply quiet_evolves; [|done]. split; [done|done|]. split; [done|done|]. intros unit E. change (gen unit (set_ledger w st)) with (gen unit st) in E. lia.
Qed.

(** What the authority sees is the ledger. *)
Lemma view_quiet st : quiet_turn (ledger st) (view now_current st) /\ quiet_turn (view now_current st) (ledger st).
Proof. unfold quiet_turn, view. cbn. split; split_and!; done || lia. Qed.

Lemma lift_settles {A} (s : step World A) st (Q : throws A -> World -> Prop) :
  settles (authority_ok options) evolves s (ledger st) Q -> step_within same_origins s ->
  settles service_ok service_evolves (lift_step now_current s) st (fun r st' => Q r (ledger st')).
Proof.
  revert st. induction s as [r|k IH] using step_ind'; intros st Hs Hw; cbn [settles lift_step step_within] in *; [done|].
  intros st' Hok Hev. destruct (view_quiet st') as [Qv Qb].
  destruct (quiet_turn_ok options _ _ (sv_authority _ Hok) Qv) as [Hv Ev].
  destruct (Hs (view now_current st') Hv) as (Hi & Hr & Hk); [etrans; [apply Hev|done]|].
  destruct (Hw (view now_current st')) as [Hso Hwk].
  specialize (IH (view now_current st')).
  destruct (k (view now_current st')) as [w2 s2]. cbn [fst snd] in *.
  destruct (ledger_step st' w2 Hok Hi) as [Hok2 Hev2]; [by etrans|exact Hso|].
  split_and!; [done..|]. by apply IH.
Qed.
Lemma lift_spec {A} (m : async World A) st (Q : throws A -> World -> Prop) :
  service_ok st -> (forall w, authority_ok options w -> spec (authority_ok options) evolves m w Q) ->
  within same_origins m ->
  spec service_ok service_evolves (on_ledger now_current m) st (fun r st' => Q r (ledger st')).
Proof.
  intros Hok Hm Hw. destruct (view_quiet st) as [Qv Qb].
  destruct (quiet_turn_ok options _ _ (sv_authority _ Hok) Qv) as [Hv Ev].
  destruct (Hm _ Hv) as (Hi & Hr & Hs). destruct (Hw (view now_current st)) as [Hso Hwk].
  unfold spec, on_ledger. destruct (m (view now_current st)) as [w2 s2]. cbn [fst snd] in *.
  destruct (ledger_step st w2 Hok Hi) as [Hok2 Hev2]; [by etrans|exact Hso|].
  split_and!; [done..|]. by apply lift_settles.
Qed.

(** *** Storing and releasing *)

Definition beside_archive (st : Store) : Prop :=
  authority_ok options (ledger st) /\ unclaimed (ledger st) /\ gens_ok (signer options) backend true st.
Lemma archive_only_ok st st' : beside_archive st -> archive_only st st' ->
  beside_archive st' /\ (evolves (ledger st) (ledger st') /\ gens_grow st st' /\ closings st st').
Proof.
  intros (Ha & Hu & Hg) (o & b & n & Hn & ->). unfold beside_archive. cbn [set_archive set_ledger ledger].
  destruct (quiet_turn_ok options (ledger st) (with_calls n (ledger st)) Ha) as [Ha' Hev]; [by split_and!|].
  split_and!; [done|by apply (unclaimed_kept _ _ Hev)|exact Hg|done| |by apply quiet_closings].
  split; [done|done|]. intros unit E. unfold gen in E. cbn in E. lia.
Qed.
Lemma service_archive_spec req st : service_ok st ->
  spec service_ok service_evolves (archive_serve archive req) st (on_return (archive_promise archive req)).
Proof.
  intros [Ha Hu Hr Hg].
  eapply (spec_iff (fun st => archive_ok archive st /\ beside_archive st) _
            (fun st st' => archive_evolves archive st st' /\ (evolves (ledger st) (ledger st') /\ gens_grow st st' /\ closings st st'))).
  - intros st'. unfold beside_archive. split; [intros (? & ? & ? & ?); by split|by intros []].
  - intros st' st''. split; [intros (? & ? & ? & ?); split; [by split|done]|by intros [[]]].
  - apply (spec_frame _ _ _ _ archive_only); [apply archive_only_ok|apply archive_serve_within|by split|].
    by apply archive_serve_ok.
Qed.

(** *** Closing a generation *)

Lemma closed_rolls unit st w fresh expected :
  ledger_ok (ledger st) -> unclaimed (ledger st) ->
  rows unit st = inr fresh -> closed (signer options) unit expected fresh st = true ->
  closed_ledger unit st w -> rolls unit (ledger st) w.
Proof.
  intros Hw Hu Hrows Hc Hcl.
  assert (Hkeep : forall id e, encounter_tickets (ledger st) !! id = Some e -> forgets (data e) st = false).
  { intros id e He. apply not_true_is_false. intros [_ _ _ Hr]%forgets_relinquished.
    rewrite (Hu id (data e)) in Hr; [done|]. unfold lookup_id. by rewrite He. }
  split; [| | |by rewrite (cl_calls _ _ _ Hcl)|apply Hcl..].
  - intros id e He Hin. by apply (closed_rows _ _ _ _ _ id e Hrows Hc He).
  - apply map_eq. intros id. rewrite (cl_tickets _ _ _ Hcl). destruct (encounter_tickets (ledger st) !! id) as [e|] eqn:E.
    + case_decide as Hin.
      * symmetry. apply map_lookup_filter_None. right. intros e1 He1 Hn. apply Hn. unfold in_unit. cbn [snd]. congruence.
      * symmetry. apply map_lookup_filter_Some. done.
    + symmetry. apply map_lookup_filter_None. by left.
  - apply map_eq. intros id. apply option_eq. intros e'. rewrite (cl_origins _ _ _ Hcl).
    rewrite lookup_union_Some.
    + rewrite lookup_fmap, fmap_Some. setoid_rewrite map_lookup_filter_Some. unfold in_unit. cbn [snd].
      split; [|naive_solver]. intros [(e & He & Hin & _ & ->)|]; [left; by exists e|by right].
    + apply map_disjoint_spec. intros i x y. rewrite lookup_fmap, fmap_Some.
      intros (e & [He _]%map_lookup_filter_Some & _) Hy. by apply (ids_apart _ Hw i e y).
Qed.

Lemma retired_released unit generation st st' : retireGenerationInTransaction unit generation st = (st', inr I) ->
  forall id x, archive_objects st !! id = Some x -> cs_unit (custody_statement (ao_custody x)) = unit ->
    ao_generation x <= generation -> ao_bundle x = None.
Proof.
  intros E id x Hx Hu Hle. unfold retireGenerationInTransaction in E. tx_run E. clear E1 E2 G0.
  apply negb_false_iff in G as ->. unfold canRetireGeneration in E0. destruct (_ && _); [|done].
  destruct (minimumGeneration unit st); [done|]. apply (inj inr) in E0.
  apply andb_true_iff in E0 as [_ E0%bool_decide_eq_true]. apply (E0 id). apply map_lookup_filter_Some.
  split; [done|]. apply Is_true_true. unfold retires. cbn [snd]. by rewrite Hu, str_eqb_refl, (proj2 (Z.leb_le _ _)).
Qed.
Lemma closed_nothing_open unit expected st st1 fresh : gen unit st = expected ->
  rows unit st = inr fresh -> closed (signer options) unit expected fresh st = true ->
  retireGenerationInTransaction unit expected st = (st1, inr I) -> nothing_open unit st.
Proof.
  intros Hgen Hrows Hc Hret. split; rewrite Hgen.
  - intros id e He Hu. destruct (closed_rows _ _ _ _ _ id e Hrows Hc He Hu) as ([? ?] & ? & ? & ? & _). done.
  - by eapply retired_released.
Qed.

Lemma generation_closed_ok unit expected seen value st st' :
  service_ok st -> isTime expected = true -> gen unit st = expected ->
  seal_ok (signer options) backend unit (expected + 1) value ->
  previousSealId (seal_statement value) = (sealId <$> seal unit st) ->
  generation_closed (signer options) true unit expected seen value st st' ->
  service_ok st' /\ service_evolves st st'.
Proof.
  intros [Ha Hu Hr Hg] Ht Hgen Hseal Hprev [(fresh & Hrows & Hc & _) Hadv (st1 & w & Hret & Hcl & ->)].
  pose proof (closed_rolls unit st w fresh expected (proj1 Ha) Hu Hrows Hc Hcl) as Hro.
  destruct (rolls_ok options unit _ _ Ha Hro) as [Haw Hev].
  destruct (retire_ok archive st st1 unit expected Hr Hret) as (Hr1 & Hre1 & Hfl & Hfl1 & Hother).
  destruct (retire_frame _ _ _ _ _ Hret) as (o & b & f & Est1).
  set (st2 := set_generation unit _ _ _).
  assert (Hsame : same_archive st1 st2) by done.
  destruct (same_archive_ok archive st1 st2 Hsame Hr1) as [Hr2 Hre2].
  assert (Egen : encounter_generations st2 = <[unit := mkGenerationRow (expected + 1) (Some value)]> (encounter_generations st))
    by (subst st2 st1; done).
  assert (Eflo : generation_floors st2 = <[unit := expected + 1]> (generation_floors st)) by (subst st2 st1; done).
  assert (Efl : forall u, floor u st2 = floor u st1) by done.
  assert (Hg2 : forall u, gen u st2 = if decide (u = unit) then expected + 1 else gen u st).
  { intros u. unfold gen at 1. rewrite Egen. case_decide; subst; [by rewrite lookup_insert_eq|by rewrite lookup_insert_ne]. }
  assert (Hgrow : service_grows st st2 -> service_evolves st st2).
  { intros Hgr. split; [done|]. intros u n. rewrite Hg2. case_decide as Heq; [subst u|lia]. intros Hn.
    exists st. split_and!; [by split|lia|by eapply closed_nothing_open|done|done]. }
  split; [split; [done|by apply (unclaimed_kept _ _ Hev)|done|]|apply Hgrow; split; [done|by etrans|]].
  - intros u. unfold fence. rewrite Egen, Eflo. destruct (decide (u = unit)) as [->|Hne].
    + rewrite !lookup_insert_eq. cbn [gr_generation gr_seal]. split_and!; [done| |by rewrite Efl|done].
      unfold isTime, isSafeInteger in *. bool_split. lia.
    + rewrite !lookup_insert_ne by done. specialize (Hg u). unfold fence in Hg. rewrite Efl, Hother by done.
      destruct (encounter_generations st !! u) as [row|]; [done|]. destruct Hg as (Hf & Hf' & Ho). split_and!; [done..|].
      apply not_true_is_false. intros Hx. apply not_true_iff_false in Ho. apply Ho.
      unfold has_origin in *. apply existsb_exists in Hx as ([id e'] & Hin & Eu). apply str_eqb_eq in Eu. cbn [snd] in Eu.
      apply list_elem_of_In, elem_of_map_to_list in Hin. cbn [st2 set_generation delete_admissions set_admissions set_ledger ledger] in Hin.
      apply (cl_origins _ _ _ Hcl) in Hin as [(e & _ & Hue & _ & ->)|Hin].
      { exfalso. apply Hne. rewrite <- Eu. exact Hue. }
      apply existsb_exists. exists (id, e'). split; [by apply list_elem_of_In, elem_of_map_to_list|by apply str_eqb_eq].
  - assert (Hs2 : forall u, seal u st2 = if decide (u = unit) then Some value else seal u st).
    { intros u. unfold seal at 1. rewrite Egen. case_decide; subst; [by rewrite lookup_insert_eq|by rewrite lookup_insert_ne]. }
    split; intros u; rewrite Hg2, ?Hs2; case_decide; subst; try done; try lia.
    intros _. exists value. split; [done|]. split; [|done].
    pose proof (so_generation _ _ _ _ _ Hseal). lia.
Qed.

Lemma fence_first unit st : fence (signer options) backend true unit st ->
  (gen unit st = 0 <-> seal unit st = None) /\
  forall s, seal unit st = Some s -> seal_ok (signer options) backend unit (gen unit st) s.
Proof.
  unfold fence, gen, seal. destruct (encounter_generations st !! unit) as [row|]; cbn [mbind option_bind].
  - intros (_ & _ & _ & Hs). destruct (gr_seal row) as [s|]; [|done]. split; [|by intros s' [= <-]].
    pose proof (so_generation _ _ _ _ _ Hs) as Hg. pose proof (so_time _ _ _ _ _ Hs) as Ht.
    unfold isTime in Ht. bool_split. split; [lia|done].
  - intros _. done.
Qed.

Lemma new_seal_ok unit expected previous digest seen closedAt id signature text :
  isTime expected = true -> isTime (expected + 1) = true -> (expected = 0 <-> previous = None) ->
  (forall s, previous = Some s -> hashed_text backend (sealId s)) ->
  hash backend text = inr digest -> (length seen <= 1024)%nat -> isTime closedAt = true ->
  hash backend (generationSealFrame (sealStatement (signer options) unit expected previous digest seen closedAt)) = inr id ->
  as_signDigest (signer options) id = inr signature ->
  seal_ok (signer options) backend unit (expected + 1)
    (mkSeal (sealStatement (signer options) unit expected previous digest seen closedAt) id signature).
Proof.
  intros Ht Htn Hf Hp Hd Hl Hc Hid Hs. split; cbn [seal_statement sealStatement gs_version gs_authorityKey gs_unit
    nextGeneration gs_generation previousSealId originsDigest receiptCount ticketCount gs_closedAt sealId seal_signature]; try done.
  - rewrite Hf. by destruct previous.
  - intros d. destruct previous as [s|]; [|done]. intros [= <-]. by apply Hp.
  - by exists text.
  - pose proof (filter_length_le (fun r => bool_decide (is_Some (receipt r))) seen). lia.
Qed.

Definition roll_promise (unit : jsstr) (expected : Z) (s : EncounterGenerationSeal) (st : Store) : Prop :=
  seal_ok (signer options) backend unit (expected + 1) s /\ expected + 1 <= gen unit st.

Lemma roll_spec unit expected st : service_ok st ->
  yields service_ok service_evolves (roll (signer options) backend true unit expected) st (roll_promise unit expected).
Proof.
  intros Hok. unfold roll. apply yields_refuse; [exact _|done|]. intros [Ht%negb_false_iff Hmax%Z.eqb_neq]%orb_false_iff.
  assert (Htn : isTime (expected + 1) = true) by (unfold isTime, isSafeInteger in *; bool_split; lia).
  apply yields_await; [exact _|done|]. intros _ st1 Hok1 R1 _.
  pose proof (sv_generations _ Hok1 unit) as Hf1. pose proof (fence_first unit st1 Hf1) as [Hz1 Hs1].
  apply spec_sync_read; [done|intros ?; reflexivity| |done]. intros active Ea.
  rewrite (fence_current _ _ _ unit st1 Hf1) in Ea. apply (inj inr) in Ea as <-.
  apply spec_read_bind. destruct (sealed_before (gen unit st1) expected (seal unit st1)) as [s|] eqn:Es.
  { apply yields_ret; [exact _|done|]. unfold sealed_before in Es. destruct (seal unit st1) as [s'|]; [|done].
    destruct (_ && _) eqn:Hb; [|done]. apply (inj Some) in Es as <-. bool_split.
    split; [|lia]. replace (expected + 1) with (gen unit st1) by lia. by apply Hs1. }
  apply spec_sync_read; [done|intros ?; reflexivity| |done]. intros seen Hseen. apply rows_all in Hseen as [_ Hlen].
  apply spec_sync_read; [done|intros ?; reflexivity| |done]. intros allowed Hal.
  apply yields_refuse; [exact _|done|]. intros Ha%negb_false_iff. subst allowed.
  assert (Hexp : gen unit st1 = expected).
  { unfold rollAllowed in Hal. destruct (archivesClosed _ _ _ _ _); cbn [throw_bind] in Hal; [done|].
    injection Hal as Hal. unfold encounter_generation_roll_allowed in Hal. bool_split. done. }
  apply yields_await; [exact _|done|]. intros digest st2 Hok2 R2 Hd.
  apply yields_bind with (P := fun _ _ => True); [exact _| |].
  { unfold sync, tnow, yields, spec. cbn [fst snd settles].
    destruct (ledger_step st2 (called (ledger st2)) Hok2) as [Ho Hr]; [..|done].
    - by destruct (called_ok options _ (sv_authority _ Hok2)).
    - by destruct (called_ok options _ (sv_authority _ Hok2)).
    - by intros id. }
  intros closedAt st3 Hok3 R3 _. apply yields_refuse; [exact _|done|]. intros Hc%negb_false_iff.
  apply yields_await; [exact _|done|]. intros id st4 Hok4 R4 Hid.
  apply yields_await; [exact _|done|]. intros signature st5 Hok5 R5 Hsig.
  assert (Hseal : seal_ok (signer options) backend unit (expected + 1)
            (mkSeal (sealStatement (signer options) unit expected (seal unit st1) digest seen closedAt) id signature)).
  { apply (new_seal_ok _ _ _ _ _ _ _ _ (originsFrame seen)); try done; [by rewrite <- Hexp|].
    intros s Hs. eexists. exact (so_id _ _ _ _ _ (Hs1 s Hs)). }
  assert (R15 : gens_grow st1 st5) by (do 3 (etrans; [eapply se_generations, se_grows; eassumption|]); by eapply se_generations, se_grows).
  apply spec_transaction.
  - intros st' v E. pose proof (sv_generations _ Hok5 unit) as Hf5.
    apply roll_transaction_ok in E as (active & Eact & Hcase); [|apply (sv_authority _ Hok5)].
    rewrite (fence_current _ _ _ unit st5 Hf5) in Eact. apply (inj inr) in Eact as <-.
    destruct Hcase as [(-> & Hs & Eg)|(-> & Eg & Hgc)].
    + split; [done|]. split; [reflexivity|]. split; [|lia]. rewrite <- Eg.
      by apply (fence_first unit st5 Hf5).
    + destruct (generation_closed_ok unit expected seen _ st5 st' Hok5 Ht Eg Hseal) as [Hok' Hev]; [|done|].
      { cbn [seal_statement sealStatement previousSealId]. by rewrite (gg_same _ _ R15 unit) by lia. }
      split; [done|]. split; [done|]. split; [done|].
      destruct Hgc as [_ _ (s1 & w & _ & _ & ->)]. unfold gen. cbn [set_generation encounter_generations].
      rewrite lookup_insert_eq. done.
  - intros st' e E. pose proof (roll_later (signer options) true unit expected seen
      (mkSeal (sealStatement (signer options) unit expected (seal unit st1) digest seen closedAt) id signature) st5) as Hl.
    rewrite E in Hl. unfold later_calls in Hl. cbn [fst] in Hl.
    destruct (quiet_turn_ok options (ledger st5) (with_calls (calls (ledger st')) (ledger st5)) (sv_authority _ Hok5))
      as [Ha' Hev]; [by split_and!|].
    destruct (ledger_step st5 _ Hok5 Ha' Hev) as [? ?]; [by intros ?|]. done.
Qed.

(** *** Any number of calls *)

Inductive service_request :=
| s_authority (r : request)
| s_archive (r : archive_request)
| s_roll (unit : jsstr) (expected : Z).
Inductive service_answer :=
| t_authority (a : response)
| t_archive (a : archive_answer)
| t_seal (s : EncounterGenerationSeal).
Definition service_serve (req : service_request) : async Store service_answer :=
  match req with
  | s_authority r => let* a := on_ledger now_current (serve options r) in aret (t_authority a)
  | s_archive r => let* a := archive_serve archive r in aret (t_archive a)
  | s_roll unit expected => let* s := roll (signer options) backend true unit expected in aret (t_seal s)
  end.

(** Between two pieces of code, admissions, evidence cases and the inventory
    change, and the clock advances. *)
Definition service_turn (st st' : Store) : Prop :=
  quiet_turn (ledger st) (ledger st') /\ same_archive st st' /\
  encounter_generations st' = encounter_generations st /\ generation_floors st' = generation_floors st.

Definition service_promise (req : service_request) (a : service_answer) (st : Store) : Prop :=
  match req, a with
  | s_authority r, t_authority a => promise options r a (ledger st)
  | s_archive r, t_archive a => archive_promise archive r a st
  | s_roll unit expected, t_seal s => roll_promise unit expected s st
  | _, _ => True
  end.

Lemma service_host_ok st st' : service_ok st -> service_turn st st' -> service_ok st' /\ service_evolves st st'.
Proof.
  intros [Ha Hu Hr Hg] (Hq & Hs & Eg & Ef). destruct (quiet_turn_ok options _ _ Ha Hq) as [Ha' Hev].
  destruct (same_archive_ok archive _ _ Hs Hr) as [Hr' Hre].
  assert (Hgen : forall unit, gen unit st' = gen unit st) by (intros; unfold gen; by rewrite Eg).
  split; [split; [done|by apply (unclaimed_kept _ _ Hev)|done|]|apply quiet_evolves; [split; [done|done|]|done]].
  - intros unit. specialize (Hg unit). unfold fence, floor, has_origin in *.
    destruct Hs as (_ & _ & ->), Hq as (_ & -> & _). by rewrite Eg, Ef.
  - split; [intros unit; by rewrite Hgen|intros unit _; unfold seal; by rewrite Eg|].
    intros unit E. rewrite Hgen in E. lia.
Qed.
Lemma service_serve_ok req st : service_ok st ->
  spec service_ok service_evolves (service_serve req) st (on_return (service_promise req)).
Proof.
  intros Hok. destruct req as [r|r|unit expected]; unfold service_serve.
  - apply yields_bind with (P := fun a st' => promise options r a (ledger st')); [exact _| |].
    2:{ intros a st' Hok' _ Ha. by apply yields_ret; [exact _|..]. }
    eapply spec_weaken; [exact _|apply (lift_spec _ _ (returns (promise options r)) Hok)|].
    + intros w Hw. by apply serve_spec.
    + apply frames_serve.
    + intros [e|a] st' _ _ Hq; exact Hq.
  - eapply yields_bind; [exact _|by apply service_archive_spec|].
    intros a st' Hok' _ Ha. by apply yields_ret; [exact _|..].
  - eapply yields_bind; [exact _|by apply roll_spec|].
    intros a st' Hok' _ Ha. by apply yields_ret; [exact _|..].
Qed.
Lemma service_promise_later req r st st' : service_ok st' -> service_evolves st st' ->
  on_return (service_promise req) r st -> on_return (service_promise req) r st'.
Proof.
  intros Hok [[El Ea Eg] _]. destruct r as [|a]; [done|]. unfold on_return, service_promise.
  destruct req, a; try done.
  - by apply promise_stable.
  - by apply (archive_promise_later archive r (inr a) st st' (sv_archive _ Hok) Ea).
  - intros [Hs Hg]. split; [done|]. pose proof (gg_monotone _ _ Eg unit). lia.
Qed.

Abbreviation service_pool := (pool Store service_request service_answer).
Abbreviation service_runs := (rtc (pool_step service_serve service_turn)).
Definition service_reached (st0 : Store) (p : service_pool) : Prop :=
  service_ok st0 /\ service_runs (mkPool st0 []) p.
Definition replied (req : service_request) (a : service_answer) (p : service_pool) : Prop :=
  (req, Finished (inr a)) ∈ threads p.
Definition service_good : service_pool -> Prop :=
  pool_ok service_ok service_evolves (fun req => on_return (service_promise req)).

Lemma service_good_runs p p' : service_good p -> service_runs p p' ->
  service_good p' /\ service_evolves (Async.store p) (Async.store p').
Proof.
  apply (pool_sound service_serve service_turn _ _ _ service_host_ok service_serve_ok service_promise_later).
Qed.
Lemma service_reached_good st0 p : service_reached st0 p -> service_good p /\ service_evolves st0 (Async.store p).
Proof. intros [Hok Hr]. apply (service_good_runs (mkPool st0 []) p); [by split|done]. Qed.
End Service.


(** Generations advance one at a time and in step: in every reachable state
    and for every unit, [current] returns the generation (it never refuses), it
    is the floor that survives the unit's rows and the archive's minimum, and
    it is the generation after the last seal; later it is not smaller, and when
    it is the next one, the new seal closes the old one and names the seal
    before it. *)
Theorem generations_advance_in_step `{JsHost} options archive st0 p p' unit :
  service_reached options archive st0 p ->
  rtc (pool_step (service_serve options archive) service_turn) p p' ->
  exists g g', current (signer options) true unit (Async.store p) = inr g /\
    current (signer options) true unit (Async.store p') = inr g' /\ g <= g' /\
    default 0 (generation_floors (Async.store p') !! unit) = g' /\ minimumGeneration unit (Async.store p') = inr g' /\
    match seal unit (Async.store p') with
    | Some s => nextGeneration (seal_statement s) = g' /\
        (g' = g + 1 -> gs_generation (seal_statement s) = g /\
           previousSealId (seal_statement s) = (sealId <$> seal unit (Async.store p)))
    | None => g' = 0
    end.
Proof.
  intros Hr Hs. destruct (service_reached_good options archive st0 p Hr) as [Hgood _].
  destruct (service_good_runs options archive p p' Hgood Hs) as [[Hok' _] Hev]. destruct Hgood as [Hok _].
  pose proof (sv_generations _ _ _ Hok unit) as Hf. pose proof (sv_generations _ _ _ Hok' unit) as Hf'.
  destruct (fence_first _ unit _ Hf') as [Hz Hseal].
  exists (gen unit (Async.store p)), (gen unit (Async.store p')).
  rewrite (fence_current _ _ _ _ _ Hf), (fence_current _ _ _ _ _ Hf').
  pose proof (se_generations _ _ _ (se_grows _ _ _ _ Hev)) as [Hm _ Hch]. split_and!; [done|done|apply Hm| | |].
  - unfold fence, gen in *. destruct (encounter_generations (Async.store p') !! unit) as [row|].
    + destruct Hf' as (-> & _). done.
    + apply Hf'.
  - assert (Hfl : floor unit (Async.store p') = gen unit (Async.store p') /\ isTime (gen unit (Async.store p')) = true).
    { unfold fence, gen in *. destruct (encounter_generations (Async.store p') !! unit) as [row|].
      - destruct Hf' as (_ & ? & Hx & _). by split; [apply Hx|].
      - destruct Hf' as (_ & Hx & _). by split; [apply Hx|]. }
    unfold minimumGeneration, floor, throw_if in *. destruct Hfl as [Hfl Ht].
    destruct (archive_generations (Async.store p') !! unit) as [m|]; cbn [default from_option id] in Hfl.
    + by rewrite Hfl, Ht.
    + by rewrite Hfl.
  - destruct (seal unit (Async.store p')) as [s|] eqn:Es; [|by apply Hz].
    split; [apply (so_next _ _ _ _ _ (Hseal s eq_refl))|]. intros E.
    destruct (Hch unit E) as (s' & Hs' & Hg' & Hp'). assert (s' = s) as -> by congruence. done.
Qed.

(** The seal a call to close a generation has returned is one that verifiers
    accept: it passes [verifyGenerationSeal], whose checks include the size of
    the certificate, for the generation that was asked for, and the unit's
    generation is past it from then on. *)
Theorem rolled_seals_verify `{JsHost} options archive `{SubtleLaws (crypto options)} st0 p unit expected s :
  configured options = true -> signer_accepted options -> identifier unit = true ->
  service_reached options archive st0 p -> replied (s_roll unit expected) (t_seal s) p ->
  verifyGenerationSeal (cryptoBackend options) (seal_value s) (as_publicKey (signer options)) = true /\
  gs_unit (seal_statement s) = unit /\ gs_generation (seal_statement s) = expected /\
  exists g, current (signer options) true unit (Async.store p) = inr g /\ expected < g.
Proof.
  intros Hcfg Hsig Hu Hr Ha. destruct (service_reached_good options archive st0 p Hr) as [Hg _].
  destruct (pool_answer _ _ _ _ _ _ Hg Ha) as [Hok Hgen]. unfold configured in Hcfg. apply andb_true_iff in Hcfg as [_ Hk].
  split_and!.
  - apply (seal_verifies (crypto options) (signer options) unit (expected + 1) s Hk Hu); [|exact Hok].
    apply Hsig. apply Hok.
  - apply Hok.
  - pose proof (so_generation _ _ _ _ _ Hok). lia.
  - destruct Hg as [Hsv _]. pose proof (sv_generations _ _ _ Hsv unit) as Hf.
    exists (gen unit (Async.store p)). split; [exact (fence_current _ _ _ _ _ Hf)|lia].
Qed.

(** ** A concrete service *)

Definition toy_admitted : Store :=
  set_admissions {[ (js "unit", 0, js "head") := toy_start ]} ∅ toy_settled.
Lemma toy_admitted_ok : service_ok (H := host) toy_options toy_archive toy_admitted.
Proof.
  destruct (reached_good (H := host) toy_options toy_world _ (toy_reached (H := host))) as [[Hok _] Hev].
  split; [exact Hok| | |].
  - apply (unclaimed_kept _ _ Hev). intros id r Hr. discriminate Hr.
  - destruct (same_archive_ok (H := host) toy_archive toy_settled toy_admitted ltac:(done) toy_settled_ok) as [Ha _]. exact Ha.
  - assert (Ho : encounter_origins (ledger toy_admitted) = ∅) by (vm_compute; reflexivity).
    intros unit. unfold fence. cbn [toy_admitted set_admissions encounter_generations].
    change (encounter_generations toy_settled) with (∅ : gmap jsstr GenerationRow). rewrite lookup_empty.
    split; [done|]. split; [done|]. unfold has_origin. by rewrite Ho, map_to_list_empty.
Qed.
Definition toy_roll : service_request := s_roll (js "unit") 0.
Definition toy_service : pool Store service_request service_answer :=
  serve_all (service_serve (H := host) toy_options toy_archive) [toy_roll] (mkPool toy_admitted []).
Lemma toy_service_reached : service_reached (H := host) toy_options toy_archive toy_admitted toy_service.
Proof. split; [apply toy_admitted_ok|apply serve_all_runs]. Qed.

Definition seal_or (ts : list (service_request * step Store service_answer)) : EncounterGenerationSeal :=
  match ts with
  | [(_, Finished (inr (t_seal s)))] => s
  | _ => mkSeal (mkSealStatement 0 [] [] 0 0 None [] 0 0 0) [] []
  end.
Definition has_seal (ts : list (service_request * step Store service_answer)) : bool :=
  match ts with [(_, Finished (inr (t_seal _)))] => true | _ => false end.
Lemma sealed_alone (req : service_request) (st : Store) (serve : service_request -> async Store service_answer) :
  has_seal (threads (serve_all serve [req] (mkPool st []))) = true ->
  replied req (t_seal (seal_or (threads (serve_all serve [req] (mkPool st []))))) (serve_all serve [req] (mkPool st [])).
Proof.
  unfold replied. cbn [serve_all Async.store threads].
  destruct (run_alone (serve req) st) as [st' [e|[a|a|s]]]; cbn; [done|done|done|left].
Qed.
Lemma toy_sealed : replied toy_roll (t_seal (seal_or (threads toy_service))) toy_service.
Proof. apply sealed_alone. vm_compute. reflexivity. Qed.


Lemma rolled_seals_verify_witness :
  verifyGenerationSeal (cryptoBackend toy_options) (seal_value (seal_or (threads toy_service)))
    (as_publicKey (signer toy_options)) = true.
Proof.
  assert (Hcfg : configured toy_options = true) by (vm_compute; reflexivity).
  exact (proj1 (rolled_seals_verify (H := host) toy_options toy_archive (H0 := toy_subtle_laws) toy_admitted _ (js "unit") 0 _
           Hcfg toy_signer_accepted eq_refl toy_service_reached toy_sealed)).
Defined.

Lemma generations_advance_in_step_witness :
  exists g g', current (signer toy_options) true (js "unit") toy_admitted = inr g /\
    current (signer toy_options) true (js "unit") (Async.store toy_service) = inr g' /\ g <= g'.
Proof.
  destruct (generations_advance_in_step (H := host) toy_options toy_archive toy_admitted (mkPool toy_admitted []) toy_service
              (js "unit") (conj toy_admitted_ok (rtc_refl _ _)) (proj2 toy_service_reached))
    as (g & g' & Hg & Hg' & Hle & _). exact (ex_intro _ g (ex_intro _ g' (conj Hg (conj Hg' Hle)))).
Defined.

Definition rolled_by (m : tx EncounterGenerationSeal) (st : Store) : Store := fst (m st).
Lemma closing_keeps_evidence_witness :
  let m := roll_transaction (signer toy_options) true (js "unit") 0 [toy_row] (seal_or []) in
  ledger_ok (ledger (rolled_by m toy_admitted)).
Proof.
  intros m.
  assert (E : match snd (m toy_admitted) with inr s => s | inl _ => seal_or [] end = seal_or [] /\
              match snd (m toy_admitted) with inr _ => true | inl _ => false end = true) by (vm_compute; split; reflexivity).
  destruct (m toy_admitted) as [st' [e|s]] eqn:Em; [destruct E as [_ E]; discriminate E|].
  unfold rolled_by. rewrite Em.
  exact (proj1 (closing_keeps_evidence (signer toy_options) true (js "unit") 0 [toy_row] (seal_or [])
           toy_admitted st' s (proj1 (sv_authority _ _ _ toy_admitted_ok)) Em)).
Defined.

Lemma verified_seal_is_chained_witness :
  exists s, read_seal (seal_value (seal_or (threads toy_service))) = Some s /\
    nextGeneration (seal_statement s) = gs_generation (seal_statement s) + 1.
Proof.
  assert (Hv : verifyGenerationSeal (cryptoBackend toy_options) (seal_value (seal_or (threads toy_service)))
                 (as_publicKey (signer toy_options)) = true) by (vm_compute; reflexivity).
  destruct (verified_seal_is_chained (H := host) _ _ _ Hv) as (s & Hs & _ & _ & _ & Hn & _).
  exact (ex_intro _ s (conj Hs Hn)).
Defined.
