(* ===== verification/InventoryFacts.v ===== *)
(** * Facts about the inventory index

    Every ordinal of an owner's index is either a member or retired, the signed
    head counts both, and reading the index page by page from the start reaches
    the end and yields every member. *)
From stdpp Require Import gmap sorting.
From S2P Require Import Prelude Json Contracts Kernel Journal Utf8 CryptoBackend EncounterWire EncounterHttp.
From S2P Require Import EncounterBundle InventoryCheckpoint InventoryRanges Async EncounterLedger EncounterStore.
From S2P Require Import OwnerAuth OwnerFacts EncounterWireFacts EncounterHttpFacts EncounterRequestBounds.
From S2P Require Import ArchiveStore ArchiveFacts Generations Inventory.
Set Default Goal Selector "!".

(** ** Members *)

Abbreviation MemberTable := (gmap (jsstr * jsstr * Z) MemberRow).
Definition in_key (u o : jsstr) (km : jsstr * jsstr * Z * MemberRow) : Prop := fst (fst km) = (u, o).
#[export] Instance in_key_dec u o km : Decision (in_key u o km).
Proof. unfold in_key. apply _. Defined.
Definition member_count (u o : jsstr) (t : MemberTable) : nat := size (filter (in_key u o) t).

Lemma member_count_insert (u o : jsstr) (u' o' : jsstr) (n : Z) (m : MemberRow) (t : MemberTable) : t !! (u', o', n) = None ->
  member_count u o (<[(u', o', n) := m]> t) = (if decide ((u', o') = (u, o)) then 1 + member_count u o t else member_count u o t)%nat.
Proof.
  intros Hn. unfold member_count. case_decide as E.
  - rewrite map_filter_insert_True by done. apply map_size_insert_None. apply map_lookup_filter_None. by left.
  - rewrite map_filter_insert_False by done. by rewrite delete_id.
Qed.
Lemma member_count_delete (u o : jsstr) (u' o' : jsstr) (n : Z) (m : MemberRow) (t : MemberTable) : t !! (u', o', n) = Some m ->
  member_count u o t = (if decide ((u', o') = (u, o)) then 1 + member_count u o (delete (u', o', n) t)
                        else member_count u o (delete (u', o', n) t))%nat.
Proof.
  intros Hm. rewrite <- (insert_delete_id t _ m Hm) at 1. by rewrite member_count_insert by apply lookup_delete_eq.
Qed.

Lemma is_member_spec (id : jsstr) (st : Store) : is_member id st = true <-> exists k m, inventory_members st !! k = Some m /\ m_ticketId m = id.
Proof.
  unfold is_member. rewrite existsb_exists. split.
  - intros ([k m] & Hin & E). apply list_elem_of_In, elem_of_map_to_list in Hin. apply str_eqb_eq in E. by exists k, m.
  - intros (k & m & Hm & E). exists (k, m). split; [by apply list_elem_of_In, elem_of_map_to_list|by apply str_eqb_eq].
Qed.
Lemma elem_of_scope (u o : jsstr) (st : Store) (n : Z) (m : MemberRow) : (n, m) ∈ scope_members u o st <-> inventory_members st !! (u, o, n) = Some m.
Proof.
  unfold scope_members. rewrite list_elem_of_omap. split.
  - intros ([[[u' o'] n'] m'] & Hin & E). cbn [fst snd] in E. apply elem_of_map_to_list in Hin.
    destruct (str_eqb u' u && str_eqb o' o) eqn:Eb; [|done]. injection E as -> ->. bool_split.
    match goal with H1 : str_eqb u' u = true, H2 : str_eqb o' o = true |- _ =>
      apply str_eqb_eq in H1, H2; subst end. done.
  - intros Hm. exists ((u, o, n), m). split; [by apply elem_of_map_to_list|]. cbn [fst snd]. by rewrite !str_eqb_refl.
Qed.
Lemma scope_ordinals (u o : jsstr) (st : Store) : NoDup (scope_members u o st).*1.
Proof.
  unfold scope_members. assert (Hn : NoDup (map_to_list (inventory_members st)).*1) by apply NoDup_fst_map_to_list.
  revert Hn. generalize (map_to_list (inventory_members st)). intros l. induction l as [|[[[u' o'] n'] m'] l IH]; [constructor|].
  rewrite fmap_cons, NoDup_cons. cbn [fst]. intros [Hx Hl]. cbn [omap list_omap fst snd].
  destruct (str_eqb u' u && str_eqb o' o) eqn:Eb; [|by apply IH]. bool_split.
  match goal with H1 : str_eqb u' u = true, H2 : str_eqb o' o = true |- _ => apply str_eqb_eq in H1, H2; subst end.
  rewrite fmap_cons. apply NoDup_cons. split; [|by apply IH]. cbn [fst].
  intros ([n m] & -> & (([[u1 o1] n1] & m1) & Hin & E)%list_elem_of_omap)%list_elem_of_fmap. cbn [fst snd] in *.
  destruct (str_eqb u1 u && str_eqb o1 o) eqn:Eb; [|done]. injection E as -> ->. bool_split.
  match goal with H1 : str_eqb u1 u = true, H2 : str_eqb o1 o = true |- _ => apply str_eqb_eq in H1, H2; subst end.
  apply Hx, list_elem_of_fmap. by exists (u, o, n, m).
Qed.
Lemma scope_length (u o : jsstr) (st : Store) : length (scope_members u o st) = member_count u o (inventory_members st).
Proof.
  unfold scope_members. generalize (inventory_members st). intros t.
  induction t as [|[[u' o'] n] m t Hn IH] using map_ind; [done|].
  rewrite (member_count_insert u o u' o' n m t Hn), <- IH, map_to_list_insert by done. cbn [omap list_omap fst snd].
  case_decide as E.
  - injection E as -> ->. rewrite !str_eqb_refl. done.
  - destruct (str_eqb u' u && str_eqb o' o) eqn:Eb; [|done]. exfalso. apply E. bool_split.
    match goal with H1 : str_eqb u' u = true, H2 : str_eqb o' o = true |- _ => apply str_eqb_eq in H1, H2; by subst end.
Qed.

(** ** Valid heads *)

Lemma read_operation_name op : read_operation (JStr (js (operation_name op))) = Some op.
Proof. by destruct op. Qed.
Lemma read_optional_string p : read_optional (optional_string p) = Some p.
Proof. by destruct p. Qed.
Lemma read_checkpoint_object cp : read_checkpoint (checkpoint_object cp) = Some cp.
Proof.
  destruct cp as [[v k u o r n p b root c i t] id sg]. unfold read_checkpoint, checkpoint_object. fields.
  unfold read_inventory_statement, inventory_statement_value, read_version, get_str, get_num.
  cbn [cp_statement is_version is_authorityKey is_unit is_ownerPublicKey is_rulesId is_revision is_previousId batchDigest
       is_root is_receiptCount itemCount createdAt checkpointId cp_signature].
  destruct v as [|op m]; cbn [version_number version_fields app]; fields; cbn [mbind option_bind as_string];
    rewrite ?read_operation_name, read_optional_string; done.
Qed.
Lemma valid_object cp : validInventoryCheckpoint (checkpoint_object cp) =
  validCheckpointFields cp && (byteLength (stringify (checkpoint_object cp)) <=? 2048).
Proof.
  unfold validInventoryCheckpoint. rewrite read_checkpoint_object. unfold checkpoint_object. fields.
  destruct cp as [[v k u o r n p b root c i t] id sg]. unfold inventory_statement_value.
  cbn [cp_statement is_version is_authorityKey is_unit is_ownerPublicKey is_rulesId is_revision is_previousId batchDigest
       is_root is_receiptCount itemCount createdAt checkpointId cp_signature].
  destruct v as [|op m]; cbn [version_number version_fields app]; fields; generalize (optional_string p); intros q; reflexivity.
Qed.

Lemma checkpoint_fits cp : validCheckpointFields cp = true -> byteLength (stringify (checkpoint_object cp)) <= 2048.
Proof.
  destruct cp as [[v k u o r n p b root c i t] id sg]. unfold validCheckpointFields, statementRetired.
  cbn [cp_statement is_version is_authorityKey is_unit is_ownerPublicKey is_rulesId is_revision is_previousId batchDigest
       is_root is_receiptCount itemCount createdAt checkpointId cp_signature].
  intros Hv. bool_split. match goal with E : str_eqb r ENCOUNTER_RULES = true |- _ => apply str_eqb_eq in E as -> end.
  match goal with E : match p with Some d => isDigestText d | None => true end = true |- _ => apply optional_bytes in E end.
  assert (value_bytes (JStr ENCOUNTER_RULES) <= 100) by (vm_compute; discriminate).
  assert (value_bytes (JNum 1) = 1) by done. assert (value_bytes (JNum 2) = 1) by done.
  assert (forall op, value_bytes (JStr (js (operation_name op))) <= 14) by (intros []; vm_compute; discriminate).
  etrans; [apply byteLength_bound|].
  match goal with |- text_bytes (stringify ?x) <= _ => fold (value_bytes x) end.
  unfold checkpoint_object, inventory_statement_value.
  cbn [cp_statement is_version is_authorityKey is_unit is_ownerPublicKey is_rulesId is_revision is_previousId batchDigest
       is_root is_receiptCount itemCount createdAt checkpointId cp_signature].
  match goal with |- value_bytes (obj (("statement"%string, ?s) :: _)) <= _ => assert (Hs : value_bytes s <= 1700); [|revert Hs; generalize s; intros statement Hs] end.
  - destruct v as [|op m]; cbn [version_number version_fields app].
    + sizes. fits. fits_more. lia.
    + bool_split. sizes. match goal with Hx : forall op, _ |- _ => pose proof (Hx op) end. fits. fits_more. lia.
  - sizes. fits. fits_more. lia.
Qed.
Lemma valid_fields cp : validInventoryCheckpoint (checkpoint_object cp) = validCheckpointFields cp.
Proof.
  rewrite valid_object. destruct (validCheckpointFields cp) eqn:E; [|done].
  cbn [andb]. apply Z.leb_le. by apply checkpoint_fits.
Qed.

(** ** The invariant *)

(** Checkpoint ids commit to the revision they were signed for: two valid
    heads with the same id are of the same revision (SHA-256 has no known
    collision).  Strings are of 16-bit units. *)
Class CheckpointIds (backend : AuditCryptoBackend) := {
  ids_commit : forall cp cp' d, validCheckpointFields cp = true -> unit_range (is_unit (cp_statement cp)) ->
    validCheckpointFields cp' = true -> unit_range (is_unit (cp_statement cp')) ->
    hash backend (inventoryCheckpointFrame (cp_statement cp)) = inr d ->
    hash backend (inventoryCheckpointFrame (cp_statement cp')) = inr d ->
    is_revision (cp_statement cp) = is_revision (cp_statement cp');
}.

(** Heads only move forward. *)
Definition heads_advance (st st' : Store) : Prop :=
  forall k h, inventory_heads st !! k = Some h -> exists h', inventory_heads st' !! k = Some h' /\
    (h' = h \/ is_revision (cp_statement h) < is_revision (cp_statement h')).
#[export] Instance heads_advance_preorder : PreOrder heads_advance.
Proof.
  split; [intros st k h Hh; exists h; eauto|].
  intros st1 st2 st3 H12 H23 k h Hh. destruct (H12 k h Hh) as (h2 & Hh2 & E2).
  destruct (H23 k h2 Hh2) as (h3 & Hh3 & E3). exists h3. split; [done|].
  destruct E2 as [->|L2], E3 as [->|L3]; [by left|by right|by right|right; lia].
Qed.

Section Index.
Context (signer : AsyncAuditSigner) (subtle : SubtleCrypto) `{SubtleLaws subtle}.
Let backend := createStandardWebCryptoBackend subtle.
Context `{CheckpointIds backend}.
Hypothesis Hkey : isDigestText (as_publicKey signer) = true.
Hypothesis Hsig : forall d s, as_signDigest signer d = inr s -> cb_verify backend (as_publicKey signer) d s = inr true.

Record head_ok (u o : jsstr) (cp : InventoryCheckpoint) : Prop := {
  ho_valid : validCheckpointFields cp = true;
  ho_key : is_authorityKey (cp_statement cp) = as_publicKey signer;
  ho_unit : is_unit (cp_statement cp) = u;
  ho_owner : is_ownerPublicKey (cp_statement cp) = o;
  ho_id : hash backend (inventoryCheckpointFrame (cp_statement cp)) = inr (checkpointId cp);
  ho_text : unit_range u;
  ho_signed : cb_verify backend (as_publicKey signer) (checkpointId cp) (cp_signature cp) = inr true;
}.

Definition member_at (st : Store) (u o : jsstr) (n : Z) : Prop := is_Some (inventory_members st !! (u, o, n)).
Definition retired_at (st : Store) (u o : jsstr) (n : Z) : Prop := holds (empty_ranges st) u o n.

(** The index of one owner: the ordinals from 1 to [receiptCount] are members
    or retired, never both, and no others are; [retiredEmptyCount] counts the
    retired ones. *)
Record scope_ok (st : Store) (u o : jsstr) (count retired : Z) : Prop := {
  sc_range : forall n, member_at st u o n \/ retired_at st u o n <-> 1 <= n <= count;
  sc_apart : forall n, member_at st u o n -> retired_at st u o n -> False;
  sc_count : Z.of_nat (member_count u o (inventory_members st)) + retired = count;
}.
Record index_ok (st : Store) : Prop := {
  ix_ranges : ranges_ok (empty_ranges st);
  ix_tickets : forall k k' m m', inventory_members st !! k = Some m -> inventory_members st !! k' = Some m' ->
    m_ticketId m = m_ticketId m' -> k = k';
  ix_heads : forall u o cp, inventory_heads st !! (u, o) = Some cp -> head_ok u o cp;
  ix_scopes : forall u o, let h := inventory_heads st !! (u, o) in
    scope_ok st u o (receipts_of h) (inventoryRetiredCount h);
}.

Definition same_inventory (st st' : Store) : Prop :=
  inventory_heads st' = inventory_heads st /\ inventory_members st' = inventory_members st /\
  empty_ranges st' = empty_ranges st.
Lemma same_inventory_ok st st' : same_inventory st st' -> index_ok st -> index_ok st' /\ heads_advance st st'.
Proof.
  intros (Eh & Em & Er) [Hr Ht Hh Hs]. split.
  - split; rewrite ?Eh, ?Em, ?Er; [done|done|done|]. intros u o. specialize (Hs u o).
    destruct Hs as [A B C]. split; unfold member_at, retired_at in *; rewrite ?Em, ?Er; done.
  - intros k h Hk. exists h. rewrite Eh. eauto.
Qed.

Lemma head_found u o st : index_ok st -> head signer u o st = inr (inventory_heads st !! (u, o)).
Proof.
  intros Hok. unfold head, throw_if. destruct (inventory_heads st !! (u, o)) as [cp|] eqn:E; [|done].
  destruct (ix_heads _ Hok u o cp E) as [Hv Hk Hu Ho _ _ _]. by rewrite valid_fields, Hv, Hk, Hu, Ho, !str_eqb_refl.
Qed.

(** The head that was read is still there if it has the id that was expected. *)
Lemma same_head st st' (k : jsstr * jsstr) u o h h' : index_ok st -> index_ok st' -> heads_advance st st' -> k = (u, o) ->
  inventory_heads st !! k = h -> inventory_heads st' !! k = h' -> head_id h = head_id h' -> h' = h.
Proof.
  intros Hok Hok' Ha -> Eh Eh' Eid. destruct h as [h|], h' as [h'|]; try done.
  destruct (Ha (u, o) h Eh) as (h2 & Eh2 & [->|Lt]); [congruence|]. exfalso.
  assert (h2 = h') as -> by congruence. injection Eid as Eid.
  destruct (ix_heads _ Hok u o h Eh) as [V1 _ U1 _ I1 T1 _], (ix_heads _ Hok' u o h' Eh') as [V2 _ U2 _ I2 T2 _].
  rewrite Eid in I1. rewrite <- U1 in T1. rewrite <- U2 in T2. pose proof (ids_commit h h' _ V1 T1 V2 T2 I1 I2). lia.
Qed.

(** ** Appending *)

Definition tickets_unique (t : MemberTable) : Prop :=
  forall k k' m m', t !! k = Some m -> t !! k' = Some m' -> m_ticketId m = m_ticketId m' -> k = k'.

Lemma insert_members_ok u o (k : Z) rs st st' : insert_members u o k rs st = (st', inr I) ->
  exists t, st' = set_inventory (inventory_heads st) t (empty_ranges st) st /\
    (forall n, is_Some (t !! (u, o, n)) <-> is_Some (inventory_members st !! (u, o, n)) \/ k <= n < k + Z.of_nat (length rs)) /\
    (forall u' o' n, (u', o') <> (u, o) -> t !! (u', o', n) = inventory_members st !! (u', o', n)) /\
    (tickets_unique (inventory_members st) -> tickets_unique t) /\
    (forall u' o', Z.of_nat (member_count u' o' t) = Z.of_nat (member_count u' o' (inventory_members st)) +
       if decide ((u, o) = (u', o')) then Z.of_nat (length rs) else 0).
Proof.
  revert k st. induction rs as [|r rs IH]; intros k st E; cbn [insert_members] in E.
  - tx_run E. exists (inventory_members st). split_and!; [by destruct st|..|done|].
    + intros n. split; [by left|]. intros [|]; [done|]. cbn in *. lia.
    + done.
    + intros u' o'. case_decide; cbn; lia.
  - tx_run E. destruct a. unfold insert_member in E0. destruct (_ || _) eqn:Hn in E0; [done|].
    apply pair_equal_spec in E0 as [<- _]. apply orb_false_iff in Hn as [Hn Hm]. apply bool_decide_eq_false in Hn.
    rewrite <- eq_None_not_Some in Hn.
    apply IH in E as (t & -> & Hin & Hother & Hun & Hcount). clear IH.
    set (m := mkMember (ticketId (ir_ticket r)) (receiptId (ir_receipt r))) in *.
    cbn [set_inventory inventory_heads inventory_members empty_ranges] in *. exists t. split_and!; [done|..].
    + intros n. rewrite Hin, lookup_insert_is_Some'. cbn [length]. split.
      * intros [[[= <-]|]|]; [right; lia|by left|right; lia].
      * intros [|]; [by left; right|]. destruct (decide (k = n)) as [->|]; [by left; left|right; lia].
    + intros u' o' n Hne. rewrite Hother by done. apply lookup_insert_ne. congruence.
    + intros Hu. apply Hun. intros k1 k2 m1 m2. rewrite !lookup_insert_Some.
      assert (Hfresh : forall k' m', inventory_members st !! k' = Some m' -> m_ticketId m' <> m_ticketId m).
      { intros k' m' Hk' Ht. apply not_true_iff_false in Hm. apply Hm. apply is_member_spec. by exists k', m'. }
      intros [[<- <-]|[_ H1]] [[<- <-]|[_ H2]] Ht; [done| | |by apply (Hu k1 k2 m1 m2)].
      * by destruct (Hfresh _ _ H2).
      * by destruct (Hfresh _ _ H1).
    + intros u' o'. rewrite Hcount. rewrite (member_count_insert u' o' u o k m (inventory_members st) Hn).
      case_decide; cbn [length]; lia.
Qed.

Lemma set_inventory_scope st heads t ranges u o count retired :
  (forall n, member_at (set_inventory heads t ranges st) u o n \/ retired_at (set_inventory heads t ranges st) u o n
     <-> 1 <= n <= count) ->
  (forall n, is_Some (t !! (u, o, n)) -> holds ranges u o n -> False) ->
  Z.of_nat (member_count u o t) + retired = count -> scope_ok (set_inventory heads t ranges st) u o count retired.
Proof. intros. by split. Qed.

Lemma append_valid u o old digest root rs at_ id signature text text' :
  identifier u = true -> unit_range u -> isDigestText o = true -> (forall cp, old = Some cp -> head_ok u o cp) ->
  (0 < length rs)%nat -> item_total rs <= Z.of_nat (length rs) -> 0 <= item_total rs ->
  hash backend text = inr digest -> hash backend text' = inr root ->
  let s := append_statement signer u o old (head_id old) digest root rs at_ in
  isTime at_ = true -> isTime (is_revision s) = true -> is_receiptCount s <= MAX_INVENTORY_RECEIPTS ->
  hash backend (inventoryCheckpointFrame s) = inr id -> as_signDigest signer id = inr signature ->
  head_ok u o (mkInventoryCheckpoint s id signature).
Proof.
  intros Hu Htx Ho Hold Hn Hit Hit0 Hd Hr s Hc Hrev Hcap Hid Hs. split; try done; [|exact (Hsig _ _ Hs)].
  pose proof (hashString_digest _ _ Hd : isDigestText digest = true) as Hdd.
  pose proof (hashString_digest _ _ Hr : isDigestText root = true) as Hdr.
  pose proof (hashString_digest _ _ Hid : isDigestText id = true) as Hdi.
  pose proof (verified_signature_shape _ _ _ _ (Hsig _ _ Hs) : EncounterHttp.signature signature = true) as Hsg.
  unfold validCheckpointFields. cbn [cp_statement checkpointId cp_signature].
  change (is_rulesId s) with ENCOUNTER_RULES. change (is_unit s) with u. change (is_authorityKey s) with (as_publicKey signer).
  change (is_ownerPublicKey s) with o. change (is_previousId s) with (head_id old). change (batchDigest s) with digest.
  change (is_root s) with root. change (createdAt s) with at_.
  rewrite Hdi, Hsg, str_eqb_refl, Hu, Hkey, Ho, Hrev, Hdd, Hdr, Hc. cbn [andb].
  unfold MAX_INVENTORY_RECEIPTS in *. assert (0 < MAX_SAFE_INTEGER) by done.
  destruct old as [h|].
  - destruct (Hold h eq_refl) as [Hv _ _ _ Hh _ _]. pose proof (hashString_digest _ _ Hh : isDigestText (checkpointId h) = true) as Hdh.
    unfold validCheckpointFields, statementRetired in *. cbn [head_id fmap option_fmap option_map].
    unfold s in *. cbn [append_statement is_version is_revision is_receiptCount itemCount receipts_of items_of revision_of] in *.
    rewrite Hdh. cbn [andb]. unfold isTime, isSafeInteger, MAX_INVENTORY_RECEIPTS in *.
    bool_split. rewrite (proj2 (Z.eqb_neq (is_revision (cp_statement h) + 1) 1)) by lia. cbn [Bool.eqb andb].
    destruct (is_version (cp_statement h)) as [|op n]; bool_split; lia.
  - unfold statementRetired, s in *. cbn [append_statement is_version is_revision is_receiptCount itemCount receipts_of items_of
      revision_of head_id fmap option_fmap option_map] in *.
    cbn [Z.add Z.eqb Pos.eqb Bool.eqb andb]. unfold isTime, isSafeInteger in *. lia.
Qed.

Lemma receipts_nonneg u o st : index_ok st -> 0 <= receipts_of (inventory_heads st !! (u, o)).
Proof.
  intros Hok. destruct (inventory_heads st !! (u, o)) as [h|] eqn:E; [|done]. cbn [receipts_of].
  destruct (ix_heads _ Hok u o h E) as [Hv _ _ _ _ _ _]. unfold validCheckpointFields in Hv. bool_split. lia.
Qed.

Lemma append_index u o rs cp st st1 :
  index_ok st -> head_ok u o cp -> let old := inventory_heads st !! (u, o) in
  is_receiptCount (cp_statement cp) = receipts_of old + Z.of_nat (length rs) ->
  statementRetired (cp_statement cp) = inventoryRetiredCount old -> is_revision (cp_statement cp) = revision_of old + 1 ->
  insert_members u o (receipts_of old + 1) rs st = (st1, inr I) ->
  index_ok (set_head u o cp st1) /\ heads_advance st (set_head u o cp st1).
Proof.
  intros Hok Hcp old Ec Er Ev E. pose proof (receipts_nonneg u o _ Hok) as H1. destruct Hok as [Hr Ht Hh Hs]. unfold old in *. clear old. apply insert_members_ok in E as (t & -> & Hin & Hother & Hun & Hcount).
  unfold set_head. cbn [set_inventory inventory_heads inventory_members empty_ranges].
  split; [split|]; cbn [set_inventory inventory_heads inventory_members empty_ranges].
  - exact Hr.
  - by apply Hun.
  - intros u' o' cp'. rewrite lookup_insert_Some. intros [[[= <- <-] <-]|[_ Hl]]; [done|by apply Hh].
  - intros u' o'. pose proof (Hs u' o') as [A B C]. unfold member_at, retired_at in *.
    specialize (Hcount u' o'). destruct (decide ((u, o) = (u', o'))) as [[= <- <-]|Hne].
    + rewrite lookup_insert_eq. cbn [receipts_of inventoryRetiredCount].
      cbv zeta in A, C. split; unfold member_at, retired_at; cbn [set_inventory inventory_members empty_ranges].
      * intros n. rewrite Hin, Ec. specialize (A n). split; [|intros Hn].
        -- intros [[Hm|Hn]|Hre]; [|lia|].
           ++ assert (1 <= n <= receipts_of (inventory_heads st !! (u, o))) by (apply A; by left). lia.
           ++ assert (1 <= n <= receipts_of (inventory_heads st !! (u, o))) by (apply A; by right). lia.
        -- destruct (Z.le_gt_cases n (receipts_of (inventory_heads st !! (u, o)))) as [Hle|Hgt]; [|left; right; lia].
           assert (Hb : 1 <= n <= receipts_of (inventory_heads st !! (u, o))) by lia.
           apply A in Hb as [|]; [by left; left|by right].
      * intros n [Hm|Hn]%Hin Hre; [by apply (B n)|].
        assert (1 <= n <= receipts_of (inventory_heads st !! (u, o))) by (apply (A n); by right). lia.
      * rewrite Hcount. lia.
    + rewrite lookup_insert_ne by done. cbv zeta in *. split; unfold member_at, retired_at; cbn [set_inventory inventory_members empty_ranges].
      * intros n. rewrite Hother by congruence. apply A.
      * intros n. rewrite Hother by congruence. apply B.
      * rewrite Hcount. lia.
  - intros k h Hk. cbn [set_inventory inventory_heads]. destruct (decide (k = (u, o))) as [->|Hne].
    + exists cp. rewrite lookup_insert_eq. split; [done|]. right. rewrite Hk in Ev. cbn in Ev. lia.
    + exists h. rewrite lookup_insert_ne by congruence. split; [done|by left].
Qed.

(** ** Retiring *)

Lemma retire_members_ok u o (l : list (EncounterLedgerRow * Z)) st st' :
  index_ok st -> NoDup l.*2 -> (forall r n, (r, n) ∈ l -> member_at st u o n) ->
  titer (retire_member u o) l st = (st', inr I) ->
  inventory_heads st' = inventory_heads st /\ ranges_ok (empty_ranges st') /\
  (forall k m, inventory_members st' !! k = Some m ->  inventory_members st !! k = Some m) /\
  (forall u' o' n, member_at st' u' o' n <-> member_at st u' o' n /\ ~ ((u', o') = (u, o) /\ n ∈ l.*2)) /\
  (forall u' o' n, retired_at st' u' o' n <-> retired_at st u' o' n \/ ((u', o') = (u, o) /\ n ∈ l.*2)) /\
  (forall u' o', Z.of_nat (member_count u' o' (inventory_members st)) =
     Z.of_nat (member_count u' o' (inventory_members st')) + if decide ((u, o) = (u', o')) then Z.of_nat (length l) else 0).
Proof.
  intros Hok. pose proof (ix_ranges _ Hok) as Hr. clear Hok. revert st Hr.
  induction l as [|[r n] l IH]; intros st Hr Hnd Hl E; cbn [titer] in E.
  - tx_run E. split_and!; [done|done|done|..].
    + intros u' o' n. rewrite fmap_nil, elem_of_nil. tauto.
    + intros u' o' n. rewrite fmap_nil, elem_of_nil. tauto.
    + intros u' o'. case_decide; cbn; lia.
  - tx_run E. destruct a. unfold retire_member, delete_member in E0. cbn [fst snd] in E0. tx_run E0. destruct a, a0.
    rename E1 into Eadd, E2 into Eforget. unfold add_range in Eadd.
    destruct (add u o n (empty_ranges st)) as [|t] eqn:Ea; [done|]. apply pair_equal_spec in Eadd as [<- _].
    unfold forget_origin in Eforget. cbn [set_inventory ledger] in Eforget.
    destruct (encounter_origins (ledger st) !! row_id r) as [e|]; [|done]. destruct (_ =? _); [|done].
    apply pair_equal_spec in Eforget as [<- _].
    assert (Hn : 1 <= n <= MAX_SAFE_INTEGER /\ exists t', add u o n (empty_ranges st) = inr t' /\ ranges_ok t' /\
              forall u' o' m, holds t' u' o' m <-> holds (empty_ranges st) u' o' m \/ (u' = u /\ o' = o /\ m = n)).
    { pose proof (add_spec (empty_ranges st) u o n Hr) as Hs. case_bool_decide as Hn; [|congruence].
      destruct Hs as [[_ Hs]|(_ & t' & Hs & Hok' & Hh)]; [congruence|]. split; [done|]. by exists t'. }
    destruct Hn as (_ & t' & Ea' & Hrt & Hh). assert (t' = t) as -> by congruence. clear Ea'.
    rewrite fmap_cons in Hnd. apply NoDup_cons in Hnd as [Hni Hnd]. cbn [snd] in Hni.
    destruct (Hl r n ltac:(by left)) as [m Hm].
    apply IH in E as (Eh & Hr' & Hsub & Hmem & Hret & Hcnt); [|exact Hrt|done|].
    2:{ intros r' n' Hin. unfold member_at. cbn [set_inventory set_ledger inventory_members].
        rewrite lookup_delete_ne; [by apply (Hl r' n'); right|]. intros [= <-]. apply Hni.
        apply list_elem_of_fmap. by exists (r', n). }
    unfold member_at, retired_at in *. cbn [set_inventory set_ledger inventory_members inventory_heads empty_ranges] in *.
    split_and!; [done|done|..].
    + intros k m' Hk. apply Hsub in Hk. apply lookup_delete_Some in Hk. apply Hk.
    + intros u' o' n'. rewrite Hmem. rewrite fmap_cons, elem_of_cons. cbn [snd]. rewrite lookup_delete_is_Some.
      split; [intros [[Hne Hs] Hnot]|intros [Hs Hnot]].
      * split; [done|]. intros [[= -> ->] [->|Hin]]; [done|]. apply Hnot. done.
      * split; [split; [|done]|]; [intros [= -> -> ->]; apply Hnot; by split; [|left]|].
        intros [[= -> ->] Hin]. apply Hnot. by split; [|right].
    + intros u' o' n'. rewrite Hret, Hh. rewrite fmap_cons, elem_of_cons. cbn [snd]. naive_solver.
    + intros u' o'. rewrite (member_count_delete u' o' u o n m _ Hm). specialize (Hcnt u' o').
      cbn [length]. case_decide; lia.
Qed.

Lemma same_inventory_trans st1 st2 st3 : same_inventory st1 st2 -> same_inventory st2 st3 -> same_inventory st1 st3.
Proof. intros (A & B & C) (D & E & F). split_and!; congruence. Qed.

Lemma sources_distinct st u o ids (l : list (EncounterLedgerRow * Z)) : NoDup ids ->
  Forall2 (fun id rn => exists m, inventory_members st !! (u, o, snd rn) = Some m /\ m_ticketId m = id) ids l ->
  NoDup l.*2.
Proof.
  intros Hn Hl. induction Hl as [|id [r n] ids l (m & Hm & Ht) Hl IH]; [constructor|].
  apply NoDup_cons in Hn as [Hni Hn]. rewrite fmap_cons. apply NoDup_cons. split; [|by apply IH].
  intros ([r' n'] & E & Hin)%list_elem_of_fmap. cbn [snd] in *. subst n'. apply Hni.
  apply list_elem_of_lookup in Hin as [i Hi]. destruct (Forall2_lookup_r _ _ _ _ _ Hl Hi) as (id' & Hid & m' & Hm' & Ht').
  cbn [snd] in Hm'. assert (m' = m) as -> by congruence. subst id id'. by eapply list_elem_of_lookup_2.
Qed.

Lemma revalidated s id sg : validCheckpointFields (mkInventoryCheckpoint s (zeros 64) (zeros 128)) = true ->
  isDigestText id = true -> EncounterHttp.signature sg = true -> validCheckpointFields (mkInventoryCheckpoint s id sg) = true.
Proof.
  unfold validCheckpointFields. cbn [cp_statement checkpointId cp_signature]. intros Hv -> ->.
  assert (isDigestText (zeros 64) = true) as Ez by done. assert (EncounterHttp.signature (zeros 128) = true) as Es by done.
  by rewrite Ez, Es in Hv.
Qed.

Lemma retire_valid u o old n digest root at_ id signature :
  head_ok u o old -> let s := retire_statement old n digest root at_ in
  validInventoryCheckpoint (checkpoint_object (mkInventoryCheckpoint s (zeros 64) (zeros 128))) = true ->
  hash backend (inventoryCheckpointFrame s) = inr id -> as_signDigest signer id = inr signature ->
  head_ok u o (mkInventoryCheckpoint s id signature).
Proof.
  intros [Hv Hk Hu Ho Hid Htx Hg] s Hz Hid' Hs. rewrite valid_fields in Hz. split; try done; [|exact (Hsig _ _ Hs)]. apply revalidated; [done| |].
  - exact (hashString_digest _ _ Hid').
  - exact (verified_signature_shape _ _ _ _ (Hsig _ _ Hs)).
Qed.

Lemma retire_index u o (l : list (EncounterLedgerRow * Z)) h cp st st1 :
  index_ok st -> inventory_heads st !! (u, o) = Some h -> head_ok u o cp -> NoDup l.*2 ->
  (forall r n, (r, n) ∈ l -> member_at st u o n) ->
  is_receiptCount (cp_statement cp) = is_receiptCount (cp_statement h) ->
  statementRetired (cp_statement cp) = statementRetired (cp_statement h) + Z.of_nat (length l) ->
  is_revision (cp_statement cp) = is_revision (cp_statement h) + 1 ->
  titer (retire_member u o) l st = (st1, inr I) ->
  index_ok (update_head u o cp st1) /\ heads_advance st (update_head u o cp st1).
Proof.
  intros Hok Eh Hcp Hnd Hl Ec Er Ev E. pose proof (retire_members_ok u o l st st1 Hok Hnd Hl E) as (Eh1 & Hr1 & Hsub & Hmem & Hret & Hcnt).
  destruct Hok as [Hr Ht Hh Hs]. unfold update_head.
  assert (Ealt : alter (fun _ => cp) (u, o) (inventory_heads st1) = <[(u, o) := cp]> (inventory_heads st)).
  { rewrite Eh1. by rewrite (alter_alt_Some _ _ _ _ Eh). }
  rewrite Ealt. split; [split|]; cbn [set_inventory inventory_heads inventory_members empty_ranges].
  - done.
  - intros k k' m m' Hk Hk'. apply (Ht k k' m m'); by apply Hsub.
  - intros u' o' cp'. rewrite lookup_insert_Some. intros [[[= <- <-] <-]|[_ Hl']]; [done|by apply Hh].
  - intros u' o'. pose proof (Hs u' o') as [A B C]. cbv zeta in *. specialize (Hcnt u' o').
    assert (A' : forall n, member_at st1 u' o' n \/ retired_at st1 u' o' n <-> 1 <= n <= receipts_of (inventory_heads st !! (u', o'))).
    { intros n. rewrite <- A, Hmem, Hret. split.
      { intros [[Hm _]|[Hre|[[= -> ->] Hin]]]; [by left|by right|]. apply list_elem_of_fmap in Hin as ([r n'] & -> & Hin).
        left. by apply (Hl r n'). }
      assert (HD : Decision (n ∈ l.*2)) by apply _.
      destruct (decide ((u', o') = (u, o))) as [Ee|]; [|tauto]. destruct HD as [Hin|]; [|tauto]. tauto. }
    assert (B' : forall n, member_at st1 u' o' n -> retired_at st1 u' o' n -> False).
    { intros n Hm Hre. apply Hmem in Hm as [Hm Hnot]. apply Hret in Hre as [Hre|Hre]; [by apply (B n)|by apply Hnot]. }
    split.
    + intros n. specialize (A' n). unfold member_at, retired_at in *. cbn [set_inventory inventory_members empty_ranges].
      rewrite A'. destruct (decide ((u, o) = (u', o'))) as [[= <- <-]|Hne].
      * rewrite lookup_insert_eq, Eh. cbn [receipts_of]. by rewrite Ec.
      * by rewrite lookup_insert_ne.
    + exact B'.
    + cbn [set_inventory inventory_members]. destruct (decide ((u, o) = (u', o'))) as [[= <- <-]|Hne].
      * rewrite lookup_insert_eq. rewrite Eh in C. cbn [receipts_of inventoryRetiredCount] in *. lia.
      * rewrite lookup_insert_ne by done. lia.
  - intros k h' Hk. cbn [set_inventory inventory_heads]. destruct (decide (k = (u, o))) as [->|Hne].
    + exists cp. rewrite lookup_insert_eq. split; [done|]. right. assert (h' = h) as -> by congruence. lia.
    + exists h'. rewrite lookup_insert_ne by congruence. split; [done|by left].
Qed.

(** ** What is retired *)

Context (current : jsstr -> Store -> throws Z).

Lemma retire_source_ok u o old id st st' r n :
  retire_source signer current u o old id st = (st', inr (r, n)) ->
  same_inventory st st' /\ 1 <= n /\ exists m, inventory_members st !! (u, o, n) = Some m /\ m_ticketId m = id.
Proof.
  intros E. unfold retire_source in E. tx_run E. destruct a0 as [r'|]; [|done]. tx_run E.
  repeat match goal with E' : inr _ = inr ?x |- _ => is_var x; apply (inj inr) in E' end.
  unfold tnow in *. repeat match goal with E' : (_, _) = (_, _) |- _ => apply pair_equal_spec in E' as [<- E'] end.
  match type of E with match ?f with _ => _ end _ = _ => destruct f as [[n' m']|] eqn:Ef; [|done] end.
  tx_run E. injection E as <- <-. apply negb_false_iff in G. unfold encounter_empty_receipt_retire_allowed in G. bool_split.
  split; [done|]. split; [lia|]. exists m'. subst a0. match goal with E' : find_member _ _ _ _ = _ |- _ => apply find_some in E' as [Hin Hid] end.
  apply list_elem_of_In, elem_of_scope in Hin. by apply str_eqb_eq in Hid.
Qed.

Lemma sources_ok u o old ids st st' l :
  sources signer current u o old ids st = (st', inr l) ->
  same_inventory st st' /\ length l = length ids /\
  Forall2 (fun id rn => exists m, inventory_members st !! (u, o, snd rn) = Some m /\ m_ticketId m = id) ids l.
Proof.
  unfold sources. revert st l. induction ids as [|id ids IH]; intros st l E; cbn [tmap] in E; tx_run E.
  - subst l. by split_and!.
  - rename E0 into Es, E1 into El. destruct a as [r n]. apply retire_source_ok in Es as (S1 & _ & m & Hm & Ht).
    apply IH in El as (S2 & Hlen & Hl). subst l. split; [by eapply same_inventory_trans|].
    split; [cbn; by f_equal|]. constructor; [by exists m|]. destruct S1 as (_ & Em & _). by rewrite <- Em.
Qed.
End Index.
