(* ===== verification/InventorySafety.v ===== *)
(** * What the inventory index guarantees

    Any number of calls that compact receipts and retire empty ones, in any
    order and with any interleaving at their awaits, while the rest of the
    service changes its own tables in between. *)
From stdpp Require Import gmap sorting.
From S2P Require Import Prelude Json Contracts Kernel Journal Snapshot Utf8 CryptoBackend EncounterWire EncounterHttp.
From S2P Require Import EncounterBundle InventoryCheckpoint InventoryRanges Async EncounterLedger EncounterStore.
From S2P Require Import OwnerAuth OwnerFacts EncounterWireFacts EncounterHttpFacts EncounterRequestBounds.
From S2P Require Import ArchiveStore Generations Inventory InventoryFacts.
From S2P Require Import EncounterAuthority EncounterInvariant AuthorityFacts EncounterSafety ArchiveSafety.
Set Default Goal Selector "!".

(** ** The handlers *)

Lemma records_shape signer u o ids st rs : records signer u o ids st = inr rs ->
  length rs = length ids /\ 0 <= item_total rs <= Z.of_nat (length rs).
Proof.
  revert rs. induction ids as [|id ids IH]; intros rs E; cbn [records] in E; [apply (inj inr) in E as <-; done|].
  destruct (record signer u o id st) as [|r] eqn:Er; cbn [throw_bind] in E; [done|].
  destruct (records signer u o ids st) as [|rs'] eqn:Ers; cbn [throw_bind] in E; [done|].
  apply (inj inr) in E as <-. destruct (IH _ eq_refl) as [Hl Hi]. cbn [length item_total foldr]. fold (item_total rs').
  unfold record, throw_if in Er. destruct (lookup_id id (ledger st)) as [row|]; [|done]. destruct (receipt row) as [rc|]; [|done].
  destruct (recordRefused _ _ _ _ _ _) eqn:Hr; [done|]. destruct (4096 <? _); [done|]. apply (inj inr) in Er as <-.
  cbn [ir_receipt]. unfold recordRefused in Hr. apply orb_false_iff in Hr as [_ Hr]. apply Nat.ltb_ge in Hr. lia.
Qed.
Lemma compaction_ids c : compaction_ok c = true -> (0 < length (ticketIds c))%nat /\ NoDup (ticketIds c).
Proof.
  unfold compaction_ok, validInventoryCompaction, compaction_value. fields. unfold strings_value. intros Hv. bool_split.
  rewrite length_map in *. split; [by apply Nat.ltb_lt|]. apply has_duplicates_false.
  match goal with E : all_distinct _ = true |- _ => unfold all_distinct in E; rewrite read_strings in E end. by apply negb_true_iff.
Qed.

Section Handlers.
Context (signer : AsyncAuditSigner) (subtle : SubtleCrypto) `{SubtleLaws subtle}.
Context (current : jsstr -> Store -> throws Z) (fault : option jsstr).
Let backend := createStandardWebCryptoBackend subtle.
Context `{CheckpointIds backend}.
Hypothesis Hkey : isDigestText (as_publicKey signer) = true.
Hypothesis Hsig : forall d s, as_signDigest signer d = inr s -> cb_verify backend (as_publicKey signer) d s = inr true.
Abbreviation index_ok := (index_ok signer subtle).
Abbreviation head_ok := (head_ok signer subtle).
Abbreviation yields := (yields index_ok heads_advance).

Lemma index_ledger st w : index_ok st -> index_ok (set_ledger w st) /\ heads_advance st (set_ledger w st).
Proof. intros. by apply same_inventory_ok. Qed.

(** What a returned checkpoint is: a head the authority signed, still the head
    of its index or followed by a later one. *)
Definition issued (u o : jsstr) (cp : InventoryCheckpoint) (st : Store) : Prop :=
  head_ok u o cp /\ exists h, inventory_heads st !! (u, o) = Some h /\
    (h = cp \/ is_revision (cp_statement cp) < is_revision (cp_statement h)).
Lemma issued_later u o cp st st' : heads_advance st st' -> issued u o cp st -> issued u o cp st'.
Proof.
  intros Ha [Hcp (h & Hh & E)]. split; [done|]. destruct (Ha (u, o) h Hh) as (h' & Hh' & E'). exists h'. split; [done|].
  destruct E as [->|E], E' as [->|E']; [by left|by right|by right|right; lia].
Qed.
Lemma issued_head u o cp st : index_ok st -> inventory_heads st !! (u, o) = Some cp -> issued u o cp st.
Proof. intros Hok Hh. split; [by apply (ix_heads _ _ _ Hok)|]. exists cp. eauto. Qed.
Lemma appended_before_head h expected digest c : appended_before h expected digest = Some c -> h = Some c.
Proof. unfold appended_before. destruct h as [c'|]; [|done]. destruct (_ && _); [|done]. congruence. Qed.
Lemma retired_before_head h expected digest c : retired_before h expected digest = Some c -> h = Some c.
Proof. unfold retired_before. destruct h as [c'|]; [|done]. destruct (_ && _); [|done]. congruence. Qed.

Lemma index_fault_ok st st' a : write_fault fault st = (st', inr a) -> st' = st.
Proof. unfold write_fault. destruct fault; [done|]. by intros [= <-]. Qed.

Lemma append_transaction_ok u o expected digest old rs cp st0 st st' c :
  index_ok st0 -> index_ok st -> heads_advance st0 st -> inventory_heads st0 !! (u, o) = old -> head_id old = expected ->
  head_ok u o cp -> is_receiptCount (cp_statement cp) = receipts_of old + Z.of_nat (length rs) ->
  statementRetired (cp_statement cp) = inventoryRetiredCount old -> is_revision (cp_statement cp) = revision_of old + 1 ->
  append_transaction signer fault u o expected digest old rs cp st = (st', inr c) ->
  index_ok st' /\ heads_advance st st' /\ issued u o c st'.
Proof.
  intros Hok0 Hok Ha Eold Eid Hcp Ec Er Ev E. unfold append_transaction in E. tx_run E.
  rewrite (head_found signer subtle) in E0 by done. apply (inj inr) in E0 as <-.
  destruct (appended_before _ _ _) as [c'|] eqn:Eb.
  - tx_run E. subst c'. apply appended_before_head in Eb. split; [done|]. split; [reflexivity|]. by apply issued_head.
  - tx_run E. apply negb_false_iff, bool_decide_eq_true in G.
    assert (Eh : inventory_heads st !! (u, o) = old).
    { by apply (same_head signer subtle st0 st (u, o) u o old); [..|congruence]. }
    destruct a. apply index_fault_ok in E1. subst st2 c. rewrite <- Eh in E0, Ec, Er, Ev.
    eapply (append_index signer subtle) in E0 as [Hok' Ha']; [|done|done|done|done|done].
    split; [done|]. split; [done|]. split; [done|]. exists cp. unfold set_head. cbn [set_inventory inventory_heads].
    rewrite lookup_insert_eq. eauto.
Qed.

Lemma retire_transaction_ok u o command digest old initial cp st0 st st' c :
  index_ok st0 -> index_ok st -> heads_advance st0 st -> inventory_heads st0 !! (u, o) = Some old ->
  Some (checkpointId old) = expectedCheckpointId command -> compaction_ok command = true ->
  head_ok u o cp -> is_receiptCount (cp_statement cp) = is_receiptCount (cp_statement old) ->
  statementRetired (cp_statement cp) = statementRetired (cp_statement old) + Z.of_nat (length (ticketIds command)) ->
  is_revision (cp_statement cp) = is_revision (cp_statement old) + 1 ->
  retire_transaction signer current fault u o command digest old initial cp st = (st', inr c) ->
  index_ok st' /\ heads_advance st st' /\ issued u o c st'.
Proof.
  intros Hok0 Hok Ha Eold Eid Hc Hcp Ec Er Ev E. unfold retire_transaction in E. tx_run E.
  rewrite (head_found signer subtle) in E0 by done. apply (inj inr) in E0 as <-.
  destruct (retired_before _ _ _) as [c'|] eqn:Eb.
  - tx_run E. subst c'. apply retired_before_head in Eb. split; [done|]. split; [reflexivity|]. by apply issued_head.
  - tx_run E. apply negb_false_iff, bool_decide_eq_true in G.
    assert (Eh : inventory_heads st !! (u, o) = Some old).
    { apply (same_head signer subtle st0 st (u, o) u o (Some old)); [done..|].
      cbn [head_id fmap option_fmap option_map]. congruence. }
    apply sources_ok in E0 as (Hsame & Hlen & Hl). destruct (compaction_ids command Hc) as [_ Hnd].
    destruct (same_inventory_ok signer subtle st st1 Hsame Hok) as [Hok1 Ha1]. destruct Hsame as (Eh1 & Em1 & _).
    rewrite <- Em1 in Hl. rewrite <- Eh1 in Eh. destruct a0.
    apply index_fault_ok in E2. subst st3 c.
    eapply (retire_index signer subtle) with (h := old) (cp := cp) in E1 as [Hok' Ha']; [|done|done|done| | |done|congruence|done].
    + split; [done|]. split; [by etrans|]. split; [done|]. exists cp.
      split; [|by left]. destruct (Ha' (u, o) old Eh) as (h' & Hh' & _). revert Hh'. unfold update_head.
      cbn [set_inventory inventory_heads]. rewrite lookup_alter_eq. by destruct (inventory_heads st2 !! (u, o)).
    + by eapply sources_distinct.
    + intros r n Hin. apply list_elem_of_lookup in Hin as [i Hi].
      destruct (Forall2_lookup_r _ _ _ _ _ Hl Hi) as (id & _ & m & Hm & _). by exists m.
Qed.

Lemma sources_frame u o old ids : tx_within ledger_only (sources signer current u o old ids).
Proof. unfold sources, retire_source. repeat first [tx_step_within | apply ledger_only_now]. Qed.

Lemma compact_spec u o command st : identifier u = true -> unit_range u -> isDigestText o = true -> index_ok st ->
  yields (compact signer backend fault u o command) st (issued u o).
Proof.
  intros Hu Htx Ho Hok. unfold compact. apply yields_refuse; [exact _|done|]. intros Hc%negb_false_iff.
  apply yields_read; [exact _|done|]. intros rs (Hlen & Hit0 & Hit)%records_shape.
  apply yields_await; [exact _|done|]. intros digest st1 Hok1 _ Hd.
  apply yields_read; [exact _|done|]. intros old Eo.
  rewrite (head_found signer subtle) in Eo by done. apply (inj inr) in Eo.
  destruct (appended_before old _ digest) as [c|] eqn:Eb.
  { apply yields_ret; [exact _|done|]. apply appended_before_head in Eb. apply issued_head; [done|congruence]. }
  apply yields_refuse; [exact _|done|]. intros Hid%negb_false_iff%bool_decide_eq_true.
  apply spec_read_bind. apply yields_refuse; [exact _|done|]. intros _.
  apply yields_await; [exact _|done|]. intros root st2 Hok2 R2 Hroot.
  apply yields_now; [exact _|exact index_ledger|done|]. intros at_ st3 Hok3 R3. cbv zeta.
  apply yields_refuse; [exact _|done|].
  intros [[Hat%negb_false_iff Hrev%negb_false_iff]%orb_false_iff Hcap%Z.ltb_ge]%orb_false_iff.
  apply yields_await; [exact _|done|]. intros id st4 Hok4 R4 Hh.
  apply yields_await; [exact _|done|]. intros sg st5 Hok5 R5 Hs.
  apply yields_transaction; [exact index_ledger|done|]. intros st' c E.
  destruct (compaction_ids command Hc) as [Hne _]. rewrite <- Hid in *.
  eapply append_transaction_ok in E; [exact E|exact Hok1|done| |exact Eo|done| |done| |done].
  - by do 3 (etrans; [eassumption|]).
  - eapply append_valid; try done; [|lia]. intros cp Ecp. subst old. by apply (ix_heads _ _ _ Hok1).
  - unfold statementRetired, append_statement. destruct old as [h|]; [|done]. cbn [cp_statement is_version inventoryRetiredCount].
    unfold statementRetired. by destruct (is_version (cp_statement h)).
Qed.

Lemma retireEmpty_spec u o command st : index_ok st ->
  yields (retireEmpty signer backend current fault u o command) st (issued u o).
Proof.
  intros Hok. unfold retireEmpty. apply yields_refuse; [exact _|done|].
  intros [Hc%negb_false_iff _]%orb_false_iff.
  apply yields_await; [exact _|done|]. intros digest st1 Hok1 _ Hd.
  apply yields_read; [exact _|done|]. intros found Eo.
  rewrite (head_found signer subtle) in Eo by done. apply (inj inr) in Eo.
  destruct (retired_before found _ digest) as [c|] eqn:Eb.
  { apply yields_ret; [exact _|done|]. apply retired_before_head in Eb. apply issued_head; [done|congruence]. }
  destruct found as [old|]; [|by apply yields_throw; [exact _|]].
  apply yields_refuse; [exact _|done|]. intros Hid%negb_false_iff%bool_decide_eq_true.
  apply yields_await; [exact _|done|]. intros _ st2 Hok2 R2 _.
  apply yields_sync; [exact _|exact index_ledger|apply sources_frame|done|]. intros initial st3 _ Hok3 R3.
  apply yields_await; [exact _|done|]. intros root st4 Hok4 R4 Hroot.
  apply yields_now; [exact _|exact index_ledger|done|]. intros at_ st5 Hok5 R5. cbv zeta.
  apply yields_refuse; [exact _|done|]. intros Hz%negb_false_iff.
  apply yields_await; [exact _|done|]. intros id st6 Hok6 R6 Hh.
  apply yields_await; [exact _|done|]. intros sg st7 Hok7 R7 Hs.
  apply yields_transaction; [exact index_ledger|done|]. intros st' c E.
  eapply retire_transaction_ok in E; [exact E|exact Hok1|done| |exact Eo|done|done| |done|done|done].
  - by do 5 (etrans; [eassumption|]).
  - eapply retire_valid; try done. by apply (ix_heads _ _ _ Hok1).
Qed.
End Handlers.

(** ** Requests *)

Section Pool.
Context (signer : AsyncAuditSigner) (subtle : SubtleCrypto).
Context (current : jsstr -> Store -> throws Z) (fault : option jsstr).
Let backend := createStandardWebCryptoBackend subtle.

Inductive inventory_request :=
| q_compact (u o : jsstr) (Hu : identifier u = true) (Ht : unit_range u) (Ho : isDigestText o = true) (c : InventoryCompaction)
| q_retire (u o : jsstr) (c : InventoryCompaction).
Definition request_scope (req : inventory_request) : jsstr * jsstr :=
  match req with q_compact u o _ _ _ _ | q_retire u o _ => (u, o) end.
Definition inventory_serve (req : inventory_request) : async Store InventoryCheckpoint :=
  match req with
  | q_compact u o _ _ _ c => compact signer backend fault u o c
  | q_retire u o c => retireEmpty signer backend current fault u o c
  end.

Abbreviation inventory_pool := (pool Store inventory_request InventoryCheckpoint).
(** The rest of the service changes everything but the index. *)
Abbreviation inventory_runs := (rtc (pool_step inventory_serve same_inventory)).
Definition inventory_reached (st0 : Store) (p : inventory_pool) : Prop :=
  index_ok signer subtle st0 /\ inventory_runs (mkPool st0 []) p.
Definition inventory_promise (req : inventory_request) : throws InventoryCheckpoint -> Store -> Prop :=
  on_return (issued signer subtle (fst (request_scope req)) (snd (request_scope req))).

Context `{SubtleLaws subtle} `{CheckpointIds backend}.
Hypothesis Hkey : isDigestText (as_publicKey signer) = true.
Hypothesis Hsig : forall d s, as_signDigest signer d = inr s -> cb_verify backend (as_publicKey signer) d s = inr true.

Lemma inventory_serve_ok req st : index_ok signer subtle st ->
  spec (index_ok signer subtle) heads_advance (inventory_serve req) st (inventory_promise req).
Proof. intros Hok. destruct req as [u o Hu Ht Ho c|u o c]; [by apply compact_spec|by apply retireEmpty_spec]. Qed.
Lemma inventory_promise_later req r st st' : index_ok signer subtle st' -> heads_advance st st' ->
  inventory_promise req r st -> inventory_promise req r st'.
Proof. intros _ Ha. destruct r as [|cp]; [done|]. by apply issued_later. Qed.
Lemma inventory_pool_ok st0 p : inventory_reached st0 p ->
  pool_ok (index_ok signer subtle) heads_advance inventory_promise p.
Proof.
  intros [Hok Hr]. refine (proj1 (pool_sound inventory_serve same_inventory _ _ _ _ inventory_serve_ok
    inventory_promise_later (mkPool st0 []) p _ Hr)); [|by split].
  intros st st' Hok' Hs. by apply same_inventory_ok.
Qed.
End Pool.

(** C29: the index stays a partition under every interleaving of compactions
    and retirements with each other and with the rest of the service: the
    ordinals from 1 to the signed [receiptCount] are members or retired, never
    both, no other ordinal is either, the members are exactly as many as the
    head says are left, and no ticket is indexed twice. *)
Theorem inventory_index_partitions signer subtle current fault
    `{SubtleLaws subtle} `{CheckpointIds (createStandardWebCryptoBackend subtle)} st0 p (u o : jsstr) :
  isDigestText (as_publicKey signer) = true ->
  (forall d s, as_signDigest signer d = inr s ->
     cb_verify (createStandardWebCryptoBackend subtle) (as_publicKey signer) d s = inr true) ->
  inventory_reached signer subtle current fault st0 p ->
  let st := Async.store p in
  let h := inventory_heads st !! (u, o) in
  (forall n, 1 <= n <= receipts_of h <-> member_at st u o n \/ retired_at st u o n) /\
  (forall n, member_at st u o n -> ~ retired_at st u o n) /\
  Z.of_nat (length (scope_members u o st)) = receipts_of h - inventoryRetiredCount h /\
  (forall k k' m m', inventory_members st !! k = Some m -> inventory_members st !! k' = Some m' ->
     m_ticketId m = m_ticketId m' -> k = k').
Proof.
  intros Hkey Hsig Hr. destruct (inventory_pool_ok signer subtle current fault Hkey Hsig st0 p Hr) as [[_ Ht _ Hs] _].
  destruct (Hs u o) as [A B C]. cbv zeta in *. split_and!.
  - intros n. by rewrite A.
  - intros n Hm Hre. by apply (B n).
  - rewrite scope_length. lia.
  - exact Ht.
Qed.

Lemma head_verifies signer subtle `{SubtleLaws subtle} u o cp :
  isDigestText (as_publicKey signer) = true -> head_ok signer subtle u o cp ->
  verifyInventoryCheckpoint (createStandardWebCryptoBackend subtle) (checkpoint_object cp) (as_publicKey signer) = true.
Proof.
  intros Hkey [Hv Hk _ _ Hi _ Hs]. unfold verifyInventoryCheckpoint, or_false.
  rewrite read_checkpoint_object, valid_fields, Hv, Hk, str_eqb_refl, Hkey. cbn [negb orb].
  rewrite Hi. cbn [throw_bind]. rewrite str_eqb_refl. cbn [negb]. by rewrite Hs.
Qed.

(** A checkpoint that a compaction or a retirement returns is one the
    client accepts: it verifies under the authority's key and is of the owner
    and unit that asked, and in every state since, the head of that index is
    this checkpoint or one of a later revision, so no answer is ever undone. *)
Theorem inventory_checkpoints_verify signer subtle current fault
    `{SubtleLaws subtle} `{CheckpointIds (createStandardWebCryptoBackend subtle)} st0 p req cp :
  isDigestText (as_publicKey signer) = true ->
  (forall d s, as_signDigest signer d = inr s ->
     cb_verify (createStandardWebCryptoBackend subtle) (as_publicKey signer) d s = inr true) ->
  inventory_reached signer subtle current fault st0 p -> (req, Finished (inr cp)) ∈ threads p ->
  verifyInventoryCheckpoint (createStandardWebCryptoBackend subtle) (checkpoint_object cp) (as_publicKey signer) = true /\
  (is_unit (cp_statement cp), is_ownerPublicKey (cp_statement cp)) = request_scope req /\
  exists h, inventory_heads (Async.store p) !! request_scope req = Some h /\
    (h = cp \/ is_revision (cp_statement cp) < is_revision (cp_statement h)).
Proof.
  intros Hkey Hsig Hr Hin. pose proof (inventory_pool_ok signer subtle current fault Hkey Hsig st0 p Hr) as Hp.
  pose proof (pool_answer _ _ _ _ _ _ Hp Hin) as [Hcp Hh]. destruct (request_scope req) as [u o]. cbn [fst snd] in *.
  split; [by apply (head_verifies signer subtle u o)|]. split; [|done].
  by rewrite (ho_unit _ _ _ _ _ Hcp), (ho_owner _ _ _ _ _ Hcp).
Qed.

(** ** A concrete index *)

Definition read_text : jsstr -> option jsval := parse_text (fun _ z _ => JNum z).
Lemma read_text_stringify v : plain v = true -> read_text (stringify v) = Some v.
Proof. intros Hv. by apply (parse_text_stringify _ (fun _ => true)). Qed.

(** A digest that keeps the revision of a checkpoint, for small revisions. *)
Definition legacy_revision (v : jsval) : option Z :=
  match v with JArr (JStr _ :: args) => match args !! 5%nat with Some (JNum r) => Some r | _ => None end | _ => None end.
Definition frame_revision (v : jsval) : option Z :=
  match v with
  | JArr [JStr _; _; _; JStr legacy] => read_text legacy ≫= legacy_revision
  | _ => legacy_revision v
  end.
Definition is_checkpoint_frame (v : jsval) : bool :=
  match v with
  | JArr (JStr tag :: _) => str_eqb tag (js "encounter-inventory-checkpoint-v1") || str_eqb tag (js "encounter-inventory-checkpoint-v2")
  | _ => false
  end.
Definition indexed_digest (m : list N) : throws (list N) :=
  match utf8_decode m ≫= read_text with
  | Some v =>
      if is_checkpoint_frame v then
        match frame_revision v with
        | Some r => if (1 <=? r) && (r <? 256) then inr (repeat (Z.to_N r) 32) else inl (js "unsupported")
        | None => inl (js "unsupported")
        end
      else inr (toy_bytes m)
  | None => inr (toy_bytes m)
  end.
Definition indexed_subtle : SubtleCrypto :=
  mkSubtle (list N) (fun _ => js "private") (fun _ => false) (fun _ => js "Ed25519")
    (fun _ => [js "sign"]) indexed_digest (fun b => inr b) (fun x d => inr x) (sc_verify toy_subtle)
    (sc_sign toy_subtle) (inr ([], [])) (fun key => inr key).
#[export] Instance indexed_laws : SubtleLaws indexed_subtle.
Proof.
  split. intros text d. cbn [sc_digest indexed_subtle]. unfold indexed_digest.
  destruct (_ ≫= _) as [v|]; [|intros E; apply (inj inr) in E as <-; apply toy_bytes_of].
  destruct (is_checkpoint_frame v); [|intros E; apply (inj inr) in E as <-; apply toy_bytes_of].
  destruct (frame_revision v) as [r|]; [|done]. destruct (_ && _) eqn:Hr; [|done]. intros E. apply (inj inr) in E as <-.
  split; [by rewrite repeat_length|]. apply Forall_forall. intros b Hb. apply list_elem_of_In, repeat_spec in Hb. lia.
Qed.

Lemma hex_range n s : is_hex n s = true -> forallb (fun c => (c <? 65536)%N) s = true.
Proof.
  intros [Hs _]%hex_simple. rewrite !forallb_forall in *. intros c Hc. apply Hs in Hc. unfold simple_unit in Hc.
  apply andb_true_iff in Hc as [[[_ Hc%N.ltb_lt]%andb_true_iff _]%andb_true_iff _]. apply N.ltb_lt. lia.
Qed.
Lemma range_forallb s : unit_range s -> forallb (fun c => (c <? 65536)%N) s = true.
Proof. intros Hs. apply forallb_forall. intros c Hc. apply list_elem_of_In in Hc. apply N.ltb_lt. by apply (proj1 (Forall_forall _ _) Hs). Qed.
Lemma encodable_range s : encodable s -> forallb (fun c => (c <? 65536)%N) s = true.
Proof. intros [_ Hs]. by apply range_forallb. Qed.
Lemma frame_decodes d vs : text_ok (JStr (js d)) = true -> forallb plain vs = true -> forallb text_ok vs = true ->
  (utf8_decode (utf8_encode (frame d vs)) ≫= read_text) = Some (JArr (JStr (js d) :: vs)).
Proof.
  intros Hd Hp Ht.
  assert (He : encodable (frame d vs)) by (apply stringify_encodable; cbn [text_ok forallb] in *; by rewrite Hd).
  assert (Hf : exists r, frame d vs = 91%N :: r) by (unfold frame; cbn [stringify]; eexists; reflexivity).
  destruct Hf as [r Hf]. destruct He as [Hw Hu]. rewrite Hf in *. rewrite utf8_roundtrip by done.
  cbn [mbind option_bind]. rewrite <- Hf. unfold frame. apply read_text_stringify. exact Hp.
Qed.

Lemma checkpoint_decodes cp : validCheckpointFields cp = true -> unit_range (is_unit (cp_statement cp)) ->
  exists v, (utf8_decode (utf8_encode (inventoryCheckpointFrame (cp_statement cp))) ≫= read_text) = Some v /\
    is_checkpoint_frame v = true /\ frame_revision v = Some (is_revision (cp_statement cp)).
Proof.
  destruct cp as [[v k u o r n p b root c i t] id sg]. unfold validCheckpointFields, statementRetired, inventoryCheckpointFrame.
  cbn [cp_statement is_version is_authorityKey is_unit is_ownerPublicKey is_rulesId is_revision is_previousId batchDigest
       is_root is_receiptCount itemCount createdAt checkpointId cp_signature]. intros Hv Hu. bool_split.
  match goal with E : str_eqb r ENCOUNTER_RULES = true |- _ => apply str_eqb_eq in E as -> end.
  unfold isDigestText in *.
  repeat match goal with E : is_hex _ ?x = true |- _ => apply hex_range in E end.
  assert (Hp : text_ok (optional_string p) = true /\ plain (optional_string p) = true).
  { destruct p as [d|]; [|done]. split; [|done]. match goal with E : is_hex _ d = true |- _ => exact (hex_range _ _ E) end. }
  destruct Hp as [Hp1 Hp2].
  assert (Hr : forallb (fun c => (c <? 65536)%N) ENCOUNTER_RULES = true) by (vm_compute; reflexivity).
  set (args := [JNum 1; JStr k; JStr u; JStr o; JStr ENCOUNTER_RULES; JNum n; optional_string p; JStr b; JStr root; JNum c; JNum i; JNum t]).
  assert (Ha : forallb plain args = true) by (unfold args; cbn [forallb]; by rewrite Hp2).
  assert (Ht : forallb text_ok args = true).
  { unfold args; cbn [forallb text_ok]. apply range_forallb in Hu. rewrite Hp1, Hr, Hu.
    repeat match goal with E : forallb _ ?x = true |- context [forallb _ ?x] => rewrite E end. done. }
  destruct v as [|op m].
  - eexists. split; [apply frame_decodes; [vm_compute; reflexivity|exact Ha|exact Ht]|]. done.
  - assert (Hl : encodable (frame "encounter-inventory-checkpoint-v1" args)).
    { apply stringify_encodable. cbn [text_ok]. cbn [forallb]. rewrite Ht. vm_compute. reflexivity. }
    eexists. split.
    { apply frame_decodes; [vm_compute; reflexivity|done|]. cbn [forallb text_ok].
      rewrite (encodable_range _ Hl). by destruct op. }
    split; [done|]. cbn [frame_revision]. unfold frame. rewrite read_text_stringify by (cbn [plain plain_with forallb]; exact Ha). done.
Qed.
#[export] Instance indexed_ids : CheckpointIds (createStandardWebCryptoBackend indexed_subtle).
Proof.
  split. intros cp cp' d Hv Hu Hv' Hu'. unfold hash. cbn [cb_hashString createStandardWebCryptoBackend]. unfold hashString.
  cbn [sc_digest indexed_subtle]. unfold indexed_digest.
  destruct (checkpoint_decodes cp Hv Hu) as (v & -> & -> & ->), (checkpoint_decodes cp' Hv' Hu') as (v' & -> & -> & ->).
  destruct (_ && _) eqn:E in |- *; cbn [throw_bind]; [|done]. intros Hd.
  destruct (_ && _) eqn:E' in |- *; cbn [throw_bind]; [|done]. intros Hd'.
  apply (inj inr) in Hd, Hd'. rewrite <- Hd in Hd'. clear Hd. bool_split.
  assert (Hb : forall z, 1 <= z < 256 -> lowerHexToBytes (bytesToLowerHex (repeat (Z.to_N z) 32)) 32 = Some (repeat (Z.to_N z) 32)).
  { intros z Hz. rewrite <- (repeat_length (Z.to_N z) 32) at 3. apply hex_codec_exact.
    apply Forall_forall. intros x Hx. apply list_elem_of_In, repeat_spec in Hx. lia. }
  pose proof (Hb (is_revision (cp_statement cp)) ltac:(lia)) as B1. pose proof (Hb (is_revision (cp_statement cp')) ltac:(lia)) as B2.
  rewrite Hd', B1 in B2. injection B2 as B2. lia.
Qed.

(** Two settled receipts of closed generations: one with an item, one without. *)
Definition toy_signer : AsyncAuditSigner := toy_signs "authority".
Definition settled_origin (id : string) (won : list EncounterItem) : EncounterLedgerRow :=
  let rc := receipt_or (receipt toy_row) in
  let s := receipt_statement rc in
  let t := ticket toy_row in
  mkRow 4 (startKey toy_row)
    (mkTicket (t_authorization t) (t_version t) (js id) (authorityKey t) (rulesId t) (queueId t) (seedCommitment t) (issuedAt t)
       (commitNotBefore t) (releaseAt t) (ticketSignature t))
    [] settled (commitment toy_row) (committedAt toy_row) None
    (Some (mkEncounterReceipt
      (mkReceiptStatement (rs_version s) (rs_authorityKey s) (js id) (rs_unit s) (rs_rulesId s) (rs_playerId s)
         (rs_ownerPublicKey s) (rs_root s) (finalStateDigest s) won (settledAt s) (rs_retentionUntil s))
      (receiptId rc) (receipt_signature rc)))
    None false true [] None false.
Definition toy_origins : list EncounterLedgerRow :=
  [settled_origin "ticket-1" (items (receipt_statement (receipt_or (receipt toy_row)))); settled_origin "ticket-2" []].
Definition toy_compacted : Store :=
  store_of (mkWorld ∅ (list_to_map (map (fun r => (row_id r, mkEntry (row_id r) (revision r) r)) toy_origins)) 0
    (fun _ => 9000) (uuid_at toy_world) (random_at toy_world) None None).
Lemma toy_compacted_ok : index_ok toy_signer indexed_subtle toy_compacted.
Proof.
  split; [split; intros r *; by rewrite elem_of_nil|..]; cbn [toy_compacted store_of inventory_members inventory_heads empty_ranges].
  - intros k k' m m' Hk. by rewrite lookup_empty in Hk.
  - intros u o cp Hcp. by rewrite lookup_empty in Hcp.
  - intros u o. cbv zeta. rewrite lookup_empty. split.
    + intros n. unfold member_at, retired_at. cbn [toy_compacted store_of inventory_members empty_ranges]. rewrite lookup_empty.
      split; [|cbn; lia]. intros [[m [=]]|(g & Hg & _)]. by apply elem_of_nil in Hg.
    + intros n [m [=]].
    + done.
Qed.

Definition toy_owner : jsstr := bytesToLowerHex (toy_public "alice").
Definition toy_compact : inventory_request :=
  q_compact (js "unit") toy_owner eq_refl ltac:(unfold unit_range; repeat constructor) eq_refl
    (mkCompaction None [js "ticket-1"; js "ticket-2"]).
Definition toy_inventory (reqs : list inventory_request) : pool Store inventory_request InventoryCheckpoint :=
  serve_all (inventory_serve toy_signer indexed_subtle (fun _ _ => inr 1) None) reqs (mkPool toy_compacted []).
Definition answer_or (ts : list (inventory_request * step Store InventoryCheckpoint)) : InventoryCheckpoint :=
  match List.last ts (toy_compact, Finished (inl [])) with
  | (_, Finished (inr cp)) => cp
  | _ => mkInventoryCheckpoint (mkInventoryStatement version_1 [] [] [] [] 0 None [] [] 0 0 0) [] []
  end.
Definition toy_retire : inventory_request :=
  q_retire (js "unit") toy_owner
    (mkCompaction (Some (checkpointId (answer_or (threads (toy_inventory [toy_compact]))))) [js "ticket-2"]).
Definition toy_index := toy_inventory [toy_compact; toy_retire].
Lemma toy_index_reached reqs :
  inventory_reached toy_signer indexed_subtle (fun _ _ => inr 1) None toy_compacted (toy_inventory reqs).
Proof. split; [apply toy_compacted_ok|apply serve_all_runs]. Qed.

Lemma toy_accepted d s : as_signDigest toy_signer d = inr s ->
  cb_verify (createStandardWebCryptoBackend indexed_subtle) (as_publicKey toy_signer) d s = inr true.
Proof. apply toy_signer_accepted. Qed.

Lemma inventory_index_partitions_witness :
  Z.of_nat (length (scope_members (js "unit") toy_owner (Async.store toy_index))) = 1 /\
  (forall n, 1 <= n <= 2 <-> member_at (Async.store toy_index) (js "unit") toy_owner n \/
                             retired_at (Async.store toy_index) (js "unit") toy_owner n).
Proof.
  assert (Hkey : isDigestText (as_publicKey toy_signer) = true) by (vm_compute; reflexivity).
  destruct (inventory_index_partitions toy_signer indexed_subtle (fun _ _ => inr 1) None toy_compacted toy_index (js "unit")
              toy_owner Hkey toy_accepted (toy_index_reached _)) as (A & _ & C & _).
  assert (E : receipts_of (inventory_heads (Async.store toy_index) !! (js "unit", toy_owner)) = 2 /\
              inventoryRetiredCount (inventory_heads (Async.store toy_index) !! (js "unit", toy_owner)) = 1)
    by (vm_compute; split; reflexivity).
  destruct E as [E1 E2]. rewrite E1, E2 in C. rewrite E1 in A. exact (conj C A).
Defined.

Definition answered_last (ts : list (inventory_request * step Store InventoryCheckpoint)) : bool :=
  match List.last ts (toy_compact, Finished (inl [])) with (_, Finished (inr _)) => true | _ => false end.
Lemma last_answered ts : answered_last ts = true ->
  (fst (List.last ts (toy_compact, Finished (inl []))), Finished (inr (answer_or ts))) ∈ ts.
Proof.
  unfold answered_last, answer_or. destruct ts as [|t ts _] using rev_ind; [done|]. rewrite last_last.
  destruct t as [req [[e|cp]|k]]; [done| |done]. intros _. apply elem_of_app. right. by left.
Qed.
Lemma inventory_checkpoints_verify_witness :
  verifyInventoryCheckpoint (createStandardWebCryptoBackend indexed_subtle)
    (checkpoint_object (answer_or (threads toy_index))) (as_publicKey toy_signer) = true.
Proof.
  assert (Hkey : isDigestText (as_publicKey toy_signer) = true) by (vm_compute; reflexivity).
  assert (Ha : answered_last (threads toy_index) = true) by (vm_compute; reflexivity).
  exact (proj1 (inventory_checkpoints_verify toy_signer indexed_subtle (fun _ _ => inr 1) None toy_compacted toy_index _ _
           Hkey toy_accepted (toy_index_reached _) (last_answered _ Ha))).
Defined.
