(* ===== verification/InventoryPages.v ===== *)
(** * Reading the inventory index

    Pages of the index against a reference: the records of the members in the
    order of their ordinals.  Reading page by page from the start returns, ends,
    passes the client's check at every page and yields that list. *)
From stdpp Require Import gmap sorting.
From S2P Require Import Prelude Json Contracts Kernel Journal Snapshot Utf8 CryptoBackend EncounterWire EncounterHttp.
From S2P Require Import EncounterBundle InventoryCheckpoint InventoryRanges Async EncounterLedger EncounterStore.
From S2P Require Import OwnerAuth OwnerFacts EncounterWireFacts EncounterHttpFacts EncounterRequestBounds.
From S2P Require Import ArchiveStore Generations Inventory InventoryFacts InventorySafety.
From S2P Require Import EncounterAuthority EncounterInvariant AuthorityFacts EncounterSafety ArchiveSafety.
Set Default Goal Selector "!".

(** ** Sorted ordinals *)

#[export] Instance ordinal_le_total : Total ordinal_le.
Proof. intros [a x] [b y]. unfold ordinal_le. cbn. lia. Qed.
#[export] Instance ordinal_le_trans : Transitive ordinal_le.
Proof. intros [a x] [b y] [c z]. unfold ordinal_le. cbn. lia. Qed.
Lemma ordinals_sorted l : StronglySorted Z.le (merge_sort ordinal_le l).*1.
Proof.
  pose proof (StronglySorted_merge_sort ordinal_le l) as Hs. induction Hs as [|x l' Hs IH Hx]; [constructor|].
  rewrite fmap_cons. constructor; [done|]. rewrite Forall_fmap. eapply Forall_impl; [exact Hx|]. done.
Qed.
Lemma seqZ_sorted a k : StronglySorted Z.le (seqZ a k).
Proof.
  destruct (Z.le_gt_cases k 0) as [H|_]; [rewrite seqZ_nil by lia; constructor|].
  destruct (Z.le_gt_cases 0 k) as [Hk|]; [|rewrite seqZ_nil by lia; constructor]. revert a.
  apply Z_of_nat_complete in Hk as [j ->]. induction j as [|j IH]; intros a; [rewrite seqZ_nil by lia; constructor|].
  rewrite seqZ_cons by lia. replace (Z.pred (Z.of_nat (S j))) with (Z.of_nat j) by lia. constructor; [apply IH|].
  apply Forall_forall. intros x Hx%elem_of_seqZ. lia.
Qed.
Lemma filter_ordinals (f : Z * MemberRow -> bool) l : NoDup l.*1 -> NoDup (List.filter f l).*1.
Proof.
  induction l as [|[n m] l IH]; [done|]. rewrite fmap_cons, NoDup_cons. intros [Hx Hs]. cbn [List.filter].
  case_match; [|by apply IH]. rewrite fmap_cons. apply NoDup_cons. split; [|by apply IH]. intros Hin. apply Hx.
  apply list_elem_of_fmap in Hin as (y & -> & Hy). apply elem_of_filter_List in Hy as [Hy _]. apply list_elem_of_fmap. by exists y.
Qed.

(** ** The reference *)

Section Reference.
Context (signer : AsyncAuditSigner) (u o : jsstr) (st : Store).

Definition is_member_at (n : Z) : bool := bool_decide (is_Some (inventory_members st !! (u, o, n))).
Definition record_at (n : Z) : option InventoryReceiptRecord :=
  m ← inventory_members st !! (u, o, n);
  match member_record signer u o m st with inr r => Some r | inl _ => None end.
(** The records of the members after [a] up to [b], in order. *)
Definition catalog (a b : Z) : list InventoryReceiptRecord := omap record_at (seqZ (a + 1) (b - a)).
(** The receipt of every member can still be read. *)
Definition available : Prop :=
  forall n m, inventory_members st !! (u, o, n) = Some m -> exists r, member_record signer u o m st = inr r.

(** How many ordinals after [a] up to [b] are not members. *)
Definition absent (a b : Z) : Z := Z.of_nat (length (List.filter (fun n => negb (is_member_at n)) (seqZ (a + 1) (b - a)))).

Lemma span_split a b c : a <= b <= c -> seqZ (a + 1) (c - a) = seqZ (a + 1) (b - a) ++ seqZ (b + 1) (c - b).
Proof.
  intros Hab. replace (c - a) with ((b - a) + (c - b)) by lia. rewrite seqZ_app by lia. f_equal. f_equal. lia.
Qed.
Lemma catalog_split a b c : a <= b <= c -> catalog a c = catalog a b ++ catalog b c.
Proof. intros Hab. unfold catalog. by rewrite (span_split a b c Hab), omap_app. Qed.
Lemma absent_split a b c : a <= b <= c -> absent a c = absent a b + absent b c.
Proof. intros Hab. unfold absent. rewrite (span_split a b c Hab), List.filter_app, length_app. lia. Qed.
Lemma absent_nonneg a b : 0 <= absent a b.
Proof. unfold absent. lia. Qed.
Lemma span_one a : seqZ (a + 1) (a + 1 - a) = [a + 1].
Proof. replace (a + 1 - a) with 1 by lia. rewrite seqZ_cons by lia. by rewrite seqZ_nil by lia. Qed.

Lemma one_member a m r : inventory_members st !! (u, o, a + 1) = Some m -> member_record signer u o m st = inr r ->
  catalog a (a + 1) = [r] /\ absent a (a + 1) = 0.
Proof.
  intros Hm Hr. unfold catalog, absent. rewrite span_one. cbn [omap list_omap List.filter].
  unfold record_at, is_member_at. rewrite Hm. cbn [mbind option_bind]. rewrite Hr. done.
Qed.
Lemma no_members a b : a <= b -> (forall n, a < n <= b -> inventory_members st !! (u, o, n) = None) ->
  catalog a b = [] /\ absent a b = b - a.
Proof.
  intros Hab Hn. unfold catalog, absent.
  assert (Hs : forall n, n ∈ seqZ (a + 1) (b - a) -> inventory_members st !! (u, o, n) = None).
  { intros n Hin%elem_of_seqZ. apply Hn. lia. }
  assert (Hl : Z.of_nat (length (seqZ (a + 1) (b - a))) = b - a) by (rewrite length_seqZ; lia).
  revert Hs Hl. generalize (seqZ (a + 1) (b - a)) as l. intros l Hs Hl. rewrite <- Hl. clear Hl Hn.
  induction l as [|n l IH]; [done|]. cbn [omap list_omap List.filter length].
  unfold record_at at 1. unfold is_member_at at 1. rewrite (Hs n) by (by left). cbn [mbind option_bind].
  destruct IH as [-> IH]; [intros; apply Hs; by right|]. split; [done|].
  rewrite bool_decide_eq_false_2 by (intros [? [=]]). cbn [negb length]. lia.
Qed.
End Reference.

(** ** Counting *)

Section Page.
Context (signer : AsyncAuditSigner) (subtle : SubtleCrypto) (u o : jsstr) (st : Store) (h : InventoryCheckpoint).
Hypothesis Hok : index_ok signer subtle st.
Hypothesis Hh : inventory_heads st !! (u, o) = Some h.
Hypothesis Hav : available signer u o st.
Abbreviation count := (is_receiptCount (cp_statement h)).
Abbreviation catalog := (catalog signer u o st).
Abbreviation absent := (absent u o st).

Lemma head_scope : scope_ok st u o count (statementRetired (cp_statement h)).
Proof. pose proof (ix_scopes _ _ _ Hok u o) as Hs. cbv zeta in Hs. by rewrite Hh in Hs. Qed.
Lemma head_valid : head_ok signer subtle u o h.
Proof. exact (ix_heads _ _ _ Hok u o h Hh). Qed.
Lemma count_safe : 0 < count <= MAX_SAFE_INTEGER.
Proof.
  destruct head_valid as [Hv _ _ _ _ _ _]. unfold validCheckpointFields, isTime, isSafeInteger in Hv. bool_split.
  unfold MAX_INVENTORY_RECEIPTS in *. lia.
Qed.

Lemma absent_total : absent 0 count = statementRetired (cp_statement h).
Proof.
  destruct head_scope as [A _ C]. pose proof count_safe.
  set (l := seqZ (0 + 1) (count - 0)).
  assert (Hp : filter (fun n => is_member_at u o st n = true) l ≡ₚ (scope_members u o st).*1).
  { apply NoDup_Permutation; [apply NoDup_filter, NoDup_seqZ|apply scope_ordinals|]. intros n.
    rewrite list_elem_of_filter. unfold l. rewrite elem_of_seqZ. unfold is_member_at. rewrite bool_decide_eq_true. split.
    - intros [[m Hm] _]. apply list_elem_of_fmap. exists (n, m). split; [done|]. by apply elem_of_scope.
    - intros ([n' m] & -> & Hm%elem_of_scope)%list_elem_of_fmap. cbn [fst]. split; [by exists m|].
      assert (1 <= n' <= count) by (apply A; left; by exists m). lia. }
  apply Permutation_length in Hp. rewrite length_fmap, scope_length in Hp.
  pose proof (Permutation_length (filter_app_complement (fun n => is_member_at u o st n = true) l)) as Hl.
  rewrite length_app, Hp in Hl. unfold l at 2 in Hl. rewrite length_seqZ in Hl.
  unfold InventoryPages.absent. fold l.
  assert (E : List.filter (fun n => negb (is_member_at u o st n)) l = filter (fun n => ~ is_member_at u o st n = true) l).
  { clear. induction l as [|n l IH]; [done|]. rewrite filter_cons. cbn [List.filter].
    destruct (is_member_at u o st n); cbn [negb]; [rewrite decide_False by congruence; done|].
    rewrite decide_True by congruence. by rewrite IH. }
  rewrite E. lia.
Qed.

(** ** Sparse pages *)

Definition range_size (r : Z * Z) : Z := snd r - fst r + 1.
Definition ranges_size (l : list (Z * Z)) : Z := foldr (fun r n => range_size r + n) 0 l.

(** What the loop has collected, with its steps in order. *)
Record spans (steps : nat) (cursor : Z) (s : SparseSpan) (chain : list (Z * Z)) : Prop := {
  sp_bounds : cursor <= span_cursor s <= count;
  sp_records : span_records s = catalog cursor (span_cursor s);
  sp_positions : length (span_positions s) = length (span_records s);
  sp_steps : (length chain <= steps)%nat /\ (span_cursor s = count \/ length chain = steps);
  sp_chain : chain ≡ₚ span_empty s ++ map (fun n => (n, n)) (span_positions s);
  sp_covers : covers cursor chain = Some (span_cursor s);
  sp_sorted : StronglySorted (fun a b => fst a < fst b) chain;
  sp_within : Forall (fun r => cursor < fst r /\ fst r <= snd r /\ snd r <= span_cursor s) chain;
  sp_absent : ranges_size (span_empty s) = absent cursor (span_cursor s);
}.

Lemma spans_end steps cursor : cursor <= count -> cursor = count \/ steps = 0%nat ->
  spans steps cursor (mkSpan [] [] [] cursor) [].
Proof.
  intros Hc He. split; cbn [span_cursor span_records span_positions span_empty length map app]; try done.
  - unfold InventoryPages.catalog. by rewrite Z.sub_diag.
  - split; [lia|]. destruct He; [by left|by right].
  - constructor.
  - unfold InventoryPages.absent. by rewrite Z.sub_diag.
Qed.
Lemma chain_cons cursor a b s chain : a = cursor + 1 -> a <= b ->
  Forall (fun r => b < fst r /\ fst r <= snd r /\ snd r <= s) chain -> StronglySorted (fun a b => fst a < fst b) chain -> b <= s ->
  StronglySorted (fun a b => fst a < fst b) ((a, b) :: chain) /\
  Forall (fun r => cursor < fst r /\ fst r <= snd r /\ snd r <= s) ((a, b) :: chain).
Proof.
  intros -> Hab Hw Hs Hb. split.
  - constructor; [done|]. eapply Forall_impl; [exact Hw|]. intros [x y] Hx. cbn [fst snd] in *. lia.
  - constructor; [cbn [fst snd]; lia|]. eapply Forall_impl; [exact Hw|]. intros [x y] Hx. cbn [fst snd] in *. lia.
Qed.
Lemma spans_member steps cursor m r s chain :
  inventory_members st !! (u, o, cursor + 1) = Some m -> member_record signer u o m st = inr r -> cursor < count ->
  spans steps (cursor + 1) s chain ->
  spans (S steps) cursor (with_record r (cursor + 1) s) ((cursor + 1, cursor + 1) :: chain).
Proof.
  intros Hm Hr Hc [Hb Er Ep [Hl He] Hch Hcov Hso Hw Hab]. destruct (one_member signer u o st cursor m r Hm Hr) as [E1 E2].
  destruct (chain_cons cursor (cursor + 1) (cursor + 1) (span_cursor s) chain) as [C1 C2]; [done|lia|done|done|lia|].
  split; cbn [with_record span_cursor span_records span_positions span_empty length map]; try done.
  - lia.
  - rewrite Er. rewrite (catalog_split signer u o st cursor (cursor + 1)) by lia. by rewrite E1.
  - by rewrite Ep.
  - split; [lia|]. destruct He as [|<-]; [by left|by right].
  - rewrite Hch. apply Permutation_middle.
  - cbn [covers]. by rewrite Z.eqb_refl.
  - rewrite Hab, (absent_split u o st cursor (cursor + 1)) by lia. lia.
Qed.
Lemma spans_range steps cursor b s chain :
  cursor < b <= count -> (forall n, cursor < n <= b -> inventory_members st !! (u, o, n) = None) ->
  spans steps b s chain ->
  spans (S steps) cursor (with_empty (cursor + 1) b s) ((cursor + 1, b) :: chain).
Proof.
  intros Hb Hn [Hb' Er Ep [Hl He] Hch Hcov Hso Hw Hab]. destruct (no_members signer u o st cursor b) as [E1 E2]; [lia|done|].
  destruct (chain_cons cursor (cursor + 1) b (span_cursor s) chain) as [C1 C2]; [done|lia|done|done|lia|].
  split; cbn [with_empty span_cursor span_records span_positions span_empty length map app]; try done.
  - lia.
  - rewrite Er. rewrite (catalog_split signer u o st cursor b) by lia. by rewrite E1.
  - split; [lia|]. destruct He as [|<-]; [by left|by right].
  - by rewrite Hch.
  - cbn [covers]. by rewrite Z.eqb_refl.
  - cbn [ranges_size foldr]. fold (ranges_size (span_empty s)). rewrite Hab, (absent_split u o st cursor b) by lia.
    unfold range_size. cbn [fst snd]. lia.
Qed.

Lemma retired_range n : retired_at st u o n -> exists g, predecessor u o n (empty_ranges st) = inr (Some g) /\
  n <= last g /\ (forall k, first g <= k <= last g -> retired_at st u o k) /\ first g <= n.
Proof.
  intros (r & Hr & Er & Eo & Hn). pose proof (ix_ranges _ _ _ Hok) as Hro.
  destruct (predecessor_spec (empty_ranges st) u o n Hro) as (before & Hb & Hp). destruct before as [g|].
  2:{ pose proof (Hp r (conj Hr (conj Er Eo))). lia. }
  destruct Hp as (Hg & Hle & Hmax). exists g. split; [done|]. pose proof (Hmax r (conj Hr (conj Er Eo)) ltac:(lia)) as Hf.
  assert (Hnl : n <= last g).
  { destruct (decide (g = r)) as [->|Hne]; [lia|].
    pose proof (scoped_apart (empty_ranges st) u o Hro g r Hg (conj Hr (conj Er Eo)) Hne) as Ha.
    pose proof (scoped_valid (empty_ranges st) u o Hro g Hg) as Hv. unfold apart, valid_range in *. lia. }
  split; [done|]. split; [|lia]. intros k Hk. exists g. destruct Hg as (? & ? & ?). done.
Qed.

Lemma sparse_steps_ok steps cursor : 0 <= cursor <= count ->
  exists s chain, sparse_steps signer steps u o count cursor st = inr s /\ spans steps cursor s chain.
Proof.
  destruct head_scope as [A B _]. revert cursor. induction steps as [|steps IH]; intros cursor Hc; cbn [sparse_steps].
  - eexists _, []. split; [reflexivity|]. apply spans_end; [lia|by right].
  - destruct (Z.ltb_spec cursor count) as [Hlt|Hge]; cbn [negb].
    2:{ eexists _, []. split; [reflexivity|]. apply spans_end; [lia|left; lia]. }
    destruct (inventory_members st !! (u, o, cursor + 1)) as [m|] eqn:Em.
    + destruct (Hav _ m Em) as [r Hr]. rewrite Hr. cbn [throw_bind].
      destruct (IH (cursor + 1)) as (s & chain & -> & Hs); [lia|]. cbn [throw_bind].
      eexists _, _. split; [reflexivity|]. by apply (spans_member steps cursor m r).
    + assert (Hre : retired_at st u o (cursor + 1)).
      { destruct (proj2 (A (cursor + 1))) as [[m Hm]|]; [lia| |done]. congruence. }
      destruct (retired_range _ Hre) as (g & -> & Hl & Hg & Hf). cbn [throw_bind].
      assert (Hlast : 1 <= last g <= count) by (apply A; right; apply Hg; lia).
      rewrite (proj2 (Z.ltb_ge (last g) (cursor + 1))), (proj2 (Z.ltb_ge count (last g))) by lia. cbn [orb throw_if].
      destruct (IH (last g)) as (s & chain & -> & Hs); [lia|]. cbn [throw_bind].
      eexists _, _. split; [reflexivity|]. apply spans_range; [lia| |done].
      intros n Hn. destruct (inventory_members st !! (u, o, n)) as [m|] eqn:E; [|done]. exfalso.
      apply (B n); [by exists m|]. apply Hg. lia.
Qed.

Lemma sorted_ranges chain l : StronglySorted (fun a b : Z * Z => fst a < fst b) chain -> chain ≡ₚ l ->
  js_sort range_order l = chain.
Proof.
  intros Hs Hp. assert (Htot : forall a b, range_order a b = true \/ range_order b a = true) by (unfold range_order; lia).
  assert (Htr : forall a b c, range_order a b = true -> range_order b c = true -> range_order a c = true) by (unfold range_order; lia).
  assert (Hun : forall x y, x ∈ chain -> y ∈ chain -> fst x = fst y -> x = y).
  { clear Hp. induction Hs as [|c chain Hs IH Hc]; [intros x y Hx; by apply elem_of_nil in Hx|].
    rewrite Forall_forall in Hc. intros x y [->|Hx]%elem_of_cons [->|Hy]%elem_of_cons E; [done|..|by apply IH].
    - apply Hc in Hy. lia.
    - apply Hc in Hx. lia. }
  apply (StronglySorted_unique_strong (fun a b => range_order a b = true)).
  - intros x y Hx Hy E1 E2. rewrite js_sort_perm, <- Hp in Hx. apply Hun; [done|done|]. unfold range_order in *. lia.
  - by apply js_sort_sorted.
  - clear -Hs. induction Hs as [|c chain Hs IH Hc]; constructor; [done|].
    eapply Forall_impl; [exact Hc|]. unfold range_order. intros x Hx. cbn in Hx. lia.
  - by rewrite js_sort_perm.
Qed.

Lemma ranges_accepted l limit n : limit <= MAX_SAFE_INTEGER -> 0 <= n -> n + ranges_size l <= limit ->
  Forall (fun r => 0 <= fst r <= snd r /\ snd r <= count) l -> count <= MAX_SAFE_INTEGER ->
  rangesRefused l count limit n = false.
Proof.
  intros Hlim Hn Hl Hw Hc. revert n Hn Hl. induction Hw as [|[a b] l Hr Hw IH]; intros n Hn Hl; cbn [rangesRefused]; [done|].
  cbn [ranges_size foldr] in Hl. fold (ranges_size l) in Hl. unfold range_size in Hl. cbn [fst snd] in *.
  assert (0 <= ranges_size l).
  { clear -Hw. induction Hw as [|[x y] l' Hr Hw IH]; [done|]. cbn [ranges_size foldr]. fold (ranges_size l').
    unfold range_size. cbn [fst snd] in *. lia. }
  rewrite IH by lia. unfold isTime, isSafeInteger. lia.
Qed.

Definition next_of (e : Z) : option Z := if e <? count then Some e else None.
(** What a page starting after [after] is: [e] is where it ends. *)
Record good_page (after : Z) (p : InventoryPage InventoryReceiptRecord) (e : Z) : Prop := {
  gp_end : after < e <= count;
  gp_records : page_records p = catalog after e;
  gp_next : page_next p = next_of e;
  gp_valid : validPageFields p h after = true;
}.

Lemma sparse_page_ok after : 0 <= after < count -> is_version_2 (Some h) = true ->
  exists p e, sparsePage signer u o h after st = inr p /\ good_page after p e.
Proof.
  intros Ha Hv. pose proof count_safe as Hcs. unfold sparsePage.
  destruct (sparse_steps_ok (Z.to_nat INVENTORY_PAGE_SIZE) after) as (s & chain & -> & [Hb Er Ep [Hl He] Hch Hcov Hso Hw Hab]); [lia|].
  cbn [throw_bind]. change (Z.to_nat INVENTORY_PAGE_SIZE) with 3%nat in *.
  assert (Hlen : length chain = (length (span_empty s) + length (span_positions s))%nat).
  { apply Permutation_length in Hch. by rewrite length_app, length_map in Hch. }
  assert (Hadv : after < span_cursor s).
  { destruct He as [->|He]; [lia|]. destruct chain as [|[a b] chain]; [done|]. apply Forall_cons in Hw as [Hw _]. cbn [fst snd] in Hw. lia. }
  assert (Hne : (0 < length chain)%nat).
  { destruct chain; [|cbn; lia]. cbn in Hcov. injection Hcov as ->. lia. }
  assert (Hin : forall r, r ∈ span_empty s ++ map (fun n => (n, n)) (span_positions s) -> after < fst r /\ fst r <= snd r <= count).
  { intros r Hr. rewrite <- Hch in Hr. rewrite Forall_forall in Hw. apply Hw in Hr. lia. }
  eexists _, (span_cursor s). split; [reflexivity|]. split; cbn [page_records page_next].
  - lia.
  - done.
  - done.
  - unfold validPageFields. rewrite Hv. cbn [page_checkpointId page_after page_records].
    assert (Hpos : forallb isTime (span_positions s) = true).
    { apply forallb_forall. intros n Hn. destruct (Hin (n, n)) as [H1 H2].
      - apply elem_of_app. right. apply list_elem_of_In. exact (in_map (fun n => (n, n)) _ n Hn).
      - cbn [fst snd] in *. unfold isTime, isSafeInteger. lia. }
    assert (Href : rangesRefused (span_empty s) count (statementRetired (cp_statement h)) 0 = false).
    { pose proof absent_total as Htot. rewrite (absent_split u o st 0 after) in Htot by lia.
      rewrite (absent_split u o st after (span_cursor s)) in Htot by lia.
      pose proof (absent_nonneg u o st 0 after). pose proof (absent_nonneg u o st (span_cursor s) count).
      destruct head_valid as [Hvf _ _ _ _ _ _]. unfold validCheckpointFields, isTime, isSafeInteger in Hvf. bool_split.
      apply ranges_accepted; [lia|lia|lia| |lia].
      apply Forall_forall. intros r Hr. destruct (Hin r); [apply elem_of_app; by left|]. lia. }
    unfold validSparsePage. cbn [page_positions page_emptyRanges page_records page_next].
    rewrite Ep, Nat.eqb_refl, Hpos, Href. cbn [negb andb].
    rewrite length_app, length_map, (sorted_ranges chain) by done. rewrite Hcov.
    unfold next_ok. unfold next_after. rewrite (bool_decide_eq_true_2 _ eq_refl).
    rewrite str_eqb_refl, Z.eqb_refl. rewrite <- Ep, <- Hlen. unfold INVENTORY_PAGE_SIZE, isTime, isSafeInteger.
    assert (Z.of_nat (length (span_records s)) <= 3) by lia.
    repeat (apply andb_true_iff; split); try lia.
    destruct chain; [cbn in Hne; lia|done].
Qed.

(** ** Dense pages *)

Lemma all_members n : statementRetired (cp_statement h) = 0 -> 1 <= n <= count -> exists m, inventory_members st !! (u, o, n) = Some m.
Proof.
  intros Hz Hn. destruct (inventory_members st !! (u, o, n)) as [m|] eqn:E; [eauto|]. exfalso.
  pose proof absent_total as Ht. rewrite (absent_split u o st 0 (n - 1)), (absent_split u o st (n - 1) n) in Ht by lia.
  destruct (no_members signer u o st (n - 1) n) as [_ Ha]; [lia|intros k Hk; by replace k with n by lia|].
  pose proof (absent_nonneg u o st 0 (n - 1)). pose proof (absent_nonneg u o st n count). lia.
Qed.

Lemma page_rows_ordinals after : 0 <= after < count -> statementRetired (cp_statement h) = 0 ->
  (page_rows u o after count st).*1 = seqZ (after + 1) (Z.min INVENTORY_PAGE_SIZE (count - after)) /\
  forall n m, (n, m) ∈ page_rows u o after count st -> inventory_members st !! (u, o, n) = Some m.
Proof.
  intros Ha Hz. unfold page_rows.
  set (l := List.filter (fun om => (after <? fst om) && (fst om <=? count)) (scope_members u o st)).
  assert (Hl : forall n m, (n, m) ∈ l <-> inventory_members st !! (u, o, n) = Some m /\ after < n <= count).
  { intros n m. unfold l. rewrite elem_of_filter_List, elem_of_scope. cbn [fst]. rewrite andb_true_iff, Z.ltb_lt, Z.leb_le. tauto. }
  assert (Hnd : NoDup l.*1) by apply filter_ordinals, scope_ordinals.
  assert (Hp : merge_sort ordinal_le l ≡ₚ l) by apply merge_sort_Permutation.
  assert (Hs : (merge_sort ordinal_le l).*1 = seqZ (after + 1) (count - after)).
  { apply (StronglySorted_unique Z.le); [apply ordinals_sorted|apply seqZ_sorted|].
    rewrite Hp. apply NoDup_Permutation; [done|apply NoDup_seqZ|]. intros n. rewrite elem_of_seqZ. split.
    - intros ([n' m] & -> & Hin%Hl)%list_elem_of_fmap. cbn [fst]. lia.
    - intros Hn. destruct (all_members n Hz) as [m Hm]; [lia|]. apply list_elem_of_fmap. exists (n, m).
        split; [done|]. apply Hl. split; [done|lia]. }
  split.
  - rewrite fmap_take, Hs. rewrite (span_split after (after + Z.min INVENTORY_PAGE_SIZE (count - after)) count) by (unfold INVENTORY_PAGE_SIZE; lia).
    replace (after + Z.min INVENTORY_PAGE_SIZE (count - after) - after) with (Z.min INVENTORY_PAGE_SIZE (count - after)) by lia.
    destruct (Z.le_gt_cases (count - after) INVENTORY_PAGE_SIZE).
    + rewrite (seqZ_nil (after + Z.min INVENTORY_PAGE_SIZE (count - after) + 1)) by lia. rewrite app_nil_r. apply take_ge. rewrite length_seqZ. unfold INVENTORY_PAGE_SIZE in *. lia.
    + rewrite take_app_length'; [done|]. rewrite length_seqZ. unfold INVENTORY_PAGE_SIZE in *. lia.
  - intros n m (i & Hi & _)%elem_of_take. apply list_elem_of_lookup_2 in Hi. rewrite Hp in Hi. apply Hl in Hi. apply Hi.
Qed.

Lemma page_records_ok rows a : rows.*1 = seqZ (a + 1) (Z.of_nat (length rows)) ->
  (forall n m, (n, m) ∈ rows -> inventory_members st !! (u, o, n) = Some m) ->
  page_records_at signer u o (a + 1) rows st = inr (catalog a (a + Z.of_nat (length rows))) /\
  length (catalog a (a + Z.of_nat (length rows))) = length rows.
Proof.
  revert a. induction rows as [|[n m] rows IH]; intros a Hs Hm.
  - cbn [page_records_at length]. unfold InventoryPages.catalog. by rewrite Z.add_0_r, Z.sub_diag.
  - cbn [length] in *. rewrite fmap_cons, seqZ_cons in Hs by lia. injection Hs as En Hs. cbn [fst] in En. subst n.
    replace (Z.pred (Z.of_nat (S (length rows)))) with (Z.of_nat (length rows)) in Hs by lia.
    destruct (IH (a + 1)) as [E El]; [by rewrite Z.add_1_r|intros n' m' Hin; apply Hm; by right|].
    pose proof (Hm (a + 1) m ltac:(by left)) as Hl. destruct (Hav _ _ Hl) as [r Hr].
    destruct (one_member signer u o st a m r Hl Hr) as [E1 _]. cbn [page_records_at]. rewrite Z.eqb_refl. cbn [negb throw_if].
    rewrite Hr. cbn [throw_bind]. rewrite E. cbn [throw_bind].
    rewrite (catalog_split signer u o st a (a + 1)) by lia. rewrite E1.
    replace (a + Z.of_nat (S (length rows))) with (a + 1 + Z.of_nat (length rows)) by lia. cbn [app length]. by rewrite El.
Qed.

Lemma page_ok after : 0 <= after < count ->
  exists p e, page signer u o (checkpointId h) after st = inr p /\ good_page after p e.
Proof.
  intros Ha. pose proof count_safe as Hcs. unfold page. rewrite (head_found signer subtle) by done. rewrite Hh. cbn [throw_bind].
  assert (Htime : isTime after = true) by (unfold isTime, isSafeInteger; lia).
  rewrite str_eqb_refl, Htime, (proj2 (Z.leb_gt count after)) by lia. cbn [negb orb throw_if].
  destruct (is_version_2 (Some h)) eqn:Hv; [by apply sparse_page_ok|].
  assert (Hz : statementRetired (cp_statement h) = 0).
  { unfold is_version_2 in Hv. unfold statementRetired. by destruct (is_version (cp_statement h)). }
  destruct (page_rows_ordinals after Ha Hz) as [Hs Hm].
  assert (Hlen : Z.of_nat (length (page_rows u o after count st)) = Z.min INVENTORY_PAGE_SIZE (count - after)).
  { apply (f_equal length) in Hs. rewrite length_fmap, length_seqZ in Hs. unfold INVENTORY_PAGE_SIZE in *. lia. }
  destruct (page_records_ok (page_rows u o after count st) after) as [E El]; [by rewrite Hlen|exact Hm|].
  rewrite Hlen in E, El. rewrite E. cbn [throw_bind]. rewrite El, Hlen, Z.eqb_refl. cbn [negb throw_if].
  set (e := after + Z.min INVENTORY_PAGE_SIZE (count - after)) in *.
  eexists _, e. split; [reflexivity|]. split; cbn [page_records page_next]; [unfold e, INVENTORY_PAGE_SIZE; lia|done|done|].
  unfold validPageFields. rewrite Hv. cbn [page_checkpointId page_after page_records page_next].
  rewrite El, Hlen, Z.eqb_refl, str_eqb_refl, Htime, Z.eqb_refl. fold e. unfold next_ok, next_after.
  rewrite (bool_decide_eq_true_2 _ eq_refl). unfold e, INVENTORY_PAGE_SIZE. lia.
Qed.
End Page.

(** ** Reading it all *)

(** A client that follows [next] from page to page. *)
Fixpoint read_pages (fuel : nat) (signer : AsyncAuditSigner) (u o checkpoint : jsstr) (after : Z) (st : Store)
    : throws (list (InventoryPage InventoryReceiptRecord)) :=
  match fuel with
  | 0%nat => inl (js "more pages")
  | S fuel' =>
      let! p := page signer u o checkpoint after st in
      match page_next p with
      | None => inr [p]
      | Some next => let! ps := read_pages fuel' signer u o checkpoint next st in inr (p :: ps)
      end
  end.

Lemma read_pages_from signer subtle u o st h :
  index_ok signer subtle st -> inventory_heads st !! (u, o) = Some h -> available signer u o st ->
  let count := is_receiptCount (cp_statement h) in
  forall fuel after, 0 <= after < count -> count - after <= Z.of_nat fuel ->
  exists ps, read_pages fuel signer u o (checkpointId h) after st = inr ps /\ (length ps <= fuel)%nat /\
    Forall (fun p => validPageFields p h (page_after p) = true) ps /\
    concat (map page_records ps) = catalog signer u o st after count.
Proof.
  intros Hok Hh Hav count fuel. induction fuel as [|fuel IH]; intros after Ha Hf; [lia|]. cbn [read_pages].
  destruct (page_ok signer subtle u o st h Hok Hh Hav after Ha) as (p & e & -> & [He Er En Hv]). cbn [throw_bind].
  assert (Hva : validPageFields p h (page_after p) = true).
  { pose proof Hv as Hv'. unfold validPageFields in Hv'. bool_split. by replace (page_after p) with after by lia. }
  rewrite En. unfold next_of. destruct (Z.ltb_spec e (is_receiptCount (cp_statement h))) as [Hlt|Hge].
  - destruct (IH e) as (ps & -> & Hl & Hps & Ec); [lia|lia|]. cbn [throw_bind]. exists (p :: ps). split; [done|].
    split; [cbn; lia|]. split; [by constructor|]. cbn [map concat]. rewrite Er, Ec. symmetry. apply catalog_split. unfold count. lia.
  - exists [p]. split; [done|]. split; [cbn; lia|]. split; [by constructor|]. cbn [map concat]. rewrite app_nil_r, Er.
    f_equal. unfold count. lia.
Qed.

(** C30: reading the index terminates and misses nothing: in every state the
    compactions and retirements can reach in which the receipt of every member
    is readable ([available]; [admission_hides_compacted_receipts] is a state in
    which one is not), if that state stays as it is while the pages are read,
    following [next] from the first page ends after at most [receiptCount]
    pages, each of them passes the client's check against the signed head, and
    together they hold the records of all members in the order of their
    ordinals, skipping exactly the retired ones. *)
Theorem inventory_pages_terminate signer subtle current fault
    `{SubtleLaws subtle} `{CheckpointIds (createStandardWebCryptoBackend subtle)} st0 p (u o : jsstr) h :
  isDigestText (as_publicKey signer) = true ->
  (forall d s, as_signDigest signer d = inr s ->
     cb_verify (createStandardWebCryptoBackend subtle) (as_publicKey signer) d s = inr true) ->
  inventory_reached signer subtle current fault st0 p ->
  inventory_heads (Async.store p) !! (u, o) = Some h -> available signer u o (Async.store p) ->
  let count := is_receiptCount (cp_statement h) in
  exists pages, read_pages (Z.to_nat count) signer u o (checkpointId h) 0 (Async.store p) = inr pages /\
    Forall (fun page => validPageFields page h (page_after page) = true) pages /\
    concat (map page_records pages) = catalog signer u o (Async.store p) 0 count.
Proof.
  intros Hkey Hsig Hr Hh Hav count. destruct (inventory_pool_ok signer subtle current fault Hkey Hsig st0 p Hr) as [Hok _].
  pose proof (count_safe signer subtle u o _ h Hok Hh) as Hc.
  destruct (read_pages_from signer subtle u o _ h Hok Hh Hav (Z.to_nat count) 0) as (ps & E & _ & Hv & Ec); [lia|lia|].
  exists ps. done.
Qed.

Lemma available_spec signer (u o : jsstr) (st : Store) :
  forallb (fun om => match member_record signer u o (snd om) st with inr _ => true | inl _ => false end)
    (scope_members u o st) = true -> available signer u o st.
Proof.
  intros Hf n m Hm. rewrite forallb_forall in Hf. apply elem_of_scope, list_elem_of_In, Hf in Hm. cbn [snd] in Hm.
  destruct (member_record signer u o m st) as [|r]; [done|eauto].
Qed.
Definition toy_head : InventoryCheckpoint := answer_or (threads toy_index).
Lemma inventory_pages_terminate_witness :
  exists pages, read_pages 2 toy_signer (js "unit") toy_owner (checkpointId toy_head) 0 (Async.store toy_index) = inr pages /\
    map (fun r => ticketId (ir_ticket r)) (concat (map page_records pages)) = [js "ticket-1"].
Proof.
  assert (Hkey : isDigestText (as_publicKey toy_signer) = true) by (vm_compute; reflexivity).
  assert (Hh : inventory_heads (Async.store toy_index) !! (js "unit", toy_owner) = Some toy_head) by (vm_compute; reflexivity).
  assert (Hav : available toy_signer (js "unit") toy_owner (Async.store toy_index)) by (apply available_spec; vm_compute; reflexivity).
  destruct (inventory_pages_terminate toy_signer indexed_subtle (fun _ _ => inr 1) None toy_compacted toy_index (js "unit")
              toy_owner toy_head Hkey toy_accepted (toy_index_reached _) Hh Hav) as (pages & E & _ & Ec).
  assert (Et : Z.to_nat (is_receiptCount (cp_statement toy_head)) = 2%nat /\
               map (fun r => ticketId (ir_ticket r)) (catalog toy_signer (js "unit") toy_owner (Async.store toy_index) 0
                 (is_receiptCount (cp_statement toy_head))) = [js "ticket-1"]) by (vm_compute; split; reflexivity).
  destruct Et as [E1 E2]. rewrite E1 in E. rewrite <- Ec in E2. exact (ex_intro _ pages (conj E E2)).
Defined.

(** ** A record that outgrows its bound *)

(** A receipt whose record is just below the bound of 4096 bytes: the ids of
    its player and start are legal, but every unit of them is escaped. *)
Definition wide_player : jsstr := repeat 1%N 128.
Definition wide_origin (admitted : list jsstr) : EncounterLedgerRow :=
  let r := settled_origin "ticket-1" (items (receipt_statement (receipt_or (receipt toy_row)))) in
  let t := ticket r in
  let rc := receipt_or (receipt r) in
  let s := receipt_statement rc in
  let own i := mkEncounterItem (ei_assetId i) wide_player (ei_itemType i) (ei_rarity i) (ei_power i) (ei_sourceEnemyId i)
                 (ei_killTick i) (ei_dropIndex i) in
  mkRow (revision r) (startKey r)
    (mkTicket (mkAuthorization None (js "unit") (repeat 1%N 25) wide_player toy_owner) (t_version t) (ticketId t) (authorityKey t)
       (rulesId t) (queueId t) (seedCommitment t) (issuedAt t) (commitNotBefore t) (releaseAt t) (ticketSignature t))
    [] settled (commitment r) (committedAt r) None
    (Some (mkEncounterReceipt
      (mkReceiptStatement (rs_version s) (rs_authorityKey s) (rs_ticketId s) (rs_unit s) (rs_rulesId s) wide_player
         (rs_ownerPublicKey s) (rs_root s) (finalStateDigest s) (map own (items s)) (settledAt s) (rs_retentionUntil s))
      (receiptId rc) (receipt_signature rc)))
    None false true admitted None false.
Definition wide_store (admitted : list jsstr) : Store :=
  let r := wide_origin admitted in
  store_of (mkWorld ∅ {[ row_id r := mkEntry (row_id r) (revision r) r ]} 0
    (fun _ => 9000) (uuid_at toy_world) (random_at toy_world) None None).
Definition wide_compact : async Store InventoryCheckpoint :=
  compact toy_signer (createStandardWebCryptoBackend indexed_subtle) None (js "unit") toy_owner (mkCompaction None [js "ticket-1"]).
Definition page_error (m : throws (InventoryPage InventoryReceiptRecord)) : option jsstr :=
  match m with inl e => Some e | inr _ => None end.
Definition checkpoint_or (m : throws InventoryCheckpoint) : InventoryCheckpoint :=
  match m with inr cp => cp | inl _ => answer_or [] end.

(** The receipt is compacted and its page is served.  When its item is admitted
    to the market afterwards ([admitToMarket] appends the asset to
    [admittedAssets]), the record is over the bound and the page is refused: the
    members after it cannot be read any more. *)
Lemma admission_hides_compacted_receipts :
  let st := fst (run_alone wide_compact (wide_store [])) in
  let cp := checkpoint_or (snd (run_alone wide_compact (wide_store []))) in
  let asset := match receipt (wide_origin []) with
               | Some rc => map ei_assetId (items (receipt_statement rc)) | None => [] end in
  let admitted := set_ledger (ledger (wide_store asset)) st in
  length asset = 1%nat /\
  page_error (page toy_signer (js "unit") toy_owner (checkpointId cp) 0 st) = None /\
  page_error (page toy_signer (js "unit") toy_owner (checkpointId cp) 0 admitted) = Some (js "inventory record exceeds bound").
Proof. vm_compute. split_and!; reflexivity. Qed.
