(* ===== verification/EncounterApi.v ===== *)
(** * The encounter service over HTTP

    [cf-game-audit/src/encounter-api.ts]: [EncounterHttpApi] routes requests to
    the authority, the archive, the generations, the recovery and the inventory
    over one database; and [encounter-evidence.ts]: [EncounterEvidenceCases],
    which binds evidence cases to tickets.

    A request is its path segments, method, [authorization] header and body as
    the pieces the network delivers.  A response is its status and the value it
    is the JSON of. *)
From stdpp Require Import gmap sorting.
From S2P Require Import Prelude Json Contracts Kernel Journal Utf8 CryptoBackend EncounterWire EncounterHttp.
From S2P Require Import EncounterBundle InventoryCheckpoint InventoryRanges Async EncounterLedger EncounterStore ArchiveStore.
From S2P Require Import Generations Inventory EncounterAuthority.
Set Default Goal Selector "!".

(** ** Evidence cases *)

Definition MAX_ENCOUNTER_CASES : nat := 16.
Record EncounterEvidenceContext := mkContext {
  ec_ticketId : jsstr;
  ec_assetId : jsstr;
  ec_ticket : EncounterTicket;
  ec_receipt : EncounterReceipt;
}.
(** The fields of a case reference that [matches] reads. *)
Record CaseTarget := mkTarget {
  ancestorId : jsstr;
  ancestorKind : jsstr;
  ct_epoch : Z;
  ct_checkpointDigest : jsstr;
  protocol_version : Z;
  purpose : jsstr;
  manifest_digest : jsstr;
  scope_id : jsstr;
  unit_id : jsstr;
}.
Inductive BindResult := bind_allowed | bind_refused (reason : string).

(** [/^encounter:([0-9a-f-]{36}):/], the group. *)
Definition is_uuid_unit (c : N) : bool := is_lower_hex c || (c =? 45)%N.
Definition asset_ticket (assetId : jsstr) : option jsstr :=
  let rest := drop 10 assetId in
  if str_eqb (take 10 assetId) (js "encounter:") && (36 <? length rest)%nat &&
     forallb is_uuid_unit (take 36 rest) && str_eqb (take 1 (drop 36 rest)) (js ":")
  then Some (take 36 rest) else None.

Section Evidence.
Context (authority : EncounterAuthorityOptions) (current : jsstr -> Store -> throws Z).

Definition context (assetId unit : jsstr) (st : Store) : option EncounterEvidenceContext :=
  id ← asset_ticket assetId;
  r ← lookup_id id (ledger st);
  rc ← receipt r;
  if phase_eqb (phase r) settled && str_eqb (row_unit r) unit &&
     existsb (fun i => str_eqb (ei_assetId i) assetId) (items (receipt_statement rc))
  then Some (mkContext (row_id r) assetId (ticket r) rc) else None.

Definition matches (c : EncounterEvidenceContext) (target : CaseTarget) : bool :=
  str_eqb (ancestorKind target) (js "origin") && str_eqb (ancestorId target) (receiptId (ec_receipt c)) &&
  (ct_epoch target =? 0) &&
  str_eqb (ct_checkpointDigest target) (rs_root (receipt_statement (ec_receipt c))) &&
  (protocol_version target =? 1) && str_eqb (purpose target) (rulesId (ec_ticket c)) &&
  str_eqb (manifest_digest target) (seedCommitment (ec_ticket c)) &&
  str_eqb (scope_id target) (ea_playerId (t_authorization (ec_ticket c))) &&
  str_eqb (unit_id target) (queueId (ec_ticket c)).

(** [fence]: the authority's method runs to its end without suspending. *)
Definition fence_ticket (id : jsstr) : tx True :=
  run_alone (on_ledger current (fenceEvidenceCase authority id)).
Definition insert_binding (caseId : jsstr) (b : CaseBinding) (st : Store) : Store :=
  set_cases (<[caseId := b]> (case_bindings st)) st.

(** Called inside the transaction of the case service. *)
Definition bind (c : EncounterEvidenceContext) (caseId : jsstr) : tx BindResult :=
  let^ now := tread (fun st => inr (context (ec_assetId c) (EncounterWire.unit (t_authorization (ec_ticket c))) st)) in
  match now with
  | None => tret (bind_refused "encounter_case_binding_mismatch")
  | Some current =>
      if negb (isDigestText caseId) || negb (str_eqb (ec_ticketId current) (ec_ticketId c)) ||
         negb (str_eqb (receiptId (ec_receipt current)) (receiptId (ec_receipt c)))
      then tret (bind_refused "encounter_case_binding_mismatch")
      else
        let^ found := tread (fun st => inr (lookup_id (ec_ticketId current) (ledger st))) in
        match found with
        | None => tthrow (js "TypeError")
        | Some r =>
            if retentionReleased r then tret (bind_refused "encounter_retention_closed")
            else
              let^ taken := tread (fun st => inr (bool_decide (is_Some (case_bindings st !! caseId)))) in
              if (taken : bool) then tret (bind_refused "encounter_case_binding_conflict")
              else
                let^ count := tread (fun st => inr (length (bound_cases (ec_ticketId current) st))) in
                if (MAX_ENCOUNTER_CASES <=? count)%nat then tret (bind_refused "encounter_case_capacity_exhausted")
                else
                  let^ _ := fence_ticket (ec_ticketId current) in
                  let^ _ := twrite (insert_binding caseId (mkBinding (ec_ticketId current) (ec_assetId current))) in
                  tret bind_allowed
        end
  end.
End Evidence.

(** ** [try] and [catch] *)

Fixpoint step_catch {W A} (s : step W A) (handler : jsstr -> async W A) : async W A :=
  match s with
  | Finished (inl e) => handler e
  | Finished (inr a) => aret a
  | Suspended k => fun w =>
      (w, Suspended (fun w' => let '(w2, s2) := k w' in step_catch s2 handler w2))
  end.
Definition acatch {W A} (m : async W A) (handler : jsstr -> async W A) : async W A :=
  fun w => let '(w', s) := m w in step_catch s handler w'.

(** ** Requests and responses *)

Record EncounterApiOptions := mkApiOptions {
  ap_signer : AsyncAuditSigner;
  ap_crypto : SubtleCrypto;
  adminToken : jsstr;
  ap_retentionMs : Z;
  maxAdmissions : Z;
  (** The archive, over the same database. *)
  ap_archive : option EncounterArchiveOptions;
  (** Whether the host supplies [transaction], and with it generations,
      recovery and inventory. *)
  transactional : bool;
}.
Record HttpRequest := mkRequest {
  rq_path : list jsstr;
  rq_method : jsstr;
  rq_authorization : option jsstr;
  rq_body : option (list (list N));
}.
Inductive ApiValue :=
| v_error (code : string)
| v_configuration (unit authorityKey : jsstr) (archiveKey : option jsstr) (generation serverNow : Z)
| v_seal (s : EncounterGenerationSeal)
| v_recovery (r : EncounterRecoveryRelease)
| v_checkpoint (c : InventoryCheckpoint)
| v_page (p : InventoryPage InventoryReceiptRecord)
| v_admissions (l : list EncounterAuthorization)
| v_ticket (t : EncounterTicket)
| v_authority (a : response)
| v_custody (c : ArchiveCustody)
| v_archived (o : ArchiveRead)
| v_released (r : ArchiveRelease)
| v_accepted.
Record Response := mkResponse { rp_status : Z; rp_value : ApiValue }.
Definition json (v : ApiValue) : Response := mkResponse 200 v.
Definition error (code : string) (status : Z) : Response := mkResponse status (v_error code).

(** ** The database on opening *)

(** The constructors bring a database of an earlier version up to date: the
    floor of every generation row, and the admissions of units that are still
    in generation 0. *)
Definition upgrade_floors (st : Store) : gmap jsstr Z :=
  generation_floors st ∪ (gr_generation <$> encounter_generations st).
Definition in_first_generation (unit : jsstr) (st : Store) : bool :=
  match encounter_generations st !! unit with Some g => gr_generation g =? 0 | None => true end.
Definition upgrade_admissions (st : Store) : gmap (jsstr * Z * jsstr) EncounterAuthorization :=
  admissions st ∪ list_to_map (omap (fun ha =>
    let u := EncounterWire.unit (snd ha) in
    if in_first_generation u st then Some ((u, 0, fst ha), snd ha) else None) (map_to_list (legacy_admissions st))).

Section Api.
Context `{JsHost} (options : EncounterApiOptions) (rounds : nat).

Definition apiBackend : AuditCryptoBackend := createStandardWebCryptoBackend (ap_crypto options).
Definition apiAuthority : EncounterAuthorityOptions :=
  mkOptions (ap_signer options) (ap_crypto options) (ap_retentionMs options) (archivePublicKey <$> ap_archive options).
Definition has_archive : bool := match ap_archive options with Some _ => true | None => false end.

(** [generationsTable]: whether the table of the generations exists. *)
Definition openApi (generationsTable : bool) (st : Store) : throws Store :=
  throw_if ((maxAdmissions options <? 1) || (1024 <? maxAdmissions options)) (js "invalid admission bound") $
  throw_if (negb (transactional options) && generationsTable)
    (js "generation transaction required for upgraded database") $
  if transactional options then
    let st := mkStore (ledger st) (encounter_generations st) (upgrade_floors st) (admissions st) (legacy_admissions st)
                (archive_objects st) (archive_budget st) (archive_generations st) (inventory_heads st)
                (inventory_members st) (empty_ranges st) (case_bindings st) (case_resolved st) in
    inr (set_admissions (upgrade_admissions st) (legacy_admissions st) st)
  else inr st.

(** [this.generations?.current(unit) ?? 0]. *)
Definition activeGeneration (unit : jsstr) (st : Store) : throws Z :=
  if transactional options then Generations.current (ap_signer options) has_archive unit st else inr 0.
Definition asAuthority (r : EncounterAuthority.request) : async Store EncounterAuthority.response :=
  on_ledger activeGeneration (serve apiAuthority r).

Definition admission (unit : jsstr) (generation : Z) (startHead : jsstr) (st : Store) : option EncounterAuthorization :=
  if transactional options then admissions st !! (unit, generation, startHead) else legacy_admissions st !! startHead.

(** ** Provisioning *)

Definition ADMISSION_KEYS : list string := ["unit"; "startHead"; "playerId"; "ownerPublicKey"]%string.
Definition admissionRefused (value : jsval) (unit : jsstr) : bool :=
  negb (exactKeys value ADMISSION_KEYS ||
        exactKeys value (ADMISSION_KEYS ++ ["generation"]%string) && val_time (field value "generation")) ||
  negb (on_string (str_eqb unit) (field value "unit")) || negb (on_string identifier (field value "startHead")) ||
  negb (on_string identifier (field value "playerId")) || negb (on_string isDigestText (field value "ownerPublicKey")).
(** The object that is stored; generation 0 is left out. *)
Definition admitted_object (unit : jsstr) (a : EncounterAuthorization) : EncounterAuthorization :=
  let g := default 0 (generation a) in
  mkAuthorization (if 0 <? g then Some g else None) unit (startHead a) (ea_playerId a) (ea_ownerPublicKey a).
Definition authorization_text (a : EncounterAuthorization) : jsstr := stringify (obj (authorization_fields a)).
Definition admission_count (unit : jsstr) (generation : Z) (st : Store) : Z :=
  if transactional options then Z.of_nat (admitted_count unit generation st)
  else Z.of_nat (size (legacy_admissions st)).
Definition insert_admission (unit : jsstr) (generation : Z) (a : EncounterAuthorization) (st : Store) : Store :=
  if transactional options
  then set_admissions (<[(unit, generation, startHead a) := a]> (admissions st)) (legacy_admissions st) st
  else set_admissions (admissions st) (<[startHead a := a]> (legacy_admissions st)) st.

Definition provision (value : jsval) (unit : jsstr) : tx Response :=
  match read_authorization value with
  | Some given =>
      if admissionRefused value unit then tret (error "invalid_admission" 400)
      else
        let generation := default 0 (generation given) in
        let^ active := tread (activeGeneration unit) in
        if negb (generation =? active) then tret (error "admission_generation_refused" 409)
        else
          let authorization := admitted_object unit given in
          let^ existing := tread (fun st => inr (admission unit generation (startHead authorization) st)) in
          match existing with
          | Some old => tret (if str_eqb (authorization_text old) (authorization_text authorization)
                              then json v_accepted else error "admission_conflict" 409)
          | None =>
              let^ count := tread (fun st => inr (admission_count unit generation st)) in
              if maxAdmissions options <=? count then tret (error "admission_capacity_exhausted" 429)
              else
                let^ _ := twrite (insert_admission unit generation authorization) in
                tret (mkResponse 201 v_accepted)
          end
  | None => tret (error "invalid_admission" 400)
  end.

(** ** Commands *)

(** [try { ... } catch { return error(code, status) }]. *)
Definition or_refused (m : async Store Response) (code : string) : async Store Response :=
  acatch m (fun _ => aret (error code 409)).

Definition openAdmission (unit : jsstr) (generation : Z) (owner : jsstr) (st : Store)
    (ka : jsstr * EncounterAuthorization) : bool :=
  str_eqb (ea_ownerPublicKey (snd ka)) owner &&
  negb (existsb (fun e => let r := data (snd e) in
    str_eqb (row_unit r) unit && (negb (transactional options) || (row_generation r =? generation)) &&
    str_eqb (startHead (t_authorization (ticket r))) (fst ka)) (map_to_list (encounter_tickets (ledger st)))).
Definition unit_admissions (unit : jsstr) (generation : Z) (st : Store) : list (jsstr * EncounterAuthorization) :=
  if transactional options
  then omap (fun ka => if str_eqb (fst (fst (fst ka))) unit && (snd (fst (fst ka)) =? generation)
                       then Some (snd (fst ka), snd ka) else None) (map_to_list (admissions st))
  else List.filter (fun ka => str_eqb (EncounterWire.unit (snd ka)) unit) (map_to_list (legacy_admissions st)).
Definition listAdmissions (unit owner : jsstr) (generation : Z) (st : Store) : list EncounterAuthorization :=
  map snd (take 32 (merge_sort id_le (List.filter (openAdmission unit generation owner st) (unit_admissions unit generation st)))).

Definition spentTicket (unit owner : jsstr) (generation : Z) (r : EncounterLedgerRow) : bool :=
  retentionReleased r && str_eqb (row_unit r) unit &&
  str_eqb (ea_ownerPublicKey (t_authorization (ticket r))) owner && (row_generation r =? generation) &&
  (phase_eqb (phase r) settled || phase_eqb (phase r) forfeited).
Definition startEncounter (unit owner startHead : jsstr) (requested : option Z) : async Store Response :=
  let generation := default 0 requested in
  let* active := sync (tread (activeGeneration unit)) in
  if generation <? active then
    let* key := await (encounterStartKey apiBackend unit startHead generation) in
    let* old := read_store (fun st => lookup_start key (ledger st)) in
    match old with
    | Some r => if spentTicket unit owner generation r then aret (json (v_ticket (ticket r)))
                else aret (error "start_not_authorized" 403)
    | None => aret (error "start_not_authorized" 403)
    end
  else if negb (generation =? active) then aret (error "start_not_authorized" 403)
  else
    let* found := read_store (admission unit generation startHead) in
    match found with
    | Some a =>
        if negb (str_eqb (EncounterWire.unit a) unit) || negb (str_eqb (ea_ownerPublicKey a) owner)
        then aret (error "start_not_authorized" 403)
        else or_refused (let* t := asAuthority (r_issue rounds a) in aret (json (v_authority t))) "encounter_state_refused"
    | None => aret (error "start_not_authorized" 403)
    end.

Definition by_authority (r : EncounterAuthority.request) : async Store Response :=
  let* a := asAuthority r in aret (json (v_authority a)).
Definition with_archive (f : EncounterArchiveOptions -> async Store Response) : async Store Response :=
  match ap_archive options with Some archive => f archive | None => aret (error "archive_unavailable" 503) end.
Definition archiveUpload (id : jsstr) (r : EncounterLedgerRow) (chunks : list WireChunk) : async Store Response :=
  with_archive (fun archive =>
    if retentionReleased r then aret (error "settled_archive_required" 409)
    else match receipt r, reveal r, commitment r with
    | Some rc, Some v, Some c =>
        let* payloads := of_throws (unwireChunks chunks) in
        let* custody := ArchiveStore.store archive (mkBundle (ticket r) c v rc payloads) in
        let* _ := asAuthority (r_accept_archive id custody) in
        aret (json (v_custody custody))
    | _, _, _ => aret (error "settled_archive_required" 409)
    end).

(** The [switch] inside the last [try]; [r] is the row of the ticket. *)
Definition ticketCommand (c : EncounterCommand) (r : EncounterLedgerRow) : async Store Response :=
  match c with
  | op_status id => by_authority (r_status id)
  | op_commit x => by_authority (r_commit x)
  | op_reveal id => by_authority (r_reveal id)
  | op_settle id chunks =>
      let* payloads := of_throws (unwireChunks chunks) in by_authority (r_settle id payloads)
  | op_receipt id => by_authority (r_settle id [])
  | op_market l => by_authority (r_admit l)
  | op_prune id n => by_authority (r_prune id n)
  | op_terminate id reason => by_authority (r_terminate id reason)
  | op_closure id n s => by_authority (r_closure id n s)
  | op_archive_upload id chunks => archiveUpload id r chunks
  | op_archive_handoff id n s => by_authority (r_handoff id n s)
  | op_archive_read id => with_archive (fun archive =>
      let* o := sync (tread (ArchiveStore.read archive id)) in
      aret (match o with Some o => json (v_archived o) | None => error "archive_not_found" 404 end))
  | op_archive_release id => with_archive (fun archive =>
      let* a := on_ledger activeGeneration (EncounterAuthority.archiveRelease apiAuthority id) in
      let* released := ArchiveStore.release archive a in
      aret (json (v_released released)))
  | _ => athrow (js "TypeError")
  end.

(** [c.op === "commit" ? c.commitment.ticketId : c.op === "market" ? c.listing.ticketId : c.ticketId]. *)
Definition commandTicket (c : EncounterCommand) : option jsstr :=
  match c with
  | op_commit x => Some (c_ticketId x)
  | op_market l => Some (el_ticketId l)
  | op_reveal id | op_receipt id | op_status id | op_settle id _ | op_archive_upload id _ | op_archive_read id
  | op_archive_release id | op_archive_handoff id _ _ | op_terminate id _ | op_closure id _ _ | op_prune id _ => Some id
  | op_admissions | op_release_recovery _ _ | op_inventory_compact _ _ | op_inventory_retire_empty _ _
  | op_inventory_page _ _ | op_start _ _ => None
  end.
Definition owns (unit owner : jsstr) (r : EncounterLedgerRow) : bool :=
  str_eqb (row_unit r) unit && str_eqb (ea_ownerPublicKey (t_authorization (ticket r))) owner.
Definition onTicket (unit owner : jsstr) (c : EncounterCommand) (ticketId : jsstr) : async Store Response :=
  let* found := read_store (fun st => lookup_id ticketId (ledger st)) in
  match found with
  | Some r => if owns unit owner r then or_refused (ticketCommand c r) "encounter_state_refused"
              else aret (error "ticket_not_authorized" 403)
  | None => aret (error "ticket_not_authorized" 403)
  end.

Definition inventoryCommand (m : async Store Response) : async Store Response :=
  if transactional options then or_refused m "inventory_state_refused" else aret (error "inventory_unavailable" 503).
Definition apiHeadScope : jsstr -> Store -> throws Z := Generations.current (ap_signer options) has_archive.

(** The commands of an authenticated owner. *)
Definition ownerCommand (unit owner : jsstr) (c : EncounterCommand) : async Store Response :=
  match c with
  | op_release_recovery t e =>
      if transactional options then
        or_refused (let* r := recover (ap_signer options) apiBackend has_archive unit owner t e in aret (json (v_recovery r)))
          "recovery_release_refused"
      else aret (error "recovery_release_unavailable" 503)
  | op_inventory_retire_empty expected ids => inventoryCommand
      (let* cp := retireEmpty (ap_signer options) apiBackend apiHeadScope None unit owner (mkCompaction (Some expected) ids) in
       aret (json (v_checkpoint cp)))
  | op_inventory_compact expected ids => inventoryCommand
      (let* cp := compact (ap_signer options) apiBackend None unit owner (mkCompaction expected ids) in
       aret (json (v_checkpoint cp)))
  | op_inventory_page checkpoint after => inventoryCommand
      (let* p := sync (tread (page (ap_signer options) unit owner checkpoint after)) in
       aret (json (v_page p)))
  | op_admissions =>
      let* generation := sync (tread (activeGeneration unit)) in
      let* open_ := read_store (listAdmissions unit owner generation) in
      aret (json (v_admissions open_))
  | op_start startHead generation => startEncounter unit owner startHead generation
  | _ => match commandTicket c with Some id => onTicket unit owner c id | None => athrow (js "TypeError") end
  end.

(** ** Routing *)

Definition ENDPOINTS : list jsstr :=
  map js ["encounter"; "encounter-admissions"; "encounter-configuration"; "encounter-generation"]%string.
Definition route (path : list jsstr) : option (jsstr * jsstr) :=
  match path with
  | [v1; pve; unit; endpoint] =>
      if str_eqb v1 (js "v1") && str_eqb pve (js "pve") && identifier unit && existsb (str_eqb endpoint) ENDPOINTS
      then Some (unit, endpoint) else None
  | _ => None
  end.
Definition configuration (unit : jsstr) : async Store Response :=
  let* serverNow := sync tnow in
  if negb (isTime serverNow) then aret (error "authority_clock_unavailable" 503)
  else
    let* generation := sync (tread (activeGeneration unit)) in
    aret (json (v_configuration unit (as_publicKey (ap_signer options)) (archivePublicKey <$> ap_archive options)
                  generation serverNow)).
Definition isAdmin (endpoint : jsstr) : bool :=
  str_eqb endpoint (js "encounter-admissions") || str_eqb endpoint (js "encounter-generation").
Definition adminAllowed (authorization : option jsstr) : bool :=
  negb (str_eqb (adminToken options) []) &&
  match authorization with Some a => str_eqb a (js "Bearer " ++ adminToken options) | None => false end.
Definition rollGeneration (unit : jsstr) (value : jsval) : async Store Response :=
  if negb (transactional options) then aret (error "generation_unavailable" 503)
  else
    match field value "expectedGeneration" with
    | JNum expected =>
        if negb (exactKeys value ["expectedGeneration"]%string) || negb (isTime expected)
        then aret (error "invalid_generation" 400)
        else or_refused (let* s := roll (ap_signer options) apiBackend has_archive unit expected in aret (json (v_seal s)))
               "generation_state_refused"
    | _ => aret (error "invalid_generation" 400)
    end.

(** The time window, and the owner's signature over the request. *)
Definition authenticated (unit : jsstr) (d : EncounterHttpRequest) (now : Z) : async Store bool :=
  if negb (str_eqb (hr_unit d) unit) || (now <? hr_issuedAt d) || (hr_expiresAt d <=? now) then aret false
  else await (let! digest := hash apiBackend (encounterRequestFrame d) in
              cb_verify apiBackend (hr_ownerPublicKey d) digest (hr_signature d)).
Definition ownerRequest (unit : jsstr) (value : jsval) : async Store Response :=
  match decodeEncounterRequest value with
  | None => aret (error "invalid_request" 400)
  | Some d =>
      let* now := sync tnow in
      if negb (isTime now) then aret (error "authority_clock_unavailable" 503)
      else
        let* valid := authenticated unit d now in
        if negb valid then aret (error "unauthorized" 401)
        else ownerCommand unit (hr_ownerPublicKey d) (command d)
  end.

Definition unreadable (e : jsstr) : Response :=
  if str_eqb e (js "body_too_large") then error "body_too_large" 413 else error "invalid_json" 400.
Definition fetch (request : HttpRequest) : async Store Response :=
  match route (rq_path request) with
  | None => aret (error "not_found" 404)
  | Some (unit, endpoint) =>
      if str_eqb endpoint (js "encounter-configuration") then
        if negb (str_eqb (rq_method request) (js "GET")) then aret (error "method_not_allowed" 405)
        else configuration unit
      else if negb (str_eqb (rq_method request) (js "POST")) then aret (error "method_not_allowed" 405)
      else if isAdmin endpoint && negb (adminAllowed (rq_authorization request)) then aret (error "unauthorized" 401)
      else
        let* body := await (inr (readBoundedEncounterJson (rq_body request))) in
        match body with
        | inl e => aret (unreadable e)
        | inr value =>
            if str_eqb endpoint (js "encounter-generation") then rollGeneration unit value
            else if isAdmin endpoint then sync (provision value unit)
            else ownerRequest unit value
        end
  end.
End Api.
