(* ===== verification/Confinement.v ===== *)
(** * Confinement of asynchronous code

    What a piece of code may change, and what it returns, when the only thing
    that is known of the others is that they keep an invariant: [keeps].  It is
    used to show that a request of one owner leaves the rows, the archive and
    the inventory of every other owner alone. *)
From stdpp Require Import gmap.
From S2P Require Import Prelude Json Contracts Kernel Journal Snapshot Utf8 CryptoBackend EncounterWire EncounterHttp.
From S2P Require Import EncounterBundle InventoryCheckpoint InventoryRanges Async EncounterLedger EncounterStore.
From S2P Require Import OwnerAuth OwnerFacts EncounterWireFacts EncounterHttpFacts.
From S2P Require Import ArchiveStore Generations Inventory EncounterAuthority EncounterApi.
Set Default Goal Selector "!".

(** ** Pieces of code under an invariant *)

Section Keeps.
Context {W : Type} (Inv : W -> Prop) (G : W -> W -> Prop) {G_preorder : PreOrder G}.

Fixpoint step_keeps {A} (s : step W A) (Q : A -> Prop) : Prop :=
  match s with
  | Finished (inr a) => Q a
  | Finished (inl _) => True
  | Suspended k => forall w, Inv w -> Inv (fst (k w)) /\ G w (fst (k w)) /\ step_keeps (snd (k w)) Q
  end.
(** Started in any state with [Inv], every piece of [m] keeps [Inv] and changes
    the state within [G]; what [m] returns has [Q]. *)
Definition keeps {A} (m : async W A) (Q : A -> Prop) : Prop :=
  forall w, Inv w -> Inv (fst (m w)) /\ G w (fst (m w)) /\ step_keeps (snd (m w)) Q.

Lemma keeps_ret {A} (a : A) (Q : A -> Prop) : Q a -> keeps (aret a) Q.
Proof. intros Hq w Hw. split; [done|]. split; [cbn; reflexivity|done]. Qed.
Lemma keeps_throw {A} e (Q : A -> Prop) : keeps (athrow e) Q.
Proof. intros w Hw. split; [done|]. split; [cbn; reflexivity|done]. Qed.
Lemma keeps_throws {A} (r : throws A) (Q : A -> Prop) : (forall a, r = inr a -> Q a) -> keeps (of_throws r) Q.
Proof. intros Hq w Hw. split; [done|]. split; [cbn; reflexivity|]. destruct r; [done|by apply Hq]. Qed.
Lemma keeps_read {A} (f : W -> A) (Q : A -> Prop) : (forall w, Inv w -> Q (f w)) -> keeps (read_store f) Q.
Proof. intros Hq w Hw. split; [done|]. split; [cbn; reflexivity|by apply Hq]. Qed.
Lemma keeps_await {A} (r : throws A) (Q : A -> Prop) : (forall a, r = inr a -> Q a) -> keeps (await r) Q.
Proof.
  intros Hq w Hw. split; [done|]. split; [cbn; reflexivity|]. cbn. intros w' Hw'. split; [done|].
  split; [reflexivity|]. destruct r; [done|by apply Hq].
Qed.
(** A call of the host, which returns at once. *)
Lemma keeps_call {A} (g : W -> W) (f : W -> throws A) (Q : A -> Prop) :
  (forall w, Inv w -> Inv (g w) /\ G w (g w) /\ forall a, f w = inr a -> Q a) -> keeps (fun w => (g w, Finished (f w))) Q.
Proof.
  intros Hg w Hw. destruct (Hg w Hw) as (Hi & Hr & Hq). split_and!; [done..|]. cbn. destruct (f w); [done|by apply Hq].
Qed.
Lemma keeps_refuse {A} c e (k : async W A) Q : (c = false -> keeps k Q) -> keeps (refuse_if c e k) Q.
Proof. intros Hk. destruct c; [apply keeps_throw|by apply Hk]. Qed.
Lemma keeps_asserted {A} (x : option A) (Q : A -> Prop) : (forall a, x = Some a -> Q a) -> keeps (asserted x) Q.
Proof. intros Hq. destruct x; [apply keeps_ret; auto|apply keeps_throw]. Qed.

Lemma step_keeps_bind {A B} (s : step W A) (f : A -> async W B) P Q :
  step_keeps s P -> (forall a, P a -> keeps (f a) Q) -> keeps (step_bind s f) Q.
Proof.
  intros Hs Hf. induction s as [[e|a]|k IH] using step_ind'; cbn [step_bind step_keeps] in *.
  - apply keeps_throw.
  - by apply Hf.
  - intros w Hw. split; [done|]. split; [cbn; reflexivity|]. cbn [snd step_keeps]. intros w' Hw'.
    specialize (IH w'). destruct (Hs w' Hw') as (Hi & Hr & Hk). destruct (k w') as [w2 s2]. cbn [fst snd] in *.
    destruct (IH Hk w2 Hi) as (Hi2 & Hr2 & Hs2). split_and!; [done|by etrans|done].
Qed.
Lemma keeps_bind {A B} (m : async W A) (f : A -> async W B) P Q :
  keeps m P -> (forall a, P a -> keeps (f a) Q) -> keeps (abind m f) Q.
Proof.
  intros Hm Hf w Hw. destruct (Hm w Hw) as (Hi & Hr & Hs). unfold abind. destruct (m w) as [w1 s1]. cbn [fst snd] in *.
  destruct (step_keeps_bind s1 f P Q Hs Hf w1 Hi) as (Hi2 & Hr2 & Hs2). split_and!; [done|by etrans|done].
Qed.
Lemma keeps_weaken {A} (m : async W A) (P Q : A -> Prop) : keeps m P -> (forall a, P a -> Q a) -> keeps m Q.
Proof.
  intros Hm HPQ w Hw. destruct (Hm w Hw) as (Hi & Hr & Hs). split_and!; [done..|]. clear -Hs HPQ.
  induction (snd (m w)) as [[e|a]|k IH] using step_ind'; cbn [step_keeps] in *; [done|by apply HPQ|].
  intros w' Hw'. destruct (Hs w' Hw') as (Hi & Hr & Hk). split_and!; [done..|]. by apply IH.
Qed.
Lemma keeps_retrying {A} n (body : async W (option A)) e (Q : A -> Prop) :
  keeps body (fun r => match r with Some a => Q a | None => True end) -> keeps (retrying n body e) Q.
Proof.
  intros Hb. induction n as [|n IH]; cbn [retrying]; [apply keeps_throw|].
  apply (keeps_bind _ _ _ _ Hb). intros [a|] Ha; [by apply keeps_ret|done].
Qed.

Lemma step_keeps_catch {A} (s : step W A) (h : jsstr -> async W A) Q :
  step_keeps s Q -> (forall e, keeps (h e) Q) -> keeps (step_catch s h) Q.
Proof.
  intros Hs Hh. induction s as [[e|a]|k IH] using step_ind'; cbn [step_catch step_keeps] in *.
  - apply Hh.
  - by apply keeps_ret.
  - intros w Hw. split; [done|]. split; [cbn; reflexivity|]. cbn [snd step_keeps]. intros w' Hw'.
    specialize (IH w'). destruct (Hs w' Hw') as (Hi & Hr & Hk). destruct (k w') as [w2 s2]. cbn [fst snd] in *.
    destruct (IH Hk w2 Hi) as (Hi2 & Hr2 & Hs2). split_and!; [done|by etrans|done].
Qed.
Lemma keeps_catch {A} (m : async W A) (h : jsstr -> async W A) Q :
  keeps m Q -> (forall e, keeps (h e) Q) -> keeps (acatch m h) Q.
Proof.
  intros Hm Hh w Hw. destruct (Hm w Hw) as (Hi & Hr & Hs). unfold acatch. destruct (m w) as [w1 s1]. cbn [fst snd] in *.
  destruct (step_keeps_catch s1 h Q Hs Hh w1 Hi) as (Hi2 & Hr2 & Hs2). split_and!; [done|by etrans|done].
Qed.
End Keeps.

Definition anything {A} : A -> Prop := fun _ => True.
Definition any_change {W} : W -> W -> Prop := fun _ _ => True.
#[export] Instance any_change_preorder {W} : PreOrder (@any_change W).
Proof. by split. Qed.
(** What the changes preserve may be added to the invariant. *)
Lemma keeps_preserving {W A} (Inv P : W -> Prop) (G : W -> W -> Prop) (m : async W A) Q :
  (forall w w', Inv w -> G w w' -> P w -> P w') -> keeps Inv G m Q -> keeps (fun w => Inv w /\ P w) any_change m Q.
Proof.
  intros HP Hm w [Hw Hp]. destruct (Hm w Hw) as (Hi & Hr & Hs). split; [split; [done|by apply (HP w)]|]. split; [done|].
  clear -Hs HP. induction (snd (m w)) as [[e|a]|k IH] using step_ind'; [done..|]. cbn [step_keeps] in *.
  intros w' [Hw' Hp']. destruct (Hs w' Hw') as (Hi & Hr & Hk). split; [split; [done|by apply (HP w')]|]. split; [done|].
  by apply IH.
Qed.

(** ** The ledger as other owners see it *)

Section Ledger.
Context (u o : jsstr).

(** The ticket of the row was issued for this unit and to this owner. *)
Definition belongs (r : EncounterLedgerRow) : Prop :=
  EncounterWire.unit (t_authorization (ticket r)) = u /\ ea_ownerPublicKey (t_authorization (ticket r)) = o.
#[export] Instance belongs_dec r : Decision (belongs r).
Proof. unfold belongs. apply _. Defined.
(** The row, if it belongs to anybody else. *)
Definition foreign (r : option EncounterLedgerRow) : option EncounterLedgerRow :=
  match r with Some x => if decide (belongs x) then None else Some x | None => None end.
Lemma foreign_owned r : belongs r -> foreign (Some r) = None.
Proof. intros Hr. cbn. by rewrite decide_True. Qed.
(** Only the owner's own rows change, and the row of the ticket [t]. *)
Definition rows_kept (t : option jsstr) (w w' : World) : Prop :=
  forall id, t <> Some id -> foreign (lookup_id id w') = foreign (lookup_id id w).
#[export] Instance rows_kept_preorder t : PreOrder (rows_kept t).
Proof. split; [by intros w id|]. intros w1 w2 w3 H12 H23 id Hid. by rewrite H23, H12. Qed.
Definition table_keyed (t : LedgerTable) : Prop := forall id e, t !! id = Some e -> row_id (data e) = id.
Definition keyed (w : World) : Prop := table_keyed (encounter_tickets w) /\ table_keyed (encounter_origins w).
Lemma keyed_row id w r : keyed w -> lookup_id id w = Some r -> row_id r = id.
Proof.
  intros [Ht Ho]. unfold lookup_id. destruct (encounter_tickets w !! id) as [e|] eqn:E; [intros [= <-]; by apply Ht|].
  destruct (encounter_origins w !! id) as [e|] eqn:E'; [|done]. intros [= <-]. by apply Ho.
Qed.
Lemma keyed_insert t (id : jsstr) k n r : table_keyed t -> row_id r = id -> table_keyed (<[id := mkEntry k n r]> t).
Proof. intros Ht Hr id' e. rewrite lookup_insert_Some. intros [[<- <-]|[_ He]]; [done|by apply Ht]. Qed.
Lemma keyed_delete t (id : jsstr) : table_keyed t -> table_keyed (delete id t).
Proof. intros Ht id' e. rewrite lookup_delete_Some. intros [_ He]. by apply Ht. Qed.

Lemma update_ne expected r t t' (id : jsstr) :
  update expected r t = Some t' -> (table_keyed t -> table_keyed t') /\ (id <> row_id r -> t' !! id = t !! id) /\ is_Some (t !! row_id r).
Proof.
  unfold update. destruct (t !! row_id r) as [e|] eqn:E; [|done]. destruct (_ && _); [|done]. intros [= <-].
  split_and!; [intros Ht; by apply keyed_insert|intros; by rewrite lookup_insert_ne|eauto].
Qed.
Lemma replace_row_kept expected r w w' b :
  keyed w -> replace_row expected r w = (w', b) ->
  keyed w' /\ forall id, id <> row_id r -> lookup_id id w' = lookup_id id w.
Proof.
  intros Hk E. unfold replace_row in E. destruct (update expected r (encounter_tickets w)) as [t|] eqn:Et.
  - injection E as <- _. split; [split; [|apply Hk]; cbn; apply (update_ne _ _ _ _ [] Et), Hk|]. intros id Hid.
    unfold lookup_id. cbn [with_tickets encounter_tickets encounter_origins].
    destruct (update_ne _ _ _ _ id Et) as (_ & -> & _); done.
  - destruct (update expected r (encounter_origins w)) as [t|] eqn:Eo; injection E as <- _; [|done].
    split; [split; [apply Hk|]; cbn; apply (update_ne _ _ _ _ [] Eo), Hk|]. intros id Hid.
    unfold lookup_id. cbn [with_origins encounter_tickets encounter_origins].
    destruct (update_ne _ _ _ _ id Eo) as (_ & -> & _); done.
Qed.
Lemma only_row t w w' id0 : t = Some id0 -> (forall id, id <> id0 -> lookup_id id w' = lookup_id id w) -> rows_kept t w w'.
Proof. intros -> Hid id Hne. rewrite Hid; [done|]. by intros ->. Qed.

Abbreviation wkeeps t := (keeps keyed (rows_kept t)).

Lemma keeps_replace r (id : jsstr) : row_id r = id -> wkeeps (Some id) (replace_next r) anything.
Proof.
  intros Hr. unfold replace_next, replace. apply keeps_refuse; [exact _|]. intros _ w Hw.
  destruct (replace_row _ _ w) as [w' b] eqn:E. cbn [fst snd].
  destruct (replace_row_kept _ _ _ _ _ Hw E) as [Hk Hid]. split; [done|]. split; [|done].
  apply (only_row _ _ _ id eq_refl). intros id' Hne. apply Hid. unfold row_id, set_revision. cbn [ticket].
  unfold row_id in Hr. congruence.
Qed.
Lemma keeps_insert t r : belongs r -> wkeeps t (insert r) anything.
Proof.
  intros Hr w Hw. unfold insert. destruct (insert_row r w) as [w' b] eqn:E. cbn [fst snd]. unfold insert_row in E.
  destruct (_ || _) eqn:Et; injection E as <- _; [split; [done|]; split; [reflexivity|done]|].
  apply orb_false_iff in Et as [Eo Et]. apply taken_false in Eo as [Eo _], Et as [Et _].
  split; [split; [by apply keyed_insert; [apply Hw|]|apply Hw]|]. split; [|done].
  intros id _. unfold lookup_id. cbn [with_tickets encounter_tickets encounter_origins].
  destruct (decide (id = row_id r)) as [->|Hne]; [|by rewrite lookup_insert_ne].
  rewrite lookup_insert_eq, Et, Eo. by apply foreign_owned.
Qed.
Lemma keeps_world {A} t (f : World -> throws A) (g : World -> World) (Q : A -> Prop) :
  (forall w, encounter_tickets (g w) = encounter_tickets w /\ encounter_origins (g w) = encounter_origins w) ->
  (forall w a, f w = inr a -> Q a) ->
  wkeeps t (fun w => (g w, Finished (f w))) Q.
Proof.
  intros Hg Hq. apply keeps_call. intros w Hw. destruct (Hg w) as [Et Eo]. unfold keyed, rows_kept, lookup_id. rewrite Et, Eo.
  split; [done|]. split; [done|]. apply Hq.
Qed.
End Ledger.

Create HintDb keeps.
#[export] Hint Extern 1 (row_id _ = _) => first [assumption | by cbn | eassumption] : keeps.
#[export] Hint Resolve keeps_replace : keeps.
Ltac keeps_step :=
  match goal with
  | |- keeps _ _ (abind (row _ _) _) _ => eapply keeps_bind; [exact _|solve [eauto with keeps]|intros ? ?]
  | |- keeps _ _ (abind (retireSettled _ _) _) _ => eapply keeps_bind; [exact _|solve [eauto with keeps]|intros ? ?]
  | |- keeps _ _ (abind _ _) _ => apply (keeps_bind _ _ _ _ anything); try exact _; [|intros ? _]
  | |- keeps _ _ (refuse_if _ _ _) _ => apply keeps_refuse; [exact _|intros ?]
  | |- keeps _ _ (retrying _ _ _) _ => apply keeps_retrying; [exact _|]
  | |- keeps _ _ (aret _) _ => apply keeps_ret; [exact _|]
  | |- keeps _ _ (athrow _) _ => apply keeps_throw; exact _
  | |- keeps _ _ (of_throws _) anything => apply keeps_throws; [exact _|done]
  | |- keeps _ _ (await _) anything => apply keeps_await; [exact _|done]
  | |- keeps _ _ (read_store _) anything => apply keeps_read; [exact _|done]
  | |- keeps _ _ (asserted _) anything => apply keeps_asserted; [exact _|done]
  | |- keeps _ _ (match ?x with _ => _ end) _ => destruct x eqn:?
  | |- keeps _ _ (fun w => (_, Finished _)) _ => apply keeps_world; done
  | |- _ => solve [eauto with keeps]
  end.
(** What is left of the returned values. *)
Ltac keeps_returns := repeat match goal with |- context [if ?b then _ else _] => destruct b end; done.
(** Code that writes nothing, of whose result nothing is asked. *)
Ltac keeps_pure :=
  solve [apply keeps_ret; [exact _|done] | apply keeps_throws; [exact _|done] | apply keeps_read; [exact _|done]].
Ltac keeps_all := repeat (keeps_step; cbv zeta beta).

(** ** The handlers of the authority *)

Section Handlers.
Context `{JsHost} (options : EncounterAuthorityOptions) (u o : jsstr).
Abbreviation wkeeps t := (keeps keyed (rows_kept u o t)).

Lemma keeps_row t id : wkeeps t (row options id) (fun r => row_id r = id).
Proof.
  unfold row, byId. apply (keeps_bind _ _ _ _ (fun r => match r with Some r => row_id r = id | None => True end)).
  - apply keeps_read; [exact _|]. intros w Hw. destruct (lookup_id id w) eqn:E; [|done]. by apply (keyed_row id w).
  - intros [r|] Hr; keeps_all.
Qed.
Hint Resolve keeps_row : keeps.
Lemma keeps_time t : wkeeps t time anything.
Proof. unfold time, host_now. keeps_all. all: done. Qed.
Lemma keeps_held t r : wkeeps t (held r) anything.
Proof. unfold held. keeps_all. Qed.
Hint Resolve keeps_time keeps_held : keeps.
Lemma keeps_retire id : wkeeps (Some id) (retireSettled options id) (fun r => row_id r = id).
Proof.
  unfold retireSettled. keeps_all. all: try done.
  all: keeps_returns.
Qed.
Hint Resolve keeps_retire : keeps.

Lemma keeps_issue t n a : EncounterWire.unit a = u -> ea_ownerPublicKey a = o -> wkeeps t (issue options n a) anything.
Proof.
  intros Hu Ho. induction n as [|n IH]; cbn [issue]; keeps_all; try done;
    unfold generationOf, byStart, randomUUID, getRandomValues, hashed, signed; keeps_all; try done.
  by apply keeps_insert.
Qed.

(** The ticket a request is about. *)
Definition request_ticket (r : EncounterAuthority.request) : option jsstr :=
  match r with
  | r_issue _ _ => None
  | r_commit c => Some (c_ticketId c)
  | r_admit l => Some (el_ticketId l)
  | r_reveal id | r_settle id _ | r_hold id _ | r_fence id | r_status id | r_forfeit id | r_terminate id _
  | r_closure id _ _ | r_prune id _ | r_accept_archive id _ | r_handoff id _ _ | r_archive_release id => Some id
  end.
Definition owned_request (r : EncounterAuthority.request) : Prop :=
  match r with r_issue _ a => EncounterWire.unit a = u /\ ea_ownerPublicKey a = o | _ => True end.

Lemma keeps_release id :
  wkeeps (Some id) (EncounterAuthority.archiveRelease options id) (fun c => ars_ticketId (release_statement c) = id).
Proof. unfold EncounterAuthority.archiveRelease, hashed, signed. keeps_all. all: done. Qed.

(** A request changes no row but that of its ticket; starting an encounter adds
    a row of the owner. *)
Lemma serve_kept r : owned_request r -> wkeeps (request_ticket r) (serve options r) anything.
Proof.
  intros Hr. destruct r; cbn [request_ticket]; unfold serve, answer;
    (apply (keeps_bind _ _ _ _ anything); [|intros ? _; apply keeps_ret; [exact _|done]]);
    [by apply keeps_issue; apply Hr|unfold commit|unfold revealTicket|unfold settle|unfold admitToMarket|unfold setEvidenceHold
    |unfold fenceEvidenceCase|unfold status|unfold forfeit|unfold terminate|unfold closureGrant|unfold pruneGrant
    |unfold acceptArchive|unfold archiveHandoff|by eapply keeps_weaken; [apply keeps_release|]];
    unfold hashed, signed; keeps_all; try done; keeps_returns.
Qed.
End Handlers.

(** ** The database as other owners see it *)

Section Store.
Context (u o : jsstr).

Definition same_scope_index (k : jsstr * jsstr) (st st' : Store) : Prop :=
  inventory_heads st' !! k = inventory_heads st !! k /\
  (forall n, inventory_members st' !! (k, n) = inventory_members st !! (k, n)) /\
  (forall r, range_unit r = fst k -> range_owner r = snd k -> r ∈ empty_ranges st' <-> r ∈ empty_ranges st).
(** The rows of others, their indexes and their archived evidence stay as they
    are, and so do all fences, admissions and evidence cases. *)
Record confined (t : option jsstr) (st st' : Store) : Prop := {
  cf_rows : rows_kept u o t (ledger st) (ledger st');
  cf_index : forall k, k <> (u, o) -> same_scope_index k st st';
  cf_archive : forall id x, t <> Some id -> archive_objects st !! id = Some x -> archive_objects st' !! id = Some x;
  cf_generations : encounter_generations st' = encounter_generations st /\ generation_floors st' = generation_floors st /\
    archive_generations st' = archive_generations st;
  cf_admissions : admissions st' = admissions st /\ legacy_admissions st' = legacy_admissions st;
  cf_cases : case_bindings st' = case_bindings st /\ case_resolved st' = case_resolved st;
}.
#[export] Instance confined_preorder t : PreOrder (confined t).
Proof.
  split.
  - intros st. by split.
  - intros st1 st2 st3 [A1 B1 C1 D1 E1 F1] [A2 B2 C2 D2 E2 F2]. split.
    + by etrans.
    + intros k Hk. destruct (B1 k Hk) as (Ha1 & Hb1 & Hc1), (B2 k Hk) as (Ha2 & Hb2 & Hc2).
      split; [congruence|]. split; [intros n; congruence|]. intros r Hu Ho. by rewrite Hc2, Hc1.
    + auto.
    + destruct D1 as (? & ? & ?), D2 as (? & ? & ?). split_and!; congruence.
    + destruct E1, E2. split; congruence.
    + destruct F1, F2. split; congruence.
Qed.
Definition store_keyed (st : Store) : Prop := keyed (ledger st).
Abbreviation skeeps t := (keeps store_keyed (confined t)).

Lemma ledger_confined t st w : rows_kept u o t (ledger st) w -> confined t st (set_ledger w st).
Proof. intros Hw. by split. Qed.

(** Only the host was called. *)
Definition host_only (st st' : Store) : Prop := exists n, st' = set_ledger (with_calls n (ledger st)) st.
#[export] Instance host_only_preorder : PreOrder host_only.
Proof.
  split; [intros st; exists (calls (ledger st)); by destruct st as [[] ]|]. intros st1 st2 st3 [n ->] [m ->]. by exists m.
Qed.
Lemma host_only_now : tx_within host_only tnow.
Proof. intros st. by exists (S (calls (ledger st))). Qed.
Lemma host_confined t st st' : host_only st st' -> store_keyed st -> store_keyed st' /\ confined t st st'.
Proof. intros [n ->] Hk. split; [done|]. apply ledger_confined. intros id _. done. Qed.
Lemma rolled_back_host st st' : host_only st (rolled_back st st').
Proof. by eexists. Qed.

Lemma keeps_sync {A} t (m : tx A) (Q : A -> Prop) :
  tx_within host_only m -> (forall st st' a, store_keyed st -> m st = (st', inr a) -> Q a) -> skeeps t (sync m) Q.
Proof.
  intros Hm Hq st Hk. specialize (Hm st). unfold sync. destruct (m st) as [st' r] eqn:E. cbn [fst snd] in *.
  destruct (host_confined t _ _ Hm Hk) as [Hk' Hc]. split_and!; [done..|]. cbn. destruct r; [done|by apply (Hq st st')].
Qed.
Lemma keeps_transaction {A} t (body : tx A) (Q : A -> Prop) :
  (forall st st' a, store_keyed st -> body st = (st', inr a) -> store_keyed st' /\ confined t st st' /\ Q a) ->
  skeeps t (transaction body) Q.
Proof.
  intros Hb st Hk. unfold transaction. destruct (body st) as [st' [e|a]] eqn:E; cbn [fst snd].
  - destruct (host_confined t st (rolled_back st st')) as [Hk' Hc]; [apply rolled_back_host|done|]. by split_and!.
  - by apply Hb.
Qed.

Lemma keeps_on_ledger {A} t cur (m : async World A) (Q : A -> Prop) :
  keeps keyed (rows_kept u o t) m Q -> skeeps t (on_ledger cur m) Q.
Proof.
  assert (Hstep : forall s, step_keeps keyed (rows_kept u o t) s Q -> step_keeps store_keyed (confined t) (lift_step cur s) Q).
  { intros s. induction s as [[e|a]|k IH] using step_ind'; cbn [lift_step step_keeps]; [done..|].
    intros Hs st Hk. specialize (IH (view cur st)). destruct (Hs (view cur st) Hk) as (Hi & Hr & Hn).
    destruct (k (view cur st)) as [w2 s2]. cbn [fst snd] in *. split; [done|]. split; [by apply ledger_confined|by apply IH]. }
  intros Hm st Hk. unfold on_ledger. destruct (Hm (view cur st) Hk) as (Hi & Hr & Hs).
  destruct (m (view cur st)) as [w2 s2]. cbn [fst snd] in *. split; [done|]. split; [by apply ledger_confined|by apply Hstep].
Qed.
End Store.

Ltac host_only := repeat first [tx_step_within | apply host_only_now].
Ltac store_step :=
  match goal with
  | |- keeps _ _ (sync _) anything => apply keeps_sync; [unfold sources, retire_source; host_only|done]
  | |- keeps _ _ (transaction _) anything => apply keeps_transaction; intros ? ? ? ? ?
  | |- _ => keeps_step
  end.
Ltac store_all := repeat (store_step; cbv zeta beta).

(** ** The archive *)

Section Archive.
Context `{JsHost} (archive : EncounterArchiveOptions) (u o : jsstr).
Abbreviation skeeps t := (keeps store_keyed (confined u o t)).

Lemma archive_confined t objects budget st :
  (forall id x, t <> Some id -> archive_objects st !! id = Some x -> objects !! id = Some x) ->
  confined u o t st (set_archive objects budget (archive_generations st) st).
Proof. intros Ho. by split. Qed.
Lemma archive_fault_ok st st' a : ArchiveStore.write_fault archive st = (st', inr a) -> st' = st.
Proof. unfold ArchiveStore.write_fault. destruct (injectWriteFault archive); [done|]. by intros [= <-]. Qed.

Lemma insertObject_kept t id generation unit digest text custody st st' a :
  store_keyed st -> insertObject archive id generation unit digest text custody st = (st', inr a) ->
  store_keyed st' /\ confined u o t st st' /\ anything a.
Proof.
  intros Hk E. unfold insertObject in E. tx_run E. destruct a1 as [old|]; tx_run E.
  - split; [done|]. split; [reflexivity|done].
  - match goal with F : ArchiveStore.write_fault _ _ = _ |- _ => apply archive_fault_ok in F end. subst. split; [done|]. split; [|done]. apply archive_confined. intros id' x _ Hx.
    rewrite lookup_insert_ne; [done|]. intros ->. unfold read in E1. rewrite Hx in E1. unfold throw_if in E1.
    destruct (_ || _); [done|]. destruct (ao_bundle x) as [text'|]; [|done]. by destruct (decodeArchiveBundle text').
Qed.
Lemma releaseObject_kept certificate st st' a :
  store_keyed st -> releaseObject archive certificate st = (st', inr a) ->
  store_keyed st' /\ confined u o (Some (ars_ticketId (release_statement certificate))) st st' /\ anything a.
Proof.
  intros Hk E. unfold releaseObject in E. tx_run E. destruct a0 as [old|]; [|done]. tx_run E.
  destruct (rd_release old); tx_run E.
  - split; [done|]. split; [reflexivity|done].
  - match goal with F : ArchiveStore.write_fault _ _ = _ |- _ => apply archive_fault_ok in F end. subst. split; [done|]. split; [|done]. apply archive_confined. intros id' x Hne Hx.
    rewrite lookup_alter_ne; [done|]. congruence.
Qed.
Lemma store_kept t b : skeeps t (ArchiveStore.store archive b) anything.
Proof. unfold ArchiveStore.store. store_all. by eapply insertObject_kept. Qed.
Lemma release_kept certificate :
  skeeps (Some (ars_ticketId (release_statement certificate))) (ArchiveStore.release archive certificate) anything.
Proof. unfold ArchiveStore.release. store_all. by eapply releaseObject_kept. Qed.
End Archive.

(** ** The inventory index and the origins *)

Section Index.
Context (u o : jsstr).
Abbreviation skeeps t := (keeps store_keyed (confined u o t)).

Lemma index_confined t heads members ranges st :
  (forall k, k <> (u, o) -> heads !! k = inventory_heads st !! k) ->
  (forall k n, k <> (u, o) -> members !! (k, n) = inventory_members st !! (k, n)) ->
  (forall r, (range_unit r, range_owner r) <> (u, o) -> r ∈ ranges <-> r ∈ empty_ranges st) ->
  confined u o t st (set_inventory heads members ranges st).
Proof.
  intros Hh Hm Hr. split; try done. intros k Hk. split; [by apply Hh|]. split; [intros n; by apply Hm|].
  intros r E1 E2. apply Hr. destruct k. cbn in *. congruence.
Qed.
Lemma insert_members_kept t rs (n : Z) st st' a :
  insert_members u o n rs st = (st', inr a) -> ledger st' = ledger st /\ confined u o t st st'.
Proof.
  revert n st. induction rs as [|r rs IH]; intros n st E; cbn [insert_members] in E; tx_run E.
  - split; [done|reflexivity].
  - apply IH in E as [El Ec]. unfold insert_member in E0. destruct (_ || _); [done|]. apply pair_equal_spec in E0 as [<- _].
    split; [done|]. etrans; [|exact Ec]. apply index_confined; [done| |done]. intros k n' Hk. rewrite lookup_insert_ne; [done|].
    congruence.
Qed.
Lemma add_ranges_kept n t t' r : add u o n t = inr t' -> (range_unit r, range_owner r) <> (u, o) -> r ∈ t' <-> r ∈ t.
Proof.
  intros E Hr. unfold add, throw_if in E.
  assert (Hd : forall range t0, r ∈ delete_range u o range t0 <-> r ∈ t0).
  { intros [x|] t0; [|done]. cbn. rewrite elem_of_delete. split; [tauto|]. intros Hin. split; [done|]. intros (E1 & E2 & _). apply Hr. congruence. }
  guard_step E. destruct (predecessor u o n t) as [|before]; cbn [throw_bind] in E; [done|]. guard_step E.
  match type of E with throw_bind ?x _ = _ => destruct x as [|starting]; cbn [throw_bind] in E; [done|] end.
  unfold insert_range, throw_if in E. guard_step E. apply (inj inr) in E as <-.
  rewrite elem_of_cons, !Hd. split; [|tauto]. intros [->|]; done.
Qed.
Lemma forget_origin_kept id rev message st st' a :
  store_keyed st -> foreign u o (lookup_id id (ledger st)) = None -> forget_origin id rev message st = (st', inr a) ->
  store_keyed st' /\ confined u o None st st'.
Proof.
  intros [Hkt Hko] Hf E. unfold forget_origin in E. destruct (encounter_origins (ledger st) !! id) as [e|] eqn:Eo; [|done].
  destruct (_ =? _); [|done]. apply pair_equal_spec in E as [<- _]. split; [split; [done|by apply keyed_delete]|].
  apply ledger_confined. intros id' _. unfold lookup_id in *. cbn [with_origins encounter_tickets encounter_origins].
  destruct (decide (id' = id)) as [->|Hne]; [|by rewrite lookup_delete_ne]. rewrite lookup_delete_eq.
  destruct (encounter_tickets (ledger st) !! id); [done|]. by rewrite Hf.
Qed.
End Index.

Section Inventory.
Context `{JsHost} (signer : AsyncAuditSigner) (backend : AuditCryptoBackend).
Context (cur : jsstr -> Store -> throws Z) (fault : option jsstr) (u o : jsstr).
Abbreviation skeeps t := (keeps store_keyed (confined u o t)).

Lemma inventory_fault_ok st st' a : Inventory.write_fault fault st = (st', inr a) -> st' = st.
Proof. unfold Inventory.write_fault. destruct fault; [done|]. by intros [= <-]. Qed.
Lemma head_confined (t : option jsstr) (st : Store) heads :
  (forall k, k <> (u, o) -> heads !! k = inventory_heads st !! k) ->
  confined u o t st (set_inventory heads (inventory_members st) (empty_ranges st) st).
Proof. intros Hf. by apply index_confined. Qed.

Lemma append_kept (t : option jsstr) expected digest old rs cp st st' a :
  store_keyed st -> append_transaction signer fault u o expected digest old rs cp st = (st', inr a) ->
  store_keyed st' /\ confined u o t st st' /\ anything a.
Proof.
  intros Hk E. unfold append_transaction in E. tx_run E. destruct (appended_before _ _ _); tx_run E.
  - split; [done|]. split; [reflexivity|done].
  - match goal with F : insert_members _ _ _ _ _ = _ |- _ => apply (insert_members_kept u o t) in F as [El Ec] end.
    match goal with F : Inventory.write_fault _ _ = _ |- _ => apply inventory_fault_ok in F end. subst.
    split; [unfold store_keyed, set_head; cbn [set_inventory ledger]; by rewrite El|]. split; [|done].
    etrans; [exact Ec|]. apply head_confined. intros k Hk'. by rewrite lookup_insert_ne.
Qed.
Lemma compact_kept (t : option jsstr) command : skeeps t (compact signer backend fault u o command) anything.
Proof. unfold compact. store_all; try done. by eapply append_kept. Qed.

(** The rows that are retired are the owner's. *)
Definition owned_sources (st : Store) (l : list (EncounterLedgerRow * Z)) : Prop :=
  Forall (fun rn => foreign u o (lookup_id (row_id (fst rn)) (ledger st)) = None) l.
Lemma record_owned id st v r : record signer u o id st = inr v -> lookup_id id (ledger st) = Some r -> belongs u o r.
Proof.
  unfold record, throw_if. intros E Hr. rewrite Hr in E. destruct (receipt r) as [rc|]; [|done].
  destruct (recordRefused _ _ _ _ _ _) eqn:Ef; [done|]. unfold recordRefused in Ef.
  repeat match goal with F : _ || _ = false |- _ => apply orb_false_iff in F as [F ?] end.
  repeat match goal with F : negb _ = false |- _ => apply negb_false_iff, str_eqb_eq in F end. done.
Qed.
Lemma retire_source_owned old id st st' rn :
  store_keyed st -> retire_source signer cur u o old id st = (st', inr rn) ->
  foreign u o (lookup_id (row_id (fst rn)) (ledger st)) = None.
Proof.
  intros Hk E. unfold retire_source in E. tx_run E. apply (inj inr) in E1. subst a0.
  destruct (lookup_id id (ledger st)) as [r|] eqn:Er; [|done]. pose proof (record_owned _ _ _ _ E0 Er) as Ho. tx_run E.
  match type of E with match ?f with _ => _ end _ = _ => destruct f as [[n m]|]; [|done] end. tx_run E. subst rn.
  cbn [fst]. rewrite (keyed_row id (ledger st) r Hk Er), Er. by apply foreign_owned.
Qed.
Lemma host_sources st st' l : host_only st st' -> owned_sources st' l <-> owned_sources st l.
Proof. intros [n ->]. done. Qed.
Lemma sources_host old ids : tx_within host_only (sources signer cur u o old ids).
Proof. unfold sources, retire_source. host_only. Qed.
Lemma sources_owned old ids st st' l :
  store_keyed st -> sources signer cur u o old ids st = (st', inr l) -> owned_sources st l.
Proof.
  unfold sources. revert st l. induction ids as [|id ids IH]; intros st l Hk E; cbn [tmap] in E; tx_run E.
  - subst l. constructor.
  - rename E0 into Es, E1 into El. subst l. constructor; [by eapply retire_source_owned|].
    assert (Hh : host_only st st0).
    { assert (Hs : tx_within host_only (retire_source signer cur u o old id)) by (unfold retire_source; host_only).
      specialize (Hs st). by rewrite Es in Hs. }
    apply (host_sources _ _ _ Hh). apply IH with (st := st0); [by eapply host_confined|done].
Qed.

Lemma retire_member_kept rn st st' a :
  store_keyed st -> foreign u o (lookup_id (row_id (fst rn)) (ledger st)) = None ->
  retire_member u o rn st = (st', inr a) -> store_keyed st' /\ confined u o None st st'.
Proof.
  intros Hk Hf E. unfold retire_member in E. tx_run E. rename E0 into Ea, E1 into Ef. unfold add_range in Ea.
  destruct (add u o (snd rn) (empty_ranges st)) as [e|ranges] eqn:Er; [done|]. apply pair_equal_spec in Ea as [<- _].
  apply (forget_origin_kept u o) in Ef as [Hk' Hc]; [|done|done]. unfold delete_member, twrite in E.
  apply pair_equal_spec in E as [<- _]. split; [done|]. etrans; [|etrans; [exact Hc|]].
  - apply index_confined; [done|done|]. intros r Hr. by apply (add_ranges_kept u o (snd rn)).
  - apply index_confined; [done| |done]. intros k n Hne. rewrite lookup_delete_ne; [done|]. congruence.
Qed.
Lemma retire_members_kept l st st' a :
  store_keyed st -> owned_sources st l -> titer (retire_member u o) l st = (st', inr a) ->
  store_keyed st' /\ confined u o None st st'.
Proof.
  revert st. induction l as [|rn l IH]; intros st Hk Hl E; cbn [titer] in E; tx_run E; [split; [done|reflexivity]|].
  inversion Hl as [|? ? Hf Hl']; subst. apply retire_member_kept in E0 as [Hk' Hc]; [|done|done].
  apply IH in E as [Hk2 Hc2]; [split; [done|by etrans]|done|].
  eapply Forall_impl; [exact Hl'|]. intros rn' Hf'. cbn beta in *. by rewrite (cf_rows _ _ _ _ _ Hc).
Qed.
Lemma retire_kept command digest old initial cp st st' a :
  store_keyed st -> retire_transaction signer cur fault u o command digest old initial cp st = (st', inr a) ->
  store_keyed st' /\ confined u o None st st' /\ anything a.
Proof.
  intros Hk E. unfold retire_transaction in E. tx_run E. destruct (retired_before _ _ _); tx_run E.
  - split; [done|]. split; [reflexivity|done].
  - match goal with F : Inventory.write_fault _ _ = _ |- _ => apply inventory_fault_ok in F end. subst.
    match goal with F : sources _ _ _ _ _ _ _ = _ |- _ => rename F into Es end.
    match goal with F : titer _ _ _ = _ |- _ => rename F into Er end.
    pose proof (sources_host old (ticketIds command) st) as Hh. rewrite Es in Hh. cbn [fst] in Hh.
    apply sources_owned in Es; [|done]. apply (host_sources _ _ _ Hh) in Es.
    destruct (host_confined u o None _ _ Hh Hk) as [Hk1 Hc1].
    apply retire_members_kept in Er as [Hk2 Hc2]; [|done|done]. split; [done|]. split; [|done].
    etrans; [exact Hc1|]. etrans; [exact Hc2|]. apply head_confined. intros k Hne. by rewrite lookup_alter_ne.
Qed.
Lemma retireEmpty_kept command : skeeps None (retireEmpty signer backend cur fault u o command) anything.
Proof. unfold retireEmpty. store_all; try done. by eapply retire_kept. Qed.
End Inventory.

(** ** Recovery *)

Section Recovery.
Context `{JsHost} (signer : AsyncAuditSigner) (backend : AuditCryptoBackend) (archived : bool) (u o : jsstr).
Abbreviation skeeps t := (keeps store_keyed (confined u o t)).

Lemma treplace_kept expected r r0 st st' b :
  store_keyed st -> lookup_id (row_id r) (ledger st) = Some r0 -> belongs u o r0 -> belongs u o r ->
  treplace expected r st = (st', inr b) -> store_keyed st' /\ confined u o None st st'.
Proof.
  intros Hk Hr Hf Ho E. unfold treplace in E. tx_run E. destruct (replace_row expected r (ledger st)) as [w b'] eqn:Er.
  apply pair_equal_spec in E as [<- _]. destruct (replace_row_kept _ _ _ _ _ Hk Er) as [Hk' Hid]. split; [done|].
  apply ledger_confined. intros id _. destruct (decide (id = row_id r)) as [->|Hne]; [|by rewrite Hid].
  rewrite Hr, (foreign_owned _ _ _ Hf). unfold replace_row in Er. unfold lookup_id in *.
  destruct (update expected r (encounter_tickets (ledger st))) as [t|] eqn:Et.
  - injection Er as <- _. cbn [with_tickets encounter_tickets encounter_origins]. unfold update in Et.
    destruct (encounter_tickets (ledger st) !! row_id r); [|done]. destruct (_ && _); [|done]. injection Et as <-.
    rewrite lookup_insert_eq. by apply foreign_owned.
  - destruct (update expected r (encounter_origins (ledger st))) as [t|] eqn:Eo; injection Er as <- _.
    + cbn [with_origins encounter_tickets encounter_origins].
      destruct (encounter_tickets (ledger st) !! row_id r) eqn:E1; [injection Hr as ->; by apply foreign_owned|].
      unfold update in Eo. destruct (encounter_origins (ledger st) !! row_id r); [|done]. destruct (_ && _); [|done].
      injection Eo as <-. rewrite lookup_insert_eq. by apply foreign_owned.
    + rewrite Hr. by apply foreign_owned.
Qed.
Lemma release_recovery_kept t e st st' a :
  EncounterWire.unit (t_authorization t) = u -> ea_ownerPublicKey (t_authorization t) = o ->
  store_keyed st -> release_recovery signer archived u t e st = (st', inr a) ->
  store_keyed st' /\ confined u o None st st' /\ anything a.
Proof.
  intros Hu Ho Hk E. unfold release_recovery in E. tx_run E.
  match goal with F : tnow st = _ |- _ => unfold tnow in F; apply pair_equal_spec in F as [<- _] end.
  set (st1 := set_ledger (called (ledger st)) st) in *.
  destruct (host_confined u o None st st1) as [Hk1 Hc1]; [by eexists|done|].
  match goal with F : inr (lookup_id _ _) = inr _ |- _ => apply (inj inr) in F; rewrite <- F in E; clear F end.
  destruct (lookup_id (ticketId t) (ledger st1)) as [r|] eqn:Er; [|destruct (_ <? _) in E; [|done]; tx_run E; done].
  tx_run E. match goal with F : originChanged _ _ _ = false |- _ => unfold originChanged in F; apply orb_false_iff in F as [Ft _]; apply orb_false_iff in Ft as [Ft Fs] end.
  apply negb_false_iff, str_eqb_eq in Ft, Fs. apply ticketFrame_inj in Ft; [|done].
  assert (Hor : belongs u o r) by (unfold belongs; by rewrite Ft).
  pose proof (keyed_row _ _ _ Hk1 Er) as Hid.
  repeat match type of E with (if ?c then _ else _) _ = _ => destruct c end; tx_run E.
  - match goal with F : forget_origin _ _ _ _ = _ |- _ => apply (forget_origin_kept u o) in F as [Hk2 Hc2]; [|done|] end.
    + split; [done|]. split; [by etrans|done].
    + rewrite Er. by apply foreign_owned.
  - done.
  - match goal with F : treplace _ _ _ = _ |- _ => eapply treplace_kept in F as [Hk2 Hc2]; [|done| |exact Hor|done] end.
    + split; [done|]. split; [by etrans|done].
    + unfold row_id, set_recoveryReleased. cbn [ticket]. unfold row_id in Hid. by rewrite Hid.
Qed.
Lemma recover_kept t e : skeeps None (recover signer backend archived u o t e) anything.
Proof.
  unfold recover. store_all; try done.
  repeat match goal with F : _ || _ = false |- _ => apply orb_false_iff in F as [? ?] end.
  repeat match goal with F : negb (str_eqb _ _) = false |- _ => apply negb_false_iff, str_eqb_eq in F end.
  by eapply release_recovery_kept.
Qed.
End Recovery.
