(* ===== verification/EncounterApiSafety.v ===== *)
(** * What a request of the encounter service may do

    Every request over HTTP, piece by piece, whatever the other requests do in
    between: without credentials it changes nothing; with the signature of an
    owner it changes nothing of any other owner; an admission is written once
    and their number is bounded; a bound evidence case holds its ticket. *)
From stdpp Require Import gmap sorting.
From S2P Require Import Prelude Json Contracts Kernel Journal Snapshot Utf8 CryptoBackend EncounterWire EncounterHttp.
From S2P Require Import EncounterBundle InventoryCheckpoint InventoryRanges Async EncounterLedger EncounterStore.
From S2P Require Import OwnerAuth OwnerFacts EncounterWireFacts EncounterHttpFacts.
From S2P Require Import ArchiveStore Generations Inventory EncounterAuthority EncounterApi Confinement.
From S2P Require Import EncounterInvariant AuthorityFacts EncounterSafety ArchiveFacts ArchiveSafety.
Set Default Goal Selector "!".

(** ** Owners *)

Section Owners.
Context `{JsHost} (options : EncounterApiOptions) (rounds : nat) (u o : jsstr).
Abbreviation skeeps t := (keeps store_keyed (confined u o t)).

Lemma keeps_refused t (m : async Store Response) code : skeeps t m anything -> skeeps t (or_refused m code) anything.
Proof. intros Hm. apply keeps_catch; [exact _|done|]. intros e. keeps_pure. Qed.
Lemma authority_kept r :
  owned_request u o r -> skeeps (request_ticket r) (by_authority options r) anything.
Proof.
  intros Hr. unfold by_authority, asAuthority. apply (keeps_bind _ _ _ _ anything).
  - by apply keeps_on_ledger, serve_kept.
  - intros a _. keeps_pure.
Qed.
Lemma upload_kept id r chunks : skeeps (Some id) (archiveUpload options id r chunks) anything.
Proof.
  unfold archiveUpload, with_archive. destruct (ap_archive options) as [archive|]; [|keeps_pure].
  destruct (retentionReleased r); [keeps_pure|].
  destruct (receipt r), (reveal r), (commitment r); try keeps_pure.
  apply (keeps_bind _ _ _ _ anything); [keeps_pure|]. intros payloads _.
  apply (keeps_bind _ _ _ _ anything); [by apply store_kept|]. intros custody _.
  apply (keeps_bind _ _ _ _ anything); [|intros a _; keeps_pure].
  by apply keeps_on_ledger, (serve_kept _ u o (r_accept_archive id custody)).
Qed.
Lemma released_kept id :
  skeeps (Some id) (with_archive options (fun archive =>
    let* a := on_ledger (activeGeneration options) (EncounterAuthority.archiveRelease (apiAuthority options) id) in
    let* released := ArchiveStore.release archive a in
    aret (json (v_released released)))) anything.
Proof.
  unfold with_archive. destruct (ap_archive options) as [archive|]; [|keeps_pure].
  apply (keeps_bind _ _ _ _ (fun c => ars_ticketId (release_statement c) = id)); [by apply keeps_on_ledger, keeps_release|].
  intros c Hc. apply (keeps_bind _ _ _ _ anything); [|intros a _; keeps_pure]. rewrite <- Hc. apply release_kept.
Qed.
Lemma ticketCommand_kept c r id : commandTicket c = Some id -> skeeps (Some id) (ticketCommand options c r) anything.
Proof.
  intros Hc. destruct c; cbn [commandTicket] in Hc; try done; injection Hc as <-; cbn [ticketCommand];
    lazymatch goal with
    | |- keeps _ _ (by_authority _ ?req) _ => exact (authority_kept req I)
    | |- keeps _ _ (archiveUpload _ _ _ _) _ => apply upload_kept
    | _ => idtac
    end.
  - apply (keeps_bind _ _ _ _ anything); [keeps_pure|]. intros payloads _.
    exact (authority_kept (r_settle ticketId payloads) I).
  - unfold with_archive. destruct (ap_archive options) as [archive|]; [|keeps_pure].
    apply (keeps_bind _ _ _ _ anything); [|intros a _; keeps_pure].
    apply keeps_sync; [apply tx_within_read; exact _|done].
  - apply released_kept.
Qed.
Lemma onTicket_kept c id : commandTicket c = Some id -> skeeps (Some id) (onTicket options u o c id) anything.
Proof.
  intros Hc. unfold onTicket. apply (keeps_bind _ _ _ _ anything); [keeps_pure|]. intros [r|] _; [|keeps_pure].
  destruct (owns u o r); [|keeps_pure]. by apply keeps_refused, ticketCommand_kept.
Qed.
Lemma start_kept t startHead generation : skeeps t (startEncounter options rounds u o startHead generation) anything.
Proof.
  unfold startEncounter. store_all; try done. apply keeps_refused.
  match goal with F : _ || _ = false |- _ => apply orb_false_iff in F as [F1 F2] end. apply negb_false_iff, str_eqb_eq in F1, F2.
  apply (keeps_bind _ _ _ _ anything); [|intros ? _; keeps_pure]. apply keeps_on_ledger. cbn [serve]. unfold answer.
  apply (keeps_bind _ _ _ _ anything); [by apply keeps_issue|]. intros ? _. keeps_pure.
Qed.

(** The commands of an owner. *)
Lemma ownerCommand_kept c : skeeps (commandTicket c) (ownerCommand options rounds u o c) anything.
Proof.
  assert (Hinv : forall m, skeeps None m anything -> skeeps None (inventoryCommand options m) anything).
  { intros m Hm. unfold inventoryCommand. destruct (transactional options); [by apply keeps_refused|keeps_pure]. }
  assert (Hj : forall A (m : async Store A) f, skeeps None m anything -> skeeps None (abind m (fun x => aret (json (f x)))) anything).
  { intros A m f Hm. apply (keeps_bind _ _ _ _ anything); [done|]. intros a _. keeps_pure. }
  destruct c; cbn [ownerCommand commandTicket]; try (by apply onTicket_kept).
  - store_all; done.
  - destruct (transactional options); [|keeps_pure]. apply keeps_refused, Hj. apply recover_kept.
  - apply Hinv, Hj. apply compact_kept.
  - apply Hinv, Hj. apply retireEmpty_kept.
  - apply Hinv, Hj. apply keeps_sync; [apply tx_within_read; exact _|done].
  - apply start_kept.
Qed.
End Owners.

Section Fetch.
Context `{JsHost} (options : EncounterApiOptions) (rounds : nat).
Abbreviation fetch := (fetch options rounds).

Lemma fetch_kept Inv (G : Store -> Store -> Prop) (Q : Response -> Prop) request unit endpoint :
  PreOrder G -> route (rq_path request) = Some (unit, endpoint) -> endpoint <> js "encounter-configuration" ->
  (forall code status, 400 <= status -> Q (error code status)) ->
  (isAdmin endpoint = true -> adminAllowed options (rq_authorization request) = false \/
     forall value, readBoundedEncounterJson (rq_body request) = inr value ->
       keeps Inv G (rollGeneration options unit value) Q /\ keeps Inv G (sync (provision options value unit)) Q) ->
  (isAdmin endpoint = false ->
     forall value, readBoundedEncounterJson (rq_body request) = inr value -> keeps Inv G (ownerRequest options rounds unit value) Q) ->
  keeps Inv G (fetch request) Q.
Proof.
  intros HG Hroute Hne He Hadmin Howner. unfold EncounterApi.fetch. rewrite Hroute.
  destruct (str_eqb endpoint (js "encounter-configuration")) eqn:Ec; [by apply str_eqb_eq in Ec|].
  destruct (str_eqb (rq_method request) (js "POST")); cbn [negb]; [|apply keeps_ret; [exact _|by apply He]].
  destruct (isAdmin endpoint && _) eqn:Ea; [apply keeps_ret; [exact _|by apply He]|].
  apply (keeps_bind _ _ _ _ (fun r => r = readBoundedEncounterJson (rq_body request))).
  { apply keeps_await; [exact _|]. by intros a [= <-]. }
  intros [e|value] Hb.
  { apply keeps_ret; [exact _|]. unfold unreadable. by destruct (str_eqb e _); apply He. }
  destruct (isAdmin endpoint) eqn:Eadmin.
  - destruct (Hadmin eq_refl) as [Hf|Hk]; [by rewrite Hf in Ea|]. destruct (Hk value ltac:(congruence)) as [Hr Hp].
    by destruct (str_eqb endpoint (js "encounter-generation")).
  - destruct (str_eqb endpoint (js "encounter-generation")) eqn:Eg; [|by apply Howner].
    apply str_eqb_eq in Eg. unfold isAdmin in Eadmin. by rewrite Eg, orb_comm in Eadmin.
Qed.

Lemma ownerRequest_kept unit value d : decodeEncounterRequest value = Some d ->
  keeps store_keyed (confined unit (hr_ownerPublicKey d) (commandTicket (command d))) (ownerRequest options rounds unit value) anything.
Proof.
  intros Hd. unfold ownerRequest. rewrite Hd. unfold authenticated. store_all; try done. apply ownerCommand_kept.
Qed.

(** *** Without credentials *)

(** The authorization header carries the token of the service. *)
Definition has_admin_token (request : HttpRequest) : Prop :=
  adminToken options <> [] /\ rq_authorization request = Some (js "Bearer " ++ adminToken options).
(** The body decodes to a request for [unit] that its owner signed and whose
    time window contains [now]. *)
Definition credentials (unit : jsstr) (request : HttpRequest) (now : Z) : Prop :=
  exists value d digest, readBoundedEncounterJson (rq_body request) = inr value /\ decodeEncounterRequest value = Some d /\
    hr_unit d = unit /\ hr_issuedAt d <= now < hr_expiresAt d /\
    hash (apiBackend options) (encounterRequestFrame d) = inr digest /\
    cb_verify (apiBackend options) (hr_ownerPublicKey d) digest (hr_signature d) = inr true.
(** The reading of the clock that a piece of code takes that runs in [st]. *)
Definition next_reading (st : Store) : Z := clock_at (ledger st) (calls (ledger st)).

(** The request is answered in its first piece, with an error and no write. *)
Definition refused_at_once (request : HttpRequest) : Prop :=
  forall st, exists r, fetch request st = (st, Finished (inr r)) /\ 400 <= rp_status r.
(** Whatever the others do in between, what is left of the request writes
    nothing and ends with an error status, or throws. *)
Definition ends_refused (s : step Store Response) : Prop :=
  step_keeps (fun _ => True) host_only s (fun r => 400 <= rp_status r).

Lemma admin_allowed request : adminAllowed options (rq_authorization request) = true -> has_admin_token request.
Proof.
  unfold adminAllowed. intros [Hn Ha]%andb_true_iff. destruct (rq_authorization request) as [a|] eqn:E; [|done].
  apply str_eqb_eq in Ha as ->. split; [|done]. by apply negb_true_iff, str_eqb_neq in Hn.
Qed.
Lemma owner_refused unit request value st :
  readBoundedEncounterJson (rq_body request) = inr value -> ~ credentials unit request (next_reading st) ->
  host_only st (fst (ownerRequest options rounds unit value st)) /\
  ends_refused (snd (ownerRequest options rounds unit value st)).
Proof.
  intros Hb Hc. unfold ownerRequest. destruct (decodeEncounterRequest value) as [d|] eqn:Ed; [|split; [reflexivity|done]].
  unfold abind at 1 3, sync, tnow. cbn [step_bind]. fold (next_reading st). set (now := next_reading st) in *.
  set (st1 := set_ledger (called (ledger st)) st).
  assert (Hst : host_only st st1) by (by exists (S (calls (ledger st)))).
  match goal with |- host_only st (fst (?m st1)) /\ _ => cut (keeps (fun _ => True) host_only m (fun r => 400 <= rp_status r)) end.
  { intros Hk. destruct (Hk st1 I) as (_ & Hg & Hs). split; [by etrans|exact Hs]. }
  destruct (isTime now); cbn [negb]; [|by apply keeps_ret; [exact _|]].
  apply (keeps_bind _ _ _ _ (fun valid => valid = false)); [|by intros ? ->; apply keeps_ret; [exact _|]].
  unfold authenticated. destruct (_ || _) eqn:Ew; [by apply keeps_ret; [exact _|]|].
  apply keeps_await; [exact _|]. intros valid Hv.
  apply orb_false_iff in Ew as [Ew E3]. apply orb_false_iff in Ew as [E1 E2]. apply negb_false_iff, str_eqb_eq in E1.
  destruct valid; [|done]. destruct Hc. destruct (hash _ _) as [|digest] eqn:Eh; cbn [throw_bind] in Hv; [done|].
  exists value, d, digest. split_and!; [done..|lia|lia|done|done].
Qed.

(** C24: a request without credentials changes nothing. A request to an unknown
    path, or to an admin endpoint without the header that carries the service's
    token, is answered with an error in its first piece, before anything is
    written. A request to the public endpoint is answered with an error at once,
    or it waits for its body; in the piece that runs then it takes the next
    reading of the clock, and unless its body decodes to a request for this unit
    that its owner signed and whose time window contains that reading, it writes
    nothing to the database, whatever other requests do in between, and ends
    with an error status or throws. *)
Theorem unauthorized_requests_change_nothing request :
  (route (rq_path request) = None -> refused_at_once request) /\
  (forall unit endpoint, route (rq_path request) = Some (unit, endpoint) ->
     endpoint = js "encounter-admissions" \/ endpoint = js "encounter-generation" ->
     ~ has_admin_token request -> refused_at_once request) /\
  (forall unit, route (rq_path request) = Some (unit, js "encounter") ->
     refused_at_once request \/
     exists k, (forall st, fetch request st = (st, Suspended k)) /\
       forall st, ~ credentials unit request (next_reading st) -> host_only st (fst (k st)) /\ ends_refused (snd (k st))).
Proof.
  unfold refused_at_once, EncounterApi.fetch. split; [|split].
  - intros -> st. eexists. by split.
  - intros unit endpoint -> He Ht st.
    assert (Ha : adminAllowed options (rq_authorization request) = false)
      by (apply not_true_is_false; intros Ha; by apply Ht, admin_allowed).
    destruct (str_eqb (rq_method request) (js "POST")), He as [->| ->];
      rewrite (proj2 (str_eqb_neq _ _)) by done; cbn [negb]; [rewrite Ha; by eexists..|by eexists|by eexists].
  - intros unit ->. cbn [str_eqb]. destruct (str_eqb (rq_method request) (js "POST")); [right|left; intros st; by eexists].
    eexists. split; [intros st; reflexivity|]. intros st Hc. cbn [step_bind].
    destruct (readBoundedEncounterJson (rq_body request)) as [e|value] eqn:Eb.
    + split; [reflexivity|]. unfold unreadable. cbn. by destruct (str_eqb e _).
    + exact (owner_refused unit request value st Eb Hc).
Qed.

(** *** With the signature of an owner *)

(** No row with this id was issued to the owner in this unit. *)
Definition not_theirs (unit owner id : jsstr) (st : Store) : Prop :=
  forall r, lookup_id id (ledger st) = Some r ->
    EncounterWire.unit (t_authorization (ticket r)) <> unit \/ ea_ownerPublicKey (t_authorization (ticket r)) <> owner.
Lemma not_owned unit owner r :
  EncounterWire.unit (t_authorization (ticket r)) <> unit \/ ea_ownerPublicKey (t_authorization (ticket r)) <> owner ->
  owns unit owner r = false.
Proof.
  intros Hn. apply not_true_is_false. unfold owns. rewrite andb_true_iff, !str_eqb_eq. unfold row_unit. tauto.
Qed.
Lemma onTicket_refused unit owner c id st : not_theirs unit owner id st ->
  onTicket options unit owner c id st = (st, Finished (inr (error "ticket_not_authorized" 403))).
Proof.
  intros Hn. unfold onTicket, abind, read_store. cbn [step_bind].
  destruct (lookup_id id (ledger st)) as [r|] eqn:Er; [|done]. by rewrite (not_owned _ _ _ (Hn r Er)).
Qed.
Lemma not_theirs_host unit owner id st st' : host_only st st' -> not_theirs unit owner id st -> not_theirs unit owner id st'.
Proof. intros [n ->]. done. Qed.
Lemma stranger_kept unit value d id : decodeEncounterRequest value = Some d -> commandTicket (command d) = Some id ->
  keeps (not_theirs unit (hr_ownerPublicKey d) id) host_only (ownerRequest options rounds unit value) (fun r => 400 <= rp_status r).
Proof.
  intros Hd Hc. unfold ownerRequest. rewrite Hd.
  apply (keeps_bind _ _ _ _ anything).
  { intros st Hst. unfold sync, tnow. cbn [fst snd step_keeps]. assert (Hh : host_only st (set_ledger (called (ledger st)) st)) by (by eexists).
    split_and!; [by eapply not_theirs_host|done|done]. }
  intros now _. destruct (isTime now); cbn [negb]; [|by apply keeps_ret; [exact _|]].
  apply (keeps_bind _ _ _ _ anything).
  { unfold authenticated. destruct (_ || _); [by apply keeps_ret; [exact _|]|by apply keeps_await; [exact _|]]. }
  intros [|] _; cbn [negb]; [|by apply keeps_ret; [exact _|]].
  intros st Hst. assert (E : ownerCommand options rounds unit (hr_ownerPublicKey d) (command d) st =
    (st, Finished (inr (error "ticket_not_authorized" 403)))).
  { destruct (command d); cbn [commandTicket] in Hc; try done; injection Hc as <-; by apply onTicket_refused. }
  rewrite E. split; [exact Hst|]. split; [cbn; reflexivity|done].
Qed.

(** C25: an owner is confined to what is theirs.  A request of the public
    endpoint whose body decodes to the command of an owner, piece by piece and
    whatever others do in between, changes no row of the ledger whose ticket was
    issued for another unit or to another owner except possibly the row of the
    ticket it names, no inventory index of another unit or owner, no archived
    object of another ticket, and no generation fence, admission or evidence
    case.  And as long as the ticket it names does not exist or was issued for
    another unit or to another owner, it changes nothing at all and ends with an
    error status or throws; its command then ends at once with 403. *)
Theorem owner_requests_are_confined request unit value d :
  route (rq_path request) = Some (unit, js "encounter") ->
  readBoundedEncounterJson (rq_body request) = inr value -> decodeEncounterRequest value = Some d ->
  let owner := hr_ownerPublicKey d in
  keeps store_keyed (confined unit owner (commandTicket (command d))) (fetch request) anything /\
  forall id, commandTicket (command d) = Some id ->
    keeps (not_theirs unit owner id) host_only (fetch request) (fun r => 400 <= rp_status r) /\
    forall st, not_theirs unit owner id st ->
      ownerCommand options rounds unit owner (command d) st = (st, Finished (inr (error "ticket_not_authorized" 403))).
Proof.
  intros Hroute Hb Hd owner. split; [|intros id Hc; split].
  - apply (fetch_kept _ _ _ request unit (js "encounter")); [exact _|done|done|done|done|]. intros _ value' Hb'.
    assert (value' = value) as -> by congruence. by apply ownerRequest_kept.
  - apply (fetch_kept _ _ _ request unit (js "encounter")); [exact _|done|done|done|done|]. intros _ value' Hb'.
    assert (value' = value) as -> by congruence. by apply stranger_kept.
  - intros st Hst. destruct (command d); cbn [commandTicket] in Hc; try done; injection Hc as <-; by apply onTicket_refused.
Qed.
End Fetch.

(** ** Admissions *)

Section Counting.
Context {K V : Type} `{Countable K} (f : K * V -> bool).
Definition counted (m : gmap K V) : nat := length (List.filter f (map_to_list m)).
Lemma filter_submseteq_length (l l' : list (K * V)) : l ⊆+ l' -> (length (List.filter f l) <= length (List.filter f l'))%nat.
Proof. induction 1 as [|x l l' _ IH|x y l|x l l' _ IH|]; cbn; repeat case_match; cbn; lia. Qed.
Lemma counted_le m m' : m ⊆ m' -> (counted m <= counted m')%nat.
Proof. intros Hm. by apply filter_submseteq_length, map_to_list_submseteq. Qed.
Lemma counted_insert m k v : m !! k = None -> counted (<[k := v]> m) = (Nat.b2n (f (k, v)) + counted m)%nat.
Proof.
  intros Hk. pose proof (map_to_list_insert m k v Hk) as Hp. unfold counted.
  transitivity (length (List.filter f ((k, v) :: map_to_list m))); [|cbn; by destruct (f (k, v))].
  apply Nat.le_antisymm; apply filter_submseteq_length; by rewrite Hp.
Qed.
End Counting.

Section Admissions.
Context `{JsHost} (options : EncounterApiOptions) (rounds : nat).

(** No generation of a unit has more admissions than the bound. *)
Definition admissions_bounded (st : Store) : Prop :=
  forall unit generation, admission_count options unit generation st <= maxAdmissions options.
Lemma admitted_counted unit generation st : admitted_count unit generation st =
  counted (fun ka => str_eqb (fst (fst (fst ka))) unit && (snd (fst (fst ka)) =? generation)) (admissions st).
Proof. done. Qed.
Lemma bounded_kept st st' :
  admissions st' ⊆ admissions st -> legacy_admissions st' ⊆ legacy_admissions st -> admissions_bounded st -> admissions_bounded st'.
Proof.
  intros Ha Hl Hb unit generation. specialize (Hb unit generation). unfold admission_count in *.
  destruct (transactional options).
  - rewrite admitted_counted in *. pose proof (counted_le (fun ka => str_eqb (fst (fst (fst ka))) unit &&
      (snd (fst (fst ka)) =? generation)) _ _ Ha). lia.
  - pose proof (map_subseteq_size _ _ Hl). lia.
Qed.
Lemma insert_admission_bounded unit generation a st :
  admission options unit generation (startHead a) st = None ->
  admission_count options unit generation st < maxAdmissions options ->
  admissions_bounded st -> admissions_bounded (insert_admission options unit generation a st).
Proof.
  intros Hn Hlt Hb unit' generation'. specialize (Hb unit' generation').
  unfold admission, admission_count, insert_admission in *. destruct (transactional options).
  - rewrite admitted_counted in *. cbn [set_admissions admissions]. rewrite counted_insert by done. cbn [fst snd].
    destruct (str_eqb unit unit' && (generation =? generation')) eqn:E; cbn [Nat.b2n]; [|lia].
    apply andb_true_iff in E as [E1%str_eqb_eq E2%Z.eqb_eq]. subst. lia.
  - cbn [set_admissions legacy_admissions]. rewrite map_size_insert_None by done. lia.
Qed.

(** The generation and the object of a provisioning, when they are valid. *)
Definition admits (unit : jsstr) (a : EncounterAuthorization) (st : Store) : Prop :=
  EncounterWire.unit a = unit /\ activeGeneration options unit st = inr (default 0 (generation a)).
Lemma active_nonneg unit st g : activeGeneration options unit st = inr g -> 0 <= g.
Proof.
  unfold activeGeneration. destruct (transactional options); [|intros [= <-]; done]. unfold Generations.current, throw_if.
  intros E. guard_step E. clear Hg. destruct (encounter_generations st !! unit) as [row|].
  - guard_step E. apply negb_false_iff in Hg. unfold isTime in Hg. guard_step E.
    match type of E with throw_bind ?x _ = _ => destruct x; cbn [throw_bind] in E; [done|] end.
    guards E; injection E as <-; lia.
  - guard_step E. destruct (archive_minimum _ _ _); cbn [throw_bind] in E; [done|]. guard_step E. by injection E as <-.
Qed.
Lemma admitted_generation unit a : 0 <= default 0 (generation a) ->
  default 0 (generation (admitted_object unit a)) = default 0 (generation a).
Proof.
  intros Ht. unfold admitted_object. cbn [generation]. destruct (0 <? default 0 (generation a)) eqn:E; cbn [default]; [done|lia].
Qed.

Lemma inserted_admission unit g a st :
  activeGeneration options unit (insert_admission options unit g a st) = activeGeneration options unit st /\
  admission options unit g (startHead a) (insert_admission options unit g a st) = Some a.
Proof.
  unfold activeGeneration, admission, insert_admission. destruct (transactional options); split; try done;
    cbn [set_admissions admissions legacy_admissions]; apply lookup_insert_eq.
Qed.

(** What provisioning does, on every branch. *)
Definition provisioned (value : jsval) (unit : jsstr) (st st' : Store) (resp : Response) : Prop :=
  match rp_status resp with
  | 201 => exists a, admits unit a st /\
      let g := default 0 (generation a) in
      admission options unit g (startHead a) st = None /\
      admission_count options unit g st < maxAdmissions options /\
      st' = insert_admission options unit g a st /\
      provision options value unit st' = (st', inr (json v_accepted))
  | 200 => st' = st /\ exists a old, admits unit a st /\
      admission options unit (default 0 (generation a)) (startHead a) st = Some old /\
      authorization_text old = authorization_text a
  | s => st' = st /\ 400 <= s
  end.
Lemma provision_spec value unit st st' resp :
  provision options value unit st = (st', inr resp) -> provisioned value unit st st' resp.
Proof.
  unfold provisioned.
  unfold provision. destruct (read_authorization value) as [given|] eqn:Eg; [|by intros E; tx_run E; subst].
  destruct (admissionRefused value unit) eqn:Er; [by intros E; tx_run E; subst|]. intros E. tx_run E. rename E0 into Ea.
  destruct (default 0 (generation given) =? a) eqn:Eq; cbn [negb] in E; [|by tx_run E; subst]. apply Z.eqb_eq in Eq. subst a.
  pose proof (active_nonneg _ _ _ Ea) as Hg. pose proof (admitted_generation unit given Hg) as Eg'.
  set (g := default 0 (generation given)) in *. set (x := admitted_object unit given) in *. tx_run E.
  match goal with F : inr (admission _ _ _ _ _) = _ |- _ => apply (inj inr) in F; rewrite <- F in E; clear F end.
  assert (Hx : admits unit x st) by (unfold admits; by rewrite Eg').
  destruct (admission options unit g (startHead x) st) as [old|] eqn:Eo.
  - destruct (str_eqb _ _) eqn:Et; tx_run E; subst resp; cbn [rp_status json error]; [|by split].
    split; [done|]. exists x, old. rewrite Eg'. split_and!; [done..|by apply str_eqb_eq].
  - tx_run E. match goal with F : inr (admission_count _ _ _ _) = _ |- _ => apply (inj inr) in F; rewrite <- F in E; clear F end.
    destruct (maxAdmissions options <=? _) eqn:El; tx_run E; subst resp; cbn [rp_status error]; [by split|].
    exists x. rewrite Eg'. split; [done|]. cbv zeta. split; [done|]. split; [lia|]. split; [done|].
    destruct (inserted_admission unit g x st) as [Eact Eadm]. set (st2 := insert_admission _ _ _ _ _) in *.
    unfold tbind, tread, tret. rewrite Eact, Ea, Z.eqb_refl. cbn [negb].
    by rewrite Eadm, str_eqb_refl.
Qed.

(** Provisioning admits a start once and within the bound.  It answers 201
    exactly when it has written one new admission of the unit's active
    generation, whose number was below the bound; it answers 200 only when the
    very same admission was there; and otherwise it answers with an error.  In
    the last two cases nothing is written.  An admission that was written is
    never replaced: provisioning again answers 200. *)
Theorem provisioning_admits_once value unit st st' resp :
  provision options value unit st = (st', inr resp) ->
  match rp_status resp with
  | 201 => exists a, admits unit a st /\
      let g := default 0 (generation a) in
      admission options unit g (startHead a) st = None /\
      admission_count options unit g st < maxAdmissions options /\
      st' = insert_admission options unit g a st /\
      provision options value unit st' = (st', inr (json v_accepted))
  | 200 => st' = st /\ exists a old, admits unit a st /\
      admission options unit (default 0 (generation a)) (startHead a) st = Some old /\
      authorization_text old = authorization_text a
  | s => st' = st /\ 400 <= s
  end.
Proof. apply provision_spec. Qed.

(** *** Every request keeps the bound *)

Definition admissions_ok (st : Store) : Prop := store_keyed st /\ admissions_bounded st.
Definition preserves (P : Store -> Prop) (st st' : Store) : Prop := P st -> P st'.
#[export] Instance preserves_preorder P : PreOrder (preserves P).
Proof. split; [by intros st Hp|]. intros st1 st2 st3 H12 H23 Hp. by apply H23, H12. Qed.

Lemma host_admissions st st' : host_only st st' -> admissions_ok st -> admissions_ok st'.
Proof. intros [n ->]. done. Qed.
Lemma confined_admissions u o t st st' : store_keyed st -> confined u o t st st' -> admissions_bounded st -> admissions_bounded st'.
Proof. intros _ Hc. destruct (cf_admissions _ _ _ _ _ Hc) as [Ea El]. apply bounded_kept; by rewrite ?Ea, ?El. Qed.

Lemma retire_row_admissions r : tx_within (preserves admissions_ok) (retire_row r).
Proof.
  unfold retire_row, delete_ticket. repeat tx_step_within.
  - intros st. unfold insert_origin. destruct (taken _ _ _); [done|]. intros [[Ht Ho] Hb]. split; [|done].
    split; [done|by apply keyed_insert].
  - intros st [[Ht Ho] Hb]. split; [|done]. split; [|done]. cbn. unfold delete_at. repeat case_match; [by apply keyed_delete|done..].
Qed.
Lemma roll_admissions signer archived unit expected seen value :
  tx_within (preserves admissions_ok) (roll_transaction signer archived unit expected seen value).
Proof.
  unfold roll_transaction, close_generation, retireGenerationInTransaction.
  repeat (tx_step_within || apply retire_row_admissions); intros st [Hk Hb]; (split; [done|]); try done.
  apply (bounded_kept st); [apply map_filter_subseteq|apply map_filter_subseteq|done].
Qed.
Abbreviation akeeps m := (keeps admissions_ok any_change m anything).
Lemma admissions_sync {A} (m : tx A) : tx_within host_only m -> akeeps (sync m).
Proof.
  intros Hm st Hok. specialize (Hm st). unfold sync. destruct (m st) as [st' r]. cbn [fst snd] in *.
  split; [by apply (host_admissions st)|]. split; [done|]. by destruct r.
Qed.
Lemma admissions_transaction {A} (body : tx A) : tx_within (preserves admissions_ok) body -> akeeps (transaction body).
Proof.
  intros Hb st Hok. specialize (Hb st Hok). unfold transaction. destruct (body st) as [st' [e|a]]; cbn [fst snd]; [|done].
  split; [|done]. apply (host_admissions st); [apply rolled_back_host|done].
Qed.
Lemma rollGeneration_admissions unit value : akeeps (rollGeneration options unit value).
Proof.
  unfold rollGeneration. repeat case_match; try (apply keeps_ret; [exact _|done]).
  apply keeps_catch; [exact _| |intros e; apply keeps_ret; [exact _|done]]. apply (keeps_bind _ _ _ _ anything); [|intros a _; by apply keeps_ret; [exact _|]].
  unfold roll.
  repeat lazymatch goal with
  | |- keeps _ _ (abind (sync _) _) _ => apply (keeps_bind _ _ _ _ anything); [apply admissions_sync; host_only|intros ? _]
  | |- keeps _ _ (transaction _) _ => idtac
  | |- _ => keeps_step
  end; try done.
  apply admissions_transaction, roll_admissions.
Qed.
Lemma provision_admissions value unit : akeeps (sync (provision options value unit)).
Proof.
  intros st [Hk Hb]. unfold sync. destruct (provision options value unit st) as [st' r] eqn:E. cbn [fst snd].
  split; [|split; [done|by destruct r]]. destruct r as [e|resp].
  - assert (st' = st) as -> by (unfold provision, tbind, tread, tret, twrite in E; by repeat case_match; simplify_eq). done.
  - apply provision_spec in E. unfold provisioned in E. destruct (decide (rp_status resp = 201)) as [Es|Es].
    + rewrite Es in E. destruct E as (a & _ & Hn & Hlt & -> & _). split; [|by apply insert_admission_bounded].
      unfold insert_admission, store_keyed in *. by destruct (transactional options).
    + assert (st' = st) as ->; [|done]. repeat case_match; naive_solver.
Qed.

(** No request raises the number of admissions over the bound: whatever the
    request, piece by piece and whatever others do in between, if every
    generation of every unit has at most [maxAdmissions] admissions before a
    piece runs, it has at most that many afterwards, provisioning and the
    closing of generations included. *)
Theorem admissions_stay_bounded request :
  keeps admissions_ok any_change (fetch options rounds request) anything.
Proof.
  assert (Hret : forall r : Response, akeeps (aret r)) by (intros r; apply keeps_ret; [exact _|done]).
  destruct (route (rq_path request)) as [[unit endpoint]|] eqn:Hroute; [|unfold fetch; rewrite Hroute; apply Hret].
  destruct (decide (endpoint = js "encounter-configuration")) as [->|Hne].
  - unfold fetch. rewrite Hroute, str_eqb_refl. destruct (negb _); [apply Hret|]. unfold configuration.
    repeat first [apply Hret | apply (keeps_bind _ _ _ _ anything); [apply admissions_sync; host_only|intros ? _] | case_match].
  - apply (fetch_kept options rounds _ _ _ request unit endpoint); [exact _|done|done|done| |].
    + intros _. right. intros value _. split; [apply rollGeneration_admissions|apply provision_admissions].
    + intros _ value _. destruct (decodeEncounterRequest value) as [d|] eqn:Ed; [|unfold ownerRequest; rewrite Ed; apply Hret].
      eapply keeps_preserving; [apply confined_admissions|by apply ownerRequest_kept].
Qed.
End Admissions.

(** ** Evidence cases *)

Section Evidence.
Context (authority : EncounterAuthorityOptions) (cur : jsstr -> Store -> throws Z).

Lemma fence_run id st st' a :
  fence_ticket authority cur id st = (st', inr a) ->
  exists r w, lookup_id id (ledger st) = Some r /\ retentionReleased r = false /\
    replace_row (revision r) (set_revision (revision r + 1) r) (view cur st) = (w, true) /\ st' = set_ledger w st.
Proof.
  unfold fence_ticket, run_alone, on_ledger, fenceEvidenceCase, row, byId, read_store, abind. cbn [step_bind].
  change (lookup_id id (view cur st)) with (lookup_id id (ledger st)).
  destruct (lookup_id id (ledger st)) as [r|]; [|done]. unfold refuse_if.
  destruct (negb _); [done|]. unfold aret. cbn [step_bind].
  destruct (retentionReleased r) eqn:Er; [done|]. unfold replace_next, replace, refuse_if. cbn [step_bind].
  destruct (_ || _); [done|]. destruct (replace_row _ _ (view cur st)) as [w b] eqn:Ew. cbn [step_bind].
  destruct b; [|done]. cbn. intros E; apply pair_equal_spec in E as [<- _]. exists r, w. by split_and!.
Qed.
Lemma replaced_row expected r w w' :
  ledger_ok w -> replace_row expected r w = (w', true) -> lookup_id (row_id r) w' = Some r.
Proof.
  intros Hok. unfold replace_row. destruct (update expected r (encounter_tickets w)) as [t|] eqn:Et.
  - intros [= <-]. unfold update in Et. destruct (encounter_tickets w !! row_id r); [|done]. destruct (_ && _); [|done].
    injection Et as <-. unfold lookup_id. cbn. by rewrite lookup_insert_eq.
  - destruct (update expected r (encounter_origins w)) as [t|] eqn:Eo; [|done]. intros [= <-]. unfold update in Eo.
    destruct (encounter_origins w !! row_id r) eqn:E; [|done]. destruct (_ && _); [|done]. injection Eo as <-.
    unfold lookup_id. cbn. destruct (encounter_tickets w !! row_id r) eqn:E'; [by destruct (ids_apart w Hok _ _ _ E' E)|].
    by rewrite lookup_insert_eq.
Qed.
Lemma ledger_ok_keyed w : ledger_ok w -> keyed w.
Proof.
  intros Hok. split; intros id e He; [apply (columns_agree _ (tickets_ok _ Hok) _ _ He)|apply (columns_agree _ (origins_ok _ Hok) _ _ He)].
Qed.
Lemma view_ledger_ok st : ledger_ok (ledger st) -> ledger_ok (view cur st).
Proof. intros [Ht Ho Hi Hs]. by split. Qed.
Lemma bound_cases_counted id st : length (bound_cases id st) = counted (has_ticket id) (case_bindings st).
Proof. done. Qed.
Lemma bound_is_held caseId b st : case_bindings st !! caseId = Some b -> case_resolved st caseId = false ->
  hasHold st (cb_ticketId b) = true.
Proof.
  intros Hb Hr. apply existsb_exists. exists (caseId, b). split; [|cbn [fst]; by rewrite Hr]. apply filter_In. split.
  - by apply list_elem_of_In, elem_of_map_to_list.
  - unfold has_ticket. cbn [snd]. apply str_eqb_refl.
Qed.
Lemma context_row assetId unit st c : keyed (ledger st) -> context assetId unit st = Some c ->
  ec_assetId c = assetId /\ exists r, lookup_id (ec_ticketId c) (ledger st) = Some r /\ phase r = settled /\ receipt r = Some (ec_receipt c).
Proof.
  intros Hk. unfold context. destruct (asset_ticket assetId) as [id|]; cbn [mbind option_bind]; [|done].
  destruct (lookup_id id (ledger st)) as [r|] eqn:Er; cbn [mbind option_bind]; [|done].
  destruct (receipt r) as [rc|] eqn:Ec; cbn [mbind option_bind]; [|done]. destruct (_ && _) eqn:E; [|done]. intros [= <-].
  split; [done|]. cbn [ec_ticketId ec_receipt]. rewrite (keyed_row _ _ _ Hk Er). exists r. split_and!; [done| |done].
  apply andb_true_iff in E as [[E _]%andb_true_iff _]. by destruct (phase r).
Qed.

(** Binding an evidence case holds its ticket.  A refusal writes nothing.
    When a case is bound, the ticket is settled and its retention has not been
    released, the case was not bound before and no other binding changes, the
    ticket has at most 16 cases, it is held until the case is resolved, and its
    revision has moved, so that a handler that read the row before cannot release
    the evidence any more. *)
Theorem bound_case_holds_its_ticket c caseId st st' result :
  ledger_ok (ledger st) -> bind authority cur c caseId st = (st', inr result) ->
  match result with
  | bind_refused _ => st' = st
  | bind_allowed => exists r r',
      lookup_id (ec_ticketId c) (ledger st) = Some r /\ phase r = settled /\ retentionReleased r = false /\
      lookup_id (ec_ticketId c) (ledger st') = Some r' /\ revision r' = revision r + 1 /\ retentionReleased r' = false /\
      case_bindings st !! caseId = None /\
      case_bindings st' = <[caseId := mkBinding (ec_ticketId c) (ec_assetId c)]> (case_bindings st) /\
      (length (bound_cases (ec_ticketId c) st') <= MAX_ENCOUNTER_CASES)%nat /\
      (case_resolved st caseId = false -> hasHold st' (ec_ticketId c) = true)
  end.
Proof.
  intros Hok E. unfold bind in E. tx_run E.
  match goal with F : inr (context _ _ _) = _ |- _ => apply (inj inr) in F; rename F into Ec end.
  destruct a as [now|]; [|by tx_run E; subst].
  destruct (_ || _) eqn:Em; [by tx_run E; subst|]. apply orb_false_iff in Em as [[_ Em]%orb_false_iff _].
  apply negb_false_iff, str_eqb_eq in Em.
  destruct (context_row _ _ _ _ (ledger_ok_keyed _ Hok) Ec) as (Ea & r & Hr & Hph & _). rewrite Em in *. tx_run E.
  rewrite Hr in *. repeat match goal with F : inr _ = inr ?x |- _ => is_var x; apply (inj inr) in F; subst x end.
  destruct (retentionReleased r) eqn:Hrel; [by tx_run E; subst|]. tx_run E.
  repeat match goal with F : inr _ = inr ?x |- _ => is_var x; apply (inj inr) in F; subst x end.
  destruct (bool_decide _) eqn:Et; [by tx_run E; subst|]. tx_run E.
  repeat match goal with F : inr _ = inr ?x |- _ => is_var x; apply (inj inr) in F; subst x end.
  destruct (_ <=? _)%nat eqn:El; [by tx_run E; subst|]. tx_run E. subst result.
  match goal with F : fence_ticket _ _ _ _ = _ |- _ => apply fence_run in F as (r0 & w & Hr0 & _ & Hw & ->) end.
  assert (r0 = r) as -> by congruence. apply bool_decide_eq_false, eq_None_not_Some in Et. apply Nat.leb_gt in El.
  apply replaced_row in Hw; [|by apply view_ledger_ok].
  exists r, (set_revision (revision r + 1) r). split_and!; try done.
  - change (ledger (insert_binding caseId (mkBinding (ec_ticketId c) (ec_assetId now)) (set_ledger w st))) with w.
    rewrite <- (keyed_row _ _ _ (ledger_ok_keyed _ Hok) Hr) at 1. exact Hw.
  - by rewrite <- Ea.
  - rewrite bound_cases_counted in *. cbn [insert_binding set_cases case_bindings set_ledger]. rewrite counted_insert by done.
    destruct (has_ticket _ _); cbn [Nat.b2n]; lia.
  - intros Hres. apply (bound_is_held caseId (mkBinding (ec_ticketId c) (ec_assetId now))); [|done].
    cbn [insert_binding set_cases case_bindings]. apply lookup_insert_eq.
Qed.
End Evidence.

(** ** Witnesses *)

Definition toy_api : EncounterApiOptions := mkApiOptions (toy_signs "authority") toy_subtle (js "secret") 1000 2 None true.
Definition toy_path (endpoint : string) : list jsstr := [js "v1"; js "pve"; js "unit"; js endpoint].
(** Another owner asks for the status of a ticket. *)
Definition toy_query : EncounterHttpRequest :=
  mkHttpRequest 1 (js "unit") (bytesToLowerHex (toy_public "mallory")) 0 60000 (op_status (js "ticket-1")) no_signature.
Definition toy_body (v : jsval) : option (list (list N)) := Some [utf8_encode (stringify v)].
Definition toy_post (endpoint : string) (v : jsval) : HttpRequest :=
  mkRequest (toy_path endpoint) (js "POST") None (toy_body v).

(** A request whose time window is over. *)
Definition toy_expired : EncounterHttpRequest :=
  mkHttpRequest 1 (js "unit") (bytesToLowerHex (toy_public "alice")) 0 1 (op_status (js "ticket-1")) no_signature.
Lemma toy_expired_refused : ~ credentials (H := host) toy_api (js "unit") (toy_post "encounter" (request_value toy_expired)) (next_reading toy_settled).
Proof.
  intros (value & d & digest & Hb & Hd & _ & [_ Hw] & _).
  assert (Hv : inr value = inr (request_value toy_expired) :> throws jsval) by (rewrite <- Hb; vm_compute; reflexivity).
  injection Hv as ->. assert (Ed : Some d = Some toy_expired) by (rewrite <- Hd; vm_compute; reflexivity).
  injection Ed as ->. vm_compute in Hw. discriminate Hw.
Qed.

Lemma unauthorized_requests_change_nothing_witness :
  refused_at_once (H := host) toy_api 1 (toy_post "encounter-admissions" (obj (authorization_fields toy_start))) /\
  exists k, (forall st, fetch (H := host) toy_api 1 (toy_post "encounter" (request_value toy_expired)) st = (st, Suspended k)) /\
    ends_refused (snd (k toy_settled)).
Proof.
  destruct (unauthorized_requests_change_nothing (H := host) toy_api 1 (toy_post "encounter-admissions" (obj (authorization_fields toy_start))))
    as (_ & Ha & _).
  destruct (unauthorized_requests_change_nothing (H := host) toy_api 1 (toy_post "encounter" (request_value toy_expired))) as (_ & _ & Ho).
  split.
  - apply (Ha (js "unit") (js "encounter-admissions")); [vm_compute; reflexivity|by left|]. intros [_ Ht]. discriminate Ht.
  - destruct (Ho (js "unit")) as [Hr|(k & Hk & Hs)]; [vm_compute; reflexivity| |].
    + destruct (Hr toy_settled) as (r & E & _).
      assert (Es : match snd (fetch (H := host) toy_api 1 (toy_post "encounter" (request_value toy_expired)) toy_settled) with
                   | Suspended _ => true | Finished _ => false end = true) by (vm_compute; reflexivity).
      rewrite E in Es. discriminate Es.
    + exists k. split; [exact Hk|]. apply (Hs toy_settled). exact toy_expired_refused.
Defined.

Lemma owner_requests_are_confined_witness :
  let request := toy_post "encounter" (request_value toy_query) in
  let owner := hr_ownerPublicKey toy_query in
  keeps store_keyed (confined (js "unit") owner (Some (js "ticket-1"))) (fetch (H := host) toy_api 1 request) anything /\
  is_Some (lookup_id (js "ticket-1") (ledger toy_settled)) /\
  ownerCommand (H := host) toy_api 1 (js "unit") owner (command toy_query) toy_settled =
    (toy_settled, Finished (inr (error "ticket_not_authorized" 403))).
Proof.
  assert (Hr : route (rq_path (toy_post "encounter" (request_value toy_query))) = Some (js "unit", js "encounter"))
    by (vm_compute; reflexivity).
  assert (Hb : readBoundedEncounterJson (H := host) (rq_body (toy_post "encounter" (request_value toy_query))) = inr (request_value toy_query))
    by (vm_compute; reflexivity).
  assert (Hd : decodeEncounterRequest (request_value toy_query) = Some toy_query) by (vm_compute; reflexivity).
  destruct (owner_requests_are_confined (H := host) toy_api 1 _ _ _ _ Hr Hb Hd) as [Hk Hf]. split; [exact Hk|].
  assert (Ho : match lookup_id (js "ticket-1") (ledger toy_settled) with
               | Some r => negb (str_eqb (ea_ownerPublicKey (t_authorization (ticket r))) (hr_ownerPublicKey toy_query))
               | None => false end = true) by (vm_compute; reflexivity).
  destruct (Hf (js "ticket-1") eq_refl) as [_ Hc].
  destruct (lookup_id (js "ticket-1") (ledger toy_settled)) as [r|] eqn:El; [|discriminate Ho].
  split; [eauto|]. apply Hc. intros r' Hr'. rewrite El in Hr'. injection Hr' as <-. right.
  by apply negb_true_iff, str_eqb_neq in Ho.
Defined.

Lemma provisioning_admits_once_witness :
  let value := obj (authorization_fields toy_start) in
  let st := store_of toy_world in
  let st' := fst (provision toy_api value (js "unit") st) in
  admission toy_api (js "unit") 0 (js "head") st' = Some toy_start /\
  provision toy_api value (js "unit") st' = (st', inr (json v_accepted)).
Proof.
  assert (E : snd (provision toy_api (obj (authorization_fields toy_start)) (js "unit") (store_of toy_world)) =
              inr (mkResponse 201 v_accepted)) by (vm_compute; reflexivity).
  cbv zeta. destruct (provision toy_api _ _ (store_of toy_world)) as [st' r] eqn:Ep. cbn [fst snd] in *. subst r.
  destruct (provisioning_admits_once _ _ _ _ _ _ Ep) as (a & _ & _ & _ & _ & Hagain).
  split; [|exact Hagain].
  assert (Ef : admission toy_api (js "unit") 0 (js "head")
                 (fst (provision toy_api (obj (authorization_fields toy_start)) (js "unit") (store_of toy_world))) =
               Some toy_start) by (vm_compute; reflexivity).
  rewrite Ep in Ef. exact Ef.
Defined.

Definition case_ticketId : jsstr := repeat 97%N 36.
Definition case_asset : jsstr := js "encounter:" ++ case_ticketId ++ js ":item".
Definition case_ticket : EncounterTicket :=
  mkTicket toy_start 1 case_ticketId (as_publicKey (signer toy_options)) ENCOUNTER_RULES (js "queue") (js "seed") 0 3000 4000 [].
Definition case_receipt : EncounterReceipt :=
  mkEncounterReceipt (mkReceiptStatement 1 (as_publicKey (signer toy_options)) case_ticketId (js "unit") ENCOUNTER_RULES
    (js "alice") (ea_ownerPublicKey toy_start) (js "root") (js "state")
    [mkEncounterItem case_asset (js "alice") (js "blade") common 1 (js "enemy") 3 0] 5000 6000) (js "receipt") [].
Definition case_row : EncounterLedgerRow :=
  mkRow 3 (js "key") case_ticket [] settled None None None (Some case_receipt) None false false [] None false.
Definition case_store : Store :=
  store_of (mkWorld {[case_ticketId := mkEntry (js "key") 3 case_row]} ∅ 0 toy_clock (fun n => []) (fun n i => 0%N) None None).
Definition case_context : EncounterEvidenceContext := mkContext case_ticketId case_asset case_ticket case_receipt.
Definition case_id : jsstr := repeat 98%N 64.

Lemma bound_case_holds_its_ticket_witness :
  let st' := fst (bind toy_options (fun _ _ => inr 0) case_context case_id case_store) in
  hasHold case_store case_ticketId = false /\ hasHold st' case_ticketId = true.
Proof.
  split; [vm_compute; reflexivity|].
  assert (E : snd (bind toy_options (fun _ _ => inr 0) case_context case_id case_store) = inr bind_allowed) by (vm_compute; reflexivity).
  cbv zeta. destruct (bind _ _ _ _ case_store) as [st' r] eqn:Eb. cbn [fst snd] in *. subst r.
  assert (Hok : ledger_ok (ledger case_store)).
  { split; [split|by split|done|done].
    - intros id e He. cbn in He. apply lookup_singleton_Some in He as [<- <-]. by split_and!.
    - intros id id' e e' He He' _. cbn in He, He'. apply lookup_singleton_Some in He as [<- _], He' as [<- _]. reflexivity. }
  destruct (bound_case_holds_its_ticket toy_options _ case_context case_id case_store st' bind_allowed Hok Eb)
    as (r & r' & _ & _ & _ & _ & _ & _ & _ & _ & _ & Hhold).
  apply Hhold. vm_compute. reflexivity.
Defined.
