(* ===== verification/IndexedDb.v ===== *)
(** * Transactions of the browser's database

    A read-write transaction of IndexedDB is atomic: its body sees the stores as
    they are when it starts, nothing else writes them while it runs, and if it
    throws, all its writes are undone.  [idb D A] is the body of a transaction
    over the stores [D]; [idb_transaction] starts it, which suspends the caller.
    A store is a map; [getAll] and cursors go through it in the order of its
    keys. *)
From Stdlib Require Import ZifyBool.
From stdpp Require Import gmap sorting.
From S2P Require Import Prelude Async.
Set Default Goal Selector "!".

Definition idb (D A : Type) := D -> D * throws A.

Section Idb.
Context {D : Type}.
Definition iret {A} (a : A) : idb D A := fun d => (d, inr a).
Definition ithrow {A} (e : jsstr) : idb D A := fun d => (d, inl e).
Definition ibind {A B} (m : idb D A) (f : A -> idb D B) : idb D B :=
  fun d => match m d with (d', inr a) => f a d' | (d', inl e) => (d', inl e) end.
Definition iread {A} (f : D -> A) : idb D A := fun d => (d, inr (f d)).
Definition iwrite (f : D -> D) : idb D True := fun d => (f d, inr I).
Definition iguard {A} (c : bool) (e : jsstr) (k : idb D A) : idb D A := if c then ithrow e else k.
(** [injectWriteFault?.()]. *)
Definition ifault (fault : option jsstr) : idb D True :=
  match fault with Some e => ithrow e | None => iret I end.
Definition ithrows {A} (r : throws A) : idb D A := fun d => (d, r).

(** Runs the body on the stores, with the rollback. *)
Definition committed {A} (body : idb D A) (d : D) : D * throws A :=
  match body d with (d', inr a) => (d', inr a) | (_, inl e) => (d, inl e) end.

Lemma ibind_ok {A B} (m : idb D A) (f : A -> idb D B) d d' b :
  ibind m f d = (d', inr b) -> exists d1 a, m d = (d1, inr a) /\ f a d1 = (d', inr b).
Proof. unfold ibind. destruct (m d) as [d1 [e|a]]; [done|eauto]. Qed.
Lemma iguard_ok {A} c e (k : idb D A) d d' a : iguard c e k d = (d', inr a) -> c = false /\ k d = (d', inr a).
Proof. unfold iguard. by destruct c. Qed.
Lemma ifault_ok fault d d' a : ifault fault d = (d', inr a) -> d' = d /\ fault = None.
Proof. unfold ifault. destruct fault; [done|]. intros E. apply pair_equal_spec in E as [<- _]. done. Qed.
Lemma ithrows_ok {A} (r : throws A) d d' a : ithrows r d = (d', inr a) -> d' = d /\ r = inr a.
Proof. unfold ithrows. by intros [= <- ->]. Qed.
Lemma committed_ok {A} (body : idb D A) d d' a : committed body d = (d', inr a) <-> body d = (d', inr a).
Proof. unfold committed. destruct (body d) as [d1 [e|b]]; split; congruence. Qed.
Lemma committed_throws {A} (body : idb D A) d d' e : committed body d = (d', inl e) -> d' = d.
Proof. unfold committed. destruct (body d) as [d1 [e'|b]]; congruence. Qed.
End Idb.

Notation "'let~' x ':=' m 'in' k" := (ibind m (fun x => k))
  (at level 200, x pattern, m at level 100, k at level 200, right associativity).

(** Inverts a body that returned, statement by statement. *)
Ltac idb_step H :=
  match type of H with
  | ibind _ _ _ = (_, inr _) =>
      let d := fresh "d" in let a := fresh "a" in let E := fresh "E" in
      apply ibind_ok in H as (d & a & E & H); idb_step E
  | iguard _ _ _ _ = (_, inr _) => let G := fresh "G" in apply iguard_ok in H as [G H]
  | iread _ _ = (_, inr _) => apply pair_equal_spec in H as [<- H]; apply (inj inr) in H
  | iret _ _ = (_, inr _) => apply pair_equal_spec in H as [<- H]; apply (inj inr) in H
  | iwrite _ _ = (_, inr _) => apply pair_equal_spec in H as [<- _]
  | ifault _ _ = (_, inr _) => let G := fresh "G" in apply ifault_ok in H as [-> G]
  | ithrows _ _ = (_, inr _) => apply ithrows_ok in H as [-> H]
  | _ => idtac
  end.
Ltac idb_run H := repeat (idb_step H; cbv beta in H).

(** ** Starting a transaction *)

Section Start.
Context {W D : Type} (stores : W -> D) (set_stores : D -> W -> W).

Definition idb_transaction {A} (body : idb D A) : async W A :=
  fun w => (w, Suspended (fun w' =>
    let '(d, r) := committed body (stores w') in (set_stores d w', Finished r))).
End Start.

(** ** Key order *)

(** The keys of a store whose keys are numbers, in order. *)
Definition sorted_keys {V} (m : gmap Z V) : list Z := merge_sort Z.le (map fst (map_to_list m)).
Definition get_all {V} (m : gmap Z V) (limit : nat) : list V := omap (fun k => m !! k) (take limit (sorted_keys m)).

(** [m] has exactly the keys [first], [first + 1], ..., with [items] in this
    order. *)
Definition run_of {V} (m : gmap Z V) (first : Z) (items : list V) : Prop :=
  forall k, m !! k = if first <=? k then items !! Z.to_nat (k - first) else None.

Section Runs.
Context {V : Type}.
Implicit Types (m : gmap Z V) (items : list V).

Lemma run_key m first items k : run_of m first items -> is_Some (m !! k) <-> first <= k < first + Z.of_nat (length items).
Proof.
  intros Hm. rewrite (Hm k). destruct (first <=? k) eqn:E.
  - rewrite lookup_lt_is_Some. lia.
  - split; [by intros [? [=]]|lia].
Qed.
Lemma seqZ_le_sorted a (n : nat) : StronglySorted Z.le (seqZ a (Z.of_nat n)).
Proof.
  revert a. induction n as [|n IH]; intros a; [constructor|]. rewrite seqZ_cons by lia.
  replace (Z.pred (Z.of_nat (S n))) with (Z.of_nat n) by lia. constructor; [apply IH|]. apply Forall_seqZ. lia.
Qed.
Lemma run_keys m first items : run_of m first items -> sorted_keys m = seqZ first (Z.of_nat (length items)).
Proof.
  intros Hm. unfold sorted_keys. apply (StronglySorted_unique Z.le).
  - apply Sorted_StronglySorted; [intros x y z Hx Hy; lia|]. apply Sorted_merge_sort; apply _.
  - apply seqZ_le_sorted.
  - rewrite merge_sort_Permutation. apply NoDup_Permutation.
    + apply NoDup_fst_map_to_list.
    + apply NoDup_seqZ.
    + intros k. rewrite elem_of_seqZ, <- (run_key _ _ _ _ Hm). split.
      * intros ([k' v] & -> & Hin%elem_of_map_to_list)%list_elem_of_fmap. eauto.
      * intros [v Hv]. apply list_elem_of_fmap. exists (k, v). by rewrite elem_of_map_to_list.
Qed.
Lemma run_at m first items (i : nat) : run_of m first items -> m !! (first + Z.of_nat i) = items !! i.
Proof.
  intros Hm. rewrite (Hm _).
  rewrite (proj2 (Z.leb_le _ _)) by lia. f_equal. lia.
Qed.
Lemma omap_agree (P : Z -> Prop) (f g : Z -> option V) l : Forall P l -> (forall k, P k -> f k = g k) -> omap f l = omap g l.
Proof. intros Hl Hfg. induction Hl as [|k l Hk _ IH]; [done|]. cbn. by rewrite (Hfg k Hk), IH. Qed.
Lemma run_values m first items : run_of m first items -> omap (fun k => m !! k) (seqZ first (Z.of_nat (length items))) = items.
Proof.
  revert m first. induction items as [|v items IH]; intros m first Hm; [done|].
  cbn [length]. rewrite seqZ_cons by lia. replace (Z.pred (Z.of_nat (S (length items)))) with (Z.of_nat (length items)) by lia.
  pose proof (run_at _ _ _ 0 Hm) as H0. rewrite Z.add_0_r in H0. cbn [omap list_omap]. rewrite H0. cbn. f_equal.
  rewrite <- (IH (delete first m) (Z.succ first)) at 2.
  - apply (omap_agree (fun k => k <> first)); [apply Forall_seqZ; lia|]. intros k Hk. by rewrite lookup_delete_ne.
  - intros k. destruct (Z.succ first <=? k) eqn:E.
    + rewrite lookup_delete_ne by lia. rewrite (Hm k). destruct (first <=? k) eqn:E'; [|lia].
      replace (Z.to_nat (k - first)) with (S (Z.to_nat (k - Z.succ first))) by lia. done.
    + destruct (decide (k = first)) as [->|Hne]; [apply lookup_delete_eq|]. rewrite lookup_delete_ne by done. rewrite (Hm k).
      destruct (first <=? k) eqn:E'; [lia|done].
Qed.
Lemma get_all_run m first items limit : run_of m first items -> get_all m limit = take limit items.
Proof.
  intros Hm. unfold get_all. rewrite (run_keys _ _ _ Hm).
  assert (Hs : run_of (filter (fun kv => kv.1 < first + Z.of_nat limit) m) first (take limit items)).
  { intros k. rewrite map_lookup_filter, (Hm k). destruct (first <=? k) eqn:E; [|done]. rewrite lookup_take.
    case_decide as Hd.
    - destruct (items !! _); cbn; [|done]. case_guard; [done|lia].
    - destruct (items !! _); cbn; [|done]. case_guard; [lia|done]. }
  etrans; [|apply (run_values _ _ _ Hs)]. rewrite length_take.
  assert (Ht : take limit (seqZ first (Z.of_nat (length items))) = seqZ first (Z.of_nat (limit `min` length items))).
  { destruct (decide (limit <= length items)%nat) as [Hl|Hl].
    - rewrite Nat.min_l by lia. replace (Z.of_nat (length items)) with (Z.of_nat limit + Z.of_nat (length items - limit)) by lia.
      rewrite seqZ_app by lia. apply take_app_length'. rewrite length_seqZ. lia.
    - rewrite Nat.min_r by lia. apply take_ge. rewrite length_seqZ. lia. }
  rewrite Ht. apply (omap_agree (fun k => k < first + Z.of_nat limit)); [apply Forall_seqZ; lia|]. intros k Hk.
  rewrite map_lookup_filter. destruct (m !! k); cbn; [|done]. by case_guard.
Qed.
Lemma run_snoc m first items v :
  run_of m first items -> run_of (<[first + Z.of_nat (length items) := v]> m) first (items ++ [v]).
Proof.
  intros Hm k. destruct (decide (k = first + Z.of_nat (length items))) as [->|Hne].
  - rewrite lookup_insert_eq. destruct (_ <=? _) eqn:E; [|lia].
    replace (Z.to_nat _) with (length items) by lia. by rewrite lookup_app_r, Nat.sub_diag by lia.
  - rewrite lookup_insert_ne by done. rewrite (Hm k). destruct (first <=? k) eqn:E; [|done].
    destruct (decide (Z.to_nat (k - first) < length items)%nat) as [Hl|Hl]; [by rewrite lookup_app_l|].
    rewrite !lookup_ge_None_2; [done|rewrite length_app; cbn; lia|lia].
Qed.

Definition delete_keys (ks : list Z) (m : gmap Z V) : gmap Z V := foldl (fun m k => delete k m) m ks.
Lemma lookup_delete_keys ks m k : delete_keys ks m !! k = if bool_decide (k ∈ ks) then None else m !! k.
Proof.
  unfold delete_keys. revert m. induction ks as [|k' ks IH]; intros m; cbn [foldl].
  - by rewrite bool_decide_eq_false_2 by apply not_elem_of_nil.
  - rewrite IH. destruct (decide (k = k')) as [->|Hne].
    + rewrite lookup_delete_eq, (bool_decide_eq_true_2 (k' ∈ k' :: ks)) by left. by case_bool_decide.
    + rewrite lookup_delete_ne by done.
      rewrite (bool_decide_ext (k ∈ k' :: ks) (k ∈ ks)); [done|]. rewrite elem_of_cons. naive_solver.
Qed.
Lemma run_drop m first items (n : nat) : run_of m first items -> (n <= length items)%nat ->
  run_of (delete_keys (seqZ first (Z.of_nat n)) m) (first + Z.of_nat n) (drop n items).
Proof.
  intros Hm Hn k. rewrite lookup_delete_keys, (Hm k), lookup_drop. case_bool_decide as Hin; rewrite elem_of_seqZ in Hin.
  - destruct (first + Z.of_nat n <=? k) eqn:E; [lia|done].
  - destruct (first + Z.of_nat n <=? k) eqn:E, (first <=? k) eqn:E'; try lia; [f_equal; lia|done].
Qed.
Lemma run_nil first : run_of (∅ : gmap Z V) first [].
Proof. intros k. rewrite lookup_empty. by destruct (_ <=? _). Qed.
Lemma run_unique m first items items' : run_of m first items -> run_of m first items' -> items = items'.
Proof. intros H1 H2. apply list_eq. intros i. by rewrite <- (run_at _ _ _ i H1), <- (run_at _ _ _ i H2). Qed.
End Runs.
