(* ===== verification/PayloadQueue.v ===== *)
(** * The bounded payload queue of the client

    [player-local-runtime/payload-budget.ts] with the MoonBit guards it calls,
    and [web/src/audit/bounded-payload-queue.ts]: replay chunks wait in a
    dedicated database until the authority allows a prefix to be deleted. *)
From Stdlib Require Import ZifyBool.
From stdpp Require Import gmap sorting.
From S2P Require Import Prelude Json Contracts Kernel Utf8 CryptoBackend EncounterWire Async IndexedDb.
Set Default Goal Selector "!".

(** ** Budgets *)

Record PayloadQueueLimits := mkLimits {
  maxBytes : Z;
  maxItems : Z;
  maxItemBytes : Z;
  reservedBytes : Z;
}.
#[export] Instance PayloadQueueLimits_eq_dec : EqDecision PayloadQueueLimits.
Proof. solve_decision. Defined.
Definition MAX_INT : Z := 2147483647.
Definition is_int (value : Z) : bool := (0 <=? value) && (value <=? MAX_INT).
Definition payloadQueueLimitsValid (limits : PayloadQueueLimits) : bool :=
  forallb is_int [maxBytes limits; maxItems limits; maxItemBytes limits; reservedBytes limits] &&
  (reservedBytes limits <=? maxBytes limits).

(** The MoonBit guards, on 32-bit integers. *)
Definition player_local_payload_admission_allowed (current_bytes current_items incoming_bytes max_bytes max_items
    max_item_bytes reserved_bytes : Z) : bool :=
  if (current_bytes <? 0) || (current_items <? 0) || (incoming_bytes <=? 0) || (max_bytes <? 0) || (max_items <? 0) ||
     (max_item_bytes <? 0) || (reserved_bytes <? 0) || (max_item_bytes <? incoming_bytes) ||
     (max_items <=? current_items) || (max_bytes <? reserved_bytes)
  then false
  else
    let payload_capacity := to_int32 (max_bytes - reserved_bytes) in
    if payload_capacity <? current_bytes then false
    else incoming_bytes <=? to_int32 (payload_capacity - current_bytes).
Definition player_local_payload_prunable (delivery_acknowledged gameplay_finalized retention_closed unresolved_reference : bool)
    : bool := delivery_acknowledged && gameplay_finalized && retention_closed && negb unresolved_reference.
Definition player_local_payload_scope_registration_allowed (current_scopes max_scopes : Z) : bool :=
  (0 <=? current_scopes) && (0 <? max_scopes) && (current_scopes <? max_scopes).
Definition player_local_payload_reservation_allowed (used_bytes used_items reserved_bytes reserved_items incoming_bytes
    incoming_items max_bytes max_items headroom_bytes : Z) : bool :=
  if (used_bytes <? 0) || (used_items <? 0) || (reserved_bytes <? 0) || (reserved_items <? 0) || (incoming_bytes <=? 0) ||
     (incoming_items <=? 0) || (max_bytes <? 0) || (max_items <? 0) || (headroom_bytes <? 0) || (max_bytes <? headroom_bytes)
  then false
  else
    let payload_capacity := to_int32 (max_bytes - headroom_bytes) in
    if (payload_capacity <? used_bytes) || (max_items <? used_items) then false
    else
      let available_bytes := to_int32 (payload_capacity - used_bytes) in
      let available_items := to_int32 (max_items - used_items) in
      if (available_bytes <? reserved_bytes) || (available_items <? reserved_items) then false
      else (incoming_bytes <=? to_int32 (available_bytes - reserved_bytes)) &&
           (incoming_items <=? to_int32 (available_items - reserved_items)).

(** [MoonBitPayloadBudgetPolicy]. *)
Definition admits (limits : PayloadQueueLimits) (usedBytes itemCount incomingBytes : Z) : bool :=
  payloadQueueLimitsValid limits && forallb is_int [usedBytes; itemCount; incomingBytes] &&
  player_local_payload_admission_allowed usedBytes itemCount incomingBytes (maxBytes limits) (maxItems limits)
    (maxItemBytes limits) (reservedBytes limits).
Definition registersScope (current maximum : Z) : bool :=
  forallb is_int [current; maximum] && player_local_payload_scope_registration_allowed current maximum.
Definition reserves (limits : PayloadQueueLimits) (usedBytes itemCount reserved reservedItems bytes items : Z) : bool :=
  payloadQueueLimitsValid limits && forallb is_int [usedBytes; itemCount; reserved; reservedItems; bytes; items] &&
  player_local_payload_reservation_allowed usedBytes itemCount reserved reservedItems bytes items (maxBytes limits)
    (maxItems limits) (reservedBytes limits).
Definition prunable (g : PayloadPruneGrant) : bool :=
  player_local_payload_prunable (deliveryAcknowledged g) (gameplayFinalized g) (retentionClosed g) (unresolvedReference g).

(** What the guards decide, without machine arithmetic. *)
Lemma int32_small z : - 2147483648 <= z <= 2147483647 -> to_int32 z = z.
Proof. intros Hz. unfold to_int32, to_uint32. cbv zeta. destruct (_ <? _) eqn:E; Z.div_mod_to_equations; lia. Qed.
Lemma admits_spec l used count incoming :
  admits l used count incoming = true <->
  payloadQueueLimitsValid l = true /\ 0 <= used /\ 0 <= count < maxItems l /\ 0 < incoming <= maxItemBytes l /\
  used + incoming <= maxBytes l - reservedBytes l.
Proof.
  unfold admits, player_local_payload_admission_allowed, payloadQueueLimitsValid, forallb, is_int, MAX_INT.
  cbv zeta. split.
  - intros E. apply andb_true_iff in E as [E1 E2]. destruct (_ || _) eqn:E3; [done|].
    rewrite (int32_small (maxBytes l - reservedBytes l)) in E2 by lia. destruct (_ <? used) eqn:E4; [done|].
    rewrite int32_small in E2 by lia. lia.
  - intros (E & Hu & Hc & Hi & Hs). apply andb_true_iff. split; [lia|]. destruct (_ || _) eqn:E3; [lia|].
    rewrite (int32_small (maxBytes l - reservedBytes l)) by lia. destruct (_ <? used) eqn:E4; [lia|].
    rewrite int32_small by lia. lia.
Qed.
Lemma reserves_spec l used count reserved ritems bytes items :
  reserves l used count reserved ritems bytes items = true <->
  payloadQueueLimitsValid l = true /\ 0 <= used /\ 0 <= count /\ 0 <= reserved /\ 0 <= ritems /\ 0 < bytes /\ 0 < items /\
  used + reserved + bytes <= maxBytes l - reservedBytes l /\ count + ritems + items <= maxItems l.
Proof.
  unfold reserves, player_local_payload_reservation_allowed, payloadQueueLimitsValid, forallb, is_int, MAX_INT.
  cbv zeta. split.
  - intros E. apply andb_true_iff in E as [E1 E2]. destruct (_ || (maxBytes l <? _)) eqn:E3; [done|].
    rewrite (int32_small (maxBytes l - reservedBytes l)) in E2 by lia. destruct (_ || (maxItems l <? count)) eqn:E4; [done|].
    rewrite (int32_small (maxBytes l - reservedBytes l - used)), (int32_small (maxItems l - count)) in E2 by lia.
    destruct (_ || _) eqn:E5 in E2; [done|]. rewrite !int32_small in E2 by lia. lia.
  - intros (E & Hs). apply andb_true_iff. split; [lia|]. destruct (_ || (maxBytes l <? _)) eqn:E3; [lia|].
    rewrite (int32_small (maxBytes l - reservedBytes l)) by lia. destruct (_ || (maxItems l <? count)) eqn:E4; [lia|].
    rewrite (int32_small (maxBytes l - reservedBytes l - used)), (int32_small (maxItems l - count)) by lia.
    destruct (_ || (maxItems l - count <? ritems)) eqn:E5; [lia|]. rewrite int32_small by lia. rewrite int32_small by lia.
    apply andb_true_iff; split; lia.
Qed.

(** ** The queue *)

Definition MAX_BATCH : Z := 64.
Definition MAX_GRANT_CHARS : Z := 16384.
Definition MAX_PENDING_APPENDS : nat := 4.

Record PayloadQueueSnapshot := mkSnapshot {
  ps_usedBytes : Z;
  ps_itemCount : Z;
  ps_firstSequence : Z;
  ps_nextSequence : Z;
  ps_revision : Z;
}.
Record Metadata := mkMetadata {
  qm_snapshot : PayloadQueueSnapshot;
  qm_queueId : jsstr;
  qm_limits : PayloadQueueLimits;
}.
(** The two object stores. *)
Record QueueDb := mkQueueDb {
  payload_meta : option Metadata;
  payload_chunks : gmap Z AuditPayloadChunk;
}.
(** The database with the state of the queue object. *)
Record QueueWorld := mkQueueWorld { q_db : QueueDb; pendingAppends : nat }.
Definition set_q_db (d : QueueDb) (w : QueueWorld) : QueueWorld := mkQueueWorld d (pendingAppends w).

Record AuditPayloadQueueOptions := mkQueueOptions {
  qo_name : jsstr;
  qo_queueId : jsstr;
  qo_limits : PayloadQueueLimits;
  verifyPruneGrant : PayloadPruneGrant -> throws bool;
  qo_injectWriteFault : option jsstr;
}.
Inductive AppendResult :=
| ap_stored | ap_duplicate | ap_conflict | ap_gap | ap_pruned | ap_backpressure | ap_invalid.
Inductive PruneResult := pr_pruned | pr_refused | pr_concurrent_write.

Definition byteSize (c : AuditPayloadChunk) : Z := Z.of_nat (length (payload c)).
Definition totalSize (l : list AuditPayloadChunk) : Z := foldr (fun c n => byteSize c + n) 0 l.
Definition samePayload (left right : AuditPayloadChunk) : bool :=
  str_eqb (ch_checkpointDigest left) (ch_checkpointDigest right) && bool_decide (payload left = payload right).
Definition invalidChunk (c : AuditPayloadChunk) : bool :=
  negb (isTime (ch_sequence c)) || negb (isDigestText (ch_checkpointDigest c)) || (byteSize c =? 0).
Definition tooLarge (limits : PayloadQueueLimits) (bytes : Z) : bool :=
  (maxItemBytes limits <? bytes) || (maxBytes limits - reservedBytes limits <? bytes).
(** [chunks.some((chunk, index) => chunk.sequence !== first + index)]. *)
Fixpoint outOfOrder (first : Z) (l : list AuditPayloadChunk) : bool :=
  match l with
  | [] => false
  | c :: l' => negb (ch_sequence c =? first) || outOfOrder (first + 1) l'
  end.
Definition lastDigest (l : list AuditPayloadChunk) : option jsstr := ch_checkpointDigest <$> last l.

Section Queue.
Context (options : AuditPayloadQueueOptions).

Definition metadata : idb QueueDb Metadata :=
  let~ value := iread payload_meta in
  match value with Some m => iret m | None => ithrow (js "missing payload queue metadata") end.
Definition put_meta (m : Metadata) (d : QueueDb) : QueueDb := mkQueueDb (Some m) (payload_chunks d).
(** [add], which fails if the key is there. *)
Definition add_chunk (c : AuditPayloadChunk) : idb QueueDb True :=
  fun d => if bool_decide (is_Some (payload_chunks d !! ch_sequence c)) then (d, inl (js "ConstraintError"))
           else (mkQueueDb (payload_meta d) (<[ch_sequence c := c]> (payload_chunks d)), inr I).
Definition delete_chunks (l : list AuditPayloadChunk) (d : QueueDb) : QueueDb :=
  mkQueueDb (payload_meta d) (delete_keys (map ch_sequence l) (payload_chunks d)).
Definition readwrite {A} (body : idb QueueDb A) : async QueueWorld A := idb_transaction q_db set_q_db body.

Definition snapshot : async QueueWorld PayloadQueueSnapshot :=
  readwrite (let~ m := metadata in iret (qm_snapshot m)).

Definition append_body (chunk : AuditPayloadChunk) : idb QueueDb AppendResult :=
  let~ meta := metadata in
  let s := qm_snapshot meta in
  if ch_sequence chunk <? ps_firstSequence s then iret ap_pruned
  else if ch_sequence chunk <? ps_nextSequence s then
    let~ found := iread (fun d => payload_chunks d !! ch_sequence chunk) in
    match found with
    | None => ithrow (js "payload queue contains a gap")
    | Some previous => iret (if samePayload previous chunk then ap_duplicate else ap_conflict)
    end
  else if negb (ch_sequence chunk =? ps_nextSequence s) then iret ap_gap
  else if (ps_nextSequence s =? MAX_SAFE_INTEGER) || (ps_revision s =? MAX_SAFE_INTEGER) ||
          negb (admits (qm_limits meta) (ps_usedBytes s) (ps_itemCount s) (byteSize chunk)) then iret ap_backpressure
  else
    let~ _ := add_chunk chunk in
    let~ _ := ifault (qo_injectWriteFault options) in
    let~ _ := iwrite (put_meta (mkMetadata
      (mkSnapshot (ps_usedBytes s + byteSize chunk) (ps_itemCount s + 1) (ps_firstSequence s) (ps_nextSequence s + 1)
         (ps_revision s + 1)) (qm_queueId meta) (qm_limits meta))) in
    iret ap_stored.
(** [this.pendingAppends += 1; try { return await ... } finally { this.pendingAppends -= 1; }]. *)
Definition pending_transaction {A} (body : idb QueueDb A) : async QueueWorld A :=
  fun w => (mkQueueWorld (q_db w) (S (pendingAppends w)), Suspended (fun w' =>
    let '(d, r) := committed body (q_db w') in (mkQueueWorld d (pred (pendingAppends w')), Finished r))).
Definition append (input : AuditPayloadChunk) : async QueueWorld AppendResult :=
  if invalidChunk input then aret ap_invalid
  else if tooLarge (qo_limits options) (byteSize input) then aret ap_backpressure
  else
    let* pending := read_store pendingAppends in
    if (MAX_PENDING_APPENDS <=? pending)%nat then aret ap_backpressure
    else pending_transaction (append_body input).

Definition readBatch (limit : Z) : async QueueWorld (list AuditPayloadChunk) :=
  if negb (isTime limit) || (limit <? 1) || (MAX_BATCH <? limit) then athrow (js "invalid payload batch limit")
  else readwrite (iread (fun d => get_all (payload_chunks d) (Z.to_nat limit))).

Definition prune_body (grant : PayloadPruneGrant) : idb QueueDb PruneResult :=
  let~ meta := metadata in
  let s := qm_snapshot meta in
  if negb (ps_revision s =? pg_expectedRevision grant) then iret pr_concurrent_write
  else
    let count := throughSequence grant - ps_firstSequence s + 1 in
    if (count <? 1) || (MAX_BATCH <? count) || (ps_nextSequence s <=? throughSequence grant) ||
       (ps_revision s =? MAX_SAFE_INTEGER) then iret pr_refused
    else
      let~ chunks := iread (fun d => get_all (payload_chunks d) (Z.to_nat count)) in
      if negb (Z.of_nat (length chunks) =? count) || outOfOrder (ps_firstSequence s) chunks ||
         negb (bool_decide (lastDigest chunks = Some (throughCheckpointDigest grant))) then iret pr_refused
      else
        let~ _ := iwrite (delete_chunks chunks) in
        let~ _ := ifault (qo_injectWriteFault options) in
        let~ _ := iwrite (put_meta (mkMetadata
          (mkSnapshot (ps_usedBytes s - totalSize chunks) (ps_itemCount s - count) (throughSequence grant + 1)
             (ps_nextSequence s) (ps_revision s + 1)) (qm_queueId meta) (qm_limits meta))) in
        iret pr_pruned.
Definition prune (grant : PayloadPruneGrant) : async QueueWorld PruneResult :=
  if (MAX_GRANT_CHARS <? slen (pg_authorization grant)) ||
     negb (str_eqb (pg_queueId grant) (qo_queueId options)) || negb (isTime (pg_expectedRevision grant)) ||
     negb (isTime (throughSequence grant)) || negb (isDigestText (throughCheckpointDigest grant)) ||
     negb (prunable grant) then aret pr_refused
  else
    let* genuine := await (verifyPruneGrant options grant) in
    if negb genuine then aret pr_refused else readwrite (prune_body grant).

(** ** Opening *)

Definition queueConfigured : bool :=
  (0 <? slen (qo_queueId options)) && (slen (qo_queueId options) <=? 128) && (0 <? slen (qo_name options)) &&
  payloadQueueLimitsValid (qo_limits options).
Definition metadataMismatch (meta : Metadata) : bool :=
  let s := qm_snapshot meta in
  negb (str_eqb (qm_queueId meta) (qo_queueId options)) || negb (payloadQueueLimitsValid (qm_limits meta)) ||
  negb (bool_decide (qm_limits meta = qo_limits options)) ||
  negb (forallb isTime [ps_usedBytes s; ps_itemCount s; ps_firstSequence s; ps_nextSequence s; ps_revision s]) ||
  negb (ps_itemCount s =? ps_nextSequence s - ps_firstSequence s) || (maxItems (qm_limits meta) <? ps_itemCount s) ||
  (maxBytes (qm_limits meta) - reservedBytes (qm_limits meta) <? ps_usedBytes s).
(** The cursor over the chunks. *)
Fixpoint scan (meta : Metadata) (next bytes : Z) (l : list AuditPayloadChunk) : throws True :=
  let s := qm_snapshot meta in
  match l with
  | [] => throw_if (negb (next =? ps_nextSequence s) || negb (bytes =? ps_usedBytes s)) (js "payload queue usage mismatch") (inr I)
  | chunk :: l' =>
      throw_if (negb (ch_sequence chunk =? next) || negb (isDigestText (ch_checkpointDigest chunk)) || (byteSize chunk <? 1) ||
                (maxItemBytes (qm_limits meta) <? byteSize chunk) || (ps_nextSequence s <=? next))
        (js "invalid retained payload chunk") $
      throw_if (ps_usedBytes s <? bytes + byteSize chunk) (js "payload byte accounting mismatch") $
      scan meta (next + 1) (bytes + byteSize chunk) l'
  end.
Definition configureAndValidate : idb QueueDb True :=
  let~ found := iread payload_meta in
  let~ meta := match found with
               | Some meta => iret meta
               | None =>
                   let~ count := iread (fun d => size (payload_chunks d)) in
                   iguard (negb (count =? 0)%nat) (js "orphaned payload chunks") $
                   let meta := mkMetadata (mkSnapshot 0 0 0 0 0) (qo_queueId options) (qo_limits options) in
                   let~ _ := iwrite (put_meta meta) in
                   iret meta
               end in
  iguard (metadataMismatch meta) (js "payload queue configuration/accounting mismatch") $
  let~ chunks := iread (fun d => get_all (payload_chunks d) (size (payload_chunks d))) in
  ithrows (scan meta (ps_firstSequence (qm_snapshot meta)) 0 chunks).
(** The constructor's path: the policy module is loaded first. *)
Definition openQueue : async QueueWorld True :=
  refuse_if (negb queueConfigured) (js "invalid payload queue configuration") $
  let* _ := await (inr I) in
  readwrite configureAndValidate.
End Queue.
