(* ===== verification/PayloadQueueFacts.v ===== *)
(** * What the payload queue guarantees

    The stored queue refines a queue of chunks numbered without gaps; opening it
    accepts exactly the databases that represent such a queue; and under any
    interleaving of appends, reads and prunes a chunk that was stored stays until
    a genuine grant allows its deletion. *)
From Stdlib Require Import ZifyBool.
From stdpp Require Import gmap sorting.
From S2P Require Import Prelude Json Contracts Kernel Utf8 CryptoBackend EncounterWire Async IndexedDb PayloadQueue.
Set Default Goal Selector "!".

(** ** The abstract queue *)

Record QueueState := mkQueueState { q_first : Z; q_items : list AuditPayloadChunk; q_revision : Z }.
Definition q_next (q : QueueState) : Z := q_first q + Z.of_nat (length (q_items q)).

(** Appending: only the next chunk is added, and only if it fits. *)
Definition fits (limits : PayloadQueueLimits) (q : QueueState) (c : AuditPayloadChunk) : bool :=
  (q_next q <? MAX_SAFE_INTEGER) && (q_revision q <? MAX_SAFE_INTEGER) &&
  (Z.of_nat (length (q_items q)) <? maxItems limits) && (byteSize c <=? maxItemBytes limits) &&
  (totalSize (q_items q) + byteSize c <=? maxBytes limits - reservedBytes limits).
Definition spec_append (limits : PayloadQueueLimits) (q : QueueState) (c : AuditPayloadChunk) : QueueState * AppendResult :=
  let i := Z.to_nat (ch_sequence c - q_first q) in
  if ch_sequence c <? q_first q then (q, ap_pruned)
  else match q_items q !! i with
  | Some previous => (q, if samePayload previous c then ap_duplicate else ap_conflict)
  | None =>
      if q_next q <? ch_sequence c then (q, ap_gap)
      else if fits limits q c then (mkQueueState (q_first q) (q_items q ++ [c]) (q_revision q + 1), ap_stored)
      else (q, ap_backpressure)
  end.
(** Pruning: exactly the prefix the grant names, of the state it was given for. *)
Definition spec_prune (q : QueueState) (g : PayloadPruneGrant) : QueueState * PruneResult :=
  let count := throughSequence g - q_first q + 1 in
  if negb (q_revision q =? pg_expectedRevision g) then (q, pr_concurrent_write)
  else if (1 <=? count) && (count <=? MAX_BATCH) && (throughSequence g <? q_next q) && (q_revision q <? MAX_SAFE_INTEGER) &&
          bool_decide (lastDigest (take (Z.to_nat count) (q_items q)) = Some (throughCheckpointDigest g))
  then (mkQueueState (throughSequence g + 1) (drop (Z.to_nat count) (q_items q)) (q_revision q + 1), pr_pruned)
  else (q, pr_refused).

(** ** Representation *)

Definition chunk_ok (limits : PayloadQueueLimits) (c : AuditPayloadChunk) : Prop :=
  isDigestText (ch_checkpointDigest c) = true /\ 1 <= byteSize c <= maxItemBytes limits.
Record queue_wf (limits : PayloadQueueLimits) (q : QueueState) : Prop := {
  wf_first : 0 <= q_first q;
  wf_next : q_next q <= MAX_SAFE_INTEGER;
  wf_revision : 0 <= q_revision q <= MAX_SAFE_INTEGER;
  wf_count : Z.of_nat (length (q_items q)) <= maxItems limits;
  wf_bytes : totalSize (q_items q) <= maxBytes limits - reservedBytes limits;
  wf_chunks : Forall (chunk_ok limits) (q_items q);
  wf_order : outOfOrder (q_first q) (q_items q) = false;
}.
Definition meta_of (options : AuditPayloadQueueOptions) (q : QueueState) : Metadata :=
  mkMetadata (mkSnapshot (totalSize (q_items q)) (Z.of_nat (length (q_items q))) (q_first q) (q_next q) (q_revision q))
    (qo_queueId options) (qo_limits options).
Record represents (options : AuditPayloadQueueOptions) (q : QueueState) (d : QueueDb) : Prop := {
  rp_meta : payload_meta d = Some (meta_of options q);
  rp_run : run_of (payload_chunks d) (q_first q) (q_items q);
  rp_wf : queue_wf (qo_limits options) q;
}.

Lemma represents_unique options q q' d : represents options q d -> represents options q' d -> q = q'.
Proof.
  intros [M1 R1 _] [M2 R2 _]. assert (E : meta_of options q = meta_of options q') by congruence. unfold meta_of in E.
  injection E as _ _ Ef _ Er. destruct q as [f l r], q' as [f' l' r']. cbn in *. subst. f_equal. by eapply run_unique.
Qed.
Lemma totalSize_cons c l : totalSize (c :: l) = byteSize c + totalSize l.
Proof. done. Qed.
Lemma totalSize_app l l' : totalSize (l ++ l') = totalSize l + totalSize l'.
Proof. induction l as [|c l IH]; [done|]. rewrite <- app_comm_cons, !totalSize_cons, IH.
  lia. Qed.
Lemma totalSize_nonneg l : 0 <= totalSize l.
Proof. induction l as [|c l IH]; [done|]. rewrite totalSize_cons. unfold byteSize. lia. Qed.
Lemma totalSize_split n l : totalSize l = totalSize (take n l) + totalSize (drop n l).
Proof. by rewrite <- totalSize_app, take_drop. Qed.
Lemma outOfOrder_app first l l' :
  outOfOrder first (l ++ l') = outOfOrder first l || outOfOrder (first + Z.of_nat (length l)) l'.
Proof.
  revert first. induction l as [|c l IH]; intros first; cbn [app outOfOrder length]; [by rewrite Z.add_0_r|].
  rewrite IH, <- orb_assoc. by replace (first + 1 + Z.of_nat (length l)) with (first + Z.of_nat (S (length l))) by lia.
Qed.
Lemma ordered_at first l i c : outOfOrder first l = false -> l !! i = Some c -> ch_sequence c = first + Z.of_nat i.
Proof.
  revert first i. induction l as [|x l IH]; intros first i Ho Hc; [done|]. cbn [outOfOrder] in Ho.
  apply orb_false_iff in Ho as [E Ho]. destruct i as [|i]; [injection Hc as ->; lia|]. specialize (IH _ _ Ho Hc). lia.
Qed.
Lemma ordered_keys first l : outOfOrder first l = false -> map ch_sequence l = seqZ first (Z.of_nat (length l)).
Proof.
  revert first. induction l as [|c l IH]; intros first Ho; [done|]. cbn [outOfOrder] in Ho.
  apply orb_false_iff in Ho as [E Ho]. cbn [map length]. rewrite seqZ_cons by lia. f_equal; [lia|].
  rewrite (IH (first + 1)) by done. f_equal; lia.
Qed.
Lemma ordered_take n first l : outOfOrder first l = false -> outOfOrder first (take n l) = false.
Proof. rewrite <- (take_drop n l) at 1. rewrite outOfOrder_app. by intros [E _]%orb_false_iff. Qed.

(** ** Well-formed queues *)

Lemma wf_snoc limits q c : queue_wf limits q -> isDigestText (ch_checkpointDigest c) = true -> 1 <= byteSize c ->
  ch_sequence c = q_next q -> fits limits q c = true ->
  queue_wf limits (mkQueueState (q_first q) (q_items q ++ [c]) (q_revision q + 1)).
Proof.
  intros [H1 H2 H3 H4 H5 H6 H7] Hd Hb Hs Hf. unfold fits in Hf. split; unfold q_next in *; cbn [q_first q_items q_revision];
    rewrite ?length_app; cbn [length]; try lia.
  - rewrite totalSize_app. cbn. lia.
  - apply Forall_app. split; [done|]. constructor; [|done]. split; [done|lia].
  - rewrite outOfOrder_app, H7. cbn. lia.
Qed.
Lemma wf_drop limits q (n : nat) : queue_wf limits q -> (n <= length (q_items q))%nat -> q_revision q < MAX_SAFE_INTEGER ->
  queue_wf limits (mkQueueState (q_first q + Z.of_nat n) (drop n (q_items q)) (q_revision q + 1)).
Proof.
  intros [H1 H2 H3 H4 H5 H6 H7] Hn Hr. split; unfold q_next in *; cbn [q_first q_items q_revision]; rewrite ?length_drop; try lia.
  - pose proof (totalSize_split n (q_items q)). pose proof (totalSize_nonneg (take n (q_items q))). lia.
  - by apply Forall_drop.
  - rewrite <- (take_drop n (q_items q)), outOfOrder_app in H7. apply orb_false_iff in H7 as [_ H7].
    rewrite length_take, Nat.min_l in H7 by lia. done.
Qed.

Lemma isTime_spec z : isTime z = true <-> 0 <= z <= MAX_SAFE_INTEGER.
Proof. unfold isTime, isSafeInteger. assert (0 < MAX_SAFE_INTEGER) by done. lia. Qed.

(** ** Reading in key order *)

Lemma values_at (m : gmap Z AuditPayloadChunk) ks (i : nat) :
  Forall (fun k => is_Some (m !! k)) ks -> omap (fun k => m !! k) ks !! i = (ks !! i) ≫= (fun k => m !! k).
Proof.
  intros Hks. revert i. induction Hks as [|k ks [c Hc] _ IH]; intros i; [done|]. cbn [omap list_omap]. rewrite Hc.
  destruct i; cbn; [done|apply IH].
Qed.
Lemma sorted_key (m : gmap Z AuditPayloadChunk) k : k ∈ sorted_keys m <-> is_Some (m !! k).
Proof.
  unfold sorted_keys. rewrite merge_sort_Permutation. split.
  - intros ([k' v] & -> & Hin%elem_of_map_to_list)%list_elem_of_fmap. eauto.
  - intros [v Hv]. apply list_elem_of_fmap. exists (k, v). by rewrite elem_of_map_to_list.
Qed.
Lemma get_all_keys (m : gmap Z AuditPayloadChunk) : length (sorted_keys m) = size m.
Proof. unfold sorted_keys. rewrite merge_sort_Permutation, length_map. apply length_map_to_list. Qed.
(** The key path of a store of chunks. *)
Definition keyed_map (m : gmap Z AuditPayloadChunk) : Prop := forall k c, m !! k = Some c -> ch_sequence c = k.
Lemma ordered_run (m : gmap Z AuditPayloadChunk) first :
  keyed_map m -> outOfOrder first (get_all m (size m)) = false -> run_of m first (get_all m (size m)).
Proof.
  intros Hk Ho. set (l := get_all m (size m)) in *.
  assert (Hall : Forall (fun k => is_Some (m !! k)) (sorted_keys m)) by (apply Forall_forall; intros k; apply sorted_key).
  assert (El : l = omap (fun k => m !! k) (sorted_keys m)).
  { unfold l, get_all. by rewrite take_ge by (rewrite get_all_keys; lia). }
  assert (Es : sorted_keys m = seqZ first (Z.of_nat (length l))).
  { rewrite <- (ordered_keys _ _ Ho), El. clear -Hall Hk. induction Hall as [|k ks [c Hc] _ IH]; [done|]. cbn [omap list_omap].
    rewrite Hc. cbn [map]. rewrite <- IH. f_equal. symmetry. by apply Hk. }
  intros k. destruct (m !! k) as [c|] eqn:Em.
  - assert (Hin : k ∈ sorted_keys m) by (apply sorted_key; eauto). rewrite Es, elem_of_seqZ in Hin.
    destruct (first <=? k) eqn:E; [|lia]. rewrite El, values_at, Es, lookup_seqZ_lt by (done || lia). cbn.
    replace (first + _) with k by lia. by rewrite Em.
  - destruct (first <=? k) eqn:E; [|done]. destruct (l !! Z.to_nat (k - first)) as [c|] eqn:Ec; [|done].
    apply lookup_lt_Some in Ec. assert (Hin : k ∈ sorted_keys m) by (rewrite Es, elem_of_seqZ; lia).
    apply sorted_key in Hin as [c' Hc']. congruence.
Qed.
Lemma get_all_whole {V} (m : gmap Z V) first items : run_of m first items -> get_all m (size m) = items.
Proof.
  intros Hm. rewrite (get_all_run _ _ _ _ Hm). apply take_ge.
  rewrite <- (length_map_to_list m), <- (length_map fst), <- (merge_sort_Permutation Z.le). fold (sorted_keys m).
  rewrite (run_keys _ _ _ Hm), length_seqZ. lia.
Qed.

Section Facts.
Context (options : AuditPayloadQueueOptions).
Hypothesis Hcfg : payloadQueueLimitsValid (qo_limits options) = true.
Abbreviation represents := (represents options).
Abbreviation limits := (qo_limits options).

Lemma metadata_found q d : represents q d -> metadata d = (d, inr (meta_of options q)).
Proof. intros [Hm _ _]. unfold metadata, ibind, iread. by rewrite Hm. Qed.
Lemma limits_bounds : 0 <= reservedBytes limits <= maxBytes limits /\ maxItems limits <= MAX_INT /\ maxBytes limits <= MAX_INT /\ maxItemBytes limits <= MAX_INT.
Proof. revert Hcfg. unfold payloadQueueLimitsValid, forallb, is_int. lia. Qed.

Lemma fits_spec q c : queue_wf limits q -> 1 <= byteSize c ->
  fits limits q c = negb ((q_next q =? MAX_SAFE_INTEGER) || (q_revision q =? MAX_SAFE_INTEGER) ||
    negb (admits limits (totalSize (q_items q)) (Z.of_nat (length (q_items q))) (byteSize c))).
Proof.
  intros Hw Hc. pose proof (totalSize_nonneg (q_items q)). destruct Hw as [_ Hn Hr _ _ _ _].
  unfold fits. destruct (admits _ _ _ _) eqn:Ea.
  - apply admits_spec in Ea as (_ & _ & Ha). lia.
  - rewrite <- not_true_iff_false, admits_spec in Ea. cbn [negb]. rewrite orb_true_r. cbn [negb]. apply not_true_iff_false. intros E. apply Ea. repeat split; try done; lia.
Qed.

(** Appending refines the specification. *)
Lemma append_body_refines q d d' c result :
  represents q d -> invalidChunk c = false -> append_body options c d = (d', inr result) ->
  exists q', spec_append limits q c = (q', result) /\ represents q' d'.
Proof.
  intros Hr Hc E. unfold append_body in E. unfold ibind at 1 in E. rewrite (metadata_found q d Hr) in E.
  cbn [qm_snapshot meta_of ps_firstSequence ps_nextSequence ps_usedBytes ps_itemCount ps_revision qm_limits qm_queueId] in E.
  destruct Hr as [Hm Hrun Hwf]. unfold spec_append.
  assert (Hb : 1 <= byteSize c) by (unfold invalidChunk, byteSize in *; lia).
  destruct (ch_sequence c <? q_first q) eqn:E1; [idb_run E; subst; by eexists|].
  destruct (ch_sequence c <? q_next q) eqn:E2.
  - idb_run E. pose proof (run_at _ _ _ (Z.to_nat (ch_sequence c - q_first q)) Hrun) as Ha.
    replace (q_first q + _) with (ch_sequence c) in Ha by lia. rewrite Ha in *.
    destruct (q_items q !! _) as [previous|] eqn:Ep; subst a; [|done]. idb_run E. subst. by eexists.
  - assert (Hn : q_items q !! Z.to_nat (ch_sequence c - q_first q) = None).
    { apply lookup_ge_None_2. unfold q_next in *. lia. }
    rewrite Hn. destruct (ch_sequence c =? q_next q) eqn:E3; cbn [negb] in E.
    + replace (q_next q <? ch_sequence c) with false by lia. rewrite fits_spec by done.
      destruct (_ || _ || _) eqn:E4; cbn [negb]; [idb_run E; subst; by eexists|].
      idb_run E. unfold add_chunk in *. case_bool_decide as Hs; [done|].
      match goal with F : (_, inr I) = _ |- _ => apply pair_equal_spec in F as [<- _] end. subst.
      assert (Hf : fits limits q c = true) by (rewrite fits_spec by done; by rewrite E4).
      eexists. split; [done|]. split; cbn [put_meta payload_meta payload_chunks].
      * unfold meta_of, q_next. cbn [q_first q_items q_revision]. rewrite totalSize_app, length_app. cbn [totalSize foldr length].
        do 2 f_equal. f_equal; unfold q_next; lia.
      * replace (ch_sequence c) with (q_first q + Z.of_nat (length (q_items q))) by (unfold q_next in *; lia). by apply run_snoc.
      * apply wf_snoc; [done| |done|lia|done]. unfold invalidChunk in Hc. by destruct (isDigestText _); [|cbn in Hc; lia].
    + idb_run E. subst. replace (q_next q <? ch_sequence c) with true by lia. by eexists.
Qed.

(** Pruning refines the specification. *)
Lemma prune_body_refines q d d' g result :
  represents q d -> prune_body options g d = (d', inr result) ->
  exists q', spec_prune q g = (q', result) /\ represents q' d'.
Proof.
  intros Hr E. unfold prune_body in E. unfold ibind at 1 in E. rewrite (metadata_found q d Hr) in E.
  cbn [qm_snapshot meta_of ps_firstSequence ps_nextSequence ps_usedBytes ps_itemCount ps_revision qm_limits qm_queueId] in E.
  pose proof Hr as [Hm Hrun Hwf]. unfold spec_prune.
  destruct (q_revision q =? pg_expectedRevision g) eqn:E1; cbn [negb] in *; [|idb_run E; subst; by eexists].
  set (count := throughSequence g - q_first q + 1) in *. pose proof (wf_revision _ _ Hwf) as Hrev.
  destruct (_ || _ || _ || _) eqn:E2.
  - idb_run E. subst. destruct (_ && bool_decide _) eqn:E5; [lia|by eexists].
  - idb_run E. rewrite (get_all_run _ _ _ _ Hrun) in *. subst a.
    assert (Hl : (Z.to_nat count <= length (q_items q))%nat) by (unfold q_next in *; lia).
    rewrite length_take, Nat.min_l in E by done. rewrite (ordered_take _ _ _ (wf_order _ _ Hwf)), orb_false_r in E.
    replace (Z.of_nat (Z.to_nat count) =? count) with true in E by lia. cbn [negb orb] in E.
    case_bool_decide as Hd; cbn [negb] in E.
    + idb_run E. subst. destruct (_ && true) eqn:E5; [|lia]. eexists. split; [done|].
      split; cbn [put_meta delete_chunks payload_meta payload_chunks].
      * unfold meta_of, q_next. cbn [q_first q_items q_revision]. rewrite length_drop.
        pose proof (totalSize_split (Z.to_nat count) (q_items q)). do 2 f_equal. f_equal; lia.
      * rewrite (ordered_keys (q_first q)) by (by apply ordered_take, (wf_order _ _ Hwf)). rewrite length_take, Nat.min_l by done.
        replace (throughSequence g + 1) with (q_first q + Z.of_nat (Z.to_nat count)) by lia. by apply run_drop.
      * replace (throughSequence g + 1) with (q_first q + Z.of_nat (Z.to_nat count)) by lia. apply wf_drop; [done|done|lia].
    + idb_run E. subst. rewrite andb_false_r. by eexists.
Qed.

(** ** Opening *)

Definition keyed_chunks (d : QueueDb) : Prop := keyed_map (payload_chunks d).
Definition scanned (meta : Metadata) (next bytes : Z) (l : list AuditPayloadChunk) : Prop :=
  outOfOrder next l = false /\ Forall (chunk_ok (qm_limits meta)) l /\
  next + Z.of_nat (length l) = ps_nextSequence (qm_snapshot meta) /\ bytes + totalSize l = ps_usedBytes (qm_snapshot meta).
Lemma scan_spec meta next bytes l : scan meta next bytes l = inr I <-> scanned meta next bytes l.
Proof.
  revert next bytes. induction l as [|c l IH]; intros next bytes; unfold scanned; cbn [scan outOfOrder length]; unfold throw_if.
  - cbn [totalSize foldr]. split.
    + destruct (_ || _) eqn:E; [done|]. intros _. split_and!; [done|constructor|lia|lia].
    + intros (_ & _ & E1 & E2). by destruct (_ || _) eqn:E; [lia|].
  - specialize (IH (next + 1) (bytes + byteSize c)). unfold scanned in IH. rewrite totalSize_cons, Forall_cons. unfold chunk_ok at 1.
    pose proof (totalSize_nonneg l). split.
    + destruct (_ || _) eqn:E; [done|]. destruct (_ <? bytes + byteSize c) eqn:E2; [done|].
      intros (I1 & I2 & I3 & I4)%IH. assert (Hd : isDigestText (ch_checkpointDigest c) = true) by (destruct (isDigestText _); [done|cbn in E; lia]).
      rewrite I1. split_and!; [lia|done|lia|lia|done|lia|lia].
    + intros (I1 & [[Hd Hb] I2] & I3 & I4). apply orb_false_iff in I1 as [I1 I1']. rewrite Hd.
      destruct (_ || _) eqn:E; [lia|]. destruct (_ <? bytes + byteSize c) eqn:E2; [lia|]. apply IH. split_and!; [done|done|lia|lia].
Qed.

(** What opening leaves behind. *)
Definition fresh_queue : QueueState := mkQueueState 0 [] 0.
Definition reopens (d d' : QueueDb) : Prop :=
  (exists q, represents q d /\ d' = d) \/ (payload_meta d = None /\ payload_chunks d = ∅ /\ d' = mkQueueDb (Some (meta_of options fresh_queue)) ∅).
Lemma fresh_represented : represents fresh_queue (mkQueueDb (Some (meta_of options fresh_queue)) ∅).
Proof.
  pose proof limits_bounds as Hb. split; [done|apply run_nil|].
  assert (0 <= maxItems (qo_limits options)) by (revert Hcfg; unfold payloadQueueLimitsValid, forallb, is_int; lia).
  split; cbn [q_first q_items q_revision fresh_queue q_next length totalSize foldr]; try (unfold q_next; cbn; lia); try lia; done.
Qed.

Lemma validated_represents d meta :
  keyed_chunks d -> payload_meta d = Some meta -> metadataMismatch options meta = false ->
  scan meta (ps_firstSequence (qm_snapshot meta)) 0 (get_all (payload_chunks d) (size (payload_chunks d))) = inr I ->
  exists q, represents q d.
Proof.
  intros Hk Hm Hmis (Ho & Hc & Hn & Hu)%scan_spec. pose proof (ordered_run _ _ Hk Ho) as Hrun.
  set (l := get_all _ _) in *. destruct meta as [[used count first next rev] id lim].
  unfold metadataMismatch, forallb in Hmis. cbn [qm_snapshot qm_queueId qm_limits ps_usedBytes ps_itemCount ps_firstSequence ps_nextSequence ps_revision] in *.
  repeat match goal with F : _ || _ = false |- _ => apply orb_false_iff in F as [F ?] end.
  repeat match goal with F : negb _ = false |- _ => apply negb_false_iff in F end.
  repeat match goal with F : _ && _ = true |- _ => apply andb_true_iff in F as [? F] end.
  repeat match goal with F : isTime _ = true |- _ => apply isTime_spec in F end.
  repeat match goal with F : bool_decide _ = true |- _ => apply bool_decide_eq_true in F end.
  match goal with F : str_eqb _ _ = true |- _ => apply str_eqb_eq in F end. subst id lim.
  exists (mkQueueState first l rev). split; cbn [q_first q_items q_revision]; [|done|].
  - rewrite Hm. unfold meta_of, q_next. cbn [q_first q_items q_revision]. do 2 f_equal. f_equal; lia.
  - split; unfold q_next; cbn [q_first q_items q_revision]; try lia; done.
Qed.
Lemma represented_validates q d : represents q d ->
  metadataMismatch options (meta_of options q) = false /\
  scan (meta_of options q) (q_first q) 0 (get_all (payload_chunks d) (size (payload_chunks d))) = inr I.
Proof.
  intros [Hm Hrun Hwf]. destruct Hwf as [H1 H2 H3 H4 H5 H6 H7]. pose proof (totalSize_nonneg (q_items q)) as Ht.
  unfold q_next in *. split.
  - unfold metadataMismatch, meta_of, forallb. cbn [qm_snapshot qm_queueId qm_limits ps_usedBytes ps_itemCount ps_firstSequence ps_nextSequence ps_revision].
    rewrite str_eqb_refl, Hcfg, bool_decide_eq_true_2 by done. unfold q_next. pose proof limits_bounds as Hb. unfold MAX_INT in Hb.
    assert (2147483647 <= MAX_SAFE_INTEGER) by done.
    rewrite !(proj2 (isTime_spec _)) by lia. cbn [negb andb orb]. lia.
  - apply scan_spec. rewrite (get_all_run _ _ _ _ Hrun), take_ge.
    + unfold scanned, meta_of. cbn [qm_snapshot qm_limits ps_usedBytes ps_nextSequence]. unfold q_next. by split_and!.
    + rewrite <- get_all_keys, (run_keys _ _ _ Hrun), length_seqZ. lia.
Qed.
Lemma validates d d' : keyed_chunks d -> configureAndValidate options d = (d', inr I) <-> reopens d d'.
Proof.
  intros Hk. unfold configureAndValidate, reopens. destruct (payload_meta d) as [meta|] eqn:Hm.
  - split.
    + intros E. idb_run E. rewrite Hm in *. subst. idb_run E1. subst. left.
      destruct (validated_represents d a0) as [q Hq]; [done..|]. eauto.
    + intros [(q & Hq & ->)|(? & _)]; [|done]. destruct (represented_validates q d Hq) as [Hmis Hs].
      unfold ibind, iread, iret, iguard, ithrows. rewrite Hm. pose proof (rp_meta _ _ _ Hq) as Em.
      assert (meta = meta_of options q) as -> by congruence. rewrite Hmis. cbn [qm_snapshot meta_of ps_firstSequence]. by rewrite Hs.
  - split.
    + intros E. idb_run E. rewrite Hm in *. subst. idb_run E1. subst. right. split; [done|].
      apply negb_false_iff, Nat.eqb_eq, map_size_empty_iff in G0. split; [done|].
      unfold put_meta. rewrite G0. done.
    + intros [(q & Hq & ->)|(_ & He & ->)]; [by rewrite (rp_meta _ _ _ Hq) in Hm|].
      destruct (represented_validates _ _ fresh_represented) as [Hmis Hs]. cbn [payload_chunks] in Hs. rewrite map_size_empty in Hs.
      change (mkMetadata (mkSnapshot 0 0 0 0 0) (qo_queueId options) limits) with (meta_of options fresh_queue).
      unfold ibind, iread, iret, iguard, ithrows, iwrite, put_meta. rewrite Hm, He, map_size_empty. cbn [Nat.eqb negb payload_chunks].
      rewrite Hmis. cbn [payload_chunks]. rewrite He, map_size_empty.
      change (ps_firstSequence (qm_snapshot (meta_of options fresh_queue))) with (q_first fresh_queue). by rewrite Hs.
Qed.

(** ** Operations return *)

Lemma append_body_returns q d c :
  represents q d -> qo_injectWriteFault options = None -> exists d' result, append_body options c d = (d', inr result).
Proof.
  intros Hr Hf. unfold append_body. unfold ibind at 1. rewrite (metadata_found q d Hr). pose proof Hr as [Hm Hrun Hwf].
  cbn [qm_snapshot meta_of ps_firstSequence ps_nextSequence ps_usedBytes ps_itemCount ps_revision qm_limits qm_queueId].
  destruct (ch_sequence c <? q_first q) eqn:E1; [unfold iret; eauto|].
  destruct (ch_sequence c <? q_next q) eqn:E2.
  - unfold ibind, iread. destruct (proj2 (run_key _ _ _ (ch_sequence c) Hrun)) as [x ->]; [unfold q_next in *; lia|]. unfold iret. eauto.
  - destruct (negb _) eqn:E3; [unfold iret; eauto|]. destruct (_ || _ || _); [unfold iret; eauto|].
    unfold ibind at 1, add_chunk. case_bool_decide as Hs.
    + apply (run_key _ _ _ _ Hrun) in Hs. unfold q_next in *. lia.
    + unfold ibind, ifault. rewrite Hf. unfold iret, iwrite. eauto.
Qed.
Lemma prune_body_returns q d g :
  represents q d -> qo_injectWriteFault options = None -> exists d' result, prune_body options g d = (d', inr result).
Proof.
  intros Hr Hf. unfold prune_body. unfold ibind at 1. rewrite (metadata_found q d Hr).
  unfold ibind, iread, iwrite, ifault, iret. rewrite Hf. repeat case_match; eauto.
Qed.
End Facts.

(** C23: the stored queue behaves like a queue of consecutive chunks.  On a
    database that represents such a queue, an append and a prune give exactly the
    result of the specification and leave a database that represents its next
    state; they always return if no write fails; if a write fails the database is
    as it was; and a read of at most 64 chunks returns the oldest ones. *)
Theorem payload_queue_refines_queue options q d :
  payloadQueueLimitsValid (qo_limits options) = true -> represents options q d ->
  (forall c, invalidChunk c = false ->
     let '(d', r) := committed (append_body options c) d in
     match r with
     | inr result => exists q', spec_append (qo_limits options) q c = (q', result) /\ represents options q' d'
     | inl _ => d' = d /\ qo_injectWriteFault options <> None
     end) /\
  (forall g,
     let '(d', r) := committed (prune_body options g) d in
     match r with
     | inr result => exists q', spec_prune q g = (q', result) /\ represents options q' d'
     | inl _ => d' = d /\ qo_injectWriteFault options <> None
     end) /\
  (forall limit, get_all (payload_chunks d) limit = take limit (q_items q)).
Proof.
  intros Hcfg Hr. split; [|split].
  - intros c Hc. destruct (committed _ d) as [d' [e|result]] eqn:E.
    + split; [by apply committed_throws in E|]. intros Hf. destruct (append_body_returns options Hcfg q d c Hr Hf) as (d1 & res & E1).
      apply (proj2 (committed_ok _ _ _ _)) in E1. congruence.
    + apply (proj1 (committed_ok _ _ _ _)) in E. by apply (append_body_refines options Hcfg q d).
  - intros g. destruct (committed _ d) as [d' [e|result]] eqn:E.
    + split; [by apply committed_throws in E|]. intros Hf. destruct (prune_body_returns options q d g Hr Hf) as (d1 & res & E1).
      apply (proj2 (committed_ok _ _ _ _)) in E1. congruence.
    + apply (proj1 (committed_ok _ _ _ _)) in E. by apply (prune_body_refines options Hcfg q d).
  - intros limit. apply (get_all_run _ _ _ _ (rp_run _ _ _ Hr)).
Qed.

(** Opening a queue accepts exactly what its operations leave behind: the
    check of the stored metadata and chunks succeeds if and only if the database
    represents a queue, which it then leaves as it is, or is empty, in which case
    an empty queue is created.  Whatever state a crash leaves, the queue can be
    opened again. *)
Theorem queue_opens_exactly_queues options d d' :
  payloadQueueLimitsValid (qo_limits options) = true -> keyed_chunks d ->
  configureAndValidate options d = (d', inr I) <->
  (exists q, represents options q d /\ d' = d) \/
  (payload_meta d = None /\ payload_chunks d = ∅ /\ d' = mkQueueDb (Some (meta_of options fresh_queue)) ∅).
Proof. intros Hcfg Hk. by apply validates. Qed.

(** ** Interleavings *)

Inductive queue_request := qr_append (c : AuditPayloadChunk) | qr_read (limit : Z) | qr_prune (g : PayloadPruneGrant) | qr_snapshot.
Inductive queue_answer :=
| qa_append (r : AppendResult) | qa_read (l : list AuditPayloadChunk) | qa_prune (r : PruneResult) | qa_snapshot (s : PayloadQueueSnapshot).
Definition queue_serve (options : AuditPayloadQueueOptions) (req : queue_request) : async QueueWorld queue_answer :=
  match req with
  | qr_append c => let* r := append options c in aret (qa_append r)
  | qr_read limit => let* l := readBatch limit in aret (qa_read l)
  | qr_prune g => let* r := prune options g in aret (qa_prune r)
  | qr_snapshot => let* s := snapshot in aret (qa_snapshot s)
  end.
(** The page is closed and opened again, or another page appends. *)
Definition queue_turn (w w' : QueueWorld) : Prop := q_db w' = q_db w.

Section Durability.
Context (options : AuditPayloadQueueOptions).

(** A genuine grant whose evidence is complete allows the deletion of [n]. *)
Definition deletion_granted (n : Z) : Prop :=
  exists g, prunable g = true /\ pg_queueId g = qo_queueId options /\ verifyPruneGrant options g = inr true /\ n <= throughSequence g.
Definition survives (q q' : QueueState) : Prop :=
  q_next q <= q_next q' /\ forall c, c ∈ q_items q -> c ∈ q_items q' \/ deletion_granted (ch_sequence c).
Definition queue_ok (w : QueueWorld) : Prop := exists q, represents options q (q_db w).
Definition queue_evolves (w w' : QueueWorld) : Prop :=
  forall q, represents options q (q_db w) -> exists q', represents options q' (q_db w') /\ survives q q'.
Lemma survives_refl q : survives q q.
Proof. split; [done|]. by left. Qed.
Lemma survives_trans q1 q2 q3 : survives q1 q2 -> survives q2 q3 -> survives q1 q3.
Proof. intros [N1 H1] [N2 H2]. split; [lia|]. intros c [Hc|Hg]%H1; [by apply H2|by right]. Qed.
#[export] Instance queue_evolves_preorder : PreOrder queue_evolves.
Proof.
  split; [intros w q Hq; exists q; split; [done|apply survives_refl]|]. intros w1 w2 w3 H12 H23 q (q2 & Hq2 & S2)%H12.
  destruct (H23 q2 Hq2) as (q3 & Hq3 & S3). exists q3. split; [done|by eapply survives_trans].
Qed.

(** A stored or duplicate chunk is there, or its deletion was granted. *)
Definition kept_chunk (c : AuditPayloadChunk) (w : QueueWorld) : Prop :=
  deletion_granted (ch_sequence c) \/
  exists q c', represents options q (q_db w) /\ c' ∈ q_items q /\ ch_sequence c' = ch_sequence c /\ samePayload c' c = true.
Definition queue_promise (req : queue_request) (a : queue_answer) (w : QueueWorld) : Prop :=
  match req, a with qr_append c, qa_append (ap_stored | ap_duplicate) => kept_chunk c w | _, _ => True end.
Lemma kept_chunk_later c w w' : queue_evolves w w' -> kept_chunk c w -> kept_chunk c w'.
Proof.
  intros He [Hg|(q & c' & Hq & Hin & Es & Ep)]; [by left|]. destruct (He q Hq) as (q' & Hq' & [_ Hs]).
  destruct (Hs c' Hin) as [Hin'|Hg]; [right; by exists q', c'|left; by rewrite <- Es].
Qed.
Lemma spec_append_survives q c q' r : spec_append (qo_limits options) q c = (q', r) ->
  survives q q' /\ (r = ap_stored \/ r = ap_duplicate -> exists c', c' ∈ q_items q' /\ samePayload c' c = true /\
    (outOfOrder (q_first q) (q_items q) = false -> ch_sequence c' = ch_sequence c)).
Proof.
  unfold spec_append. intros E. destruct (_ <? q_first q) eqn:E1; [injection E as <- <-; split; [apply survives_refl|by intros [|]]|].
  destruct (q_items q !! _) as [p|] eqn:Ep.
  - injection E as <- <-. split; [apply survives_refl|]. destruct (samePayload p c) eqn:Es; [|by intros [|]]. intros _.
    exists p. split; [by eapply list_elem_of_lookup_2|]. split; [done|]. intros Ho. rewrite (ordered_at _ _ _ _ Ho Ep). lia.
  - destruct (_ <? ch_sequence c); [injection E as <- <-; split; [apply survives_refl|by intros [|]]|].
    destruct (fits _ _ _); injection E as <- <-; [|split; [apply survives_refl|by intros [|]]]. cbn [q_items]. split.
    + split; [unfold q_next; cbn [q_first q_items]; rewrite length_app; lia|]. intros x Hx. left. apply elem_of_app. by left.
    + intros _. exists c. split; [apply elem_of_app; right; by left|]. split; [|done].
      unfold samePayload. by rewrite str_eqb_refl, bool_decide_eq_true_2.
Qed.
Lemma spec_prune_survives q g q' r : queue_wf (qo_limits options) q ->
  prunable g = true -> pg_queueId g = qo_queueId options -> verifyPruneGrant options g = inr true ->
  spec_prune q g = (q', r) -> survives q q'.
Proof.
  intros Hwf H1 H2 H3 E. unfold spec_prune in E. destruct (negb _); [injection E as <- _; apply survives_refl|].
  destruct (_ && bool_decide _) eqn:Ec; injection E as <- _; [|apply survives_refl].
  assert (Hn : (Z.to_nat (throughSequence g - q_first q + 1) <= length (q_items q))%nat) by (unfold q_next in *; lia).
  split; [unfold q_next; cbn [q_first q_items]; rewrite length_drop; lia|]. cbn [q_items].
  intros c Hc. rewrite <- (take_drop (Z.to_nat (throughSequence g - q_first q + 1)) (q_items q)) in Hc.
  apply elem_of_app in Hc as [Hc|Hc]; [right|by left]. exists g. split_and!; [done..|].
  apply list_elem_of_lookup in Hc as [i Hi]. pose proof (lookup_lt_Some _ _ _ Hi) as Hl. rewrite length_take in Hl.
  rewrite lookup_take_lt in Hi by lia. rewrite (ordered_at _ _ _ _ (wf_order _ _ Hwf) Hi). lia.
Qed.

Abbreviation qspec := (spec queue_ok queue_evolves).
Lemma same_db w w' : q_db w' = q_db w -> queue_ok w -> queue_ok w' /\ queue_evolves w w'.
Proof. intros E. unfold queue_ok, queue_evolves. rewrite E. intros Hok. split; [done|]. intros q Hq. exists q. split; [done|apply survives_refl]. Qed.
(** Code that reads. *)
Lemma read_piece {A} (body : idb QueueDb A) w (Q : throws A -> QueueWorld -> Prop) :
  queue_ok w -> (forall d d' a, body d = (d', inr a) -> d' = d) -> (forall r w', Q r w') -> qspec (readwrite body) w Q.
Proof.
  intros Hok Hb HQ. split; [done|]. split; [cbn; reflexivity|]. cbn. intros w' Hok' _.
  destruct (committed body (q_db w')) as [d r] eqn:E. cbn [fst snd settles].
  assert (Ed : d = q_db w').
  { destruct r; [by apply committed_throws in E|]. apply (proj1 (committed_ok _ _ _ _)) in E. by eapply Hb. }
  subst d. destruct (same_db w' (set_q_db (q_db w') w') eq_refl Hok') as [H1 H2]. split_and!; [done..|apply HQ].
Qed.
Hypothesis Hcfg : payloadQueueLimitsValid (qo_limits options) = true.
Lemma append_spec c w : queue_ok w -> qspec (append options c) w (on_return (fun r w' => queue_promise (qr_append c) (qa_append r) w')).
Proof.
  intros Hok. unfold append. destruct (invalidChunk c) eqn:Ei; [apply spec_ret; [exact _|done|exact I]|]. destruct (tooLarge _ _); [apply spec_ret; [exact _|done|exact I]|].
  apply spec_read_bind. destruct (_ <=? _)%nat; [apply spec_ret; [exact _|done|exact I]|]. unfold pending_transaction.
  destruct (same_db w (mkQueueWorld (q_db w) (S (pendingAppends w))) eq_refl Hok) as [Hok1 He1].
  split; [done|]. split; [done|]. cbn [snd settles fst]. intros w' Hok' _.
  destruct (committed _ (q_db w')) as [d r] eqn:E. cbn [fst snd settles]. destruct r as [e|r].
  - apply committed_throws in E as ->. by destruct (same_db w' (mkQueueWorld (q_db w') (pred (pendingAppends w'))) eq_refl Hok').
  - apply (proj1 (committed_ok _ _ _ _)) in E. destruct Hok' as [q Hq].
    destruct (append_body_refines options Hcfg q _ _ _ _ Hq Ei E) as (q' & Es & Hq').
    destruct (spec_append_survives _ _ _ _ Es) as [Hs Hk]. split_and!; [by exists q'| |].
    + intros q0 Hq0. exists q'. split; [done|]. by rewrite (represents_unique options q0 q (q_db w')).
    + cbn [on_return queue_promise]. assert (Hkc : r = ap_stored \/ r = ap_duplicate -> kept_chunk c (mkQueueWorld d (pred (pendingAppends w')))).
      { intros Hr. destruct (Hk Hr) as (c' & Hin & Hp & Hseq). right. exists q', c'. split_and!; [done|done| |done].
        apply Hseq, (wf_order _ _ (rp_wf _ _ _ Hq)). }
      destruct r; auto.
Qed.
Lemma queue_prune_spec g w : queue_ok w -> qspec (prune options g) w (on_return (fun _ _ => True)).
Proof.
  intros Hok. unfold prune. destruct (_ || _) eqn:Eg; [apply spec_ret; [exact _|done|exact I]|].
  apply spec_await_bind; [exact _|done|]. intros w1 Hok1 _. destruct (verifyPruneGrant options g) as [e|genuine] eqn:Ev; [exact I|].
  destruct genuine; cbn [negb]; [|apply spec_ret; [exact _|done|exact I]].
  repeat match goal with F : _ || _ = false |- _ => apply orb_false_iff in F as [F ?] end.
  repeat match goal with F : negb _ = false |- _ => apply negb_false_iff in F end.
  match goal with F : str_eqb _ _ = true |- _ => apply str_eqb_eq in F; rename F into Eid end.
  split; [done|]. split; [cbn; reflexivity|]. cbn. intros w' Hok' _.
  destruct (committed _ (q_db w')) as [d [e|r]] eqn:E; cbn [fst snd settles on_return].
  - apply committed_throws in E as ->. by destruct (same_db w' (set_q_db (q_db w') w') eq_refl Hok').
  - apply (proj1 (committed_ok _ _ _ _)) in E. destruct Hok' as [q Hq].
    destruct (prune_body_refines options Hcfg q _ _ _ _ Hq E) as (q' & Es & Hq'). split_and!; [by exists q'| |done].
    intros q0 Hq0. exists q'. split; [done|]. rewrite (represents_unique options q0 q (q_db w')) by done.
    by eapply spec_prune_survives; [apply (rp_wf _ _ _ Hq)|..].
Qed.
Lemma queue_serve_ok req w : queue_ok w -> qspec (queue_serve options req) w (on_return (queue_promise req)).
Proof.
  intros Hok.
  assert (Hread : forall A (m : async QueueWorld A) f, qspec m w (fun _ _ => True) -> (forall a w', queue_promise req (f a) w') ->
    qspec (let* x := m in aret (f x)) w (on_return (queue_promise req))).
  { intros A m f Hm Hf. eapply spec_bind; [exact _|exact Hm| |done]. intros a w' Hok' _ _. apply spec_ret; [exact _|done|apply Hf]. }
  destruct req as [c|limit|g|]; cbn [queue_serve].
  - eapply spec_bind; [exact _|by apply append_spec| |done]. intros r w' Hok' _ Hp. apply spec_ret; [exact _|done|exact Hp].
  - apply Hread; [|done]. unfold readBatch. destruct (_ || _); [by apply spec_throw; [exact _|..]|].
    apply read_piece; [done| |done]. intros d d' a E. by idb_run E.
  - apply Hread; [|done]. eapply spec_weaken; [exact _|by apply queue_prune_spec|done].
  - apply Hread; [|done]. apply read_piece; [done| |done]. intros d d' a E. unfold metadata in E. idb_run E.
    destruct a1; [by idb_run E0|done].
Qed.
Lemma queue_turn_ok w w' : queue_ok w -> queue_turn w w' -> queue_ok w' /\ queue_evolves w w'.
Proof. intros Hok E. by apply same_db. Qed.
End Durability.

(** A stored chunk is not lost.  Any number of appends, reads and prunes of a
    queue, in any order and with any interleaving at their awaits, pages being
    closed and opened in between, keep the database one that opening accepts;
    and a chunk whose append was answered with [stored] or [duplicate] is in the
    queue with its payload, unless a genuine grant of the verifier with complete
    evidence covers its sequence number. *)
Theorem stored_chunks_survive options w0 p c r :
  payloadQueueLimitsValid (qo_limits options) = true -> (exists q, represents options q (q_db w0)) ->
  rtc (pool_step (queue_serve options) queue_turn) (mkPool w0 []) p ->
  (exists q, represents options q (q_db (Async.store p))) /\
  ((qr_append c, Finished (inr (qa_append r))) ∈ threads p -> r = ap_stored \/ r = ap_duplicate ->
   deletion_granted options (ch_sequence c) \/
   exists q c', represents options q (q_db (Async.store p)) /\ c' ∈ q_items q /\ ch_sequence c' = ch_sequence c /\
     samePayload c' c = true).
Proof.
  intros Hcfg Hok Hrun.
  destruct (pool_sound (queue_serve options) queue_turn (queue_ok options) (queue_evolves options) (fun req => on_return (queue_promise options req)))
    with (p := mkPool w0 ([] : list (queue_request * step QueueWorld queue_answer))) (p' := p) as [Hp _].
  - apply queue_turn_ok.
  - intros req w Hw. by apply queue_serve_ok.
  - intros req ans w w' _ He. destruct req as [c0| | |], ans as [|[r0| | |]]; cbn; try done. destruct r0; try done; by apply kept_chunk_later.
  - split; [done|constructor].
  - exact Hrun.
  - split; [apply Hp|]. intros Hin Hr. pose proof (pool_answer _ _ _ _ _ _ Hp Hin) as Ha. cbn in Ha. by destruct Hr as [-> | ->].
Qed.

(** ** A concrete queue *)

Definition toy_queue : AuditPayloadQueueOptions :=
  mkQueueOptions (js "replay") (js "queue") (mkLimits 1000 8 100 10) (fun g => inr (throughSequence g <=? 0)) None.
Definition toy_payload (n : Z) : AuditPayloadChunk := mkChunk n (repeat 97%N 64) [1%N; 2%N; 3%N].
Definition toy_prune : PayloadPruneGrant :=
  mkPruneGrant (js "queue") 2 0 (repeat 97%N 64) true true true false (js "signed").
Definition toy_queue_world : QueueWorld := mkQueueWorld (mkQueueDb (Some (meta_of toy_queue fresh_queue)) ∅) 0.
Definition toy_queue_pool : pool QueueWorld queue_request queue_answer :=
  serve_all (queue_serve toy_queue) [qr_append (toy_payload 0); qr_append (toy_payload 1); qr_prune toy_prune; qr_append (toy_payload 1)]
    (mkPool toy_queue_world []).
Lemma toy_limits_valid : payloadQueueLimitsValid (qo_limits toy_queue) = true.
Proof. reflexivity. Qed.
Lemma toy_represented : represents toy_queue fresh_queue (q_db toy_queue_world).
Proof. apply fresh_represented, toy_limits_valid. Qed.

Lemma payload_queue_refines_queue_witness :
  spec_append (qo_limits toy_queue) fresh_queue (toy_payload 0) = (mkQueueState 0 [toy_payload 0] 1, ap_stored) /\
  represents toy_queue (mkQueueState 0 [toy_payload 0] 1) (fst (committed (append_body toy_queue (toy_payload 0)) (q_db toy_queue_world))).
Proof.
  assert (Es : spec_append (qo_limits toy_queue) fresh_queue (toy_payload 0) = (mkQueueState 0 [toy_payload 0] 1, ap_stored))
    by (vm_compute; reflexivity).
  split; [exact Es|].
  destruct (payload_queue_refines_queue toy_queue fresh_queue (q_db toy_queue_world) toy_limits_valid toy_represented) as [Ha _].
  specialize (Ha (toy_payload 0) ltac:(vm_compute; reflexivity)). destruct (committed _ _) as [d' [e|r]].
  - destruct Ha as [_ Hf]. exfalso. apply Hf. reflexivity.
  - destruct Ha as (q' & Eq & Hq). rewrite Es in Eq. injection Eq as <- <-. exact Hq.
Defined.

Lemma queue_opens_exactly_queues_witness :
  let d := mkQueueDb None ∅ in
  configureAndValidate toy_queue d = (mkQueueDb (Some (meta_of toy_queue fresh_queue)) ∅, inr I).
Proof.
  apply (queue_opens_exactly_queues toy_queue (mkQueueDb None ∅)); [exact toy_limits_valid| |].
  - intros k c Hc. discriminate Hc.
  - right. split; [reflexivity|]. split; reflexivity.
Defined.

Lemma stored_chunks_survive_witness :
  (exists q, represents toy_queue q (q_db (Async.store toy_queue_pool))) /\
  exists q c', represents toy_queue q (q_db (Async.store toy_queue_pool)) /\ c' ∈ q_items q /\ ch_sequence c' = 1.
Proof.
  assert (Hrun : rtc (pool_step (queue_serve toy_queue) queue_turn) (mkPool toy_queue_world []) toy_queue_pool) by apply serve_all_runs.
  destruct (stored_chunks_survive toy_queue toy_queue_world toy_queue_pool (toy_payload 1) ap_stored toy_limits_valid
              (ex_intro _ _ toy_represented) Hrun) as [Hq Hkept].
  assert (Hat : threads toy_queue_pool !! 1%nat = Some (qr_append (toy_payload 1), Finished (inr (qa_append ap_stored))))
    by (vm_compute; reflexivity).
  split; [exact Hq|]. destruct Hkept as [(g & _ & _ & Hv & Hn)|(q & c' & H1 & H2 & H3 & _)].
  - by eapply list_elem_of_lookup_2.
  - left. reflexivity.
  - injection Hv as Hv. cbn in Hn. lia.
  - exists q, c'. split; [exact H1|]. split; [exact H2|exact H3].
Defined.
