(* ===== verification/PayloadPool.v ===== *)
(** * The shared payload pool of the client

    [web/src/audit/payload-pool.ts]: many queues share one database and one
    budget; a queue may reserve its whole log before a game starts.

    The store of the chunks has the key [[queueId, sequence]]; it is modelled as
    a map from queue ids to the chunks of the queue, so that the index
    [by_queue] is a lookup. *)
From Stdlib Require Import ZifyBool.
From stdpp Require Import gmap sorting.
From S2P Require Import Prelude Json Contracts Kernel Utf8 CryptoBackend EncounterWire Async IndexedDb PayloadQueue.
Set Default Goal Selector "!".

Definition MAX_SCOPES : Z := 1024.
Definition MAX_PENDING : nat := 4.

Record PayloadPoolSnapshot := mkPoolSnapshot {
  pp_usedBytes : Z;
  pp_itemCount : Z;
  queueCount : Z;
  pp_revision : Z;
  reservedPayloadBytes : Z;
  reservedItemCount : Z;
}.
Record PoolMetadata := mkPoolMetadata {
  pm_snapshot : PayloadPoolSnapshot;
  pm_limits : PayloadQueueLimits;
  pm_maxQueues : Z;
  (** The previous format has no reservations: both counters are absent, and
      [pm_snapshot] has zero for them. *)
  pm_legacy : bool;
}.
Record Capacity := mkCapacity { totalBytes : Z; totalItems : Z; remainingBytes : Z; remainingItems : Z }.
Record ScopeMetadata := mkScope {
  sm_snapshot : PayloadQueueSnapshot;
  sm_queueId : jsstr;
  sm_limits : PayloadQueueLimits;
  incarnation : Z;
  lastPrunedDigest : option jsstr;
  capacity : option Capacity;
}.
Record PoolDb := mkPoolDb {
  pool_meta : option PoolMetadata;
  pool_scopes : gmap jsstr ScopeMetadata;
  pool_chunks : gmap jsstr (gmap Z AuditPayloadChunk);
}.
(** The database, the state of the pool object and the closed handles. *)
Record PoolWorld := mkPoolWorld {
  p_db : PoolDb;
  pending : nat;
  pool_closed : bool;
  handles : nat;
  closed_handles : gset nat;
}.
Definition set_p_db (d : PoolDb) (w : PoolWorld) : PoolWorld :=
  mkPoolWorld d (pending w) (pool_closed w) (handles w) (closed_handles w).

Record PayloadPoolOptions := mkPoolOptions {
  po_name : jsstr;
  po_limits : PayloadQueueLimits;
  po_maxQueues : Z;
  po_injectWriteFault : option jsstr;
}.
Record PayloadScopeOptions := mkScopeOptions {
  so_queueId : jsstr;
  so_limits : PayloadQueueLimits;
  so_verifyPruneGrant : PayloadPruneGrant -> throws bool;
  so_verifyClosureGrant : option (PayloadScopeClosureGrant -> throws bool);
}.
(** What [openScope] returns: the methods of the queue over these. *)
Record PoolHandle := mkHandle { h_options : PayloadScopeOptions; h_incarnation : Z; h_id : nat }.
Inductive ReleaseResult := rl_released | rl_refused | rl_concurrent_write.

(** ** The stores *)

Definition chunks_of (q : jsstr) (d : PoolDb) : gmap Z AuditPayloadChunk := default ∅ (pool_chunks d !! q).
Definition put_pool (m : PoolMetadata) (d : PoolDb) : PoolDb := mkPoolDb (Some m) (pool_scopes d) (pool_chunks d).
Definition put_scope (s : ScopeMetadata) (d : PoolDb) : PoolDb :=
  mkPoolDb (pool_meta d) (<[sm_queueId s := s]> (pool_scopes d)) (pool_chunks d).
Definition delete_scope (q : jsstr) (d : PoolDb) : PoolDb := mkPoolDb (pool_meta d) (delete q (pool_scopes d)) (pool_chunks d).
Definition set_chunks (q : jsstr) (m : gmap Z AuditPayloadChunk) (d : PoolDb) : PoolDb :=
  mkPoolDb (pool_meta d) (pool_scopes d) (<[q := m]> (pool_chunks d)).
Definition add_stored (q : jsstr) (c : AuditPayloadChunk) : idb PoolDb True :=
  fun d => if bool_decide (is_Some (chunks_of q d !! ch_sequence c)) then (d, inl (js "ConstraintError"))
           else (set_chunks q (<[ch_sequence c := c]> (chunks_of q d)) d, inr I).
Definition delete_stored (q : jsstr) (l : list AuditPayloadChunk) (d : PoolDb) : PoolDb :=
  set_chunks q (delete_keys (map ch_sequence l) (chunks_of q d)) d.

Definition remaining_bytes (s : ScopeMetadata) : Z := match capacity s with Some c => remainingBytes c | None => 0 end.
Definition remaining_items (s : ScopeMetadata) : Z := match capacity s with Some c => remainingItems c | None => 0 end.
Definition with_snapshot (x : PayloadPoolSnapshot) (m : PoolMetadata) : PoolMetadata :=
  mkPoolMetadata x (pm_limits m) (pm_maxQueues m) (pm_legacy m).

Section Pool.
Context (options : PayloadPoolOptions).

Definition poolMetadata : idb PoolDb PoolMetadata :=
  let~ meta := iread pool_meta in
  match meta with Some m => iret m | None => ithrow (js "missing payload pool metadata") end.
Definition scoped (q : jsstr) (expected : Z) : idb PoolDb ScopeMetadata :=
  let~ found := iread (fun d => pool_scopes d !! q) in
  match found with
  | Some s => iguard (negb (incarnation s =? expected)) (js "queue released or generation changed") (iret s)
  | None => ithrow (js "queue released or generation changed")
  end.
(** The body is entered at the call, where it asks whether its handle is closed;
    its reads and writes run when the transaction starts. *)
Definition pool_transaction {A} (body : PoolWorld -> idb PoolDb A) : async PoolWorld A :=
  fun w => if pool_closed w then (w, Finished (inl (js "payload pool is closed")))
           else (w, Suspended (fun w' =>
                  let '(d, r) := committed (body w) (p_db w') in (set_p_db d w', Finished r))).
Definition close : async PoolWorld True :=
  fun w => (mkPoolWorld (p_db w) (pending w) true (handles w) (closed_handles w), Finished (inr I)).

Definition poolSnapshot : async PoolWorld PayloadPoolSnapshot :=
  pool_transaction (fun _ => let~ m := poolMetadata in iret (pm_snapshot m)).
Definition validId (q : jsstr) : bool := (0 <? slen q) && (slen q <=? 128).
Definition scopeSnapshot (q : jsstr) : async PoolWorld (option PayloadQueueSnapshot) :=
  refuse_if (negb (validId q)) (js "invalid scope ID") $
  pool_transaction (fun _ => iread (fun d => sm_snapshot <$> pool_scopes d !! q)).

(** ** Opening a scope *)

Definition new_capacity (reservation : option (Z * Z)) : option Capacity :=
  match reservation with Some (bytes, items) => Some (mkCapacity bytes items bytes items) | None => None end.
Definition reserved_bytes (reservation : option (Z * Z)) : Z := match reservation with Some (b, _) => b | None => 0 end.
Definition reserved_items (reservation : option (Z * Z)) : Z := match reservation with Some (_, n) => n | None => 0 end.
(** The part after the lookup: the scope is new, or is reserved while empty. *)
Definition register_scope (o : PayloadScopeOptions) (reservation : option (Z * Z)) (existing : option ScopeMetadata) : idb PoolDb Z :=
  let~ pool := poolMetadata in
  let x := pm_snapshot pool in
  iguard ((negb (bool_decide (is_Some existing)) && negb (registersScope (queueCount x) (pm_maxQueues pool))) ||
          (pp_revision x =? MAX_SAFE_INTEGER)) (js "payload pool queue capacity exhausted") $
  iguard (match reservation with
          | Some (bytes, items) => negb (reserves (pm_limits pool) (pp_usedBytes x) (pp_itemCount x) (reservedPayloadBytes x)
                                           (reservedItemCount x) bytes items)
          | None => false
          end) (js "payload reservation capacity exhausted") $
  let revision := pp_revision x + 1 in
  let scope := mkScope (mkSnapshot 0 0 0 0 revision) (so_queueId o) (so_limits o)
                 (match existing with Some s => incarnation s | None => revision end) None (new_capacity reservation) in
  let~ _ := iwrite (put_scope scope) in
  let~ _ := ifault (po_injectWriteFault options) in
  let~ _ := iwrite (put_pool (with_snapshot
    (mkPoolSnapshot (pp_usedBytes x) (pp_itemCount x) (queueCount x + if bool_decide (is_Some existing) then 0 else 1) revision
       (reservedPayloadBytes x + reserved_bytes reservation) (reservedItemCount x + reserved_items reservation)) pool)) in
  iret (incarnation scope).
Definition open_body (o : PayloadScopeOptions) (reservation : option (Z * Z)) : idb PoolDb Z :=
  let~ existing := iread (fun d => pool_scopes d !! so_queueId o) in
  match existing with
  | None => register_scope o reservation None
  | Some s =>
      iguard (negb (bool_decide (sm_limits s = so_limits o))) (js "payload scope configuration mismatch") $
      match reservation with
      | None => iret (incarnation s)
      | Some (bytes, items) =>
          match capacity s with
          | Some c => iguard (negb (totalBytes c =? bytes) || negb (totalItems c =? items))
                        (js "payload reservation configuration mismatch") (iret (incarnation s))
          | None => iguard (negb (ps_nextSequence (sm_snapshot s) =? 0)) (js "cannot reserve an already written payload scope") $
                    register_scope o reservation (Some s)
          end
      end
  end.
Definition new_handle (o : PayloadScopeOptions) (n : Z) : async PoolWorld PoolHandle :=
  fun w => (mkPoolWorld (p_db w) (pending w) (pool_closed w) (S (handles w)) (closed_handles w),
            Finished (inr (mkHandle o n (handles w)))).
Definition openScope (o : PayloadScopeOptions) (reservation : option (Z * Z)) : async PoolWorld PoolHandle :=
  refuse_if (negb (validId (so_queueId o)) || negb (payloadQueueLimitsValid (so_limits o)))
    (js "invalid payload scope configuration") $
  let* n := pool_transaction (fun _ => open_body o reservation) in
  new_handle o n.
Definition queue (o : PayloadScopeOptions) : async PoolWorld PoolHandle := openScope o None.
Definition reserve (o : PayloadScopeOptions) (bytes items : Z) : async PoolWorld PoolHandle :=
  refuse_if (negb (isTime bytes) || negb (isTime items) || (bytes <? 1) || (items <? 1) ||
             (maxBytes (so_limits o) - reservedBytes (so_limits o) <? bytes) || (maxItems (so_limits o) <? items))
    (js "invalid payload reservation configuration") $
  openScope o (Some (bytes, items)).

(** ** The methods of a handle *)

Section Handle.
Context (h : PoolHandle).
Abbreviation o := (h_options h).
Abbreviation q := (so_queueId (h_options h)).

(** [scope(tx)]. *)
Definition scope (w : PoolWorld) : idb PoolDb ScopeMetadata :=
  iguard (bool_decide (h_id h ∈ closed_handles w)) (js "payload scope is closed") $ scoped q (h_incarnation h).
Definition closeHandle : async PoolWorld True :=
  fun w => (mkPoolWorld (p_db w) (pending w) (pool_closed w) (handles w) ({[h_id h]} ∪ closed_handles w), Finished (inr I)).
Definition handleSnapshot : async PoolWorld PayloadQueueSnapshot :=
  pool_transaction (fun w => let~ s := scope w in iret (sm_snapshot s)).
Definition readHandle (limit : Z) : async PoolWorld (list AuditPayloadChunk) :=
  if negb (isTime limit) || (limit <? 1) || (MAX_BATCH <? limit) then athrow (js "invalid payload batch limit")
  else pool_transaction (fun w => let~ _ := scope w in iread (fun d => get_all (chunks_of q d) (Z.to_nat limit))).

(** The reservation after one more chunk; the last one gives the rest back. *)
Definition spend (bytes : Z) (c : Capacity) : Capacity :=
  mkCapacity (totalBytes c) (totalItems c) (if remainingItems c =? 1 then 0 else remainingBytes c - bytes) (remainingItems c - 1).
Definition released_bytes (bytes : Z) (credit : option Capacity) : Z :=
  match credit with Some c => if remainingItems c =? 1 then remainingBytes c else bytes | None => 0 end.
Definition pool_append_body (chunk : AuditPayloadChunk) (w : PoolWorld) : idb PoolDb AppendResult :=
  let bytes := byteSize chunk in
  let~ meta := scope w in
  let~ pool := poolMetadata in
  let s := sm_snapshot meta in
  let x := pm_snapshot pool in
  if ch_sequence chunk <? ps_firstSequence s then iret ap_pruned
  else if ch_sequence chunk <? ps_nextSequence s then
    let~ found := iread (fun d => chunks_of q d !! ch_sequence chunk) in
    match found with
    | None => ithrow (js "payload pool contains a gap")
    | Some old => iret (if samePayload old chunk then ap_duplicate else ap_conflict)
    end
  else if negb (ch_sequence chunk =? ps_nextSequence s) then iret ap_gap
  else if (pp_revision x =? MAX_SAFE_INTEGER) || (ps_nextSequence s =? MAX_SAFE_INTEGER) ||
          negb (admits (sm_limits meta) (ps_usedBytes s) (ps_itemCount s) bytes) then iret ap_backpressure
  else if match capacity meta with
          | Some c => (remainingItems c <? 1) || (remainingBytes c <? bytes)
          | None => negb (admits (pm_limits pool) (pp_usedBytes x + reservedPayloadBytes x) (pp_itemCount x + reservedItemCount x) bytes)
          end then iret ap_backpressure
  else
    let revision := pp_revision x + 1 in
    let~ _ := add_stored q chunk in
    let~ _ := ifault (po_injectWriteFault options) in
    let~ _ := iwrite (put_scope (mkScope
      (mkSnapshot (ps_usedBytes s + bytes) (ps_itemCount s + 1) (ps_firstSequence s) (ps_nextSequence s + 1) revision)
      (sm_queueId meta) (sm_limits meta) (incarnation meta) (lastPrunedDigest meta) (spend bytes <$> capacity meta))) in
    let~ _ := iwrite (put_pool (with_snapshot
      (mkPoolSnapshot (pp_usedBytes x + bytes) (pp_itemCount x + 1) (queueCount x) revision
         (reservedPayloadBytes x - released_bytes bytes (capacity meta))
         (reservedItemCount x - match capacity meta with Some _ => 1 | None => 0 end)) pool)) in
    iret ap_stored.
Definition pending_pool_transaction {A} (body : PoolWorld -> idb PoolDb A) : async PoolWorld A :=
  fun w => if pool_closed w then (w, Finished (inl (js "payload pool is closed")))
           else (mkPoolWorld (p_db w) (S (pending w)) (pool_closed w) (handles w) (closed_handles w), Suspended (fun w' =>
                  let '(d, r) := committed (body w) (p_db w') in
                  (mkPoolWorld d (pred (pending w')) (pool_closed w') (handles w') (closed_handles w'), Finished r))).
Definition poolAppend (input : AuditPayloadChunk) : async PoolWorld AppendResult :=
  if invalidChunk input then aret ap_invalid
  else
    let* n := read_store pending in
    if (MAX_PENDING <=? n)%nat || existsb (fun l => tooLarge l (byteSize input)) [so_limits o; po_limits options]
    then aret ap_backpressure
    else pending_pool_transaction (pool_append_body input).

(** ** Deleting *)

Definition without_scope (x : PayloadPoolSnapshot) (meta : ScopeMetadata) (bytes items revision : Z) : PayloadPoolSnapshot :=
  mkPoolSnapshot (pp_usedBytes x - bytes) (pp_itemCount x - items) (queueCount x - 1) revision
    (reservedPayloadBytes x - remaining_bytes meta) (reservedItemCount x - remaining_items meta).
Definition releaseEmpty_body (w : PoolWorld) : idb PoolDb ReleaseResult :=
  let~ meta := scope w in
  let~ pool := poolMetadata in
  let s := sm_snapshot meta in
  let x := pm_snapshot pool in
  if negb (ps_nextSequence s =? 0) || negb (ps_itemCount s =? 0) || negb (ps_usedBytes s =? 0) ||
     (pp_revision x =? MAX_SAFE_INTEGER) then iret rl_refused
  else
    let~ _ := iwrite (delete_scope q) in
    let~ _ := ifault (po_injectWriteFault options) in
    let~ _ := iwrite (put_pool (with_snapshot (without_scope x meta 0 0 (pp_revision x + 1)) pool)) in
    iret rl_released.
Definition releaseEmpty : async PoolWorld ReleaseResult := pool_transaction releaseEmpty_body.

Definition removeClosed_body (grant : PayloadScopeClosureGrant) (w : PoolWorld) : idb PoolDb ReleaseResult :=
  let~ meta := scope w in
  let~ pool := poolMetadata in
  let s := sm_snapshot meta in
  let x := pm_snapshot pool in
  if negb (ps_revision s =? cg_expectedRevision grant) then iret rl_concurrent_write
  else if negb (ps_nextSequence s =? cg_nextSequence grant) || (MAX_BATCH <? ps_itemCount s) ||
          (pp_revision x =? MAX_SAFE_INTEGER) then iret rl_refused
  else
    let~ chunks := iread (fun d => get_all (chunks_of q d) (Z.to_nat (MAX_BATCH + 1))) in
    iguard (negb (Z.of_nat (length chunks) =? ps_itemCount s) || outOfOrder (ps_firstSequence s) chunks)
      (js "invalid terminal payload scope") $
    let bytes := totalSize chunks in
    iguard (negb (bytes =? ps_usedBytes s) || (pp_usedBytes x <? bytes) || (pp_itemCount x <? ps_itemCount s) ||
            (reservedPayloadBytes x <? remaining_bytes meta) || (reservedItemCount x <? remaining_items meta) || (queueCount x <? 1))
      (js "invalid terminal payload accounting") $
    let~ _ := iwrite (delete_stored q chunks) in
    let~ _ := iwrite (delete_scope q) in
    let~ _ := ifault (po_injectWriteFault options) in
    let~ _ := iwrite (put_pool (with_snapshot (without_scope x meta bytes (ps_itemCount s) (pp_revision x + 1)) pool)) in
    iret rl_released.
Definition releaseClosed (grant : PayloadScopeClosureGrant) : async PoolWorld ReleaseResult :=
  match so_verifyClosureGrant o with
  | None => aret rl_refused
  | Some verify =>
      if negb (str_eqb (cg_queueId grant) q) || negb (isTime (cg_expectedRevision grant)) || negb (isTime (cg_nextSequence grant)) ||
         negb (isDigestText (closureId grant)) || (16384 <? slen (cg_authorization grant)) then aret rl_refused
      else
        let* genuine := await (verify grant) in
        if negb genuine then aret rl_refused else pool_transaction (removeClosed_body grant)
  end.

Definition release_body (grant : PayloadPruneGrant) (w : PoolWorld) : idb PoolDb ReleaseResult :=
  let~ meta := scope w in
  let~ pool := poolMetadata in
  let s := sm_snapshot meta in
  let x := pm_snapshot pool in
  if negb (ps_revision s =? pg_expectedRevision grant) then iret rl_concurrent_write
  else if pp_revision x =? MAX_SAFE_INTEGER then iret rl_refused
  else if negb (ps_itemCount s =? 0) || negb (ps_usedBytes s =? 0) || (ps_nextSequence s =? 0) ||
          negb (ps_firstSequence s =? ps_nextSequence s) || negb (throughSequence grant =? ps_nextSequence s - 1) ||
          negb (bool_decide (Some (throughCheckpointDigest grant) = lastPrunedDigest meta)) then iret rl_refused
  else
    let~ _ := iwrite (delete_scope q) in
    let~ _ := ifault (po_injectWriteFault options) in
    let~ _ := iwrite (put_pool (with_snapshot (without_scope x meta 0 0 (pp_revision x + 1)) pool)) in
    iret rl_released.
Definition pool_prune_body (grant : PayloadPruneGrant) (w : PoolWorld) : idb PoolDb PruneResult :=
  let~ meta := scope w in
  let~ pool := poolMetadata in
  let s := sm_snapshot meta in
  let x := pm_snapshot pool in
  if negb (ps_revision s =? pg_expectedRevision grant) then iret pr_concurrent_write
  else if pp_revision x =? MAX_SAFE_INTEGER then iret pr_refused
  else
    let revision := pp_revision x + 1 in
    let count := throughSequence grant - ps_firstSequence s + 1 in
    if (count <? 1) || (MAX_BATCH <? count) || (ps_nextSequence s <=? throughSequence grant) then iret pr_refused
    else
      let~ chunks := iread (fun d => get_all (chunks_of q d) (Z.to_nat count)) in
      if negb (Z.of_nat (length chunks) =? count) || outOfOrder (ps_firstSequence s) chunks ||
         negb (bool_decide (lastDigest chunks = Some (throughCheckpointDigest grant))) then iret pr_refused
      else
        let bytes := totalSize chunks in
        iguard ((ps_usedBytes s <? bytes) || (pp_usedBytes x <? bytes) || (pp_itemCount x <? count))
          (js "invalid payload pool accounting") $
        let~ _ := iwrite (delete_stored q chunks) in
        let~ _ := ifault (po_injectWriteFault options) in
        let~ _ := iwrite (put_scope (mkScope
          (mkSnapshot (ps_usedBytes s - bytes) (ps_itemCount s - count) (throughSequence grant + 1) (ps_nextSequence s) revision)
          (sm_queueId meta) (sm_limits meta) (incarnation meta) (Some (throughCheckpointDigest grant)) (capacity meta))) in
        let~ _ := iwrite (put_pool (with_snapshot
          (mkPoolSnapshot (pp_usedBytes x - bytes) (pp_itemCount x - count) (queueCount x) revision (reservedPayloadBytes x)
             (reservedItemCount x)) pool)) in
        iret pr_pruned.
Definition grantRefused (grant : PayloadPruneGrant) : bool :=
  (MAX_GRANT_CHARS <? slen (pg_authorization grant)) || negb (str_eqb (pg_queueId grant) q) ||
  negb (isTime (pg_expectedRevision grant)) || negb (isTime (throughSequence grant)) ||
  negb (isDigestText (throughCheckpointDigest grant)) || negb (prunable grant).
Definition poolPrune (grant : PayloadPruneGrant) : async PoolWorld PruneResult :=
  if grantRefused grant then aret pr_refused
  else
    let* genuine := await (so_verifyPruneGrant o grant) in
    if negb genuine then aret pr_refused else pool_transaction (pool_prune_body grant).
Definition release (grant : PayloadPruneGrant) : async PoolWorld ReleaseResult :=
  if grantRefused grant then aret rl_refused
  else
    let* genuine := await (so_verifyPruneGrant o grant) in
    if negb genuine then aret rl_refused else pool_transaction (release_body grant).
End Handle.

(** ** Opening the pool *)

Definition poolConfigured : bool :=
  (0 <? slen (po_name options)) && (slen (po_name options) <=? 256) && payloadQueueLimitsValid (po_limits options) &&
  isTime (po_maxQueues options) && (1 <=? po_maxQueues options) && (po_maxQueues options <=? MAX_SCOPES).
Definition chunk_count (d : PoolDb) : nat := foldr (fun qm n => size (snd qm) + n)%nat 0%nat (map_to_list (pool_chunks d)).
Definition poolMismatch (pool : PoolMetadata) : bool :=
  let x := pm_snapshot pool in
  negb (payloadQueueLimitsValid (pm_limits pool)) || negb (bool_decide (pm_limits pool = po_limits options)) ||
  negb (pm_maxQueues pool =? po_maxQueues options) ||
  negb (forallb isTime [pp_usedBytes x; pp_itemCount x; queueCount x; pp_revision x; reservedPayloadBytes x; reservedItemCount x]) ||
  (pm_maxQueues pool <? queueCount x) ||
  (maxBytes (pm_limits pool) - reservedBytes (pm_limits pool) <? pp_usedBytes x + reservedPayloadBytes x) ||
  (maxItems (pm_limits pool) <? pp_itemCount x + reservedItemCount x).
Definition scopeMismatch (pool : PoolMetadata) (meta : ScopeMetadata) : bool :=
  let s := sm_snapshot meta in
  negb (validId (sm_queueId meta)) || negb (payloadQueueLimitsValid (sm_limits meta)) ||
  negb (forallb isTime [ps_usedBytes s; ps_itemCount s; ps_firstSequence s; ps_nextSequence s; ps_revision s; incarnation meta]) ||
  (incarnation meta <? 1) || (ps_revision s <? incarnation meta) || (pp_revision (pm_snapshot pool) <? ps_revision s) ||
  negb (ps_nextSequence s - ps_firstSequence s =? ps_itemCount s) || (maxItems (sm_limits meta) <? ps_itemCount s) ||
  (maxBytes (sm_limits meta) - reservedBytes (sm_limits meta) <? ps_usedBytes s) ||
  ((0 <? ps_firstSequence s) && negb (match lastPrunedDigest meta with Some d => isDigestText d | None => false end)).
Definition capacityMismatch (meta : ScopeMetadata) : bool :=
  let s := sm_snapshot meta in
  match capacity meta with
  | None => false
  | Some c =>
      negb (forallb isTime [totalBytes c; totalItems c; remainingBytes c; remainingItems c]) ||
      (totalBytes c <? 1) || (totalItems c <? 1) || (maxBytes (sm_limits meta) - reservedBytes (sm_limits meta) <? totalBytes c) ||
      (maxItems (sm_limits meta) <? totalItems c) || (totalBytes c <? remainingBytes c) ||
      (totalBytes c <? ps_usedBytes s + remainingBytes c) || negb (remainingItems c + ps_nextSequence s =? totalItems c) ||
      ((remainingItems c =? 0) && negb (remainingBytes c =? 0))
  end.
(** The [for] over the scopes. *)
Fixpoint check_scopes (pool : PoolMetadata) (l : list ScopeMetadata) : throws True :=
  match l with
  | [] => inr I
  | meta :: l' =>
      throw_if (scopeMismatch pool meta) (js "invalid payload scope accounting") $
      throw_if (capacityMismatch meta) (js "invalid payload reservation accounting") $
      check_scopes pool l'
  end.
Definition sum_of (f : ScopeMetadata -> Z) (l : list ScopeMetadata) : Z := foldr (fun s n => f s + n) 0 l.

(** One entry of [expected]: the scope, the bytes seen and the next sequence. *)
Abbreviation ScanState := (gmap jsstr (ScopeMetadata * Z * Z)).
Definition unfinished (e : jsstr * (ScopeMetadata * Z * Z)) : bool :=
  let '(_, (meta, bytes, next)) := e in
  negb (next =? ps_nextSequence (sm_snapshot meta)) || negb (bytes =? ps_usedBytes (sm_snapshot meta)).
(** The cursor over the chunks. *)
Fixpoint scan_chunks (total : PoolMetadata) (expected : ScanState) (bytes items : Z) (l : list (jsstr * AuditPayloadChunk))
    : throws True :=
  let x := pm_snapshot total in
  match l with
  | [] => throw_if (negb (bytes =? pp_usedBytes x) || negb (items =? pp_itemCount x) || existsb unfinished (map_to_list expected))
            (js "payload pool retained usage mismatch") (inr I)
  | (q, chunk) :: l' =>
      match expected !! q with
      | None => inl (js "invalid retained pool chunk")
      | Some (meta, seen, next) =>
          throw_if (negb (ch_sequence chunk =? next) || (ps_nextSequence (sm_snapshot meta) <=? next) ||
                    negb (isDigestText (ch_checkpointDigest chunk)) || (byteSize chunk <? 1) ||
                    (maxItemBytes (sm_limits meta) <? byteSize chunk) || (maxItemBytes (pm_limits total) <? byteSize chunk) ||
                    (pp_itemCount x <=? items)) (js "invalid retained pool chunk") $
          throw_if ((pp_usedBytes x <? bytes + byteSize chunk) || (ps_usedBytes (sm_snapshot meta) <? seen + byteSize chunk))
            (js "payload pool byte mismatch") $
          scan_chunks total (<[q := (meta, seen + byteSize chunk, next + 1)]> expected) (bytes + byteSize chunk) (items + 1) l'
      end
  end.

(** Strings as keys are ordered by their code units. *)
Fixpoint units_leb (a b : list N) : bool :=
  match a, b with
  | [], _ => true
  | _ :: _, [] => false
  | x :: a', y :: b' => (x <? y)%N || (x =? y)%N && units_leb a' b'
  end.
Definition units_le (a b : jsstr) : Prop := units_leb a b = true.
#[export] Instance units_le_dec : RelDecision units_le.
Proof. intros a b. unfold units_le. apply _. Defined.
Definition sorted_ids {V} (m : gmap jsstr V) : list jsstr := merge_sort units_le (map fst (map_to_list m)).
Definition all_scopes (d : PoolDb) : list ScopeMetadata := omap (fun q => pool_scopes d !! q) (sorted_ids (pool_scopes d)).
Definition chunks_cursor (d : PoolDb) : list (jsstr * AuditPayloadChunk) :=
  flat_map (fun q => map (pair q) (get_all (chunks_of q d) (size (chunks_of q d)))) (sorted_ids (pool_chunks d)).
Definition first_state (s : ScopeMetadata) : ScopeMetadata * Z * Z := (s, 0, ps_firstSequence (sm_snapshot s)).

Definition stored_pool : idb PoolDb PoolMetadata :=
  let~ found := iread pool_meta in
  match found with
  | Some pool =>
      if pm_legacy pool then
        let pool := mkPoolMetadata (pm_snapshot pool) (pm_limits pool) (pm_maxQueues pool) false in
        let~ _ := iwrite (put_pool pool) in
        iret pool
      else iret pool
  | None =>
      let~ used := iread (fun d => negb (size (pool_scopes d) =? 0)%nat || negb (chunk_count d =? 0)%nat) in
      iguard used (js "orphaned payload pool data") $
      let pool := mkPoolMetadata (mkPoolSnapshot 0 0 0 0 0 0) (po_limits options) (po_maxQueues options) false in
      let~ _ := iwrite (put_pool pool) in
      iret pool
  end.
Definition validateStored (pool : PoolMetadata) : idb PoolDb True :=
  let x := pm_snapshot pool in
  iguard (poolMismatch pool) (js "payload pool configuration/accounting mismatch") $
  let~ scopes := iread (fun d => take (Z.to_nat (po_maxQueues options + 1)) (all_scopes d)) in
  iguard (negb (Z.of_nat (length scopes) =? queueCount x)) (js "payload pool scope count mismatch") $
  let~ _ := ithrows (check_scopes pool scopes) in
  iguard (negb (sum_of (fun s => ps_usedBytes (sm_snapshot s)) scopes =? pp_usedBytes x) ||
          negb (sum_of (fun s => ps_itemCount (sm_snapshot s)) scopes =? pp_itemCount x) ||
          negb (sum_of remaining_bytes scopes =? reservedPayloadBytes x) ||
          negb (sum_of remaining_items scopes =? reservedItemCount x))
    (js "payload pool usage mismatch (including reservations)") $
  let expected := list_to_map (map (fun s => (sm_queueId s, first_state s)) scopes) in
  let~ chunks := iread chunks_cursor in
  ithrows (scan_chunks pool expected 0 0 chunks).
Definition validate : idb PoolDb True :=
  let~ pool := stored_pool in
  validateStored pool.
(** [open]; a database without the three stores is refused. *)
Definition openPool (compatible : bool) : async PoolWorld True :=
  refuse_if (negb poolConfigured) (js "invalid payload pool configuration") $
  let* _ := await (inr I) in
  refuse_if (negb compatible)
    (js "legacy or incompatible payload database: use a separate pool name; retained data was not changed") $
  pool_transaction (fun _ => validate).
End Pool.
