(* ===== verification/PayloadPoolFacts.v ===== *)
(** * The accounting of the payload pool

    The invariant of the shared database: the counters of the pool are the sums
    over its scopes, every scope holds a queue of consecutive chunks, and what is
    used and what is reserved fit in the budget together.  Each transaction
    changes one scope; [pool_change] says when such a change keeps the
    invariant. *)
From Stdlib Require Import ZifyBool.
From stdpp Require Import gmap sorting.
From S2P Require Import Prelude Json Contracts Kernel Utf8 CryptoBackend EncounterWire Async IndexedDb PayloadQueue PayloadQueueFacts PayloadPool.
Set Default Goal Selector "!".

(** ** Sums over the scopes *)

Section Sums.
Context {V : Type}.
Implicit Types (f : V -> Z) (m : gmap jsstr V).

Definition map_sum f m : Z := map_fold (fun _ s n => f s + n) 0 m.
Definition value_of f (s : option V) : Z := match s with Some s => f s | None => 0 end.
Definition alter_scope (q : jsstr) (s : option V) m : gmap jsstr V := partial_alter (fun _ => s) q m.

Lemma map_sum_insert f q s m : m !! q = None -> map_sum f (<[q := s]> m) = f s + map_sum f m.
Proof. intros Hq. unfold map_sum. rewrite map_fold_insert_L; [done| |done]. intros. lia. Qed.
Lemma map_sum_delete f q s m : m !! q = Some s -> map_sum f m = f s + map_sum f (delete q m).
Proof. intros Hq. rewrite <- (insert_delete_id m q s Hq) at 1. apply map_sum_insert, lookup_delete_eq. Qed.
Lemma map_sum_alter f q s m : map_sum f (alter_scope q s m) = map_sum f m - value_of f (m !! q) + value_of f s.
Proof.
  unfold alter_scope. destruct s as [s|].
  - change (partial_alter (fun _ => Some s) q m) with (<[q := s]> m). destruct (m !! q) as [s0|] eqn:Hq.
    + rewrite (map_sum_delete f q s0 m Hq), <- insert_delete_eq, map_sum_insert by apply lookup_delete_eq. cbn. lia.
    + rewrite map_sum_insert by done. cbn. lia.
  - change (partial_alter (fun _ => None) q m) with (delete q m). destruct (m !! q) as [s0|] eqn:Hq.
    + rewrite (map_sum_delete f q s0 m Hq). cbn. lia.
    + rewrite delete_id by done. cbn. lia.
Qed.
Lemma map_sum_nonneg f m : (forall q s, m !! q = Some s -> 0 <= f s) -> 0 <= map_sum f m.
Proof.
  induction m as [|q s m Hq IH] using map_ind; intros Hf; [unfold map_sum; by rewrite map_fold_empty|].
  rewrite map_sum_insert by done. specialize (Hf q s (lookup_insert_eq m q s)) as Hs.
  assert (0 <= map_sum f m); [|lia]. apply IH. intros q' s' Hq'. apply (Hf q'). rewrite lookup_insert_ne; [done|congruence].
Qed.
Lemma map_sum_member f q s m : (forall q s, m !! q = Some s -> 0 <= f s) -> m !! q = Some s -> f s <= map_sum f m.
Proof.
  intros Hf Hq. rewrite (map_sum_delete f q s m Hq). assert (0 <= map_sum f (delete q m)); [|lia].
  apply map_sum_nonneg. intros q' s' [_ Hq']%lookup_delete_Some. by apply (Hf q').
Qed.
Lemma map_sum_size m : map_sum (fun _ => 1) m = Z.of_nat (size m).
Proof.
  induction m as [|q s m Hq IH] using map_ind; [unfold map_sum; by rewrite map_fold_empty, map_size_empty|].
  rewrite map_sum_insert, map_size_insert_None, IH by done. lia.
Qed.
Lemma alter_same q s m : alter_scope q s m !! q = s.
Proof. apply lookup_partial_alter_eq. Qed.
Lemma alter_other q q' s m : q <> q' -> alter_scope q s m !! q' = m !! q'.
Proof. apply lookup_partial_alter_ne. Qed.
End Sums.

(** ** The invariant *)

Definition snapshot_of (k : QueueState) : PayloadQueueSnapshot :=
  mkSnapshot (totalSize (q_items k)) (Z.of_nat (length (q_items k))) (q_first k) (q_next k) (q_revision k).
Definition used_bytes (s : ScopeMetadata) : Z := ps_usedBytes (sm_snapshot s).
Definition item_count (s : ScopeMetadata) : Z := ps_itemCount (sm_snapshot s).

(** The credit of a scope whose queue is [k]: what is left has never been
    spent. *)
Definition credit_ok (limits : PayloadQueueLimits) (k : QueueState) (credit : option Capacity) : Prop :=
  match credit with
  | None => True
  | Some c => 1 <= totalBytes c <= maxBytes limits - reservedBytes limits /\ 1 <= totalItems c <= maxItems limits /\
      0 <= remainingBytes c /\ 0 <= remainingItems c /\ totalSize (q_items k) + remainingBytes c <= totalBytes c /\
      remainingItems c + q_next k = totalItems c /\ (remainingItems c = 0 -> remainingBytes c = 0)
  end.
(** A scope of a pool with the limits [lim] at the revision [rev] holds [k]. *)
Record holds (lim : PayloadQueueLimits) (rev : Z) (q : jsstr) (s : ScopeMetadata) (m : gmap Z AuditPayloadChunk) (k : QueueState)
    : Prop := {
  hl_id : sm_queueId s = q;
  hl_valid : validId q = true;
  hl_limits : payloadQueueLimitsValid (sm_limits s) = true;
  hl_snapshot : sm_snapshot s = snapshot_of k;
  hl_run : run_of m (q_first k) (q_items k);
  hl_wf : queue_wf (sm_limits s) k;
  hl_chunks : Forall (fun c => byteSize c <= maxItemBytes lim) (q_items k);
  hl_incarnation : 1 <= incarnation s <= q_revision k;
  hl_revision : q_revision k <= rev;
  hl_digest : 0 < q_first k -> match lastPrunedDigest s with Some d => isDigestText d = true | None => False end;
  hl_credit : credit_ok (sm_limits s) k (capacity s);
}.
Definition scope_ok lim rev q s m : Prop := exists k, holds lim rev q s m k.

Section Invariant.
Context (options : PayloadPoolOptions).
Abbreviation limits := (po_limits options).

(** The counters [x] of the pool are the sums over the scopes [m]. *)
Record counts (x : PayloadPoolSnapshot) (m : gmap jsstr ScopeMetadata) : Prop := {
  ct_used : pp_usedBytes x = map_sum used_bytes m;
  ct_items : pp_itemCount x = map_sum item_count m;
  ct_reserved : reservedPayloadBytes x = map_sum remaining_bytes m;
  ct_ritems : reservedItemCount x = map_sum remaining_items m;
  ct_queues : queueCount x = Z.of_nat (size m);
}.
Record within_budget (x : PayloadPoolSnapshot) : Prop := {
  wb_queues : queueCount x <= po_maxQueues options;
  wb_bytes : pp_usedBytes x + reservedPayloadBytes x <= maxBytes limits - reservedBytes limits;
  wb_items : pp_itemCount x + reservedItemCount x <= maxItems limits;
  wb_revision : 0 <= pp_revision x <= MAX_SAFE_INTEGER;
}.
Record pool_rep (x : PayloadPoolSnapshot) (d : PoolDb) : Prop := {
  pr_meta : pool_meta d = Some (mkPoolMetadata x limits (po_maxQueues options) false);
  pr_counts : counts x (pool_scopes d);
  pr_budget : within_budget x;
  pr_scopes : forall q s, pool_scopes d !! q = Some s -> scope_ok limits (pp_revision x) q s (chunks_of q d);
  pr_orphans : forall q, pool_scopes d !! q = None -> chunks_of q d = ∅;
}.
Definition pool_accounted (d : PoolDb) : Prop := exists x, pool_rep x d.

Lemma scope_values lim rev q s m : scope_ok lim rev q s m ->
  0 <= used_bytes s /\ 0 <= item_count s /\ 0 <= remaining_bytes s /\ 0 <= remaining_items s.
Proof.
  intros [k Hk]. unfold used_bytes, item_count, remaining_bytes, remaining_items. rewrite (hl_snapshot _ _ _ _ _ _ Hk).
  pose proof (totalSize_nonneg (q_items k)). pose proof (hl_credit _ _ _ _ _ _ Hk) as Hc. unfold credit_ok in Hc.
  destruct (capacity s); cbn; lia.
Qed.
(** The part of the pool one scope accounts for. *)
Lemma scope_share x d q s : pool_rep x d -> pool_scopes d !! q = Some s ->
  used_bytes s <= pp_usedBytes x /\ item_count s <= pp_itemCount x /\ remaining_bytes s <= reservedPayloadBytes x /\
  remaining_items s <= reservedItemCount x /\ 1 <= queueCount x.
Proof.
  intros [_ [-> -> -> -> ->] _ Hs _] Hq.
  assert (Hv : forall q s, pool_scopes d !! q = Some s -> 0 <= used_bytes s /\ 0 <= item_count s /\ 0 <= remaining_bytes s /\ 0 <= remaining_items s)
    by (intros; eapply scope_values; eauto).
  split_and!; [apply (map_sum_member _ q); [|done]; intros; by apply (Hv q0)..|].
  rewrite <- map_sum_size. apply (map_sum_member (fun _ => 1) q s); [lia|done].
Qed.
Lemma sums_nonneg lim rev x m (chunks : jsstr -> gmap Z AuditPayloadChunk) :
  counts x m -> (forall q s, m !! q = Some s -> scope_ok lim rev q s (chunks q)) ->
  0 <= pp_usedBytes x /\ 0 <= pp_itemCount x /\ 0 <= reservedPayloadBytes x /\ 0 <= reservedItemCount x /\ 0 <= queueCount x.
Proof.
  intros [-> -> -> -> ->] Hs.
  assert (Hv : forall q s, m !! q = Some s -> 0 <= used_bytes s /\ 0 <= item_count s /\ 0 <= remaining_bytes s /\ 0 <= remaining_items s)
    by (intros; eapply scope_values; eauto).
  split_and!; [apply map_sum_nonneg; intros; by apply (Hv q)..|lia].
Qed.
Lemma pool_values x d : pool_rep x d ->
  0 <= pp_usedBytes x /\ 0 <= pp_itemCount x /\ 0 <= reservedPayloadBytes x /\ 0 <= reservedItemCount x /\ 0 <= queueCount x.
Proof. intros [_ Hc _ Hs _]. by apply (sums_nonneg limits (pp_revision x) x (pool_scopes d) (fun q => chunks_of q d)). Qed.
Lemma holds_later lim rev rev' q s m k : holds lim rev q s m k -> rev <= rev' -> holds lim rev' q s m k.
Proof. intros [] ?. split; try done. lia. Qed.

(** [d'] is [d] with the scope [q] as [new] and its chunks as [m]. *)
Record changed (q : jsstr) (new : option ScopeMetadata) (m : gmap Z AuditPayloadChunk) (x : PayloadPoolSnapshot) (d d' : PoolDb) : Prop := {
  cd_meta : pool_meta d' = Some (mkPoolMetadata x limits (po_maxQueues options) false);
  cd_scopes : pool_scopes d' = alter_scope q new (pool_scopes d);
  cd_chunks : chunks_of q d' = m;
  cd_others : forall q', q' <> q -> chunks_of q' d' = chunks_of q' d;
}.
Lemma pool_change q new m x x' d d' :
  pool_rep x d -> changed q new m x' d d' ->
  (let old := pool_scopes d !! q in
   pp_usedBytes x' = pp_usedBytes x - value_of used_bytes old + value_of used_bytes new /\
   pp_itemCount x' = pp_itemCount x - value_of item_count old + value_of item_count new /\
   reservedPayloadBytes x' = reservedPayloadBytes x - value_of remaining_bytes old + value_of remaining_bytes new /\
   reservedItemCount x' = reservedItemCount x - value_of remaining_items old + value_of remaining_items new /\
   queueCount x' = queueCount x - value_of (fun _ => 1) old + value_of (fun _ => 1) new) ->
  pp_revision x <= pp_revision x' -> within_budget x' ->
  match new with Some s => scope_ok limits (pp_revision x') q s m | None => m = ∅ end ->
  pool_rep x' d'.
Proof.
  intros [Hm [C1 C2 C3 C4 C5] Hb Hs Ho] [Dm Ds Dc Do] (E1 & E2 & E3 & E4 & E5) Hr Hb' Hnew. split; [done| |done| |].
  - rewrite Ds. split; [..|rewrite <- map_sum_size]; rewrite map_sum_alter; rewrite ?map_sum_size; lia.
  - intros q' s Hq'. rewrite Ds in Hq'. destruct (decide (q = q')) as [<-|Hne].
    + rewrite alter_same in Hq'. subst new. by rewrite Dc.
    + rewrite alter_other in Hq' by done. rewrite Do by done. destruct (Hs q' s Hq') as [k Hk]. exists k. by eapply holds_later.
  - intros q' Hq'. rewrite Ds in Hq'. destruct (decide (q = q')) as [<-|Hne].
    + rewrite alter_same in Hq'. subst new. by rewrite Dc.
    + rewrite alter_other in Hq' by done. rewrite Do by done. by apply Ho.
Qed.
End Invariant.

(** ** One transaction *)

(** A transaction of the queue [q]: the invariant holds after it, the other
    queues are as they were, and a chunk of [q] goes only if [granted]. *)
Record touches (options : PayloadPoolOptions) (q : jsstr) (granted : Z -> Prop) (d d' : PoolDb) : Prop := {
  tc_ok : pool_accounted options d';
  tc_scopes : forall q', q' <> q -> pool_scopes d' !! q' = pool_scopes d !! q';
  tc_chunks : forall q', q' <> q -> chunks_of q' d' = chunks_of q' d;
  tc_kept : forall n c, chunks_of q d !! n = Some c -> chunks_of q d' !! n = Some c \/ granted n;
}.
Lemma touches_same options q granted d : pool_accounted options d -> touches options q granted d d.
Proof. intros. by split; auto. Qed.
Lemma touches_weaken options q (granted granted' : Z -> Prop) d d' :
  touches options q granted d d' -> (forall n, granted n -> granted' n) -> touches options q granted' d d'.
Proof. intros [] Hw. split; [done..|]. naive_solver. Qed.
Lemma changed_touches options q granted new m x x' d d' :
  pool_rep options x' d' -> changed options q new m x d d' -> (forall n c, chunks_of q d !! n = Some c -> m !! n = Some c \/ granted n) ->
  touches options q granted d d'.
Proof.
  intros Hok [_ Ds Dc Do] Hk. split; [by eexists| |done|by rewrite Dc]. intros q' Hne. rewrite Ds. by apply alter_other.
Qed.
Lemma run_nothing {V} (m : gmap Z V) first : run_of m first [] -> m = ∅.
Proof. intros Hm. apply map_eq. intros k. rewrite (Hm k), lookup_empty. by destruct (_ <=? _). Qed.
Lemma run_in_order lim rev q s m k n : holds lim rev q s m k -> outOfOrder (q_first k) (take n (q_items k)) = false.
Proof. intros Hk. apply ordered_take, (wf_order _ _ (hl_wf _ _ _ _ _ _ Hk)). Qed.
Lemma chunks_of_set q q' m d : chunks_of q' (set_chunks q m d) = if bool_decide (q' = q) then m else chunks_of q' d.
Proof.
  unfold chunks_of, set_chunks. cbn [pool_chunks]. case_bool_decide as E; [subst; by rewrite lookup_insert_eq|].
  by rewrite lookup_insert_ne by congruence.
Qed.
Lemma wf_revise l f i r r' : queue_wf l (mkQueueState f i r) -> 0 <= r' <= MAX_SAFE_INTEGER -> queue_wf l (mkQueueState f i r').
Proof. intros [] ?. by split. Qed.

Section Transactions.
Context (options : PayloadPoolOptions).
Abbreviation limits := (po_limits options).
Abbreviation pool_rep := (pool_rep options).
Abbreviation changed := (changed options).
Abbreviation touches := (touches options).
Abbreviation pool_of x := (mkPoolMetadata x limits (po_maxQueues options) false).

Lemma poolMetadata_ok x d d' m : pool_rep x d -> poolMetadata d = (d', inr m) -> d' = d /\ m = pool_of x.
Proof.
  intros Hx E. unfold poolMetadata in E. idb_run E. rewrite (pr_meta _ _ _ Hx) in *. subst. idb_run E. by subst.
Qed.
Lemma scope_found h w d d' s : scope h w d = (d', inr s) ->
  d' = d /\ pool_scopes d !! so_queueId (h_options h) = Some s /\ incarnation s = h_incarnation h /\ h_id h ∉ closed_handles w.
Proof.
  intros E. unfold scope, scoped in E. idb_run E. destruct a as [s'|] eqn:Es; [|done]. idb_run E. subst.
  apply bool_decide_eq_false in G. split_and!; [done|done|lia|done].
Qed.
(** The first lines of every method of a handle. *)
Lemma method_start {A} h w x d (body : ScopeMetadata -> PoolMetadata -> idb PoolDb A) r :
  pool_rep x d -> (let~ meta := scope h w in let~ pool := poolMetadata in body meta pool) d = r -> forall d' a, r = (d', inr a) ->
  exists s k, pool_scopes d !! so_queueId (h_options h) = Some s /\
    holds limits (pp_revision x) (so_queueId (h_options h)) s (chunks_of (so_queueId (h_options h)) d) k /\
    body s (pool_of x) d = (d', inr a).
Proof.
  intros Hx E d' a ->. apply ibind_ok in E as (d1 & s & E1 & E). apply scope_found in E1 as (-> & Hs & _).
  apply ibind_ok in E as (d1 & m & E1 & E). apply (poolMetadata_ok x) in E1 as [-> ->]; [|done].
  destruct (pr_scopes _ _ _ Hx _ _ Hs) as [k Hk]. by exists s, k.
Qed.

(** Deleting a scope with its chunks gives its share back. *)
Lemma scope_removed x d d' q s bytes items :
  pool_rep x d -> pool_scopes d !! q = Some s -> pp_revision x <> MAX_SAFE_INTEGER -> bytes = used_bytes s -> items = item_count s ->
  changed q None ∅ (without_scope x s bytes items (pp_revision x + 1)) d d' ->
  pool_rep (without_scope x s bytes items (pp_revision x + 1)) d'.
Proof.
  intros Hx Hs Hrev -> -> Hd. eapply pool_change; [exact Hx|exact Hd| | | |done].
  - rewrite Hs. cbn. lia.
  - cbn. lia.
  - pose proof (scope_share _ _ _ _ _ Hx Hs). destruct (pr_budget _ _ _ Hx) as [B1 B2 B3 B4].
    pose proof (scope_values _ _ _ _ _ (pr_scopes _ _ _ Hx _ _ Hs)). split; cbn; lia.
Qed.
Lemma empty_deleted x x' d q s k :
  pool_scopes d !! q = Some s -> holds limits (pp_revision x) q s (chunks_of q d) k -> q_items k = [] ->
  changed q None ∅ x' d (put_pool (pool_of x') (delete_scope q d)).
Proof.
  intros Hs Hk Hi. split; [done|done| |done]. pose proof (hl_run _ _ _ _ _ _ Hk) as Hr. rewrite Hi in Hr.
  apply (run_nothing _ _ Hr).
Qed.
Lemma empty_removed granted x q s k d :
  pool_rep x d -> pool_scopes d !! q = Some s -> holds limits (pp_revision x) q s (chunks_of q d) k ->
  pp_revision x <> MAX_SAFE_INTEGER -> q_items k = [] ->
  touches q granted d (put_pool (pool_of (without_scope x s 0 0 (pp_revision x + 1))) (delete_scope q d)).
Proof.
  intros Hx Hs Hk Hr Hi. pose proof (empty_deleted x (without_scope x s 0 0 (pp_revision x + 1)) d q s k Hs Hk Hi) as Hd.
  eapply changed_touches; [|exact Hd|].
  - eapply scope_removed; [exact Hx|exact Hs|lia| | |exact Hd]; unfold used_bytes, item_count;
      rewrite (hl_snapshot _ _ _ _ _ _ Hk); cbn; by rewrite Hi.
  - intros n c Hn. by rewrite (run_nothing _ (q_first k)) in Hn; [|rewrite <- Hi; apply (hl_run _ _ _ _ _ _ Hk)].
Qed.

(** The first [count] chunks of a queue are deleted. *)
Definition pruned_scope (s : ScopeMetadata) (k : QueueState) (count revision : Z) (digest : jsstr) : ScopeMetadata :=
  mkScope (mkSnapshot (totalSize (q_items k) - totalSize (take (Z.to_nat count) (q_items k))) (Z.of_nat (length (q_items k)) - count)
             (q_first k + count) (q_next k) revision)
    (sm_queueId s) (sm_limits s) (incarnation s) (Some digest) (capacity s).
Definition pruned_counts (x : PayloadPoolSnapshot) (bytes count : Z) : PayloadPoolSnapshot :=
  mkPoolSnapshot (pp_usedBytes x - bytes) (pp_itemCount x - count) (queueCount x) (pp_revision x + 1) (reservedPayloadBytes x)
    (reservedItemCount x).
Lemma pruned_holds rev q s m k count digest : holds limits rev q s m k -> 1 <= count <= Z.of_nat (length (q_items k)) ->
  isDigestText digest = true -> rev < MAX_SAFE_INTEGER ->
  holds limits (rev + 1) q (pruned_scope s k count (rev + 1) digest) (delete_keys (map ch_sequence (take (Z.to_nat count) (q_items k))) m)
    (mkQueueState (q_first k + count) (drop (Z.to_nat count) (q_items k)) (rev + 1)).
Proof.
  intros Hk Hc Hd Hr. pose proof Hk as [K1 K2 K3 K4 K5 K6 K7 K8 K9 K10 K11]. pose proof (wf_revision _ _ K6) as Hrev.
  pose proof (wf_first _ _ K6) as Hfirst.
  assert (En : q_next (mkQueueState (q_first k + count) (drop (Z.to_nat count) (q_items k)) (rev + 1)) = q_next k)
    by (unfold q_next; cbn [q_first q_items]; rewrite length_drop; lia).
  pose proof (totalSize_split (Z.to_nat count) (q_items k)) as Hsplit. pose proof (totalSize_nonneg (take (Z.to_nat count) (q_items k))).
  split; try done; cbn [pruned_scope sm_limits sm_queueId incarnation lastPrunedDigest capacity sm_snapshot].
  - unfold snapshot_of. rewrite En. cbn [q_items q_first q_revision]. rewrite length_drop. f_equal; lia.
  - cbn [q_first q_items]. rewrite (ordered_keys (q_first k)) by (by eapply run_in_order). rewrite length_take, Nat.min_l by lia.
    replace count with (Z.of_nat (Z.to_nat count)) at 2 by lia. apply run_drop; [done|lia].
  - replace (q_first k + count) with (q_first k + Z.of_nat (Z.to_nat count)) by lia.
    eapply wf_revise; [|split; [lia|]]; [apply wf_drop; [by destruct K6; split|lia|]|]; lia.
  - by apply Forall_drop.
  - cbn [q_revision]. lia.
  - unfold credit_ok in *. rewrite En. cbn [q_items]. destruct (capacity s); [|done]. lia.
Qed.
Lemma pruned_touches x s k count digest q d :
  pool_rep x d -> pool_scopes d !! q = Some s -> holds limits (pp_revision x) q s (chunks_of q d) k ->
  1 <= count <= Z.of_nat (length (q_items k)) -> isDigestText digest = true -> pp_revision x <> MAX_SAFE_INTEGER ->
  let chunks := take (Z.to_nat count) (q_items k) in
  touches q (fun n => n < q_first k + count) d
    (put_pool (pool_of (pruned_counts x (totalSize chunks) count))
       (put_scope (pruned_scope s k count (pp_revision x + 1) digest) (delete_stored q chunks d))).
Proof.
  intros Hx Hs Hk Hc Hd Hr chunks. pose proof (wb_revision _ _ (pr_budget _ _ _ Hx)) as Hb.
  pose proof (pruned_holds _ _ _ _ _ _ _ Hk Hc Hd ltac:(lia)) as Hk'.
  assert (Hch : changed q (Some (pruned_scope s k count (pp_revision x + 1) digest)) (delete_keys (map ch_sequence chunks) (chunks_of q d))
    (pruned_counts x (totalSize chunks) count) d
    (put_pool (pool_of (pruned_counts x (totalSize chunks) count)) (put_scope (pruned_scope s k count (pp_revision x + 1) digest) (delete_stored q chunks d)))).
  { split; [done| | |].
    - cbn. by rewrite (hl_id _ _ _ _ _ _ Hk).
    - change (chunks_of q (delete_stored q chunks d) = delete_keys (map ch_sequence chunks) (chunks_of q d)).
      unfold delete_stored. by rewrite chunks_of_set, bool_decide_eq_true_2.
    - intros q' Hne. change (chunks_of q' (delete_stored q chunks d) = chunks_of q' d).
      unfold delete_stored. by rewrite chunks_of_set, bool_decide_eq_false_2. }
  eapply changed_touches; [|exact Hch|].
  - eapply pool_change; [exact Hx|exact Hch| | | |by eexists].
    + rewrite Hs. cbn. unfold used_bytes, item_count, remaining_bytes, remaining_items. cbn. rewrite (hl_snapshot _ _ _ _ _ _ Hk).
      cbn. fold chunks. lia.
    + cbn. lia.
    + pose proof (totalSize_nonneg chunks). destruct (pr_budget _ _ _ Hx) as [B1 B2 B3 B4]. split; cbn; lia.
  - intros n c Hn. rewrite lookup_delete_keys. case_bool_decide as Hin; [right|by left].
    apply list_elem_of_fmap in Hin as (c' & -> & Hin). apply list_elem_of_lookup in Hin as [i Hi].
    rewrite (ordered_at _ _ _ _ (run_in_order _ _ _ _ _ _ _ Hk) Hi). apply lookup_lt_Some in Hi. unfold chunks in Hi. rewrite length_take in Hi. lia.
Qed.

(** The next chunk of a queue is stored. *)
Definition credit_covers (x : PayloadPoolSnapshot) (s : ScopeMetadata) (bytes : Z) : bool :=
  match capacity s with
  | Some c => negb ((remainingItems c <? 1) || (remainingBytes c <? bytes))
  | None => admits limits (pp_usedBytes x + reservedPayloadBytes x) (pp_itemCount x + reservedItemCount x) bytes
  end.
Definition appended_scope (s : ScopeMetadata) (k : QueueState) (revision bytes : Z) : ScopeMetadata :=
  mkScope (mkSnapshot (totalSize (q_items k) + bytes) (Z.of_nat (length (q_items k)) + 1) (q_first k) (q_next k + 1) revision)
    (sm_queueId s) (sm_limits s) (incarnation s) (lastPrunedDigest s) (spend bytes <$> capacity s).
Definition appended_counts (x : PayloadPoolSnapshot) (s : ScopeMetadata) (bytes : Z) : PayloadPoolSnapshot :=
  mkPoolSnapshot (pp_usedBytes x + bytes) (pp_itemCount x + 1) (queueCount x) (pp_revision x + 1)
    (reservedPayloadBytes x - released_bytes bytes (capacity s))
    (reservedItemCount x - match capacity s with Some _ => 1 | None => 0 end).
Lemma credit_spent l k c credit : credit_ok l k (Some credit) -> 1 <= remainingItems credit -> byteSize c <= remainingBytes credit ->
  forall k', q_next k' = q_next k + 1 -> totalSize (q_items k') = totalSize (q_items k) + byteSize c ->
  credit_ok l k' (Some (spend (byteSize c) credit)).
Proof.
  intros Hc H1 H2 k' En Et. unfold credit_ok, spend in *. cbn. assert (0 <= byteSize c) by (unfold byteSize; lia).
  destruct (remainingItems credit =? 1) eqn:E; lia.
Qed.
Lemma appended_holds rev q s m k c : holds limits rev q s m k -> invalidChunk c = false -> ch_sequence c = q_next k ->
  admits (sm_limits s) (totalSize (q_items k)) (Z.of_nat (length (q_items k))) (byteSize c) = true ->
  byteSize c <= maxItemBytes limits -> q_next k <> MAX_SAFE_INTEGER -> rev < MAX_SAFE_INTEGER ->
  match capacity s with Some credit => 1 <= remainingItems credit /\ byteSize c <= remainingBytes credit | None => True end ->
  holds limits (rev + 1) q (appended_scope s k (rev + 1) (byteSize c)) (<[ch_sequence c := c]> m)
    (mkQueueState (q_first k) (q_items k ++ [c]) (rev + 1)).
Proof.
  intros Hk Hc Hseq (_ & _ & A1 & A2 & A3)%admits_spec Hb Hn Hr Hcredit. pose proof Hk as [K1 K2 K3 K4 K5 K6 K7 K8 K9 K10 K11].
  pose proof (wf_revision _ _ K6) as Hrev. pose proof (wf_next _ _ K6) as Hnext.
  assert (Hd : isDigestText (ch_checkpointDigest c) = true) by (unfold invalidChunk in Hc; by destruct (isDigestText _); [|cbn in Hc; lia]).
  assert (Et : totalSize (q_items k ++ [c]) = totalSize (q_items k) + byteSize c) by (rewrite totalSize_app; cbn; lia).
  assert (En : q_next (mkQueueState (q_first k) (q_items k ++ [c]) (rev + 1)) = q_next k + 1)
    by (unfold q_next; cbn [q_first q_items]; rewrite length_app; cbn; lia).
  split; try done; cbn [appended_scope sm_limits sm_queueId incarnation lastPrunedDigest capacity sm_snapshot].
  - unfold snapshot_of. rewrite En. cbn [q_items q_first q_revision]. rewrite length_app, Et. cbn [length]. f_equal; lia.
  - cbn [q_first q_items]. rewrite Hseq. by apply run_snoc.
  - eapply wf_revise; [apply (wf_snoc (sm_limits s) (mkQueueState (q_first k) (q_items k) (q_revision k)) c)|lia];
      [by destruct K6; split|done|lia|done|]. unfold fits. cbn [q_items q_revision q_next]. change (q_next _) with (q_next k). lia.
  - apply Forall_app. split; [done|]. by constructor.
  - cbn [q_revision]. lia.
  - destruct (capacity s) as [credit|]; [|done]. cbn [fmap option_fmap option_map]. apply (credit_spent _ k); [done|lia|lia|done|done].
Qed.
Lemma appended_touches granted x s k c q d :
  pool_rep x d -> pool_scopes d !! q = Some s -> holds limits (pp_revision x) q s (chunks_of q d) k ->
  invalidChunk c = false -> ch_sequence c = q_next k ->
  admits (sm_limits s) (totalSize (q_items k)) (Z.of_nat (length (q_items k))) (byteSize c) = true ->
  byteSize c <= maxItemBytes limits -> q_next k <> MAX_SAFE_INTEGER -> pp_revision x <> MAX_SAFE_INTEGER ->
  credit_covers x s (byteSize c) = true ->
  touches q granted d
    (put_pool (pool_of (appended_counts x s (byteSize c)))
       (put_scope (appended_scope s k (pp_revision x + 1) (byteSize c)) (set_chunks q (<[ch_sequence c := c]> (chunks_of q d)) d))).
Proof.
  intros Hx Hs Hk Hc Hseq Ha Hb Hn Hr Hcov. pose proof (wb_revision _ _ (pr_budget _ _ _ Hx)) as Hrev.
  assert (Hcredit : match capacity s with Some credit => 1 <= remainingItems credit /\ byteSize c <= remainingBytes credit | None => True end).
  { unfold credit_covers in Hcov. destruct (capacity s); [lia|done]. }
  pose proof (appended_holds _ _ _ _ _ _ Hk Hc Hseq Ha Hb Hn ltac:(lia) Hcredit) as Hk'.
  assert (Hch : changed q (Some (appended_scope s k (pp_revision x + 1) (byteSize c))) (<[ch_sequence c := c]> (chunks_of q d))
    (appended_counts x s (byteSize c)) d
    (put_pool (pool_of (appended_counts x s (byteSize c)))
       (put_scope (appended_scope s k (pp_revision x + 1) (byteSize c)) (set_chunks q (<[ch_sequence c := c]> (chunks_of q d)) d)))).
  { split; [done| | |].
    - cbn. by rewrite (hl_id _ _ _ _ _ _ Hk).
    - change (chunks_of q (set_chunks q (<[ch_sequence c := c]> (chunks_of q d)) d) = <[ch_sequence c := c]> (chunks_of q d)).
      by rewrite chunks_of_set, bool_decide_eq_true_2.
    - intros q' Hne. change (chunks_of q' (set_chunks q (<[ch_sequence c := c]> (chunks_of q d)) d) = chunks_of q' d).
      by rewrite chunks_of_set, bool_decide_eq_false_2. }
  eapply changed_touches; [|exact Hch|].
  - eapply pool_change; [exact Hx|exact Hch| | | |by eexists].
    + rewrite Hs. cbn. unfold used_bytes, item_count, remaining_bytes, remaining_items, spend, released_bytes. cbn.
      rewrite (hl_snapshot _ _ _ _ _ _ Hk). cbn. destruct (capacity s) as [credit|]; cbn; [|lia].
      destruct (remainingItems credit =? 1) eqn:E1; lia.
    + cbn. lia.
    + destruct (pr_budget _ _ _ Hx) as [B1 B2 B3 B4]. assert (0 <= byteSize c) by (unfold byteSize; lia).
      unfold credit_covers in Hcov. unfold appended_counts, released_bytes. destruct (capacity s) as [credit|].
      * split; cbn; destruct (remainingItems credit =? 1) eqn:E1; lia.
      * apply (proj1 (admits_spec _ _ _ _)) in Hcov. split; cbn; lia.
  - intros n c0 Hn0. left. rewrite lookup_insert_ne; [done|]. intros <-. assert (Hkey : is_Some (chunks_of q d !! ch_sequence c)) by eauto.
    apply (run_key _ _ _ _ (hl_run _ _ _ _ _ _ Hk)) in Hkey. unfold q_next in *. lia.
Qed.

Section Handle.
Context (h : PoolHandle).
Abbreviation q := (so_queueId (h_options h)).

Lemma releaseEmpty_touches granted x w d d' r : pool_rep x d -> releaseEmpty_body options h w d = (d', inr r) -> touches q granted d d'.
Proof.
  intros Hx E. unfold releaseEmpty_body in E. eapply method_start in E as (s & k & Hs & Hk & E); [|done..]. cbv beta zeta in E.
  rewrite (hl_snapshot _ _ _ _ _ _ Hk) in E. cbn [snapshot_of ps_nextSequence ps_itemCount ps_usedBytes pm_snapshot] in E.
  destruct (_ || _) eqn:Eg; [idb_run E; subst; apply touches_same; by exists x|]. idb_run E.
  assert (Hi : q_items k = []) by (destruct (q_items k); [done|cbn in Eg; lia]).
  apply (empty_removed _ x q s k); [done..|lia|done].
Qed.
Lemma release_touches granted g x w d d' r : pool_rep x d -> release_body options h g w d = (d', inr r) -> touches q granted d d'.
Proof.
  intros Hx E. unfold release_body in E. eapply method_start in E as (s & k & Hs & Hk & E); [|done..]. cbv beta zeta in E.
  rewrite (hl_snapshot _ _ _ _ _ _ Hk) in E. cbn [snapshot_of ps_nextSequence ps_itemCount ps_usedBytes pm_snapshot ps_firstSequence ps_revision] in E.
  destruct (negb _) in E; [idb_run E; subst; apply touches_same; by exists x|].
  destruct (_ =? MAX_SAFE_INTEGER) eqn:Er; [idb_run E; subst; apply touches_same; by exists x|].
  destruct (_ || _) eqn:Eg; [idb_run E; subst; apply touches_same; by exists x|]. idb_run E.
  assert (Hi : q_items k = []) by (destruct (q_items k); [done|cbn in Eg; lia]).
  apply (empty_removed _ x q s k); [done..|lia|done].
Qed.
Lemma prune_touches g x w d d' r : pool_rep x d -> isDigestText (throughCheckpointDigest g) = true ->
  pool_prune_body options h g w d = (d', inr r) -> touches q (fun n => n <= throughSequence g) d d'.
Proof.
  intros Hx Hg E. unfold pool_prune_body in E. eapply method_start in E as (s & k & Hs & Hk & E); [|done..]. cbv beta zeta in E.
  rewrite (hl_snapshot _ _ _ _ _ _ Hk) in E.
  cbn [snapshot_of ps_nextSequence ps_itemCount ps_usedBytes pm_snapshot ps_firstSequence ps_revision] in E.
  destruct (negb _) in E; [idb_run E; subst; apply touches_same; by exists x|].
  destruct (_ =? MAX_SAFE_INTEGER) eqn:Er; [idb_run E; subst; apply touches_same; by exists x|].
  set (count := throughSequence g - q_first k + 1) in *.
  destruct (_ || _) eqn:Eg in E; [idb_run E; subst; apply touches_same; by exists x|]. idb_run E. subst a.
  rewrite (get_all_run _ _ _ _ (hl_run _ _ _ _ _ _ Hk)) in E.
  destruct (_ || _) eqn:Ec in E; [idb_run E; subst; apply touches_same; by exists x|]. idb_run E. subst r.
  rewrite length_take in Ec. pose proof (wf_first _ _ (hl_wf _ _ _ _ _ _ Hk)).
  assert (Ht := pruned_touches x s k count _ _ _ Hx Hs Hk ltac:(lia) Hg ltac:(lia)). cbv zeta in Ht. unfold pruned_scope in Ht.
  replace (q_first k + count) with (throughSequence g + 1) in Ht by lia.
  eapply touches_weaken; [exact Ht|]. cbv beta. lia.
Qed.
Lemma removeClosed_touches g x w d d' r : pool_rep x d ->
  removeClosed_body options h g w d = (d', inr r) -> touches q (fun n => n < cg_nextSequence g) d d'.
Proof.
  intros Hx E. unfold removeClosed_body in E. eapply method_start in E as (s & k & Hs & Hk & E); [|done..]. cbv beta zeta in E.
  rewrite (hl_snapshot _ _ _ _ _ _ Hk) in E.
  cbn [snapshot_of ps_nextSequence ps_itemCount ps_usedBytes pm_snapshot ps_firstSequence ps_revision] in E.
  destruct (negb _) in E; [idb_run E; subst; apply touches_same; by exists x|].
  destruct (_ || _) eqn:Eg in E; [idb_run E; subst; apply touches_same; by exists x|]. idb_run E. subst a.
  rewrite (get_all_run _ _ _ _ (hl_run _ _ _ _ _ _ Hk)) in *. unfold MAX_BATCH in *. rewrite take_ge in * by lia. idb_run E.
  set (x' := without_scope x s (totalSize (q_items k)) (Z.of_nat (length (q_items k))) (pp_revision x + 1)).
  assert (Hd : changed q None ∅ x' d (put_pool (pool_of x') (delete_scope q (delete_stored q (q_items k) d)))).
  { split; [done|done| |].
    - change (chunks_of q (delete_stored q (q_items k) d) = ∅). unfold delete_stored. rewrite chunks_of_set, bool_decide_eq_true_2 by done.
      rewrite (ordered_keys (q_first k)) by apply (wf_order _ _ (hl_wf _ _ _ _ _ _ Hk)). eapply run_nothing.
      pose proof (run_drop _ _ _ (length (q_items k)) (hl_run _ _ _ _ _ _ Hk) ltac:(lia)) as Hr. rewrite drop_all in Hr. exact Hr.
    - intros q' Hne. change (chunks_of q' (delete_stored q (q_items k) d) = chunks_of q' d).
      unfold delete_stored. by rewrite chunks_of_set, bool_decide_eq_false_2. }
  eapply changed_touches; [|exact Hd|].
  - eapply scope_removed; [exact Hx|exact Hs|lia| | |exact Hd]; unfold used_bytes, item_count; by rewrite (hl_snapshot _ _ _ _ _ _ Hk).
  - intros n c Hn. right. assert (Hkey : is_Some (chunks_of q d !! n)) by eauto.
    apply (run_key _ _ _ _ (hl_run _ _ _ _ _ _ Hk)) in Hkey. unfold q_next in *. lia.
Qed.
(** What the answer to an append says about the database. *)
Definition holds_chunk (q : jsstr) (c : AuditPayloadChunk) (d : PoolDb) : Prop :=
  exists c', chunks_of q d !! ch_sequence c = Some c' /\ samePayload c' c = true.
Lemma append_touches granted c x w d d' r : pool_rep x d -> invalidChunk c = false -> byteSize c <= maxItemBytes limits ->
  pool_append_body options h c w d = (d', inr r) ->
  touches q granted d d' /\ (r = ap_stored \/ r = ap_duplicate -> holds_chunk q c d').
Proof.
  intros Hx Hc Hb E. unfold pool_append_body in E. cbv zeta in E. eapply method_start in E as (s & k & Hs & Hk & E); [|done..].
  cbv beta zeta in E. rewrite (hl_snapshot _ _ _ _ _ _ Hk) in E.
  cbn [snapshot_of ps_nextSequence ps_itemCount ps_usedBytes pm_snapshot pm_limits ps_firstSequence ps_revision] in E.
  assert (Hsame : touches q granted d d) by (apply touches_same; by exists x).
  destruct (_ <? q_first k) eqn:E1; [idb_run E; subst; split; [done|by intros [|]]|].
  destruct (_ <? q_next k) eqn:E2.
  { idb_run E. destruct a as [old|] eqn:Eo; [|done]. idb_run E. subst. split; [done|]. destruct (samePayload old c) eqn:Ep; [|by intros [|]].
    intros _. by exists old. }
  destruct (negb _) eqn:E3 in E; [idb_run E; subst; split; [done|by intros [|]]|].
  destruct (_ || _) eqn:E4 in E; [idb_run E; subst; split; [done|by intros [|]]|].
  destruct (match capacity s with Some _ => _ | None => _ end) eqn:E5 in E; [idb_run E; subst; split; [done|by intros [|]]|].
  idb_run E. unfold add_stored in *. case_bool_decide as Hn; [done|].
  match goal with F : (_, inr I) = _ |- _ => apply pair_equal_spec in F as [<- _] end. subst.
  split.
  - apply (appended_touches granted x s k c); try done; try lia. unfold credit_covers. destruct (capacity s); lia.
  - intros _. exists c. split; [|unfold samePayload; by rewrite str_eqb_refl, bool_decide_eq_true_2].
    change (chunks_of q (set_chunks q (<[ch_sequence c := c]> (chunks_of q d)) d) !! ch_sequence c = Some c).
    rewrite chunks_of_set, bool_decide_eq_true_2 by done. apply lookup_insert_eq.
Qed.
End Handle.

(** ** Registering a scope *)

Definition reservation_ok (l : PayloadQueueLimits) (reservation : option (Z * Z)) : Prop :=
  match reservation with Some (b, n) => 1 <= b <= maxBytes l - reservedBytes l /\ 1 <= n <= maxItems l | None => True end.
Definition new_scope (o : PayloadScopeOptions) (reservation : option (Z * Z)) (existing : option ScopeMetadata) (revision : Z) : ScopeMetadata :=
  mkScope (mkSnapshot 0 0 0 0 revision) (so_queueId o) (so_limits o)
    (match existing with Some s => incarnation s | None => revision end) None (new_capacity reservation).
Lemma new_holds o reservation existing rev m : validId (so_queueId o) = true -> payloadQueueLimitsValid (so_limits o) = true ->
  reservation_ok (so_limits o) reservation -> 0 <= rev < MAX_SAFE_INTEGER ->
  match existing with Some s => 1 <= incarnation s <= rev | None => True end -> m = ∅ ->
  holds limits (rev + 1) (so_queueId o) (new_scope o reservation existing (rev + 1)) m (mkQueueState 0 [] (rev + 1)).
Proof.
  intros Hv Hl Hres Hr Hi ->. assert (Hl' := Hl). unfold payloadQueueLimitsValid, forallb, is_int in Hl'.
  split; try done; cbn [new_scope sm_limits incarnation capacity q_revision].
  - apply run_nil.
  - split; cbn [q_first q_items q_revision length totalSize foldr]; try (unfold q_next; cbn); try lia; done.
  - destruct existing; lia.
  - unfold new_capacity, reservation_ok in *. destruct reservation as [[b n]|]; [|done]. cbn. unfold q_next. cbn. lia.
Qed.
Lemma register_touches granted o reservation existing x d d' n :
  pool_rep x d -> validId (so_queueId o) = true -> payloadQueueLimitsValid (so_limits o) = true -> reservation_ok (so_limits o) reservation ->
  pool_scopes d !! so_queueId o = existing ->
  match existing with Some s => ps_nextSequence (sm_snapshot s) = 0 /\ capacity s = None | None => True end ->
  register_scope options o reservation existing d = (d', inr n) -> touches (so_queueId o) granted d d'.
Proof.
  intros Hx Hv Hl Hres Hex Hempty E. unfold register_scope in E. apply ibind_ok in E as (d1 & m & E1 & E).
  apply (poolMetadata_ok x) in E1 as [-> ->]; [|done]. cbv zeta in E. cbn [pm_snapshot pm_limits pm_maxQueues] in E. idb_run E. subst n.
  set (x' := mkPoolSnapshot _ _ _ _ _ _) in *. fold (new_scope o reservation existing (pp_revision x + 1)).
  pose proof (pr_budget _ _ _ Hx) as [B1 B2 B3 B4]. pose proof (pool_values _ _ _ Hx) as Hvals.
  assert (Hold : chunks_of (so_queueId o) d = ∅ /\ value_of used_bytes existing = 0 /\ value_of item_count existing = 0 /\
    value_of remaining_bytes existing = 0 /\ value_of remaining_items existing = 0 /\
    match existing with Some s => 1 <= incarnation s <= pp_revision x | None => True end).
  { destruct existing as [s|]; [|split_and!; try done; by apply (pr_orphans _ _ _ Hx)].
    destruct (pr_scopes _ _ _ Hx _ _ Hex) as [k Hk]. destruct Hempty as [Hnext Hcap].
    pose proof (wf_first _ _ (hl_wf _ _ _ _ _ _ Hk)). pose proof (hl_incarnation _ _ _ _ _ _ Hk). pose proof (hl_revision _ _ _ _ _ _ Hk).
    rewrite (hl_snapshot _ _ _ _ _ _ Hk) in Hnext. cbn in Hnext. unfold q_next in Hnext.
    assert (Hi : q_items k = []) by (destruct (q_items k); [done|cbn in Hnext; lia]).
    unfold value_of, used_bytes, item_count, remaining_bytes, remaining_items. rewrite Hcap, (hl_snapshot _ _ _ _ _ _ Hk). cbn. rewrite Hi.
    split_and!; try done; try lia. apply (run_nothing _ (q_first k)). rewrite <- Hi. apply (hl_run _ _ _ _ _ _ Hk). }
  destruct Hold as (Hm & V1 & V2 & V3 & V4 & Hinc).
  assert (Hch : changed (so_queueId o) (Some (new_scope o reservation existing (pp_revision x + 1))) (chunks_of (so_queueId o) d) x' d
    (put_pool (pool_of x') (put_scope (new_scope o reservation existing (pp_revision x + 1)) d))) by (by split).
  assert (Hx' : within_budget options x').
  { assert (Hreg : match existing with None => queueCount x < po_maxQueues options | Some _ => True end).
    { destruct existing; [done|]. unfold registersScope, player_local_payload_scope_registration_allowed in *.
      cbn in G |- *. lia. }
    destruct reservation as [[b k]|].
    - assert (Hrs : reserves limits (pp_usedBytes x) (pp_itemCount x) (reservedPayloadBytes x) (reservedItemCount x) b k = true) by lia.
      apply (proj1 (reserves_spec _ _ _ _ _ _ _)) in Hrs. split; cbn; destruct existing; cbn in *; lia.
    - split; cbn; destruct existing; cbn in *; lia. }
  eapply changed_touches; [|exact Hch|by left].
  eapply pool_change; [exact Hx|exact Hch| | |exact Hx'|].
  - cbv zeta. rewrite Hex, V1, V2, V3, V4. unfold remaining_bytes, remaining_items, new_capacity. cbn.
    destruct reservation as [[b k]|], existing; cbn; lia.
  - cbn. lia.
  - eexists. apply new_holds; [done..|lia|done|done].
Qed.
Lemma open_touches granted o reservation x d d' n : pool_rep x d -> validId (so_queueId o) = true ->
  payloadQueueLimitsValid (so_limits o) = true -> reservation_ok (so_limits o) reservation ->
  open_body options o reservation d = (d', inr n) -> touches (so_queueId o) granted d d'.
Proof.
  intros Hx Hv Hl Hres E. unfold open_body in E. apply ibind_ok in E as (d1 & ex & E1 & E). idb_run E1.
  assert (Hsame : touches (so_queueId o) granted d d) by (apply touches_same; by exists x).
  destruct ex as [s|] eqn:Ex; [|by eapply register_touches].
  idb_run E. destruct reservation as [[b k]|]; [|idb_run E; by subst].
  destruct (capacity s) as [c|] eqn:Ec; [idb_run E; by subst|]. idb_run E.
  eapply register_touches; [exact Hx|done..|split; [lia|done]|exact E].
Qed.
End Transactions.
