(* ===== verification/PayloadPoolSafety.v ===== *)
(** * What the payload pool guarantees

    Under any interleaving of the queues that share a pool: its accounting stays
    right and within the budget; a stored chunk stays until a genuine grant for
    its queue; and the credit a queue has reserved cannot be used up by the
    others. *)
From Stdlib Require Import ZifyBool.
From stdpp Require Import gmap sorting.
From S2P Require Import Prelude Json Contracts Kernel Utf8 CryptoBackend EncounterWire Async IndexedDb PayloadQueue PayloadQueueFacts PayloadPool PayloadPoolFacts.
Set Default Goal Selector "!".

(** A handle as the application holds it; the verifiers are the queue's. *)
Record handle_ref := mkRef { hr_queue : jsstr; hr_limits : PayloadQueueLimits; hr_incarnation : Z; hr_id : nat }.
Inductive payload_request :=
| pq_validate
| pq_snapshot
| pq_scopeSnapshot (q : jsstr)
| pq_queue (q : jsstr) (l : PayloadQueueLimits)
| pq_reserve (q : jsstr) (l : PayloadQueueLimits) (bytes items : Z)
| pq_handleSnapshot (h : handle_ref)
| pq_read (h : handle_ref) (limit : Z)
| pq_append (h : handle_ref) (c : AuditPayloadChunk)
| pq_prune (h : handle_ref) (g : PayloadPruneGrant)
| pq_release (h : handle_ref) (g : PayloadPruneGrant)
| pq_releaseEmpty (h : handle_ref)
| pq_releaseClosed (h : handle_ref) (g : PayloadScopeClosureGrant)
| pq_closeHandle (h : handle_ref)
| pq_close.
Inductive payload_answer := pa_append (r : AppendResult) | pa_other.
(** The queue a request may write. *)
Definition target (req : payload_request) : option jsstr :=
  match req with
  | pq_queue q _ | pq_reserve q _ _ _ => Some q
  | pq_append h _ | pq_prune h _ | pq_release h _ | pq_releaseEmpty h | pq_releaseClosed h _ => Some (hr_queue h)
  | _ => None
  end.

Section Safety.
Context (options : PayloadPoolOptions).
Context (verify_prune : jsstr -> PayloadPruneGrant -> throws bool).
Context (verify_closure : jsstr -> option (PayloadScopeClosureGrant -> throws bool)).

Definition scope_options (q : jsstr) (l : PayloadQueueLimits) : PayloadScopeOptions :=
  mkScopeOptions q l (verify_prune q) (verify_closure q).
Definition to_handle (h : handle_ref) : PoolHandle :=
  mkHandle (scope_options (hr_queue h) (hr_limits h)) (hr_incarnation h) (hr_id h).
Definition other {A} (m : async PoolWorld A) : async PoolWorld payload_answer := let* _ := m in aret pa_other.
Definition pool_serve (req : payload_request) : async PoolWorld payload_answer :=
  match req with
  | pq_validate => other (openPool options true)
  | pq_snapshot => other poolSnapshot
  | pq_scopeSnapshot q => other (scopeSnapshot q)
  | pq_queue q l => other (queue options (scope_options q l))
  | pq_reserve q l bytes items => other (reserve options (scope_options q l) bytes items)
  | pq_handleSnapshot h => other (handleSnapshot (to_handle h))
  | pq_read h limit => other (readHandle (to_handle h) limit)
  | pq_append h c => let* r := poolAppend options (to_handle h) c in aret (pa_append r)
  | pq_prune h g => other (poolPrune options (to_handle h) g)
  | pq_release h g => other (release options (to_handle h) g)
  | pq_releaseEmpty h => other (releaseEmpty options (to_handle h))
  | pq_releaseClosed h g => other (releaseClosed options (to_handle h) g)
  | pq_closeHandle h => other (closeHandle (to_handle h))
  | pq_close => other close
  end.
(** Pages are closed and opened; the database stays. *)
Definition pool_turn (w w' : PoolWorld) : Prop := p_db w' = p_db w.

(** A genuine prune grant with complete evidence, or a genuine closure of the
    whole queue, covers the chunk [n] of [q]. *)
Definition deletable (q : jsstr) (n : Z) : Prop :=
  (exists g, prunable g = true /\ pg_queueId g = q /\ verify_prune q g = inr true /\ n <= throughSequence g) \/
  (exists g verify, verify_closure q = Some verify /\ cg_queueId g = q /\ verify g = inr true /\ n < cg_nextSequence g).

Definition sound (w : PoolWorld) : Prop := pool_accounted options (p_db w).
(** The queues in [S] are left alone; the others keep their chunks. *)
Definition evolves (S : jsstr -> Prop) (w w' : PoolWorld) : Prop :=
  (forall q n c, chunks_of q (p_db w) !! n = Some c -> chunks_of q (p_db w') !! n = Some c \/ deletable q n) /\
  (forall q, S q -> pool_scopes (p_db w') !! q = pool_scopes (p_db w) !! q /\ chunks_of q (p_db w') = chunks_of q (p_db w)).
#[export] Instance evolves_preorder S : PreOrder (evolves S).
Proof.
  split; [intros w; split; auto|]. intros w1 w2 w3 [K1 S1] [K2 S2]. split.
  - intros q n c [H|H]%K1; [by apply K2|by right].
  - intros q Hq. destruct (S2 q Hq) as [-> ->]. by apply S1.
Qed.
Section Frame.
Context (S : jsstr -> Prop).
Abbreviation pspec := (spec sound (evolves S)).

Lemma same_pool w w' : p_db w' = p_db w -> sound w -> sound w' /\ evolves S w w'.
Proof. intros E. unfold sound, evolves. rewrite E. intros Hok. split; [done|]. split; auto. Qed.
Lemma touches_evolves q d w w' : ~ S q -> p_db w' = d -> touches options q (deletable q) (p_db w) d -> sound w' /\ evolves S w w'.
Proof.
  intros Hq <- [Hok Ts Tc Tk]. split; [done|]. split.
  - intros q' n c Hn. destruct (decide (q' = q)) as [->|Hne]; [by apply Tk|left; by rewrite Tc].
  - intros q' Hq'. assert (q' <> q) by (by intros ->). split; [by apply Ts|by apply Tc].
Qed.
(** A transaction of the queue [q]. *)
Lemma transaction_spec {A} q (body : PoolWorld -> idb PoolDb A) w :
  ~ S q -> sound w ->
  (forall w x d d' a, pool_rep options x d -> body w d = (d', inr a) -> touches options q (deletable q) d d') ->
  pspec (pool_transaction body) w (fun _ _ => True).
Proof.
  intros Hq Hok Hb. unfold pool_transaction. destruct (pool_closed w) eqn:Ec.
  { unfold spec. rewrite Ec. split; [done|]. split; [cbn; reflexivity|done]. }
  unfold spec. rewrite Ec. split; [done|]. split; [cbn; reflexivity|]. cbn [fst snd settles]. intros w' Hok' _.
  destruct (committed (body w) (p_db w')) as [d [e|a]] eqn:E; cbn [fst snd settles].
  - apply committed_throws in E as ->. by destruct (same_pool w' (set_p_db (p_db w') w') eq_refl Hok').
  - apply (proj1 (committed_ok _ _ _ _)) in E. destruct Hok' as [x Hx].
    destruct (touches_evolves q d w' (set_p_db d w') Hq eq_refl) as [H1 H2]; [by eapply Hb|]. done.
Qed.
Lemma read_spec {A} (body : PoolWorld -> idb PoolDb A) w :
  sound w -> (forall w x d d' a, pool_rep options x d -> body w d = (d', inr a) -> d' = d) ->
  pspec (pool_transaction body) w (fun _ _ => True).
Proof.
  intros Hok Hb. unfold pool_transaction. destruct (pool_closed w) eqn:Ec.
  { unfold spec. rewrite Ec. split; [done|]. split; [cbn; reflexivity|done]. }
  unfold spec. rewrite Ec. split; [done|]. split; [cbn; reflexivity|]. cbn [fst snd settles]. intros w' Hok' _.
  destruct (committed (body w) (p_db w')) as [d r] eqn:E; cbn [fst snd settles].
  assert (d = p_db w') as ->.
  { destruct r; [by apply committed_throws in E|]. apply (proj1 (committed_ok _ _ _ _)) in E. destruct Hok' as [x Hx]. by eapply Hb. }
  by destruct (same_pool w' (set_p_db (p_db w') w') eq_refl Hok').
Qed.
Lemma other_spec {A} (m : async PoolWorld A) w Q : pspec m w (fun _ _ => True) -> (forall w', Q (inr pa_other) w') ->
  (forall e w', Q (inl e) w') -> pspec (other m) w Q.
Proof.
  intros Hm Hr He. eapply spec_bind; [exact _|exact Hm| |auto]. intros a w' Hok' _ _. apply spec_ret; [exact _|done|apply Hr].
Qed.
Lemma openScope_spec o reservation w : ~ S (so_queueId o) -> reservation_ok (so_limits o) reservation -> sound w ->
  pspec (openScope options o reservation) w (fun _ _ => True).
Proof.
  intros Hq Hres Hok. unfold openScope. destruct (_ || _) eqn:Eg; [by apply spec_throw; [exact _|..]|]. cbn [refuse_if].
  eapply spec_bind; [exact _| |intros a w' Hok' _ _|done].
  - apply (transaction_spec (so_queueId o)); [done..|]. intros _ x d d' a Hx E. apply orb_false_iff in Eg as [G1 G2].
    eapply open_touches; [exact Hx|by apply negb_false_iff in G1|by apply negb_false_iff in G2|done|exact E].
  - destruct (same_pool w' (mkPoolWorld (p_db w') (pending w') (pool_closed w') (Datatypes.S (handles w')) (closed_handles w')) eq_refl Hok').
    by split.
Qed.
Lemma prune_grant_deletable h g : grantRefused (to_handle h) g = false -> verify_prune (hr_queue h) g = inr true ->
  isDigestText (throughCheckpointDigest g) = true /\ forall n, n <= throughSequence g -> deletable (hr_queue h) n.
Proof.
  intros E Hv. unfold grantRefused in E.
  repeat match goal with F : _ || _ = false |- _ => apply orb_false_iff in F as [F ?] end.
  repeat match goal with F : negb _ = false |- _ => apply negb_false_iff in F end.
  match goal with F : str_eqb _ _ = true |- _ => apply str_eqb_eq in F; rename F into Eid end.
  split; [done|]. intros n Hn. left. by exists g.
Qed.
Lemma releaseClosed_spec h g w : ~ S (hr_queue h) -> sound w -> pspec (releaseClosed options (to_handle h) g) w (fun _ _ => True).
Proof.
  intros Hq Hok. unfold releaseClosed. cbn [to_handle h_options scope_options so_verifyClosureGrant so_queueId].
  destruct (verify_closure (hr_queue h)) as [verify|] eqn:Ev; [|by apply spec_ret; [exact _|..]].
  destruct (_ || _) eqn:Eg; [by apply spec_ret; [exact _|..]|]. apply spec_await_bind; [exact _|done|]. intros w1 Hok1 _.
  destruct (verify g) as [e|genuine] eqn:Er; [done|]. destruct genuine; cbn [negb]; [|by apply spec_ret; [exact _|..]].
  apply (transaction_spec (hr_queue h)); [done..|]. intros w2 x d d' a Hx E.
  eapply touches_weaken; [eapply (removeClosed_touches options (to_handle h)); [exact Hx|exact E]|].
  intros n Hn. right. exists g, verify. split_and!; [done| |done|done].
  repeat match goal with F : _ || _ = false |- _ => apply orb_false_iff in F as [F ?] end.
  apply negb_false_iff in Eg. by apply str_eqb_eq in Eg.
Qed.

(** ** The answer to an append *)

Definition chunk_kept (q : jsstr) (c : AuditPayloadChunk) (w : PoolWorld) : Prop :=
  deletable q (ch_sequence c) \/ holds_chunk q c (p_db w).
Definition append_promise (q : jsstr) (c : AuditPayloadChunk) (r : AppendResult) (w : PoolWorld) : Prop :=
  r = ap_stored \/ r = ap_duplicate -> chunk_kept q c w.
Lemma chunk_kept_later q c w w' : evolves S w w' -> chunk_kept q c w -> chunk_kept q c w'.
Proof.
  intros [K _] [H|(c' & Hc & Hs)]; [by left|]. destruct (K _ _ _ Hc) as [H|H]; [right; by exists c'|by left].
Qed.
Lemma poolAppend_spec h c w : ~ S (hr_queue h) -> sound w ->
  pspec (poolAppend options (to_handle h) c) w (on_return (append_promise (hr_queue h) c)).
Proof.
  intros Hq Hok. unfold poolAppend. destruct (invalidChunk c) eqn:Ei; [apply spec_ret; [exact _|done|by intros [|]]|].
  apply spec_read_bind. destruct (_ || _) eqn:Eb; [apply spec_ret; [exact _|done|by intros [|]]|].
  assert (Hb : byteSize c <= maxItemBytes (po_limits options)).
  { unfold tooLarge in Eb. cbn [existsb] in Eb. lia. }
  unfold pending_pool_transaction, spec. destruct (pool_closed w) eqn:Ec; [split; [done|]; split; [cbn; reflexivity|exact I]|].
  set (w1 := mkPoolWorld _ _ _ _ _). destruct (same_pool w w1 eq_refl Hok) as [H1 H2]. split; [done|]. split; [done|].
  cbn [fst snd settles]. intros w' Hok' _. destruct (committed _ (p_db w')) as [d [e|r]] eqn:E; cbn [fst snd settles].
  - apply committed_throws in E as ->. set (w2 := mkPoolWorld _ _ _ _ _). by destruct (same_pool w' w2 eq_refl Hok').
  - apply (proj1 (committed_ok _ _ _ _)) in E. destruct Hok' as [x Hx]. set (w2 := mkPoolWorld _ _ _ _ _).
    destruct (append_touches options (to_handle h) (deletable (hr_queue h)) c x w _ _ _ Hx Ei Hb E) as [Ht Hp].
    destruct (touches_evolves (hr_queue h) d w' w2 Hq eq_refl Ht) as [H3 H4]. split_and!; [done|done|].
    intros Hr. right. by apply Hp.
Qed.
End Frame.
Definition pool_promise (req : payload_request) (a : payload_answer) (w : PoolWorld) : Prop :=
  match req, a with pq_append h c, pa_append r => append_promise (hr_queue h) c r w | _, _ => True end.
Lemma validate_reads x d d' : pool_rep options x d -> validate options d = (d', inr I) -> d' = d.
Proof.
  intros Hx E. unfold validate in E. apply ibind_ok in E as (d1 & m & E1 & E). unfold stored_pool in E1.
  apply ibind_ok in E1 as (d2 & found & E2 & E1). idb_run E2. rewrite (pr_meta _ _ _ Hx) in E2. subst found. cbn [pm_legacy] in E1.
  idb_run E1. subst. unfold validateStored in E. cbv zeta in E. by idb_run E.
Qed.
Lemma pool_serve_ok (S : jsstr -> Prop) req w :
  match target req with Some q => ~ S q | None => True end -> sound w ->
  spec sound (evolves S) (pool_serve req) w (on_return (pool_promise req)).
Proof.
  intros Hq Hok.
  destruct req as [| |q|q l|q l bytes items|h|h limit|h c|h g|h g|h|h g|h|]; cbn [pool_serve target] in *;
    try (apply other_spec; [|done|done]).
  - unfold openPool. destruct (negb (poolConfigured _)); cbn [refuse_if negb]; [by apply spec_throw; [exact _|..]|].
    apply spec_await_bind; [exact _|done|]. intros w1 Hok1 _. apply read_spec; [done|].
    intros _ x d d' [] Hx E. by eapply validate_reads.
  - apply read_spec; [done|]. intros _ x d d' a Hx E. apply ibind_ok in E as (d1 & m & E1 & E).
    apply (poolMetadata_ok options x) in E1 as [-> ->]; [|done]. by idb_run E.
  - unfold scopeSnapshot. destruct (negb _); cbn [refuse_if]; [by apply spec_throw; [exact _|..]|].
    apply read_spec; [done|]. intros _ x d d' a Hx E. by idb_run E.
  - by apply openScope_spec.
  - unfold reserve. destruct (_ || _) eqn:Eg; cbn [refuse_if]; [by apply spec_throw; [exact _|..]|]. apply openScope_spec; [done| |done].
    cbn in *. unfold isTime, isSafeInteger in Eg. lia.
  - apply read_spec; [done|]. intros w1 x d d' a Hx E. apply ibind_ok in E as (d1 & s & E1 & E). apply scope_found in E1 as (-> & _). by idb_run E.
  - unfold readHandle. destruct (_ || _); [by apply spec_throw; [exact _|..]|].
    apply read_spec; [done|]. intros w1 x d d' a Hx E. apply ibind_ok in E as (d1 & s & E1 & E). apply scope_found in E1 as (-> & _). by idb_run E.
  - eapply spec_bind; [exact _|by apply poolAppend_spec| |done]. intros r w' Hok' _ Hr. by apply spec_ret; [exact _|..].
  - unfold poolPrune. destruct (grantRefused _ _) eqn:Eg; [by apply spec_ret; [exact _|..]|].
    apply spec_await_bind; [exact _|done|]. intros w1 Hok1 _. cbn [to_handle h_options scope_options so_verifyPruneGrant].
    destruct (verify_prune (hr_queue h) g) as [e|genuine] eqn:Ev; [done|]. destruct genuine; cbn [negb]; [|by apply spec_ret; [exact _|..]].
    destruct (prune_grant_deletable h g Eg Ev) as [Hd Hn]. apply (transaction_spec _ (hr_queue h)); [done..|]. intros w2 x d d' a Hx E.
    eapply touches_weaken; [eapply (prune_touches options (to_handle h)); [exact Hx|exact Hd|exact E]|done].
  - unfold release. destruct (grantRefused _ _) eqn:Eg; [by apply spec_ret; [exact _|..]|].
    apply spec_await_bind; [exact _|done|]. intros w1 Hok1 _. cbn [to_handle h_options scope_options so_verifyPruneGrant].
    destruct (verify_prune (hr_queue h) g) as [e|genuine] eqn:Ev; [done|]. destruct genuine; cbn [negb]; [|by apply spec_ret; [exact _|..]].
    apply (transaction_spec _ (hr_queue h)); [done..|]. intros w2 x d d' a Hx E. by eapply (release_touches options (to_handle h)).
  - apply (transaction_spec _ (hr_queue h)); [done..|]. intros w2 x d d' a Hx E. by eapply (releaseEmpty_touches options (to_handle h)).
  - by apply releaseClosed_spec.
  - unfold closeHandle, spec. cbn [fst snd settles]. set (w1 := mkPoolWorld _ _ _ _ _). by destruct (same_pool S w w1 eq_refl Hok).
  - unfold close, spec. cbn [fst snd settles]. set (w1 := mkPoolWorld _ _ _ _ _). by destruct (same_pool S w w1 eq_refl Hok).
Qed.
(** ** The credit of one queue *)

(** Requests that do not write the queue [q]. *)
Definition foreign_request (q : jsstr) : Type := { req : payload_request | target req <> Some q }.
Definition foreign_serve (q : jsstr) (req : foreign_request q) : async PoolWorld payload_answer := pool_serve (proj1_sig req).
Lemma foreign_runs q w0 p : sound w0 -> rtc (pool_step (foreign_serve q) pool_turn) (mkPool w0 []) p ->
  sound (Async.store p) /\ pool_scopes (p_db (Async.store p)) !! q = pool_scopes (p_db w0) !! q /\
  chunks_of q (p_db (Async.store p)) = chunks_of q (p_db w0).
Proof.
  intros Hok Hrun.
  destruct (pool_sound (foreign_serve q) pool_turn sound (evolves (eq q)) (fun _ => on_return (fun _ _ => True)))
    with (p := mkPool w0 ([] : list (foreign_request q * step PoolWorld payload_answer))) (p' := p) as [Hp He].
  - intros w w' Hw E. by apply same_pool.
  - intros [req Ht] w Hw. eapply spec_weaken; [exact _|apply (pool_serve_ok (eq q)); [|done]|].
    + cbn [proj1_sig]. clear -Ht. destruct (target req); [|done]. by intros ->.
    + by intros [|].
  - by intros req [|].
  - split; [done|constructor].
  - exact Hrun.
  - split; [apply Hp|]. destruct He as [_ He]. by apply (He q).
Qed.

Lemma credit_admits l k credit c : payloadQueueLimitsValid l = true -> queue_wf l k -> credit_ok l k (Some credit) -> 1 <= byteSize c <= maxItemBytes l ->
  1 <= remainingItems credit -> byteSize c <= remainingBytes credit ->
  admits l (totalSize (q_items k)) (Z.of_nat (length (q_items k))) (byteSize c) = true.
Proof.
  intros Hl Hw Hc Hb H1 H2. apply admits_spec. pose proof (totalSize_nonneg (q_items k)). pose proof (wf_first _ _ Hw).
  unfold credit_ok, q_next in Hc. split_and!; try done; lia.
Qed.
(** The transaction stores the next chunk if the credit covers it. *)
Lemma credit_stores h x w d s c credit :
  pool_rep options x d -> pool_scopes d !! hr_queue h = Some s -> incarnation s = hr_incarnation h -> hr_id h ∉ closed_handles w ->
  po_injectWriteFault options = None -> pp_revision x <> MAX_SAFE_INTEGER ->
  capacity s = Some credit -> 1 <= remainingItems credit -> 1 <= byteSize c <= remainingBytes credit ->
  byteSize c <= maxItemBytes (sm_limits s) -> ch_sequence c = ps_nextSequence (sm_snapshot s) ->
  exists d', pool_append_body options (to_handle h) c w d = (d', inr ap_stored).
Proof.
  intros Hx Hs Hinc Hopen Hf Hr Hcap Hi Hb Hm Hseq. destruct (pr_scopes _ _ _ Hx _ _ Hs) as [k Hk].
  pose proof (hl_credit _ _ _ _ _ _ Hk) as Hc. rewrite Hcap in Hc. pose proof (hl_limits _ _ _ _ _ _ Hk) as Hl.
  pose proof (credit_admits _ _ _ c Hl (hl_wf _ _ _ _ _ _ Hk) Hc ltac:(lia) Hi ltac:(lia)) as Ha.
  assert (Hn : q_next k < MAX_SAFE_INTEGER).
  { unfold credit_ok in Hc. unfold payloadQueueLimitsValid, forallb, is_int, MAX_INT in Hl. assert (2147483647 < MAX_SAFE_INTEGER) by done. lia. }
  rewrite (hl_snapshot _ _ _ _ _ _ Hk) in Hseq. cbn in Hseq.
  assert (Hnew : chunks_of (hr_queue h) d !! ch_sequence c = None).
  { destruct (chunks_of _ d !! _) eqn:E; [|done]. assert (Hkey : is_Some (chunks_of (hr_queue h) d !! ch_sequence c)) by eauto.
    apply (run_key _ _ _ _ (hl_run _ _ _ _ _ _ Hk)) in Hkey. unfold q_next in *. lia. }
  unfold pool_append_body, scope, scoped, poolMetadata, ibind, iread, iguard, iret, iwrite, ifault. cbn [to_handle h_id h_options scope_options so_queueId h_incarnation].
  rewrite bool_decide_eq_false_2 by done. rewrite Hs, Hinc, Z.eqb_refl. cbn [negb]. rewrite (pr_meta _ _ _ Hx), Hf. cbn [pm_snapshot pm_limits].
  rewrite (hl_snapshot _ _ _ _ _ _ Hk), Hcap. cbn [snapshot_of ps_firstSequence ps_nextSequence ps_usedBytes ps_itemCount]. rewrite Ha.
  pose proof (wf_first _ _ (hl_wf _ _ _ _ _ _ Hk)). destruct (ch_sequence c <? q_first k) eqn:E1; [unfold q_next in *; lia|].
  destruct (ch_sequence c <? q_next k) eqn:E2; [lia|]. destruct (negb (ch_sequence c =? q_next k)) eqn:E3; [lia|].
  destruct ((pp_revision x =? _) || (q_next k =? _) || negb true) eqn:E4; [lia|].
  destruct ((remainingItems credit <? 1) || _) eqn:E5; [lia|].
  unfold add_stored. rewrite bool_decide_eq_false_2 by (rewrite Hnew; by intros [? [=]]). eauto.
Qed.
Lemma credit_accepts h w c x d s credit : p_db w = d -> pool_rep options x d -> pool_scopes d !! hr_queue h = Some s -> sm_limits s = hr_limits h ->
  capacity s = Some credit -> byteSize c <= remainingBytes credit -> invalidChunk c = false ->
  byteSize c <= maxItemBytes (hr_limits h) -> byteSize c <= maxItemBytes (po_limits options) ->
  (pending w < MAX_PENDING)%nat -> pool_closed w = false ->
  poolAppend options (to_handle h) c w = pending_pool_transaction (pool_append_body options (to_handle h) c) w.
Proof.
  intros Hd Hx Hs Hl Hcap Hb Hi Hm1 Hm2 Hp Ho. unfold poolAppend. rewrite Hi. unfold abind, read_store. cbn [step_bind].
  destruct (pr_scopes _ _ _ Hx _ _ Hs) as [k Hk]. pose proof (hl_credit _ _ _ _ _ _ Hk) as Hc. rewrite Hcap, Hl in Hc.
  pose proof (totalSize_nonneg (q_items k)). unfold credit_ok in Hc.
  pose proof (scope_share _ _ _ _ _ Hx Hs) as Hsh. unfold remaining_bytes in Hsh. rewrite Hcap in Hsh.
  pose proof (wb_bytes _ _ (pr_budget _ _ _ Hx)). pose proof (pool_values _ _ _ Hx).
  destruct (_ || _) eqn:E; [|done]. exfalso. unfold tooLarge in E. cbn [existsb to_handle h_options scope_options so_limits] in E.
  apply orb_true_iff in E as [E|E]; [apply Nat.leb_le in E; lia|]. lia.
Qed.
End Safety.

(** C20: the accounting of the pool is right at any time.  Any number of requests
    of any queues of a pool, in any order and with any interleaving at their
    awaits, pages being closed and opened in between, keep the invariant: the
    counters are the sums over the queues, used and reserved payload together fit
    in the budget, and every queue is a run of consecutive chunks within its own
    limits.  A chunk whose append was answered with [stored] or [duplicate] is in
    the database with its payload, unless a genuine prune grant with complete
    evidence, or a genuine closure, covers it. *)
Theorem payload_pool_is_sound options verify_prune verify_closure w0 p h c r :
  pool_accounted options (p_db w0) ->
  rtc (pool_step (pool_serve options verify_prune verify_closure) pool_turn) (mkPool w0 []) p ->
  pool_accounted options (p_db (Async.store p)) /\
  ((pq_append h c, Finished (inr (pa_append r))) ∈ threads p -> r = ap_stored \/ r = ap_duplicate ->
   deletable verify_prune verify_closure (hr_queue h) (ch_sequence c) \/ holds_chunk (hr_queue h) c (p_db (Async.store p))).
Proof.
  intros Hok Hrun.
  destruct (pool_sound (pool_serve options verify_prune verify_closure) pool_turn (sound options)
    (evolves verify_prune verify_closure (fun _ => False)) (fun req => on_return (pool_promise verify_prune verify_closure req)))
    with (p := mkPool w0 ([] : list (payload_request * step PoolWorld payload_answer))) (p' := p) as [Hp _].
  - intros w w' Hw E. by apply same_pool.
  - intros req w Hw. apply pool_serve_ok; [|done]. destruct (target req); [by intros []|done].
  - intros req ans w w' _ He. destruct ans as [|a]; [by cbn|]. destruct req, a; cbn; try done. intros Hpr Hr. eapply chunk_kept_later; [exact He|auto].
  - split; [done|constructor].
  - exact Hrun.
  - split; [apply Hp|]. intros Hin Hr. pose proof (pool_answer _ _ _ _ _ _ Hp Hin) as Ha. by apply Ha.
Qed.


(** ** A concrete pool *)

Lemma empty_pool_accounted options : 0 <= po_maxQueues options -> payloadQueueLimitsValid (po_limits options) = true ->
  pool_rep options (mkPoolSnapshot 0 0 0 0 0 0) (mkPoolDb (Some (mkPoolMetadata (mkPoolSnapshot 0 0 0 0 0 0) (po_limits options) (po_maxQueues options) false)) ∅ ∅).
Proof.
  intros Hq Hl. unfold payloadQueueLimitsValid, forallb, is_int in Hl. split; [done| | |done|done].
  - split; cbn; unfold map_sum; by rewrite ?map_fold_empty, ?map_size_empty.
  - assert (0 <= MAX_SAFE_INTEGER) by done.
    split; cbn [queueCount pp_usedBytes reservedPayloadBytes pp_itemCount reservedItemCount pp_revision]; lia.
Qed.
Definition toy_pool : PayloadPoolOptions := mkPoolOptions (js "pool") (mkLimits 1000 8 100 10) 4 None.
Definition toy_pool_db : PoolDb :=
  mkPoolDb (Some (mkPoolMetadata (mkPoolSnapshot 0 0 0 0 0 0) (po_limits toy_pool) (po_maxQueues toy_pool) false)) ∅ ∅.
Definition toy_scope_limits : PayloadQueueLimits := mkLimits 100 4 50 10.
Definition toy_refuse (q : jsstr) (g : PayloadPruneGrant) : throws bool := inr false.
Definition toy_no_closure (q : jsstr) : option (PayloadScopeClosureGrant -> throws bool) := None.
Definition toy_ref : handle_ref := mkRef (js "a") toy_scope_limits 1 0.
Definition toy_pool_start : PoolWorld := mkPoolWorld toy_pool_db 0 false 0 ∅.
Definition toy_pool_run : pool PoolWorld payload_request payload_answer :=
  serve_all (pool_serve toy_pool toy_refuse toy_no_closure)
    [pq_reserve (js "a") toy_scope_limits 90 4; pq_queue (js "b") toy_scope_limits; pq_append toy_ref (toy_payload 0)] (mkPool toy_pool_start []).
Lemma toy_pool_accounted : pool_accounted toy_pool (p_db toy_pool_start).
Proof. eexists. apply empty_pool_accounted; [done|reflexivity]. Qed.
Definition toy_reserved_db : PoolDb := fst (open_body toy_pool (scope_options toy_refuse toy_no_closure (js "a") toy_scope_limits) (Some (90, 4)) toy_pool_db).
Lemma toy_reserved_accounted : pool_accounted toy_pool toy_reserved_db.
Proof.
  destruct toy_pool_accounted as [x Hx].
  assert (E : snd (open_body toy_pool (scope_options toy_refuse toy_no_closure (js "a") toy_scope_limits) (Some (90, 4)) toy_pool_db) = inr 1)
    by (vm_compute; reflexivity).
  unfold toy_reserved_db. destruct (open_body _ _ _ _) as [d r] eqn:Eo. cbn [fst snd] in *. subst r.
  apply (tc_ok _ (js "a") (fun _ => False) toy_pool_db).
  apply (open_touches toy_pool (fun _ => False) (scope_options toy_refuse toy_no_closure (js "a") toy_scope_limits) (Some (90, 4)) x _ _ 1 Hx);
    [reflexivity|reflexivity|cbn; lia|exact Eo].
Qed.

Lemma payload_pool_is_sound_witness :
  pool_accounted toy_pool (p_db (Async.store toy_pool_run)) /\ holds_chunk (js "a") (toy_payload 0) (p_db (Async.store toy_pool_run)).
Proof.
  assert (Hrun : rtc (pool_step (pool_serve toy_pool toy_refuse toy_no_closure) pool_turn) (mkPool toy_pool_start []) toy_pool_run)
    by apply serve_all_runs.
  destruct (payload_pool_is_sound toy_pool toy_refuse toy_no_closure toy_pool_start toy_pool_run toy_ref (toy_payload 0) ap_stored
              toy_pool_accounted Hrun) as [Hok Hkept].
  assert (Hat : threads toy_pool_run !! 2%nat = Some (pq_append toy_ref (toy_payload 0), Finished (inr (pa_append ap_stored))))
    by (vm_compute; reflexivity).
  split; [exact Hok|]. destruct Hkept as [[(g & _ & _ & Hv & _)|(g & verify & Hv & _)]|Hh].
  - by eapply list_elem_of_lookup_2.
  - left. reflexivity.
  - discriminate Hv.
  - discriminate Hv.
  - exact Hh.
Defined.

