(* ===== verification/PayloadPoolOpen.v ===== *)
(** * Opening the payload pool

    The check of the stored database when a pool is opened accepts exactly the
    databases with the invariant of the pool. *)
From Stdlib Require Import ZifyBool.
From stdpp Require Import gmap sorting.
From S2P Require Import Prelude Json Contracts Kernel Utf8 CryptoBackend EncounterWire Async IndexedDb PayloadQueue PayloadQueueFacts PayloadPool PayloadPoolFacts PayloadPoolSafety.
Set Default Goal Selector "!".

(** ** The scopes in key order *)

Section Scopes.
Context {V : Type}.
Implicit Types (m : gmap jsstr V).

Definition values m : list V := omap (fun q => m !! q) (sorted_ids m).
Lemma sorted_ids_perm m : sorted_ids m ≡ₚ map fst (map_to_list m).
Proof. apply merge_sort_Permutation. Qed.
Lemma sorted_id m q : q ∈ sorted_ids m <-> is_Some (m !! q).
Proof.
  rewrite sorted_ids_perm. split.
  - intros ([k v] & -> & Hin%elem_of_map_to_list)%list_elem_of_fmap. eauto.
  - intros [v Hv]. apply list_elem_of_fmap. exists (q, v). by rewrite elem_of_map_to_list.
Qed.
Lemma sorted_ids_nodup m : NoDup (sorted_ids m).
Proof. rewrite sorted_ids_perm. apply NoDup_fst_map_to_list. Qed.
Lemma values_perm m : values m ≡ₚ map snd (map_to_list m).
Proof.
  unfold values. rewrite sorted_ids_perm.
  assert (Hl : Forall (fun kv => m !! kv.1 = Some kv.2) (map_to_list m)) by (apply Forall_forall; intros [k v]; apply elem_of_map_to_list).
  induction Hl as [|[k v] l Hk _ IH]; [done|]. cbn in Hk. cbn [map fst snd omap list_omap]. rewrite Hk. by constructor.
Qed.
Lemma elem_of_values m v : v ∈ values m <-> exists q, m !! q = Some v.
Proof.
  rewrite values_perm. split.
  - intros ([k v'] & -> & Hin%elem_of_map_to_list)%list_elem_of_fmap. eauto.
  - intros [q Hq]. apply list_elem_of_fmap. exists (q, v). by rewrite elem_of_map_to_list.
Qed.
Lemma values_length m : length (values m) = size m.
Proof. rewrite values_perm, length_map. apply length_map_to_list. Qed.
Lemma foldr_sum_perm (f : V -> Z) l l' : l ≡ₚ l' -> foldr (fun s n => f s + n) 0 l = foldr (fun s n => f s + n) 0 l'.
Proof. induction 1; cbn; lia. Qed.
Lemma values_sum (f : V -> Z) m : foldr (fun s n => f s + n) 0 (values m) = map_sum f m.
Proof.
  rewrite (foldr_sum_perm f _ _ (values_perm m)). unfold map_sum. rewrite map_fold_foldr.
  induction (map_to_list m) as [|[k v] l IH]; [done|]. cbn. by rewrite IH.
Qed.
Lemma values_map {A} (key : V -> jsstr) (f : V -> A) m : (forall q v, m !! q = Some v -> key v = q) ->
  list_to_map (map (fun v => (key v, f v)) (values m)) = f <$> m.
Proof.
  intros Hk. assert (Hp : map (fun v => (key v, f v)) (values m) ≡ₚ map_to_list (f <$> m)).
  { rewrite values_perm, map_to_list_fmap.
    assert (Hl : Forall (fun kv => m !! kv.1 = Some kv.2) (map_to_list m)) by (apply Forall_forall; intros [k v]; apply elem_of_map_to_list).
    induction Hl as [|[k v] l Hv _ IH]; [done|]. cbn. rewrite (Hk k v Hv). by constructor. }
  rewrite <- (list_to_map_to_list (f <$> m)). symmetry. apply list_to_map_proper; [apply NoDup_fst_map_to_list|done].
Qed.
End Scopes.

Lemma map_sum_ext {V} (f g : V -> Z) m : (forall q s, m !! q = Some s -> f s = g s) -> map_sum f m = map_sum g m.
Proof.
  induction m as [|q s m Hq IH] using map_ind; intros Hf; [done|]. rewrite !map_sum_insert by done.
  rewrite (Hf q s) by apply lookup_insert_eq. rewrite IH; [done|]. intros q' s' Hq'. apply (Hf q'). rewrite lookup_insert_ne; [done|congruence].
Qed.
Lemma map_sum_fmap {V V'} (g : V -> V') (f : V' -> Z) m : map_sum f (g <$> m) = map_sum (fun s => f (g s)) m.
Proof. unfold map_sum. by rewrite map_fold_fmap. Qed.

(** ** The cursor *)

(** The chunks of one queue in a list of chunks of all queues. *)
Definition of_queue (q : jsstr) (l : list (jsstr * AuditPayloadChunk)) : list AuditPayloadChunk :=
  omap (fun p => if decide (p.1 = q) then Some p.2 else None) l.
Lemma of_queue_app q l l' : of_queue q (l ++ l') = of_queue q l ++ of_queue q l'.
Proof. apply omap_app. Qed.
Lemma of_queue_pairs q q' l : of_queue q (map (pair q') l) = if decide (q' = q) then l else [].
Proof. induction l as [|c l IH]; [by destruct (decide _)|]. cbn. unfold of_queue in IH. rewrite IH. by destruct (decide _). Qed.
Definition whole (m : gmap Z AuditPayloadChunk) : list AuditPayloadChunk := get_all m (size m).
Lemma cursor_of_queue d q : of_queue q (chunks_cursor d) = whole (chunks_of q d).
Proof.
  assert (Hgen : forall ids, NoDup ids -> of_queue q (flat_map (fun q => map (pair q) (whole (chunks_of q d))) ids) =
    if decide (q ∈ ids) then whole (chunks_of q d) else []).
  { induction 1 as [|i ids Hi Hnd IH]; cbn [flat_map]; [by rewrite decide_False by apply not_elem_of_nil|].
    rewrite of_queue_app, of_queue_pairs, IH. destruct (decide (i = q)) as [->|Hne].
    - rewrite decide_False by done. by rewrite app_nil_r, decide_True by left.
    - cbn [app]. apply decide_ext. rewrite elem_of_cons. naive_solver. }
  unfold chunks_cursor. fold whole. rewrite (Hgen _ (sorted_ids_nodup _)). destruct (decide _) as [Hin|Hin]; [done|].
  rewrite sorted_id in Hin. unfold chunks_of. destruct (pool_chunks d !! q) eqn:E; [by destruct Hin|done].
Qed.
Lemma cursor_member d q c : (q, c) ∈ chunks_cursor d <-> c ∈ whole (chunks_of q d).
Proof.
  rewrite <- cursor_of_queue. unfold of_queue. rewrite list_elem_of_omap. split.
  - intros Hin. exists (q, c). split; [done|]. cbn. by rewrite decide_True.
  - intros ([q' c'] & Hin & E). cbn in E. destruct (decide (q' = q)) as [->|]; [|done]. by injection E as ->.
Qed.
Lemma whole_member m k c : m !! k = Some c -> c ∈ whole m.
Proof.
  intros Hk. unfold whole, get_all. rewrite take_ge by (rewrite get_all_keys; lia). apply list_elem_of_omap.
  exists k. split; [|done]. apply sorted_key. eauto.
Qed.

(** ** The scan *)

(** What a scan that is at [(meta, seen, next)] in a queue still has to see. *)
Definition left_bytes (e : ScopeMetadata * Z * Z) : Z := let '(meta, seen, _) := e in used_bytes meta - seen.
Definition left_items (e : ScopeMetadata * Z * Z) : Z := let '(meta, _, next) := e in ps_nextSequence (sm_snapshot meta) - next.
Definition rest_ok (e : ScopeMetadata * Z * Z) (l : list AuditPayloadChunk) : Prop :=
  let '(meta, seen, next) := e in
  outOfOrder next l = false /\ Forall (chunk_ok (sm_limits meta)) l /\ Z.of_nat (length l) = left_items e /\ totalSize l = left_bytes e.
Definition scanned_pool (total : PoolMetadata) (expected : gmap jsstr (ScopeMetadata * Z * Z)) (l : list (jsstr * AuditPayloadChunk)) : Prop :=
  Forall (fun qc => is_Some (expected !! qc.1) /\ byteSize qc.2 <= maxItemBytes (pm_limits total)) l /\
  forall q e, expected !! q = Some e -> rest_ok e (of_queue q l).

Lemma scan_step total expected q c meta seen next l :
  expected !! q = Some (meta, seen, next) ->
  scanned_pool total expected ((q, c) :: l) <->
  ch_sequence c = next /\ chunk_ok (sm_limits meta) c /\ byteSize c <= maxItemBytes (pm_limits total) /\
  scanned_pool total (<[q := (meta, seen + byteSize c, next + 1)]> expected) l.
Proof.
  intros Hq. unfold scanned_pool. rewrite Forall_cons. cbn [fst snd].
  assert (Hhead : of_queue q ((q, c) :: l) = c :: of_queue q l) by (unfold of_queue; cbn [omap list_omap fst snd]; by rewrite decide_True).
  assert (Htail : forall q', q' <> q -> of_queue q' ((q, c) :: l) = of_queue q' l)
    by (intros q' Hne; unfold of_queue; cbn [omap list_omap fst snd]; by rewrite decide_False by congruence).
  assert (Hdom : forall q', is_Some (<[q := (meta, seen + byteSize c, next + 1)]> expected !! q') <-> is_Some (expected !! q')).
  { intros q'. rewrite lookup_insert_is_Some'. split; [intros [<-|]; eauto|by right]. }
  split.
  - intros [[[_ Hb] Hl] Hrest]. pose proof (Hrest q _ Hq) as Hc. rewrite Hhead in Hc. cbn [rest_ok outOfOrder length] in Hc.
    destruct Hc as (O & F & N & T). apply orb_false_iff in O as [O1 O2]. rewrite Forall_cons in F. destruct F as [F1 F2].
    rewrite totalSize_cons in T. cbn [left_items left_bytes] in *. split; [lia|]. split; [done|]. split; [done|]. split.
    + eapply Forall_impl; [exact Hl|]. intros qc [H1 H2]. by rewrite Hdom.
    + intros q' e. destruct (decide (q' = q)) as [->|Hne].
      * rewrite lookup_insert_eq. intros [= <-]. cbn [rest_ok left_items left_bytes]. split_and!; [done|done|lia|lia].
      * rewrite lookup_insert_ne by done. intros He. rewrite <- Htail by done. by apply Hrest.
  - intros (Hs & Hc & Hb & Hl & Hrest). split; [split; [split; [eauto|done]|]|].
    + eapply Forall_impl; [exact Hl|]. intros qc [H1 H2]. by rewrite <- Hdom.
    + intros q' e He. destruct (decide (q' = q)) as [->|Hne].
      * rewrite Hq in He. injection He as <-. rewrite Hhead. specialize (Hrest q _ (lookup_insert_eq _ _ _)).
        cbn [rest_ok left_items left_bytes outOfOrder length] in *. destruct Hrest as (O & F & N & T). rewrite totalSize_cons, Forall_cons.
        split_and!; [rewrite O; lia|done|done|lia|lia].
      * rewrite Htail by done. apply Hrest. by rewrite lookup_insert_ne.
Qed.
Lemma scanned_left total expected l q e : scanned_pool total expected l -> expected !! q = Some e -> 0 <= left_bytes e /\ 0 <= left_items e.
Proof.
  intros [_ Hr] He. specialize (Hr q e He). destruct e as [[meta seen] next]. destruct Hr as (_ & _ & N & T).
  rewrite <- N, <- T. pose proof (totalSize_nonneg (of_queue q l)). lia.
Qed.
Lemma finished_sum (f : ScopeMetadata * Z * Z -> Z) (m : gmap jsstr (ScopeMetadata * Z * Z)) :
  (forall q e, m !! q = Some e -> f e = 0) -> map_sum f m = 0.
Proof.
  induction m as [|q e m Hq IH] using map_ind; intros Hf; [unfold map_sum; by rewrite map_fold_empty|].
  rewrite map_sum_insert by done. rewrite (Hf q e) by apply lookup_insert_eq. rewrite IH; [done|].
  intros q' e' Hq'. apply (Hf q'). rewrite lookup_insert_ne; [done|congruence].
Qed.
Lemma scan_ends total expected bytes items :
  bytes + map_sum left_bytes expected = pp_usedBytes (pm_snapshot total) -> items + map_sum left_items expected = pp_itemCount (pm_snapshot total) ->
  scan_chunks total expected bytes items [] = inr I <-> scanned_pool total expected [].
Proof.
  intros Hb Hi. cbn [scan_chunks]. unfold throw_if. split.
  - destruct (_ || _) eqn:E; [done|]. intros _. apply orb_false_iff in E as [E1 E2]. split; [constructor|].
    intros q [[meta seen] next] He. assert (Hu : unfinished (q, (meta, seen, next)) = false).
    { apply not_true_iff_false. intros Hu. apply not_true_iff_false in E2. apply E2, existsb_exists.
      exists (q, (meta, seen, next)). split; [|done]. apply list_elem_of_In. by apply elem_of_map_to_list. }
    unfold unfinished in Hu. cbn [rest_ok of_queue omap list_omap outOfOrder length totalSize foldr left_items left_bytes].
    unfold used_bytes. split_and!; [done|constructor|lia|lia].
  - intros Hs. assert (Hz : forall q e, expected !! q = Some e -> left_bytes e = 0 /\ left_items e = 0).
    { intros q [[meta seen] next] He. destruct Hs as [_ Hs]. destruct (Hs q _ He) as (_ & _ & N & T). by cbn in N, T. }
    rewrite finished_sum in Hb by (intros q e He; by apply (Hz q)). rewrite finished_sum in Hi by (intros q e He; by apply (Hz q)).
    destruct (_ || _) eqn:E; [|done]. exfalso. apply orb_true_iff in E as [E|E]; [lia|].
    apply existsb_exists in E as ([q [[meta seen] next]] & Hin & Hu). apply list_elem_of_In, elem_of_map_to_list in Hin.
    destruct (Hz q _ Hin) as [Z1 Z2]. unfold unfinished, left_bytes, left_items, used_bytes in *. lia.
Qed.
Lemma scan_chunks_spec total expected bytes items l :
  bytes + map_sum left_bytes expected = pp_usedBytes (pm_snapshot total) -> items + map_sum left_items expected = pp_itemCount (pm_snapshot total) ->
  scan_chunks total expected bytes items l = inr I <-> scanned_pool total expected l.
Proof.
  revert expected bytes items. induction l as [|[q c] l IH]; intros expected bytes items Hb Hi; [by apply scan_ends|].
  cbn [scan_chunks]. destruct (expected !! q) as [[[meta seen] next]|] eqn:Hq.
  2: { split; [done|]. intros [Hl _]. rewrite Forall_cons in Hl. cbn in Hl. rewrite Hq in Hl. by destruct Hl as [[[? [=]] _] _]. }
  rewrite (scan_step _ _ _ _ _ _ _ _ Hq).
  assert (Hnew : forall f, map_sum f (<[q := (meta, seen + byteSize c, next + 1)]> expected) =
    map_sum f expected - f (meta, seen, next) + f (meta, seen + byteSize c, next + 1)).
  { intros f. pose proof (map_sum_alter f q (Some (meta, seen + byteSize c, next + 1)) expected) as Ha. rewrite Hq in Ha. exact Ha. }
  specialize (IH (<[q := (meta, seen + byteSize c, next + 1)]> expected) (bytes + byteSize c) (items + 1)). rewrite !Hnew in IH.
  cbn [left_bytes left_items] in IH. specialize (IH ltac:(lia) ltac:(lia)). unfold throw_if, chunk_ok. split.
  - destruct (_ || _) eqn:E; [done|]. destruct (_ || _) eqn:E2 in |- *; [done|]. intros Hs%IH.
    assert (Hd : isDigestText (ch_checkpointDigest c) = true) by (destruct (isDigestText _); [done|cbn in E; lia]). split_and!; [lia|done|lia|lia|lia|done].
  - intros (Hs & [Hd Hc] & Hm & Hscan).
    assert (L1 : left_bytes (meta, seen + byteSize c, next + 1) <= map_sum left_bytes (<[q := (meta, seen + byteSize c, next + 1)]> expected)).
    { apply (map_sum_member _ q); [|apply lookup_insert_eq]. intros q' e He. by destruct (scanned_left _ _ _ _ _ Hscan He). }
    assert (L2 : left_items (meta, seen + byteSize c, next + 1) <= map_sum left_items (<[q := (meta, seen + byteSize c, next + 1)]> expected)).
    { apply (map_sum_member _ q); [|apply lookup_insert_eq]. intros q' e He. by destruct (scanned_left _ _ _ _ _ Hscan He). }
    destruct (scanned_left _ _ _ q _ Hscan (lookup_insert_eq _ _ _)) as [P1 P2]. rewrite Hnew in L1, L2.
    cbn [left_bytes left_items] in *. unfold used_bytes in *. rewrite Hd. destruct (_ || _) eqn:E; [lia|]. destruct (_ || _) eqn:E2 in |- *; [lia|].
    by apply IH.
Qed.

(** ** One scope *)

Ltac split_checks :=
  repeat match goal with F : _ || _ = false |- _ => apply orb_false_iff in F as [F ?] end;
  repeat match goal with F : negb _ = false |- _ => apply negb_false_iff in F end;
  repeat match goal with F : _ && _ = true |- _ => apply andb_true_iff in F as [F ?] end;
  repeat match goal with F : isTime _ = true |- _ => apply isTime_spec in F end;
  repeat match goal with F : bool_decide _ = true |- _ => apply bool_decide_eq_true in F end.

Section Validate.
Context (options : PayloadPoolOptions).
Abbreviation limits := (po_limits options).
Abbreviation pool_of x := (mkPoolMetadata x limits (po_maxQueues options) false).

Definition scope_checked (x : PayloadPoolSnapshot) (s : ScopeMetadata) (m : gmap Z AuditPayloadChunk) : Prop :=
  scopeMismatch (pool_of x) s = false /\ capacityMismatch s = false /\ rest_ok (first_state s) (whole m) /\
  Forall (fun c => byteSize c <= maxItemBytes limits) (whole m).
Lemma checked_holds x q s m : keyed_map m -> sm_queueId s = q -> 0 <= pp_revision x <= MAX_SAFE_INTEGER ->
  scope_checked x s m -> scope_ok limits (pp_revision x) q s m.
Proof.
  intros Hkey Hid Hx (Hs & Hc & (O & F & N & T) & Hb). pose proof (ordered_run m _ Hkey O) as Hrun. fold (whole m) in Hrun.
  unfold first_state in N, T. cbn [left_items left_bytes] in N, T. unfold used_bytes in T.
  unfold scopeMismatch, forallb in Hs. cbn [pm_snapshot] in Hs.
  exists (mkQueueState (ps_firstSequence (sm_snapshot s)) (whole m) (ps_revision (sm_snapshot s))).
  assert (Hlast : 0 < ps_firstSequence (sm_snapshot s) -> match lastPrunedDigest s with Some d => isDigestText d = true | None => False end).
  { intros Hf. apply orb_false_iff in Hs as [_ Hs]. rewrite (proj2 (Z.ltb_lt _ _) Hf) in Hs. cbn in Hs. apply negb_false_iff in Hs.
    by destruct (lastPrunedDigest s). }
  split_checks. assert (En : q_next (mkQueueState (ps_firstSequence (sm_snapshot s)) (whole m) (ps_revision (sm_snapshot s))) = ps_nextSequence (sm_snapshot s))
    by (unfold q_next; cbn [q_first q_items]; lia).
  split; cbn [q_first q_items q_revision]; try done.
  - by rewrite <- Hid.
  - unfold snapshot_of. rewrite En. cbn [q_first q_items q_revision]. rewrite T. destruct (sm_snapshot s). cbn in *. f_equal; lia.
  - split; try rewrite En; cbn [q_first q_items q_revision]; try done; try lia.
  - lia.
  - lia.
  - unfold capacityMismatch, forallb in Hc. unfold credit_ok. rewrite En. cbn [q_items]. rewrite T.
    destruct (capacity s) as [c|]; [|done]. clear Hlast. split_checks. lia.
Qed.
Lemma holds_checked x q s m : 0 <= pp_revision x <= MAX_SAFE_INTEGER -> scope_ok limits (pp_revision x) q s m -> scope_checked x s m.
Proof.
  intros Hx [k Hk]. pose proof Hk as [K1 K2 K3 K4 K5 K6 K7 K8 K9 K10 K11]. destruct K6 as [W1 W2 W3 W4 W5 W6 W7].
  pose proof (get_all_whole _ _ _ K5) as Hw. fold (whole m) in Hw. pose proof (totalSize_nonneg (q_items k)) as Ht.
  assert (Hl : maxItems (sm_limits s) <= MAX_SAFE_INTEGER /\ maxBytes (sm_limits s) - reservedBytes (sm_limits s) <= MAX_SAFE_INTEGER).
  { unfold payloadQueueLimitsValid, forallb, is_int, MAX_INT in K3. assert (2147483647 <= MAX_SAFE_INTEGER) by done. lia. }
  split; [|split; [|split]].
  - unfold scopeMismatch, forallb. cbn [pm_snapshot]. rewrite K4, K1, K2, K3. cbn [snapshot_of ps_usedBytes ps_itemCount ps_firstSequence ps_nextSequence ps_revision].
    unfold q_next in *. rewrite !(proj2 (isTime_spec _)) by lia. cbn [andb negb orb].
    destruct (0 <? q_first k) eqn:E; [|lia]. specialize (K10 ltac:(lia)). destruct (lastPrunedDigest s); [|done]. rewrite K10. lia.
  - unfold capacityMismatch, forallb, credit_ok in *. rewrite K4. destruct (capacity s) as [c|]; [|done].
    cbn [snapshot_of ps_usedBytes ps_nextSequence]. unfold q_next in *.
    rewrite !(proj2 (isTime_spec _)) by lia. cbn [andb negb orb]. destruct (remainingItems c =? 0) eqn:E; lia.
  - unfold first_state. rewrite K4. cbn [rest_ok left_items left_bytes snapshot_of ps_firstSequence]. unfold used_bytes. rewrite K4, Hw.
    cbn [snapshot_of ps_nextSequence ps_usedBytes]. split_and!; [done|done|unfold q_next; lia|lia].
  - by rewrite Hw.
Qed.
Lemma check_scopes_spec pool l : check_scopes pool l = inr I <-> Forall (fun s => scopeMismatch pool s = false /\ capacityMismatch s = false) l.
Proof.
  induction l as [|s l IH]; cbn [check_scopes]; [by split; [constructor|]|]. rewrite Forall_cons, <- IH. unfold throw_if.
  destruct (scopeMismatch pool s); [by split; [|intros [[]]]|]. destruct (capacityMismatch s); [by split; [|intros [[]]]|]. naive_solver.
Qed.

(** ** The whole database *)

(** The key paths of the stores. *)
Definition keyed_pool (d : PoolDb) : Prop :=
  (forall q s, pool_scopes d !! q = Some s -> sm_queueId s = q) /\ forall q, keyed_map (chunks_of q d).
Lemma all_scopes_values d : all_scopes d = values (pool_scopes d).
Proof. done. Qed.
Lemma taken_whole {A} (l : list A) (n m : Z) : 0 <= n -> m <= n -> Z.of_nat (length (take (Z.to_nat (n + 1)) l)) = m ->
  take (Z.to_nat (n + 1)) l = l /\ Z.of_nat (length l) = m.
Proof. intros Hn Hm E. rewrite length_take in E. rewrite take_ge by lia. split; [done|lia]. Qed.
Lemma scan_counts x d : counts x (pool_scopes d) ->
  (forall q s, pool_scopes d !! q = Some s -> ps_itemCount (sm_snapshot s) = ps_nextSequence (sm_snapshot s) - ps_firstSequence (sm_snapshot s)) ->
  0 + map_sum left_bytes (first_state <$> pool_scopes d) = pp_usedBytes x /\
  0 + map_sum left_items (first_state <$> pool_scopes d) = pp_itemCount x.
Proof.
  intros [C1 C2 _ _ _] Hn. rewrite C1, C2, !map_sum_fmap. cbn [Z.add]. split; apply map_sum_ext; intros q s Hs; unfold first_state.
  - cbn [left_bytes]. lia.
  - cbn [left_items]. unfold item_count. by rewrite (Hn q s Hs).
Qed.
Lemma scanned_scopes total d :
  scanned_pool total (first_state <$> pool_scopes d) (chunks_cursor d) <->
  (forall q, chunks_of q d <> ∅ -> is_Some (pool_scopes d !! q)) /\
  (forall q s, pool_scopes d !! q = Some s -> rest_ok (first_state s) (whole (chunks_of q d)) /\
     Forall (fun c => byteSize c <= maxItemBytes (pm_limits total)) (whole (chunks_of q d))).
Proof.
  unfold scanned_pool. rewrite Forall_forall. split.
  - intros [Hall Hrest]. split.
    + intros q Hne. apply map_choose in Hne as (k & c & Hk). apply whole_member, cursor_member in Hk.
      destruct (Hall _ Hk) as [Hq _]. cbn in Hq. rewrite lookup_fmap in Hq. by apply fmap_is_Some in Hq.
    + intros q s Hs. split.
      * rewrite <- cursor_of_queue. apply Hrest. by rewrite lookup_fmap, Hs.
      * apply Forall_forall. intros c Hc%cursor_member. by apply (Hall _ Hc).
  - intros [Horph Hs]. split.
    + intros [q c] Hc%cursor_member. cbn [fst snd]. assert (Hq : is_Some (pool_scopes d !! q)).
      { apply Horph. intros E. rewrite E in Hc. by apply not_elem_of_nil in Hc. }
      rewrite lookup_fmap, fmap_is_Some. split; [done|]. destruct Hq as [s Hq]. destruct (Hs q s Hq) as [_ Hf].
      rewrite Forall_forall in Hf. by apply Hf.
    + intros q e. rewrite lookup_fmap. intros (s & Hq & ->)%fmap_Some. rewrite cursor_of_queue. by apply Hs.
Qed.
Lemma pool_mismatch_spec x d : payloadQueueLimitsValid limits = true -> po_maxQueues options <= MAX_SCOPES ->
  counts x (pool_scopes d) -> (forall q s, pool_scopes d !! q = Some s -> scope_ok limits (pp_revision x) q s (chunks_of q d)) ->
  poolMismatch options (pool_of x) = false <-> within_budget options x.
Proof.
  intros Hl Hq Hc Hs. unfold poolMismatch, forallb. cbn [pm_snapshot pm_limits pm_maxQueues]. split.
  - intros E. split_checks. split; lia.
  - intros [B1 B2 B3 B4].
    assert (Hv : 0 <= pp_usedBytes x /\ 0 <= pp_itemCount x /\ 0 <= reservedPayloadBytes x /\ 0 <= reservedItemCount x /\ 0 <= queueCount x)
      by (by apply (sums_nonneg limits (pp_revision x) x (pool_scopes d) (fun q => chunks_of q d))).
    assert (Hm : maxItems limits <= MAX_SAFE_INTEGER /\ maxBytes limits - reservedBytes limits <= MAX_SAFE_INTEGER /\ MAX_SCOPES <= MAX_SAFE_INTEGER).
    { unfold payloadQueueLimitsValid, forallb, is_int, MAX_INT in Hl. assert (2147483647 <= MAX_SAFE_INTEGER) by done.
      assert (MAX_SCOPES <= MAX_SAFE_INTEGER) by done. lia. }
    rewrite Hl, bool_decide_eq_true_2 by done. rewrite !(proj2 (isTime_spec _)) by lia. cbn [andb negb orb]. lia.
Qed.
Lemma scopes_list d : keyed_pool d ->
  (list_to_map (map (fun s => (sm_queueId s, first_state s)) (all_scopes d)) : gmap jsstr _) = first_state <$> pool_scopes d.
Proof. intros [Hk _]. by apply values_map. Qed.
Lemma sums_spec x d : (sum_of (fun s => ps_usedBytes (sm_snapshot s)) (all_scopes d) = pp_usedBytes x /\
    sum_of (fun s => ps_itemCount (sm_snapshot s)) (all_scopes d) = pp_itemCount x /\
    sum_of remaining_bytes (all_scopes d) = reservedPayloadBytes x /\ sum_of remaining_items (all_scopes d) = reservedItemCount x /\
    Z.of_nat (length (all_scopes d)) = queueCount x) <-> counts x (pool_scopes d).
Proof.
  unfold sum_of. rewrite all_scopes_values, !values_sum, values_length. split.
  - intros (E1 & E2 & E3 & E4 & E5). by split.
  - intros [C1 C2 C3 C4 C5]. by split_and!.
Qed.
Hypothesis Hcfg : poolConfigured options = true.
Lemma configured : payloadQueueLimitsValid limits = true /\ 1 <= po_maxQueues options <= MAX_SCOPES.
Proof. revert Hcfg. unfold poolConfigured. intros E. split_checks. split; [done|lia]. Qed.
Lemma scopes_checked x d : keyed_pool d -> 0 <= pp_revision x <= MAX_SAFE_INTEGER ->
  (check_scopes (pool_of x) (all_scopes d) = inr I /\
   (forall q, chunks_of q d <> ∅ -> is_Some (pool_scopes d !! q)) /\
   (forall q s, pool_scopes d !! q = Some s -> rest_ok (first_state s) (whole (chunks_of q d)) /\
     Forall (fun c => byteSize c <= maxItemBytes limits) (whole (chunks_of q d)))) <->
  (forall q s, pool_scopes d !! q = Some s -> scope_ok limits (pp_revision x) q s (chunks_of q d)) /\
  (forall q, pool_scopes d !! q = None -> chunks_of q d = ∅).
Proof.
  intros [K1 K2] Hx. rewrite check_scopes_spec, Forall_forall. split.
  - intros (Hc & Ho & Hs). split.
    + intros q s Hq. apply checked_holds; [apply K2|by apply K1|done|]. destruct (Hs q s Hq) as [H1 H2].
      destruct (Hc s) as [H3 H4]; [by apply elem_of_values; exists q|]. by split_and!.
    + intros q Hq. destruct (decide (chunks_of q d = ∅)) as [|Hne]; [done|]. destruct (Ho q Hne) as [s Hs']. congruence.
  - intros (Hs & Ho). assert (Hk : forall q s, pool_scopes d !! q = Some s -> scope_checked x s (chunks_of q d))
      by (intros; eapply holds_checked; eauto). split_and!.
    + intros s [q Hq]%elem_of_values. destruct (Hk q s Hq) as (H1 & H2 & _). done.
    + intros q Hne. destruct (pool_scopes d !! q) eqn:E; [eauto|]. by destruct Hne; apply Ho.
    + intros q s Hq. destruct (Hk q s Hq) as (_ & _ & H3 & H4). done.
Qed.
Lemma item_counts x d : check_scopes (pool_of x) (all_scopes d) = inr I ->
  forall q s, pool_scopes d !! q = Some s -> ps_itemCount (sm_snapshot s) = ps_nextSequence (sm_snapshot s) - ps_firstSequence (sm_snapshot s).
Proof.
  rewrite check_scopes_spec, Forall_forall. intros Hc q s Hq. destruct (Hc s) as [H1 _]; [by apply elem_of_values; exists q|].
  unfold scopeMismatch in H1. split_checks. lia.
Qed.
Lemma validated_accounted x d d' : keyed_pool d -> pool_meta d = Some (pool_of x) ->
  validateStored options (pool_of x) d = (d', inr I) -> d' = d /\ pool_accounted options d.
Proof.
  intros Hk Hm E. destruct configured as [Hl Hq]. unfold validateStored in E. cbv zeta in E. cbn [pm_snapshot] in E. idb_run E. subst. split; [done|].
  assert (Hrev : 0 <= pp_revision x <= MAX_SAFE_INTEGER /\ queueCount x <= po_maxQueues options)
    by (unfold poolMismatch, forallb in G; cbn [pm_snapshot pm_maxQueues] in G; clear -G; split_checks; lia).
  destruct (taken_whole (all_scopes d) (po_maxQueues options) (queueCount x)) as [Et El]; [lia..|]. rewrite Et in *.
  assert (Hc : counts x (pool_scopes d)) by (apply sums_spec; split_checks; split_and!; lia).
  destruct a0. rewrite scopes_list in E by done. pose proof (item_counts x d E1) as Hn.
  destruct (scan_counts x d Hc Hn) as [S1 S2]. apply (scan_chunks_spec (pool_of x) _ 0 0 _ S1 S2), scanned_scopes in E as [Ho Hs].
  destruct (proj1 (scopes_checked x d Hk (proj1 Hrev))) as [P1 P2]; [by split_and!|].
  exists x. split; try done. by apply (pool_mismatch_spec x d Hl (proj2 Hq) Hc P1).
Qed.
Lemma accounted_validates x d : pool_rep options x d -> keyed_pool d -> validateStored options (pool_of x) d = (d, inr I).
Proof.
  intros Hx Hk. destruct configured as [Hl Hq]. pose proof Hx as [Hm Hc Hb Hs Ho]. pose proof (wb_queues _ _ Hb) as Hqs.
  destruct (proj2 (scopes_checked x d Hk (wb_revision _ _ Hb)) (conj Hs Ho)) as (P1 & P2 & P3).
  destruct (proj2 (sums_spec x d) Hc) as (S1 & S2 & S3 & S4 & S5).
  destruct (scan_counts x d Hc (item_counts x d P1)) as [T1 T2].
  unfold validateStored, ibind, iread, iguard, ithrows. cbn [pm_snapshot].
  rewrite (proj2 (pool_mismatch_spec x d Hl (proj2 Hq) Hc Hs) Hb). rewrite take_ge by lia. rewrite S5, Z.eqb_refl. cbn [negb].
  rewrite P1, S1, S2, S3, S4, !Z.eqb_refl. cbn [negb orb]. rewrite scopes_list by done. f_equal.
  apply (scan_chunks_spec (pool_of x) _ 0 0 _ T1 T2), scanned_scopes. done.
Qed.

(** What opening writes: nothing, the counters a previous format does not have,
    or the metadata of a new pool. *)
Definition prepared (d : PoolDb) : PoolDb :=
  put_pool (match pool_meta d with
            | Some pool => mkPoolMetadata (pm_snapshot pool) (pm_limits pool) (pm_maxQueues pool) false
            | None => pool_of (mkPoolSnapshot 0 0 0 0 0 0)
            end) d.
Lemma chunk_count_zero d : chunk_count d = 0%nat <-> forall q, chunks_of q d = ∅.
Proof.
  unfold chunk_count, chunks_of. split.
  - intros E q. destruct (pool_chunks d !! q) as [m|] eqn:Hq; [|done]. apply elem_of_map_to_list in Hq. cbn.
    induction (map_to_list (pool_chunks d)) as [|[q' m'] l IH]; [by apply not_elem_of_nil in Hq|]. cbn in E.
    apply elem_of_cons in Hq as [[= -> ->]|Hq]; [apply map_size_empty_iff; lia|apply IH; [lia|done]].
  - intros Hall. assert (Hl : Forall (fun qm => qm.2 = ∅) (map_to_list (pool_chunks d))).
    { apply Forall_forall. intros [q m] Hq%elem_of_map_to_list. specialize (Hall q). rewrite Hq in Hall. done. }
    induction Hl as [|[q m] l Hm _ IH]; [done|]. cbn in *. subst m. rewrite IH, map_size_empty. done.
Qed.
Lemma new_pool_empty d : pool_meta d = None -> pool_accounted options (prepared d) ->
  size (pool_scopes d) = 0%nat /\ chunk_count d = 0%nat.
Proof.
  intros Hm [x [Em Hc _ _ Ho]]. unfold prepared in Em. rewrite Hm in Em. cbn in Em. injection Em as <-.
  pose proof (ct_queues _ _ Hc) as Hs. cbn in Hs. assert (E : size (pool_scopes d) = 0%nat) by lia. split; [done|].
  apply map_size_empty_iff in E. apply chunk_count_zero. intros q. apply (Ho q). cbn. by rewrite E.
Qed.
Lemma stored_pool_spec d d1 pool : stored_pool options d = (d1, inr pool) <->
  d1 = prepared d /\ pool_meta d1 = Some pool /\ (pool_meta d = None -> size (pool_scopes d) = 0%nat /\ chunk_count d = 0%nat).
Proof.
  unfold stored_pool, prepared, ibind, iread, iwrite, iguard, iret, put_pool. destruct d as [[[x l n legacy]|] scopes chunks]; cbn [pool_meta pm_legacy pm_snapshot pm_limits pm_maxQueues pool_scopes pool_chunks].
  - split.
    + intros E. destruct legacy; injection E as <- <-; cbn; by split_and!.
    + intros (-> & E & _). cbn in E. injection E as <-. by destruct legacy.
  - destruct (_ || _) eqn:Eg.
    + split; [done|]. intros (_ & _ & Hz). destruct (Hz eq_refl). lia.
    + split; [intros E; injection E as <- <-; cbn; split_and!; [done|done|lia]|]. intros (-> & E & _). cbn in E. by injection E as <-.
Qed.
Lemma validate_spec d d' : keyed_pool d -> validate options d = (d', inr I) <-> d' = prepared d /\ pool_accounted options d'.
Proof.
  intros Hk. assert (Hk' : keyed_pool (prepared d)) by done. unfold validate. split.
  - intros E. apply ibind_ok in E as (d1 & pool & E1 & E). apply stored_pool_spec in E1 as (-> & Em & _).
    assert (Hp : pool = pool_of (pm_snapshot pool)).
    { unfold validateStored in E. cbv zeta in E. apply iguard_ok in E as [G _]. unfold poolMismatch in G. clear -G Em.
      assert (pm_legacy pool = false) by (unfold prepared in Em; cbn in Em; injection Em as <-; by destruct (pool_meta d)).
      split_checks. destruct pool as [x l n legacy]. cbn in *. subst. f_equal. lia. }
    rewrite Hp in E, Em. by destruct (validated_accounted _ _ _ Hk' Em E) as [-> Hok].
  - intros [-> Hok]. pose proof Hok as [x Hx]. unfold ibind.
    assert (E1 : stored_pool options d = (prepared d, inr (pool_of x))).
    { apply stored_pool_spec. split; [done|]. split; [apply (pr_meta _ _ _ Hx)|]. intros Hm. by apply new_pool_empty. }
    rewrite E1. by apply accounted_validates.
Qed.
End Validate.

(** C22: opening a pool accepts exactly the accounted databases.  On stores whose
    keys are their key paths, the check of the metadata, of every scope and of
    every chunk succeeds if and only if the database, with the counters that a
    previous format lacks or the metadata of a new pool added, has the invariant
    of the pool; nothing else is written.  So a pool that its operations have
    left behind, at whatever point a crash interrupts them, opens again, and no
    corrupted accounting is accepted. *)
Theorem pool_opens_exactly_accounted options d d' :
  poolConfigured options = true -> keyed_pool d ->
  validate options d = (d', inr I) <-> d' = prepared options d /\ pool_accounted options d'.
Proof. intros Hcfg Hk. by apply validate_spec. Qed.

Lemma pool_opens_exactly_accounted_witness : validate toy_pool toy_reserved_db = (toy_reserved_db, inr I).
Proof.
  apply (pool_opens_exactly_accounted toy_pool toy_reserved_db toy_reserved_db).
  - vm_compute. reflexivity.
  - split.
    + intros q s Hs. assert (E : pool_scopes toy_reserved_db = {[js "a" := mkScope (mkSnapshot 0 0 0 0 1) (js "a") toy_scope_limits 1 None (Some (mkCapacity 90 4 90 4))]})
        by (vm_compute; reflexivity).
      rewrite E in Hs. apply lookup_singleton_Some in Hs as [<- <-]. reflexivity.
    + intros q k c Hc. assert (E : pool_chunks toy_reserved_db = ∅) by (vm_compute; reflexivity).
      unfold chunks_of in Hc. rewrite E in Hc. discriminate Hc.
  - split; [vm_compute; reflexivity|exact toy_reserved_accounted].
Defined.
