(* ===== verification/EncounterSessionStore.v ===== *)
(** * The session store of the encounter client

    [web/src/audit/encounter-session-contracts.ts] and
    [encounter-session-store.ts]: the bounded image of an owner's sessions in the
    browser's database, its validation, the compare-and-set of its revision, and
    the device key. *)
From Stdlib Require Import ZifyBool.
From stdpp Require Import gmap.
From S2P Require Import Prelude Json Contracts Kernel Utf8 CryptoBackend EncounterWire EncounterHttp EncounterBundle InventoryCheckpoint Inventory Async IndexedDb.
Set Default Goal Selector "!".

(** ** Contracts *)

Inductive SessionPhase := starting | playing | complete | sp_committed | sp_settled | sp_terminated.
#[export] Instance SessionPhase_eq_dec : EqDecision SessionPhase.
Proof. solve_decision. Defined.
Record EncounterSessionRecord := mkSession {
  sr_authorization : EncounterAuthorization;
  sr_phase : SessionPhase;
  sr_ticket : option EncounterTicket;
  sr_receipt : option EncounterReceipt;
  sr_termination : option EncounterTermination;
  cleaned : bool;
  recoveryReleasePending : option bool;
  admittedAssets : list jsstr;
}.
(** [EncounterReceiptRecord] has the fields of an inventory record. *)
Abbreviation EncounterReceiptRecord := InventoryReceiptRecord.
(** An optional field that may also be [null]. *)
Inductive optional (A : Type) := absent | null | present (a : A).
Arguments absent {A}.
Arguments null {A}.
Arguments present {A} a.
Definition opt {A} (x : optional A) : option A := match x with present a => Some a | _ => None end.
Definition or_null {A} (x : optional A) : optional A := match x with absent => null | _ => x end.

Record EncounterSessionImage := mkImage {
  im_revision : Z;
  im_current : option EncounterSessionRecord;
  im_history : list EncounterReceiptRecord;
  im_checkpoint : optional InventoryCheckpoint;
  pendingCompaction : optional InventoryCompaction;
  pendingEmptyRetirement : optional InventoryCompaction;
}.
Definition MAX_RECEIPT_HISTORY : nat := 16.
Definition MAX_CONTROL_BYTES : Z := 81920.
(** [{ version: 1, revision: 0, current: null, history: [] }]. *)
Definition empty_image : EncounterSessionImage := mkImage 0 None [] absent absent absent.

(** ** The image as JSON *)

Definition phase_name (p : SessionPhase) : string :=
  match p with
  | starting => "starting" | playing => "playing" | complete => "complete" | sp_committed => "committed"
  | sp_settled => "settled" | sp_terminated => "terminated"
  end.
Definition some_field {A} (k : string) (f : A -> jsval) (x : option A) : list (string * jsval) :=
  match x with Some a => [(k, f a)] | None => [] end.
Definition optional_field {A} (k : string) (f : A -> jsval) (x : optional A) : list (string * jsval) :=
  match x with present a => [(k, f a)] | null => [(k, JNull)] | absent => [] end.
Definition session_value (c : EncounterSessionRecord) : jsval :=
  obj ([("authorization", obj (authorization_fields (sr_authorization c))); ("phase", JStr (js (phase_name (sr_phase c))))]%string ++
       some_field "ticket" ticket_value (sr_ticket c) ++ some_field "receipt" receipt_value (sr_receipt c) ++
       some_field "termination" termination_value (sr_termination c) ++ [("cleaned"%string, JBool (cleaned c))] ++
       some_field "recoveryReleasePending" JBool (recoveryReleasePending c) ++
       [("admittedAssets"%string, strings_value (admittedAssets c))]).
Definition intent_value (c : InventoryCompaction) : jsval :=
  compaction_value (optional_string (expectedCheckpointId c)) (strings_value (ticketIds c)).
Definition image_value (im : EncounterSessionImage) : jsval :=
  obj ([("version", JNum 1); ("revision", JNum (im_revision im));
        ("current", match im_current im with Some c => session_value c | None => JNull end);
        ("history", JArr (map record_value (im_history im)))]%string ++
       optional_field "checkpoint" checkpoint_object (im_checkpoint im) ++
       optional_field "pendingCompaction" intent_value (pendingCompaction im) ++
       optional_field "pendingEmptyRetirement" intent_value (pendingEmptyRetirement im)).

(** ** Validation *)

Definition sessionRefused (c : EncounterSessionRecord) : bool :=
  let a := sr_authorization c in
  negb (match generation a with Some g => isTime g | None => true end) ||
  negb (forallb identifier [EncounterWire.unit a; startHead a; ea_playerId a]) || negb (isDigestText (ea_ownerPublicKey a)) ||
  (1 <? length (admittedAssets c))%nat || (8192 <? byteLength (stringify (session_value c))).
Definition releaseIntentRefused (c : EncounterSessionRecord) : bool :=
  match recoveryReleasePending c with
  | None => false
  | Some pending =>
      negb pending || negb (cleaned c) || negb (bool_decide (is_Some (sr_ticket c))) || negb (bool_decide (is_Some (sr_termination c))) ||
      bool_decide (is_Some (sr_receipt c)) || negb (bool_decide (sr_phase c = sp_terminated)) || negb (length (admittedAssets c) =? 0)%nat
  end.
(** The loop over the history, with the ids seen so far. *)
Fixpoint historyRefused (ids : list jsstr) (l : list EncounterReceiptRecord) : bool :=
  match l with
  | [] => false
  | entry :: l' =>
      (1 <? length (ir_admittedAssets entry))%nat || (4096 <? byteLength (stringify (record_value entry))) ||
      bool_decide (ticketId (ir_ticket entry) ∈ ids) || historyRefused (ticketId (ir_ticket entry) :: ids) l'
  end.
Definition retirementRefused (im : EncounterSessionImage) : bool :=
  match opt (pendingEmptyRetirement im) with
  | None => false
  | Some intent =>
      negb (validInventoryCompaction (intent_value intent)) ||
      match opt (im_checkpoint im) with
      | None => true
      | Some cp => negb (bool_decide (expectedCheckpointId intent = Some (checkpointId cp)))
      end || bool_decide (is_Some (opt (pendingCompaction im)))
  end.
Definition validate (im : EncounterSessionImage) : throws True :=
  throw_if (negb (isTime (im_revision im)) || (MAX_RECEIPT_HISTORY <? length (im_history im))%nat ||
            (MAX_CONTROL_BYTES <? byteLength (stringify (image_value im)))) (js "invalid session capacity") $
  throw_if (match opt (im_checkpoint im) with Some cp => negb (validInventoryCheckpoint (checkpoint_object cp)) | None => false end)
    (js "invalid inventory checkpoint") $
  throw_if (match opt (pendingCompaction im) with Some i => negb (validInventoryCompaction (intent_value i)) | None => false end)
    (js "invalid compaction intent") $
  throw_if (retirementRefused im) (js "invalid empty retirement intent") $
  throw_if (match im_current im with Some c => sessionRefused c | None => false end) (js "invalid session record") $
  throw_if (match im_current im with Some c => releaseIntentRefused c | None => false end) (js "invalid recovery release intent") $
  throw_if (historyRefused [] (im_history im)) (js "invalid receipt history") $
  inr I.

(** ** The store *)

Record SessionDb (K : Type) := mkSessionDb { db_session : option EncounterSessionImage; db_owner : option K }.
Arguments mkSessionDb {K}.
Arguments db_session {K}.
Arguments db_owner {K}.
Definition put_session {K} (im : EncounterSessionImage) (d : SessionDb K) : SessionDb K := mkSessionDb (Some im) (db_owner d).
Definition put_owner {K} (k : K) (d : SessionDb K) : SessionDb K := mkSessionDb (db_session d) (Some k).
Definition with_revision (n : Z) (im : EncounterSessionImage) : EncounterSessionImage :=
  mkImage n (im_current im) (im_history im) (im_checkpoint im) (pendingCompaction im) (pendingEmptyRetirement im).
Definition retained (im : EncounterSessionImage) : bool :=
  bool_decide (is_Some (im_current im)) || negb (length (im_history im) =? 0)%nat || bool_decide (is_Some (opt (im_checkpoint im))) ||
  bool_decide (is_Some (opt (pendingCompaction im))) || bool_decide (is_Some (opt (pendingEmptyRetirement im))).

Section Store.
Context {W : Type} (subtle : SubtleCrypto) (stores : W -> SessionDb (WebCryptoSigningKeyMaterial subtle))
  (set_stores : SessionDb (WebCryptoSigningKeyMaterial subtle) -> W -> W) (injectWriteFault : option jsstr).
Abbreviation Db := (SessionDb (WebCryptoSigningKeyMaterial subtle)).
Definition store_transaction {A} (body : idb Db A) : async W A := idb_transaction stores set_stores body.

Definition read_body : idb Db EncounterSessionImage :=
  let~ image := iread (fun d => default empty_image (db_session d)) in
  let~ _ := ithrows (validate image) in
  iret (mkImage (im_revision image) (im_current image) (im_history image) (or_null (im_checkpoint image))
          (or_null (pendingCompaction image)) (pendingEmptyRetirement image)).
Definition read : async W EncounterSessionImage := store_transaction read_body.
(** [open], after the database is: what is stored must be readable. *)
Definition openStore : async W True := let* _ := read in aret I.
Definition write_body (image : EncounterSessionImage) (expectedRevision : Z) : idb Db EncounterSessionImage :=
  let~ revision := iread (fun d => match db_session d with Some old => im_revision old | None => 0 end) in
  iguard (negb (revision =? expectedRevision) || (revision =? MAX_SAFE_INTEGER)) (js "session revision changed") $
  let next := with_revision (revision + 1) image in
  let~ _ := iwrite (put_session next) in
  let~ _ := ifault injectWriteFault in
  iret next.
Definition write (image : EncounterSessionImage) (expectedRevision : Z) : async W EncounterSessionImage :=
  refuse_if (MAX_CONTROL_BYTES <? byteLength (stringify (image_value image))) (js "invalid session capacity") $
  let* _ := of_throws (validate image) in
  store_transaction (write_body image expectedRevision).

Definition inspectKey : async W (WebCryptoSigningKeyMaterial subtle) :=
  let* key := store_transaction (iread db_owner) in
  match key with Some k => aret k | None => athrow (js "device key unavailable") end.
Definition add_owner (candidate : WebCryptoSigningKeyMaterial subtle) : idb Db (WebCryptoSigningKeyMaterial subtle) :=
  let~ current := iread db_owner in
  match current with
  | Some k => iret k
  | None =>
      let~ session := iread db_session in
      let~ _ := match session with
                | Some image => let~ _ := ithrows (validate image) in
                                iguard (retained image) (js "device key missing for retained sessions") (iret I)
                | None => iret I
                end in
      let~ _ := iwrite (put_owner candidate) in
      iret candidate
  end.
Definition owner : async W AsyncAuditSigner :=
  let* stored := store_transaction (iread db_owner) in
  match stored with
  | Some k => await (restoreSigningKey subtle k)
  | None =>
      let* image := read in
      refuse_if (retained image) (js "device key missing for retained sessions") $
      let* candidate := await (generateSigningKey subtle) in
      let* material := store_transaction (add_owner (fst candidate)) in
      await (restoreSigningKey subtle material)
  end.
End Store.
