(* ===== verification/EncounterRecorder.v ===== *)
(** * The recorder of the encounter client

    [web/src/audit/encounter-recorder.ts]: the log of one encounter, in a queue
    of the shared payload pool, and the exchange with the authority about it.

    The network is outside: a transport is any function of the state [N] of the
    outside world, so a theorem about all transports is about every behaviour of
    the network and of the server.  What a transport answers has the type its
    interface declares. *)
From Stdlib Require Import ZifyBool.
From stdpp Require Import gmap.
From S2P Require Import Prelude Json Contracts Kernel Utf8 CryptoBackend EncounterWire EncounterHttp InventoryCheckpoint Async IndexedDb PayloadQueue PayloadPool EncounterSessionStore.
Set Default Goal Selector "!".

(** ** The world of a client *)

(** The pool, the session store, the recorders that know their encounter has
    ended (by the handles of their queues), and the outside. *)
Record ClientWorld (N K : Type) := mkClientWorld {
  cw_pool : PoolWorld;
  cw_session : SessionDb K;
  cw_terminated : gset nat;
  cw_net : N;
}.
Arguments mkClientWorld {N K}.
Arguments cw_pool {N K}.
Arguments cw_session {N K}.
Arguments cw_terminated {N K}.
Arguments cw_net {N K}.

(** [try { ... } catch (error) { ...; throw error; }]: the outcome as a value. *)
Fixpoint attempt_step {W A} (s : step W A) : step W (throws A) :=
  match s with
  | Finished r => Finished (inr r)
  | Suspended k => Suspended (fun w => let '(w', s') := k w in (w', attempt_step s'))
  end.
Definition attempt {W A} (m : async W A) : async W (throws A) := fun w => let '(w', s) := m w in (w', attempt_step s).

Section World.
Context {N K : Type}.
Abbreviation World := (ClientWorld N K).
Definition set_pool (p : PoolWorld) (w : World) : World := mkClientWorld p (cw_session w) (cw_terminated w) (cw_net w).
Definition set_session (d : SessionDb K) (w : World) : World := mkClientWorld (cw_pool w) d (cw_terminated w) (cw_net w).
Definition set_net (n : N) (w : World) : World := mkClientWorld (cw_pool w) (cw_session w) (cw_terminated w) n.
Definition on_pool {A} (m : async PoolWorld A) : async World A := zoom cw_pool set_pool m.
(** A request to the outside; the answer comes later. *)
Definition call {A} (f : N -> N * throws A) : async World A :=
  fun w => (w, Suspended (fun w' => let '(n, r) := f (cw_net w') in (set_net n w', Finished r))).
Definition set_terminated (id : nat) : async World True :=
  fun w => (mkClientWorld (cw_pool w) (cw_session w) ({[id]} ∪ cw_terminated w) (cw_net w), Finished (inr I)).
End World.

(** ** The transport *)

Record EncounterTransport (N : Type) := mkTransport {
  tr_commit : EncounterCommit -> N -> N * throws (jsstr * Z);
  tr_reveal : jsstr -> N -> N * throws EncounterReveal;
  tr_settle : jsstr -> list AuditPayloadChunk -> N -> N * throws EncounterReceipt;
  tr_admitToMarket : EncounterListing -> N -> N * throws (bool * jsstr);
  tr_pruneGrant : jsstr -> Z -> N -> N * throws PayloadPruneGrant;
  tr_terminate : option (jsstr -> EncounterTerminationReason -> N -> N * throws EncounterTermination);
  tr_closureGrant : option (jsstr -> Z -> Z -> N -> N * throws PayloadScopeClosureGrant);
  tr_archiveUpload : option (jsstr -> list AuditPayloadChunk -> N -> N * throws ArchiveCustody);
  tr_archiveHandoff : option (jsstr -> Z -> Z -> N -> N * throws PayloadScopeClosureGrant);
  (** [EncounterStartTransport]. *)
  tr_start : jsstr -> Z -> N -> N * throws EncounterTicket;
}.
Arguments tr_commit {N}.
Arguments tr_reveal {N}.
Arguments tr_settle {N}.
Arguments tr_admitToMarket {N}.
Arguments tr_pruneGrant {N}.
Arguments tr_terminate {N}.
Arguments tr_closureGrant {N}.
Arguments tr_archiveUpload {N}.
Arguments tr_archiveHandoff {N}.
Arguments tr_start {N}.

(** The options a recorder shares with all others of an application session;
    [payloadPool] is the pool of the world. *)
Record RecorderOptions (N : Type) := mkRecorderOptions {
  ro_trustedAuthorityKey : jsstr;
  ro_trustedArchiveKey : option jsstr;
  ro_owner : AsyncAuditSigner;
  ro_cryptoBackend : AuditCryptoBackend;
  ro_transport : EncounterTransport N;
  ro_pool : PayloadPoolOptions;
}.
Arguments ro_trustedAuthorityKey {N}.
Arguments ro_trustedArchiveKey {N}.
Arguments ro_owner {N}.
Arguments ro_cryptoBackend {N}.
Arguments ro_transport {N}.
Arguments ro_pool {N}.
(** A recorder: its queue and its ticket. *)
Record Recorder := mkRecorder { rc_queue : PoolHandle; rc_ticket : EncounterTicket }.

Definition ENCOUNTER_PAYLOAD_LIMITS : PayloadQueueLimits := mkLimits 16384 2 4096 8192.
Definition ENCOUNTER_POOL_LIMITS : PayloadQueueLimits := mkLimits 1048576 256 4096 131072.
Definition ENCOUNTER_POOL_NAME : jsstr := js "converge-audit-encounter-payloads-v2".
Definition ENCOUNTER_POOL_MAX_QUEUES : Z := 128.

Section Recorder.
Context {N K : Type} (options : RecorderOptions N).
Abbreviation World := (ClientWorld N K).
Abbreviation backend := (ro_cryptoBackend options).
Abbreviation trusted := (ro_trustedAuthorityKey options).
Abbreviation transport := (ro_transport options).

Definition receiptMismatch (ticket : EncounterTicket) (receipt : EncounterReceipt) (root : option jsstr) : bool :=
  let s := receipt_statement receipt in
  negb (str_eqb (rs_ticketId s) (ticketId ticket)) || negb (str_eqb (rs_unit s) (EncounterWire.unit (t_authorization ticket))) ||
  negb (str_eqb (rs_playerId s) (ea_playerId (t_authorization ticket))) ||
  negb (str_eqb (rs_ownerPublicKey s) (ea_ownerPublicKey (t_authorization ticket))) ||
  match root with Some r => negb (str_eqb (rs_root s) r) | None => false end.
Definition checkReceipt (ticket : EncounterTicket) (receipt : EncounterReceipt) (root : option jsstr) : async World True :=
  refuse_if (negb (str_eqb (authorityKey ticket) trusted) || negb (t_version ticket =? 1) || negb (str_eqb (rulesId ticket) ENCOUNTER_RULES))
    (js "invalid encounter receipt binding") $
  let* accepted := await (inr (verifyEncounterReceipt backend receipt trusted)) in
  refuse_if (negb accepted || receiptMismatch ticket receipt root) (js "invalid encounter receipt binding") $
  aret I.

(** ** Opening *)

(** The two verifiers a recorder gives its queue. *)
Definition closureVerified (grant : PayloadScopeClosureGrant) : throws bool :=
  let! closed := verifyEncounterClosureGrant backend grant trusted in
  if (closed : bool) then inr true else verifyArchiveHandoff backend grant trusted.
Definition pruneVerified (grant : PayloadPruneGrant) : throws bool := verifyEncounterPruneGrant backend grant trusted.
Definition queueOptions (queueId : jsstr) : PayloadScopeOptions :=
  mkScopeOptions queueId ENCOUNTER_PAYLOAD_LIMITS pruneVerified (Some closureVerified).
Definition generationOf (a : EncounterAuthorization) : Z := default 0 (generation a).
Definition startMismatch (queueId' : jsstr) (a : EncounterAuthorization) (ticket : EncounterTicket) : bool :=
  let b := t_authorization ticket in
  negb (str_eqb (queueId ticket) queueId') || negb (str_eqb (EncounterWire.unit b) (EncounterWire.unit a)) ||
  negb (str_eqb (startHead b) (startHead a)) || negb (str_eqb (ea_playerId b) (ea_playerId a)) ||
  negb (str_eqb (ea_ownerPublicKey b) (ea_ownerPublicKey a)) || negb (generationOf b =? generationOf a).
(** The part after the reservation: whatever fails, the queue is closed. *)
Definition requestTicket (queue : PoolHandle) (queueId : jsstr) (a : EncounterAuthorization) : async World EncounterTicket :=
  let* ticket := call (tr_start transport (startHead a) (generationOf a)) in
  let* accepted := await (inr (verifyEncounterTicket backend ticket trusted)) in
  refuse_if (negb accepted || startMismatch queueId a ticket) (js "invalid start ticket binding") $
  aret ticket.
Definition start (a : EncounterAuthorization) : async World Recorder :=
  refuse_if (negb (str_eqb (ea_ownerPublicKey a) (as_publicKey (ro_owner options)))) (js "start owner mismatch") $
  let* queueId := await (encounterQueueId backend (EncounterWire.unit a) (startHead a) (generationOf a)) in
  let* queue := on_pool (reserve (ro_pool options) (queueOptions queueId) 8192 2) in
  let* ticket := attempt (requestTicket queue queueId a) in
  match ticket with
  | inr t => aret (mkRecorder queue t)
  | inl e => let* _ := on_pool (closeHandle queue) in athrow e
  end.
Definition open (ticket : EncounterTicket) : async World Recorder :=
  let* accepted := await (inr (verifyEncounterTicket backend ticket trusted)) in
  refuse_if (negb accepted || negb (str_eqb (ea_ownerPublicKey (t_authorization ticket)) (as_publicKey (ro_owner options))))
    (js "ticket trust or owner mismatch") $
  let* queue := on_pool (queue (ro_pool options) (queueOptions (queueId ticket))) in
  aret (mkRecorder queue ticket).

(** [recoverReceipt], which needs no queue. *)
Definition recoverReceipt (ticket : EncounterTicket) : async World EncounterReceipt :=
  let* accepted := await (inr (verifyEncounterTicket backend ticket trusted)) in
  refuse_if (negb accepted) (js "invalid recovery ticket") $
  let* receipt := call (tr_settle transport (ticketId ticket) []) in
  let* _ := checkReceipt ticket receipt None in
  aret receipt.

(** ** The methods *)

Section Methods.
Context (self : Recorder).
Abbreviation ticket := (rc_ticket self).
Abbreviation id := (ticketId (rc_ticket self)).
Abbreviation handle := (rc_queue self).
Definition isTerminated : async World bool := read_store (fun w => bool_decide (h_id handle ∈ cw_terminated w)).

Definition recorderSnapshot : async World PayloadQueueSnapshot := on_pool (handleSnapshot handle).
Definition recorderReleaseEmpty : async World ReleaseResult := on_pool (releaseEmpty (ro_pool options) handle).
(** The pool is the application's, so [close] leaves it open. *)
Definition closeRecorder : async World True := on_pool (closeHandle handle).
Definition recordChunk (sequence : Z) (inputs : list InputFrame) : async World AppendResult :=
  let* before := isTerminated in
  refuse_if (before : bool) (js "encounter already terminated") $
  let* chunk := await (encodeEncounterChunk backend ticket sequence inputs) in
  let* after := isTerminated in
  refuse_if (after : bool) (js "encounter already terminated") $
  on_pool (poolAppend (ro_pool options) handle chunk).
Definition prepared : async World (list AuditPayloadChunk * EncounterCommit) :=
  let* s := recorderSnapshot in
  refuse_if (negb (ps_firstSequence s =? 0) || negb (ps_itemCount s =? 2) || negb (ps_nextSequence s =? 2))
    (js "complete durable input log required") $
  let* chunks := on_pool (readHandle handle 2) in
  let* commitment := await (signEncounterCommit backend ticket chunks (ro_owner options)) in
  aret (chunks, commitment).
Definition recorderCommit : async World (jsstr * Z) :=
  let* p := prepared in
  let* receipt := call (tr_commit transport (snd p)) in
  let '(root, committedAt) := receipt in
  refuse_if (negb (str_eqb root (c_root (snd p))) || negb (isTime committedAt) || (committedAt <? commitNotBefore ticket) ||
             (releaseAt ticket <=? committedAt)) (js "invalid commit receipt") $
  aret receipt.
Definition recorderSettle : async World EncounterReceipt :=
  let* p := prepared in
  let* reveal := call (tr_reveal transport id) in
  let* accepted := await (verifyEncounterReveal backend ticket (snd p) reveal) in
  refuse_if (negb accepted) (js "invalid encounter reveal") $
  let* receipt := call (tr_settle transport id (fst p)) in
  let* _ := checkReceipt ticket receipt (Some (c_root (snd p))) in
  aret receipt.
Definition restoreReceipt : async World EncounterReceipt := recoverReceipt ticket.
Definition has_item (assetId : jsstr) (receipt : EncounterReceipt) : bool :=
  existsb (fun i => str_eqb (ei_assetId i) assetId) (items (receipt_statement receipt)).
Definition recorderAdmit (receipt : EncounterReceipt) (assetId : jsstr) : async World (bool * jsstr) :=
  let* _ := checkReceipt ticket receipt None in
  refuse_if (negb (has_item assetId receipt)) (js "unknown receipt item") $
  let* listing := await (signEncounterListing backend receipt assetId (ro_owner options)) in
  let* result := call (tr_admitToMarket transport listing) in
  refuse_if (negb (fst result) || negb (str_eqb (snd result) assetId)) (js "invalid market response") $
  aret result.
Definition recorderPrune : async World PruneResult :=
  let* s := recorderSnapshot in
  let* grant := call (tr_pruneGrant transport id (ps_revision s)) in
  on_pool (poolPrune (ro_pool options) handle grant).
Definition recorderRelease : async World ReleaseResult :=
  let* s := recorderSnapshot in
  let* grant := call (tr_pruneGrant transport id (ps_revision s)) in
  on_pool (release (ro_pool options) handle grant).
Definition recorderTerminate (reason : EncounterTerminationReason) : async World EncounterTermination :=
  match tr_terminate transport with
  | None => athrow (js "transport does not support termination")
  | Some f =>
      let* certificate := call (f id reason) in
      let* accepted := await (inr (verifyEncounterTermination backend ticket certificate trusted)) in
      refuse_if (negb accepted) (js "invalid termination certificate") $
      let* _ := set_terminated (h_id handle) in
      aret certificate
  end.
Definition cleanupTerminated (certificate : EncounterTermination) : async World ReleaseResult :=
  match tr_closureGrant transport with
  | None => athrow (js "transport does not support terminal closure")
  | Some f =>
      let* accepted := await (inr (verifyEncounterTermination backend ticket certificate trusted)) in
      refuse_if (negb accepted) (js "invalid termination certificate") $
      let* _ := set_terminated (h_id handle) in
      let* s := recorderSnapshot in
      let* grant := call (f id (ps_revision s) (ps_nextSequence s)) in
      refuse_if (negb (str_eqb (closureId grant) (terminationId certificate))) (js "invalid termination closure binding") $
      on_pool (releaseClosed (ro_pool options) handle grant)
  end.
Definition archiveMismatch (custody : ArchiveCustody) (root : jsstr) : bool :=
  let s := custody_statement custody in
  negb (str_eqb (cs_ticketId s) id) || negb (str_eqb (cs_unit s) (EncounterWire.unit (t_authorization ticket))) ||
  negb (str_eqb (cs_authorityKey s) trusted) || negb (str_eqb (cs_queueId s) (queueId ticket)) || negb (str_eqb (cs_root s) root).
Definition checkArchive (custody : ArchiveCustody) (root : jsstr) : async World True :=
  match ro_trustedArchiveKey options with
  | None => athrow (js "invalid archive custody")
  | Some key =>
      let* accepted := await (inr (verifyArchiveCustody backend custody key)) in
      refuse_if (negb accepted || archiveMismatch custody root) (js "invalid archive custody") $
      aret I
  end.
Definition recorderArchive : async World ArchiveCustody :=
  match ro_trustedArchiveKey options, tr_archiveUpload transport with
  | Some _, Some upload =>
      let* p := prepared in
      let* custody := call (upload id (fst p)) in
      let* _ := checkArchive custody (c_root (snd p)) in
      aret custody
  | _, _ => athrow (js "archive custody transport unavailable")
  end.
Definition cleanupArchived (custody : ArchiveCustody) : async World ReleaseResult :=
  match tr_archiveHandoff transport with
  | None => athrow (js "archive custody transport unavailable")
  | Some handoff =>
      refuse_if (3000 <? byteLength (stringify (custody_value custody))) (js "archive custody transport unavailable") $
      let* p := prepared in
      let* _ := checkArchive custody (c_root (snd p)) in
      let* s := recorderSnapshot in
      let* grant := call (handoff id (ps_revision s) (ps_nextSequence s)) in
      refuse_if (negb (str_eqb (closureId grant) (custodyId custody))) (js "archive custody handoff mismatch") $
      on_pool (releaseClosed (ro_pool options) handle grant)
  end.
End Methods.
End Recorder.
