(* ===== verification/EncounterSession.v ===== *)
(** * The session controller of the encounter client

    [web/src/audit/encounter-session.ts]: the life of one encounter after the
    other on a device, with the receipts that are kept, compacted into the
    signed inventory and retired.

    A controller belongs to one page, and [run] refuses a second operation while
    one is busy, so its fields are passed from statement to statement; the stores
    and the outside are shared with other pages.  [ctl A] is a method: it returns
    the fields as they are when it returns or throws.  [close] and [interrupt], which
    do not go through [run], take place between the operations of a page.
    Callbacks that only redraw are left out. *)
From Stdlib Require Import ZifyBool.
From stdpp Require Import gmap.
From S2P Require Import Prelude Json Contracts Kernel Utf8 CryptoBackend EncounterWire EncounterHttp EncounterBundle InventoryCheckpoint Inventory EncounterLedger EncounterAuthority Async IndexedDb PayloadQueue PayloadPool EncounterSessionStore EncounterRecorder.
Set Default Goal Selector "!".

Inductive EncounterUiPhase := idle | ui_playing | ready | waiting | ui_settled | ui_terminated | interrupted | ui_error.
#[export] Instance EncounterUiPhase_eq_dec : EqDecision EncounterUiPhase.
Proof. solve_decision. Defined.
(** The part of [HttpEncounterTransport] the controller uses.  Values that the
    controller checks for their shape are unknown values. *)
Record HttpTransport (N : Type) := mkHttpTransport {
  ht_commit : EncounterCommit -> N -> N * throws (jsstr * Z);
  ht_reveal : jsstr -> N -> N * throws EncounterReveal;
  ht_settle : jsstr -> list AuditPayloadChunk -> N -> N * throws EncounterReceipt;
  ht_admitToMarket : EncounterListing -> N -> N * throws (bool * jsstr);
  ht_pruneGrant : jsstr -> Z -> N -> N * throws PayloadPruneGrant;
  ht_terminate : jsstr -> EncounterTerminationReason -> N -> N * throws EncounterTermination;
  ht_closureGrant : jsstr -> Z -> Z -> N -> N * throws PayloadScopeClosureGrant;
  ht_archiveUpload : jsstr -> list AuditPayloadChunk -> N -> N * throws ArchiveCustody;
  ht_archiveHandoff : jsstr -> Z -> Z -> N -> N * throws PayloadScopeClosureGrant;
  ht_start : jsstr -> Z -> N -> N * throws EncounterTicket;
  ht_status : jsstr -> N -> N * throws EncounterStatus;
  ht_releaseRecovery : EncounterTicket -> EncounterTermination -> N -> N * throws jsval;
  ht_compactInventory : option jsstr -> list jsstr -> N -> N * throws jsval;
  ht_retireEmptyInventory : jsstr -> list jsstr -> N -> N * throws jsval;
  ht_inventoryPage : jsstr -> Z -> N -> N * throws jsval;
  ht_now : N -> N * Z;
}.
Arguments ht_commit {N}.
Arguments ht_reveal {N}.
Arguments ht_settle {N}.
Arguments ht_admitToMarket {N}.
Arguments ht_pruneGrant {N}.
Arguments ht_terminate {N}.
Arguments ht_closureGrant {N}.
Arguments ht_archiveUpload {N}.
Arguments ht_archiveHandoff {N}.
Arguments ht_start {N}.
Arguments ht_status {N}.
Arguments ht_releaseRecovery {N}.
Arguments ht_compactInventory {N}.
Arguments ht_retireEmptyInventory {N}.
Arguments ht_inventoryPage {N}.
Arguments ht_now {N}.
Record SessionOptions (N : Type) := mkSessionOptions {
  ss_owner : AsyncAuditSigner;
  ss_backend : AuditCryptoBackend;
  ss_transport : HttpTransport N;
  trustedKey : jsstr;
  ss_trustedArchiveKey : option jsstr;
  ss_unit : jsstr;
  ss_pool : PayloadPoolOptions;
  ss_injectWriteFault : option jsstr;
}.
Arguments ss_owner {N}.
Arguments ss_backend {N}.
Arguments ss_transport {N}.
Arguments trustedKey {N}.
Arguments ss_trustedArchiveKey {N}.
Arguments ss_unit {N}.
Arguments ss_pool {N}.
Arguments ss_injectWriteFault {N}.

(** ** The fields of a controller *)

Record Controller := mkController {
  image : EncounterSessionImage;
  recorder : option Recorder;
  buffer : list InputFrame;
  preview : option GameState;
  progress : Z;
  savedChunks : Z;
  catalog : list InventoryReceiptRecord;
  catalogAfter : Z;
  catalogNext : option Z;
  phase : EncounterUiPhase;
  busy : bool;
  ctl_error : option jsstr;
}.
Definition new_controller : Controller := mkController empty_image None [] None 0 0 [] 0 None idle false None.
Definition set_image (im : EncounterSessionImage) (c : Controller) : Controller :=
  mkController im (recorder c) (buffer c) (preview c) (progress c) (savedChunks c) (catalog c) (catalogAfter c) (catalogNext c)
    (phase c) (busy c) (ctl_error c).
Definition set_recorder (r : option Recorder) (c : Controller) : Controller :=
  mkController (image c) r (buffer c) (preview c) (progress c) (savedChunks c) (catalog c) (catalogAfter c) (catalogNext c)
    (phase c) (busy c) (ctl_error c).
Definition set_play (b : list InputFrame) (p : option GameState) (n saved : Z) (c : Controller) : Controller :=
  mkController (image c) (recorder c) b p n saved (catalog c) (catalogAfter c) (catalogNext c) (phase c) (busy c) (ctl_error c).
Definition set_catalog (l : list InventoryReceiptRecord) (after : Z) (next : option Z) (c : Controller) : Controller :=
  mkController (image c) (recorder c) (buffer c) (preview c) (progress c) (savedChunks c) l after next (phase c) (busy c) (ctl_error c).
Definition set_phase (p : EncounterUiPhase) (c : Controller) : Controller :=
  mkController (image c) (recorder c) (buffer c) (preview c) (progress c) (savedChunks c) (catalog c) (catalogAfter c)
    (catalogNext c) p (busy c) (ctl_error c).
Definition set_busy (b : bool) (e : option jsstr) (c : Controller) : Controller :=
  mkController (image c) (recorder c) (buffer c) (preview c) (progress c) (savedChunks c) (catalog c) (catalogAfter c)
    (catalogNext c) (phase c) b e.

(** ** Methods *)

Section Ctl.
Context {W : Type}.
Definition ctl (A : Type) := Controller -> async W (Controller * throws A).
Definition cret {A} (a : A) : ctl A := fun c => aret (c, inr a).
Definition cthrow {A} (e : jsstr) : ctl A := fun c => aret (c, inl e).
Definition cbind {A B} (m : ctl A) (f : A -> ctl B) : ctl B :=
  fun c => let* r := m c in match r with (c', inr a) => f a c' | (c', inl e) => aret (c', inl e) end.
Definition clift {A} (m : async W A) : ctl A := fun c => let* r := attempt m in aret (c, r).
Definition cget {A} (f : Controller -> A) : ctl A := fun c => aret (c, inr (f c)).
Definition cset (f : Controller -> Controller) : ctl True := fun c => aret (f c, inr I).
Definition crefuse {A} (b : bool) (e : jsstr) (k : ctl A) : ctl A := if b then cthrow e else k.
(** [if (b) await body]. *)
Definition cwhen (b : bool) (body : ctl True) : ctl True := if b then body else cret I.
Fixpoint ceach {A} (f : A -> ctl True) (l : list A) : ctl True :=
  match l with [] => cret I | x :: l' => cbind (f x) (fun _ => ceach f l') end.
(** [try { return await body } catch (error) { handler; throw error; }]. *)
Definition con_error {A} (body : ctl A) (handler : jsstr -> ctl True) : ctl A :=
  fun c => let* r := body c in
    match r with
    | (c', inr a) => aret (c', inr a)
    | (c', inl e) => let* r' := handler e c' in match r' with (c2, inr _) => aret (c2, inl e) | (c2, inl e') => aret (c2, inl e') end
    end.
End Ctl.
Arguments ctl : clear implicits.
Notation "'let&' x ':=' m 'in' k" := (cbind m (fun x => k))
  (at level 200, x pattern, m at level 100, k at level 200, right associativity).

Section Session.
Context `{JsHost} {N : Type} (subtle : SubtleCrypto) (o : SessionOptions N).
Abbreviation Key := (WebCryptoSigningKeyMaterial subtle).
Abbreviation World := (ClientWorld N Key).
Abbreviation transport := (ss_transport o).
Abbreviation backend := (ss_backend o).
Abbreviation method := (ctl World).

Definition recorder_transport : EncounterTransport N :=
  let t := transport in
  mkTransport _ (ht_commit t) (ht_reveal t) (ht_settle t) (ht_admitToMarket t) (ht_pruneGrant t) (Some (ht_terminate t))
    (Some (ht_closureGrant t)) (Some (ht_archiveUpload t)) (Some (ht_archiveHandoff t)) (ht_start t).
Definition recorder_options : RecorderOptions N :=
  mkRecorderOptions _ (trustedKey o) (ss_trustedArchiveKey o) (ss_owner o) backend recorder_transport (ss_pool o).
Definition ask {A} (f : N -> N * throws A) : method A := clift (call f).
Definition crypto_check (b : bool) : method bool := clift (await (inr b)).
Definition digest_of (d : throws jsstr) : method jsstr := clift (await d).
Definition now : method Z :=
  fun c w => let '(n, t) := ht_now transport (cw_net w) in (set_net n w, Finished (inr (c, inr t))).
Definition store_read : method EncounterSessionImage := clift (read subtle cw_session set_session).
Definition store_write (im : EncounterSessionImage) (expected : Z) : method EncounterSessionImage :=
  clift (write subtle cw_session set_session (ss_injectWriteFault o) im expected).

Definition run {A} (body : method A) : method A :=
  fun c => if busy c then aret (c, inl (js "another session operation is in progress"))
           else let* r := body (set_busy true None c) in
                match r with
                | (c', inr a) => aret (set_busy false (ctl_error c') c', inr a)
                | (c', inl e) => aret (set_busy false (Some e) (set_phase ui_error c'), inl e)
                end.
(** [{ ...this.image, current, history }]. *)
Definition with_current (current : option EncounterSessionRecord) (history : list EncounterReceiptRecord) (im : EncounterSessionImage)
    : EncounterSessionImage :=
  mkImage (im_revision im) current history (im_checkpoint im) (pendingCompaction im) (pendingEmptyRetirement im).
(** [this.image = await this.o.store.write(f(this.image), this.image.revision)]. *)
Definition replace_image (f : EncounterSessionImage -> EncounterSessionImage) : method True :=
  let& im := cget image in
  let& next := store_write (f im) (im_revision im) in
  cset (set_image next).
Definition save (current : option EncounterSessionRecord) : method True :=
  replace_image (fun im => with_current current (im_history im) im).
Definition save_all (current : option EncounterSessionRecord) (history : list EncounterReceiptRecord) : method True :=
  replace_image (with_current current history).

Definition authorizationMismatch (ticket : EncounterTicket) (a : EncounterAuthorization) : bool :=
  let b := t_authorization ticket in
  negb (str_eqb (startHead b) (startHead a)) || negb (str_eqb (ea_playerId b) (ea_playerId a)) ||
  negb (str_eqb (EncounterWire.unit b) (EncounterWire.unit a)) || negb (generationOf b =? generationOf a).
Definition checkTicket (ticket : EncounterTicket) (authorization : option EncounterAuthorization) : method True :=
  let& valid := crypto_check (verifyEncounterTicket backend ticket (trustedKey o)) in
  crefuse (negb valid || negb (str_eqb (EncounterWire.unit (t_authorization ticket)) (ss_unit o)) ||
           negb (str_eqb (ea_ownerPublicKey (t_authorization ticket)) (as_publicKey (ss_owner o))) ||
           match authorization with Some a => authorizationMismatch ticket a | None => false end) (js "invalid session ticket") $
  cret I.
Definition checkSessionReceipt (ticket : EncounterTicket) (receipt : EncounterReceipt) : method True :=
  let& _ := checkTicket ticket None in
  let& valid := crypto_check (verifyEncounterReceipt backend receipt (trustedKey o)) in
  crefuse (negb valid || receiptMismatch ticket receipt None) (js "invalid session receipt") $
  cret I.
Definition checkpointVerified (cp : InventoryCheckpoint) : bool := verifyInventoryCheckpoint backend (checkpoint_object cp) (trustedKey o).

(** ** Records *)

Definition set_record (r : EncounterSessionRecord) (ticket : option EncounterTicket) (receipt : option EncounterReceipt)
    (termination : option EncounterTermination) (p : SessionPhase) (assets : list jsstr) (clean : bool) : EncounterSessionRecord :=
  mkSession (sr_authorization r) p ticket receipt termination clean (recoveryReleasePending r) assets.
Definition with_phase (p : SessionPhase) (r : EncounterSessionRecord) : EncounterSessionRecord :=
  set_record r (sr_ticket r) (sr_receipt r) (sr_termination r) p (admittedAssets r) (cleaned r).
Definition with_ticket (t : EncounterTicket) (p : SessionPhase) (r : EncounterSessionRecord) : EncounterSessionRecord :=
  set_record r (Some t) (sr_receipt r) (sr_termination r) p (admittedAssets r) (cleaned r).
Definition with_receipt (v : EncounterReceipt) (r : EncounterSessionRecord) : EncounterSessionRecord :=
  set_record r (sr_ticket r) (Some v) (sr_termination r) sp_settled (admittedAssets r) (cleaned r).
Definition with_termination (v : EncounterTermination) (r : EncounterSessionRecord) : EncounterSessionRecord :=
  set_record r (sr_ticket r) (sr_receipt r) (Some v) sp_terminated (admittedAssets r) (cleaned r).
Definition with_cleaned (r : EncounterSessionRecord) : EncounterSessionRecord :=
  set_record r (sr_ticket r) (sr_receipt r) (sr_termination r) (sr_phase r) (admittedAssets r) true.
Definition with_assets (assets : list jsstr) (r : EncounterSessionRecord) : EncounterSessionRecord :=
  set_record r (sr_ticket r) (sr_receipt r) (sr_termination r) (sr_phase r) assets (cleaned r).
Definition with_release_pending (r : EncounterSessionRecord) : EncounterSessionRecord :=
  mkSession (sr_authorization r) (sr_phase r) (sr_ticket r) (sr_receipt r) (sr_termination r) (cleaned r) (Some true) (admittedAssets r).
Definition starting_record (a : EncounterAuthorization) : EncounterSessionRecord := mkSession a starting None None None false None [].
(** The record of the current session, if it has a receipt. *)
Definition current_receipt (current : option EncounterSessionRecord) : list EncounterReceiptRecord :=
  match current with
  | Some c => match sr_ticket c, sr_receipt c with Some t, Some r => [mkRecord t r (admittedAssets c)] | _, _ => [] end
  | None => []
  end.
Definition retainedReceipts (im : EncounterSessionImage) : list EncounterReceiptRecord := im_history im ++ current_receipt (im_current im).

Definition close_recorder : method True :=
  let& r := cget recorder in
  let& _ := match r with Some r => clift (closeRecorder r) | None => cret I end in
  cset (set_recorder None).
Definition reset_play : method True := cset (set_play [] None 0 0).

(** ** Releasing a terminated session *)

Definition releaseAck (ack : jsval) (ticket : EncounterTicket) (termination : EncounterTermination) : bool :=
  exactKeys ack ["released"; "ticketId"; "terminationId"]%string &&
  match field ack "released" with JBool true => true | _ => false end &&
  on_string (str_eqb (ticketId ticket)) (field ack "ticketId") && on_string (str_eqb (terminationId termination)) (field ack "terminationId").
Definition releaseTerminated : method True :=
  let& current := cget (fun c => im_current (image c)) in
  match current with
  | None => cthrow (js "cleaned terminated session required")
  | Some r =>
      match sr_ticket r, sr_termination r with
      | Some ticket, Some termination =>
          crefuse (negb (cleaned r) || bool_decide (is_Some (sr_receipt r)) || negb (bool_decide (sr_phase r = sp_terminated)))
            (js "cleaned terminated session required") $
          let& _ := checkTicket ticket (Some (sr_authorization r)) in
          let& valid := crypto_check (verifyEncounterTermination backend ticket termination (trustedKey o)) in
          crefuse (negb valid) (js "terminal cleanup required") $
          let& remains := clift (on_pool (scopeSnapshot (queueId ticket))) in
          crefuse (bool_decide (is_Some remains)) (js "terminal cleanup required") $
          let& _ := cwhen (negb (bool_decide (recoveryReleasePending r = Some true))) (save (Some (with_release_pending r))) in
          let& ack := ask (ht_releaseRecovery transport ticket termination) in
          crefuse (negb (releaseAck ack ticket termination)) (js "invalid recovery release acknowledgment") $
          let& _ := save None in
          let& _ := close_recorder in
          let& _ := reset_play in
          cset (set_phase idle)
      | _, _ => cthrow (js "cleaned terminated session required")
      end
  end.

(** ** The inventory *)

Definition has_intent (x : optional InventoryCompaction) : bool := bool_decide (is_Some (opt x)).
(** The cast of a record of a page; one whose fields have other types fails the
    verification of its ticket or receipt. *)
Definition read_record (v : jsval) : option InventoryReceiptRecord :=
  t ← read_ticket (field v "ticket"); r ← read_receipt (field v "receipt"); a ← get_strs v "admittedAssets"; Some (mkRecord t r a).
Fixpoint read_records (ids : list jsstr) (l : list jsval) : method (list InventoryReceiptRecord) :=
  match l with
  | [] => cret []
  | v :: l' =>
      crefuse (negb (exactKeys v ["ticket"; "receipt"; "admittedAssets"]%string) || (4096 <? byteLength (stringify v)))
        (js "invalid inventory record") $
      match read_record v with
      | None => cthrow (js "invalid inventory record")
      | Some r =>
          let& _ := checkSessionReceipt (ir_ticket r) (ir_receipt r) in
          crefuse (bool_decide (ticketId (ir_ticket r) ∈ ids) || (1 <? length (ir_admittedAssets r))%nat ||
                   negb (forallb (fun id => has_item id (ir_receipt r)) (ir_admittedAssets r))) (js "invalid inventory record") $
          let& rest := read_records (ticketId (ir_ticket r) :: ids) l' in
          cret (r :: rest)
      end
  end.
Definition readInventory (after : Z) : method True :=
  let& cp := cget (fun c => opt (im_checkpoint (image c))) in
  match cp with
  | None => cset (set_catalog [] 0 None)
  | Some cp =>
      let& page := ask (ht_inventoryPage transport (checkpointId cp) after) in
      crefuse (negb (validInventoryPage page cp after)) (js "invalid inventory page") $
      match read_page page (is_version_2 (Some cp)) with
      | None => cthrow (js "invalid inventory page")
      | Some p =>
          let& records := read_records [] (page_records p) in
          cset (set_catalog records after (page_next p))
      end
  end.

Definition is_no_items (r : EncounterReceiptRecord) : bool := (length (items (receipt_statement (ir_receipt r))) =? 0)%nat.
Definition http_conflict (e : jsstr) : bool := str_eqb e (js "encounter HTTP 409").
Definition with_retirement (x : optional InventoryCompaction) (im : EncounterSessionImage) : EncounterSessionImage :=
  mkImage (im_revision im) (im_current im) (im_history im) (im_checkpoint im) (pendingCompaction im) x.
Definition with_retired (cp : InventoryCheckpoint) (im : EncounterSessionImage) : EncounterSessionImage :=
  mkImage (im_revision im) (im_current im) (im_history im) (present cp) (pendingCompaction im) null.
Definition retirementFields (old cp : InventoryCheckpoint) (ids : list jsstr) : bool :=
  let s := cp_statement cp in
  let t := cp_statement old in
  match is_version s with version_2 retire_empty n => n =? inventoryRetiredCount (Some old) + Z.of_nat (length ids) | _ => false end &&
  str_eqb (is_unit s) (ss_unit o) && str_eqb (is_ownerPublicKey s) (as_publicKey (ss_owner o)) &&
  bool_decide (is_previousId s = Some (checkpointId old)) && (is_revision s =? is_revision t + 1) &&
  (is_receiptCount s =? is_receiptCount t) && (itemCount s =? itemCount t).
(** The command of a retirement: the one that is pending, or the empty receipts of
    the page that is shown. *)
Definition retirementIntent (old : InventoryCheckpoint) (pending : option InventoryCompaction) : method InventoryCompaction :=
  match pending with
  | Some command => cret command
  | None =>
      let& page := cget catalog in
      let empty := List.filter is_no_items page in
      crefuse (length empty =? 0)%nat (js "no empty receipts on this page") $
      let& _ := ceach (fun r => checkSessionReceipt (ir_ticket r) (ir_receipt r)) empty in
      cret (mkCompaction (Some (checkpointId old)) (map (fun r => ticketId (ir_ticket r)) empty))
  end.
Definition unfinished_current (im : EncounterSessionImage) : bool :=
  match im_current im with Some c => negb (cleaned c) || bool_decide (recoveryReleasePending c = Some true) | None => false end.
Definition retireEmptyRetained : method True :=
  let& im := cget image in
  match opt (im_checkpoint im) with
  | None => cthrow (js "cleaned inventory checkpoint required")
  | Some old =>
      crefuse (has_intent (pendingCompaction im) || unfinished_current im) (js "cleaned inventory checkpoint required") $
      let& command := retirementIntent old (opt (pendingEmptyRetirement im)) in
      crefuse (negb (bool_decide (expectedCheckpointId command = Some (checkpointId old))) ||
               existsb (fun r => bool_decide (ticketId (ir_ticket r) ∈ ticketIds command)) (retainedReceipts im))
        (js "empty retirement still has local recovery") $
      let& _ := cwhen (negb (has_intent (pendingEmptyRetirement im))) (replace_image (with_retirement (present command))) in
      let& answer := con_error (ask (ht_retireEmptyInventory transport (checkpointId old) (ticketIds command)))
                       (fun e => cwhen (http_conflict e) (replace_image (with_retirement null))) in
      let& valid := crypto_check (verifyInventoryCheckpoint backend answer (trustedKey o)) in
      match read_checkpoint answer with
      | None => cthrow (js "invalid empty retirement checkpoint")
      | Some cp =>
          crefuse (negb valid || negb (retirementFields old cp (ticketIds command))) (js "invalid empty retirement checkpoint") $
          let& batch := digest_of (inventoryRetirementDigest backend (ticketIds command)) in
          crefuse (negb (str_eqb (batchDigest (cp_statement cp)) batch)) (js "invalid empty retirement checkpoint") $
          let& root := digest_of (inventoryNextRoot backend (Some old) (batchDigest (cp_statement cp)) retire_empty) in
          crefuse (negb (str_eqb (is_root (cp_statement cp)) root)) (js "invalid empty retirement checkpoint") $
          let& _ := replace_image (with_retired cp) in
          cset (set_catalog [] 0 None)
      end
  end.

(** ** Compaction *)

Definition statement_or {A} (f : InventoryCheckpointStatement -> A) (d : A) (cp : option InventoryCheckpoint) : A :=
  match cp with Some cp => f (cp_statement cp) | None => d end.
Definition item_total (l : list EncounterReceiptRecord) : Z :=
  foldr (fun r n => Z.of_nat (length (items (receipt_statement (ir_receipt r)))) + n) 0 l.
Definition compactionFields (old : option InventoryCheckpoint) (cp : InventoryCheckpoint) (records : list EncounterReceiptRecord)
    : bool :=
  let s := cp_statement cp in
  str_eqb (is_unit s) (ss_unit o) && str_eqb (is_ownerPublicKey s) (as_publicKey (ss_owner o)) &&
  bool_decide (is_previousId s = checkpointId <$> old) && (is_revision s =? statement_or is_revision 0 old + 1) &&
  (is_receiptCount s =? statement_or is_receiptCount 0 old + Z.of_nat (length records)) &&
  (itemCount s =? statement_or itemCount 0 old + item_total records) &&
  (inventoryRetiredCount (Some cp) =? inventoryRetiredCount old) &&
  match is_version s with version_2 op _ => bool_decide (op = InventoryCheckpoint.append) | version_1 => true end &&
  negb (is_version_2 old && negb (is_version_2 (Some cp))).
Definition with_compaction (x : optional InventoryCompaction) (im : EncounterSessionImage) : EncounterSessionImage :=
  mkImage (im_revision im) (im_current im) (im_history im) (im_checkpoint im) x (pendingEmptyRetirement im).
Definition compacted (cp : InventoryCheckpoint) (im : EncounterSessionImage) : EncounterSessionImage :=
  mkImage (im_revision im) None [] (present cp) null (pendingEmptyRetirement im).
Definition compactRetained : method True :=
  let& before := cget image in
  let& _ := cwhen (has_intent (pendingEmptyRetirement before)) retireEmptyRetained in
  let& im := cget image in
  crefuse (match im_current im with Some c => negb (cleaned c) | None => false end)
    (js "retained session must be closed and cleaned before compaction") $
  let records := retainedReceipts im in
  crefuse ((length records =? 0)%nat || (MAX_RECEIPT_HISTORY <? length records)%nat) (js "invalid compaction receipt count") $
  let& _ := cwhen (match im_current im with Some c => bool_decide (is_Some (sr_termination c)) | None => false end) releaseTerminated in
  let& _ := ceach (fun r => checkSessionReceipt (ir_ticket r) (ir_receipt r)) records in
  let& im := cget image in
  let old := opt (im_checkpoint im) in
  let expected := mkCompaction (checkpointId <$> old) (map (fun r => ticketId (ir_ticket r)) records) in
  crefuse (match opt (pendingCompaction im) with
           | Some p => negb (bool_decide (expectedCheckpointId p = expectedCheckpointId expected)) ||
                       negb (bool_decide (ticketIds p = ticketIds expected))
           | None => false
           end) (js "compaction intent does not match retained receipts") $
  let& _ := cwhen (negb (has_intent (pendingCompaction im))) (replace_image (with_compaction (present expected))) in
  let& answer := ask (ht_compactInventory transport (expectedCheckpointId expected) (ticketIds expected)) in
  let& valid := crypto_check (verifyInventoryCheckpoint backend answer (trustedKey o)) in
  match read_checkpoint answer with
  | None => cthrow (js "invalid inventory compaction result")
  | Some cp =>
      crefuse (negb valid || negb (compactionFields old cp records)) (js "invalid inventory compaction result") $
      let& batch := digest_of (inventoryBatchDigest backend records) in
      crefuse (negb (str_eqb (batchDigest (cp_statement cp)) batch)) (js "invalid inventory compaction result") $
      let& root := digest_of (inventoryNextRoot backend old (batchDigest (cp_statement cp)) InventoryCheckpoint.append) in
      crefuse (negb (str_eqb (is_root (cp_statement cp)) root)) (js "invalid inventory compaction result") $
      let& _ := replace_image (compacted cp) in
      let& _ := close_recorder in
      let& _ := reset_play in
      let& _ := cset (set_phase idle) in
      cset (set_catalog [] 0 None)
  end.

(** ** Recovery *)

Definition admitted (status : EncounterStatus) : method (list jsstr) :=
  crefuse ((1 <? length (status_admittedAssets status))%nat ||
           negb (forallb (fun id => match status_receipt status with Some r => has_item id r | None => false end) (status_admittedAssets status)))
    (js "invalid admitted assets") $
  cret (status_admittedAssets status).
(** The branch on the phase of the authority: the next record, with the phase that
    is shown. *)
Definition recoverPhase (ticket : EncounterTicket) (status : EncounterStatus) (s : option PayloadQueueSnapshot) (next : EncounterSessionRecord)
    : method EncounterSessionRecord :=
  match status_phase status with
  | settled =>
      match status_receipt status, status_commitment status with
      | Some receipt, Some commitment =>
          crefuse (negb (str_eqb (rs_root (receipt_statement receipt)) (c_root commitment))) (js "invalid settled session") $
          let& _ := checkSessionReceipt ticket receipt in
          let& assets := admitted status in
          let& _ := cset (fun c => set_phase ui_settled (set_play (buffer c) (preview c) 60 (savedChunks c) c)) in
          cret (set_record next (Some ticket) (Some receipt) (sr_termination next) sp_settled assets (negb (bool_decide (is_Some s))))
      | _, _ => cthrow (js "invalid settled session")
      end
  | forfeited =>
      let& termination := match status_termination status with
                          | Some t => cret t
                          | None => ask (ht_terminate transport (ticketId ticket) abandoned)
                          end in
      let& valid := crypto_check (verifyEncounterTermination backend ticket termination (trustedKey o)) in
      crefuse (negb valid) (js "invalid stopped session") $
      let& _ := cset (set_phase ui_terminated) in
      cret (with_termination termination next)
  | p =>
      if match s with Some s => (ps_nextSequence s =? 2) && (ps_firstSequence s =? 0) && (ps_itemCount s =? 2) | None => false end then
        let issued_only := phase_eqb p issued in
        let& t := if issued_only then now else cret 0 in
        let& _ := cset (set_phase (if issued_only then if t <? releaseAt ticket then ready else interrupted else waiting)) in
        cret (with_phase (if issued_only then complete else sp_committed) next)
      else
        let& _ := cset (set_phase interrupted) in
        cret next
  end.
Definition recoverCurrent : method True :=
  let& current := cget (fun c => im_current (image c)) in
  match current with
  | None => cset (set_phase idle)
  | Some r =>
      if bool_decide (recoveryReleasePending r = Some true) then releaseTerminated
      else
        let& ticket := match sr_ticket r with
                       | Some t => cret t
                       | None =>
                           let& pending := clift (EncounterRecorder.start recorder_options (sr_authorization r)) in
                           let& _ := clift (closeRecorder pending) in
                           cret (rc_ticket pending)
                       end in
        let& _ := checkTicket ticket (Some (sr_authorization r)) in
        let& status := ask (ht_status transport (ticketId ticket)) in
        let& _ := checkTicket (status_ticket status) (Some (sr_authorization r)) in
        crefuse (negb (str_eqb (ticketId (status_ticket status)) (ticketId ticket))) (js "invalid session status") $
        let& _ := close_recorder in
        let& s := clift (on_pool (scopeSnapshot (queueId ticket))) in
        let& _ := cset (set_play [] None (Z.min 60 (match s with Some s => ps_nextSequence s * 30 | None => 0 end))
                          (match s with Some s => ps_itemCount s | None => 0 end)) in
        let& next := recoverPhase ticket status s (with_ticket ticket (sr_phase r) r) in
        let& _ := match s with
                  | Some _ => let& opened := clift (open recorder_options ticket) in cset (set_recorder (Some opened))
                  | None => cret I
                  end in
        save (Some next)
  end.
Definition initialize : method True := run (
  let& im := store_read in
  let& _ := ceach (fun entry => checkSessionReceipt (ir_ticket entry) (ir_receipt entry)) (im_history im) in
  let& _ := match opt (im_checkpoint im) with
            | Some cp =>
                let& valid := crypto_check (checkpointVerified cp) in
                crefuse (negb valid || negb (str_eqb (is_unit (cp_statement cp)) (ss_unit o)) ||
                         negb (str_eqb (is_ownerPublicKey (cp_statement cp)) (as_publicKey (ss_owner o))))
                  (js "invalid inventory checkpoint owner or unit") (cret I)
            | None => cret I
            end in
  crefuse (match im_current im with
           | Some r => negb (str_eqb (ea_ownerPublicKey (sr_authorization r)) (as_publicKey (ss_owner o))) ||
                       negb (str_eqb (EncounterWire.unit (sr_authorization r)) (ss_unit o))
           | None => false
           end) (js "retained session belongs to another owner or unit") $
  let& _ := cset (set_image im) in
  let& _ := cwhen (has_intent (pendingEmptyRetirement im)) retireEmptyRetained in
  let& _ := cwhen (has_intent (pendingCompaction im)) compactRetained in
  let& _ := recoverCurrent in
  readInventory 0).
Definition refresh : method True := run (
  let& im := cget image in
  let& _ := cwhen (has_intent (pendingEmptyRetirement im)) retireEmptyRetained in
  let& im := cget image in
  let& _ := cwhen (has_intent (pendingCompaction im)) compactRetained in
  let& _ := recoverCurrent in
  let& after := cget catalogAfter in
  readInventory after).

(** ** Playing *)

Definition startSession (a : EncounterAuthorization) : method True := run (
  let& im := cget image in
  let& _ := cwhen (has_intent (pendingEmptyRetirement im)) retireEmptyRetained in
  crefuse (negb (str_eqb (EncounterWire.unit a) (ss_unit o)) || negb (str_eqb (ea_ownerPublicKey a) (as_publicKey (ss_owner o))))
    (js "invalid start owner") $
  let& previous := cget (fun c => im_current (image c)) in
  crefuse (match previous with Some r => negb (cleaned r) | None => false end) (js "retained session must be closed and cleaned first") $
  let& _ := cwhen (match previous with Some r => bool_decide (is_Some (sr_termination r)) | None => false end) releaseTerminated in
  let& im := cget image in
  let& _ := cwhen (has_intent (pendingCompaction im) ||
                   (MAX_RECEIPT_HISTORY <=? length (im_history im) +
                      match im_current im with Some r => if bool_decide (is_Some (sr_receipt r)) then 1 else 0 | None => 0 end)%nat)
              (let& _ := compactRetained in readInventory 0) in
  let& im := cget image in
  let history := retainedReceipts im in
  crefuse (MAX_RECEIPT_HISTORY <=? length history)%nat (js "receipt history capacity exhausted") $
  let& _ := save_all (Some (starting_record a)) history in
  let& old := cget recorder in
  let& _ := match old with Some r => clift (closeRecorder r) | None => cret I end in
  let& started := clift (EncounterRecorder.start recorder_options a) in
  let& _ := cset (set_recorder (Some started)) in
  let ticket := rc_ticket started in
  let& current := cget (fun c => im_current (image c)) in
  match current with
  | None => cthrow (js "TypeError")
  | Some r =>
      let& _ := save (Some (with_ticket ticket playing r)) in
      let& t := now in
      if releaseAt ticket <=? t then cset (set_phase interrupted)
      else
        match createInitialGame (mkCreateGame 0 (ea_playerId (t_authorization ticket))) with
        | inl e => cthrow e
        | inr game => cset (fun c => set_phase ui_playing (set_play [] (Some game) 0 0 c))
        end
  end).
Definition advance_reason (e : AdvanceReason) : jsstr :=
  match e with tick_mismatch => js "tick_mismatch" | invalid_axis => js "invalid_axis" end.
Definition is_stored (r : AppendResult) : bool := match r with ap_stored | ap_duplicate => true | _ => false end.
Definition append_name (r : AppendResult) : string :=
  match r with
  | ap_stored => "stored" | ap_duplicate => "duplicate" | ap_pruned => "pruned" | ap_gap => "gap" | ap_conflict => "conflict"
  | ap_backpressure => "backpressure" | ap_invalid => "invalid"
  end.
Definition stepSession (horizontal vertical : Z) : method True := run (
  let& c := cget id in
  match preview c, recorder c with
  | Some game, Some rec =>
      crefuse (negb (bool_decide (phase c = ui_playing)) || (60 <=? progress c)) (js "session is not playing") $
      let input := mkInputFrame (progress c + 1) horizontal vertical in
      match advanceGame game input with
      | Err e => cthrow (advance_reason e)
      | Ok (state, _) =>
          let frames := buffer c ++ [input] in
          let n := progress c + 1 in
          let& _ := cset (set_play frames (Some state) n (savedChunks c)) in
          let& _ := cwhen (Z.of_nat (length frames) =? 30) (
            let& result := clift (recordChunk recorder_options rec (n / 30 - 1) frames) in
            crefuse (negb (is_stored result)) (js "durable log refused: " ++ js (append_name result)) $
            cset (fun c => set_play [] (preview c) (progress c) (n / 30) c)) in
          cwhen (n =? 60) (
            let& current := cget (fun c => im_current (image c)) in
            match current with
            | None => cthrow (js "TypeError")
            | Some r => let& _ := save (Some (with_phase complete r)) in cset (set_phase ready)
            end)
      end
  | _, _ => cthrow (js "session is not playing")
  end).
Definition finishSettlement (rec : Recorder) (ticket : EncounterTicket) : method True :=
  let& t := now in
  if t <? releaseAt ticket then cset (set_phase waiting)
  else
    let& receipt := clift (recorderSettle recorder_options rec) in
    let& _ := checkSessionReceipt ticket receipt in
    let& current := cget (fun c => im_current (image c)) in
    match current with
    | None => cthrow (js "TypeError")
    | Some r => let& _ := save (Some (with_receipt receipt r)) in cset (set_phase ui_settled)
    end.
Definition advanceSettlement : method True := run (
  let& c := cget id in
  match im_current (image c), recorder c with
  | Some r, Some rec =>
      match sr_ticket r with
      | None => cthrow (js "complete durable log required")
      | Some ticket =>
          crefuse (negb (bool_decide (sr_phase r = complete) || bool_decide (sr_phase r = sp_committed)) || negb (progress c =? 60))
            (js "complete durable log required") $
          if bool_decide (sr_phase r = complete) then
            let& t := now in
            if t <? commitNotBefore ticket then cset (set_phase ready)
            else
              let& t := now in
              if releaseAt ticket <=? t then cset (set_phase interrupted)
              else
                let& _ := clift (recorderCommit recorder_options rec) in
                let& _ := save (Some (with_phase sp_committed r)) in
                finishSettlement rec ticket
          else finishSettlement rec ticket
      end
  | _, _ => cthrow (js "complete durable log required")
  end).

(** ** Ending and cleaning up *)

Definition terminateSession : method True := run (
  let& current := cget (fun c => im_current (image c)) in
  match current with
  | None => cthrow (js "unsettled session required")
  | Some r =>
      match sr_ticket r with
      | None => cthrow (js "unsettled session required")
      | Some ticket =>
          crefuse (bool_decide (is_Some (sr_receipt r))) (js "unsettled session required") $
          let& termination := ask (ht_terminate transport (ticketId ticket) abandoned) in
          let& valid := crypto_check (verifyEncounterTermination backend ticket termination (trustedKey o)) in
          crefuse (negb valid) (js "invalid termination certificate") $
          let& _ := save (Some (with_termination termination r)) in
          let& c := cget id in
          let& _ := cset (set_play [] (preview c) (progress c) (savedChunks c)) in
          cset (set_phase ui_terminated)
      end
  end).
Definition is_released (r : ReleaseResult) : bool := match r with rl_released => true | _ => false end.
Definition is_pruned (r : PruneResult) : bool := match r with pr_pruned => true | _ => false end.
Definition cleanupLog (ticket : EncounterTicket) (r : EncounterSessionRecord) (rec : option Recorder) : method True :=
  match sr_termination r, rec with
  | Some termination, Some rec =>
      let& released := clift (cleanupTerminated recorder_options rec termination) in
      crefuse (negb (is_released released)) (js "terminal cleanup refused") (cret I)
  | Some termination, None =>
      let& grant := ask (ht_closureGrant transport (ticketId ticket) 0 0) in
      crefuse (negb (str_eqb (cg_queueId grant) (queueId ticket)) || negb (str_eqb (closureId grant) (terminationId termination)))
        (js "invalid terminal closure") $
      let& valid := clift (await (verifyEncounterClosureGrant backend grant (trustedKey o))) in
      crefuse (negb valid) (js "invalid terminal closure") (cret I)
  | None, Some rec =>
      let& s := clift (recorderSnapshot rec) in
      let& _ := cwhen (negb (ps_itemCount s =? 0)) (
        let& pruned := clift (recorderPrune recorder_options rec) in
        crefuse (negb (is_pruned pruned)) (js "payload prune refused") (cret I)) in
      if ps_nextSequence s =? 0 then
        let& _ := ask (ht_pruneGrant transport (ticketId ticket) (ps_revision s)) in
        let& released := clift (recorderReleaseEmpty recorder_options rec) in
        crefuse (negb (is_released released)) (js "empty release refused") (cret I)
      else
        let& released := clift (recorderRelease recorder_options rec) in
        crefuse (negb (is_released released)) (js "scope release refused") (cret I)
  | None, None => let& _ := ask (ht_pruneGrant transport (ticketId ticket) 0) in cret I
  end.
Definition cleanup : method True := run (
  let& c := cget id in
  match im_current (image c) with
  | None => cthrow (js "terminal session required")
  | Some r =>
      match sr_ticket r with
      | None => cthrow (js "terminal session required")
      | Some ticket =>
          crefuse (negb (bool_decide (is_Some (sr_receipt r))) && negb (bool_decide (is_Some (sr_termination r))))
            (js "terminal session required") $
          if cleaned r then cret I
          else
            let& _ := cleanupLog ticket r (recorder c) in
            let& _ := close_recorder in
            let& c := cget id in
            let& _ := cset (set_play (buffer c) (preview c) (progress c) 0) in
            let& _ := save (Some (with_cleaned r)) in
            cset (set_phase (if bool_decide (is_Some (sr_receipt r)) then ui_settled else ui_terminated))
      end
  end).
Definition forgetTerminated : method True := run releaseTerminated.
Definition archiveSession : method True := run (
  let& c := cget id in
  match im_current (image c), recorder c with
  | Some r, Some rec =>
      crefuse (negb (bool_decide (is_Some (sr_receipt r))) || cleaned r) (js "retained settled log required for archive") $
      let& custody := clift (recorderArchive recorder_options rec) in
      let& released := clift (cleanupArchived recorder_options rec custody) in
      crefuse (negb (is_released released)) (js "archive handoff refused") $
      let& _ := close_recorder in
      let& c := cget id in
      let& _ := cset (set_play (buffer c) (preview c) (progress c) 0) in
      let& _ := save (Some (with_cleaned r)) in
      cset (set_phase ui_settled)
  | _, _ => cthrow (js "retained settled log required for archive")
  end).

(** ** The market and the inventory *)

Definition has_id (ticket : option jsstr) (r : EncounterReceiptRecord) : bool := bool_decide (Some (ticketId (ir_ticket r)) = ticket).
Definition admit_record (assetId : jsstr) (ticket : option jsstr) (r : EncounterReceiptRecord) : EncounterReceiptRecord :=
  if has_id ticket r then mkRecord (ir_ticket r) (ir_receipt r) [assetId] else r.
Definition admitItem (assetId : jsstr) (given : option jsstr) : method True := run (
  let& c := cget id in
  let current := im_current (image c) in
  let ticket := match given with Some t => Some t | None => ticketId <$> (current ≫= sr_ticket) end in
  let own := List.find (has_id ticket) (current_receipt current) in
  let record := match own with Some r => Some r | None => List.find (has_id ticket) (im_history (image c)) end in
  let selected := match record with Some r => Some r | None => List.find (has_id ticket) (catalog c) end in
  match selected with
  | None => cthrow (js "unknown receipt item")
  | Some s =>
      crefuse (negb (has_item assetId (ir_receipt s))) (js "unknown receipt item") $
      let& _ := checkSessionReceipt (ir_ticket s) (ir_receipt s) in
      let& listing := clift (await (signEncounterListing backend (ir_receipt s) assetId (ss_owner o))) in
      let& result := ask (ht_admitToMarket transport listing) in
      crefuse (negb (fst result) || negb (str_eqb (snd result) assetId)) (js "invalid market response") $
      let& _ :=
        match current with
        | Some r =>
            if bool_decide (is_Some (sr_ticket r) /\ (ticketId <$> sr_ticket r) = ticket) then save (Some (with_assets [assetId] r))
            else cwhen (bool_decide (is_Some record)) (
                   let& im := cget image in save_all current (map (admit_record assetId ticket) (im_history im)))
        | None => cwhen (bool_decide (is_Some record)) (
                   let& im := cget image in save_all current (map (admit_record assetId ticket) (im_history im)))
        end in
      cset (fun c => set_catalog (map (admit_record assetId ticket) (catalog c)) (catalogAfter c) (catalogNext c) c)
  end).
Definition compact : method True := run (let& _ := compactRetained in readInventory 0).
Definition loadInventory (next : bool) : method True := run (
  let& c := cget id in
  readInventory (if next then default 0 (catalogNext c) else 0)).
Definition retireEmptyInventory : method True := run (let& _ := retireEmptyRetained in readInventory 0).
Definition closeSession : method True := close_recorder.
Definition interrupt : method True := cset (fun c => if bool_decide (phase c = ui_playing) then set_phase interrupted c else c).

(** ** A page *)

Inductive session_op :=
| so_initialize | so_refresh | so_start (a : EncounterAuthorization) | so_step (horizontal vertical : Z) | so_advanceSettlement
| so_terminate | so_cleanup | so_forget | so_archive | so_admit (assetId : jsstr) (ticket : option jsstr) | so_compact
| so_load (next : bool) | so_retireEmpty | so_close | so_interrupt.
Definition session_method (op : session_op) : method True :=
  match op with
  | so_initialize => initialize
  | so_refresh => refresh
  | so_start a => startSession a
  | so_step h v => stepSession h v
  | so_advanceSettlement => advanceSettlement
  | so_terminate => terminateSession
  | so_cleanup => cleanup
  | so_forget => forgetTerminated
  | so_archive => archiveSession
  | so_admit a t => admitItem a t
  | so_compact => compact
  | so_load next => loadInventory next
  | so_retireEmpty => retireEmptyInventory
  | so_close => closeSession
  | so_interrupt => interrupt
  end.
(** What a page does with its controller; an operation that throws leaves it as
    it is then. *)
Fixpoint page (ops : list session_op) (c : Controller) : async World Controller :=
  match ops with
  | [] => aret c
  | op :: ops' => let* r := session_method op c in page ops' (fst r)
  end.
End Session.
