(* ===== verification/EncounterSessionSafety.v ===== *)
(** * What the session store of the client keeps

    Any number of pages, whatever the network answers: the stored image changes
    only by steps that keep its evidence.  A page works on a copy of the image;
    the store accepts a write only from a page whose copy is current ([known]),
    so that a step the page makes from its copy is a step of the store. *)
From Stdlib Require Import ZifyBool.
From stdpp Require Import gmap.
From S2P Require Import Prelude Json Contracts Kernel Utf8 CryptoBackend EncounterWire EncounterHttp EncounterBundle InventoryCheckpoint Inventory EncounterLedger EncounterAuthority InventoryFacts Async IndexedDb PayloadQueue PayloadPool EncounterSessionStore EncounterRecorder EncounterSession EncounterWireFacts EncounterSafety.
Set Default Goal Selector "!".

(** ** Code that leaves the image alone *)

Section Quiet.
Context {N K : Type}.
Abbreviation World := (ClientWorld N K).
Definition same_image (w w' : World) : Prop := db_session (cw_session w') = db_session (cw_session w).
#[export] Instance same_image_preorder : PreOrder same_image.
Proof. split; [done|]. intros a b c. unfold same_image. congruence. Qed.
Abbreviation quiet := (within same_image).

Lemma quiet_zoom {A} (m : async PoolWorld A) : quiet (on_pool m : async World A).
Proof.
  intros w. unfold on_pool, zoom. destruct (m (cw_pool w)) as [v s]. split; [done|]. cbn [snd]. clear.
  induction s as [r|k IH] using step_ind'; cbn [zoom_step step_within]; [done|]. intros w'.
  specialize (IH (cw_pool w')). by destruct (k (cw_pool w')).
Qed.
Lemma quiet_call {A} (f : N -> N * throws A) : quiet (call f : async World A).
Proof. intros w. split; [done|]. cbn. intros w'. by destruct (f (cw_net w')). Qed.
Lemma quiet_terminated id : quiet (set_terminated id : async World True).
Proof. by intros w. Qed.
Lemma quiet_attempt {A} (m : async World A) : quiet m -> quiet (attempt m).
Proof.
  intros Hm w. destruct (Hm w) as [Hg Hs]. unfold attempt. destruct (m w) as [w1 s]. split; [done|]. cbn [snd] in *. clear Hg.
  induction s as [r|k IH] using step_ind'; cbn [attempt_step step_within] in *; [done|]. intros w'.
  destruct (Hs w') as [Hg Hk]. specialize (IH w'). destruct (k w') as [w2 s2]. cbn [fst snd] in *. auto.
Qed.
Lemma quiet_transaction {A} (body : idb (SessionDb K) A) :
  (forall d, db_session (fst (committed body d)) = db_session d) -> quiet (idb_transaction cw_session set_session body : async World A).
Proof.
  intros Hb w. split; [done|]. cbn. intros w'. specialize (Hb (cw_session w')).
  by destruct (committed body (cw_session w')).
Qed.
End Quiet.
Abbreviation quiet := (within same_image).
(** Statement by statement; calls of recorder methods are unfolded. *)
Ltac quiet_step :=
  first [ apply quiet_zoom | apply quiet_call | apply quiet_terminated | apply within_ret | apply within_throw | apply within_throws
        | apply within_read | apply within_await | apply quiet_attempt | (apply within_bind; [exact _| |intros ?])
        | apply within_refuse | match goal with |- within _ (match ?x with _ => _ end) => destruct x end ]; try exact _.
Ltac quiet := repeat quiet_step.

Section Recorder.
Context {N K : Type} (options : RecorderOptions N).
Abbreviation quiet' := (within (@same_image N K)).
Lemma start_quiet a : quiet' (EncounterRecorder.start options a).
Proof. unfold EncounterRecorder.start, requestTicket. quiet. Qed.
Lemma open_quiet t : quiet' (EncounterRecorder.open options t).
Proof. unfold EncounterRecorder.open. quiet. Qed.
Lemma record_quiet r n l : quiet' (recordChunk options r n l).
Proof. unfold recordChunk, isTerminated. quiet. Qed.
Lemma commit_quiet r : quiet' (recorderCommit options r).
Proof. unfold recorderCommit, prepared, recorderSnapshot. quiet. Qed.
Lemma settle_quiet r : quiet' (recorderSettle options r).
Proof. unfold recorderSettle, prepared, recorderSnapshot, checkReceipt. quiet. Qed.
Lemma archive_quiet r : quiet' (recorderArchive options r).
Proof. unfold recorderArchive, prepared, recorderSnapshot, checkArchive. quiet. Qed.
Lemma cleanup_archived_quiet r v : quiet' (cleanupArchived options r v).
Proof. unfold cleanupArchived, prepared, recorderSnapshot, checkArchive. quiet. Qed.
Lemma cleanup_terminated_quiet r v : quiet' (cleanupTerminated options r v).
Proof. unfold cleanupTerminated, recorderSnapshot. quiet. Qed.
Lemma prune_quiet r : quiet' (recorderPrune options r).
Proof. unfold recorderPrune, recorderSnapshot. quiet. Qed.
Lemma release_quiet r : quiet' (recorderRelease options r).
Proof. unfold recorderRelease, recorderSnapshot. quiet. Qed.
End Recorder.
#[export] Hint Resolve start_quiet open_quiet record_quiet commit_quiet settle_quiet archive_quiet cleanup_archived_quiet
  cleanup_terminated_quiet prune_quiet release_quiet quiet_zoom quiet_call within_await : quiet.

(** ** The steps of the image *)

Section Safety.
Context `{JsHost} {N : Type} (subtle : SubtleCrypto) (o : SessionOptions N).
Abbreviation Key := (WebCryptoSigningKeyMaterial subtle).
Abbreviation World := (ClientWorld N Key).
Abbreviation backend := (ss_backend o).

Definition ticket_verified (t : EncounterTicket) : Prop :=
  verifyEncounterTicket backend t (trustedKey o) = true /\ EncounterWire.unit (t_authorization t) = ss_unit o /\
  ea_ownerPublicKey (t_authorization t) = as_publicKey (ss_owner o).
(** The receipt of the trusted authority for a ticket of this owner. *)
Definition record_verified (e : EncounterReceiptRecord) : Prop :=
  ticket_verified (ir_ticket e) /\ verifyEncounterReceipt backend (ir_receipt e) (trustedKey o) = true /\
  receiptMismatch (ir_ticket e) (ir_receipt e) None = false.
(** [cp] is signed by the authority and follows [old]. *)
Definition checkpoint_follows (old : option InventoryCheckpoint) (cp : InventoryCheckpoint) : Prop :=
  verifyInventoryCheckpoint backend (checkpoint_object cp) (trustedKey o) = true /\
  is_unit (cp_statement cp) = ss_unit o /\ is_ownerPublicKey (cp_statement cp) = as_publicKey (ss_owner o) /\
  is_previousId (cp_statement cp) = checkpointId <$> old /\
  is_revision (cp_statement cp) = statement_or is_revision 0 old + 1.

(** Its log or its certificate is still needed. *)
Definition unfinished (r : EncounterSessionRecord) : Prop := cleaned r = false \/ sr_receipt r = None.
Definition same_session (r r' : EncounterSessionRecord) : Prop :=
  sr_authorization r' = sr_authorization r /\ (forall t, sr_ticket r = Some t -> sr_ticket r' = Some t).
Definition receipts_kept (im im' : EncounterSessionImage) : Prop :=
  forall e, e ∈ retainedReceipts im -> exists e', e' ∈ retainedReceipts im' /\ ir_ticket e' = ir_ticket e /\
    (ir_receipt e' = ir_receipt e \/ record_verified e').

Inductive image_step (im im' : EncounterSessionImage) : Prop :=
| keep_evidence :
    opt (im_checkpoint im') = opt (im_checkpoint im) -> receipts_kept im im' ->
    (forall r, im_current im = Some r -> unfinished r -> exists r', im_current im' = Some r' /\ same_session r r') ->
    image_step im im'
| release_session r :
    im_current im = Some r -> recoveryReleasePending r = Some true -> cleaned r = true -> is_Some (sr_termination r) -> sr_receipt r = None ->
    im_current im' = None -> im_history im' = im_history im -> opt (im_checkpoint im') = opt (im_checkpoint im) ->
    image_step im im'
| retire_receipts old cp ids :
    opt (im_checkpoint im) = Some old -> opt (im_checkpoint im') = Some cp -> checkpoint_follows (Some old) cp ->
    is_receiptCount (cp_statement cp) = is_receiptCount (cp_statement old) -> itemCount (cp_statement cp) = itemCount (cp_statement old) ->
    inventoryRetirementDigest backend ids = inr (batchDigest (cp_statement cp)) ->
    (forall e, e ∈ retainedReceipts im -> ticketId (ir_ticket e) ∉ ids) ->
    im_current im' = im_current im -> im_history im' = im_history im ->
    image_step im im'
| compact_receipts cp :
    opt (im_checkpoint im') = Some cp -> checkpoint_follows (opt (im_checkpoint im)) cp ->
    is_receiptCount (cp_statement cp) =
      statement_or is_receiptCount 0 (opt (im_checkpoint im)) + Z.of_nat (length (retainedReceipts im)) ->
    inventoryBatchDigest backend (retainedReceipts im) = inr (batchDigest (cp_statement cp)) ->
    Forall record_verified (retainedReceipts im) ->
    (forall r, im_current im = Some r -> ~ unfinished r) -> im_current im' = None -> im_history im' = [] ->
    image_step im im'.

(** What holds of every stored image. *)
Definition session_ok (r : EncounterSessionRecord) : Prop :=
  (is_Some (sr_receipt r) -> is_Some (sr_ticket r)) /\
  (cleaned r = true -> is_Some (sr_ticket r) /\ (is_Some (sr_receipt r) \/ is_Some (sr_termination r))).
Definition image_ok (im : EncounterSessionImage) : Prop :=
  0 <= im_revision im /\ Forall record_verified (retainedReceipts im) /\ (forall r, im_current im = Some r -> session_ok r).
(** [undefined] and [null] are read alike. *)
Definition normal (im : EncounterSessionImage) : EncounterSessionImage :=
  mkImage (im_revision im) (im_current im) (im_history im) (or_null (im_checkpoint im)) (or_null (pendingCompaction im))
    (or_null (pendingEmptyRetirement im)).

Definition stored (w : World) : EncounterSessionImage := default empty_image (db_session (cw_session w)).
Definition store_ok (w : World) : Prop :=
  image_ok (stored w) /\ (im_revision (stored w) = 0 -> normal (stored w) = normal empty_image).
Definition write_step (im im' : EncounterSessionImage) : Prop := image_step im im' /\ im_revision im' = im_revision im + 1.
Definition evolves (w w' : World) : Prop := rtc write_step (stored w) (stored w').
#[export] Instance evolves_preorder : PreOrder evolves.
Proof. split; [intros w; apply rtc_refl|]. intros a b c. unfold evolves. apply transitivity. Qed.

(** The copy of a page: an image that is, or was, in the store. *)
Definition known_image (im : EncounterSessionImage) (w : World) : Prop :=
  image_ok im /\ im_revision im <= im_revision (stored w) /\
  (im_revision im = im_revision (stored w) -> normal im = normal (stored w)).
Definition known (c : Controller) (w : World) : Prop := known_image (image c) w.

Lemma writes_count im im' : rtc write_step im im' -> im = im' \/ im_revision im < im_revision im'.
Proof.
  intros Hs. induction Hs as [|im1 im2 im3 [_ E] _ IH]; [by left|]. right. destruct IH as [->|]; lia.
Qed.
Lemma known_later im w w' : evolves w w' -> known_image im w -> known_image im w'.
Proof.
  intros Hs (Hok & Hle & Heq). unfold known_image. destruct (writes_count _ _ Hs) as [E|E]; [by rewrite <- E|].
  split; [done|]. split; [lia|]. lia.
Qed.
Lemma opt_or_null {A} (x : optional A) : opt (or_null x) = opt x.
Proof. by destruct x. Qed.
Lemma normal_eq im im' : normal im = normal im' ->
  im_current im = im_current im' /\ im_history im = im_history im' /\ opt (im_checkpoint im) = opt (im_checkpoint im').
Proof.
  intros [= _ -> -> E _ _]. split_and!; [done..|]. by rewrite <- (opt_or_null (im_checkpoint im)), E, opt_or_null.
Qed.
Lemma retained_eq im im' : im_current im = im_current im' -> im_history im = im_history im' -> retainedReceipts im = retainedReceipts im'.
Proof. unfold retainedReceipts. by intros -> ->. Qed.
(** A step reads only the current session, the history and the checkpoint. *)
Lemma image_step_normal im0 im im' : normal im0 = normal im -> image_step im im' -> image_step im0 im'.
Proof.
  intros (Ec & Eh & Ep)%normal_eq Hs. pose proof (retained_eq _ _ Ec Eh) as Er.
  destruct Hs as [Hcp Hk Hu|r Hr Hp Hc Ht Hn Hc' Hh Hcp|old cp ids Ho Hcp Hf Hn Hi Hb Hd Hc' Hh|cp Hcp Hf Hn Hb Hv Hu Hc' Hh].
  - apply keep_evidence; [congruence| |by rewrite Ec]. intros e. rewrite Er. apply Hk.
  - apply (release_session _ _ r); congruence.
  - apply (retire_receipts _ _ old cp ids); try congruence. by rewrite Er.
  - apply (compact_receipts _ _ cp); rewrite ?Ep, ?Er, ?Ec; done.
Qed.
Lemma image_step_revision im im' n : image_step im im' -> image_step im (with_revision n im').
Proof. intros []; econstructor; eassumption. Qed.
Lemma image_ok_revision im n : 0 <= n -> image_ok im -> image_ok (with_revision n im).
Proof. intros Hn (_ & Hv & Hc). by split. Qed.

(** ** Methods *)

(** Started on a controller whose copy is known, a method keeps the store, the
    steps and the copy; what it returns has [Q]. *)
Definition mspec {A} (m : ctl World A) (c : Controller) (Q : Controller -> A -> Prop) : Prop :=
  forall w, store_ok w -> known c w ->
    spec store_ok evolves (m c) w (fun r w' => exists c' res, r = inr (c', res) /\ known c' w' /\
      match res with inr a => Q c' a | inl _ => True end).

Lemma mspec_ret {A} (a : A) c (Q : Controller -> A -> Prop) : Q c a -> mspec (cret a) c Q.
Proof. intros Hq w Hw Hc. apply spec_ret; [exact _|done|]. by exists c, (inr a). Qed.
Lemma mspec_throw {A} e c (Q : Controller -> A -> Prop) : mspec (cthrow e) c Q.
Proof. intros w Hw Hc. apply spec_ret; [exact _|done|]. by exists c, (inl e). Qed.
Lemma mspec_get {A} (f : Controller -> A) c (Q : Controller -> A -> Prop) : Q c (f c) -> mspec (cget f) c Q.
Proof. apply (mspec_ret (f c)). Qed.
Lemma mspec_set f c (Q : Controller -> True -> Prop) : image (f c) = image c -> Q (f c) I -> mspec (cset f) c Q.
Proof.
  intros E Hq w Hw Hc. apply spec_ret; [exact _|done|]. exists (f c), (inr I). split_and!; [done| |done]. unfold known. by rewrite E.
Qed.
Lemma mspec_refuse {A} b e (k : ctl World A) c Q : (b = false -> mspec k c Q) -> mspec (crefuse b e k) c Q.
Proof. intros Hk. destruct b; [apply mspec_throw|by apply Hk]. Qed.
Lemma mspec_bind {A B} (m : ctl World A) (f : A -> ctl World B) c P Q :
  mspec m c P -> (forall a c', P c' a -> mspec (f a) c' Q) -> mspec (cbind m f) c Q.
Proof.
  intros Hm Hf w Hw Hc. eapply spec_bind; [exact _|by apply Hm| |].
  - intros r w' Hi Hr (c' & res & [= ->] & Hk & Hq). destruct res as [e|a].
    + apply spec_ret; [exact _|done|]. by exists c', (inl e).
    + by apply (Hf a c').
  - by intros e w' _ _ (c' & res & [=] & _).
Qed.
Lemma mspec_weaken {A} (m : ctl World A) c P Q : mspec m c P -> (forall c' a, P c' a -> Q c' a) -> mspec m c Q.
Proof.
  intros Hm HPQ w Hw Hc. eapply spec_weaken; [exact _|by apply Hm|].
  intros r w' _ _ (c' & res & -> & Hk & Hq). exists c', res. split_and!; [done..|]. destruct res; [done|by apply HPQ].
Qed.
Lemma mspec_on_error {A} (m : ctl World A) h c (Q : Controller -> A -> Prop) :
  mspec m c Q -> (forall e c', mspec (h e) c' (fun _ _ => True)) -> mspec (con_error m h) c Q.
Proof.
  intros Hm Hh w Hw Hc. eapply spec_bind; [exact _|by apply Hm| |].
  - intros r w' Hi Hr (c' & res & [= ->] & Hk & Hq). destruct res as [e|a].
    + eapply spec_bind; [exact _|by apply Hh| |].
      * intros r w2 Hi2 Hr2 (c2 & res & [= ->] & Hk2 & _). destruct res as [e'|a]; (apply spec_ret; [exact _|done|]); eauto 6.
      * by intros e' w2 _ _ (c2 & res & [=] & _).
    + apply spec_ret; [exact _|done|]. by exists c', (inr a).
  - by intros e w' _ _ (c' & res & [=] & _).
Qed.
Lemma mspec_when b (m : ctl World True) c Q :
  (b = true -> mspec m c Q) -> (b = false -> Q c I) -> mspec (cwhen b m) c Q.
Proof. intros Ht Hf. destruct b; [by apply Ht|by apply mspec_ret, Hf]. Qed.
Lemma mspec_each {A} (f : A -> ctl World True) l c (P : A -> Prop) :
  (forall x, mspec (f x) c (fun c' _ => c' = c /\ P x)) -> mspec (ceach f l) c (fun c' _ => c' = c /\ Forall P l).
Proof.
  intros Hf. induction l as [|x l IH]; cbn [ceach]; [by apply mspec_ret|].
  eapply mspec_bind; [apply Hf|]. intros a c' [-> Hx]. eapply mspec_weaken; [apply IH|]. intros c2 _ [-> Hl]. by split; [|constructor].
Qed.

(** Code that leaves the image alone keeps the steps, whatever others do. *)
Lemma quiet_spec {A} (m : async World A) w : quiet m -> store_ok w -> spec store_ok evolves m w (fun _ _ => True).
Proof.
  assert (Hq : forall w w', same_image w w' -> store_ok w -> store_ok w' /\ evolves w w').
  { intros w1 w2 E Hw. unfold store_ok, evolves, stored in *. rewrite E. by split. }
  intros Hm Hw. destruct (Hm w) as [Hg Hs]. destruct (Hq _ _ Hg Hw) as [Hi Hr]. split_and!; [done..|]. clear Hg Hr Hw Hm.
  generalize dependent (fst (m w)). generalize dependent (snd (m w)). intros s.
  induction s as [r|k IH] using step_ind'; intros Hs w1 Hi; cbn [settles step_within] in *; [done|].
  intros w' Hi' _. destruct (Hs w') as [Hg Hk]. destruct (Hq _ _ Hg Hi') as [Hi2 Hr2]. split_and!; [done..|]. by apply IH.
Qed.
Lemma attempt_spec {A} (m : async World A) w (Q : throws A -> World -> Prop) :
  spec store_ok evolves m w Q -> spec store_ok evolves (attempt m) w (fun r w' => exists r', r = inr r' /\ Q r' w').
Proof.
  intros (Hi & Hr & Hs). unfold spec, attempt. destruct (m w) as [w1 s]. cbn [fst snd] in *. split_and!; [done..|]. clear Hi Hr.
  revert w1 Hs. induction s as [r|k IH] using step_ind'; intros w1 Hs; cbn [settles attempt_step] in *; [eauto|].
  intros w' Hi Hr. destruct (Hs w' Hi Hr) as (Hi2 & Hr2 & Hs2). specialize (IH w'). destruct (k w') as [w2 s2]. cbn [fst snd] in *.
  split_and!; [done..|]. by apply IH.
Qed.
(** A call whose answer, if it has one, has [P]. *)
Lemma mspec_lift {A} (m : async World A) c (P : A -> Prop) (Q : Controller -> A -> Prop) :
  (forall w, store_ok w -> known c w -> spec store_ok evolves m w (fun r _ => match r with inr a => P a | inl _ => True end)) ->
  (forall a, P a -> Q c a) -> mspec (clift m) c Q.
Proof.
  intros Hm HPQ w Hw Hc. eapply spec_bind; [exact _|by apply attempt_spec, Hm| |].
  - intros a w' Hi Hr (r' & [= ->] & Hp). apply spec_ret; [exact _|done|].
    exists c, r'. split_and!; [done|by apply (known_later _ w)|]. destruct r'; [done|by apply HPQ].
  - by intros e w' _ _ (r' & [=] & _).
Qed.
Lemma mspec_quiet {A} (m : async World A) c : quiet m -> mspec (clift m) c (fun c' _ => c' = c).
Proof.
  intros Hm. apply (mspec_lift _ _ (fun _ => True)); [|done]. intros w Hw Hc.
  eapply spec_weaken; [exact _|by apply quiet_spec|]. by intros [].
Qed.
Lemma mspec_await {A} (r : throws A) c : mspec (clift (await r)) c (fun c' a => c' = c /\ r = inr a).
Proof.
  apply (mspec_lift _ _ (fun a => r = inr a)); [|done]. intros w Hw Hc. apply spec_await; [exact _|done|]. intros w' _ _. by destruct r.
Qed.

(** ** The store *)

Lemma stored_put im w : stored (set_session (put_session im (cw_session w)) w) = im.
Proof. done. Qed.
Lemma write_commits im n (w w' : World) d r :
  committed (write_body subtle (ss_injectWriteFault o) im n) (cw_session w) = (d, r) ->
  match r with
  | inl _ => d = cw_session w
  | inr next => im_revision (stored w) = n /\ next = with_revision (n + 1) im /\ d = put_session next (cw_session w)
  end.
Proof.
  destruct r as [e|next]; intros E; [by apply committed_throws in E|]. apply (proj1 (committed_ok _ _ _ _)) in E.
  unfold write_body in E. idb_run E. subst.
  assert (Er : match db_session (cw_session w) with Some old => im_revision old | None => 0 end = im_revision (stored w))
    by (unfold stored; by destruct (db_session (cw_session w))).
  rewrite Er in *. assert (En : im_revision (stored w) = n) by lia. by rewrite En.
Qed.
Lemma write_spec im0 im w :
  store_ok w -> known_image im0 w -> image_step im0 im -> image_ok im ->
  spec store_ok evolves (write subtle cw_session set_session (ss_injectWriteFault o) im (im_revision im0)) w
    (fun r w' => match r with inr next => next = with_revision (im_revision im0 + 1) im /\ known_image next w' | inl _ => True end).
Proof.
  intros Hw Hk Hstep Hok. unfold write. unfold refuse_if. destruct (_ <? _); [by apply spec_throw; [exact _| |]|].
  apply (spec_bind _ _ _ _ _ (fun _ _ => True)); [by apply spec_of_throws; [exact _| |]| |done]. intros _ w1 Hi1 Hr1 _.
  split; [done|]. split; [done|]. intros w2 Hi2 Hr2. cbn beta.
  destruct (committed _ _) as [d r] eqn:E. apply (write_commits _ _ _ w2) in E. destruct r as [e|next]; cbn [fst snd settles].
  { subst d. by destruct w2. }
  destruct E as (Er & En & ->). set (im1 := with_revision (im_revision im0 + 1) im) in *. rewrite En.
  assert (Hk2 : known_image im0 w2) by (apply (known_later _ w); [by etrans|done]). destruct Hk2 as (H0 & Hle & Heq).
  assert (Hnew : image_ok im1) by (apply image_ok_revision; [destruct H0; lia|done]).
  split; [|split].
  - split; rewrite stored_put; [done|]. cbn. destruct H0. lia.
  - unfold evolves. rewrite stored_put. apply rtc_once. split; [|cbn; lia]. apply image_step_revision.
    apply (image_step_normal _ im0); [|done]. symmetry. auto.
  - split; [done|]. unfold known_image. rewrite stored_put. split_and!; [done|lia|done].
Qed.

Definition saved (f : EncounterSessionImage -> EncounterSessionImage) (c : Controller) : Controller :=
  set_image (with_revision (im_revision (image c) + 1) (f (image c))) c.
Lemma replace_spec f c (Q : Controller -> True -> Prop) :
  image_step (image c) (f (image c)) -> image_ok (f (image c)) -> Q (saved f c) I -> mspec (replace_image subtle o f) c Q.
Proof.
  intros Hstep Hok Hq. unfold replace_image. eapply mspec_bind; [by apply (mspec_get image c (fun c' a => c' = c /\ a = image c))|].
  intros a c' [-> ->] w Hw Hk. unfold cbind, store_write, clift.
  eapply (spec_bind _ _ _ _ _ (fun r w' => exists res, r = inr (c, res) /\ match res with
    | inr next => next = with_revision (im_revision (image c) + 1) (f (image c)) /\ known_image next w'
    | inl _ => known c w' end)).
  - eapply spec_bind; [exact _|by apply attempt_spec, write_spec| |].
    + intros r w' Hi Hr (r' & [= ->] & Hp). apply spec_ret; [exact _|done|]. exists r'. split; [done|].
      destruct r'; [by apply (known_later _ w)|done].
    + by intros e w' _ _ (r' & [=] & _).
  - intros r w' Hi Hr (res & [= ->] & Hp). destruct res as [e|next]; (apply spec_ret; [exact _|done|]).
    + by exists c, (inl e).
    + destruct Hp as [-> Hp]. by exists (saved f c), (inr I).
  - by intros e w' _ _ (r' & [=] & _).
Qed.

(** What [m] needs besides the copy of the page: an image that it has read. *)
Definition mspec_after {A} (im : EncounterSessionImage) (m : ctl World A) (c : Controller) (Q : Controller -> A -> Prop) : Prop :=
  forall w, store_ok w -> known c w -> known_image im w ->
    spec store_ok evolves (m c) w (fun r w' => exists c' res, r = inr (c', res) /\ known c' w' /\
      match res with inr a => Q c' a | inl _ => True end).
Lemma after_bind {A B} im (m : ctl World A) (f : A -> ctl World B) c P Q :
  mspec m c P -> (forall a c', P c' a -> mspec_after im (f a) c' Q) -> mspec_after im (cbind m f) c Q.
Proof.
  intros Hm Hf w Hw Hc Him. eapply spec_bind; [exact _|by apply Hm| |].
  - intros r w' Hi Hr (c' & res & [= ->] & Hk & Hq). destruct res as [e|a].
    + apply spec_ret; [exact _|done|]. by exists c', (inl e).
    + apply (Hf a c'); [done..|]. by apply (known_later _ w).
  - by intros e w' _ _ (c' & res & [=] & _).
Qed.
Lemma after_refuse {A} im b e (k : ctl World A) c Q : (b = false -> mspec_after im k c Q) -> mspec_after im (crefuse b e k) c Q.
Proof. intros Hk. destruct b; [intros w Hw Hc _; by apply mspec_throw|by apply Hk]. Qed.
Lemma after_set {A} im (k : True -> ctl World A) c Q :
  mspec (k I) (set_image im c) Q -> mspec_after im (cbind (cset (set_image im)) k) c Q.
Proof. intros Hk w Hw Hc Him. by apply Hk. Qed.
Lemma read_bind {A} (f : EncounterSessionImage -> ctl World A) c Q :
  (forall im, mspec_after im (f im) c Q) -> mspec (cbind (store_read subtle) f) c Q.
Proof.
  intros Hf w Hw Hc. unfold cbind, store_read, clift.
  eapply (spec_bind _ _ _ _ _ (fun r w' => exists res, r = inr (c, res) /\ known c w' /\ match res with
    | inr im => known_image im w' | inl _ => True end)).
  - eapply (spec_bind _ _ _ _ _ (fun r w' => exists res, r = inr res /\ match res with inr im => known_image im w' | inl _ => True end)).
    + apply attempt_spec. split; [done|]. split; [done|]. intros w' Hi Hr. cbn beta.
      destruct (committed _ (cw_session w')) as [d [e|a]] eqn:E; cbn [fst snd settles].
      * apply committed_throws in E as ->. by destruct w'.
      * apply (proj1 (committed_ok _ _ _ _)) in E. unfold read_body in E. idb_run E. subst a a0. destruct Hi as [Hok Hz].
        unfold store_ok, evolves. change (stored (set_session (cw_session w') w')) with (stored w').
        split; [done|]. split; [reflexivity|]. unfold known_image. change (default empty_image (db_session (cw_session w'))) with (stored w').
        change (stored (set_session (cw_session w') w')) with (stored w'). split; [exact Hok|]. split; [cbn; lia|].
        intros _. unfold normal. cbn. by destruct (im_checkpoint (stored w')), (pendingCompaction (stored w')).
    + intros r w' Hi Hr (res & [= ->] & Hp). apply spec_ret; [exact _|done|]. exists res. split_and!; [done|by apply (known_later _ w)|done].
    + by intros e w' _ _ (r' & [=] & _).
  - intros r w' Hi Hr (res & [= ->] & Hk & Hp). destruct res as [e|im]; [|by apply Hf].
    apply spec_ret; [exact _|done|]. by exists c, (inl e).
  - by intros e w' _ _ (r' & [=] & _).
Qed.

(** ** Statements *)

Lemma get_bind {A B} (f : Controller -> A) (k : A -> ctl World B) c Q : mspec (k (f c)) c Q -> mspec (cbind (cget f) k) c Q.
Proof. done. Qed.
Lemma ret_bind {A B} (a : A) (k : A -> ctl World B) c Q : mspec (k a) c Q -> mspec (cbind (cret a) k) c Q.
Proof. done. Qed.
Lemma throw_bind {A B} e (k : A -> ctl World B) c Q : mspec (cbind (cthrow e) k) c Q.
Proof. exact (mspec_throw e c Q). Qed.
Lemma set_bind {B} f (k : True -> ctl World B) c Q : image (f c) = image c -> mspec (k I) (f c) Q -> mspec (cbind (cset f) k) c Q.
Proof. intros E Hk w Hw Hc. apply Hk; [done|]. unfold known. by rewrite E. Qed.
Lemma quiet_bind {A B} (m : async World A) (k : A -> ctl World B) c Q :
  quiet m -> (forall a, mspec (k a) c Q) -> mspec (cbind (clift m) k) c Q.
Proof. intros Hm Hk. eapply mspec_bind; [by apply mspec_quiet|]. by intros a c' ->. Qed.
Lemma ask_bind {A B} (f : N -> N * throws A) (k : A -> ctl World B) c Q :
  (forall a, mspec (k a) c Q) -> mspec (cbind (ask subtle f) k) c Q.
Proof. intros Hk. apply quiet_bind; [apply quiet_call|done]. Qed.
Lemma await_bind {A B} (r : throws A) (k : A -> ctl World B) c Q :
  (forall a, r = inr a -> mspec (k a) c Q) -> mspec (cbind (clift (await r)) k) c Q.
Proof. intros Hk. eapply mspec_bind; [apply mspec_await|]. intros a c' [-> E]. by apply Hk. Qed.
Lemma crypto_bind {B} b (k : bool -> ctl World B) c Q : mspec (k b) c Q -> mspec (cbind (crypto_check subtle b) k) c Q.
Proof. intros Hk. apply await_bind. by intros a [= ->]. Qed.
Lemma now_bind {B} (k : Z -> ctl World B) c Q : (forall t, mspec (k t) c Q) -> mspec (cbind (now subtle o) k) c Q.
Proof.
  intros Hk. apply (mspec_bind _ _ _ (fun c' _ => c' = c)); [|by intros t c' ->]. intros w Hw Hc.
  unfold spec, now. destruct (ht_now _ _) as [n t]. split; [done|]. split; [apply rtc_refl|]. by exists c, (inr t).
Qed.
Lemma replace_bind {B} f (k : True -> ctl World B) c Q :
  image_step (image c) (f (image c)) -> image_ok (f (image c)) -> mspec (k I) (saved f c) Q ->
  mspec (cbind (replace_image subtle o f) k) c Q.
Proof.
  intros Hs Hok Hk. eapply mspec_bind; [by apply (replace_spec f c (fun c' _ => c' = saved f c))|]. by intros [] c' ->.
Qed.
Lemma close_recorder_spec c : mspec (close_recorder subtle) c (fun c' _ => c' = set_recorder None c).
Proof.
  unfold close_recorder. apply get_bind. destruct (recorder c) as [r|].
  - apply quiet_bind; [apply quiet_zoom|]. intros _. by apply mspec_set.
  - apply ret_bind. by apply mspec_set.
Qed.
Lemma close_bind {B} (k : True -> ctl World B) c Q : mspec (k I) (set_recorder None c) Q -> mspec (cbind (close_recorder subtle) k) c Q.
Proof. intros Hk. eapply mspec_bind; [apply close_recorder_spec|]. by intros [] c' ->. Qed.
Lemma ticket_spec t a c : mspec (checkTicket subtle o t a) c (fun c' _ => c' = c /\ ticket_verified t).
Proof.
  unfold checkTicket. apply crypto_bind. apply mspec_refuse. intros E. apply mspec_ret. split; [done|].
  apply orb_false_iff in E as [E _]. apply orb_false_iff in E as [E Eo]. apply orb_false_iff in E as [Ev Eu].
  apply negb_false_iff in Ev, Eu, Eo. apply str_eqb_eq in Eu, Eo. done.
Qed.
Lemma ticket_bind {B} t a (k : True -> ctl World B) c Q :
  (ticket_verified t -> mspec (k I) c Q) -> mspec (cbind (checkTicket subtle o t a) k) c Q.
Proof. intros Hk. eapply mspec_bind; [apply ticket_spec|]. intros [] c' [-> Ht]. by apply Hk. Qed.
Lemma receipt_spec t r c : mspec (checkSessionReceipt subtle o t r) c (fun c' _ => c' = c /\ forall l, record_verified (mkRecord t r l)).
Proof.
  unfold checkSessionReceipt. apply ticket_bind. intros Ht. apply crypto_bind. apply mspec_refuse. intros [Ev Em]%orb_false_iff.
  apply mspec_ret. split; [done|]. intros l. by apply negb_false_iff in Ev.
Qed.
Lemma receipt_bind {B} t r (k : True -> ctl World B) c Q :
  ((forall l, record_verified (mkRecord t r l)) -> mspec (k I) c Q) -> mspec (cbind (checkSessionReceipt subtle o t r) k) c Q.
Proof. intros Hk. eapply mspec_bind; [apply receipt_spec|]. intros [] c' [-> Ht]. by apply Hk. Qed.
Lemma receipts_spec l c :
  mspec (ceach (fun e => checkSessionReceipt subtle o (ir_ticket e) (ir_receipt e)) l) c (fun c' _ => c' = c /\ Forall record_verified l).
Proof.
  apply (mspec_each _ _ _ record_verified). intros x. eapply mspec_weaken; [apply receipt_spec|]. intros c' _ [-> Hv]. split; [done|].
  specialize (Hv (ir_admittedAssets x)). by destruct x.
Qed.

(** ** The writes of a page *)

Lemma mspec_ok {A} (m : ctl World A) c Q : (image_ok (image c) -> mspec m c Q) -> mspec m c Q.
Proof. intros Hm w Hw Hc. apply Hm; [apply Hc|done..]. Qed.

Definition session_update (r r' : EncounterSessionRecord) : Prop :=
  same_session r r' /\ session_ok r' /\
  (sr_receipt r' = sr_receipt r \/
   exists t v, sr_ticket r' = Some t /\ sr_receipt r' = Some v /\ forall l, record_verified (mkRecord t v l)).
Lemma record_assets t v l l' : record_verified (mkRecord t v l) -> record_verified (mkRecord t v l').
Proof. done. Qed.
Lemma elem_current r e :
  e ∈ current_receipt (Some r) <-> exists t v, sr_ticket r = Some t /\ sr_receipt r = Some v /\ e = mkRecord t v (admittedAssets r).
Proof.
  unfold current_receipt. destruct (sr_ticket r) as [t|], (sr_receipt r) as [v|]; cbn; rewrite ?elem_of_nil, ?list_elem_of_singleton; naive_solver.
Qed.
Lemma update_verified r r' : session_ok r -> session_update r r' ->
  Forall record_verified (current_receipt (Some r)) -> Forall record_verified (current_receipt (Some r')).
Proof.
  intros [Hr _] ([_ Ht] & _ & Hu). rewrite !Forall_forall. intros Hv e (t' & v' & Et & Ev & ->)%elem_current.
  destruct Hu as [E|(t2 & v2 & Et2 & Ev2 & Hv2)]; [|simplify_eq; apply Hv2].
  rewrite Ev in E. destruct (Hr ltac:(by rewrite <- E)) as [t Et0]. pose proof (Ht _ Et0). simplify_eq.
  apply (record_assets _ _ (admittedAssets r)). apply Hv, elem_current. eauto.
Qed.
Lemma update_keeps r r' e : session_ok r -> session_update r r' -> e ∈ current_receipt (Some r) ->
  exists e', e' ∈ current_receipt (Some r') /\ ir_ticket e' = ir_ticket e /\ (ir_receipt e' = ir_receipt e \/ record_verified e').
Proof.
  intros _ ([_ Ht] & _ & Hu) (t & v & Et & Ev & ->)%elem_current. destruct Hu as [E|(t2 & v2 & Et2 & Ev2 & Hv2)].
  - exists (mkRecord t v (admittedAssets r')). split; [|by auto]. apply elem_current. exists t, v. rewrite E. auto.
  - exists (mkRecord t2 v2 (admittedAssets r')). split; [apply elem_current; eauto|]. pose proof (Ht _ Et). simplify_eq. auto.
Qed.
Lemma update_step im r r' : image_ok im -> im_current im = Some r -> session_update r r' ->
  image_step im (with_current (Some r') (im_history im) im) /\ image_ok (with_current (Some r') (im_history im) im).
Proof.
  intros (Hn & Hv & Hc) Er Hu. pose proof (Hc r Er) as Hr. unfold retainedReceipts in Hv. rewrite Er in Hv. apply Forall_app in Hv as [Hh Hv]. split.
  - apply keep_evidence; [done| |].
    + intros e. unfold retainedReceipts. cbn [with_current im_history im_current]. rewrite Er, !elem_of_app.
      intros [He|He]; [by eexists; rewrite elem_of_app; eauto|]. destruct (update_keeps r r' e Hr Hu He) as (e' & He' & E).
      exists e'. rewrite elem_of_app. auto.
    + intros r0 Er0 _. simplify_eq. exists r'. split; [done|apply Hu].
  - split; [done|]. split.
    + unfold retainedReceipts. cbn [with_current im_history im_current]. apply Forall_app. split; [done|]. by apply (update_verified r).
    + intros r0 [= <-]. apply Hu.
Qed.
Lemma save_update r r' c (Q : Controller -> True -> Prop) :
  im_current (image c) = Some r -> (session_ok r -> session_update r r') ->
  Q (saved (fun im => with_current (Some r') (im_history im) im) c) I -> mspec (save subtle o (Some r')) c Q.
Proof.
  intros Er Hu Hq. apply mspec_ok. intros Hok. unfold save.
  pose proof (update_step (image c) r r' Hok Er (Hu (proj2 (proj2 Hok) r Er))) as [Hs Ho]. by apply replace_spec.
Qed.
Lemma save_bind {B} r r' (k : True -> ctl World B) c Q :
  im_current (image c) = Some r -> (session_ok r -> session_update r r') ->
  mspec (k I) (saved (fun im => with_current (Some r') (im_history im) im) c) Q -> mspec (cbind (save subtle o (Some r')) k) c Q.
Proof.
  intros Er Hu Hk. eapply mspec_bind;
    [by apply (save_update r r' c (fun c' _ => c' = saved (fun im => with_current (Some r') (im_history im) im) c))|].
  by intros [] c' ->.
Qed.

(** The records a page writes. *)
Lemma update_phase p r : session_ok r -> session_update r (with_phase p r).
Proof. intros Hr. split; [done|]. split; [done|by left]. Qed.
Lemma update_assets l r : session_ok r -> session_update r (with_assets l r).
Proof. intros Hr. split; [done|]. split; [done|by left]. Qed.
Lemma update_pending r : session_ok r -> session_update r (with_release_pending r).
Proof. intros Hr. split; [done|]. split; [done|by left]. Qed.
Lemma update_ticket t p r : sr_ticket r = None \/ sr_ticket r = Some t -> session_ok r -> session_update r (with_ticket t p r).
Proof.
  intros Ht [Hr Hc]. split; [|split; [|by left]].
  - split; [done|]. intros t' E. cbn. destruct Ht; congruence.
  - split; [done|]. cbn. intros Hcl. by destruct (Hc Hcl).
Qed.
Lemma update_termination v r : session_ok r -> session_update r (with_termination v r).
Proof.
  intros [Hr Hc]. split; [done|]. split; [|by left]. split; [done|]. cbn. intros Hcl. destruct (Hc Hcl). split; [done|eauto].
Qed.
Lemma update_receipt t v r : sr_ticket r = Some t -> (forall l, record_verified (mkRecord t v l)) -> session_ok r -> session_update r (with_receipt v r).
Proof.
  intros Et Hv [Hr Hc]. split; [done|]. split; [|right; cbn; eauto]. split; cbn; [by rewrite Et|]. intros _. rewrite Et. eauto.
Qed.
Lemma update_cleaned r : is_Some (sr_ticket r) -> is_Some (sr_receipt r) \/ is_Some (sr_termination r) -> session_ok r ->
  session_update r (with_cleaned r).
Proof. intros Ht Hr [Hs Hc]. split; [done|]. split; [|by left]. by split. Qed.
Lemma update_settled t v r x p l b : sr_ticket r = None \/ sr_ticket r = Some t -> (forall l, record_verified (mkRecord t v l)) -> session_ok r ->
  session_update r (set_record r (Some t) (Some v) x p l b).
Proof.
  intros Ht Hv [Hr Hc]. split; [|split; [|right; cbn; eauto]].
  - split; [done|]. intros t' E. cbn. destruct Ht; congruence.
  - split; cbn; eauto.
Qed.
Lemma update_trans r r' r'' : session_update r r' -> session_update r' r'' -> session_update r r''.
Proof.
  intros ([Ea Et] & _ & Hu) ([Ea' Et'] & Hok & Hu'). split; [|split; [done|]].
  - split; [congruence|auto].
  - destruct Hu' as [E|?]; [|by right]. destruct Hu as [E0|(t & v & E1 & E2 & Hv)]; [left; congruence|].
    right. exists t, v. split_and!; [auto|congruence|done].
Qed.

(** ** Releasing a terminated session *)

Lemma release_step im r : image_ok im ->
  im_current im = Some r -> recoveryReleasePending r = Some true -> cleaned r = true -> is_Some (sr_termination r) -> sr_receipt r = None ->
  image_step im (with_current None (im_history im) im) /\ image_ok (with_current None (im_history im) im).
Proof.
  intros (Hn & Hv & Hc) Er Hp Hcl Ht Hr. split; [by apply (release_session _ _ r)|]. split; [done|]. split; [|done].
  unfold retainedReceipts in *. apply Forall_app in Hv as [Hv _]. cbn. by rewrite app_nil_r.
Qed.
(** The rest of the image. *)
Definition same_rest (im im' : EncounterSessionImage) : Prop :=
  im_history im' = im_history im /\ im_checkpoint im' = im_checkpoint im /\ pendingCompaction im' = pendingCompaction im /\
  pendingEmptyRetirement im' = pendingEmptyRetirement im.
Lemma session_release_spec c : mspec (releaseTerminated subtle o) c (fun c' _ =>
  (exists r, im_current (image c) = Some r /\ sr_receipt r = None) /\ im_current (image c') = None /\ same_rest (image c) (image c')).
Proof.
  unfold releaseTerminated. apply get_bind. destruct (im_current (image c)) as [r|] eqn:Er; [|apply mspec_throw].
  destruct (sr_ticket r) as [t|] eqn:Et; [|apply mspec_throw]. destruct (sr_termination r) as [v|] eqn:Ev; [|apply mspec_throw].
  apply mspec_refuse. intros E. assert (Hcl : cleaned r = true /\ sr_receipt r = None).
  { destruct (cleaned r), (sr_receipt r); done. }
  destruct Hcl as [Hcl Hr]. apply ticket_bind. intros _. apply crypto_bind. apply mspec_refuse. intros _.
  apply quiet_bind; [apply quiet_zoom|]. intros s. apply mspec_refuse. intros _.
  eapply (mspec_bind _ _ _ (fun c' _ => exists r', im_current (image c') = Some r' /\ recoveryReleasePending r' = Some true /\ cleaned r' = true /\
    is_Some (sr_termination r') /\ sr_receipt r' = None /\ same_rest (image c) (image c'))).
  { apply mspec_when.
    - intros _. apply (save_update r); [done|apply update_pending|]. exists (with_release_pending r). cbn. rewrite Ev. done.
    - intros Ep%negb_false_iff. apply (proj1 (bool_decide_eq_true _)) in Ep. exists r. rewrite Ev. done. }
  intros [] c1 (r' & Er' & Hp & Hcl' & Hv' & Hr' & Hrest). apply ask_bind. intros ack. apply mspec_refuse. intros _.
  apply mspec_ok. intros Hok. destruct (release_step _ r' Hok Er' Hp Hcl' Hv' Hr') as [Hs Ho].
  unfold save. apply replace_bind; [done..|]. apply close_bind. apply set_bind; [done|]. apply mspec_set; [done|]. eauto.
Qed.

(** ** Inventory *)

Lemma records_spec ids l c : mspec (read_records subtle o ids l) c (fun c' _ => c' = c).
Proof.
  revert ids. induction l as [|v l IH]; intros ids; cbn [read_records]; [by apply mspec_ret|].
  apply mspec_refuse. intros _. destruct (read_record v) as [r|]; [|apply mspec_throw]. apply receipt_bind. intros _.
  apply mspec_refuse. intros _. eapply mspec_bind; [apply IH|]. intros rest c' ->. by apply mspec_ret.
Qed.
Lemma inventory_spec after c : mspec (readInventory subtle o after) c (fun c' _ => image c' = image c).
Proof.
  unfold readInventory. apply get_bind. destruct (opt (im_checkpoint (image c))) as [cp|]; [|by apply mspec_set].
  apply ask_bind. intros page. apply mspec_refuse. intros _. destruct (read_page page _) as [p|]; [|apply mspec_throw].
  eapply mspec_bind; [apply records_spec|]. intros l c' ->. by apply mspec_set.
Qed.

(** Only an intent changes. *)
Lemma same_evidence im im' : im_current im' = im_current im -> im_history im' = im_history im -> opt (im_checkpoint im') = opt (im_checkpoint im) ->
  im_revision im' = im_revision im -> image_ok im -> image_step im im' /\ image_ok im'.
Proof.
  intros Ec Eh Ep En (Hn & Hv & Hc). pose proof (retained_eq _ _ Ec Eh) as Er. split.
  - apply keep_evidence; [done| |rewrite Ec; intros r -> _; by exists r]. intros e He. exists e. rewrite Er. auto.
  - unfold image_ok. rewrite En, Er, Ec. done.
Qed.
Lemma intent_spec f c (Q : Controller -> True -> Prop) :
  (forall im, im_current (f im) = im_current im /\ im_history (f im) = im_history im /\ im_checkpoint (f im) = im_checkpoint im /\
              im_revision (f im) = im_revision im) ->
  Q (saved f c) I -> mspec (replace_image subtle o f) c Q.
Proof.
  intros Hf Hq. apply mspec_ok. intros Hok. destruct (Hf (image c)) as (E1 & E2 & E3 & E4).
  destruct (same_evidence (image c) (f (image c))) as [Hs Ho]; [done|done|by rewrite E3|done|done|]. by apply replace_spec.
Qed.

Lemma answered_checkpoint v cp : verifyInventoryCheckpoint backend v (trustedKey o) = true -> read_checkpoint v = Some cp ->
  verifyInventoryCheckpoint backend (checkpoint_object cp) (trustedKey o) = true.
Proof.
  unfold verifyInventoryCheckpoint. intros Hv Hcp. rewrite read_checkpoint_object, valid_fields. rewrite Hcp in Hv.
  destruct (validInventoryCheckpoint v) eqn:E; [|done]. unfold validInventoryCheckpoint in E. rewrite Hcp in E.
  destruct (validCheckpointFields cp); [done|]. by rewrite andb_false_r in E.
Qed.

(** ** Retiring empty receipts *)

Lemma retirement_intent_spec old pending c :
  mspec (retirementIntent subtle o old pending) c (fun c' command => c' = c).
Proof.
  unfold retirementIntent. destruct pending as [i|]; [by apply mspec_ret|]. apply get_bind. apply mspec_refuse. intros _.
  eapply mspec_bind; [apply receipts_spec|]. intros [] c' [-> _]. by apply mspec_ret.
Qed.
Lemma retire_fields_ok old cp ids : retirementFields o old cp ids = true ->
  is_unit (cp_statement cp) = ss_unit o /\ is_ownerPublicKey (cp_statement cp) = as_publicKey (ss_owner o) /\
  is_previousId (cp_statement cp) = Some (checkpointId old) /\ is_revision (cp_statement cp) = is_revision (cp_statement old) + 1 /\
  is_receiptCount (cp_statement cp) = is_receiptCount (cp_statement old) /\ itemCount (cp_statement cp) = itemCount (cp_statement old).
Proof.
  unfold retirementFields. intros Hf. bool_split.
  repeat match goal with E : str_eqb _ _ = true |- _ => apply str_eqb_eq in E | E : bool_decide _ = true |- _ => apply (proj1 (bool_decide_eq_true _)) in E end.
  split_and!; [done|done|done|lia..].
Qed.
Lemma retired_step im old cp ids : image_ok im -> opt (im_checkpoint im) = Some old ->
  verifyInventoryCheckpoint backend (checkpoint_object cp) (trustedKey o) = true -> retirementFields o old cp ids = true ->
  inventoryRetirementDigest backend ids = inr (batchDigest (cp_statement cp)) ->
  (forall e, e ∈ retainedReceipts im -> ticketId (ir_ticket e) ∉ ids) ->
  image_step im (with_retired cp im) /\ image_ok (with_retired cp im).
Proof.
  intros Hok Ho Hv (Hu & Hw & Hp & Hn & Hr & Hi)%retire_fields_ok Hd Hl. split; [|done].
  by apply (retire_receipts _ _ old cp ids).
Qed.
Lemma session_retire_spec c : mspec (retireEmptyRetained subtle o) c (fun c' _ =>
  im_current (image c') = im_current (image c) /\ im_history (image c') = im_history (image c) /\
  pendingCompaction (image c') = pendingCompaction (image c)).
Proof.
  unfold retireEmptyRetained. apply get_bind. destruct (opt (im_checkpoint (image c))) as [old|] eqn:Eo; [|apply mspec_throw].
  apply mspec_refuse. intros _. eapply mspec_bind; [apply retirement_intent_spec|]. intros command c' ->.
  apply mspec_refuse. intros [_ Hl]%orb_false_iff.
  assert (Hd : forall e, e ∈ retainedReceipts (image c) -> ticketId (ir_ticket e) ∉ ticketIds command).
  { intros e He Hin. apply not_true_iff_false in Hl. apply Hl, existsb_exists. exists e. split; [by apply list_elem_of_In|].
    by apply bool_decide_eq_true. }
  eapply (mspec_bind _ _ _ (fun c' _ => im_current (image c') = im_current (image c) /\ im_history (image c') = im_history (image c) /\
    pendingCompaction (image c') = pendingCompaction (image c) /\ im_checkpoint (image c') = im_checkpoint (image c))).
  { apply mspec_when; [|done]. intros _. by apply intent_spec. }
  intros [] c1 (Ec & Eh & Ep & Ecp).
  eapply (mspec_bind _ _ _ (fun c' _ => c' = c1)).
  { apply mspec_on_error; [apply mspec_quiet, quiet_call|]. intros e c'. apply mspec_when; [|done]. intros _. by apply intent_spec. }
  intros answer c' ->. apply crypto_bind. destruct (read_checkpoint answer) as [cp|] eqn:Ecp'; [|apply mspec_throw].
  apply mspec_refuse. intros [Hv%negb_false_iff Hf%negb_false_iff]%orb_false_iff. apply await_bind. intros batch Hb.
  apply mspec_refuse. intros Eb%negb_false_iff%str_eqb_eq. apply await_bind. intros root _. apply mspec_refuse. intros _.
  apply mspec_ok. intros Hok.
  destruct (retired_step (image c1) old cp (ticketIds command)) as [Hs Hok']; [done|by rewrite Ecp|by apply (answered_checkpoint answer)|done| | |].
  - by rewrite Eb.
  - by rewrite (retained_eq _ (image c) Ec Eh).
  - apply replace_bind; [done..|]. by apply mspec_set.
Qed.

(** ** Compaction *)

Lemma compact_fields_ok old cp l : compactionFields o old cp l = true ->
  is_unit (cp_statement cp) = ss_unit o /\ is_ownerPublicKey (cp_statement cp) = as_publicKey (ss_owner o) /\
  is_previousId (cp_statement cp) = checkpointId <$> old /\ is_revision (cp_statement cp) = statement_or is_revision 0 old + 1 /\
  is_receiptCount (cp_statement cp) = statement_or is_receiptCount 0 old + Z.of_nat (length l).
Proof.
  unfold compactionFields. intros Hf. bool_split.
  repeat match goal with E : str_eqb _ _ = true |- _ => apply str_eqb_eq in E | E : bool_decide (_ = checkpointId <$> _) = true |- _ => apply (proj1 (bool_decide_eq_true _)) in E end.
  split_and!; [done|done|done|lia..].
Qed.
Lemma compacted_step im cp : image_ok im -> (forall r, im_current im = Some r -> ~ unfinished r) ->
  verifyInventoryCheckpoint backend (checkpoint_object cp) (trustedKey o) = true ->
  compactionFields o (opt (im_checkpoint im)) cp (retainedReceipts im) = true ->
  inventoryBatchDigest backend (retainedReceipts im) = inr (batchDigest (cp_statement cp)) ->
  image_step im (compacted cp im) /\ image_ok (compacted cp im).
Proof.
  intros (Hn & Hvs & Hc) Hu Hv (Eu & Ew & Ep & En & Er)%compact_fields_ok Hd. split.
  - by apply (compact_receipts _ _ cp).
  - split; [done|]. split; [constructor|done].
Qed.
(** A session that is cleaned and was not ended has a receipt. *)
Lemma finished_session r : session_ok r -> cleaned r = true -> sr_termination r = None -> ~ unfinished r.
Proof.
  intros [_ Hc] Hcl Ht. destruct (Hc Hcl) as [_ [Hr|Hr]]; [|rewrite Ht in Hr; by destruct Hr].
  intros [E|E]; [congruence|]. rewrite E in Hr. by destruct Hr.
Qed.
Lemma no_receipt r : sr_receipt r = None -> current_receipt (Some r) = [].
Proof. unfold current_receipt. intros ->. by destruct (sr_ticket r). Qed.
Lemma session_compact_spec c : mspec (compactRetained subtle o) c (fun c' _ => im_current (image c') = None /\ im_history (image c') = []).
Proof.
  unfold compactRetained. apply get_bind. eapply (mspec_bind _ _ _ (fun _ _ => True)).
  { apply mspec_when; [|done]. intros _. eapply mspec_weaken; [apply session_retire_spec|done]. }
  intros [] c0 _. apply get_bind. apply mspec_refuse. intros Hcl. apply mspec_refuse. intros _. apply mspec_ok. intros Hok0.
  set (records := retainedReceipts (image c0)).
  eapply (mspec_bind _ _ _ (fun c' _ => retainedReceipts (image c') = records /\ (forall r, im_current (image c') = Some r -> ~ unfinished r) )).
  { apply mspec_when.
    - intros _. eapply mspec_weaken; [apply session_release_spec|]. intros c1 _ ((r & Er & Hr) & En & (Eh & _)). split; [|by rewrite En].
      unfold records, retainedReceipts. rewrite En, Er, Eh, (no_receipt r Hr). done.
    - intros Ht. split; [done|]. intros r Er. rewrite Er in Hcl, Ht. apply finished_session; [by apply (proj2 (proj2 Hok0))| |].
      + by apply negb_false_iff.
      + by destruct (sr_termination r). }
  intros [] c1 [Er Hu]. eapply mspec_bind; [apply receipts_spec|]. intros [] c' [-> _]. apply get_bind. apply mspec_refuse. intros _.
  eapply (mspec_bind _ _ _ (fun c' _ => im_current (image c') = im_current (image c1) /\ im_history (image c') = im_history (image c1) /\
    im_checkpoint (image c') = im_checkpoint (image c1))).
  { apply mspec_when; [|done]. intros _. by apply intent_spec. }
  intros [] c2 (Ec & Eh & Ep). apply ask_bind. intros answer. apply crypto_bind.
  destruct (read_checkpoint answer) as [cp|] eqn:Ecp; [|apply mspec_throw].
  apply mspec_refuse. intros [Hv%negb_false_iff Hf%negb_false_iff]%orb_false_iff. apply await_bind. intros batch Hb.
  apply mspec_refuse. intros Eb%negb_false_iff%str_eqb_eq. apply await_bind. intros root _. apply mspec_refuse. intros _.
  apply mspec_ok. intros Hok. pose proof (retained_eq _ _ Ec Eh) as Er2. rewrite Er in Er2.
  destruct (compacted_step (image c2) cp) as [Hs Ho]; [done|by rewrite Ec|by apply (answered_checkpoint answer)|by rewrite Er2, Ep|by rewrite Er2, Eb|].
  apply replace_bind; [done..|]. apply close_bind. apply set_bind; [done|]. apply set_bind; [done|]. by apply mspec_set.
Qed.

(** ** Recovery *)

Lemma recover_open_spec p t s next c : (p = settled -> False) -> (p = forfeited -> False) ->
  mspec (if match s with Some s => (ps_nextSequence s =? 2) && (ps_firstSequence s =? 0) && (ps_itemCount s =? 2) | None => false end then
        let issued_only := phase_eqb p issued in
        let& t' := if issued_only then now subtle o else cret 0 in
        let& _ := cset (set_phase (if issued_only then if t' <? releaseAt t then ready else interrupted else waiting)) in
        cret (with_phase (if issued_only then complete else sp_committed) next)
      else
        let& _ := cset (set_phase interrupted) in
        cret next) c (fun c' next' => image c' = image c /\ (session_ok next -> session_update next next')).
Proof.
  intros _ _. assert (Hrefl : session_ok next -> session_update next next) by (intros Hn; split; [done|]; split; [done|by left]).
  destruct (match s with Some _ => _ | None => _ end).
  - cbv zeta. destruct (phase_eqb p issued).
    + apply now_bind. intros t'. apply set_bind; [done|]. apply mspec_ret. split; [done|apply update_phase].
    + apply ret_bind. apply set_bind; [done|]. apply mspec_ret. split; [done|apply update_phase].
  - apply set_bind; [done|]. by apply mspec_ret.
Qed.
Lemma recover_phase_spec t status s next c : sr_ticket next = Some t ->
  mspec (recoverPhase subtle o t status s next) c (fun c' next' => image c' = image c /\ (session_ok next -> session_update next next')).
Proof.
  intros Et. unfold recoverPhase. destruct (status_phase status) eqn:Ep; try by apply recover_open_spec.
  - destruct (status_receipt status) as [v|]; [|apply mspec_throw]. destruct (status_commitment status) as [m|]; [|apply mspec_throw].
    apply mspec_refuse. intros _. apply receipt_bind. intros Hv. unfold admitted.
    eapply (mspec_bind _ _ _ (fun c' _ => c' = c)); [apply mspec_refuse; intros _; by apply mspec_ret|]. intros assets c' ->.
    apply set_bind; [done|]. apply mspec_ret. split; [done|]. intros Hn. apply update_settled; auto.
  - eapply (mspec_bind _ _ _ (fun c' _ => c' = c)).
    { destruct (status_termination status) as [v|]; [by apply mspec_ret|]. apply mspec_quiet, quiet_call. }
    intros v c' ->. apply crypto_bind. apply mspec_refuse. intros _. apply set_bind; [done|]. apply mspec_ret.
    split; [done|]. apply update_termination.
Qed.
Lemma recover_spec c : mspec (recoverCurrent subtle o) c (fun _ _ => True).
Proof.
  unfold recoverCurrent. apply get_bind. destruct (im_current (image c)) as [r|] eqn:Er; [|by apply mspec_set].
  destruct (bool_decide _); [eapply mspec_weaken; [apply session_release_spec|done]|].
  eapply (mspec_bind _ _ _ (fun c' t => c' = c /\ (sr_ticket r = None \/ sr_ticket r = Some t))).
  { destruct (sr_ticket r) as [t|]; [apply mspec_ret; auto|]. apply quiet_bind; [apply start_quiet|]. intros pending.
    apply quiet_bind; [apply quiet_zoom|]. intros _. apply mspec_ret. auto. }
  intros t c' [-> Ht]. apply ticket_bind. intros _. apply ask_bind. intros status. apply ticket_bind. intros _.
  apply mspec_refuse. intros _. apply close_bind. apply quiet_bind; [apply quiet_zoom|]. intros s.
  apply set_bind; [done|]. eapply mspec_bind; [by apply recover_phase_spec|]. intros next c1 [Ei Hn].
  eapply (mspec_bind _ _ _ (fun c' _ => image c' = image c1)).
  { destruct s; [|by apply mspec_ret]. apply quiet_bind; [apply open_quiet|]. intros opened. by apply mspec_set. }
  intros [] c2 E2. apply (save_update r); [by rewrite E2, Ei| |done]. intros Hr.
  pose proof (update_ticket t (sr_phase r) r Ht Hr) as Hu. apply (update_trans _ _ _ Hu), Hn, Hu.
Qed.

(** ** The operations *)

Lemma run_spec {A} (m : ctl World A) c Q :
  mspec m (set_busy true None c) Q -> mspec (run subtle m) c (fun _ _ => True).
Proof.
  intros Hm w Hw Hc. unfold run. destruct (busy c).
  { apply spec_ret; [exact _|done|]. eauto 6. }
  eapply spec_bind; [exact _|by apply Hm| |].
  - intros r w' Hi Hr (c' & res & [= ->] & Hk & Hq). destruct res as [e|a]; (apply spec_ret; [exact _|done|]); eauto 6.
  - by intros e w' _ _ (c' & res & [=] & _).
Qed.
Lemma initialize_spec c : mspec (initialize subtle o) c (fun _ _ => True).
Proof.
  apply (run_spec _ _ (fun _ _ => True)). apply read_bind. intros im. eapply after_bind; [apply receipts_spec|]. intros [] c' [-> _].
  eapply (after_bind _ _ _ _ (fun c' _ => c' = set_busy true None c)).
  { destruct (opt (im_checkpoint im)) as [cp|]; [|by apply mspec_ret]. apply crypto_bind. apply mspec_refuse. intros _. by apply mspec_ret. }
  intros [] c' ->. apply after_refuse. intros _. apply after_set.
  eapply (mspec_bind _ _ _ (fun _ _ => True)).
  { apply mspec_when; [|done]. intros _. eapply mspec_weaken; [apply session_retire_spec|done]. }
  intros [] c1 _. eapply (mspec_bind _ _ _ (fun _ _ => True)).
  { apply mspec_when; [|done]. intros _. eapply mspec_weaken; [apply session_compact_spec|done]. }
  intros [] c2 _. eapply mspec_bind; [apply recover_spec|]. intros [] c3 _. eapply mspec_weaken; [apply inventory_spec|done].
Qed.
Lemma refresh_spec c : mspec (refresh subtle o) c (fun _ _ => True).
Proof.
  apply (run_spec _ _ (fun _ _ => True)). apply get_bind. eapply (mspec_bind _ _ _ (fun _ _ => True)).
  { apply mspec_when; [|done]. intros _. eapply mspec_weaken; [apply session_retire_spec|done]. }
  intros [] c1 _. apply get_bind. eapply (mspec_bind _ _ _ (fun _ _ => True)).
  { apply mspec_when; [|done]. intros _. eapply mspec_weaken; [apply session_compact_spec|done]. }
  intros [] c2 _. eapply mspec_bind; [apply recover_spec|]. intros [] c3 _. apply get_bind.
  eapply mspec_weaken; [apply inventory_spec|done].
Qed.

Lemma start_step im a : image_ok im -> (forall r, im_current im = Some r -> ~ unfinished r) ->
  let im' := with_current (Some (starting_record a)) (retainedReceipts im) im in image_step im im' /\ image_ok im'.
Proof.
  intros (Hn & Hv & Hc) Hu. cbv zeta. assert (Er : retainedReceipts (with_current (Some (starting_record a)) (retainedReceipts im) im) = retainedReceipts im)
    by (unfold retainedReceipts at 1; cbn; by rewrite app_nil_r). split.
  - apply keep_evidence; [done| |by intros r Hr Hx%Hu]. intros e He. exists e. rewrite Er. auto.
  - split; [done|]. rewrite Er. split; [done|]. intros r [= <-]. by split; [intros [? [=]]|].
Qed.
Lemma start_session_spec a c : mspec (startSession subtle o a) c (fun _ _ => True).
Proof.
  apply (run_spec _ _ (fun _ _ => True)). apply get_bind. eapply (mspec_bind _ _ _ (fun _ _ => True)).
  { apply mspec_when; [|done]. intros _. eapply mspec_weaken; [apply session_retire_spec|done]. }
  intros [] c1 _. apply mspec_refuse. intros _. apply get_bind. apply mspec_refuse. intros Hcl. apply mspec_ok. intros Hok1.
  eapply (mspec_bind _ _ _ (fun c' _ => forall r, im_current (image c') = Some r -> ~ unfinished r)).
  { apply mspec_when.
    - intros _. eapply mspec_weaken; [apply session_release_spec|]. intros c' _ (_ & En & _). by rewrite En.
    - intros Ht r Er. rewrite Er in Hcl, Ht. apply finished_session; [by apply (proj2 (proj2 Hok1))|by apply negb_false_iff|].
      by destruct (sr_termination r). }
  intros [] c2 Hu2. apply get_bind. eapply (mspec_bind _ _ _ (fun c' _ => forall r, im_current (image c') = Some r -> ~ unfinished r)).
  { apply mspec_when; [|done]. intros _. eapply mspec_bind; [apply session_compact_spec|]. intros [] c' [En _].
    eapply mspec_weaken; [apply inventory_spec|]. intros c3 [] E. by rewrite E, En. }
  intros [] c3 Hu3. apply get_bind. apply mspec_refuse. intros _. apply mspec_ok. intros Hok3.
  destruct (start_step (image c3) a Hok3 Hu3) as [Hs Ho]. unfold save_all. apply replace_bind; [done..|]. apply get_bind.
  eapply (mspec_bind _ _ _ (fun c' _ => im_current (image c') = Some (starting_record a))).
  { destruct (recorder _); [|by apply mspec_ret]. eapply mspec_weaken; [apply mspec_quiet, quiet_zoom|]. by intros c' _ ->. }
  intros [] c4 Ec. apply quiet_bind; [apply start_quiet|]. intros started. apply set_bind; [done|]. apply get_bind.
  change (im_current (image (set_recorder (Some started) c4))) with (im_current (image c4)). rewrite Ec.
  apply (save_bind (starting_record a)); [done|by apply update_ticket; left|]. apply now_bind. intros t.
  destruct (releaseAt _ <=? t); [by apply mspec_set|]. destruct (createInitialGame _); [apply mspec_throw|by apply mspec_set].
Qed.
Lemma step_spec h v c : mspec (stepSession subtle o h v) c (fun _ _ => True).
Proof.
  apply (run_spec _ _ (fun _ _ => True)). apply get_bind. generalize (set_busy true None c). clear c. intros c.
  destruct (preview (id c)) as [game|]; [|apply mspec_throw]. destruct (recorder (id c)) as [rec|]; [|apply mspec_throw].
  apply mspec_refuse. intros _. cbv zeta. destruct (advanceGame _ _) as [[state ev]|e]; [|apply mspec_throw]. cbv zeta. apply set_bind; [done|].
  eapply (mspec_bind _ _ _ (fun c' _ => True)).
  { apply mspec_when; [|done]. intros _. apply quiet_bind; [apply record_quiet|]. intros result. apply mspec_refuse. intros _. by apply mspec_set. }
  intros [] c1 _. apply mspec_when; [|done]. intros _. apply get_bind. destruct (im_current (image c1)) as [r|] eqn:Er; [|apply mspec_throw].
  apply (save_bind r); [done|apply update_phase|]. by apply mspec_set.
Qed.
Lemma settlement_spec rec t r c : im_current (image c) = Some r -> sr_ticket r = Some t ->
  mspec (finishSettlement subtle o rec t) c (fun _ _ => True).
Proof.
  intros Er Et. unfold finishSettlement. apply now_bind. intros n. destruct (n <? releaseAt t); [by apply mspec_set|].
  apply quiet_bind; [apply settle_quiet|]. intros receipt. apply receipt_bind. intros Hv. apply get_bind. rewrite Er.
  apply (save_bind r); [done|by apply (update_receipt t)|]. by apply mspec_set.
Qed.
Lemma advance_spec c : mspec (advanceSettlement subtle o) c (fun _ _ => True).
Proof.
  apply (run_spec _ _ (fun _ _ => True)). apply get_bind. generalize (set_busy true None c). clear c. intros c.
  change (id c) with c. destruct (im_current (image c)) as [r|] eqn:Er; [|apply mspec_throw].
  destruct (recorder c) as [rec|]; [|apply mspec_throw]. destruct (sr_ticket r) as [t|] eqn:Et; [|apply mspec_throw].
  apply mspec_refuse. intros _. destruct (bool_decide (sr_phase r = complete)); [|by apply (settlement_spec _ _ r)].
  apply now_bind. intros n. destruct (n <? _); [by apply mspec_set|]. apply now_bind. intros n2. destruct (_ <=? n2); [by apply mspec_set|].
  apply quiet_bind; [apply commit_quiet|]. intros x. apply (save_bind r); [done|apply update_phase|].
  by apply (settlement_spec _ _ (with_phase sp_committed r)).
Qed.
Lemma session_terminate_spec c : mspec (terminateSession subtle o) c (fun _ _ => True).
Proof.
  apply (run_spec _ _ (fun _ _ => True)). apply get_bind. destruct (im_current _) as [r|] eqn:Er; [|apply mspec_throw].
  destruct (sr_ticket r) as [t|]; [|apply mspec_throw]. apply mspec_refuse. intros _. apply ask_bind. intros v. apply crypto_bind.
  apply mspec_refuse. intros _. apply (save_bind r); [done|apply update_termination|]. apply get_bind. apply set_bind; [done|]. by apply mspec_set.
Qed.
Lemma cleanup_log_spec t r rec c : mspec (cleanupLog subtle o t r rec) c (fun c' _ => c' = c).
Proof.
  unfold cleanupLog. destruct (sr_termination r) as [v|], rec as [rec|].
  - apply quiet_bind; [apply cleanup_terminated_quiet|]. intros x. apply mspec_refuse. intros _. by apply mspec_ret.
  - apply ask_bind. intros grant. apply mspec_refuse. intros _. apply await_bind. intros x _. apply mspec_refuse. intros _. by apply mspec_ret.
  - apply quiet_bind; [apply quiet_zoom|]. intros s. eapply (mspec_bind _ _ _ (fun c' _ => c' = c)).
    { apply mspec_when; [|done]. intros _. apply quiet_bind; [apply prune_quiet|]. intros x. apply mspec_refuse. intros _. by apply mspec_ret. }
    intros [] c' ->. destruct (ps_nextSequence s =? 0).
    + apply ask_bind. intros g. apply quiet_bind; [apply quiet_zoom|]. intros x. apply mspec_refuse. intros _. by apply mspec_ret.
    + apply quiet_bind; [apply release_quiet|]. intros x. apply mspec_refuse. intros _. by apply mspec_ret.
  - apply ask_bind. intros g. by apply mspec_ret.
Qed.
Lemma cleanup_spec c : mspec (cleanup subtle o) c (fun _ _ => True).
Proof.
  apply (run_spec _ _ (fun _ _ => True)). apply get_bind. generalize (set_busy true None c). clear c. intros c. change (id c) with c.
  destruct (im_current (image c)) as [r|] eqn:Er; [|apply mspec_throw]. destruct (sr_ticket r) as [t|] eqn:Et; [|apply mspec_throw].
  apply mspec_refuse. intros Hend. destruct (cleaned r); [by apply mspec_ret|].
  eapply mspec_bind; [apply cleanup_log_spec|]. intros [] c' ->. apply close_bind. apply get_bind. apply set_bind; [done|].
  apply (save_bind r); [done| |by apply mspec_set]. apply update_cleaned; [by rewrite Et|].
  destruct (sr_receipt r), (sr_termination r); eauto. done.
Qed.
Lemma archive_spec c : mspec (archiveSession subtle o) c (fun _ _ => True).
Proof.
  apply (run_spec _ _ (fun _ _ => True)). apply get_bind. generalize (set_busy true None c). clear c. intros c. change (id c) with c.
  destruct (im_current (image c)) as [r|] eqn:Er; [|apply mspec_throw]. destruct (recorder c) as [rec|]; [|apply mspec_throw].
  apply mspec_refuse. intros [Hr%negb_false_iff _]%orb_false_iff. apply (proj1 (bool_decide_eq_true _)) in Hr.
  apply quiet_bind; [apply archive_quiet|]. intros custody. apply quiet_bind; [apply cleanup_archived_quiet|]. intros x.
  apply mspec_refuse. intros _. apply close_bind. apply get_bind. apply set_bind; [done|].
  apply (save_bind r); [done| |by apply mspec_set]. intros Hs. apply update_cleaned; [by apply (proj1 Hs)|by left|done].
Qed.
Lemma admit_step im l assets t : image_ok im -> l = im_current im ->
  let im' := with_current l (map (admit_record assets t) (im_history im)) im in image_step im im' /\ image_ok im'.
Proof.
  intros (Hn & Hv & Hc) ->. cbv zeta. unfold retainedReceipts in Hv. apply Forall_app in Hv as [Hh Hv].
  assert (Hr : forall e, ir_ticket (admit_record assets t e) = ir_ticket e /\ ir_receipt (admit_record assets t e) = ir_receipt e)
    by (intros e; unfold admit_record; by destruct (has_id t e)).
  split.
  - apply keep_evidence; [done| |intros r -> _; by exists r]. intros e. unfold retainedReceipts. cbn [with_current im_current im_history].
    intros [He|He]%elem_of_app; [|exists e; rewrite elem_of_app; auto].
    exists (admit_record assets t e). rewrite elem_of_app. destruct (Hr e) as [-> ->]. split; [|by auto]. left. by apply list_elem_of_fmap_2.
  - split; [done|]. split; [|done]. unfold retainedReceipts. cbn [with_current im_current im_history]. apply Forall_app. split; [|done].
    apply Forall_map. eapply Forall_impl; [exact Hh|]. intros e He. unfold record_verified. by destruct (Hr e) as [-> ->].
Qed.
Lemma session_admit_spec asset t c : mspec (admitItem subtle o asset t) c (fun _ _ => True).
Proof.
  apply (run_spec _ _ (fun _ _ => True)). apply get_bind. generalize (set_busy true None c). clear c. intros c. change (id c) with c. cbv zeta.
  generalize (match t with Some t => Some t | None => ticketId <$> (im_current (image c) ≫= sr_ticket) end). clear t. intros t.
  set (record := match List.find (has_id t) (current_receipt (im_current (image c))) with Some r => Some r | None => _ end). clearbody record.
  destruct (match record with Some r => Some r | None => _ end) as [s|]; [|apply mspec_throw].
  apply mspec_refuse. intros _. apply receipt_bind. intros _. apply await_bind. intros listing _. apply ask_bind. intros result.
  apply mspec_refuse. intros _. eapply (mspec_bind _ _ _ (fun _ _ => True)); [|intros [] c' _; by apply mspec_set].
  assert (Hold : mspec (cwhen (bool_decide (is_Some record)) (let& im := cget image in
      save_all subtle o (im_current (image c)) (map (admit_record asset t) (im_history im)))) c (fun _ _ => True)).
  { apply mspec_when; [|done]. intros _. apply get_bind. apply mspec_ok. intros Hok.
    destruct (admit_step (image c) (im_current (image c)) asset t Hok eq_refl). by apply replace_spec. }
  destruct (im_current (image c)) as [r|] eqn:Er; [|exact Hold]. destruct (bool_decide (is_Some (sr_ticket r) /\ _)); [|exact Hold].
  apply (save_update r); [done|apply update_assets|done].
Qed.
Lemma session_method_spec op c : mspec (session_method subtle o op) c (fun _ _ => True).
Proof.
  destruct op; cbn [session_method].
  - apply initialize_spec.
  - apply refresh_spec.
  - apply start_session_spec.
  - apply step_spec.
  - apply advance_spec.
  - apply session_terminate_spec.
  - apply cleanup_spec.
  - apply (run_spec _ _ (fun _ _ => True)). eapply mspec_weaken; [apply session_release_spec|done].
  - apply archive_spec.
  - apply session_admit_spec.
  - apply (run_spec _ _ (fun _ _ => True)). eapply mspec_bind; [apply session_compact_spec|]. intros [] c' _.
    eapply mspec_weaken; [apply inventory_spec|done].
  - apply (run_spec _ _ (fun _ _ => True)). apply get_bind. eapply mspec_weaken; [apply inventory_spec|done].
  - apply (run_spec _ _ (fun _ _ => True)). eapply mspec_bind; [apply session_retire_spec|]. intros [] c' _.
    eapply mspec_weaken; [apply inventory_spec|done].
  - eapply mspec_weaken; [apply close_recorder_spec|done].
  - apply mspec_set; [|done]. by destruct (bool_decide _).
Qed.
Lemma page_spec ops c w : store_ok w -> known c w -> spec store_ok evolves (page subtle o ops c) w (fun r w' => forall c', r = inr c' -> known c' w').
Proof.
  revert c w. induction ops as [|op ops IH]; intros c w Hw Hc; cbn [page].
  - apply spec_ret; [exact _|done|]. by intros c' [= <-].
  - eapply spec_bind; [exact _|by apply session_method_spec| |].
    + intros r w' Hi Hr (c' & res & [= ->] & Hk & _). by apply IH.
    + by intros e w' _ _ (c' & res & [=] & _).
Qed.

(** ** All pages *)

(** A page opens with a new controller; the pools and the outside may change in
    between. *)
Definition open_page (ops : list session_op) : async World Controller := page subtle o ops new_controller.
Lemma new_controller_known w : store_ok w -> known new_controller w.
Proof.
  intros [(Hn & Hv & Hc) Hz]. unfold known, known_image. cbn [new_controller image im_revision empty_image]. split.
  - split; [done|]. by split; [constructor|].
  - split; [done|]. intros E. symmetry. auto.
Qed.
Lemma pages_sound w p : store_ok w -> rtc (pool_step open_page same_image) (mkPool w []) p ->
  forall p', rtc (pool_step open_page same_image) p p' ->
    store_ok (Async.store p') /\ rtc write_step (stored (Async.store p)) (stored (Async.store p')).
Proof.
  set (Q := fun (_ : list session_op) (r : throws Controller) w => forall c, r = inr c -> known c w).
  assert (Hsound : forall p p', pool_ok store_ok evolves Q p -> rtc (pool_step open_page same_image) p p' ->
    pool_ok store_ok evolves Q p' /\ evolves (Async.store p) (Async.store p')).
  { intros p1 p2. apply pool_sound; [exact _| | |].
    - intros w1 w2 Hi E. unfold store_ok, evolves, stored in *. rewrite E. by split.
    - intros ops w1 Hw1. apply page_spec; [done|]. by apply new_controller_known.
    - intros ops r w1 w2 _ He Hk c E. apply (known_later _ w1); [done|]. by apply Hk. }
  intros Hw Hp p' Hp'. destruct (Hsound (mkPool w []) p) as [Hok _]; [by split|done|].
  destruct (Hsound p p' Hok Hp') as [[Hp2 _] He]. done.
Qed.
Lemma pages_ok w p : store_ok w -> rtc (pool_step open_page same_image) (mkPool w []) p ->
  store_ok (Async.store p) /\ rtc write_step (stored w) (stored (Async.store p)).
Proof. intros Hw. by apply (pages_sound w (mkPool w [])). Qed.
End Safety.

(** * The evidence a client keeps, over all pages and all networks

    The claims about the session store, and a client that plays against the
    authority: the network is the authority, one request after the other. *)

(** ** Receipts *)

Section Evidence.
Context `{JsHost} {N : Type} (subtle : SubtleCrypto) (o : SessionOptions N).
Abbreviation World := (ClientWorld N (WebCryptoSigningKeyMaterial subtle)).
Abbreviation stored := (stored subtle).

(** A checkpoint of the chain that commits to a verified receipt for the ticket. *)
Definition committed_to (t : EncounterTicket) (cp : InventoryCheckpoint) : Prop :=
  exists records e, Forall (record_verified o) records /\ e ∈ records /\ ir_ticket e = t /\
    inventoryBatchDigest (ss_backend o) records = inr (batchDigest (cp_statement cp)) /\
    verifyInventoryCheckpoint (ss_backend o) (checkpoint_object cp) (trustedKey o) = true.
Definition descends : InventoryCheckpoint -> InventoryCheckpoint -> Prop := rtc (fun old cp => checkpoint_follows o (Some old) cp).
(** The image has a receipt for the ticket, or the checkpoint it has descends from
    one that commits to such a receipt. *)
Definition has_evidence (t : EncounterTicket) (im : EncounterSessionImage) : Prop :=
  (exists e, e ∈ retainedReceipts im /\ ir_ticket e = t) \/
  (exists cp head, opt (im_checkpoint im) = Some head /\ committed_to t cp /\ descends cp head).
Lemma evidence_step t im im' : image_step o im im' -> has_evidence t im -> has_evidence t im'.
Proof.
  intros Hs Hev. destruct Hs as [Hcp Hk _|r Hr Hp Hc Ht Hn Hc' Hh Hcp|old cp ids Ho Hcp Hf Hn Hi Hb Hd Hc' Hh|cp Hcp Hf Hn Hb Hv Hu Hc' Hh];
    destruct Hev as [(e & He & Et)|(cp0 & head & Eh & Hm & Hd0)].
  - left. destruct (Hk e He) as (e' & He' & E & _). exists e'. split; [done|congruence].
  - right. exists cp0, head. by rewrite Hcp.
  - left. exists e. split; [|done]. unfold retainedReceipts in *. rewrite Hr, (no_receipt r Hn), app_nil_r in He.
    rewrite Hh, elem_of_app. by left.
  - right. exists cp0, head. by rewrite Hcp.
  - left. exists e. by rewrite (retained_eq _ im).
  - right. exists cp0, cp. split_and!; [done..|]. apply (rtc_r _ head); [done|]. congruence.
  - right. exists cp, cp. split_and!; [done| |reflexivity]. exists (retainedReceipts im), e. split_and!; [done..|]. apply Hf.
  - right. exists cp0, cp. split_and!; [done..|]. apply (rtc_r _ head); [done|]. by rewrite Eh in Hf.
Qed.
Lemma evidence_kept t im im' : rtc (write_step o) im im' -> has_evidence t im -> has_evidence t im'.
Proof. intros Hs. induction Hs as [|im1 im2 im3 [Hs _] _ IH]; [done|]. intros Hev. by apply IH, (evidence_step _ im1). Qed.

(** C18: For any number of pages of an owner that share a session store, any
    interleaving of their operations, and whatever the network answers: the
    stored image changes only by the allowed steps, each with the next revision;
    and every image stored on the way is well formed, with receipts that verify
    for the trusted authority, the unit and the owner. *)
Theorem session_image_evolves (w : World) p :
  store_ok subtle o w -> rtc (pool_step (open_page subtle o) same_image) (mkPool w []) p ->
  store_ok subtle o (Async.store p) /\ rtc (write_step o) (stored w) (stored (Async.store p)).
Proof. apply pages_ok. Qed.

(** C19: A receipt that a device has retained stays accounted for, whatever pages
    do and the network answers: at every later time the image has a receipt for
    the same ticket that verifies, or its inventory checkpoint descends, by
    checkpoints signed by the authority, from one whose batch digest is that of
    a list of verified receipts with one for this ticket. *)
Theorem retained_receipts_survive (w : World) p p' e :
  store_ok subtle o w -> rtc (pool_step (open_page subtle o) same_image) (mkPool w []) p ->
  rtc (pool_step (open_page subtle o) same_image) p p' -> e ∈ retainedReceipts (stored (Async.store p)) ->
  let im := stored (Async.store p') in
  (exists e', e' ∈ retainedReceipts im /\ ir_ticket e' = ir_ticket e /\ record_verified o e') \/
  (exists cp head, opt (im_checkpoint im) = Some head /\ committed_to (ir_ticket e) cp /\ descends cp head).
Proof.
  intros Hw Hp Hp' He. destruct (pages_sound subtle o w p Hw Hp p' Hp') as [Hok Hs].
  destruct (evidence_kept (ir_ticket e) _ _ Hs ltac:(left; eauto)) as [(e' & He' & Et)|?]; [left|by right].
  exists e'. split_and!; [done..|]. destruct Hok as [(_ & Hv & _) _]. by apply (proj1 (Forall_forall _ _) Hv).
Qed.
End Evidence.

(** ** A client and an authority *)

Definition authority_call {A} (m : async EncounterLedger.World A) : EncounterLedger.World -> EncounterLedger.World * throws A := run_alone m.
Definition offline {A} : EncounterLedger.World -> EncounterLedger.World * throws A := fun w => (w, inl (js "offline")).
Section Toy.
Context `{JsHost}.
Definition toy_transport : HttpTransport EncounterLedger.World :=
  mkHttpTransport _ (fun c => authority_call (commit toy_options c)) (fun id => authority_call (revealTicket toy_options id))
    (fun id l => authority_call (settle toy_options id l)) (fun l => authority_call (let* id := admitToMarket toy_options l in aret (true, id)))
    (fun id n => authority_call (pruneGrant toy_options id n)) (fun id r => authority_call (terminate toy_options id r))
    (fun id n k => authority_call (closureGrant toy_options id n k)) (fun _ _ => offline) (fun _ _ _ => offline)
    (fun head n => authority_call (issue toy_options 1 toy_start)) (fun id => authority_call (status toy_options id))
    (fun _ _ => offline) (fun _ _ => offline) (fun _ _ => offline) (fun _ _ => offline)
    (fun w => (w, clock_at w (calls w))).
Definition toy_session : SessionOptions EncounterLedger.World :=
  mkSessionOptions _ (toy_signs "alice") (cryptoBackend toy_options) toy_transport (bytesToLowerHex (toy_public "authority")) None
    (js "unit") (mkPoolOptions (js "pool") ENCOUNTER_POOL_LIMITS ENCOUNTER_POOL_MAX_QUEUES None) None.
Definition toy_client : ClientWorld EncounterLedger.World (WebCryptoSigningKeyMaterial toy_subtle) :=
  mkClientWorld (mkPoolWorld (mkPoolDb (Some (mkPoolMetadata (mkPoolSnapshot 0 0 0 0 0 0) ENCOUNTER_POOL_LIMITS ENCOUNTER_POOL_MAX_QUEUES false)) ∅ ∅)
    0 false 0 ∅) (mkSessionDb None None) ∅ toy_world.
Definition toy_ops : list session_op :=
  [so_initialize; so_start toy_start] ++ map (fun i => so_step (horizontal i) (vertical i)) toy_moves ++
  [so_advanceSettlement; so_cleanup].
Definition toy_pages (l : list (list session_op)) := serve_all (open_page toy_subtle toy_session) l (mkPool toy_client []).
End Toy.

Abbreviation toy_stored l := (stored toy_subtle (Async.store (toy_pages (H := host) l))).
(** A whole session: start, sixty moves, commitment, settlement, cleanup; then
    another page recovers it. *)
Example toy_session_settles :
  (match map snd (threads (toy_pages (H := host) [toy_ops])) with [Finished (inr c)] => (phase c, ctl_error c, progress c) | _ => (idle, None, 0) end)
    = (ui_settled, None, 60) /\
  length (retainedReceipts (toy_stored [toy_ops])) = 1%nat /\ im_revision (toy_stored [toy_ops]) = 6 /\
  length (retainedReceipts (toy_stored [toy_ops; [so_initialize]])) = 1%nat.
Proof. vm_compute. split_and!; reflexivity. Qed.
Lemma toy_client_ok : store_ok toy_subtle (toy_session (H := host)) toy_client.
Proof. split; [|done]. split; [done|]. split; [constructor|done]. Qed.
Lemma toy_pages_run l : rtc (pool_step (open_page (H := host) toy_subtle (toy_session (H := host))) same_image) (mkPool toy_client []) (toy_pages (H := host) l).
Proof. apply serve_all_runs. Qed.
Lemma toy_pages_more l l' :
  rtc (pool_step (open_page (H := host) toy_subtle (toy_session (H := host))) same_image) (toy_pages (H := host) l) (toy_pages (H := host) (l ++ l')).
Proof.
  unfold toy_pages. generalize (mkPool toy_client [] : pool _ (list session_op) Controller). induction l as [|x l IH]; intros p; cbn [serve_all app]; [apply serve_all_runs|].
  destruct (run_alone _ (Async.store p)) as [w r]. apply IH.
Qed.
Lemma session_image_evolves_witness :
  store_ok toy_subtle (toy_session (H := host)) (Async.store (toy_pages (H := host) [toy_ops])) /\
  rtc (write_step (toy_session (H := host))) empty_image (toy_stored [toy_ops]) /\ im_revision (toy_stored [toy_ops]) = 6.
Proof.
  destruct (session_image_evolves (H := host) toy_subtle (toy_session (H := host)) toy_client (toy_pages (H := host) [toy_ops])) as [Hok Hs].
  - exact toy_client_ok.
  - apply toy_pages_run.
  - split; [exact Hok|]. split; [exact Hs|]. exact (proj1 (proj2 (proj2 toy_session_settles))).
Defined.
Lemma toy_receipt : exists e, e ∈ retainedReceipts (toy_stored [toy_ops]).
Proof.
  pose proof (proj1 (proj2 toy_session_settles)) as E. destruct (retainedReceipts (toy_stored [toy_ops])) as [|e l]; [discriminate E|].
  exists e. by left.
Qed.
Lemma retained_receipts_survive_witness : exists e, e ∈ retainedReceipts (toy_stored [toy_ops]) /\
  let im := toy_stored ([toy_ops] ++ [[so_initialize]]) in
  (exists e', e' ∈ retainedReceipts im /\ ir_ticket e' = ir_ticket e /\ record_verified (toy_session (H := host)) e') \/
  (exists cp head, opt (im_checkpoint im) = Some head /\ committed_to (toy_session (H := host)) (ir_ticket e) cp /\ descends (toy_session (H := host)) cp head).
Proof.
  destruct toy_receipt as [e He]. exists e. split; [exact He|].
  apply (retained_receipts_survive (H := host) toy_subtle (toy_session (H := host)) toy_client (toy_pages (H := host) [toy_ops]) (toy_pages (H := host) ([toy_ops] ++ [[so_initialize]])) e).
  - exact toy_client_ok.
  - apply toy_pages_run.
  - apply toy_pages_more.
  - exact He.
Defined.
