(* ===== verification/EncounterLog.v ===== *)
(** * The log of a started encounter

    [start] reserves room for the whole log before it spends the start; the pool
    honours the reservation.  Together: what was started can be recorded. *)
From Stdlib Require Import ZifyBool.
From stdpp Require Import gmap.
From S2P Require Import Prelude Json Contracts Kernel Utf8 CryptoBackend EncounterWire EncounterWireFacts EncounterHttp EncounterBundle InventoryCheckpoint EncounterLedger EncounterAuthority EncounterSafety Async IndexedDb PayloadQueue PayloadQueueFacts PayloadPool PayloadPoolFacts PayloadPoolSafety EncounterSessionStore EncounterRecorder EncounterSession EncounterSessionSafety.
Set Default Goal Selector "!".

(** ** Running a recorder alone *)

Lemma run_throw {W A} e (w : W) : run_alone (@athrow W A e) w = (w, inl e).
Proof. done. Qed.
Lemma run_ret {W A} (a : A) (w : W) : run_alone (aret a) w = (w, inr a).
Proof. done. Qed.
Section Alone.
Context {N K : Type}.
Abbreviation World := (ClientWorld N K).

Lemma run_on_pool {A} (m : async PoolWorld A) (w : World) :
  run_alone (on_pool m) w = (set_pool (fst (run_alone m (cw_pool w))) w, snd (run_alone m (cw_pool w))).
Proof.
  unfold run_alone, on_pool, zoom. destruct (m (cw_pool w)) as [v s]. cbn [fst snd]. revert w v.
  induction s as [r|k IH] using step_ind'; intros w v; cbn [zoom_step finish fst snd]; [done|].
  change (cw_pool (set_pool v w)) with v. specialize (IH v w). destruct (k v) as [v' s']. cbn [fst snd] in *.
  change (set_pool v' (set_pool v w)) with (set_pool v' w). apply IH.
Qed.
Lemma run_attempt {A} (m : async World A) w : run_alone (attempt m) w = (fst (run_alone m w), inr (snd (run_alone m w))).
Proof.
  unfold run_alone, attempt. destruct (m w) as [w' s]. cbn [fst snd]. revert w'.
  induction s as [r|k IH] using step_ind'; intros w'; cbn [attempt_step finish fst snd]; [done|].
  specialize (IH w'). destruct (k w') as [w2 s2]. apply IH.
Qed.
Lemma run_call {A} (f : N -> N * throws A) (w : World) : run_alone (call f) w = (set_net (fst (f (cw_net w))) w, snd (f (cw_net w))).
Proof. unfold run_alone, call. cbn [fst snd finish]. by destruct (f (cw_net w)). Qed.
Lemma run_transaction {A} (body : PoolWorld -> idb PoolDb A) w : pool_closed w = false ->
  run_alone (pool_transaction body) w = (set_p_db (fst (committed (body w) (p_db w))) w, snd (committed (body w) (p_db w))).
Proof. intros Ho. unfold run_alone, pool_transaction. rewrite Ho. cbn [fst snd finish]. by destruct (committed _ _). Qed.
End Alone.

Section Log.
Context {N K : Type} (options : RecorderOptions N).
Abbreviation World := (ClientWorld N K).
Abbreviation backend := (ro_cryptoBackend options).
Abbreviation pool_options := (ro_pool options).
Abbreviation prunes := (fun _ : jsstr => pruneVerified options).
Abbreviation closes := (fun _ : jsstr => Some (closureVerified options)).

(** The queue of a recorder, by its name. *)
Definition log_ref (h : PoolHandle) : handle_ref := mkRef (so_queueId (h_options h)) ENCOUNTER_PAYLOAD_LIMITS (h_incarnation h) (h_id h).
(** [n] chunks are recorded and there is room for the others. *)
Definition log_room (h : PoolHandle) (n : Z) (d : PoolDb) : Prop :=
  exists s credit, pool_scopes d !! so_queueId (h_options h) = Some s /\ incarnation s = h_incarnation h /\
    sm_limits s = ENCOUNTER_PAYLOAD_LIMITS /\ capacity s = Some credit /\ remainingItems credit = 2 - n /\
    (2 - n) * MAX_CHUNK_BYTES <= remainingBytes credit /\ ps_nextSequence (sm_snapshot s) = n.
(** What no reservation can promise. *)
Definition writable (h : PoolHandle) (w : World) : Prop :=
  pool_closed (cw_pool w) = false /\ (pending (cw_pool w) < MAX_PENDING)%nat /\ h_id h ∉ closed_handles (cw_pool w) /\
  h_id h ∉ cw_terminated w /\
  forall m, pool_meta (p_db (cw_pool w)) = Some m -> pp_revision (pm_snapshot m) <> MAX_SAFE_INTEGER.

Lemma append_scope h c w x d d' s : pool_rep pool_options x d -> pool_scopes d !! so_queueId (h_options h) = Some s ->
  pool_append_body pool_options h c w d = (d', inr ap_stored) ->
  exists s', pool_scopes d' !! so_queueId (h_options h) = Some s' /\ incarnation s' = incarnation s /\ sm_limits s' = sm_limits s /\
    capacity s' = spend (byteSize c) <$> capacity s /\ ps_nextSequence (sm_snapshot s') = ps_nextSequence (sm_snapshot s) + 1.
Proof.
  intros Hx Hs E. unfold pool_append_body in E. cbv zeta in E. eapply method_start in E as (s0 & k & Hs0 & Hk & E); [|done..].
  cbv beta zeta in E. simplify_eq. destruct (_ <? _) in E; [by idb_run E|].
  destruct (_ <? _) in E. { idb_run E. destruct a; [|done]. idb_run E. by destruct (samePayload _ _). }
  destruct (negb _) in E; [by idb_run E|]. destruct (_ || _) in E; [by idb_run E|].
  destruct (match capacity s with Some _ => _ | None => _ end) in E; [by idb_run E|].
  idb_run E. unfold add_stored in *. case_bool_decide; [done|].
  match goal with F : (_, inr I) = _ |- _ => apply pair_equal_spec in F as [<- _] end.
  eexists. split; [cbn; rewrite (hl_id _ _ _ _ _ _ Hk); apply lookup_insert_eq|]. done.
Qed.

Lemma alone_append h c (w : PoolWorld) d' :
  pool_closed w = false -> poolAppend pool_options h c w = pending_pool_transaction (pool_append_body pool_options h c) w ->
  (forall w', closed_handles w' = closed_handles w -> pool_append_body pool_options h c w' (p_db w) = (d', inr ap_stored)) ->
  exists w', run_alone (poolAppend pool_options h c) w = (w', inr ap_stored) /\ p_db w' = d'.
Proof.
  intros Ho E Hb. unfold run_alone. rewrite E. unfold pending_pool_transaction. rewrite Ho. cbn [fst snd finish p_db].
  unfold committed. rewrite Hb by done. eauto.
Qed.

(** A chunk that the encoder makes. *)
Lemma encoded_chunk `{JsHost} t n inputs c :
  (forall text d, hash backend text = inr d -> isDigestText d = true) -> encodeEncounterChunk backend t n inputs = inr c ->
  ch_sequence c = n /\ 0 <= n < 2 /\ invalidChunk c = false /\ 1 <= byteSize c <= MAX_CHUNK_BYTES.
Proof.
  intros Hd (Hn & _ & _ & Hb & Es & Ep & Eh)%encode_Ok. apply Hd in Eh. unfold invalidChunk, byteSize. rewrite Ep, Eh, Es.
  assert (Hl : 1 <= Z.of_nat (length (utf8_encode (input_text t n inputs)))).
  { assert (Hf : exists r, input_text t n inputs = 91%N :: r) by (unfold input_text, chunkText, frame; cbn [stringify]; eexists; reflexivity).
    destruct Hf as [r ->]. change (utf8_encode (91%N :: r)) with (91%N :: utf8_encode r). cbn [length]. lia. }
  split_and!; try done; try lia. unfold isTime, isSafeInteger. assert (2 < MAX_SAFE_INTEGER) by done. lia.
Qed.

(** One chunk of a log with room for it. *)
Lemma record_stores `{JsHost} self n inputs c w :
  (forall text d, hash backend text = inr d -> isDigestText d = true) -> po_injectWriteFault pool_options = None ->
  MAX_CHUNK_BYTES <= maxItemBytes (po_limits pool_options) ->
  h_options (rc_queue self) = queueOptions options (so_queueId (h_options (rc_queue self))) ->
  pool_accounted pool_options (p_db (cw_pool w)) -> log_room (rc_queue self) n (p_db (cw_pool w)) -> writable (rc_queue self) w ->
  encodeEncounterChunk backend (rc_ticket self) n inputs = inr c ->
  exists w', run_alone (recordChunk options self n inputs) w = (w', inr ap_stored) /\
    pool_accounted pool_options (p_db (cw_pool w')) /\ log_room (rc_queue self) (n + 1) (p_db (cw_pool w')) /\
    holds_chunk (so_queueId (h_options (rc_queue self))) c (p_db (cw_pool w')) /\
    (forall c', holds_chunk (so_queueId (h_options (rc_queue self))) c' (p_db (cw_pool w)) ->
       holds_chunk (so_queueId (h_options (rc_queue self))) c' (p_db (cw_pool w'))).
Proof.
  intros Hd Hf Hlim Hopt [x Hx] (s & credit & Es & Einc & El & Ecap & Ei & Eb & En) (Ho & Hp & Hc & Ht & Hr) E.
  destruct (encoded_chunk _ _ _ _ Hd E) as (Eseq & Hn & Hv & Hsz).
  set (h := rc_queue self) in *. assert (Eh : h = to_handle prunes closes (log_ref h)).
  { unfold to_handle, log_ref, scope_options. cbn [hr_queue hr_limits hr_incarnation hr_id]. rewrite <- Hopt || idtac.
    destruct h as [ho hi hd]. cbn in *. by rewrite Hopt. }
  assert (Hrev : pp_revision x <> MAX_SAFE_INTEGER) by apply (Hr _ (pr_meta _ _ _ Hx)).
  assert (Hb : byteSize c <= remainingBytes credit) by (unfold MAX_CHUNK_BYTES in *; lia).
  assert (Hstore : forall w', closed_handles w' = closed_handles (cw_pool w) -> exists d', pool_append_body pool_options h c w' (p_db (cw_pool w)) = (d', inr ap_stored)).
  { intros w' Ew. rewrite Eh. apply (credit_stores pool_options prunes closes (log_ref h) x w' _ s c credit); try done; try lia.
    - by rewrite Ew.
    - rewrite El. cbn. unfold MAX_CHUNK_BYTES in *. lia. }
  assert (Hacc : poolAppend pool_options h c (cw_pool w) = pending_pool_transaction (pool_append_body pool_options h c) (cw_pool w)).
  { rewrite Eh. apply (credit_accepts pool_options prunes closes (log_ref h) _ c x (p_db (cw_pool w)) s credit); try done; cbn; unfold MAX_CHUNK_BYTES in *; lia. }
  unfold recordChunk, isTerminated. rewrite run_bind. cbn [run_alone read_store fst snd finish]. rewrite bool_decide_eq_false_2 by done. cbn [refuse_if].
  rewrite (run_await_bind _ _ _ _ E), run_bind. cbn [run_alone read_store fst snd finish]. rewrite bool_decide_eq_false_2 by done. cbn [refuse_if].
  fold h. rewrite run_on_pool. unfold run_alone. rewrite Hacc. unfold pending_pool_transaction. rewrite Ho. cbn [fst snd finish p_db].
  match goal with |- context [pool_append_body pool_options h c ?w1] => destruct (Hstore w1 eq_refl) as [d' Ed] end.
  rewrite Eh in Ed at 1. destruct (append_touches pool_options (to_handle prunes closes (log_ref h)) (fun _ => False) c x _ _ _ _ Hx Hv ltac:(lia) Ed) as [[Hok _ _ Hkeep] Hh].
  rewrite <- Eh in Ed. unfold committed. rewrite Ed. eexists. split; [done|]. cbn [fst snd cw_pool set_pool p_db]. split; [done|].
  destruct (append_scope h c _ x _ _ s Hx Es Ed) as (s' & Es' & I' & L' & C' & N').
  split; [|split; [apply Hh; by left|intros c' (c2 & H2 & Hs2); destruct (Hkeep _ _ H2) as [H3|[]]; by exists c2]].
  exists s', (spend (byteSize c) credit). rewrite C', Ecap. unfold spend. cbn. split_and!; try done; try congruence; try lia.
  unfold MAX_CHUNK_BYTES in *. destruct (remainingItems credit =? 1) eqn:E1; lia.
Qed.

(** ** The reservation *)

Lemma register_room q d d' n x : pool_rep pool_options x d ->
  register_scope pool_options (queueOptions options q) (Some (8192, 2)) None d = (d', inr n) ->
  forall k, log_room (mkHandle (queueOptions options q) n k) 0 d'.
Proof.
  intros Hx E k. unfold register_scope in E. apply ibind_ok in E as (d1 & m & E1 & E). apply (poolMetadata_ok pool_options x) in E1 as [-> ->]; [|done].
  cbv zeta in E. idb_run E. subst n. unfold log_room. cbn. rewrite lookup_insert_eq. do 2 eexists. split_and!; done.
Qed.
Lemma reserve_room q w w' h : pool_accounted pool_options (p_db w) -> pool_scopes (p_db w) !! q = None ->
  run_alone (reserve pool_options (queueOptions options q) 8192 2) w = (w', inr h) ->
  pool_accounted pool_options (p_db w') /\ log_room h 0 (p_db w') /\ h_options h = queueOptions options q.
Proof.
  intros [x Hx] Hq E. unfold reserve in E. destruct (_ || _) eqn:Eg in E; [done|]. cbn [refuse_if] in E. unfold openScope in E.
  destruct (_ || _) eqn:Ev in E; [done|]. cbn [refuse_if] in E. rewrite run_bind in E.
  destruct (pool_closed w) eqn:Ho; [unfold run_alone, pool_transaction in E; by rewrite Ho in E|].
  rewrite run_transaction in E by done. destruct (committed _ _) as [d' [e|n]] eqn:Ec; [done|]. cbn [fst snd] in E.
  unfold run_alone, new_handle in E. cbn [fst snd finish] in E. injection E as <- <-. cbn [p_db set_p_db].
  apply (proj1 (committed_ok _ _ _ _)) in Ec. assert (Eo := Ec).
  apply (open_touches pool_options (fun _ => False) _ _ x) in Ec as [Hok _ _ _]; [|done|by destruct (validId _)|done|cbn; lia].
  split; [done|]. split; [|done]. unfold open_body in Eo. apply ibind_ok in Eo as (d1 & ex & E1 & Eo). idb_run E1.
  cbn [so_queueId queueOptions] in *. rewrite Hq in E1. subst ex. by apply (register_room q (p_db w) d' n x).
Qed.
Lemma start_room `{JsHost} a (w w' : World) self : pool_accounted pool_options (p_db (cw_pool w)) ->
  (forall q, encounterQueueId backend (EncounterWire.unit a) (startHead a) (generationOf a) = inr q -> pool_scopes (p_db (cw_pool w)) !! q = None) ->
  run_alone (EncounterRecorder.start options a) w = (w', inr self) ->
  pool_accounted pool_options (p_db (cw_pool w')) /\ log_room (rc_queue self) 0 (p_db (cw_pool w')) /\
  h_options (rc_queue self) = queueOptions options (queueId (rc_ticket self)) /\
  verifyEncounterTicket backend (rc_ticket self) (ro_trustedAuthorityKey options) = true.
Proof.
  intros Hok Hnew E. unfold EncounterRecorder.start in E. destruct (negb _) in E; [done|]. cbn [refuse_if] in E.
  rewrite run_bind, run_await in E. destruct (encounterQueueId _ _ _ _) as [e|q] eqn:Eq; [done|]. specialize (Hnew q eq_refl).
  rewrite run_bind, run_on_pool in E. destruct (run_alone (reserve _ _ _ _) _) as [p [e|h]] eqn:Er; [done|]. cbn [fst snd] in E.
  destruct (reserve_room _ _ _ _ Hok Hnew Er) as (Hok' & Hroom & Hopt).
  rewrite run_bind, run_attempt in E. cbn [fst snd] in E. unfold requestTicket in E. rewrite run_bind, run_call in E.
  destruct (tr_start _ _ _ _) as [nn [e|t]]; cbn [fst snd] in E.
  { rewrite run_bind, run_on_pool in E. done. }
  rewrite run_bind, run_await in E. destruct (verifyEncounterTicket _ t _) eqn:Ev; cbn [negb orb] in E.
  2:{ cbn [refuse_if] in E. rewrite !run_throw in E. cbn [fst snd] in E. by rewrite run_bind, run_on_pool in E. }
  destruct (startMismatch q a t) eqn:Em; cbn [refuse_if] in E.
  { rewrite !run_throw in E. cbn [fst snd] in E. by rewrite run_bind, run_on_pool in E. }
  rewrite run_ret in E. cbn [fst snd] in E. rewrite run_ret in E. injection E as <- <-. cbn [rc_queue rc_ticket cw_pool set_net set_pool].
  split_and!; [done|done| |done]. rewrite Hopt. f_equal. unfold startMismatch in Em.
  destruct (str_eqb (queueId t) q) eqn:Eqq; [by apply str_eqb_eq in Eqq|done].
Qed.

(** Other queues leave the room. *)
Lemma room_kept h n w p : pool_accounted pool_options (p_db w) -> log_room h n (p_db w) ->
  rtc (pool_step (foreign_serve pool_options prunes closes (so_queueId (h_options h))) pool_turn) (mkPool w []) p ->
  pool_accounted pool_options (p_db (Async.store p)) /\ log_room h n (p_db (Async.store p)) /\
  (forall c, holds_chunk (so_queueId (h_options h)) c (p_db w) -> holds_chunk (so_queueId (h_options h)) c (p_db (Async.store p))).
Proof.
  intros Hok Hroom Hrun. destruct (foreign_runs pool_options prunes closes (so_queueId (h_options h)) w p Hok Hrun) as (Hok' & Es & Ec).
  split; [done|]. unfold log_room, holds_chunk. by rewrite Es, Ec.
Qed.
End Log.

(** An encounter that has been started can record its whole log.  If [start]
    returned a recorder for a new queue, then whatever requests of other queues
    do to the shared pool before each chunk is recorded, both chunks are stored
    and stay: [start] reserved their room before it spent the start, and the
    pool honours the reservation.  What no reservation can promise is assumed:
    the database accepts writes, the pool and the recorder are not closed, fewer
    than the maximum of appends are in flight, and revisions are left. *)
Theorem started_encounter_can_record `{JsHost} {N K : Type} (options : RecorderOptions N) a (w0 w1 : ClientWorld N K) self inputs0 inputs1 c0 c1 :
  let h := rc_queue self in
  let q := so_queueId (h_options h) in
  let others := foreign_serve (ro_pool options) (fun _ => pruneVerified options) (fun _ => Some (closureVerified options)) q in
  (forall text d, hash (ro_cryptoBackend options) text = inr d -> isDigestText d = true) ->
  po_injectWriteFault (ro_pool options) = None -> MAX_CHUNK_BYTES <= maxItemBytes (po_limits (ro_pool options)) ->
  pool_accounted (ro_pool options) (p_db (cw_pool w0)) ->
  (forall q, encounterQueueId (ro_cryptoBackend options) (EncounterWire.unit a) (startHead a) (generationOf a) = inr q ->
     pool_scopes (p_db (cw_pool w0)) !! q = None) ->
  run_alone (EncounterRecorder.start options a) w0 = (w1, inr self) ->
  encodeEncounterChunk (ro_cryptoBackend options) (rc_ticket self) 0 inputs0 = inr c0 ->
  encodeEncounterChunk (ro_cryptoBackend options) (rc_ticket self) 1 inputs1 = inr c1 ->
  forall p1, rtc (pool_step others pool_turn) (mkPool (cw_pool w1) []) p1 -> writable h (set_pool (Async.store p1) w1) ->
  exists w2, run_alone (recordChunk options self 0 inputs0) (set_pool (Async.store p1) w1) = (w2, inr ap_stored) /\
    forall p2, rtc (pool_step others pool_turn) (mkPool (cw_pool w2) []) p2 -> writable h (set_pool (Async.store p2) w2) ->
    exists w3, run_alone (recordChunk options self 1 inputs1) (set_pool (Async.store p2) w2) = (w3, inr ap_stored) /\
      holds_chunk q c0 (p_db (cw_pool w3)) /\ holds_chunk q c1 (p_db (cw_pool w3)).
Proof.
  cbv zeta. intros Hd Hf Hlim Hok Hnew Hstart E0 E1 p1 Hp1 Hw1.
  destruct (start_room options a w0 w1 self Hok Hnew Hstart) as (Hok1 & Hroom1 & Hopt & _).
  assert (Hopt' : h_options (rc_queue self) = queueOptions options (so_queueId (h_options (rc_queue self)))) by (by rewrite Hopt).
  destruct (room_kept options _ _ _ p1 Hok1 Hroom1 Hp1) as (Hok1' & Hroom1' & _).
  destruct (record_stores options self 0 inputs0 c0 (set_pool (Async.store p1) w1)) as (w2 & Er2 & Hok2 & Hroom2 & Hh0 & _); [done..|].
  exists w2. split; [done|]. intros p2 Hp2 Hw2.
  destruct (room_kept options _ _ _ p2 Hok2 Hroom2 Hp2) as (Hok2' & Hroom2' & Hk).
  destruct (record_stores options self 1 inputs1 c1 (set_pool (Async.store p2) w2)) as (w3 & Er3 & Hok3 & _ & Hh1 & Hk3); [done..|].
  exists w3. split; [done|]. split; [|done]. apply Hk3. by apply Hk.
Qed.

(** ** The client that plays against the authority *)

Abbreviation toy_recorder_options := (recorder_options (toy_session (H := host))).
Definition recorder_or (r : throws Recorder) : Recorder :=
  match r with inr x => x | inl _ => mkRecorder (mkHandle (queueOptions toy_recorder_options []) 0 0) toy_ticket end.
Definition toy_started := run_alone (EncounterRecorder.start toy_recorder_options toy_start) toy_client.
Definition toy_recorder : Recorder := recorder_or (snd toy_started).
Definition chunk_or (r : throws AuditPayloadChunk) : AuditPayloadChunk := match r with inr c => c | inl _ => mkChunk 0 [] [] end.
Definition toy_chunk (n : Z) : AuditPayloadChunk :=
  chunk_or (encodeEncounterChunk (ro_cryptoBackend toy_recorder_options) (rc_ticket toy_recorder) n (take 30 (drop (Z.to_nat n * 30) toy_moves))).
Definition is_inr {A} (r : throws A) : bool := match r with inr _ => true | inl _ => false end.
Lemma toy_started_ok : is_inr (snd toy_started) = true.
Proof. vm_compute. reflexivity. Qed.
Lemma returned_recorder {W} (x : W * throws Recorder) : is_inr (snd x) = true -> x = (fst x, inr (recorder_or (snd x))).
Proof. by destruct x as [w [e|r]]. Qed.
Lemma returned_chunk (x : throws AuditPayloadChunk) : is_inr x = true -> x = inr (chunk_or x).
Proof. by destruct x. Qed.
Lemma toy_chunks_ok :
  forallb (fun n => is_inr (encodeEncounterChunk (ro_cryptoBackend toy_recorder_options) (rc_ticket toy_recorder) n (take 30 (drop (Z.to_nat n * 30) toy_moves)))) [0; 1] = true.
Proof. vm_compute. reflexivity. Qed.
Definition writable_now {N K} (h : PoolHandle) (w : ClientWorld N K) : bool :=
  negb (pool_closed (cw_pool w)) && (pending (cw_pool w) <? MAX_PENDING)%nat && bool_decide (h_id h ∉ closed_handles (cw_pool w)) &&
  bool_decide (h_id h ∉ cw_terminated w) &&
  match pool_meta (p_db (cw_pool w)) with Some m => negb (pp_revision (pm_snapshot m) =? MAX_SAFE_INTEGER) | None => true end.
Lemma writable_now_ok {N K} h (w : ClientWorld N K) : writable_now h w = true -> writable h (set_pool (cw_pool w) w).
Proof.
  unfold writable_now. intros Hw. bool_split. unfold writable. cbn [cw_pool set_pool cw_terminated].
  repeat match goal with E : bool_decide _ = true |- _ => apply (proj1 (bool_decide_eq_true _)) in E end.
  split; [by destruct (pool_closed (cw_pool w))|]. split; [by apply Nat.ltb_lt|]. split; [done|]. split; [done|]. intros m Em.
  rewrite Em in *. lia.
Qed.
Lemma toy_writable : writable_now (rc_queue toy_recorder) (fst toy_started) = true.
Proof. vm_compute. reflexivity. Qed.
Lemma started_encounter_can_record_witness :
  exists w2, run_alone (recordChunk toy_recorder_options toy_recorder 0 (take 30 (drop 0 toy_moves))) (set_pool (cw_pool (fst toy_started)) (fst toy_started)) = (w2, inr ap_stored).
Proof.
  destruct (started_encounter_can_record (H := host) toy_recorder_options toy_start toy_client (fst toy_started) toy_recorder (take 30 (drop 0 toy_moves)) (take 30 (drop 30 toy_moves))
    (toy_chunk 0) (toy_chunk 1)) with (p1 := mkPool (cw_pool (fst toy_started)) ([] : list (foreign_request (so_queueId (h_options (rc_queue toy_recorder))) * step PoolWorld payload_answer)))
    as (w2 & E & _).
  - intros text d. apply hashString_digest.
  - reflexivity.
  - vm_compute. discriminate.
  - eexists. apply empty_pool_accounted; [vm_compute; discriminate|vm_compute; reflexivity].
  - intros q _. reflexivity.
  - exact (returned_recorder toy_started toy_started_ok).
  - exact (returned_chunk _ (proj1 (proj1 (andb_true_iff _ _) toy_chunks_ok))).
  - exact (returned_chunk _ (proj1 (proj1 (andb_true_iff _ _) (proj2 (proj1 (andb_true_iff _ _) toy_chunks_ok))))).
  - apply rtc_refl.
  - exact (writable_now_ok _ _ toy_writable).
  - exists w2. exact E.
Defined.
