(* ===== verification/EncounterHttpClient.v ===== *)
(** * The HTTP transport of the encounter client

    [web/src/audit/encounter-http.ts]: the commands that its methods send, the
    signed request and the bounded answer.  [fetch] is the outside, a function of
    its state [N]; the result of [URL] is a record.  An answer is the parsed value;
    the types its methods declare are casts, which the callers check. *)
From Stdlib Require Import ZifyBool.
From stdpp Require Import gmap.
From S2P Require Import Prelude Json Contracts Kernel Utf8 CryptoBackend EncounterWire EncounterWireFacts EncounterHttp EncounterHttpFacts EncounterRequestBounds.
From S2P Require Import EncounterBundle InventoryCheckpoint Inventory Async EncounterLedger EncounterStore EncounterAuthority EncounterSafety ArchiveSafety EncounterApi EncounterApiSafety.
Set Default Goal Selector "!".

(** ** The endpoint *)

Record URL := mkURL {
  url_protocol : jsstr; url_hostname : jsstr; url_pathname : jsstr; url_search : jsstr; url_hash : jsstr;
  url_username : jsstr; url_password : jsstr;
}.
Definition isLocal (url : URL) : bool :=
  str_eqb (url_protocol url) (js "http:") && existsb (str_eqb (url_hostname url)) [js "localhost"; js "127.0.0.1"; js "[::1]"].
Definition encounterPath (unit : jsstr) : jsstr := js "/v1/pve/" ++ unit ++ js "/encounter".
Definition endpointRefused (url : URL) (unit : jsstr) : bool :=
  (negb (isLocal url) && negb (str_eqb (url_protocol url) (js "https:"))) || negb (str_eqb (url_pathname url) (encounterPath unit)) ||
  existsb (fun s => negb (str_eqb s [])) [url_search url; url_hash url; url_username url; url_password url].

(** ** A call *)

Record WebRequest := mkWebRequest { wq_endpoint : jsstr; wq_method : jsstr; wq_redirect : jsstr; wq_contentType : jsstr; wq_body : jsstr }.
Record WebResponse := mkWebResponse { ws_status : Z; ws_body : option (list (list N)) }.
Definition MAX_RESPONSE_BYTES : Z := 16384.
Record HttpEncounterOptions (O : Type) := mkHttpOptions {
  he_endpoint : jsstr;
  he_unit : jsstr;
  he_owner : AsyncAuditSigner;
  he_cryptoBackend : AuditCryptoBackend;
  he_fetch : WebRequest -> O -> O * throws WebResponse;
  he_now : O -> O * Z;
}.
Arguments he_endpoint {O}.
Arguments he_unit {O}.
Arguments he_owner {O}.
Arguments he_cryptoBackend {O}.
Arguments he_fetch {O}.
Arguments he_now {O}.
(** [new EncounterHttpError(status)]. *)
Definition encounterHttpError (status : Z) : jsstr := js "encounter HTTP " ++ stringify (JNum status).
(** The [for] loop over [reader.read()]. *)
Fixpoint responseParts (parts : list (list N)) (size : Z) : throws (list (list N)) :=
  match parts with
  | [] => inr []
  | part :: parts' =>
      let size := size + Z.of_nat (length part) in
      throw_if (MAX_RESPONSE_BYTES <? size) (js "encounter response too large") $
      let! rest := responseParts parts' size in
      inr (part :: rest)
  end.
Definition readResponse `{JsHost} (response : WebResponse) : throws jsval :=
  throw_if (negb ((200 <=? ws_status response) && (ws_status response <=? 299))) (encounterHttpError (ws_status response)) $
  match ws_body response with
  | None => inl (js "empty encounter response")
  | Some stream =>
      let! parts := responseParts stream 0 in
      match utf8_decode (concat parts) with
      | None => inl (js "TypeError")
      | Some text => match json_parse text with None => inl (js "SyntaxError") | Some value => inr value end
      end
  end.

Section Transport.
Context `{JsHost} {O : Type} (o : HttpEncounterOptions O).

Definition webRequest (envelope : EncounterHttpRequest) : WebRequest :=
  mkWebRequest (he_endpoint o) (js "POST") (js "error") (js "application/json") (stringify (request_value envelope)).
Definition httpCall (command : EncounterCommand) (n : O) : O * throws jsval :=
  let '(n1, t) := he_now o n in
  match signEncounterRequest (he_cryptoBackend o) (he_unit o) command (he_owner o) t with
  | inl e => (n1, inl e)
  | inr envelope =>
      let '(n2, response) := he_fetch o (webRequest envelope) n1 in
      (n2, let! r := response in readResponse r)
  end.
(** A method whose command cannot be made throws before anything is sent. *)
Definition httpMethod (command : throws EncounterCommand) (n : O) : O * throws jsval :=
  match command with inl e => (n, inl e) | inr c => httpCall c n end.

Definition httpStart (startHead : jsstr) (generation : Z) : O -> O * throws jsval :=
  httpMethod (throw_if (negb (isTime generation)) (js "invalid start generation") $
              inr (op_start startHead (if 0 <? generation then Some generation else None))).
Definition httpAdmissions : O -> O * throws jsval := httpCall op_admissions.
Definition httpReleaseRecovery (ticket : EncounterTicket) (termination : EncounterTermination) : O -> O * throws jsval :=
  httpCall (op_release_recovery ticket termination).
Definition httpCompactInventory (expected : option jsstr) (ids : list jsstr) : O -> O * throws jsval :=
  httpCall (op_inventory_compact expected ids).
Definition httpRetireEmptyInventory (expected : jsstr) (ids : list jsstr) : O -> O * throws jsval :=
  httpCall (op_inventory_retire_empty expected ids).
Definition httpInventoryPage (checkpoint : jsstr) (after : Z) : O -> O * throws jsval := httpCall (op_inventory_page checkpoint after).
Definition httpStatus (id : jsstr) : O -> O * throws jsval := httpCall (op_status id).
Definition httpCommit (commitment : EncounterCommit) : O -> O * throws jsval := httpCall (op_commit commitment).
Definition httpReveal (id : jsstr) : O -> O * throws jsval := httpCall (op_reveal id).
Definition httpSettle (id : jsstr) (chunks : list AuditPayloadChunk) : O -> O * throws jsval :=
  httpMethod (if (length chunks =? 0)%nat then inr (op_receipt id) else let! wire := wireChunks chunks in inr (op_settle id wire)).
Definition httpAdmitToMarket (listing : EncounterListing) : O -> O * throws jsval := httpCall (op_market listing).
Definition httpPruneGrant (id : jsstr) (expectedRevision : Z) : O -> O * throws jsval := httpCall (op_prune id expectedRevision).
Definition httpTerminate (id : jsstr) (reason : EncounterTerminationReason) : O -> O * throws jsval := httpCall (op_terminate id reason).
Definition httpClosureGrant (id : jsstr) (expectedRevision nextSequence : Z) : O -> O * throws jsval :=
  httpCall (op_closure id expectedRevision nextSequence).
Definition httpArchiveUpload (id : jsstr) (chunks : list AuditPayloadChunk) : O -> O * throws jsval :=
  httpMethod (let! wire := wireChunks chunks in inr (op_archive_upload id wire)).
Definition httpArchiveHandoff (id : jsstr) (expectedRevision nextSequence : Z) : O -> O * throws jsval :=
  httpCall (op_archive_handoff id expectedRevision nextSequence).
Definition httpArchiveRelease (id : jsstr) : O -> O * throws jsval := httpCall (op_archive_release id).
(** The object of [archive-read], with the bundle decoded. *)
Definition httpArchiveRead (id : jsstr) (n : O) : O * throws (jsval * option EncounterArchiveBundle) :=
  let '(n', r) := httpCall (op_archive_read id) n in
  (n', let! object := r in
       match field object "bundle" with
       | JNull => inr (object, None)
       | bundle => let! b := decodeArchiveBundle (stringify bundle) in inr (object, Some b)
       end).
End Transport.

(** ** The server at the other end *)

(** The request as the server gets it: the path of the endpoint, and the bytes of
    the body in some pieces. *)
Definition arrivedRequest (unit : jsstr) (request : WebRequest) (parts : list (list N)) : HttpRequest :=
  mkRequest [js "v1"; js "pve"; unit; js "encounter"] (wq_method request) None (Some parts).
Definition at_server (st : Store) : Store := set_ledger (called (ledger st)) st.
Definition server_time (st : Store) : Z := clock_at (ledger st) (calls (ledger st)).

Section EndToEnd.
Context `{JsHost} {O : Type} (o : HttpEncounterOptions O) (api : EncounterApiOptions) (rounds : nat).
Hypothesis same_crypto : he_cryptoBackend o = apiBackend api.
Hypothesis genuine : forall d s, as_signDigest (he_owner o) d = inr s ->
  signature s = true /\ cb_verify (apiBackend api) (as_publicKey (he_owner o)) d s = inr true.
Hypothesis unit_ok : identifier (he_unit o) = true.

Lemma request_runs_command c issued envelope parts st :
  signEncounterRequest (he_cryptoBackend o) (he_unit o) c (he_owner o) issued = inr envelope ->
  text_ok (request_value envelope) = true -> concat parts = utf8_encode (wq_body (webRequest o envelope)) ->
  isTime (server_time st) = true -> issued <= server_time st < issued + 60000 ->
  run_alone (fetch api rounds (arrivedRequest (he_unit o) (webRequest o envelope) parts)) st =
  run_alone (ownerCommand api rounds (he_unit o) (as_publicKey (he_owner o)) c) (at_server st).
Proof.
  intros E Ht Hp Htime Hwin.
  destruct (signed_request_arrives _ _ _ _ _ _ parts E (fun d s Hs => proj1 (genuine d s Hs)) Ht Hp) as (_ & v & digest & Er & Ed & Ec & Eh & Es).
  assert (Hf : hr_unit envelope = he_unit o /\ hr_ownerPublicKey envelope = as_publicKey (he_owner o) /\ hr_issuedAt envelope = issued /\ hr_expiresAt envelope = issued + 60000).
  { clear -E. unfold signEncounterRequest, throw_if in E. cbv zeta in E. destruct (negb _); [done|].
    destruct (hash _ _); cbn [throw_bind] in E; [done|]. destruct (as_signDigest _ _); cbn [throw_bind] in E; [done|].
    apply (inj inr) in E as <-. done. }
  destruct Hf as (Fu & Fo & Fi & Fe).
  unfold fetch, arrivedRequest. cbn [rq_path rq_method rq_authorization rq_body].
  assert (Hroute : route [js "v1"; js "pve"; he_unit o; js "encounter"] = Some (he_unit o, js "encounter")) by (unfold route; by rewrite unit_ok).
  rewrite Hroute. cbv beta iota.
  replace (str_eqb (js "encounter") (js "encounter-configuration")) with false by reflexivity.
  replace (negb (str_eqb (wq_method (webRequest o envelope)) (js "POST"))) with false by reflexivity.
  replace (isAdmin (js "encounter")) with false by reflexivity. cbn [andb].
  rewrite run_bind, run_await, Er. replace (str_eqb (js "encounter") (js "encounter-generation")) with false by reflexivity.
  unfold ownerRequest. rewrite Ed, run_bind. unfold run_alone at 1. cbn [sync tnow fst snd finish]. fold (at_server st) (server_time st).
  rewrite Htime. cbn [negb]. rewrite run_bind. unfold authenticated.
  rewrite Fu, Fi, Fe, Fo, str_eqb_refl. cbn [negb orb].
  replace (server_time st <? issued) with false by lia. replace (issued + 60000 <=? server_time st) with false by lia. cbn [orb].
  rewrite run_await, <- same_crypto, Eh. cbn [throw_bind]. rewrite same_crypto, (proj2 (genuine _ _ Es)). cbn [negb]. by rewrite Ec.
Qed.
End EndToEnd.

(** [fetch] of a page whose requests reach the server, in some pieces, and whose
    answers are delivered somehow. *)
Definition serverFetch `{JsHost} (api : EncounterApiOptions) (rounds : nat) (unit : jsstr) (pieces : list N -> list (list N))
    (deliver : throws Response -> throws WebResponse) (request : WebRequest) (st : Store) : Store * throws WebResponse :=
  let '(st', r) := run_alone (fetch api rounds (arrivedRequest unit request (pieces (utf8_encode (wq_body request))))) st in
  (st', deliver r).

(** From the browser to the service: a call of the HTTP transport runs exactly
    the command it was given, as the owner who signed it.  If the client can sign
    the request, its bytes reach the endpoint in pieces of any size, and the
    server's clock is within the minute the request is valid for, then the server
    reads, authenticates and executes this command for this owner and unit and
    nothing else, and the client gets what is delivered of its answer. *)
Theorem http_call_runs_its_command `{JsHost} (o : HttpEncounterOptions Store) api rounds pieces deliver c envelope st :
  he_cryptoBackend o = apiBackend api ->
  (forall d s, as_signDigest (he_owner o) d = inr s ->
     signature s = true /\ cb_verify (apiBackend api) (as_publicKey (he_owner o)) d s = inr true) ->
  identifier (he_unit o) = true -> (forall bytes, concat (pieces bytes) = bytes) ->
  he_fetch o = serverFetch api rounds (he_unit o) pieces deliver -> fst (he_now o st) = st ->
  signEncounterRequest (he_cryptoBackend o) (he_unit o) c (he_owner o) (snd (he_now o st)) = inr envelope ->
  text_ok (request_value envelope) = true ->
  isTime (server_time st) = true -> snd (he_now o st) <= server_time st < snd (he_now o st) + 60000 ->
  httpCall o c st =
    let '(st', r) := run_alone (ownerCommand api rounds (he_unit o) (as_publicKey (he_owner o)) c) (at_server st) in
    (st', let! response := deliver r in readResponse response).
Proof.
  intros Hc Hg Hu Hp Hf Hn E Ht Htime Hwin. unfold httpCall. destruct (he_now o st) as [st1 issued]. cbn [fst snd] in *. subst st1.
  rewrite E, Hf. unfold serverFetch.
  rewrite (request_runs_command o api rounds Hc Hg Hu c issued envelope); [|done|done|by rewrite Hp|done|done].
  by destruct (run_alone (ownerCommand _ _ _ _ _) _).
Qed.

Definition toy_deliver (r : throws Response) : throws WebResponse :=
  match r with
  | inr (mkResponse status (v_admissions l)) =>
      inr (mkWebResponse status (Some [utf8_encode (stringify (JArr (map (fun a => obj (authorization_fields a)) l)))]))
  | inr (mkResponse status _) => inr (mkWebResponse status (Some []))
  | inl e => inl e
  end.
Definition toy_pieces (bytes : list N) : list (list N) := [take 7 bytes; drop 7 bytes].
Definition toy_http : HttpEncounterOptions Store :=
  mkHttpOptions _ (js "https://host/v1/pve/unit/encounter") (js "unit") (toy_signs "alice") (apiBackend toy_api)
    (serverFetch (H := host) toy_api 1 (js "unit") toy_pieces toy_deliver) (fun st => (st, server_time st)).
Definition toy_open : Store := set_admissions {[ (js "unit", 0, js "head") := toy_start ]} ∅ (store_of toy_world).
Lemma http_call_runs_its_command_witness :
  httpCall (H := host) toy_http op_admissions toy_open =
    (let '(st', r) := run_alone (ownerCommand (H := host) toy_api 1 (js "unit") (as_publicKey (toy_signs "alice")) op_admissions) (at_server toy_open) in
     (st', let! response := toy_deliver r in readResponse (H := host) response)) /\
  snd (httpCall (H := host) toy_http op_admissions toy_open) = inr (JArr [obj (authorization_fields toy_start)]).
Proof.
  split; [|vm_compute; reflexivity].
  assert (E : exists envelope, signEncounterRequest (he_cryptoBackend toy_http) (js "unit") op_admissions (toy_signs "alice") (server_time toy_open) = inr envelope /\
    text_ok (request_value envelope) = true) by (eexists; split; vm_compute; reflexivity).
  destruct E as (envelope & E & Ht).
  apply (http_call_runs_its_command (H := host) toy_http toy_api 1 toy_pieces toy_deliver op_admissions envelope toy_open).
  - reflexivity.
  - intros d s Hs. pose proof (standard_signature_verifies toy_subtle (toy_public "alice") (toy_public "alice") d s (toy_key_pair "alice") Hs) as Hv.
    split; [|exact Hv]. exact (verified_signature_shape toy_subtle _ d s Hv).
  - vm_compute. reflexivity.
  - intros bytes. unfold toy_pieces. cbn [concat]. rewrite app_nil_r. apply take_drop.
  - reflexivity.
  - reflexivity.
  - exact E.
  - exact Ht.
  - vm_compute. reflexivity.
  - vm_compute. split; [discriminate|reflexivity].
Defined.
