(* ===== verification/KeyLifecycle.v ===== *)
(** * Verification keys

    [player-local-runtime/key-lifecycle.ts]: the history of the public keys of a
    signer, which key was valid when, and statements that name the key they are
    signed with.  A slot ([keyId]) is a logical signer; rotations give it
    versions with disjoint windows of validity; a version can be revoked from a
    moment on.

    Digests, signers and verifiers are arguments.  A registry of verifiers is a
    function of the scheme: schemes are those of provisioned keys, which do not
    name members of [Object.prototype].  The symbol that marks a compiled
    history is the constructor of its type; an unmarked object is [None]. *)
From Stdlib Require Import ZifyBool.
From stdpp Require Import gmap.
From S2P Require Import Prelude Json.
Set Default Goal Selector "!".

Record VerificationKeyRecord := mkKeyRecord {
  kr_version : Z;
  kr_keyId : jsstr;
  kr_keyVersion : Z;
  kr_subjectId : jsstr;
  kr_purpose : jsstr;
  kr_scopeId : jsstr;
  kr_scheme : jsstr;
  kr_publicKey : jsstr;
  kr_validFromMs : Z;
  kr_validUntilMs : Z;
  kr_revokedAtMs : option Z;
}.
#[global] Instance VerificationKeyRecord_eq_dec : EqDecision VerificationKeyRecord.
Proof. solve_decision. Defined.

(** The fields of [Omit<KeyBoundAuthentication, "signature">]. *)
Record KeyBoundStatement := mkStatement {
  ks_version : Z;
  ks_purpose : jsstr;
  ks_scopeId : jsstr;
  ks_unitId : jsstr;
  ks_subjectId : jsstr;
  ks_keyId : jsstr;
  ks_keyVersion : Z;
  ks_scheme : jsstr;
  ks_publicKey : jsstr;
  ks_statementDigest : jsstr;
  ks_issuedAtMs : Z;
}.
Record KeyBoundAuthentication := mkAuthentication {
  ka_statement : KeyBoundStatement;
  ka_signature : jsstr;
}.

Record KeyBoundSigner := mkKeySigner {
  kg_scheme : jsstr;
  kg_publicKey : jsstr;
  kg_signDigest : jsstr -> jsstr;
}.
Record AsyncKeyBoundSigner := mkAsyncKeySigner {
  akg_scheme : jsstr;
  akg_publicKey : jsstr;
  akg_signDigest : jsstr -> option jsstr;
}.
Definition KeyLifecycleDigestAdapter := jsstr -> jsstr.
Definition AsyncKeyLifecycleDigestAdapter := jsstr -> option jsstr.
(** [verify(publicKey, digest, signature)], by scheme. *)
Definition KeyLifecycleVerifierRegistry := jsstr -> option (jsstr -> jsstr -> jsstr -> bool).
Definition AsyncKeyLifecycleVerifierRegistry := jsstr -> option (jsstr -> jsstr -> jsstr -> option bool).

Inductive KeyHistoryRefusal :=
| invalid_key_record | duplicate_key_version | key_identity_changed
| non_monotonic_key_version | overlapping_key_versions.
Definition VerificationKeyHistoryValidation := result unit KeyHistoryRefusal.

Inductive KeyBoundRefusal :=
| invalid_authentication | invalid_key_history | expected_binding_mismatch
| unknown_key_version | key_record_binding_mismatch | statement_from_future
| key_not_yet_valid_at_issuance | key_expired_at_issuance | key_revoked_at_issuance
| unsupported_scheme | invalid_signature.
(** The text of a reason, as it is thrown by the signing side. *)
Definition refusal_text (r : KeyBoundRefusal) : jsstr :=
  match r with
  | invalid_authentication => js "invalid_authentication"
  | invalid_key_history => js "invalid_key_history"
  | expected_binding_mismatch => js "expected_binding_mismatch"
  | unknown_key_version => js "unknown_key_version"
  | key_record_binding_mismatch => js "key_record_binding_mismatch"
  | statement_from_future => js "statement_from_future"
  | key_not_yet_valid_at_issuance => js "key_not_yet_valid_at_issuance"
  | key_expired_at_issuance => js "key_expired_at_issuance"
  | key_revoked_at_issuance => js "key_revoked_at_issuance"
  | unsupported_scheme => js "unsupported_scheme"
  | invalid_signature => js "invalid_signature"
  end.
Definition KeyBoundVerification := result (jsstr * Z) KeyBoundRefusal.

(** ** Checks *)

Module Keys.

Definition boundedText (value : jsstr) (maxLength : Z) : bool :=
  (0 <? slen value) && (slen value <=? maxLength).
Definition alphanumeric (c : N) : bool :=
  ((65 <=? c) && (c <=? 90) || (97 <=? c) && (c <=? 122) || (48 <=? c) && (c <=? 57))%N.
(** [/^[A-Za-z0-9][A-Za-z0-9._:-]*$/]. *)
Definition identifier_pattern (value : jsstr) : bool :=
  match value with
  | [] => false
  | c :: rest => alphanumeric c &&
      forallb (fun c => alphanumeric c || (c =? 46)%N || (c =? 95)%N || (c =? 58)%N || (c =? 45)%N) rest
  end.
Definition identifier (value : jsstr) (maxLength : Z) : bool :=
  boundedText value maxLength && identifier_pattern value.
Definition safePositiveInteger (value : Z) : bool := isSafeInteger value && (0 <? value).
Definition safeNonNegativeInteger (value : Z) : bool := isSafeInteger value && (0 <=? value).

Definition validKeyRecord (value : VerificationKeyRecord) : bool :=
  (kr_version value =? 1) &&
  identifier (kr_keyId value) 256 && safePositiveInteger (kr_keyVersion value) &&
  identifier (kr_subjectId value) 256 && identifier (kr_purpose value) 128 &&
  boundedText (kr_scopeId value) 256 && identifier (kr_scheme value) 128 &&
  boundedText (kr_publicKey value) 16384 &&
  safeNonNegativeInteger (kr_validFromMs value) &&
  safeNonNegativeInteger (kr_validUntilMs value) &&
  (kr_validFromMs value <? kr_validUntilMs value) &&
  match kr_revokedAtMs value with
  | None => true
  | Some revokedAtMs => safeNonNegativeInteger revokedAtMs &&
      (kr_validFromMs value <=? revokedAtMs) && (revokedAtMs <=? kr_validUntilMs value)
  end.

(** The checks of [isKeyBoundAuthentication] on the fields once they have their
    types. *)
Definition authentication_bounds (a : KeyBoundAuthentication) : bool :=
  let s := ka_statement a in
  (ks_version s =? 1) && identifier (ks_purpose s) 128 && boundedText (ks_scopeId s) 256 &&
  boundedText (ks_unitId s) 256 && identifier (ks_subjectId s) 256 && identifier (ks_keyId s) 256 &&
  safePositiveInteger (ks_keyVersion s) && identifier (ks_scheme s) 128 &&
  boundedText (ks_publicKey s) 16384 && boundedText (ks_statementDigest s) 4096 &&
  safeNonNegativeInteger (ks_issuedAtMs s) && boundedText (ka_signature a) 16384.
(** A type guard gives the value at the type it establishes. *)
Definition isKeyBoundAuthentication (value : jsval) : option KeyBoundAuthentication :=
  version ← as_safe_integer (field value "version");
  purpose ← as_string (field value "purpose");
  scopeId ← as_string (field value "scopeId");
  unitId ← as_string (field value "unitId");
  subjectId ← as_string (field value "subjectId");
  keyId ← as_string (field value "keyId");
  keyVersion ← as_safe_integer (field value "keyVersion");
  scheme ← as_string (field value "scheme");
  publicKey ← as_string (field value "publicKey");
  statementDigest ← as_string (field value "statementDigest");
  issuedAtMs ← as_safe_integer (field value "issuedAtMs");
  signature ← as_string (field value "signature");
  let a := mkAuthentication (mkStatement version purpose scopeId unitId subjectId keyId keyVersion
             scheme publicKey statementDigest issuedAtMs) signature in
  if authentication_bounds a then Some a else None.

Definition issuanceTimeRefusal (key : VerificationKeyRecord) (issuedAtMs : Z) : option KeyBoundRefusal :=
  if negb (safeNonNegativeInteger issuedAtMs) || (issuedAtMs <? kr_validFromMs key)
  then Some key_not_yet_valid_at_issuance
  else if kr_validUntilMs key <=? issuedAtMs then Some key_expired_at_issuance
  else match kr_revokedAtMs key with
       | Some revokedAtMs => if revokedAtMs <=? issuedAtMs then Some key_revoked_at_issuance else None
       | None => None
       end.

(** ** Histories *)

Definition keyVersionIndex (keyId : jsstr) (keyVersion : Z) : jsstr :=
  keyId ++ [0%N] ++ num_to_string keyVersion.

(** [slots.get(keyId) ?? []], [push] and [slots.set]: a [Map] iterates in the
    order in which its keys were first set. *)
Fixpoint slot_push {A} (keyId : jsstr) (x : A) (slots : list (jsstr * list A)) : list (jsstr * list A) :=
  match slots with
  | [] => [(keyId, [x])]
  | (k, slot) :: rest =>
      if str_eqb k keyId then (k, slot ++ [x]) :: rest else (k, slot) :: slot_push keyId x rest
  end.

Fixpoint collect_slots (history : list VerificationKeyRecord) (versions : gset jsstr)
    (slots : list (jsstr * list VerificationKeyRecord))
    : result (list (jsstr * list VerificationKeyRecord)) KeyHistoryRefusal :=
  match history with
  | [] => Ok slots
  | key :: rest =>
      if negb (validKeyRecord key) then Err invalid_key_record
      else
        let versionId := keyVersionIndex (kr_keyId key) (kr_keyVersion key) in
        if bool_decide (versionId ∈ versions) then Err duplicate_key_version
        else collect_slots rest ({[versionId]} ∪ versions) (slot_push (kr_keyId key) key slots)
  end.

Definition by_key_version (a b : VerificationKeyRecord) : bool := kr_keyVersion a <=? kr_keyVersion b.

(** The loop over neighbours of a sorted slot. *)
Fixpoint neighbours_refusal (previous : VerificationKeyRecord) (ordered : list VerificationKeyRecord)
    : option KeyHistoryRefusal :=
  match ordered with
  | [] => None
  | current :: rest =>
      if negb (kr_keyVersion current =? kr_keyVersion previous + 1) then Some non_monotonic_key_version
      else if kr_validFromMs current <? kr_validUntilMs previous then Some overlapping_key_versions
      else neighbours_refusal current rest
  end.
Definition identity_differs (first key : VerificationKeyRecord) : bool :=
  negb (str_eqb (kr_subjectId key) (kr_subjectId first)) ||
  negb (str_eqb (kr_purpose key) (kr_purpose first)) ||
  negb (str_eqb (kr_scopeId key) (kr_scopeId first)).
Definition slot_refusal (slot : list VerificationKeyRecord) : option KeyHistoryRefusal :=
  match slot with
  | [] => None
  | first :: _ =>
      if existsb (identity_differs first) slot then Some key_identity_changed
      else match js_sort by_key_version slot with
           | [] => None
           | lowest :: ordered => neighbours_refusal lowest ordered
           end
  end.
Fixpoint slots_refusal (slots : list (jsstr * list VerificationKeyRecord)) : option KeyHistoryRefusal :=
  match slots with
  | [] => None
  | (_, slot) :: rest =>
      match slot_refusal slot with Some r => Some r | None => slots_refusal rest end
  end.

Definition validateVerificationKeyHistory (history : list VerificationKeyRecord)
    : VerificationKeyHistoryValidation :=
  if (Z.of_nat (length history) =? 0) || (1024 <? Z.of_nat (length history)) then Err invalid_key_record
  else match collect_slots history ∅ [] with
       | Err r => Err r
       | Ok slots => match slots_refusal slots with Some r => Err r | None => Ok tt end
       end.

Record CompiledVerificationKeyHistory := mkCompiled {
  ch_records : list VerificationKeyRecord;
  ch_index : gmap jsstr VerificationKeyRecord;
}.
Definition lookup (history : CompiledVerificationKeyHistory) (keyId : jsstr) (keyVersion : Z)
    : option VerificationKeyRecord :=
  ch_index history !! keyVersionIndex keyId keyVersion.

Definition index_records (records : list VerificationKeyRecord) : gmap jsstr VerificationKeyRecord :=
  foldl (fun index key => <[keyVersionIndex (kr_keyId key) (kr_keyVersion key) := key]> index) ∅ records.
Definition compileVerificationKeyHistory (records : list VerificationKeyRecord)
    : result CompiledVerificationKeyHistory KeyHistoryRefusal :=
  match validateVerificationKeyHistory records with
  | Err r => Err r
  | Ok _ => Ok (mkCompiled records (index_records records))
  end.

(** ** Decoding *)

Definition decode_revoked (v : jsval) : option (option Z) :=
  match v with
  | JNull => Some None
  | _ => z ← as_safe_integer v; Some (Some z)
  end.
(** One element of [keys], with the type tests of [validKeyRecord]. *)
Definition decode_key (wire : jsval) : option VerificationKeyRecord :=
  if negb (is_record wire) then None else
  version ← as_safe_integer (field wire "version");
  keyId ← as_string (field wire "key_id");
  keyVersion ← as_safe_integer (field wire "key_version");
  subjectId ← as_string (field wire "subject_id");
  purpose ← as_string (field wire "purpose");
  scopeId ← as_string (field wire "scope_id");
  scheme ← as_string (field wire "scheme");
  publicKey ← as_string (field wire "public_key");
  validFromMs ← as_safe_integer (field wire "valid_from_ms");
  validUntilMs ← as_safe_integer (field wire "valid_until_ms");
  revokedAtMs ← decode_revoked (field wire "revoked_at_ms");
  let key := mkKeyRecord version keyId keyVersion subjectId purpose scopeId scheme publicKey
               validFromMs validUntilMs revokedAtMs in
  if validKeyRecord key then Some key else None.

Definition decodeVerificationKeyHistory `{JsHost} (encoded : option jsstr)
    : option (list VerificationKeyRecord) :=
  match encoded with
  | None => None
  | Some encoded =>
      if (slen encoded =? 0) || (1048576 <? slen encoded) then None else
      match json_parse encoded with
      | None => None
      | Some root =>
          if negb (is_record root && is_num 1 (field root "version")) then None else
          candidates ← as_array (field root "keys");
          keys ← mapM decode_key candidates;
          if is_ok (validateVerificationKeyHistory keys) then Some keys else None
      end
  end.

(** ** Statements *)

Definition canonicalKeyBoundSignatureStatement (authentication : KeyBoundStatement) : jsstr :=
  stringify (JArr [JStr (js "converge-audit-key-bound-signature-v1");
    JNum (ks_version authentication); JStr (ks_purpose authentication);
    JStr (ks_scopeId authentication); JStr (ks_unitId authentication);
    JStr (ks_subjectId authentication); JStr (ks_keyId authentication);
    JNum (ks_keyVersion authentication); JStr (ks_scheme authentication);
    JStr (ks_publicKey authentication); JStr (ks_statementDigest authentication);
    JNum (ks_issuedAtMs authentication)]).

Definition prepareUnsignedKeyBoundStatement (key : VerificationKeyRecord) (unitId statementDigest : jsstr)
    (issuedAtMs : Z) (signer_scheme signer_publicKey : jsstr) : throws KeyBoundStatement :=
  throw_if (negb (validKeyRecord key)) (js "invalid verification key record") $
  throw_if (negb (boundedText unitId 256) || negb (boundedText statementDigest 4096))
    (js "invalid key-bound statement") $
  throw_if (negb (str_eqb signer_scheme (kr_scheme key)) || negb (str_eqb signer_publicKey (kr_publicKey key)))
    (js "signer does not match verification key record") $
  match issuanceTimeRefusal key issuedAtMs with
  | Some timeRefusal => inl (refusal_text timeRefusal)
  | None => inr (mkStatement 1 (kr_purpose key) (kr_scopeId key) unitId (kr_subjectId key)
      (kr_keyId key) (kr_keyVersion key) (kr_scheme key) (kr_publicKey key) statementDigest issuedAtMs)
  end.

Definition signKeyBoundStatement (key : VerificationKeyRecord) (unitId statementDigest : jsstr)
    (issuedAtMs : Z) (signer : KeyBoundSigner) (digest : KeyLifecycleDigestAdapter)
    : throws KeyBoundAuthentication :=
  let! unsigned := prepareUnsignedKeyBoundStatement key unitId statementDigest issuedAtMs
                     (kg_scheme signer) (kg_publicKey signer) in
  let signature := kg_signDigest signer (digest (canonicalKeyBoundSignatureStatement unsigned)) in
  throw_if (negb (boundedText signature 16384)) (js "signing failed") $
  inr (mkAuthentication unsigned signature).

Definition signKeyBoundStatementAsync (key : VerificationKeyRecord) (unitId statementDigest : jsstr)
    (issuedAtMs : Z) (signer : AsyncKeyBoundSigner) (digest : AsyncKeyLifecycleDigestAdapter)
    : option (throws KeyBoundAuthentication) :=
  match prepareUnsignedKeyBoundStatement key unitId statementDigest issuedAtMs
          (akg_scheme signer) (akg_publicKey signer) with
  | inl e => Some (inl e)
  | inr unsigned =>
      statement ← digest (canonicalKeyBoundSignatureStatement unsigned);
      signature ← akg_signDigest signer statement;
      Some (throw_if (negb (boundedText signature 16384)) (js "signing failed") $
            inr (mkAuthentication unsigned signature))
  end.

Record KeyBoundVerificationContext := mkContext {
  kc_purpose : jsstr;
  kc_scopeId : jsstr;
  kc_unitId : jsstr;
  kc_subjectId : jsstr;
  kc_statementDigest : jsstr;
  kc_nowMs : Z;
  kc_maxClockSkewMs : Z;
  kc_history : option CompiledVerificationKeyHistory;
}.

Definition preflightKeyBoundStatement (authentication : jsval) (options : KeyBoundVerificationContext)
    (schemeSupported : jsstr -> bool)
    : result (KeyBoundAuthentication * VerificationKeyRecord) KeyBoundRefusal :=
  match isKeyBoundAuthentication authentication with
  | None => Err invalid_authentication
  | Some a =>
    let s := ka_statement a in
    match kc_history options with
    | None => Err invalid_key_history
    | Some history =>
      if negb (str_eqb (ks_purpose s) (kc_purpose options)) ||
         negb (str_eqb (ks_scopeId s) (kc_scopeId options)) ||
         negb (str_eqb (ks_unitId s) (kc_unitId options)) ||
         negb (str_eqb (ks_subjectId s) (kc_subjectId options)) ||
         negb (str_eqb (ks_statementDigest s) (kc_statementDigest options))
      then Err expected_binding_mismatch
      else match lookup history (ks_keyId s) (ks_keyVersion s) with
      | None => Err unknown_key_version
      | Some key =>
        if negb (str_eqb (kr_subjectId key) (ks_subjectId s)) ||
           negb (str_eqb (kr_purpose key) (ks_purpose s)) ||
           negb (str_eqb (kr_scopeId key) (ks_scopeId s)) ||
           negb (str_eqb (kr_scheme key) (ks_scheme s)) ||
           negb (str_eqb (kr_publicKey key) (ks_publicKey s))
        then Err key_record_binding_mismatch
        else
          let latestAcceptedIssuance := kc_nowMs options + kc_maxClockSkewMs options in
          if negb (safeNonNegativeInteger (kc_nowMs options)) ||
             negb (safeNonNegativeInteger (kc_maxClockSkewMs options)) ||
             negb (safeNonNegativeInteger latestAcceptedIssuance) ||
             (latestAcceptedIssuance <? ks_issuedAtMs s)
          then Err statement_from_future
          else match issuanceTimeRefusal key (ks_issuedAtMs s) with
          | Some timeRefusal => Err timeRefusal
          | None =>
            if negb (schemeSupported (ks_scheme s)) then Err unsupported_scheme
            else Ok (a, key)
          end
      end
    end
  end.

Definition verifyKeyBoundStatement (authentication : jsval) (options : KeyBoundVerificationContext)
    (digest : KeyLifecycleDigestAdapter) (verifiers : KeyLifecycleVerifierRegistry)
    : KeyBoundVerification :=
  match preflightKeyBoundStatement authentication options (fun scheme => bool_decide (is_Some (verifiers scheme))) with
  | Err r => Err r
  | Ok (a, key) =>
      let s := ka_statement a in
      let accepted := match verifiers (ks_scheme s) with
                      | Some verify => verify (kr_publicKey key)
                          (digest (canonicalKeyBoundSignatureStatement s)) (ka_signature a)
                      | None => false
                      end in
      if negb accepted then Err invalid_signature else Ok (ks_keyId s, ks_keyVersion s)
  end.

Definition verifyKeyBoundStatementAsync (authentication : jsval) (options : KeyBoundVerificationContext)
    (digest : AsyncKeyLifecycleDigestAdapter) (verifiers : AsyncKeyLifecycleVerifierRegistry)
    : option KeyBoundVerification :=
  match preflightKeyBoundStatement authentication options (fun scheme => bool_decide (is_Some (verifiers scheme))) with
  | Err r => Some (Err r)
  | Ok (a, key) =>
      let s := ka_statement a in
      statement ← digest (canonicalKeyBoundSignatureStatement s);
      accepted ← (match verifiers (ks_scheme s) with
                  | Some verify => verify (kr_publicKey key) statement (ka_signature a)
                  | None => Some false
                  end);
      Some (if negb accepted then Err invalid_signature else Ok (ks_keyId s, ks_keyVersion s))
  end.

End Keys.
