(* ===== verification/KeyLifecycleFacts.v ===== *)
(** * What a key history guarantees

    [history_ok] says what a history has to be, without loops and sorting;
    [history_validation_exact] is that the code accepts exactly these.  What
    verification accepts is then bound to the one key of the slot that was valid
    at the time of issuance. *)
From Stdlib Require Import ZifyBool.
From stdpp Require Import gmap.
From S2P Require Import Prelude Json KeyLifecycle.
Set Default Goal Selector "!".
Import Keys.

Implicit Types (history records : list VerificationKeyRecord) (key : VerificationKeyRecord).

Definition version_id key : jsstr * Z := (kr_keyId key, kr_keyVersion key).
Definition identity key : jsstr * jsstr * jsstr := (kr_subjectId key, kr_purpose key, kr_scopeId key).

(** Versions of a slot follow each other without gap and overlap. *)
Definition successive (slot : list VerificationKeyRecord) : Prop :=
  forall a b, a ∈ slot -> b ∈ slot -> kr_keyVersion a < kr_keyVersion b ->
    (exists c, c ∈ slot /\ kr_keyVersion c = kr_keyVersion a + 1) /\
    kr_validUntilMs a <= kr_validFromMs b.
Record slot_ok (slot : list VerificationKeyRecord) : Prop := {
  so_identity : forall a b, a ∈ slot -> b ∈ slot -> identity a = identity b;
  so_successive : successive slot;
}.
Definition slot_of (keyId : jsstr) history : list VerificationKeyRecord :=
  filter (fun key => kr_keyId key = keyId) history.

Record history_ok history : Prop := {
  ho_size : (0 < length history <= 1024)%nat;
  ho_valid : Forall (fun key => validKeyRecord key = true) history;
  ho_versions : NoDup (version_id <$> history);
  ho_slots : forall keyId, slot_ok (slot_of keyId history);
}.

(** ** Slots in order *)

Lemma valid_window key : validKeyRecord key = true -> kr_validFromMs key < kr_validUntilMs key.
Proof. unfold validKeyRecord. intros H. bool_split. lia. Qed.

Definition below (a b : VerificationKeyRecord) : Prop := kr_keyVersion a < kr_keyVersion b.

Lemma neighbours_successive p l :
  StronglySorted below (p :: l) -> Forall (fun key => validKeyRecord key = true) (p :: l) ->
  neighbours_refusal p l = None <-> successive (p :: l).
Proof.
  revert p. induction l as [|q l IH]; intros p Hs Hv.
  - split; [|done]. intros _ a b ->%list_elem_of_singleton ->%list_elem_of_singleton Hlt. lia.
  - inversion_clear Hs as [|? ? Hs' Hp]. inversion_clear Hv as [|? ? Hvp Hv'].
    pose proof (IH q Hs' Hv') as IHq. clear IH. cbn [neighbours_refusal].
    rewrite Forall_forall in Hp. pose proof (Hp q ltac:(by left)) as Hpq. unfold below in *.
    assert (Hq : forall b, b ∈ q :: l -> kr_keyVersion q <= kr_keyVersion b).
    { intros b [->|Hb]%elem_of_cons; [lia|]. inversion_clear Hs' as [|? ? _ Hql].
      rewrite Forall_forall in Hql. specialize (Hql b Hb). unfold below in Hql. lia. }
    split.
    + intros Hn. destruct (kr_keyVersion q =? _) eqn:Ev; [|done]. cbn in Hn.
      destruct (kr_validFromMs q <? _) eqn:Ew; [done|]. apply IHq in Hn.
      intros a b Ha Hb Hlt. apply elem_of_cons in Ha as [->|Ha].
      * apply elem_of_cons in Hb as [->|Hb]; [lia|]. split.
        { exists q. split; [by right; left|lia]. }
        pose proof (Hq b Hb). destruct (decide (kr_keyVersion q = kr_keyVersion b)) as [E|E].
        -- apply elem_of_cons in Hb as [->|Hb]; [lia|]. inversion_clear Hs' as [|? ? _ Hql].
           rewrite Forall_forall in Hql. specialize (Hql b Hb). unfold below in Hql. lia.
        -- destruct (Hn q b ltac:(by left) Hb ltac:(lia)) as [_ Hu].
           apply Forall_inv in Hv'. apply valid_window in Hv'. lia.
      * apply elem_of_cons in Hb as [->|Hb]; [pose proof (Hq a Ha); lia|].
        destruct (Hn a b Ha Hb Hlt) as [(c & Hc & Ec) Hu]. split; [|done]. exists c. split; [by right|done].
    + intros Hs. destruct (Hs p q ltac:(by left) ltac:(by right; left) Hpq) as [(c & Hc & Ec) Hu].
      apply elem_of_cons in Hc as [->|Hc]; [lia|]. pose proof (Hq c Hc).
      destruct (kr_keyVersion q =? _) eqn:Ev; [|lia]. destruct (kr_validFromMs q <? _) eqn:Ew; [lia|]. cbn.
      apply IHq. intros a b Ha Hb Hlt. destruct (Hs a b ltac:(by right) ltac:(by right) Hlt) as [(d & Hd & Ed) Hv].
      split; [|done]. exists d. split; [|done]. apply elem_of_cons in Hd as [->|Hd]; [|done].
      pose proof (Hq a Ha). lia.
Qed.

Lemma successive_perm l1 l2 : l1 ≡ₚ l2 -> successive l1 -> successive l2.
Proof.
  intros Hp Hs a b Ha Hb Hlt. rewrite <- Hp in Ha, Hb. destruct (Hs a b Ha Hb Hlt) as [(c & Hc & Ec) Hu].
  split; [|done]. exists c. by rewrite <- Hp.
Qed.

Lemma by_key_version_total a b : by_key_version a b = true \/ by_key_version b a = true.
Proof. unfold by_key_version. lia. Qed.
Lemma by_key_version_trans a b c : by_key_version a b = true -> by_key_version b c = true -> by_key_version a c = true.
Proof. unfold by_key_version. lia. Qed.
#[export] Hint Resolve by_key_version_total by_key_version_trans : js_db.

Lemma sorted_strict {A} (f : A -> Z) (l : list A) :
  StronglySorted (fun a b => f a <= f b) l -> NoDup (f <$> l) -> StronglySorted (fun a b => f a < f b) l.
Proof.
  induction 1 as [|x l Hl IH Hx]; intros Hn; [constructor|]. cbn in Hn. inversion_clear Hn as [|? ? Hni Hn'].
  constructor; [by apply IH|]. rewrite Forall_forall in Hx |- *. intros y Hy. specialize (Hx y Hy).
  assert (f x <> f y) by (intros E; apply Hni; rewrite E; by apply list_elem_of_fmap_2). lia.
Qed.
Lemma versions_sorted slot : NoDup (kr_keyVersion <$> slot) -> StronglySorted below (js_sort by_key_version slot).
Proof.
  intros Hn. apply (sorted_strict kr_keyVersion).
  - pose proof (js_sort_sorted by_key_version ltac:(auto with js_db) ltac:(eauto with js_db) slot) as Hs.
    induction Hs as [|x l Hl IH Hx]; constructor; [done|]. eapply Forall_impl; [exact Hx|]. unfold by_key_version. intros ?. lia.
  - by rewrite (js_sort_perm by_key_version slot).
Qed.

Lemma slot_refusal_ok slot :
  Forall (fun key => validKeyRecord key = true) slot -> NoDup (kr_keyVersion <$> slot) ->
  slot_refusal slot = None <-> slot_ok slot.
Proof.
  intros Hv Hn. destruct slot as [|first rest] eqn:Eslot.
  { split; [|done]. intros _. split; [intros a b Ha; by apply elem_of_nil in Ha|intros a b Ha; by apply elem_of_nil in Ha]. }
  rewrite <- Eslot in *. assert (Hf : first ∈ slot) by (subst; by left).
  replace (slot_refusal slot) with (if existsb (identity_differs first) slot then Some key_identity_changed
    else match js_sort by_key_version slot with [] => None | lowest :: ordered => neighbours_refusal lowest ordered end)
    by (subst; done).
  assert (Hi : existsb (identity_differs first) slot = false <-> (forall a b, a ∈ slot -> b ∈ slot -> identity a = identity b)).
  { transitivity (forall a, a ∈ slot -> identity a = identity first).
    - split.
      + intros He a Ha. destruct (identity_differs first a) eqn:E.
        * rewrite (proj2 (existsb_exists _ _)) in He; [done|]. exists a. by rewrite <- list_elem_of_In.
        * unfold identity_differs in E. bool_split. unfold identity. rewrite !str_eqb_eq in *. congruence.
      + intros Ha. apply not_true_iff_false. intros (a & Hin & E)%existsb_exists. rewrite <- list_elem_of_In in Hin.
        specialize (Ha a Hin). unfold identity in Ha. injection Ha as E1 E2 E3. unfold identity_differs in E.
        by rewrite E1, E2, E3, !str_eqb_refl in E.
    - split; [|by auto]. intros Ha a b Hia Hib. by rewrite (Ha a Hia), (Ha b Hib). }
  pose proof (js_sort_perm by_key_version slot) as Hp. pose proof (versions_sorted slot Hn) as Hs.
  destruct (js_sort by_key_version slot) as [|lowest ordered] eqn:Es.
  { rewrite <- Hp in Hf. by apply elem_of_nil in Hf. }
  assert (Hv' : Forall (fun key => validKeyRecord key = true) (lowest :: ordered)) by (by rewrite Hp).
  pose proof (neighbours_successive _ _ Hs Hv') as Hns. split.
  - destruct (existsb _ _); [done|]. intros E. split; [by apply Hi|]. eapply successive_perm; [exact Hp|]. by apply Hns.
  - intros [Hid Hsu]. rewrite (proj2 Hi Hid). apply Hns. by eapply successive_perm; [symmetry|].
Qed.

(** ** Collecting slots *)

Record slots_of (slots : list (jsstr * list VerificationKeyRecord)) history : Prop := {
  sl_keys : NoDup slots.*1;
  sl_slot : forall k slot, (k, slot) ∈ slots <-> slot = slot_of k history /\ slot <> [];
}.

Lemma slot_of_snoc k history key :
  slot_of k (history ++ [key]) = slot_of k history ++ (if decide (kr_keyId key = k) then [key] else []).
Proof. unfold slot_of. rewrite filter_app. by f_equal. Qed.

Lemma slot_push_member {A} keyId (x : A) slots k slot : NoDup slots.*1 ->
  (k, slot) ∈ slot_push keyId x slots <->
  (k <> keyId /\ (k, slot) ∈ slots) \/
  (k = keyId /\ ((exists s, (k, s) ∈ slots /\ slot = s ++ [x]) \/ (k ∉ slots.*1 /\ slot = [x]))).
Proof.
  induction slots as [|[k0 s0] slots IH]; intros Hn; cbn [slot_push].
  - rewrite list_elem_of_singleton. split.
    + intros [= -> ->]. right. split; [done|]. right. split; [apply not_elem_of_nil|done].
    + intros [[_ H]|[-> [(s & H & _)|[_ ->]]]]; [by apply elem_of_nil in H|by apply elem_of_nil in H|done].
  - cbn in Hn. inversion_clear Hn as [|? ? Hni Hn']. destruct (str_eqb k0 keyId) eqn:E.
    + apply str_eqb_eq in E as ->. rewrite !elem_of_cons. cbn [fmap list_fmap fst]. split.
      * intros [[= -> ->]|H].
        -- right. split; [done|]. left. exists s0. split; [by left|done].
        -- left. split; [|by right]. intros ->. apply Hni. by apply (list_elem_of_fmap_2 fst _ (keyId, slot)).
      * intros [[Hne [[= ? ?]|H]]|[-> [(s & [[= ->]|H]%elem_of_cons & ->)|[H _]]]].
        -- congruence.
        -- by right.
        -- by left.
        -- destruct Hni. by apply (list_elem_of_fmap_2 fst _ (keyId, s)).
        -- destruct H. by left.
    + apply str_eqb_neq in E. rewrite !elem_of_cons, (IH Hn'). cbn [fmap list_fmap fst]. split.
      * intros [[= -> ->]|[[Hne H]|[-> [(s & H & ->)|[H ->]]]]].
        -- left. split; [done|by left].
        -- left. split; [done|by right].
        -- right. split; [done|]. left. exists s. split; [by right|done].
        -- right. split; [done|]. right. split; [|done]. by rewrite not_elem_of_cons.
      * intros [[Hne [[= -> ->]|H]]|[-> [(s & [[= ? ?]|H]%elem_of_cons & ->)|[H ->]]]].
        -- by left.
        -- right. left. done.
        -- congruence.
        -- right. right. split; [done|]. left. by exists s.
        -- right. right. split; [done|]. right. split; [|done]. by apply not_elem_of_cons in H as [_ H].
Qed.
Lemma slot_push_keys {A} keyId (x : A) slots k : k ∈ (slot_push keyId x slots).*1 <-> k = keyId \/ k ∈ slots.*1.
Proof.
  induction slots as [|[k0 s0] slots IH]; cbn [slot_push fmap list_fmap fst].
  - rewrite list_elem_of_singleton, elem_of_nil. tauto.
  - destruct (str_eqb k0 keyId) eqn:E; cbn [fmap list_fmap fst].
    + apply str_eqb_eq in E as ->. rewrite elem_of_cons. tauto.
    + rewrite !elem_of_cons, IH. tauto.
Qed.
Lemma slot_push_nodup {A} keyId (x : A) slots : NoDup slots.*1 -> NoDup (slot_push keyId x slots).*1.
Proof.
  induction slots as [|[k0 s0] slots IH]; cbn [slot_push fmap list_fmap fst]; [intros _; apply NoDup_singleton|].
  intros Hn. destruct (str_eqb k0 keyId) eqn:E; [done|]. cbn. inversion_clear Hn as [|? ? Hni Hn'].
  constructor; [|by apply IH]. rewrite slot_push_keys. apply str_eqb_neq in E. intros [->|H]; done.
Qed.

Lemma slots_push slots history key : slots_of slots history ->
  slots_of (slot_push (kr_keyId key) key slots) (history ++ [key]).
Proof.
  intros [Hn Hs]. split; [by apply slot_push_nodup|]. intros k slot. rewrite slot_push_member by done.
  rewrite slot_of_snoc. split.
  - intros [[Hne Hin%Hs]|[-> [(s & [-> _]%Hs & ->)|[Hni ->]]]].
    + rewrite decide_False by done. by rewrite app_nil_r.
    + rewrite decide_True by done. split; [done|]. by destruct (slot_of _ _).
    + rewrite decide_True by done. destruct (slot_of (kr_keyId key) history) as [|y l] eqn:E; [done|].
      destruct Hni. apply (list_elem_of_fmap_2 fst _ (kr_keyId key, y :: l)). apply Hs. by rewrite E.
  - intros [-> Hne]. case_decide as Ek; [right; split; [done|]|left; split; [done|]].
    + subst k. destruct (slot_of (kr_keyId key) history) as [|y l] eqn:E.
      * right. split; [|done]. intros ([k s] & ? & [Es Hs2]%Hs)%list_elem_of_fmap. cbn in *. subst. by rewrite E in Hs2.
      * left. exists (y :: l). split; [|done]. apply Hs. by rewrite E.
    + rewrite app_nil_r in *. by apply Hs.
Qed.

Lemma num_to_string_no_nul z : 0%N ∉ num_to_string z.
Proof.
  intros H. pose proof (num_to_string_units z) as Hu. rewrite Forall_forall in Hu. by apply Hu in H.
Qed.
Lemma keyVersionIndex_inj k v k' v' : keyVersionIndex k v = keyVersionIndex k' v' -> k = k' /\ v = v'.
Proof.
  unfold keyVersionIndex. intros E. apply split_last_sep in E as [-> E]; [|apply num_to_string_no_nul..].
  split; [done|]. by apply num_to_string_inj.
Qed.

Definition record_index key : jsstr := keyVersionIndex (kr_keyId key) (kr_keyVersion key).
Lemma record_index_version a b : record_index a = record_index b <-> version_id a = version_id b.
Proof.
  unfold record_index, version_id. split; [by intros [-> ->]%keyVersionIndex_inj|by intros [= -> ->]].
Qed.

Lemma collect_slots_spec history : forall seen versions slots,
  slots_of slots seen -> versions = list_to_set (record_index <$> seen) -> NoDup (version_id <$> seen) ->
  match collect_slots history versions slots with
  | Ok slots' => slots_of slots' (seen ++ history) /\ Forall (fun key => validKeyRecord key = true) history /\
      NoDup (version_id <$> (seen ++ history))
  | Err r => ~ (Forall (fun key => validKeyRecord key = true) history /\ NoDup (version_id <$> (seen ++ history)))
  end.
Proof.
  induction history as [|key rest IH]; intros seen versions slots Hs -> Hn; cbn [collect_slots].
  { rewrite app_nil_r. done. }
  destruct (validKeyRecord key) eqn:Ev; cbn [negb].
  2: { intros [Hv _]. apply Forall_inv in Hv. congruence. }
  fold (record_index key). case_bool_decide as Hin.
  { intros [_ Hnd]. rewrite elem_of_list_to_set in Hin. apply list_elem_of_fmap in Hin as (y & E & Hy).
    rewrite fmap_app in Hnd. apply NoDup_app in Hnd as (_ & Hd & _). apply (Hd (version_id key)).
    - apply list_elem_of_fmap. exists y. split; [|done]. by apply record_index_version.
    - cbn. by left. }
  assert (Hk : version_id key ∉ version_id <$> seen).
  { intros (y & E & Hy)%list_elem_of_fmap. apply Hin. rewrite elem_of_list_to_set. apply list_elem_of_fmap.
    exists y. split; [|done]. by apply record_index_version. }
  assert (Eapp : seen ++ key :: rest = (seen ++ [key]) ++ rest) by (by rewrite <- app_assoc). rewrite Eapp.
  specialize (IH (seen ++ [key]) ({[record_index key]} ∪ list_to_set (record_index <$> seen))
    (slot_push (kr_keyId key) key slots)).
  destruct (collect_slots rest _ _) as [slots'|r].
  - destruct IH as (H1 & H2 & H3); [by apply slots_push| | |by split_and!; [|constructor|]].
    + apply set_eq. intros x. rewrite fmap_app, list_to_set_app. cbn. set_solver.
    + rewrite fmap_app. apply NoDup_app. split_and!; [done| |apply NoDup_singleton].
      intros x Hx ->%list_elem_of_singleton. done.
  - intros [Hv Hnd]. apply IH; [by apply slots_push| | |split; [by apply Forall_inv_tail in Hv|done]].
    + apply set_eq. intros x. rewrite fmap_app, list_to_set_app. cbn. set_solver.
    + rewrite fmap_app. apply NoDup_app. split_and!; [done| |apply NoDup_singleton].
      intros x Hx ->%list_elem_of_singleton. done.
Qed.

Lemma slots_refusal_none slots : slots_refusal slots = None <-> Forall (fun ks => slot_refusal ks.2 = None) slots.
Proof.
  induction slots as [|[k s] slots IH]; cbn [slots_refusal]; [done|]. rewrite Forall_cons. cbn.
  destruct (slot_refusal s); [|tauto]. split; [done|intros [[=] _]].
Qed.

Lemma slot_of_member keyId history key : key ∈ slot_of keyId history <-> kr_keyId key = keyId /\ key ∈ history.
Proof. unfold slot_of. by rewrite list_elem_of_filter. Qed.
Lemma slot_versions keyId history : NoDup (version_id <$> history) -> NoDup (kr_keyVersion <$> slot_of keyId history).
Proof.
  unfold slot_of. induction history as [|key history IH]; cbn; [intros _; constructor|]. intros Hn. inversion_clear Hn as [|? ? Hni Hn'].
  case_decide as E; [|by apply IH]. cbn. constructor; [|by apply IH].
  intros (y & Ey & [Ek Hy]%list_elem_of_filter)%list_elem_of_fmap. apply Hni. apply list_elem_of_fmap.
  exists y. split; [|done]. unfold version_id. congruence.
Qed.

Lemma slot_ok_nil : slot_ok [].
Proof. split; intros a b Ha; by apply elem_of_nil in Ha. Qed.

Lemma validate_exact history : is_ok (validateVerificationKeyHistory history) = true <-> history_ok history.
Proof.
  unfold validateVerificationKeyHistory.
  assert (Hsize : (Z.of_nat (length history) =? 0) || (1024 <? Z.of_nat (length history)) = false <->
    (0 < length history <= 1024)%nat) by lia.
  destruct (_ || _) eqn:Esz; [split; [done|intros [Hl _ _ _]; by apply Hsize in Hl]|].
  pose proof (proj1 Hsize eq_refl) as Hl. clear Hsize Esz.
  pose proof (collect_slots_spec history [] ∅ []) as Hc. cbn [app] in Hc.
  assert (Hnil : slots_of [] []).
  { split; [apply NoDup_nil_2|]. intros k slot. rewrite elem_of_nil. split; [done|]. by intros [-> []]. }
  specialize (Hc Hnil eq_refl (NoDup_nil_2)). destruct (collect_slots history ∅ []) as [slots|r].
  - destruct Hc as (Hs & Hv & Hn). assert (Hsub : forall k, Forall (fun key => validKeyRecord key = true) (slot_of k history))
      by (intros k; rewrite Forall_forall in Hv |- *; by intros key [_ Hin]%slot_of_member; apply Hv).
    assert (Hr : slots_refusal slots = None <-> forall k, slot_ok (slot_of k history)).
    { rewrite slots_refusal_none, Forall_forall. split.
      - intros Hall k. destruct (slot_of k history) as [|y l] eqn:E; [apply slot_ok_nil|]. rewrite <- E.
        apply slot_refusal_ok; [done|by apply slot_versions|]. apply (Hall (k, slot_of k history)). apply (sl_slot _ _ Hs).
        rewrite E. done.
      - intros Hall [k slot] Hin. apply (sl_slot _ _ Hs) in Hin as [-> _]. cbn.
        apply slot_refusal_ok; [done|by apply slot_versions|done]. }
    destruct (slots_refusal slots) as [r|]; (split; [intros E; try done|intros [H1 H2 H3 H4]]).
    + by apply Hr in H4.
    + split; [done..|]. by apply Hr.
    + done.
  - split; [done|]. intros [_ H2 H3 _]. by destruct Hc.
Qed.

(** ** Compiled histories *)

Lemma compile_ok records h : compileVerificationKeyHistory records = Ok h ->
  history_ok records /\ h = mkCompiled records (index_records records).
Proof.
  unfold compileVerificationKeyHistory. intros H. rewrite <- validate_exact.
  destruct (validateVerificationKeyHistory records) as [u|r]; [|done]. by injection H as <-.
Qed.

Lemma index_records_lookup records k v key : NoDup (version_id <$> records) ->
  index_records records !! keyVersionIndex k v = Some key <-> key ∈ records /\ version_id key = (k, v).
Proof.
  unfold index_records. induction records as [|x records IH] using rev_ind; intros Hn.
  { cbn. rewrite lookup_empty, elem_of_nil. split; [done|by intros []]. }
  rewrite foldl_app. cbn [foldl]. rewrite fmap_app in Hn. apply NoDup_app in Hn as (Hn & Hd & _).
  fold (record_index x). specialize (IH Hn). rewrite elem_of_app, list_elem_of_singleton.
  destruct (decide (version_id x = (k, v))) as [E|E].
  - assert (Ei : record_index x = keyVersionIndex k v) by (unfold record_index; by injection E as -> ->).
    rewrite Ei, lookup_insert_eq. split; [intros [= ->]; by split; [right|]|]. intros [[Hin| ->] Ek]; [|done].
    exfalso. apply (Hd (version_id key)); [by apply list_elem_of_fmap_2|]. cbn. rewrite Ek, E. by left.
  - rewrite lookup_insert_ne, IH.
    + split; [intros [? ?]; by split; [left|]|]. intros [[Hin| ->] Ek]; [by split|done].
    + unfold record_index. intros [E1 E2]%keyVersionIndex_inj. apply E. unfold version_id. congruence.
Qed.
Lemma lookup_exact records h keyId keyVersion key : compileVerificationKeyHistory records = Ok h ->
  lookup h keyId keyVersion = Some key <->
  key ∈ records /\ kr_keyId key = keyId /\ kr_keyVersion key = keyVersion.
Proof.
  intros [[_ _ Hn _] ->]%compile_ok. unfold lookup. cbn [ch_index]. rewrite index_records_lookup by done.
  unfold version_id. split; [by intros [? [= <- <-]]|by intros (? & <- & <-)].
Qed.

(** ** Windows *)

(** The record is valid for a statement issued at [t]. *)
Definition valid_at key (t : Z) : Prop :=
  kr_validFromMs key <= t < kr_validUntilMs key /\ forall r, kr_revokedAtMs key = Some r -> t < r.
Lemma issuance_none key t : issuanceTimeRefusal key t = None <-> safeNonNegativeInteger t = true /\ valid_at key t.
Proof.
  unfold issuanceTimeRefusal, valid_at. destruct (safeNonNegativeInteger t) eqn:Es; cbn; [|by split; [|intros []]].
  destruct (t <? _) eqn:E1; [split; [done|lia]|]. destruct (_ <=? t) eqn:E2; [split; [done|lia]|].
  destruct (kr_revokedAtMs key) as [r|]; [|split; [|done]; intros _; split; [done|]; split; [lia|done]].
  destruct (r <=? t) eqn:E3; split; try done.
  - intros (_ & _ & H). specialize (H r eq_refl). lia.
  - intros _. split; [done|]. split; [lia|]. intros ? [= <-]. lia.
Qed.

(** Two versions of a slot have no moment in common. *)
Lemma one_version_at history a b t : history_ok history -> a ∈ history -> b ∈ history -> kr_keyId a = kr_keyId b ->
  kr_validFromMs a <= t < kr_validUntilMs a -> kr_validFromMs b <= t < kr_validUntilMs b -> a = b.
Proof.
  intros [_ _ Hn Hs] Ha Hb Ek Ta Tb. destruct (Hs (kr_keyId b)) as [_ Hsu].
  assert (Ha' : a ∈ slot_of (kr_keyId b) history) by (by apply slot_of_member).
  assert (Hb' : b ∈ slot_of (kr_keyId b) history) by (by apply slot_of_member).
  destruct (Z.lt_trichotomy (kr_keyVersion a) (kr_keyVersion b)) as [H|[H|H]].
  - destruct (Hsu a b Ha' Hb' H). lia.
  - apply list_elem_of_lookup in Ha as [i Hi]. apply list_elem_of_lookup in Hb as [j Hj].
    assert (i = j) as ->; [|congruence]. eapply (NoDup_lookup _ i j (version_id a) Hn); rewrite list_lookup_fmap; [by rewrite Hi|].
    rewrite Hj. cbn. unfold version_id. congruence.
  - destruct (Hsu b a Hb' Ha' H). lia.
Qed.

(** ** Statements *)

Lemma statement_inj s s' : canonicalKeyBoundSignatureStatement s = canonicalKeyBoundSignatureStatement s' -> s = s'.
Proof.
  intros E. apply stringify_inj in E; [|done|done]. destruct s, s'. cbn in E. by injection E as -> -> -> -> -> -> -> -> -> -> ->.
Qed.

(** What the authentication and the context agree on. *)
Definition binds (s : KeyBoundStatement) (options : KeyBoundVerificationContext) : Prop :=
  ks_purpose s = kc_purpose options /\ ks_scopeId s = kc_scopeId options /\ ks_unitId s = kc_unitId options /\
  ks_subjectId s = kc_subjectId options /\ ks_statementDigest s = kc_statementDigest options.
Definition names (s : KeyBoundStatement) key : Prop :=
  ks_keyId s = kr_keyId key /\ ks_keyVersion s = kr_keyVersion key /\ ks_subjectId s = kr_subjectId key /\
  ks_purpose s = kr_purpose key /\ ks_scopeId s = kr_scopeId key /\ ks_scheme s = kr_scheme key /\
  ks_publicKey s = kr_publicKey key.

Lemma preflight_ok authentication options supported a key records h :
  kc_history options = Some h -> compileVerificationKeyHistory records = Ok h ->
  preflightKeyBoundStatement authentication options supported = Ok (a, key) <->
  isKeyBoundAuthentication authentication = Some a /\ binds (ka_statement a) options /\
  key ∈ records /\ names (ka_statement a) key /\
  safeNonNegativeInteger (kc_nowMs options) = true /\ safeNonNegativeInteger (kc_maxClockSkewMs options) = true /\
  safeNonNegativeInteger (kc_nowMs options + kc_maxClockSkewMs options) = true /\
  ks_issuedAtMs (ka_statement a) <= kc_nowMs options + kc_maxClockSkewMs options /\
  issuanceTimeRefusal key (ks_issuedAtMs (ka_statement a)) = None /\
  supported (ks_scheme (ka_statement a)) = true.
Proof.
  intros Hh Hc. unfold preflightKeyBoundStatement. rewrite Hh. split.
  - intros H. cbv zeta in H. guards H. injection H as -> ->. bool_split.
    rewrite !str_eqb_eq in *. apply (lookup_exact _ _ _ _ _ Hc) in Ho0 as (Hin & Ek & Ev).
    unfold binds, names. split_and!; try done; try congruence; lia.
  - intros (-> & (E1 & E2 & E3 & E4 & E5) & Hin & (F1 & F2 & F3 & F4 & F5 & F6 & F7) & Hn & Hk & Hl & Hi & Ht & Hsup).
    rewrite E1, E2, E3, E4, E5, !str_eqb_refl. cbn.
    rewrite (proj2 (lookup_exact _ _ (ks_keyId (ka_statement a)) (ks_keyVersion (ka_statement a)) key Hc)) by done.
    rewrite <- E1, <- E2, <- E4, F3, F4, F5, F6, F7, !str_eqb_refl, Hn, Hk, Hl. cbn.
    rewrite (proj2 (Z.ltb_ge _ _)) by done. rewrite Ht, <- F6, Hsup. done.
Qed.

Lemma verify_ok authentication options digest verifiers records h keyId keyVersion :
  kc_history options = Some h -> compileVerificationKeyHistory records = Ok h ->
  verifyKeyBoundStatement authentication options digest verifiers = Ok (keyId, keyVersion) <->
  exists a key verify, preflightKeyBoundStatement authentication options
      (fun scheme => bool_decide (is_Some (verifiers scheme))) = Ok (a, key) /\
    keyId = kr_keyId key /\ keyVersion = kr_keyVersion key /\ verifiers (kr_scheme key) = Some verify /\
    verify (kr_publicKey key) (digest (canonicalKeyBoundSignatureStatement (ka_statement a))) (ka_signature a) = true.
Proof.
  intros Hh Hc. unfold verifyKeyBoundStatement. split.
  - intros H. destruct (preflightKeyBoundStatement _ _ _) as [[a key]|r] eqn:Ep; [|done]. cbv zeta in H.
    pose proof Ep as Hp. apply (preflight_ok _ _ _ _ _ _ _ Hh Hc) in Hp as (_ & _ & _ & (F1 & F2 & _ & _ & _ & F6 & _) & _).
    rewrite F6 in H. destruct (verifiers (kr_scheme key)) as [verify|] eqn:Ev; [|done].
    destruct (verify _ _ _) eqn:Es; [|done]. injection H as <- <-. exists a, key, verify. by rewrite Ev.
  - intros (a & key & verify & Ep & -> & -> & Ev & Es). rewrite Ep. cbv zeta.
    apply (preflight_ok _ _ _ _ _ _ _ Hh Hc) in Ep as (_ & _ & _ & (F1 & F2 & _ & _ & _ & F6 & _) & _).
    rewrite F6, Ev, Es. cbn. by rewrite F1, F2.
Qed.

(** ** Signing *)

(** The object [{ ...unsigned, signature }]. *)
Definition authentication_value (a : KeyBoundAuthentication) : jsval :=
  let s := ka_statement a in
  JObj [(js "version", JNum (ks_version s)); (js "purpose", JStr (ks_purpose s));
    (js "scopeId", JStr (ks_scopeId s)); (js "unitId", JStr (ks_unitId s));
    (js "subjectId", JStr (ks_subjectId s)); (js "keyId", JStr (ks_keyId s));
    (js "keyVersion", JNum (ks_keyVersion s)); (js "scheme", JStr (ks_scheme s));
    (js "publicKey", JStr (ks_publicKey s)); (js "statementDigest", JStr (ks_statementDigest s));
    (js "issuedAtMs", JNum (ks_issuedAtMs s)); (js "signature", JStr (ka_signature a))].

Lemma authentication_value_is a : authentication_bounds a = true ->
  isKeyBoundAuthentication (authentication_value a) = Some a.
Proof.
  intros Hb. destruct a as [[version purpose scopeId unitId subjectId keyId keyVersion scheme publicKey statementDigest issuedAtMs] signature].
  assert (Hs : isSafeInteger version = true /\ isSafeInteger keyVersion = true /\ isSafeInteger issuedAtMs = true).
  { revert Hb. unfold authentication_bounds, safePositiveInteger, safeNonNegativeInteger. cbn. intros Hb. bool_split. by subst version. }
  destruct Hs as (H1 & H2 & H3). unfold isKeyBoundAuthentication.
  change (field (authentication_value _) "version") with (JNum version).
  change (field (authentication_value _) "purpose") with (JStr purpose).
  change (field (authentication_value _) "scopeId") with (JStr scopeId).
  change (field (authentication_value _) "unitId") with (JStr unitId).
  change (field (authentication_value _) "subjectId") with (JStr subjectId).
  change (field (authentication_value _) "keyId") with (JStr keyId).
  change (field (authentication_value _) "keyVersion") with (JNum keyVersion).
  change (field (authentication_value _) "scheme") with (JStr scheme).
  change (field (authentication_value _) "publicKey") with (JStr publicKey).
  change (field (authentication_value _) "statementDigest") with (JStr statementDigest).
  change (field (authentication_value _) "issuedAtMs") with (JNum issuedAtMs).
  change (field (authentication_value _) "signature") with (JStr signature).
  cbn [as_safe_integer as_string]. rewrite H1, H2, H3. cbn [mbind option_bind]. by rewrite Hb.
Qed.

Lemma prepare_ok key unitId statementDigest issuedAtMs scheme publicKey s :
  prepareUnsignedKeyBoundStatement key unitId statementDigest issuedAtMs scheme publicKey = inr s <->
  validKeyRecord key = true /\ boundedText unitId 256 = true /\ boundedText statementDigest 4096 = true /\
  scheme = kr_scheme key /\ publicKey = kr_publicKey key /\ issuanceTimeRefusal key issuedAtMs = None /\
  s = mkStatement 1 (kr_purpose key) (kr_scopeId key) unitId (kr_subjectId key) (kr_keyId key) (kr_keyVersion key)
        (kr_scheme key) (kr_publicKey key) statementDigest issuedAtMs.
Proof.
  unfold prepareUnsignedKeyBoundStatement, throw_if. split.
  - intros H. guards H. bool_split. rewrite !str_eqb_eq in *. injection H as <-. done.
  - intros (-> & -> & -> & -> & -> & -> & ->). by rewrite !str_eqb_refl.
Qed.
Lemma sign_ok key unitId statementDigest issuedAtMs signer digest a :
  signKeyBoundStatement key unitId statementDigest issuedAtMs signer digest = inr a ->
  exists s, prepareUnsignedKeyBoundStatement key unitId statementDigest issuedAtMs (kg_scheme signer) (kg_publicKey signer) = inr s /\
    a = mkAuthentication s (kg_signDigest signer (digest (canonicalKeyBoundSignatureStatement s))) /\
    boundedText (ka_signature a) 16384 = true.
Proof.
  unfold signKeyBoundStatement, throw_bind, throw_if. intros H.
  destruct (prepareUnsignedKeyBoundStatement _ _ _ _ _ _) as [e|s]; [done|]. cbv zeta in H.
  destruct (boundedText _ _) eqn:E; [|done]. injection H as <-. by exists s.
Qed.
Lemma prepared_bounds key unitId statementDigest issuedAtMs scheme publicKey s signature :
  prepareUnsignedKeyBoundStatement key unitId statementDigest issuedAtMs scheme publicKey = inr s ->
  boundedText signature 16384 = true -> authentication_bounds (mkAuthentication s signature) = true.
Proof.
  intros (Hv & Hu & Hd & _ & _ & [Ht _]%issuance_none & ->)%prepare_ok Hs.
  unfold authentication_bounds. cbn [ka_statement ka_signature ks_version ks_purpose ks_scopeId ks_unitId ks_subjectId ks_keyId
    ks_keyVersion ks_scheme ks_publicKey ks_statementDigest ks_issuedAtMs] in *.
  unfold validKeyRecord in Hv. bool_split. by rewrite Hu, Hd, Ht, Hs, H10, H9, H8, H7, H6, H5, H4.
Qed.
(** What is prepared for a key of the history passes the checks of the verifier
    from its time of issuance on. *)
Lemma prepared_preflight records h key unitId statementDigest issuedAtMs scheme publicKey s signature nowMs maxClockSkewMs supported :
  compileVerificationKeyHistory records = Ok h -> key ∈ records ->
  prepareUnsignedKeyBoundStatement key unitId statementDigest issuedAtMs scheme publicKey = inr s ->
  boundedText signature 16384 = true -> supported (kr_scheme key) = true ->
  safeNonNegativeInteger nowMs = true -> safeNonNegativeInteger maxClockSkewMs = true ->
  issuedAtMs <= nowMs + maxClockSkewMs <= MAX_SAFE_INTEGER ->
  preflightKeyBoundStatement (authentication_value (mkAuthentication s signature))
    (mkContext (kr_purpose key) (kr_scopeId key) unitId (kr_subjectId key) statementDigest nowMs maxClockSkewMs (Some h)) supported =
  Ok (mkAuthentication s signature, key).
Proof.
  intros Hc Hin Hp Hs Hsup Hn Hk Hi. pose proof (prepared_bounds _ _ _ _ _ _ _ _ Hp Hs) as Hb.
  apply prepare_ok in Hp as (Hkey & Hu & Hd & Esc & Epk & Ht & ->).
  apply (preflight_ok _ _ _ _ _ records h); [done|done|].
  split_and!; [by apply authentication_value_is|by unfold binds|done|by unfold names|done|done| |cbn; lia|done|done].
  cbn [kc_nowMs kc_maxClockSkewMs]. unfold safeNonNegativeInteger in *. bool_split.
  apply andb_true_iff. split; [apply isSafeInteger_spec|]; unfold MAX_SAFE_INTEGER in *; lia.
Qed.

(** ** Claims *)

(** C17: compiling a key history succeeds exactly when the history is one: at
    most 1024 valid records, no version twice, one subject, purpose and scope
    per slot, and the versions of a slot numbered without gap and valid one
    after the other.  The compiled history holds the records given, and its
    index finds a record exactly under its slot and version. *)
Theorem compiled_history_exact records :
  (is_ok (compileVerificationKeyHistory records) = true <-> history_ok records) /\
  forall h, compileVerificationKeyHistory records = Ok h ->
    ch_records h = records /\
    forall keyId keyVersion key, lookup h keyId keyVersion = Some key <->
      key ∈ records /\ kr_keyId key = keyId /\ kr_keyVersion key = keyVersion.
Proof.
  split.
  - rewrite <- validate_exact. unfold compileVerificationKeyHistory. by destruct (validateVerificationKeyHistory records).
  - intros h Hc. split; [by apply compile_ok in Hc as [_ ->]|]. intros keyId keyVersion key. by apply lookup_exact.
Qed.

(** C15: a statement that verifies was made for the purpose, scope, unit,
    subject and content that were expected, was issued no later than the clock
    and its skew allow, and its signature verifies under the key of a record of
    the history that it names.  The record was valid and not revoked when the
    statement was issued, and no other version of its slot covers this
    moment, so no other key of the slot could have signed. *)
Theorem verified_statement_names_its_key records h options digest verifiers authentication keyId keyVersion :
  compileVerificationKeyHistory records = Ok h -> kc_history options = Some h ->
  verifyKeyBoundStatement authentication options digest verifiers = Ok (keyId, keyVersion) ->
  exists a key verify,
    isKeyBoundAuthentication authentication = Some a /\ binds (ka_statement a) options /\
    key ∈ records /\ kr_keyId key = keyId /\ kr_keyVersion key = keyVersion /\ names (ka_statement a) key /\
    ks_issuedAtMs (ka_statement a) <= kc_nowMs options + kc_maxClockSkewMs options <= MAX_SAFE_INTEGER /\
    valid_at key (ks_issuedAtMs (ka_statement a)) /\
    verifiers (kr_scheme key) = Some verify /\
    verify (kr_publicKey key) (digest (canonicalKeyBoundSignatureStatement (ka_statement a))) (ka_signature a) = true /\
    forall other, other ∈ records -> kr_keyId other = keyId -> valid_at other (ks_issuedAtMs (ka_statement a)) -> other = key.
Proof.
  intros Hc Hh (a & key & verify & Hp & -> & -> & Hv & Hs)%(verify_ok _ _ _ _ _ _ _ _ Hh Hc).
  apply (preflight_ok _ _ _ _ _ _ _ Hh Hc) in Hp as (Ha & Hb & Hin & Hn & Hn1 & Hn2 & Hn3 & Hi & [Ht Hva]%issuance_none & _).
  exists a, key, verify. split_and!; try done.
  - unfold safeNonNegativeInteger in Hn3. bool_split. apply isSafeInteger_spec in H. lia.
  - intros other Ho Eo [Hw _]. destruct Hva as [Hw' _]. apply compile_ok in Hc as [Hok _].
    by apply (one_version_at records other key (ks_issuedAtMs (ka_statement a))).
Qed.

(** A statement signed with a key of the history verifies wherever it is
    expected, as soon as the clock with its skew has reached its time of issuance,
    if the verifier registered for the scheme accepts what the signer signs.  *)
Theorem signed_statement_verifies records h key unitId statementDigest issuedAtMs signer digest verifiers verify a nowMs maxClockSkewMs :
  compileVerificationKeyHistory records = Ok h -> key ∈ records ->
  signKeyBoundStatement key unitId statementDigest issuedAtMs signer digest = inr a ->
  verifiers (kr_scheme key) = Some verify ->
  (forall text, verify (kg_publicKey signer) text (kg_signDigest signer text) = true) ->
  safeNonNegativeInteger nowMs = true -> safeNonNegativeInteger maxClockSkewMs = true ->
  issuedAtMs <= nowMs + maxClockSkewMs <= MAX_SAFE_INTEGER ->
  verifyKeyBoundStatement (authentication_value a)
    (mkContext (kr_purpose key) (kr_scopeId key) unitId (kr_subjectId key) statementDigest nowMs maxClockSkewMs (Some h))
    digest verifiers = Ok (kr_keyId key, kr_keyVersion key).
Proof.
  intros Hc Hin (s & Hp & -> & Hs)%sign_ok Hv Hlaw Hn Hk Hi. pose proof Hp as (_ & _ & _ & _ & Epk & _ & Es)%prepare_ok.
  apply (verify_ok _ _ _ _ records h); [done|done|]. eexists _, key, verify. split_and!; [|done..|].
  - eapply prepared_preflight; try done. apply bool_decide_eq_true. by rewrite Hv.
  - cbn [ka_statement ka_signature]. rewrite <- Epk. apply Hlaw.
Qed.

(** With adapters that resolve to what the synchronous ones return, the
    asynchronous signing and verification return what the synchronous ones
    do, refusals and errors included. *)
Theorem async_keys_agree key unitId statementDigest issuedAtMs signer digest authentication options verifiers :
  signKeyBoundStatementAsync key unitId statementDigest issuedAtMs
    (mkAsyncKeySigner (kg_scheme signer) (kg_publicKey signer) (fun text => Some (kg_signDigest signer text)))
    (fun text => Some (digest text)) =
  Some (signKeyBoundStatement key unitId statementDigest issuedAtMs signer digest) /\
  verifyKeyBoundStatementAsync authentication options (fun text => Some (digest text))
    (fun scheme => (fun verify publicKey text signature => Some (verify publicKey text signature)) <$> verifiers scheme) =
  Some (verifyKeyBoundStatement authentication options digest verifiers).
Proof.
  split.
  - unfold signKeyBoundStatementAsync, signKeyBoundStatement. cbn [akg_scheme akg_publicKey akg_signDigest].
    by destruct (prepareUnsignedKeyBoundStatement _ _ _ _ _ _).
  - unfold verifyKeyBoundStatementAsync, verifyKeyBoundStatement.
    replace (preflightKeyBoundStatement authentication options
      (fun scheme => bool_decide (is_Some ((fun verify publicKey text signature => Some (verify publicKey text signature)) <$> verifiers scheme))))
      with (preflightKeyBoundStatement authentication options (fun scheme => bool_decide (is_Some (verifiers scheme)))).
    + destruct (preflightKeyBoundStatement _ _ _) as [[a key']|r]; [|done]. cbv zeta.
      by destruct (verifiers (ks_scheme (ka_statement a))).
    + unfold preflightKeyBoundStatement. destruct (isKeyBoundAuthentication authentication) as [a|]; [|done].
      cbv zeta. by destruct (verifiers (ks_scheme (ka_statement a))).
Qed.

(** What a configuration text decodes to compiles. *)
Lemma decoded_history_compiles `{JsHost} encoded keys : decodeVerificationKeyHistory encoded = Some keys ->
  exists h, compileVerificationKeyHistory keys = Ok h.
Proof.
  unfold decodeVerificationKeyHistory. intros E. guards E. destruct (as_array _) as [cs|]; [|done]. cbn in E.
  destruct (mapM decode_key cs) as [ks|]; [|done]. cbn in E. destruct (is_ok _) eqn:Ev; [|done]. injection E as ->.
  unfold compileVerificationKeyHistory. destruct (validateVerificationKeyHistory keys); [eauto|done].
Qed.

(** ** Witnesses: a slot that was rotated once and then revoked *)

Definition toy_key (keyVersion validFromMs validUntilMs : Z) (revokedAtMs : option Z) : VerificationKeyRecord :=
  mkKeyRecord 1 (js "relay") keyVersion (js "relay-authority") (js "resolution") (js "game/1") (js "toy")
    (js "pk" ++ num_to_string keyVersion) validFromMs validUntilMs revokedAtMs.
Definition toy_records : list VerificationKeyRecord := [toy_key 2 100 200 (Some 150); toy_key 1 0 100 None].
Definition toy_compiled : CompiledVerificationKeyHistory := mkCompiled toy_records (index_records toy_records).
Definition toy_key_digest (text : jsstr) : jsstr := js "digest-" ++ num_to_string (slen text).
Definition toy_key_signer (keyVersion : Z) : KeyBoundSigner :=
  mkKeySigner (js "toy") (js "pk" ++ num_to_string keyVersion)
    (fun text => js "pk" ++ num_to_string keyVersion ++ js ":" ++ text).
Definition toy_key_verify (publicKey text signature : jsstr) : bool :=
  str_eqb signature (publicKey ++ js ":" ++ text).
Definition toy_verifiers (scheme : jsstr) : option (jsstr -> jsstr -> jsstr -> bool) :=
  if str_eqb scheme (js "toy") then Some toy_key_verify else None.
Definition toy_authentication : KeyBoundAuthentication :=
  match signKeyBoundStatement (toy_key 2 100 200 (Some 150)) (js "unit") (js "content") 120 (toy_key_signer 2) toy_key_digest with
  | inr a => a
  | inl _ => mkAuthentication (mkStatement 0 [] [] [] [] [] 0 [] [] [] 0) []
  end.
Definition toy_context : KeyBoundVerificationContext :=
  mkContext (js "resolution") (js "game/1") (js "unit") (js "relay-authority") (js "content") 118 5 (Some toy_compiled).

Lemma verified_statement_names_its_key_witness : exists a key verify,
    isKeyBoundAuthentication (authentication_value toy_authentication) = Some a /\ binds (ka_statement a) toy_context /\
    key ∈ toy_records /\ kr_keyId key = js "relay" /\ kr_keyVersion key = 2 /\ names (ka_statement a) key /\
    ks_issuedAtMs (ka_statement a) <= 118 + 5 <= MAX_SAFE_INTEGER /\
    valid_at key (ks_issuedAtMs (ka_statement a)) /\
    toy_verifiers (kr_scheme key) = Some verify /\
    verify (kr_publicKey key) (toy_key_digest (canonicalKeyBoundSignatureStatement (ka_statement a))) (ka_signature a) = true /\
    forall other, other ∈ toy_records -> kr_keyId other = js "relay" -> valid_at other (ks_issuedAtMs (ka_statement a)) -> other = key.
Proof.
  apply (verified_statement_names_its_key toy_records toy_compiled toy_context toy_key_digest toy_verifiers).
  - vm_compute. reflexivity.
  - reflexivity.
  - vm_compute. reflexivity.
Defined.

Lemma signed_statement_verifies_witness :
  verifyKeyBoundStatement (authentication_value toy_authentication)
    (mkContext (js "resolution") (js "game/1") (js "unit") (js "relay-authority") (js "content") 1000 5 (Some toy_compiled))
    toy_key_digest toy_verifiers = Ok (js "relay", 2).
Proof.
  apply (signed_statement_verifies toy_records toy_compiled (toy_key 2 100 200 (Some 150)) (js "unit") (js "content") 120
    (toy_key_signer 2) toy_key_digest toy_verifiers toy_key_verify).
  - vm_compute. reflexivity.
  - left.
  - vm_compute. reflexivity.
  - vm_compute. reflexivity.
  - intros text. apply str_eqb_eq. reflexivity.
  - reflexivity.
  - reflexivity.
  - vm_compute. split; intros [=].
Defined.

(** After the revocation the same key is refused. *)
Example revoked_key_refused :
  signKeyBoundStatement (toy_key 2 100 200 (Some 150)) (js "unit") (js "content") 150 (toy_key_signer 2) toy_key_digest =
  inl (js "key_revoked_at_issuance").
Proof. vm_compute. reflexivity. Qed.
