(* ===== verification/KeyLedger.v ===== *)
(** * The lifecycle of verification keys

    [player-local-runtime/key-lifecycle-ledger.ts]: a slot is provisioned,
    rotated and revoked by commands that name the revision they expect, and every
    change is an event.  [planVerificationKeyLifecycleMutation] checks the image
    of the slot and computes the records and the event to be stored; the stores
    of [cf-game-audit/src/verification-key-lifecycle-store.ts] (SQL) and
    [cf-game-audit/web/src/audit/verification-key-lifecycle-indexeddb.ts] run it
    twice, once to compute the digest of the event and once more in the
    transaction that stores the result. *)
From Stdlib Require Import ZifyBool.
From stdpp Require Import gmap.
From S2P Require Import Prelude Json Utf8 Async IndexedDb KeyLifecycle.
Set Default Goal Selector "!".
Import Keys.

Inductive VerificationKeyLifecycleEventKind := ev_provision | ev_rotate | ev_revoke.
#[global] Instance event_kind_eq_dec : EqDecision VerificationKeyLifecycleEventKind.
Proof. solve_decision. Defined.

(** [Omit<VerificationKeyLifecycleEvent, "eventDigest">] and the event. *)
Record UnsignedLifecycleEvent := mkUnsignedEvent {
  ev_version : Z;
  ev_keyId : jsstr;
  ev_keyVersion : Z;
  ev_lifecycleRevision : Z;
  ev_eventKind : VerificationKeyLifecycleEventKind;
  ev_canonicalEvent : jsstr;
  ev_committedAtMs : Z;
}.
Record VerificationKeyLifecycleEvent := mkLifecycleEvent {
  ev_body : UnsignedLifecycleEvent;
  ev_eventDigest : jsstr;
}.
Record VerificationKeyLifecycleImage := mkImage {
  im_records : list VerificationKeyRecord;
  im_events : list VerificationKeyLifecycleEvent;
}.

Inductive UnsignedVerificationKeyLifecycleCommand :=
| kc_provision (expectedRevision committedAtMs : Z) (record : VerificationKeyRecord)
| kc_rotate (expectedRevision committedAtMs : Z) (keyId : jsstr) (previousKeyVersion : Z)
    (nextRecord : VerificationKeyRecord) (cutoverMs : Z)
| kc_revoke (expectedRevision committedAtMs : Z) (keyId : jsstr) (keyVersion revokedAtMs : Z).

Definition command_expectedRevision (c : UnsignedVerificationKeyLifecycleCommand) : Z :=
  match c with kc_provision e _ _ | kc_rotate e _ _ _ _ _ | kc_revoke e _ _ _ _ => e end.
Definition command_committedAtMs (c : UnsignedVerificationKeyLifecycleCommand) : Z :=
  match c with kc_provision _ t _ | kc_rotate _ t _ _ _ _ | kc_revoke _ t _ _ _ => t end.
Definition command_kind (c : UnsignedVerificationKeyLifecycleCommand) : VerificationKeyLifecycleEventKind :=
  match c with kc_provision _ _ _ => ev_provision | kc_rotate _ _ _ _ _ _ => ev_rotate | kc_revoke _ _ _ _ _ => ev_revoke end.

Inductive LifecycleRefusal := invalid_transition | stale_revision | key_already_exists | unknown_key | corrupt_store.
#[global] Instance lifecycle_refusal_eq_dec : EqDecision LifecycleRefusal.
Proof. solve_decision. Defined.
(** [{ decision: "committed", revision } | { decision: "refused", reason }]. *)
Definition VerificationKeyLifecycleMutationResult := result Z LifecycleRefusal.
Definition VerificationKeyLifecyclePlan := result (list VerificationKeyRecord * UnsignedLifecycleEvent) LifecycleRefusal.

Module Ledger.

Definition commandKeyId (command : UnsignedVerificationKeyLifecycleCommand) : jsstr :=
  match command with
  | kc_provision _ _ record => kr_keyId record
  | kc_rotate _ _ keyId _ _ _ | kc_revoke _ _ keyId _ _ => keyId
  end.

Definition recordTuple (record : VerificationKeyRecord) : list jsval :=
  [JNum (kr_version record); JStr (kr_keyId record); JNum (kr_keyVersion record);
   JStr (kr_subjectId record); JStr (kr_purpose record); JStr (kr_scopeId record);
   JStr (kr_scheme record); JStr (kr_publicKey record); JNum (kr_validFromMs record);
   JNum (kr_validUntilMs record);
   match kr_revokedAtMs record with Some r => JNum r | None => JNull end].

Definition canonicalVerificationKeyLifecycleEvent (command : UnsignedVerificationKeyLifecycleCommand)
    (lifecycleRevision : Z) : jsstr :=
  match command with
  | kc_provision expectedRevision committedAtMs record =>
      stringify (JArr [JStr (js "converge-audit-verification-key-lifecycle-v1"); JStr (js "provision");
        JNum lifecycleRevision; JNum expectedRevision; JArr (recordTuple record); JNum committedAtMs])
  | kc_rotate expectedRevision committedAtMs keyId previousKeyVersion nextRecord cutoverMs =>
      stringify (JArr [JStr (js "converge-audit-verification-key-lifecycle-v1"); JStr (js "rotate");
        JNum lifecycleRevision; JNum expectedRevision; JStr keyId; JNum previousKeyVersion;
        JNum cutoverMs; JArr (recordTuple nextRecord); JNum committedAtMs])
  | kc_revoke expectedRevision committedAtMs keyId keyVersion revokedAtMs =>
      stringify (JArr [JStr (js "converge-audit-verification-key-lifecycle-v1"); JStr (js "revoke");
        JNum lifecycleRevision; JNum expectedRevision; JStr keyId; JNum keyVersion;
        JNum revokedAtMs; JNum committedAtMs])
  end.

(** ** Checking an image *)

Abbreviation event := VerificationKeyLifecycleEvent.
Definition revision_of (e : event) : Z := ev_lifecycleRevision (ev_body e).
Definition kind_of (e : event) : VerificationKeyLifecycleEventKind := ev_eventKind (ev_body e).
Definition version_of (e : event) : Z := ev_keyVersion (ev_body e).
Definition time_of (e : event) : Z := ev_committedAtMs (ev_body e).
Definition slot_id (e : event) : jsstr := ev_keyId (ev_body e).
Definition is_kind (k : VerificationKeyLifecycleEventKind) (e : event) : bool := bool_decide (kind_of e = k).

Definition event_malformed (e : event) : bool :=
  negb (ev_version (ev_body e) =? 1) || negb (identifier (slot_id e) 256) ||
  negb (safePositiveInteger (version_of e)) || negb (safePositiveInteger (revision_of e)) ||
  negb (is_hex 64 (ev_eventDigest e)) ||
  (slen (ev_canonicalEvent (ev_body e)) =? 0) || (65536 <? slen (ev_canonicalEvent (ev_body e))) ||
  negb (safeNonNegativeInteger (time_of e)).

Definition by_revision (a b : event) : bool := revision_of a <=? revision_of b.

(** [list.some((x, index) => p(x, index))]. *)
Definition some_indexed {A} (p : A -> Z -> bool) (l : list A) : bool :=
  existsb (fun ix => p (snd ix) (Z.of_nat (fst ix))) (zip (seq 0 (length l)) l).

(** The check of one entry of [eventSlots]. *)
Definition event_slot_malformed (ks : jsstr * list event) : bool :=
  let '(keyId, events) := ks in
  let ordered := js_sort by_revision events in
  negb (match ordered with e :: _ => is_kind ev_provision e | [] => false end) ||
  some_indexed (fun e index => negb (revision_of e =? index + 1) || negb (str_eqb (slot_id e) keyId)) ordered.

(** [events.some((event, index) => index > 0 && event.committedAtMs < events[index - 1].committedAtMs)]. *)
Definition time_goes_back (events : list event) : bool :=
  some_indexed (fun e index => (0 <? index) &&
    match events !! Z.to_nat (index - 1) with Some p => time_of e <? time_of p | None => false end) events.

(** The check of one member of [recordKeyIds]. *)
Definition slot_mismatch (image : VerificationKeyLifecycleImage) (eventSlots : list (jsstr * list event)) (keyId : jsstr) : bool :=
  let records := js_sort by_key_version (filter (fun r => kr_keyId r = keyId) (im_records image)) in
  let events := js_sort by_revision (default [] (assoc keyId eventSlots)) in
  (Z.of_nat (length events) =? 0) ||
  negb (match events with e :: _ => is_kind ev_provision e && (version_of e =? 1) | [] => false end) ||
  some_indexed (fun r index => negb (kr_keyVersion r =? index + 1)) records ||
  time_goes_back events ||
  let rotations := filter (fun e => is_kind ev_rotate e = true) events in
  negb (Z.of_nat (length rotations) =? Z.of_nat (length records) - 1) ||
  some_indexed (fun e index => negb (version_of e =? index + 2)) rotations ||
  let revocations := filter (fun e => is_kind ev_revoke e = true) events in
  let revokedVersions := kr_keyVersion <$> filter (fun r => kr_revokedAtMs r <> None) records in
  negb (bool_decide (NoDup (version_of <$> revocations))) ||
  existsb (fun e => negb (bool_decide (version_of e ∈ revokedVersions))) revocations ||
  existsb (fun v => negb (existsb (fun e => version_of e =? v) revocations)) revokedVersions.

Definition lifecycleImageValid (image : VerificationKeyLifecycleImage) : bool :=
  if negb (Z.of_nat (length (im_records image)) =? 0) && negb (is_ok (validateVerificationKeyHistory (im_records image))) then false
  else if existsb event_malformed (im_events image) then false
  else
    let eventSlots := foldl (fun slots e => slot_push (slot_id e) e slots) [] (im_events image) in
    if existsb event_slot_malformed eventSlots then false
    else
      let recordKeyIds := remove_dups (kr_keyId <$> im_records image) in
      if negb (Z.of_nat (length recordKeyIds) =? Z.of_nat (length eventSlots)) then false
      else negb (existsb (slot_mismatch image eventSlots) recordKeyIds).

(** ** Planning a change *)

Definition set_validUntilMs (t : Z) (r : VerificationKeyRecord) : VerificationKeyRecord :=
  mkKeyRecord (kr_version r) (kr_keyId r) (kr_keyVersion r) (kr_subjectId r) (kr_purpose r) (kr_scopeId r)
    (kr_scheme r) (kr_publicKey r) (kr_validFromMs r) t (kr_revokedAtMs r).
Definition set_revokedAtMs (t : Z) (r : VerificationKeyRecord) : VerificationKeyRecord :=
  mkKeyRecord (kr_version r) (kr_keyId r) (kr_keyVersion r) (kr_subjectId r) (kr_purpose r) (kr_scopeId r)
    (kr_scheme r) (kr_publicKey r) (kr_validFromMs r) (kr_validUntilMs r) (Some t).
(** [records.map((record) => record.keyVersion === v ? f(record) : record)]. *)
Definition at_version (v : Z) (f : VerificationKeyRecord -> VerificationKeyRecord) (records : list VerificationKeyRecord)
    : list VerificationKeyRecord :=
  map (fun r => if kr_keyVersion r =? v then f r else r) records.

(** The branches on [command.kind]: the next records and the version of the
    event. *)
Definition plan_records (command : UnsignedVerificationKeyLifecycleCommand) (records : list VerificationKeyRecord)
    (events : list event) : result (list VerificationKeyRecord * Z) LifecycleRefusal :=
  match command with
  | kc_provision expectedRevision _ record =>
      if (0 <? Z.of_nat (length records)) || (0 <? Z.of_nat (length events)) then Err key_already_exists
      else if negb (expectedRevision =? 0) || negb (kr_keyVersion record =? 1) ||
              negb (bool_decide (kr_revokedAtMs record = None)) ||
              negb (is_ok (validateVerificationKeyHistory [record])) then Err invalid_transition
      else Ok ([record], kr_keyVersion record)
  | kc_rotate _ _ keyId previousKeyVersion nextRecord cutoverMs =>
      let ordered := js_sort by_key_version records in
      match last ordered with
      | None => Err unknown_key
      | Some previous =>
          if negb (kr_keyVersion previous =? previousKeyVersion) ||
             negb (str_eqb (kr_keyId nextRecord) keyId) ||
             negb (kr_keyVersion nextRecord =? kr_keyVersion previous + 1) ||
             negb (str_eqb (kr_subjectId nextRecord) (kr_subjectId previous)) ||
             negb (str_eqb (kr_purpose nextRecord) (kr_purpose previous)) ||
             negb (str_eqb (kr_scopeId nextRecord) (kr_scopeId previous)) ||
             negb (kr_validFromMs nextRecord =? cutoverMs) ||
             negb (bool_decide (kr_revokedAtMs nextRecord = None)) ||
             negb (safeNonNegativeInteger cutoverMs) ||
             (cutoverMs <=? kr_validFromMs previous) ||
             (kr_validUntilMs previous <? cutoverMs) then Err invalid_transition
          else
            let nextRecords := at_version (kr_keyVersion previous) (set_validUntilMs cutoverMs) ordered ++ [nextRecord] in
            if negb (is_ok (validateVerificationKeyHistory nextRecords)) then Err invalid_transition
            else Ok (nextRecords, kr_keyVersion nextRecord)
      end
  | kc_revoke _ _ _ keyVersion revokedAtMs =>
      match List.find (fun r => kr_keyVersion r =? keyVersion) records with
      | None => Err unknown_key
      | Some target =>
          if negb (bool_decide (kr_revokedAtMs target = None)) || negb (safeNonNegativeInteger revokedAtMs) ||
             (revokedAtMs <? kr_validFromMs target) || (kr_validUntilMs target <? revokedAtMs) then Err invalid_transition
          else
            let nextRecords := at_version keyVersion (set_revokedAtMs revokedAtMs) records in
            if negb (is_ok (validateVerificationKeyHistory nextRecords)) then Err invalid_transition
            else Ok (nextRecords, keyVersion)
      end
  end.

Definition planVerificationKeyLifecycleMutation (image : VerificationKeyLifecycleImage)
    (command : UnsignedVerificationKeyLifecycleCommand) : VerificationKeyLifecyclePlan :=
  if negb (lifecycleImageValid image) then Err corrupt_store
  else if negb (safeNonNegativeInteger (command_expectedRevision command)) ||
          negb (safeNonNegativeInteger (command_committedAtMs command)) then Err invalid_transition
  else
    let records := filter (fun r => kr_keyId r = commandKeyId command) (im_records image) in
    let events := filter (fun e => slot_id e = commandKeyId command) (im_events image) in
    let currentRevision := match last events with Some e => revision_of e | None => 0 end in
    if negb (command_expectedRevision command =? currentRevision) then Err stale_revision
    else match plan_records command records events with
    | Err r => Err r
    | Ok (nextRecords, eventKeyVersion) =>
        let lifecycleRevision := currentRevision + 1 in
        Ok (nextRecords,
            mkUnsignedEvent 1 (commandKeyId command) eventKeyVersion lifecycleRevision (command_kind command)
              (canonicalVerificationKeyLifecycleEvent command lifecycleRevision) (command_committedAtMs command))
    end.

End Ledger.
