(* ===== verification/KeyLedgerFacts.v ===== *)
(** * What the lifecycle ledger keeps true of a slot

    [slot_sound]: the records of a slot are a key history with versions 1, 2, ...,
    and its events are exactly the ones that lead there.  A planned change keeps
    it ([planned_sound]).  The image of a sound slot passes the check of the code
    exactly if the events are in the order of their times and their texts fit
    ([sound_image_valid]). *)
From Stdlib Require Import ZifyBool.
From stdpp Require Import gmap.
From S2P Require Import Prelude Json KeyLifecycle KeyLifecycleFacts KeyLedger.
Set Default Goal Selector "!".
Import Keys Ledger.

Implicit Types (records : list VerificationKeyRecord) (events : list event) (img : VerificationKeyLifecycleImage).

Definition rotations events := filter (fun e => is_kind ev_rotate e = true) events.
Definition revocations events := filter (fun e => is_kind ev_revoke e = true) events.
Definition zlength {A} (l : list A) : Z := Z.of_nat (length l).

Definition event_ok (e : event) : Prop :=
  ev_version (ev_body e) = 1 /\ identifier (slot_id e) 256 = true /\ safePositiveInteger (version_of e) = true /\
  safePositiveInteger (revision_of e) = true /\ is_hex 64 (ev_eventDigest e) = true /\
  0 < slen (ev_canonicalEvent (ev_body e)) /\ safeNonNegativeInteger (time_of e) = true.
Definition text_fits (e : event) : Prop := slen (ev_canonicalEvent (ev_body e)) <= 65536.

Record slot_sound (k : jsstr) img : Prop := {
  ss_record_keys : Forall (fun r => kr_keyId r = k) (im_records img);
  ss_event_keys : Forall (fun e => slot_id e = k) (im_events img);
  ss_history : im_records img = [] \/ history_ok (im_records img);
  ss_versions : kr_keyVersion <$> im_records img = seqZ 1 (zlength (im_records img));
  ss_events : Forall event_ok (im_events img);
  ss_revisions : revision_of <$> im_events img = seqZ 1 (zlength (im_events img));
  ss_first : match im_events img with
             | [] => im_records img = []
             | e :: later => kind_of e = ev_provision /\ version_of e = 1 /\ im_records img <> [] /\
                 Forall (fun e => kind_of e <> ev_provision) later
             end;
  ss_rotations : version_of <$> rotations (im_events img) = seqZ 2 (zlength (im_records img) - 1);
  ss_once : NoDup (version_of <$> revocations (im_events img));
  ss_revoked : forall v, v ∈ version_of <$> revocations (im_events img) <->
    exists r, r ∈ im_records img /\ kr_keyVersion r = v /\ kr_revokedAtMs r <> None;
}.

Lemma empty_sound k : slot_sound k (mkImage [] []).
Proof.
  split; cbn; try done; [by left|apply NoDup_nil_2|]. intros v. split; [intros Hv; by apply elem_of_nil in Hv|].
  intros (r & Hr & _). by apply elem_of_nil in Hr.
Qed.

(** ** Lists by index *)

Lemma some_indexed_false {A} (p : A -> Z -> bool) l :
  some_indexed p l = false <-> forall i x, l !! i = Some x -> p x (Z.of_nat i) = false.
Proof.
  unfold some_indexed. rewrite <- not_true_iff_false, existsb_exists. split.
  - intros Hn i x Hi. apply not_true_iff_false. intros Hp. apply Hn. exists (i, x). split; [|done].
    apply list_elem_of_In, list_elem_of_lookup. exists i. apply lookup_zip_Some. split; [|done].
    apply lookup_seq. split; [done|]. by apply lookup_lt_Some in Hi.
  - intros Hall ([i x] & Hin & Hp). apply list_elem_of_In, list_elem_of_lookup in Hin as [j Hj].
    apply lookup_zip_Some in Hj as [Hs Hj]. apply lookup_seq in Hs as [-> _]. cbn in Hp. rewrite (Hall _ _ Hj) in Hp. done.
Qed.

Lemma numbered_at {A} (f : A -> Z) l a i x : f <$> l = seqZ a (zlength l) -> l !! i = Some x -> f x = a + Z.of_nat i.
Proof.
  intros E Hi. assert (Hf : (f <$> l) !! i = Some (f x)) by (by rewrite list_lookup_fmap, Hi).
  rewrite E in Hf. by apply lookup_seqZ in Hf as [-> _].
Qed.
Lemma numbered_sorted {A} (f : A -> Z) (l : list A) a : f <$> l = seqZ a (zlength l) ->
  StronglySorted (fun x y => (f x <=? f y) = true) l.
Proof.
  revert a. induction l as [|x l IH]; intros a E; [constructor|]. unfold zlength in *. cbn [length] in E.
  rewrite seqZ_cons in E by lia. cbn in E. injection E as Ex E.
  replace (Z.pred (Z.of_nat (S (length l)))) with (zlength l) in E by (unfold zlength; lia).
  constructor; [by eapply IH|]. apply Forall_forall. intros y [i Hi]%list_elem_of_lookup.
  rewrite (numbered_at f l (Z.succ a) i y E Hi). lia.
Qed.
Lemma numbered_snoc {A} (f : A -> Z) l a x : f <$> l = seqZ a (zlength l) -> f x = a + zlength l ->
  f <$> (l ++ [x]) = seqZ a (zlength (l ++ [x])).
Proof.
  intros E Ex. rewrite fmap_app, E. unfold zlength in *. rewrite length_app. cbn [length].
  replace (Z.of_nat (length l + 1)) with (Z.of_nat (length l) + 1) by lia.
  rewrite seqZ_app by lia. rewrite <- Ex. f_equal.
Qed.
Lemma numbered_last {A} (f : A -> Z) l a x : f <$> l = seqZ a (zlength l) -> last l = Some x -> f x = a + zlength l - 1.
Proof.
  intros E Hl. rewrite last_lookup in Hl. rewrite (numbered_at f l a _ _ E Hl). apply lookup_lt_Some in Hl. unfold zlength. lia.
Qed.

(** ** Images of one slot *)

Lemma push_same {A} (key : A -> jsstr) k l (s : list A) : Forall (fun x => key x = k) l ->
  foldl (fun slots x => slot_push (key x) x slots) [(k, s)] l = [(k, s ++ l)].
Proof.
  intros Hl. revert s. induction Hl as [|x l Hx _ IH]; intros s; [by rewrite app_nil_r|].
  cbn [foldl slot_push]. rewrite Hx, str_eqb_refl, IH. by rewrite <- app_assoc.
Qed.
Lemma one_event_slot k events : Forall (fun e => slot_id e = k) events ->
  foldl (fun slots e => slot_push (slot_id e) e slots) [] events = match events with [] => [] | _ => [(k, events)] end.
Proof. intros [|e l He Hl]; [done|]. cbn [foldl slot_push]. by rewrite He, (push_same slot_id). Qed.
Lemma one_record_slot k records : Forall (fun r => kr_keyId r = k) records ->
  remove_dups (kr_keyId <$> records) = match records with [] => [] | _ => [k] end.
Proof.
  intros [|r l Hr Hl]; [done|]. cbn [fmap list_fmap]. rewrite Hr. clear r Hr. induction Hl as [|r l Hr _ IH]; [done|].
  cbn [fmap list_fmap]. rewrite Hr. cbn [remove_dups] in *. repeat case_decide; first [done|set_solver].
Qed.
Lemma filter_all {A} (P : A -> Prop) `{!forall x, Decision (P x)} l : Forall P l -> filter P l = l.
Proof. induction 1 as [|x l Hx _ IH]; [done|]. rewrite filter_cons_True by done. by rewrite IH. Qed.

Section Sound.
Context {k : jsstr} {img : VerificationKeyLifecycleImage} (S : slot_sound k img).

Lemma sorted_records : js_sort by_key_version (im_records img) = im_records img.
Proof. apply js_sort_id. apply (numbered_sorted kr_keyVersion _ 1), (ss_versions _ _ S). Qed.
Lemma sorted_events : js_sort by_revision (im_events img) = im_events img.
Proof. apply js_sort_id. apply (numbered_sorted revision_of _ 1), (ss_revisions _ _ S). Qed.
Lemma own_records : filter (fun r => kr_keyId r = k) (im_records img) = im_records img.
Proof. apply filter_all, (ss_record_keys _ _ S). Qed.
Lemma own_events : filter (fun e => slot_id e = k) (im_events img) = im_events img.
Proof. apply filter_all, (ss_event_keys _ _ S). Qed.
Lemma slot_revision : match last (im_events img) with Some e => revision_of e | None => 0 end = zlength (im_events img).
Proof.
  destruct (last (im_events img)) as [e|] eqn:E.
  - rewrite (numbered_last revision_of _ 1 _ (ss_revisions _ _ S) E). lia.
  - apply last_None in E. by rewrite E.
Qed.

Lemma malformed_events : existsb event_malformed (im_events img) = false <-> Forall text_fits (im_events img).
Proof.
  pose proof (ss_events _ _ S) as He. induction He as [|e l (H1 & H2 & H3 & H4 & H5 & H6 & H7) _ IH]; [done|].
  cbn [existsb]. rewrite orb_false_iff, IH, Forall_cons. unfold event_malformed, text_fits.
  rewrite H2, H3, H4, H5, H7. split; (intros [Hm Hl]; split; [lia|done]).
Qed.
Lemma event_slots_fine : im_events img <> [] -> event_slot_malformed (k, im_events img) = false.
Proof.
  intros Hne. unfold event_slot_malformed. rewrite sorted_events. apply orb_false_iff. split.
  - pose proof (ss_first _ _ S) as Hf. destruct (im_events img) as [|e l]; [done|]. destruct Hf as (Ek & _).
    unfold is_kind. by rewrite bool_decide_eq_true_2.
  - apply some_indexed_false. intros i e Hi. rewrite (numbered_at _ _ _ _ _ (ss_revisions _ _ S) Hi).
    pose proof (ss_event_keys _ _ S) as Hk. rewrite Forall_forall in Hk.
    rewrite (Hk e) by (by eapply list_elem_of_lookup_2). rewrite str_eqb_refl. lia.
Qed.
Lemma slot_matches eventSlots : im_events img <> [] -> assoc k eventSlots = Some (im_events img) ->
  slot_mismatch img eventSlots k = time_goes_back (im_events img).
Proof.
  intros Hne Ha. unfold slot_mismatch. rewrite own_records, sorted_records, Ha. change (default [] (Some (im_events img))) with (im_events img). rewrite sorted_events.
  assert (E1 : match im_events img with e :: _ => is_kind ev_provision e && (version_of e =? 1) | [] => false end = true).
  { pose proof (ss_first _ _ S) as Hf. destruct (im_events img) as [|e l]; [done|]. destruct Hf as (Ek & Ev & _).
    unfold is_kind. rewrite bool_decide_eq_true_2 by done. lia. }
  assert (E2 : some_indexed (fun r index => negb (kr_keyVersion r =? index + 1)) (im_records img) = false).
  { apply some_indexed_false. intros i r Hi. rewrite (numbered_at _ _ _ _ _ (ss_versions _ _ S) Hi). lia. }
  pose proof (f_equal length (ss_rotations _ _ S)) as El. rewrite length_fmap, length_seqZ in El.
  assert (Hpos : 0 < zlength (im_records img)).
  { pose proof (ss_first _ _ S) as Hf. destruct (im_events img) as [|e l]; [done|]. destruct Hf as (_ & _ & Hr & _).
    destruct (im_records img); [done|]. unfold zlength. cbn. lia. }
  fold (rotations (im_events img)). fold (revocations (im_events img)).
  assert (E3 : some_indexed (fun e index => negb (version_of e =? index + 2)) (rotations (im_events img)) = false).
  { apply some_indexed_false. intros i e Hi. rewrite (numbered_at version_of (rotations (im_events img)) 2 i e); [lia| |done].
    rewrite (ss_rotations _ _ S). f_equal. unfold zlength in *. lia. }
  assert (E4 : existsb (fun e => negb (bool_decide (version_of e ∈ kr_keyVersion <$> filter (fun r => kr_revokedAtMs r <> None) (im_records img))))
    (revocations (im_events img)) = false).
  { apply not_true_iff_false. intros (e & Hin & Hn)%existsb_exists. apply list_elem_of_In in Hin.
    apply negb_true_iff, bool_decide_eq_false in Hn. apply Hn.
    destruct (proj1 (ss_revoked _ _ S (version_of e)) (list_elem_of_fmap_2 _ _ _ Hin)) as (r & Hr & Ev & Hne').
    apply list_elem_of_fmap. exists r. split; [done|]. by apply list_elem_of_filter. }
  assert (E5 : existsb (fun v => negb (existsb (fun e => version_of e =? v) (revocations (im_events img))))
    (kr_keyVersion <$> filter (fun r => kr_revokedAtMs r <> None) (im_records img)) = false).
  { apply not_true_iff_false. intros (v & Hin & Hn)%existsb_exists. apply list_elem_of_In in Hin.
    apply list_elem_of_fmap in Hin as (r & -> & [Hne' Hr]%list_elem_of_filter).
    pose proof (proj2 (ss_revoked _ _ S (kr_keyVersion r)) ltac:(by exists r)) as H.
    apply list_elem_of_fmap in H as (e & Ev & He). apply negb_true_iff in Hn.
    assert (existsb (fun e => version_of e =? kr_keyVersion r) (revocations (im_events img)) = true); [|congruence].
    apply existsb_exists. exists e. split; [by apply list_elem_of_In|lia]. }
  cbv zeta. rewrite E1, E2, E3, E4, E5. rewrite (bool_decide_eq_true_2 _ (ss_once _ _ S)).
  unfold zlength in *. rewrite (proj2 (Z.eqb_eq (Z.of_nat (length (rotations (im_events img)))) _)) by lia.
  destruct (im_events img) as [|e l] eqn:Ee; [done|]. rewrite (proj2 (Z.eqb_neq _ 0)) by (cbn; lia). cbn.
  by rewrite !orb_false_r.
Qed.

Lemma sound_image_valid :
  lifecycleImageValid img = true <-> time_goes_back (im_events img) = false /\ Forall text_fits (im_events img).
Proof.
  unfold lifecycleImageValid.
  assert (Eh : negb (Z.of_nat (length (im_records img)) =? 0) && negb (is_ok (validateVerificationKeyHistory (im_records img))) = false).
  { destruct (ss_history _ _ S) as [->|H%validate_exact]; [done|]. rewrite H. cbn. lia. }
  rewrite Eh, <- malformed_events. destruct (existsb event_malformed _); [split; [done|by intros []]|].
  rewrite (one_event_slot k _ (ss_event_keys _ _ S)), (one_record_slot k _ (ss_record_keys _ _ S)).
  pose proof (ss_first _ _ S) as Hf. pose proof event_slots_fine as Hs. pose proof (slot_matches [(k, im_events img)]) as Hm.
  destruct (im_events img) as [|e l] eqn:Ee.
  - rewrite Hf. done.
  - destruct Hf as (_ & _ & Hr & _). destruct (im_records img) as [|r rs] eqn:Er; [done|].
    cbn [existsb orb]. rewrite Hs by done. cbn [orb length Z.of_nat].
    rewrite Hm; [|done|cbn [assoc]; by rewrite str_eqb_refl]. rewrite orb_false_r.
    change (negb (Z.of_nat 1 =? Z.of_nat 1)) with false. cbv iota.
    generalize (time_goes_back (e :: l)). intros []; cbn; split; try done; by intros [].
Qed.
End Sound.

(** ** Counting events *)

Lemma later_events events : Forall (fun e => kind_of e <> ev_provision) events ->
  zlength events = zlength (rotations events) + zlength (revocations events).
Proof.
  unfold rotations, revocations, zlength. induction 1 as [|e l He _ IH]; [done|]. rewrite !filter_cons. unfold is_kind in *.
  destruct (kind_of e) eqn:E; [done| |]; repeat case_decide; try done; cbn [length]; lia.
Qed.
Lemma revocations_bound k img : slot_sound k img -> zlength (revocations (im_events img)) <= zlength (im_records img).
Proof.
  intros S. unfold zlength.
  assert (H : version_of <$> revocations (im_events img) ⊆+ kr_keyVersion <$> im_records img).
  { apply NoDup_submseteq; [apply (ss_once _ _ S)|]. intros v (r & Hr & <- & _)%(ss_revoked _ _ S). by apply list_elem_of_fmap_2. }
  apply submseteq_length in H. rewrite !length_fmap in H. lia.
Qed.
(** A slot has at most 1024 versions, each rotated in and revoked at most
    once. *)
Lemma events_bound k img : slot_sound k img -> zlength (im_events img) <= 2 * zlength (im_records img) <= 2048.
Proof.
  intros S. pose proof (revocations_bound _ _ S) as Hr. pose proof (ss_first _ _ S) as Hf.
  assert (Hl : zlength (im_records img) <= 1024).
  { unfold zlength. destruct (ss_history _ _ S) as [->|[? _ _ _]]; [done|lia]. }
  pose proof (f_equal length (ss_rotations _ _ S)) as El. rewrite length_fmap, length_seqZ in El.
  destruct (im_events img) as [|e l]; [unfold zlength in *; cbn; lia|]. destruct Hf as (Ek & _ & Hne & Hp).
  pose proof (later_events l Hp) as Hc. unfold rotations, revocations in *. rewrite !filter_cons in *. unfold is_kind in *. rewrite Ek in *.
  assert (0 < zlength (im_records img)) by (destruct (im_records img); [done|unfold zlength; cbn [length]; lia]). repeat case_decide; try done. unfold zlength in *. cbn [length] in *. lia.
Qed.

(** ** What a plan is *)

Definition change_ok (command : UnsignedVerificationKeyLifecycleCommand) records events next (v : Z) : Prop :=
  history_ok next /\
  match command with
  | kc_provision _ _ record =>
      records = [] /\ events = [] /\ next = [record] /\ v = 1 /\ kr_keyVersion record = 1 /\ kr_revokedAtMs record = None
  | kc_rotate _ _ keyId _ nextRecord cutoverMs =>
      exists previous, last records = Some previous /\
        next = at_version (kr_keyVersion previous) (set_validUntilMs cutoverMs) records ++ [nextRecord] /\
        v = kr_keyVersion previous + 1 /\ kr_keyVersion nextRecord = v /\ kr_keyId nextRecord = keyId /\
        kr_validFromMs nextRecord = cutoverMs /\ kr_revokedAtMs nextRecord = None /\
        kr_validFromMs previous < cutoverMs <= kr_validUntilMs previous
  | kc_revoke _ _ _ keyVersion revokedAtMs =>
      exists target, target ∈ records /\ kr_keyVersion target = keyVersion /\ kr_revokedAtMs target = None /\
        kr_validFromMs target <= revokedAtMs <= kr_validUntilMs target /\ v = keyVersion /\
        next = at_version keyVersion (set_revokedAtMs revokedAtMs) records
  end.

Lemma plan_records_ok command records events next v :
  js_sort by_key_version records = records -> plan_records command records events = Ok (next, v) ->
  change_ok command records events next v.
Proof.
  intros Hs H. unfold change_ok. destruct command as [e t record|e t keyId pv nextRecord cutoverMs|e t keyId kv revokedAtMs];
    cbn [plan_records] in H; cbv zeta in H; rewrite ?Hs in H.
  - guards H. injection H as <- <-. bool_split. rewrite <- validate_exact.
    split; [done|]. split_and!; try done; [destruct records|destruct events]; try done; cbn in *; lia.
  - guards H. injection H as <- <-. bool_split. rewrite <- validate_exact. rewrite !str_eqb_eq in *.
    split; [done|]. exists v0. split_and!; try done; lia.
  - guards H. injection H as <- <-. bool_split. rewrite <- validate_exact. split; [done|].
    match goal with F : List.find _ _ = Some _ |- _ => apply List.find_some in F as [Hin Ev] end.
    apply list_elem_of_In in Hin. eexists. split_and!; [done|lia|done|lia|lia|done|done].
Qed.

Lemma plan_ok k img command next ev : slot_sound k img -> commandKeyId command = k ->
  planVerificationKeyLifecycleMutation img command = Ok (next, ev) ->
  lifecycleImageValid img = true /\ command_expectedRevision command = zlength (im_events img) /\
  safeNonNegativeInteger (command_committedAtMs command) = true /\
  exists v, change_ok command (im_records img) (im_events img) next v /\
    ev = mkUnsignedEvent 1 k v (zlength (im_events img) + 1) (command_kind command)
           (canonicalVerificationKeyLifecycleEvent command (zlength (im_events img) + 1)) (command_committedAtMs command).
Proof.
  intros S Ek H. unfold planVerificationKeyLifecycleMutation in H. cbv zeta in H. rewrite Ek in H.
  rewrite (own_records S), (own_events S), (slot_revision S) in H. guards H. destruct a as [next' v].
  injection H as <- <-. bool_split. split_and!; [done|lia|done|]. exists v. split; [|done].
  by apply plan_records_ok; [apply (sorted_records S)|].
Qed.

(** ** Changes keep a slot sound *)

Lemma at_version_versions v f records : (forall r, kr_keyVersion (f r) = kr_keyVersion r) ->
  kr_keyVersion <$> at_version v f records = kr_keyVersion <$> records.
Proof.
  intros Hf. unfold at_version. induction records as [|r l IH]; [done|]. cbn [map fmap list_fmap].
  rewrite <- IH. f_equal. destruct (_ =? _); [apply Hf|done].
Qed.
Lemma at_version_forall (P : VerificationKeyRecord -> Prop) v f records : (forall r, P r -> P (f r)) ->
  Forall P records -> Forall P (at_version v f records).
Proof. intros Hf Hl. unfold at_version. induction Hl; cbn; constructor; [destruct (_ =? _); auto|done]. Qed.
Lemma at_version_member v f records r' : r' ∈ at_version v f records <->
  exists r, r ∈ records /\ r' = if kr_keyVersion r =? v then f r else r.
Proof.
  unfold at_version. rewrite list_elem_of_In, in_map_iff. split; intros (r & H1 & H2).
  - exists r. rewrite list_elem_of_In. by split.
  - exists r. rewrite <- list_elem_of_In. by split.
Qed.
Lemma at_version_length v f records : length (at_version v f records) = length records.
Proof. unfold at_version. by rewrite length_map. Qed.

Lemma kinds_snoc (c : VerificationKeyLifecycleEventKind) events e :
  filter (fun e => is_kind c e = true) (events ++ [e]) =
  filter (fun e => is_kind c e = true) events ++ (if bool_decide (kind_of e = c) then [e] else []).
Proof. rewrite filter_app. f_equal. rewrite filter_cons. unfold is_kind. by case_decide; case_bool_decide. Qed.

Lemma canonical_nonempty command revision : 0 < slen (canonicalVerificationKeyLifecycleEvent command revision).
Proof.
  assert (Hh : forall l, plain (JArr l) = true -> 0 < slen (stringify (JArr l))).
  { intros l Hp. destruct (stringify_head _ _ Hp) as (c & s & -> & _). unfold slen. cbn [length]. lia. }
  destruct command as [e t r|e t i p r c|e t i v r]; apply Hh; [| |done];
    unfold plain; cbn; by destruct (kr_revokedAtMs r).
Qed.

(** The event a plan adds, with its digest. *)
Definition with_event img next (ev : UnsignedLifecycleEvent) (digest : jsstr) : VerificationKeyLifecycleImage :=
  mkImage next (im_events img ++ [mkLifecycleEvent ev digest]).

Lemma one_record_at records a b : NoDup (kr_keyVersion <$> records) -> a ∈ records -> b ∈ records ->
  kr_keyVersion a = kr_keyVersion b -> a = b.
Proof.
  intros Hn [i Hi]%list_elem_of_lookup [j Hj]%list_elem_of_lookup E. assert (i = j) as ->; [|congruence].
  eapply (NoDup_lookup _ i j (kr_keyVersion a) Hn); rewrite list_lookup_fmap; [by rewrite Hi|]. rewrite Hj. cbn. by f_equal.
Qed.

(** What the three kinds of change have in common: the records of the next
    image are numbered like a history of the slot, and the event fits them. *)
Lemma extended_sound k img next ev digest :
  slot_sound k img -> history_ok next -> is_hex 64 digest = true ->
  Forall (fun r => kr_keyId r = k) next -> kr_keyVersion <$> next = seqZ 1 (zlength next) ->
  ev_version ev = 1 -> ev_keyId ev = k -> ev_lifecycleRevision ev = zlength (im_events img) + 1 ->
  1 <= ev_keyVersion ev <= zlength next -> 0 < slen (ev_canonicalEvent ev) ->
  safeNonNegativeInteger (ev_committedAtMs ev) = true ->
  match im_events img with
  | [] => ev_eventKind ev = ev_provision /\ ev_keyVersion ev = 1
  | _ => ev_eventKind ev <> ev_provision
  end ->
  (version_of <$> rotations (im_events img)) ++ (if bool_decide (ev_eventKind ev = ev_rotate) then [ev_keyVersion ev] else []) =
    seqZ 2 (zlength next - 1) ->
  (ev_eventKind ev = ev_revoke -> ev_keyVersion ev ∉ version_of <$> revocations (im_events img)) ->
  (forall v, (v ∈ version_of <$> revocations (im_events img)) \/ (ev_eventKind ev = ev_revoke /\ v = ev_keyVersion ev) <->
    exists r, r ∈ next /\ kr_keyVersion r = v /\ kr_revokedAtMs r <> None) ->
  slot_sound k (with_event img next ev digest).
Proof.
  intros S Hh Hd Hk Hv E1 Ek Er Hkv Ht Hc Hf Hrot Hnew Hrev. pose proof (events_bound _ _ S) as Hb.
  assert (Hne : next <> []) by (destruct Hh as [Hl _ _ _]; by destruct next; [cbn in Hl; lia|]).
  assert (Hid : identifier k 256 = true).
  { destruct next as [|r rs]; [done|]. apply Forall_inv in Hk. destruct Hh as [_ Hva _ _]. apply Forall_inv in Hva.
    unfold validKeyRecord in Hva. bool_split. congruence. }
  assert (Hn : zlength next <= 1024) by (destruct Hh as [? _ _ _]; unfold zlength; lia).
  assert (Hrl : zlength (im_events img) <= 2048) by lia.
  split; cbn [with_event im_records im_events].
  - done.
  - apply Forall_app. split; [apply (ss_event_keys _ _ S)|by constructor].
  - by right.
  - done.
  - apply Forall_app. split; [apply (ss_events _ _ S)|]. constructor; [|done].
    unfold event_ok, slot_id, version_of, revision_of, time_of. cbn [ev_body ev_eventDigest].
    unfold safePositiveInteger. rewrite Ek, Er. split_and!; try done.
    + apply andb_true_iff. split; [apply isSafeInteger_spec; unfold MAX_SAFE_INTEGER|]; lia.
    + apply andb_true_iff. unfold zlength in *. split; [apply isSafeInteger_spec; unfold MAX_SAFE_INTEGER|]; lia.
  - apply numbered_snoc; [apply (ss_revisions _ _ S)|]. unfold revision_of. cbn. lia.
  - pose proof (ss_first _ _ S) as Hs. destruct (im_events img) as [|e l]; cbn [app].
    + by destruct Hf.
    + destruct Hs as (? & ? & ? & Hl). split_and!; try done. apply Forall_app. split; [done|]. by constructor.
  - unfold rotations. rewrite kinds_snoc, fmap_app. change (kind_of (mkLifecycleEvent ev digest)) with (ev_eventKind ev). rewrite <- Hrot. f_equal.
    by case_bool_decide.
  - clear Hrot. unfold revocations. rewrite kinds_snoc, fmap_app. change (kind_of (mkLifecycleEvent ev digest)) with (ev_eventKind ev). apply NoDup_app.
    split; [apply (ss_once _ _ S)|]. case_bool_decide as Ekd; [|split; [by intros v _ Hv0%elem_of_nil|apply NoDup_nil_2]]. split; [|apply NoDup_singleton].
    intros v Hin ->%list_elem_of_singleton. by apply Hnew in Ekd.
  - clear Hrot. intros v. rewrite <- Hrev. unfold revocations. rewrite kinds_snoc, fmap_app, elem_of_app.
    change (kind_of (mkLifecycleEvent ev digest)) with (ev_eventKind ev). case_bool_decide as Ekd.
    + cbn [fmap list_fmap]. rewrite list_elem_of_singleton. change (version_of (mkLifecycleEvent ev digest)) with (ev_keyVersion ev). tauto.
    + cbn [fmap list_fmap]. rewrite elem_of_nil. tauto.
Qed.

Lemma planned_sound k img command next ev digest :
  slot_sound k img -> commandKeyId command = k -> is_hex 64 digest = true ->
  planVerificationKeyLifecycleMutation img command = Ok (next, ev) ->
  slot_sound k (with_event img next ev digest).
Proof.
  intros S Ek Hd H. apply (plan_ok _ _ _ _ _ S Ek) in H as (_ & _ & Hc & v & [Hh Hch] & ->).
  pose proof (ss_versions _ _ S) as Hv. pose proof (ss_rotations _ _ S) as Hr. pose proof (ss_first _ _ S) as Hf.
  destruct command as [e t record|e t keyId pv nextRecord cutoverMs|e t keyId kv revokedAtMs]; cbn [commandKeyId] in Ek.
  - destruct Hch as (Er & Ee & -> & -> & Ekv & Ern). rewrite Ee in *. rewrite Er in *.
    apply extended_sound; try done; cbn [ev_keyId ev_keyVersion ev_lifecycleRevision ev_eventKind ev_canonicalEvent command_kind].
    + by constructor.
    + cbn. by rewrite Ekv.
    + by rewrite Ee.
    + by rewrite Ee.
    + by rewrite Ee.
    + intros w. rewrite Ee. cbn. rewrite elem_of_nil. split; [by intros [|[]]|].
      intros (r & ->%list_elem_of_singleton & _ & Hn). by rewrite Ern in Hn.
  - destruct Hch as (previous & Hl & -> & -> & En & Eid & Ef & Ern & Hcut). subst keyId.
    pose proof (numbered_last _ _ _ _ Hv Hl) as Ep. pose proof Hl as Hin. apply last_Some_elem_of in Hin.
    assert (Hne : im_events img <> []) by (intros E; rewrite E in Hf; by rewrite Hf in Hl).
    assert (Hlen : zlength (at_version (kr_keyVersion previous) (set_validUntilMs cutoverMs) (im_records img)) = zlength (im_records img))
      by (unfold zlength; by rewrite at_version_length).
    assert (Hvs : kr_keyVersion <$> at_version (kr_keyVersion previous) (set_validUntilMs cutoverMs) (im_records img) =
      seqZ 1 (zlength (at_version (kr_keyVersion previous) (set_validUntilMs cutoverMs) (im_records img))))
      by (rewrite at_version_versions by done; by rewrite Hv, Hlen).
    assert (Hpos : 0 < zlength (im_records img)) by (destruct (im_records img); [done|unfold zlength; cbn [length]; lia]).
    apply extended_sound; try done; cbn [ev_keyId ev_keyVersion ev_lifecycleRevision ev_eventKind ev_canonicalEvent command_kind].
    + apply Forall_app. split; [|by constructor]. apply at_version_forall; [done|]. apply (ss_record_keys _ _ S).
    + apply numbered_snoc; [done|]. lia.
    + unfold zlength in *. rewrite length_app. cbn [length]. lia.
    + by destruct (im_events img).
    + rewrite Hr. rewrite bool_decide_eq_true_2 by done.
      replace (zlength (at_version _ _ _ ++ [nextRecord]) - 1) with ((zlength (im_records img) - 1) + 1)
        by (unfold zlength in *; rewrite length_app; cbn [length]; lia).
      rewrite (seqZ_app 2 (zlength (im_records img) - 1) 1) by lia. f_equal. cbn. apply (f_equal (fun z => [z])). lia.
    + intros w. split.
      * intros [Hw|[? _]]; [|done]. apply (ss_revoked _ _ S) in Hw as (r & Hr' & Ew & Hn).
        exists (if kr_keyVersion r =? kr_keyVersion previous then set_validUntilMs cutoverMs r else r).
        split; [apply elem_of_app; left; apply at_version_member; by exists r|]. by destruct (_ =? _).
      * intros (r & Hr' & Ew & Hn). left. apply (ss_revoked _ _ S). apply elem_of_app in Hr' as [Hr'|Hr'].
        -- apply at_version_member in Hr' as (r0 & Hr0 & ->). exists r0. split; [done|]. by destruct (_ =? _).
        -- apply list_elem_of_singleton in Hr' as ->. by rewrite Ern in Hn.
  - destruct Hch as (target & Hin & Et & Etn & Hw & -> & ->). subst keyId.
    assert (Hnd : NoDup (kr_keyVersion <$> im_records img)) by (rewrite Hv; apply NoDup_seqZ).
    assert (Hlen : zlength (at_version kv (set_revokedAtMs revokedAtMs) (im_records img)) = zlength (im_records img))
      by (unfold zlength; by rewrite at_version_length).
    assert (Hne : im_events img <> []).
    { intros E. rewrite E in Hf. rewrite Hf in Hin. by apply elem_of_nil in Hin. }
    assert (Hrange : 1 <= kv <= zlength (im_records img)).
    { apply list_elem_of_lookup in Hin as [i Hi]. pose proof (numbered_at _ _ _ _ _ Hv Hi). apply lookup_lt_Some in Hi. unfold zlength. lia. }
    apply extended_sound; try done; cbn [ev_keyId ev_keyVersion ev_lifecycleRevision ev_eventKind ev_canonicalEvent command_kind].
    + apply at_version_forall; [done|]. apply (ss_record_keys _ _ S).
    + rewrite at_version_versions by done. by rewrite Hv, Hlen.
    + lia.
    + by destruct (im_events img).
    + rewrite app_nil_r, Hr, Hlen. done.
    + intros _ (r & Hr' & Ev & Hn)%(ss_revoked _ _ S). apply Hn. by rewrite (one_record_at _ r target Hnd Hr' Hin) by congruence.
    + intros w. split.
      * intros [(r & Hr' & Ev & Hn)%(ss_revoked _ _ S)|[_ ->]].
        -- exists (if kr_keyVersion r =? kv then set_revokedAtMs revokedAtMs r else r).
           split; [apply at_version_member; by exists r|]. by destruct (_ =? _).
        -- exists (set_revokedAtMs revokedAtMs target). split; [|done]. apply at_version_member. exists target.
           split; [done|]. by rewrite Et, Z.eqb_refl.
      * intros (r & (r0 & Hr0 & ->)%at_version_member & Ev & Hn). destruct (kr_keyVersion r0 =? kv) eqn:E.
        -- right. split; [done|]. cbn in Ev. lia.
        -- left. apply (ss_revoked _ _ S). by exists r0.
Qed.

(** ** What changes leave alone *)

(** The same key, whatever became of its window. *)
Definition same_key (r r' : VerificationKeyRecord) : Prop :=
  version_id r = version_id r' /\ identity r = identity r' /\ kr_scheme r = kr_scheme r' /\
  kr_publicKey r = kr_publicKey r' /\ kr_validFromMs r = kr_validFromMs r'.
(** Windows only become shorter, and a revocation is final. *)
Definition narrowed (r r' : VerificationKeyRecord) : Prop :=
  same_key r r' /\ kr_validUntilMs r' <= kr_validUntilMs r /\
  forall t, kr_revokedAtMs r = Some t -> kr_revokedAtMs r' = Some t.
Record image_evolves img img' : Prop := {
  ie_events : exists later, im_events img' = im_events img ++ later;
  ie_records : forall r, r ∈ im_records img -> exists r', r' ∈ im_records img' /\ narrowed r r';
  (** Nothing changes without an event. *)
  ie_same : zlength (im_events img') = zlength (im_events img) -> img' = img;
}.

#[export] Instance same_key_equiv : Equivalence same_key.
Proof.
  unfold same_key. split; [done|by intros r r' (-> & -> & -> & -> & ->)|].
  by intros r1 r2 r3 (-> & -> & -> & -> & ->).
Qed.
#[export] Instance narrowed_preorder : PreOrder narrowed.
Proof.
  split; [intros r; split; [done|]; split; [lia|done]|]. intros r1 r2 r3 (S1 & U1 & R1) (S2 & U2 & R2).
  split; [by etrans|]. split; [lia|auto].
Qed.
#[export] Instance image_evolves_preorder : PreOrder image_evolves.
Proof.
  split.
  - intros img. split; [exists []; by rewrite app_nil_r| |done]. intros r Hr. by exists r.
  - intros i1 i2 i3 [(l1 & E1) R1 S1] [(l2 & E2) R2 S2]. split; [exists (l1 ++ l2); by rewrite E2, E1, <- app_assoc| |].
    + intros r (r2 & Hr2 & N1)%R1. destruct (R2 r2 Hr2) as (r3 & Hr3 & N2). exists r3. split; [done|by etrans].
    + intros El. assert (Hl : zlength (im_events i1) <= zlength (im_events i2) <= zlength (im_events i3))
        by (unfold zlength; rewrite E2, E1, !length_app; lia). rewrite S2, S1; [done|lia|lia].
Qed.

Lemma cut_narrowed t r : t <= kr_validUntilMs r -> narrowed r (set_validUntilMs t r).
Proof. intros Ht. split; [done|]. split; [done|]. done. Qed.
Lemma revoked_narrowed t r : kr_revokedAtMs r = None -> narrowed r (set_revokedAtMs t r).
Proof. intros E. split; [done|]. split; [cbn; lia|]. intros x. by rewrite E. Qed.

(** From when on a command changes what is valid. *)
Definition command_boundary (command : UnsignedVerificationKeyLifecycleCommand) : Z :=
  match command with
  | kc_provision _ _ record => kr_validFromMs record
  | kc_rotate _ _ _ _ _ cutoverMs => cutoverMs
  | kc_revoke _ _ _ _ revokedAtMs => revokedAtMs
  end.

(** The records before and after a change. *)
Lemma change_records k img command next v : slot_sound k img ->
  change_ok command (im_records img) (im_events img) next v ->
  (forall r, r ∈ im_records img -> exists r', r' ∈ next /\ narrowed r r' /\
    forall t, t < command_boundary command -> valid_at r t <-> valid_at r' t) /\
  (forall r' t, r' ∈ next -> t < command_boundary command -> valid_at r' t -> exists r, r ∈ im_records img /\ narrowed r r').
Proof.
  intros S [Hh Hch]. assert (Hnd : NoDup (kr_keyVersion <$> im_records img)) by (rewrite (ss_versions _ _ S); apply NoDup_seqZ).
  destruct command as [e t record|e t keyId pv nextRecord cutoverMs|e t keyId kv revokedAtMs]; cbn [command_boundary].
  - destruct Hch as (-> & _ & -> & _). split; [intros r Hr; by apply elem_of_nil in Hr|].
    intros r' t' ->%list_elem_of_singleton Ht [[Hw _] _]. lia.
  - destruct Hch as (previous & Hl & -> & -> & _ & _ & Ef & _ & Hcut). apply last_Some_elem_of in Hl.
    assert (Hat : forall r, r ∈ im_records img -> kr_keyVersion r = kr_keyVersion previous -> r = previous)
      by (intros r Hr; by apply (one_record_at (im_records img))).
    split.
    + intros r Hr. exists (if kr_keyVersion r =? kr_keyVersion previous then set_validUntilMs cutoverMs r else r).
      split; [apply elem_of_app; left; apply at_version_member; by exists r|].
      destruct (kr_keyVersion r =? _) eqn:E; [|done]. apply Z.eqb_eq in E. apply (Hat r Hr) in E as ->.
      split; [apply cut_narrowed; lia|]. intros t' Ht. unfold valid_at. cbn. split; (intros [Hw Hrv]; split; [lia|done]).
    + intros r' t' Hr' Ht Hva. apply elem_of_app in Hr' as [(r & Hr & ->)%at_version_member|Hr'].
      * exists r. split; [done|]. destruct (kr_keyVersion r =? _) eqn:E; [|done]. apply Z.eqb_eq in E.
        apply (Hat r Hr) in E as ->. apply cut_narrowed; lia.
      * apply list_elem_of_singleton in Hr' as ->. destruct Hva as [[Hw _] _]. lia.
  - destruct Hch as (target & Hin & Et & Etn & Hw & _ & ->).
    assert (Hat : forall r, r ∈ im_records img -> kr_keyVersion r = kv -> r = target)
      by (intros r Hr Ev; apply (one_record_at (im_records img)); congruence).
    split.
    + intros r Hr. exists (if kr_keyVersion r =? kv then set_revokedAtMs revokedAtMs r else r).
      split; [apply at_version_member; by exists r|].
      destruct (kr_keyVersion r =? _) eqn:E; [|done]. apply Z.eqb_eq in E. apply (Hat r Hr) in E as ->.
      split; [by apply revoked_narrowed|]. intros t' Ht. unfold valid_at. rewrite Etn. cbn. split; (intros [Hv Hrv]; split; [done|]).
      * by intros x [= <-].
      * done.
    + intros r' t' (r & Hr & ->)%at_version_member _ _. exists r. split; [done|].
      destruct (kr_keyVersion r =? _) eqn:E; [|done]. apply Z.eqb_eq in E. apply (Hat r Hr) in E as ->. by apply revoked_narrowed.
Qed.

Lemma planned_evolves k img command next ev digest :
  slot_sound k img -> commandKeyId command = k -> planVerificationKeyLifecycleMutation img command = Ok (next, ev) ->
  image_evolves img (with_event img next ev digest).
Proof.
  intros S Ek H. apply (plan_ok _ _ _ _ _ S Ek) in H as (_ & _ & _ & v & Hch & _).
  destruct (change_records _ _ _ _ _ S Hch) as [Hr _]. split; [by eexists| |].
  - intros r (r' & Hr' & Hn & _)%Hr. by exists r'.
  - unfold zlength. cbn. rewrite length_app. cbn. lia.
Qed.

Lemma same_key_names s r r' : same_key r r' -> names s r -> names s r'.
Proof.
  unfold same_key, version_id, identity, names. intros (E1 & E2 & -> & -> & _). injection E1 as -> ->. by injection E2 as -> -> ->.
Qed.
(** If the keys valid at [t] are kept, so are the statements issued then. *)
Lemma verify_transfer records h records' h' authentication a options digest verifiers x :
  compileVerificationKeyHistory records = Ok h -> compileVerificationKeyHistory records' = Ok h' ->
  isKeyBoundAuthentication authentication = Some a ->
  (forall r, r ∈ records -> valid_at r (ks_issuedAtMs (ka_statement a)) ->
    exists r', r' ∈ records' /\ same_key r r' /\ valid_at r' (ks_issuedAtMs (ka_statement a))) ->
  verifyKeyBoundStatement authentication (options h) digest verifiers = Ok x ->
  (forall history, options history = mkContext (kc_purpose (options h)) (kc_scopeId (options h)) (kc_unitId (options h))
    (kc_subjectId (options h)) (kc_statementDigest (options h)) (kc_nowMs (options h)) (kc_maxClockSkewMs (options h)) (Some history)) ->
  verifyKeyBoundStatement authentication (options h') digest verifiers = Ok x.
Proof.
  intros Hc Hc' Ha Hk Hv Ho. pose proof (Ho h) as Eh. pose proof (Ho h') as Eh'. destruct x as [keyId keyVersion].
  assert (Hh : kc_history (options h) = Some h) by (by rewrite Eh). assert (Hh' : kc_history (options h') = Some h') by (by rewrite Eh').
  apply (verify_ok _ _ _ _ records h _ _ Hh Hc) in Hv as (a' & key & verify & Hp & -> & -> & Hver & Hs).
  apply (preflight_ok _ _ _ _ _ records h Hh Hc) in Hp as (Ha' & Hb & Hin & Hnm & N1 & N2 & N3 & N4 & [Ht Hva]%issuance_none & Hsup).
  rewrite Ha in Ha'. injection Ha' as <-. destruct (Hk key Hin Hva) as (r' & Hr' & Hsame & Hva').
  apply (verify_ok _ _ _ _ records' h' _ _ Hh' Hc'). pose proof Hsame as (Ei & _ & Esc & Epk & _). injection Ei as Ei Ev.
  exists a, r', verify. rewrite <- Esc, <- Epk. split_and!; try done.
  apply (preflight_ok _ _ _ _ _ records' h' Hh' Hc'). rewrite issuance_none. rewrite Eh'. cbn [kc_nowMs kc_maxClockSkewMs].
  split_and!; try done. by apply (same_key_names _ key).
Qed.

(** ** The order of times *)

Lemma time_goes_back_snoc events e :
  time_goes_back (events ++ [e]) = false <->
  time_goes_back events = false /\ forall l, last events = Some l -> time_of l <= time_of e.
Proof.
  unfold time_goes_back. rewrite !some_indexed_false. split.
  - intros H. split.
    + intros i x Hi. pose proof (lookup_lt_Some _ _ _ Hi) as Hl. specialize (H i x).
      rewrite lookup_app_l in H by done. specialize (H Hi). destruct (0 <? Z.of_nat i) eqn:E; [|done].
      cbn [andb] in *. by rewrite lookup_app_l in H by lia.
    + intros l Hl. rewrite last_lookup in Hl. pose proof (lookup_lt_Some _ _ _ Hl) as Hlt. specialize (H (length events) e).
      rewrite (lookup_app_r events [e] (length events)) in H by lia. rewrite Nat.sub_diag in H. specialize (H eq_refl).
      rewrite (proj2 (Z.ltb_lt 0 _)) in H by lia. cbn [andb] in H.
      replace (Z.to_nat (Z.of_nat (length events) - 1)) with (pred (length events)) in H by lia.
      rewrite lookup_app_l in H by lia. rewrite Hl in H. lia.
  - intros [H Hlast] i x Hi. destruct (decide (i < length events)%nat) as [Hlt|Hge].
    + rewrite lookup_app_l in Hi by done. specialize (H i x Hi). destruct (0 <? Z.of_nat i) eqn:E; [|done].
      cbn [andb] in *. by rewrite lookup_app_l by lia.
    + pose proof (lookup_lt_Some _ _ _ Hi) as Hl. rewrite length_app in Hl. cbn [length] in Hl.
      assert (i = length events) as -> by lia. rewrite lookup_app_r in Hi by lia. rewrite Nat.sub_diag in Hi.
      cbn in Hi. injection Hi as <-. destruct (0 <? Z.of_nat (length events)) eqn:E; [|done]. cbn [andb].
      replace (Z.to_nat (Z.of_nat (length events) - 1)) with (pred (length events)) by lia.
      rewrite lookup_app_l by lia. rewrite <- last_lookup. destruct (last events) as [p|]; [|done]. specialize (Hlast p eq_refl). lia.
Qed.

(** ** Claims *)

Section Claims.
Context (k : jsstr) (img : VerificationKeyLifecycleImage) (S : slot_sound k img).
Context (command : UnsignedVerificationKeyLifecycleCommand) (Ek : commandKeyId command = k).
Context (next : list VerificationKeyRecord) (ev : UnsignedLifecycleEvent).
Context (Hplan : planVerificationKeyLifecycleMutation img command = Ok (next, ev)).

(** C16: a command does not rewrite the past.  What verifies of the statements
    issued before the boundary of the command (the cutover of a rotation, the
    moment of a revocation) is the same with the history before and after it,
    in every context and with every verifier. *)
Theorem mutations_keep_the_past h h' authentication a purpose scopeId unitId subjectId statementDigest nowMs maxClockSkewMs digest verifiers x :
  compileVerificationKeyHistory (im_records img) = Ok h -> compileVerificationKeyHistory next = Ok h' ->
  isKeyBoundAuthentication authentication = Some a ->
  ks_issuedAtMs (ka_statement a) < command_boundary command ->
  let context history := mkContext purpose scopeId unitId subjectId statementDigest nowMs maxClockSkewMs (Some history) in
  verifyKeyBoundStatement authentication (context h) digest verifiers = Ok x <->
  verifyKeyBoundStatement authentication (context h') digest verifiers = Ok x.
Proof.
  intros Hc Hc' Ha Ht context. pose proof (plan_ok _ _ _ _ _ S Ek Hplan) as (_ & _ & _ & v & Hch & _).
  destruct (change_records _ _ _ _ _ S Hch) as [Hfw Hbw]. split; intros Hv.
  - eapply (verify_transfer (im_records img) h next h' _ _ context); [done..| |exact Hv|done].
    intros r Hr Hva. destruct (Hfw r Hr) as (r' & Hr' & [Hs _] & Hiff). exists r'. split_and!; [done..|]. by apply Hiff.
  - eapply (verify_transfer next h' (im_records img) h _ _ context); [done..| |exact Hv|done].
    intros r' Hr' Hva. destruct (Hbw r' _ Hr' Ht Hva) as (r & Hr & [Hs _]). exists r. split_and!; [done|by symmetry|].
    destruct (Hfw r Hr) as (r2 & Hr2 & [Hs2 _] & Hiff). apply (Hiff _ Ht).
    assert (r2 = r') as ->; [|done]. destruct Hch as [[_ _ Hnd _] _].
    apply list_elem_of_lookup in Hr' as [i Hi]. apply list_elem_of_lookup in Hr2 as [j Hj].
    assert (i = j) as ->; [|congruence]. eapply (NoDup_lookup _ i j (version_id r') Hnd); rewrite list_lookup_fmap; [by rewrite Hi|].
    rewrite Hj. cbn. f_equal. by destruct Hs as [<- _], Hs2 as [<- _].
Qed.

(** After an accepted command a slot accepts another one exactly if the
    time of the command is not before the one of the last event and its text has
    at most 65536 characters.  The code accepts the command without checking
    either; if one of them fails, every later command of the slot is refused as
    a corrupt store, whatever its content. *)
Theorem accepted_commands_can_freeze_slot digest : is_hex 64 digest = true ->
  (lifecycleImageValid (with_event img next ev digest) = true <->
    (forall e, last (im_events img) = Some e -> time_of e <= command_committedAtMs command) /\
    slen (ev_canonicalEvent ev) <= 65536) /\
  (lifecycleImageValid (with_event img next ev digest) = false -> forall later,
    planVerificationKeyLifecycleMutation (with_event img next ev digest) later = Err corrupt_store).
Proof.
  intros Hd. split; [|intros Hf later; unfold planVerificationKeyLifecycleMutation; by rewrite Hf].
  pose proof (planned_sound _ _ _ _ _ digest S Ek Hd Hplan) as S'.
  pose proof (plan_ok _ _ _ _ _ S Ek Hplan) as (Hv & _ & _ & v & _ & ->).
  rewrite (sound_image_valid S'). apply (sound_image_valid S) in Hv as [Ht Hfit]. cbn [with_event im_events].
  rewrite time_goes_back_snoc, Forall_app, Forall_singleton. unfold text_fits at 2. unfold time_of at 2. cbn [ev_body ev_canonicalEvent ev_committedAtMs].
  tauto.
Qed.
End Claims.

(** ** Witnesses: provisioned, rotated, and a clock that goes back *)

Definition toy_event_digest : jsstr := replicate 64 97%N.
Definition replan img command : VerificationKeyLifecycleImage :=
  match planVerificationKeyLifecycleMutation img command with
  | Ok (next, ev) => with_event img next ev toy_event_digest
  | Err _ => img
  end.
Lemma replan_sound k img command : slot_sound k img -> commandKeyId command = k -> slot_sound k (replan img command).
Proof.
  intros S Ek. unfold replan. destruct (planVerificationKeyLifecycleMutation img command) as [[next ev]|r] eqn:E; [|done].
  by eapply planned_sound.
Qed.
Definition toy_provision : UnsignedVerificationKeyLifecycleCommand := kc_provision 0 1000 (toy_key 1 0 1000 None).
Definition toy_rotate : UnsignedVerificationKeyLifecycleCommand := kc_rotate 1 2000 (js "relay") 1 (toy_key 2 500 900 None) 500.
Definition toy_revoke : UnsignedVerificationKeyLifecycleCommand := kc_revoke 1 999 (js "relay") 1 700.
Definition toy_slot : VerificationKeyLifecycleImage := replan (mkImage [] []) toy_provision.
Lemma toy_slot_sound : slot_sound (js "relay") toy_slot.
Proof. apply replan_sound; [apply empty_sound|reflexivity]. Qed.
Definition planned (command : UnsignedVerificationKeyLifecycleCommand) : list VerificationKeyRecord * UnsignedLifecycleEvent :=
  match planVerificationKeyLifecycleMutation toy_slot command with
  | Ok p => p
  | Err _ => ([], mkUnsignedEvent 0 [] 0 0 ev_provision [] 0)
  end.
Definition compiled (records : list VerificationKeyRecord) : CompiledVerificationKeyHistory :=
  mkCompiled records (index_records records).

(** A statement of version 1, issued before the cutover at 500. *)
Definition toy_early : KeyBoundAuthentication :=
  match signKeyBoundStatement (toy_key 1 0 1000 None) (js "unit") (js "content") 120 (toy_key_signer 1) toy_key_digest with
  | inr a => a
  | inl _ => mkAuthentication (mkStatement 0 [] [] [] [] [] 0 [] [] [] 0) []
  end.

Lemma mutations_keep_the_past_witness :
  let context history := mkContext (js "resolution") (js "game/1") (js "unit") (js "relay-authority") (js "content") 2000 0 (Some history) in
  verifyKeyBoundStatement (authentication_value toy_early) (context (compiled (im_records toy_slot))) toy_key_digest toy_verifiers = Ok (js "relay", 1) /\
  verifyKeyBoundStatement (authentication_value toy_early) (context (compiled (planned toy_rotate).1)) toy_key_digest toy_verifiers = Ok (js "relay", 1).
Proof.
  intros context.
  assert (H : verifyKeyBoundStatement (authentication_value toy_early) (context (compiled (im_records toy_slot))) toy_key_digest toy_verifiers = Ok (js "relay", 1))
    by (vm_compute; reflexivity).
  split; [exact H|].
  apply (mutations_keep_the_past (js "relay") toy_slot toy_slot_sound toy_rotate eq_refl (planned toy_rotate).1 (planned toy_rotate).2
    ltac:(vm_compute; reflexivity) (compiled (im_records toy_slot)) (compiled (planned toy_rotate).1) (authentication_value toy_early) toy_early
    (js "resolution") (js "game/1") (js "unit") (js "relay-authority") (js "content") 2000 0 toy_key_digest toy_verifiers (js "relay", 1)).
  - vm_compute. reflexivity.
  - vm_compute. reflexivity.
  - vm_compute. reflexivity.
  - vm_compute. reflexivity.
  - exact H.
Defined.

(** The revocation at 999 is accepted after an event of the time 1000; from then
    on the slot is stuck. *)
Lemma accepted_commands_can_freeze_slot_witness : forall later,
  planVerificationKeyLifecycleMutation (with_event toy_slot (planned toy_revoke).1 (planned toy_revoke).2 toy_event_digest) later = Err corrupt_store.
Proof.
  apply (accepted_commands_can_freeze_slot (js "relay") toy_slot toy_slot_sound toy_revoke eq_refl (planned toy_revoke).1 (planned toy_revoke).2
    ltac:(vm_compute; reflexivity) toy_event_digest eq_refl).
  vm_compute. reflexivity.
Defined.
