(* ===== verification/KeyStores.v ===== *)
(** * The stores of the key lifecycle

    [LifecycleStore] is what the ledger needs of a database: the image of a slot,
    and storing the records and the event of a plan in one transaction.  It is
    implemented by the tables of
    [cf-game-audit/src/verification-key-lifecycle-store.ts] and by the object
    stores of [cf-game-audit/web/src/audit/verification-key-lifecycle-indexeddb.ts].
    Both commit a command the same way: plan, compute the digest of the event,
    and plan again in the transaction. *)
From Stdlib Require Import ZifyBool.
From S2P Require Import Prelude Json Utf8 Async IndexedDb KeyLifecycle KeyLedger.
Set Default Goal Selector "!".
Import Keys Ledger.

Class LifecycleStore (D : Type) := {
  store_image : jsstr -> D -> VerificationKeyLifecycleImage;
  store_plan : list VerificationKeyRecord -> event -> idb D True;
}.

(** The body of the transaction. *)
Definition commit_body {D} `{LifecycleStore D} (command : UnsignedVerificationKeyLifecycleCommand)
    (eventDigest : jsstr) : idb D VerificationKeyLifecycleMutationResult :=
  let~ image := iread (store_image (commandKeyId command)) in
  match planVerificationKeyLifecycleMutation image command with
  | Err r => iret (Err r)
  | Ok (records, unsigned) =>
      let~ _ := store_plan records (mkLifecycleEvent unsigned eventDigest) in
      iret (Ok (ev_lifecycleRevision unsigned))
  end.

(** ** Rows with a key *)

Section Rows.
Context {A K : Type} `{EqDecision K} (key : A -> K).

(** [INSERT .. ON CONFLICT DO UPDATE], and [put]. *)
Definition upsert (x : A) (rows : list A) : list A :=
  if existsb (fun y => bool_decide (key y = key x)) rows
  then map (fun y => if bool_decide (key y = key x) then x else y) rows
  else rows ++ [x].
Definition key_taken (x : A) (rows : list A) : bool := existsb (fun y => bool_decide (key y = key x)) rows.
End Rows.

(** ** Tables *)

Module Sql.

Record KeyRow := mkKeyRow {
  key_id : jsstr;
  key_version : Z;
  subject_id : jsstr;
  purpose : jsstr;
  scope_id : jsstr;
  scheme : jsstr;
  public_key : jsstr;
  valid_from_ms : Z;
  valid_until_ms : Z;
  revoked_at_ms : option Z;
  lifecycle_revision : Z;
}.
Record LifecycleEventRow := mkEventRow {
  event_digest : jsstr;
  event_key_id : jsstr;
  event_key_version : Z;
  event_lifecycle_revision : Z;
  event_kind : VerificationKeyLifecycleEventKind;
  canonical_event : jsstr;
  committed_at_ms : Z;
}.
Record KeyTables := mkKeyTables {
  verification_key_versions : list KeyRow;
  verification_key_lifecycle_events : list LifecycleEventRow;
}.

(** [length(x)] of a text counts code points up to the first NUL. *)
Definition sql_length (s : jsstr) : Z :=
  match list_find (fun c => c = 0%N) (scalar_values s) with
  | Some (i, _) => Z.of_nat i
  | None => Z.of_nat (length (scalar_values s))
  end.
Definition sql_bounded (s : jsstr) (n : Z) : bool := (0 <? sql_length s) && (sql_length s <=? n).

Definition keyRecord (row : KeyRow) : VerificationKeyRecord :=
  mkKeyRecord 1 (key_id row) (key_version row) (subject_id row) (purpose row) (scope_id row) (scheme row)
    (public_key row) (valid_from_ms row) (valid_until_ms row) (revoked_at_ms row).
Definition lifecycleEvent (row : LifecycleEventRow) : event :=
  mkLifecycleEvent (mkUnsignedEvent 1 (event_key_id row) (event_key_version row) (event_lifecycle_revision row)
    (event_kind row) (canonical_event row) (committed_at_ms row)) (event_digest row).
Definition key_row (record : VerificationKeyRecord) (revision : Z) : KeyRow :=
  mkKeyRow (kr_keyId record) (kr_keyVersion record) (kr_subjectId record) (kr_purpose record) (kr_scopeId record)
    (kr_scheme record) (kr_publicKey record) (kr_validFromMs record) (kr_validUntilMs record)
    (kr_revokedAtMs record) revision.
Definition event_row (e : event) : LifecycleEventRow :=
  mkEventRow (ev_eventDigest e) (slot_id e) (version_of e) (revision_of e) (kind_of e)
    (ev_canonicalEvent (ev_body e)) (time_of e).

(** The constraints of [verification_key_versions]. *)
Definition key_row_fits (row : KeyRow) : bool :=
  sql_bounded (key_id row) 256 && (0 <? key_version row) && sql_bounded (subject_id row) 256 &&
  sql_bounded (purpose row) 128 && sql_bounded (scope_id row) 256 && sql_bounded (scheme row) 128 &&
  sql_bounded (public_key row) 16384 && (0 <=? valid_from_ms row) && (valid_from_ms row <? valid_until_ms row) &&
  match revoked_at_ms row with
  | None => true
  | Some t => (valid_from_ms row <=? t) && (t <=? valid_until_ms row)
  end && (0 <? lifecycle_revision row).
(** The constraints of [verification_key_lifecycle_events]. *)
Definition event_row_fits (row : LifecycleEventRow) : bool :=
  (sql_length (event_digest row) =? 64) && (0 <? event_key_version row) && (0 <? event_lifecycle_revision row) &&
  sql_bounded (canonical_event row) 65536 && (0 <=? committed_at_ms row).

Definition primary_key (row : KeyRow) : jsstr * Z := (key_id row, key_version row).
Definition event_key (row : LifecycleEventRow) : jsstr * Z := (event_key_id row, event_lifecycle_revision row).

Definition image (keyId : jsstr) (d : KeyTables) : VerificationKeyLifecycleImage :=
  mkImage
    (keyRecord <$> js_sort (fun a b => key_version a <=? key_version b)
       (filter (fun row => key_id row = keyId) (verification_key_versions d)))
    (lifecycleEvent <$> js_sort (fun a b => event_lifecycle_revision a <=? event_lifecycle_revision b)
       (filter (fun row => event_key_id row = keyId) (verification_key_lifecycle_events d))).

Definition upsertRecord (record : VerificationKeyRecord) (revision : Z) : idb KeyTables True :=
  iguard (negb (key_row_fits (key_row record revision))) (js "CHECK constraint failed") $
  iwrite (fun d => mkKeyTables (upsert primary_key (key_row record revision) (verification_key_versions d))
                     (verification_key_lifecycle_events d)).
Fixpoint upsert_all (records : list VerificationKeyRecord) (revision : Z) : idb KeyTables True :=
  match records with
  | [] => iret I
  | record :: rest => let~ _ := upsertRecord record revision in upsert_all rest revision
  end.
Definition insert_event (e : event) : idb KeyTables True :=
  let~ events := iread verification_key_lifecycle_events in
  iguard (negb (event_row_fits (event_row e)) || key_taken event_digest (event_row e) events ||
          key_taken event_key (event_row e) events) (js "constraint failed") $
  iwrite (fun d => mkKeyTables (verification_key_versions d) (events ++ [event_row e])).

#[global] Instance sql_lifecycle_store : LifecycleStore KeyTables := {|
  store_image := image;
  store_plan records e := let~ _ := upsert_all records (revision_of e) in insert_event e;
|}.

(** [storage.transactionSync(..)]: runs at once, and undoes the writes of a body
    that throws. *)
Definition transactionSync {A} (body : idb KeyTables A) : async KeyTables A :=
  fun d => let '(d', r) := committed body d in (d', Finished r).

(** [digest.hashString] resolves or rejects. *)
Definition commit (command : UnsignedVerificationKeyLifecycleCommand) (hashString : jsstr -> throws jsstr)
    : async KeyTables VerificationKeyLifecycleMutationResult :=
  let* unsigned := read_store (fun d => planVerificationKeyLifecycleMutation (image (commandKeyId command) d) command) in
  match unsigned with
  | Err r => aret (Err r)
  | Ok (_, e) =>
      let* eventDigest := await (hashString (ev_canonicalEvent e)) in
      if negb (is_hex 64 eventDigest) then aret (Err invalid_transition)
      else transactionSync (commit_body command eventDigest)
  end.

End Sql.

(** ** Object stores *)

Module Idb.

Record KeyObjects := mkKeyObjects {
  key_store : list VerificationKeyRecord;
  event_store : list event;
}.

(** The key paths [["keyId", "keyVersion"]] and [["keyId", "lifecycleRevision"]]. *)
Definition key_path (r : VerificationKeyRecord) : jsstr * Z := (kr_keyId r, kr_keyVersion r).
Definition event_path (e : event) : jsstr * Z := (slot_id e, revision_of e).

Definition filteredImage (keyId : jsstr) (records : list VerificationKeyRecord) (events : list event)
    : VerificationKeyLifecycleImage :=
  mkImage (js_sort by_key_version (filter (fun r => kr_keyId r = keyId) records))
    (js_sort by_revision (filter (fun e => slot_id e = keyId) events)).
Definition image_of (keyId : jsstr) (d : KeyObjects) : VerificationKeyLifecycleImage :=
  filteredImage keyId (key_store d) (event_store d).

Definition put_all (records : list VerificationKeyRecord) : idb KeyObjects True :=
  iwrite (fun d => mkKeyObjects (foldl (fun rows r => upsert key_path r rows) (key_store d) records) (event_store d)).
Definition add_event (e : event) : idb KeyObjects True :=
  let~ events := iread event_store in
  iguard (key_taken event_path e events) (js "ConstraintError") $
  iwrite (fun d => mkKeyObjects (key_store d) (events ++ [e])).

#[global] Instance idb_lifecycle_store : LifecycleStore KeyObjects := {|
  store_image := image_of;
  store_plan records e := let~ _ := put_all records in add_event e;
|}.

Definition transaction {A} (body : idb KeyObjects A) : async KeyObjects A := idb_transaction id (fun d _ => d) body.
Definition idb_image (keyId : jsstr) : async KeyObjects VerificationKeyLifecycleImage :=
  transaction (iread (image_of keyId)).
Definition idb_commit (command : UnsignedVerificationKeyLifecycleCommand) (hashString : jsstr -> throws jsstr)
    : async KeyObjects VerificationKeyLifecycleMutationResult :=
  let* current := idb_image (commandKeyId command) in
  match planVerificationKeyLifecycleMutation current command with
  | Err r => aret (Err r)
  | Ok (_, e) =>
      let* eventDigest := await (hashString (ev_canonicalEvent e)) in
      if negb (is_hex 64 eventDigest) then aret (Err invalid_transition)
      else transaction (commit_body command eventDigest)
  end.

End Idb.
