(* ===== verification/KeyStoreFacts.v ===== *)
(** * Key lifecycles under concurrency

    [LifecycleStoreLaws] is the contract of a store: storing a plan replaces the
    image of its slot by the planned one and leaves the other slots alone.  Both
    stores satisfy it, and with it, whatever the interleaving of the commands, every
    slot stays sound and every committed command is an event for good. *)
From Stdlib Require Import ZifyBool.
From stdpp Require Import sorting.
From S2P Require Import Prelude Json Async IndexedDb KeyLifecycle KeyLifecycleFacts KeyLedger KeyLedgerFacts KeyStores.
Set Default Goal Selector "!".
Import Keys Ledger.

(** What is stored: valid records of one slot in the order of their versions,
    which keep the versions there are, and an event after the ones there are. *)
Record storable (img : VerificationKeyLifecycleImage) (records : list VerificationKeyRecord) (e : event) : Prop := {
  st_valid : Forall (fun r => validKeyRecord r = true) records;
  st_slot : Forall (fun r => kr_keyId r = slot_id e) records;
  st_sorted : StronglySorted below records;
  st_versions : forall r, r ∈ im_records img -> kr_keyVersion r ∈ kr_keyVersion <$> records;
  st_version : ev_version (ev_body e) = 1;
  st_later : forall e', e' ∈ im_events img -> revision_of e' < revision_of e;
}.

Class LifecycleStoreLaws (D : Type) `{LifecycleStore D} := {
  store_wf : D -> Prop;
  store_plan_wf : forall records e d d' u, store_wf d -> StronglySorted below records ->
    store_plan records e d = (d', inr u) -> store_wf d';
  store_plan_other : forall records e d d' u k, store_wf d -> Forall (fun r => kr_keyId r = slot_id e) records ->
    store_plan records e d = (d', inr u) -> k <> slot_id e -> store_image k d' = store_image k d;
  store_plan_same : forall records e d d' u, store_wf d -> storable (store_image (slot_id e) d) records e ->
    store_plan records e d = (d', inr u) ->
    store_image (slot_id e) d' = mkImage records (im_events (store_image (slot_id e) d) ++ [e]);
}.

(** ** Rows *)

Section Rows.
Context {A : Type} (slot : A -> jsstr) (num : A -> Z).
Definition row_key (x : A) : jsstr * Z := (slot x, num x).
Definition slot_rows (k : jsstr) (rows : list A) : list A :=
  js_sort (fun a b => num a <=? num b) (filter (fun x => slot x = k) rows).
Definition upserts (rows new : list A) : list A := foldl (fun rows x => upsert row_key x rows) rows new.
Abbreviation ascending := (StronglySorted (fun a b => num a < num b)).

Lemma upsert_elem x rows y : NoDup (row_key <$> rows) ->
  y ∈ upsert row_key x rows <-> y = x \/ (y ∈ rows /\ row_key y <> row_key x).
Proof.
  intros Hn. unfold upsert. destruct (existsb _ rows) eqn:E.
  - rewrite list_elem_of_In, in_map_iff. split.
    + intros (z & Hz & Hin). case_bool_decide as Hk; [by left|]. subst z. right. rewrite list_elem_of_In. done.
    + intros [->|[Hin Hk]].
      * apply existsb_exists in E as (z & Hin & Hz). exists z. by rewrite Hz.
      * exists y. rewrite bool_decide_eq_false_2 by done. rewrite <- list_elem_of_In. done.
  - rewrite elem_of_app, list_elem_of_singleton. assert (Hx : forall z, z ∈ rows -> row_key z <> row_key x).
    { intros z Hin Hk. rewrite (proj2 (existsb_exists _ _)) in E; [done|]. exists z. rewrite <- list_elem_of_In. by rewrite bool_decide_eq_true. }
    split; [intros [Hin| ->]; [right; auto|by left]|]. intros [->|[Hin _]]; [by right|by left].
Qed.
Lemma upsert_nodup x rows : NoDup (row_key <$> rows) -> NoDup (row_key <$> upsert row_key x rows).
Proof.
  intros Hn. unfold upsert. destruct (existsb _ rows) eqn:E.
  - replace (row_key <$> map _ rows) with (row_key <$> rows); [done|]. clear. induction rows as [|y l IH]; [done|].
    cbn [map fmap list_fmap]. rewrite IH. f_equal. case_bool_decide; congruence.
  - rewrite fmap_app. apply NoDup_app. split_and!; [done| |apply NoDup_singleton].
    intros k Hk ->%list_elem_of_singleton. apply list_elem_of_fmap in Hk as (z & Hz & Hin).
    rewrite (proj2 (existsb_exists _ _)) in E; [done|]. exists z. rewrite <- list_elem_of_In. by rewrite bool_decide_eq_true.
Qed.
Lemma upserts_nodup new rows : NoDup (row_key <$> rows) -> NoDup (row_key <$> upserts rows new).
Proof. unfold upserts. revert rows. induction new as [|x l IH]; intros rows Hn; [done|]. by apply IH, upsert_nodup. Qed.
Lemma upserts_elem new rows y : NoDup (row_key <$> rows) -> NoDup (row_key <$> new) ->
  y ∈ upserts rows new <-> y ∈ new \/ (y ∈ rows /\ row_key y ∉ row_key <$> new).
Proof.
  unfold upserts. revert rows. induction new as [|x l IH]; intros rows Hn Hl.
  { cbn. rewrite !elem_of_nil. tauto. }
  cbn [foldl fmap list_fmap] in *. inversion_clear Hl as [|? ? Hx Hl'].
  rewrite IH by (try done; by apply upsert_nodup). rewrite upsert_elem, !elem_of_cons by done. split.
  - intros [Hy|[[->|[Hy Hk]] Hni]]; [by left; right|by left; left|]. right. split; [done|]. intros [E|E]; done.
  - intros [[->|Hy]|[Hy Hni]]; [right; by split; [left|]|by left|]. right. split; [right|]; [split; [done|]|]; intros E; apply Hni; [by left|by right].
Qed.

Lemma filter_upsert_other x rows k : slot x <> k ->
  filter (fun y => slot y = k) (upsert row_key x rows) = filter (fun y => slot y = k) rows.
Proof.
  intros Hne. unfold upsert. destruct (existsb _ rows).
  - induction rows as [|y l IH]; [done|]. cbn [map]. rewrite !filter_cons, IH. case_bool_decide as Hk; [|done].
    unfold row_key in Hk. injection Hk as Hs _. rewrite Hs. by rewrite !decide_False.
  - rewrite filter_app, filter_cons, decide_False by done. by rewrite app_nil_r.
Qed.
Lemma slot_rows_other new rows k : Forall (fun x => slot x <> k) new -> slot_rows k (upserts rows new) = slot_rows k rows.
Proof.
  intros Hn. unfold slot_rows, upserts. f_equal. revert rows. induction Hn as [|x l Hx _ IH]; intros rows; [done|].
  cbn [foldl]. by rewrite IH, filter_upsert_other.
Qed.

Lemma num_total a b : (num a <=? num b) = true \/ (num b <=? num a) = true.
Proof. lia. Qed.
Lemma num_trans a b c : (num a <=? num b) = true -> (num b <=? num c) = true -> (num a <=? num c) = true.
Proof. lia. Qed.
Lemma slot_rows_elem k rows x : x ∈ slot_rows k rows <-> slot x = k /\ x ∈ rows.
Proof. unfold slot_rows. rewrite (js_sort_perm (fun a b => num a <=? num b)). by rewrite list_elem_of_filter. Qed.
Lemma slot_rows_ascending k rows : NoDup (row_key <$> rows) -> ascending (slot_rows k rows).
Proof.
  intros Hn. apply (sorted_strict num).
  - pose proof (js_sort_sorted (fun a b => num a <=? num b) num_total num_trans (filter (fun x => slot x = k) rows)) as Hs.
    unfold slot_rows. induction Hs as [|x l _ IH Hx]; constructor; [done|]. eapply Forall_impl; [exact Hx|]. cbn. lia.
  - unfold slot_rows. rewrite (js_sort_perm (fun a b => num a <=? num b)).
    induction rows as [|x l IH]; [constructor|]. cbn in Hn. inversion_clear Hn as [|? ? Hni Hn']. rewrite filter_cons.
    case_decide as E; [|by apply IH]. cbn. constructor; [|by apply IH].
    intros (y & Ey & [Es Hy]%list_elem_of_filter)%list_elem_of_fmap. apply Hni, list_elem_of_fmap. exists y.
    split; [|done]. unfold row_key. congruence.
Qed.
Lemma ascending_nodup l : ascending l -> NoDup l.
Proof.
  induction 1 as [|x l _ IH Hx]; constructor; [|done]. rewrite Forall_forall in Hx. intros Hin. specialize (Hx x Hin). lia.
Qed.
Lemma ascending_eq l1 l2 : ascending l1 -> ascending l2 -> (forall x, x ∈ l1 <-> x ∈ l2) -> l1 = l2.
Proof.
  intros H1 H2 He. eapply (StronglySorted_unique_strong (fun a b => num a < num b)); [|done|done|].
  - intros x y _ _. lia.
  - apply NoDup_Permutation; [by apply ascending_nodup..|done].
Qed.
Lemma ascending_keys k l : ascending l -> Forall (fun x => slot x = k) l -> NoDup (row_key <$> l).
Proof.
  induction 1 as [|x l _ IH Hx]; intros Hs; [constructor|]. apply Forall_cons in Hs as [Es Hs]. cbn. constructor; [|by apply IH].
  intros (y & Ey & Hy)%list_elem_of_fmap. rewrite Forall_forall in Hx. specialize (Hx y Hy). unfold row_key in Ey.
  injection Ey as _ Ey. lia.
Qed.
(** Storing the rows of a slot when they cover the ones there are. *)
Lemma slot_rows_upserts k new rows : NoDup (row_key <$> rows) -> ascending new -> Forall (fun x => slot x = k) new ->
  (forall x, x ∈ slot_rows k rows -> num x ∈ num <$> new) -> slot_rows k (upserts rows new) = new.
Proof.
  intros Hn Ha Hk Hc. pose proof (ascending_keys k new Ha Hk) as Hnk. rewrite Forall_forall in Hk. apply ascending_eq; [|done|].
  - by apply slot_rows_ascending, upserts_nodup.
  - intros x. rewrite slot_rows_elem, upserts_elem by done. split; [|by auto].
    intros [Es [Hx|[Hx Hni]]]; [done|]. exfalso. apply Hni.
    destruct (proj1 (list_elem_of_fmap _ _ _) (Hc x ltac:(by apply slot_rows_elem))) as (y & Ey & Hy).
    apply list_elem_of_fmap. exists y. split; [|done]. unfold row_key. rewrite Es, Ey. by rewrite (Hk y Hy).
Qed.
Lemma slot_rows_snoc k rows x : NoDup (row_key <$> rows) -> slot x = k -> (forall y, y ∈ slot_rows k rows -> num y < num x) ->
  slot_rows k (rows ++ [x]) = slot_rows k rows ++ [x].
Proof.
  intros Hn Es Hl. assert (Hn' : NoDup (row_key <$> (rows ++ [x]))).
  { rewrite fmap_app. apply NoDup_app. split_and!; [done| |apply NoDup_singleton].
    intros kk (y & -> & Hy)%list_elem_of_fmap E%list_elem_of_singleton. unfold row_key in E. injection E as E1 E2.
    specialize (Hl y). rewrite slot_rows_elem in Hl. specialize (Hl ltac:(split; [congruence|done])). lia. }
  apply ascending_eq; [by apply slot_rows_ascending| |].
  - pose proof (slot_rows_ascending k rows Hn) as Ha. induction Ha as [|y l Hl' IH Hy]; [repeat constructor|].
    cbn [app]. constructor; [apply IH; intros z Hz; apply Hl; by right|]. apply Forall_app. split; [done|].
    repeat constructor. apply Hl. by left.
  - intros y. rewrite elem_of_app, !slot_rows_elem, elem_of_app, !list_elem_of_singleton. naive_solver.
Qed.
Lemma slot_rows_snoc_other k rows x : slot x <> k -> slot_rows k (rows ++ [x]) = slot_rows k rows.
Proof.
  intros Hne. unfold slot_rows. rewrite filter_app, filter_cons, decide_False by done. by rewrite app_nil_r.
Qed.
Lemma snoc_keys x rows : NoDup (row_key <$> rows) -> key_taken row_key x rows = false -> NoDup (row_key <$> (rows ++ [x])).
Proof.
  intros Hn Ht. rewrite fmap_app. apply NoDup_app. split_and!; [done| |apply NoDup_singleton].
  intros k (y & -> & Hy)%list_elem_of_fmap E%list_elem_of_singleton. unfold key_taken in Ht.
  rewrite (proj2 (existsb_exists _ _)) in Ht; [done|]. exists y. rewrite <- list_elem_of_In. by rewrite bool_decide_eq_true.
Qed.
End Rows.

(** ** The object stores *)

#[export] Program Instance idb_store_laws : LifecycleStoreLaws Idb.KeyObjects := {|
  store_wf d := NoDup (row_key kr_keyId kr_keyVersion <$> Idb.key_store d) /\
                NoDup (row_key slot_id revision_of <$> Idb.event_store d);
|}.
Next Obligation.
  intros records e d d' u [Hk He] _ Hp. cbn in Hp. idb_run Hp. split; cbn.
  - by apply (upserts_nodup kr_keyId kr_keyVersion).
  - by apply snoc_keys.
Qed.
Next Obligation.
  intros records e d d' u k [Hk He] Hs Hp Hne. cbn in Hp. idb_run Hp. cbn [store_image Idb.idb_lifecycle_store].
  unfold Idb.image_of, Idb.filteredImage. cbn. f_equal.
  - apply (slot_rows_other kr_keyId kr_keyVersion records). eapply Forall_impl; [exact Hs|]. intros r ->. congruence.
  - apply (slot_rows_snoc_other slot_id revision_of). congruence.
Qed.
Next Obligation.
  intros records e d d' u [Hk He] [Hv Hs Ha Hc _ Hl] Hp. cbn in Hp. idb_run Hp. cbn [store_image Idb.idb_lifecycle_store] in *.
  unfold Idb.image_of, Idb.filteredImage in *. cbn [im_records im_events Idb.key_store Idb.event_store] in *. f_equal.
  - by apply (slot_rows_upserts kr_keyId kr_keyVersion).
  - by apply (slot_rows_snoc slot_id revision_of).
Qed.

(** ** The tables *)

Lemma keyRecord_row r revision : validKeyRecord r = true -> Sql.keyRecord (Sql.key_row r revision) = r.
Proof. unfold validKeyRecord. intros Hv. bool_split. destruct r. cbn in *. by subst. Qed.
Lemma lifecycleEvent_row e : ev_version (ev_body e) = 1 -> Sql.lifecycleEvent (Sql.event_row e) = e.
Proof. destruct e as [[] ?]. cbn. by intros ->. Qed.

Lemma upsert_all_rows records revision d d' u : Sql.upsert_all records revision d = (d', inr u) ->
  d' = Sql.mkKeyTables (upserts Sql.key_id Sql.key_version (Sql.verification_key_versions d) ((fun r => Sql.key_row r revision) <$> records))
         (Sql.verification_key_lifecycle_events d).
Proof.
  revert d. induction records as [|r l IH]; intros d Hu; cbn [Sql.upsert_all] in Hu.
  - idb_run Hu. by destruct d.
  - apply ibind_ok in Hu as (d1 & a & E & Hu). apply IH in Hu as ->. unfold Sql.upsertRecord in E. idb_run E. done.
Qed.
Lemma insert_event_rows e d d' u : Sql.insert_event e d = (d', inr u) ->
  d' = Sql.mkKeyTables (Sql.verification_key_versions d) (Sql.verification_key_lifecycle_events d ++ [Sql.event_row e]) /\
  key_taken Sql.event_key (Sql.event_row e) (Sql.verification_key_lifecycle_events d) = false.
Proof. unfold Sql.insert_event. intros E. idb_run E. repeat match goal with F : _ || _ = false |- _ => apply orb_false_iff in F as [F ?] end. subst a. by split. Qed.

Lemma key_rows_ascending records revision : StronglySorted below records ->
  StronglySorted (fun a b => Sql.key_version a < Sql.key_version b) ((fun r => Sql.key_row r revision) <$> records).
Proof.
  induction 1 as [|r l _ IH Hr]; [constructor|]. cbn. constructor; [done|]. apply Forall_fmap. exact Hr.
Qed.
Lemma fmap_keyRecord records revision : Forall (fun r => validKeyRecord r = true) records ->
  Sql.keyRecord <$> ((fun r => Sql.key_row r revision) <$> records) = records.
Proof. induction 1 as [|r l Hr _ IH]; [done|]. cbn. rewrite IH. by rewrite keyRecord_row. Qed.

#[export] Program Instance sql_store_laws : LifecycleStoreLaws Sql.KeyTables := {|
  store_wf d := NoDup (row_key Sql.key_id Sql.key_version <$> Sql.verification_key_versions d) /\
                NoDup (row_key Sql.event_key_id Sql.event_lifecycle_revision <$> Sql.verification_key_lifecycle_events d);
|}.
Next Obligation.
  intros records e d d' u [Hk He] _ Hp. cbn in Hp. apply ibind_ok in Hp as (d1 & a & H1 & H2).
  apply upsert_all_rows in H1 as ->. apply insert_event_rows in H2 as [-> Ht]. split; cbn in *.
  - by apply upserts_nodup.
  - by apply snoc_keys.
Qed.
Next Obligation.
  intros records e d d' u k [Hk He] Hs Hp Hne. cbn in Hp. apply ibind_ok in Hp as (d1 & a & H1 & H2).
  apply upsert_all_rows in H1 as ->. apply insert_event_rows in H2 as [-> Ht]. cbn [store_image Sql.sql_lifecycle_store].
  unfold Sql.image. cbn. f_equal; f_equal.
  - apply (slot_rows_other Sql.key_id Sql.key_version). apply Forall_fmap. eapply Forall_impl; [exact Hs|]. cbn. intros r ->. congruence.
  - apply (slot_rows_snoc_other Sql.event_key_id Sql.event_lifecycle_revision). cbn. congruence.
Qed.
Next Obligation.
  intros records e d d' u [Hk He] [Hv Hs Ha Hc Hver Hl] Hp. cbn in Hp. apply ibind_ok in Hp as (d1 & a & H1 & H2).
  apply upsert_all_rows in H1 as ->. apply insert_event_rows in H2 as [-> Ht]. cbn [store_image Sql.sql_lifecycle_store] in *.
  unfold Sql.image in *. cbn [im_records im_events Sql.verification_key_versions Sql.verification_key_lifecycle_events] in *.
  pose proof (slot_rows_upserts Sql.key_id Sql.key_version (slot_id e) ((fun r => Sql.key_row r (revision_of e)) <$> records)
    (Sql.verification_key_versions d) Hk (key_rows_ascending _ _ Ha)) as Hrows.
  pose proof (slot_rows_snoc Sql.event_key_id Sql.event_lifecycle_revision (slot_id e) _ (Sql.event_row e) He eq_refl) as Hevents.
  unfold slot_rows in Hrows, Hevents. rewrite Hrows, Hevents.
  - rewrite fmap_keyRecord by done. f_equal. rewrite fmap_app. f_equal. cbn. by rewrite lifecycleEvent_row.
  - intros y Hy. apply (Hl (Sql.lifecycleEvent y)). by apply list_elem_of_fmap_2.
  - apply Forall_fmap. exact Hs.
  - intros x Hx. rewrite <- list_fmap_compose. apply (Hc (Sql.keyRecord x)). by apply list_elem_of_fmap_2.
Qed.

(** ** Committing *)

Section Commit.
Context {D : Type} `{L : LifecycleStoreLaws D}.

Definition ledger_ok (d : D) : Prop := store_wf d /\ forall k, slot_sound k (store_image k d).
Definition ledger_evolves (d d' : D) : Prop := forall k, image_evolves (store_image k d) (store_image k d').
#[export] Instance ledger_evolves_preorder : PreOrder ledger_evolves.
Proof. split; [intros d k; reflexivity|]. intros d1 d2 d3 H12 H23 k. etrans; [apply H12|apply H23]. Qed.

(** The command is event number [revision] of its slot. *)
Definition committed_event (command : UnsignedVerificationKeyLifecycleCommand) (revision : Z) (d : D) : Prop :=
  1 <= revision /\ exists e, im_events (store_image (commandKeyId command) d) !! Z.to_nat (revision - 1) = Some e /\
    revision_of e = revision /\ kind_of e = command_kind command /\ time_of e = command_committedAtMs command /\
    ev_canonicalEvent (ev_body e) = canonicalVerificationKeyLifecycleEvent command revision.
Definition commit_promise (command : UnsignedVerificationKeyLifecycleCommand)
    (r : VerificationKeyLifecycleMutationResult) (d : D) : Prop :=
  match r with
  | Ok revision => command_expectedRevision command = revision - 1 /\ committed_event command revision d
  | Err _ => True
  end.
Lemma commit_promise_later command r d d' : ledger_evolves d d' -> commit_promise command r d -> commit_promise command r d'.
Proof.
  intros He. destruct r as [revision|]; [|done]. intros [Hx (Hp & e & Hl & Hrest)]. split; [done|]. split; [done|].
  exists e. split; [|done]. destruct (ie_events _ _ (He (commandKeyId command))) as [later ->]. by apply lookup_app_l_Some.
Qed.

Lemma plan_storable k img command next ev digest : slot_sound k img -> commandKeyId command = k -> is_hex 64 digest = true ->
  planVerificationKeyLifecycleMutation img command = Ok (next, ev) -> storable img next (mkLifecycleEvent ev digest).
Proof.
  intros S Ek Hd Hp. pose proof (planned_sound _ _ _ _ _ digest S Ek Hd Hp) as S'.
  pose proof (plan_ok _ _ _ _ _ S Ek Hp) as (_ & _ & _ & v & Hch & Eev).
  destruct (change_records _ _ _ _ _ S Hch) as [Hr _].
  assert (Eid : ev_keyId ev = k) by (by rewrite Eev). split; cbn [with_event im_records im_events] in *.
  - destruct Hch as [[_ Hv _ _] _]. exact Hv.
  - unfold slot_id. cbn. rewrite Eid. apply (ss_record_keys _ _ S').
  - apply (sorted_strict kr_keyVersion).
    + pose proof (numbered_sorted kr_keyVersion _ _ (ss_versions _ _ S')) as Hs. cbn in Hs.
      clear -Hs. induction Hs as [|x l _ IH Hx]; constructor; [done|]. eapply Forall_impl; [exact Hx|]. cbn. lia.
    + pose proof (ss_versions _ _ S') as E. cbn [im_records with_event] in E. rewrite E. apply NoDup_seqZ.
  - intros r (r' & Hr' & ((Ei & _) & _) & _)%Hr. unfold version_id in Ei. injection Ei as _ ->. by apply list_elem_of_fmap_2.
  - by rewrite Eev.
  - intros e' [i Hi]%list_elem_of_lookup. rewrite (numbered_at _ _ _ _ _ (ss_revisions _ _ S) Hi).
    apply lookup_lt_Some in Hi. rewrite Eev. unfold revision_of, zlength. cbn. lia.
Qed.

(** A transaction refuses and changes nothing, or carries the plan out. *)
Lemma commit_body_result command digest d d' r : ledger_ok d -> is_hex 64 digest = true ->
  commit_body command digest d = (d', inr r) ->
  match r with
  | Err _ => d' = d
  | Ok revision => exists next ev,
      planVerificationKeyLifecycleMutation (store_image (commandKeyId command) d) command = Ok (next, ev) /\
      revision = ev_lifecycleRevision ev /\ store_wf d' /\
      store_image (commandKeyId command) d' = with_event (store_image (commandKeyId command) d) next ev digest /\
      forall k, k <> commandKeyId command -> store_image k d' = store_image k d
  end.
Proof.
  intros [Hwf Hs] Hd Hb. unfold commit_body in Hb. apply ibind_ok in Hb as (d1 & img & Ei & Hb).
  apply pair_equal_spec in Ei as [<- Ei]. injection Ei as <-.
  destruct (planVerificationKeyLifecycleMutation _ command) as [[next ev]|e] eqn:Ep.
  2: { apply pair_equal_spec in Hb as [<- Hb]. by injection Hb as <-. }
  apply ibind_ok in Hb as (d2 & u & Hst & Hb). apply pair_equal_spec in Hb as [<- Hb]. injection Hb as <-.
  pose proof (Hs (commandKeyId command)) as S. pose proof (plan_ok _ _ _ _ _ S eq_refl Ep) as (_ & Hx & _ & v & _ & Eev).
  pose proof (plan_storable _ _ _ _ _ digest S eq_refl Hd Ep) as Hsto.
  assert (Eid : slot_id (mkLifecycleEvent ev digest) = commandKeyId command) by (by rewrite Eev).
  exists next, ev. split_and!; [done|done| | |].
  - by apply (store_plan_wf next (mkLifecycleEvent ev digest) d d2 u Hwf (st_sorted _ _ _ Hsto)).
  - rewrite <- Eid in *. by apply (store_plan_same next (mkLifecycleEvent ev digest) d d2 u Hwf).
  - intros k Hk. rewrite <- Eid in Hk. by apply (store_plan_other next (mkLifecycleEvent ev digest) d d2 u k Hwf (st_slot _ _ _ Hsto)).
Qed.

Lemma commit_body_ok command digest d d' r : ledger_ok d -> is_hex 64 digest = true ->
  commit_body command digest d = (d', inr r) -> ledger_ok d' /\ ledger_evolves d d' /\ commit_promise command r d'.
Proof.
  intros Hok Hd Hb. pose proof (commit_body_result _ _ _ _ _ Hok Hd Hb) as Hr. destruct r as [revision|e].
  2: { subst d'. split_and!; [done|reflexivity|done]. }
  destruct Hr as (next & ev & Ep & -> & Hwf' & Esame & Eother). destruct Hok as [Hwf Hs].
  pose proof (Hs (commandKeyId command)) as S. pose proof (plan_ok _ _ _ _ _ S eq_refl Ep) as (_ & Hx & _ & v & _ & Eev).
  split_and!.
  - split; [done|]. intros k. destruct (decide (k = commandKeyId command)) as [->|Hk]; [|by rewrite (Eother k Hk)].
    rewrite Esame. by eapply planned_sound.
  - intros k. destruct (decide (k = commandKeyId command)) as [->|Hk]; [|by rewrite (Eother k Hk)].
    rewrite Esame. by eapply planned_evolves.
  - cbn [commit_promise]. unfold committed_event. rewrite Esame.
    assert (Er : ev_lifecycleRevision ev = zlength (im_events (store_image (commandKeyId command) d)) + 1) by (by rewrite Eev).
    rewrite Er. cbn [with_event im_events].
    split; [lia|]. split; [unfold zlength; lia|]. exists (mkLifecycleEvent ev digest). rewrite Eev. split_and!; try done.
    rewrite lookup_app_r by (unfold zlength; lia). replace (Z.to_nat _ - _)%nat with 0%nat by (unfold zlength; lia). done.
Qed.

(** A transaction that commits, or leaves everything as it was. *)
Lemma committed_commit command digest d : ledger_ok d -> is_hex 64 digest = true ->
  let '(d', r) := committed (commit_body command digest) d in
  ledger_ok d' /\ ledger_evolves d d' /\ on_return (commit_promise command) r d'.
Proof.
  intros Hok Hd. destruct (committed _ d) as [d' [e|r]] eqn:E.
  - apply committed_throws in E as ->. split_and!; [done|reflexivity|done].
  - apply (proj1 (committed_ok _ _ _ _)) in E. by apply (commit_body_ok command digest d d' r).
Qed.

(** Requests are commands with the digest the caller passes. *)
Definition key_request : Type := UnsignedVerificationKeyLifecycleCommand * (jsstr -> throws jsstr).
Definition ledger_safe (d0 : D) (p : pool D key_request VerificationKeyLifecycleMutationResult) : Prop :=
  ledger_ok (Async.store p) /\ ledger_evolves d0 (Async.store p) /\
  forall req revision, (req, Finished (inr (Ok revision))) ∈ threads p ->
    command_expectedRevision req.1 = revision - 1 /\ committed_event req.1 revision (Async.store p).
Definition unchanged (d d' : D) : Prop := d' = d.

Lemma commits_safe (serve : key_request -> async D VerificationKeyLifecycleMutationResult) d0 p :
  (forall req d, ledger_ok d -> spec ledger_ok ledger_evolves (serve req) d (on_return (commit_promise req.1))) ->
  ledger_ok d0 -> rtc (pool_step serve unchanged) (mkPool d0 []) p -> ledger_safe d0 p.
Proof.
  intros Hserve Hok Hrun.
  destruct (pool_sound serve unchanged ledger_ok ledger_evolves (fun req => on_return (commit_promise req.1)))
    with (p := mkPool d0 ([] : list (key_request * step D VerificationKeyLifecycleMutationResult))) (p' := p) as [Hp He].
  - intros d d' Hd ->. by split.
  - exact Hserve.
  - intros req [e|r] d d' _ Hev; [done|]. by apply commit_promise_later.
  - split; [done|constructor].
  - exact Hrun.
  - split; [apply Hp|]. split; [exact He|]. intros req revision Hin. by apply (pool_answer _ _ _ _ _ _ Hp Hin).
Qed.
End Commit.

Definition sql_serve (req : key_request) : async Sql.KeyTables VerificationKeyLifecycleMutationResult := Sql.commit req.1 req.2.
Definition idb_serve (req : key_request) : async Idb.KeyObjects VerificationKeyLifecycleMutationResult := Idb.idb_commit req.1 req.2.

Lemma sql_commit_ok req (d : Sql.KeyTables) : ledger_ok d ->
  spec ledger_ok ledger_evolves (sql_serve req) d (on_return (commit_promise req.1)).
Proof.
  intros Hok. unfold sql_serve, Sql.commit. apply spec_read_bind.
  destruct (planVerificationKeyLifecycleMutation _ _) as [[records e]|r]; [|apply spec_ret; [exact _|done|exact I]].
  apply spec_await_bind; [exact _|done|]. intros d' Hok' _. destruct (req.2 _) as [err|digest]; [exact I|].
  destruct (is_hex 64 digest) eqn:Eh; cbn [negb]; [|apply spec_ret; [exact _|done|exact I]].
  pose proof (committed_commit req.1 digest d' Hok' Eh) as Hc. unfold spec, Sql.transactionSync.
  destruct (committed _ d') as [d2 r]. cbn. destruct Hc as (H1 & H2 & H3). by split_and!.
Qed.
Lemma idb_commit_ok req (d : Idb.KeyObjects) : ledger_ok d ->
  spec ledger_ok ledger_evolves (idb_serve req) d (on_return (commit_promise req.1)).
Proof.
  intros Hok. unfold idb_serve, Idb.idb_commit.
  apply (spec_bind _ _ _ _ _ (fun _ _ => True)); [|intros img d1 Hok1 _ _|done].
  { split; [done|]. split; [cbn; reflexivity|]. cbn. intros d1 Hok1 _. split_and!; [done|reflexivity|done]. }
  destruct (planVerificationKeyLifecycleMutation _ _) as [[records e]|r]; [|apply spec_ret; [exact _|done|exact I]].
  apply spec_await_bind; [exact _|done|]. intros d2 Hok2 _. destruct (req.2 _) as [err|digest]; [exact I|].
  destruct (is_hex 64 digest) eqn:Eh; cbn [negb]; [|apply spec_ret; [exact _|done|exact I]].
  split; [done|]. split; [cbn; reflexivity|]. cbn. intros d3 Hok3 _.
  pose proof (committed_commit req.1 digest d3 Hok3 Eh) as Hc. unfold id.
  destruct (committed _ d3) as [d4 r]. cbn. destruct Hc as (H1 & H2 & H3). by split_and!.
Qed.

(** C14: whatever commands are committed to a store of keys, in whatever
    interleaving at their awaits and with whatever digests, every slot stays
    sound: its records are a key history numbered from 1 that its events account
    for one by one, records are only ever narrowed, events never lost.  A command
    answered with a revision found its slot at the revision before and is the event
    with this number for good, so no two commands get the same revision of a slot.
    This holds for the tables of the service and for the object stores of the
    browser. *)
Theorem lifecycle_interleavings_safe :
  (forall (d0 : Sql.KeyTables) p, ledger_ok d0 -> rtc (pool_step sql_serve unchanged) (mkPool d0 []) p -> ledger_safe d0 p) /\
  (forall (d0 : Idb.KeyObjects) p, ledger_ok d0 -> rtc (pool_step idb_serve unchanged) (mkPool d0 []) p -> ledger_safe d0 p).
Proof.
  split; intros d0 p; apply commits_safe; [apply sql_commit_ok|apply idb_commit_ok].
Qed.

(** ** Witness: both stores, from empty *)

Definition toy_digest_of (text : jsstr) : throws jsstr := inr toy_event_digest.
Definition other_digest_of (text : jsstr) : throws jsstr := inr (replicate 64 98%N).
Definition toy_commands : list key_request := [(toy_provision, toy_digest_of); (toy_rotate, other_digest_of); (toy_rotate, toy_digest_of)].
Definition empty_tables : Sql.KeyTables := Sql.mkKeyTables [] [].
Definition empty_objects : Idb.KeyObjects := Idb.mkKeyObjects [] [].
Lemma lifecycle_interleavings_safe_witness :
  ledger_safe empty_tables (serve_all sql_serve toy_commands (mkPool empty_tables [])) /\
  ledger_safe empty_objects (serve_all idb_serve toy_commands (mkPool empty_objects [])) /\
  (snd <$> threads (serve_all sql_serve toy_commands (mkPool empty_tables []))) =
    [Finished (inr (Ok 1)); Finished (inr (Ok 2)); Finished (inr (Err stale_revision))].
Proof.
  destruct lifecycle_interleavings_safe as [Hsql Hidb]. split; [|split].
  - apply Hsql; [|apply serve_all_runs]. split; [split; apply NoDup_nil_2|]. intros k. apply empty_sound.
  - apply Hidb; [|apply serve_all_runs]. split; [split; apply NoDup_nil_2|]. intros k. apply empty_sound.
  - vm_compute. reflexivity.
Defined.
