(* ===== verification/KeySigner.v ===== *)
(** * The signer service

    [cf-game-audit/src/verification-key-signer-worker.ts]: a worker checks who
    calls, and a durable object signs with the key of its configuration, after it
    has brought the lifecycle store in step with it.  The object keeps the tables
    of the store and the promise of its signer. *)
From Stdlib Require Import ZifyBool.
From S2P Require Import Prelude Json Utf8 Async IndexedDb CryptoBackend KeyLifecycle KeyLedger KeyStores.
Set Default Goal Selector "!".
Import Keys Ledger.

(** The environment of a deployment; a variable may be missing. *)
Record VerificationKeySignerEnv := mkSignerEnv {
  SIGNER_CALLER_TOKEN : option jsstr;
  SIGNER_ADMIN_TOKEN : option jsstr;
  SIGNING_KEY_SEED_HEX : option jsstr;
  SIGNING_KEY_ID : option jsstr;
  SIGNING_KEY_VERSION : option jsstr;
  SIGNING_KEY_LIFECYCLE_REVISION : option jsstr;
  SIGNING_SUBJECT_ID : option jsstr;
  SIGNING_PURPOSE : option jsstr;
  SIGNING_SCOPE_ID : option jsstr;
  SIGNING_SCHEME : option jsstr;
  SIGNING_PUBLIC_KEY : option jsstr;
  SIGNING_VALID_FROM_MS : option jsstr;
  SIGNING_VALID_UNTIL_MS : option jsstr;
  SIGNING_REVOKED_AT_MS : option jsstr;
  SIGNER_RUNTIME_PROFILE : option jsstr;
}.
Record SignerConfiguration := mkSignerConfiguration {
  sc_key : VerificationKeyRecord;
  sc_lifecycleRevision : Z;
  sc_seedHex : jsstr;
}.

(** What the handlers read of a request. *)
Record SignerRequest := mkSignerRequest {
  sq_method : jsstr;
  sq_pathname : jsstr;
  sq_internal : option jsstr;
  sq_authorization : option jsstr;
  sq_purpose : option jsstr;
  (** [request.text()]. *)
  sq_text : throws jsstr;
}.
Inductive SignerBody :=
| sb_error (code : string)
| sb_health
| sb_history (image : VerificationKeyLifecycleImage)
| sb_authentication (a : KeyBoundAuthentication)
| sb_signature (scheme signature keyId : jsstr) (keyVersion : Z) (publicKey : jsstr) (issuedAtMs : Z).
Record SignerResponse := mkSignerResponse { sr_status : Z; sr_body : SignerBody }.

(** The durable object: its tables, [this.signer], and the clock of the host. *)
Record SignerObject := mkSignerObject {
  so_tables : Sql.KeyTables;
  so_signer : option (throws AsyncAuditSigner);
  so_now : Z;
}.

Module Signer.

Definition set_tables (t : Sql.KeyTables) (w : SignerObject) : SignerObject := mkSignerObject t (so_signer w) (so_now w).
Definition set_signer (s : option (throws AsyncAuditSigner)) (w : SignerObject) : SignerObject :=
  mkSignerObject (so_tables w) s (so_now w).

Definition jsonResponse (body : SignerBody) : SignerResponse := mkSignerResponse 200 body.
Definition jsonError (code : string) (status : Z) : SignerResponse := mkSignerResponse status (sb_error code).

(** ** Checks *)

Definition boundedString (value : jsval) (maxLength : Z) : bool :=
  match value with JStr s => (0 <? slen s) && (slen s <=? maxLength) | _ => false end.
Definition lowerHexDigest (value : jsval) : bool := match value with JStr s => is_hex 64 s | _ => false end.

(** Decimal digits without a leading zero, and [Number] where it is a safe
    integer. *)
Definition decimal_pattern (value : jsstr) : bool :=
  match value with
  | [] => false
  | [c] => is_decimal c
  | c :: rest => is_decimal c && negb (c =? 48)%N && forallb is_decimal rest
  end.
Definition integer (value : option jsstr) : option Z :=
  v ← value;
  if negb (decimal_pattern v) then None else
  let parsed := Z.of_N (decimal_value v) in
  if isSafeInteger parsed then Some parsed else None.
Definition positiveInteger (value : option jsstr) : option Z :=
  parsed ← integer value; if 0 <? parsed then Some parsed else None.
Definition nonNegativeInteger (value : option jsstr) : option Z :=
  parsed ← integer value; if 0 <=? parsed then Some parsed else None.
Definition secretToken (value : option jsstr) : bool :=
  match value with Some v => (16 <=? slen v) && (slen v <=? 512) | None => false end.
Definition authorized (request : SignerRequest) (token : option jsstr) : bool :=
  secretToken token && bool_decide (sq_authorization request = (fun t => js "Bearer " ++ t) <$> token).

Definition keyCanSignAt (key : VerificationKeyRecord) (nowMs : Z) : bool :=
  (kr_validFromMs key <=? nowMs) && (nowMs <? kr_validUntilMs key) &&
  match kr_revokedAtMs key with None => true | Some r => nowMs <? r end.
Definition sameKeyExceptRevocation (left right : VerificationKeyRecord) : bool :=
  (kr_version left =? kr_version right) && str_eqb (kr_keyId left) (kr_keyId right) &&
  (kr_keyVersion left =? kr_keyVersion right) && str_eqb (kr_subjectId left) (kr_subjectId right) &&
  str_eqb (kr_purpose left) (kr_purpose right) && str_eqb (kr_scopeId left) (kr_scopeId right) &&
  str_eqb (kr_scheme left) (kr_scheme right) && str_eqb (kr_publicKey left) (kr_publicKey right) &&
  (kr_validFromMs left =? kr_validFromMs right) && (kr_validUntilMs left =? kr_validUntilMs right).

Definition keyBoundRequestMatches (body : jsval) (key : VerificationKeyRecord) : bool :=
  is_num 1 (field body "version") && bool_decide (as_string (field body "subject_id") = Some (kr_subjectId key)) &&
  bool_decide (as_string (field body "purpose") = Some (kr_purpose key)) && bool_decide (as_string (field body "scope_id") = Some (kr_scopeId key)) &&
  boundedString (field body "unit_id") 256 && lowerHexDigest (field body "statement_digest").
Definition legacyRequestMatches (body : jsval) (key : VerificationKeyRecord) : bool :=
  is_num 1 (field body "version") && bool_decide (as_string (field body "source_id") = Some (kr_subjectId key)) &&
  bool_decide (as_string (field body "scheme") = Some (kr_scheme key)) && lowerHexDigest (field body "digest").

Definition boundedJson `{JsHost} (encoded : jsstr) (maxBytes : Z) : option jsval :=
  if (slen encoded =? 0) || (maxBytes <? slen encoded) then None else
  match json_parse encoded with
  | Some value => if is_record value then Some value else None
  | None => None
  end.

(** ** Configuration *)

Definition parseConfiguration (env : VerificationKeySignerEnv) : option SignerConfiguration :=
  let profile := SIGNER_RUNTIME_PROFILE env in
  if negb (bool_decide (profile = Some (js "production"))) && negb (bool_decide (profile = Some (js "test"))) then None else
  keyVersion ← positiveInteger (SIGNING_KEY_VERSION env);
  lifecycleRevision ← positiveInteger (SIGNING_KEY_LIFECYCLE_REVISION env);
  validFromMs ← nonNegativeInteger (SIGNING_VALID_FROM_MS env);
  validUntilMs ← nonNegativeInteger (SIGNING_VALID_UNTIL_MS env);
  revokedAtMs ← (match SIGNING_REVOKED_AT_MS env with
                 | None => Some None
                 | Some v => r ← nonNegativeInteger (Some v); Some (Some r)
                 end);
  seedHex ← SIGNING_KEY_SEED_HEX env;
  publicKey ← SIGNING_PUBLIC_KEY env;
  if negb (is_hex 64 seedHex) || negb (is_hex 64 publicKey) ||
     negb (bool_decide (SIGNING_SCHEME env = Some (js "ed25519-v1"))) ||
     negb (secretToken (SIGNER_CALLER_TOKEN env)) || negb (secretToken (SIGNER_ADMIN_TOKEN env)) then None else
  keyId ← SIGNING_KEY_ID env;
  subjectId ← SIGNING_SUBJECT_ID env;
  purpose ← SIGNING_PURPOSE env;
  scopeId ← SIGNING_SCOPE_ID env;
  let key := mkKeyRecord 1 keyId keyVersion subjectId purpose scopeId (js "ed25519-v1") publicKey
               validFromMs validUntilMs revokedAtMs in
  if negb (is_ok (validateVerificationKeyHistory [key])) then None
  else Some (mkSignerConfiguration key lifecycleRevision seedHex).

(** ** The durable object *)

Section Object.
Context `{JsHost} (subtle : SubtleCrypto).

(** [store.provision], [rotate] and [revoke], with [committedAtMs: Date.now()]:
    whether the decision is [committed]. *)
Definition committed_at (command : Z -> UnsignedVerificationKeyLifecycleCommand) : async SignerObject bool :=
  let* now := read_store so_now in
  let* r := zoom so_tables set_tables (Sql.commit (command now) (hashString subtle)) in
  aret (is_ok r).

Definition synchronizeConfiguredKey (configuration : SignerConfiguration) : async SignerObject bool :=
  let key := sc_key configuration in
  let* img := read_store (fun w => Sql.image (kr_keyId key) (so_tables w)) in
  let revision := match last (im_events img) with Some e => revision_of e | None => 0 end in
  match last (im_records img) with
  | None =>
      if negb (kr_keyVersion key =? 1) || negb (sc_lifecycleRevision configuration =? 1) then aret false
      else committed_at (fun now => kc_provision 0 now key)
  | Some current =>
      if (kr_keyVersion key =? kr_keyVersion current + 1) && (sc_lifecycleRevision configuration =? revision + 1)
      then committed_at (fun now => kc_rotate revision now (kr_keyId current) (kr_keyVersion current) key (kr_validFromMs key))
      else match List.find (fun record => kr_keyVersion record =? kr_keyVersion key) (im_records img) with
      | None => aret false
      | Some exact =>
          if negb (sameKeyExceptRevocation exact key) then aret false
          else
            match kr_revokedAtMs exact, kr_revokedAtMs key with
            | None, Some revokedAtMs =>
                if sc_lifecycleRevision configuration =? revision + 1
                then committed_at (fun now => kc_revoke revision now (kr_keyId exact) (kr_keyVersion exact) revokedAtMs)
                else aret false
            | _, _ =>
                aret (bool_decide (kr_revokedAtMs exact = kr_revokedAtMs key) &&
                      (sc_lifecycleRevision configuration =? revision))
            end
      end
  end.

(** [this.signer ??= importLegacySeed(..)]: the promise is kept, whatever it
    settles with. *)
Definition loadSigner (configuration : SignerConfiguration) : async SignerObject AsyncAuditSigner :=
  fun w =>
    let promise := default (let! generated := importLegacySeed subtle (sc_seedHex configuration) (kr_publicKey (sc_key configuration)) in
                            inr (snd generated)) (so_signer w) in
    await promise (set_signer (Some promise) w).

(** A promise that rejects is caught by the callers. *)
Definition settled {A} (r : throws A) : option A := match r with inr a => Some a | inl _ => None end.
Definition sign_key_bound (key : VerificationKeyRecord) (unitId statementDigest : jsstr) (nowMs : Z)
    (signer : AsyncAuditSigner) : throws KeyBoundAuthentication :=
  match signKeyBoundStatementAsync key unitId statementDigest nowMs
          (mkAsyncKeySigner (js "ed25519-v1") (as_publicKey signer) (fun d => settled (as_signDigest signer d)))
          (fun text => settled (hashString subtle text)) with
  | Some r => r
  | None => inl (js "rejected")
  end.

(** [try { .. } catch { return refused; }] around an await. *)
Definition or_refused {A} (r : throws A) (refused : SignerResponse) (k : A -> SignerResponse) : async SignerObject SignerResponse :=
  let* outcome := await (inr (settled r)) in
  aret (match outcome with Some a => k a | None => refused end).

Definition respond (configuration : SignerConfiguration) (request : SignerRequest) (body : jsval) (nowMs : Z)
    (signer : AsyncAuditSigner) : async SignerObject SignerResponse :=
  let key := sc_key configuration in
  if str_eqb (sq_pathname request) (js "/key-bound-sign") then
    if negb (keyBoundRequestMatches body key) then aret (jsonError "signing_binding_mismatch" 403)
    else
      or_refused (sign_key_bound key (default [] (as_string (field body "unit_id")))
                    (default [] (as_string (field body "statement_digest"))) nowMs signer)
        (jsonError "signing_failed" 503) (fun a => jsonResponse (sb_authentication a))
  else if str_eqb (sq_pathname request) (js "/sign") then
    if negb (legacyRequestMatches body key) then aret (jsonError "signing_binding_mismatch" 403)
    else
      or_refused (as_signDigest signer (default [] (as_string (field body "digest"))))
        (jsonError "signing_failed" 503)
        (fun signature => jsonResponse (sb_signature (kr_scheme key) signature (kr_keyId key) (kr_keyVersion key) (kr_publicKey key) nowMs))
  else aret (jsonError "not_found" 404).

Fixpoint step_outcome {A} (s : step SignerObject A) : step SignerObject (option A) :=
  match s with
  | Finished r => Finished (inr (settled r))
  | Suspended k => Suspended (fun w => let '(w', s') := k w in (w', step_outcome s'))
  end.
(** [try { signer = await m; } catch { .. }]. *)
Definition outcome_of {A} (m : async SignerObject A) : async SignerObject (option A) :=
  fun w => let '(w', s) := m w in (w', step_outcome s).

Definition object_fetch (signerEnv : VerificationKeySignerEnv) (request : SignerRequest) : async SignerObject SignerResponse :=
  if negb (bool_decide (sq_internal request = Some (js "verification-key-signer"))) then aret (jsonError "not_found" 404)
  else match parseConfiguration signerEnv with
  | None => aret (jsonError "invalid_signer_configuration" 503)
  | Some configuration =>
      let key := sc_key configuration in
      let* synchronized := synchronizeConfiguredKey configuration in
      if negb synchronized then aret (jsonError "key_lifecycle_mismatch" 503)
      else if str_eqb (sq_method request) (js "GET") && str_eqb (sq_pathname request) (js "/key-history") then
        let* img := read_store (fun w => Sql.image (kr_keyId key) (so_tables w)) in
        aret (jsonResponse (sb_history img))
      else if negb (str_eqb (sq_method request) (js "POST")) then aret (jsonError "not_found" 404)
      else
        let* encoded := await (sq_text request) in
        match boundedJson encoded 65536 with
        | None => aret (jsonError "invalid_request" 400)
        | Some body =>
            let* nowMs := read_store so_now in
            if negb (keyCanSignAt key nowMs) then aret (jsonError "signing_key_inactive" 409)
            else
              let* loaded := outcome_of (loadSigner configuration) in
              match loaded with
              | None => aret (jsonError "signing_key_unavailable" 503)
              | Some signer => respond configuration request body nowMs signer
              end
        end
  end.

(** ** The worker *)

(** [decodeURIComponent]: runs of escapes are UTF-8; anything else throws. *)
Definition flush_escapes (bytes : list N) : option jsstr := flat_map utf16_units <$> utf8_scalars bytes.
Fixpoint decode_escapes (s : jsstr) (pending : list N) : option jsstr :=
  match s with
  | [] => flush_escapes pending
  | c :: rest =>
      if (c =? 37)%N then
        match rest with
        | a :: b :: rest' =>
            x ← hex_value a; y ← hex_value b; decode_escapes rest' (pending ++ [(x * 16 + y)%N])
        | _ => None
        end
      else prefix ← flush_escapes pending; tail ← decode_escapes rest []; Some (prefix ++ c :: tail)
  end.
Definition decodeURIComponent (s : jsstr) : throws jsstr :=
  match decode_escapes s [] with Some t => inr t | None => inl (js "URI malformed") end.

Definition internalRequest (request : SignerRequest) (pathname : jsstr) : SignerRequest :=
  mkSignerRequest (sq_method request) pathname (Some (js "verification-key-signer")) None (sq_purpose request)
    (if str_eqb (sq_method request) (js "GET") then inr [] else sq_text request).

Definition fetch (env : VerificationKeySignerEnv) (request : SignerRequest) : async SignerObject SignerResponse :=
  if str_eqb (sq_method request) (js "GET") && str_eqb (sq_pathname request) (js "/health") then aret (jsonResponse sb_health)
  else match parseConfiguration env with
  | None => aret (jsonError "invalid_signer_configuration" 503)
  | Some configuration =>
      let key := sc_key configuration in
      match strip_prefix (js "/v1/key-history/") (sq_pathname request) with
      | Some encodedKeyId =>
          let* historyKeyId := of_throws (decodeURIComponent encodedKeyId) in
          if negb (authorized request (SIGNER_ADMIN_TOKEN env)) then aret (jsonError "unauthorized" 401)
          else if negb (str_eqb historyKeyId (kr_keyId key)) then aret (jsonError "unknown_key" 404)
          else object_fetch env (internalRequest request (js "/key-history"))
      | None =>
          if negb (str_eqb (sq_method request) (js "POST")) ||
             (negb (str_eqb (sq_pathname request) (js "/v1/sign")) && negb (str_eqb (sq_pathname request) (js "/v1/key-bound-sign")))
          then aret (jsonError "not_found" 404)
          else if negb (authorized request (SIGNER_CALLER_TOKEN env)) then aret (jsonError "unauthorized" 401)
          else if negb (bool_decide (sq_purpose request = Some (kr_purpose key))) then aret (jsonError "signing_binding_mismatch" 403)
          else object_fetch env (internalRequest request
                 (if str_eqb (sq_pathname request) (js "/v1/sign") then js "/sign" else js "/key-bound-sign"))
      end
  end.
End Object.
End Signer.
