(* ===== verification/KeySignerFacts.v ===== *)
(** * What the signer service releases

    Under the configuration of a deployment, and whatever the interleaving of its
    requests: once the store is in step with the configuration the slot of the key
    does not change any more, and every statement that is released verifies against
    what the store then holds. *)
From Stdlib Require Import ZifyBool.
From S2P Require Import Prelude Json Utf8 Async IndexedDb CryptoBackend KeyLifecycle KeyLifecycleFacts KeyLedger KeyLedgerFacts KeyStores KeyStoreFacts KeySigner.
Set Default Goal Selector "!".
Import Keys Ledger Signer.

(** What WebCrypto promises of Ed25519: signatures have 64 bytes, and a private
    key with one signature that a public key accepts belongs to it. *)
Class SigningLaws (subtle : SubtleCrypto) := {
  signature_bytes : forall privateKey message signature,
    sc_sign subtle privateKey message = inr signature -> bytes_of 64 signature;
  matched_keys : forall publicBytes key privateKey message signature, bytes_of 32 publicBytes ->
    sc_importRaw subtle publicBytes = inr key -> sc_sign subtle privateKey message = inr signature ->
    sc_verify subtle key signature message = inr true -> key_pair subtle publicBytes privateKey;
}.

Lemma hex_bytes_of value n bytes : lowerHexToBytes value n = Some bytes -> bytes_of n bytes.
Proof.
  unfold lowerHexToBytes. destruct (negb _); [done|]. intros [= <-]. split; [by rewrite length_map, length_seq|].
  apply Forall_forall. intros b (i & -> & _)%list_elem_of_fmap. apply N.mod_lt. lia.
Qed.
Lemma signer_verifies subtle publicKey publicBytes privateKey text s :
  lowerHexToBytes publicKey 32 = Some publicBytes -> key_pair subtle publicBytes privateKey ->
  as_signDigest (signerFor subtle publicKey privateKey) text = inr s -> verify subtle publicKey text s = inr true.
Proof.
  intros Ep (_ & key & Ek & Hk) Hs. cbn [as_signDigest signerFor] in Hs.
  destruct (sc_sign subtle privateKey _) as [|sb] eqn:E; cbn [throw_bind] in Hs; [done|].
  injection Hs as <-. apply Hk in E as [[Ls Bs] Ev]. unfold verify. rewrite Ep.
  pose proof (hex_codec_exact sb Bs) as Xs. rewrite Ls in Xs. rewrite Xs, Ek. cbn [throw_bind]. by rewrite Ev.
Qed.
(** A signer that was loaded signs what its public key verifies. *)
Lemma imported_signer_verifies subtle `{SigningLaws subtle} seedHex publicKey material signer :
  importLegacySeed subtle seedHex publicKey = inr (material, signer) ->
  as_publicKey signer = publicKey /\
  forall text s, as_signDigest signer text = inr s -> verify subtle publicKey text s = inr true.
Proof.
  unfold importLegacySeed. intros E. destruct (lowerHexToBytes seedHex 32) as [seed|]; [|done].
  destruct (lowerHexToBytes publicKey 32) as [publicBytes|] eqn:Ep; [|done].
  destruct (sc_importJwk subtle _ _) as [|privateKey]; cbn [throw_bind] in E; [done|].
  destruct (restoreSigningKey subtle _) as [|signer'] eqn:Er; cbn [throw_bind] in E; [done|]. injection E as _ <-.
  unfold restoreSigningKey, throw_if in Er. destruct (_ || _); [done|]. cbv zeta in Er.
  cbn [signingMaterial m_publicKey m_privateKey] in Er.
  destruct (as_signDigest _ challenge) as [|sig] eqn:Es; cbn [throw_bind] in Er; [done|].
  destruct (verify subtle _ challenge sig) as [|b] eqn:Ev; cbn [throw_bind] in Er; [done|]. destruct b; [|done].
  injection Er as <-. split; [done|]. intros text s. apply (signer_verifies subtle publicKey publicBytes privateKey text s Ep).
  cbn [as_signDigest signerFor as_publicKey] in Es, Ev. destruct (sc_sign subtle privateKey _) as [|sb] eqn:Esg; [done|].
  cbn [throw_bind] in Es. injection Es as <-. unfold verify in Ev. rewrite Ep in Ev.
  destruct (lowerHexToBytes (bytesToLowerHex sb) 64) as [sb'|] eqn:Eb; [|done].
  destruct (sc_importRaw subtle publicBytes) as [|key] eqn:Ek; cbn [throw_bind] in Ev; [done|].
  destruct (sc_verify subtle key sb' (utf8_encode challenge)) as [|b] eqn:Evb; [done|]. injection Ev as ->.
  pose proof (signature_bytes _ _ _ Esg) as [Ls Bs]. pose proof (hex_codec_exact sb Bs) as Xs. rewrite Ls, Eb in Xs. injection Xs as ->.
  by eapply matched_keys; [apply (hex_bytes_of publicKey)|..].
Qed.

Definition with_revocation (r : option Z) (key : VerificationKeyRecord) : VerificationKeyRecord :=
  mkKeyRecord (kr_version key) (kr_keyId key) (kr_keyVersion key) (kr_subjectId key) (kr_purpose key) (kr_scopeId key)
    (kr_scheme key) (kr_publicKey key) (kr_validFromMs key) (kr_validUntilMs key) r.
Lemma same_key_revoked left right : sameKeyExceptRevocation left right = true -> with_revocation (kr_revokedAtMs right) left = right.
Proof.
  unfold sameKeyExceptRevocation. intros H. bool_split. rewrite !str_eqb_eq in *. destruct left, right. unfold with_revocation.
  cbn in *. congruence.
Qed.

(** ** The slot of the configuration *)

Section Signer.
Context `{JsHost} (subtle : SubtleCrypto) `{Laws : SubtleLaws subtle} `{SLaws : SigningLaws subtle}.
Context (env : VerificationKeySignerEnv) (configuration : SignerConfiguration).
Hypothesis Hcfg : parseConfiguration env = Some configuration.
Let key := sc_key configuration.
Let k := kr_keyId key.

Definition slot_image (w : SignerObject) : VerificationKeyLifecycleImage := Sql.image k (so_tables w).
Definition slot_revision_of (t : Sql.KeyTables) : Z := zlength (im_events (Sql.image k t)).
Definition imported : throws AsyncAuditSigner :=
  let! generated := importLegacySeed subtle (sc_seedHex configuration) (kr_publicKey key) in inr (snd generated).

(** The store holds the key of the configuration, at its revision. *)
Definition in_step (t : Sql.KeyTables) : Prop :=
  key ∈ im_records (Sql.image k t) /\ slot_revision_of t = sc_lifecycleRevision configuration.
(** Nobody goes past the revision of the configuration. *)
Definition tables_evolve (t t' : Sql.KeyTables) : Prop :=
  ledger_evolves t t' /\ (slot_revision_of t = sc_lifecycleRevision configuration -> Sql.image k t' = Sql.image k t).
Definition signer_ok (w : SignerObject) : Prop :=
  ledger_ok (so_tables w) /\ forall s, so_signer w = Some s -> s = imported.
Definition signer_evolves (w w' : SignerObject) : Prop := tables_evolve (so_tables w) (so_tables w').

#[export] Instance tables_evolve_preorder : PreOrder tables_evolve.
Proof.
  split; [intros t; split; [reflexivity|done]|]. intros t1 t2 t3 [E1 S1] [E2 S2]. split; [by etrans|].
  intros Hr. specialize (S1 Hr). rewrite S2; [done|]. unfold slot_revision_of in *. by rewrite S1.
Qed.
#[export] Instance signer_evolves_preorder : PreOrder signer_evolves.
Proof. split; [intros w; unfold signer_evolves; reflexivity|]. intros w1 w2 w3. unfold signer_evolves. apply transitivity. Qed.
Lemma in_step_later t t' : tables_evolve t t' -> in_step t -> in_step t'.
Proof. intros [_ Hs] [Hin Hr]. unfold in_step, slot_revision_of in *. rewrite (Hs Hr). done. Qed.

(** A command of this deployment leads to the revision of the configuration. *)
Definition commit_result (command : UnsignedVerificationKeyLifecycleCommand) (t0 : Sql.KeyTables)
    (r : VerificationKeyLifecycleMutationResult) (t : Sql.KeyTables) : Prop :=
  match r with
  | Err _ => True
  | Ok _ => slot_revision_of t = sc_lifecycleRevision configuration /\
      exists next ev, planVerificationKeyLifecycleMutation (Sql.image k t0) command = Ok (next, ev) /\
        im_records (Sql.image k t) = next
  end.
Lemma commit_here command t digest t0 t' r :
  ledger_ok t -> is_hex 64 digest = true -> commandKeyId command = k ->
  command_expectedRevision command = sc_lifecycleRevision configuration - 1 -> slot_revision_of t0 = sc_lifecycleRevision configuration - 1 ->
  tables_evolve t0 t -> commit_body command digest t = (t', inr r) ->
  ledger_ok t' /\ tables_evolve t t' /\ commit_result command t0 r t'.
Proof.
  intros Hok Hd Ek Hx H0 [He _] Hb. pose proof (commit_body_ok _ _ _ _ _ Hok Hd Hb) as (Hok' & Hev & _).
  pose proof (commit_body_result _ _ _ _ _ Hok Hd Hb) as Hr. destruct r as [revision|e].
  2: { subst t'. split_and!; [done|reflexivity|done]. }
  destruct Hr as (next & ev & Ep & -> & _ & Esame & _). rewrite Ek in Ep, Esame. cbn [store_image Sql.sql_lifecycle_store] in Ep, Esame.
  pose proof (proj2 Hok k) as S. cbn [store_image Sql.sql_lifecycle_store] in S.
  pose proof (plan_ok _ _ _ _ _ S Ek Ep) as (_ & Hxt & _). rewrite Hx in Hxt.
  assert (Eimg : Sql.image k t = Sql.image k t0).
  { pose proof (ie_same _ _ (He k)) as Hs. cbn [store_image Sql.sql_lifecycle_store] in Hs. apply Hs. unfold slot_revision_of in H0. lia. }
  split_and!; [done| |].
  - split; [done|]. unfold slot_revision_of. lia.
  - split.
    + unfold slot_revision_of. rewrite Esame. cbn [with_event im_events]. unfold zlength in *. rewrite length_app. cbn [length]. lia.
    + exists next, ev. rewrite <- Eimg, Esame. done.
Qed.
Lemma commit_pinned command hash t :
  ledger_ok t -> commandKeyId command = k -> command_expectedRevision command = sc_lifecycleRevision configuration - 1 ->
  slot_revision_of t = sc_lifecycleRevision configuration - 1 ->
  spec ledger_ok tables_evolve (Sql.commit command hash) t (on_return (commit_result command t)).
Proof.
  intros Hok Ek Hx H0. unfold Sql.commit. apply spec_read_bind.
  destruct (planVerificationKeyLifecycleMutation _ _) as [[records e]|r]; [|apply spec_ret; [exact _|done|exact I]].
  apply spec_await_bind; [exact _|done|]. intros t1 Hok1 He. destruct (hash _) as [err|digest]; [exact I|].
  destruct (is_hex 64 digest) eqn:Eh; cbn [negb]; [|apply spec_ret; [exact _|done|exact I]].
  unfold spec, Sql.transactionSync. destruct (committed (commit_body command digest) t1) as [t2 [err|r]] eqn:E; cbn.
  - apply committed_throws in E as ->. split_and!; [done|reflexivity|done].
  - apply (proj1 (committed_ok _ _ _ _)) in E. destruct (commit_here command t1 digest t t2 r) as (H1 & H2 & H3); [done..|].
    by split_and!.
Qed.

Abbreviation sspec := (spec signer_ok signer_evolves).
Lemma tables_spec {A} (m : async Sql.KeyTables A) w (Q : throws A -> Sql.KeyTables -> Prop) :
  signer_ok w -> spec ledger_ok tables_evolve m (so_tables w) Q ->
  sspec (zoom so_tables set_tables m) w (fun r w' => Q r (so_tables w')).
Proof.
  intros Hw Hm. apply (zoom_spec so_tables set_tables ledger_ok tables_evolve); [done|by intros w' []|done| |done|done].
  intros t w' [_ Hs] Ht He. by split; [split|].
Qed.
Lemma committed_at_spec command w : signer_ok w -> (forall now, commandKeyId (command now) = k) ->
  (forall now, command_expectedRevision (command now) = sc_lifecycleRevision configuration - 1) ->
  slot_revision_of (so_tables w) = sc_lifecycleRevision configuration - 1 ->
  (forall now next ev, planVerificationKeyLifecycleMutation (slot_image w) (command now) = Ok (next, ev) -> key ∈ next) ->
  sspec (committed_at subtle command) w (on_return (fun b w' => b = true -> in_step (so_tables w'))).
Proof.
  intros Hw Ek Hx H0 Hin. unfold committed_at. apply spec_read_bind.
  eapply spec_bind; [exact _|apply tables_spec; [done|apply (commit_pinned (command (so_now w)) (hashString subtle) (so_tables w) (proj1 Hw)); auto]| |done].
  intros r w' Hw' _ Hr. apply spec_ret; [exact _|done|]. intros Hb. destruct r as [revision|]; [|done].
  destruct Hr as (Hrev & next & ev & Hp & Hnext). split; [|done]. rewrite Hnext. by eapply Hin.
Qed.

Lemma synchronize_spec w : signer_ok w ->
  sspec (synchronizeConfiguredKey subtle configuration) w (on_return (fun b w' => b = true -> in_step (so_tables w'))).
Proof.
  intros Hw. unfold synchronizeConfiguredKey. apply spec_read_bind. fold key k. pose proof (proj2 (proj1 Hw) k) as S.
  cbn [store_image Sql.sql_lifecycle_store] in S. rewrite (KeyLedgerFacts.slot_revision S).
  assert (Hret : forall b, (b = true -> in_step (so_tables w)) -> sspec (aret b) w (on_return (fun b w' => b = true -> in_step (so_tables w')))).
  { intros b Hb. by apply spec_ret; [exact _|..]. }
  destruct (last (im_records (Sql.image k (so_tables w)))) as [current|] eqn:El.
  - pose proof (last_Some_elem_of _ _ El) as Hcur.
    assert (Hks : forall r, r ∈ im_records (Sql.image k (so_tables w)) -> kr_keyId r = k).
    { intros r Hr. pose proof (ss_record_keys _ _ S) as Hk. rewrite Forall_forall in Hk. by apply Hk. }
    destruct (_ && _) eqn:Er.
    + apply committed_at_spec; [done|intros; by apply Hks|intros; cbn [command_expectedRevision]; lia|unfold slot_revision_of; lia|].
      intros now next ev Hp. pose proof (plan_ok k (slot_image w) (kc_rotate _ _ _ _ _ _) next ev S (Hks _ Hcur) Hp) as (_ & _ & _ & v & [_ (p & _ & -> & _)] & _).
      apply elem_of_app. right. by left.
    + destruct (List.find _ _) as [exact|] eqn:Ef; [|by apply Hret]. apply List.find_some in Ef as [Hin Ev].
      apply list_elem_of_In in Hin. destruct (sameKeyExceptRevocation exact key) eqn:Esame; cbn [negb]; [|by apply Hret].
      pose proof (same_key_revoked _ _ Esame) as Eexact.
      assert (Hplain : forall b, b = bool_decide (kr_revokedAtMs exact = kr_revokedAtMs key) &&
        (sc_lifecycleRevision configuration =? zlength (im_events (Sql.image k (so_tables w)))) -> b = true -> in_step (so_tables w)).
      { intros b -> Hb. bool_split. split; [|unfold slot_revision_of; lia]. rewrite <- Eexact.
        match goal with F : kr_revokedAtMs exact = _ |- _ => rewrite <- F end. by destruct exact. }
      destruct (kr_revokedAtMs exact) as [t|] eqn:E1; [by apply Hret, Hplain|].
      destruct (kr_revokedAtMs key) as [t|] eqn:E2; [|by apply Hret, Hplain].
      destruct (sc_lifecycleRevision configuration =? _) eqn:Erev; [|by apply Hret].
      apply committed_at_spec; [done|intros; by apply Hks|intros; cbn [command_expectedRevision]; lia|unfold slot_revision_of; lia|].
      intros now next ev Hp. pose proof (plan_ok k (slot_image w) (kc_revoke _ _ _ _ _) next ev S (Hks _ Hin) Hp) as (_ & _ & _ & v & [_ (p & _ & _ & _ & _ & _ & ->)] & _).
      apply at_version_member. exists exact. split; [done|]. rewrite Z.eqb_refl. symmetry. exact Eexact.
  - destruct (_ || _) eqn:Er; [by apply Hret|]. apply orb_false_iff in Er as [Er1 Er2]. apply negb_false_iff in Er1, Er2.
    apply last_None in El. assert (Ez : zlength (im_events (Sql.image k (so_tables w))) = 0).
    { pose proof (events_bound _ _ S) as Hb. unfold zlength in *. rewrite El in Hb. cbn [length] in Hb. lia. }
    apply committed_at_spec; [done|done|intros; cbn [command_expectedRevision]; lia|unfold slot_revision_of; lia|].
    intros now next ev Hp. pose proof (plan_ok k (slot_image w) (kc_provision _ _ _) next ev S eq_refl Hp) as (_ & _ & _ & v & [_ (_ & _ & -> & _)] & _). by left.
Qed.

(** ** Requests *)

(** The body of a request, as it is read. *)
Definition body_is (request : SignerRequest) (body : jsval) : Prop :=
  exists encoded, sq_text request = inr encoded /\ boundedJson encoded 65536 = Some body.
(** What is released with a response, to whom, and for which body. *)
Definition released (request : SignerRequest) (response : SignerResponse) (w : SignerObject) : Prop :=
  match sr_body response with
  | sb_authentication a =>
      in_step (so_tables w) /\ exists body nowMs signer unitId statementDigest, body_is request body /\
        field body "unit_id" = JStr unitId /\ field body "statement_digest" = JStr statementDigest /\
        imported = inr signer /\ sign_key_bound subtle key unitId statementDigest nowMs signer = inr a
  | sb_signature scheme signature keyId keyVersion publicKey issuedAtMs =>
      in_step (so_tables w) /\ exists body digest, body_is request body /\ field body "digest" = JStr digest /\
        keyId = kr_keyId key /\ keyVersion = kr_keyVersion key /\ publicKey = kr_publicKey key /\
        verify subtle (kr_publicKey key) digest signature = inr true
  | _ => True
  end.
Lemma released_later request response w w' : signer_evolves w w' -> released request response w -> released request response w'.
Proof.
  unfold released. intros He. destruct (sr_body response); try done; intros [Hs Hr]; (split; [by eapply in_step_later|exact Hr]).
Qed.

(** Which response a path of the object has. *)
Definition via (pathname : jsstr) (response : SignerResponse) : Prop :=
  match sr_body response with
  | sb_authentication _ => pathname = js "/key-bound-sign"
  | sb_signature _ _ _ _ _ _ => pathname = js "/sign"
  | sb_history _ => pathname = js "/key-history"
  | _ => True
  end.
Definition answered (request : SignerRequest) (response : SignerResponse) (w : SignerObject) : Prop :=
  released request response w /\ via (sq_pathname request) response.

Lemma signer_returns (response : SignerResponse) w (Q : SignerResponse -> SignerObject -> Prop) :
  signer_ok w -> Q response w -> sspec (aret response) w (on_return Q).
Proof. intros Hw HQ. by apply spec_ret; [exact _|..]. Qed.
Lemma error_answered request code status w : answered request (jsonError code status) w.
Proof. done. Qed.

Lemma load_spec w : signer_ok w ->
  sspec (outcome_of (loadSigner subtle configuration)) w (on_return (fun o _ => o = settled imported)).
Proof.
  intros [Ht Hs]. unfold outcome_of, loadSigner, await. fold key. fold imported.
  assert (Ep : default imported (so_signer w) = imported) by (destruct (so_signer w) as [s|] eqn:E; [by apply Hs|done]).
  unfold spec. cbn [step_outcome fst snd settles]. rewrite Ep. split; [|split; [unfold signer_evolves; cbn; reflexivity|]].
  - split; [done|]. by intros s [= <-].
  - intros w' Hw' _. cbn. split; [done|]. split; [reflexivity|]. by destruct imported.
Qed.

Lemma boundedString_is v n : boundedString v n = true -> exists s, v = JStr s.
Proof. destruct v; try done. eauto. Qed.
Lemma lowerHexDigest_is v : lowerHexDigest v = true -> exists s, v = JStr s.
Proof. destruct v; try done. eauto. Qed.

Lemma imported_verifies signer text s : imported = inr signer -> as_signDigest signer text = inr s ->
  as_publicKey signer = kr_publicKey key /\ verify subtle (kr_publicKey key) text s = inr true.
Proof.
  unfold imported. destruct (importLegacySeed subtle _ _) as [|[material signer']] eqn:E; cbn [throw_bind]; [done|].
  intros [= <-]. cbn [snd]. intros Hs. destruct (imported_signer_verifies _ _ _ _ _ E) as [Ep Hv]. auto.
Qed.

Lemma or_refused_spec {A} (r : throws A) refused k' w (Q : SignerResponse -> SignerObject -> Prop) :
  signer_ok w -> (forall w', signer_evolves w w' -> Q refused w') -> (forall a w', r = inr a -> signer_evolves w w' -> Q (k' a) w') ->
  sspec (or_refused r refused k') w (on_return Q).
Proof.
  intros Hw Hrf Hk. unfold or_refused. apply spec_await_bind; [exact _|done|]. intros w' Hw' He.
  destruct r as [e|a]; cbn [settled]; apply signer_returns; auto.
Qed.

Lemma respond_spec request body nowMs signer w : signer_ok w -> in_step (so_tables w) -> imported = inr signer ->
  body_is request body ->
  sspec (respond subtle configuration request body nowMs signer) w (on_return (answered request)).
Proof.
  intros Hw Hs Hi Hb. unfold respond. fold key. cbv zeta.
  destruct (str_eqb _ (js "/key-bound-sign")) eqn:Epath; [apply str_eqb_eq in Epath|].
  - destruct (keyBoundRequestMatches body key) eqn:Em; cbn [negb]; [|by apply signer_returns].
    unfold keyBoundRequestMatches in Em. apply andb_true_iff in Em as [Em Hd]. apply andb_true_iff in Em as [_ Hu].
    apply boundedString_is in Hu as [unitId Hu]. apply lowerHexDigest_is in Hd as [digest Hd]. rewrite Hu, Hd.
    apply or_refused_spec; [done|done|]. intros a w' Ha He. split; [|exact Epath]. split; [by eapply in_step_later|].
    by exists body, nowMs, signer, unitId, digest.
  - clear Epath. destruct (str_eqb _ (js "/sign")) eqn:Epath; [apply str_eqb_eq in Epath|by apply signer_returns].
    destruct (legacyRequestMatches body key) eqn:Em; cbn [negb]; [|by apply signer_returns].
    unfold legacyRequestMatches in Em. apply andb_true_iff in Em as [_ Hd]. apply lowerHexDigest_is in Hd as [digest Hd]. rewrite Hd.
    apply or_refused_spec; [done|done|]. intros s w' Hsg He. split; [|exact Epath]. split; [by eapply in_step_later|].
    exists body, digest. split_and!; try done. by eapply imported_verifies.
Qed.

Lemma object_fetch_spec request w : signer_ok w ->
  sspec (object_fetch subtle env request) w (on_return (answered request)).
Proof.
  intros Hw. unfold object_fetch. destruct (negb _); [by apply signer_returns|]. rewrite Hcfg. cbv zeta. fold key k.
  eapply spec_bind; [exact _|by apply synchronize_spec| |done]. intros synchronized w1 Hw1 _ Hsync. cbn [on_return] in Hsync.
  destruct synchronized; cbn [negb]; [|by apply signer_returns]. specialize (Hsync eq_refl).
  destruct (_ && _) eqn:Eget.
  { apply andb_true_iff in Eget as [_ Epath]. apply str_eqb_eq in Epath. apply spec_read_bind. by apply signer_returns. }
  destruct (negb (str_eqb _ _)); [by apply signer_returns|].
  apply spec_await_bind; [exact _|done|]. intros w2 Hw2 He2. destruct (sq_text request) as [e|encoded] eqn:Et; [done|].
  destruct (boundedJson encoded 65536) as [body|] eqn:Eb; [|by apply signer_returns]. apply spec_read_bind.
  destruct (negb (keyCanSignAt _ _)); [by apply signer_returns|].
  eapply spec_bind; [exact _|by apply load_spec| |done]. intros loaded w3 Hw3 He3 Hl. cbn [on_return] in Hl. subst loaded.
  destruct imported as [e|signer] eqn:Ei; cbn [settled]; [by apply signer_returns|].
  apply respond_spec; [done| |done|by exists encoded]. eapply in_step_later; [exact He3|]. by eapply in_step_later.
Qed.

(** Who may have a statement signed. *)
Definition released_to (request : SignerRequest) (response : SignerResponse) (w : SignerObject) : Prop :=
  released request response w /\
  match sr_body response with
  | sb_authentication _ | sb_signature _ _ _ _ _ _ =>
      authorized request (SIGNER_CALLER_TOKEN env) = true /\ sq_purpose request = Some (kr_purpose key)
  | sb_history _ => authorized request (SIGNER_ADMIN_TOKEN env) = true
  | _ => True
  end.
Lemma released_to_later request response w w' : signer_evolves w w' -> released_to request response w -> released_to request response w'.
Proof. intros He [Hr Ha]. split; [by eapply released_later|done]. Qed.

Lemma object_spec request pathname w : signer_ok w -> sq_method request <> js "GET" \/ pathname = js "/key-history" ->
  (pathname = js "/key-history" -> authorized request (SIGNER_ADMIN_TOKEN env) = true) ->
  (pathname <> js "/key-history" -> authorized request (SIGNER_CALLER_TOKEN env) = true /\ sq_purpose request = Some (kr_purpose key)) ->
  sspec (object_fetch subtle env (internalRequest request pathname)) w (on_return (released_to request)).
Proof.
  intros Hw Hm Hadmin Hcaller. eapply spec_weaken; [exact _|by apply object_fetch_spec|].
  intros [e|response] w' _ _ Ha; [done|]. destruct Ha as [Hr Hv]. cbn [on_return]. unfold via in Hv. cbn [internalRequest sq_pathname] in Hv.
  unfold released_to, released in *. destruct response as [status [code| |img|a|scheme sig kid kv pk at_]]; cbn [sr_body] in *; try done.
  - split; [done|auto].
  - assert (Hne : pathname <> js "/key-history") by (by rewrite Hv). destruct Hm as [Hm|]; [|done]. split; [|auto].
    unfold body_is in *. cbn [internalRequest sq_text] in Hr. apply str_eqb_neq in Hm. by rewrite Hm in Hr.
  - assert (Hne : pathname <> js "/key-history") by (by rewrite Hv). destruct Hm as [Hm|]; [|done]. split; [|auto].
    unfold body_is in *. cbn [internalRequest sq_text] in Hr. apply str_eqb_neq in Hm. by rewrite Hm in Hr.
Qed.

Lemma fetch_spec request w : signer_ok w -> sspec (fetch subtle env request) w (on_return (released_to request)).
Proof.
  intros Hw. unfold fetch. destruct (_ && _); [by apply signer_returns|]. rewrite Hcfg. cbv zeta. fold key.
  destruct (strip_prefix _ _) as [encodedKeyId|].
  - destruct (decodeURIComponent encodedKeyId) as [e|historyKeyId]; [by apply spec_throw; [exact _|..]|].
    apply (spec_read_bind _ _ (fun _ => historyKeyId)).
    destruct (authorized request (SIGNER_ADMIN_TOKEN env)) eqn:Ea; cbn [negb]; [|by apply signer_returns].
    destruct (negb (str_eqb _ _)); [by apply signer_returns|]. apply object_spec; [done|by right|done|done].
  - destruct (_ || _) eqn:Em; [by apply signer_returns|]. apply orb_false_iff in Em as [Em _].
    apply negb_false_iff, str_eqb_eq in Em.
    destruct (authorized request (SIGNER_CALLER_TOKEN env)) eqn:Ea; cbn [negb]; [|by apply signer_returns].
    destruct (bool_decide (sq_purpose request = _)) eqn:Ep; cbn [negb]; [|by apply signer_returns]. apply bool_decide_eq_true in Ep.
    apply object_spec; [done|left; by rewrite Em| |done]. by destruct (str_eqb _ (js "/v1/sign")).
Qed.
End Signer.

(** Time passes in any way, and the object is evicted and started again. *)
Definition signer_turn (w w' : SignerObject) : Prop :=
  so_tables w' = so_tables w /\ (so_signer w' = so_signer w \/ so_signer w' = None).

(** How a statement is verified: with the standard backend. *)
Definition standard_verifiers (subtle : SubtleCrypto) : AsyncKeyLifecycleVerifierRegistry := fun scheme =>
  if str_eqb scheme (js "ed25519-v1") then Some (fun publicKey digest signature => settled (verify subtle publicKey digest signature)) else None.

Lemma configured_key env configuration : parseConfiguration env = Some configuration ->
  kr_scheme (sc_key configuration) = js "ed25519-v1".
Proof.
  unfold parseConfiguration. intros E. cbv zeta in E. destruct (_ && _); [done|].
  repeat match type of E with (?o ≫= _) = _ => destruct o; cbn [mbind option_bind] in E; [|done] end.
  destruct (_ || _); [done|].
  repeat match type of E with (?o ≫= _) = _ => destruct o; cbn [mbind option_bind] in E; [|done] end.
  destruct (negb _); [done|]. by injection E as <-.
Qed.

(** A statement signed by the object verifies against any history with its key. *)
Lemma signed_verifies `{JsHost} subtle `{SigningLaws subtle} configuration records h signer unitId statementDigest signedMs a nowMs :
  kr_scheme (sc_key configuration) = js "ed25519-v1" ->
  compileVerificationKeyHistory records = Ok h -> sc_key configuration ∈ records ->
  imported subtle configuration = inr signer ->
  sign_key_bound subtle (sc_key configuration) unitId statementDigest signedMs signer = inr a ->
  safeNonNegativeInteger nowMs = true -> ks_issuedAtMs (ka_statement a) <= nowMs ->
  let key := sc_key configuration in
  verifyKeyBoundStatementAsync (authentication_value a)
    (mkContext (kr_purpose key) (kr_scopeId key) unitId (kr_subjectId key) statementDigest nowMs 0 (Some h))
    (fun text => settled (hashString subtle text)) (standard_verifiers subtle) = Some (Ok (kr_keyId key, kr_keyVersion key)).
Proof.
  intros Hscheme Hc Hin Hi Hs Hn Hissued key. subst key.
  assert (Hbase : standard_verifiers subtle (kr_scheme (sc_key configuration)) =
    Some (fun publicKey digest signature => settled (verify subtle publicKey digest signature))) by (unfold standard_verifiers; by rewrite Hscheme).
  unfold sign_key_bound, signKeyBoundStatementAsync in Hs. cbn [akg_scheme akg_publicKey akg_signDigest] in Hs.
  destruct (prepareUnsignedKeyBoundStatement _ _ _ _ _ _) as [e|s] eqn:Ep; [done|].
  destruct (settled (hashString subtle _)) as [text|] eqn:Eh; cbn [mbind option_bind] in Hs; [|done].
  destruct (settled (as_signDigest signer text)) as [signature|] eqn:Esg; cbn [mbind option_bind] in Hs; [|done].
  unfold throw_if in Hs. destruct (boundedText signature 16384) eqn:Ebt; [|done]. cbn [negb] in Hs. injection Hs as <-.
  pose proof Ep as (_ & _ & _ & _ & _ & _ & Es)%prepare_ok.
  assert (Hv : verify subtle (kr_publicKey (sc_key configuration)) text signature = inr true).
  { destruct (as_signDigest signer text) as [|sg] eqn:E; [done|]. injection Esg as ->. by eapply imported_verifies. }
  unfold verifyKeyBoundStatementAsync.
  rewrite (prepared_preflight records h (sc_key configuration) unitId statementDigest signedMs (js "ed25519-v1") (as_publicKey signer) s signature nowMs 0); try done.
  - cbn [ka_statement ka_signature]. rewrite Eh. cbn [mbind option_bind]. rewrite Es. cbn [ks_scheme ks_keyId ks_keyVersion].
    rewrite Hbase, Hv. done.
  - apply bool_decide_eq_true. by rewrite Hbase.
  - rewrite Es in Hissued. cbn in Hissued. unfold safeNonNegativeInteger in Hn. apply andb_true_iff in Hn as [Hn%isSafeInteger_spec _]. lia.
Qed.

(** C13: a statement the signer service releases was asked for by a caller with
    the token, for the purpose of the configured key and the unit and digest of the
    request; and it verifies, from its time of issuance on, against the history that
    the lifecycle store holds, in which the key of the statement is the one of the
    configuration.  This holds for any number of requests, in any interleaving,
    while the clock changes in any way and the object is started again. *)
Theorem released_statements_verify `{JsHost} subtle `{SigningLaws subtle} env configuration w0 p request a status :
  parseConfiguration env = Some configuration -> ledger_ok (so_tables w0) -> so_signer w0 = None ->
  rtc (pool_step (Signer.fetch subtle env) signer_turn) (mkPool w0 []) p ->
  (request, Finished (inr (mkSignerResponse status (sb_authentication a)))) ∈ threads p ->
  let key := sc_key configuration in
  authorized request (SIGNER_CALLER_TOKEN env) = true /\ sq_purpose request = Some (kr_purpose key) /\
  exists h unitId statementDigest body,
    body_is request body /\ field body "unit_id" = JStr unitId /\ field body "statement_digest" = JStr statementDigest /\
    compileVerificationKeyHistory (im_records (Sql.image (kr_keyId key) (so_tables (Async.store p)))) = Ok h /\
    forall nowMs, safeNonNegativeInteger nowMs = true -> ks_issuedAtMs (ka_statement a) <= nowMs ->
      verifyKeyBoundStatementAsync (authentication_value a)
        (mkContext (kr_purpose key) (kr_scopeId key) unitId (kr_subjectId key) statementDigest nowMs 0 (Some h))
        (fun text => settled (hashString subtle text)) (standard_verifiers subtle) = Some (Ok (kr_keyId key, kr_keyVersion key)).
Proof.
  intros Hcfg Hok Hs0 Hrun Hin key.
  destruct (pool_sound (Signer.fetch subtle env) signer_turn (signer_ok subtle configuration) (signer_evolves configuration)
    (fun req => on_return (released_to subtle env configuration req)))
    with (p := mkPool w0 ([] : list (SignerRequest * step SignerObject SignerResponse))) (p' := p) as [Hp _].
  - intros w w' [Hl Hi] [Et Es]. split; [split; [by rewrite Et|]|unfold signer_evolves; by rewrite Et].
    intros s E. destruct Es as [Es|Es]; rewrite Es in E; [by apply Hi|done].
  - intros req w Hw. by apply fetch_spec.
  - intros req [e|resp] w w' _ He; [done|]. by apply released_to_later.
  - split; [|constructor]. split; [done|]. cbn. by rewrite Hs0.
  - exact Hrun.
  - pose proof (pool_answer _ _ _ _ _ _ Hp Hin) as Ha. cbn [on_return] in Ha. destruct Ha as [Hr [Hau Hpu]]. cbn in Hr.
    destruct Hr as ([Hk _] & body & nowMs & signer & unitId & statementDigest & Hb & Hu & Hd & Hi & Hsg).
    split_and!; [done|done|]. destruct Hp as [[Htab _] _]. pose proof (proj2 Htab (kr_keyId key)) as S.
    cbn [store_image Sql.sql_lifecycle_store] in S. destruct (ss_history _ _ S) as [E|Hh]; [fold key in Hk; rewrite E in Hk; by apply elem_of_nil in Hk|].
    destruct (compileVerificationKeyHistory (im_records (Sql.image (kr_keyId key) (so_tables (Async.store p))))) as [h|r] eqn:Ec.
    + exists h, unitId, statementDigest, body. split_and!; try done. intros now Hn Hi'.
      by apply (signed_verifies subtle configuration _ h signer unitId statementDigest nowMs a now (configured_key _ _ Hcfg) Ec Hk Hi Hsg Hn).
    + exfalso. apply validate_exact in Hh. unfold compileVerificationKeyHistory in Ec. by destruct (validateVerificationKeyHistory _).
Qed.

(** ** A concrete service *)

Definition plain_hash (text : list N) : list N :=
  let h := foldl (fun h b => (h * 31 + b) mod 4294967291)%N 7%N text in map (fun i => (h / (N.of_nat i + 1)) mod 256)%N (seq 0 32).
(** A key signs with itself and the hash of the message. *)
Definition plain_subtle : SubtleCrypto :=
  mkSubtle (list N) (fun _ => js "private") (fun _ => false) (fun _ => js "Ed25519") (fun _ => [js "sign"])
    (fun text => inr (plain_hash text)) (fun bytes => inr bytes) (fun _ _ => inr (replicate 32 7%N))
    (fun key s text => inr (bool_decide (s = key ++ plain_hash text)))
    (fun key text => if bool_decide (length key = 32%nat) && forallb (fun b => b <? 256)%N key then inr (key ++ plain_hash text) else inl (js "bad key"))
    (inr ([], [])) (fun key => inr key).
Lemma plain_hash_bytes text : bytes_of 32 (plain_hash text).
Proof.
  split; [unfold plain_hash; by rewrite length_map, length_seq|].
  apply Forall_forall. intros b (i & -> & _)%list_elem_of_fmap. apply N.mod_lt. lia.
Qed.
Lemma plain_signature key text s : sc_sign plain_subtle key text = inr s -> bytes_of 32 key /\ s = key ++ plain_hash text.
Proof.
  cbn. destruct (_ && _) eqn:E; [|done]. intros [= <-]. apply andb_true_iff in E as [El Eb].
  apply bool_decide_eq_true in El. split; [|done]. split; [done|]. apply Forall_forall. intros b Hb.
  rewrite forallb_forall in Eb. apply N.ltb_lt, Eb. by apply list_elem_of_In.
Qed.
#[export] Instance plain_signing_laws : SigningLaws plain_subtle.
Proof.
  assert (Hlen : forall key text s, sc_sign plain_subtle key text = inr s -> bytes_of 64 s).
  { intros key text s ([Lk Bk] & ->)%plain_signature. destruct (plain_hash_bytes text) as [Lh Bh].
    split; [rewrite length_app; lia|by apply Forall_app]. }
  split; [exact Hlen|]. intros publicBytes key privateKey message signature [Lp Bp] Ei Hs Hv. injection Ei as <-.
  cbn in Hv. injection Hv as Hv. apply bool_decide_eq_true in Hv. pose proof (plain_signature _ _ _ Hs) as [[Lk Bk] Es].
  rewrite Es in Hv. apply app_inj_1 in Hv as [-> _]; [|lia]. split; [done|]. exists publicBytes. split; [done|].
  intros m s Hm. split; [by eapply Hlen|]. apply plain_signature in Hm as [_ ->]. cbn. by rewrite bool_decide_eq_true_2.
Qed.

Definition toy_token : jsstr := js "caller-token-0123456789".
Definition toy_env : VerificationKeySignerEnv :=
  mkSignerEnv (Some toy_token) (Some (js "admin-token-0123456789")) (Some (replicate 64 49%N)) (Some (js "relay")) (Some (js "1"))
    (Some (js "1")) (Some (js "relay-authority")) (Some (js "resolution")) (Some (js "game/1")) (Some (js "ed25519-v1"))
    (Some (bytesToLowerHex (replicate 32 7%N))) (Some (js "1000")) (Some (js "9000")) None (Some (js "production")).
Definition toy_configuration : SignerConfiguration :=
  default (mkSignerConfiguration (toy_key 0 0 0 None) 0 []) (parseConfiguration toy_env).
Definition toy_body : jsval :=
  JObj [(js "version", JNum 1); (js "subject_id", JStr (js "relay-authority")); (js "purpose", JStr (js "resolution"));
    (js "scope_id", JStr (js "game/1")); (js "unit_id", JStr (js "unit-1")); (js "statement_digest", JStr (replicate 64 97%N))].
Definition toy_sign_request : SignerRequest :=
  mkSignerRequest (js "POST") (js "/v1/key-bound-sign") None (Some (js "Bearer " ++ toy_token)) (Some (js "resolution"))
    (inr (stringify toy_body)).
Definition toy_object : SignerObject := mkSignerObject (Sql.mkKeyTables [] []) None 1500.
Lemma empty_tables_ok : ledger_ok (Sql.mkKeyTables [] []).
Proof. split; [split; apply NoDup_nil_2|]. intros k. apply empty_sound. Qed.
Definition toy_signer_pool : pool SignerObject SignerRequest SignerResponse :=
  serve_all (Signer.fetch (H := code_unit_host) plain_subtle toy_env) [toy_sign_request; toy_sign_request] (mkPool toy_object []).
Definition toy_released : KeyBoundAuthentication :=
  match threads toy_signer_pool with
  | (_, Finished (inr (mkSignerResponse _ (sb_authentication a)))) :: _ => a
  | _ => toy_early
  end.

Lemma released_statements_verify_witness :
  exists h, compileVerificationKeyHistory (im_records (Sql.image (js "relay") (so_tables (Async.store toy_signer_pool)))) = Ok h /\
    verifyKeyBoundStatementAsync (authentication_value toy_released)
      (mkContext (js "resolution") (js "game/1") (js "unit-1") (js "relay-authority") (replicate 64 97%N) 7000 0 (Some h))
      (fun text => settled (hashString plain_subtle text)) (standard_verifiers plain_subtle) = Some (Ok (js "relay", 1)).
Proof.
  assert (Hat : threads toy_signer_pool !! 0%nat = Some (toy_sign_request, Finished (inr (mkSignerResponse 200 (sb_authentication toy_released)))))
    by (vm_compute; reflexivity).
  destruct (released_statements_verify (H := code_unit_host) plain_subtle (H0 := plain_signing_laws) toy_env toy_configuration toy_object toy_signer_pool
    toy_sign_request toy_released 200) as (_ & _ & h & unitId & statementDigest & body & (encoded & Et & Eb) & Hu & Hd & Hc & Hv).
  - vm_compute. reflexivity.
  - exact empty_tables_ok.
  - reflexivity.
  - apply serve_all_runs.
  - by eapply list_elem_of_lookup_2.
  - exists h. split; [exact Hc|]. assert (encoded = stringify toy_body) as -> by (by injection Et).
    assert (Ebody : boundedJson (H := code_unit_host) (stringify toy_body) 65536 = Some toy_body) by (vm_compute; reflexivity).
    assert (body = toy_body) as -> by congruence.
    assert (unitId = js "unit-1") as -> by (by injection Hu). assert (statementDigest = replicate 64 97%N) as -> by (by injection Hd).
    apply Hv; [reflexivity|]. vm_compute. intros [=].
Defined.
