(* ===== verification/ObjectStore.v ===== *)
(** * Object stores with structured keys

    An object store of IndexedDB holds rows in the order of their keys; [add]
    refuses a key that is there, [put] replaces.  A key is an array of numbers and
    strings, compared part by part; numbers come before strings, and strings are
    ordered by their code units.  A unique index refuses a second row with its
    key.  A handle [object_store D A] is a store of rows [A] in the database
    [D]. *)
From Stdlib Require Import ZifyBool.
From S2P Require Import Prelude IndexedDb.
Set Default Goal Selector "!".

Inductive key_part := KNum (z : Z) | KStr (s : jsstr).
Abbreviation idb_key := (list key_part).
#[export] Instance key_part_eq_dec : EqDecision key_part.
Proof. solve_decision. Defined.

Definition part_ltb (a b : key_part) : bool :=
  match a, b with
  | KNum x, KNum y => x <? y
  | KNum _, KStr _ => true
  | KStr _, KNum _ => false
  | KStr s, KStr t => negb (str_leb t s)
  end.
Fixpoint key_leb (a b : idb_key) : bool :=
  match a, b with
  | [], _ => true
  | _ :: _, [] => false
  | x :: a', y :: b' => part_ltb x y || (bool_decide (x = y) && key_leb a' b')
  end.

Record object_store (D A : Type) := mkStore {
  rows_of : D -> list A;
  set_rows : list A -> D -> D;
  key_path : A -> idb_key;
  unique_index : option (A -> idb_key);
}.
Arguments mkStore {D A}.
Arguments rows_of {D A}.
Arguments set_rows {D A}.
Arguments key_path {D A}.
Arguments unique_index {D A}.

Section Rows.
Context {A : Type} (key : A -> idb_key) (index : option (A -> idb_key)).

Definition row_at (k : idb_key) (rows : list A) : option A := List.find (fun x => bool_decide (key x = k)) rows.
(** Another row with the same key in the unique index. *)
Definition index_taken (x : A) (rows : list A) : bool :=
  match index with
  | None => false
  | Some f => existsb (fun y => bool_decide (f y = f x) && negb (bool_decide (key y = key x))) rows
  end.
Definition without (k : idb_key) (rows : list A) : list A := filter (fun x => key x <> k) rows.
Definition insert_row (x : A) (rows : list A) : list A := sort_insert (fun a b => key_leb (key a) (key b)) x rows.
Definition put_row (x : A) (rows : list A) : list A := insert_row x (without (key x) rows).

Definition keys_distinct (rows : list A) : Prop := NoDup (key <$> rows).
Definition index_distinct (rows : list A) : Prop :=
  match index with None => True | Some f => forall x y, x ∈ rows -> y ∈ rows -> f x = f y -> key x = key y end.
Definition rows_ok (rows : list A) : Prop := keys_distinct rows /\ index_distinct rows.

Lemma row_at_Some k rows x : row_at k rows = Some x -> x ∈ rows /\ key x = k.
Proof. intros [Hin Hk]%List.find_some. split; [by apply list_elem_of_In|by apply bool_decide_eq_true in Hk]. Qed.
Lemma row_at_None k rows : row_at k rows = None -> forall x, x ∈ rows -> key x <> k.
Proof.
  intros Hn x Hx Hk. pose proof (List.find_none _ _ Hn x) as Hf. rewrite list_elem_of_In in Hx.
  specialize (Hf Hx). by apply bool_decide_eq_false in Hf.
Qed.
Lemma keys_distinct_inj rows x y : keys_distinct rows -> x ∈ rows -> y ∈ rows -> key x = key y -> x = y.
Proof.
  unfold keys_distinct. intros Hnd (i & Hi)%list_elem_of_lookup (j & Hj)%list_elem_of_lookup Hk.
  assert (i = j) as ->; [|congruence]. eapply NoDup_lookup; [done| |].
  - rewrite list_lookup_fmap, Hi. done.
  - rewrite list_lookup_fmap, Hj. by rewrite Hk.
Qed.
Lemma row_at_in rows x : keys_distinct rows -> x ∈ rows -> row_at (key x) rows = Some x.
Proof.
  intros Hnd Hx. destruct (row_at (key x) rows) as [y|] eqn:E.
  - apply row_at_Some in E as [Hy Hk]. f_equal. by apply (keys_distinct_inj rows).
  - by destruct (row_at_None _ _ E x Hx).
Qed.
Lemma insert_row_perm x rows : insert_row x rows ≡ₚ x :: rows.
Proof. apply sort_insert_perm. Qed.
Lemma elem_of_without k rows x : x ∈ without k rows <-> x ∈ rows /\ key x <> k.
Proof. unfold without. rewrite list_elem_of_filter. tauto. Qed.
Lemma elem_of_insert_row x rows y : y ∈ insert_row x rows <-> y = x \/ y ∈ rows.
Proof. by rewrite insert_row_perm, elem_of_cons. Qed.
Lemma elem_of_put_row x rows y : y ∈ put_row x rows <-> y = x \/ (y ∈ rows /\ key y <> key x).
Proof. unfold put_row. by rewrite elem_of_insert_row, elem_of_without. Qed.
Lemma without_absent k rows : (forall x, x ∈ rows -> key x <> k) -> without k rows = rows.
Proof.
  intros Hk. induction rows as [|x rows IH]; [done|]. unfold without in *. rewrite filter_cons_True; [f_equal; apply IH|].
  - intros y Hy. apply Hk. by right.
  - apply Hk. by left.
Qed.
Lemma keys_distinct_without k rows : keys_distinct rows -> keys_distinct (without k rows).
Proof. unfold keys_distinct, without. intros Hnd. eapply sublist_NoDup; [exact Hnd|]. apply fmap_sublist, sublist_filter. Qed.
Lemma without_app k l1 l2 : without k (l1 ++ l2) = without k l1 ++ without k l2.
Proof. apply filter_app. Qed.
Lemma without_key x rows : without (key x) (x :: rows) = without (key x) rows.
Proof. apply filter_cons_False. tauto. Qed.
(** The row that a key replaces can be put first. *)
Lemma rows_split rows x : keys_distinct rows -> x ∈ rows -> rows ≡ₚ x :: without (key x) rows.
Proof.
  intros Hnd (l1 & l2 & ->)%list_elem_of_split. unfold keys_distinct in Hnd. rewrite fmap_app, fmap_cons in Hnd.
  apply NoDup_app in Hnd as (_ & H1 & [H2 _]%NoDup_cons). rewrite without_app, without_key, !without_absent.
  - by rewrite Permutation_middle.
  - intros y Hy E. apply H2. rewrite <- E. by apply list_elem_of_fmap_2.
  - intros y Hy E. apply (H1 (key x)); [|left]. rewrite <- E. by apply list_elem_of_fmap_2.
Qed.

Lemma rows_ok_insert x rows : rows_ok rows -> (forall y, y ∈ rows -> key y <> key x) -> index_taken x rows = false ->
  rows_ok (insert_row x rows).
Proof.
  intros [Hk Hi] Hx Ht. split.
  - unfold keys_distinct. rewrite insert_row_perm, fmap_cons. apply NoDup_cons. split; [|done].
    intros (y & E & Hy)%list_elem_of_fmap. by apply (Hx y).
  - unfold index_distinct, index_taken in *. destruct index as [f|]; [|done].
    assert (Hf : forall y, y ∈ rows -> f y <> f x).
    { intros y Hy E. rewrite <- not_true_iff_false in Ht. apply Ht, existsb_exists. exists y. rewrite <- list_elem_of_In.
      split; [done|]. rewrite bool_decide_eq_true_2 by done. by rewrite bool_decide_eq_false_2 by apply (Hx y Hy). }
    intros a b. rewrite !elem_of_insert_row. intros [->|Ha] [->|Hb] E; [done| | |by apply Hi].
    + by destruct (Hf b).
    + by destruct (Hf a).
Qed.
Lemma rows_ok_without k rows : rows_ok rows -> rows_ok (without k rows).
Proof.
  intros [Hk Hi]. split; [by apply keys_distinct_without|]. unfold index_distinct in *. destruct index as [f|]; [|done].
  intros x y Hx%elem_of_without Hy%elem_of_without. apply Hi; tauto.
Qed.
Lemma rows_ok_put x rows : rows_ok rows -> index_taken x rows = false -> rows_ok (put_row x rows).
Proof.
  intros Hok Ht. apply rows_ok_insert; [by apply rows_ok_without| |].
  - intros y Hy. by apply elem_of_without in Hy as [_ Hy].
  - unfold index_taken in *. destruct index as [f|]; [|done]. apply not_true_iff_false in Ht. apply not_true_iff_false.
    intros He. apply Ht. apply existsb_exists in He as (y & Hy & E). apply existsb_exists. exists y.
    split; [|done]. apply list_elem_of_In in Hy. apply elem_of_without in Hy as [Hy _]. by apply list_elem_of_In.
Qed.
(** Replacing a row by one with the same key and index key. *)
Lemma index_free_update x y rows : rows_ok rows -> x ∈ rows -> key y = key x ->
  match index with None => True | Some f => f y = f x end -> index_taken y rows = false.
Proof.
  intros [_ Hi] Hx Hk Hf. unfold index_taken, index_distinct in *. destruct index as [f|]; [|done].
  apply not_true_iff_false. intros (z & Hz & E)%existsb_exists. bool_split. apply list_elem_of_In in Hz.
  apply H0. rewrite Hk. apply Hi; [done|done|]. by rewrite H, Hf.
Qed.
Lemma put_row_perm x rows : put_row x rows ≡ₚ x :: without (key x) rows.
Proof. apply insert_row_perm. Qed.
End Rows.

(** ** Requests *)

Section Requests.
Context {D A : Type} (s : object_store D A).
Definition idb_get (k : idb_key) : idb D (option A) := iread (fun d => row_at (key_path s) k (rows_of s d)).
Definition idb_getAll : idb D (list A) := iread (rows_of s).
Definition constraint_error : jsstr := js "ConstraintError".
Definition idb_add (x : A) : idb D True :=
  let~ rows := iread (rows_of s) in
  iguard (bool_decide (is_Some (row_at (key_path s) (key_path s x) rows)) ||
          index_taken (key_path s) (unique_index s) x rows) constraint_error $
  iwrite (set_rows s (insert_row (key_path s) x rows)).
Definition idb_put (x : A) : idb D True :=
  let~ rows := iread (rows_of s) in
  iguard (index_taken (key_path s) (unique_index s) x rows) constraint_error $
  iwrite (set_rows s (put_row (key_path s) x rows)).
Definition idb_delete (k : idb_key) : idb D True := iwrite (fun d => set_rows s (without (key_path s) k (rows_of s d)) d).

Lemma idb_add_ok x d d' r : idb_add x d = (d', inr r) ->
  d' = set_rows s (insert_row (key_path s) x (rows_of s d)) d /\
  (forall y, y ∈ rows_of s d -> key_path s y <> key_path s x) /\ index_taken (key_path s) (unique_index s) x (rows_of s d) = false.
Proof.
  unfold idb_add. intros H. idb_step H. idb_step E. subst a. idb_step H. idb_step H. bool_split. split_and!; [done| |done].
  apply row_at_None. by apply eq_None_not_Some.
Qed.
Lemma idb_put_ok x d d' r : idb_put x d = (d', inr r) ->
  d' = set_rows s (put_row (key_path s) x (rows_of s d)) d /\ index_taken (key_path s) (unique_index s) x (rows_of s d) = false.
Proof. unfold idb_put. intros H. idb_step H. idb_step E. subst a. idb_step H. by idb_step H. Qed.
End Requests.

(** [for (const x of list) body(x)]. *)
Fixpoint idb_each {D X} (body : X -> idb D True) (l : list X) : idb D True :=
  match l with
  | [] => iret I
  | x :: rest => let~ _ := body x in idb_each body rest
  end.
#[global] Arguments insert_row : simpl never.
#[global] Arguments put_row : simpl never.
#[global] Arguments without : simpl never.
#[global] Arguments row_at : simpl never.
#[global] Arguments index_taken : simpl never.
