(* ===== verification/PlayerLocal.v ===== *)
(** * The player-local audit image

    [player-local-runtime/contracts.ts]: what a player keeps of its own audit, a
    chain of sealed checkpoints above a retention anchor, the events and
    equivocations it has seen, the outbox of checkpoints to deliver, the holds
    that forbid pruning, the cursors of the evidence inbox and the jobs that poll
    it; when an image is valid, and when a write set may be applied to it. *)
From Stdlib Require Import ZifyBool.
From S2P Require Import Prelude Json.
Set Default Goal Selector "!".

Module Local.

Record AuditBoundary := mkBoundary {
  protocol_version : Z;
  purpose : jsstr;
  manifest_digest : jsstr;
  scope_id : jsstr;
  unit_id : jsstr;
}.
Record PlayerLocalStoreConfiguration := mkConfiguration {
  cfg_boundary : AuditBoundary;
  cfg_genesis_digest : jsstr;
  cfg_outbox_capacity : Z;
}.
Record PlayerLocalAuditEvent := mkEvent {
  pe_boundary : AuditBoundary;
  pe_author_id : jsstr;
  pe_counter : Z;
  pe_epoch : Z;
  pe_event_digest : jsstr;
  pe_canonical_event : jsstr;
}.
Record PlayerLocalEventEquivocation := mkEquivocation {
  accepted : PlayerLocalAuditEvent;
  conflicting : PlayerLocalAuditEvent;
}.
Record CheckpointSealDraft := mkCheckpoint {
  cp_boundary : AuditBoundary;
  cp_epoch : Z;
  cp_previous_checkpoint : jsstr;
  cp_checkpoint_digest : jsstr;
  cp_canonical_envelope : jsstr;
}.
(** Also the [PlayerLocalRetentionAnchor], which has the same fields. *)
Record CheckpointSealHead := mkHead {
  hd_boundary : AuditBoundary;
  hd_epoch : Z;
  hd_checkpoint_digest : jsstr;
}.
Abbreviation PlayerLocalRetentionAnchor := CheckpointSealHead.
Inductive CheckpointOutboxState :=
| OutboxPending
| OutboxInFlight (lease_expires_at_ms : Z)
| OutboxAcknowledged.
Record PlayerLocalCheckpointOutboxRecord := mkOutbox {
  ob_boundary : AuditBoundary;
  ob_destination_id : jsstr;
  ob_epoch : Z;
  ob_checkpoint_digest : jsstr;
  ob_canonical_envelope : jsstr;
  ob_created_order : Z;
  ob_state : CheckpointOutboxState;
}.
Record EpochClosureEvidence := mkClosure {
  cl_boundary : AuditBoundary;
  cl_epoch : Z;
  cl_roster_digest : jsstr;
  cl_frontier_digest : jsstr;
  cl_certificate_digest : jsstr;
}.
Inductive AckDecision := AckAccepted | AckDuplicate.
Record CheckpointAckEvidence := mkAck {
  ack_boundary : AuditBoundary;
  ack_authority_id : jsstr;
  ack_epoch : Z;
  ack_checkpoint_digest : jsstr;
  ack_decision : AckDecision;
}.
Inductive PlayerLocalEvidenceHoldKind := HoldFork | HoldChallenge | HoldAppeal.
Inductive HoldDecision := Upheld | Dismissed.
Inductive PlayerLocalEvidenceHoldState :=
| HoldActive
| HoldResolved (decision : HoldDecision) (resolution_digest : jsstr).
Record PlayerLocalEvidenceHold := mkHold {
  eh_boundary : AuditBoundary;
  eh_hold_id : jsstr;
  eh_epoch : Z;
  eh_checkpoint_digest : jsstr;
  eh_kind : PlayerLocalEvidenceHoldKind;
  eh_reference_digest : jsstr;
  eh_state : PlayerLocalEvidenceHoldState;
}.
Record PlayerLocalEvidenceHoldResolution := mkResolution {
  er_boundary : AuditBoundary;
  er_hold_id : jsstr;
  er_epoch : Z;
  er_checkpoint_digest : jsstr;
  er_reference_digest : jsstr;
  er_decision : HoldDecision;
  er_resolution_digest : jsstr;
}.
(** The sequence is [-1] only in the expected, not yet stored, first cursor. *)
Record PlayerLocalEvidenceInboxCursor := mkCursor {
  cu_boundary : AuditBoundary;
  cu_source_id : jsstr;
  cu_sequence : Z;
  cu_message_digest : jsstr;
}.
Inductive PlayerLocalEvidencePollJobState :=
| JobScheduled
| JobInFlight (lease_expires_at_ms : Z)
| JobExpired (expired_at_ms : Z)
| JobEscalated (escalated_at_ms : Z) (reason_digest : jsstr).
Record PlayerLocalEvidencePollJobDraft := mkJobDraft {
  pj_boundary : AuditBoundary;
  pj_source_id : jsstr;
  pj_endpoint : jsstr;
  pj_initial_message_digest : jsstr;
  pj_deadline_at_ms : Z;
  pj_next_poll_at_ms : Z;
}.
(** The draft a job was made from, with its current [next_poll_at_ms]. *)
Record PlayerLocalEvidencePollJob := mkJob {
  pj_draft :> PlayerLocalEvidencePollJobDraft;
  pj_failures : Z;
  pj_attempt_count : Z;
  pj_state : PlayerLocalEvidencePollJobState;
}.
Record PlayerLocalEvidencePollJobCompletion := mkCompletion {
  jc_source_id : jsstr;
  jc_expected_attempt_count : Z;
  jc_expected_lease_expires_at_ms : Z;
  jc_completed_at_ms : Z;
  jc_next_poll_at_ms : Z;
  jc_failures : Z;
}.
Inductive PlayerLocalEvidenceInboxOperation :=
| PlaceHold (hold : PlayerLocalEvidenceHold)
| ResolveHold (resolution : PlayerLocalEvidenceHoldResolution).
Record PlayerLocalEvidenceInboxWriteSet := mkInboxWriteSet {
  iw_expected_revision : Z;
  iw_expected_cursor : PlayerLocalEvidenceInboxCursor;
  iw_next_cursor : PlayerLocalEvidenceInboxCursor;
  iw_message_id : jsstr;
  iw_operation : PlayerLocalEvidenceInboxOperation;
}.
Record CheckpointSealStorageSnapshot := mkSnapshot {
  sn_boundary : AuditBoundary;
  sn_current_epoch : Z;
  sn_current_digest : jsstr;
  sn_incoming_epoch_known : bool;
  sn_known_digest_matches : bool;
  sn_known_seal_complete : bool;
  sn_closure_consumed : bool;
  sn_outbox_entry_count : Z;
  sn_outbox_capacity : Z;
  sn_next_created_order : Z;
}.
Record PlayerLocalSealWriteSet := mkSealWriteSet {
  sw_expected_revision : Z;
  sw_expected_snapshot : CheckpointSealStorageSnapshot;
  sw_checkpoint : CheckpointSealDraft;
  sw_next_head : CheckpointSealHead;
  sw_outbox_entries : list PlayerLocalCheckpointOutboxRecord;
  sw_consumed_closure : EpochClosureEvidence;
  sw_next_outbox_entry_count : Z;
  sw_next_created_order : Z;
}.
Record PlayerLocalAuditImage := mkImage {
  im_boundary : AuditBoundary;
  im_genesis_digest : jsstr;
  im_outbox_capacity : Z;
  im_events : list PlayerLocalAuditEvent;
  im_equivocations : list PlayerLocalEventEquivocation;
  im_checkpoints : list CheckpointSealDraft;
  im_head : CheckpointSealHead;
  im_retention_anchor : PlayerLocalRetentionAnchor;
  im_evidence_holds : list PlayerLocalEvidenceHold;
  im_evidence_inbox_cursors : list PlayerLocalEvidenceInboxCursor;
  im_evidence_poll_jobs : list PlayerLocalEvidencePollJob;
  im_consumed_closures : list EpochClosureEvidence;
  im_outbox : list PlayerLocalCheckpointOutboxRecord;
  im_ack_history : list CheckpointAckEvidence;
  im_next_created_order : Z;
  im_storage_revision : Z;
}.
Record PlayerLocalPruneRequest := mkPruneRequest {
  pr_retain_from_epoch : Z;
  pr_protected_epochs : list Z;
}.
Record PlayerLocalPruneWriteSet := mkPruneWriteSet {
  pw_request :> PlayerLocalPruneRequest;
  pw_expected_revision : Z;
  pw_expected_anchor : PlayerLocalRetentionAnchor;
  pw_next_anchor : PlayerLocalRetentionAnchor;
}.

#[export] Instance boundary_eq_dec : EqDecision AuditBoundary.
Proof. solve_decision. Defined.
#[export] Instance checkpoint_eq_dec : EqDecision CheckpointSealDraft.
Proof. solve_decision. Defined.
#[export] Instance head_eq_dec : EqDecision CheckpointSealHead.
Proof. solve_decision. Defined.
#[export] Instance hold_kind_eq_dec : EqDecision PlayerLocalEvidenceHoldKind.
Proof. solve_decision. Defined.
#[export] Instance hold_decision_eq_dec : EqDecision HoldDecision.
Proof. solve_decision. Defined.

(** ** Tests on the parts *)

Definition nonempty (s : jsstr) : bool := 0 <? slen s.
(** [s.length > 0 && s.length <= n]. *)
Definition bounded (s : jsstr) (n : Z) : bool := nonempty s && (slen s <=? n).

Definition isNonNegativeInteger (value : Z) : bool := isSafeInteger value && (0 <=? value).
Definition playerLocalBoundaryValid (boundary : AuditBoundary) : bool :=
  isSafeInteger (protocol_version boundary) && (0 <? protocol_version boundary) && nonempty (purpose boundary) &&
  nonempty (manifest_digest boundary) && nonempty (scope_id boundary) && nonempty (unit_id boundary).
Definition samePlayerLocalBoundary (left right : AuditBoundary) : bool :=
  (protocol_version left =? protocol_version right) && str_eqb (purpose left) (purpose right) &&
  str_eqb (manifest_digest left) (manifest_digest right) && str_eqb (scope_id left) (scope_id right) &&
  str_eqb (unit_id left) (unit_id right).
Definition samePlayerLocalHead (left right : CheckpointSealHead) : bool :=
  samePlayerLocalBoundary (hd_boundary left) (hd_boundary right) && (hd_epoch left =? hd_epoch right) &&
  str_eqb (hd_checkpoint_digest left) (hd_checkpoint_digest right).
Definition samePlayerLocalRetentionAnchor (left right : PlayerLocalRetentionAnchor) : bool :=
  samePlayerLocalBoundary (hd_boundary left) (hd_boundary right) && (hd_epoch left =? hd_epoch right) &&
  str_eqb (hd_checkpoint_digest left) (hd_checkpoint_digest right).

Definition hold_is_active (hold : PlayerLocalEvidenceHold) : bool :=
  match eh_state hold with HoldActive => true | HoldResolved _ _ => false end.
Definition is_acknowledged (entry : PlayerLocalCheckpointOutboxRecord) : bool :=
  match ob_state entry with OutboxAcknowledged => true | _ => false end.

Definition playerLocalEvidenceHoldValid (boundary : AuditBoundary) (hold : PlayerLocalEvidenceHold) : bool :=
  let stateValid := match eh_state hold with HoldActive => true | HoldResolved _ digest => nonempty digest end in
  samePlayerLocalBoundary boundary (eh_boundary hold) && nonempty (eh_hold_id hold) &&
  isNonNegativeInteger (eh_epoch hold) && nonempty (eh_checkpoint_digest hold) &&
  nonempty (eh_reference_digest hold) && stateValid.
Definition playerLocalEvidenceHoldResolutionValid (boundary : AuditBoundary)
    (resolution : PlayerLocalEvidenceHoldResolution) : bool :=
  samePlayerLocalBoundary boundary (er_boundary resolution) && nonempty (er_hold_id resolution) &&
  isNonNegativeInteger (er_epoch resolution) && nonempty (er_checkpoint_digest resolution) &&
  nonempty (er_reference_digest resolution) && nonempty (er_resolution_digest resolution).
Definition samePlayerLocalEvidenceInboxCursor (left right : PlayerLocalEvidenceInboxCursor) : bool :=
  samePlayerLocalBoundary (cu_boundary left) (cu_boundary right) && str_eqb (cu_source_id left) (cu_source_id right) &&
  (cu_sequence left =? cu_sequence right) && str_eqb (cu_message_digest left) (cu_message_digest right).
Definition playerLocalEventValid (boundary : AuditBoundary) (event : PlayerLocalAuditEvent) : bool :=
  samePlayerLocalBoundary boundary (pe_boundary event) && nonempty (pe_author_id event) &&
  isNonNegativeInteger (pe_counter event) && isNonNegativeInteger (pe_epoch event) &&
  nonempty (pe_event_digest event) && nonempty (pe_canonical_event event).
Definition playerLocalCheckpointValid (boundary : AuditBoundary) (checkpoint : CheckpointSealDraft) : bool :=
  samePlayerLocalBoundary boundary (cp_boundary checkpoint) && isNonNegativeInteger (cp_epoch checkpoint) &&
  nonempty (cp_previous_checkpoint checkpoint) && nonempty (cp_checkpoint_digest checkpoint) &&
  nonempty (cp_canonical_envelope checkpoint).
Definition playerLocalClosureValid (boundary : AuditBoundary) (closure : EpochClosureEvidence) : bool :=
  samePlayerLocalBoundary boundary (cl_boundary closure) && isNonNegativeInteger (cl_epoch closure) &&
  nonempty (cl_roster_digest closure) && nonempty (cl_frontier_digest closure) &&
  nonempty (cl_certificate_digest closure).

(** *** Jobs.  The host parses URLs: [None] is the [TypeError]. *)

Class UrlParser := { url_protocol : jsstr -> option jsstr }.

Section Jobs.
Context `{UrlParser}.
Definition playerLocalPollEndpointValid (value : jsstr) : bool :=
  bounded value 4096 &&
  match url_protocol value with
  | Some protocol => str_eqb protocol (js "https:") || str_eqb protocol (js "http:")
  | None => false
  end.
Definition playerLocalEvidencePollJobDraftValid (boundary : AuditBoundary) (draft : PlayerLocalEvidencePollJobDraft) : bool :=
  samePlayerLocalBoundary boundary (pj_boundary draft) && bounded (pj_source_id draft) 256 &&
  playerLocalPollEndpointValid (pj_endpoint draft) && bounded (pj_initial_message_digest draft) 4096 &&
  isNonNegativeInteger (pj_deadline_at_ms draft) && isNonNegativeInteger (pj_next_poll_at_ms draft) &&
  (pj_next_poll_at_ms draft <=? pj_deadline_at_ms draft).
Definition playerLocalEvidencePollJobValid (boundary : AuditBoundary) (job : PlayerLocalEvidencePollJob) : bool :=
  let stateValid :=
    match pj_state job with
    | JobScheduled => true
    | JobInFlight lease =>
        (0 <? pj_attempt_count job) && isNonNegativeInteger lease && (lease <=? pj_deadline_at_ms job)
    | JobExpired at_ms => isNonNegativeInteger at_ms && (pj_deadline_at_ms job <=? at_ms)
    | JobEscalated at_ms reason => isNonNegativeInteger at_ms && bounded reason 4096
    end in
  playerLocalEvidencePollJobDraftValid boundary job && isNonNegativeInteger (pj_failures job) &&
  isNonNegativeInteger (pj_attempt_count job) && stateValid.
End Jobs.
Definition samePlayerLocalEvidencePollJobDraft (job : PlayerLocalEvidencePollJob)
    (draft : PlayerLocalEvidencePollJobDraft) : bool :=
  samePlayerLocalBoundary (pj_boundary job) (pj_boundary draft) && str_eqb (pj_source_id job) (pj_source_id draft) &&
  str_eqb (pj_endpoint job) (pj_endpoint draft) &&
  str_eqb (pj_initial_message_digest job) (pj_initial_message_digest draft) &&
  (pj_deadline_at_ms job =? pj_deadline_at_ms draft).

(** ** Write sets *)

Definition find_hold (holds : list PlayerLocalEvidenceHold) (hold_id : jsstr) : option PlayerLocalEvidenceHold :=
  List.find (fun hold => str_eqb (eh_hold_id hold) hold_id) holds.
Definition find_checkpoint (checkpoints : list CheckpointSealDraft) (epoch : Z) : option CheckpointSealDraft :=
  List.find (fun checkpoint => cp_epoch checkpoint =? epoch) checkpoints.

Definition placeAllowed (image : PlayerLocalAuditImage) (message_id : jsstr) (hold : PlayerLocalEvidenceHold) : bool :=
  str_eqb message_id (eh_hold_id hold) && playerLocalEvidenceHoldValid (im_boundary image) hold &&
  hold_is_active hold &&
  match find_checkpoint (im_checkpoints image) (eh_epoch hold) with
  | Some checkpoint => str_eqb (cp_checkpoint_digest checkpoint) (eh_checkpoint_digest hold)
  | None => false
  end &&
  match find_hold (im_evidence_holds image) (eh_hold_id hold) with
  | None => true
  | Some existing =>
      (eh_epoch existing =? eh_epoch hold) && str_eqb (eh_checkpoint_digest existing) (eh_checkpoint_digest hold) &&
      bool_decide (eh_kind existing = eh_kind hold) &&
      str_eqb (eh_reference_digest existing) (eh_reference_digest hold) && hold_is_active existing
  end.
Definition resolveAllowed (image : PlayerLocalAuditImage) (message_id : jsstr)
    (resolution : PlayerLocalEvidenceHoldResolution) : bool :=
  str_eqb message_id (er_hold_id resolution) && playerLocalEvidenceHoldResolutionValid (im_boundary image) resolution &&
  match find_hold (im_evidence_holds image) (er_hold_id resolution) with
  | None => false
  | Some existing =>
      (eh_epoch existing =? er_epoch resolution) &&
      str_eqb (eh_checkpoint_digest existing) (er_checkpoint_digest resolution) &&
      str_eqb (eh_reference_digest existing) (er_reference_digest resolution) &&
      match eh_state existing with
      | HoldActive => true
      | HoldResolved decision digest =>
          bool_decide (decision = er_decision resolution) && str_eqb digest (er_resolution_digest resolution)
      end
  end.
Definition playerLocalEvidenceInboxWriteSetValid (image : PlayerLocalAuditImage)
    (writeSet : PlayerLocalEvidenceInboxWriteSet) : bool :=
  let expected := iw_expected_cursor writeSet in
  let next := iw_next_cursor writeSet in
  isNonNegativeInteger (iw_expected_revision writeSet) &&
  (iw_expected_revision writeSet =? im_storage_revision image) &&
  samePlayerLocalBoundary (im_boundary image) (cu_boundary expected) &&
  samePlayerLocalBoundary (im_boundary image) (cu_boundary next) &&
  bounded (cu_source_id expected) 256 && str_eqb (cu_source_id expected) (cu_source_id next) &&
  isSafeInteger (cu_sequence expected) && (-1 <=? cu_sequence expected) &&
  isNonNegativeInteger (cu_sequence next) && (cu_sequence next =? cu_sequence expected + 1) &&
  bounded (cu_message_digest expected) 4096 && bounded (cu_message_digest next) 4096 &&
  negb (str_eqb (cu_message_digest next) (cu_message_digest expected)) && nonempty (iw_message_id writeSet) &&
  match List.find (fun cursor => str_eqb (cu_source_id cursor) (cu_source_id expected)) (im_evidence_inbox_cursors image) with
  | Some current => samePlayerLocalEvidenceInboxCursor current expected
  | None => cu_sequence expected =? -1
  end &&
  match iw_operation writeSet with
  | PlaceHold hold => placeAllowed image (iw_message_id writeSet) hold
  | ResolveHold resolution => resolveAllowed image (iw_message_id writeSet) resolution
  end.

Definition samePlayerLocalSnapshot (left right : CheckpointSealStorageSnapshot) : bool :=
  samePlayerLocalBoundary (sn_boundary left) (sn_boundary right) &&
  (sn_current_epoch left =? sn_current_epoch right) && str_eqb (sn_current_digest left) (sn_current_digest right) &&
  Bool.eqb (sn_incoming_epoch_known left) (sn_incoming_epoch_known right) &&
  Bool.eqb (sn_known_digest_matches left) (sn_known_digest_matches right) &&
  Bool.eqb (sn_known_seal_complete left) (sn_known_seal_complete right) &&
  Bool.eqb (sn_closure_consumed left) (sn_closure_consumed right) &&
  (sn_outbox_entry_count left =? sn_outbox_entry_count right) &&
  (sn_outbox_capacity left =? sn_outbox_capacity right) &&
  (sn_next_created_order left =? sn_next_created_order right).

(** The loop over [outbox_entries.entries()]; [index] counts up,
    [destinations] is the set so far. *)
Fixpoint sealEntriesValid (boundary : AuditBoundary) (checkpoint : CheckpointSealDraft) (first : Z) (index : Z)
    (destinations : list jsstr) (entries : list PlayerLocalCheckpointOutboxRecord) : bool :=
  match entries with
  | [] => true
  | entry :: rest =>
      samePlayerLocalBoundary boundary (ob_boundary entry) && nonempty (ob_destination_id entry) &&
      negb (existsb (str_eqb (ob_destination_id entry)) destinations) &&
      (ob_epoch entry =? cp_epoch checkpoint) &&
      str_eqb (ob_checkpoint_digest entry) (cp_checkpoint_digest checkpoint) &&
      str_eqb (ob_canonical_envelope entry) (cp_canonical_envelope checkpoint) &&
      (ob_created_order entry =? first + index) &&
      match ob_state entry with OutboxPending => true | _ => false end &&
      sealEntriesValid boundary checkpoint first (index + 1) (ob_destination_id entry :: destinations) rest
  end.
Definition zlength {A} (l : list A) : Z := Z.of_nat (length l).
Definition playerLocalSealWriteSetValid (configuration : PlayerLocalStoreConfiguration)
    (writeSet : PlayerLocalSealWriteSet) : bool :=
  let boundary := cfg_boundary configuration in
  let checkpoint := sw_checkpoint writeSet in
  let snapshot := sw_expected_snapshot writeSet in
  isNonNegativeInteger (sw_expected_revision writeSet) && playerLocalCheckpointValid boundary checkpoint &&
  playerLocalClosureValid boundary (sw_consumed_closure writeSet) &&
  (cp_epoch checkpoint =? sn_current_epoch snapshot + 1) &&
  str_eqb (cp_previous_checkpoint checkpoint) (sn_current_digest snapshot) &&
  (cl_epoch (sw_consumed_closure writeSet) =? cp_epoch checkpoint) &&
  samePlayerLocalHead (sw_next_head writeSet) (mkHead boundary (cp_epoch checkpoint) (cp_checkpoint_digest checkpoint)) &&
  negb (zlength (sw_outbox_entries writeSet) =? 0) &&
  (sw_next_outbox_entry_count writeSet =? sn_outbox_entry_count snapshot + zlength (sw_outbox_entries writeSet)) &&
  (sw_next_outbox_entry_count writeSet <=? cfg_outbox_capacity configuration) &&
  (sw_next_created_order writeSet =? sn_next_created_order snapshot + zlength (sw_outbox_entries writeSet)) &&
  isSafeInteger (sw_next_created_order writeSet) &&
  sealEntriesValid boundary checkpoint (sn_next_created_order snapshot) 0 [] (sw_outbox_entries writeSet).

Definition outbox_has (outbox : list PlayerLocalCheckpointOutboxRecord) (checkpoint : CheckpointSealDraft)
    (destination : jsstr) : bool :=
  existsb (fun entry => str_eqb (ob_destination_id entry) destination && (ob_epoch entry =? cp_epoch checkpoint) &&
    str_eqb (ob_checkpoint_digest entry) (cp_checkpoint_digest checkpoint) &&
    str_eqb (ob_canonical_envelope entry) (cp_canonical_envelope checkpoint)) outbox.
Definition unacknowledged (outbox : list PlayerLocalCheckpointOutboxRecord) : Z :=
  zlength (List.filter (fun entry => negb (is_acknowledged entry)) outbox).
Definition playerLocalSealSnapshot (image : PlayerLocalAuditImage) (checkpoint : CheckpointSealDraft)
    (destinations : list jsstr) : CheckpointSealStorageSnapshot :=
  let known := find_checkpoint (im_checkpoints image) (cp_epoch checkpoint) in
  let closureConsumed := existsb (fun closure => cl_epoch closure =? cp_epoch checkpoint) (im_consumed_closures image) in
  let allOutboxPresent := (0 <? zlength destinations) && forallb (outbox_has (im_outbox image) checkpoint) destinations in
  let knownDigestMatches :=
    match known with
    | Some k => str_eqb (cp_checkpoint_digest k) (cp_checkpoint_digest checkpoint) &&
                str_eqb (cp_canonical_envelope k) (cp_canonical_envelope checkpoint)
    | None => false
    end in
  mkSnapshot (im_boundary image) (hd_epoch (im_head image)) (hd_checkpoint_digest (im_head image))
    (bool_decide (is_Some known)) knownDigestMatches (knownDigestMatches && closureConsumed && allOutboxPresent)
    closureConsumed (unacknowledged (im_outbox image)) (im_outbox_capacity image) (im_next_created_order image).

(** *** Pruning *)

(** The loop that collects [protectedEpochs]; [None] is a refusal. *)
Fixpoint protectEpochs (anchor : Z) (seen : list Z) (epochs : list Z) : option (list Z) :=
  match epochs with
  | [] => Some seen
  | epoch :: rest =>
      if negb (isNonNegativeInteger epoch) || existsb (Z.eqb epoch) seen || (epoch <=? anchor) then None
      else protectEpochs anchor (seen ++ [epoch]) rest
  end.
Definition activeHoldEpochs (holds : list PlayerLocalEvidenceHold) : list Z :=
  eh_epoch <$> List.filter hold_is_active holds.
Definition equivocationEpochs (equivocations : list PlayerLocalEventEquivocation) : list Z :=
  flat_map (fun evidence => [pe_epoch (accepted evidence); pe_epoch (conflicting evidence)]) equivocations.
Definition epochOutbox (outbox : list PlayerLocalCheckpointOutboxRecord) (checkpoint : CheckpointSealDraft) :
    list PlayerLocalCheckpointOutboxRecord :=
  List.filter (fun entry => (ob_epoch entry =? cp_epoch checkpoint) &&
    str_eqb (ob_checkpoint_digest entry) (cp_checkpoint_digest checkpoint)) outbox.

(** The loop over the checkpoints, with [expectedEpoch] and [expectedParent]. *)
Fixpoint prunedPrefix (image : PlayerLocalAuditImage) (protectedEpochs : list Z) (through retain : Z)
    (expectedEpoch : Z) (expectedParent : jsstr) (checkpoints : list CheckpointSealDraft) : option (Z * jsstr) :=
  match checkpoints with
  | [] => Some (expectedEpoch, expectedParent)
  | checkpoint :: rest =>
      if through <? cp_epoch checkpoint then Some (expectedEpoch, expectedParent) else
      let outbox := epochOutbox (im_outbox image) checkpoint in
      if negb (cp_epoch checkpoint =? expectedEpoch) ||
         negb (str_eqb (cp_previous_checkpoint checkpoint) expectedParent) ||
         (retain <=? cp_epoch checkpoint) || existsb (Z.eqb (cp_epoch checkpoint)) protectedEpochs ||
         existsb (Z.eqb (cp_epoch checkpoint)) (equivocationEpochs (im_equivocations image)) ||
         (zlength outbox =? 0) || existsb (fun entry => negb (is_acknowledged entry)) outbox
      then None
      else prunedPrefix image protectedEpochs through retain (expectedEpoch + 1) (cp_checkpoint_digest checkpoint) rest
  end.
Definition playerLocalPruneWriteSetValid (image : PlayerLocalAuditImage) (writeSet : PlayerLocalPruneWriteSet) : bool :=
  let anchor := im_retention_anchor image in
  let next := pw_next_anchor writeSet in
  if negb (isNonNegativeInteger (pw_expected_revision writeSet)) ||
     negb (pw_expected_revision writeSet =? im_storage_revision image) ||
     negb (samePlayerLocalRetentionAnchor (pw_expected_anchor writeSet) anchor) ||
     negb (samePlayerLocalBoundary (im_boundary image) (hd_boundary next)) ||
     negb (isNonNegativeInteger (pr_retain_from_epoch writeSet)) ||
     (hd_epoch (im_head image) + 1 <? pr_retain_from_epoch writeSet) ||
     (hd_epoch next <=? hd_epoch (pw_expected_anchor writeSet)) ||
     (pr_retain_from_epoch writeSet <=? hd_epoch next) || (hd_epoch (im_head image) <? hd_epoch next)
  then false else
  match protectEpochs (hd_epoch anchor) [] (pr_protected_epochs writeSet) with
  | None => false
  | Some protected =>
      match prunedPrefix image (protected ++ activeHoldEpochs (im_evidence_holds image)) (hd_epoch next)
              (pr_retain_from_epoch writeSet) (hd_epoch anchor + 1) (hd_checkpoint_digest anchor)
              (im_checkpoints image) with
      | None => false
      | Some (epoch, parent) => (epoch =? hd_epoch next + 1) && str_eqb parent (hd_checkpoint_digest next)
      end
  end.

(** ** The validity of an image *)

(** A template joined with NUL characters. *)
Definition nul_join (a b : jsstr) : jsstr := a ++ 0%N :: b.
Definition eventKey (author_id : jsstr) (counter : Z) : jsstr := nul_join author_id (num_to_string counter).
Definition outboxAckKey (authorityId : jsstr) (epoch : Z) (checkpointDigest : jsstr) : jsstr :=
  nul_join (nul_join authorityId (num_to_string epoch)) checkpointDigest.

(** A loop that refuses a row that is not [ok] or whose key was seen before. *)
Fixpoint distinct_rows {A K} `{EqDecision K} (ok : A -> bool) (key : A -> K) (seen : list K) (rows : list A) : bool :=
  match rows with
  | [] => true
  | row :: rest => ok row && negb (bool_decide (key row ∈ seen)) && distinct_rows ok key (key row :: seen) rest
  end.

Definition conflictKey (evidence : PlayerLocalEventEquivocation) : jsstr :=
  nul_join (eventKey (pe_author_id (accepted evidence)) (pe_counter (accepted evidence)))
    (pe_event_digest (conflicting evidence)).
Definition event_key_of (event : PlayerLocalAuditEvent) : jsstr := eventKey (pe_author_id event) (pe_counter event).

(** The loop over the checkpoints, beside [consumed_closures[index]]. *)
Fixpoint checkpointChain (boundary : AuditBoundary) (expectedEpoch : Z) (expectedParent : jsstr) (checkpoints : list CheckpointSealDraft)
    (closures : list EpochClosureEvidence) : option (Z * jsstr) :=
  match checkpoints with
  | [] => Some (expectedEpoch, expectedParent)
  | checkpoint :: rest =>
      match closures with
      | [] => None
      | closure :: closures' =>
          if negb (playerLocalCheckpointValid boundary checkpoint) || negb (cp_epoch checkpoint =? expectedEpoch) ||
             negb (str_eqb (cp_previous_checkpoint checkpoint) expectedParent) ||
             negb (cl_epoch closure =? expectedEpoch) || negb (playerLocalClosureValid boundary closure)
          then None
          else checkpointChain boundary (expectedEpoch + 1) (cp_checkpoint_digest checkpoint) rest closures'
      end
  end.

Section Valid.
Context `{UrlParser} (image : PlayerLocalAuditImage).
Let boundary := im_boundary image.
Let anchor := im_retention_anchor image.

Definition configurationInvalid : bool :=
  negb (playerLocalBoundaryValid boundary) || negb (nonempty (im_genesis_digest image)) ||
  negb (isNonNegativeInteger (im_outbox_capacity image)) || negb (isNonNegativeInteger (im_storage_revision image)) ||
  negb (isNonNegativeInteger (im_next_created_order image)) ||
  (im_outbox_capacity image <? unacknowledged (im_outbox image)).
Definition anchorInvalid : bool :=
  negb (samePlayerLocalBoundary boundary (hd_boundary anchor)) || negb (isSafeInteger (hd_epoch anchor)) ||
  (hd_epoch anchor <? -1) || (hd_epoch (im_head image) <? hd_epoch anchor) ||
  negb (nonempty (hd_checkpoint_digest anchor)) ||
  ((hd_epoch anchor =? -1) && negb (str_eqb (hd_checkpoint_digest anchor) (im_genesis_digest image))).
Definition eventOk (event : PlayerLocalAuditEvent) : bool :=
  playerLocalEventValid boundary event && (hd_epoch anchor <? pe_epoch event).
Definition equivocationOk (evidence : PlayerLocalEventEquivocation) : bool :=
  bool_decide (event_key_of (accepted evidence) ∈ event_key_of <$> im_events image) &&
  playerLocalEventValid boundary (conflicting evidence) && (hd_epoch anchor <? pe_epoch (conflicting evidence)) &&
  str_eqb (pe_author_id (accepted evidence)) (pe_author_id (conflicting evidence)) &&
  (pe_counter (accepted evidence) =? pe_counter (conflicting evidence)) &&
  negb (str_eqb (pe_event_digest (accepted evidence)) (pe_event_digest (conflicting evidence))).
Definition holdOk (hold : PlayerLocalEvidenceHold) : bool :=
  playerLocalEvidenceHoldValid boundary hold &&
  match find_checkpoint (im_checkpoints image) (eh_epoch hold) with
  | Some checkpoint => str_eqb (cp_checkpoint_digest checkpoint) (eh_checkpoint_digest hold)
  | None => false
  end.
Definition cursorOk (cursor : PlayerLocalEvidenceInboxCursor) : bool :=
  samePlayerLocalBoundary boundary (cu_boundary cursor) && bounded (cu_source_id cursor) 256 &&
  isNonNegativeInteger (cu_sequence cursor) && bounded (cu_message_digest cursor) 4096.
Definition outboxOk (entry : PlayerLocalCheckpointOutboxRecord) : bool :=
  match find_checkpoint (im_checkpoints image) (ob_epoch entry) with
  | Some checkpoint =>
      samePlayerLocalBoundary boundary (ob_boundary entry) && nonempty (ob_destination_id entry) &&
      str_eqb (ob_checkpoint_digest entry) (cp_checkpoint_digest checkpoint) &&
      str_eqb (ob_canonical_envelope entry) (cp_canonical_envelope checkpoint) &&
      isNonNegativeInteger (ob_created_order entry) &&
      match ob_state entry with OutboxInFlight lease => isNonNegativeInteger lease | _ => true end
  | None => false
  end.
Definition maxCreatedOrder (outbox : list PlayerLocalCheckpointOutboxRecord) : Z :=
  foldl (fun m entry => Z.max m (ob_created_order entry)) (-1) outbox.
Definition entryAckKey (entry : PlayerLocalCheckpointOutboxRecord) : jsstr :=
  outboxAckKey (ob_destination_id entry) (ob_epoch entry) (ob_checkpoint_digest entry).
Definition ackKey (evidence : CheckpointAckEvidence) : jsstr :=
  outboxAckKey (ack_authority_id evidence) (ack_epoch evidence) (ack_checkpoint_digest evidence).
Definition acknowledgedKeys : list jsstr := entryAckKey <$> List.filter is_acknowledged (im_outbox image).
Definition ackOk (evidence : CheckpointAckEvidence) : bool :=
  samePlayerLocalBoundary boundary (ack_boundary evidence) && nonempty (ack_authority_id evidence) &&
  isNonNegativeInteger (ack_epoch evidence) && nonempty (ack_checkpoint_digest evidence) &&
  bool_decide (ackKey evidence ∈ acknowledgedKeys).

Definition playerLocalAuditImageError : option jsstr :=
  if configurationInvalid then Some (js "invalid configuration") else
  if anchorInvalid then Some (js "invalid retention anchor") else
  if negb (distinct_rows eventOk event_key_of [] (im_events image)) then Some (js "invalid event relation") else
  if negb (distinct_rows equivocationOk conflictKey [] (im_equivocations image))
  then Some (js "invalid equivocation relation") else
  match checkpointChain boundary (hd_epoch anchor + 1) (hd_checkpoint_digest anchor) (im_checkpoints image)
          (im_consumed_closures image) with
  | None => Some (js "invalid checkpoint chain")
  | Some (expectedEpoch, expectedParent) =>
      if negb (length (im_consumed_closures image) =? length (im_checkpoints image))%nat
      then Some (js "orphan closure footprint") else
      let expectedHead :=
        if 0 <? zlength (im_checkpoints image) then mkHead boundary (expectedEpoch - 1) expectedParent else anchor in
      if negb (samePlayerLocalHead (im_head image) expectedHead) then Some (js "orphan local head") else
      if negb (distinct_rows holdOk eh_hold_id [] (im_evidence_holds image))
      then Some (js "invalid evidence hold relation") else
      if negb (distinct_rows cursorOk cu_source_id [] (im_evidence_inbox_cursors image))
      then Some (js "invalid evidence inbox cursor relation") else
      if negb (distinct_rows (playerLocalEvidencePollJobValid boundary) pj_source_id [] (im_evidence_poll_jobs image))
      then Some (js "invalid evidence poll job relation") else
      if negb (distinct_rows outboxOk ob_created_order [] (im_outbox image))
      then Some (js "invalid outbox relation") else
      if existsb (fun checkpoint => negb (existsb (fun entry => ob_epoch entry =? cp_epoch checkpoint) (im_outbox image)))
           (im_checkpoints image) || (im_next_created_order image <=? maxCreatedOrder (im_outbox image))
      then Some (js "incomplete outbox footprint") else
      if negb (distinct_rows ackOk ackKey [] (im_ack_history image)) then Some (js "invalid ACK history") else
      if existsb (fun key => negb (bool_decide (key ∈ ackKey <$> im_ack_history image))) acknowledgedKeys
      then Some (js "ACK footprint missing") else None
  end.
End Valid.

End Local.

(** * Facts on player-local images

    The tests as propositions, chains of checkpoints and their prefixes, and the
    keys that the validity check compares: they tell rows apart when digests have
    no NUL character. *)

Import Local.

Lemma same_boundary_eq a b : samePlayerLocalBoundary a b = true <-> a = b.
Proof.
  unfold samePlayerLocalBoundary. rewrite !andb_true_iff, Z.eqb_eq, !str_eqb_eq. destruct a, b; cbn. split.
  - intros ((((-> & ->) & ->) & ->) & ->). done.
  - intros [= -> -> -> -> ->]. done.
Qed.
Lemma same_boundary_refl b : samePlayerLocalBoundary b b = true.
Proof. by apply same_boundary_eq. Qed.
Lemma same_head_eq a b : samePlayerLocalHead a b = true <-> a = b.
Proof.
  unfold samePlayerLocalHead. rewrite !andb_true_iff, Z.eqb_eq, str_eqb_eq, same_boundary_eq. destruct a, b; cbn.
  split; [intros [[-> ->] ->]|intros [= -> -> ->]]; done.
Qed.
Lemma same_anchor_eq a b : samePlayerLocalRetentionAnchor a b = true <-> a = b.
Proof. apply same_head_eq. Qed.
Lemma same_cursor_eq a b : samePlayerLocalEvidenceInboxCursor a b = true <-> a = b.
Proof.
  unfold samePlayerLocalEvidenceInboxCursor. rewrite !andb_true_iff, Z.eqb_eq, !str_eqb_eq, same_boundary_eq. destruct a, b; cbn.
  split; [intros [[[-> ->] ->] ->]|intros [= -> -> -> ->]]; done.
Qed.
Lemma same_snapshot_eq a b : samePlayerLocalSnapshot a b = true <-> a = b.
Proof.
  unfold samePlayerLocalSnapshot. rewrite !andb_true_iff, !Z.eqb_eq, str_eqb_eq, same_boundary_eq, !eqb_true_iff.
  destruct a, b; cbn. split.
  - intros [[[[[[[[[-> ->] ->] ->] ->] ->] ->] ->] ->] ->]. done.
  - by intros [= -> -> -> -> -> -> -> -> -> ->].
Qed.
Lemma safe_nonneg z : isNonNegativeInteger z = true <-> 0 <= z <= MAX_SAFE_INTEGER.
Proof. unfold isNonNegativeInteger, isSafeInteger, MAX_SAFE_INTEGER. lia. Qed.

Lemma distinct_rows_spec {A K} `{EqDecision K} (ok : A -> bool) (key : A -> K) seen rows :
  Forall (fun x => ok x = true) rows -> NoDup (key <$> rows) -> (forall x, x ∈ rows -> key x ∉ seen) ->
  distinct_rows ok key seen rows = true.
Proof.
  revert seen. induction rows as [|x rows IH]; intros seen Hok Hnd Hs; [done|]. cbn [distinct_rows].
  apply Forall_cons in Hok as [-> Hok]. rewrite fmap_cons, NoDup_cons in Hnd. destruct Hnd as [Hx Hnd].
  rewrite bool_decide_eq_false_2 by (apply Hs; left). cbn. apply IH; [done|done|].
  intros y Hy [E|Hin]%elem_of_cons.
  - apply Hx. rewrite <- E. by apply list_elem_of_fmap_2.
  - apply (Hs y); [by right|done].
Qed.

(** ** Keys joined with NUL *)

Lemma digits_no_nul n : 0%N ∉ digits 10 n.
Proof.
  intros Hin. pose proof (digits_decimal n) as Hd. rewrite Forall_forall in Hd. specialize (Hd _ Hin). discriminate.
Qed.
Lemma num_no_nul z : 0%N ∉ num_to_string z.
Proof.
  unfold num_to_string. destruct (z <? 0); [|apply digits_no_nul]. apply not_elem_of_cons. split; [done|apply digits_no_nul].
Qed.
Lemma eventKey_inj a x b y : 0 <= x -> 0 <= y -> eventKey a x = eventKey b y -> a = b /\ x = y.
Proof.
  intros Hx Hy E. apply split_last_sep in E as [-> E]; [|apply num_no_nul..]. split; [done|]. by apply num_to_string_inj.
Qed.
Lemma outboxAckKey_inj a x s b y t : 0 <= x -> 0 <= y -> 0%N ∉ s -> 0%N ∉ t ->
  outboxAckKey a x s = outboxAckKey b y t -> a = b /\ x = y /\ s = t.
Proof.
  intros Hx Hy Hs Ht E. apply split_last_sep in E as [E ->]; [|done..]. apply split_last_sep in E as [-> E]; [|apply num_no_nul..].
  split_and!; [done| |done]. by apply num_to_string_inj.
Qed.

Lemma NoDup_fmap_transfer {A K L} (f : A -> K) (g : A -> L) (l : list A) :
  NoDup (f <$> l) -> (forall x y, x ∈ l -> y ∈ l -> g x = g y -> f x = f y) -> NoDup (g <$> l).
Proof.
  intros Hf Hfg. apply NoDup_fmap_2_strong; [|by eapply NoDup_fmap_1].
  intros x y Hx Hy E. specialize (Hfg x y Hx Hy E).
  apply list_elem_of_lookup in Hx as [i Hi]. apply list_elem_of_lookup in Hy as [j Hj].
  assert (i = j) as ->; [|congruence]. eapply NoDup_lookup; [exact Hf| |].
  - by rewrite list_lookup_fmap, Hi.
  - rewrite list_lookup_fmap, Hj. cbn. by rewrite Hfg.
Qed.

(** ** Sorting by a number *)

Section SortBy.
Context {A : Type} (f : A -> Z).
Definition ascending (l : list A) : Prop := StronglySorted (fun x y => f x < f y) l.
Lemma ascending_inj l x y : ascending l -> x ∈ l -> y ∈ l -> f x = f y -> x = y.
Proof.
  intros Hs. induction Hs as [|z l Hs IH Hz]; [by intros ?%elem_of_nil|]. rewrite Forall_forall in Hz.
  rewrite !elem_of_cons. intros [->|Hx] [->|Hy] E; [done| | |by apply IH].
  - specialize (Hz _ Hy). lia.
  - specialize (Hz _ Hx). lia.
Qed.
Lemma js_sort_by (l : list A) raw : raw ≡ₚ l -> ascending l -> js_sort (fun x y => f x <=? f y) raw = l.
Proof.
  intros Hp Hs. eapply (StronglySorted_unique_strong (fun x y => (f x <=? f y) = true)).
  - intros x y Hx Hy H1 H2. rewrite js_sort_perm, Hp in Hx. eapply ascending_inj; [done..|]. lia.
  - apply js_sort_sorted; intros; lia.
  - clear Hp. induction Hs as [|x l Hs IH Hx]; constructor; [done|]. eapply Forall_impl; [exact Hx|]. intros; cbn in *; lia.
  - by rewrite js_sort_perm.
Qed.
Lemma ascending_cons x l : ascending l -> (forall y, y ∈ l -> f x < f y) -> ascending (x :: l).
Proof. intros Hl Hx. constructor; [done|]. by apply Forall_forall. Qed.
Lemma ascending_snoc l x : ascending l -> (forall y, y ∈ l -> f y < f x) -> ascending (l ++ [x]).
Proof.
  intros Hl. induction Hl as [|z l Hl IH Hz]; intros Hx; cbn; [by repeat constructor|]. apply ascending_cons.
  - apply IH. intros y Hy. apply Hx. by right.
  - intros y [Hy| ->%list_elem_of_singleton]%elem_of_app; [|apply Hx; left]. rewrite Forall_forall in Hz. by apply Hz.
Qed.
End SortBy.

(** ** Chains of checkpoints *)

Section Chains.
Context (b : AuditBoundary).
Implicit Types (cps : list CheckpointSealDraft) (cls : list EpochClosureEvidence).

(** A chain of checkpoints with a closure for each. *)
Definition chain_to (e : Z) (p : jsstr) cps cls (e' : Z) (p' : jsstr) : Prop :=
  checkpointChain b e p cps cls = Some (e', p') /\ length cls = length cps.

Lemma chain_to_cons e p c cps cl cls e' p' :
  chain_to e p (c :: cps) (cl :: cls) e' p' <->
  (playerLocalCheckpointValid b c = true /\ cp_epoch c = e /\ cp_previous_checkpoint c = p /\
   cl_epoch cl = e /\ playerLocalClosureValid b cl = true) /\ chain_to (e + 1) (cp_checkpoint_digest c) cps cls e' p'.
Proof.
  unfold chain_to. cbn [checkpointChain length].
  destruct (playerLocalCheckpointValid b c), (Z.eqb_spec (cp_epoch c) e), (str_eqb (cp_previous_checkpoint c) p) eqn:Ep,
    (Z.eqb_spec (cl_epoch cl) e), (playerLocalClosureValid b cl); cbn;
    rewrite ?str_eqb_eq, ?str_eqb_neq in Ep; try (split; [intros [? ?]|intros [(? & ? & ? & ? & ?) _]]; congruence).
  split; [intros [? [= ?]]|intros [_ [? ?]]]; split_and!; auto.
Qed.
Lemma chain_nil e p cls e' p' : chain_to e p [] cls e' p' <-> cls = [] /\ e' = e /\ p' = p.
Proof.
  unfold chain_to. cbn. split; [intros [[= <- <-] ?%nil_length_inv]; done|]. by intros (-> & -> & ->).
Qed.
Lemma chain_short e p c cps e' p' : ~ chain_to e p (c :: cps) [] e' p'.
Proof. by intros [? ?]. Qed.

(** Induction along a chain. *)
Ltac chain_induction cps cls :=
  let c := fresh "c" in let cl := fresh "cl" in let IH := fresh "IH" in
  induction cps as [|c cps IH]; intros e p [|cl cls] Hc;
    [apply chain_nil in Hc as (_ & -> & ->)|apply chain_nil in Hc as (? & _); discriminate
    |by apply chain_short in Hc|apply chain_to_cons in Hc as ((Hv & <- & <- & Hle & Hcl) & Hc)].

Lemma chain_checkpoints e p cps cls e' p' : chain_to e p cps cls e' p' ->
  e' = e + zlength cps /\ ascending cp_epoch cps /\
  forall c, c ∈ cps -> playerLocalCheckpointValid b c = true /\ e <= cp_epoch c < e'.
Proof.
  unfold zlength. revert e p cls. chain_induction cps cls.
  - cbn. split_and!; [lia|constructor|by intros c ?%elem_of_nil].
  - destruct (IH _ _ _ Hc) as (-> & Ha & Hin). split_and!.
    + cbn [length]. lia.
    + apply ascending_cons; [done|]. intros y Hy. destruct (Hin y Hy) as [_ ?]. lia.
    + intros x [->|Hx]%elem_of_cons; [split; [done|lia]|]. destruct (Hin x Hx). split; [done|lia].
Qed.
Lemma chain_closures e p cps cls e' p' : chain_to e p cps cls e' p' ->
  ascending cl_epoch cls /\ forall cl, cl ∈ cls -> playerLocalClosureValid b cl = true /\ e <= cl_epoch cl < e'.
Proof.
  revert e p cls. chain_induction cps cls.
  - split; [constructor|by intros c ?%elem_of_nil].
  - destruct (IH _ _ _ Hc) as (Ha & Hin). pose proof (chain_checkpoints _ _ _ _ _ _ Hc) as (-> & _). unfold zlength in *. split.
    + apply ascending_cons; [done|]. intros y Hy. destruct (Hin y Hy) as [_ ?]. lia.
    + intros x [->|Hx]%elem_of_cons; [split; [done|lia]|]. destruct (Hin x Hx). split; [done|lia].
Qed.
Lemma chain_snoc e p cps cls e' p' c cl : chain_to e p cps cls e' p' ->
  playerLocalCheckpointValid b c = true -> cp_epoch c = e' -> cp_previous_checkpoint c = p' ->
  cl_epoch cl = e' -> playerLocalClosureValid b cl = true ->
  chain_to e p (cps ++ [c]) (cls ++ [cl]) (e' + 1) (cp_checkpoint_digest c).
Proof.
  intros Hc0 Hvc Hec Hpc Hecl Hvcl. revert e p cls Hc0. chain_induction cps cls.
  - cbn. apply chain_to_cons. split; [done|]. by apply chain_nil.
  - cbn. apply chain_to_cons. split; [done|]. by apply IH.
Qed.
Lemma chain_covers e p cps cls e' p' n : chain_to e p cps cls e' p' -> e <= n < e' -> exists c, c ∈ cps /\ cp_epoch c = n.
Proof.
  intros Hc0 Hn. revert e p cls Hc0 Hn. chain_induction cps cls; intros Hn; [lia|].
  destruct (Z.eq_dec n (cp_epoch c)) as [->|Hne]; [exists c; split; [left|done]|].
  destruct (IH _ _ _ Hc) as (c' & Hc' & E); [lia|]. exists c'. split; [by right|done].
Qed.
(** The end of a chain is the digest of its last checkpoint. *)
Lemma chain_head e p cps cls e' p' : chain_to e p cps cls e' p' -> 0 < slen p -> 0 < slen p'.
Proof.
  revert e p cls. chain_induction cps cls; [done|]. intros _. apply (IH _ _ _ Hc).
  unfold playerLocalCheckpointValid, nonempty in Hv. bool_split. lia.
Qed.

(** ** Pruning a prefix *)

Section Prune.
Context (image : PlayerLocalAuditImage) (protected : list Z) (through retain : Z).

Definition prunable (c : CheckpointSealDraft) : Prop :=
  cp_epoch c ∉ protected /\ cp_epoch c ∉ equivocationEpochs (im_equivocations image) /\
  forall entry, entry ∈ im_outbox image -> ob_epoch entry = cp_epoch c ->
    ob_checkpoint_digest entry = cp_checkpoint_digest c -> is_acknowledged entry = true.

Lemma existsb_eqb_false x l : existsb (Z.eqb x) l = false <-> x ∉ l.
Proof.
  rewrite <- not_true_iff_false, existsb_exists. split.
  - intros Hn Hx. apply Hn. exists x. rewrite <- list_elem_of_In. split; [done|lia].
  - intros Hx (y & Hy & ->%Z.eqb_eq). by apply list_elem_of_In in Hy.
Qed.
Lemma filter_id {A} (f : A -> bool) l : (forall x, x ∈ l -> f x = true) -> List.filter f l = l.
Proof.
  induction l as [|x l IH]; intros Hf; [done|]. cbn. rewrite (Hf x) by left. f_equal. apply IH. intros y Hy. apply Hf. by right.
Qed.

Lemma pruned_chain e p cps cls e' p' p2 : chain_to e p cps cls e' p' ->
  prunedPrefix image protected through retain e p cps = Some (through + 1, p2) -> e <= through + 1 ->
  chain_to (through + 1) p2 (List.filter (fun c => through <? cp_epoch c) cps)
    (List.filter (fun cl => through <? cl_epoch cl) cls) e' p' /\
  forall c, c ∈ cps -> cp_epoch c <= through -> prunable c.
Proof.
  intros Hc0 Hp0 He0. revert e p cls Hc0 Hp0 He0. chain_induction cps cls; cbn [prunedPrefix List.filter].
  - intros [= -> ->] _. split; [by apply chain_nil|by intros c ?%elem_of_nil].
  - pose proof (chain_checkpoints _ _ _ _ _ _ Hc) as (_ & _ & Hin). pose proof (chain_closures _ _ _ _ _ _ Hc) as (_ & Hincl).
    rewrite Hle. destruct (Z.ltb_spec through (cp_epoch c)) as [Ht|Ht].
    + intros [= E <-] He. rewrite !filter_id.
      * split; [rewrite <- E; by apply chain_to_cons|]. intros x [->|Hx]%elem_of_cons; [lia|]. destruct (Hin x Hx). lia.
      * intros x Hx. destruct (Hincl x Hx). lia.
      * intros x Hx. destruct (Hin x Hx). lia.
    + match goal with |- (if ?g then _ else _) = _ -> _ => destruct g eqn:Hg; [done|] end. intros Hp He.
      destruct (IH _ _ _ Hc Hp ltac:(lia)) as [Hch Hpr]. split; [done|].
      intros x [->|Hx]%elem_of_cons Hxt; [|by apply Hpr]. rewrite !orb_false_iff, !existsb_eqb_false in Hg.
      destruct Hg as ((((((_ & _) & _) & Hn) & Hq) & _) & Ho). split_and!; [done|done|].
      intros entry Hin' He' Hd. destruct (is_acknowledged entry) eqn:Ea; [done|]. apply not_true_iff_false in Ho. destruct Ho.
      apply existsb_exists. exists entry. rewrite Ea. split; [|done]. apply filter_In. rewrite <- list_elem_of_In, Hd, He', str_eqb_refl.
      split; [done|lia].
Qed.
Lemma prefix_parent e p cps cls e' p' e2 p2 : chain_to e p cps cls e' p' ->
  prunedPrefix image protected through retain e p cps = Some (e2, p2) -> nonempty p = true -> nonempty p2 = true.
Proof.
  intros Hc0. revert e p cls Hc0. chain_induction cps cls; cbn [prunedPrefix]; [by intros [= _ ->]|].
  destruct (_ <? _); [by intros [= _ ->]|].
  match goal with |- (if ?g then _ else _) = _ -> _ => destruct g; [done|] end. intros Hp _. apply (IH _ _ _ Hc Hp).
  unfold playerLocalCheckpointValid in Hv. rewrite !andb_true_iff in Hv. tauto.
Qed.
End Prune.
End Chains.

Lemma find_checkpoint_in cps c : ascending cp_epoch cps -> c ∈ cps -> find_checkpoint cps (cp_epoch c) = Some c.
Proof.
  intros Ha Hc. unfold find_checkpoint. destruct (List.find _ cps) as [c'|] eqn:E.
  - apply List.find_some in E as [Hc' E]. apply list_elem_of_In in Hc'. f_equal. apply (ascending_inj _ _ _ _ Ha); [done|done|lia].
  - pose proof (List.find_none _ _ E c) as Hn. rewrite <- list_elem_of_In in Hn. specialize (Hn Hc). cbn in Hn. lia.
Qed.
Lemma find_checkpoint_Some cps e c : find_checkpoint cps e = Some c -> c ∈ cps /\ cp_epoch c = e.
Proof. unfold find_checkpoint. intros [Hin E]%List.find_some. rewrite list_elem_of_In. split; [done|lia]. Qed.
Lemma find_hold_Some holds id h : find_hold holds id = Some h -> h ∈ holds /\ eh_hold_id h = id.
Proof. unfold find_hold. intros [Hin E]%List.find_some. rewrite list_elem_of_In. split; [done|by apply str_eqb_eq]. Qed.

(** ** What the tests of write sets give *)

Lemma sealEntriesValid_spec b c first index seen entries : sealEntriesValid b c first index seen entries = true ->
  (forall e, e ∈ entries -> ob_boundary e = b /\ nonempty (ob_destination_id e) = true /\ ob_epoch e = cp_epoch c /\
    ob_checkpoint_digest e = cp_checkpoint_digest c /\ ob_canonical_envelope e = cp_canonical_envelope c /\
    ob_state e = OutboxPending /\ first + index <= ob_created_order e < first + index + zlength entries /\
    ob_destination_id e ∉ seen) /\
  NoDup (ob_created_order <$> entries) /\ NoDup (ob_destination_id <$> entries).
Proof.
  unfold zlength. revert index seen. induction entries as [|e rest IH]; intros index seen; cbn [sealEntriesValid].
  { intros _. split_and!; [by intros e ?%elem_of_nil|constructor|constructor]. }
  rewrite !andb_true_iff, negb_true_iff. intros ((((((((Hb & Hd) & Hs) & He) & Hg) & Hv) & Ho) & Hst) & Hr).
  apply same_boundary_eq in Hb. apply str_eqb_eq in Hg, Hv. apply Z.eqb_eq in He, Ho.
  assert (Hst' : ob_state e = OutboxPending) by (by destruct (ob_state e)).
  assert (Hs' : ob_destination_id e ∉ seen).
  { intros Hin. apply not_true_iff_false in Hs. apply Hs, existsb_exists. exists (ob_destination_id e).
    rewrite str_eqb_refl. split; [by apply list_elem_of_In|done]. }
  destruct (IH _ _ Hr) as (Hin & Hno & Hnd). cbn [length]. split_and!.
  - intros x [->|Hx]%elem_of_cons; [split_and!; (done || lia)|].
    destruct (Hin x Hx) as (? & ? & ? & ? & ? & ? & ? & Hn). apply not_elem_of_cons in Hn as [_ Hn]. split_and!; (done || lia).
  - rewrite fmap_cons. apply NoDup_cons. split; [|done]. intros (x & E & Hx)%list_elem_of_fmap. destruct (Hin x Hx) as (_ & _ & _ & _ & _ & _ & ? & _). lia.
  - rewrite fmap_cons. apply NoDup_cons. split; [|done]. intros (x & E & Hx)%list_elem_of_fmap.
    destruct (Hin x Hx) as (_ & _ & _ & _ & _ & _ & _ & Hn). apply Hn. rewrite E. left.
Qed.
Lemma protectEpochs_spec anchor seen epochs l : protectEpochs anchor seen epochs = Some l -> l = seen ++ epochs.
Proof.
  revert seen. induction epochs as [|e epochs IH]; intros seen; cbn [protectEpochs]; [intros [= <-]; by rewrite app_nil_r|].
  destruct (_ || _); [done|]. intros ->%IH. by rewrite <- app_assoc.
Qed.

Record seal_accepted (cfg : PlayerLocalStoreConfiguration) (ws : PlayerLocalSealWriteSet) : Prop := {
  sa_checkpoint : playerLocalCheckpointValid (cfg_boundary cfg) (sw_checkpoint ws) = true;
  sa_closure : playerLocalClosureValid (cfg_boundary cfg) (sw_consumed_closure ws) = true;
  sa_epoch : cp_epoch (sw_checkpoint ws) = sn_current_epoch (sw_expected_snapshot ws) + 1;
  sa_parent : cp_previous_checkpoint (sw_checkpoint ws) = sn_current_digest (sw_expected_snapshot ws);
  sa_closure_epoch : cl_epoch (sw_consumed_closure ws) = cp_epoch (sw_checkpoint ws);
  sa_head : sw_next_head ws = mkHead (cfg_boundary cfg) (cp_epoch (sw_checkpoint ws)) (cp_checkpoint_digest (sw_checkpoint ws));
  sa_some : sw_outbox_entries ws <> [];
  sa_count : sn_outbox_entry_count (sw_expected_snapshot ws) + zlength (sw_outbox_entries ws) <= cfg_outbox_capacity cfg;
  sa_order : sw_next_created_order ws = sn_next_created_order (sw_expected_snapshot ws) + zlength (sw_outbox_entries ws);
  sa_order_safe : isSafeInteger (sw_next_created_order ws) = true;
  sa_entries : sealEntriesValid (cfg_boundary cfg) (sw_checkpoint ws) (sn_next_created_order (sw_expected_snapshot ws)) 0 []
                 (sw_outbox_entries ws) = true;
}.
Lemma seal_valid_spec cfg ws : playerLocalSealWriteSetValid cfg ws = true -> seal_accepted cfg ws.
Proof.
  unfold playerLocalSealWriteSetValid. rewrite !andb_true_iff, negb_true_iff, !Z.eqb_eq, !str_eqb_eq, same_head_eq, Z.leb_le, Z.eqb_neq.
  intros ((((((((((((_ & ?) & ?) & ?) & ?) & ?) & ?) & Hn) & ?) & ?) & ?) & ?) & ?). split; try done; try congruence.
  by intros E; rewrite E in Hn.
Qed.

Record prune_accepted (image : PlayerLocalAuditImage) (ws : PlayerLocalPruneWriteSet) : Prop := {
  pa_revision : pw_expected_revision ws = im_storage_revision image;
  pa_boundary : hd_boundary (pw_next_anchor ws) = im_boundary image;
  pa_after : hd_epoch (im_retention_anchor image) < hd_epoch (pw_next_anchor ws) <= hd_epoch (im_head image);
  pa_prefix : prunedPrefix image (pr_protected_epochs ws ++ activeHoldEpochs (im_evidence_holds image))
     (hd_epoch (pw_next_anchor ws)) (pr_retain_from_epoch ws) (hd_epoch (im_retention_anchor image) + 1)
     (hd_checkpoint_digest (im_retention_anchor image)) (im_checkpoints image) =
     Some (hd_epoch (pw_next_anchor ws) + 1, hd_checkpoint_digest (pw_next_anchor ws));
}.
Lemma prune_valid_spec image ws : playerLocalPruneWriteSetValid image ws = true -> prune_accepted image ws.
Proof.
  unfold playerLocalPruneWriteSetValid. destruct (_ || _) eqn:Hg; [done|].
  rewrite !orb_false_iff, !negb_false_iff, same_anchor_eq, same_boundary_eq, Z.eqb_eq, Z.leb_gt, Z.ltb_ge, Z.ltb_ge, Z.leb_gt in Hg.
  destruct Hg as ((((((((_ & Hr) & Ha) & Hb) & _) & _) & H1) & _) & H2).
  destruct (protectEpochs _ _ _) as [l|] eqn:Ep; [|done]. apply protectEpochs_spec in Ep as ->. cbn [app].
  destruct (prunedPrefix _ _ _ _ _ _ _) as [[e p]|] eqn:E; [|done]. intros [He Hp]%andb_true_iff.
  apply Z.eqb_eq in He. apply str_eqb_eq in Hp. rewrite Ha in H1. split; [done|done|lia|congruence].
Qed.

Lemma unacknowledged_perm l l' : l ≡ₚ l' -> unacknowledged l = unacknowledged l'.
Proof.
  unfold unacknowledged, zlength. intros Hp. f_equal. induction Hp; cbn; [done| | |congruence].
  - destruct (is_acknowledged x); cbn; congruence.
  - destruct (is_acknowledged x), (is_acknowledged y); done.
Qed.
Lemma unacknowledged_app l l' : unacknowledged (l ++ l') = unacknowledged l + unacknowledged l'.
Proof. unfold unacknowledged, zlength. rewrite List.filter_app, length_app. lia. Qed.
Lemma unacknowledged_cons e l : unacknowledged (e :: l) = (if is_acknowledged e then 0 else 1) + unacknowledged l.
Proof. unfold unacknowledged, zlength. cbn. destruct (is_acknowledged e); cbn [negb length]; lia. Qed.
Lemma unacknowledged_sublist l l' : l `sublist_of` l' -> unacknowledged l <= unacknowledged l'.
Proof. induction 1; rewrite ?unacknowledged_cons; [done| |]; case_match; lia. Qed.
Lemma unacknowledged_le l : 0 <= unacknowledged l <= zlength l.
Proof. unfold unacknowledged, zlength. pose proof (List.filter_length_le (fun e => negb (is_acknowledged e)) l). lia. Qed.
Lemma maxCreatedOrder_lt l n : 0 <= n -> (forall e, e ∈ l -> ob_created_order e < n) -> maxCreatedOrder l < n.
Proof.
  unfold maxCreatedOrder. assert (Hg : forall m, m < n -> (forall e, e ∈ l -> ob_created_order e < n) ->
    foldl (fun m entry => Z.max m (ob_created_order entry)) m l < n).
  { induction l as [|x l IH]; intros m Hm Hl; [done|]. cbn. apply IH.
    - specialize (Hl x ltac:(left)). lia.
    - intros e He. apply Hl. by right. }
  intros. apply Hg; [lia|done].
Qed.
