(* ===== verification/PlayerStore.v ===== *)
(** * The player-local store in the browser

    [cf-game-audit/web/src/audit/player-local-indexeddb.ts]: the audit image in
    twelve object stores.  Every operation is one transaction; [hook] is
    [injectWriteFault], the error with which a write fails at a point.  The
    stores that hold one row have the constant key [SINGLETON_KEY]. *)
From Stdlib Require Import ZifyBool.
From S2P Require Import Prelude Json Async IndexedDb ObjectStore PlayerLocal.
Set Default Goal Selector "!".
Import Local.

Module PlayerDb.

Record StoredConfiguration := mkStoredConfiguration {
  sc_configuration : PlayerLocalStoreConfiguration;
  sc_next_created_order : Z;
  sc_storage_revision : Z;
}.
Record StoredEquivocation := mkStoredEquivocation {
  se_author_id : jsstr;
  se_counter : Z;
  se_event_digest : jsstr;
  se_conflicting : PlayerLocalAuditEvent;
}.
Record player_db := mkDb {
  db_config : list StoredConfiguration;
  db_events : list PlayerLocalAuditEvent;
  db_equivocations : list StoredEquivocation;
  db_checkpoints : list CheckpointSealDraft;
  db_head : list CheckpointSealHead;
  db_retention : list PlayerLocalRetentionAnchor;
  db_holds : list PlayerLocalEvidenceHold;
  db_cursors : list PlayerLocalEvidenceInboxCursor;
  db_jobs : list PlayerLocalEvidencePollJob;
  db_closures : list EpochClosureEvidence;
  db_outbox : list PlayerLocalCheckpointOutboxRecord;
  db_acks : list CheckpointAckEvidence;
}.
Definition empty_db : player_db := mkDb [] [] [] [] [] [] [] [] [] [] [] [].

Definition SINGLETON_KEY : idb_key := [KStr (js "singleton")].
Definition event_key (author_id : jsstr) (counter : Z) : idb_key := [KStr author_id; KNum counter].
Definition outboxDeliveryKey (destinationId : jsstr) (epoch : Z) (checkpointDigest : jsstr) : idb_key :=
  [KStr destinationId; KNum epoch; KStr checkpointDigest].

(** [createSchema]. *)
Definition CONFIG_STORE : object_store player_db StoredConfiguration :=
  mkStore db_config (fun r d => mkDb r (db_events d) (db_equivocations d) (db_checkpoints d) (db_head d)
    (db_retention d) (db_holds d) (db_cursors d) (db_jobs d) (db_closures d) (db_outbox d) (db_acks d))
    (fun _ => SINGLETON_KEY) None.
Definition EVENT_STORE : object_store player_db PlayerLocalAuditEvent :=
  mkStore db_events (fun r d => mkDb (db_config d) r (db_equivocations d) (db_checkpoints d) (db_head d)
    (db_retention d) (db_holds d) (db_cursors d) (db_jobs d) (db_closures d) (db_outbox d) (db_acks d))
    (fun e => event_key (pe_author_id e) (pe_counter e)) None.
Definition EQUIVOCATION_STORE : object_store player_db StoredEquivocation :=
  mkStore db_equivocations (fun r d => mkDb (db_config d) (db_events d) r (db_checkpoints d) (db_head d)
    (db_retention d) (db_holds d) (db_cursors d) (db_jobs d) (db_closures d) (db_outbox d) (db_acks d))
    (fun e => event_key (se_author_id e) (se_counter e) ++ [KStr (se_event_digest e)]) None.
Definition CHECKPOINT_STORE : object_store player_db CheckpointSealDraft :=
  mkStore db_checkpoints (fun r d => mkDb (db_config d) (db_events d) (db_equivocations d) r (db_head d)
    (db_retention d) (db_holds d) (db_cursors d) (db_jobs d) (db_closures d) (db_outbox d) (db_acks d))
    (fun c => [KNum (cp_epoch c)]) None.
Definition HEAD_STORE : object_store player_db CheckpointSealHead :=
  mkStore db_head (fun r d => mkDb (db_config d) (db_events d) (db_equivocations d) (db_checkpoints d) r
    (db_retention d) (db_holds d) (db_cursors d) (db_jobs d) (db_closures d) (db_outbox d) (db_acks d))
    (fun _ => SINGLETON_KEY) None.
Definition RETENTION_STORE : object_store player_db PlayerLocalRetentionAnchor :=
  mkStore db_retention (fun r d => mkDb (db_config d) (db_events d) (db_equivocations d) (db_checkpoints d) (db_head d)
    r (db_holds d) (db_cursors d) (db_jobs d) (db_closures d) (db_outbox d) (db_acks d))
    (fun _ => SINGLETON_KEY) None.
Definition EVIDENCE_HOLD_STORE : object_store player_db PlayerLocalEvidenceHold :=
  mkStore db_holds (fun r d => mkDb (db_config d) (db_events d) (db_equivocations d) (db_checkpoints d) (db_head d)
    (db_retention d) r (db_cursors d) (db_jobs d) (db_closures d) (db_outbox d) (db_acks d))
    (fun h => [KStr (eh_hold_id h)]) None.
Definition EVIDENCE_INBOX_CURSOR_STORE : object_store player_db PlayerLocalEvidenceInboxCursor :=
  mkStore db_cursors (fun r d => mkDb (db_config d) (db_events d) (db_equivocations d) (db_checkpoints d) (db_head d)
    (db_retention d) (db_holds d) r (db_jobs d) (db_closures d) (db_outbox d) (db_acks d))
    (fun c => [KStr (cu_source_id c)]) None.
Definition EVIDENCE_POLL_JOB_STORE : object_store player_db PlayerLocalEvidencePollJob :=
  mkStore db_jobs (fun r d => mkDb (db_config d) (db_events d) (db_equivocations d) (db_checkpoints d) (db_head d)
    (db_retention d) (db_holds d) (db_cursors d) r (db_closures d) (db_outbox d) (db_acks d))
    (fun j => [KStr (pj_source_id j)]) None.
Definition CLOSURE_STORE : object_store player_db EpochClosureEvidence :=
  mkStore db_closures (fun r d => mkDb (db_config d) (db_events d) (db_equivocations d) (db_checkpoints d) (db_head d)
    (db_retention d) (db_holds d) (db_cursors d) (db_jobs d) r (db_outbox d) (db_acks d))
    (fun c => [KNum (cl_epoch c)]) None.
Definition OUTBOX_STORE : object_store player_db PlayerLocalCheckpointOutboxRecord :=
  mkStore db_outbox (fun r d => mkDb (db_config d) (db_events d) (db_equivocations d) (db_checkpoints d) (db_head d)
    (db_retention d) (db_holds d) (db_cursors d) (db_jobs d) (db_closures d) r (db_acks d))
    (fun e => [KNum (ob_created_order e)])
    (Some (fun e => outboxDeliveryKey (ob_destination_id e) (ob_epoch e) (ob_checkpoint_digest e))).
Definition ACK_STORE : object_store player_db CheckpointAckEvidence :=
  mkStore db_acks (fun r d => mkDb (db_config d) (db_events d) (db_equivocations d) (db_checkpoints d) (db_head d)
    (db_retention d) (db_holds d) (db_cursors d) (db_jobs d) (db_closures d) (db_outbox d) r)
    (fun a => outboxDeliveryKey (ack_authority_id a) (ack_epoch a) (ack_checkpoint_digest a)) None.

Inductive FaultPoint :=
| after_history | after_head | after_outbox | after_closure
| after_events | after_checkpoints | after_anchor
| after_hold | after_cursor.
#[export] Instance fault_point_eq_dec : EqDecision FaultPoint.
Proof. solve_decision. Defined.

Definition fault_name (point : FaultPoint) : jsstr :=
  match point with
  | after_history => js "after_history" | after_head => js "after_head" | after_outbox => js "after_outbox"
  | after_closure => js "after_closure" | after_events => js "after_events" | after_checkpoints => js "after_checkpoints"
  | after_anchor => js "after_anchor" | after_hold => js "after_hold" | after_cursor => js "after_cursor"
  end.

Inductive EventAdmission := EventStored | EventDuplicate | EventEquivocation | EventRefused (reason : jsstr).
Inductive SealCommitResult := SealCommitted | SealConcurrentWrite | SealRefused.
Inductive OutboxAckResult := AckUpdated | AckNoChange | AckRefused (reason : jsstr).
Inductive PruneResult := Pruned (through : Z) | PruneNoChange | PruneConcurrentWrite | PruneRefused (reason : jsstr).
Inductive HoldAdmission := HoldStored | HoldDuplicate | HoldRefused (reason : jsstr).
Inductive HoldResolutionResult := ResolutionResolved | ResolutionNoChange | ResolutionRefused (reason : jsstr).
Inductive InboxApplyResult := InboxApplied | InboxConcurrentWrite | InboxRefused.
Inductive JobAdmission := JobStored | JobDuplicate | JobRefused (reason : jsstr).
Inductive JobTerminal := TerminalExpired | TerminalEscalated.
Inductive JobClaimResult :=
| JobClaimed (job : PlayerLocalEvidencePollJob)
| JobNotDue | JobNotFound
| JobTerminated (state : JobTerminal)
| JobClaimRefused (reason : jsstr).
Inductive JobCompletionResult := CompletionUpdated | CompletionConcurrentWrite | CompletionRefused (reason : jsstr).
Inductive JobEscalationResult := EscalationUpdated | EscalationNoChange | EscalationNotFound | EscalationRefused (reason : jsstr).

Definition sameConfiguration (left right : PlayerLocalStoreConfiguration) : bool :=
  samePlayerLocalBoundary (cfg_boundary left) (cfg_boundary right) &&
  str_eqb (cfg_genesis_digest left) (cfg_genesis_digest right) &&
  (cfg_outbox_capacity left =? cfg_outbox_capacity right).
Definition configurationValid (configuration : PlayerLocalStoreConfiguration) : bool :=
  playerLocalBoundaryValid (cfg_boundary configuration) && nonempty (cfg_genesis_digest configuration) &&
  isNonNegativeInteger (cfg_outbox_capacity configuration).
Definition ackValid (boundary : AuditBoundary) (evidence : CheckpointAckEvidence) : bool :=
  samePlayerLocalBoundary boundary (ack_boundary evidence) && nonempty (ack_authority_id evidence) &&
  isNonNegativeInteger (ack_epoch evidence) && nonempty (ack_checkpoint_digest evidence).

Definition with_revision (config : StoredConfiguration) (next_created_order revision : Z) : StoredConfiguration :=
  mkStoredConfiguration (sc_configuration config) next_created_order revision.
Definition with_outbox_state (row : PlayerLocalCheckpointOutboxRecord) (state : CheckpointOutboxState) :
    PlayerLocalCheckpointOutboxRecord :=
  mkOutbox (ob_boundary row) (ob_destination_id row) (ob_epoch row) (ob_checkpoint_digest row)
    (ob_canonical_envelope row) (ob_created_order row) state.
Definition resolved_hold (hold : PlayerLocalEvidenceHold) (resolution : PlayerLocalEvidenceHoldResolution) :
    PlayerLocalEvidenceHold :=
  mkHold (eh_boundary hold) (eh_hold_id hold) (eh_epoch hold) (eh_checkpoint_digest hold) (eh_kind hold)
    (eh_reference_digest hold) (HoldResolved (er_decision resolution) (er_resolution_digest resolution)).
Definition with_job_state (job : PlayerLocalEvidencePollJob) (attempts : Z) (state : PlayerLocalEvidencePollJobState) :
    PlayerLocalEvidencePollJob := mkJob job (pj_failures job) attempts state.
Definition rescheduled (job : PlayerLocalEvidencePollJob) (next_poll_at_ms failures : Z) : PlayerLocalEvidencePollJob :=
  mkJob (mkJobDraft (pj_boundary job) (pj_source_id job) (pj_endpoint job) (pj_initial_message_digest job)
           (pj_deadline_at_ms job) next_poll_at_ms) failures (pj_attempt_count job) JobScheduled.

(** [throw new PlayerLocalIndexedDbCorruptError(message)]; the handler aborts the
    transaction. *)
Definition corrupt {A} (message : jsstr) : idb player_db A := ithrow message.
Definition missing_configuration : jsstr := js "missing configuration".
Definition missing_anchor : jsstr := js "missing configuration/anchor".
Definition missing_head : jsstr := js "missing config/head/anchor".
(** [put({ ...config, storage_revision: config.storage_revision + 1 })]. *)
Definition bump (config : StoredConfiguration) : idb player_db True :=
  idb_put CONFIG_STORE (with_revision config (sc_next_created_order config) (sc_storage_revision config + 1)).

Section Store.
Context `{JsHost} `{UrlParser} (hook : FaultPoint -> option jsstr).
Context (expectedConfiguration : PlayerLocalStoreConfiguration).

Definition transaction {A} (body : idb player_db A) : async player_db A := idb_transaction id (fun d _ => d) body.
(** [inject], [injectPrune] and [injectEvidenceInbox], which differ in their error. *)
Definition inject (kind : jsstr) (requested : option FaultPoint) (current : FaultPoint) : idb player_db True :=
  let~ _ := ifault (hook current) in
  iguard (bool_decide (requested = Some current))
    (js "injected IndexedDB player-local " ++ kind ++ js " fault: " ++ fault_name current) (iret I).

(** ** Reading the image *)

(** [left.localeCompare(right) || rest]. *)
Definition locale_then (left right : jsstr) (rest : bool) : bool :=
  let c := localeCompare left right in if c =? 0 then rest else c <? 0.
Definition event_le (l r : PlayerLocalAuditEvent) : bool :=
  locale_then (pe_author_id l) (pe_author_id r) (pe_counter l <=? pe_counter r).
Definition equivocation_le (l r : StoredEquivocation) : bool :=
  locale_then (se_author_id l) (se_author_id r)
    (if se_counter l =? se_counter r then locale_then (se_event_digest l) (se_event_digest r) true
     else se_counter l <? se_counter r).
Definition hold_le (l r : PlayerLocalEvidenceHold) : bool :=
  if eh_epoch l =? eh_epoch r then locale_then (eh_hold_id l) (eh_hold_id r) true else eh_epoch l <? eh_epoch r.
Definition ack_le (l r : CheckpointAckEvidence) : bool :=
  locale_then (ack_authority_id l) (ack_authority_id r)
    (if ack_epoch l =? ack_epoch r then locale_then (ack_checkpoint_digest l) (ack_checkpoint_digest r) true
     else ack_epoch l <? ack_epoch r).

(** [accepted.get(key)]: the last event with this key. *)
Definition accepted_event (events : list PlayerLocalAuditEvent) (row : StoredEquivocation) : option PlayerLocalAuditEvent :=
  last (List.filter (fun e => str_eqb (event_key_of e) (eventKey (se_author_id row) (se_counter row))) events).
Fixpoint join_equivocations (events : list PlayerLocalAuditEvent) (rows : list StoredEquivocation) :
    throws (list PlayerLocalEventEquivocation) :=
  match rows with
  | [] => inr []
  | row :: rest =>
      match accepted_event events row with
      | None => inl (js "orphan equivocation row")
      | Some e => let! l := join_equivocations events rest in inr (mkEquivocation e (se_conflicting row) :: l)
      end
  end.

Definition image_of (config : StoredConfiguration) (head anchor : CheckpointSealHead)
    (events : list PlayerLocalAuditEvent) (equivocations : list PlayerLocalEventEquivocation) (d : player_db) :
    PlayerLocalAuditImage :=
  mkImage (cfg_boundary (sc_configuration config)) (cfg_genesis_digest (sc_configuration config))
    (cfg_outbox_capacity (sc_configuration config)) events equivocations
    (js_sort (fun l r => cp_epoch l <=? cp_epoch r) (db_checkpoints d)) head anchor
    (js_sort hold_le (db_holds d))
    (js_sort (fun l r => locale_then (cu_source_id l) (cu_source_id r) true) (db_cursors d))
    (js_sort (fun l r : PlayerLocalEvidencePollJob => locale_then (pj_source_id l) (pj_source_id r) true) (db_jobs d))
    (js_sort (fun l r => cl_epoch l <=? cl_epoch r) (db_closures d))
    (js_sort (fun l r => ob_created_order l <=? ob_created_order r) (db_outbox d))
    (js_sort ack_le (db_acks d)) (sc_next_created_order config) (sc_storage_revision config).
Definition readImage : idb player_db PlayerLocalAuditImage :=
  let~ config := idb_get CONFIG_STORE SINGLETON_KEY in
  let~ head := idb_get HEAD_STORE SINGLETON_KEY in
  let~ retention := idb_get RETENTION_STORE SINGLETON_KEY in
  let~ events := idb_getAll EVENT_STORE in
  let~ conflicts := idb_getAll EQUIVOCATION_STORE in
  match config, head, retention with
  | Some config, Some head, Some anchor =>
      let events := js_sort event_le events in
      let~ equivocations := ithrows (join_equivocations events (js_sort equivocation_le conflicts)) in
      iread (image_of config head anchor events equivocations)
  | _, _, _ => corrupt missing_head
  end.
Definition image : async player_db PlayerLocalAuditImage := transaction readImage.

(** ** Opening *)

Definition genesis_head : CheckpointSealHead :=
  mkHead (cfg_boundary expectedConfiguration) (-1) (cfg_genesis_digest expectedConfiguration).
Definition configure : idb player_db True :=
  let~ existing := idb_get CONFIG_STORE SINGLETON_KEY in
  match existing with
  | Some existing =>
      iguard (negb (sameConfiguration (sc_configuration existing) expectedConfiguration))
        (js "player-local database boundary/configuration conflict") $
      let~ retention := idb_get RETENTION_STORE SINGLETON_KEY in
      match retention with Some _ => iret I | None => idb_add RETENTION_STORE genesis_head end
  | None =>
      let~ _ := idb_add CONFIG_STORE (mkStoredConfiguration expectedConfiguration 0 0) in
      let~ _ := idb_add HEAD_STORE genesis_head in
      idb_add RETENTION_STORE genesis_head
  end.
Definition assertValidImage : async player_db True :=
  let* img := image in
  match playerLocalAuditImageError img with Some reason => athrow reason | None => aret I end.
Definition open : async player_db True :=
  refuse_if (negb (configurationValid expectedConfiguration)) (js "invalid player-local store configuration") $
  let* _ := transaction configure in assertValidImage.

(** ** Events *)

Definition admit_body (event : PlayerLocalAuditEvent) : idb player_db EventAdmission :=
  let~ config := idb_get CONFIG_STORE SINGLETON_KEY in
  let~ retention := idb_get RETENTION_STORE SINGLETON_KEY in
  let~ accepted := idb_get EVENT_STORE (event_key (pe_author_id event) (pe_counter event)) in
  match config, retention with
  | Some config, Some anchor =>
      if pe_epoch event <=? hd_epoch anchor then iret (EventRefused (js "pruned_epoch")) else
      match accepted with
      | None => let~ _ := idb_add EVENT_STORE event in let~ _ := bump config in iret EventStored
      | Some accepted =>
          if str_eqb (pe_event_digest accepted) (pe_event_digest event) then
            iret (if (pe_epoch accepted =? pe_epoch event) &&
                     str_eqb (pe_canonical_event accepted) (pe_canonical_event event)
                  then EventDuplicate else EventRefused (js "digest_collision"))
          else
            let~ knownConflict := idb_get EQUIVOCATION_STORE
              (event_key (pe_author_id event) (pe_counter event) ++ [KStr (pe_event_digest event)]) in
            match knownConflict with
            | Some known =>
                iret (if (pe_epoch (se_conflicting known) =? pe_epoch event) &&
                         str_eqb (pe_canonical_event (se_conflicting known)) (pe_canonical_event event)
                      then EventEquivocation else EventRefused (js "digest_collision"))
            | None =>
                let~ _ := idb_add EQUIVOCATION_STORE
                  (mkStoredEquivocation (pe_author_id event) (pe_counter event) (pe_event_digest event) event) in
                let~ _ := bump config in
                iret EventEquivocation
            end
      end
  | _, _ => corrupt missing_anchor
  end.
Definition admitEvent (event : PlayerLocalAuditEvent) : async player_db EventAdmission :=
  if negb (playerLocalEventValid (cfg_boundary expectedConfiguration) event)
  then aret (EventRefused (js "invalid_event")) else transaction (admit_body event).

(** ** Checkpoints *)

Definition seal_image (config : StoredConfiguration) (head anchor : CheckpointSealHead)
    (checkpoints : list CheckpointSealDraft) (closures : list EpochClosureEvidence)
    (outbox : list PlayerLocalCheckpointOutboxRecord) : PlayerLocalAuditImage :=
  mkImage (cfg_boundary (sc_configuration config)) (cfg_genesis_digest (sc_configuration config))
    (cfg_outbox_capacity (sc_configuration config)) [] [] checkpoints head anchor [] [] [] closures outbox []
    (sc_next_created_order config) (sc_storage_revision config).
Definition commitSeal_body (writeSet : PlayerLocalSealWriteSet) (faultPoint : option FaultPoint) :
    idb player_db SealCommitResult :=
  let~ config := idb_get CONFIG_STORE SINGLETON_KEY in
  let~ head := idb_get HEAD_STORE SINGLETON_KEY in
  let~ retention := idb_get RETENTION_STORE SINGLETON_KEY in
  let~ checkpoints := idb_getAll CHECKPOINT_STORE in
  let~ closures := idb_getAll CLOSURE_STORE in
  let~ outbox := idb_getAll OUTBOX_STORE in
  match config, head, retention with
  | Some config, Some head, Some anchor =>
      if negb (sc_storage_revision config =? sw_expected_revision writeSet) then iret SealConcurrentWrite else
      let actualSnapshot := playerLocalSealSnapshot (seal_image config head anchor checkpoints closures outbox)
        (sw_checkpoint writeSet) (ob_destination_id <$> sw_outbox_entries writeSet) in
      if negb (samePlayerLocalSnapshot actualSnapshot (sw_expected_snapshot writeSet)) then iret SealConcurrentWrite else
      if negb (playerLocalSealWriteSetValid (sc_configuration config) writeSet) then iret SealRefused else
      let~ _ := idb_add CHECKPOINT_STORE (sw_checkpoint writeSet) in
      let~ _ := inject (js "seal") faultPoint after_history in
      let~ _ := idb_put HEAD_STORE (sw_next_head writeSet) in
      let~ _ := inject (js "seal") faultPoint after_head in
      let~ _ := idb_each (idb_add OUTBOX_STORE) (sw_outbox_entries writeSet) in
      let~ _ := inject (js "seal") faultPoint after_outbox in
      let~ _ := idb_add CLOSURE_STORE (sw_consumed_closure writeSet) in
      let~ _ := inject (js "seal") faultPoint after_closure in
      let~ _ := idb_put CONFIG_STORE
        (with_revision config (sw_next_created_order writeSet) (sc_storage_revision config + 1)) in
      iret SealCommitted
  | _, _, _ => corrupt missing_head
  end.
Definition commitSeal (writeSet : PlayerLocalSealWriteSet) (faultPoint : option FaultPoint) :
    async player_db SealCommitResult := transaction (commitSeal_body writeSet faultPoint).

Definition claim_outbox_body (createdOrder nowMs leaseExpiresAt : Z) :
    idb player_db (option PlayerLocalCheckpointOutboxRecord) :=
  let~ config := idb_get CONFIG_STORE SINGLETON_KEY in
  let~ row := idb_get OUTBOX_STORE [KNum createdOrder] in
  match config with
  | None => corrupt missing_configuration
  | Some config =>
      match row with
      | None => iret None
      | Some row =>
          if is_acknowledged row ||
             match ob_state row with OutboxInFlight lease => nowMs <? lease | _ => false end
          then iret None else
          let claimed := with_outbox_state row (OutboxInFlight leaseExpiresAt) in
          let~ _ := idb_put OUTBOX_STORE claimed in
          let~ _ := bump config in
          iret (Some claimed)
      end
  end.
Definition claimOutbox (createdOrder nowMs leaseDurationMs : Z) :
    async player_db (option PlayerLocalCheckpointOutboxRecord) :=
  if negb (isNonNegativeInteger createdOrder) || negb (isNonNegativeInteger nowMs) ||
     negb (isSafeInteger leaseDurationMs) || (leaseDurationMs <=? 0)
  then aret None else
  let leaseExpiresAt := nowMs + leaseDurationMs in
  if negb (isSafeInteger leaseExpiresAt) || (leaseExpiresAt <? nowMs) then aret None else
  transaction (claim_outbox_body createdOrder nowMs leaseExpiresAt).

Definition release_outbox_body (createdOrder : Z) : idb player_db bool :=
  let~ config := idb_get CONFIG_STORE SINGLETON_KEY in
  let~ row := idb_get OUTBOX_STORE [KNum createdOrder] in
  match config with
  | None => corrupt missing_configuration
  | Some config =>
      match row with
      | None => iret false
      | Some row =>
          match ob_state row with
          | OutboxInFlight _ =>
              let~ _ := idb_put OUTBOX_STORE (with_outbox_state row OutboxPending) in
              let~ _ := bump config in
              iret true
          | _ => iret false
          end
      end
  end.
Definition releaseOutbox (createdOrder : Z) : async player_db bool :=
  if negb (isNonNegativeInteger createdOrder) then aret false else transaction (release_outbox_body createdOrder).

(** [index(OUTBOX_DELIVERY_INDEX).get(key)]. *)
Definition delivery_row (evidence : CheckpointAckEvidence) : idb player_db (option PlayerLocalCheckpointOutboxRecord) :=
  iread (fun d => row_at (fun e => outboxDeliveryKey (ob_destination_id e) (ob_epoch e) (ob_checkpoint_digest e))
    (outboxDeliveryKey (ack_authority_id evidence) (ack_epoch evidence) (ack_checkpoint_digest evidence)) (db_outbox d)).
Definition acknowledge_body (evidence : CheckpointAckEvidence) : idb player_db OutboxAckResult :=
  let~ config := idb_get CONFIG_STORE SINGLETON_KEY in
  let~ row := delivery_row evidence in
  match config with
  | None => corrupt missing_configuration
  | Some config =>
      match row with
      | None => iret (AckRefused (js "ack_mismatch"))
      | Some row =>
          if is_acknowledged row then iret AckNoChange else
          let~ _ := idb_add ACK_STORE evidence in
          let~ _ := idb_put OUTBOX_STORE (with_outbox_state row OutboxAcknowledged) in
          let~ _ := bump config in
          iret AckUpdated
      end
  end.
Definition acknowledgeOutbox (evidence : CheckpointAckEvidence) : async player_db OutboxAckResult :=
  if negb (ackValid (cfg_boundary expectedConfiguration) evidence)
  then aret (AckRefused (js "invalid_ack")) else transaction (acknowledge_body evidence).

(** ** Holds *)

Definition place_hold_body (hold : PlayerLocalEvidenceHold) : idb player_db HoldAdmission :=
  let~ config := idb_get CONFIG_STORE SINGLETON_KEY in
  let~ retention := idb_get RETENTION_STORE SINGLETON_KEY in
  let~ checkpoint := idb_get CHECKPOINT_STORE [KNum (eh_epoch hold)] in
  let~ existing := idb_get EVIDENCE_HOLD_STORE [KStr (eh_hold_id hold)] in
  match config, retention with
  | Some config, Some anchor =>
      match existing with
      | Some existing =>
          iret (if (eh_epoch existing =? eh_epoch hold) &&
                   str_eqb (eh_checkpoint_digest existing) (eh_checkpoint_digest hold) &&
                   bool_decide (eh_kind existing = eh_kind hold) &&
                   str_eqb (eh_reference_digest existing) (eh_reference_digest hold)
                then HoldDuplicate else HoldRefused (js "hold_conflict"))
      | None =>
          if eh_epoch hold <=? hd_epoch anchor then iret (HoldRefused (js "pruned_epoch")) else
          match checkpoint with
          | Some checkpoint =>
              if negb (str_eqb (cp_checkpoint_digest checkpoint) (eh_checkpoint_digest hold))
              then iret (HoldRefused (js "checkpoint_mismatch")) else
              let~ _ := idb_add EVIDENCE_HOLD_STORE hold in let~ _ := bump config in iret HoldStored
          | None => iret (HoldRefused (js "checkpoint_mismatch"))
          end
      end
  | _, _ => corrupt missing_anchor
  end.
Definition placeEvidenceHold (hold : PlayerLocalEvidenceHold) : async player_db HoldAdmission :=
  if negb (playerLocalEvidenceHoldValid (cfg_boundary expectedConfiguration) hold) || negb (hold_is_active hold)
  then aret (HoldRefused (js "invalid_hold")) else transaction (place_hold_body hold).

Definition resolve_hold_body (resolution : PlayerLocalEvidenceHoldResolution) : idb player_db HoldResolutionResult :=
  let~ config := idb_get CONFIG_STORE SINGLETON_KEY in
  let~ existing := idb_get EVIDENCE_HOLD_STORE [KStr (er_hold_id resolution)] in
  match config with
  | None => corrupt missing_configuration
  | Some config =>
      match existing with
      | None => iret (ResolutionRefused (js "hold_missing"))
      | Some existing =>
          if negb (eh_epoch existing =? er_epoch resolution) ||
             negb (str_eqb (eh_checkpoint_digest existing) (er_checkpoint_digest resolution)) ||
             negb (str_eqb (eh_reference_digest existing) (er_reference_digest resolution))
          then iret (ResolutionRefused (js "hold_mismatch")) else
          match eh_state existing with
          | HoldResolved decision digest =>
              iret (if bool_decide (decision = er_decision resolution) && str_eqb digest (er_resolution_digest resolution)
                    then ResolutionNoChange else ResolutionRefused (js "resolution_conflict"))
          | HoldActive =>
              let~ _ := idb_put EVIDENCE_HOLD_STORE (resolved_hold existing resolution) in
              let~ _ := bump config in
              iret ResolutionResolved
          end
      end
  end.
Definition resolveEvidenceHold (resolution : PlayerLocalEvidenceHoldResolution) : async player_db HoldResolutionResult :=
  if negb (playerLocalEvidenceHoldResolutionValid (cfg_boundary expectedConfiguration) resolution)
  then aret (ResolutionRefused (js "invalid_resolution")) else transaction (resolve_hold_body resolution).

(** ** The evidence inbox *)

Definition apply_operation (current : PlayerLocalAuditImage) (operation : PlayerLocalEvidenceInboxOperation) :
    idb player_db True :=
  match operation with
  | PlaceHold hold =>
      if existsb (fun h => str_eqb (eh_hold_id h) (eh_hold_id hold)) (im_evidence_holds current)
      then iret I else idb_add EVIDENCE_HOLD_STORE hold
  | ResolveHold resolution =>
      match find_hold (im_evidence_holds current) (er_hold_id resolution) with
      | None => ithrow (js "TypeError")
      | Some existing =>
          if hold_is_active existing then idb_put EVIDENCE_HOLD_STORE (resolved_hold existing resolution) else iret I
      end
  end.
(** The last part of the inbox and prune transactions. *)
Definition bump_expected (changed : jsstr) (expected_revision : Z) : idb player_db True :=
  let~ config := idb_get CONFIG_STORE SINGLETON_KEY in
  match config with
  | None => corrupt changed
  | Some config =>
      iguard (negb (sc_storage_revision config =? expected_revision)) changed (bump config)
  end.
Definition inbox_body (writeSet : PlayerLocalEvidenceInboxWriteSet) (faultPoint : option FaultPoint) :
    idb player_db InboxApplyResult :=
  let~ current := readImage in
  if negb (im_storage_revision current =? iw_expected_revision writeSet) then iret InboxConcurrentWrite else
  if negb (playerLocalEvidenceInboxWriteSetValid current writeSet) then iret InboxRefused else
  let~ _ := apply_operation current (iw_operation writeSet) in
  let~ _ := inject (js "evidence inbox") faultPoint after_hold in
  let~ _ := if cu_sequence (iw_expected_cursor writeSet) =? -1
            then idb_add EVIDENCE_INBOX_CURSOR_STORE (iw_next_cursor writeSet)
            else idb_put EVIDENCE_INBOX_CURSOR_STORE (iw_next_cursor writeSet) in
  let~ _ := inject (js "evidence inbox") faultPoint after_cursor in
  let~ _ := bump_expected (js "configuration changed during evidence inbox apply") (iw_expected_revision writeSet) in
  iret InboxApplied.
Definition applyEvidenceInbox (writeSet : PlayerLocalEvidenceInboxWriteSet) (faultPoint : option FaultPoint) :
    async player_db InboxApplyResult := transaction (inbox_body writeSet faultPoint).

(** ** Poll jobs *)

Definition schedule_body (draft : PlayerLocalEvidencePollJobDraft) : idb player_db JobAdmission :=
  let~ config := idb_get CONFIG_STORE SINGLETON_KEY in
  let~ existing := idb_get EVIDENCE_POLL_JOB_STORE [KStr (pj_source_id draft)] in
  match config with
  | None => corrupt missing_configuration
  | Some config =>
      match existing with
      | Some existing =>
          iret (if samePlayerLocalEvidencePollJobDraft existing draft then JobDuplicate
                else JobRefused (js "source_conflict"))
      | None =>
          let~ _ := idb_add EVIDENCE_POLL_JOB_STORE (mkJob draft 0 0 JobScheduled) in
          let~ _ := bump config in
          iret JobStored
      end
  end.
Definition scheduleEvidencePollJob (draft : PlayerLocalEvidencePollJobDraft) : async player_db JobAdmission :=
  if negb (playerLocalEvidencePollJobDraftValid (cfg_boundary expectedConfiguration) draft)
  then aret (JobRefused (js "invalid_job")) else transaction (schedule_body draft).

Definition claim_job_body (sourceId : jsstr) (nowMs requestedLeaseExpiry : Z) : idb player_db JobClaimResult :=
  let~ config := idb_get CONFIG_STORE SINGLETON_KEY in
  let~ job := idb_get EVIDENCE_POLL_JOB_STORE [KStr sourceId] in
  match config with
  | None => corrupt missing_configuration
  | Some config =>
      match job with
      | None => iret JobNotFound
      | Some job =>
          match pj_state job with
          | JobExpired _ => iret (JobTerminated TerminalExpired)
          | JobEscalated _ _ => iret (JobTerminated TerminalEscalated)
          | _ =>
              if pj_deadline_at_ms job <=? nowMs then
                let~ _ := idb_put EVIDENCE_POLL_JOB_STORE (with_job_state job (pj_attempt_count job) (JobExpired nowMs)) in
                let~ _ := bump config in
                iret (JobTerminated TerminalExpired)
              else
              if match pj_state job with
                 | JobScheduled => nowMs <? pj_next_poll_at_ms job
                 | JobInFlight lease => nowMs <? lease
                 | _ => false
                 end then iret JobNotDue else
              let attemptCount := pj_attempt_count job + 1 in
              if negb (isSafeInteger attemptCount) then iret (JobClaimRefused (js "attempt_overflow")) else
              let claimed := with_job_state job attemptCount
                (JobInFlight (Z.min requestedLeaseExpiry (pj_deadline_at_ms job))) in
              let~ _ := idb_put EVIDENCE_POLL_JOB_STORE claimed in
              let~ _ := bump config in
              iret (JobClaimed claimed)
          end
      end
  end.
Definition claimEvidencePollJob (sourceId : jsstr) (nowMs leaseDurationMs : Z) : async player_db JobClaimResult :=
  if negb (bounded sourceId 256) || negb (isNonNegativeInteger nowMs) ||
     negb (isSafeInteger leaseDurationMs) || (leaseDurationMs <=? 0)
  then aret (JobClaimRefused (js "invalid_claim")) else
  let requestedLeaseExpiry := nowMs + leaseDurationMs in
  if negb (isSafeInteger requestedLeaseExpiry) || (requestedLeaseExpiry <=? nowMs)
  then aret (JobClaimRefused (js "invalid_claim"))
  else transaction (claim_job_body sourceId nowMs requestedLeaseExpiry).

Definition complete_job_body (completion : PlayerLocalEvidencePollJobCompletion) : idb player_db JobCompletionResult :=
  let~ config := idb_get CONFIG_STORE SINGLETON_KEY in
  let~ job := idb_get EVIDENCE_POLL_JOB_STORE [KStr (jc_source_id completion)] in
  match config with
  | None => corrupt missing_configuration
  | Some config =>
      match job with
      | None => iret (CompletionRefused (js "job_not_found"))
      | Some job =>
          if negb match pj_state job with
                  | JobInFlight lease =>
                      (pj_attempt_count job =? jc_expected_attempt_count completion) &&
                      (lease =? jc_expected_lease_expires_at_ms completion)
                  | _ => false
                  end then iret CompletionConcurrentWrite else
          let nextFailureCount := pj_failures job + 1 in
          let failuresAdvance := (jc_failures completion =? 0) || (jc_failures completion =? nextFailureCount) in
          if negb (isSafeInteger nextFailureCount) ||
             (jc_expected_lease_expires_at_ms completion <? jc_completed_at_ms completion) ||
             (pj_deadline_at_ms job <=? jc_completed_at_ms completion) ||
             (jc_next_poll_at_ms completion <? jc_completed_at_ms completion) ||
             (pj_deadline_at_ms job <? jc_next_poll_at_ms completion) || negb failuresAdvance
          then iret (CompletionRefused (js "invalid_completion")) else
          let~ _ := idb_put EVIDENCE_POLL_JOB_STORE
            (rescheduled job (jc_next_poll_at_ms completion) (jc_failures completion)) in
          let~ _ := bump config in
          iret CompletionUpdated
      end
  end.
Definition completeEvidencePollJob (completion : PlayerLocalEvidencePollJobCompletion) :
    async player_db JobCompletionResult :=
  if negb (bounded (jc_source_id completion) 256) ||
     negb (isNonNegativeInteger (jc_expected_attempt_count completion)) ||
     (jc_expected_attempt_count completion =? 0) ||
     negb (isNonNegativeInteger (jc_expected_lease_expires_at_ms completion)) ||
     negb (isNonNegativeInteger (jc_completed_at_ms completion)) ||
     negb (isNonNegativeInteger (jc_next_poll_at_ms completion)) ||
     negb (isNonNegativeInteger (jc_failures completion))
  then aret (CompletionRefused (js "invalid_completion")) else transaction (complete_job_body completion).

Definition escalate_body (sourceId : jsstr) (nowMs : Z) (reasonDigest : jsstr) : idb player_db JobEscalationResult :=
  let~ config := idb_get CONFIG_STORE SINGLETON_KEY in
  let~ job := idb_get EVIDENCE_POLL_JOB_STORE [KStr sourceId] in
  match config with
  | None => corrupt missing_configuration
  | Some config =>
      match job with
      | None => iret EscalationNotFound
      | Some job =>
          match pj_state job with
          | JobEscalated _ reason =>
              iret (if str_eqb reason reasonDigest then EscalationNoChange
                    else EscalationRefused (js "escalation_conflict"))
          | _ =>
              let~ _ := idb_put EVIDENCE_POLL_JOB_STORE
                (with_job_state job (pj_attempt_count job) (JobEscalated nowMs reasonDigest)) in
              let~ _ := bump config in
              iret EscalationUpdated
          end
      end
  end.
Definition escalateEvidencePollJob (sourceId : jsstr) (nowMs : Z) (reasonDigest : jsstr) :
    async player_db JobEscalationResult :=
  if negb (bounded sourceId 256) || negb (isNonNegativeInteger nowMs) || negb (bounded reasonDigest 4096)
  then aret (EscalationRefused (js "invalid_escalation")) else transaction (escalate_body sourceId nowMs reasonDigest).

(** ** Pruning *)

Definition prune_body (writeSet : PlayerLocalPruneWriteSet) (faultPoint : option FaultPoint) : idb player_db PruneResult :=
  let~ current := readImage in
  if negb (im_storage_revision current =? pw_expected_revision writeSet) then iret PruneConcurrentWrite else
  if negb (playerLocalPruneWriteSetValid current writeSet) then iret (PruneRefused (js "invalid_write_set")) else
  let through := hd_epoch (pw_next_anchor writeSet) in
  let~ _ := idb_each (fun event =>
    if pe_epoch event <=? through then idb_delete EVENT_STORE (event_key (pe_author_id event) (pe_counter event))
    else iret I) (im_events current) in
  let~ _ := idb_each (fun evidence =>
    if (pe_epoch (accepted evidence) <=? through) || (pe_epoch (conflicting evidence) <=? through)
    then idb_delete EQUIVOCATION_STORE (event_key (pe_author_id (accepted evidence)) (pe_counter (accepted evidence)) ++
           [KStr (pe_event_digest (conflicting evidence))])
    else iret I) (im_equivocations current) in
  let~ _ := inject (js "prune") faultPoint after_events in
  let~ _ := idb_each (fun entry =>
    if ob_epoch entry <=? through then idb_delete OUTBOX_STORE [KNum (ob_created_order entry)] else iret I)
    (im_outbox current) in
  let~ _ := idb_each (fun evidence =>
    if ack_epoch evidence <=? through then idb_delete ACK_STORE
      (outboxDeliveryKey (ack_authority_id evidence) (ack_epoch evidence) (ack_checkpoint_digest evidence))
    else iret I) (im_ack_history current) in
  let~ _ := inject (js "prune") faultPoint after_outbox in
  let~ _ := idb_each (fun hold =>
    if (eh_epoch hold <=? through) && negb (hold_is_active hold) then idb_delete EVIDENCE_HOLD_STORE [KStr (eh_hold_id hold)]
    else iret I) (im_evidence_holds current) in
  let~ _ := idb_each (fun checkpoint =>
    if cp_epoch checkpoint <=? through then idb_delete CHECKPOINT_STORE [KNum (cp_epoch checkpoint)] else iret I)
    (im_checkpoints current) in
  let~ _ := idb_each (fun closure =>
    if cl_epoch closure <=? through then idb_delete CLOSURE_STORE [KNum (cl_epoch closure)] else iret I)
    (im_consumed_closures current) in
  let~ _ := inject (js "prune") faultPoint after_checkpoints in
  let~ _ := idb_put RETENTION_STORE (pw_next_anchor writeSet) in
  let~ _ := inject (js "prune") faultPoint after_anchor in
  let~ _ := bump_expected (js "configuration changed during prune") (pw_expected_revision writeSet) in
  iret (Pruned through).
Definition pruneEvidence (writeSet : PlayerLocalPruneWriteSet) (faultPoint : option FaultPoint) :
    async player_db PruneResult := transaction (prune_body writeSet faultPoint).

(** ** The calls of a store, for runs of many *)

Inductive store_call :=
| CallOpen
| CallImage
| CallAdmit (event : PlayerLocalAuditEvent)
| CallSeal (writeSet : PlayerLocalSealWriteSet) (fault : option FaultPoint)
| CallClaimOutbox (createdOrder nowMs leaseDurationMs : Z)
| CallReleaseOutbox (createdOrder : Z)
| CallAcknowledge (evidence : CheckpointAckEvidence)
| CallPlaceHold (hold : PlayerLocalEvidenceHold)
| CallResolveHold (resolution : PlayerLocalEvidenceHoldResolution)
| CallInbox (writeSet : PlayerLocalEvidenceInboxWriteSet) (fault : option FaultPoint)
| CallSchedule (draft : PlayerLocalEvidencePollJobDraft)
| CallClaimJob (sourceId : jsstr) (nowMs leaseDurationMs : Z)
| CallCompleteJob (completion : PlayerLocalEvidencePollJobCompletion)
| CallEscalateJob (sourceId : jsstr) (nowMs : Z) (reasonDigest : jsstr)
| CallPrune (writeSet : PlayerLocalPruneWriteSet) (fault : option FaultPoint).
Inductive store_answer :=
| AnswerDone
| AnswerImage (img : PlayerLocalAuditImage)
| AnswerAdmit (r : EventAdmission)
| AnswerSeal (r : SealCommitResult)
| AnswerClaimOutbox (r : option PlayerLocalCheckpointOutboxRecord)
| AnswerReleaseOutbox (r : bool)
| AnswerAcknowledge (r : OutboxAckResult)
| AnswerPlaceHold (r : HoldAdmission)
| AnswerResolveHold (r : HoldResolutionResult)
| AnswerInbox (r : InboxApplyResult)
| AnswerSchedule (r : JobAdmission)
| AnswerClaimJob (r : JobClaimResult)
| AnswerCompleteJob (r : JobCompletionResult)
| AnswerEscalateJob (r : JobEscalationResult)
| AnswerPrune (r : PruneResult).
Definition answering {A} (f : A -> store_answer) (m : async player_db A) : async player_db store_answer :=
  let* a := m in aret (f a).
Definition store_serve (call : store_call) : async player_db store_answer :=
  match call with
  | CallOpen => answering (fun _ => AnswerDone) open
  | CallImage => answering AnswerImage image
  | CallAdmit event => answering AnswerAdmit (admitEvent event)
  | CallSeal writeSet fault => answering AnswerSeal (commitSeal writeSet fault)
  | CallClaimOutbox createdOrder nowMs duration => answering AnswerClaimOutbox (claimOutbox createdOrder nowMs duration)
  | CallReleaseOutbox createdOrder => answering AnswerReleaseOutbox (releaseOutbox createdOrder)
  | CallAcknowledge evidence => answering AnswerAcknowledge (acknowledgeOutbox evidence)
  | CallPlaceHold hold => answering AnswerPlaceHold (placeEvidenceHold hold)
  | CallResolveHold resolution => answering AnswerResolveHold (resolveEvidenceHold resolution)
  | CallInbox writeSet fault => answering AnswerInbox (applyEvidenceInbox writeSet fault)
  | CallSchedule draft => answering AnswerSchedule (scheduleEvidencePollJob draft)
  | CallClaimJob sourceId nowMs duration => answering AnswerClaimJob (claimEvidencePollJob sourceId nowMs duration)
  | CallCompleteJob completion => answering AnswerCompleteJob (completeEvidencePollJob completion)
  | CallEscalateJob sourceId nowMs reason => answering AnswerEscalateJob (escalateEvidencePollJob sourceId nowMs reason)
  | CallPrune writeSet fault => answering AnswerPrune (pruneEvidence writeSet fault)
  end.
End Store.
End PlayerDb.
