(* ===== verification/PlayerStoreFacts.v ===== *)
(** * What the player-local store keeps

    [sound]: what holds of the database between transactions, row by row; then
    the image it is read as passes [playerLocalAuditImageError].  [evolves]: what
    a transaction may change.  Every transaction keeps both. *)
From Stdlib Require Import ZifyBool.
From S2P Require Import Prelude Json Async IndexedDb ObjectStore PlayerLocal PlayerStore.
Set Default Goal Selector "!".
Import Local PlayerDb.

(** ** Handles *)

Class StoreLaws {D A} (s : object_store D A) := {
  rows_set : forall r d, rows_of s (set_rows s r d) = r;
  set_set : forall r r' d, set_rows s r (set_rows s r' d) = set_rows s r d;
  set_rows_of : forall d, set_rows s (rows_of s d) d = d;
}.
Ltac store_laws := split; [done|done|by intros []].
#[export] Instance config_laws : StoreLaws CONFIG_STORE. Proof. store_laws. Qed.
#[export] Instance event_laws : StoreLaws EVENT_STORE. Proof. store_laws. Qed.
#[export] Instance equivocation_laws : StoreLaws EQUIVOCATION_STORE. Proof. store_laws. Qed.
#[export] Instance checkpoint_laws : StoreLaws CHECKPOINT_STORE. Proof. store_laws. Qed.
#[export] Instance head_laws : StoreLaws HEAD_STORE. Proof. store_laws. Qed.
#[export] Instance retention_laws : StoreLaws RETENTION_STORE. Proof. store_laws. Qed.
#[export] Instance hold_laws : StoreLaws EVIDENCE_HOLD_STORE. Proof. store_laws. Qed.
#[export] Instance cursor_laws : StoreLaws EVIDENCE_INBOX_CURSOR_STORE. Proof. store_laws. Qed.
#[export] Instance job_laws : StoreLaws EVIDENCE_POLL_JOB_STORE. Proof. store_laws. Qed.
#[export] Instance closure_laws : StoreLaws CLOSURE_STORE. Proof. store_laws. Qed.
#[export] Instance outbox_laws : StoreLaws OUTBOX_STORE. Proof. store_laws. Qed.
#[export] Instance ack_laws : StoreLaws ACK_STORE. Proof. store_laws. Qed.

Section Deletes.
Context {D A X : Type} (s : object_store D A) {Hs : StoreLaws s}.

(** A loop that deletes the rows with the keys of some of the items. *)
Lemma idb_each_delete (test : X -> bool) (k : X -> idb_key) (l : list X) d d' r :
  idb_each (fun x => if test x then idb_delete s (k x) else iret I) l d = (d', inr r) ->
  exists rows, d' = set_rows s rows d /\ rows `sublist_of` rows_of s d /\
    forall y, y ∈ rows <-> y ∈ rows_of s d /\ forall x, x ∈ l -> test x = true -> key_path s y <> k x.
Proof.
  revert d. induction l as [|x l IH]; intros d; cbn [idb_each]; intros H.
  { idb_step H. exists (rows_of s d). rewrite set_rows_of. split_and!; [done|done|]. intros y. split; [|tauto].
    intros Hy. split; [done|]. by intros x ?%elem_of_nil. }
  idb_step H. assert (Hd0 : d0 = set_rows s (if test x then without (key_path s) (k x) (rows_of s d) else rows_of s d) d).
  { unfold idb_delete in E. destruct (test x); [by idb_step E|]. idb_step E. by rewrite set_rows_of. }
  clear E. destruct (IH _ H) as (rows & -> & Hsub & Hin). subst d0. rewrite set_set. rewrite rows_set in Hsub, Hin.
  exists rows. split_and!; [done| |].
  - etrans; [exact Hsub|]. destruct (test x); [apply sublist_filter|done].
  - intros y. rewrite Hin. destruct (test x) eqn:Et; rewrite ?elem_of_without; setoid_rewrite elem_of_cons; split.
    + intros [[Hy Hk] Hl]. split; [done|]. intros z [->|Hz]; [done|by apply Hl].
    + intros [Hy Hl]. split_and!; [done|by apply Hl; [left|]|]. intros z Hz. apply Hl. by right.
    + intros [Hy Hl]. split; [done|]. intros z [->|Hz]; [congruence|by apply Hl].
    + intros [Hy Hl]. split; [done|]. intros z Hz. apply Hl. by right.
Qed.
End Deletes.

(** A loop that adds rows with keys of their own. *)
Lemma idb_each_add {D A} (s : object_store D A) `{StoreLaws D A s} l d d' r :
  idb_each (idb_add s) l d = (d', inr r) -> rows_ok (key_path s) (unique_index s) (rows_of s d) ->
  exists rows, d' = set_rows s rows d /\ rows ≡ₚ l ++ rows_of s d /\ rows_ok (key_path s) (unique_index s) rows.
Proof.
  revert d. induction l as [|x l IH]; intros d; cbn [idb_each]; intros Hr Hok.
  { idb_step Hr. exists (rows_of s d). by rewrite set_rows_of. }
  idb_step Hr. apply idb_add_ok in E as (-> & Hk & Hi).
  destruct (IH _ Hr) as (rows & -> & Hp & Hok'); [rewrite rows_set; by apply rows_ok_insert|].
  exists rows. rewrite set_set, rows_set in *. split_and!; [done| |done]. rewrite Hp, insert_row_perm. cbn. by rewrite Permutation_middle.
Qed.

Lemma put_singleton {A} (k : idb_key) (x y : A) : put_row (fun _ => k) x [y] = [x].
Proof. unfold put_row, without. rewrite filter_cons_False by tauto. done. Qed.
Lemma rows_ok_sublist {A} (key : A -> idb_key) index rows rows' : rows' `sublist_of` rows -> rows_ok key index rows -> rows_ok key index rows'.
Proof.
  intros Hs [Hk Hi]. split.
  - eapply sublist_NoDup; [exact Hk|]. by apply fmap_sublist.
  - unfold index_distinct in *. destruct index as [f|]; [|done]. intros x y Hx Hy. apply Hi; by eapply elem_of_sublist.
Qed.

(** ** Soundness *)

Section Sound.
Context `{JsHost} `{UrlParser} (cfg : PlayerLocalStoreConfiguration).
Let b := cfg_boundary cfg.
Definition no_nul (s : jsstr) : Prop := 0%N ∉ s.

Definition anchor_ok (a : CheckpointSealHead) : Prop :=
  hd_boundary a = b /\ isSafeInteger (hd_epoch a) = true /\ -1 <= hd_epoch a /\ nonempty (hd_checkpoint_digest a) = true /\
  (hd_epoch a = -1 -> hd_checkpoint_digest a = cfg_genesis_digest cfg).
Definition chain_ok (a h : CheckpointSealHead) (cps : list CheckpointSealDraft) (cls : list EpochClosureEvidence) : Prop :=
  exists cps' cls', cps ≡ₚ cps' /\ cls ≡ₚ cls' /\ hd_boundary h = b /\
    chain_to b (hd_epoch a + 1) (hd_checkpoint_digest a) cps' cls' (hd_epoch h + 1) (hd_checkpoint_digest h) /\
    forall c, c ∈ cps -> no_nul (cp_checkpoint_digest c).
Definition event_ok (a : CheckpointSealHead) (e : PlayerLocalAuditEvent) : Prop :=
  playerLocalEventValid b e = true /\ hd_epoch a < pe_epoch e.
Definition equivocation_ok (a : CheckpointSealHead) (events : list PlayerLocalAuditEvent) (r : StoredEquivocation) : Prop :=
  event_ok a (se_conflicting r) /\ se_author_id r = pe_author_id (se_conflicting r) /\
  se_counter r = pe_counter (se_conflicting r) /\ se_event_digest r = pe_event_digest (se_conflicting r) /\
  no_nul (se_event_digest r) /\
  exists e, e ∈ events /\ pe_author_id e = se_author_id r /\ pe_counter e = se_counter r /\ pe_event_digest e <> se_event_digest r.
Definition at_checkpoint (cps : list CheckpointSealDraft) (epoch : Z) (digest : jsstr) : Prop :=
  exists c, c ∈ cps /\ cp_epoch c = epoch /\ cp_checkpoint_digest c = digest.
Definition hold_ok (cps : list CheckpointSealDraft) (h : PlayerLocalEvidenceHold) : Prop :=
  playerLocalEvidenceHoldValid b h = true /\ at_checkpoint cps (eh_epoch h) (eh_checkpoint_digest h).
Definition cursor_ok (c : PlayerLocalEvidenceInboxCursor) : Prop :=
  cu_boundary c = b /\ bounded (cu_source_id c) 256 = true /\ isNonNegativeInteger (cu_sequence c) = true /\
  bounded (cu_message_digest c) 4096 = true.
Definition job_ok (j : PlayerLocalEvidencePollJob) : Prop := playerLocalEvidencePollJobValid b j = true.
Definition lease_ok (state : CheckpointOutboxState) : bool :=
  match state with OutboxInFlight lease => isNonNegativeInteger lease | _ => true end.
Definition outbox_ok (cps : list CheckpointSealDraft) (order : Z) (e : PlayerLocalCheckpointOutboxRecord) : Prop :=
  exists c, c ∈ cps /\ cp_epoch c = ob_epoch e /\ ob_boundary e = b /\ nonempty (ob_destination_id e) = true /\
    ob_checkpoint_digest e = cp_checkpoint_digest c /\ ob_canonical_envelope e = cp_canonical_envelope c /\
    0 <= ob_created_order e < order /\ lease_ok (ob_state e) = true.
Definition delivery (e : PlayerLocalCheckpointOutboxRecord) : idb_key :=
  outboxDeliveryKey (ob_destination_id e) (ob_epoch e) (ob_checkpoint_digest e).
Definition acked (e : PlayerLocalCheckpointOutboxRecord) : Prop := ob_state e = OutboxAcknowledged.
Definition ack_ok (outbox : list PlayerLocalCheckpointOutboxRecord) (k : CheckpointAckEvidence) : Prop :=
  ackValid b k = true /\ exists e, e ∈ outbox /\ acked e /\ delivery e = key_path ACK_STORE k.

Definition store_ok {A} (s : object_store player_db A) (d : player_db) : Prop :=
  rows_ok (key_path s) (unique_index s) (rows_of s d).

Record sound (d : player_db) (order rev : Z) (a h : CheckpointSealHead) : Prop := {
  so_config : db_config d = [mkStoredConfiguration cfg order rev];
  so_head : db_head d = [h];
  so_retention : db_retention d = [a];
  so_rev : 0 <= rev;
  so_order : isNonNegativeInteger order = true;
  so_anchor : anchor_ok a;
  so_chain : chain_ok a h (db_checkpoints d) (db_closures d);
  so_events : forall e, e ∈ db_events d -> event_ok a e;
  so_equivocations : forall r, r ∈ db_equivocations d -> equivocation_ok a (db_events d) r;
  so_holds : forall h, h ∈ db_holds d -> hold_ok (db_checkpoints d) h;
  so_cursors : forall c, c ∈ db_cursors d -> cursor_ok c;
  so_jobs : forall j, j ∈ db_jobs d -> job_ok j;
  so_outbox : forall e, e ∈ db_outbox d -> outbox_ok (db_checkpoints d) order e;
  so_footprint : forall c, c ∈ db_checkpoints d -> exists e, e ∈ db_outbox d /\ ob_epoch e = cp_epoch c;
  so_capacity : unacknowledged (db_outbox d) <= cfg_outbox_capacity cfg;
  so_acks : forall k, k ∈ db_acks d -> ack_ok (db_outbox d) k;
  so_acked : forall e, e ∈ db_outbox d -> acked e -> exists k, k ∈ db_acks d /\ key_path ACK_STORE k = delivery e;
  so_event_store : store_ok EVENT_STORE d;
  so_equivocation_store : store_ok EQUIVOCATION_STORE d;
  so_checkpoint_store : store_ok CHECKPOINT_STORE d;
  so_hold_store : store_ok EVIDENCE_HOLD_STORE d;
  so_cursor_store : store_ok EVIDENCE_INBOX_CURSOR_STORE d;
  so_job_store : store_ok EVIDENCE_POLL_JOB_STORE d;
  so_closure_store : store_ok CLOSURE_STORE d;
  so_outbox_store : store_ok OUTBOX_STORE d;
  so_ack_store : store_ok ACK_STORE d;
}.

(** *** The image of a sound database is valid *)

Lemma event_valid_counter e : playerLocalEventValid b e = true -> 0 <= pe_counter e.
Proof. unfold playerLocalEventValid. rewrite !andb_true_iff, !safe_nonneg. lia. Qed.
Definition joined (events : list PlayerLocalAuditEvent) (r : StoredEquivocation) (ev : PlayerLocalEventEquivocation) : Prop :=
  conflicting ev = se_conflicting r /\ accepted ev ∈ events /\ pe_author_id (accepted ev) = se_author_id r /\
  pe_counter (accepted ev) = se_counter r /\ pe_event_digest (accepted ev) <> se_event_digest r.

Section Image.
Context (d : player_db) (order rev : Z) (a h : CheckpointSealHead) (Hs : sound d order rev a h).

Lemma event_key_inj x y : x ∈ db_events d -> y ∈ db_events d -> event_key_of x = event_key_of y -> x = y.
Proof.
  intros Hx Hy E. destruct (so_events _ _ _ _ _ Hs x Hx) as [Hvx _], (so_events _ _ _ _ _ Hs y Hy) as [Hvy _].
  apply eventKey_inj in E as [Ea Ec]; [|by eapply event_valid_counter..].
  eapply (keys_distinct_inj (key_path EVENT_STORE)); [apply (so_event_store _ _ _ _ _ Hs)|done|done|].
  cbn. by rewrite Ea, Ec.
Qed.
Lemma accepted_event_found r : r ∈ db_equivocations d ->
  exists ev, accepted_event (js_sort event_le (db_events d)) r = Some (accepted ev) /\ joined (db_events d) r ev.
Proof.
  intros Hr. destruct (so_equivocations _ _ _ _ _ Hs r Hr) as ((Hv & _) & _ & Hc & _ & _ & e & He & Ha & Hce & Hd).
  assert (Hk : event_key_of e = eventKey (se_author_id r) (se_counter r)) by (unfold event_key_of; congruence).
  unfold accepted_event. set (l := List.filter _ _). assert (Hel : e ∈ l).
  { apply list_elem_of_In, filter_In. rewrite <- list_elem_of_In, js_sort_perm, str_eqb_eq. done. }
  destruct (last l) as [x|] eqn:El; [|apply last_None in El; rewrite El in Hel; by apply elem_of_nil in Hel].
  exists (mkEquivocation x (se_conflicting r)). split; [done|]. apply last_Some_elem_of in El.
  apply list_elem_of_In, filter_In in El as [Hx Ex]. rewrite <- list_elem_of_In, js_sort_perm in Hx. apply str_eqb_eq in Ex.
  assert (x = e) as -> by (apply event_key_inj; [done|done|congruence]). done.
Qed.
Lemma join_found rows : (forall r, r ∈ rows -> r ∈ db_equivocations d) ->
  exists eqs, join_equivocations (js_sort event_le (db_events d)) rows = inr eqs /\ Forall2 (joined (db_events d)) rows eqs.
Proof.
  induction rows as [|r rows IH]; intros Hr; [by exists []|]. cbn [join_equivocations].
  destruct (accepted_event_found r) as (ev & -> & Hj); [apply Hr; left|].
  destruct IH as (eqs & -> & Hf); [intros x Hx; apply Hr; by right|]. cbn.
  exists (mkEquivocation (accepted ev) (se_conflicting r) :: eqs). split; [done|]. constructor; [|done].
  destruct Hj as (_ & Hj). split; [done|exact Hj].
Qed.
Definition current_image (eqs : list PlayerLocalEventEquivocation) : PlayerLocalAuditImage :=
  image_of (mkStoredConfiguration cfg order rev) h a (js_sort event_le (db_events d)) eqs d.
Lemma row_at_const {A} (k : idb_key) (x : A) l : row_at (fun _ => k) k (x :: l) = Some x.
Proof. unfold row_at. cbn. by rewrite bool_decide_eq_true_2. Qed.
Lemma get_config : row_at (key_path CONFIG_STORE) SINGLETON_KEY (db_config d) = Some (mkStoredConfiguration cfg order rev).
Proof. rewrite (so_config _ _ _ _ _ Hs). apply row_at_const. Qed.
Lemma get_head : row_at (key_path HEAD_STORE) SINGLETON_KEY (db_head d) = Some h.
Proof. rewrite (so_head _ _ _ _ _ Hs). apply row_at_const. Qed.
Lemma get_retention : row_at (key_path RETENTION_STORE) SINGLETON_KEY (db_retention d) = Some a.
Proof. rewrite (so_retention _ _ _ _ _ Hs). apply row_at_const. Qed.
Lemma sound_image : exists eqs, readImage d = (d, inr (current_image eqs)) /\
  Forall2 (joined (db_events d)) (js_sort equivocation_le (db_equivocations d)) eqs.
Proof.
  destruct (join_found (js_sort equivocation_le (db_equivocations d))) as (eqs & E & Hf).
  { intros r. by rewrite js_sort_perm. }
  exists eqs. split; [|done]. unfold readImage, ibind, idb_get, idb_getAll, iread. cbn [rows_of HEAD_STORE CONFIG_STORE RETENTION_STORE EVENT_STORE EQUIVOCATION_STORE].
  rewrite get_config, get_head, get_retention. unfold ithrows. by rewrite E.
Qed.

Lemma sorted_chain : exists cps cls,
  js_sort (fun l r => cp_epoch l <=? cp_epoch r) (db_checkpoints d) = cps /\ db_checkpoints d ≡ₚ cps /\
  js_sort (fun l r => cl_epoch l <=? cl_epoch r) (db_closures d) = cls /\ db_closures d ≡ₚ cls /\ hd_boundary h = b /\
  chain_to b (hd_epoch a + 1) (hd_checkpoint_digest a) cps cls (hd_epoch h + 1) (hd_checkpoint_digest h) /\
  ascending cp_epoch cps.
Proof.
  destruct (so_chain _ _ _ _ _ Hs) as (cps & cls & Hp & Hq & Hb & Hc & _). exists cps, cls.
  pose proof (chain_checkpoints _ _ _ _ _ _ _ Hc) as (_ & Ha & _). pose proof (chain_closures _ _ _ _ _ _ _ Hc) as (Ha' & _).
  split_and!; [by apply js_sort_by|done|by apply js_sort_by|done..].
Qed.
Lemma anchor_before_head : hd_epoch a <= hd_epoch h.
Proof.
  destruct sorted_chain as (cps & cls & _ & _ & _ & _ & _ & Hc & _). apply chain_checkpoints in Hc as (E & _). unfold zlength in E. lia.
Qed.
Lemma checkpoint_epoch c : c ∈ db_checkpoints d -> hd_epoch a < cp_epoch c <= hd_epoch h /\ playerLocalCheckpointValid b c = true.
Proof.
  destruct sorted_chain as (cps & cls & _ & Hp & _ & _ & _ & Hc & _). rewrite Hp. intros Hin.
  apply chain_checkpoints in Hc as (_ & _ & Hr). destruct (Hr c Hin). split; [lia|done].
Qed.
Lemma find_in_image epoch digest : at_checkpoint (db_checkpoints d) epoch digest ->
  exists c, find_checkpoint (js_sort (fun l r => cp_epoch l <=? cp_epoch r) (db_checkpoints d)) epoch = Some c /\
    cp_checkpoint_digest c = digest.
Proof.
  intros (c & Hc & <- & <-). exists c. split; [|done]. destruct sorted_chain as (cps & cls & -> & Hp & _ & _ & _ & _ & Ha).
  apply find_checkpoint_in; [done|]. by rewrite <- Hp.
Qed.

Context (eqs : list PlayerLocalEventEquivocation) (Hcfg : configurationValid cfg = true) (Hrev : rev <= MAX_SAFE_INTEGER).
Context (Heqs : Forall2 (joined (db_events d)) (js_sort equivocation_le (db_equivocations d)) eqs).
Let img := current_image eqs.

Lemma image_configuration : configurationInvalid img = false.
Proof.
  unfold configurationInvalid, img, current_image, image_of. cbn.
  apply andb_true_iff in Hcfg as [[Hb Hg]%andb_true_iff Hc]. rewrite Hb, Hg, Hc, (so_order _ _ _ _ _ Hs). pose proof (so_rev _ _ _ _ _ Hs).
  rewrite (proj2 (safe_nonneg rev)) by lia. cbn.
  pose proof (so_capacity _ _ _ _ _ Hs) as Hcap. rewrite <- (unacknowledged_perm _ _ (js_sort_perm (fun l r => ob_created_order l <=? ob_created_order r) (db_outbox d))) in Hcap. lia.
Qed.
Lemma image_anchor : anchorInvalid img = false.
Proof.
  destruct (so_anchor _ _ _ _ _ Hs) as (Hb & Hsafe & Hm & Hn & Hg). pose proof anchor_before_head.
  unfold anchorInvalid, img, current_image, image_of. cbn. rewrite (proj2 (same_boundary_eq _ _)) by done. rewrite Hsafe, Hn. cbn.
  rewrite (proj2 (Z.ltb_ge _ _)), (proj2 (Z.ltb_ge _ _)) by lia. cbn. apply andb_false_iff.
  destruct (Z.eqb_spec (hd_epoch a) (-1)); [right|by left]. rewrite Hg by done. by rewrite str_eqb_refl.
Qed.
Lemma image_events : distinct_rows (eventOk img) event_key_of [] (im_events img) = true.
Proof.
  apply distinct_rows_spec; [| |by intros ? ? ?%elem_of_nil].
  - apply Forall_forall. intros e. cbn. rewrite js_sort_perm. intros He. destruct (so_events _ _ _ _ _ Hs e He) as [Hv Ht].
    unfold eventOk. cbn. fold b. rewrite Hv. cbn. lia.
  - cbn. rewrite js_sort_perm. eapply (NoDup_fmap_transfer (key_path EVENT_STORE)); [apply (so_event_store _ _ _ _ _ Hs)|].
    intros x y Hx Hy E. by rewrite (event_key_inj x y Hx Hy E).
Qed.
Definition row_conflict_key (r : StoredEquivocation) : jsstr :=
  nul_join (eventKey (se_author_id r) (se_counter r)) (se_event_digest r).
Lemma conflict_keys l l' : Forall2 (joined (db_events d)) l l' -> (forall r, r ∈ l -> r ∈ db_equivocations d) ->
  conflictKey <$> l' = row_conflict_key <$> l.
Proof.
  induction 1 as [|r ev l l' (Hc & _ & Ha & Hn & _) _ IH]; intros Hin; [done|]. rewrite !fmap_cons.
  f_equal; [|apply IH; intros x Hx; apply Hin; by right]. destruct (so_equivocations _ _ _ _ _ Hs r) as (_ & _ & _ & Hd & _); [apply Hin; left|].
  unfold conflictKey, row_conflict_key. by rewrite Ha, Hn, Hc, Hd.
Qed.
Lemma joined_ok r ev : r ∈ db_equivocations d -> joined (db_events d) r ev -> equivocationOk img ev = true.
Proof.
  intros Hr (Hc & Hin & Ha & Hn & Hd). destruct (so_equivocations _ _ _ _ _ Hs r Hr) as ((Hv & Ht) & Ea & En & Ed & _).
  unfold equivocationOk. cbn. fold b. rewrite Hc, Hv, Ha, Ea, str_eqb_refl, Hn, En, Z.eqb_refl. rewrite <- Ed.
  rewrite (proj2 (str_eqb_neq _ _)) by done. rewrite bool_decide_eq_true_2; [cbn; lia|].
  apply list_elem_of_fmap_2. by rewrite js_sort_perm.
Qed.
Lemma image_equivocations : distinct_rows (equivocationOk img) conflictKey [] (im_equivocations img) = true.
Proof.
  assert (Hin : forall r, r ∈ js_sort equivocation_le (db_equivocations d) -> r ∈ db_equivocations d) by (intros r; by rewrite js_sort_perm).
  apply distinct_rows_spec; [| |by intros ? ? ?%elem_of_nil].
  - change (im_equivocations img) with eqs. apply Forall_forall. intros ev (i & Hi)%list_elem_of_lookup.
    destruct (Forall2_lookup_r _ _ _ _ _ Heqs Hi) as (r & Hr & Hj). apply (joined_ok r); [|done].
    apply Hin. by eapply list_elem_of_lookup_2.
  - change (im_equivocations img) with eqs. rewrite (conflict_keys _ _ Heqs Hin), js_sort_perm.
    eapply (NoDup_fmap_transfer (key_path EQUIVOCATION_STORE)); [apply (so_equivocation_store _ _ _ _ _ Hs)|].
    intros x y Hx Hy E. destruct (so_equivocations _ _ _ _ _ Hs x Hx) as ((Hvx & _) & _ & Ecx & _ & Hdx & _).
    destruct (so_equivocations _ _ _ _ _ Hs y Hy) as ((Hvy & _) & _ & Ecy & _ & Hdy & _).
    apply split_last_sep in E as [E Ed]; [|done..]. apply event_valid_counter in Hvx, Hvy. apply eventKey_inj in E as [E1 E2]; [|lia..].
    cbn. by rewrite E1, E2, Ed.
Qed.
Lemma image_chain : checkpointChain b (hd_epoch a + 1) (hd_checkpoint_digest a) (im_checkpoints img) (im_consumed_closures img) =
    Some (hd_epoch h + 1, hd_checkpoint_digest h) /\ length (im_consumed_closures img) = length (im_checkpoints img).
Proof. destruct sorted_chain as (cps & cls & E1 & _ & E2 & _ & _ & [Hc Hl] & _). cbn. by rewrite E1, E2. Qed.
Lemma image_head : samePlayerLocalHead (im_head img)
  (if 0 <? zlength (im_checkpoints img) then mkHead b (hd_epoch h + 1 - 1) (hd_checkpoint_digest h) else a) = true.
Proof.
  destruct sorted_chain as (cps & cls & E1 & _ & _ & _ & Hb & Hc & _). cbn. rewrite E1. apply same_head_eq.
  destruct cps as [|c cps]; cbn [zlength length Z.of_nat Z.ltb Z.compare].
  - apply chain_nil in Hc as (_ & He & Hd). destruct (so_anchor _ _ _ _ _ Hs) as (Hab & _).
    destruct h, a. cbn in *. f_equal; [congruence|lia|done].
  - rewrite (proj2 (Z.ltb_lt _ _)) by (unfold zlength; cbn; lia). destruct h. cbn in *. f_equal; [done|lia].
Qed.
Lemma image_holds : distinct_rows (holdOk img) eh_hold_id [] (im_evidence_holds img) = true.
Proof.
  apply distinct_rows_spec; [| |by intros ? ? ?%elem_of_nil]; cbn.
  - apply Forall_forall. intros x. rewrite js_sort_perm. intros Hx. destruct (so_holds _ _ _ _ _ Hs x Hx) as [Hv Hat].
    destruct (find_in_image _ _ Hat) as (c & E & Hd). unfold holdOk. change (im_boundary img) with b. rewrite Hv.
    replace (find_checkpoint (im_checkpoints img) (eh_epoch x)) with (Some c) by (symmetry; exact E). by rewrite Hd, str_eqb_refl.
  - rewrite js_sort_perm. eapply (NoDup_fmap_transfer (key_path EVIDENCE_HOLD_STORE)); [apply (so_hold_store _ _ _ _ _ Hs)|].
    intros x y _ _ E. cbn. by rewrite E.
Qed.
Lemma image_cursors : distinct_rows (cursorOk img) cu_source_id [] (im_evidence_inbox_cursors img) = true.
Proof.
  apply distinct_rows_spec; [| |by intros ? ? ?%elem_of_nil]; cbn.
  - apply Forall_forall. intros x. rewrite js_sort_perm. intros Hx. destruct (so_cursors _ _ _ _ _ Hs x Hx) as (Hb & H1 & H2 & H3).
    unfold cursorOk. cbn. by rewrite Hb, same_boundary_refl, H1, H2, H3.
  - rewrite js_sort_perm. eapply (NoDup_fmap_transfer (key_path EVIDENCE_INBOX_CURSOR_STORE)); [apply (so_cursor_store _ _ _ _ _ Hs)|].
    intros x y _ _ E. cbn. by rewrite E.
Qed.
Lemma image_jobs : distinct_rows (playerLocalEvidencePollJobValid b) pj_source_id [] (im_evidence_poll_jobs img) = true.
Proof.
  apply distinct_rows_spec; [| |by intros ? ? ?%elem_of_nil]; cbn.
  - apply Forall_forall. intros x. rewrite js_sort_perm. apply (so_jobs _ _ _ _ _ Hs).
  - rewrite js_sort_perm. eapply (NoDup_fmap_transfer (key_path EVIDENCE_POLL_JOB_STORE)); [apply (so_job_store _ _ _ _ _ Hs)|].
    intros x y _ _ E. cbn. by rewrite E.
Qed.
Lemma image_outbox : distinct_rows (outboxOk img) ob_created_order [] (im_outbox img) = true.
Proof.
  apply distinct_rows_spec; [| |by intros ? ? ?%elem_of_nil]; cbn.
  - apply Forall_forall. intros x. rewrite js_sort_perm. intros Hx.
    destruct (so_outbox _ _ _ _ _ Hs x Hx) as (c & Hc & He & Hb & Hd & Hg & Hv & Ho & Hl).
    destruct (find_in_image (ob_epoch x) (ob_checkpoint_digest x)) as (c' & Hf & Hd').
    { exists c. split_and!; congruence. }
    pose proof (find_checkpoint_Some _ _ _ Hf) as [Hc' He']. rewrite js_sort_perm in Hc'.
    assert (c' = c) as ->.
    { apply (keys_distinct_inj (key_path CHECKPOINT_STORE) (db_checkpoints d)); [apply (so_checkpoint_store _ _ _ _ _ Hs)|done|done|].
      cbn. by rewrite He', He. }
    unfold outboxOk. change (im_boundary img) with b.
    replace (find_checkpoint (im_checkpoints img) (ob_epoch x)) with (Some c) by (symmetry; exact Hf). rewrite Hb, same_boundary_refl, Hd, Hg, Hv, !str_eqb_refl. cbn.
    pose proof (so_order _ _ _ _ _ Hs) as Hos. rewrite safe_nonneg in Hos. rewrite (proj2 (safe_nonneg _)) by lia. done.
  - rewrite js_sort_perm. eapply (NoDup_fmap_transfer (key_path OUTBOX_STORE)); [apply (so_outbox_store _ _ _ _ _ Hs)|].
    intros x y _ _ E. cbn. by rewrite E.
Qed.
Lemma image_footprint :
  existsb (fun c => negb (existsb (fun e => ob_epoch e =? cp_epoch c) (im_outbox img))) (im_checkpoints img) ||
  (im_next_created_order img <=? maxCreatedOrder (im_outbox img)) = false.
Proof.
  apply orb_false_iff. split.
  - apply not_true_iff_false. intros (c & Hc & Hn)%existsb_exists. apply list_elem_of_In in Hc. cbn in Hc. rewrite js_sort_perm in Hc.
    destruct (so_footprint _ _ _ _ _ Hs c Hc) as (e & He & E). apply negb_true_iff in Hn. apply not_true_iff_false in Hn. apply Hn.
    apply existsb_exists. exists e. rewrite <- list_elem_of_In. cbn. rewrite js_sort_perm. split; [done|lia].
  - apply Z.leb_gt. cbn. pose proof (so_order _ _ _ _ _ Hs) as Hos. rewrite safe_nonneg in Hos.
    apply maxCreatedOrder_lt; [lia|]. intros e. rewrite js_sort_perm. intros He.
    destruct (so_outbox _ _ _ _ _ Hs e He) as (_ & _ & _ & _ & _ & _ & _ & Ho & _). lia.
Qed.
(** A delivery key is told by its text. *)
Lemma delivery_text x y : delivery x = key_path ACK_STORE y <-> (ob_destination_id x = ack_authority_id y /\ ob_epoch x = ack_epoch y /\
  ob_checkpoint_digest x = ack_checkpoint_digest y).
Proof. cbn. unfold delivery, outboxDeliveryKey. split; [intros [= -> -> ->]; done|intros (-> & -> & ->); done]. Qed.
Lemma entry_ack_key x y : delivery x = key_path ACK_STORE y -> entryAckKey x = ackKey y.
Proof. intros (E1 & E2 & E3)%delivery_text. unfold entryAckKey, ackKey. by rewrite E1, E2, E3. Qed.
Lemma image_acks : distinct_rows (ackOk img) ackKey [] (im_ack_history img) = true.
Proof.
  apply distinct_rows_spec; [| |by intros ? ? ?%elem_of_nil]; cbn.
  - apply Forall_forall. intros k. rewrite js_sort_perm. intros Hk. destruct (so_acks _ _ _ _ _ Hs k Hk) as (Hv & e & He & Ha & Hd).
    unfold ackOk. cbn. unfold ackValid in Hv. fold b. apply andb_true_iff. split; [exact Hv|]. apply bool_decide_eq_true_2.
    unfold acknowledgedKeys. apply list_elem_of_fmap. exists e. split; [symmetry; by apply entry_ack_key|].
    apply list_elem_of_In, filter_In. rewrite <- list_elem_of_In. cbn. rewrite js_sort_perm. split; [done|]. unfold is_acknowledged. by rewrite Ha.
  - rewrite js_sort_perm. eapply (NoDup_fmap_transfer (key_path ACK_STORE)); [apply (so_ack_store _ _ _ _ _ Hs)|].
    assert (Hn : forall k, k ∈ db_acks d -> 0 <= ack_epoch k /\ no_nul (ack_checkpoint_digest k)).
    { intros k Hk. destruct (so_acks _ _ _ _ _ Hs k Hk) as (Hv & e & He & _ & Hd). apply delivery_text in Hd as (_ & Ee & Ed).
      destruct (so_outbox _ _ _ _ _ Hs e He) as (c & Hc & Hec & _ & _ & Hdc & _). destruct (checkpoint_epoch c Hc) as [_ Hcv].
      unfold playerLocalCheckpointValid in Hcv. rewrite !andb_true_iff, safe_nonneg in Hcv.
      destruct (so_chain _ _ _ _ _ Hs) as (_ & _ & _ & _ & _ & _ & Hnn). rewrite <- Ee, <- Ed, Hdc. split; [lia|by apply Hnn]. }
    intros x y Hx Hy E. destruct (Hn x Hx), (Hn y Hy). apply outboxAckKey_inj in E as (E1 & E2 & E3); [|done..].
    cbn. by rewrite E1, E2, E3.
Qed.
Lemma image_acked : existsb (fun key => negb (bool_decide (key ∈ ackKey <$> im_ack_history img))) (acknowledgedKeys img) = false.
Proof.
  apply not_true_iff_false. intros (key & Hk & Hn)%existsb_exists. apply list_elem_of_In in Hk.
  unfold acknowledgedKeys in Hk. apply list_elem_of_fmap in Hk as (e & -> & He).
  apply list_elem_of_In, filter_In in He as [He Ha]. rewrite <- list_elem_of_In in He. cbn in He. rewrite js_sort_perm in He.
  destruct (so_acked _ _ _ _ _ Hs e He) as (k & Hk & Ek). { unfold is_acknowledged in Ha. unfold acked. by destruct (ob_state e). }
  apply negb_true_iff, bool_decide_eq_false in Hn. apply Hn. rewrite (entry_ack_key _ k) by done. apply list_elem_of_fmap_2. cbn. by rewrite js_sort_perm.
Qed.
Lemma image_valid : playerLocalAuditImageError img = None.
Proof.
  unfold playerLocalAuditImageError. destruct image_chain as [Hc Hl].
  change (im_boundary img) with b. change (im_retention_anchor img) with a.
  rewrite image_configuration, image_anchor, image_events, image_equivocations, Hc, Hl, Nat.eqb_refl. cbn [negb].
  rewrite image_head, image_holds, image_cursors, image_jobs, image_outbox, image_footprint, image_acks, image_acked. done.
Qed.
End Image.
End Sound.
