(* ===== verification/PlayerStoreSteps.v ===== *)
(** * The transactions of the player-local store

    Every transaction that commits leads from a sound database to a sound one,
    and only changes it as [evolves] allows. *)
From Stdlib Require Import ZifyBool.
From S2P Require Import Prelude Json Async IndexedDb ObjectStore PlayerLocal PlayerStore PlayerStoreFacts.
Set Default Goal Selector "!".
Import Local PlayerDb.

(** ** What may change *)

Definition pruned_at (d : player_db) (epoch : Z) : Prop := exists a, a ∈ db_retention d /\ epoch <= hd_epoch a.
Definition hold_later (h h' : PlayerLocalEvidenceHold) : Prop :=
  h' = h \/ (eh_state h = HoldActive /\ exists r, h' = resolved_hold h r).
Definition outbox_later (e e' : PlayerLocalCheckpointOutboxRecord) : Prop :=
  e' = with_outbox_state e (ob_state e') /\ (acked e -> acked e').
Definition in_flight (j : PlayerLocalEvidencePollJob) : Prop := exists lease, pj_state j = JobInFlight lease.
(** Attempts are counted up, and an attempt that has ended does not come back. *)
Definition job_later (j j' : PlayerLocalEvidencePollJob) : Prop :=
  samePlayerLocalEvidencePollJobDraft j j' = true /\
  (pj_attempt_count j < pj_attempt_count j' \/
   (pj_attempt_count j = pj_attempt_count j' /\ (pj_state j' = pj_state j \/ ~ in_flight j'))) /\
  forall at_ms reason, pj_state j = JobEscalated at_ms reason -> pj_state j' = pj_state j.

Record evolves (d d' : player_db) : Prop := {
  ev_config : forall c, c ∈ db_config d -> exists c', c' ∈ db_config d' /\ sc_configuration c' = sc_configuration c /\
    sc_storage_revision c <= sc_storage_revision c' /\ sc_next_created_order c <= sc_next_created_order c';
  ev_anchor : forall a, a ∈ db_retention d -> exists a', a' ∈ db_retention d' /\ hd_epoch a <= hd_epoch a';
  ev_head : forall h, h ∈ db_head d -> exists h', h' ∈ db_head d' /\ (h' = h \/ hd_epoch h < hd_epoch h');
  ev_checkpoints : forall c, c ∈ db_checkpoints d -> c ∈ db_checkpoints d' \/ pruned_at d' (cp_epoch c);
  ev_sealed : forall c, c ∈ db_checkpoints d' -> c ∈ db_checkpoints d \/ forall h, h ∈ db_head d -> hd_epoch h < cp_epoch c;
  ev_events : forall e, e ∈ db_events d -> e ∈ db_events d' \/ pruned_at d' (pe_epoch e);
  ev_equivocations : forall r, r ∈ db_equivocations d -> r ∈ db_equivocations d';
  ev_accepted : forall r e, r ∈ db_equivocations d -> e ∈ db_events d -> pe_author_id e = se_author_id r ->
    pe_counter e = se_counter r -> e ∈ db_events d';
  ev_outbox : forall e, e ∈ db_outbox d -> (exists e', e' ∈ db_outbox d' /\ outbox_later e e') \/ pruned_at d' (ob_epoch e);
  ev_acks : forall k, k ∈ db_acks d -> k ∈ db_acks d' \/ pruned_at d' (ack_epoch k);
  ev_holds : forall h, h ∈ db_holds d -> (exists h', h' ∈ db_holds d' /\ hold_later h h') \/ pruned_at d' (eh_epoch h);
  ev_cursors : forall c, c ∈ db_cursors d -> exists c', c' ∈ db_cursors d' /\ cu_source_id c' = cu_source_id c /\
    (c' = c \/ cu_sequence c < cu_sequence c');
  ev_jobs : forall j, j ∈ db_jobs d -> exists j', j' ∈ db_jobs d' /\ job_later j j';
}.

Lemma outbox_later_refl e : outbox_later e e.
Proof. split; [by destruct e|done]. Qed.
Lemma same_draft_eq j dr : samePlayerLocalEvidencePollJobDraft j dr = true <->
  pj_boundary j = pj_boundary dr /\ pj_source_id j = pj_source_id dr /\ pj_endpoint j = pj_endpoint dr /\
  pj_initial_message_digest j = pj_initial_message_digest dr /\ pj_deadline_at_ms j = pj_deadline_at_ms dr.
Proof.
  unfold samePlayerLocalEvidencePollJobDraft. rewrite !andb_true_iff, same_boundary_eq, !str_eqb_eq, Z.eqb_eq. tauto.
Qed.
Lemma job_later_refl j : job_later j j.
Proof. split; [by apply same_draft_eq|]. split; [right; split; [done|by left]|done]. Qed.
Lemma job_later_trans j1 j2 j3 : job_later j1 j2 -> job_later j2 j3 -> job_later j1 j3.
Proof.
  intros (Hd1 & Ha1 & He1) (Hd2 & Ha2 & He2). split; [|split].
  - rewrite same_draft_eq in *. naive_solver congruence.
  - destruct Ha1 as [Ha1|[Ha1 Hs1]]; [destruct Ha2 as [|[]]; left; lia|].
    destruct Ha2 as [Ha2|[Ha2 Hs2]]; [left; lia|]. right. split; [lia|]. destruct Hs2 as [Hs2|]; [|by right].
    destruct Hs1 as [Hs1|Hs1]; [left; congruence|]. right. unfold in_flight in *. by rewrite Hs2.
  - intros t r E. pose proof (He1 _ _ E) as E1. rewrite <- E1. apply (He2 t r). congruence.
Qed.
Lemma evolves_refl d : evolves d d.
Proof.
  split; eauto 6 using Z.le_refl, outbox_later_refl, job_later_refl.
  intros h Hh. left. exists h. split; [done|by left].
Qed.
Lemma pruned_later d d' e : evolves d d' -> pruned_at d e -> pruned_at d' e.
Proof. intros He (a & Ha & Hle). destruct (ev_anchor _ _ He a Ha) as (a' & Ha' & ?). exists a'. split; [done|lia]. Qed.
Lemma evolves_trans d1 d2 d3 : evolves d1 d2 -> evolves d2 d3 -> evolves d1 d3.
Proof.
  intros H1 H2. split.
  - intros c Hc. destruct (ev_config _ _ H1 c Hc) as (c' & Hc' & ? & ? & ?). destruct (ev_config _ _ H2 c' Hc') as (c'' & Hc'' & ? & ? & ?).
    exists c''. split_and!; [done|congruence|lia|lia].
  - intros a Ha. destruct (ev_anchor _ _ H1 a Ha) as (a' & Ha' & ?). destruct (ev_anchor _ _ H2 a' Ha') as (a'' & Ha'' & ?).
    exists a''. split; [done|lia].
  - intros h Hh. destruct (ev_head _ _ H1 h Hh) as (h' & Hh' & E'). destruct (ev_head _ _ H2 h' Hh') as (h'' & Hh'' & E'').
    exists h''. split; [done|]. destruct E' as [->|], E'' as [->|]; [by left|by right|by right|right; lia].
  - intros c Hc. destruct (ev_checkpoints _ _ H1 c Hc) as [Hc'|]; [by apply (ev_checkpoints _ _ H2)|]. right. by eapply pruned_later.
  - intros c Hc. destruct (ev_sealed _ _ H2 c Hc) as [Hc'|Hn]; [by apply (ev_sealed _ _ H1)|]. right. intros h Hh.
    destruct (ev_head _ _ H1 h Hh) as (h' & Hh' & E'). specialize (Hn h' Hh'). destruct E' as [->|]; lia.
  - intros e He. destruct (ev_events _ _ H1 e He) as [He'|]; [by apply (ev_events _ _ H2)|]. right. by eapply pruned_later.
  - intros r Hr. by apply (ev_equivocations _ _ H2), (ev_equivocations _ _ H1).
  - intros r e Hr He Ha Hc. apply (ev_accepted _ _ H2 r); [by apply (ev_equivocations _ _ H1)|by apply (ev_accepted _ _ H1 r)|done|done].
  - intros e He. destruct (ev_outbox _ _ H1 e He) as [(e' & He' & E1 & A1)|]; [|right; by eapply pruned_later].
    assert (Hep : ob_epoch e' = ob_epoch e) by by rewrite E1.
    destruct (ev_outbox _ _ H2 e' He') as [(e'' & He'' & E2 & A2)|]; [|right; by rewrite <- Hep].
    left. exists e''. split; [done|]. split; [|tauto]. rewrite E2, E1. by destruct e''.
  - intros k Hk. destruct (ev_acks _ _ H1 k Hk) as [Hk'|]; [by apply (ev_acks _ _ H2)|]. right. by eapply pruned_later.
  - intros h Hh. destruct (ev_holds _ _ H1 h Hh) as [(h' & Hh' & L1)|]; [|right; by eapply pruned_later].
    assert (Hep : eh_epoch h' = eh_epoch h) by (destruct L1 as [->|(_ & r & ->)]; done).
    destruct (ev_holds _ _ H2 h' Hh') as [(h'' & Hh'' & L2)|]; [|right; by rewrite <- Hep]. left. exists h''. split; [done|].
    destruct L1 as [->|(A1 & r & ->)]; [done|]. destruct L2 as [->|(A2 & _)]; [|done]. right. eauto.
  - intros c Hc. destruct (ev_cursors _ _ H1 c Hc) as (c' & Hc' & S1 & E1). destruct (ev_cursors _ _ H2 c' Hc') as (c'' & Hc'' & S2 & E2).
    exists c''. split_and!; [done|congruence|]. destruct E1 as [->|], E2 as [->|]; [by left|by right|by right|right; lia].
  - intros j Hj. destruct (ev_jobs _ _ H1 j Hj) as (j' & Hj' & L1). destruct (ev_jobs _ _ H2 j' Hj') as (j'' & Hj'' & L2).
    exists j''. split; [done|by eapply job_later_trans].
Qed.
#[export] Instance evolves_preorder : PreOrder evolves.
Proof. split; [exact evolves_refl|exact evolves_trans]. Qed.

(** Closes the clauses of stores that the transaction leaves alone. *)
Ltac evolve d :=
  split; first
    [ exact (ev_anchor _ _ (evolves_refl d)) | exact (ev_head _ _ (evolves_refl d))
    | exact (ev_checkpoints _ _ (evolves_refl d)) | exact (ev_sealed _ _ (evolves_refl d))
    | exact (ev_events _ _ (evolves_refl d)) | exact (ev_equivocations _ _ (evolves_refl d))
    | exact (ev_accepted _ _ (evolves_refl d)) | exact (ev_outbox _ _ (evolves_refl d)) | exact (ev_acks _ _ (evolves_refl d))
    | exact (ev_holds _ _ (evolves_refl d)) | exact (ev_cursors _ _ (evolves_refl d))
    | exact (ev_jobs _ _ (evolves_refl d)) | idtac ].

(** Runs the reads of a body. *)
Ltac reads H :=
  cbn [negb andb orb] in H; unfold idb_get, idb_getAll in H; repeat (idb_step H; cbv beta in H); subst;
  cbn [rows_of CONFIG_STORE EVENT_STORE EQUIVOCATION_STORE CHECKPOINT_STORE HEAD_STORE RETENTION_STORE
       EVIDENCE_HOLD_STORE EVIDENCE_INBOX_CURSOR_STORE EVIDENCE_POLL_JOB_STORE CLOSURE_STORE OUTBOX_STORE ACK_STORE] in *.

Section Steps.
Context `{JsHost} `{UrlParser} (cfg : PlayerLocalStoreConfiguration) (hook : FaultPoint -> option jsstr).
Let b := cfg_boundary cfg.
Abbreviation sound := (sound cfg).

Definition keeps (d d' : player_db) : Prop := exists order rev a h, sound d' order rev a h /\ evolves d d'.
Lemma keeps_same d order rev a h : sound d order rev a h -> keeps d d.
Proof. intros Hs. exists order, rev, a, h. split; [done|reflexivity]. Qed.

Lemma bump_result c0 c d d' r : db_config d = [c0] -> bump c d = (d', inr r) ->
  d' = set_rows CONFIG_STORE [with_revision c (sc_next_created_order c) (sc_storage_revision c + 1)] d.
Proof. intros Hc Hr. apply idb_put_ok in Hr as [-> _]. cbn [rows_of key_path CONFIG_STORE]. by rewrite Hc, put_singleton. Qed.

Section From.
Context (d : player_db) (order rev : Z) (a h : CheckpointSealHead) (Hs : sound d order rev a h).
Implicit Types j : PlayerLocalEvidencePollJob.
Abbreviation row := (mkStoredConfiguration cfg order rev).

Lemma ev_bumped d' (rev' order' : Z) : rev <= rev' -> order <= order' -> db_config d' = [mkStoredConfiguration cfg order' rev'] ->
  forall c, c ∈ db_config d -> exists c', c' ∈ db_config d' /\ sc_configuration c' = sc_configuration c /\
    sc_storage_revision c <= sc_storage_revision c' /\ sc_next_created_order c <= sc_next_created_order c'.
Proof.
  intros H1 H2 -> c. rewrite (so_config _ _ _ _ _ _ Hs), list_elem_of_singleton. intros ->. eexists. split; [left|done].
Qed.

Lemma admit_keeps event d' r : playerLocalEventValid b event = true -> no_nul (pe_event_digest event) ->
  admit_body event d = (d', inr r) -> keeps d d'.
Proof.
  intros Hv Hn Hr. unfold admit_body in Hr. reads Hr. rewrite (get_config _ _ _ _ _ _ Hs), (get_retention _ _ _ _ _ _ Hs) in Hr.
  destruct (Z.leb_spec (pe_epoch event) (hd_epoch a)); [reads Hr; by eapply keeps_same|].
  destruct (row_at _ _ (db_events d)) as [known|] eqn:Ek.
  - destruct (str_eqb _ _) eqn:Ed; [reads Hr; by eapply keeps_same|]. reads Hr.
    destruct (row_at _ _ (db_equivocations d)) eqn:Eq; [reads Hr; by eapply keeps_same|].
    reads Hr. apply idb_add_ok in E as (-> & Hk & Hi). cbn in Hk, Hi.
    apply (bump_result row) in E0 as ->; [|apply (so_config _ _ _ _ _ _ Hs)].
    apply row_at_Some in Ek as [Hin Hkey]. injection Hkey as Ea Ec. apply str_eqb_neq in Ed.
    exists order, (rev + 1), a, h. split.
    + destruct Hs. split; cbn; try done; try lia.
      * intros x [->|Hx]%elem_of_insert_row; [|by apply so_equivocations]. split_and!; try done.
        exists known. done.
      * by apply rows_ok_insert.
    + evolve d; [eapply ev_bumped; [| |done]; cbn; lia|]. intros x Hx. cbn. apply elem_of_insert_row. by right.
  - reads Hr. apply idb_add_ok in E as (-> & Hk & Hi). apply (bump_result row) in E0 as ->; [|apply (so_config _ _ _ _ _ _ Hs)].
    exists order, (rev + 1), a, h. split.
    + destruct Hs. split; cbn; try done; try lia.
      * intros x [->|Hx]%elem_of_insert_row; [done|by apply so_events].
      * intros x Hx. destruct (so_equivocations x Hx) as (? & ? & ? & ? & ? & e & He & ?). split_and!; try done.
        exists e. rewrite elem_of_insert_row. tauto.
      * by apply rows_ok_insert.
    + evolve d; [eapply ev_bumped; [| |done]; cbn; lia| |].
      * intros x Hx. left. cbn. apply elem_of_insert_row. by right.
      * intros x e _ He _ _. cbn. apply elem_of_insert_row. by right.
Qed.

(** *** The outbox *)

Section OutboxUpdate.
Context (e : PlayerLocalCheckpointOutboxRecord) (st : CheckpointOutboxState).
Context (He : e ∈ db_outbox d) (Hna : is_acknowledged e = false) (Hl : lease_ok st = true).
Let e' := with_outbox_state e st.
Let rows := put_row (key_path OUTBOX_STORE) e' (db_outbox d).

Lemma outbox_same_key x : x ∈ db_outbox d -> key_path OUTBOX_STORE x = key_path OUTBOX_STORE e' -> x = e.
Proof. intros Hx Hk. apply (keys_distinct_inj (key_path OUTBOX_STORE) (db_outbox d)); [apply (so_outbox_store _ _ _ _ _ _ Hs)|done..]. Qed.
Lemma in_updated x : x ∈ rows <-> x = e' \/ (x ∈ db_outbox d /\ x <> e).
Proof.
  unfold rows. rewrite elem_of_put_row. split; (intros [->|[Hx Hk]]; [by left|right; split; [done|]]).
  - by intros ->.
  - intros E. apply Hk. by apply outbox_same_key.
Qed.
Lemma updated_ok x : x ∈ rows -> outbox_ok cfg (db_checkpoints d) order x.
Proof.
  intros [->|[Hx _]]%in_updated; [|by apply (so_outbox _ _ _ _ _ _ Hs)].
  destruct (so_outbox _ _ _ _ _ _ Hs e He) as (c & ? & ? & ? & ? & ? & ? & ? & ?). by exists c.
Qed.
Lemma updated_footprint c : c ∈ db_checkpoints d -> exists x, x ∈ rows /\ ob_epoch x = cp_epoch c.
Proof.
  intros Hc. destruct (so_footprint _ _ _ _ _ _ Hs c Hc) as (x & Hx & E). destruct (decide (key_path OUTBOX_STORE x = key_path OUTBOX_STORE e)) as [Hk|Hk].
  - exists e'. split; [by apply in_updated; left|]. apply (outbox_same_key x Hx) in Hk as ->. done.
  - exists x. split; [apply in_updated; right; split; [done|by intros ->]|done].
Qed.
Lemma updated_count : unacknowledged rows <= unacknowledged (db_outbox d).
Proof.
  unfold rows. rewrite (unacknowledged_perm _ _ (put_row_perm _ _ _)).
  assert (Hnd : keys_distinct (key_path OUTBOX_STORE) (db_outbox d)) by apply (so_outbox_store _ _ _ _ _ _ Hs).
  rewrite (unacknowledged_perm (db_outbox d) _ (rows_split (key_path OUTBOX_STORE) _ e Hnd He)).
  rewrite !unacknowledged_cons, Hna. change (key_path OUTBOX_STORE e') with (key_path OUTBOX_STORE e). destruct (is_acknowledged e'); lia.
Qed.
Lemma updated_rows_ok : rows_ok (key_path OUTBOX_STORE) (unique_index OUTBOX_STORE) rows.
Proof.
  apply rows_ok_put; [apply (so_outbox_store _ _ _ _ _ _ Hs)|].
  eapply index_free_update; [apply (so_outbox_store _ _ _ _ _ _ Hs)|exact He|done|done].
Qed.
Lemma updated_later x : x ∈ db_outbox d -> (exists x', x' ∈ rows /\ outbox_later x x') \/ pruned_at d (ob_epoch x).
Proof.
  intros Hx. left. destruct (decide (key_path OUTBOX_STORE x = key_path OUTBOX_STORE e)) as [Hk|Hk].
  - apply (outbox_same_key x Hx) in Hk as ->. exists e'. split; [by apply in_updated; left|]. split; [done|]. unfold acked, is_acknowledged in *.
    intros Ha. by rewrite Ha in Hna.
  - exists x. split; [apply in_updated; right; split; [done|by intros ->]|apply outbox_later_refl].
Qed.
Lemma updated_acks k : k ∈ db_acks d -> ack_ok cfg rows k.
Proof.
  intros Hk. destruct (so_acks _ _ _ _ _ _ Hs k Hk) as (Hv & x & Hx & Ha & Hd). split; [done|]. exists x. split_and!; [|done..].
  apply in_updated. right. split; [done|]. intros ->. unfold is_acknowledged, acked in *. by rewrite Ha in Hna.
Qed.
End OutboxUpdate.

Lemma outbox_step e st d1 d' u v : e ∈ db_outbox d -> is_acknowledged e = false -> lease_ok st = true -> st <> OutboxAcknowledged ->
  idb_put OUTBOX_STORE (with_outbox_state e st) d = (d1, inr u) -> bump row d1 = (d', inr v) -> keeps d d'.
Proof.
  intros He Hna Hl Hst E1 E2. apply idb_put_ok in E1 as [-> _].
  apply (bump_result row) in E2 as ->; [|apply (so_config _ _ _ _ _ _ Hs)].
  exists order, (rev + 1), a, h. split.
  - pose proof (updated_ok e st He Hl). pose proof (updated_footprint e st He). pose proof (updated_count e st He Hna Hl) as Hcount.
    pose proof (updated_rows_ok e st He). pose proof (updated_acks e st He Hna).
    pose proof (in_updated e st He) as Hin. destruct Hs. split; cbn; try done; try lia; try (etrans; [exact Hcount|done]).
    intros x [->|[Hx _]]%Hin Ha; [done|by apply so_acked].
  - evolve d; [eapply ev_bumped; [| |done]; cbn; lia|]. by apply updated_later.
Qed.
Lemma claim_outbox_keeps createdOrder nowMs lease d' r : isNonNegativeInteger lease = true ->
  claim_outbox_body createdOrder nowMs lease d = (d', inr r) -> keeps d d'.
Proof.
  intros Hl Hr. unfold claim_outbox_body in Hr. reads Hr. rewrite (get_config _ _ _ _ _ _ Hs) in Hr.
  destruct (row_at _ _ (db_outbox d)) as [e|] eqn:Ee; [|reads Hr; by eapply keeps_same].
  destruct (_ || _) eqn:Eg; [reads Hr; by eapply keeps_same|]. apply orb_false_iff in Eg as [Hna _]. reads Hr.
  apply row_at_Some in Ee as [He _]. by eapply (outbox_step e (OutboxInFlight lease)).
Qed.
Lemma release_outbox_keeps createdOrder d' r : release_outbox_body createdOrder d = (d', inr r) -> keeps d d'.
Proof.
  intros Hr. unfold release_outbox_body in Hr. reads Hr. rewrite (get_config _ _ _ _ _ _ Hs) in Hr.
  destruct (row_at _ _ (db_outbox d)) as [e|] eqn:Ee; [|reads Hr; by eapply keeps_same].
  destruct (ob_state e) eqn:Est; [reads Hr; by eapply keeps_same| |reads Hr; by eapply keeps_same].
  reads Hr. apply row_at_Some in Ee as [He _]. eapply (outbox_step e OutboxPending); [exact He|unfold is_acknowledged; by rewrite Est|done..].
Qed.
Lemma acknowledge_keeps evidence d' r : ackValid b evidence = true ->
  acknowledge_body evidence d = (d', inr r) -> keeps d d'.
Proof.
  intros Hv Hr. unfold acknowledge_body, delivery_row in Hr. reads Hr. rewrite (get_config _ _ _ _ _ _ Hs) in Hr.
  destruct (row_at _ _ (db_outbox d)) as [e|] eqn:Ee; [|reads Hr; by eapply keeps_same].
  destruct (is_acknowledged e) eqn:Hna; [reads Hr; by eapply keeps_same|]. reads Hr. apply row_at_Some in Ee as [He Hd].
  apply idb_add_ok in E as (-> & Hk & Hi). apply idb_put_ok in E0 as [-> _].
  apply (bump_result row) in E1 as ->; [|apply (so_config _ _ _ _ _ _ Hs)].
  exists order, (rev + 1), a, h. split.
  - pose proof (updated_ok e OutboxAcknowledged He eq_refl). pose proof (updated_footprint e OutboxAcknowledged He).
    pose proof (updated_count e OutboxAcknowledged He Hna eq_refl) as Hcount. pose proof (updated_rows_ok e OutboxAcknowledged He).
    pose proof (updated_acks e OutboxAcknowledged He Hna) as Hacks.
    pose proof (in_updated e OutboxAcknowledged He) as Hin. destruct Hs. split; cbn; try done; try lia; try (etrans; [exact Hcount|done]).
    + intros k [->|Hk']%elem_of_insert_row; [|by apply Hacks]. split; [done|]. exists (with_outbox_state e OutboxAcknowledged).
      split_and!; [by apply Hin; left|done|done].
    + intros x [->|[Hx _]]%Hin Ha.
      * exists evidence. split; [by apply elem_of_insert_row; left|done].
      * destruct (so_acked x Hx Ha) as (k & Hk' & E). exists k. split; [by apply elem_of_insert_row; right|done].
    + by apply rows_ok_insert.
  - evolve d; [eapply ev_bumped; [| |done]; cbn; lia| |].
    + by apply updated_later.
    + intros k Hk'. left. cbn. apply elem_of_insert_row. by right.
Qed.

(** *** Holds *)

Record hold_change (rows : list PlayerLocalEvidenceHold) : Prop := {
  hc_ok : forall x, x ∈ rows -> hold_ok cfg (db_checkpoints d) x;
  hc_rows : rows_ok (key_path EVIDENCE_HOLD_STORE) (unique_index EVIDENCE_HOLD_STORE) rows;
  hc_later : forall x, x ∈ db_holds d -> (exists x', x' ∈ rows /\ hold_later x x') \/ pruned_at d (eh_epoch x);
}.
Lemma hold_unchanged : hold_change (db_holds d).
Proof.
  split; [apply (so_holds _ _ _ _ _ _ Hs)|apply (so_hold_store _ _ _ _ _ _ Hs)|]. intros x Hx. left. exists x. split; [done|by left].
Qed.
Lemma hold_added hold d1 u : playerLocalEvidenceHoldValid b hold = true ->
  at_checkpoint (db_checkpoints d) (eh_epoch hold) (eh_checkpoint_digest hold) ->
  idb_add EVIDENCE_HOLD_STORE hold d = (d1, inr u) ->
  exists rows, d1 = set_rows EVIDENCE_HOLD_STORE rows d /\ hold_change rows.
Proof.
  intros Hv Hat Hr. apply idb_add_ok in Hr as (-> & Hk & Hi). eexists. split; [done|]. split.
  - intros x [->|Hx]%elem_of_insert_row; [done|by apply (so_holds _ _ _ _ _ _ Hs)].
  - apply rows_ok_insert; [apply (so_hold_store _ _ _ _ _ _ Hs)|done|done].
  - intros x Hx. left. exists x. split; [by apply elem_of_insert_row; right|by left].
Qed.
Lemma hold_resolved existing resolution d1 u : existing ∈ db_holds d -> eh_state existing = HoldActive ->
  nonempty (er_resolution_digest resolution) = true ->
  idb_put EVIDENCE_HOLD_STORE (resolved_hold existing resolution) d = (d1, inr u) ->
  exists rows, d1 = set_rows EVIDENCE_HOLD_STORE rows d /\ hold_change rows.
Proof.
  intros Hin Hact Hn Hr. apply idb_put_ok in Hr as [-> Hi]. eexists. split; [done|]. split.
  - intros x [->|[Hx _]]%elem_of_put_row; [|by apply (so_holds _ _ _ _ _ _ Hs)].
    destruct (so_holds _ _ _ _ _ _ Hs existing Hin) as [Hv Hat]. split; [|done].
    unfold playerLocalEvidenceHoldValid in *. rewrite Hact in Hv. cbn in *. by rewrite Hn.
  - apply rows_ok_put; [apply (so_hold_store _ _ _ _ _ _ Hs)|done].
  - intros x Hx. left. destruct (decide (key_path EVIDENCE_HOLD_STORE x = key_path EVIDENCE_HOLD_STORE existing)) as [Hk|Hk].
    + assert (x = existing) as ->.
      { apply (keys_distinct_inj (key_path EVIDENCE_HOLD_STORE) (db_holds d)); [apply (so_hold_store _ _ _ _ _ _ Hs)|done..]. }
      exists (resolved_hold existing resolution). split; [by apply elem_of_put_row; left|]. right. eauto.
    + exists x. split; [by apply elem_of_put_row; right|by left].
Qed.
Lemma hold_step rows d' v : hold_change rows -> bump row (set_rows EVIDENCE_HOLD_STORE rows d) = (d', inr v) -> keeps d d'.
Proof.
  intros [Hok Hrows Hlater] E. apply (bump_result row) in E as ->; [|apply (so_config _ _ _ _ _ _ Hs)].
  exists order, (rev + 1), a, h. split.
  - destruct Hs. split; cbn; try done; lia.
  - evolve d; [eapply ev_bumped; [| |done]; cbn; lia|]. exact Hlater.
Qed.
Lemma resolution_digest_nonempty resolution : playerLocalEvidenceHoldResolutionValid b resolution = true ->
  nonempty (er_resolution_digest resolution) = true.
Proof. unfold playerLocalEvidenceHoldResolutionValid. by intros [_ ?]%andb_true_iff. Qed.
Lemma place_hold_keeps hold d' r : playerLocalEvidenceHoldValid b hold = true -> place_hold_body hold d = (d', inr r) -> keeps d d'.
Proof.
  intros Hv Hr. unfold place_hold_body in Hr. reads Hr. rewrite (get_config _ _ _ _ _ _ Hs), (get_retention _ _ _ _ _ _ Hs) in Hr.
  destruct (row_at _ _ (db_holds d)) as [x|] eqn:Ex; [reads Hr; by eapply keeps_same|].
  destruct (Z.leb_spec (eh_epoch hold) (hd_epoch a)); [reads Hr; by eapply keeps_same|].
  destruct (row_at _ _ (db_checkpoints d)) as [c|] eqn:Ec; [|reads Hr; by eapply keeps_same].
  destruct (str_eqb _ _) eqn:Ed; [|reads Hr; by eapply keeps_same]. reads Hr.
  apply row_at_Some in Ec as [Hc Hk]. injection Hk as Hk. apply str_eqb_eq in Ed.
  destruct (hold_added hold _ _ Hv (ex_intro _ c (conj Hc (conj Hk Ed))) E) as (rows & -> & Hch). by eapply hold_step.
Qed.
Lemma resolve_hold_keeps resolution d' r : playerLocalEvidenceHoldResolutionValid b resolution = true ->
  resolve_hold_body resolution d = (d', inr r) -> keeps d d'.
Proof.
  intros Hv%resolution_digest_nonempty Hr. unfold resolve_hold_body in Hr. reads Hr. rewrite (get_config _ _ _ _ _ _ Hs) in Hr.
  destruct (row_at _ _ (db_holds d)) as [x|] eqn:Ex; [|reads Hr; by eapply keeps_same].
  destruct (_ || _); [reads Hr; by eapply keeps_same|].
  destruct (eh_state x) eqn:Est; [|reads Hr; by eapply keeps_same]. reads Hr. apply row_at_Some in Ex as [Hx _].
  destruct (hold_resolved x resolution _ _ Hx Est Hv E) as (rows & -> & Hch). by eapply hold_step.
Qed.

(** *** Poll jobs *)

Lemma job_step j j' d1 d' u v : j ∈ db_jobs d -> pj_source_id j' = pj_source_id j -> job_ok cfg j' -> job_later j j' ->
  idb_put EVIDENCE_POLL_JOB_STORE j' d = (d1, inr u) -> bump row d1 = (d', inr v) -> keeps d d'.
Proof.
  intros Hj Hsrc Hok Hl E1 E2. apply idb_put_ok in E1 as [-> Hi].
  apply (bump_result row) in E2 as ->; [|apply (so_config _ _ _ _ _ _ Hs)].
  exists order, (rev + 1), a, h. split.
  - destruct Hs. split; cbn; try done; try lia.
    + intros x [->|[Hx _]]%elem_of_put_row; [done|by apply so_jobs].
    + by apply rows_ok_put.
  - evolve d; [eapply ev_bumped; [| |done]; cbn; lia|]. intros x Hx. cbn.
    destruct (decide (key_path EVIDENCE_POLL_JOB_STORE x = key_path EVIDENCE_POLL_JOB_STORE j)) as [Hk|Hk].
    + assert (x = j) as ->.
      { apply (keys_distinct_inj (key_path EVIDENCE_POLL_JOB_STORE) (db_jobs d)); [apply (so_job_store _ _ _ _ _ _ Hs)|done..]. }
      exists j'. split; [by apply elem_of_put_row; left|done].
    + exists x. split; [|apply job_later_refl]. apply elem_of_put_row. right. split; [done|]. cbn in *. by rewrite Hsrc.
Qed.
Lemma job_parts j : job_ok cfg j -> playerLocalEvidencePollJobDraftValid b j = true /\
  isNonNegativeInteger (pj_failures j) = true /\ isNonNegativeInteger (pj_attempt_count j) = true /\
  isNonNegativeInteger (pj_deadline_at_ms j) = true.
Proof.
  unfold job_ok, playerLocalEvidencePollJobValid. rewrite !andb_true_iff. intros (((Hd & ?) & ?) & _). split_and!; try done.
  unfold playerLocalEvidencePollJobDraftValid in Hd. rewrite !andb_true_iff in Hd. tauto.
Qed.
Lemma schedule_keeps draft d' r : playerLocalEvidencePollJobDraftValid b draft = true -> schedule_body draft d = (d', inr r) -> keeps d d'.
Proof.
  intros Hv Hr. unfold schedule_body in Hr. reads Hr. rewrite (get_config _ _ _ _ _ _ Hs) in Hr.
  destruct (row_at _ _ (db_jobs d)); [reads Hr; by eapply keeps_same|]. reads Hr. apply idb_add_ok in E as (-> & Hk & Hi).
  apply (bump_result row) in E0 as ->; [|apply (so_config _ _ _ _ _ _ Hs)].
  exists order, (rev + 1), a, h. split.
  - destruct Hs. split; cbn; try done; try lia.
    + intros x [->|Hx]%elem_of_insert_row; [|by apply so_jobs]. unfold job_ok, playerLocalEvidencePollJobValid. cbn. fold b. by rewrite Hv.
    + by apply rows_ok_insert.
  - evolve d; [eapply ev_bumped; [| |done]; cbn; lia|]. intros x Hx. exists x. split; [by apply elem_of_insert_row; right|apply job_later_refl].
Qed.
Lemma job_ok_state j n st : job_ok cfg j -> isNonNegativeInteger n = true ->
  match st with
  | JobScheduled => true
  | JobInFlight lease => (0 <? n) && isNonNegativeInteger lease && (lease <=? pj_deadline_at_ms j)
  | JobExpired at_ms => isNonNegativeInteger at_ms && (pj_deadline_at_ms j <=? at_ms)
  | JobEscalated at_ms reason => isNonNegativeInteger at_ms && bounded reason 4096
  end = true -> job_ok cfg (with_job_state j n st).
Proof.
  intros Hj Hn Hst. destruct (job_parts _ Hj) as (Hd & Hf & _ & _). unfold job_ok, playerLocalEvidencePollJobValid. cbn.
  unfold b in *. by rewrite Hd, Hf, Hn, Hst.
Qed.
Lemma job_state_later j n st :
  (pj_attempt_count j < n \/ (pj_attempt_count j = n /\ ~ in_flight (with_job_state j n st))) ->
  (forall at_ms reason, pj_state j <> JobEscalated at_ms reason) -> job_later j (with_job_state j n st).
Proof.
  intros Hn Hesc. split; [by apply same_draft_eq|]. split; [cbn; tauto|]. intros t reason E. by destruct (Hesc t reason).
Qed.
Lemma claim_job_keeps sourceId nowMs lease d' r : isNonNegativeInteger nowMs = true -> isNonNegativeInteger lease = true ->
  claim_job_body sourceId nowMs lease d = (d', inr r) -> keeps d d'.
Proof.
  intros Hn Hl Hr. unfold claim_job_body in Hr. reads Hr. rewrite (get_config _ _ _ _ _ _ Hs) in Hr.
  destruct (row_at _ _ (db_jobs d)) as [j|] eqn:Ej; [|reads Hr; by eapply keeps_same]. apply row_at_Some in Ej as [Hj _].
  pose proof (so_jobs _ _ _ _ _ _ Hs j Hj) as Hok. destruct (job_parts _ Hok) as (_ & _ & Ha & Hd).
  destruct (pj_state j) as [|lease0|t|t reason] eqn:Est; try (reads Hr; by eapply keeps_same).
  all: destruct (Z.leb_spec (pj_deadline_at_ms j) nowMs);
    [reads Hr; eapply (job_step j (with_job_state j (pj_attempt_count j) (JobExpired nowMs))); [done|done| | |exact E|exact E0];
     [apply job_ok_state; [done|done|]; cbn; rewrite Hn; cbn; lia|by apply job_state_later; [right; split; [done|by intros []]|congruence]]|].
  all: match type of Hr with (if ?nd then _ else _) _ = _ => destruct nd; [reads Hr; by eapply keeps_same|] end.
  all: destruct (isSafeInteger (pj_attempt_count j + 1)) eqn:Hsafe; [|reads Hr; by eapply keeps_same].
  all: reads Hr; eapply (job_step j (with_job_state j (pj_attempt_count j + 1) (JobInFlight (Z.min lease (pj_deadline_at_ms j)))));
    [done|done| | |exact E|exact E0]; [|apply job_state_later; [left; lia|congruence]].
  all: rewrite safe_nonneg in *; unfold isSafeInteger in Hsafe; apply job_ok_state; [done|apply safe_nonneg; lia|].
  all: rewrite (proj2 (safe_nonneg _)) by lia; lia.
Qed.
Lemma complete_job_keeps completion d' r : isNonNegativeInteger (jc_next_poll_at_ms completion) = true ->
  isNonNegativeInteger (jc_failures completion) = true -> complete_job_body completion d = (d', inr r) -> keeps d d'.
Proof.
  intros Hn Hf Hr. unfold complete_job_body in Hr. reads Hr. rewrite (get_config _ _ _ _ _ _ Hs) in Hr.
  destruct (row_at _ _ (db_jobs d)) as [j|] eqn:Ej; [|reads Hr; by eapply keeps_same]. apply row_at_Some in Ej as [Hj _].
  pose proof (so_jobs _ _ _ _ _ _ Hs j Hj) as Hok. destruct (job_parts _ Hok) as (Hd & _ & Ha & _).
  destruct (negb _) eqn:Ef; [reads Hr; by eapply keeps_same|]. destruct (_ || _) eqn:Eg; [reads Hr; by eapply keeps_same|].
  reads Hr. eapply (job_step j (rescheduled j (jc_next_poll_at_ms completion) (jc_failures completion))); [done|done| | |exact E|exact E0].
  - rewrite !orb_false_iff in Eg. destruct Eg as ((((_ & _) & _) & Hle) & _). apply Z.ltb_ge in Hle.
    unfold job_ok, playerLocalEvidencePollJobValid. cbn. rewrite Hf, Ha. unfold playerLocalEvidencePollJobDraftValid in *. cbn.
    rewrite !andb_true_iff in Hd. destruct Hd as ((((((H1 & H2) & H3) & H4) & H5) & _) & _). fold b.
    rewrite H1, H2, H3, H4, H5, Hn. cbn. lia.
  - split; [by apply same_draft_eq|]. cbn. split; [right; split; [done|right; by intros []]|]. intros t reason Es.
    by rewrite Es in Ef.
Qed.
Lemma escalate_keeps sourceId nowMs reason d' r : isNonNegativeInteger nowMs = true -> bounded reason 4096 = true ->
  escalate_body sourceId nowMs reason d = (d', inr r) -> keeps d d'.
Proof.
  intros Hn Hb Hr. unfold escalate_body in Hr. reads Hr. rewrite (get_config _ _ _ _ _ _ Hs) in Hr.
  destruct (row_at _ _ (db_jobs d)) as [j|] eqn:Ej; [|reads Hr; by eapply keeps_same]. apply row_at_Some in Ej as [Hj _].
  pose proof (so_jobs _ _ _ _ _ _ Hs j Hj) as Hok. destruct (job_parts _ Hok) as (_ & _ & Ha & _).
  destruct (pj_state j) as [|lease|t|t old] eqn:Est; [| | |reads Hr; by eapply keeps_same].
  all: reads Hr; eapply (job_step j (with_job_state j (pj_attempt_count j) (JobEscalated nowMs reason))); [done|done| | |exact E|exact E0];
    [apply job_ok_state; [done|done|]; by rewrite Hn, Hb|apply job_state_later; [right; split; [done|by intros []]|congruence]].
Qed.

(** *** The inbox *)

Record inbox_accepted (img : PlayerLocalAuditImage) (ws : PlayerLocalEvidenceInboxWriteSet) : Prop := {
  ia_boundary : cu_boundary (iw_next_cursor ws) = im_boundary img;
  ia_source : cu_source_id (iw_next_cursor ws) = cu_source_id (iw_expected_cursor ws);
  ia_source_id : bounded (cu_source_id (iw_expected_cursor ws)) 256 = true;
  ia_sequence : isNonNegativeInteger (cu_sequence (iw_next_cursor ws)) = true;
  ia_next : cu_sequence (iw_next_cursor ws) = cu_sequence (iw_expected_cursor ws) + 1;
  ia_digest : bounded (cu_message_digest (iw_next_cursor ws)) 4096 = true;
  ia_current : match List.find (fun c => str_eqb (cu_source_id c) (cu_source_id (iw_expected_cursor ws))) (im_evidence_inbox_cursors img) with
               | Some current => current = iw_expected_cursor ws
               | None => cu_sequence (iw_expected_cursor ws) = -1
               end;
  ia_operation : match iw_operation ws with
                 | PlaceHold hold => placeAllowed img (iw_message_id ws) hold = true
                 | ResolveHold resolution => resolveAllowed img (iw_message_id ws) resolution = true
                 end;
}.
Lemma inbox_valid_spec img ws : playerLocalEvidenceInboxWriteSetValid img ws = true -> inbox_accepted img ws.
Proof.
  unfold playerLocalEvidenceInboxWriteSetValid. rewrite !andb_true_iff.
  intros (((((((((((((((_ & _) & _) & Hb) & Hs1) & Hs2) & _) & _) & Hn) & Hnext) & _) & Hd) & _) & _) & Hc) & Ho).
  apply same_boundary_eq in Hb. apply str_eqb_eq in Hs2. apply Z.eqb_eq in Hnext.
  split; try done. all: destruct (iw_operation ws); try done.
  all: destruct (List.find _ _); [by apply same_cursor_eq in Hc|lia].
Qed.
Lemma apply_operation_ok eqs ws d1 u :
  inbox_accepted (current_image cfg d order rev a h eqs) ws ->
  apply_operation (current_image cfg d order rev a h eqs) (iw_operation ws) d = (d1, inr u) ->
  exists rows, d1 = set_rows EVIDENCE_HOLD_STORE rows d /\ hold_change rows.
Proof.
  intros Hok Hr. pose proof (ia_operation _ _ Hok) as Hop. unfold apply_operation in Hr.
  destruct (iw_operation ws) as [hold|resolution].
  - unfold placeAllowed in Hop. rewrite !andb_true_iff in Hop. destruct Hop as ((((_ & Hv) & _) & Hc) & _). cbn [im_boundary current_image image_of] in Hv.
    destruct (existsb _ _); [reads Hr; exists (db_holds d); split; [by destruct d|apply hold_unchanged]|].
    apply (hold_added hold _ u Hv); [|exact Hr]. destruct (find_checkpoint _ _) as [c|] eqn:Ec; [|done].
    apply find_checkpoint_Some in Ec as [Hc' He]. cbn in Hc'. rewrite js_sort_perm in Hc'. apply str_eqb_eq in Hc. by exists c.
  - unfold resolveAllowed in Hop. rewrite !andb_true_iff in Hop. destruct Hop as ((_ & Hv) & _). cbn [im_boundary current_image image_of] in Hv.
    destruct (find_hold _ _) as [x|] eqn:Ex; [|done]. apply find_hold_Some in Ex as [Hx _]. cbn in Hx. rewrite js_sort_perm in Hx.
    unfold hold_is_active in Hr. destruct (eh_state x) eqn:Est.
    + eapply hold_resolved; [exact Hx|done|by apply resolution_digest_nonempty|exact Hr].
    + reads Hr. exists (db_holds d). split; [by destruct d|apply hold_unchanged].
Qed.
Lemma inject_ok kind f p d1 d2 u : inject hook kind f p d1 = (d2, inr u) -> d2 = d1.
Proof. unfold inject. intros Hr. idb_step Hr. idb_step Hr. by idb_step Hr. Qed.
Lemma bump_expected_result c0 changed n d1 d2 u : db_config d1 = [c0] -> bump_expected changed n d1 = (d2, inr u) ->
  d2 = set_rows CONFIG_STORE [with_revision c0 (sc_next_created_order c0) (sc_storage_revision c0 + 1)] d1.
Proof.
  intros Hc Hr. unfold bump_expected in Hr. reads Hr. rewrite Hc in Hr.
  change (key_path CONFIG_STORE) with (fun _ : StoredConfiguration => SINGLETON_KEY) in Hr. rewrite row_at_const in Hr. reads Hr. by eapply bump_result.
Qed.
Lemma find_cursor eqs src : match List.find (fun c => str_eqb (cu_source_id c) src)
    (im_evidence_inbox_cursors (current_image cfg d order rev a h eqs)) with
  | Some c => c ∈ db_cursors d /\ cu_source_id c = src
  | None => forall c, c ∈ db_cursors d -> cu_source_id c <> src
  end.
Proof.
  destruct (List.find _ _) as [c|] eqn:E.
  - apply List.find_some in E as [Hc E]. rewrite <- list_elem_of_In in Hc. cbn in Hc. rewrite js_sort_perm in Hc. split; [done|by apply str_eqb_eq].
  - intros c Hc Hsrc. pose proof (List.find_none _ _ E c) as Hn. rewrite <- list_elem_of_In in Hn. cbn in Hn. rewrite js_sort_perm in Hn.
    specialize (Hn Hc). by rewrite Hsrc, str_eqb_refl in Hn.
Qed.
(** What an applied write set changes. *)
Lemma inbox_keeps ws fault d' r : inbox_body hook ws fault d = (d', inr r) ->
  keeps d d' /\ (r = InboxApplied -> iw_expected_revision ws = rev /\ db_config d' = [mkStoredConfiguration cfg order (rev + 1)]).
Proof.
  intros Hr. destruct (sound_image cfg d order rev a h Hs) as (eqs & Eimg & _).
  unfold inbox_body in Hr. unfold ibind at 1 in Hr. rewrite Eimg in Hr.
  destruct (im_storage_revision (current_image cfg d order rev a h eqs) =? iw_expected_revision ws) eqn:Hrev;
    [|reads Hr; split; [by eapply keeps_same|done]].
  destruct (playerLocalEvidenceInboxWriteSetValid _ ws) eqn:Ev; [|reads Hr; split; [by eapply keeps_same|done]].
  apply inbox_valid_spec in Ev. cbn in Hrev. reads Hr. apply inject_ok in E0 as ->, E2 as ->.
  destruct (apply_operation_ok eqs ws _ _ Ev E) as (rows & -> & Hch).
  pose proof (find_cursor eqs (cu_source_id (iw_expected_cursor ws))) as Hfind. destruct Ev as [Hb Hsrc Hsid Hseq Hnext Hdig Hcur _].
  assert (Hcursors : exists crows, d2 = set_rows EVIDENCE_INBOX_CURSOR_STORE crows (set_rows EVIDENCE_HOLD_STORE rows d) /\
    rows_ok (key_path EVIDENCE_INBOX_CURSOR_STORE) (unique_index EVIDENCE_INBOX_CURSOR_STORE) crows /\
    (forall c, c ∈ crows -> c = iw_next_cursor ws \/ c ∈ db_cursors d) /\
    forall c, c ∈ db_cursors d -> exists c', c' ∈ crows /\ cu_source_id c' = cu_source_id c /\ (c' = c \/ cu_sequence c < cu_sequence c')).
  { destruct (Z.eqb_spec (cu_sequence (iw_expected_cursor ws)) (-1)) as [Hm|Hm].
    - apply idb_add_ok in E1 as (-> & Hk & Hi). eexists. split; [done|]. split_and!.
      + apply rows_ok_insert; [apply (so_cursor_store _ _ _ _ _ _ Hs)|done|done].
      + by intros c ?%elem_of_insert_row.
      + intros c Hc. exists c. split; [by apply elem_of_insert_row; right|]. split; [done|by left].
    - apply idb_put_ok in E1 as [-> Hi]. eexists. split; [done|]. split_and!.
      + apply rows_ok_put; [apply (so_cursor_store _ _ _ _ _ _ Hs)|done].
      + intros c [->|[Hc _]]%elem_of_put_row; [by left|by right].
      + intros c Hc. destruct (decide (cu_source_id c = cu_source_id (iw_next_cursor ws))) as [Hs'|Hs'].
        * exists (iw_next_cursor ws). split; [by apply elem_of_put_row; left|]. split; [done|]. right.
          destruct (List.find _ _) as [c0|]; [|lia]. subst c0. destruct Hfind as [Hin _].
          assert (c = iw_expected_cursor ws) as ->; [|lia].
          apply (keys_distinct_inj (key_path EVIDENCE_INBOX_CURSOR_STORE) (db_cursors d)); [apply (so_cursor_store _ _ _ _ _ _ Hs)|done|done|].
          cbn. congruence.
        * exists c. split; [|split; [done|by left]]. apply elem_of_put_row. right. split; [done|]. cbn. congruence. }
  destruct Hcursors as (crows & -> & Hcok & Hcin & Hclater). clear E1.
  apply (bump_expected_result row) in E3 as ->; [|apply (so_config _ _ _ _ _ _ Hs)]. split; [|intros _; split; [lia|done]].
  destruct Hch as [Hhok Hhrows Hhlater]. exists order, (rev + 1), a, h. split.
  - destruct Hs. split; cbn; try done; try lia. intros c [->|Hc]%Hcin; [|by apply so_cursors].
    split_and!; [done|by rewrite Hsrc|done|done].
  - evolve d; [eapply ev_bumped; [| |done]; cbn; lia| |]; [exact Hhlater|exact Hclater].
Qed.

(** *** Sealing *)

Lemma at_checkpoint_more c cps epoch digest : at_checkpoint cps epoch digest ->
  at_checkpoint (insert_row (key_path CHECKPOINT_STORE) c cps) epoch digest.
Proof. intros (x & Hx & E). exists x. split; [by apply elem_of_insert_row; right|done]. Qed.
Lemma seal_keeps ws fault d' r : no_nul (cp_checkpoint_digest (sw_checkpoint ws)) ->
  commitSeal_body hook ws fault d = (d', inr r) -> keeps d d'.
Proof.
  intros Hnul Hr. unfold commitSeal_body in Hr. reads Hr.
  rewrite (get_config _ _ _ _ _ _ Hs), (get_head _ _ _ _ _ _ Hs), (get_retention _ _ _ _ _ _ Hs) in Hr. cbn [sc_storage_revision sc_configuration] in Hr.
  destruct (rev =? sw_expected_revision ws) eqn:Hrev; [|reads Hr; by eapply keeps_same].
  destruct (samePlayerLocalSnapshot _ _) eqn:Hsn; [|reads Hr; by eapply keeps_same].
  destruct (playerLocalSealWriteSetValid cfg ws) eqn:Hv; [|reads Hr; by eapply keeps_same].
  apply same_snapshot_eq in Hsn. destruct (seal_valid_spec _ _ Hv) as [Hcv Hclv Hep Hpar Hcle Hhead Hsome Hcount Hord Hsafe Hent].
  rewrite <- Hsn in Hep, Hpar, Hcount, Hord, Hent. cbn in Hep, Hpar, Hcount, Hord, Hent. clear Hsn.
  apply sealEntriesValid_spec in Hent as (Hent & _ & _). reads Hr.
  apply inject_ok in E0 as ->, E2 as ->, E4 as ->, E6 as ->.
  apply idb_add_ok in E as (-> & Hck & Hci). apply idb_put_ok in E1 as [-> _].
  cbn in E3. apply idb_each_add in E3 as (orows & -> & Hop & Hook); [|exact _|apply (so_outbox_store _ _ _ _ _ _ Hs)].
  apply idb_add_ok in E5 as (-> & Hlk & Hli). apply idb_put_ok in E7 as [-> _].
  cbn [rows_of CONFIG_STORE HEAD_STORE OUTBOX_STORE CLOSURE_STORE CHECKPOINT_STORE] in *. cbn in Hop.
  pose proof (so_order _ _ _ _ _ _ Hs) as Ho. rewrite safe_nonneg in Ho. unfold zlength in *.
  exists (sw_next_created_order ws), (rev + 1), a, (sw_next_head ws).
  assert (Hin : forall e, e ∈ orows <-> e ∈ sw_outbox_entries ws \/ e ∈ db_outbox d) by (intros e; by rewrite Hop, elem_of_app).
  split.
  - destruct Hs as [Hsc Hsh Hsr]. split; cbn.
    + rewrite Hsc. by rewrite put_singleton.
    + rewrite Hsh. by rewrite put_singleton.
    + done.
    + lia.
    + apply safe_nonneg. unfold isSafeInteger in Hsafe. lia.
    + done.
    + destruct so_chain as (cps & cls & Hp & Hq & Hb & Hc & Hn). exists (cps ++ [sw_checkpoint ws]), (cls ++ [sw_consumed_closure ws]).
      split_and!.
      * rewrite insert_row_perm, Hp. apply Permutation_cons_append.
      * rewrite insert_row_perm, Hq. apply Permutation_cons_append.
      * by rewrite Hhead.
      * rewrite Hhead. cbn. rewrite Hep. eapply chain_snoc; [exact Hc|done|done|congruence|congruence|done].
      * intros c [->|Hc']%elem_of_insert_row; [done|by apply Hn].
    + done.
    + done.
    + intros x Hx. destruct (so_holds x Hx) as [? Hat]. split; [done|by apply at_checkpoint_more].
    + done.
    + done.
    + intros e [He|He]%Hin.
      * destruct (Hent e He) as (? & ? & ? & ? & ? & Hst & ? & _). exists (sw_checkpoint ws). rewrite elem_of_insert_row. rewrite Hst.
        split_and!; [by left|done..|lia|lia|done].
      * destruct (so_outbox e He) as (c & ? & ? & ? & ? & ? & ? & ? & ?). exists c. rewrite elem_of_insert_row. split_and!; [by right|done..|lia|lia|done].
    + intros c [->|Hc]%elem_of_insert_row.
      * destruct (sw_outbox_entries ws) as [|e l]; [done|]. exists e. rewrite Hin. destruct (Hent e ltac:(left)) as (_ & _ & ? & _). split; [left; left|done].
      * destruct (so_footprint c Hc) as (e & He & ?). exists e. rewrite Hin. tauto.
    + rewrite (unacknowledged_perm _ _ Hop), unacknowledged_app. pose proof (unacknowledged_le (sw_outbox_entries ws)). unfold zlength in *. lia.
    + intros k Hk. destruct (so_acks k Hk) as (? & e & ? & ?). split; [done|]. exists e. rewrite Hin. tauto.
    + intros e [He|He]%Hin Ha; [|by apply so_acked]. destruct (Hent e He) as (_ & _ & _ & _ & _ & Hst & _). unfold acked in Ha. congruence.
    + done.
    + done.
    + by apply rows_ok_insert.
    + done.
    + done.
    + done.
    + by apply rows_ok_insert.
    + done.
    + done.
  - evolve d.
    + eapply ev_bumped; [| |cbn; rewrite (so_config _ _ _ _ _ _ Hs); apply put_singleton]; cbn; lia.
    + intros x. rewrite (so_head _ _ _ _ _ _ Hs). intros ->%list_elem_of_singleton. exists (sw_next_head ws).
      cbn. split; [rewrite put_singleton; left|]. right. rewrite Hhead. cbn. lia.
    + intros c Hc. left. cbn. apply elem_of_insert_row. by right.
    + intros c. cbn. intros [->|Hc]%elem_of_insert_row; [|by left]. right. intros x. rewrite (so_head _ _ _ _ _ _ Hs).
      intros ->%list_elem_of_singleton. lia.
    + intros e He. left. exists e. cbn. rewrite Hin. split; [by right|apply outbox_later_refl].
Qed.

(** *** Pruning *)

(** A checkpoint of every epoch above the anchor up to the head. *)
Lemma checkpoint_at n : hd_epoch a < n <= hd_epoch h -> exists c, c ∈ db_checkpoints d /\ cp_epoch c = n.
Proof.
  intros Hn. destruct (so_chain _ _ _ _ _ _ Hs) as (cps & cls & Hp & _ & _ & Hc & _). setoid_rewrite Hp.
  apply (chain_covers _ _ _ _ _ _ _ _ Hc). lia.
Qed.
Section PruneFacts.
Context (ws : PlayerLocalPruneWriteSet) (eqs : list PlayerLocalEventEquivocation).
Let img := current_image cfg d order rev a h eqs.
Let through := hd_epoch (pw_next_anchor ws).
Context (Hok : prune_accepted img ws) (Heqs : Forall2 (joined (db_events d)) (js_sort equivocation_le (db_equivocations d)) eqs).

Lemma pruned_closed : (exists cps cls, js_sort (fun l r => cp_epoch l <=? cp_epoch r) (db_checkpoints d) = cps /\
    db_checkpoints d ≡ₚ cps /\ db_closures d ≡ₚ cls /\
    chain_to b (through + 1) (hd_checkpoint_digest (pw_next_anchor ws)) (List.filter (fun c => through <? cp_epoch c) cps)
      (List.filter (fun cl => through <? cl_epoch cl) cls) (hd_epoch h + 1) (hd_checkpoint_digest h)) /\
  forall c, c ∈ db_checkpoints d -> cp_epoch c <= through ->
    prunable img (pr_protected_epochs ws ++ activeHoldEpochs (js_sort hold_le (db_holds d))) c.
Proof.
  destruct (sorted_chain cfg d order rev a h Hs) as (cps & cls & E1 & Hp & _ & Hq & Hb & Hc & _).
  pose proof (pa_prefix _ _ Hok) as Hpre. pose proof (pa_after _ _ Hok) as Haft. cbn in Hpre, Haft. rewrite E1 in Hpre.
  destruct (pruned_chain b img _ _ _ _ _ _ _ _ _ _ Hc Hpre) as [Hch Hpr]; [lia|]. split; [by exists cps, cls|].
  intros c. rewrite Hp. apply Hpr.
Qed.
Lemma pruned_open_epoch n : n ∈ equivocationEpochs eqs -> hd_epoch a < n -> through < n.
Proof.
  intros Hn Ha. destruct (Z.ltb_spec through n) as [|Hle]; [done|]. pose proof (pa_after _ _ Hok) as Haft. cbn in Haft.
  destruct (checkpoint_at n) as (c & Hc & E); [unfold through in *; lia|]. destruct (proj2 pruned_closed c Hc) as (_ & Hq & _); [lia|].
  destruct Hq. rewrite E. exact Hn.
Qed.
Lemma equivocations_stay ev : ev ∈ eqs -> (pe_epoch (accepted ev) <=? through) || (pe_epoch (conflicting ev) <=? through) = false.
Proof.
  intros Hev. assert (Hep : forall n, (n = pe_epoch (accepted ev) \/ n = pe_epoch (conflicting ev)) -> n ∈ equivocationEpochs eqs).
  { intros n Hn. apply list_elem_of_In, in_flat_map. exists ev. split; [by apply list_elem_of_In|]. cbn. naive_solver. }
  apply list_elem_of_lookup in Hev as [i Hi]. destruct (Forall2_lookup_r _ _ _ _ _ Heqs Hi) as (r & Hr & Hj).
  apply list_elem_of_lookup_2 in Hr. rewrite js_sort_perm in Hr.
  destruct Hj as (Hc & Hin & _). destruct (so_events _ _ _ _ _ _ Hs _ Hin) as [_ Ha1].
  destruct (so_equivocations _ _ _ _ _ _ Hs r Hr) as ((_ & Ha2) & _). rewrite <- Hc in Ha2.
  apply orb_false_iff. rewrite !Z.leb_gt. split; apply pruned_open_epoch; auto.
Qed.
Lemma active_holds_stay x : x ∈ db_holds d -> hold_is_active x = true -> through < eh_epoch x.
Proof.
  intros Hx Hact. destruct (so_holds _ _ _ _ _ _ Hs x Hx) as (_ & c & Hc & E & _).
  destruct (Z.ltb_spec through (eh_epoch x)) as [|Hle]; [done|]. destruct (proj2 pruned_closed c Hc) as (Hn & _); [lia|].
  destruct Hn. apply elem_of_app. right. unfold activeHoldEpochs. apply list_elem_of_fmap. exists x. split; [done|].
  apply list_elem_of_In, filter_In. rewrite <- list_elem_of_In, js_sort_perm. done.
Qed.
Lemma pruned_anchor_ok : anchor_ok cfg (pw_next_anchor ws).
Proof.
  pose proof (pa_after _ _ Hok) as Haft. pose proof (pa_boundary _ _ Hok) as Hb. cbn in Haft, Hb.
  destruct (so_anchor _ _ _ _ _ _ Hs) as (_ & _ & Ham & Han & _).
  destruct (checkpoint_at (hd_epoch (pw_next_anchor ws))) as (c & Hc & E); [lia|].
  destruct (checkpoint_epoch cfg d order rev a h Hs c Hc) as [_ Hv]. unfold playerLocalCheckpointValid in Hv.
  rewrite E, !andb_true_iff in Hv. destruct Hv as ((((_ & Hsafe) & _) & _) & _). unfold isNonNegativeInteger in Hsafe. apply andb_true_iff in Hsafe as [Hsafe Hpos].
  split_and!; [done|done|lia| |lia].
  destruct (sorted_chain cfg d order rev a h Hs) as (cps & cls & E1 & _ & _ & _ & _ & Hch & _).
  pose proof (pa_prefix _ _ Hok) as Hpre. cbn in Hpre. rewrite E1 in Hpre. by eapply prefix_parent.
Qed.
Lemma joined_row r : r ∈ db_equivocations d -> exists ev, ev ∈ eqs /\ joined (db_events d) r ev.
Proof.
  intros Hr. assert (Hr' : r ∈ js_sort equivocation_le (db_equivocations d)) by by rewrite js_sort_perm.
  apply list_elem_of_lookup in Hr' as [i Hi]. destruct (Forall2_lookup_l _ _ _ _ _ Heqs Hi) as (ev & Hev & Hj).
  exists ev. split; [by eapply list_elem_of_lookup_2|done].
Qed.
End PruneFacts.

Lemma delete_rows {A} (s : object_store player_db A) `{!StoreLaws s} test l d1 d2 u :
  keys_distinct (key_path s) (rows_of s d1) -> (forall x, x ∈ l -> x ∈ rows_of s d1) -> (forall x, x ∈ rows_of s d1 -> test x = true -> x ∈ l) ->
  idb_each (fun x => if test x then idb_delete s (key_path s x) else iret I) l d1 = (d2, inr u) ->
  exists rows, d2 = set_rows s rows d1 /\ rows `sublist_of` rows_of s d1 /\ forall y, y ∈ rows <-> y ∈ rows_of s d1 /\ test y = false.
Proof.
  intros Hnd Hl Hl' Hr. apply idb_each_delete in Hr as (rows & -> & Hsub & Hin); [|done]. exists rows. split_and!; [done|done|].
  intros y. rewrite Hin. split; intros [Hy Hk]; (split; [done|]).
  - destruct (test y) eqn:Et; [|done]. by destruct (Hk y (Hl' y Hy Et) Et).
  - intros x Hx Et E. apply (keys_distinct_inj _ _ _ _ Hnd Hy (Hl _ Hx)) in E as ->. congruence.
Qed.
Lemma filter_rows {A} (key : A -> idb_key) (test : A -> bool) rows rows' l : rows' `sublist_of` rows -> keys_distinct key rows -> rows ≡ₚ l ->
  (forall y, y ∈ rows' <-> y ∈ rows /\ test y = false) -> rows' ≡ₚ List.filter (fun x => negb (test x)) l.
Proof.
  intros Hsub Hnd%NoDup_fmap_1 Hp Hin. apply NoDup_Permutation.
  - by eapply sublist_NoDup.
  - apply NoDup_ListNoDup, List.NoDup_filter, NoDup_ListNoDup. by rewrite <- Hp.
  - intros y. rewrite Hin, list_elem_of_In, (list_elem_of_In (List.filter _ _)), filter_In, <- !list_elem_of_In, Hp, negb_true_iff. done.
Qed.

Lemma idb_each_skip {A X} (test : X -> bool) (s : object_store player_db A) (k : X -> idb_key) l d1 d2 u :
  (forall x, x ∈ l -> test x = false) ->
  idb_each (fun x => if test x then idb_delete s (k x) else iret I) l d1 = (d2, inr u) -> d2 = d1.
Proof.
  induction l as [|x l IH]; intros Ht; cbn [idb_each]; intros Hr; [by idb_step Hr|]. rewrite (Ht x) in Hr by left. reads Hr.
  apply IH; [intros y Hy; apply Ht; by right|done].
Qed.
Record pruned_rows (through : Z) (d2 : player_db) : Prop := {
  pr_config : db_config d2 = db_config d;
  pr_head : db_head d2 = db_head d;
  pr_events : db_events d2 `sublist_of` db_events d /\ forall y, y ∈ db_events d2 <-> y ∈ db_events d /\ through < pe_epoch y;
  pr_equivocations : db_equivocations d2 = db_equivocations d;
  pr_checkpoints : db_checkpoints d2 `sublist_of` db_checkpoints d /\ forall y, y ∈ db_checkpoints d2 <-> y ∈ db_checkpoints d /\ (cp_epoch y <=? through) = false;
  pr_closures : db_closures d2 `sublist_of` db_closures d /\ forall y, y ∈ db_closures d2 <-> y ∈ db_closures d /\ (cl_epoch y <=? through) = false;
  pr_holds : db_holds d2 `sublist_of` db_holds d /\ forall y, y ∈ db_holds d2 <-> y ∈ db_holds d /\ through < eh_epoch y;
  pr_outbox : db_outbox d2 `sublist_of` db_outbox d /\ forall y, y ∈ db_outbox d2 <-> y ∈ db_outbox d /\ through < ob_epoch y;
  pr_acks : db_acks d2 `sublist_of` db_acks d /\ forall y, y ∈ db_acks d2 <-> y ∈ db_acks d /\ through < ack_epoch y;
  pr_cursors : db_cursors d2 = db_cursors d;
  pr_jobs : db_jobs d2 = db_jobs d;
}.
Lemma prune_runs ws fault d' r : prune_body hook ws fault d = (d', inr r) -> (d' = d /\ forall t, r <> Pruned t) \/
  exists eqs d2, Forall2 (joined (db_events d)) (js_sort equivocation_le (db_equivocations d)) eqs /\
    prune_accepted (current_image cfg d order rev a h eqs) ws /\ pruned_rows (hd_epoch (pw_next_anchor ws)) d2 /\
    db_config d' = [mkStoredConfiguration cfg order (rev + 1)] /\ db_retention d' = [pw_next_anchor ws] /\
    d' = set_rows CONFIG_STORE (db_config d') (set_rows RETENTION_STORE (db_retention d') d2) /\ r = Pruned (hd_epoch (pw_next_anchor ws)).
Proof.
  intros Hr. destruct (sound_image cfg d order rev a h Hs) as (eqs & Eimg & Heqs).
  unfold prune_body in Hr. unfold ibind at 1 in Hr. rewrite Eimg in Hr.
  destruct (negb (im_storage_revision (current_image cfg d order rev a h eqs) =? pw_expected_revision ws)); [reads Hr; left; by split|].
  destruct (playerLocalPruneWriteSetValid _ ws) eqn:Ev; [|reads Hr; left; by split].
  apply prune_valid_spec in Ev. right. reads Hr.
  pose proof (equivocations_stay ws eqs Ev Heqs) as Hstay. pose proof (active_holds_stay ws eqs Ev) as Hact.
  set (t := hd_epoch (pw_next_anchor ws)) in *.
  apply inject_ok in E1 as ->, E4 as ->, E8 as ->, E10 as ->.
  pose proof (so_event_store _ _ _ _ _ _ Hs) as [K1 _]. pose proof (so_outbox_store _ _ _ _ _ _ Hs) as [K2 _].
  pose proof (so_ack_store _ _ _ _ _ _ Hs) as [K3 _]. pose proof (so_hold_store _ _ _ _ _ _ Hs) as [K4 _].
  pose proof (so_checkpoint_store _ _ _ _ _ _ Hs) as [K5 _]. pose proof (so_closure_store _ _ _ _ _ _ Hs) as [K6 _].
  eapply (delete_rows EVENT_STORE (fun e => pe_epoch e <=? t)) in E as (r1 & -> & S1 & I1); [|exact K1|intros x; cbn; by rewrite js_sort_perm..].
  apply (idb_each_skip (fun ev => (pe_epoch (accepted ev) <=? t) || (pe_epoch (conflicting ev) <=? t))) in E0 as ->; [|exact Hstay].
  eapply (delete_rows OUTBOX_STORE (fun e => ob_epoch e <=? t)) in E2 as (r2 & -> & S2 & I2); [|exact K2|intros x; cbn; by rewrite js_sort_perm..].
  eapply (delete_rows ACK_STORE (fun e => ack_epoch e <=? t)) in E3 as (r3 & -> & S3 & I3); [|exact K3|intros x; cbn; by rewrite js_sort_perm..].
  eapply (delete_rows EVIDENCE_HOLD_STORE (fun e => (eh_epoch e <=? t) && negb (hold_is_active e))) in E5 as (r4 & -> & S4 & I4);
    [|exact K4|intros x; cbn; by rewrite js_sort_perm..].
  eapply (delete_rows CHECKPOINT_STORE (fun e => cp_epoch e <=? t)) in E6 as (r5 & -> & S5 & I5); [|exact K5|intros x; cbn; by rewrite js_sort_perm..].
  eapply (delete_rows CLOSURE_STORE (fun e => cl_epoch e <=? t)) in E7 as (r6 & -> & S6 & I6); [|exact K6|intros x; cbn; by rewrite js_sort_perm..].
  apply idb_put_ok in E9 as [-> _]. apply (bump_expected_result row) in E11 as ->; [|apply (so_config _ _ _ _ _ _ Hs)].
  cbn in S1, S2, S3, S4, S5, S6, I1, I2, I3, I4, I5, I6.
  exists eqs, (mkDb (db_config d) r1 (db_equivocations d) r5 (db_head d) (db_retention d) r4 (db_cursors d) (db_jobs d) r6 r2 r3).
  split_and!; [done|done| |done| |done|done].
  - split; cbn; try done; (split; [done|]); intros y; rewrite ?I1, ?I2, ?I3, ?I4; try (rewrite Z.leb_gt; done).
    split; intros [Hy Ht]; (split; [done|]).
    + destruct (hold_is_active y) eqn:Ea; [by apply Hact|]. rewrite andb_true_r, Z.leb_gt in Ht. done.
    + apply andb_false_iff. left. by apply Z.leb_gt.
  - cbn. rewrite (so_retention _ _ _ _ _ _ Hs). apply put_singleton.
Qed.
Lemma acked_spec e : is_acknowledged e = true <-> acked e.
Proof. unfold is_acknowledged, acked. by destruct (ob_state e). Qed.
(** [l'] is what is left of the rows [l] of a table when those up to the epoch
    [t] are taken away. *)
Definition above {A} (t : Z) (epoch_of : A -> Z) (l l' : list A) : Prop :=
  l' `sublist_of` l /\ forall x, x ∈ l' <-> x ∈ l /\ t < epoch_of x.
Lemma above_leb {A} t (epoch_of : A -> Z) (l l' : list A) :
  (l' `sublist_of` l /\ forall x, x ∈ l' <-> x ∈ l /\ (epoch_of x <=? t) = false) -> above t epoch_of l l'.
Proof. intros [Hl Hx]. split; [done|]. intros x. by rewrite Hx, Z.leb_gt. Qed.

(** What a prune that succeeds takes. *)
Lemma prune_result ws fault d' t : prune_body hook ws fault d = (d', inr (Pruned t)) ->
  t = hd_epoch (pw_next_anchor ws) /\ db_retention d' = [pw_next_anchor ws] /\
  (above t cp_epoch (db_checkpoints d) (db_checkpoints d') /\ above t cl_epoch (db_closures d) (db_closures d') /\
   above t pe_epoch (db_events d) (db_events d') /\ above t ob_epoch (db_outbox d) (db_outbox d') /\
   above t ack_epoch (db_acks d) (db_acks d') /\ above t eh_epoch (db_holds d) (db_holds d')) /\
  (db_equivocations d' = db_equivocations d /\ db_head d' = db_head d /\ db_cursors d' = db_cursors d /\
   db_jobs d' = db_jobs d /\
   db_config d = [mkStoredConfiguration cfg order rev] /\ db_config d' = [mkStoredConfiguration cfg order (rev + 1)]) /\
  (forall hold, hold ∈ db_holds d -> hold_is_active hold = true -> hold ∈ db_holds d') /\
  forall c, c ∈ db_checkpoints d -> cp_epoch c <= t ->
    cp_epoch c ∉ pr_protected_epochs ws /\
    (forall hold, hold ∈ db_holds d -> hold_is_active hold = true -> eh_epoch hold <> cp_epoch c) /\
    (forall e, e ∈ db_outbox d -> ob_epoch e = cp_epoch c -> acked e) /\
    (forall r, r ∈ db_equivocations d -> pe_epoch (se_conflicting r) <> cp_epoch c).
Proof.
  intros Hr. apply prune_runs in Hr as [[_ Hn]|(eqs & d2 & Heqs & Ev & [P1 P2 I1 P3 I4 I5 I6 I2 I3 P4 P5] & Hcfg & Hret & E & Ht)];
    [by destruct (Hn t)|].
  injection Ht as ->. split; [done|]. split; [done|]. rewrite E, Hcfg, Hret. cbn.
  apply above_leb in I4, I5. split; [by split_and!|].
  split; [split_and!; try done; apply (so_config _ _ _ _ _ _ Hs)|].
  split; [intros hold Hh Ha; apply I6; split; [done|by apply (active_holds_stay ws eqs Ev)]|].
  intros c Hc Hle. destruct (pruned_closed ws eqs Ev) as [_ Hcl]. destruct (Hcl c Hc Hle) as (Hn & Hq & Ho). split_and!.
  - intros Hin. apply Hn, elem_of_app. by left.
  - intros hold Hh Ha Eh. pose proof (active_holds_stay ws eqs Ev hold Hh Ha). lia.
  - intros e He Ee. apply acked_spec. apply Ho; [cbn; by rewrite js_sort_perm|done|].
    destruct (so_outbox _ _ _ _ _ _ Hs e He) as (c' & Hc' & Ec & _ & _ & Ed & _). rewrite Ed. f_equal.
    apply (keys_distinct_inj (key_path CHECKPOINT_STORE) (db_checkpoints d)); [apply (so_checkpoint_store _ _ _ _ _ _ Hs)|done|done|].
    cbn. congruence.
  - intros r Hr Er. destruct (joined_row eqs Heqs r Hr) as (ev & Hev & (Ec & _)).
    pose proof (equivocations_stay ws eqs Ev Heqs ev Hev) as Hst. rewrite orb_false_iff, !Z.leb_gt, Ec in Hst. lia.
Qed.
Lemma prune_keeps ws fault d' r : prune_body hook ws fault d = (d', inr r) -> keeps d d'.
Proof.
  intros Hr. apply prune_runs in Hr as [(-> & _)|(eqs & d2 & Heqs & Ev & [P1 P2 [S1 I1] P3 [S5 I5] [S6 I6] [S4 I4] [S2 I2] [S3 I3] P4 P5] & Hc & Hret & E & _)];
    [by eapply keeps_same|].
  set (t := hd_epoch (pw_next_anchor ws)) in *. pose proof (pa_after _ _ Ev) as Haft. cbn in Haft. fold t in Haft.
  rewrite Hc, Hret in E. rewrite E. clear Hc Hret E.
  destruct (pruned_closed ws eqs Ev) as [(cps & cls & _ & Hp & Hq & Hch) Hcl]. fold t in Hch.
  destruct (so_anchor _ _ _ _ _ _ Hs) as (Hab & Has & Ham & Han & _). pose proof (pa_boundary _ _ Ev) as Hnb. cbn in Hnb.
  pose proof (so_checkpoint_store _ _ _ _ _ _ Hs) as [K5 _]. pose proof (so_closure_store _ _ _ _ _ _ Hs) as [K6 _].
  pose proof (filter_rows _ _ _ _ _ S5 K5 Hp I5) as F5. pose proof (filter_rows _ _ _ _ _ S6 K6 Hq I6) as F6.
  assert (Hcps : forall c, c ∈ db_checkpoints d2 <-> c ∈ db_checkpoints d /\ t < cp_epoch c) by (intros c; rewrite I5, Z.leb_gt; done).
  assert (Hat : forall epoch digest, at_checkpoint (db_checkpoints d) epoch digest -> t < epoch -> at_checkpoint (db_checkpoints d2) epoch digest).
  { intros epoch digest (c & Hcin & He & Hd) Hlt. exists c. rewrite Hcps. split_and!; [done|lia|done|done]. }
  assert (Hev : forall r, r ∈ db_equivocations d -> exists ev, joined (db_events d2) r ev /\ t < pe_epoch (conflicting ev)).
  { intros x Hx. destruct (joined_row eqs Heqs x Hx) as (ev & Hin & Hj). exists ev.
    pose proof (equivocations_stay ws eqs Ev Heqs ev Hin) as Hst. rewrite orb_false_iff, !Z.leb_gt in Hst. fold t in Hst. destruct Hst as [H1 H2].
    split; [|done]. destruct Hj as (? & ? & ?). split; [done|]. split; [by apply I1|done]. }
  exists order, (rev + 1), (pw_next_anchor ws), h. split.
  - pose proof (pruned_anchor_ok ws eqs Ev) as Hanchor. destruct Hs. split; cbn; rewrite ?P2, ?P3, ?P4, ?P5; try done; try lia.
    + exists (List.filter (fun c => t <? cp_epoch c) cps), (List.filter (fun cl => t <? cl_epoch cl) cls).
      split_and!.
      * rewrite F5. erewrite filter_ext; [done|]. intros c. lia.
      * rewrite F6. erewrite filter_ext; [done|]. intros c. lia.
      * by destruct so_chain as (? & ? & _ & _ & ? & _).
      * done.
      * intros c [Hc _]%Hcps. destruct so_chain as (? & ? & _ & _ & _ & _ & Hn). by apply Hn.
    + intros e [He Ht]%I1. split; [by apply so_events|done].
    + intros x Hx. destruct (so_equivocations x Hx) as ((Hv & _) & ? & ? & ? & ? & _). destruct (Hev x Hx) as (ev & Hj & Ht).
      destruct Hj as (Ec & Hin & ? & ? & ?). rewrite Ec in Ht. split_and!; [by split|done|done|done|done|by exists (accepted ev)].
    + intros x [Hx Ht]%I4. destruct (so_holds x Hx). split; [done|by apply Hat].
    + intros e [He Ht]%I2. destruct (so_outbox e He) as (c & Hc & E & ?). exists c. split; [apply Hcps; split; [done|lia]|done].
    + intros c [Hc Ht]%Hcps. destruct (so_footprint c Hc) as (e & He & E). exists e. split; [apply I2; split; [done|lia]|done].
    + etrans; [by apply unacknowledged_sublist|done].
    + intros k [Hk Ht]%I3. destruct (so_acks k Hk) as (? & e & He & Ha & Hd). split; [done|]. exists e. apply delivery_text in Hd as Hd'.
      split_and!; [apply I2; split; [done|]; destruct Hd' as (_ & -> & _); done|done|done].
    + intros e [He Ht]%I2 Ha. destruct (so_acked e He Ha) as (k & Hk & Hd). exists k. split; [|done]. apply I3. split; [done|].
      symmetry in Hd. apply delivery_text in Hd as (_ & <- & _). done.
    + by eapply rows_ok_sublist.
    + by eapply rows_ok_sublist.
    + by eapply rows_ok_sublist.
    + by eapply rows_ok_sublist.
    + by eapply rows_ok_sublist.
    + by eapply rows_ok_sublist.
  - assert (Hpr : forall d3 n, db_retention d3 = [pw_next_anchor ws] -> n <= t -> pruned_at d3 n).
    { intros d3 n E Hn. exists (pw_next_anchor ws). rewrite E. split; [left|done]. }
    split; cbn; rewrite ?P2, ?P3, ?P4, ?P5.
    + intros c. rewrite (so_config _ _ _ _ _ _ Hs), list_elem_of_singleton. intros ->. eexists. split; [left|cbn; split_and!; (done || lia)].
    + intros x. rewrite (so_retention _ _ _ _ _ _ Hs). intros ->%list_elem_of_singleton. exists (pw_next_anchor ws). split; [left|lia].
    + intros x Hx. exists x. split; [done|by left].
    + intros c Hc. destruct (Z.ltb_spec t (cp_epoch c)); [left; by apply Hcps|right; by apply Hpr].
    + intros c [Hc _]%Hcps. by left.
    + intros e He. destruct (Z.ltb_spec t (pe_epoch e)); [left; by apply I1|right; by apply Hpr].
    + done.
    + intros x e Hx He Ha Hc. destruct (Hev x Hx) as (ev & (_ & Hin & Ha' & Hc' & _) & _). apply I1 in Hin as Hin'. destruct Hin' as [Hin' _].
      assert (e = accepted ev) as ->; [|done]. eapply (event_key_inj cfg d order rev a h Hs); [done|done|]. unfold event_key_of. congruence.
    + intros e He. destruct (Z.ltb_spec t (ob_epoch e)); [left|right; by apply Hpr]. exists e. split; [by apply I2|apply outbox_later_refl].
    + intros k Hk. destruct (Z.ltb_spec t (ack_epoch k)); [left; by apply I3|right; by apply Hpr].
    + intros x Hx. destruct (Z.ltb_spec t (eh_epoch x)); [left|right; by apply Hpr]. exists x. split; [by apply I4|by left].
    + apply (ev_cursors _ _ (evolves_refl d)).
    + apply (ev_jobs _ _ (evolves_refl d)).
Qed.
End From.

(** *** Opening *)

Lemma genesis_sound : configurationValid cfg = true ->
  sound (mkDb [mkStoredConfiguration cfg 0 0] [] [] [] [genesis_head cfg] [genesis_head cfg] [] [] [] [] [] []) 0 0 (genesis_head cfg) (genesis_head cfg).
Proof.
  intros Hv. unfold configurationValid in Hv. rewrite !andb_true_iff in Hv. destruct Hv as ((_ & Hg) & Hc). rewrite safe_nonneg in Hc.
  assert (Hn : forall A (x : A) (P : Prop), x ∈ [] -> P) by (intros A x P Hx; by apply elem_of_nil in Hx).
  split; cbn; try done; try (intros x Hx; by apply (Hn _ x)); try (split; [constructor|done || (intros x y Hx; by apply (Hn _ x))]).
  - exists [], []. split_and!; [done|done|done|by apply chain_nil|intros x Hx; by apply (Hn _ x)].
  - unfold unacknowledged, zlength. cbn. lia.
Qed.
Lemma configure_keeps d d' r : configurationValid cfg = true -> (d = empty_db \/ exists order rev a h, sound d order rev a h) ->
  configure cfg d = (d', inr r) -> keeps d d'.
Proof.
  intros Hv [->|(order & rev & a & h & Hs)] Hr; unfold configure in Hr; reads Hr.
  - change (row_at (key_path CONFIG_STORE) SINGLETON_KEY (db_config empty_db)) with (@None StoredConfiguration) in Hr. reads Hr.
    apply idb_add_ok in E as (-> & _), E0 as (-> & _), Hr as (-> & _). exists 0, 0, (genesis_head cfg), (genesis_head cfg).
    split; [by apply genesis_sound|]. split; cbn; intros x Hx; by apply elem_of_nil in Hx || idtac.
  - rewrite (get_config _ _ _ _ _ _ Hs) in Hr. reads Hr. rewrite (get_retention _ _ _ _ _ _ Hs) in Hr. reads Hr. by eapply keeps_same.
Qed.
End Steps.
