(* ===== verification/PlayerStoreSafety.v ===== *)
(** * The player-local store under any calls

    Calls of any number of pages on one database, in any interleaving and with
    write failures at any point: the image stays valid, what is held or disputed
    is not pruned, pruning takes a closed prefix, and attempts to poll are
    fenced. *)
From Stdlib Require Import ZifyBool.
From S2P Require Import Prelude Json Async IndexedDb ObjectStore PlayerLocal PlayerStore PlayerStoreFacts PlayerStoreSteps.
Set Default Goal Selector "!".
Import Local PlayerDb.

Section Safety.
Context `{JsHost} `{UrlParser} (cfg : PlayerLocalStoreConfiguration) (Hcfg : configurationValid cfg = true).

(** Before the first [open], or sound. *)
Definition store_inv (d : player_db) : Prop := d = empty_db \/ exists order rev a h, sound cfg d order rev a h.

(** The keys that the validity check joins with NUL tell digests apart if these
    have no NUL. *)
Definition plain_digests (call : store_call) : bool :=
  match call with
  | CallAdmit event => negb (existsb (N.eqb 0) (pe_event_digest event))
  | CallSeal writeSet _ => negb (existsb (N.eqb 0) (cp_checkpoint_digest (sw_checkpoint writeSet)))
  | _ => true
  end.
Lemma plain_no_nul s : negb (existsb (N.eqb 0) s) = true -> no_nul s.
Proof.
  rewrite negb_true_iff. intros Hn Hin. apply not_true_iff_false in Hn. apply Hn, existsb_exists. exists 0%N.
  split; [by apply list_elem_of_In|done].
Qed.

Lemma store_transaction_spec {A} (body : idb player_db A) d (Q : A -> player_db -> Prop) : store_inv d ->
  (forall d1 d2 r, store_inv d1 -> evolves d d1 -> body d1 = (d2, inr r) -> (store_inv d2 /\ evolves d1 d2) /\ Q r d2) ->
  spec store_inv evolves (transaction body) d (on_return Q).
Proof.
  intros Hd Hb. unfold transaction, idb_transaction, spec. cbn. split; [done|]. split; [reflexivity|]. intros d1 Hd1 He. unfold id.
  destruct (committed body d1) as [d2 [e|r]] eqn:E; cbn.
  - apply committed_throws in E as ->. split; [done|]. split; [reflexivity|done].
  - apply (proj1 (committed_ok _ _ _ _)) in E. destruct (Hb d1 d2 r Hd1 He E) as ((? & ?) & ?). done.
Qed.
(** On an empty database nothing but [configure] returns. *)
Lemma from_sound {A} (body : idb player_db A) d d' r : store_inv d -> (forall d2, body empty_db <> (d2, inr r)) ->
  body d = (d', inr r) -> exists order rev a h, sound cfg d order rev a h.
Proof. intros [->|Hs] He Hr; [by destruct (He d')|done]. Qed.
Lemma keeps_inv d d' : keeps cfg d d' -> store_inv d' /\ evolves d d'.
Proof. intros (order & rev & a & h & Hs & He). split; [right; by exists order, rev, a, h|done]. Qed.

(** The reads of an empty database, then [corrupt]. *)
Ltac on_empty := let d := fresh in let E := fresh in intros d E; lazy in E; discriminate E.
Lemma image_spec d : store_inv d ->
  spec store_inv evolves image d (on_return (fun img d' => exists order rev a h eqs,
    sound cfg d' order rev a h /\ img = current_image cfg d' order rev a h eqs /\
    Forall2 (joined (db_events d')) (js_sort equivocation_le (db_equivocations d')) eqs)).
Proof.
  intros Hd. apply store_transaction_spec; [done|]. intros d1 d2 r Hd1 _ Hr.
  destruct (from_sound readImage d1 d2 r Hd1 ltac:(on_empty) Hr) as (order & rev & a & h & Hs).
  destruct (sound_image cfg d1 order rev a h Hs) as (eqs & E & Hj). rewrite E in Hr. injection Hr as <- <-.
  split; [split; [done|reflexivity]|]. by exists order, rev, a, h, eqs.
Qed.

Context (hook : FaultPoint -> option jsstr).
(** A call whose transaction keeps the database, answered in any way. *)
Lemma call_spec {A} (body : idb player_db A) d : store_inv d ->
  (forall r d2, body empty_db <> (d2, inr r)) ->
  (forall d1 d2 r order rev a h, sound cfg d1 order rev a h -> body d1 = (d2, inr r) -> keeps cfg d1 d2) ->
  spec store_inv evolves (transaction body) d (on_return (fun _ _ => True)).
Proof.
  intros Hd He Hk. apply store_transaction_spec; [done|]. intros d1 d2 r Hd1 _ Hr. split; [|done].
  destruct (from_sound body d1 d2 r Hd1 (He r) Hr) as (order & rev & a & h & Hs). by eapply keeps_inv, Hk.
Qed.
(** An image that is handed out passes the check, as long as its revision is an
    exact number. *)
Definition answer_valid (answer : store_answer) : Prop :=
  match answer with
  | AnswerImage img => im_storage_revision img <= MAX_SAFE_INTEGER -> playerLocalAuditImageError img = None
  | _ => True
  end.
Abbreviation answers_validly := (on_return (fun (answer : store_answer) (_ : player_db) => answer_valid answer)).
Lemma answering_spec {A} (f : A -> store_answer) (m : async player_db A) d P :
  (forall x d', P x d' -> answer_valid (f x)) -> spec store_inv evolves m d (on_return P) ->
  spec store_inv evolves (answering f m) d answers_validly.
Proof.
  intros Hf Hm. apply (spec_bind _ _ _ _ _ _ _ Hm); [|done]. intros x d' Hd' _ Hx. apply spec_ret; [exact _|done|by eapply Hf].
Qed.
Lemma answering_any {A} (f : A -> store_answer) (m : async player_db A) d :
  (forall x, answer_valid (f x)) -> spec store_inv evolves m d (on_return (fun _ _ => True)) ->
  spec store_inv evolves (answering f m) d answers_validly.
Proof. intros Hf. apply answering_spec. by intros x _ _. Qed.
Lemma ret_spec {A} (x : A) d : store_inv d -> spec store_inv evolves (aret x) d (on_return (fun _ _ => True)).
Proof. intros Hd. apply spec_ret; [exact _|done|exact I]. Qed.
Lemma open_spec d : store_inv d -> spec store_inv evolves (open cfg) d (on_return (fun _ _ => True)).
Proof.
  intros Hd. unfold open. rewrite Hcfg. cbn [negb refuse_if].
  apply (spec_bind _ _ _ _ _ (on_return (fun _ _ => True))); [|intros x d' Hd' _ _|done].
  - apply store_transaction_spec; [done|]. intros d1 d2 r Hd1 _ Hr. split; [|done]. by eapply keeps_inv, configure_keeps.
  - unfold assertValidImage. apply (spec_bind _ _ _ _ _ _ _ (image_spec d' Hd')); [intros img d2 Hd2 _ _|done].
    destruct (playerLocalAuditImageError img); [apply spec_throw|apply spec_ret]; (exact _ || done || exact I).
Qed.
Lemma expiry_ok now duration (test : bool) : isNonNegativeInteger now = true -> (duration <=? 0) = false ->
  negb (isSafeInteger (now + duration)) || test = false -> isNonNegativeInteger (now + duration) = true.
Proof.
  rewrite safe_nonneg. intros Hn Hd [Hs%negb_false_iff _]%orb_false_iff. unfold isNonNegativeInteger. rewrite Hs. lia.
Qed.
(** The guard at the head of a call. *)
Ltac early Eg := lazymatch goal with |- spec _ _ (if ?g then _ else _) _ _ => destruct g eqn:Eg; [by apply ret_spec|] end.
Lemma store_serve_spec call d : plain_digests call = true -> store_inv d ->
  spec store_inv evolves (store_serve hook cfg call) d answers_validly.
Proof.
  intros Hp Hd. destruct call; cbn [store_serve]; try (apply answering_any; [done|]).
  - by apply open_spec.
  - eapply answering_spec; [|by apply image_spec].
    intros img d' (order & rev & a & h & eqs & Hs & -> & Hj) Hrev. by eapply image_valid.
  - unfold admitEvent. destruct (playerLocalEventValid _ _) eqn:Hv; [|by apply ret_spec].
    apply call_spec; [done|intros r; on_empty|]. intros. eapply admit_keeps; [done|exact Hv|by apply plain_no_nul|done].
  - apply call_spec; [done|intros r; on_empty|]. intros. eapply seal_keeps; [done|by apply plain_no_nul|done].
  - unfold claimOutbox. early Eg. early El.
    apply call_spec; [done|intros r; on_empty|]. intros. eapply claim_outbox_keeps; [done| |done].
    rewrite !orb_false_iff, !negb_false_iff in Eg. destruct Eg as (((_ & Hn) & _) & Hl). by eapply expiry_ok.
  - unfold releaseOutbox. destruct (negb _); [by apply ret_spec|].
    apply call_spec; [done|intros r; on_empty|]. intros. by eapply release_outbox_keeps.
  - unfold acknowledgeOutbox. destruct (ackValid _ _) eqn:Hv; [|by apply ret_spec].
    apply call_spec; [done|intros r; on_empty|]. intros. by eapply acknowledge_keeps.
  - unfold placeEvidenceHold. early Hv. apply orb_false_iff in Hv as [Hv%negb_false_iff _].
    apply call_spec; [done|intros r; on_empty|]. intros. by eapply place_hold_keeps.
  - unfold resolveEvidenceHold. destruct (playerLocalEvidenceHoldResolutionValid _ _) eqn:Hv; [|by apply ret_spec].
    apply call_spec; [done|intros r; on_empty|]. intros. by eapply resolve_hold_keeps.
  - apply call_spec; [done|intros r; on_empty|]. intros. by eapply inbox_keeps.
  - unfold scheduleEvidencePollJob. destruct (playerLocalEvidencePollJobDraftValid _ _) eqn:Hv; [|by apply ret_spec].
    apply call_spec; [done|intros r; on_empty|]. intros. by eapply schedule_keeps.
  - unfold claimEvidencePollJob. early Eg. early El.
    rewrite !orb_false_iff, !negb_false_iff in Eg. destruct Eg as (((_ & Hn) & _) & Hl).
    apply call_spec; [done|intros r; on_empty|]. intros. eapply claim_job_keeps; [done|exact Hn| |done].
    by eapply expiry_ok.
  - unfold completeEvidencePollJob. early Eg.
    rewrite !orb_false_iff, !negb_false_iff in Eg. destruct Eg as ((_ & Hn) & Hf).
    apply call_spec; [done|intros r; on_empty|]. intros. by eapply complete_job_keeps.
  - unfold escalateEvidencePollJob. early Eg.
    rewrite !orb_false_iff, !negb_false_iff in Eg. destruct Eg as ((_ & Hn) & Hf).
    apply call_spec; [done|intros r; on_empty|]. intros. by eapply escalate_keeps.
  - apply call_spec; [done|intros r; on_empty|]. intros. by eapply prune_keeps.
Qed.
End Safety.

(** ** Runs of many calls *)

(** A call whose events and checkpoints have digests without NUL characters
    ([nul_digest_locks_store] shows what one with a NUL does), with the writes
    that fail in it. *)
Record store_request := mkRequest {
  rq_fails : FaultPoint -> option jsstr;
  rq_call : store_call;
  rq_plain : plain_digests rq_call = true;
}.

Section Claims.
Context `{JsHost} `{UrlParser} (cfg : PlayerLocalStoreConfiguration) (Hcfg : configurationValid cfg = true).

Definition serve_request (req : store_request) : async player_db store_answer := store_serve (rq_fails req) cfg (rq_call req).
Abbreviation runs := (rtc (pool_step serve_request eq)).
Abbreviation from_empty := (runs (mkPool empty_db [])).
Let promise (_ : store_request) : throws store_answer -> player_db -> Prop := on_return (fun answer _ => answer_valid answer).
Let ok := pool_ok (store_inv cfg) evolves promise.

Lemma serve_request_ok req d : store_inv cfg d -> spec (store_inv cfg) evolves (serve_request req) d (promise req).
Proof. intros Hd. apply store_serve_spec; [done|apply rq_plain|done]. Qed.
Lemma runs_sound p p' : ok p -> runs p p' -> ok p' /\ evolves (store p) (store p').
Proof.
  apply pool_sound; [exact _| |exact serve_request_ok|].
  - intros d d' Hd <-. split; [done|reflexivity].
  - by intros req [e|r] d d'.
Qed.
Lemma reached p : from_empty p -> ok p.
Proof. intros Hp. apply (runs_sound (mkPool empty_db [])); [|done]. split; [by left|by constructor]. Qed.

Lemma run_store_transaction {A} (body : idb player_db A) d d' x : body d = (d', inr x) -> run_alone (transaction body) d = (d', inr x).
Proof. intros E%committed_ok. unfold run_alone, transaction, idb_transaction. cbn [fst snd finish]. unfold id. by rewrite E. Qed.
(** The check passes and the store opens. *)
Definition opens (d : player_db) : Prop :=
  exists img, readImage d = (d, inr img) /\ (im_storage_revision img <= MAX_SAFE_INTEGER ->
    playerLocalAuditImageError img = None /\ run_alone (open cfg) d = (d, inr I)).
Lemma sound_opens d order rev a h : sound cfg d order rev a h -> opens d.
Proof.
  intros Hs. destruct (sound_image cfg d order rev a h Hs) as (eqs & E & Hj).
  exists (current_image cfg d order rev a h eqs). split; [done|]. intros Hrev.
  assert (Hv : playerLocalAuditImageError (current_image cfg d order rev a h eqs) = None) by by apply image_valid.
  split; [done|]. unfold open. rewrite Hcfg. cbn [negb refuse_if].
  assert (Hc : configure cfg d = (d, inr I)).
  { unfold configure, ibind, idb_get, iread. cbn [rows_of set_rows CONFIG_STORE RETENTION_STORE].
    rewrite (get_config _ _ _ _ _ _ Hs). cbn [sc_configuration].
    assert (Es : sameConfiguration cfg cfg = true).
    { unfold sameConfiguration. rewrite same_boundary_refl, str_eqb_refl, Z.eqb_refl. done. }
    rewrite Es. unfold iguard. cbn [negb]. by rewrite (get_retention _ _ _ _ _ _ Hs). }
  rewrite run_bind, (run_store_transaction _ _ _ _ Hc). unfold assertValidImage, image.
  by rewrite run_bind, (run_store_transaction _ _ _ _ E), Hv.
Qed.

(** C37: whatever pages call the store with events and checkpoints whose digests
    have no NUL character, in whatever interleaving and with whatever writes
    failing, the database is either still new or, as long as its storage revision
    is an exact number, an image that the validity check accepts and [open] takes
    as it is; and so is every image handed out. *)
Theorem player_store_stays_valid p : from_empty p ->
  (store p = empty_db \/ opens (store p)) /\
  forall req img, (req, Finished (inr (AnswerImage img))) ∈ threads p ->
    im_storage_revision img <= MAX_SAFE_INTEGER -> playerLocalAuditImageError img = None.
Proof.
  intros Hok%reached. split.
  - destruct (proj1 Hok) as [?|(order & rev & a & h & Hs)]; [by left|right; by eapply sound_opens].
  - intros req img Hin. exact (pool_answer _ _ promise p req _ Hok Hin).
Qed.

(** C38: evidence that is held or disputed is never pruned, in the runs of calls
    with NUL-free digests.  If a hold is active
    in a later state, then every checkpoint, event, delivery and acknowledgement
    of its epoch that was ever stored is still there, a delivery possibly further
    in its course; and every equivocation ever stored is there for good, with the
    event it conflicts with. *)
Theorem held_evidence_survives p p' : from_empty p -> runs p p' ->
  let d := store p in let d' := store p' in
  (forall hold, hold ∈ db_holds d' -> hold_is_active hold = true ->
    (forall c, c ∈ db_checkpoints d -> cp_epoch c = eh_epoch hold -> c ∈ db_checkpoints d') /\
    (forall e, e ∈ db_events d -> pe_epoch e = eh_epoch hold -> e ∈ db_events d') /\
    (forall e, e ∈ db_outbox d -> ob_epoch e = eh_epoch hold ->
      exists e', e' ∈ db_outbox d' /\ e' = with_outbox_state e (ob_state e') /\ (acked e -> acked e')) /\
    (forall k, k ∈ db_acks d -> ack_epoch k = eh_epoch hold -> k ∈ db_acks d')) /\
  forall r, r ∈ db_equivocations d -> r ∈ db_equivocations d' /\
    forall e, e ∈ db_events d -> pe_author_id e = se_author_id r -> pe_counter e = se_counter r -> e ∈ db_events d'.
Proof.
  intros Hp Hr d d'. destruct (runs_sound _ _ (reached _ Hp) Hr) as [[Hd' _] He]. fold d d' in He, Hd'. split.
  - intros hold Hh Ha. assert (Hn : ~ pruned_at d' (eh_epoch hold)).
    { destruct Hd' as [E|(order & rev & a & h & Hs)]; [rewrite E in Hh; by apply elem_of_nil in Hh|].
      intros (a' & Ha' & Hle). rewrite (so_retention _ _ _ _ _ _ Hs) in Ha'. apply list_elem_of_singleton in Ha' as ->.
      destruct (so_holds _ _ _ _ _ _ Hs hold Hh) as (_ & c & Hc & E & _).
      destruct (checkpoint_epoch _ _ _ _ _ _ Hs c Hc). lia. }
    split_and!.
    + intros c Hc E. by destruct (ev_checkpoints _ _ He c Hc) as [|Hx]; [|rewrite E in Hx].
    + intros e Hin E. by destruct (ev_events _ _ He e Hin) as [|Hx]; [|rewrite E in Hx].
    + intros e Hin E. by destruct (ev_outbox _ _ He e Hin) as [|Hx]; [|rewrite E in Hx].
    + intros k Hin E. by destruct (ev_acks _ _ He k Hin) as [|Hx]; [|rewrite E in Hx].
  - intros r Hin. split; [by apply (ev_equivocations _ _ He)|]. intros e. by apply (ev_accepted _ _ He).
Qed.

(** C39: a prune that is answered with success takes a settled prefix and nothing
    else.  Of the checkpoints, closures, events, deliveries, acknowledgements and
    holds exactly those up to the new anchor go, and no hold that is active; the
    equivocations, the head, the cursors and the polling jobs stay as they are,
    the anchor is the new one and the storage revision is one higher.  No epoch of
    a checkpoint that went was protected by the request, had an active hold or a
    disputed event, or an unacknowledged delivery.  (Of a store that calls with
    NUL-free digests have reached.) *)
Theorem pruning_takes_settled_prefix p hook ws fault d' t : from_empty p ->
  let d := store p in run_alone (pruneEvidence hook ws fault) d = (d', inr (Pruned t)) ->
  t = hd_epoch (pw_next_anchor ws) /\ db_retention d' = [pw_next_anchor ws] /\
  (above t cp_epoch (db_checkpoints d) (db_checkpoints d') /\ above t cl_epoch (db_closures d) (db_closures d') /\
   above t pe_epoch (db_events d) (db_events d') /\ above t ob_epoch (db_outbox d) (db_outbox d') /\
   above t ack_epoch (db_acks d) (db_acks d') /\ above t eh_epoch (db_holds d) (db_holds d')) /\
  (db_equivocations d' = db_equivocations d /\ db_head d' = db_head d /\ db_cursors d' = db_cursors d /\
   db_jobs d' = db_jobs d /\ exists order rev,
   db_config d = [mkStoredConfiguration cfg order rev] /\ db_config d' = [mkStoredConfiguration cfg order (rev + 1)]) /\
  (forall hold, hold ∈ db_holds d -> hold_is_active hold = true -> hold ∈ db_holds d') /\
  forall c, c ∈ db_checkpoints d -> cp_epoch c <= t ->
    cp_epoch c ∉ pr_protected_epochs ws /\
    (forall hold, hold ∈ db_holds d -> hold_is_active hold = true -> eh_epoch hold <> cp_epoch c) /\
    (forall e, e ∈ db_outbox d -> ob_epoch e = cp_epoch c -> acked e) /\
    (forall r, r ∈ db_equivocations d -> pe_epoch (se_conflicting r) <> cp_epoch c).
Proof.
  intros [Hd _]%reached d Hr. fold d in Hd. unfold pruneEvidence, transaction, run_alone in Hr. cbn [fst snd idb_transaction finish] in Hr.
  unfold id in Hr. destruct (committed _ d) as [d1 [e|x]] eqn:E; [done|]. cbn [fst snd finish] in Hr.
  injection Hr as -> ->. apply (proj1 (committed_ok _ _ _ _)) in E.
  destruct Hd as [Ed|(order & rev & a & h & Hs)]; [rewrite Ed in E; discriminate E|].
  destruct (prune_result cfg hook d order rev a h Hs ws fault d' t E) as (Ht & Hret & Hrows & (Heq & Hh & Hcu & Hj & Hc) & Hact & Hcl).
  split_and!; try apply Hrows; try done. by exists order, rev.
Qed.

(** *** Attempts *)

(** The attempt [n] on the source has ended. *)
Definition attempt_over (d : player_db) (source : jsstr) (n : Z) : Prop :=
  exists job : PlayerLocalEvidencePollJob, job ∈ db_jobs d /\ pj_source_id job = source /\
    (n < pj_attempt_count job \/ (n = pj_attempt_count job /\ ~ in_flight job)).
Lemma attempt_over_later d d' source n : evolves d d' -> attempt_over d source n -> attempt_over d' source n.
Proof.
  intros He (j & Hj & Hs & Hn). destruct (ev_jobs _ _ He j Hj) as (j' & Hj' & Hd & Ha & _). exists j'. split; [done|].
  apply same_draft_eq in Hd as (_ & Hd & _). split; [congruence|]. unfold in_flight in *.
  destruct Ha as [Ha|[Ha Hst]], Hn as [Hn|[Hn Hf]]; [left; lia..|]. right. split; [lia|]. by destruct Hst as [->|].
Qed.
Lemma completion_ends_attempt d d' order rev a h c : sound cfg d order rev a h ->
  complete_job_body c d = (d', inr CompletionUpdated) ->
  ~ attempt_over d (jc_source_id c) (jc_expected_attempt_count c) /\ attempt_over d' (jc_source_id c) (jc_expected_attempt_count c).
Proof.
  intros Hs Hr. unfold complete_job_body in Hr. reads Hr. rewrite (get_config _ _ _ _ _ _ Hs) in Hr.
  destruct (row_at _ _ (db_jobs d)) as [j|] eqn:Ej; [|reads Hr; done]. apply row_at_Some in Ej as [Hj [= Hsrc]].
  destruct (negb _) eqn:Ef; [discriminate Hr|]. match type of Hr with (if ?g then _ else _) _ = _ => destruct g; [discriminate Hr|] end. reads Hr.
  apply idb_put_ok in E as [-> _]. apply (bump_result (mkStoredConfiguration cfg order rev)) in E0 as ->; [|apply (so_config _ _ _ _ _ _ Hs)].
  apply negb_false_iff in Ef. destruct (pj_state j) as [|lease| |] eqn:Est; try done. apply andb_true_iff in Ef as [En%Z.eqb_eq _].
  split.
  - intros (j2 & Hj2 & Hs2 & Hn2).
    assert (j2 = j) as ->.
    { apply (keys_distinct_inj (key_path EVIDENCE_POLL_JOB_STORE) (db_jobs d)); [apply (so_job_store _ _ _ _ _ _ Hs)|done|done|]. cbn. congruence. }
    destruct Hn2 as [|[_ Hf]]; [lia|]. apply Hf. by exists lease.
  - eexists. split; [cbn; apply elem_of_put_row; by left|]. cbn. split; [done|]. right. split; [done|]. by intros [? ?].
Qed.

Definition updated : throws store_answer := inr (AnswerCompleteJob CompletionUpdated).
Definition completed (r : throws JobCompletionResult) : throws store_answer :=
  match r with inl e => inl e | inr x => inr (AnswerCompleteJob x) end.
(** What is left of a completion before and after its transaction. *)
Definition completing (c : PlayerLocalEvidencePollJobCompletion) (s : step player_db store_answer) : Prop :=
  match s with
  | Finished _ => True
  | Suspended k => forall d, k d =
      ((committed (complete_job_body c) d).1, Finished (completed (committed (complete_job_body c) d).2))
  end.
Lemma serve_completing req c d : rq_call req = CallCompleteJob c ->
  fst (serve_request req d) = d /\ completing c (snd (serve_request req d)) /\ snd (serve_request req d) <> Finished updated.
Proof.
  intros E. unfold serve_request. rewrite E. cbn [store_serve]. unfold completeEvidencePollJob, answering, abind.
  destruct (_ || _); cbn; [done|]. split_and!; [done| |done]. intros d'. unfold id.
  destruct (committed (complete_job_body c) d') as [d2 [e|x]]; done.
Qed.

Record fenced (p : pool player_db store_request store_answer) : Prop := {
  fe_completing : forall i req c s, threads p !! i = Some (req, s) -> rq_call req = CallCompleteJob c -> completing c s;
  fe_over : forall i req c, threads p !! i = Some (req, Finished updated) -> rq_call req = CallCompleteJob c ->
    attempt_over (store p) (jc_source_id c) (jc_expected_attempt_count c);
  fe_once : forall i i' req req' c c', threads p !! i = Some (req, Finished updated) -> threads p !! i' = Some (req', Finished updated) ->
    rq_call req = CallCompleteJob c -> rq_call req' = CallCompleteJob c' -> jc_source_id c = jc_source_id c' ->
    jc_expected_attempt_count c = jc_expected_attempt_count c' -> i = i';
}.
Lemma fenced_change w ts w' ts' i req s : fenced (mkPool w ts) -> evolves w w' ->
  (forall j x, ts' !! j = Some x -> (j = i /\ x = (req, s)) \/ (j <> i /\ ts !! j = Some x)) ->
  (forall c, rq_call req = CallCompleteJob c -> completing c s /\ (s = Finished updated ->
    ~ attempt_over w (jc_source_id c) (jc_expected_attempt_count c) /\ attempt_over w' (jc_source_id c) (jc_expected_attempt_count c))) ->
  fenced (mkPool w' ts').
Proof.
  intros [Hc Ho H1] He Hts Hs. cbn [store threads] in *. split; cbn [store threads].
  - intros j rq c x [[-> [= -> ->]]|[_ Hj]]%Hts E; [by apply Hs|by eapply Hc].
  - intros j rq c [[-> [= -> <-]]|[_ Hj]]%Hts E; [by apply Hs|]. eapply attempt_over_later; [done|by eapply Ho].
  - intros j j' rq rq' c c' [[-> [= -> Es]]|[Nj Hj]]%Hts [[-> [= -> Es']]|[Nj' Hj']]%Hts E E' Esrc En; [done| | |by eapply H1].
    + destruct (proj2 (Hs c E) (eq_sym Es)) as [Hn _]. destruct Hn. rewrite Esrc, En. by eapply Ho.
    + destruct (proj2 (Hs c' E') (eq_sym Es')) as [Hn _]. destruct Hn. rewrite <- Esrc, <- En. by eapply Ho.
Qed.
Lemma fenced_step p p' : ok p -> fenced p -> pool_step serve_request eq p p' -> fenced p'.
Proof.
  intros Hok Hf Hstep. assert (He : evolves (store p) (store p')) by (apply (runs_sound _ _ Hok); by apply rtc_once).
  destruct Hstep as [w ts req|w ts i req k Hk|w ts w' <-]; cbn [store] in He; [| |done].
  - apply (fenced_change w ts _ _ (length ts) req (snd (serve_request req w))); [done|done| |].
    + intros j x Hj. destruct (decide (j = length ts)) as [->|Hn]; [left; rewrite lookup_app_r, Nat.sub_diag in Hj by done; by injection Hj as <-|].
      right. split; [done|]. pose proof (lookup_lt_Some _ _ _ Hj) as Hl. rewrite length_app in Hl. cbn in Hl. by rewrite lookup_app_l in Hj by lia.
    + intros c E. destruct (serve_completing req c w E) as (_ & Hc & Hn). by split.
  - apply (fenced_change w ts _ _ i req (snd (k w))); [done|done| |].
    + intros j x Hj. destruct (decide (j = i)) as [->|Hn]; [left|right; split; [done|by rewrite list_lookup_insert_ne in Hj]].
      rewrite list_lookup_insert_eq in Hj by (by eapply lookup_lt_Some). by injection Hj as <-.
    + intros c E. pose proof (fe_completing _ Hf i req c _ Hk E w) as Hkw. rewrite Hkw. cbn [fst snd]. split; [done|].
      destruct (committed (complete_job_body c) w) as [w2 [e|x]] eqn:Ec; [done|]. cbn [fst snd completed]. intros [= ->].
      apply (proj1 (committed_ok _ _ _ _)) in Ec. destruct Hok as [[Hw|(order & rev & a & h & Hs)] _]; cbn [store] in *.
      * rewrite Hw in Ec. discriminate Ec.
      * by eapply completion_ends_attempt.
Qed.
Lemma reached_fenced p : from_empty p -> fenced p.
Proof.
  intros Hp. pose proof (reached _ (rtc_refl _ _)) as Ho. assert (Hf : fenced (mkPool empty_db [])) by by split; cbn; intros *; rewrite lookup_nil.
  revert Ho Hf. induction Hp as [|p1 p2 p3 Hstep _ IH]; [done|]. intros Ho Hf.
  apply IH; [apply (runs_sound p1 p2 Ho); by apply rtc_once|by eapply fenced_step].
Qed.

(** C40: attempts to poll are fenced.  Once a completion of an attempt on a source
    is answered as the update, no other completion of this attempt, from whatever
    page and in whatever interleaving, earlier or later, is. *)
Theorem attempt_completes_once p i i' req req' c c' : from_empty p ->
  rq_call req = CallCompleteJob c -> rq_call req' = CallCompleteJob c' ->
  jc_source_id c = jc_source_id c' -> jc_expected_attempt_count c = jc_expected_attempt_count c' ->
  threads p !! i = Some (req, Finished updated) -> i' <> i -> threads p !! i' <> Some (req', Finished updated).
Proof. intros Hp E E' Es En Hi Hn Hi'. apply Hn. by eapply (fe_once p (reached_fenced p Hp)). Qed.
End Claims.

(** ** Witnesses: a sealed epoch, held, and one pruned *)

(** The text up to the first colon. *)
Fixpoint toy_protocol (s : jsstr) : option jsstr :=
  match s with
  | [] => None
  | c :: rest => if N.eqb c 58 then Some [c] else (cons c) <$> toy_protocol rest
  end.
Definition toy_urls : UrlParser := {| url_protocol := toy_protocol |}.
#[local] Existing Instance code_unit_host.
#[local] Existing Instance toy_urls.

Definition toy_boundary : AuditBoundary := mkBoundary 1 (js "purpose") (js "manifest") (js "scope") (js "unit").
Definition toy_cfg : PlayerLocalStoreConfiguration := mkConfiguration toy_boundary (js "genesis") 4.
Definition no_fault (_ : FaultPoint) : option jsstr := None.
Definition toy_request (call : store_call) (Hp : plain_digests call = true) : store_request := mkRequest no_fault call Hp.
Definition toy_event (author : jsstr) (counter : Z) (digest : jsstr) : PlayerLocalAuditEvent :=
  mkEvent toy_boundary author counter 0 digest (js "event").
Definition toy_checkpoint : CheckpointSealDraft := mkCheckpoint toy_boundary 0 (js "genesis") (js "sealed") (js "envelope").
Definition toy_snapshot : CheckpointSealStorageSnapshot :=
  mkSnapshot toy_boundary (-1) (js "genesis") false false false false 0 4 0.
Definition toy_seal (revision : Z) : PlayerLocalSealWriteSet :=
  mkSealWriteSet revision toy_snapshot toy_checkpoint (mkHead toy_boundary 0 (js "sealed"))
    [mkOutbox toy_boundary (js "authority") 0 (js "sealed") (js "envelope") 0 OutboxPending]
    (mkClosure toy_boundary 0 (js "roster") (js "frontier") (js "certificate")) 1 1.
Definition toy_ack : CheckpointAckEvidence := mkAck toy_boundary (js "authority") 0 (js "sealed") AckAccepted.
Definition toy_hold : PlayerLocalEvidenceHold :=
  mkHold toy_boundary (js "hold") 0 (js "sealed") HoldAppeal (js "reference") HoldActive.
Definition toy_prune (revision : Z) : PlayerLocalPruneWriteSet :=
  mkPruneWriteSet (mkPruneRequest 1 []) revision (genesis_head toy_cfg) (mkHead toy_boundary 0 (js "sealed")).

(** Opened, an event of epoch 0, sealed and delivered. *)
Definition toy_requests : list store_request :=
  [toy_request CallOpen eq_refl; toy_request (CallAdmit (toy_event (js "alice") 1 (js "d1"))) eq_refl;
   mkRequest (fun _ => Some (js "disk full")) (CallSeal (toy_seal 1) None) eq_refl;
   toy_request (CallSeal (toy_seal 1) None) eq_refl; toy_request (CallAcknowledge toy_ack) eq_refl].
Definition toy_pool : pool player_db store_request store_answer :=
  serve_all (serve_request toy_cfg) toy_requests (mkPool empty_db []).
(** Held, an attempt to prune, and the image. *)
Definition toy_held : pool player_db store_request store_answer :=
  serve_all (serve_request toy_cfg)
    [toy_request (CallPlaceHold toy_hold) eq_refl; toy_request (CallPrune (toy_prune 4) None) eq_refl; toy_request CallImage eq_refl] toy_pool.
Lemma toy_store_reached : rtc (pool_step (serve_request toy_cfg) eq) (mkPool empty_db []) toy_pool.
Proof. apply serve_all_runs. Qed.
Lemma toy_held_reached : rtc (pool_step (serve_request toy_cfg) eq) toy_pool toy_held.
Proof. apply serve_all_runs. Qed.
Abbreviation answers p := (snd <$> threads p).
Definition toy_image : PlayerLocalAuditImage :=
  match (readImage (store toy_held)).2 with inr img => img | inl _ => mkImage toy_boundary [] 0 [] [] [] (genesis_head toy_cfg) (genesis_head toy_cfg) [] [] [] [] [] [] 0 0 end.
Lemma player_store_stays_valid_witness :
  last (answers toy_held) = Some (Finished (inr (AnswerImage toy_image))) /\ im_storage_revision toy_image = 4 /\
  playerLocalAuditImageError toy_image = None /\ (store toy_held = empty_db \/ opens toy_cfg (store toy_held)).
Proof.
  assert (Hr : rtc (pool_step (serve_request toy_cfg) eq) (mkPool empty_db []) toy_held)
    by (etrans; [exact toy_store_reached|exact toy_held_reached]).
  pose proof (player_store_stays_valid toy_cfg eq_refl toy_held Hr) as [Ho Hi].
  assert (Hl : last (answers toy_held) = Some (Finished (inr (AnswerImage toy_image)))) by (vm_compute; reflexivity).
  split; [exact Hl|]. split; [vm_compute; reflexivity|]. split; [|exact Ho].
  apply (Hi (toy_request CallImage eq_refl)); [|vm_compute; discriminate].
  apply (list_elem_of_lookup_2 _ 7%nat). vm_compute. reflexivity.
Defined.

(** The prune is refused for the hold alone: without it, it takes the epoch. *)
Lemma held_evidence_survives_witness :
  answers toy_held !! 6%nat = Some (Finished (inr (AnswerPrune (PruneRefused (js "invalid_write_set"))))) /\
  toy_checkpoint ∈ db_checkpoints (store toy_held) /\ toy_event (js "alice") 1 (js "d1") ∈ db_events (store toy_held).
Proof.
  split; [vm_compute; reflexivity|].
  destruct (held_evidence_survives toy_cfg eq_refl toy_pool toy_held toy_store_reached toy_held_reached) as [Hh _].
  destruct (Hh toy_hold) as (Hc & He & _); [vm_compute; left|reflexivity|].
  split; [apply Hc; [vm_compute; left|reflexivity]|apply He; [vm_compute; left|reflexivity]].
Defined.
Lemma pruning_takes_settled_prefix_witness :
  let d' := (run_alone (pruneEvidence no_fault (toy_prune 3) None) (store toy_pool)).1 in
  toy_checkpoint ∈ db_checkpoints (store toy_pool) /\ toy_checkpoint ∉ db_checkpoints d' /\
  db_retention d' = [mkHead toy_boundary 0 (js "sealed")] /\
  forall e, e ∈ db_outbox (store toy_pool) -> ob_epoch e = 0 -> acked e.
Proof.
  intros d'.
  assert (Hr : run_alone (pruneEvidence no_fault (toy_prune 3) None) (store toy_pool) = (d', inr (Pruned 0))) by (vm_compute; reflexivity).
  destruct (pruning_takes_settled_prefix toy_cfg eq_refl toy_pool no_fault (toy_prune 3) None d' 0 toy_store_reached Hr)
    as (_ & Hret & ([_ Hc] & _) & _ & _ & Hs).
  assert (Hin : toy_checkpoint ∈ db_checkpoints (store toy_pool)) by (vm_compute; left).
  split; [exact Hin|]. split; [intros [_ Hlt]%Hc; by vm_compute in Hlt|]. split; [exact Hret|].
  apply (Hs toy_checkpoint Hin). by vm_compute.
Defined.

(** An attempt claimed, then completed twice. *)
Definition toy_completion : PlayerLocalEvidencePollJobCompletion := mkCompletion (js "source") 1 60 20 50 0.
Definition toy_polled : pool player_db store_request store_answer :=
  serve_all (serve_request toy_cfg)
    [toy_request CallOpen eq_refl;
     toy_request (CallSchedule (mkJobDraft toy_boundary (js "source") (js "https://relay") (js "message") 100 0)) eq_refl;
     toy_request (CallClaimJob (js "source") 10 50) eq_refl;
     toy_request (CallCompleteJob toy_completion) eq_refl; toy_request (CallCompleteJob toy_completion) eq_refl]
    (mkPool empty_db []).
Lemma attempt_completes_once_witness :
  answers toy_polled !! 3%nat = Some (Finished updated) /\
  threads toy_polled !! 4%nat <> Some (toy_request (CallCompleteJob toy_completion) eq_refl, Finished updated) /\
  answers toy_polled !! 4%nat = Some (Finished (inr (AnswerCompleteJob CompletionConcurrentWrite))).
Proof.
  assert (Hp : rtc (pool_step (serve_request toy_cfg) eq) (mkPool empty_db []) toy_polled) by apply serve_all_runs.
  split; [vm_compute; reflexivity|]. split; [|vm_compute; reflexivity].
  apply (attempt_completes_once toy_cfg eq_refl toy_polled 3 4 (toy_request (CallCompleteJob toy_completion) eq_refl)
    (toy_request (CallCompleteJob toy_completion) eq_refl) toy_completion toy_completion Hp eq_refl eq_refl eq_refl eq_refl);
    [vm_compute; reflexivity|discriminate].
Defined.

(** Digests with NUL characters: four events that the store admits, after which it
    no longer opens, since the keys of two equivocations that the validity check
    joins with NUL are the same text. *)
Definition nul_calls : list store_call :=
  [CallOpen; CallAdmit (toy_event (js "a") 1 (js "d")); CallAdmit (toy_event (js "a") 1 (js "2" ++ 0%N :: js "x"));
   CallAdmit (toy_event (js "a" ++ 0%N :: js "1") 2 (js "d")); CallAdmit (toy_event (js "a" ++ 0%N :: js "1") 2 (js "x"))].
Lemma nul_digest_locks_store :
  let p := serve_all (store_serve no_fault toy_cfg) nul_calls (mkPool empty_db []) in
  answers p = [Finished (inr AnswerDone); Finished (inr (AnswerAdmit EventStored)); Finished (inr (AnswerAdmit EventEquivocation));
    Finished (inr (AnswerAdmit EventStored)); Finished (inr (AnswerAdmit EventEquivocation))] /\
  run_alone (open toy_cfg) (store p) = (store p, inl (js "invalid equivocation relation")).
Proof. vm_compute. done. Qed.
